(* ===== verification/_CoqProject ===== *)
-Q . S2P
Prelude.v
RustStr.v
SortedSlice.v
DnsTypes.v
Domain.v
Rules.v
Evaluator.v
Shard.v
Decision.v
Limits.v
Admission.v
Ast.v
Compiler.v
CompilerIndex.v
CompilerStore.v
Targets.v
Engine.v
EngineProofs.v
EngineVerdict.v
ActivePolicy.v
CustomList.v
Profile.v
Cname.v
Windows.v
Limiter.v
TokenBucket.v
Circuit.v
Schedule.v
Forwarding.v
Utf8.v
ListParser.v
ListStream.v
ListEffect.v
SourceKey.v
SourcePlan.v
Spill.v
SpillProofs.v
SpillBuild.v
Corpus.v
CorpusProofs.v
CorpusLive.v
Pipeline.v
Cidr.v
Resolver.v
ResolverProofs.v
ResolverSwap.v
Rewrite.v
LocalRecords.v
ClientSubnet.v
Cache.v
Tunnelling.v
Guards.v
Security.v
Handler.v
HandlerProofs.v
Membership.v
MembershipProofs.v
Convergence.v
TimeSeries.v
TimeSeriesProofs.v
DiskTree.v
MigrationJournal.v
MigrationTxn.v
DiskLogic.v
MigrationReads.v
MigrationPlan.v
MigrationState.v
MigrationSteps.v
MigrationFacts.v
MigrationRemoval.v
MigrationWrite.v
MigrationRecovery.v
MigrationTrust.v
MigrationDraft.v
MigrationPublish.v
MigrationCommit.v
MigrationEnd.v
MigrationHistory.v
MigrationExample.v
MigrationProofs.v
