(* ===== verification/Prelude.v ===== *)
(** * Warden: a verification library for the filtering core of the resolver

    Warden is a DNS forwarder that filters.  A query name is validated, matched
    against the profile of the asking device (admin rules, two sets of plain
    domains, downloaded lists held in sixteen sorted shards, and, once
    activated, a compiled snapshot of the operator's own lists), answered from
    upstream, and the CNAME chain of the answer is inspected under the same
    policy.  Rate limiters guard both directions and a circuit breaker guards
    each upstream.  The library follows the source under [src/src/]; paths below
    are relative to it, and definitions keep the names of the code.

    ** Conventions

    Pure functions are functions; [Result] is [result] with [let?] for [?];
    [Option] is [option]; a panic is [None].  Text is the list of its UTF-8
    bytes, so lengths and offsets are those of Rust.  Machine integers are [Z]
    with wrapping and saturation written out.  Hash maps and sets are [gmap] and
    [gset], or association lists where order matters; sorted arrays are lists
    with the standard library's binary search.  Shared atomics are step
    relations over the program counters of any number of threads, closed under
    every interleaving.

    Code outside the repository is a class with the documented facts the proofs
    use as fields or named hypotheses: the [regex] crate ([Rules]), SHA-256
    ([Ast]), the dense automata of [regex-automata] ([Compiler]), the shard
    hasher ([Engine]), the names of [hickory_proto] ([Cname], [LocalRecords],
    joined in [Handler] with the law of their ASCII text: without a backslash it
    is the labels byte for byte), the [moka] cache ([Cache]) and floating point ([Tunnelling]).  Each has a
    concrete instance on which the sample theorems are evaluated.  The iteration
    order of the concurrent map is an argument ([Limiter]), and so are the ARP
    table, the clock and the hash of the resolver ([Resolver]).  Storage is an oracle
    that says for each call whether it fails and after how many bytes, and what a
    file holds when it is opened again; a cancellation is an oracle over the
    looks of the worker at the shared phase ([Spill], [Corpus]).  Every hash set
    of a parse or of a shard that is counted has a hasher of its own.  What a request
    meets outside the process, the upstream, the clocks, the DNSSEC verdict and
    the transport, is a record of its answers ([Handler]).  JSON is a class whose
    reader undoes its writer ([MigrationJournal]).  A command on the configuration
    meets a list of fates, one for each system call: it works, it fails, or the
    process dies there; a power cut keeps for every directory a first part of its
    changes since it was synced, and anything of a file that was not ([DiskTree]).

    ** Files

    - [Prelude]: results, integers, bits, byte order, transition systems, the
      tactics and the hint database.
    - [RustStr], [SortedSlice]: the parts of [str] and of slice search the
      program uses, with their characterisations.
    - [DnsTypes], [Domain]: [dns/error.rs], [common/domain.rs] and
      [dns/validation.rs].  The domain check is its grammar; query validation
      accepts exactly the names within the three limits.
    - [Rules], [Evaluator]: [filter/rules.rs] and [filter/evaluator.rs].  What
      the rule parser accepts is well-formed, a printed rule parses back, a
      wildcard line covers the apex and the subdomains, and the early-exit scan
      returns the first rule of the highest priority.
    - [Shard], [Engine], [EngineProofs], [EngineVerdict]: [filter/engine.rs].
      Building and validating shards; every operation keeps every shard sorted
      and in its slot; a lookup over sixteen shards is a lookup in one map; the
      optimised evaluation is the documented truth table and names the exact
      cause of a block; a name of an unknown profile is filtered as the most
      restrictive one; a reload, shard by shard, shows each name either the old
      or the new policy.
    - [Decision], [Targets]: [filter/operator_rules/decision.rs].  Tiers, allow
      grants tied to the profile that issued them, and the reduction of a rule,
      a grant and the lists to one verdict.
    - [Limits], [Admission]: [limits.rs] and [admission.rs] there.  Checked
      arithmetic and ceilings; in every interleaving of builders and dropped
      snapshots the shared counters equal the leases held, within their limits.
    - [Ast]: [ast.rs] there.  The regex-free parser agrees with the parser of
      [Rules], and the framed key of a rule determines it.
    - [Compiler], [CompilerIndex], [CompilerStore]: [compiler.rs] there and
      [config/schema/id.rs].  A compiled profile decides every name as the rows
      of the lists it mounts, with the row that wins named; the winner-only
      index with inherited ancestors finds the best rule of all; a compilation
      charges what it keeps and returns everything on failure.
    - [ActivePolicy]: the evaluation that joins a bound snapshot with the lists,
      against the text of the lists.
    - [Profile]: [profiles/profile.rs].  The sets and the scanned rules a profile
      or a device overlay is built into decide as the configured rules do, with
      the one difference stated.
    - [CustomList]: [config/custom_list/grammar.rs] and the edits of [io.rs].
      A line of a pack file means what the admin parser says; composed lines
      parse back; an edit changes the one rule it names.
    - [Cname]: [filter/cname.rs].  The walker lets an answer through exactly when
      its branch is a well-formed chain whose targets are all allowed, a grant
      never excuses a malformed branch, and the order of records is irrelevant.
    - [Windows], [Limiter], [TokenBucket]: [security/atomic_window.rs],
      [bounded_map.rs], [rrl.rs] and [rate_limiter.rs].  Counts are exact under
      any interleaving at a window reset; the capped map evicts only a sampled
      oldest entry; budgets of different destinations are independent and their
      keys do not collide; a bucket never admits more than burst plus rate.
    - [Circuit], [Forwarding]: [upstream/circuit.rs], refined to a two-state
      contract, one lookup at a time, and [upstream/forwarding.rs], where a name
      goes to the longest configured zone that covers it.
    - [Schedule]: [profiles/schedule.rs].  A parsed schedule is active exactly in
      the minutes and on the days its text names.
    - [Cidr]: [config/cidr.rs] and the address parser of the standard library.
      A strict block, a wildcard and a range each contain exactly the addresses
      their text says.
    - [Resolver], [ResolverProofs], [ResolverSwap]: [profiles/resolver.rs] and
      the device, group, subnet and schedule rows of [config/schema/].  The
      compiled indexes answer as the chain of levels read off the rows; under
      MAC enforcement only an owner of the MAC seen gets the levels of a device,
      and an alias stops identifying its device at the next rebuild.  In every
      interleaving of policy swaps and schedule refreshes each publication is
      the successor of the one it replaces and none is lost.
    - [Rewrite], [LocalRecords]: [dns/rewrite.rs], [dns/local.rs],
      [dns/local_profile.rs] and the cycle check of [config/validator.rs].  A
      name is rewritten by its exact rule or by the deepest covering one; a
      local name is answered from its own rows, else from the deepest wildcard;
      an address has the reverse name of the rows that hold it; the cycle check
      ends on every rule set and reports a name exactly when there is a cycle.
    - [ClientSubnet]: [dns/edns/client_subnet.rs] and the policy of
      [profiles/profile.rs].  The upstream is told the masked prefix the profile
      and the server allow, and nothing when either says no.
    - [Cache]: [dns/cache.rs].  What a lookup returns came from an answer to the
      same key that nothing removed since, within its lifetime; a stale entry is
      served once.
    - [Tunnelling], [Guards]: [security/tunneling.rs], [security/anti_bypass.rs]
      and [filter/ip_filter.rs].  The rate gate counts the distinct names under a
      base domain and never a repeat; a name of another resolver is refused
      exactly when the operator listed it or a parent; an answer is refused for
      its first listed address unless the serving profile granted the name.
    - [Security]: [security/query_validator.rs] and the layer of
      [dns/handler.rs].  What passes the gate in front of a query, exactly.
    - [Handler], [HandlerProofs]: [dns/handler.rs], one request from its arrival
      to its answer through all the parts above, with the events it emits.  A
      query goes upstream and a record from there or from the cache is sent only
      for a name the configured profile of the client forwards, and only after
      its chain and addresses were checked, the chain of a name whose text has
      escapes excepted, which only a resolver without the security checks serves;
      every query is answered once, or dropped by the rate limiter; the response
      code a client sees.
    - [Utf8]: the decoder of the standard library.
    - [ListParser], [ListStream], [ListEffect]: [lists/parser.rs],
      [lists/detector.rs] and the counts of [lists/status.rs].  The streaming
      parser ends on every byte stream, fails closed at a faulty line and
      otherwise delivers what the whole-text parser does; parsing a list adds
      its bit to its domains and changes nothing else; a list in AdGuard syntax
      contributes only plain blocks.
    - [SourceKey], [SourcePlan]: [lists/source_key.rs], the lookup of
      [lists/catalog.rs] and the rows of [config/schema/blocklist.rs].  Every
      spelling of a list leads to one bit, and the masks published for a profile
      hold that bit on the side the operator's direction says.
    - [Spill], [SpillProofs], [SpillBuild]: the spill of a refresh, the parse of
      one source into it and the retention guard, in [lists/manager.rs].  A
      source is taken whole or not at all whatever the storage does; a sealed
      file reads as records that belong to it; the shard built from records
      holds for each domain the bits of all its records; the guard trips exactly
      on a drop above the configured share.
    - [Corpus], [CorpusProofs], [CorpusLive]: the second half of a refresh there
      and [lists/cancellation.rs].  A cancelled or failed commit leaves every
      shard as it was or replaced by its own sealed records, within the ceiling,
      and the digest it keeps describes what is live; with working storage and
      no cancellation the commit installs.
    - [Pipeline]: the composition.  After a refresh that installed, a name is
      blocked for a profile exactly when the accepted texts of the configured
      lists say so.
    - [Membership], [MembershipProofs]: [cluster/membership.rs] and
      [auth/token.rs], with the outcome of each write of the roster, the random
      bytes and the clock as arguments.  Whoever is let in as a member was
      invited and admitted, activated in time and not revoked since, also
      across restarts and writes of unknown outcome; an invitation admits one
      node; what is written opens again.
    - [Convergence]: [cluster/acknowledgement.rs], [state.rs] and the parts of
      [routes.rs] and [dto.rs] there that move acknowledgements.  The cluster
      counts as converged only if every member of the roster it last read is active
      and said so, of this policy and recently enough, and was active on the disk
      from then to the reading.
    - [TimeSeries], [TimeSeriesProofs]: [tracking/time_series.rs].  In every
      interleaving of calls at a rollover each counter is exact up to the
      additions that came after the old bucket was read, which are accounted one
      by one; merging a saved snapshot with what came after a restart loses and
      doubles nothing.
    - [DiskTree], [MigrationJournal], [MigrationTxn]: the transaction that moves a
      configuration to the next schema, [config/migration_journal.rs], its driver
      [cli/commands/migrate/v3_to_v4.rs], and the calls of [config/tree_io.rs],
      [atomic_write.rs] and [write_lock.rs] it makes.  The state is the disk; a
      command is a program of a monad of fates.
    - [DiskLogic], [MigrationReads]: the triples of that monad, which say what
      holds when a program returns, when it fails and when it dies, and when it
      has to return; and what the checks of the transaction find.
    - [MigrationPlan], [MigrationState], [MigrationSteps], [MigrationFacts]: what a
      planned migration fixes, the invariant of the disk, closed under power cuts,
      and what each call does to it.
    - [MigrationTrust]: who owns the nodes.  The logic is relative to a set of
      nodes whose owner is known to be that of the tree: all of them when the
      owner runs the command, and when root does, those it found or gave away.
    - [MigrationRemoval], [MigrationWrite], [MigrationRecovery], [MigrationDraft],
      [MigrationPublish], [MigrationCommit], [MigrationEnd]: removing a fence,
      replacing a member, the states of a publication, and the triple of each
      command.
    - [MigrationHistory], [MigrationExample], [MigrationProofs]: commands in any
      order, each stopped anywhere, with power cuts; a tree of two files.  A
      reader that is let in finds the configuration all old or all new; a
      migration that reports success is on disk with its undo; after a stop
      anywhere recovery lets readers in again; a rollback restores every file
      and a finalised migration stays.  Three histories show where this ends: a
      recovery that follows one killed between a rename and its sync, an undo
      whose journal was never synced, and a fence root had no time to give away.

    ** Bounds and fuel

    Binary search has the length of the slice as fuel and needs one unit per
    halving.  The streaming line loop has one unit more than there are bytes, as
    every turn reads a byte or ends, and so has the reader of spill records.  The
    walk of the cycle check has two units more than the graph has edges.  All
    are proved to be enough.  All other
    recursion is structural.  Shards are sixteen, list bits
    sixty-four, CNAME hops sixteen, as in the source.  Counters are assumed below
    their wrap-around only where a statement says so.

    ** Not modelled

    The loading of a configuration and the rewriting of its text, which a
    migration calls between its steps and which may fail there; links, devices and
    change times, and the directories of the members beyond the file each name leads to.
    Downloads and the cache of list bodies, sockets and the scheduling of tasks: a
    request is handled without another between its steps, and waiters that share
    one fetch are one request.  The encoding of messages and of the store of the
    membership with its limit on size; serialisation derived by
    macros; the HTTP, IPC and terminal interfaces; the publication of cluster
    artifacts and the control of nodes; the other statistics.  Memory
    ordering is sequential consistency; each atomic word is accessed on its own,
    and a shard cell is one atomic store. *)

From stdpp Require Export base list gmap strings sorting.
From Stdlib Require Export ZArith Lia Ascii.
From Stdlib Require String.


(** ** Bytes and strings

    A Rust [&str], [String] or [CompactString] is the list of its UTF-8
    bytes, so that [len()], byte indexing and byte-offset slicing mean what
    they mean in the source. *)

Abbreviation str := (list ascii).

Definition lit (s : string) : str := String.list_ascii_of_string s.
Arguments lit s%_string.

Definition byte (a : ascii) : Z := Z.of_N (N_of_ascii a).

(** ** Results: [Result<A, E>] with the [?] operator *)

Inductive result (E A : Type) : Type :=
| Ok (a : A)
| Err (e : E).
Arguments Ok {E A} a.
Arguments Err {E A} e.

Definition rbind {E A B : Type} (r : result E A) (k : A → result E B) : result E B :=
  match r with
  | Ok a => k a
  | Err e => Err e
  end.

Definition map_err {E F A : Type} (f : E → F) (r : result E A) : result F A :=
  match r with
  | Ok a => Ok a
  | Err e => Err (f e)
  end.

Definition ok_or {E A : Type} (o : option A) (e : E) : result E A :=
  match o with
  | Some a => Ok a
  | None => Err e
  end.

Definition is_ok {E A : Type} (r : result E A) : bool :=
  match r with
  | Ok _ => true
  | Err _ => false
  end.

Definition ok {E A : Type} (r : result E A) : option A :=
  match r with
  | Ok a => Some a
  | Err _ => None
  end.

Declare Scope warden_scope.
Delimit Scope warden_scope with warden.
Open Scope warden_scope.

Notation "'let?' x ':=' e 'in' k" := (rbind e (fun x => k))
  (at level 10, x pattern, e at level 100, k at level 200)
  : warden_scope.
Notation "e ';;?' k" := (rbind e (fun _ => k))
  (at level 100, k at level 200, right associativity) : warden_scope.

(** ** Machine integers

    Unsigned integers are kept in [Z] with their width written out.  The
    crate is built for 64-bit targets, so [usize] is 64 bits wide. *)

Definition U8_MAX : Z := 2 ^ 8 - 1.
Definition U32_MAX : Z := 2 ^ 32 - 1.
Definition U64_MAX : Z := 2 ^ 64 - 1.
Definition USIZE_MAX : Z := 2 ^ 64 - 1.

(** [x as uN] and the wrap-around of [fetch_add] and [wrapping_mul]. *)
Definition as_u8 (x : Z) : Z := x mod 2 ^ 8.
Definition as_u32 (x : Z) : Z := x mod 2 ^ 32.
Definition as_u64 (x : Z) : Z := x mod 2 ^ 64.

Definition saturating_sub (a b : Z) : Z := Z.max 0 (a - b).
Definition saturating_add (max a b : Z) : Z := Z.min max (a + b).
Definition saturating_mul (max a b : Z) : Z := Z.min max (a * b).

Definition in_u8 (x : Z) : Prop := (0 ≤ x ≤ U8_MAX)%Z.
Definition in_u32 (x : Z) : Prop := (0 ≤ x ≤ U32_MAX)%Z.
Definition in_u64 (x : Z) : Prop := (0 ≤ x ≤ U64_MAX)%Z.

(** ** Automation *)

Create HintDb warden discriminated.

Ltac inv_result :=
  repeat match goal with
  | H : Ok _ = Err _ |- _ => discriminate H
  | H : Err _ = Ok _ |- _ => discriminate H
  | H : Ok _ = Ok _ |- _ => injection H as H; subst
  | H : Err _ = Err _ |- _ => injection H as H; subst
  end.

(** Case analysis on the innermost [match] of a hypothesis or of the goal. *)
Ltac case_in H :=
  match type of H with
  | context [ match ?x with _ => _ end ] =>
    lazymatch x with
    | context [ match _ with _ => _ end ] => fail
    | _ => destruct x eqn:?
    end
  end.

Ltac case_goal :=
  match goal with
  | |- context [ match ?x with _ => _ end ] =>
    lazymatch x with
    | context [ match _ with _ => _ end ] => fail
    | _ => destruct x eqn:?
    end
  end.

Ltac unfold_max := unfold in_u8, in_u32, in_u64, U8_MAX, U32_MAX, U64_MAX, USIZE_MAX in *.

Lemma rbind_Ok {E A B : Type} (r : result E A) (k : A → result E B) (b : B) :
  rbind r k = Ok b ↔ ∃ a, r = Ok a ∧ k a = Ok b.
Proof. destruct r; simpl; naive_solver. Qed.

Lemma rbind_Err {E A B : Type} (r : result E A) (k : A → result E B) (e : E) :
  rbind r k = Err e ↔ r = Err e ∨ ∃ a, r = Ok a ∧ k a = Err e.
Proof. destruct r; simpl; naive_solver. Qed.

Lemma map_err_Ok {E F A : Type} (f : E → F) (r : result E A) (a : A) :
  map_err f r = Ok a ↔ r = Ok a.
Proof. destruct r; simpl; naive_solver. Qed.

(** A loop whose body may return early with an error. *)
Fixpoint try_fold {E A B} (f : A → B → result E A) (acc : A) (l : list B) : result E A :=
  match l with
  | [] => Ok acc
  | x :: rest => let? acc := f acc x in try_fold f acc rest
  end.

Lemma try_fold_app {E A B} (f : A → B → result E A) acc l k :
  try_fold f acc (l ++ k) = let? acc := try_fold f acc l in try_fold f acc k.
Proof. revert acc. induction l as [|x l IH]; intros acc; [done|]. cbn. destruct (f acc x); cbn; auto. Qed.

(** An invariant of the body over the elements done so far holds at the end. *)
Lemma try_fold_inv {E A B} (f : A → B → result E A) (I : list B → A → Prop) l acc acc' :
  I [] acc →
  (∀ done x a a', x ∈ l → I done a → f a x = Ok a' → I (done ++ [x]) a') →
  try_fold f acc l = Ok acc' → I l acc'.
Proof.
  intros H0 Hstep. revert acc'. induction l as [|x l IH] using rev_ind; intros acc' H.
  { by injection H as <-. }
  rewrite try_fold_app in H. apply rbind_Ok in H as (a & Ha & H).
  apply rbind_Ok in H as (a' & Hx & H). injection H as <-.
  eapply (Hstep l x); [set_solver| |done]. apply IH; [|done].
  intros d y b b' Hy. apply Hstep. set_solver.
Qed.

Ltac inv_bind :=
  repeat match goal with
  | H : rbind _ _ = Ok _ |- _ =>
    let a := fresh "a" in let Ha := fresh "Ha" in
    apply rbind_Ok in H as (a & Ha & H)
  | H : map_err _ _ = Ok _ |- _ => apply map_err_Ok in H
  | u : () |- _ => destruct u
  end.

(** ** Ordering of byte strings

    [str::cmp] is lexicographic on bytes. *)

Fixpoint str_cmp (a b : str) : comparison :=
  match a, b with
  | [], [] => Eq
  | [], _ :: _ => Lt
  | _ :: _, [] => Gt
  | x :: a', y :: b' =>
    match N.compare (N_of_ascii x) (N_of_ascii y) with
    | Eq => str_cmp a' b'
    | c => c
    end
  end.

Definition str_lt (a b : str) : Prop := str_cmp a b = Lt.
Definition str_ltb (a b : str) : bool := match str_cmp a b with Lt => true | _ => false end.
Definition str_eqb (a b : str) : bool := bool_decide (a = b).

Lemma N_of_ascii_inj x y : N_of_ascii x = N_of_ascii y → x = y.
Proof. intros H. rewrite <-(ascii_N_embedding x), <-(ascii_N_embedding y). by rewrite H. Qed.

Lemma str_cmp_eq a b : str_cmp a b = Eq ↔ a = b.
Proof.
  revert b; induction a as [|x a IH]; intros [|y b]; simpl; try naive_solver.
  destruct (N.compare_spec (N_of_ascii x) (N_of_ascii y)) as [E|E|E].
  - apply N_of_ascii_inj in E as ->. rewrite IH. naive_solver.
  - split; [done|]. intros [= -> ->]. lia.
  - split; [done|]. intros [= -> ->]. lia.
Qed.

Lemma str_cmp_refl a : str_cmp a a = Eq.
Proof. by apply str_cmp_eq. Qed.

Lemma str_cmp_antisym a b : str_cmp b a = CompOpp (str_cmp a b).
Proof.
  revert b; induction a as [|x a IH]; intros [|y b]; simpl; try done.
  rewrite (N.compare_antisym (N_of_ascii x) (N_of_ascii y)).
  destruct (N.compare _ _); simpl; auto.
Qed.

Lemma str_cmp_gt a b : str_cmp a b = Gt ↔ str_lt b a.
Proof. unfold str_lt. rewrite (str_cmp_antisym a b). by destruct (str_cmp a b). Qed.

#[export] Instance str_lt_strict : StrictOrder str_lt.
Proof.
  split.
  - intros a Ha. unfold complement, str_lt in *. by rewrite str_cmp_refl in Ha.
  - unfold str_lt. intros a. induction a as [|x a IH]; intros [|y b] [|z c]; simpl; try done.
    destruct (N.compare_spec (N_of_ascii x) (N_of_ascii y)) as [E1|E1|E1]; try done;
    destruct (N.compare_spec (N_of_ascii y) (N_of_ascii z)) as [E2|E2|E2]; try done;
    intros H1 H2;
    destruct (N.compare_spec (N_of_ascii x) (N_of_ascii z)) as [E3|E3|E3]; try done; try lia.
    eauto.
Qed.

Lemma str_lt_irrefl a : ¬ str_lt a a.
Proof. apply (irreflexivity str_lt). Qed.

Lemma str_lt_total a b : str_lt a b ∨ a = b ∨ str_lt b a.
Proof.
  destruct (str_cmp a b) eqn:E.
  - right; left. by apply str_cmp_eq.
  - by left.
  - right; right. by apply str_cmp_gt.
Qed.

#[export] Instance str_lt_dec a b : Decision (str_lt a b).
Proof. unfold str_lt. apply _. Defined.

(** ** Bits of a 64-bit mask *)

Definition u64_not (x : Z) : Z := Z.lxor x U64_MAX.

Lemma bits_above_u64 x i : in_u64 x → (64 ≤ i)%Z → Z.testbit x i = false.
Proof.
  intros [Hx Hm] Hi. unfold U64_MAX in Hm.
  destruct (decide (x = 0)%Z) as [->|Hne]; [apply Z.bits_0|].
  apply Z.bits_above_log2; [lia|].
  assert (Z.log2 x < 64)%Z; [|lia]. apply Z.log2_lt_pow2; lia.
Qed.

Lemma land_nonzero_testbit x :
  x ≠ 0%Z → (0 ≤ x)%Z → ∃ i, (0 ≤ i)%Z ∧ Z.testbit x i = true.
Proof.
  intros Hne Hx. exists (Z.log2 x). split; [apply Z.log2_nonneg|].
  apply Z.bit_log2. lia.
Qed.

(** ** Lists *)

Lemma last_Some_app {A} (l : list A) x : last l = Some x ↔ ∃ l', l = l' ++ [x].
Proof. apply last_Some. Qed.

Lemma rev_app_eq {A} (l k : list A) : l = k ↔ rev l = rev k.
Proof. split; [by intros ->|]. intros H. rewrite <-(rev_involutive l), H. apply rev_involutive. Qed.

Lemma filter_none {A} (P : A → Prop) `{∀ x, Decision (P x)} (l : list A) :
  (∀ x, x ∈ l → ¬ P x) → filter P l = [].
Proof.
  induction l as [|x l IH]; intros Hn; [done|]. rewrite filter_cons, decide_False by (apply Hn; left).
  apply IH. intros y Hy. apply Hn. by right.
Qed.

(** ** Transition systems *)

(** An invariant preserved by every step holds in every reachable state. *)
Lemma rtc_preserves {A} (R : relation A) (P : A → Prop) x y :
  (∀ x y, P x → R x y → P y) → P x → rtc R x y → P y.
Proof. intros Hstep Hx Hr. revert Hx. induction Hr; eauto. Qed.

(** Threads over a shared word: if each thread can finish on its own from
    every state, every configuration can run to completion. *)
Lemma finish_all {T W} (R : relation (list T * W)) (done : T → Prop) :
  (∀ ts w i t, ts !! i = Some t → ∃ t' w', rtc R (ts, w) (<[i := t']> ts, w') ∧ done t') →
  ∀ ts w, ∃ ts' w', rtc R (ts, w) (ts', w') ∧ length ts' = length ts ∧ Forall done ts'.
Proof.
  intros Hone ts w.
  assert (∀ k, k ≤ length ts → ∃ ts' w', rtc R (ts, w) (ts', w')
    ∧ length ts' = length ts ∧ Forall done (take k ts')) as H.
  { induction k as [|k IH]; intros Hk; [by exists ts, w|].
    destruct IH as (ts' & w' & Hr & Hl & Hf); [lia|].
    destruct (lookup_lt_is_Some_2 ts' k) as [t Hi]; [lia|].
    destruct (Hone ts' w' k t Hi) as (t' & w'' & Hr' & Hd).
    exists (<[k := t']> ts'), w''. split_and!; [by etrans|by rewrite length_insert|].
    rewrite (take_S_r _ _ t') by (apply list_lookup_insert_eq; lia).
    rewrite take_insert_ge by lia. apply Forall_app. split; [done|]. by constructor. }
  destruct (H (length ts)) as (ts' & w' & Hr & Hl & Hf); [done|].
  exists ts', w'. by rewrite <-Hl, firstn_all in Hf.
Qed.

(** ** Stable sorting: [slice::sort_by], with [le] for "not greater" *)

Section SortBy.
Context {A : Type} (le : A → A → bool).

Fixpoint insert_by (x : A) (l : list A) : list A :=
  match l with
  | [] => [x]
  | y :: l' => if le x y then x :: l else y :: insert_by x l'
  end.

Definition sort_by (l : list A) : list A := foldr insert_by [] l.

Lemma insert_by_perm x l : insert_by x l ≡ₚ x :: l.
Proof. induction l as [|y l IH]; [done|]. cbn. destruct (le x y); [done|]. rewrite IH. apply Permutation_swap. Qed.

Lemma sort_by_perm l : sort_by l ≡ₚ l.
Proof. induction l as [|x l IH]; [done|]. cbn. by rewrite insert_by_perm, IH. Qed.

Context (le_total : ∀ x y, le x y = true ∨ le y x = true).
Context (le_trans : ∀ x y z, le x y = true → le y z = true → le x z = true).

Lemma insert_by_sorted x l : StronglySorted (fun a b => le a b = true) l → StronglySorted (fun a b => le a b = true) (insert_by x l).
Proof.
  induction 1 as [|y l Hs IH Hf]; cbn; [by repeat constructor|]. destruct (le x y) eqn:Hx.
  - constructor; [by constructor|]. constructor; [done|]. eapply Forall_impl; [exact Hf|]. intros z. by apply le_trans.
  - constructor; [done|]. rewrite insert_by_perm. constructor; [|done]. destruct (le_total x y); congruence.
Qed.

Lemma sort_by_sorted l : StronglySorted (fun a b => le a b = true) (sort_by l).
Proof. induction l as [|x l IH]; [constructor|]. cbn. by apply insert_by_sorted. Qed.

End SortBy.
