(* ===== verification/RustStr.v ===== *)
(** * The part of Rust's [str] API the program uses

    Executable definitions of the standard-library functions the modelled
    modules call ([trim], [strip_prefix], [split], [lines], ...), on UTF-8
    byte strings, with the characterisations the components' proofs use. *)

From S2P Require Import Prelude.

(** ** Characters *)

Definition is_ascii_uppercase (a : ascii) : bool :=
  (65 <=? byte a)%Z && (byte a <=? 90)%Z.
Definition is_ascii_lowercase (a : ascii) : bool :=
  (97 <=? byte a)%Z && (byte a <=? 122)%Z.
Definition is_ascii_digit (a : ascii) : bool :=
  (48 <=? byte a)%Z && (byte a <=? 57)%Z.
Definition is_ascii_alphanumeric (a : ascii) : bool :=
  is_ascii_uppercase a || is_ascii_lowercase a || is_ascii_digit a.

(** [u8::to_ascii_lowercase]: bit 5 is set on [A..Z]. *)
Definition to_lower (a : ascii) : ascii :=
  if is_ascii_uppercase a then ascii_of_N (N_of_ascii a + 32) else a.

Definition to_ascii_lowercase (s : str) : str := map to_lower s.

Definition eq_ignore_ascii_case (a b : str) : bool :=
  bool_decide (to_ascii_lowercase a = to_ascii_lowercase b).

Definition is_lowercase (s : str) : bool :=
  forallb (fun a => negb (is_ascii_uppercase a)) s.

(** ** Prefixes, suffixes and searching *)

Fixpoint strip_prefix (p s : str) : option str :=
  match p, s with
  | [], _ => Some s
  | a :: p', c :: s' => if decide (a = c) then strip_prefix p' s' else None
  | _ :: _, [] => None
  end.

Definition starts_with (p s : str) : bool :=
  match strip_prefix p s with Some _ => true | None => false end.

Definition strip_suffix (p s : str) : option str :=
  match strip_prefix (rev p) (rev s) with
  | Some r => Some (rev r)
  | None => None
  end.

Definition ends_with (p s : str) : bool :=
  match strip_suffix p s with Some _ => true | None => false end.

Fixpoint find (c : ascii) (s : str) : option nat :=
  match s with
  | [] => None
  | a :: s' => if decide (a = c) then Some 0 else S <$> find c s'
  end.

Definition contains (c : ascii) (s : str) : bool :=
  existsb (fun a => bool_decide (a = c)) s.

(** [str::split_once] at the first occurrence of [c]. *)
Fixpoint split_once (c : ascii) (s : str) : option (str * str) :=
  match s with
  | [] => None
  | a :: s' =>
    if decide (a = c) then Some ([], s')
    else match split_once c s' with
         | Some (x, y) => Some (a :: x, y)
         | None => None
         end
  end.

(** [str::split]: never empty, one field more than there are separators. *)
Fixpoint split (c : ascii) (s : str) : list str :=
  match s with
  | [] => [[]]
  | a :: s' =>
    if decide (a = c) then [] :: split c s'
    else match split c s' with
         | [] => [[a]]
         | w :: ws => (a :: w) :: ws
         end
  end.

(** [str::split_inclusive]: the separator stays at the end of its field, and
    a trailing empty field is not produced. *)
Fixpoint split_inclusive (c : ascii) (s : str) : list str :=
  match s with
  | [] => []
  | a :: s' =>
    if decide (a = c) then [a] :: split_inclusive c s'
    else match split_inclusive c s' with
         | [] => [[a]]
         | w :: ws => (a :: w) :: ws
         end
  end.

Definition NL : ascii := ascii_of_N 10.
Definition CR : ascii := ascii_of_N 13.
Definition NUL : ascii := ascii_of_N 0.

(** The line of a physical row: one LF, with the CR before it, is dropped. *)
Definition strip_eol (raw : str) : str :=
  match strip_suffix [NL] raw with
  | Some line => default line (strip_suffix [CR] line)
  | None => raw
  end.

(** [str::lines]. *)
Definition lines (s : str) : list str := map strip_eol (split_inclusive NL s).

(** ** Trimming

    [str::trim] removes the characters with the Unicode property
    [White_Space].  Their UTF-8 encodings have one to three bytes:
    U+0009..U+000D, U+0020; U+0085, U+00A0; U+1680, U+2000..U+200A, U+2028,
    U+2029, U+202F, U+205F, U+3000. *)

Definition ws1 (a : ascii) : bool :=
  ((9 <=? byte a)%Z && (byte a <=? 13)%Z) || (byte a =? 32)%Z.
Definition ws2 (a b : ascii) : bool :=
  (byte a =? 194)%Z && ((byte b =? 133)%Z || (byte b =? 160)%Z).
Definition ws3 (a b c : ascii) : bool :=
  ((byte a =? 225)%Z && (byte b =? 154)%Z && (byte c =? 128)%Z)
  || ((byte a =? 226)%Z && (byte b =? 128)%Z
      && (((128 <=? byte c)%Z && (byte c <=? 138)%Z)
          || (byte c =? 168)%Z || (byte c =? 169)%Z || (byte c =? 175)%Z))
  || ((byte a =? 226)%Z && (byte b =? 129)%Z && (byte c =? 159)%Z)
  || ((byte a =? 227)%Z && (byte b =? 128)%Z && (byte c =? 128)%Z).

Fixpoint trim_start (s : str) : str :=
  match s with
  | [] => []
  | a :: s1 =>
    if ws1 a then trim_start s1 else
    match s1 with
    | [] => s
    | b :: s2 =>
      if ws2 a b then trim_start s2 else
      match s2 with
      | [] => s
      | c :: s3 => if ws3 a b c then trim_start s3 else s
      end
    end
  end.

(** [trim_start] read from the other end: the bytes of a character arrive in
    the opposite order. *)
Fixpoint trim_start_rev (s : str) : str :=
  match s with
  | [] => []
  | a :: s1 =>
    if ws1 a then trim_start_rev s1 else
    match s1 with
    | [] => s
    | b :: s2 =>
      if ws2 b a then trim_start_rev s2 else
      match s2 with
      | [] => s
      | c :: s3 => if ws3 c b a then trim_start_rev s3 else s
      end
    end
  end.

Definition trim_end (s : str) : str := rev (trim_start_rev (rev s)).
Definition trim (s : str) : str := trim_end (trim_start s).

(** [trim_start_matches] and [trim_end_matches] with one ASCII character. *)
Fixpoint trim_start_matches (c : ascii) (s : str) : str :=
  match s with
  | [] => []
  | x :: rest => if Ascii.eqb x c then trim_start_matches c rest else s
  end.

Definition trim_end_matches (c : ascii) (s : str) : str := rev (trim_start_matches c (rev s)).

(** The first field of [str::split_whitespace], if there is one: the bytes of
    the left-trimmed string up to the next white-space character. *)
Fixpoint take_word (s : str) : str :=
  match s with
  | [] => []
  | a :: s1 =>
    if ws1 a then [] else
    match s1 with
    | [] => [a]
    | b :: s2 =>
      if ws2 a b then [] else
      match s2 with
      | [] => [a; b]
      | c :: _ => if ws3 a b c then [] else a :: take_word s1
      end
    end
  end.

Definition first_word (s : str) : option str :=
  match trim_start s with
  | [] => None
  | s' => Some (take_word s')
  end.

(** ** Unsigned decimal parsing: [str::parse::<u8>]

    An optional leading [+], then at least one digit; overflow is an error. *)
Fixpoint parse_digits (acc : Z) (max : Z) (s : str) : option Z :=
  match s with
  | [] => Some acc
  | a :: s' =>
    if is_ascii_digit a then
      let v := (acc * 10 + (byte a - 48))%Z in
      if (v <=? max)%Z then parse_digits v max s' else None
    else None
  end.

Definition parse_uint (max : Z) (s : str) : option Z :=
  let digits := match s with
                | a :: s' => if decide (a = "+"%char) then s' else s
                | [] => s
                end in
  match digits with
  | [] => None
  | _ => parse_digits 0 max digits
  end.

(** ** Characterisations *)

Lemma parse_digits_range s acc max v :
  (0 ≤ acc ≤ max)%Z → parse_digits acc max s = Some v → (0 ≤ v ≤ max)%Z.
Proof.
  revert acc. induction s as [|a s IH]; intros acc Ha H; cbn [parse_digits] in H; [by injection H as <-|].
  destruct (is_ascii_digit a) eqn:Ed; [|done]. unfold is_ascii_digit in Ed.
  apply andb_true_iff in Ed as [Ed1%Z.leb_le Ed2%Z.leb_le].
  destruct (Z.leb_spec (acc * 10 + (byte a - 48)) max); [|done]. eapply IH; [|exact H]. lia.
Qed.

Lemma parse_uint_range max s v : (0 ≤ max)%Z → parse_uint max s = Some v → (0 ≤ v ≤ max)%Z.
Proof.
  unfold parse_uint. intros Hm. destruct s as [|a s]; [done|]. destruct (decide _).
  - destruct s; [done|]. apply parse_digits_range. lia.
  - apply parse_digits_range. lia.
Qed.

Lemma strip_prefix_Some p s r : strip_prefix p s = Some r ↔ s = p ++ r.
Proof.
  revert s; induction p as [|a p IH]; intros s; simpl; [naive_solver|].
  destruct s as [|c s]; [naive_solver|].
  case_decide as E; [subst; rewrite IH; naive_solver | naive_solver].
Qed.

Lemma strip_prefix_None p s : strip_prefix p s = None ↔ ∀ r, s ≠ p ++ r.
Proof.
  destruct (strip_prefix p s) as [r|] eqn:E.
  - apply strip_prefix_Some in E as ->. split; [done|]. intros H. by destruct (H r).
  - split; [|done]. intros _ r Hr. apply strip_prefix_Some in Hr. congruence.
Qed.

Lemma starts_with_spec p s : starts_with p s = true ↔ ∃ r, s = p ++ r.
Proof.
  unfold starts_with. destruct (strip_prefix p s) as [r|] eqn:E.
  - apply strip_prefix_Some in E. naive_solver.
  - split; [done|]. intros [r Hr]. apply strip_prefix_Some in Hr. congruence.
Qed.

Lemma strip_suffix_Some p s r : strip_suffix p s = Some r ↔ s = r ++ p.
Proof.
  unfold strip_suffix. destruct (strip_prefix (rev p) (rev s)) as [r'|] eqn:E.
  - apply strip_prefix_Some in E. apply (f_equal (@rev ascii)) in E.
    rewrite rev_involutive, rev_app_distr, rev_involutive in E.
    split; [intros [= <-]; done|]. intros H. rewrite E in H.
    f_equal. by apply app_inv_tail in H.
  - split; [done|]. intros ->. rewrite rev_app_distr in E.
    assert (strip_prefix (rev p) (rev p ++ rev r) = Some (rev r)) by (by apply strip_prefix_Some).
    congruence.
Qed.

Lemma ends_with_spec p s : ends_with p s = true ↔ ∃ r, s = r ++ p.
Proof.
  unfold ends_with. destruct (strip_suffix p s) as [r|] eqn:E.
  - apply strip_suffix_Some in E. naive_solver.
  - split; [done|]. intros [r Hr]. apply strip_suffix_Some in Hr. congruence.
Qed.

Lemma strip_suffix_app p r : strip_suffix p (r ++ p) = Some r.
Proof. by apply strip_suffix_Some. Qed.

Lemma contains_spec c s : contains c s = true ↔ c ∈ s.
Proof.
  unfold contains. rewrite existsb_exists. setoid_rewrite bool_decide_eq_true.
  setoid_rewrite <-list_elem_of_In. naive_solver.
Qed.

Lemma contains_false c s : contains c s = false ↔ c ∉ s.
Proof. rewrite <-contains_spec. by destruct (contains c s). Qed.

Lemma find_Some c s i :
  find c s = Some i ↔ ∃ x y, s = x ++ c :: y ∧ c ∉ x ∧ length x = i.
Proof.
  revert i; induction s as [|a s IH]; intros i; simpl.
  - split; [done|]. intros (x & y & H & _). by destruct x.
  - case_decide as E.
    + subst. split.
      * intros [= <-]. exists [], s. by split_and!; [|set_solver|].
      * intros (x & y & H & Hn & <-). destruct x as [|b x]; [done|].
        injection H as -> ->. set_solver.
    + rewrite fmap_Some. split.
      * intros (j & Hj & ->). apply IH in Hj as (x & y & -> & Hn & <-).
        exists (a :: x), y. split_and!; [done|set_solver|done].
      * intros (x & y & H & Hn & <-). destruct x as [|b x]; [naive_solver|].
        injection H as -> ->. exists (length x). split; [|done].
        apply IH. exists x, y. split_and!; [done|set_solver|done].
Qed.

Lemma find_None c s : find c s = None ↔ c ∉ s.
Proof.
  induction s as [|a s IH]; simpl; [split; [intros _; set_solver|done]|].
  case_decide as E; [subst; split; [done|set_solver]|].
  rewrite fmap_None, IH. set_solver.
Qed.

Lemma split_once_Some c s x y :
  split_once c s = Some (x, y) ↔ s = x ++ c :: y ∧ c ∉ x.
Proof.
  revert x y; induction s as [|a s IH]; intros x y; simpl.
  - split; [done|]. intros [H _]. by destruct x.
  - case_decide as E.
    + subst. split; [intros [= <- <-]; split; [done|set_solver]|].
      intros [H Hn]. destruct x as [|b x]; [naive_solver|].
      injection H as -> ->. set_solver.
    + destruct (split_once c s) as [[x' y']|].
      * destruct (proj1 (IH x' y') eq_refl) as [-> Hn']. split; [intros [= <- <-]|].
        -- split; [done|set_solver].
        -- intros [H Hn]. destruct x as [|b x]; [naive_solver|].
           injection H as -> H.
           assert (Some (x', y') = Some (x, y)) as [= -> ->]; [|done].
           apply IH. split; [done|set_solver].
      * split; [done|]. intros [H Hn]. destruct x as [|b x]; [naive_solver|].
        injection H as -> ->.
        assert (None = Some (x, y)); [|done]. apply IH. split; [done|set_solver].
Qed.

Lemma split_once_None c s : split_once c s = None ↔ c ∉ s.
Proof.
  induction s as [|a s IH]; simpl; [split; [intros _; set_solver|done]|].
  case_decide as E; [subst; split; [done|set_solver]|].
  destruct (split_once c s) as [[x y]|].
  - split; [done|]. intros Hn. assert (c ∉ s) as H by set_solver. by apply IH in H.
  - split; [|done]. intros _. assert (c ∉ s) by (by apply IH). set_solver.
Qed.

(** Joining is the inverse of splitting. *)
Fixpoint join (c : ascii) (ws : list str) : str :=
  match ws with
  | [] => []
  | [w] => w
  | w :: ws' => w ++ c :: join c ws'
  end.

Lemma split_nonempty c s : split c s ≠ [].
Proof. destruct s as [|a s]; simpl; [done|]. case_decide; [done|]. by destruct (split c s). Qed.

Lemma join_cons c w ws : ws ≠ [] → join c (w :: ws) = w ++ c :: join c ws.
Proof. by destruct ws. Qed.

Lemma join_split c s : join c (split c s) = s.
Proof.
  induction s as [|a s IH]; simpl; [done|].
  pose proof (split_nonempty c s) as Hne.
  case_decide as E; subst.
  - rewrite join_cons by done. by rewrite IH.
  - destruct (split c s) as [|w ws]; [done|].
    destruct ws as [|w' ws]; simpl in *; [by rewrite IH|]. by rewrite IH.
Qed.

Lemma split_no_sep c s : Forall (fun w => c ∉ w) (split c s).
Proof.
  induction s as [|a s IH]; simpl; [repeat constructor; set_solver|].
  case_decide as E; [constructor; [set_solver|done]|].
  destruct (split c s) as [|w ws]; [repeat constructor; set_solver|].
  inversion_clear IH. constructor; [set_solver|done].
Qed.

Lemma split_word c w : c ∉ w → split c w = [w].
Proof.
  induction w as [|a w IH]; simpl; [done|]. intros Hn.
  case_decide as E; [set_solver|]. rewrite IH by set_solver. done.
Qed.

Lemma split_app c w s : c ∉ w → split c (w ++ c :: s) = w :: split c s.
Proof.
  induction w as [|a w IH]; simpl; intros Hn; [by rewrite decide_True|].
  case_decide as E; [set_solver|]. by rewrite IH by set_solver.
Qed.

Lemma split_join c ws : ws ≠ [] → Forall (fun w => c ∉ w) ws → split c (join c ws) = ws.
Proof.
  induction ws as [|w ws IH]; [done|]. intros _ Hf. inversion_clear Hf.
  destruct ws as [|w' ws]; [by apply split_word|].
  rewrite join_cons by done. rewrite split_app by done. by rewrite IH.
Qed.

Lemma split_inclusive_concat c s : concat (split_inclusive c s) = s.
Proof.
  induction s as [|a s IH]; simpl; [done|].
  case_decide as E; [simpl; by rewrite IH|].
  destruct (split_inclusive c s) as [|w ws]; simpl in *; by rewrite IH.
Qed.

(** ** Lower-casing *)

Lemma is_ascii_uppercase_spec a : is_ascii_uppercase a = true ↔ (65 ≤ byte a ≤ 90)%Z.
Proof. unfold is_ascii_uppercase. rewrite andb_true_iff, !Z.leb_le. lia. Qed.

Lemma byte_range a : (0 ≤ byte a < 256)%Z.
Proof. unfold byte. pose proof (N_ascii_bounded a). lia. Qed.

Lemma byte_inj a b : byte a = byte b → a = b.
Proof. unfold byte. intros H. apply N_of_ascii_inj. lia. Qed.

Lemma byte_to_lower a :
  byte (to_lower a) = if is_ascii_uppercase a then (byte a + 32)%Z else byte a.
Proof.
  unfold to_lower. destruct (is_ascii_uppercase a) eqn:E; [|done].
  apply is_ascii_uppercase_spec in E. unfold byte in *.
  rewrite N_ascii_embedding by lia. lia.
Qed.

Lemma to_lower_not_upper a : is_ascii_uppercase (to_lower a) = false.
Proof.
  apply not_true_iff_false. rewrite is_ascii_uppercase_spec, byte_to_lower.
  destruct (is_ascii_uppercase a) eqn:E.
  - apply is_ascii_uppercase_spec in E. lia.
  - apply not_true_iff_false in E. by rewrite is_ascii_uppercase_spec in E.
Qed.

Lemma to_lower_id a : is_ascii_uppercase a = false → to_lower a = a.
Proof. unfold to_lower. by intros ->. Qed.

Lemma to_lower_eq_iff c a :
  is_ascii_uppercase c = false → is_ascii_lowercase c = false → to_lower a = c ↔ a = c.
Proof.
  intros Hu Hl. split.
  - intros H. apply byte_inj. apply (f_equal byte) in H. rewrite byte_to_lower in H.
    destruct (is_ascii_uppercase a) eqn:E; [|done].
    apply is_ascii_uppercase_spec in E. unfold is_ascii_lowercase in Hl.
    apply andb_false_iff in Hl as [Hl|Hl]; apply Z.leb_gt in Hl; lia.
  - intros ->. by apply to_lower_id.
Qed.

Lemma is_lowercase_spec s : is_lowercase s = true ↔ Forall (fun a => is_ascii_uppercase a = false) s.
Proof.
  unfold is_lowercase. rewrite forallb_forall, Forall_forall.
  setoid_rewrite list_elem_of_In. setoid_rewrite negb_true_iff. done.
Qed.

Lemma to_ascii_lowercase_lower s : is_lowercase (to_ascii_lowercase s) = true.
Proof.
  apply is_lowercase_spec. unfold to_ascii_lowercase. rewrite Forall_map.
  apply Forall_true. intros a. apply to_lower_not_upper.
Qed.

Lemma to_ascii_lowercase_id s : is_lowercase s = true → to_ascii_lowercase s = s.
Proof.
  rewrite is_lowercase_spec. unfold to_ascii_lowercase.
  induction 1; simpl; [done|]. rewrite to_lower_id by done. congruence.
Qed.

Lemma length_to_ascii_lowercase s : length (to_ascii_lowercase s) = length s.
Proof. apply length_map. Qed.

Lemma to_ascii_lowercase_app s t :
  to_ascii_lowercase (s ++ t) = to_ascii_lowercase s ++ to_ascii_lowercase t.
Proof. apply map_app. Qed.

#[export] Hint Resolve to_ascii_lowercase_lower split_nonempty : warden.

(** ** Trimming removes only white space *)

Lemma trim_start_suffix s : ∃ p, s = p ++ trim_start s.
Proof.
  cut (∀ n s, length s ≤ n → ∃ p, s = p ++ trim_start s); [eauto|].
  clear s. induction n as [|n IH]; intros s Hn; [by exists []; destruct s; simpl in *; [|lia]|].
  destruct s as [|a s1]; [by exists []|]. simpl in *.
  destruct (ws1 a); [destruct (IH s1) as [p Hp]; [lia|]; exists (a :: p); simpl; congruence|].
  destruct s1 as [|b s2]; [by exists []|]. simpl in *.
  destruct (ws2 a b); [destruct (IH s2) as [p Hp]; [lia|]; exists (a :: b :: p); simpl; congruence|].
  destruct s2 as [|c s3]; [by exists []|]. simpl in *.
  destruct (ws3 a b c); [|by exists []].
  destruct (IH s3) as [p Hp]; [lia|]. exists (a :: b :: c :: p). simpl. congruence.
Qed.

Lemma trim_start_rev_suffix s : ∃ p, s = p ++ trim_start_rev s.
Proof.
  cut (∀ n s, length s ≤ n → ∃ p, s = p ++ trim_start_rev s); [eauto|].
  clear s. induction n as [|n IH]; intros s Hn; [by exists []; destruct s; simpl in *; [|lia]|].
  destruct s as [|a s1]; [by exists []|]. simpl in *.
  destruct (ws1 a); [destruct (IH s1) as [p Hp]; [lia|]; exists (a :: p); simpl; congruence|].
  destruct s1 as [|b s2]; [by exists []|]. simpl in *.
  destruct (ws2 b a); [destruct (IH s2) as [p Hp]; [lia|]; exists (a :: b :: p); simpl; congruence|].
  destruct s2 as [|c s3]; [by exists []|]. simpl in *.
  destruct (ws3 c b a); [|by exists []].
  destruct (IH s3) as [p Hp]; [lia|]. exists (a :: b :: c :: p). simpl. congruence.
Qed.

Lemma trim_end_prefix s : ∃ q, s = trim_end s ++ q.
Proof.
  destruct (trim_start_rev_suffix (rev s)) as [p Hp]. exists (rev p).
  unfold trim_end. rewrite <-rev_app_distr, <-Hp. symmetry. apply rev_involutive.
Qed.

Lemma trim_infix s : ∃ p q, s = p ++ trim s ++ q.
Proof.
  destruct (trim_start_suffix s) as [p Hp], (trim_end_prefix (trim_start s)) as [q Hq].
  exists p, q. unfold trim. by rewrite <-Hq.
Qed.

Lemma length_trim s : length (trim s) ≤ length s.
Proof. destruct (trim_infix s) as (p & q & H). rewrite H at 2. rewrite !length_app. lia. Qed.

(** A string whose first and last bytes are printable ASCII is already trimmed. *)
Definition printable (a : ascii) : bool := (33 <=? byte a)%Z && (byte a <=? 126)%Z.

Lemma printable_not_ws a b c :
  printable a = true → ws1 a = false ∧ ws2 a b = false ∧ ws3 a b c = false
    ∧ ws2 b a = false ∧ ws3 c b a = false.
Proof.
  unfold printable, ws1, ws2, ws3. intros H. split_and!; lia.
Qed.

Lemma trim_start_printable a s : printable a = true → trim_start (a :: s) = a :: s.
Proof.
  intros Ha. destruct s as [|b [|c s]]; simpl;
    destruct (printable_not_ws a a a Ha) as (-> & _); [done| |].
  - by destruct (printable_not_ws a b b Ha) as (_ & -> & _).
  - by destruct (printable_not_ws a b c Ha) as (_ & -> & -> & _).
Qed.

Lemma trim_start_rev_printable a s : printable a = true → trim_start_rev (a :: s) = a :: s.
Proof.
  intros Ha. destruct s as [|b [|c s]]; simpl;
    destruct (printable_not_ws a a a Ha) as (-> & _); [done| |].
  - by destruct (printable_not_ws a b b Ha) as (_ & _ & _ & -> & _).
  - by destruct (printable_not_ws a b c Ha) as (_ & _ & _ & -> & ->).
Qed.

Lemma trim_end_printable s a : printable a = true → trim_end (s ++ [a]) = s ++ [a].
Proof.
  intros Ha. unfold trim_end. rewrite rev_app_distr.
  change (rev [a] ++ rev s) with (a :: rev s).
  rewrite trim_start_rev_printable by done. simpl. by rewrite rev_involutive.
Qed.

Lemma trim_printable s :
  s ≠ [] → Forall (fun a => printable a = true) s → trim s = s.
Proof.
  intros Hne Hf. unfold trim.
  destruct s as [|a s]; [done|]. inversion Hf; subst.
  rewrite trim_start_printable by done.
  destruct (exists_last (l := a :: s)) as (s' & z & Hz); [done|]. rewrite Hz in Hf |- *.
  apply trim_end_printable. apply Forall_app in Hf as [_ Hf]. by inversion Hf.
Qed.

Lemma trim_ends a s z : printable a = true → printable z = true → trim (a :: s ++ [z]) = a :: s ++ [z].
Proof.
  intros Ha Hz. unfold trim. rewrite trim_start_printable by done.
  change (a :: s ++ [z]) with ((a :: s) ++ [z]). by apply trim_end_printable.
Qed.
