(* ===== verification/SortedSlice.v ===== *)
(** * Sorted slices keyed by text

    The standard library's binary search on a slice sorted by key, as the
    domain shards, the compiled packs and the compiled profiles use it. *)

From S2P Require Import Prelude.

(** [slice::binary_search_by] of the standard library: [size] is halved until
    one candidate is left, which is then compared. *)
Fixpoint bsearch_loop {V} (fuel : nat) (l : list (str * V)) (key : str) (base size : nat) : nat :=
  match fuel with
  | 0 => base
  | S fuel =>
    if 1 <? size then
      let half := size / 2 in
      let mid := base + half in
      let base := match l !! mid with
                  | Some (k, _) => match str_cmp k key with Gt => base | _ => mid end
                  | None => base
                  end in
      bsearch_loop fuel l key base (size - half)
    else base
  end.

Definition binary_search {V} (l : list (str * V)) (key : str) : result nat nat :=
  match length l with
  | 0 => Err 0
  | _ =>
    let base := bsearch_loop (length l) l key 0 (length l) in
    match l !! base with
    | Some (k, _) =>
      match str_cmp k key with
      | Eq => Ok base
      | Lt => Err (base + 1)
      | Gt => Err base
      end
    | None => Err base
    end
  end.

(** The value found by binary search. *)
Definition slice_get {V} (l : list (str * V)) (key : str) : option V :=
  match binary_search l key with
  | Ok pos => snd <$> l !! pos
  | Err _ => None
  end.

(** ** Ordered maps keyed by text

    [BTreeMap] as the list of its bindings in key order. *)

Fixpoint bt_alter {V} (k : str) (f : option V → V) (m : list (str * V)) : list (str * V) :=
  match m with
  | [] => [(k, f None)]
  | (k', v) :: m' =>
    match str_cmp k k' with
    | Lt => (k, f None) :: m
    | Eq => (k', f (Some v)) :: m'
    | Gt => (k', v) :: bt_alter k f m'
    end
  end.

Fixpoint bt_get {V} (k : str) (m : list (str * V)) : option V :=
  match m with
  | [] => None
  | (k', v) :: m' => if str_eqb k k' then Some v else bt_get k m'
  end.

(** The order of [sort_by(|a, b| a.0.cmp(&b.0))]. *)
Definition key_le {V} (a b : str * V) : Prop := str_cmp a.1 b.1 ≠ Gt.

#[export] Instance key_le_dec {V} (a b : str * V) : Decision (key_le a b).
Proof. unfold key_le. apply _. Defined.

(** ** Strictly ascending keys *)

Definition ascending {V} (l : list (str * V)) : Prop :=
  StronglySorted (fun a b => str_lt a.1 b.1) l.

Lemma ascending_lookup_lt {V} (l : list (str * V)) i j a b :
  ascending l → l !! i = Some a → l !! j = Some b → i < j → str_lt a.1 b.1.
Proof.
  intros Hs Hi Hj Hij. unfold ascending in Hs.
  rewrite <-(take_drop j l) in Hs.
  apply (StronglySorted_app_1_elem_of _ _ _ a b) in Hs; [done| |].
  - apply list_elem_of_lookup. exists i. by rewrite lookup_take_lt.
  - apply list_elem_of_lookup. exists 0. rewrite lookup_drop. by rewrite Nat.add_0_r.
Qed.

Lemma ascending_lookup_inj {V} (l : list (str * V)) i j a b :
  ascending l → l !! i = Some a → l !! j = Some b → a.1 = b.1 → i = j.
Proof.
  intros Hs Hi Hj He. destruct (Nat.lt_trichotomy i j) as [H|[H|H]]; [|done|].
  - pose proof (ascending_lookup_lt _ _ _ _ _ Hs Hi Hj H) as Hlt. rewrite He in Hlt.
    by apply str_lt_irrefl in Hlt.
  - pose proof (ascending_lookup_lt _ _ _ _ _ Hs Hj Hi H) as Hlt. rewrite He in Hlt.
    by apply str_lt_irrefl in Hlt.
Qed.

Lemma bsearch_loop_spec {V} fuel (l : list (str * V)) key base size :
  ascending l → 0 < size → size ≤ fuel + 1 → base + size ≤ length l →
  (∀ i b, l !! i = Some (key, b) → base ≤ i < base + size) →
  let r := bsearch_loop fuel l key base size in
  r < length l ∧ ∀ i b, l !! i = Some (key, b) → i = r.
Proof.
  intros Hs. revert base size; induction fuel as [|fuel IH]; intros base size H0 Hf Hb Hk; cbn [bsearch_loop]; cbv zeta.
  { split; [lia|]. intros i b Hi. specialize (Hk i b Hi). lia. }
  destruct (Nat.ltb_spec 1 size) as [H1|H1].
  2:{ split; [lia|]. intros i b Hi. specialize (Hk i b Hi). lia. }
  pose proof (Nat.div_lt size 2). pose proof (Nat.div_le_lower_bound size 2 1).
  pose proof (Nat.Div0.mul_div_le size 2). set (half := size / 2) in *.
  destruct (lookup_lt_is_Some_2 l (base + half)) as [[k bk] Hmid]; [lia|]. rewrite Hmid.
  destruct (str_cmp k key) eqn:E; apply IH; try lia; intros i b Hi; specialize (Hk i b Hi).
  - apply str_cmp_eq in E as ->.
    pose proof (ascending_lookup_inj _ _ _ _ _ Hs Hi Hmid eq_refl). lia.
  - destruct (decide (i < base + half)) as [Hlt|]; [|lia].
    pose proof (ascending_lookup_lt _ _ _ _ _ Hs Hi Hmid Hlt) as Hc. simpl in Hc.
    exfalso. apply (str_lt_irrefl key). by transitivity k.
  - destruct (decide (base + half ≤ i)) as [Hge|]; [|lia].
    apply str_cmp_gt in E. destruct (decide (i = base + half)) as [->|Hne].
    + rewrite Hmid in Hi. injection Hi as -> _. by apply str_lt_irrefl in E.
    + pose proof (ascending_lookup_lt _ _ _ _ _ Hs Hmid Hi ltac:(lia)) as Hc. simpl in Hc.
      exfalso. apply (str_lt_irrefl key). by transitivity k.
Qed.

Lemma binary_search_Ok {V} (l : list (str * V)) key i :
  ascending l → binary_search l key = Ok i ↔ fst <$> l !! i = Some key.
Proof.
  intros Hs. unfold binary_search. destruct (length l) as [|n] eqn:Hn.
  { apply length_zero_iff_nil in Hn as ->. split; [done|]. by rewrite lookup_nil. }
  rewrite <-Hn. destruct (bsearch_loop_spec (length l) l key 0 (length l)) as [Hr Hu]; try lia; [done| |].
  { intros j b Hj. apply lookup_lt_Some in Hj. lia. }
  set (r := bsearch_loop _ _ _ _ _) in *.
  destruct (lookup_lt_is_Some_2 l r Hr) as [[k b] Hkb]. rewrite Hkb. split.
  - destruct (str_cmp k key) eqn:E; intros [= <-]. apply str_cmp_eq in E as ->. by rewrite Hkb.
  - intros Hi. apply fmap_Some in Hi as ([k' b'] & Hi & ->). simpl in *.
    pose proof (Hu _ _ Hi) as ->. rewrite Hkb in Hi. injection Hi as -> _. by rewrite str_cmp_refl.
Qed.

Lemma binary_search_Err {V} (l : list (str * V)) key :
  ascending l → is_ok (binary_search l key) = false ↔ key ∉ l.*1.
Proof.
  intros Hs. destruct (binary_search l key) as [i|i] eqn:E; simpl.
  - apply binary_search_Ok in E; [|done]. split; [done|]. intros Hn. destruct Hn.
    apply fmap_Some in E as (p & Hp & ->). apply list_elem_of_fmap. exists p.
    split; [done|]. by apply list_elem_of_lookup_2 in Hp.
  - split; [|done]. intros _ Hin. apply list_elem_of_fmap in Hin as (p & -> & Hp).
    apply list_elem_of_lookup in Hp as [j Hj].
    assert (binary_search l p.1 = Ok j); [|congruence].
    apply binary_search_Ok; [done|]. by rewrite Hj.
Qed.

(** What binary search finds is what the slice holds. *)
Lemma slice_get_spec {V} (l : list (str * V)) key v :
  ascending l → slice_get l key = Some v ↔ (key, v) ∈ l.
Proof.
  intros Hs. unfold slice_get. destruct (binary_search l key) as [i|i] eqn:E.
  - apply binary_search_Ok in E as Hi; [|done]. apply fmap_Some in Hi as ([k v'] & Hi & Hk).
    simpl in Hk. subst k. rewrite Hi. simpl. split.
    + intros [= ->]. by apply list_elem_of_lookup_2 in Hi.
    + intros Hin. apply list_elem_of_lookup in Hin as [j Hj].
      pose proof (ascending_lookup_inj _ _ _ _ _ Hs Hi Hj eq_refl) as ->. congruence.
  - split; [done|]. intros Hin.
    assert (is_ok (binary_search l key) = false) as Hk by (by rewrite E).
    apply binary_search_Err in Hk; [|done]. destruct Hk. apply list_elem_of_fmap.
    by exists (key, v).
Qed.

Lemma slice_get_None {V} (l : list (str * V)) key :
  ascending l → slice_get l key = None ↔ key ∉ l.*1.
Proof.
  intros Hs. split.
  - intros Hn Hin. apply list_elem_of_fmap in Hin as ([k v] & -> & Hp).
    apply slice_get_spec in Hp; [|done]. simpl in Hn. congruence.
  - intros Hn. destruct (slice_get l key) as [v|] eqn:E; [|done]. destruct Hn.
    apply slice_get_spec in E; [|done]. apply list_elem_of_fmap. by exists (key, v).
Qed.

(** ** Ordered maps *)

Lemma bt_alter_elem {V} k f (m : list (str * V)) k' v' :
  ascending m →
  (k', v') ∈ bt_alter k f m ↔
  if decide (k' = k) then v' = f (bt_get k m) else (k', v') ∈ m.
Proof.
  intros Hs. induction m as [|[k0 v0] m IH]; cbn [bt_alter bt_get].
  { rewrite list_elem_of_singleton. case_decide as Hd.
    - subst k'. split; [by intros [= ->]|by intros ->].
    - rewrite elem_of_nil. split; [intros Hq; congruence|done]. }
  apply StronglySorted_cons in Hs as [Hf Hs]. specialize (IH Hs). rewrite Forall_forall in Hf.
  assert (∀ v, (k0, v) ∈ m → False) as Hk0.
  { intros v Hv. apply Hf in Hv. by apply str_lt_irrefl in Hv. }
  unfold str_eqb. destruct (str_cmp k k0) eqn:E.
  - apply str_cmp_eq in E as ->. rewrite bool_decide_eq_true_2 by done. rewrite !elem_of_cons.
    case_decide as Hd; [subst k'|].
    + split; [|by intros ->; left]. intros [[= ->]|Hv]; [done|by apply Hk0 in Hv].
    + rewrite elem_of_cons. split; (intros [Hq|?]; [congruence|by right]).
  - rewrite bool_decide_eq_false_2 by (intros ->; by apply str_lt_irrefl in E).
    assert (bt_get k m = None ∧ ∀ v, (k, v) ∉ m) as [Hg Hn].
    { clear IH Hk0. induction m as [|[k1 v1] m IH]; cbn [bt_get].
      - split; [done|]. intros v Hv. by apply not_elem_of_nil in Hv.
      - assert (str_lt k k1) as Hlt.
        { transitivity k0; [exact E|]. apply (Hf (k1, v1)). left. }
        unfold str_eqb. rewrite bool_decide_eq_false_2 by (intros ->; by apply str_lt_irrefl in Hlt).
        apply StronglySorted_cons in Hs as [_ Hs].
        destruct IH as [IH1 IH2]; [intros x Hx; apply Hf; by right|done|].
        split; [done|]. intros v [[= -> ->]|Hv]%elem_of_cons; [by apply str_lt_irrefl in Hlt|].
        by apply IH2 in Hv. }
    rewrite Hg. rewrite (elem_of_cons _ _ (k, f None)). case_decide as Hd; [subst k'|].
    + rewrite elem_of_cons. split; [|by intros ->; left].
      intros [[= ->]|[[= -> ->]|Hv]]; [done|by apply str_lt_irrefl in E|by apply Hn in Hv].
    + split; [intros [Hq|?]; [congruence|done]|by right].
  - apply str_cmp_gt in E.
    rewrite bool_decide_eq_false_2 by (intros ->; by apply str_lt_irrefl in E).
    rewrite (elem_of_cons (bt_alter k f m)), IH. case_decide; [|by rewrite elem_of_cons]. subst k'. split; [|by right].
    intros [[= -> ->]|?]; [by apply str_lt_irrefl in E|done].
Qed.

Lemma bt_alter_keys {V} k f (m : list (str * V)) k' :
  k' ∈ (bt_alter k f m).*1 ↔ k' = k ∨ k' ∈ m.*1.
Proof.
  induction m as [|[k0 v0] m IH]; csimpl; [set_solver|].
  destruct (str_cmp k k0) eqn:E; csimpl; rewrite ?elem_of_cons.
  - apply str_cmp_eq in E as ->. naive_solver.
  - naive_solver.
  - rewrite IH. naive_solver.
Qed.

Lemma bt_alter_ascending {V} k f (m : list (str * V)) : ascending m → ascending (bt_alter k f m).
Proof.
  unfold ascending. induction m as [|[k0 v0] m IH]; intros Hs; cbn [bt_alter]; [by repeat constructor|].
  apply StronglySorted_cons in Hs as [Hf Hs].
  destruct (str_cmp k k0) eqn:E.
  - apply StronglySorted_cons. split; [|done]. done.
  - apply StronglySorted_cons. split; [|by apply StronglySorted_cons].
    apply Forall_cons. split; [done|]. eapply Forall_impl; [exact Hf|].
    simpl. intros x Hx. by transitivity k0.
  - apply str_cmp_gt in E. apply StronglySorted_cons. split; [|auto].
    apply Forall_forall. intros [k1 v1] H1. simpl.
    assert (k1 ∈ (bt_alter k f m).*1) as Hk.
    { apply list_elem_of_fmap. by exists (k1, v1). }
    apply bt_alter_keys in Hk as [->|Hk]; [done|].
    apply list_elem_of_fmap in Hk as (p & -> & Hp). rewrite Forall_forall in Hf. by apply Hf in Hp.
Qed.

Lemma bt_get_elem {V} k (m : list (str * V)) v : bt_get k m = Some v → (k, v) ∈ m.
Proof.
  induction m as [|[k0 v0] m IH]; cbn [bt_get]; [done|]. unfold str_eqb. case_bool_decide as E.
  - subst. intros [= ->]. left.
  - intros H. right. auto.
Qed.

Lemma bt_get_None {V} k (m : list (str * V)) : bt_get k m = None ↔ k ∉ m.*1.
Proof.
  induction m as [|[k0 v0] m IH]; csimpl; [set_solver|]. unfold str_eqb. case_bool_decide as E.
  - subst. set_solver.
  - rewrite IH. set_solver.
Qed.

Lemma ascending_NoDup {V} (l : list (str * V)) : ascending l → NoDup l.*1.
Proof.
  unfold ascending. induction l as [|[k v] l IH]; intros Hs; csimpl; [constructor|].
  apply StronglySorted_cons in Hs as [Hf Hs]. constructor; [|auto].
  intros Hin. apply list_elem_of_fmap in Hin as (p & -> & Hp). rewrite Forall_forall in Hf.
  apply Hf in Hp. by apply str_lt_irrefl in Hp.
Qed.

(** ** Sorting by key *)

#[export] Instance key_le_total {V} : Total (@key_le V).
Proof.
  intros a b. unfold key_le. rewrite (str_cmp_antisym a.1 b.1).
  destruct (str_cmp a.1 b.1); simpl; auto.
Qed.

Lemma key_le_iff {V} (a b : str * V) : key_le a b ↔ str_lt a.1 b.1 ∨ a.1 = b.1.
Proof.
  unfold key_le, str_lt. rewrite <-(str_cmp_eq a.1 b.1).
  destruct (str_cmp a.1 b.1); naive_solver.
Qed.

#[export] Instance key_le_trans {V} : Transitive (@key_le V).
Proof.
  intros a b c. rewrite !key_le_iff. intros [H1|H1] [H2|H2].
  - left. by transitivity b.1.
  - left. congruence.
  - left. congruence.
  - right. congruence.
Qed.

Lemma merge_sort_key_sorted {V} (l : list (str * V)) :
  StronglySorted key_le (merge_sort key_le l).
Proof. apply StronglySorted_merge_sort; apply _. Qed.

(** Sorting by distinct keys gives strictly ascending keys. *)
Lemma merge_sort_ascending {V} (l : list (str * V)) : NoDup l.*1 → ascending (merge_sort key_le l).
Proof.
  intros Hnd. assert (NoDup (merge_sort key_le l).*1) as Hnd'.
  { by rewrite (fmap_Permutation fst _ _ (merge_sort_Permutation key_le l)). }
  pose proof (merge_sort_key_sorted l) as Hs. revert Hnd' Hs. clear Hnd.
  generalize (merge_sort key_le l) as m. unfold ascending.
  induction m as [|[k v] m IH]; intros Hnd Hs; [constructor|].
  csimpl in *. apply NoDup_cons in Hnd as [Hk Hnd]. apply StronglySorted_cons in Hs as [Hf Hs].
  apply StronglySorted_cons. split; [|auto]. rewrite Forall_forall in Hf |- *. intros [k' v'] Hin.
  pose proof (Hf _ Hin) as Hle. apply key_le_iff in Hle as [?|He]; [done|]. simpl in He. subst k'.
  destruct Hk. apply list_elem_of_fmap. by exists (k, v').
Qed.
