(* ===== verification/DnsTypes.v ===== *)
(** * Types shared by the DNS components: [src/dns/error.rs] *)

From S2P Require Import Prelude.

(** The response codes the source distinguishes; every other code of the
    wire format is carried by its number. *)
Inductive ResponseCode :=
| NoError
| FormErr
| ServFail
| NXDomain
| NotImp
| Refused
| OtherCode (n : Z).

#[export] Instance response_code_eq_dec : EqDecision ResponseCode.
Proof. solve_decision. Defined.

(** Record types and classes of [hickory_proto]: those the source names, and
    the rest by number. *)
Inductive RecordType :=
| RtA | RtAAAA | RtCNAME | RtMX | RtTXT | RtNS | RtSOA | RtPTR | RtHTTPS | RtSVCB | RtSRV | RtTLSA | RtHINFO | RtANY
| RtOther (code : Z).

#[export] Instance record_type_eq_dec : EqDecision RecordType.
Proof. solve_decision. Defined.

Inductive DNSClass := ClassIN | ClassCH | ClassOther (code : Z).

#[export] Instance dns_class_eq_dec : EqDecision DNSClass.
Proof. solve_decision. Defined.

(** [dns::error::DnsError].  The payload of a transport error is its text. *)
Inductive DnsError :=
| LabelTooLong
| NameTooLong
| TooManyLabels
| EmptyName
| UpstreamError (e : str)
| UpstreamRequestFailed (e : str)
| WireFormatError (e : str)
| AllUpstreamsFailed
| CircuitBreakerOpen
| ServerError (e : str)
| Uncacheable (rc : ResponseCode).

#[export] Instance dns_error_eq_dec : EqDecision DnsError.
Proof. solve_decision. Defined.

(** [Display] of an error; the text of a response code is [hickory_proto]'s. *)
Definition dns_error_text (code_text : ResponseCode → str) (e : DnsError) : str :=
  match e with
  | LabelTooLong => lit "label exceeds 63 bytes"
  | NameTooLong => lit "name exceeds 253 bytes"
  | TooManyLabels => lit "name has more than 15 labels"
  | EmptyName => lit "empty query name"
  | UpstreamError e => lit "upstream error: " ++ e
  | UpstreamRequestFailed e => lit "upstream request failed: " ++ e
  | WireFormatError e => lit "DNS wire format error: " ++ e
  | AllUpstreamsFailed => lit "all upstreams failed"
  | CircuitBreakerOpen => lit "circuit breaker open"
  | ServerError e => lit "server error: " ++ e
  | Uncacheable rc => lit "uncacheable upstream response: " ++ code_text rc
  end.
