(* ===== verification/Domain.v ===== *)
(** * Domain names

    [src/common/domain.rs] (the syntactic check the list parser and the rule
    parsers share), [src/dns/validation.rs] (the check on query names), and
    the suffix walk that every lookup of the filter performs. *)

From S2P Require Import Prelude RustStr DnsTypes.

Definition DOT : ascii := "."%char.
Definition HYPHEN : ascii := "-"%char.

(** ** [common::domain::is_valid_domain] *)

Definition domain_char (b : ascii) : bool :=
  is_ascii_alphanumeric b || bool_decide (b = HYPHEN) || bool_decide (b = DOT)
  || bool_decide (b = "_"%char).

Definition bad_label (label : str) : bool :=
  match label with
  | [] => true
  | _ => (63 <? Z.of_nat (length label))%Z
         || starts_with [HYPHEN] label || ends_with [HYPHEN] label
  end.

Definition is_valid_domain (domain : str) : bool :=
  if bool_decide (domain = []) || (253 <? Z.of_nat (length domain))%Z then false
  else if negb (forallb domain_char domain) then false
  else forallb (fun label => negb (bad_label label)) (split DOT domain).

(** The grammar the check accepts: dot-separated labels of one to 63
    letters, digits, hyphens and underscores, with no hyphen at either end,
    at most 253 bytes together. *)

Definition label_char (b : ascii) : bool :=
  is_ascii_alphanumeric b || bool_decide (b = HYPHEN) || bool_decide (b = "_"%char).

Record label_ok (l : str) : Prop := {
  label_nonempty : l ≠ [];
  label_short : length l ≤ 63;
  label_chars : Forall (fun b => label_char b = true) l;
  label_no_lead : ∀ r, l ≠ HYPHEN :: r;
  label_no_trail : ∀ r, l ≠ r ++ [HYPHEN];
}.

(** ** [dns::validation::validate_query] *)

Definition MAX_LABEL_LEN : nat := 63.
Definition MAX_NAME_LEN : nat := 253.
Definition MAX_LABEL_COUNT : nat := 15.
Definition MAX_LABEL_COUNT_ARPA : nat := 34.

(** The label loop: [name_len], [label_count] and [last_label] are the
    loop's mutable variables. *)
Fixpoint validate_labels (labels : list str) (name_len label_count : nat) (last_label : str)
  : result DnsError (nat * nat * str) :=
  match labels with
  | [] => Ok (name_len, label_count, last_label)
  | label :: rest =>
    match label with
    | [] => validate_labels rest name_len label_count last_label
    | _ =>
      if MAX_LABEL_LEN <? length label then Err LabelTooLong
      else
        let name_len := if 0 <? label_count then name_len + 1 else name_len in
        validate_labels rest (name_len + length label) (label_count + 1) label
    end
  end.

(** [hickory_proto]'s [LowerName] is known by what the function asks of it:
    [is_empty], [is_root] and [iter]. *)
Definition validate_query (is_empty is_root : bool) (iter : list str) : result DnsError () :=
  if is_empty || is_root then Err EmptyName
  else
    let? (name_len, label_count, last_label) := validate_labels iter 0 0 [] in
    if MAX_NAME_LEN <? name_len then Err NameTooLong
    else
      let max_labels := if str_eqb last_label (lit "arpa")
                        then MAX_LABEL_COUNT_ARPA else MAX_LABEL_COUNT in
      if max_labels <? label_count then Err TooManyLabels else Ok ().

(** ** The suffix walk

    The lookups scan the bytes of a domain and probe the suffix after every
    [b'.'], skipping an empty suffix. *)
Fixpoint dot_suffixes (domain : str) : list str :=
  match domain with
  | [] => []
  | byte :: suffix =>
    if decide (byte = DOT) then
      match suffix with
      | [] => []
      | _ => suffix :: dot_suffixes suffix
      end
    else dot_suffixes suffix
  end.

(** ** The accepted names are exactly the grammar's *)

Lemma domain_char_split b : domain_char b = label_char b || bool_decide (b = DOT).
Proof.
  unfold domain_char, label_char.
  destruct (is_ascii_alphanumeric b), (bool_decide (b = HYPHEN)), (bool_decide (b = DOT)),
    (bool_decide (b = "_"%char)); done.
Qed.

Lemma label_char_not_dot b : label_char b = true → b ≠ DOT.
Proof. intros H ->. vm_compute in H. done. Qed.

Lemma bad_label_spec l :
  Forall (fun b => label_char b = true) l → bad_label l = false ↔ label_ok l.
Proof.
  intros Hc. unfold bad_label. destruct l as [|a l].
  { split; [done|]. intros H. by destruct (label_nonempty _ H). }
  rewrite !orb_false_iff, Z.ltb_ge. split.
  - intros ((Hlen & Hs) & He). split; try done; try lia.
    + intros r Hr. apply not_true_iff_false in Hs. apply Hs, starts_with_spec. by exists r.
    + intros r Hr. apply not_true_iff_false in He. apply He, ends_with_spec. by exists r.
  - intros [_ Hs _ Hl Ht]. split_and!; [lia| |].
    + apply not_true_iff_false. rewrite starts_with_spec. intros [r Hr]. by apply (Hl r).
    + apply not_true_iff_false. rewrite ends_with_spec. intros [r Hr]. by apply (Ht r).
Qed.

Lemma domain_chars_labels d :
  Forall (fun b => domain_char b = true) d ↔
  Forall (Forall (fun b => label_char b = true)) (split DOT d).
Proof.
  induction d as [|a d IH]; simpl; [by repeat constructor|].
  rewrite Forall_cons, IH, domain_char_split.
  case_decide as E.
  - subst. rewrite bool_decide_true by done. rewrite orb_true_r, Forall_cons. naive_solver.
  - rewrite bool_decide_false by done. rewrite orb_false_r.
    pose proof (split_nonempty DOT d). destruct (split DOT d) as [|w ws]; [done|].
    rewrite !Forall_cons. naive_solver.
Qed.

Lemma is_valid_domain_unfold d :
  is_valid_domain d = true ↔
  d ≠ [] ∧ length d ≤ 253 ∧ Forall (fun b => domain_char b = true) d ∧ Forall label_ok (split DOT d).
Proof.
  unfold is_valid_domain.
  destruct (bool_decide_reflect (d = [])) as [->|Hne]; [naive_solver|]. simpl.
  destruct (Z.ltb_spec 253 (Z.of_nat (length d))) as [Hl|Hl]; [split; [done|lia]|].
  destruct (forallb domain_char d) eqn:Hc; simpl.
  - assert (Forall (fun b => domain_char b = true) d) as Hc2.
    { apply Forall_forall. intros b Hb. rewrite forallb_forall in Hc. apply Hc. by apply list_elem_of_In. }
    pose proof (proj1 (domain_chars_labels d) Hc2) as Hlab.
    rewrite forallb_forall. split.
    + intros H. split_and!; try done; [lia|]. apply Forall_forall. intros l Hin.
      rewrite Forall_forall in Hlab. apply bad_label_spec; [by apply Hlab|].
      apply negb_true_iff, H. by apply list_elem_of_In.
    + intros (_ & _ & _ & H) l Hin. apply list_elem_of_In in Hin.
      rewrite Forall_forall in Hlab, H. apply negb_true_iff.
      apply bad_label_spec; auto.
  - split; [done|]. intros (_ & _ & H & _). apply not_true_iff_false in Hc. destruct Hc.
    apply forallb_forall. intros b Hb. rewrite Forall_forall in H. apply H. by apply list_elem_of_In.
Qed.

(** [is_valid_domain] accepts exactly the dot-separated sequences of
    well-formed labels (1 to 63 letters, digits, hyphens or underscores, no
    hyphen at either end) of at most 253 bytes. *)
Theorem is_valid_domain_grammar d :
  is_valid_domain d = true ↔
  ∃ labels, labels ≠ [] ∧ d = join DOT labels ∧ Forall label_ok labels ∧ length d ≤ 253.
Proof.
  rewrite is_valid_domain_unfold. split.
  - intros (Hne & Hl & _ & Hf). exists (split DOT d).
    split_and!; auto with warden. by rewrite join_split.
  - intros (ls & Hne & -> & Hf & Hl).
    assert (Forall (fun w => DOT ∉ w) ls) as Hd.
    { eapply Forall_impl; [exact Hf|]. intros l Hlo Hin.
      pose proof (label_chars _ Hlo) as Hc. rewrite Forall_forall in Hc.
      by apply (label_char_not_dot _ (Hc _ Hin)). }
    assert (split DOT (join DOT ls) = ls) as Hs by (by apply split_join).
    split_and!; try done.
    + intros E. rewrite E in Hs. simpl in Hs. subst. inversion_clear Hf as [|? ? Hlo _].
      by destruct (label_nonempty _ Hlo).
    + apply domain_chars_labels. rewrite Hs.
      eapply Forall_impl; [exact Hf|]. intros l. apply label_chars.
    + by rewrite Hs.
Qed.

Lemma is_valid_domain_nonempty d : is_valid_domain d = true → d ≠ [].
Proof. rewrite is_valid_domain_unfold. naive_solver. Qed.

Lemma is_valid_domain_length d : is_valid_domain d = true → length d ≤ 253.
Proof. rewrite is_valid_domain_unfold. naive_solver. Qed.

(** ** Lower-casing keeps a name valid *)

Lemma to_lower_label_char b : label_char (to_lower b) = label_char b.
Proof.
  unfold label_char, is_ascii_alphanumeric.
  assert (is_ascii_uppercase (to_lower b) || is_ascii_lowercase (to_lower b) || is_ascii_digit (to_lower b)
    = is_ascii_uppercase b || is_ascii_lowercase b || is_ascii_digit b) as ->.
  { unfold is_ascii_uppercase, is_ascii_lowercase, is_ascii_digit. rewrite byte_to_lower.
    unfold is_ascii_uppercase. case_goal; lia. }
  f_equal; [f_equal|]; apply bool_decide_ext; by apply to_lower_eq_iff.
Qed.

Lemma split_to_lower d : split DOT (to_ascii_lowercase d) = map to_ascii_lowercase (split DOT d).
Proof.
  induction d as [|a d IH]; simpl; [done|]. fold (to_ascii_lowercase d). rewrite IH.
  rewrite (decide_ext _ (a = DOT)) by (by apply to_lower_eq_iff).
  case_decide; [done|]. by destruct (split DOT d).
Qed.

Lemma label_ok_lower l : label_ok l → label_ok (to_ascii_lowercase l).
Proof.
  intros [H1 H2 H3 H4 H5]. split.
  - intros E. by apply map_eq_nil in E.
  - by rewrite length_to_ascii_lowercase.
  - unfold to_ascii_lowercase. rewrite Forall_map. eapply Forall_impl; [exact H3|].
    intros b Hb. simpl. by rewrite to_lower_label_char.
  - intros r Hr. destruct l as [|a l]; [done|]. injection Hr as Ha Hr.
    apply (H4 l). f_equal. by apply (to_lower_eq_iff HYPHEN).
  - intros r Hr. apply map_eq_app in Hr as (l1 & l2 & -> & _ & Hl2).
    destruct l2 as [|a l2]; [done|]. apply map_eq_cons in Hl2 as (a' & l2' & [= -> ->] & Ha & Hn).
    apply map_eq_nil in Hn as ->. apply (H5 l1). do 2 f_equal. by apply (to_lower_eq_iff HYPHEN).
Qed.

Lemma is_valid_domain_lower d : is_valid_domain d = true → is_valid_domain (to_ascii_lowercase d) = true.
Proof.
  rewrite !is_valid_domain_unfold. intros (Hne & Hl & _ & Hf).
  assert (Forall label_ok (split DOT (to_ascii_lowercase d))) as Hf'.
  { rewrite split_to_lower, Forall_map. eapply Forall_impl; [exact Hf|]. apply label_ok_lower. }
  split_and!; [|by rewrite length_to_ascii_lowercase| |done].
  - intros E. by apply map_eq_nil in E.
  - apply domain_chars_labels. eapply Forall_impl; [exact Hf'|]. intros l. apply label_chars.
Qed.

#[export] Hint Resolve is_valid_domain_lower is_valid_domain_nonempty : warden.

Lemma domain_char_printable b : domain_char b = true → printable b = true.
Proof.
  unfold domain_char, is_ascii_alphanumeric, is_ascii_uppercase, is_ascii_lowercase,
    is_ascii_digit, printable.
  repeat case_bool_decide; subst; try done; lia.
Qed.

Lemma is_valid_domain_chars d : is_valid_domain d = true → Forall (fun b => domain_char b = true) d.
Proof. rewrite is_valid_domain_unfold. naive_solver. Qed.

(** ** The walk visits exactly the parent domains *)

Lemma dot_suffixes_spec d s :
  s ∈ dot_suffixes d ↔ s ≠ [] ∧ ∃ p, d = p ++ DOT :: s.
Proof.
  induction d as [|a d IH]; simpl.
  - split; [set_solver|]. intros (_ & p & H). by destruct p.
  - case_decide as E.
    + subst. destruct d as [|b d].
      * split; [set_solver|]. intros (Hne & p & H). destruct p as [|x [|y p]]; naive_solver.
      * rewrite elem_of_cons, IH. split.
        -- intros [->|(Hne & p & Hp)]; [split; [done|by exists []]|].
           split; [done|]. exists (DOT :: p). by rewrite Hp.
        -- intros (Hne & p & Hp). destruct p as [|x p]; [left; naive_solver|].
           injection Hp as -> Hp. right. eauto.
    + rewrite IH. split.
      * intros (Hne & p & ->). split; [done|]. by exists (a :: p).
      * intros (Hne & p & Hp). split; [done|]. destruct p as [|x p]; [naive_solver|].
        injection Hp as -> Hp. eauto.
Qed.

Lemma dot_suffixes_length d s : s ∈ dot_suffixes d → length s < length d.
Proof.
  rewrite dot_suffixes_spec. intros (_ & p & ->). rewrite length_app. simpl. lia.
Qed.

(** A suffix seen later in the walk is strictly shorter. *)
Lemma dot_suffixes_sorted d : StronglySorted (fun a b => length b < length a) (dot_suffixes d).
Proof.
  induction d as [|a d IH]; simpl; [constructor|].
  case_decide; [|done]. destruct d as [|b d]; [constructor|].
  constructor; [done|]. apply Forall_forall. intros s Hs. by apply dot_suffixes_length.
Qed.

Lemma dot_suffixes_trans d s t : s ∈ dot_suffixes d → t ∈ dot_suffixes s → t ∈ dot_suffixes d.
Proof.
  rewrite !dot_suffixes_spec. intros (_ & p & ->) (Hne & q & ->). split; [done|].
  exists (p ++ DOT :: q). by rewrite <-app_assoc.
Qed.

(** Two parents of one name: the shorter is a parent of the longer. *)
Lemma dot_suffixes_chain d s t :
  s ∈ dot_suffixes d → t ∈ dot_suffixes d → length t < length s → t ∈ dot_suffixes s.
Proof.
  rewrite !dot_suffixes_spec. intros (Hs & p & ->) (Ht & q & Hq) Hlen. split; [done|].
  apply app_eq_inv in Hq as [(k & -> & Hk)|(k & -> & Hk)].
  - apply (f_equal length) in Hk. rewrite length_app in Hk. simpl in Hk. lia.
  - destruct k as [|c k]; simpl in Hk; [injection Hk as ->; lia|].
    injection Hk as <- ->. by exists k.
Qed.

(** ** [validate_query] against the rendered name *)

Definition real_labels (iter : list str) : list str := filter (.≠ []) iter.
Definition too_long (l : str) : bool := MAX_LABEL_LEN <? length l.

Definition label_cap (labels : list str) : nat :=
  match last labels with
  | Some l => if str_eqb l (lit "arpa") then MAX_LABEL_COUNT_ARPA else MAX_LABEL_COUNT
  | None => MAX_LABEL_COUNT
  end.

Lemma length_join c w ws :
  length (join c (w :: ws)) = length w + sum_list_with (fun l => S (length l)) ws.
Proof.
  revert w; induction ws as [|v ws IH]; intros w; [simpl; lia|].
  rewrite join_cons, length_app, length_cons, IH by done. simpl. lia.
Qed.

Lemma real_labels_cons l ls :
  real_labels (l :: ls) = match l with [] => real_labels ls | _ => l :: real_labels ls end.
Proof. unfold real_labels. rewrite filter_cons. destruct l; by case_decide. Qed.

Lemma validate_labels_pos ls n c prev :
  0 < c →
  validate_labels ls n c prev =
  if existsb too_long (real_labels ls) then Err LabelTooLong
  else Ok (n + sum_list_with (fun l => S (length l)) (real_labels ls),
           c + length (real_labels ls), default prev (last (real_labels ls))).
Proof.
  revert n c prev; induction ls as [|l ls IH]; intros n c prev Hc; simpl.
  { do 3 f_equal; simpl; lia. }
  rewrite real_labels_cons. destruct l as [|a l]; [by apply IH|].
  simpl existsb. unfold too_long at 1. destruct (MAX_LABEL_LEN <? length (a :: l)); [done|].
  rewrite (proj2 (Nat.ltb_lt 0 c) Hc). rewrite IH by lia. simpl.
  destruct (existsb too_long (real_labels ls)); [done|].
  rewrite last_cons. destruct (last (real_labels ls)); simpl; do 3 f_equal; lia.
Qed.

Lemma validate_labels_zero ls :
  validate_labels ls 0 0 [] =
  if existsb too_long (real_labels ls) then Err LabelTooLong
  else Ok (length (join DOT (real_labels ls)), length (real_labels ls),
           default [] (last (real_labels ls))).
Proof.
  induction ls as [|l ls IH]; simpl; [done|].
  rewrite real_labels_cons. destruct l as [|a l]; [done|].
  simpl existsb. unfold too_long at 1. destruct (MAX_LABEL_LEN <? length (a :: l)); [done|].
  rewrite validate_labels_pos by lia. simpl orb.
  destruct (existsb too_long (real_labels ls)); [done|].
  rewrite length_join, last_cons. destruct (last (real_labels ls)); do 3 f_equal; simpl; lia.
Qed.

(** [validate_query] rejects the empty name, then a label over 63 bytes,
    then a presentation form (the labels joined by dots) over 253 bytes, then
    more than 15 labels, or more than 34 when the last label is [arpa]; every
    other name is accepted. *)
Theorem validate_query_spec is_empty is_root iter :
  let labels := real_labels iter in
  validate_query is_empty is_root iter =
  if is_empty || is_root then Err EmptyName
  else if existsb too_long labels then Err LabelTooLong
  else if MAX_NAME_LEN <? length (join DOT labels) then Err NameTooLong
  else if label_cap labels <? length labels then Err TooManyLabels
  else Ok ().
Proof.
  simpl. unfold validate_query. destruct (is_empty || is_root); [done|].
  rewrite validate_labels_zero. destruct (existsb too_long _); [done|]. simpl rbind.
  unfold label_cap. by destruct (last (real_labels iter)).
Qed.

(** A 34-label reverse-lookup name passes, a 16-label forward name does not. *)
Example validate_ip6_arpa :
  validate_query false false (replicate 32 (lit "f") ++ [lit "ip6"; lit "arpa"; []]) = Ok ()
  ∧ validate_query false false (replicate 16 (lit "a") ++ [[]]) = Err TooManyLabels.
Proof. split; reflexivity. Qed.
