(* ===== verification/Rules.v ===== *)
(** * Admin rules: [src/filter/rules.rs]

    The rule data type, the AdGuard-syntax parser ([parse_rule_checked],
    [parse_rule], [parse_rules]) and rule matching. *)

From S2P Require Import Prelude RustStr DnsTypes Domain.

(** The [regex] crate is known by its interface: compiling a pattern (with
    the options the parser sets) yields a program or an error text, and a
    program matches a text or not. *)
Class RegexCrate := {
  regex : Type;
  regex_build : str → result str regex;
  regex_is_match : regex → str → bool;
}.

Inductive RuleAction := Block | Allow.

#[export] Instance rule_action_eq_dec : EqDecision RuleAction.
Proof. solve_decision. Defined.

Inductive RuleParseError :=
| Empty
| UnterminatedRegex
| EmptyRegex
| InvalidRegex (pattern detail : str)
| TrailingAfterRegex (trailing : str)
| UnknownModifier (modifier : str)
| EmptyPattern
| StrayWildcard
| InvalidDomain (input : str).

(** [is_subdomain_of]: strictly longer, ends with the parent, and the byte
    before the parent is a dot; the empty parent matches nothing. *)
Definition is_subdomain_of (domain parent : str) : bool :=
  match parent with
  | [] => false
  | _ =>
    (length parent <? length domain)
    && ends_with parent domain
    && bool_decide (domain !! (length domain - length parent - 1) = Some DOT)
  end.

(** The modifier loop over [modifiers.split(',')]: [important] and [noapex]
    are set, anything else is an error. *)
Fixpoint parse_modifiers (ms : list str) (important noapex : bool)
  : result RuleParseError (bool * bool) :=
  match ms with
  | [] => Ok (important, noapex)
  | m :: ms' =>
    let m := trim m in
    if str_eqb m (lit "important") then parse_modifiers ms' true noapex
    else if str_eqb m (lit "noapex") then parse_modifiers ms' important true
    else Err (UnknownModifier m)
  end.

Section Rules.
Context {RC : RegexCrate}.

Inductive RulePattern :=
| Exact (target : str)
| Wildcard (suffix : str)
| Regex (source : str) (compiled : regex).

Record DnsRule := {
  pattern : RulePattern;
  action : RuleAction;
  important : bool;
  noapex : bool;
}.

(** [DnsRule::matches]. *)
Definition matches (r : DnsRule) (domain : str) : bool :=
  match pattern r with
  | Exact target => bool_decide (domain = target) || is_subdomain_of domain target
  | Wildcard suffix => is_subdomain_of domain suffix
  | Regex _ compiled => regex_is_match compiled domain
  end.

Definition is_simple_exact (r : DnsRule) : bool :=
  match pattern r with
  | Exact _ => negb (important r)
  | _ => false
  end.

Definition exact_domain (r : DnsRule) : option str :=
  match pattern r with
  | Exact d => Some d
  | _ => None
  end.

(** The [/regex/] grammar, after the opening slash. *)
Definition parse_regex_rule (act : RuleAction) (rest : str) : result RuleParseError DnsRule :=
  match split_once "/"%char rest with
  | None => Err UnterminatedRegex
  | Some (pattern_str, trailing) =>
    match pattern_str with
    | [] => Err EmptyRegex
    | _ =>
      match trailing with
      | _ :: _ => Err (TrailingAfterRegex trailing)
      | [] =>
        match regex_build pattern_str with
        | Err e => Err (InvalidRegex pattern_str e)
        | Ok compiled =>
          Ok {| pattern := Regex pattern_str compiled; action := act;
                important := false; noapex := false |}
        end
      end
    end
  end.

(** The domain grammar, after the action and [||] prefixes and the
    modifiers have been read. *)
Definition parse_domain_rule (act : RuleAction) (imp noap : bool) (s : str)
  : result RuleParseError DnsRule :=
  let s := default s (strip_suffix (lit "^") s) in
  match s with
  | [] => Err EmptyPattern
  | _ =>
    match strip_prefix (lit "*.") s with
    | Some suffix =>
      if bool_decide (suffix = []) || negb (is_valid_domain suffix)
      then Err (InvalidDomain suffix)
      else Ok {| pattern := Wildcard (to_ascii_lowercase suffix); action := act;
                 important := imp; noapex := noap |}
    | None =>
      if contains "*"%char s then Err StrayWildcard
      else if negb (is_valid_domain s) then Err (InvalidDomain s)
      else Ok {| pattern := Exact (to_ascii_lowercase s); action := act;
                 important := imp; noapex := false |}
    end
  end.

(** Modifiers are split off at the first [$] and read before the pattern. *)
Definition parse_modified_rule (act : RuleAction) (s : str) : result RuleParseError DnsRule :=
  match split_once "$"%char s with
  | Some (s', modifiers) =>
    let? (imp, noap) := parse_modifiers (split ","%char modifiers) false false in
    parse_domain_rule act imp noap s'
  | None => parse_domain_rule act false false s
  end.

(** What follows the [@@] prefix: any leading slash commits to the regex
    grammar. *)
Definition parse_action_rule (act : RuleAction) (s : str) : result RuleParseError DnsRule :=
  match strip_prefix (lit "/") s with
  | Some rest => parse_regex_rule act rest
  | None => parse_modified_rule act (default s (strip_prefix (lit "||") s))
  end.

Definition parse_rule_checked (line : str) : result RuleParseError DnsRule :=
  let s := trim line in
  match s with
  | [] => Err Empty
  | _ =>
    match strip_prefix (lit "@@") s with
    | Some r => parse_action_rule Allow r
    | None => parse_action_rule Block s
    end
  end.

Definition parse_rule (line : str) : option DnsRule := ok (parse_rule_checked line).

(** [parse_rules]: a wildcard without [$noapex] also yields its apex rule. *)
Definition parse_rules (line : str) : list DnsRule :=
  match parse_rule line with
  | None => []
  | Some rule =>
    match pattern rule with
    | Wildcard suffix =>
      if negb (noapex rule) then
        [rule; {| pattern := Exact suffix; action := action rule;
                  important := important rule; noapex := false |}]
      else [rule]
    | _ => [rule]
    end
  end.

(** ** Matching *)

Lemma is_subdomain_of_spec domain parent :
  is_subdomain_of domain parent = true ↔ parent ∈ dot_suffixes domain.
Proof.
  rewrite dot_suffixes_spec. unfold is_subdomain_of. destruct parent as [|a parent].
  { split; [done|]. naive_solver. }
  set (p := a :: parent).
  rewrite !andb_true_iff, Nat.ltb_lt, ends_with_spec, bool_decide_eq_true. split.
  - intros [[Hlen [r ->]] Hdot]. split; [done|]. rewrite !length_app in *.
    assert (r ≠ []) as Hr by (intros ->; simpl in *; lia).
    destruct (exists_last Hr) as (q & z & ->). rewrite length_app in *.
    rewrite lookup_app_l in Hdot by (rewrite length_app; simpl; lia).
    rewrite lookup_app_r in Hdot by (simpl; lia).
    replace (_ - _) with 0 in Hdot by (simpl; lia). injection Hdot as ->.
    exists q. by rewrite <-app_assoc.
  - intros (_ & q & ->). rewrite length_app. simpl length. split_and!; [lia| |].
    + exists (q ++ [DOT]). by rewrite <-app_assoc.
    + rewrite lookup_app_r by lia. replace (_ - _ - _ - _) with 0 by lia. done.
Qed.

(** A rule's pattern covers a name when the name is the target or below it. *)
Definition covers (target domain : str) : Prop :=
  domain = target ∨ target ∈ dot_suffixes domain.

Lemma matches_spec r domain :
  matches r domain = true ↔
  match pattern r with
  | Exact target => covers target domain
  | Wildcard suffix => suffix ∈ dot_suffixes domain
  | Regex _ compiled => regex_is_match compiled domain = true
  end.
Proof.
  unfold matches, covers. destruct (pattern r); [|by apply is_subdomain_of_spec|done].
  by rewrite orb_true_iff, bool_decide_eq_true, is_subdomain_of_spec.
Qed.

(** ** What the parser can produce *)

Record wf_rule (r : DnsRule) : Prop := {
  wf_pattern :
    match pattern r with
    | Exact d | Wildcard d => is_valid_domain d = true ∧ is_lowercase d = true
    | Regex source compiled =>
      source ≠ [] ∧ "/"%char ∉ source ∧ regex_build source = Ok compiled
        ∧ important r = false
    end;
  wf_noapex : noapex r = true → ∃ d, pattern r = Wildcard d;
}.

Lemma parse_regex_rule_wf act rest r : parse_regex_rule act rest = Ok r → wf_rule r.
Proof.
  unfold parse_regex_rule. destruct (split_once _ rest) as [[p t]|] eqn:E; [|done].
  apply split_once_Some in E as [_ Hn].
  destruct p as [|a p]; [done|]. destruct t; [|done].
  destruct (regex_build (a :: p)) eqn:Hb; [|done]. intros [= <-]. by split.
Qed.

Lemma parse_domain_rule_wf act imp noap s r : parse_domain_rule act imp noap s = Ok r → wf_rule r.
Proof.
  unfold parse_domain_rule. set (s' := default s _). destruct s' as [|a s'']; [done|].
  generalize (a :: s''). intros d. destruct (strip_prefix _ _) as [suffix|].
  - case_bool_decide; [done|]. destruct (is_valid_domain suffix) eqn:Hv; [|done]. intros [= <-].
    split; cbn [pattern noapex important]; [split; auto using is_valid_domain_lower, to_ascii_lowercase_lower|eauto].
  - destruct (contains _ _); [done|]. destruct (is_valid_domain _) eqn:Hv; [|done]. intros [= <-].
    split; cbn [pattern noapex important]; [split; auto using is_valid_domain_lower, to_ascii_lowercase_lower|done].
Qed.

Lemma parse_action_rule_wf act s r : parse_action_rule act s = Ok r → wf_rule r.
Proof.
  unfold parse_action_rule, parse_modified_rule.
  destruct (strip_prefix (lit "/") s); [apply parse_regex_rule_wf|].
  destruct (split_once _ _) as [[s2 mods]|]; [|apply parse_domain_rule_wf].
  intros H. inv_bind. destruct a. eapply parse_domain_rule_wf, H.
Qed.

Lemma parse_rule_checked_wf line r : parse_rule_checked line = Ok r → wf_rule r.
Proof.
  unfold parse_rule_checked. destruct (trim line) as [|a s]; [done|].
  destruct (strip_prefix _ _); apply parse_action_rule_wf.
Qed.

(** Every rule the parser returns is well formed: its domain is valid and
    lowercase, a regex rule has a non-empty slash-free source that compiles
    and carries no modifier, and only wildcards carry [noapex]. *)
Theorem parse_rule_checked_sound line r : parse_rule_checked line = Ok r → wf_rule r.
Proof. apply parse_rule_checked_wf. Qed.

(** ** Round trip

    The canonical text of a rule, in the syntax the module documents. *)

Definition print_modifiers (imp noap : bool) : str :=
  match imp, noap with
  | false, false => []
  | true, false => lit "$important"
  | false, true => lit "$noapex"
  | true, true => lit "$important,noapex"
  end.

Definition print_rule (r : DnsRule) : str :=
  (if decide (action r = Allow) then lit "@@" else [])
  ++ match pattern r with
     | Exact d => lit "||" ++ d ++ lit "^" ++ print_modifiers (important r) false
     | Wildcard d => lit "||*." ++ d ++ lit "^" ++ print_modifiers (important r) (noapex r)
     | Regex source _ => lit "/" ++ source ++ lit "/"
     end.

Lemma not_domain_char d c : is_valid_domain d = true → domain_char c = false → c ∉ d.
Proof.
  intros Hd Hc Hin. apply is_valid_domain_chars in Hd. rewrite Forall_forall in Hd.
  apply Hd in Hin. congruence.
Qed.

Lemma parse_domain_rule_exact act imp d :
  is_valid_domain d = true → is_lowercase d = true →
  parse_domain_rule act imp false (d ++ lit "^") =
  Ok {| pattern := Exact d; action := act; important := imp; noapex := false |}.
Proof.
  intros Hv Hl. unfold parse_domain_rule. rewrite strip_suffix_app. simpl default.
  pose proof (is_valid_domain_nonempty _ Hv) as Hne.
  assert ("*"%char ∉ d) as Hs by (by apply not_domain_char).
  destruct d as [|a d']; [done|]. set (d := a :: d') in *.
  destruct (strip_prefix (lit "*.") d) as [q|] eqn:E.
  { apply strip_prefix_Some in E. rewrite E in Hs. simpl in Hs. set_solver. }
  rewrite (proj2 (contains_false _ _) Hs), Hv. by rewrite to_ascii_lowercase_id.
Qed.

Lemma parse_domain_rule_wildcard act imp noap d :
  is_valid_domain d = true → is_lowercase d = true →
  parse_domain_rule act imp noap (lit "*." ++ d ++ lit "^") =
  Ok {| pattern := Wildcard d; action := act; important := imp; noapex := noap |}.
Proof.
  intros Hv Hl. unfold parse_domain_rule. rewrite app_assoc, strip_suffix_app.
  simpl default. cbn [lit app String.list_ascii_of_string].
  change (strip_prefix _ _) with (Some d). cbn match.
  rewrite bool_decide_false by auto with warden. rewrite Hv. by rewrite to_ascii_lowercase_id.
Qed.

Lemma split_once_app c x y : c ∉ x → split_once c (x ++ c :: y) = Some (x, y).
Proof. intros H. by apply split_once_Some. Qed.

Lemma parse_modified_printed act body imp noap :
  "$"%char ∉ body →
  parse_modified_rule act (body ++ print_modifiers imp noap) = parse_domain_rule act imp noap body.
Proof.
  intros Hn. unfold parse_modified_rule.
  destruct imp, noap; unfold print_modifiers, lit; cbn [String.list_ascii_of_string];
    rewrite ?(split_once_app _ _ _ Hn); [done|done|done|].
  rewrite app_nil_r. by rewrite (proj2 (split_once_None _ _) Hn).
Qed.

Lemma parse_rule_checked_text act a s z :
  printable a = true → printable z = true → a ≠ "@"%char →
  parse_rule_checked ((if decide (act = Allow) then lit "@@" else []) ++ (a :: s ++ [z]))
  = parse_action_rule act (a :: s ++ [z]).
Proof.
  intros Ha Hz Hat. unfold parse_rule_checked. destruct act; simpl.
  - rewrite trim_ends by done. by rewrite decide_False by done.
  - pose proof (trim_ends "@"%char ("@"%char :: a :: s) z eq_refl Hz) as H.
    cbn [app] in H. by rewrite H.
Qed.

Lemma print_modifiers_last body imp noap :
  ∃ m z, body ++ lit "^" ++ print_modifiers imp noap = m ++ [z] ∧ printable z = true.
Proof.
  destruct imp, noap; simpl.
  - exists (body ++ lit "^$important,noape"), "x"%char. by rewrite <-app_assoc.
  - exists (body ++ lit "^$importan"), "t"%char. by rewrite <-app_assoc.
  - exists (body ++ lit "^$noape"), "x"%char. by rewrite <-app_assoc.
  - by exists body, "^"%char.
Qed.

Lemma parse_printed_domain act body imp noap :
  "$"%char ∉ body →
  parse_rule_checked ((if decide (act = Allow) then lit "@@" else [])
                      ++ lit "||" ++ body ++ lit "^" ++ print_modifiers imp noap)
  = parse_domain_rule act imp noap (body ++ lit "^").
Proof.
  intros Hn. destruct (print_modifiers_last (lit "|" ++ body) imp noap) as (m & z & Hm & Hz).
  change (lit "||" ++ body ++ ?x) with ("|"%char :: (lit "|" ++ body) ++ x). rewrite Hm.
  rewrite parse_rule_checked_text by done. rewrite <-Hm. simpl.
  unfold parse_action_rule. simpl.
  change ("^"%char :: print_modifiers imp noap) with ([ "^"%char ] ++ print_modifiers imp noap).
  rewrite app_assoc. apply parse_modified_printed. set_solver.
Qed.

(** C25: parsing the canonical text of a well-formed rule gives the rule back:
    every rule value the filter can hold is expressible, and the text fixes
    its action, pattern and modifiers. *)
Theorem parse_print_rule r : wf_rule r → parse_rule_checked (print_rule r) = Ok r.
Proof.
  intros [Hp Ha]. destruct r as [pat act imp noap]. unfold print_rule.
  cbn [pattern action important noapex] in *. destruct pat as [d|d|source compiled].
  - destruct Hp as [Hv Hl]. rewrite parse_printed_domain by (by apply not_domain_char).
    rewrite parse_domain_rule_exact by done.
    destruct noap; [|done]. by destruct (Ha eq_refl).
  - destruct Hp as [Hv Hl].
    change (lit "||*." ++ d ++ ?x) with (lit "||" ++ (lit "*." ++ d) ++ x).
    rewrite parse_printed_domain.
    + rewrite <-app_assoc. by apply parse_domain_rule_wildcard.
    + pose proof (not_domain_char d "$"%char Hv eq_refl). unfold lit. simpl. set_solver.
  - destruct Hp as (Hne & Hs & Hb & ->). destruct noap; [by destruct (Ha eq_refl)|].
    change (lit "/" ++ source ++ lit "/") with ("/"%char :: source ++ ["/"%char]).
    rewrite parse_rule_checked_text by done. unfold parse_action_rule. simpl.
    unfold parse_regex_rule. rewrite split_once_app by done.
    destruct source; [done|]. by rewrite Hb.
Qed.

(** A wildcard line without [$noapex] expands to rules that together match
    exactly the suffix and everything below it, all with the line's action and
    priority; with [$noapex] the suffix itself is left out. *)
Theorem parse_rules_wildcard line r suffix :
  parse_rule_checked line = Ok r → pattern r = Wildcard suffix →
  Forall (fun r' => action r' = action r ∧ important r' = important r) (parse_rules line)
  ∧ ∀ domain, existsb (fun r' => matches r' domain) (parse_rules line) = true ↔
      suffix ∈ dot_suffixes domain ∨ (noapex r = false ∧ domain = suffix).
Proof.
  intros Hr Hp. unfold parse_rules, parse_rule. rewrite Hr. simpl. rewrite Hp.
  destruct (noapex r) eqn:Hn; simpl.
  - split; [by repeat constructor|]. intros domain.
    rewrite orb_false_r, matches_spec, Hp. naive_solver.
  - split; [by repeat constructor|]. intros domain.
    rewrite orb_false_r, orb_true_iff, !matches_spec, Hp. unfold covers. simpl. naive_solver.
Qed.

End Rules.

(** ** Concrete instances *)

(** A regex crate whose patterns are plain substrings. *)
Fixpoint substring (p s : str) : bool :=
  starts_with p s || match s with [] => false | _ :: s' => substring p s' end.

#[export] Instance literal_regex : RegexCrate | 100 := {
  regex := str;
  regex_build := Ok;
  regex_is_match := substring;
}.

Lemma parse_rule_checked_sound_witness :
  parse_rule_checked (lit " @@||*.Ads.Example.com^$noapex,important ") =
    Ok {| pattern := Wildcard (lit "ads.example.com"); action := Allow;
          important := true; noapex := true |}
  ∧ wf_rule {| pattern := Wildcard (lit "ads.example.com"); action := Allow;
               important := true; noapex := true |}.
Proof.
  split; [reflexivity|].
  apply (parse_rule_checked_sound (lit " @@||*.Ads.Example.com^$noapex,important ")).
  reflexivity.
Defined.

Lemma parse_print_rule_witness :
  parse_rule_checked (print_rule {| pattern := Exact (lit "ads.example.com"); action := Allow;
                                    important := true; noapex := false |})
  = Ok {| pattern := Exact (lit "ads.example.com"); action := Allow;
          important := true; noapex := false |}.
Proof.
  apply (parse_print_rule {| pattern := Exact (lit "ads.example.com"); action := Allow;
                             important := true; noapex := false |}).
  split; [split; reflexivity|discriminate].
Defined.

Lemma parse_rules_wildcard_witness :
  Forall (fun r' : DnsRule => action r' = Block ∧ important r' = false)
    (parse_rules (lit "||*.ads.example.com^"))
  ∧ ∀ domain,
      existsb (fun r' => matches r' domain) (parse_rules (lit "||*.ads.example.com^")) = true ↔
      lit "ads.example.com" ∈ dot_suffixes domain ∨ (false = false ∧ domain = lit "ads.example.com").
Proof.
  apply (parse_rules_wildcard (lit "||*.ads.example.com^")
    {| pattern := Wildcard (lit "ads.example.com"); action := Block;
       important := false; noapex := false |} (lit "ads.example.com"));
  reflexivity.
Defined.
