(* ===== verification/Evaluator.v ===== *)
(** * Rule evaluation by priority: [src/filter/evaluator.rs] *)

From S2P Require Import Prelude RustStr DnsTypes Domain Rules.

(** [filter::engine::FilterResult]. *)
Inductive FilterResult := FForward | FBlock.

#[export] Instance filter_result_eq_dec : EqDecision FilterResult.
Proof. solve_decision. Defined.

Definition action_result (a : RuleAction) : FilterResult :=
  match a with Allow => FForward | Block => FBlock end.

(** [priority_of]: the four AdGuard tiers. *)
Definition priority_of (important : bool) (action : RuleAction) : Z :=
  match important, action with
  | true, Allow => 3
  | true, Block => 2
  | false, Allow => 1
  | false, Block => 0
  end.

Section Evaluator.
Context {RC : RegexCrate}.

Definition rule_priority (r : DnsRule) : Z := priority_of (important r) (action r).

(** The loop of [priority_scan]: a rule that cannot beat [best] is skipped
    without matching it, and an [$important] allow ends the scan. *)
Fixpoint scan_from (best : option (Z * DnsRule)) (rules : list DnsRule) (domain : str)
  : option (Z * DnsRule) :=
  match rules with
  | [] => best
  | rule :: rest =>
    let priority := rule_priority rule in
    let skip := match best with Some (p, _) => (priority <=? p)%Z | None => false end in
    if skip then scan_from best rest domain
    else if matches rule domain then
      if (priority =? 3)%Z then Some (priority, rule)
      else scan_from (Some (priority, rule)) rest domain
    else scan_from best rest domain
  end.

Definition priority_scan (rules : list DnsRule) (domain : str) : option (Z * DnsRule) :=
  match rules with
  | [] => None
  | _ => scan_from None rules domain
  end.

(** [evaluate_rules]. *)
Definition evaluate_rules (domain : str) (rules : list DnsRule) : option FilterResult :=
  match priority_scan rules domain with
  | Some (_, rule) => Some (action_result (action rule))
  | None => None
  end.

(** ** Specification: the first of the matching rules of highest priority *)

Definition matching (rules : list DnsRule) (domain : str) : list DnsRule :=
  List.filter (fun r => matches r domain) rules.

(** [wins rules domain r]: [r] matches, nothing that matches has a higher
    priority, and nothing before it in the list has the same. *)
Definition wins (rules : list DnsRule) (domain : str) (r : DnsRule) : Prop :=
  ∃ before after, rules = before ++ r :: after
    ∧ matches r domain = true
    ∧ Forall (fun r' => matches r' domain = true → (rule_priority r' < rule_priority r)%Z) before
    ∧ Forall (fun r' => matches r' domain = true → (rule_priority r' ≤ rule_priority r)%Z) after.

Lemma rule_priority_range r : (0 ≤ rule_priority r ≤ 3)%Z.
Proof. unfold rule_priority, priority_of. destruct (important r), (action r); lia. Qed.

Lemma rule_priority_inj r r' :
  rule_priority r = rule_priority r' → important r = important r' ∧ action r = action r'.
Proof. unfold rule_priority, priority_of. destruct (important r), (action r), (important r'), (action r'); done. Qed.

(** The scan either keeps its start value, when nothing later beats it, or
    returns the first winner among the later rules. *)
Lemma scan_from_spec rules domain best :
  (∀ p r, best = Some (p, r) → p = rule_priority r) →
  (scan_from best rules domain = best
   ∧ Forall (fun r' => matches r' domain = true →
               ∃ p r, best = Some (p, r) ∧ (rule_priority r' ≤ p)%Z) rules)
  ∨ (∃ r, scan_from best rules domain = Some (rule_priority r, r)
     ∧ wins rules domain r
     ∧ ∀ p r0, best = Some (p, r0) → (p < rule_priority r)%Z).
Proof.
  revert best; induction rules as [|r rules IH]; intros best Hb; simpl.
  { left. split; [done|constructor]. }
  destruct (match best with Some (p, _) => (rule_priority r <=? p)%Z | None => false end) eqn:Hskip.
  - destruct best as [[p r0]|]; [|done]. apply Z.leb_le in Hskip.
    destruct (IH (Some (p, r0)) Hb) as [[Heq Hf]|(w & Heq & (l1 & l2 & -> & Hm & H1 & H2) & Hlt)].
    + left. split; [done|]. constructor; [eauto|done].
    + right. exists w. split_and!; [done| |done].
      exists (r :: l1), l2. split_and!; [done|done| |done].
      constructor; [|done]. intros _. pose proof (Hlt p r0 eq_refl). lia.
  - assert (∀ p r0, best = Some (p, r0) → (p < rule_priority r)%Z) as Hgt.
    { intros p r0 ->. by apply Z.leb_gt in Hskip. }
    destruct (matches r domain) eqn:Hm.
    + destruct (Z.eqb_spec (rule_priority r) 3) as [H3|H3].
      * right. exists r. split_and!; [done| |done].
        exists [], rules. split_and!; [done|done|constructor|].
        apply Forall_true. intros r' _. pose proof (rule_priority_range r'). lia.
      * destruct (IH (Some (rule_priority r, r))) as [[Heq Hf]|(w & Heq & (l1 & l2 & -> & Hmw & H1 & H2) & Hlt)];
          [naive_solver| |].
        -- right. exists r. split_and!; [done| |done].
           exists [], rules. split_and!; [done|done|constructor|].
           eapply Forall_impl; [exact Hf|]. naive_solver.
        -- pose proof (Hlt _ _ eq_refl) as Hlt'. right. exists w. split_and!; [done| |].
           ++ exists (r :: l1), l2. split_and!; [done|done| |done]. by constructor.
           ++ intros p r0 Hp. pose proof (Hgt _ _ Hp). lia.
    + destruct (IH best Hb) as [[Heq Hf]|(w & Heq & (l1 & l2 & -> & Hmw & H1 & H2) & Hlt)].
      * left. split; [done|]. constructor; [|done]. congruence.
      * right. exists w. split_and!; [done| |done].
        exists (r :: l1), l2. split_and!; [done|done| |done]. constructor; [congruence|done].
Qed.

Lemma priority_scan_from rules domain : priority_scan rules domain = scan_from None rules domain.
Proof. by destruct rules. Qed.

Lemma priority_scan_Some rules domain p r :
  priority_scan rules domain = Some (p, r) → p = rule_priority r ∧ wins rules domain r.
Proof.
  rewrite priority_scan_from. intros H.
  destruct (scan_from_spec rules domain None) as [[Heq _]|(w & Heq & Hw & _)]; [done| |].
  - congruence.
  - rewrite Heq in H. by injection H as <- <-.
Qed.

Lemma priority_scan_None rules domain :
  priority_scan rules domain = None ↔ Forall (fun r => matches r domain = false) rules.
Proof.
  rewrite priority_scan_from.
  destruct (scan_from_spec rules domain None) as [[Heq Hf]|(w & Heq & (l1 & l2 & -> & Hm & _) & _)]; [done| |].
  - rewrite Heq. split; [|done]. intros _. eapply Forall_impl; [exact Hf|].
    intros r Hr. simpl in Hr. destruct (matches r domain); [|done].
    by destruct (Hr eq_refl) as (? & ? & ? & _).
  - rewrite Heq. split; [done|]. rewrite Forall_app, Forall_cons. intros (_ & ? & _). congruence.
Qed.

Lemma wins_unique rules domain r1 r2 : wins rules domain r1 → wins rules domain r2 → r1 = r2.
Proof.
  intros (a1 & b1 & -> & M1 & F1 & G1) (a2 & b2 & E & M2 & F2 & G2).
  apply app_eq_inv in E as [(k & -> & Hk)|(k & -> & Hk)].
  - destruct k as [|x k]; simpl in *; [congruence|]. injection Hk as -> ->.
    rewrite Forall_app, Forall_cons in F1. destruct F1 as (_ & F1 & _). specialize (F1 M2).
    rewrite Forall_app, Forall_cons in G2. destruct G2 as (_ & G2 & _). specialize (G2 M1). lia.
  - destruct k as [|x k]; simpl in *; [congruence|]. injection Hk as -> ->.
    rewrite Forall_app, Forall_cons in F2. destruct F2 as (_ & F2 & _). specialize (F2 M1).
    rewrite Forall_app, Forall_cons in G1. destruct G1 as (_ & G1 & _). specialize (G1 M2). lia.
Qed.

(** [priority_scan] returns a rule exactly when some rule matches, and the
    rule it returns is the first, in list order, of the matching rules of
    highest priority; the early exit and the skipped matches change nothing. *)
Theorem priority_scan_correct rules domain :
  (priority_scan rules domain = None ↔ Forall (fun r => matches r domain = false) rules)
  ∧ ∀ p r, priority_scan rules domain = Some (p, r) ↔
      p = rule_priority r ∧ wins rules domain r.
Proof.
  split; [apply priority_scan_None|]. intros p r. split; [apply priority_scan_Some|].
  intros [-> Hw]. destruct (priority_scan rules domain) as [[p' r']|] eqn:E.
  - apply priority_scan_Some in E as [-> Hw']. by rewrite (wins_unique _ _ _ _ Hw Hw').
  - apply priority_scan_None in E. destruct Hw as (l1 & l2 & -> & Hm & _).
    rewrite Forall_app, Forall_cons in E. destruct E as (_ & ? & _). congruence.
Qed.

(** The verdict of a rule set in tiers: an [$important] allow, then an
    [$important] deny, then an allow, then a deny. *)
Definition some_match (imp : bool) (a : RuleAction) (domain : str) (rules : list DnsRule) : bool :=
  existsb (fun r => bool_decide (important r = imp ∧ action r = a) && matches r domain) rules.

Definition tier_verdict (domain : str) (rules : list DnsRule) : option FilterResult :=
  if some_match true Allow domain rules then Some FForward
  else if some_match true Block domain rules then Some FBlock
  else if some_match false Allow domain rules then Some FForward
  else if some_match false Block domain rules then Some FBlock
  else None.

Lemma some_match_spec imp a domain rules :
  some_match imp a domain rules = true ↔
  ∃ r, r ∈ rules ∧ important r = imp ∧ action r = a ∧ matches r domain = true.
Proof.
  unfold some_match. rewrite existsb_exists. setoid_rewrite andb_true_iff.
  setoid_rewrite bool_decide_eq_true. setoid_rewrite list_elem_of_In. naive_solver.
Qed.

Lemma wins_max rules domain r r' :
  wins rules domain r → r' ∈ rules → matches r' domain = true → (rule_priority r' ≤ rule_priority r)%Z.
Proof.
  intros (l1 & l2 & -> & _ & F & G) Hin Hm. rewrite Forall_forall in F, G.
  apply elem_of_app in Hin as [Hin|Hin]; [specialize (F _ Hin Hm); lia|].
  apply elem_of_cons in Hin as [->|Hin]; [lia|]. by apply G.
Qed.

Lemma wins_elem rules domain r : wins rules domain r → r ∈ rules ∧ matches r domain = true.
Proof. intros (l1 & l2 & -> & Hm & _). set_solver. Qed.

Lemma some_match_above rules domain r imp a :
  wins rules domain r → (rule_priority r < priority_of imp a)%Z → some_match imp a domain rules = false.
Proof.
  intros Hw Hlt. apply not_true_iff_false. rewrite some_match_spec.
  intros (r' & Hin & <- & <- & Hm). pose proof (wins_max _ _ _ _ Hw Hin Hm) as Hle.
  unfold rule_priority in *. lia.
Qed.

Lemma some_match_winner rules domain r :
  wins rules domain r → some_match (important r) (action r) domain rules = true.
Proof. intros Hw. apply some_match_spec. exists r. apply wins_elem in Hw. naive_solver. Qed.

(** The action of the winning rule, read off the tiers. *)
Lemma scan_tier domain rules :
  (fun pr => action_result (action pr.2)) <$> priority_scan rules domain = tier_verdict domain rules.
Proof.
  unfold tier_verdict. destruct (priority_scan rules domain) as [[p r]|] eqn:E.
  - apply priority_scan_Some in E as [-> Hw].
    pose proof (some_match_winner _ _ _ Hw) as Hm.
    pose proof (λ imp a, some_match_above _ _ _ imp a Hw) as Ha.
    unfold rule_priority in Ha. simpl.
    destruct (important r), (action r); simpl in *; rewrite Hm; rewrite ?Ha by (simpl; lia); done.
  - apply priority_scan_None in E. rewrite Forall_forall in E.
    assert (∀ imp a, some_match imp a domain rules = false) as Hn.
    { intros imp a. apply not_true_iff_false. rewrite some_match_spec.
      intros (r & Hin & _ & _ & Hm). apply E in Hin. congruence. }
    by rewrite !Hn.
Qed.

(** The verdict depends only on which tiers have a matching rule, never on
    the order of the rules: [$important] allow beats [$important] deny beats
    allow beats deny. *)
Theorem evaluate_rules_tiers domain rules :
  evaluate_rules domain rules = tier_verdict domain rules.
Proof.
  rewrite <-scan_tier. unfold evaluate_rules.
  by destruct (priority_scan rules domain) as [[p r]|].
Qed.

End Evaluator.
