(* ===== verification/Shard.v ===== *)
(** * List policy and sorted shards: [src/filter/engine.rs], lines 190-955

    A shard is a strictly ascending array of domains tagged with the bits of
    the lists that contain them, together with the policy that says which
    bits allow and which block for each profile. *)

From S2P Require Import Prelude RustStr DnsTypes Domain SortedSlice.

(** ** Masks *)

Record ProfileMasks := { pm_allow : Z; pm_block : Z }.

Definition RESTRICTIVE : ProfileMasks := {| pm_allow := 0; pm_block := U64_MAX |}.
Definition INERT : ProfileMasks := {| pm_allow := 0; pm_block := 0 |}.

Definition is_inert (m : ProfileMasks) : bool :=
  (pm_allow m =? 0)%Z && (pm_block m =? 0)%Z.

Record DomainMasks := { allow_mask : Z; block_mask : Z }.

Definition no_masks : DomainMasks := {| allow_mask := 0; block_mask := 0 |}.

Definition block_only (b : Z) : DomainMasks := {| allow_mask := 0; block_mask := b |}.

Definition masks_is_empty (m : DomainMasks) : bool :=
  (allow_mask m =? 0)%Z && (block_mask m =? 0)%Z.

(** [a |= b] on both directions. *)
Definition masks_or (a b : DomainMasks) : DomainMasks :=
  {| allow_mask := Z.lor (allow_mask a) (allow_mask b);
     block_mask := Z.lor (block_mask a) (block_mask b) |}.

Definition apply_masks (bits : Z) (m : ProfileMasks) : DomainMasks :=
  {| allow_mask := Z.land bits (pm_allow m); block_mask := Z.land bits (pm_block m) |}.

(** ** Policies *)

Record PolicyMasks := {
  policy_base : ProfileMasks;
  policy_per_profile : gmap str ProfileMasks;
}.

Definition PolicyMasks_default : PolicyMasks :=
  {| policy_base := RESTRICTIVE; policy_per_profile := ∅ |}.

Record ListPolicy := {
  lp_per_profile : gmap str ProfileMasks;
  lp_base : ProfileMasks;
  lp_fallback : ProfileMasks;
  lp_gen_id : Z;
}.

(** [next_gen_id]: the process-wide counter is passed in and returned. *)
Definition next_gen_id (FILTER_GEN_ID : Z) : Z * Z :=
  (FILTER_GEN_ID, as_u64 (FILTER_GEN_ID + 1)).

Definition derived (masks : PolicyMasks) (gen_id : Z) : ListPolicy :=
  {| lp_per_profile := policy_per_profile masks; lp_base := policy_base masks;
     lp_fallback := RESTRICTIVE; lp_gen_id := gen_id |}.

Definition publish (masks : PolicyMasks) (ctr : Z) : ListPolicy * Z :=
  let '(gen_id, ctr) := next_gen_id ctr in (derived masks gen_id, ctr).

Definition uniform (allow_bits gen_id : Z) : ListPolicy :=
  let split := {| pm_allow := allow_bits; pm_block := u64_not allow_bits |} in
  {| lp_per_profile := ∅; lp_base := split; lp_fallback := split; lp_gen_id := gen_id |}.

Definition publish_uniform (allow_bits ctr : Z) : ListPolicy * Z :=
  let '(gen_id, ctr) := next_gen_id ctr in (uniform allow_bits gen_id, ctr).

Definition inert : ListPolicy :=
  {| lp_per_profile := ∅; lp_base := RESTRICTIVE; lp_fallback := RESTRICTIVE; lp_gen_id := 0 |}.

Definition masks_for (p : ListPolicy) (profile : str) : ProfileMasks :=
  default (lp_fallback p) (lp_per_profile p !! profile).

Definition split_base (p : ListPolicy) (bits : Z) : DomainMasks := apply_masks bits (lp_base p).

(** ** Sorted shards *)

Record SortedShard := { entries : list (str * Z); policy : ListPolicy }.

Record ShardOrderError := {
  so_index : nat;
  so_previous : str;
  so_offending : str;
  so_duplicate : bool;
}.

Definition empty_shard : SortedShard := {| entries := []; policy := inert |}.

(** [entries.windows(2).position(|w| w[0].0 >= w[1].0)], with the two keys of
    the window found. *)
Fixpoint first_disorder (l : list (str * Z)) : option (nat * str * str) :=
  match l with
  | (k0, _) :: (((k1, _) :: _) as rest) =>
    match str_cmp k0 k1 with
    | Lt => match first_disorder rest with
            | Some (pos, a, b) => Some (S pos, a, b)
            | None => None
            end
    | _ => Some (0, k0, k1)
    end
  | _ => None
  end.

Definition from_sorted_entries (l : list (str * Z)) (p : ListPolicy)
  : result ShardOrderError SortedShard :=
  match first_disorder l with
  | Some (pos, prev, off) =>
    Err {| so_index := pos + 1; so_previous := prev; so_offending := off;
           so_duplicate := str_eqb prev off |}
  | None => Ok {| entries := l; policy := p |}
  end.

(** The bits stored for a key. *)
Definition shard_bits (s : SortedShard) (key : str) : option Z := slice_get (entries s) key.

(** *** The two-mask adapter [from_pairs] *)

(** [entries.dedup_by]: an entry with the key of the last one kept is merged
    into it. *)
Fixpoint dedup_from (last : str * Z) (l : list (str * Z)) : list (str * Z) :=
  match l with
  | [] => [last]
  | (k, b) :: rest =>
    if decide (k = last.1) then dedup_from (last.1, Z.lor last.2 b) rest
    else last :: dedup_from (k, b) rest
  end.

Definition dedup (l : list (str * Z)) : list (str * Z) :=
  match l with
  | [] => []
  | e :: rest => dedup_from e rest
  end.

Definition union_allow (pairs : list (str * DomainMasks)) : Z :=
  fold_left (fun acc p => Z.lor acc (allow_mask p.2)) pairs 0%Z.

Definition source_bits (m : DomainMasks) : Z := Z.lor (allow_mask m) (block_mask m).

(** [sort_by] is a stable merge sort on the keys. *)
Definition from_pairs (pairs : list (str * DomainMasks)) (gen_id : Z) : SortedShard :=
  let allow_bits := union_allow pairs in
  let l := map (fun p => (p.1, source_bits p.2)) pairs in
  {| entries := dedup (merge_sort key_le l); policy := uniform allow_bits gen_id |}.

(** The list bits used in both directions, which [from_pairs] reports. *)
Definition conflicting (pairs : list (str * DomainMasks)) : Z :=
  let allow_bits := union_allow pairs in
  fold_left (fun acc p => Z.lor acc (Z.land (block_mask p.2) allow_bits)) pairs 0%Z.

Definition shard_wf (s : SortedShard) : Prop := ascending (entries s).

Lemma first_disorder_None l : first_disorder l = None ↔ ascending l.
Proof.
  unfold ascending.
  assert (first_disorder l = None ↔ Sorted (fun a b => str_lt a.1 b.1) l) as ->.
  { induction l as [|[k0 b0] l IH]; [split; [constructor|done]|].
    destruct l as [|[k1 b1] l].
    { split; [|done]. intros _. by repeat constructor. }
    change (first_disorder ((k0, b0) :: (k1, b1) :: l)) with
      (match str_cmp k0 k1 with
       | Lt => match first_disorder ((k1, b1) :: l) with
               | Some (pos, a, b) => Some (S pos, a, b) | None => None end
       | _ => Some (0, k0, k1) end).
    split.
    - intros H. destruct (str_cmp k0 k1) eqn:E; try done.
      constructor; [|by constructor].
      apply IH. by destruct (first_disorder _) as [[[? ?] ?]|].
    - intros H. apply Sorted_inv in H as [Hs Hh]. apply HdRel_inv in Hh. unfold str_lt in Hh.
      simpl in Hh. rewrite Hh. apply IH in Hs. by rewrite Hs. }
  split; [|apply StronglySorted_Sorted].
  apply Sorted_StronglySorted. intros a b c. apply transitivity.
Qed.

Lemma first_disorder_Some l pos prev off :
  first_disorder l = Some (pos, prev, off) →
  fst <$> l !! pos = Some prev ∧ fst <$> l !! S pos = Some off ∧ ¬ str_lt prev off
  ∧ ascending (take (S pos) l).
Proof.
  revert pos; induction l as [|[k0 b0] l IH]; intros pos H; [done|].
  destruct l as [|[k1 b1] l]; [done|].
  change (first_disorder ((k0, b0) :: (k1, b1) :: l)) with
    (match str_cmp k0 k1 with
     | Lt => match first_disorder ((k1, b1) :: l) with
             | Some (pos, a, b) => Some (S pos, a, b) | None => None end
     | _ => Some (0, k0, k1) end) in H.
  destruct (str_cmp k0 k1) eqn:E.
  - injection H as <- <- <-. split_and!; [done|done| |by repeat constructor].
    unfold str_lt. congruence.
  - destruct (first_disorder ((k1, b1) :: l)) as [[[p a] b]|] eqn:F; [|done].
    injection H as <- <- <-. destruct (IH p eq_refl) as (H1 & H2 & H3 & H4).
    split_and!; [done|done|done|].
    change (take (S (S p)) ((k0, b0) :: (k1, b1) :: l)) with
      ((k0, b0) :: take (S p) ((k1, b1) :: l)).
    unfold ascending in *. constructor; [done|].
    simpl in H4 |- *. apply StronglySorted_cons in H4 as [Hf _]. constructor; [done|].
    eapply Forall_impl; [exact Hf|]. intros [k b'] Hk. simpl in *.
    by transitivity k1.
  - injection H as <- <- <-. split_and!; [done|done| |by repeat constructor].
    unfold str_lt. congruence.
Qed.

(** [from_sorted_entries] accepts exactly the strictly ascending entry
    lists, unchanged; a refusal reports the first position at which the order
    breaks, with the two keys found there, and says whether they are equal. *)
Theorem from_sorted_entries_correct l p :
  match from_sorted_entries l p with
  | Ok s => entries s = l ∧ policy s = p ∧ ascending l
  | Err e =>
    ¬ ascending l
    ∧ fst <$> l !! (so_index e - 1) = Some (so_previous e)
    ∧ fst <$> l !! so_index e = Some (so_offending e)
    ∧ ¬ str_lt (so_previous e) (so_offending e)
    ∧ ascending (take (so_index e) l)
    ∧ (so_duplicate e = true ↔ so_previous e = so_offending e)
  end.
Proof.
  unfold from_sorted_entries. destruct (first_disorder l) as [[[pos prev] off]|] eqn:E; simpl.
  - destruct (first_disorder_Some _ _ _ _ E) as (H1 & H2 & H3 & H4).
    rewrite Nat.add_1_r. replace (S pos - 1) with pos by lia. split_and!; try done.
    + rewrite <-first_disorder_None. congruence.
    + apply bool_decide_eq_true.
  - by rewrite <-first_disorder_None.
Qed.

(** ** Lookup in a shard *)

(** What a shard answers is what its entries say. *)
Lemma shard_bits_spec s key b : shard_wf s → shard_bits s key = Some b ↔ (key, b) ∈ entries s.
Proof. apply slice_get_spec. Qed.

Lemma shard_bits_None s key : shard_wf s → shard_bits s key = None ↔ key ∉ (entries s).*1.
Proof. apply slice_get_None. Qed.

(** ** [from_pairs] builds an ascending shard with the union of the bits *)

Lemma dedup_from_ascending e l :
  StronglySorted key_le (e :: l) → ascending (dedup_from e l)
  ∧ (∀ x, x ∈ dedup_from e l → ¬ str_lt x.1 e.1).
Proof.
  revert e; induction l as [|[k b] l IH]; intros e Hs; simpl.
  - split; [by repeat constructor|]. intros x ->%list_elem_of_singleton. apply str_lt_irrefl.
  - apply StronglySorted_cons in Hs as [Hf Hs]. apply StronglySorted_cons in Hs as [Hf' Hs'].
    case_decide as E.
    + destruct (IH (e.1, Z.lor e.2 b)) as [IH1 IH2]; [|by split].
      apply StronglySorted_cons. split; [|done].
      eapply Forall_impl; [exact Hf'|]. unfold key_le. simpl. intros x. by rewrite E.
    + destruct (IH (k, b)) as [IH1 IH2]; [by apply StronglySorted_cons|].
      apply Forall_cons in Hf as [Hk _]. unfold key_le in Hk. simpl in Hk.
      assert (str_lt e.1 k) as Hlt.
      { unfold str_lt. destruct (str_cmp e.1 k) eqn:C; [|done|done]. apply str_cmp_eq in C. congruence. }
      split.
      * unfold ascending. apply StronglySorted_cons. split; [|done].
        apply Forall_forall. intros x Hx. apply IH2 in Hx. simpl in Hx.
        destruct (str_lt_total x.1 k) as [?|[->|?]]; [done|done|]. by transitivity k.
      * intros x [->|Hx]%elem_of_cons; [apply str_lt_irrefl|].
        apply IH2 in Hx. simpl in Hx. intros Hxe. apply Hx. by transitivity e.1.
Qed.

Lemma dedup_ascending l : StronglySorted key_le l → ascending (dedup l).
Proof.
  destruct l as [|e l]; [constructor|]. intros H. by apply dedup_from_ascending.
Qed.

Lemma from_pairs_wf pairs gen_id : shard_wf (from_pairs pairs gen_id).
Proof.
  unfold shard_wf, from_pairs. simpl. apply dedup_ascending, merge_sort_key_sorted.
Qed.

Lemma str_lt_not_le a b c : str_lt a b → ¬ str_lt c b → a ≠ c.
Proof. by intros H1 H2 ->. Qed.

(** The bits of a kept entry are the bits of all the entries with its key. *)
Lemma dedup_from_bits e l k b i :
  StronglySorted key_le (e :: l) → (k, b) ∈ dedup_from e l →
  Z.testbit b i = true ↔ ∃ c, (k, c) ∈ e :: l ∧ Z.testbit c i = true.
Proof.
  revert e; induction l as [|[k' b'] l IH]; intros [ke be] Hs; cbn [dedup_from fst snd].
  { intros [= -> ->]%list_elem_of_singleton. split.
    - intros Hb. exists be. split; [left|done].
    - by intros (c & [= ->]%list_elem_of_singleton & Hb). }
  apply StronglySorted_cons in Hs as [Hf Hs]. case_decide as E.
  - subst k'. intros Hin. rewrite (IH (ke, Z.lor be b')); [| |done].
    + repeat setoid_rewrite elem_of_cons. split.
      * intros (c & [[= -> ->]|Hc] & Hb); [|by eauto 7].
        rewrite Z.lor_spec, orb_true_iff in Hb. destruct Hb; eauto 7.
      * intros (c & [[= -> ->]|[[= -> ->]|Hc]] & Hb); [| |by eauto 7];
          (eexists; split; [by left|]); rewrite Z.lor_spec, Hb; auto using orb_true_r.
    + apply StronglySorted_cons in Hs as [Hf' Hs']. by apply StronglySorted_cons.
  - assert (str_lt ke k') as Hlt.
    { apply Forall_cons in Hf as [Hk _]. apply key_le_iff in Hk as [?|?]; simpl in *; congruence. }
    pose proof (proj2 (dedup_from_ascending (k', b') l Hs)) as Hge. simpl in Hge.
    intros [[= -> ->]|Hin]%elem_of_cons.
    + split; [intros ?; exists be; split; [left|done]|].
      intros (c & [[= ->]|Hc]%elem_of_cons & Hb); [done|]. exfalso.
      apply elem_of_cons in Hc as [[= -> ->]|Hc]; [by apply str_lt_irrefl in Hlt|].
      apply StronglySorted_cons in Hs as [Hf' _].
      rewrite Forall_forall in Hf'. apply Hf' in Hc. apply key_le_iff in Hc. simpl in Hc.
      apply (str_lt_irrefl ke). destruct Hc as [?| ->]; [by transitivity k'|done].
    + rewrite (IH _ Hs Hin). setoid_rewrite (elem_of_cons _ _ (ke, be)).
      split; [by naive_solver|]. intros (c & [[= -> ->]|Hc] & Hb); [|by eauto].
      by destruct (Hge _ Hin).
Qed.

Lemma dedup_from_keys e l k : k ∈ (dedup_from e l).*1 ↔ k ∈ (e :: l).*1.
Proof.
  revert e; induction l as [|[k' b'] l IH]; intros [ke be]; [done|].
  cbn [dedup_from fst snd]. case_decide as E.
  - subst k'. rewrite IH. csimpl. set_solver.
  - csimpl. rewrite !elem_of_cons, IH. csimpl. set_solver.
Qed.

Lemma from_pairs_bits pairs g key bits i :
  shard_bits (from_pairs pairs g) key = Some bits →
  Z.testbit bits i = true ↔
  ∃ m, (key, m) ∈ pairs ∧ (Z.testbit (allow_mask m) i || Z.testbit (block_mask m) i) = true.
Proof.
  intros H. apply shard_bits_spec in H; [|apply from_pairs_wf]. simpl in H.
  set (l := map _ pairs) in H.
  pose proof (merge_sort_key_sorted l) as Hs.
  pose proof (merge_sort_Permutation key_le l) as Hp.
  assert (Z.testbit bits i = true ↔ ∃ c, (key, c) ∈ l ∧ Z.testbit c i = true) as ->.
  { setoid_rewrite <-Hp. destruct (merge_sort key_le l) as [|e l']; [by apply not_elem_of_nil in H|].
    by apply dedup_from_bits. }
  unfold l. setoid_rewrite list_elem_of_In. setoid_rewrite in_map_iff. split.
  - intros (c & ([k m] & [= -> <-] & Hin) & Hb). exists m.
    unfold source_bits in Hb. rewrite Z.lor_spec in Hb. auto.
  - intros (m & Hin & Hb). exists (source_bits m). unfold source_bits. rewrite Z.lor_spec.
    split; [|done]. by exists (key, m).
Qed.

Lemma from_pairs_None pairs g key :
  shard_bits (from_pairs pairs g) key = None ↔ key ∉ pairs.*1.
Proof.
  rewrite shard_bits_None by apply from_pairs_wf. cbn [entries from_pairs].
  set (l := map _ pairs).
  assert (pairs.*1 = l.*1) as ->.
  { unfold l. clear l. induction pairs as [|p ps IH]; [done|]. csimpl. by rewrite IH. }
  assert (key ∈ l.*1 ↔ key ∈ (merge_sort key_le l).*1) as ->.
  { by rewrite (fmap_Permutation fst _ _ (merge_sort_Permutation key_le l)). }
  destruct (merge_sort key_le l) as [|e l']; [done|]. unfold dedup. by rewrite dedup_from_keys.
Qed.

Lemma fold_lor_testbit {A} (f : A → Z) l z i :
  Z.testbit (fold_left (fun acc p => Z.lor acc (f p)) l z) i = true ↔
  Z.testbit z i = true ∨ ∃ p, p ∈ l ∧ Z.testbit (f p) i = true.
Proof.
  revert z; induction l as [|p l IH]; intros z; simpl.
  - split; [by left|]. intros [?|(p & Hp & _)]; [done|by apply not_elem_of_nil in Hp].
  - rewrite IH, Z.lor_spec, orb_true_iff. setoid_rewrite elem_of_cons. naive_solver.
Qed.

Lemma union_allow_testbit pairs i :
  Z.testbit (union_allow pairs) i = true ↔
  ∃ p, p ∈ pairs ∧ Z.testbit (allow_mask p.2) i = true.
Proof.
  unfold union_allow. rewrite (fold_lor_testbit (fun p => allow_mask p.2)), Z.bits_0. naive_solver.
Qed.

(** Without conflict, a bit blocks nowhere or allows nowhere. *)
Lemma conflicting_zero pairs p q i :
  conflicting pairs = 0%Z → p ∈ pairs → q ∈ pairs →
  Z.testbit (block_mask p.2) i = true → Z.testbit (allow_mask q.2) i = true → False.
Proof.
  intros H Hp Hq Hb Ha.
  assert (Z.testbit (conflicting pairs) i = true) as Hc; [|by rewrite H, Z.bits_0 in Hc].
  unfold conflicting. rewrite (fold_lor_testbit (fun p => Z.land (block_mask p.2) _)).
  right. exists p. rewrite Z.land_spec, Hb. split; [done|].
  apply union_allow_testbit. by exists q.
Qed.

(** The masks a list of pairs gives to a key: the union over its occurrences. *)
Definition masks_of (pairs : list (str * DomainMasks)) (key : str) : DomainMasks :=
  foldr masks_or no_masks (snd <$> filter (fun p => p.1 = key) pairs).

Lemma masks_of_testbit pairs key i :
  (Z.testbit (allow_mask (masks_of pairs key)) i = true ↔
     ∃ m, (key, m) ∈ pairs ∧ Z.testbit (allow_mask m) i = true)
  ∧ (Z.testbit (block_mask (masks_of pairs key)) i = true ↔
     ∃ m, (key, m) ∈ pairs ∧ Z.testbit (block_mask m) i = true).
Proof.
  unfold masks_of. induction pairs as [|[k m] ps IH].
  - simpl. setoid_rewrite elem_of_nil. rewrite Z.bits_0. naive_solver.
  - setoid_rewrite elem_of_cons. rewrite filter_cons. cbn [fst]. case_decide as E.
    + subst k. csimpl. rewrite !Z.lor_spec, !orb_true_iff. naive_solver.
    + naive_solver.
Qed.

Definition masks_in_u64 (m : DomainMasks) : Prop := in_u64 (allow_mask m) ∧ in_u64 (block_mask m).

Lemma u64_max_testbit i : (0 ≤ i < 64)%Z → Z.testbit U64_MAX i = true.
Proof. intros H. change U64_MAX with (Z.ones 64). by apply Z.ones_spec_low. Qed.

Lemma from_pairs_masks pairs g key
  (Hu64 : Forall (fun p => masks_in_u64 p.2) pairs) (Hconf : conflicting pairs = 0%Z) :
  let s := from_pairs pairs g in
  split_base (policy s) <$> shard_bits s key =
  (if decide (key ∈ pairs.*1) then Some (masks_of pairs key) else None).
Proof.
  cbv zeta. case_decide as Hin.
  2:{ apply (from_pairs_None pairs g) in Hin. by rewrite Hin. }
  destruct (shard_bits (from_pairs pairs g) key) as [bits|] eqn:E.
  2:{ by apply from_pairs_None in E. }
  pose proof (fun i => from_pairs_bits pairs g key bits i E) as Hbits.
  rewrite Forall_forall in Hu64. csimpl. f_equal.
  assert (∀ i m, (key, m) ∈ pairs → Z.testbit (block_mask m) i = true → (0 ≤ i < 64)%Z) as Hrange.
  { intros i m Hm Hb. apply Hu64 in Hm as [_ Hm]. split; [by destruct i|].
    destruct (decide (64 ≤ i)%Z); [|lia]. by rewrite bits_above_u64 in Hb. }
  unfold split_base, apply_masks, uniform. cbn [lp_base pm_allow pm_block policy from_pairs].
  destruct (masks_of pairs key) as [am bm] eqn:Em. f_equal; apply Z.bits_inj'; intros i Hi;
    pose proof (masks_of_testbit pairs key i) as [Ha Hb]; rewrite Em in Ha, Hb; simpl in Ha, Hb;
    rewrite Z.land_spec; apply eq_true_iff_eq; rewrite andb_true_iff, Hbits.
  - rewrite Ha, union_allow_testbit. split.
    + intros [(m & Hm & Hab) (q & Hq & Hqa)]. exists m. split; [done|].
      apply orb_true_iff in Hab as [?|Hmb]; [done|].
      by destruct (conflicting_zero pairs (key, m) q i).
    + intros (m & Hm & Ham). split; [|by exists (key, m)]. exists m. by rewrite Ham.
  - rewrite Hb. unfold u64_not. rewrite Z.lxor_spec.
    pose proof (union_allow_testbit pairs i) as Hun. split.
    + intros [(m & Hm & Hab) Hx]. exists m. split; [done|].
      apply orb_true_iff in Hab as [Hma|?]; [|done]. exfalso.
      rewrite (proj2 Hun) in Hx by (by exists (key, m)).
      apply Hu64 in Hm as [Hm _]. destruct (decide (64 ≤ i)%Z).
      * by rewrite bits_above_u64 in Hma.
      * by rewrite u64_max_testbit in Hx by lia.
    + intros (m & Hm & Hmb). split; [exists m; by rewrite Hmb, orb_true_r|].
      rewrite u64_max_testbit by eauto. destruct (Z.testbit (union_allow pairs) i); [|done].
      destruct (proj1 Hun eq_refl) as (q & Hq & Hqa).
      by destruct (conflicting_zero pairs (key, m) q i).
Qed.

(** The shard that [from_pairs] builds from two-direction masks, whatever
    the order and the repetitions of the pairs, answers for each domain
    exactly the union of the masks given for it, once its bits are split
    again by the uniform policy, as long as no list bit is used in both
    directions; and it has no entry for any other domain. *)
Theorem from_pairs_correct pairs g key
  (Hu64 : Forall (fun p => masks_in_u64 p.2) pairs) (Hconf : conflicting pairs = 0%Z) :
  let s := from_pairs pairs g in
  split_base (policy s) <$> shard_bits s key =
  (if decide (key ∈ pairs.*1) then Some (masks_of pairs key) else None).
Proof. by apply from_pairs_masks. Qed.

Lemma from_pairs_correct_witness :
  let pairs := [(lit "b.test", {| allow_mask := 0; block_mask := 2 |});
                (lit "a.test", {| allow_mask := 1; block_mask := 0 |});
                (lit "b.test", {| allow_mask := 1; block_mask := 4 |})] in
  split_base (policy (from_pairs pairs 7)) <$> shard_bits (from_pairs pairs 7) (lit "b.test")
  = Some {| allow_mask := 1; block_mask := 6 |}.
Proof.
  intros pairs. rewrite (from_pairs_correct pairs 7 (lit "b.test")).
  - by vm_compute.
  - repeat constructor; unfold in_u64, U64_MAX; simpl; lia.
  - by vm_compute.
Defined.
