(* ===== verification/Decision.v ===== *)
(** * Operator-rule decisions: [src/filter/operator_rules/decision.rs]

    Tiers, ranked hits, allow grants and the reduction of a hit, a grant and
    the external lists to one verdict. *)

From S2P Require Import Prelude.

(** [RuleToken(u32)]: a dense rank inside the owning snapshot. *)
Definition RuleToken := Z.

Inductive RuleTier := OrdinaryDeny | OrdinaryAllow | ImportantDeny | ImportantAllow.

#[export] Instance rule_tier_eq_dec : EqDecision RuleTier.
Proof. solve_decision. Defined.

(** [tier as usize], which is also the derived order. *)
Definition tier_rank (t : RuleTier) : nat :=
  match t with
  | OrdinaryDeny => 0
  | OrdinaryAllow => 1
  | ImportantDeny => 2
  | ImportantAllow => 3
  end.

Definition from_flags (allow important : bool) : RuleTier :=
  match allow, important with
  | false, false => OrdinaryDeny
  | true, false => OrdinaryAllow
  | false, true => ImportantDeny
  | true, true => ImportantAllow
  end.

Definition is_allow (t : RuleTier) : bool :=
  match t with OrdinaryAllow | ImportantAllow => true | _ => false end.

Definition is_important (t : RuleTier) : bool :=
  match t with ImportantDeny | ImportantAllow => true | _ => false end.

Record RankedHit := { tier : RuleTier; token : RuleToken }.

#[export] Instance ranked_hit_eq_dec : EqDecision RankedHit.
Proof. solve_decision. Defined.

Inductive GrantTier := GrantOrdinary | GrantImportant.

Inductive GrantOrigin := OriginRule | OriginRequest.

Record AllowGrant := {
  grant_tier : GrantTier;
  grant_token : RuleToken;
  grant_origin : GrantOrigin;
}.

Definition rule_tier (g : AllowGrant) : RuleTier :=
  match grant_tier g with
  | GrantOrdinary => OrdinaryAllow
  | GrantImportant => ImportantAllow
  end.

Inductive Verdict := VForward | VBlock.

#[export] Instance verdict_eq_dec : EqDecision Verdict.
Proof. solve_decision. Defined.

Inductive ExternalMatches :=
| ExtNone | ExtDisabled | ExtAllow | ExtDeny | ExtAllowAndDeny.

#[export] Instance external_eq_dec : EqDecision ExternalMatches.
Proof. solve_decision. Defined.

Record ReducedDecision := {
  rd_verdict : Verdict;
  rd_winning_token : option RuleToken;
  rd_allow_grant : option AllowGrant;
}.

Definition REDUCED_BLOCK : ReducedDecision :=
  {| rd_verdict := VBlock; rd_winning_token := None; rd_allow_grant := None |}.

(** [b.tier > a.tier || (b.tier == a.tier && b.token < a.token)] *)
Definition beats (b a : RankedHit) : bool :=
  (tier_rank (tier a) <? tier_rank (tier b))%nat
  || (bool_decide (tier b = tier a) && (token b <? token a)%Z).

Definition best (a b : option RankedHit) : option RankedHit :=
  match a, b with
  | Some a, Some b => Some (if beats b a then b else a)
  | Some a, None => Some a
  | None, b => b
  end.

Inductive GrantWinner :=
| WinRule (hit : RankedHit)
| WinInherited (g : AllowGrant).

(** [best_with_grant]: a grant of the same request is ranked as a rule hit; a
    grant carried from the original query wins on an equal tier. *)
Definition best_with_grant (hit : option RankedHit) (grant : option AllowGrant) : option GrantWinner :=
  match hit, grant with
  | Some h, Some g =>
    match grant_origin g with
    | OriginRule =>
      let grant_hit := {| tier := rule_tier g; token := grant_token g |} in
      match best (Some h) (Some grant_hit) with
      | Some winner => if decide (winner = h) then Some (WinRule h) else Some (WinInherited g)
      | None => None
      end
    | OriginRequest =>
      if (tier_rank (rule_tier g) <? tier_rank (tier h))%nat then Some (WinRule h)
      else Some (WinInherited g)
    end
  | Some h, None => Some (WinRule h)
  | None, Some g => Some (WinInherited g)
  | None, None => None
  end.

Definition hit_verdict (t : RuleTier) : Verdict := if is_allow t then VForward else VBlock.

Definition hit_grant (h : RankedHit) : option AllowGrant :=
  if is_allow (tier h) then
    Some {| grant_tier := if is_important (tier h) then GrantImportant else GrantOrdinary;
            grant_token := token h; grant_origin := OriginRule |}
  else None.

Definition default_verdict (block_all : bool) (external : ExternalMatches) : Verdict :=
  if block_all || bool_decide (external = ExtDeny) then VBlock else VForward.

Definition reduce (hit : option RankedHit) (inherited : option AllowGrant) (block_all : bool)
    (external : ExternalMatches) : ReducedDecision :=
  match best_with_grant hit inherited with
  | Some (WinRule h) =>
    {| rd_verdict := hit_verdict (tier h); rd_winning_token := Some (token h);
       rd_allow_grant := hit_grant h |}
  | Some (WinInherited g) =>
    {| rd_verdict := VForward; rd_winning_token := None; rd_allow_grant := Some g |}
  | None =>
    {| rd_verdict := default_verdict block_all external; rd_winning_token := None;
       rd_allow_grant := None |}
  end.

(** [RuleDecision::response_ip_verdict] *)
Definition response_ip_verdict (d : ReducedDecision) (external_deny structurally_valid : bool)
  : Verdict :=
  if negb structurally_valid || bool_decide (rd_verdict d = VBlock)
     || (external_deny && bool_decide (rd_allow_grant d = None))
  then VBlock else VForward.

(** ** [best] is the maximum of a total order *)

Lemma tier_rank_inj t t' : tier_rank t = tier_rank t' → t = t'.
Proof. by destruct t, t'. Qed.

Definition outranks (b a : RankedHit) : Prop :=
  tier_rank (tier a) < tier_rank (tier b) ∨ (tier b = tier a ∧ (token b < token a)%Z).

Lemma beats_spec b a : beats b a = true ↔ outranks b a.
Proof.
  unfold beats, outranks. rewrite orb_true_iff, andb_true_iff, Nat.ltb_lt, bool_decide_eq_true, Z.ltb_lt.
  done.
Qed.

Lemma beats_false b a : beats b a = false ↔ outranks a b ∨ a = b.
Proof.
  rewrite <-not_true_iff_false, beats_spec. unfold outranks.
  destruct a as [ta ka], b as [tb kb]; simpl. split.
  - intros H. destruct (decide (ta = tb)) as [->|Hne].
    + destruct (Z.lt_trichotomy ka kb) as [?|[->|?]]; auto. destruct H. auto.
    + left. left. assert (tier_rank ta ≠ tier_rank tb) by (by intros ?%tier_rank_inj). lia.
  - intros [[Hlt|[-> Hlt]]|Heq] [Hk|[Ht Hk]]; [..|injection Heq as -> ->; lia|injection Heq as -> ->; lia]; subst; lia.
Qed.

#[export] Instance outranks_strict : StrictOrder outranks.
Proof.
  split.
  - intros a [H|[_ H]]; lia.
  - intros a b c [H1|[E1 H1]] [H2|[E2 H2]]; unfold outranks; rewrite ?E1, ?E2 in *; auto with lia.
Qed.

Lemma best_None_l a : best None a = a.
Proof. done. Qed.

Lemma best_None_r a : best a None = a.
Proof. by destruct a. Qed.

Lemma best_idem a : best a a = a.
Proof. destruct a; simpl; [|done]. by destruct (beats _ _). Qed.

Lemma best_Some_cases a b :
  (best (Some a) (Some b) = Some a ∧ (outranks a b ∨ a = b))
  ∨ (best (Some a) (Some b) = Some b ∧ outranks b a).
Proof.
  simpl. destruct (beats b a) eqn:E; [right|left]; (split; [done|]).
  - by apply beats_spec.
  - by apply beats_false.
Qed.

Lemma best_comm a b : best a b = best b a.
Proof.
  destruct a as [a|], b as [b|]; try done.
  assert (outranks a b → outranks b a → False) as Hasym.
  { intros H1 H2. apply (irreflexivity outranks a). by etrans. }
  destruct (best_Some_cases a b) as [[E1 H1]|[E1 H1]], (best_Some_cases b a) as [[E2 H2]|[E2 H2]];
    rewrite E1, E2; f_equal; naive_solver.
Qed.

(** ** The best hit of a list *)

Definition best_of (hits : list RankedHit) : option RankedHit :=
  foldr (fun h acc => best (Some h) acc) None hits.

Definition is_best (hits : list RankedHit) (h : RankedHit) : Prop :=
  h ∈ hits ∧ ∀ h', h' ∈ hits → h' = h ∨ outranks h h'.

Lemma best_of_None hits : best_of hits = None ↔ hits = [].
Proof.
  destruct hits as [|h hits]; [done|]. split; [|done]. cbn [best_of foldr].
  by destruct (foldr _ _ _).
Qed.

Lemma best_of_is_best hits h : best_of hits = Some h → is_best hits h.
Proof.
  revert h; induction hits as [|x hits IH]; intros h H; [done|].
  cbn [best_of foldr] in H. change (foldr _ _ hits) with (best_of hits) in H.
  destruct (best_of hits) as [y|] eqn:E.
  - destruct (IH y eq_refl) as [Hin Hmax].
    destruct (best_Some_cases x y) as [[Hb Ho]|[Hb Ho]]; rewrite Hb in H; injection H as <-.
    + split; [left|]. intros h' [->|Hh]%elem_of_cons; [by left|].
      destruct Ho as [Ho| <-]; [|by apply Hmax].
      right. destruct (Hmax _ Hh) as [->|Ho']; [done|by etrans].
    + split; [by right|]. intros h' [->|Hh]%elem_of_cons; [by right|auto].
  - apply best_of_None in E as ->. injection H as <-. split; [left|].
    intros h' ->%list_elem_of_singleton. by left.
Qed.

Lemma is_best_unique hits h h' : is_best hits h → is_best hits h' → h = h'.
Proof.
  intros [H1 M1] [H2 M2]. destruct (M1 _ H2) as [->|A]; [done|].
  destruct (M2 _ H1) as [->|B]; [done|]. destruct (irreflexivity outranks h). by etrans.
Qed.

Lemma best_of_spec hits h : best_of hits = Some h ↔ is_best hits h.
Proof.
  split; [apply best_of_is_best|]. intros H.
  destruct (best_of hits) as [h'|] eqn:E.
  - apply best_of_is_best in E. f_equal. by eapply is_best_unique.
  - apply best_of_None in E as ->. destruct H as [H _]. by apply not_elem_of_nil in H.
Qed.

(** Two lists with the same hits have the same best hit. *)
Lemma best_of_equiv hits hits' : (∀ h, h ∈ hits ↔ h ∈ hits') → best_of hits = best_of hits'.
Proof.
  intros H. destruct (best_of hits) as [h|] eqn:E; destruct (best_of hits') as [h'|] eqn:E'; try done.
  - apply best_of_is_best in E as [H1 M1], E' as [H2 M2]. f_equal.
    apply (is_best_unique hits); split; auto; try (by apply H).
    intros x Hx. apply M2. by apply H.
  - apply best_of_None in E' as ->. apply best_of_is_best in E as [Hin _].
    apply H in Hin. by apply not_elem_of_nil in Hin.
  - apply best_of_None in E as ->. apply best_of_is_best in E' as [Hin _].
    apply H in Hin. by apply not_elem_of_nil in Hin.
Qed.

Lemma best_of_snoc hits h : best_of (hits ++ [h]) = best (best_of hits) (Some h).
Proof.
  rewrite best_comm. change (best (Some h) (best_of hits)) with (best_of (h :: hits)).
  apply best_of_equiv. set_solver.
Qed.
