(* ===== verification/Limits.v ===== *)
(** * Compile budgets: [src/filter/operator_rules/limits.rs]

    Checked [usize] arithmetic, the node-local limits with their hard
    ceilings, projection counts and the deterministic byte costs. *)

From S2P Require Import Prelude RustStr.

Record BudgetExceeded := {
  be_limit : str;
  be_actual : option Z;
  be_maximum : Z;
}.

Definition ensure (limit : str) (actual maximum : Z) : result BudgetExceeded () :=
  if (maximum <? actual)%Z then
    Err {| be_limit := limit; be_actual := Some actual; be_maximum := maximum |}
  else Ok ().

Definition arithmetic : BudgetExceeded :=
  {| be_limit := lit "arithmetic"; be_actual := None; be_maximum := USIZE_MAX |}.

Definition add (a b : Z) : result BudgetExceeded Z :=
  if (a + b <=? USIZE_MAX)%Z then Ok (a + b)%Z else Err arithmetic.

Definition mul (a b : Z) : result BudgetExceeded Z :=
  if (a * b <=? USIZE_MAX)%Z then Ok (a * b)%Z else Err arithmetic.

Record RuleCompileLimits := {
  max_lists : Z;
  max_file_bytes : Z;
  max_total_bytes : Z;
  max_rules_per_list : Z;
  max_indexed_rules_per_profile : Z;
  max_indexed_rules_total : Z;
  max_advanced_rules_per_profile : Z;
  max_advanced_rules_total : Z;
  max_regex_rules_per_profile : Z;
  max_regex_rules_total : Z;
  max_store_indexed_rules : Z;
  max_store_advanced_rules : Z;
  max_store_regex_rules : Z;
  max_rule_bytes : Z;
  max_regex_program_bytes : Z;
  max_store_compiled_bytes : Z;
  max_compiled_bytes_per_profile : Z;
  max_compiled_bytes_total : Z;
}.

Definition RuleCompileLimits_default : RuleCompileLimits := {|
  max_lists := 256;
  max_file_bytes := Z.shiftl 1 20;
  max_total_bytes := Z.shiftl 32 20;
  max_rules_per_list := 25000;
  max_indexed_rules_per_profile := 100000;
  max_indexed_rules_total := 500000;
  max_advanced_rules_per_profile := 256;
  max_advanced_rules_total := 2048;
  max_regex_rules_per_profile := 32;
  max_regex_rules_total := 128;
  max_store_indexed_rules := 500000;
  max_store_advanced_rules := 2048;
  max_store_regex_rules := 128;
  max_rule_bytes := 4096;
  max_regex_program_bytes := Z.shiftl 1 20;
  max_store_compiled_bytes := Z.shiftl 32 20;
  max_compiled_bytes_per_profile := Z.shiftl 8 20;
  max_compiled_bytes_total := Z.shiftl 32 20;
|}.

Definition HARD_CEILINGS : RuleCompileLimits := {|
  max_lists := 1024;
  max_file_bytes := Z.shiftl 4 20;
  max_total_bytes := Z.shiftl 64 20;
  max_rules_per_list := 100000;
  max_indexed_rules_per_profile := 250000;
  max_indexed_rules_total := 1000000;
  max_advanced_rules_per_profile := 512;
  max_advanced_rules_total := 4096;
  max_regex_rules_per_profile := 64;
  max_regex_rules_total := 256;
  max_store_indexed_rules := 1000000;
  max_store_advanced_rules := 4096;
  max_store_regex_rules := 256;
  max_rule_bytes := 16384;
  max_regex_program_bytes := Z.shiftl 2 20;
  max_store_compiled_bytes := Z.shiftl 64 20;
  max_compiled_bytes_per_profile := Z.shiftl 16 20;
  max_compiled_bytes_total := Z.shiftl 64 20;
|}.

(** The fields in declaration order, which is the order [validate] checks. *)
Definition limit_fields : list (str * (RuleCompileLimits → Z)) :=
  [(lit "max_lists", max_lists);
   (lit "max_file_bytes", max_file_bytes);
   (lit "max_total_bytes", max_total_bytes);
   (lit "max_rules_per_list", max_rules_per_list);
   (lit "max_indexed_rules_per_profile", max_indexed_rules_per_profile);
   (lit "max_indexed_rules_total", max_indexed_rules_total);
   (lit "max_advanced_rules_per_profile", max_advanced_rules_per_profile);
   (lit "max_advanced_rules_total", max_advanced_rules_total);
   (lit "max_regex_rules_per_profile", max_regex_rules_per_profile);
   (lit "max_regex_rules_total", max_regex_rules_total);
   (lit "max_store_indexed_rules", max_store_indexed_rules);
   (lit "max_store_advanced_rules", max_store_advanced_rules);
   (lit "max_store_regex_rules", max_store_regex_rules);
   (lit "max_rule_bytes", max_rule_bytes);
   (lit "max_regex_program_bytes", max_regex_program_bytes);
   (lit "max_store_compiled_bytes", max_store_compiled_bytes);
   (lit "max_compiled_bytes_per_profile", max_compiled_bytes_per_profile);
   (lit "max_compiled_bytes_total", max_compiled_bytes_total)].

Fixpoint validate_fields (fields : list (str * (RuleCompileLimits → Z))) (l : RuleCompileLimits)
  : result BudgetExceeded () :=
  match fields with
  | [] => Ok ()
  | (name, f) :: rest =>
    if (f l =? 0)%Z || (f HARD_CEILINGS <? f l)%Z then
      Err {| be_limit := name; be_actual := Some (f l); be_maximum := f HARD_CEILINGS |}
    else validate_fields rest l
  end.

(** [RuleCompileLimits::validate] *)
Definition validate (l : RuleCompileLimits) : result BudgetExceeded () :=
  validate_fields limit_fields l.

(** ** Projection counts *)

Record ProjectionCounts := { indexed : Z; advanced : Z; regexes : Z }.

Definition no_counts : ProjectionCounts := {| indexed := 0; advanced := 0; regexes := 0 |}.

Definition counts_add (a b : ProjectionCounts) : result BudgetExceeded ProjectionCounts :=
  let? i := add (indexed a) (indexed b) in
  let? v := add (advanced a) (advanced b) in
  let? r := add (regexes a) (regexes b) in
  Ok {| indexed := i; advanced := v; regexes := r |}.

Definition check_store_counts (l : RuleCompileLimits) (c : ProjectionCounts)
  : result BudgetExceeded () :=
  ensure (lit "max_store_indexed_rules") (indexed c) (max_store_indexed_rules l) ;;?
  ensure (lit "max_store_advanced_rules") (advanced c) (max_store_advanced_rules l) ;;?
  ensure (lit "max_store_regex_rules") (regexes c) (max_store_regex_rules l).

Definition check_profile_counts (l : RuleCompileLimits) (c : ProjectionCounts)
  : result BudgetExceeded () :=
  ensure (lit "max_indexed_rules_per_profile") (indexed c) (max_indexed_rules_per_profile l) ;;?
  ensure (lit "max_advanced_rules_per_profile") (advanced c) (max_advanced_rules_per_profile l) ;;?
  ensure (lit "max_regex_rules_per_profile") (regexes c) (max_regex_rules_per_profile l).

Definition check_total_counts (l : RuleCompileLimits) (c : ProjectionCounts)
  : result BudgetExceeded () :=
  ensure (lit "max_indexed_rules_total") (indexed c) (max_indexed_rules_total l) ;;?
  ensure (lit "max_advanced_rules_total") (advanced c) (max_advanced_rules_total l) ;;?
  ensure (lit "max_regex_rules_total") (regexes c) (max_regex_rules_total l).

(** ** Byte costs *)

Record CompiledCostV1 := {
  store_bytes : Z;
  profile_bytes_total : Z;
  profile_owned_bytes_total : Z;
  snapshot_bytes : Z;
  store_counts : ProjectionCounts;
  profile_counts_total : ProjectionCounts;
  regex_programs : Z;
}.

Definition STORE_BASE_BYTES : Z := 256.

Definition aligned_bytes (n : Z) : result BudgetExceeded Z :=
  let? m := add n 7 in mul (m / 8) 8.

Definition text_bytes (n : Z) : result BudgetExceeded Z :=
  let? m := add n 1 in
  let? a := aligned_bytes m in
  add 32 a.

Definition origin_bytes (id_bytes rows : Z) : result BudgetExceeded Z :=
  let? t := text_bytes id_bytes in
  let? a := add 96 t in
  let? m := mul 48 rows in
  add a m.

Definition ast_bytes (pattern_bytes : Z) : result BudgetExceeded Z :=
  let? t := text_bytes pattern_bytes in add 32 t.

Definition indexed_bytes (domain_bytes : Z) : result BudgetExceeded Z :=
  let? t := text_bytes domain_bytes in add 128 t.

Definition advanced_bytes (pattern_bytes : Z) : result BudgetExceeded Z :=
  let? t := text_bytes pattern_bytes in add 96 t.

Definition regex_bytes (program_limit : Z) : result BudgetExceeded Z :=
  let? m := mul 2 program_limit in add m 65536.

Definition sidecar_bytes (rules : Z) : result BudgetExceeded Z :=
  let? m := mul 4 rules in
  let? a := aligned_bytes m in
  add 32 a.

Definition pack_bytes (id_bytes : Z) : result BudgetExceeded Z :=
  let? t := text_bytes id_bytes in add 96 t.

Definition profile_bytes (id_bytes : Z) : result BudgetExceeded Z :=
  let? t := text_bytes id_bytes in add 128 t.

(** ** Facts *)

Lemma ensure_Ok n a m : ensure n a m = Ok () ↔ (a ≤ m)%Z.
Proof. unfold ensure. destruct (Z.ltb_spec m a); naive_solver lia. Qed.

Lemma add_Ok a b c : add a b = Ok c → c = (a + b)%Z ∧ (a + b ≤ USIZE_MAX)%Z.
Proof. unfold add. destruct (Z.leb_spec (a + b) USIZE_MAX); intros [= <-]. done. Qed.

Lemma mul_Ok a b c : mul a b = Ok c → c = (a * b)%Z ∧ (a * b ≤ USIZE_MAX)%Z.
Proof. unfold mul. destruct (Z.leb_spec (a * b) USIZE_MAX); intros [= <-]. done. Qed.

Lemma validate_fields_Ok fields l :
  validate_fields fields l = Ok () ↔
  Forall (fun p => (p.2 l ≠ 0 ∧ p.2 l ≤ p.2 HARD_CEILINGS)%Z) fields.
Proof.
  induction fields as [|[name f] fields IH]; simpl; [split; auto|].
  rewrite Forall_cons, <-IH. simpl.
  destruct (Z.eqb_spec (f l) 0), (Z.ltb_spec (f HARD_CEILINGS) (f l)); simpl;
    (split; [intros ?; first [done|by split] | intros [[??]?]; first [done|lia]]).
Qed.

(** *** Costs are never negative *)

Lemma aligned_bytes_nonneg n b : aligned_bytes n = Ok b → (0 ≤ n → 0 ≤ b)%Z.
Proof.
  unfold aligned_bytes. intros H Hn. inv_bind. apply add_Ok in Ha as [-> _]. apply mul_Ok in H as [-> _].
  pose proof (Z.div_pos (n + 7) 8). lia.
Qed.

Lemma text_bytes_nonneg n b : text_bytes n = Ok b → (0 ≤ n → 0 ≤ b)%Z.
Proof.
  unfold text_bytes. intros H Hn. inv_bind. apply add_Ok in Ha as [-> _], H as [-> _].
  apply aligned_bytes_nonneg in Ha0; lia.
Qed.

Lemma origin_bytes_nonneg n r b : origin_bytes n r = Ok b → (0 ≤ n → 0 ≤ r → 0 ≤ b)%Z.
Proof.
  unfold origin_bytes. intros H Hn Hr. inv_bind. apply add_Ok in Ha0 as [-> _], H as [-> _].
  apply mul_Ok in Ha1 as [-> _]. apply text_bytes_nonneg in Ha; lia.
Qed.

Ltac text_cost := intros H Hn; inv_bind; apply add_Ok in H as [-> _];
  match goal with H : text_bytes _ = Ok _ |- _ => apply text_bytes_nonneg in H; lia end.

Lemma ast_bytes_nonneg n b : ast_bytes n = Ok b → (0 ≤ n → 0 ≤ b)%Z.
Proof. unfold ast_bytes. text_cost. Qed.

Lemma indexed_bytes_nonneg n b : indexed_bytes n = Ok b → (0 ≤ n → 0 ≤ b)%Z.
Proof. unfold indexed_bytes. text_cost. Qed.

Lemma advanced_bytes_nonneg n b : advanced_bytes n = Ok b → (0 ≤ n → 0 ≤ b)%Z.
Proof. unfold advanced_bytes. text_cost. Qed.

Lemma pack_bytes_nonneg n b : pack_bytes n = Ok b → (0 ≤ n → 0 ≤ b)%Z.
Proof. unfold pack_bytes. text_cost. Qed.

Lemma profile_bytes_nonneg n b : profile_bytes n = Ok b → (0 ≤ n → 0 ≤ b)%Z.
Proof. unfold profile_bytes. text_cost. Qed.

Lemma regex_bytes_nonneg n b : regex_bytes n = Ok b → (0 ≤ n → 0 ≤ b)%Z.
Proof.
  unfold regex_bytes. intros H Hn. inv_bind. apply add_Ok in H as [-> _]. apply mul_Ok in Ha as [-> _]. lia.
Qed.

Lemma sidecar_bytes_nonneg n b : sidecar_bytes n = Ok b → (0 ≤ n → 0 ≤ b)%Z.
Proof.
  unfold sidecar_bytes. intros H Hn. inv_bind. apply add_Ok in H as [-> _]. apply mul_Ok in Ha as [-> _].
  apply aligned_bytes_nonneg in Ha0; lia.
Qed.

(** Limits are machine words. *)
Definition limits_wf (l : RuleCompileLimits) : Prop := Forall (fun p => in_u64 (p.2 l)) limit_fields.

Lemma limits_wf_field l i name f :
  limits_wf l → limit_fields !! i = Some (name, f) → in_u64 (f l).
Proof. intros H Hi. by apply (Forall_lookup_1 _ _ _ _ H Hi). Qed.
