(* ===== verification/Admission.v ===== *)
(** * Compile admission: [src/filter/operator_rules/admission.rs]

    The shared byte and build counters, the leases that hold parts of them,
    and the builders that reserve, charge, finish and drop those leases, as a
    step relation with one step per atomic operation. *)

From S2P Require Import Prelude RustStr Limits.

(** [State], the content of a [CompileAdmission]. *)
Record AdmissionState := {
  adm_max_bytes : Z;
  adm_max_builds : Z;
  adm_bytes : Z;
  adm_builds : Z;
}.

(** [CompileAdmission::new] *)
Definition admission_new (max_bytes max_builds : Z) : result BudgetExceeded AdmissionState :=
  if (max_bytes =? 0)%Z then
    Err {| be_limit := lit "admission_bytes"; be_actual := Some 0%Z; be_maximum := USIZE_MAX |}
  else if (max_builds =? 0)%Z then
    Err {| be_limit := lit "concurrent_builds"; be_actual := Some 0%Z; be_maximum := USIZE_MAX |}
  else Ok {| adm_max_bytes := max_bytes; adm_max_builds := max_builds;
             adm_bytes := 0; adm_builds := 0 |}.

Definition set_bytes (b : Z) (s : AdmissionState) : AdmissionState :=
  {| adm_max_bytes := adm_max_bytes s; adm_max_builds := adm_max_builds s;
     adm_bytes := b; adm_builds := adm_builds s |}.

Definition set_builds (b : Z) (s : AdmissionState) : AdmissionState :=
  {| adm_max_bytes := adm_max_bytes s; adm_max_builds := adm_max_builds s;
     adm_bytes := adm_bytes s; adm_builds := b |}.

(** [old.checked_add(amount).filter(|new| new <= maximum)], the test one
    iteration of [reserve] makes on the value it has read. *)
Definition reserve_new (old amount maximum : Z) (limit : str) : result BudgetExceeded Z :=
  if (old + amount <=? USIZE_MAX)%Z then
    if (old + amount <=? maximum)%Z then Ok (old + amount)%Z
    else Err {| be_limit := limit; be_actual := Some (old + amount)%Z; be_maximum := maximum |}
  else Err {| be_limit := limit; be_actual := None; be_maximum := maximum |}.

(** [fetch_sub] wraps. *)
Definition fetch_sub (old amount : Z) : Z := as_u64 (old - amount).

(** ** Sequential operations

    What the operations do when no other thread runs between their atomic
    steps. *)

(** [CompileAdmission::begin]: on a refused byte reservation the [BuildLease]
    is dropped, which gives the build slot back. *)
Definition begin (s : AdmissionState) (ceiling : Z) : result BudgetExceeded Z * AdmissionState :=
  match reserve_new (adm_builds s) 1 (adm_max_builds s) (lit "concurrent_builds") with
  | Err e => (Err e, s)
  | Ok builds =>
    let s := set_builds builds s in
    match reserve_new (adm_bytes s) ceiling (adm_max_bytes s) (lit "admission_bytes") with
    | Err e => (Err e, set_builds (fetch_sub (adm_builds s) 1) s)
    | Ok bytes => (Ok ceiling, set_bytes bytes s)
    end
  end.

(** [BuildLease::charge]: [None] is the failed assertion. *)
Definition charge (s : AdmissionState) (lease bytes : Z) : option (Z * AdmissionState) :=
  if (bytes <=? lease)%Z then
    Some (bytes, set_bytes (fetch_sub (adm_bytes s) (lease - bytes)) s)
  else None.

(** [BuildLease::finish], the drop of the builder included: the build slot is
    given back, the bytes stay with the snapshot. *)
Definition finish (s : AdmissionState) (lease : Z) : Z * AdmissionState :=
  (lease, set_builds (fetch_sub (adm_builds s) 1) s).

(** Dropping a [SnapshotLease]. *)
Definition drop_snapshot (s : AdmissionState) (lease : Z) : AdmissionState :=
  set_bytes (fetch_sub (adm_bytes s) lease) s.

(** Dropping a [BuildLease] that owns a reservation: its own [drop] first,
    then its field's. *)
Definition drop_build (s : AdmissionState) (lease : Z) : AdmissionState :=
  drop_snapshot (set_builds (fetch_sub (adm_builds s) 1) s) lease.

(** ** Concurrent builders *)

(** Where one builder stands between two atomic operations. *)
Inductive builder :=
| Idle
| ReserveBuild (old : Z)            (** read [builds], about to compare-exchange *)
| HasBuild                          (** owns a build slot *)
| ReserveBytes (ceiling old : Z)    (** read [bytes], about to compare-exchange *)
| Refused                           (** bytes refused, the build slot to be dropped *)
| Building (lease : Z)
| Dropping (lease : Z)              (** build slot given back, bytes still held *)
| Live (lease : Z).                 (** a published snapshot *)

(** One atomic operation of one builder.  A weak compare-exchange may fail
    even on the value it expects. *)
Inductive bstep : AdmissionState * builder → AdmissionState * builder → Prop :=
| load_builds s :
    bstep (s, Idle) (s, ReserveBuild (adm_builds s))
| builds_refused s old e :
    reserve_new old 1 (adm_max_builds s) (lit "concurrent_builds") = Err e →
    bstep (s, ReserveBuild old) (s, Idle)
| builds_cas s new :
    reserve_new (adm_builds s) 1 (adm_max_builds s) (lit "concurrent_builds") = Ok new →
    bstep (s, ReserveBuild (adm_builds s)) (set_builds new s, HasBuild)
| builds_retry s old :
    bstep (s, ReserveBuild old) (s, ReserveBuild (adm_builds s))
| load_bytes s ceiling :
    in_u64 ceiling →
    bstep (s, HasBuild) (s, ReserveBytes ceiling (adm_bytes s))
| bytes_refused s ceiling old e :
    reserve_new old ceiling (adm_max_bytes s) (lit "admission_bytes") = Err e →
    bstep (s, ReserveBytes ceiling old) (s, Refused)
| bytes_cas s ceiling new :
    reserve_new (adm_bytes s) ceiling (adm_max_bytes s) (lit "admission_bytes") = Ok new →
    bstep (s, ReserveBytes ceiling (adm_bytes s)) (set_bytes new s, Building ceiling)
| bytes_retry s ceiling old :
    bstep (s, ReserveBytes ceiling old) (s, ReserveBytes ceiling (adm_bytes s))
| refused_drop s :
    bstep (s, Refused) (set_builds (fetch_sub (adm_builds s) 1) s, Idle)
| builder_charge s lease bytes lease' s' :
    in_u64 bytes →
    charge s lease bytes = Some (lease', s') →
    bstep (s, Building lease) (s', Building lease')
| builder_drop s lease :
    bstep (s, Building lease) (set_builds (fetch_sub (adm_builds s) 1) s, Dropping lease)
| builder_drop_lease s lease :
    bstep (s, Dropping lease) (drop_snapshot s lease, Idle)
| builder_finish s lease lease' s' :
    finish s lease = (lease', s') →
    bstep (s, Building lease) (s', Live lease')
| snapshot_drop s lease :
    bstep (s, Live lease) (drop_snapshot s lease, Idle).

(** Any number of builders sharing one controller. *)
Inductive astep : AdmissionState * list builder → AdmissionState * list builder → Prop :=
| astep_one s s' bs i b b' :
    bs !! i = Some b → bstep (s, b) (s', b') → astep (s, bs) (s', <[i:=b']> bs).

(** ** What the leases hold *)

Definition held_bytes (b : builder) : Z :=
  match b with
  | Building l | Dropping l | Live l => l
  | _ => 0
  end.

Definition held_builds (b : builder) : Z :=
  match b with
  | HasBuild | ReserveBytes _ _ | Refused | Building _ => 1
  | _ => 0
  end.

Definition total (f : builder → Z) (bs : list builder) : Z := foldr (fun b acc => f b + acc)%Z 0%Z bs.

Definition builder_wf (b : builder) : Prop :=
  match b with
  | ReserveBytes c _ => in_u64 c
  | Building l | Dropping l | Live l => in_u64 l
  | _ => True
  end.

(** The controller's invariant: both counters are exactly what the live
    leases hold, and within the configured maxima. *)
Record admission_ok (s : AdmissionState) (bs : list builder) : Prop := {
  ao_bytes : adm_bytes s = total held_bytes bs;
  ao_builds : adm_builds s = total held_builds bs;
  ao_max_bytes : (adm_bytes s ≤ adm_max_bytes s)%Z;
  ao_max_builds : (adm_builds s ≤ adm_max_builds s)%Z;
  ao_width : in_u64 (adm_max_bytes s) ∧ in_u64 (adm_max_builds s);
  ao_wf : Forall builder_wf bs;
}.

Lemma total_insert f bs i b b' :
  bs !! i = Some b → total f (<[i:=b']> bs) = (total f bs - f b + f b')%Z.
Proof.
  revert i; induction bs as [|x bs IH]; intros [|i] H; simpl in *; try done.
  - injection H as ->. lia.
  - rewrite (IH i H). lia.
Qed.

Lemma total_idle f n : f Idle = 0%Z → total f (replicate n Idle) = 0%Z.
Proof. intros Hf. induction n as [|n IH]; simpl; [done|]. rewrite IH. lia. Qed.

Lemma total_ge f bs i b :
  (∀ x, x ∈ bs → 0 ≤ f x)%Z → bs !! i = Some b → (f b ≤ total f bs)%Z.
Proof.
  revert i; induction bs as [|x bs IH]; intros [|i] Hf H; simpl in *; try done.
  - injection H as ->.
    assert (0 ≤ total f bs)%Z; [|lia]. clear -Hf. induction bs as [|y bs IH]; simpl; [lia|].
    assert (0 ≤ f y)%Z by (apply Hf; set_solver).
    assert (0 ≤ total f bs)%Z; [|lia]. apply IH. set_solver.
  - assert (0 ≤ f x)%Z by (apply Hf; set_solver).
    assert (f b ≤ total f bs)%Z; [|lia]. apply (IH i); [set_solver|done].
Qed.

Lemma held_bytes_nonneg b : builder_wf b → (0 ≤ held_bytes b)%Z.
Proof. destruct b; unfold in_u64; simpl; unfold in_u64; lia. Qed.

Lemma held_builds_nonneg b : (0 ≤ held_builds b)%Z.
Proof. destruct b; simpl; lia. Qed.

Lemma reserve_new_Ok old amount maximum limit new :
  reserve_new old amount maximum limit = Ok new → new = (old + amount)%Z ∧ (new ≤ maximum)%Z.
Proof.
  unfold reserve_new. destruct (Z.leb_spec (old + amount) USIZE_MAX); [|done].
  destruct (Z.leb_spec (old + amount) maximum); intros [= <-]. done.
Qed.

Lemma fetch_sub_exact old amount :
  in_u64 old → (0 ≤ amount ≤ old)%Z → fetch_sub old amount = (old - amount)%Z.
Proof. unfold fetch_sub, as_u64, in_u64, U64_MAX. intros. apply Z.mod_small. lia. Qed.

(** One atomic operation moves exactly what its builder gains or loses. *)
Lemma bstep_moves s b s' b' :
  bstep (s, b) (s', b') → builder_wf b →
  (0 ≤ held_bytes b ≤ adm_bytes s)%Z → (held_builds b ≤ adm_builds s)%Z →
  (adm_bytes s ≤ adm_max_bytes s)%Z → (0 ≤ adm_builds s ≤ adm_max_builds s)%Z →
  in_u64 (adm_max_bytes s) → in_u64 (adm_max_builds s) →
  adm_bytes s' = (adm_bytes s - held_bytes b + held_bytes b')%Z
  ∧ adm_builds s' = (adm_builds s - held_builds b + held_builds b')%Z
  ∧ (adm_bytes s' ≤ adm_max_bytes s')%Z ∧ (adm_builds s' ≤ adm_max_builds s')%Z
  ∧ adm_max_bytes s' = adm_max_bytes s ∧ adm_max_builds s' = adm_max_builds s
  ∧ builder_wf b'.
Proof.
  intros Hstep Hwf Hb Hn Hmb Hmn Hub Hun.
  assert (in_u64 (adm_bytes s)) as Hu1 by (unfold in_u64 in *; lia).
  assert (in_u64 (adm_builds s)) as Hu2 by (unfold in_u64 in *; lia).
  inversion Hstep as [| |? new Hr| |? c Hc| |? c new Hr| | |? l by_ l' ? Hc Hch|? l|? l|? l l' ? Hf|? l];
    subst; simpl in *;
    try match goal with H : reserve_new _ _ _ _ = Ok _ |- _ => apply reserve_new_Ok in H as [-> ?] end;
    try match goal with H : finish _ _ = _ |- _ => injection H as <- <-; simpl end;
    try (rewrite fetch_sub_exact by (done || lia));
    try (split_and!; done || lia).
  unfold charge in Hch. destruct (Z.leb_spec by_ l) as [Hle|]; [|done]. injection Hch as <- <-. simpl.
  unfold in_u64 in Hc. rewrite fetch_sub_exact by (done || lia). split_and!; done || lia.
Qed.

Lemma total_nonneg f bs : (∀ x, x ∈ bs → 0 ≤ f x)%Z → (0 ≤ total f bs)%Z.
Proof.
  induction bs as [|y bs IH]; simpl; [lia|]. intros Hf.
  assert (0 ≤ f y)%Z by (apply Hf; set_solver).
  assert (0 ≤ total f bs)%Z; [|lia]. apply IH. set_solver.
Qed.

Lemma admission_ok_step s bs s' bs' :
  admission_ok s bs → astep (s, bs) (s', bs') → admission_ok s' bs'.
Proof.
  intros [Hb Hn Hmb Hmn [Hub Hun] Hwf] Hstep. inversion Hstep as [? ? ? i b b' Hi Hbs]; subst.
  assert (builder_wf b) as Hwb by (by eapply Forall_lookup_1).
  assert (∀ x, x ∈ bs → 0 ≤ held_bytes x)%Z as Hnn.
  { rewrite Forall_forall in Hwf. intros x Hx. by apply held_bytes_nonneg, Hwf. }
  pose proof (total_ge held_bytes _ _ _ Hnn Hi) as Hgb.
  pose proof (total_ge held_builds _ _ _ (λ x _, held_builds_nonneg x) Hi) as Hgn.
  pose proof (total_nonneg held_builds bs (λ x _, held_builds_nonneg x)).
  destruct (bstep_moves _ _ _ _ Hbs Hwb) as (E1 & E2 & M1 & M2 & X1 & X2 & W);
    [pose proof (held_bytes_nonneg _ Hwb); lia|lia|lia|lia|done|done|].
  split; rewrite ?(total_insert _ _ _ _ _ Hi), ?X1, ?X2; try lia; [done|].
  by apply Forall_insert.
Qed.

(** Whatever the interleaving of any number of builders and snapshots on
    one controller (weak compare-exchange failures, refusals, charges and drops
    included), the two shared counters are always exactly the bytes and
    build slots that the live leases hold, they never exceed the configured
    maxima, and so no [fetch_sub] ever wraps. *)
Theorem admission_invariant max_bytes max_builds s0 n s bs :
  in_u64 max_bytes → in_u64 max_builds →
  admission_new max_bytes max_builds = Ok s0 →
  rtc astep (s0, replicate n Idle) (s, bs) →
  admission_ok s bs.
Proof.
  intros Hb Hn Hnew Hsteps.
  assert (admission_ok s0 (replicate n Idle)) as H0.
  { unfold admission_new in Hnew. destruct (max_bytes =? 0)%Z; [done|].
    destruct (max_builds =? 0)%Z; [done|]. injection Hnew as <-.
    unfold in_u64 in *. split; simpl; rewrite ?total_idle; try done; try lia.
    by apply Forall_replicate. }
  refine (rtc_preserves astep (fun x => admission_ok x.1 x.2) (_, _) (_, _) _ H0 Hsteps).
  intros [s1 bs1] [s2 bs2]. apply admission_ok_step.
Qed.

Ltac builder_step i tac :=
  eapply rtc_l; [eapply (astep_one _ _ _ i); [done|tac]|vm_compute].

(** Two builders share 100 bytes: one publishes 40 of its 60, and the other is
    refused 70 while the first still holds its reservation. *)
Lemma admission_invariant_witness :
  admission_ok {| adm_max_bytes := 100; adm_max_builds := 2; adm_bytes := 40; adm_builds := 0 |}
    [Live 40; Idle].
Proof.
  apply (admission_invariant 100 2
           {| adm_max_bytes := 100; adm_max_builds := 2; adm_bytes := 0; adm_builds := 0 |} 2);
    [unfold in_u64, U64_MAX; lia|unfold in_u64, U64_MAX; lia|done|].
  builder_step 0 ltac:(apply load_builds).
  builder_step 0 ltac:(by apply builds_cas).
  builder_step 0 ltac:(apply (load_bytes _ 60); unfold in_u64, U64_MAX; lia).
  builder_step 1 ltac:(apply load_builds).
  builder_step 0 ltac:(by apply bytes_cas).
  builder_step 1 ltac:(by apply builds_cas).
  builder_step 1 ltac:(apply (load_bytes _ 70); unfold in_u64, U64_MAX; lia).
  builder_step 1 ltac:(by eapply bytes_refused).
  builder_step 0 ltac:(eapply (builder_charge _ 60 40); [unfold in_u64, U64_MAX; lia|done]).
  builder_step 0 ltac:(by apply builder_finish).
  builder_step 1 ltac:(apply refused_drop).
  apply rtc_refl.
Defined.
