(* ===== verification/Ast.v ===== *)
(** * Operator-rule syntax trees: [src/filter/operator_rules/ast.rs]

    The regex-free parse of one rule record, the semantic key of a rule, and
    the agreement of this parser with the one of [rules.rs]. *)

From S2P Require Import Prelude RustStr DnsTypes Domain Rules Decision Limits.

Abbreviation len s := (Z.of_nat (length s)).

(** The [sha2] crate, known by its interface. *)
Class Sha2Crate := { sha256 : str → str }.

Inductive OperatorPattern :=
| OExact (domain : str)
| OWildcard (suffix : str)
| ORegex (source : str) (case_insensitive : bool).

Record OperatorRuleAst := {
  ast_pattern : OperatorPattern;
  ast_tier : RuleTier;
  ast_noapex : bool;
}.

Inductive AstError :=
| MultipleRecords
| Grammar (e : RuleParseError)
| Budget (e : BudgetExceeded).

Definition ast_text (a : OperatorRuleAst) : str :=
  match ast_pattern a with
  | OExact s | OWildcard s => s
  | ORegex source _ => source
  end.

Definition indexed_domain (a : OperatorRuleAst) : option str :=
  match ast_pattern a with
  | OExact s => Some s
  | OWildcard s => if ast_noapex a then None else Some s
  | ORegex _ _ => None
  end.

(** ** The semantic key *)

(** The [k] low bytes of [n], the most significant first. *)
Fixpoint be_bytes (k : nat) (n : Z) : str :=
  match k with
  | 0 => []
  | S k => ascii_of_N (Z.to_N (Z.shiftr n (8 * Z.of_nat k) mod 256)) :: be_bytes k n
  end.

(** [u64::to_be_bytes] *)
Definition to_be_bytes (n : Z) : str := be_bytes 8 n.

(** [u8::from(bool)] *)
Definition bool_byte (b : bool) : ascii := ascii_of_N (if b then 1 else 0).

Definition pattern_class (p : OperatorPattern) : ascii :=
  ascii_of_N match p with OExact _ => 0 | OWildcard _ => 1 | ORegex _ _ => 2 end.

Definition pattern_flags (p : OperatorPattern) : ascii :=
  match p with
  | ORegex _ ci => bool_byte ci
  | _ => bool_byte false
  end.

Definition rule_key_fields (a : OperatorRuleAst) : list str :=
  [[bool_byte (is_allow (ast_tier a))];
   [pattern_class (ast_pattern a)];
   ast_text a;
   [pattern_flags (ast_pattern a)];
   [bool_byte (is_important (ast_tier a))];
   [bool_byte (ast_noapex a)]].

Definition frame (field : str) : str := to_be_bytes (Z.of_nat (length field)) ++ field.

(** The bytes that [rule_key] feeds to the hash. *)
Definition rule_key_preimage (a : OperatorRuleAst) : str :=
  lit "warden/uor/rule-ast/v1" ++ NUL :: concat (map frame (rule_key_fields a)).

Definition rule_key {SHA : Sha2Crate} (a : OperatorRuleAst) : str := sha256 (rule_key_preimage a).

(** ** Parsing *)

(** The one-byte separators [\0 \r \n \u{b} \u{c} \u{1c}..=\u{1e}]. *)
Definition separator_byte (b : ascii) : bool :=
  let v := byte b in
  (v =? 0)%Z || (v =? 13)%Z || (v =? 10)%Z || (v =? 11)%Z || (v =? 12)%Z
  || ((28 <=? v)%Z && (v <=? 30)%Z).

(** [check_record] on UTF-8 bytes: [\u{85}] is [C2 85], and [\u{2028}] and
    [\u{2029}] are [E2 80 A8] and [E2 80 A9]; their first bytes only ever
    start a character. *)
Fixpoint has_separator (s : str) : bool :=
  match s with
  | [] => false
  | b :: rest =>
    separator_byte b
    || ((byte b =? 194)%Z && match rest with c :: _ => (byte c =? 133)%Z | _ => false end)
    || ((byte b =? 226)%Z &&
        match rest with
        | c :: d :: _ => (byte c =? 128)%Z && ((byte d =? 168)%Z || (byte d =? 169)%Z)
        | _ => false
        end)
    || has_separator rest
  end.

Definition check_record (line : str) : result AstError () :=
  if has_separator line then Err MultipleRecords else Ok ().

Definition parse_ast_regex (allow : bool) (rest : str) : result AstError OperatorRuleAst :=
  match split_once "/"%char rest with
  | None => Err (Grammar UnterminatedRegex)
  | Some (source, trailing) =>
    match source with
    | [] => Err (Grammar EmptyRegex)
    | _ =>
      match trailing with
      | _ :: _ => Err (Grammar (TrailingAfterRegex trailing))
      | [] => Ok {| ast_pattern := ORegex source true; ast_tier := from_flags allow false;
                    ast_noapex := false |}
      end
    end
  end.

Definition parse_ast_domain (allow important noapex : bool) (s : str)
  : result AstError OperatorRuleAst :=
  let s := default s (strip_suffix (lit "^") s) in
  match s with
  | [] => Err (Grammar EmptyPattern)
  | _ =>
    let wildcard := starts_with (lit "*.") s in
    let s := if wildcard then drop 2 s else s in
    if negb wildcard && contains "*"%char s then Err (Grammar StrayWildcard)
    else if negb (is_valid_domain s) then Err (Grammar (InvalidDomain s))
    else
      let domain := to_ascii_lowercase s in
      Ok {| ast_pattern := if wildcard then OWildcard domain else OExact domain;
            ast_tier := from_flags allow important;
            ast_noapex := wildcard && noapex |}
  end.

Definition parse_ast_modified (allow : bool) (s : str) : result AstError OperatorRuleAst :=
  match split_once "$"%char s with
  | Some (s', modifiers) =>
    let? (important, noapex) := map_err Grammar (parse_modifiers (split ","%char modifiers) false false) in
    parse_ast_domain allow important noapex s'
  | None => parse_ast_domain allow false false s
  end.

Definition parse_rule_ast (line : str) : result AstError OperatorRuleAst :=
  check_record line ;;?
  map_err Budget
    (ensure (lit "max_rule_bytes") (Z.of_nat (length line)) (max_rule_bytes HARD_CEILINGS)) ;;?
  let s := trim line in
  match s with
  | [] => Err (Grammar Empty)
  | _ =>
    let allow := starts_with (lit "@@") s in
    let s := if allow then drop 2 s else s in
    match strip_prefix (lit "/") s with
    | Some rest => parse_ast_regex allow rest
    | None => parse_ast_modified allow (default s (strip_prefix (lit "||") s))
    end
  end.

(** ** The text of a rule comes from its line *)

Lemma parse_ast_regex_length allow rest a :
  parse_ast_regex allow rest = Ok a → length (ast_text a) ≤ length rest.
Proof.
  unfold parse_ast_regex. destruct (split_once _ rest) as [[src t]|] eqn:E; [|done].
  apply split_once_Some in E as [-> _]. destruct src; [done|]. destruct t; [|done].
  intros [= <-]. unfold ast_text. simpl. rewrite length_app. lia.
Qed.

Lemma default_strip_suffix_length p s : length (default s (strip_suffix p s)) ≤ length s.
Proof.
  destruct (strip_suffix p s) as [r|] eqn:E; [|done]. apply strip_suffix_Some in E as ->. simpl.
  rewrite length_app. lia.
Qed.

Lemma parse_ast_domain_length allow imp noap s a :
  parse_ast_domain allow imp noap s = Ok a → length (ast_text a) ≤ length s.
Proof.
  unfold parse_ast_domain. pose proof (default_strip_suffix_length (lit "^") s) as Hl.
  destruct (default s (strip_suffix (lit "^") s)) as [|c t]; [done|].
  destruct (negb _ && _); [done|]. destruct (negb _); [done|].
  set (wild := starts_with (lit "*.") (c :: t)).
  assert (length (to_ascii_lowercase (if wild then drop 2 (c :: t) else c :: t)) ≤ length s) as Hd.
  { rewrite length_to_ascii_lowercase. destruct wild; [rewrite length_drop; lia|done]. }
  revert Hd. generalize (to_ascii_lowercase (if wild then drop 2 (c :: t) else c :: t)) as dom.
  intros dom Hd [= <-]. unfold ast_text. simpl. by destruct wild.
Qed.

Lemma parse_rule_ast_length line a :
  parse_rule_ast line = Ok a → length (ast_text a) ≤ length line ∧ (len line ≤ 16384)%Z.
Proof.
  unfold parse_rule_ast. intros H. inv_bind. apply ensure_Ok in Ha0. split; [|done].
  pose proof (length_trim line) as Ht. destruct (trim line) as [|c t]; [done|].
  assert (∀ b, length (if b : bool then drop 2 (c :: t) else c :: t) ≤ length line) as Hd.
  { intros []; [rewrite length_drop; lia|done]. }
  specialize (Hd (starts_with (lit "@@") (c :: t))).
  set (u := if starts_with _ _ then drop 2 _ else _) in *.
  destruct (strip_prefix (lit "/") u) as [rest|] eqn:P.
  - apply strip_prefix_Some in P. apply parse_ast_regex_length in H. rewrite P, length_app in Hd. lia.
  - assert (length (default u (strip_prefix (lit "||") u)) ≤ length u) as Hu.
    { destruct (strip_prefix (lit "||") u) as [r|] eqn:Q; [|done]. simpl.
      apply strip_prefix_Some in Q. rewrite Q, length_app. lia. }
    unfold parse_ast_modified in H. destruct (split_once _ _) as [[s' ms]|] eqn:E.
    + apply split_once_Some in E as [E _]. rewrite E, length_app in Hu. inv_bind.
      destruct a0. apply parse_ast_domain_length in H. lia.
    + apply parse_ast_domain_length in H. lia.
Qed.

(** ** The key encoding is unambiguous *)

Lemma be_byte_inj a b : (0 ≤ a < 256)%Z → (0 ≤ b < 256)%Z →
  ascii_of_N (Z.to_N a) = ascii_of_N (Z.to_N b) → a = b.
Proof.
  intros Ha Hb H. apply (f_equal N_of_ascii) in H.
  rewrite !N_ascii_embedding in H by lia. lia.
Qed.

Lemma shiftr_byte_step a b k :
  (0 ≤ k)%Z → Z.shiftr a (k + 8) = Z.shiftr b (k + 8) →
  (Z.shiftr a k mod 256)%Z = (Z.shiftr b k mod 256)%Z → Z.shiftr a k = Z.shiftr b k.
Proof.
  intros Hk Hhi Hlo. rewrite <-!Z.shiftr_shiftr in Hhi by lia.
  rewrite !(Z.shiftr_div_pow2 _ 8) in Hhi by lia. change (2 ^ 8)%Z with 256%Z in Hhi.
  rewrite (Z.div_mod (Z.shiftr a k) 256), (Z.div_mod (Z.shiftr b k) 256) by lia.
  by rewrite Hhi, Hlo.
Qed.

Lemma be_bytes_inj k a b :
  Z.shiftr a (8 * Z.of_nat k) = Z.shiftr b (8 * Z.of_nat k) → be_bytes k a = be_bytes k b → a = b.
Proof.
  induction k as [|k IH]; intros Hhi H.
  - by rewrite !Z.shiftr_0_r in Hhi.
  - cbn [be_bytes] in H. apply (inj2 cons) in H as [Hb H]. apply IH; [|done].
    apply be_byte_inj in Hb; [|apply Z.mod_pos_bound; lia..].
    apply shiftr_byte_step; [lia| |done].
    by replace (8 * Z.of_nat k + 8)%Z with (8 * Z.of_nat (S k))%Z by lia.
Qed.

Lemma to_be_bytes_inj a b : in_u64 a → in_u64 b → to_be_bytes a = to_be_bytes b → a = b.
Proof.
  intros Ha Hb. unfold to_be_bytes. apply be_bytes_inj. change (8 * Z.of_nat 8)%Z with 64%Z.
  unfold in_u64, U64_MAX in *. rewrite !Z.shiftr_div_pow2 by lia.
  by rewrite !Z.div_small by lia.
Qed.

Lemma length_to_be_bytes n : length (to_be_bytes n) = 8.
Proof. done. Qed.

Definition short (field : str) : Prop := in_u64 (Z.of_nat (length field)).

Lemma frame_app_inj f g x y :
  short f → short g → frame f ++ x = frame g ++ y → f = g ∧ x = y.
Proof.
  intros Hf Hg H. unfold frame in H. rewrite <-!app_assoc in H.
  apply app_inj_1 in H as [Hl H]; [|by rewrite !length_to_be_bytes].
  apply to_be_bytes_inj in Hl; [|done|done]. apply app_inj_1 in H as [-> ->]; [done|lia].
Qed.

Lemma frames_inj fs gs :
  length fs = length gs → Forall short fs → Forall short gs →
  concat (map frame fs) = concat (map frame gs) → fs = gs.
Proof.
  revert gs; induction fs as [|f fs IH]; intros [|g gs] Hlen Hf Hg H; try done.
  apply Forall_cons in Hf as [Hf Hfs], Hg as [Hg Hgs]. cbn [map concat] in H.
  apply frame_app_inj in H as [-> H]; [|done|done]. f_equal. apply IH; auto.
Qed.

Lemma bool_byte_inj a b : bool_byte a = bool_byte b → a = b.
Proof. by destruct a, b. Qed.

Lemma rule_tier_flags_inj t t' :
  is_allow t = is_allow t' → is_important t = is_important t' → t = t'.
Proof. by destruct t, t'. Qed.

Lemma parse_rule_ast_short line a : parse_rule_ast line = Ok a → short (ast_text a).
Proof. intros H. apply parse_rule_ast_length in H. unfold short, in_u64, U64_MAX. lia. Qed.

Lemma short_byte b : short [b].
Proof. unfold short, in_u64, U64_MAX. simpl. lia. Qed.

Lemma rule_key_fields_short a : short (ast_text a) → Forall short (rule_key_fields a).
Proof.
  intros H. unfold rule_key_fields. rewrite !Forall_cons. split_and!; auto using short_byte.
Qed.

Lemma rule_key_preimage_inj a b :
  short (ast_text a) → short (ast_text b) → rule_key_preimage a = rule_key_preimage b → a = b.
Proof.
  intros Ha Hb H. unfold rule_key_preimage in H. apply app_inv_head in H.
  apply (inj2 cons) in H as [_ H]. apply frames_inj in H; auto using rule_key_fields_short.
  apply (inj2 cons) in H as [H1 (H2 & (H3 & (H4 & (H5 & [H6 _]%(inj2 cons))%(inj2 cons))
    %(inj2 cons))%(inj2 cons))%(inj2 cons)].
  apply (inj2 cons) in H1 as [H1 _], H2 as [H2 _], H4 as [H4 _], H5 as [H5 _], H6 as [H6 _].
  apply bool_byte_inj in H1, H5, H6. pose proof (rule_tier_flags_inj _ _ H1 H5).
  destruct a as [pa ta na], b as [pb tb nb]; simpl in *. subst. f_equal.
  unfold ast_text in H3. simpl in H3.
  destruct pa, pb; simpl in *; try done; try congruence.
  apply bool_byte_inj in H4. congruence.
Qed.

(** Two rules with the same [rule_key] are the same rule, when the hash
    has no collision on the two encodings: the domain-separated,
    length-framed encoding loses nothing of the rule's pattern, case flag,
    tier and apex flag. *)
Theorem rule_key_injective {SHA : Sha2Crate} a b :
  short (ast_text a) → short (ast_text b) →
  (sha256 (rule_key_preimage a) = sha256 (rule_key_preimage b) →
   rule_key_preimage a = rule_key_preimage b) →
  rule_key a = rule_key b ↔ a = b.
Proof.
  intros Ha Hb Hcoll. split; [|by intros ->]. intros H. by apply rule_key_preimage_inj, Hcoll.
Qed.

(** A hash without collisions on any pair: the identity. *)
Definition identity_sha : Sha2Crate := {| sha256 := fun s => s |}.

Lemma rule_key_injective_witness :
  let a := {| ast_pattern := OExact (lit "ads.test"); ast_tier := ImportantDeny; ast_noapex := false |} in
  let b := {| ast_pattern := OWildcard (lit "ads.test"); ast_tier := ImportantDeny; ast_noapex := false |} in
  rule_key (SHA:=identity_sha) a ≠ rule_key (SHA:=identity_sha) b.
Proof.
  intros a b H. apply (rule_key_injective (SHA:=identity_sha) a b) in H; [done| | |done];
    unfold short, in_u64, U64_MAX; simpl; lia.
Defined.

(** ** Agreement with [rules.rs] *)

Section Agreement.
Context {RC : RegexCrate}.

Definition tier_action (t : RuleTier) : RuleAction := if is_allow t then Allow else Block.

(** The rule of [rules.rs] that a syntax tree stands for, with its regex
    compiled. *)
Definition compile_ast (a : OperatorRuleAst) : result RuleParseError DnsRule :=
  let act := tier_action (ast_tier a) in
  let imp := is_important (ast_tier a) in
  match ast_pattern a with
  | OExact d => Ok {| pattern := Exact d; action := act; important := imp; noapex := false |}
  | OWildcard d =>
    Ok {| pattern := Wildcard d; action := act; important := imp; noapex := ast_noapex a |}
  | ORegex source _ =>
    match regex_build source with
    | Ok compiled =>
      Ok {| pattern := Regex source compiled; action := act; important := imp; noapex := false |}
    | Err e => Err (InvalidRegex source e)
    end
  end.

Definition agree (r : result AstError OperatorRuleAst) (r' : result RuleParseError DnsRule) : Prop :=
  match r with
  | Ok a => r' = compile_ast a
  | Err (Grammar e) => r' = Err e
  | Err _ => False
  end.

Definition allow_action (allow : bool) : RuleAction := if allow then Allow else Block.

Lemma tier_action_flags allow imp : tier_action (from_flags allow imp) = allow_action allow.
Proof. by destruct allow, imp. Qed.

Lemma is_important_flags allow imp : is_important (from_flags allow imp) = imp.
Proof. by destruct allow, imp. Qed.

Lemma parse_ast_regex_agrees allow rest :
  agree (parse_ast_regex allow rest) (parse_regex_rule (allow_action allow) rest).
Proof.
  unfold parse_ast_regex, parse_regex_rule.
  destruct (split_once _ rest) as [[src trailing]|]; [|done].
  destruct src as [|c src]; [done|]. destruct trailing; [|done]. simpl.
  unfold compile_ast. cbn [ast_pattern ast_tier].
  rewrite tier_action_flags, is_important_flags. by destruct (regex_build _).
Qed.

Lemma starts_with_strip p s :
  starts_with p s = match strip_prefix p s with Some _ => true | None => false end.
Proof.
  destruct (strip_prefix p s) as [r|] eqn:E.
  - apply starts_with_spec. exists r. by apply strip_prefix_Some.
  - apply not_true_iff_false. rewrite starts_with_spec. intros [r ->].
    by apply (proj1 (strip_prefix_None _ _) E r).
Qed.

Lemma parse_ast_domain_agrees allow imp noap s :
  agree (parse_ast_domain allow imp noap s) (parse_domain_rule (allow_action allow) imp noap s).
Proof.
  unfold parse_ast_domain, parse_domain_rule.
  destruct (default s (strip_suffix (lit "^") s)) as [|c t] eqn:E; [done|].
  rewrite starts_with_strip. destruct (strip_prefix (lit "*.") (c :: t)) as [suffix|] eqn:P.
  - apply strip_prefix_Some in P. rewrite P. change (drop 2 (lit "*." ++ suffix)) with suffix.
    cbn [negb andb].
    destruct (is_valid_domain suffix) eqn:V.
    + apply is_valid_domain_nonempty in V as Hne. rewrite bool_decide_eq_false_2 by done.
      simpl. unfold compile_ast. cbn [ast_pattern ast_tier ast_noapex].
      by rewrite tier_action_flags, is_important_flags.
    + by rewrite orb_true_r.
  - cbn [negb andb]. destruct (contains _ _); [done|].
    destruct (is_valid_domain (c :: t)) eqn:V; [|done]. cbn [negb].
    unfold agree, compile_ast. cbn [ast_pattern ast_tier ast_noapex].
    by rewrite tier_action_flags, is_important_flags.
Qed.

Lemma parse_ast_modified_agrees allow s :
  agree (parse_ast_modified allow s) (parse_modified_rule (allow_action allow) s).
Proof.
  unfold parse_ast_modified, parse_modified_rule.
  destruct (split_once _ s) as [[s' ms]|]; [|apply parse_ast_domain_agrees].
  destruct (parse_modifiers _ _ _) as [[imp noap]|]; [|done]. apply parse_ast_domain_agrees.
Qed.

(** The operator-rule parser and the admin-rule parser accept the same
    language and read it the same way: on every line the former returns the
    syntax tree of the rule the latter returns (up to compiling its regex), or
    the same grammar error; it refuses further lines only for holding a record
    separator or for exceeding 16384 bytes. *)
Theorem parse_rule_ast_agrees line :
  match parse_rule_ast line with
  | Ok a => parse_rule_checked line = compile_ast a
  | Err (Grammar e) => parse_rule_checked line = Err e
  | Err MultipleRecords => has_separator line = true
  | Err (Budget _) => (16384 < Z.of_nat (length line))%Z
  end.
Proof.
  unfold parse_rule_ast, check_record. destruct (has_separator line); [done|].
  unfold ensure. change (max_rule_bytes HARD_CEILINGS) with 16384%Z.
  destruct (Z.ltb_spec 16384 (Z.of_nat (length line))); [done|]. cbn [rbind map_err].
  set (r := match trim line with [] => _ | _ => _ end).
  assert (agree r (parse_rule_checked line)) as Ha; [|by destruct r as [|[]]].
  unfold r, parse_rule_checked. clear r. destruct (trim line) as [|c t]; [done|].
  rewrite starts_with_strip.
  assert (∀ allow s, agree
    (match strip_prefix (lit "/") s with
     | Some rest => parse_ast_regex allow rest
     | None => parse_ast_modified allow (default s (strip_prefix (lit "||") s))
     end) (parse_action_rule (allow_action allow) s)) as Hact.
  { intros allow s. unfold parse_action_rule. destruct (strip_prefix (lit "/") s).
    - apply parse_ast_regex_agrees.
    - apply parse_ast_modified_agrees. }
  destruct (strip_prefix (lit "@@") (c :: t)) as [r|] eqn:P; [|apply (Hact false)].
  apply strip_prefix_Some in P. rewrite P. change (drop 2 (lit "@@" ++ r)) with r.
  apply (Hact true).
Qed.

End Agreement.
