(* ===== verification/Compiler.v ===== *)
(** * The operator-rule compiler: [src/filter/operator_rules/compiler.rs]

    Packs of rule text and profile mounts are checked against their budgets,
    parsed into a store of distinct rules, and projected per profile into an
    index of domains and a list of advanced rules.  [Id] is
    [src/config/schema/id.rs]. *)

From S2P Require Import Prelude RustStr SortedSlice DnsTypes Domain Rules Decision Limits Admission Ast.

(** ** Identifiers *)

Definition ID_MAX_LEN : nat := 64.

Inductive IdError := IdEmpty | IdTooLong | IdBadChar (position : nat) | IdDash.

Definition id_char (c : ascii) : bool :=
  is_ascii_lowercase c || is_ascii_digit c || bool_decide (c = HYPHEN).

Fixpoint first_bad_char (s : str) (i : nat) : option nat :=
  match s with
  | [] => None
  | c :: rest => if id_char c then first_bad_char rest (S i) else Some i
  end.

(** [Id::new]: an id is its text once validated; the error is the check that
    failed.  A position counts bytes: the first bad character is preceded by
    ASCII only. *)
Definition Id_new (s : str) : result IdError str :=
  match s with
  | [] => Err IdEmpty
  | _ =>
    if ID_MAX_LEN <? length s then Err IdTooLong
    else match first_bad_char s 0 with
         | Some i => Err (IdBadChar i)
         | None =>
           if starts_with (lit "-") s || ends_with (lit "-") s then Err IdDash else Ok s
         end
  end.

(** ** Inputs and errors *)

Record PackSource := { ps_list_id : str; ps_content : str }.

Record ProfileMounts := { mt_profile_id : str; mt_custom_lists : list str; mt_block_all : bool }.

(** [regex::RegexError], as [RegexProgram::compile] returns it. *)
Inductive RegexError :=
| Syntax (detail : str)
| RegexBudget (stage : str)
| RegexBuild (detail : str).

Inductive CompileError :=
| CEBudget (e : BudgetExceeded)
| CEInvalidId (e : IdError)
| CEDuplicateList (list_id : str)
| CEDuplicateProfile (profile : str)
| CEDuplicateMount (profile list_id : str)
| CEUnknownMount (profile list_id : str)
| CEInvalidRule (list_id : str) (row : Z) (source : AstError)
| CEInvalidRegex (list_id : str) (row : Z) (detail : str)
| CERegexConstruction (list_id : str) (row : Z) (detail : str)
| CERegexBudget (list_id : str) (row : Z) (stage : str) (source : BudgetExceeded).

(** [RegexError::context] *)
Definition regex_error_context (e : RegexError) (list_id : str) (row limit : Z) : CompileError :=
  match e with
  | Syntax detail => CEInvalidRegex list_id row detail
  | RegexBudget stage =>
    CERegexBudget list_id row stage
      {| be_limit := lit "max_regex_program_bytes"; be_actual := None; be_maximum := limit |}
  | RegexBuild detail => CERegexConstruction list_id row detail
  end.

(** What the compiler asks of regex programs: compiling a source under a size
    limit, and matching a name. *)
Class RegexPrograms := {
  program : Type;
  program_compile : str → bool → Z → result RegexError program;
  program_is_match : program → str → bool;
}.

(** ** The store *)

Record SourceRow := {
  row_line : Z;
  row_byte_offset : Z;
  row_byte_len : Z;
  row_digest : str;
}.

Record RuleOrigin := {
  origin_list_id : str;
  origin_rule_key : str;
  origin_pack_revision : str;
  origin_source_rows : list SourceRow;
}.

Record PackSummary := {
  sum_revision : str;
  sum_source_bytes : Z;
  sum_source_rule_rows : Z;
  sum_tokens : list RuleToken;
  sum_counts : ProjectionCounts;
  sum_projection_bytes : Z;
}.

(** [u32::try_from] of a row, an offset or a length. *)
Definition row_number (n : Z) : result BudgetExceeded Z :=
  if (n <=? U32_MAX)%Z then Ok n
  else Err {| be_limit := lit "source_row"; be_actual := Some n; be_maximum := U32_MAX |}.

Definition row_text (raw : str) : str :=
  match strip_suffix [NL] raw with
  | Some line => default line (strip_suffix [CR] line)
  | None => raw
  end.

Definition is_rule (text : str) : bool :=
  let text := trim text in
  match text with
  | [] => false
  | _ => negb (starts_with (lit "#") text)
  end.

Abbreviation budget := (map_err CEBudget).

(** *** Preflight *)

Fixpoint preflight_rows (l : RuleCompileLimits) (list_id : str) (raws : list str) (index rows : Z)
  : result CompileError () :=
  match raws with
  | [] => Ok ()
  | raw :: rest =>
    let text := row_text raw in
    let? i := budget (add index 1) in
    let? row := budget (row_number i) in
    map_err (CEInvalidRule list_id row) (check_record text) ;;?
    if is_rule text then
      let? rows := budget (add rows 1) in
      budget (ensure (lit "max_rules_per_list") rows (max_rules_per_list l)) ;;?
      budget (ensure (lit "max_rule_bytes") (len text) (max_rule_bytes l)) ;;?
      preflight_rows l list_id rest (index + 1) rows
    else preflight_rows l list_id rest (index + 1) rows
  end.

Fixpoint preflight_packs (l : RuleCompileLimits) (packs : list PackSource) (total_bytes : Z)
    (sources : list (str * str)) : result CompileError (list (str * str)) :=
  match packs with
  | [] => Ok sources
  | pack :: rest =>
    budget (ensure (lit "max_file_bytes") (len (ps_content pack)) (max_file_bytes l)) ;;?
    let? total_bytes := budget (add total_bytes (len (ps_content pack))) in
    budget (ensure (lit "max_total_bytes") total_bytes (max_total_bytes l)) ;;?
    let? list_id := map_err CEInvalidId (Id_new (ps_list_id pack)) in
    match bt_get list_id sources with
    | Some _ => Err (CEDuplicateList list_id)
    | None => preflight_packs l rest total_bytes (bt_alter list_id (fun _ => ps_content pack) sources)
    end
  end.

Fixpoint preflight_all_rows (l : RuleCompileLimits) (sources : list (str * str))
  : result CompileError () :=
  match sources with
  | [] => Ok ()
  | (list_id, content) :: rest =>
    preflight_rows l list_id (split_inclusive NL content) 0 0 ;;?
    preflight_all_rows l rest
  end.

Definition preflight_sources (packs : list PackSource) (l : RuleCompileLimits)
  : result CompileError (list (str * str)) :=
  budget (ensure (lit "max_lists") (len packs) (max_lists l)) ;;?
  let? sources := preflight_packs l packs 0 [] in
  preflight_all_rows l sources ;;?
  Ok sources.

(** *** Projections of one rule *)

Definition b2z (b : bool) : Z := if b then 1 else 0.

Definition is_exact (p : OperatorPattern) : bool := match p with OExact _ => true | _ => false end.
Definition is_regex (p : OperatorPattern) : bool := match p with ORegex _ _ => true | _ => false end.

Definition projections (a : OperatorRuleAst) : ProjectionCounts :=
  {| indexed := b2z (bool_decide (is_Some (indexed_domain a)));
     advanced := b2z (negb (is_exact (ast_pattern a)));
     regexes := b2z (is_regex (ast_pattern a)) |}.

Definition projection_bytes (a : OperatorRuleAst) : result BudgetExceeded Z :=
  let? bytes := match indexed_domain a with
                | Some domain => indexed_bytes (len domain)
                | None => Ok 0%Z
                end in
  if negb (is_exact (ast_pattern a)) then
    let? adv := advanced_bytes (len (ast_text a)) in add bytes adv
  else Ok bytes.

Definition REGEX_COMPILER_VERSION : Z := 2.

(** [RegexKey]: source, case flag, compiler version and size limit. *)
Definition RegexKey : Type := str * bool * Z * Z.

Definition regex_key (a : OperatorRuleAst) (l : RuleCompileLimits) : option RegexKey :=
  match ast_pattern a with
  | ORegex source ci => Some (source, ci, REGEX_COMPILER_VERSION, max_regex_program_bytes l)
  | _ => None
  end.

(** [for _ in keys { total = add(total, bytes?)? }] *)
Fixpoint add_times (n : nat) (total : Z) (bytes : result BudgetExceeded Z) : result BudgetExceeded Z :=
  match n with
  | 0 => Ok total
  | S n => let? b := bytes in let? t := add total b in add_times n t bytes
  end.

Definition set_store_bytes (b : Z) (c : CompiledCostV1) : CompiledCostV1 :=
  {| store_bytes := b; profile_bytes_total := profile_bytes_total c;
     profile_owned_bytes_total := profile_owned_bytes_total c; snapshot_bytes := snapshot_bytes c;
     store_counts := store_counts c; profile_counts_total := profile_counts_total c;
     regex_programs := regex_programs c |}.

Definition set_store_counts (n : ProjectionCounts) (c : CompiledCostV1) : CompiledCostV1 :=
  {| store_bytes := store_bytes c; profile_bytes_total := profile_bytes_total c;
     profile_owned_bytes_total := profile_owned_bytes_total c; snapshot_bytes := snapshot_bytes c;
     store_counts := n; profile_counts_total := profile_counts_total c;
     regex_programs := regex_programs c |}.

Definition set_programs_snapshot (n b : Z) (c : CompiledCostV1) : CompiledCostV1 :=
  {| store_bytes := store_bytes c; profile_bytes_total := profile_bytes_total c;
     profile_owned_bytes_total := profile_owned_bytes_total c; snapshot_bytes := b;
     store_counts := store_counts c; profile_counts_total := profile_counts_total c;
     regex_programs := n |}.

(** The totals that [plan_profiles] adds one profile to. *)
Definition set_profile_totals (counts : ProjectionCounts) (bytes owned snapshot : Z)
    (c : CompiledCostV1) : CompiledCostV1 :=
  {| store_bytes := store_bytes c; profile_bytes_total := bytes;
     profile_owned_bytes_total := owned; snapshot_bytes := snapshot;
     store_counts := store_counts c; profile_counts_total := counts;
     regex_programs := regex_programs c |}.

Definition base_cost : CompiledCostV1 :=
  {| store_bytes := STORE_BASE_BYTES; profile_bytes_total := 0; profile_owned_bytes_total := 0;
     snapshot_bytes := 0; store_counts := no_counts; profile_counts_total := no_counts;
     regex_programs := 0 |}.

(** The entries of one pack, keyed by semantic rule key: the rule and its
    occurrences in source order. *)
Abbreviation entries_map := (list (str * (OperatorRuleAst * list SourceRow))).

Section Compiler.
Context {SHA : Sha2Crate} {RP : RegexPrograms}.

Record StoredRule := {
  st_ast : OperatorRuleAst;
  st_origin : RuleOrigin;
  st_program : option program;
}.

Record CompiledRuleStore := {
  store_rules : list StoredRule;
  store_packs : list (str * PackSummary);
}.

(** *** Parsing the packs *)

Definition add_occurrence (a : OperatorRuleAst) (occurrence : SourceRow) (entries : entries_map)
  : entries_map :=
  bt_alter (rule_key a)
    (fun o => let '(a0, rows) := default (a, []) o in (a0, rows ++ [occurrence])) entries.

Fixpoint parse_rows (list_id : str) (raws : list str) (index offset rule_rows : Z)
    (entries : entries_map) : result CompileError (entries_map * Z) :=
  match raws with
  | [] => Ok (entries, rule_rows)
  | raw :: rest =>
    let text := row_text raw in
    if is_rule text then
      let? rule_rows := budget (add rule_rows 1) in
      let? i := budget (add index 1) in
      let? row := budget (row_number i) in
      let? a := map_err (CEInvalidRule list_id row) (parse_rule_ast text) in
      let? off := budget (row_number offset) in
      let? blen := budget (row_number (len raw)) in
      let occurrence := {| row_line := row; row_byte_offset := off; row_byte_len := blen;
                           row_digest := sha256 raw |} in
      let? offset := budget (add offset (len raw)) in
      parse_rows list_id rest (index + 1) offset rule_rows (add_occurrence a occurrence entries)
    else
      let? offset := budget (add offset (len raw)) in
      parse_rows list_id rest (index + 1) offset rule_rows entries
  end.

(** One iteration of the loop that numbers the entries of a pack. *)
Record numbering := {
  nb_rules : list StoredRule;
  nb_tokens : list RuleToken;
  nb_counts : ProjectionCounts;
  nb_projection_bytes : Z;
  nb_cost : CompiledCostV1;
}.

Definition number_entry (l : RuleCompileLimits) (list_id revision : str) (key : str)
    (a : OperatorRuleAst) (rows : list SourceRow) (n : numbering) : result CompileError numbering :=
  let? token := budget (row_number (len (nb_rules n))) in
  let counts := projections a in
  let? sum_counts := budget (counts_add (nb_counts n) counts) in
  let? st_counts := budget (counts_add (store_counts (nb_cost n)) counts) in
  budget (check_store_counts l st_counts) ;;?
  let? bytes := budget (projection_bytes a) in
  let? proj := budget (add (nb_projection_bytes n) bytes) in
  let? sb := budget (add (store_bytes (nb_cost n)) bytes) in
  let? ab := budget (ast_bytes (len (ast_text a))) in
  let? sb := budget (add sb ab) in
  let? ob := budget (origin_bytes (len list_id) (len rows)) in
  let? sb := budget (add sb ob) in
  budget (ensure (lit "max_store_compiled_bytes") sb (max_store_compiled_bytes l)) ;;?
  Ok {| nb_rules := nb_rules n ++
          [{| st_ast := a;
              st_origin := {| origin_list_id := list_id; origin_rule_key := key;
                              origin_pack_revision := revision; origin_source_rows := rows |};
              st_program := None |}];
        nb_tokens := nb_tokens n ++ [token];
        nb_counts := sum_counts;
        nb_projection_bytes := proj;
        nb_cost := set_store_bytes sb (set_store_counts st_counts (nb_cost n)) |}.

Fixpoint number_entries (l : RuleCompileLimits) (list_id revision : str) (entries : entries_map)
    (n : numbering) : result CompileError numbering :=
  match entries with
  | [] => Ok n
  | (key, (a, rows)) :: rest =>
    let? n := number_entry l list_id revision key a rows n in
    number_entries l list_id revision rest n
  end.

Fixpoint parse_packs (l : RuleCompileLimits) (sources : list (str * str)) (rules : list StoredRule)
    (packs : list (str * PackSummary)) (cost : CompiledCostV1)
  : result CompileError (list StoredRule * list (str * PackSummary) * CompiledCostV1) :=
  match sources with
  | [] => Ok (rules, packs, cost)
  | (list_id, content) :: rest =>
    let revision := sha256 content in
    let? (entries, rule_rows) := parse_rows list_id (split_inclusive NL content) 0 0 0 [] in
    let? pb := budget (pack_bytes (len list_id)) in
    let? sb := budget (add (store_bytes cost) pb) in
    let? n := number_entries l list_id revision entries
                {| nb_rules := rules; nb_tokens := []; nb_counts := no_counts;
                   nb_projection_bytes := 0; nb_cost := set_store_bytes sb cost |} in
    let summary := {| sum_revision := revision; sum_source_bytes := len content;
                      sum_source_rule_rows := rule_rows; sum_tokens := nb_tokens n;
                      sum_counts := nb_counts n; sum_projection_bytes := nb_projection_bytes n |} in
    parse_packs l rest (nb_rules n) (bt_alter list_id (fun _ => summary) packs) (nb_cost n)
  end.

Definition distinct_keys (l : RuleCompileLimits) (asts : list OperatorRuleAst) : nat :=
  size (list_to_set (omap (fun a => regex_key a l) asts) : gset RegexKey).

Definition parse_store (sources : list (str * str)) (l : RuleCompileLimits)
  : result CompileError (CompiledRuleStore * CompiledCostV1) :=
  let? (rules, packs, cost) := parse_packs l sources [] [] base_cost in
  let keys := distinct_keys l (map st_ast rules) in
  let? sb := budget (add_times keys (store_bytes cost) (regex_bytes (max_regex_program_bytes l))) in
  budget (ensure (lit "max_store_compiled_bytes") sb (max_store_compiled_bytes l)) ;;?
  budget (ensure (lit "max_compiled_bytes_total") sb (max_compiled_bytes_total l)) ;;?
  Ok ({| store_rules := rules; store_packs := packs |},
      set_programs_snapshot (Z.of_nat keys) sb (set_store_bytes sb cost)).

(** [CompiledRuleStore::pack] *)
Definition pack (s : CompiledRuleStore) (id : str) : option PackSummary := slice_get (store_packs s) id.

(** *** Planning the profiles *)

Record ProfilePlan := {
  plan_id : str;
  plan_tokens : list RuleToken;
  plan_counts : ProjectionCounts;
  plan_compiled_bytes : Z;
  plan_owned_bytes : Z;
  plan_block_all : bool;
}.

Fixpoint plan_mounts (s : CompiledRuleStore) (l : RuleCompileLimits) (profile : str)
    (raws : list str) (mounts : gset str) (tokens : list RuleToken) (counts : ProjectionCounts)
    (owned : Z) : result CompileError (list RuleToken * ProjectionCounts * Z) :=
  match raws with
  | [] => Ok (tokens, counts, owned)
  | raw :: rest =>
    let? list_id := map_err CEInvalidId (Id_new raw) in
    if decide (list_id ∈ mounts) then Err (CEDuplicateMount profile list_id)
    else
      let? p := ok_or (pack s list_id) (CEUnknownMount profile list_id) in
      let? counts := budget (counts_add counts (sum_counts p)) in
      budget (check_profile_counts l counts) ;;?
      let? owned := budget (add owned (sum_projection_bytes p)) in
      budget (ensure (lit "max_compiled_bytes_per_profile") owned (max_compiled_bytes_per_profile l)) ;;?
      plan_mounts s l profile rest ({[list_id]} ∪ mounts) (tokens ++ sum_tokens p) counts owned
  end.

(** The rule a token stands for, as [store.rules[token.index()]] reads it. *)
Definition stored (s : CompiledRuleStore) (t : RuleToken) : option StoredRule :=
  store_rules s !! Z.to_nat t.

Definition tokens_asts (s : CompiledRuleStore) (tokens : list RuleToken) : list OperatorRuleAst :=
  omap (fun t => st_ast <$> stored s t) tokens.

Definition plan_profile (s : CompiledRuleStore) (l : RuleCompileLimits) (m : ProfileMounts)
    (profile : str) (cost : CompiledCostV1) : result CompileError (ProfilePlan * CompiledCostV1) :=
  let? owned := budget (profile_bytes (len profile)) in
  let? (tokens, counts, owned) := plan_mounts s l profile (mt_custom_lists m) ∅ [] no_counts owned in
  let keys := distinct_keys l (tokens_asts s tokens) in
  let tokens := merge_sort Z.le tokens in
  let? sidecar := budget (sidecar_bytes (len tokens)) in
  let? owned := budget (add owned sidecar) in
  let? compiled := budget (add_times keys owned (regex_bytes (max_regex_program_bytes l))) in
  budget (ensure (lit "max_compiled_bytes_per_profile") compiled (max_compiled_bytes_per_profile l)) ;;?
  let? total_counts := budget (counts_add (profile_counts_total cost) counts) in
  budget (check_total_counts l total_counts) ;;?
  let? bytes_total := budget (add (profile_bytes_total cost) compiled) in
  let? owned_total := budget (add (profile_owned_bytes_total cost) owned) in
  let? snapshot := budget (add (store_bytes cost) owned_total) in
  budget (ensure (lit "max_compiled_bytes_total") snapshot (max_compiled_bytes_total l)) ;;?
  Ok ({| plan_id := profile; plan_tokens := tokens; plan_counts := counts;
         plan_compiled_bytes := compiled; plan_owned_bytes := owned;
         plan_block_all := mt_block_all m |},
      set_profile_totals total_counts bytes_total owned_total snapshot cost).

Fixpoint plan_profiles (s : CompiledRuleStore) (l : RuleCompileLimits) (ms : list ProfileMounts)
    (seen : gset str) (cost : CompiledCostV1)
  : result CompileError (list ProfilePlan * CompiledCostV1) :=
  match ms with
  | [] => Ok ([], cost)
  | m :: rest =>
    let? profile := map_err CEInvalidId (Id_new (mt_profile_id m)) in
    if decide (profile ∈ seen) then Err (CEDuplicateProfile profile)
    else
      let? (plan, cost) := plan_profile s l m profile cost in
      let? (plans, cost) := plan_profiles s l rest ({[profile]} ∪ seen) cost in
      Ok (plan :: plans, cost)
  end.

(** *** Regex programs *)

Definition set_program (p : program) (r : StoredRule) : StoredRule :=
  {| st_ast := st_ast r; st_origin := st_origin r; st_program := Some p |}.

(** The line of the first occurrence; [source_rows[0]] never fails, an origin
    being created with its first row. *)
Definition first_line (o : RuleOrigin) : Z :=
  match origin_source_rows o with
  | r :: _ => row_line r
  | [] => 0
  end.

(** [compile_programs]: programs are shared by regex key within one build. *)
Fixpoint compile_programs (rules : list StoredRule) (l : RuleCompileLimits)
    (programs : gmap RegexKey program) : result CompileError (list StoredRule) :=
  match rules with
  | [] => Ok []
  | rule :: rest =>
    match regex_key (st_ast rule) l with
    | None =>
      let? rest := compile_programs rest l programs in
      Ok (rule :: rest)
    | Some key =>
      let '(source, ci, _, limit) := key in
      let? p := match programs !! key with
                | Some p => Ok p
                | None =>
                  map_err (fun e => regex_error_context e (origin_list_id (st_origin rule))
                                      (first_line (st_origin rule)) limit)
                    (program_compile source ci limit)
                end in
      let? rest := compile_programs rest l (<[key := p]> programs) in
      Ok (set_program p rule :: rest)
    end
  end.

(** *** The index of one profile *)

Definition EMPTY_TOKEN : Z := U32_MAX.

(** [ExactSlots], one token per tier. *)
Record ExactSlots := {
  slot_ordinary_deny : Z;
  slot_ordinary_allow : Z;
  slot_important_deny : Z;
  slot_important_allow : Z;
}.

Definition empty_slots : ExactSlots :=
  {| slot_ordinary_deny := EMPTY_TOKEN; slot_ordinary_allow := EMPTY_TOKEN;
     slot_important_deny := EMPTY_TOKEN; slot_important_allow := EMPTY_TOKEN |}.

Definition slot (s : ExactSlots) (t : RuleTier) : Z :=
  match t with
  | OrdinaryDeny => slot_ordinary_deny s
  | OrdinaryAllow => slot_ordinary_allow s
  | ImportantDeny => slot_important_deny s
  | ImportantAllow => slot_important_allow s
  end.

(** Each slot lowered to the other's when that is smaller. *)
Definition slots_min (a b : ExactSlots) : ExactSlots :=
  {| slot_ordinary_deny := Z.min (slot_ordinary_deny a) (slot_ordinary_deny b);
     slot_ordinary_allow := Z.min (slot_ordinary_allow a) (slot_ordinary_allow b);
     slot_important_deny := Z.min (slot_important_deny a) (slot_important_deny b);
     slot_important_allow := Z.min (slot_important_allow a) (slot_important_allow b) |}.

(** [slots[tier] = slots[tier].min(token)] *)
Definition slot_lower (s : ExactSlots) (h : RankedHit) : ExactSlots :=
  let v := Z.min (slot s (tier h)) (token h) in
  match tier h with
  | OrdinaryDeny =>
    {| slot_ordinary_deny := v; slot_ordinary_allow := slot_ordinary_allow s;
       slot_important_deny := slot_important_deny s; slot_important_allow := slot_important_allow s |}
  | OrdinaryAllow =>
    {| slot_ordinary_deny := slot_ordinary_deny s; slot_ordinary_allow := v;
       slot_important_deny := slot_important_deny s; slot_important_allow := slot_important_allow s |}
  | ImportantDeny =>
    {| slot_ordinary_deny := slot_ordinary_deny s; slot_ordinary_allow := slot_ordinary_allow s;
       slot_important_deny := v; slot_important_allow := slot_important_allow s |}
  | ImportantAllow =>
    {| slot_ordinary_deny := slot_ordinary_deny s; slot_ordinary_allow := slot_ordinary_allow s;
       slot_important_deny := slot_important_deny s; slot_important_allow := v |}
  end.

Definition indexed_winner (s : ExactSlots) : option RankedHit :=
  if negb (slot_important_allow s =? EMPTY_TOKEN)%Z then
    Some {| tier := ImportantAllow; token := slot_important_allow s |}
  else if negb (slot_important_deny s =? EMPTY_TOKEN)%Z then
    Some {| tier := ImportantDeny; token := slot_important_deny s |}
  else if negb (slot_ordinary_allow s =? EMPTY_TOKEN)%Z then
    Some {| tier := OrdinaryAllow; token := slot_ordinary_allow s |}
  else if negb (slot_ordinary_deny s =? EMPTY_TOKEN)%Z then
    Some {| tier := OrdinaryDeny; token := slot_ordinary_deny s |}
  else None.

Inductive AdvancedPattern :=
| AdvWildcard (suffix : str)
| AdvRegex (p : program).

Record AdvancedRule := { adv_pattern : AdvancedPattern; adv_hit : RankedHit }.

Record CompiledProfile := {
  cp_store : CompiledRuleStore;
  cp_index : gmap str ExactSlots;
  cp_advanced : list AdvancedRule;
  cp_mounted : list RuleToken;
  cp_counts : ProjectionCounts;
  cp_compiled_bytes : Z;
  cp_owned_bytes : Z;
  cp_block_all : bool;
  cp_min_indexed_len : Z;
}.

(** [u8::try_from(n).unwrap_or(u8::MAX)] *)
Definition u8_or_max (n : Z) : Z := if (n <=? U8_MAX)%Z then n else U8_MAX.

Definition index_rule (index : gmap str ExactSlots) (domain : str) (h : RankedHit)
  : gmap str ExactSlots :=
  <[domain := slot_lower (default empty_slots (index !! domain)) h]> index.

(** The first loop over the tokens of a plan; [None] stands for a panic: a
    token outside the store, or a regex rule without program. *)
Fixpoint project_tokens (s : CompiledRuleStore) (tokens : list RuleToken)
    (index : gmap str ExactSlots) (advanced : list AdvancedRule) (min_len : Z)
  : option (gmap str ExactSlots * list AdvancedRule * Z) :=
  match tokens with
  | [] => Some (index, advanced, min_len)
  | tok :: rest =>
    match stored s tok with
    | None => None
    | Some rule =>
      let hit := {| tier := ast_tier (st_ast rule); token := tok |} in
      let '(index, min_len) :=
        match indexed_domain (st_ast rule) with
        | Some domain => (index_rule index domain hit, Z.min min_len (u8_or_max (len domain)))
        | None => (index, min_len)
        end in
      match ast_pattern (st_ast rule) with
      | OExact _ => project_tokens s rest index advanced min_len
      | OWildcard suffix =>
        project_tokens s rest index
          (advanced ++ [{| adv_pattern := AdvWildcard suffix; adv_hit := hit |}]) min_len
      | ORegex _ _ =>
        match st_program rule with
        | None => None
        | Some p =>
          project_tokens s rest index
            (advanced ++ [{| adv_pattern := AdvRegex p; adv_hit := hit |}]) min_len
        end
      end
    end
  end.

(** Everything after a dot, the empty rest after a final dot included. *)
Fixpoint after_dots (domain : str) : list str :=
  match domain with
  | [] => []
  | b :: rest => if decide (b = DOT) then rest :: after_dots rest else after_dots rest
  end.

Definition ancestor_winners (index : gmap str ExactSlots) (domain : str) : ExactSlots :=
  fold_left (fun acc suffix =>
    match index !! suffix with
    | Some slots => slots_min acc slots
    | None => acc
    end) (after_dots domain) empty_slots.

(** The second loop: an indexed domain takes over the winners of its
    ancestors, in place. *)
Fixpoint fold_ancestors (s : CompiledRuleStore) (tokens : list RuleToken)
    (index : gmap str ExactSlots) : option (gmap str ExactSlots) :=
  match tokens with
  | [] => Some index
  | tok :: rest =>
    match stored s tok with
    | None => None
    | Some rule =>
      match indexed_domain (st_ast rule) with
      | None => fold_ancestors s rest index
      | Some domain =>
        match index !! domain with
        | None => None
        | Some slots =>
          fold_ancestors s rest
            (<[domain := slots_min slots (ancestor_winners index domain)]> index)
        end
      end
    end
  end.

Definition build_profile (s : CompiledRuleStore) (plan : ProfilePlan) : option CompiledProfile :=
  match project_tokens s (plan_tokens plan) ∅ [] U8_MAX with
  | None => None
  | Some (index, advanced, min_len) =>
    match fold_ancestors s (plan_tokens plan) index with
    | None => None
    | Some index =>
      Some {| cp_store := s; cp_index := index; cp_advanced := advanced;
              cp_mounted := plan_tokens plan; cp_counts := plan_counts plan;
              cp_compiled_bytes := plan_compiled_bytes plan; cp_owned_bytes := plan_owned_bytes plan;
              cp_block_all := plan_block_all plan; cp_min_indexed_len := min_len |}
    end
  end.

(** *** Lookup *)

(** [domain.len() > suffix.len() && domain.ends_with(suffix)] with a dot just
    before the suffix. *)
Definition descendant (domain suffix : str) : bool :=
  (length suffix <? length domain)
  && ends_with suffix domain
  && bool_decide (domain !! (length domain - length suffix - 1) = Some DOT).

(** The walk over the suffixes of a name that is not itself a key. *)
Fixpoint walk_index (index : gmap str ExactSlots) (min_len : Z) (suffixes : list str)
  : option RankedHit :=
  match suffixes with
  | [] => None
  | suffix :: rest =>
    if (len suffix <? min_len)%Z then None
    else match index !! suffix with
         | Some slots => indexed_winner slots
         | None => walk_index index min_len rest
         end
  end.

Definition index_hit (index : gmap str ExactSlots) (min_len : Z) (domain : str) : option RankedHit :=
  if decide (index = ∅) then None
  else match index !! domain with
       | Some slots => indexed_winner slots
       | None => walk_index index min_len (after_dots domain)
       end.

Definition advanced_matches (p : AdvancedPattern) (domain : str) : bool :=
  match p with
  | AdvWildcard suffix => descendant domain suffix
  | AdvRegex prog => program_is_match prog domain
  end.

(** The loop over the advanced rules: one that cannot win is not matched. *)
Fixpoint advanced_hits (rules : list AdvancedRule) (domain : str) (winner : option RankedHit)
  : option RankedHit :=
  match rules with
  | [] => winner
  | rule :: rest =>
    if decide (best winner (Some (adv_hit rule)) = winner) then advanced_hits rest domain winner
    else if advanced_matches (adv_pattern rule) domain then
      advanced_hits rest domain (best winner (Some (adv_hit rule)))
    else advanced_hits rest domain winner
  end.

Definition lookup_hit (p : CompiledProfile) (domain : str) : option RankedHit :=
  advanced_hits (cp_advanced p) domain (index_hit (cp_index p) (cp_min_indexed_len p) domain).

(** [CompiledProfile::evaluate] *)
Definition cp_evaluate (p : CompiledProfile) (domain : str) (external : ExternalMatches) : Verdict :=
  match lookup_hit p domain with
  | Some hit => if is_allow (tier hit) then VForward else VBlock
  | None => if cp_block_all p || bool_decide (external = ExtDeny) then VBlock else VForward
  end.

Definition reduce_target (p : CompiledProfile) (domain : str) (grant : option AllowGrant)
    (external : ExternalMatches) : ReducedDecision :=
  reduce (lookup_hit p domain) grant (cp_block_all p) external.

(** [CompiledProfile::attribution]: the tier is read again from the store. *)
Definition attribution (p : CompiledProfile) (tok : option RuleToken) : option RankedHit :=
  match tok with
  | None => None
  | Some t => (fun r => {| tier := ast_tier (st_ast r); token := t |}) <$> stored (cp_store p) t
  end.

Inductive MatchProjection := ProjExact | ProjWildcardApex | ProjWildcardDescendant | ProjRegex.

(** How one stored rule matches a name, as [explain] reports it. *)
Definition match_projection (r : StoredRule) (domain : str) : option MatchProjection :=
  match ast_pattern (st_ast r) with
  | OExact suffix =>
    if str_eqb domain suffix || descendant domain suffix then Some ProjExact else None
  | OWildcard suffix =>
    if str_eqb domain suffix && negb (ast_noapex (st_ast r)) then Some ProjWildcardApex
    else if descendant domain suffix then Some ProjWildcardDescendant
    else None
  | ORegex _ _ =>
    match st_program r with
    | Some p => if program_is_match p domain then Some ProjRegex else None
    | None => None
    end
  end.

Definition explain (p : CompiledProfile) (domain : str) : list (RankedHit * MatchProjection) :=
  omap (fun t =>
    match stored (cp_store p) t with
    | None => None
    | Some r => (fun proj => ({| tier := ast_tier (st_ast r); token := t |}, proj))
                  <$> match_projection r domain
    end) (cp_mounted p).

(** *** Request and target decisions

    A profile is reached by reference: a grant remembers the reference that
    issued it, and pointer identity decides whether it applies. *)

Record ProfileRef := { ref_addr : Z; ref_profile : CompiledProfile }.

Record RuleDecision := { dec_profile : ProfileRef; dec_decision : ReducedDecision }.

Record RequestGrant := { rg_issuer : ProfileRef; rg_grant : AllowGrant }.

Definition evaluate_attributed (p : ProfileRef) (domain : str) (external : ExternalMatches)
  : RuleDecision :=
  {| dec_profile := p;
     dec_decision := reduce (lookup_hit (ref_profile p) domain) None
                       (cp_block_all (ref_profile p)) external |}.

Definition winning_rule (d : RuleDecision) : option RankedHit :=
  attribution (ref_profile (dec_profile d)) (rd_winning_token (dec_decision d)).

(** [RuleDecision::grant] *)
Definition grant (d : RuleDecision) : option RequestGrant :=
  match rd_allow_grant (dec_decision d) with
  | None => None
  | Some g =>
    match grant_origin g with
    | OriginRule => Some {| rg_issuer := dec_profile d; rg_grant := g |}
    | OriginRequest => None
    end
  end.

Definition is_issued_by (g : RequestGrant) (p : ProfileRef) : bool :=
  (ref_addr (rg_issuer g) =? ref_addr p)%Z.

(** [RuleDecision::evaluate_target] *)
Definition evaluate_target (d : RuleDecision) (domain : str) (external : ExternalMatches)
    (structurally_valid : bool) : ReducedDecision :=
  if negb structurally_valid then REDUCED_BLOCK
  else if decide (rd_verdict (dec_decision d) = VBlock) then dec_decision d
  else reduce_target (ref_profile (dec_profile d)) domain (rd_allow_grant (dec_decision d)) external.

(** [CompiledProfile::evaluate_target_with_grant] *)
Definition evaluate_target_with_grant (p : ProfileRef) (domain : str) (g : option RequestGrant)
    (external : ExternalMatches) (structurally_valid : bool) : ReducedDecision :=
  let inherited := match g with
                   | Some g =>
                     if is_issued_by g p then
                       Some {| grant_tier := grant_tier (rg_grant g);
                               grant_token := grant_token (rg_grant g);
                               grant_origin := OriginRequest |}
                     else None
                   | None => None
                   end in
  if structurally_valid then reduce_target (ref_profile p) domain inherited external
  else REDUCED_BLOCK.

(** *** The whole compilation *)

Record CompiledOperatorRules := {
  cr_store : CompiledRuleStore;
  cr_profiles : list (str * CompiledProfile);
  cr_cost : CompiledCostV1;
  cr_lease : Z;
}.

(** Everything before the automata are built. *)
Definition prepare (packs : list PackSource) (profiles : list ProfileMounts) (l : RuleCompileLimits)
  : result CompileError (CompiledRuleStore * list ProfilePlan * CompiledCostV1) :=
  let? sources := preflight_sources packs l in
  let? (store, cost) := parse_store sources l in
  let? (plans, cost) := plan_profiles store l profiles ∅ cost in
  Ok (store, plans, cost).

Definition build_profiles (s : CompiledRuleStore) (plans : list ProfilePlan)
  : option (list (str * CompiledProfile)) :=
  mapM (fun plan => (fun p => (plan_id plan, p)) <$> build_profile s plan) plans.

(** [CompiledOperatorRules::compile], with the admission controller before
    and after.  [None] is a panic; an error or a panic drops the build lease. *)
Definition compile (packs : list PackSource) (profiles : list ProfileMounts)
    (l : RuleCompileLimits) (adm : AdmissionState)
  : option (result CompileError CompiledOperatorRules) * AdmissionState :=
  match validate l with
  | Err e => (Some (Err (CEBudget e)), adm)
  | Ok _ =>
    match begin adm (max_compiled_bytes_total l) with
    | (Err e, adm) => (Some (Err (CEBudget e)), adm)
    | (Ok lease, adm) =>
      match prepare packs profiles l with
      | Err e => (Some (Err e), drop_build adm lease)
      | Ok (store, plans, cost) =>
        match charge adm lease (snapshot_bytes cost) with
        | None => (None, drop_build adm lease)
        | Some (lease, adm) =>
          match compile_programs (store_rules store) l ∅ with
          | Err e => (Some (Err e), drop_build adm lease)
          | Ok rules =>
            let store := {| store_rules := rules; store_packs := store_packs store |} in
            match build_profiles store plans with
            | None => (None, drop_build adm lease)
            | Some profiles =>
              let '(lease, adm) := finish adm lease in
              (Some (Ok {| cr_store := store; cr_profiles := merge_sort key_le profiles;
                           cr_cost := cost; cr_lease := lease |}), adm)
            end
          end
        end
      end
    end
  end.

(** [profile_index] and [profile_at] *)
Definition profile_index (c : CompiledOperatorRules) (id : str) : option nat :=
  ok (binary_search (cr_profiles c) id).

Definition profile_at (c : CompiledOperatorRules) (index : nat) : option CompiledProfile :=
  snd <$> cr_profiles c !! index.

Definition profile (c : CompiledOperatorRules) (id : str) : option CompiledProfile :=
  match profile_index c id with
  | Some index => profile_at c index
  | None => None
  end.

End Compiler.
