(* ===== verification/CompilerIndex.v ===== *)
(** * Correctness of the compiled index

    The winner-only index, with ancestor winners folded into each key, the
    length cut-off and the advanced list, finds exactly the best of all the
    mounted rules that match a name. *)

From S2P Require Import Prelude RustStr SortedSlice DnsTypes Domain Rules Decision Limits Admission Ast Compiler.

(** ** Suffixes after a dot *)

Lemma after_dots_spec d s : s ∈ after_dots d ↔ ∃ p, d = p ++ DOT :: s.
Proof.
  induction d as [|b d IH]; cbn [after_dots].
  { rewrite elem_of_nil. split; [done|]. by intros [[|] ?]. }
  case_decide as E.
  - subst b. rewrite elem_of_cons, IH. split.
    + intros [->|[p ->]]; [by exists []|]. by exists (DOT :: p).
    + intros [[|c p] [= ]]; subst; [by left|]. right. by exists p.
  - rewrite IH. split.
    + intros [p ->]. by exists (b :: p).
    + intros [[|c p] [= ]]; subst; [done|]. by exists p.
Qed.

Lemma descendant_spec d s : descendant d s = true ↔ s ∈ after_dots d.
Proof.
  rewrite after_dots_spec. unfold descendant.
  rewrite !andb_true_iff, Nat.ltb_lt, ends_with_spec, bool_decide_eq_true. split.
  - intros [[Hlen [r ->]] Hdot]. rewrite !length_app in *.
    assert (r ≠ []) as Hr by (intros ->; simpl in *; lia).
    destruct (exists_last Hr) as (q & z & ->). rewrite length_app in *.
    rewrite lookup_app_l in Hdot by (rewrite length_app; simpl; lia).
    rewrite lookup_app_r in Hdot by (simpl; lia).
    replace (_ - _) with 0 in Hdot by (simpl; lia). injection Hdot as ->.
    exists q. by rewrite <-app_assoc.
  - intros (q & ->). rewrite length_app, length_cons. split_and!; [lia| |].
    + exists (q ++ [DOT]). by rewrite <-app_assoc.
    + rewrite lookup_app_r by lia. replace (_ - _ - _ - _) with 0 by lia. done.
Qed.

Lemma after_dots_length d s : s ∈ after_dots d → length s < length d.
Proof. rewrite after_dots_spec. intros [p ->]. rewrite length_app, length_cons. lia. Qed.

Lemma after_dots_trans d s t : s ∈ after_dots d → t ∈ after_dots s → t ∈ after_dots d.
Proof.
  rewrite !after_dots_spec. intros [p ->] [q ->]. exists (p ++ DOT :: q). by rewrite <-app_assoc.
Qed.

(** [name_chain d]: the names whose rules can reach [d]. *)
Definition name_chain (d : str) : list str := d :: after_dots d.

(** A name's chain splits at any of its members: the longer names before it,
    its own chain after it. *)
Lemma after_dots_split d s :
  s ∈ after_dots d → ∃ before, after_dots d = before ++ name_chain s
    ∧ Forall (fun x => length s < length x) before.
Proof.
  induction d as [|b d IH]; cbn [after_dots]; [by rewrite elem_of_nil|].
  case_decide as E; [|exact IH].
  rewrite elem_of_cons. intros [->|Hs]; [by exists []|].
  destruct (IH Hs) as (before & -> & Hf). exists (d :: before). split; [done|].
  constructor; [|done]. by apply after_dots_length.
Qed.

Lemma name_chain_sorted d : StronglySorted (fun a b => length b < length a) (name_chain d).
Proof.
  assert (StronglySorted (fun a b => length b < length a) (after_dots d)) as H.
  { induction d as [|b d IH]; cbn [after_dots]; [constructor|]. case_decide; [|done].
    apply StronglySorted_cons. split; [|done]. apply Forall_forall. apply after_dots_length. }
  apply StronglySorted_cons. split; [|done]. apply Forall_forall. apply after_dots_length.
Qed.

(** ** Minima of tokens *)

Definition min_token (l : list Z) : Z := foldr Z.min EMPTY_TOKEN l.

Lemma le_min_token v l : (v ≤ min_token l)%Z ↔ (v ≤ EMPTY_TOKEN)%Z ∧ ∀ x, x ∈ l → (v ≤ x)%Z.
Proof.
  unfold min_token. induction l as [|y l IH]; cbn [foldr].
  - split; [|naive_solver]. intros H. split; [done|]. intros x Hx. by apply not_elem_of_nil in Hx.
  - rewrite Z.min_glb_iff, IH. setoid_rewrite elem_of_cons. naive_solver.
Qed.

Lemma eq_by_lower a b : (∀ v : Z, (v ≤ a ↔ v ≤ b)%Z) → a = b.
Proof. intros H. apply Z.le_antisymm; apply H; lia. Qed.

Lemma min_token_elem l : min_token l = EMPTY_TOKEN ∨ min_token l ∈ l.
Proof.
  induction l as [|y l IH]; [by left|]. unfold min_token in *. cbn [foldr].
  destruct (Z.min_spec y (foldr Z.min EMPTY_TOKEN l)) as [[_ ->]|[_ ->]]; [right; left|].
  destruct IH as [->|IH]; [by left|right; by right].
Qed.

(** ** The winner of a slot record *)

Definition tier_tokens (hits : list RankedHit) (t : RuleTier) : list Z :=
  token <$> filter (fun h => tier h = t) hits.

Lemma tier_tokens_elem hits t x : x ∈ tier_tokens hits t ↔ {| tier := t; token := x |} ∈ hits.
Proof.
  unfold tier_tokens. rewrite list_elem_of_fmap. setoid_rewrite list_elem_of_filter. split.
  - by intros ([t' x'] & -> & <- & H).
  - intros H. by exists {| tier := t; token := x |}.
Qed.

Definition represents (sl : ExactSlots) (hits : list RankedHit) : Prop :=
  ∀ t, slot sl t = min_token (tier_tokens hits t).

Definition small_tokens (hits : list RankedHit) : Prop :=
  ∀ h, h ∈ hits → (token h < EMPTY_TOKEN)%Z.

Lemma represents_empty sl hits t :
  represents sl hits → small_tokens hits → slot sl t = EMPTY_TOKEN →
  ∀ h, h ∈ hits → tier h ≠ t.
Proof.
  intros Hr Hs He [t' x] Hin Ht. simpl in Ht. subst t'.
  assert (EMPTY_TOKEN ≤ slot sl t)%Z as Hle by lia. rewrite (Hr t), le_min_token in Hle.
  destruct Hle as [_ Hle]. specialize (Hle x). rewrite tier_tokens_elem in Hle.
  specialize (Hle Hin). apply Hs in Hin. simpl in Hin. lia.
Qed.

Lemma represents_winner sl hits t :
  represents sl hits → small_tokens hits → slot sl t ≠ EMPTY_TOKEN →
  (∀ t', tier_rank t < tier_rank t' → slot sl t' = EMPTY_TOKEN) →
  is_best hits {| tier := t; token := slot sl t |}.
Proof.
  intros Hr Hs Hne Habove. split.
  - apply tier_tokens_elem. rewrite (Hr t) in Hne |- *.
    by destruct (min_token_elem (tier_tokens hits t)).
  - intros [t' x] Hin. destruct (decide (t' = t)) as [->|Hd].
    + assert (slot sl t ≤ x)%Z as Hle.
      { assert (slot sl t ≤ slot sl t)%Z as H by lia. rewrite (Hr t) in H at 2.
        apply le_min_token in H as [_ H]. by apply H, tier_tokens_elem. }
      destruct (decide (x = slot sl t)) as [->|]; [by left|]. right. right. simpl. split; [done|lia].
    + right. left. simpl. destruct (decide (tier_rank t < tier_rank t')) as [Hlt|].
      * exfalso. apply (represents_empty sl hits t' Hr Hs (Habove _ Hlt) _ Hin). done.
      * assert (tier_rank t' ≠ tier_rank t) by (by intros ?%tier_rank_inj). lia.
Qed.

Lemma represents_best sl hits :
  represents sl hits → small_tokens hits → indexed_winner sl = best_of hits.
Proof.
  intros Hr Hs. symmetry. unfold indexed_winner.
  pose proof (fun t => represents_winner sl hits t Hr Hs) as Hw.
  destruct (Z.eqb_spec (slot_important_allow sl) EMPTY_TOKEN) as [E3|E3]; cbn [negb];
    [|apply best_of_spec, (Hw ImportantAllow); [done|intros []; simpl; lia]].
  destruct (Z.eqb_spec (slot_important_deny sl) EMPTY_TOKEN) as [E2|E2]; cbn [negb];
    [|apply best_of_spec, (Hw ImportantDeny); [done|intros []; simpl; lia || done]].
  destruct (Z.eqb_spec (slot_ordinary_allow sl) EMPTY_TOKEN) as [E1|E1]; cbn [negb];
    [|apply best_of_spec, (Hw OrdinaryAllow); [done|intros []; simpl; lia || done]].
  destruct (Z.eqb_spec (slot_ordinary_deny sl) EMPTY_TOKEN) as [E0|E0]; cbn [negb];
    [|apply best_of_spec, (Hw OrdinaryDeny); [done|intros []; simpl; lia || done]].
  apply best_of_None. destruct hits as [|h hits]; [done|].
  pose proof (fun t E => represents_empty sl (h :: hits) t Hr Hs E h ltac:(left)) as Hno.
  destruct (tier h) eqn:T; exfalso; [by apply (Hno OrdinaryDeny)|by apply (Hno OrdinaryAllow)|
    by apply (Hno ImportantDeny)|by apply (Hno ImportantAllow)].
Qed.

(** ** The index as a function *)

Definition slot_of (index : gmap str ExactSlots) (k : str) (t : RuleTier) : Z :=
  match index !! k with
  | Some sl => slot sl t
  | None => EMPTY_TOKEN
  end.

Lemma slot_lower_spec sl h t :
  slot (slot_lower sl h) t = if decide (t = tier h) then Z.min (slot sl t) (token h) else slot sl t.
Proof. destruct h as [[] x], t; unfold slot_lower; simpl; done. Qed.

Lemma slots_min_spec a b t : slot (slots_min a b) t = Z.min (slot a t) (slot b t).
Proof. by destruct t. Qed.

Lemma slot_of_index_rule index d h k t :
  slot_of (index_rule index d h) k t =
  if decide (k = d ∧ t = tier h) then Z.min (slot_of index k t) (token h) else slot_of index k t.
Proof.
  unfold slot_of, index_rule. destruct (decide (k = d)) as [->|Hne].
  - rewrite lookup_insert_eq, slot_lower_spec. destruct (decide (t = tier h)) as [->|].
    + rewrite decide_True by done. by destruct (index !! d) as [sl|]; [|destruct (tier h)].
    + rewrite decide_False by naive_solver. by destruct (index !! d) as [sl|]; [|destruct t].
  - rewrite lookup_insert_ne, decide_False by naive_solver. done.
Qed.

Section Index.
Context {RP : RegexPrograms}.

(** The key and the hit that an indexed rule contributes. *)
Definition indexed_key (s : CompiledRuleStore) (tok : RuleToken) : option (str * RankedHit) :=
  match stored s tok with
  | Some r =>
    match indexed_domain (st_ast r) with
    | Some d => Some (d, {| tier := ast_tier (st_ast r); token := tok |})
    | None => None
    end
  | None => None
  end.

(** The hits that tokens give to a key, and to a name. *)
Definition own_hits (s : CompiledRuleStore) (ts : list RuleToken) (k : str) : list RankedHit :=
  omap (fun tok => match indexed_key s tok with
                   | Some (d, h) => if decide (d = k) then Some h else None
                   | None => None
                   end) ts.

Definition covering_hits (s : CompiledRuleStore) (ts : list RuleToken) (d : str) : list RankedHit :=
  omap (fun tok => match indexed_key s tok with
                   | Some (k, h) => if decide (k ∈ name_chain d) then Some h else None
                   | None => None
                   end) ts.

Lemma own_hits_elem s ts k h :
  h ∈ own_hits s ts k ↔ ∃ tok, tok ∈ ts ∧ indexed_key s tok = Some (k, h).
Proof.
  unfold own_hits. rewrite list_elem_of_omap. apply exist_proper. intros tok.
  apply and_iff_compat_l. destruct (indexed_key s tok) as [[d h']|]; [|done].
  case_decide; naive_solver.
Qed.

Lemma covering_hits_elem s ts d h :
  h ∈ covering_hits s ts d ↔ ∃ k, k ∈ name_chain d ∧ h ∈ own_hits s ts k.
Proof.
  unfold covering_hits. setoid_rewrite own_hits_elem. rewrite list_elem_of_omap. split.
  - intros (tok & Htok & H). destruct (indexed_key s tok) as [[k h']|] eqn:E; [|done].
    case_decide; [|done]. injection H as ->. eauto.
  - intros (k & Hk & tok & Htok & E). exists tok. split; [done|]. rewrite E. by rewrite decide_True.
Qed.

(** The advanced rule of a token. *)
Definition advanced_of (s : CompiledRuleStore) (tok : RuleToken) : option AdvancedRule :=
  match stored s tok with
  | Some r =>
    let hit := {| tier := ast_tier (st_ast r); token := tok |} in
    match ast_pattern (st_ast r) with
    | OExact _ => None
    | OWildcard suffix => Some {| adv_pattern := AdvWildcard suffix; adv_hit := hit |}
    | ORegex _ _ => (fun p => {| adv_pattern := AdvRegex p; adv_hit := hit |}) <$> st_program r
    end
  | None => None
  end.

(** A token the loops can read: its rule exists, with its program if it is a
    regex. *)
Definition readable (s : CompiledRuleStore) (tok : RuleToken) : Prop :=
  ∃ r, stored s tok = Some r
    ∧ (is_regex (ast_pattern (st_ast r)) = true → is_Some (st_program r)).

Record projected (s : CompiledRuleStore) (ts : list RuleToken) (index : gmap str ExactSlots)
    (advanced : list AdvancedRule) (min_len : Z) (index' : gmap str ExactSlots)
    (advanced' : list AdvancedRule) (min_len' : Z) : Prop := {
  pj_slots : ∀ k t, slot_of index' k t = Z.min (slot_of index k t) (min_token (tier_tokens (own_hits s ts k) t));
  pj_keys : ∀ k, is_Some (index' !! k) ↔ is_Some (index !! k) ∨ own_hits s ts k ≠ [];
  pj_advanced : advanced' = advanced ++ omap (advanced_of s) ts;
  pj_len : (min_len' ≤ min_len)%Z ∧ ∀ k, own_hits s ts k ≠ [] → (min_len' ≤ len k)%Z;
}.

Lemma u8_or_max_le n : (u8_or_max n ≤ n)%Z.
Proof. unfold u8_or_max. destruct (Z.leb_spec n U8_MAX); lia. Qed.

Lemma own_hits_cons s tok ts k :
  own_hits s (tok :: ts) k =
  match indexed_key s tok with
  | Some (d, h) => if decide (d = k) then h :: own_hits s ts k else own_hits s ts k
  | None => own_hits s ts k
  end.
Proof. unfold own_hits. csimpl. destruct (indexed_key s tok) as [[d h]|]; [case_decide|]; done. Qed.

Lemma tier_tokens_cons h hits t :
  tier_tokens (h :: hits) t =
  if decide (tier h = t) then token h :: tier_tokens hits t else tier_tokens hits t.
Proof. unfold tier_tokens. rewrite filter_cons. by case_decide. Qed.

(** One indexed rule before the rest of the loop. *)
Lemma projected_indexed s tok ts d h index adv min_len index' adv' min_len' :
  indexed_key s tok = Some (d, h) →
  projected s ts (index_rule index d h) (adv ++ option_list (advanced_of s tok))
    (Z.min min_len (u8_or_max (len d))) index' adv' min_len' →
  projected s (tok :: ts) index adv min_len index' adv' min_len'.
Proof.
  intros E [H1 H2 H3 [H4 H5]]. pose proof (u8_or_max_le (len d)). split.
  - intros k t. rewrite H1, slot_of_index_rule, own_hits_cons, E.
    destruct (decide (d = k)) as [->|Hne].
    + rewrite tier_tokens_cons. destruct (decide (tier h = t)) as [<-|Ht].
      * rewrite decide_True by done. unfold min_token at 2. cbn [foldr]. fold (min_token (tier_tokens (own_hits s ts k) (tier h))). lia.
      * by rewrite decide_False by naive_solver.
    + by rewrite decide_False by naive_solver.
  - intros k. rewrite H2, own_hits_cons, E. unfold index_rule. destruct (decide (d = k)) as [->|Hne].
    + rewrite lookup_insert_eq. split; [by right|]. intros _. left. eauto.
    + by rewrite lookup_insert_ne.
  - rewrite H3, <-app_assoc. csimpl. by destruct (advanced_of s tok).
  - split; [lia|]. intros k. rewrite own_hits_cons, E. case_decide as Hd; [|apply H5].
    subst d. intros _. lia.
Qed.

Lemma projected_plain s tok ts index adv min_len index' adv' min_len' :
  indexed_key s tok = None →
  projected s ts index (adv ++ option_list (advanced_of s tok)) min_len index' adv' min_len' →
  projected s (tok :: ts) index adv min_len index' adv' min_len'.
Proof.
  intros E [H1 H2 H3 H4]. split.
  - intros k t. by rewrite H1, own_hits_cons, E.
  - intros k. by rewrite H2, own_hits_cons, E.
  - rewrite H3, <-app_assoc. csimpl. by destruct (advanced_of s tok).
  - split; [apply H4|]. intros k. rewrite own_hits_cons, E. apply H4.
Qed.

Lemma projected_nil s index adv min_len :
  (∀ k t, (slot_of index k t ≤ EMPTY_TOKEN)%Z) → projected s [] index adv min_len index adv min_len.
Proof.
  intros Hle. split.
  - intros k t. specialize (Hle k t). change (min_token _) with EMPTY_TOKEN. lia.
  - naive_solver.
  - by rewrite app_nil_r.
  - done.
Qed.

Lemma slot_of_index_rule_le index d h :
  (∀ k t, (slot_of index k t ≤ EMPTY_TOKEN)%Z) →
  ∀ k t, (slot_of (index_rule index d h) k t ≤ EMPTY_TOKEN)%Z.
Proof. intros H k t. rewrite slot_of_index_rule. specialize (H k t). case_decide; lia. Qed.

(** The first loop never panics on readable tokens, and computes [projected]. *)
Lemma project_tokens_spec s ts index adv min_len :
  Forall (readable s) ts → (∀ k t, (slot_of index k t ≤ EMPTY_TOKEN)%Z) →
  ∃ index' adv' min_len',
    project_tokens s ts index adv min_len = Some (index', adv', min_len')
    ∧ projected s ts index adv min_len index' adv' min_len'.
Proof.
  revert index adv min_len. induction ts as [|tok ts IH]; intros index adv min_len Hr Hle.
  { exists index, adv, min_len. split; [done|]. by apply projected_nil. }
  apply Forall_cons in Hr as [(r & Hst & Hprog) Hr]. cbn [project_tokens]. rewrite Hst.
  set (h := {| tier := ast_tier (st_ast r); token := tok |}).
  assert (∀ adv0, ∃ index' adv' min_len',
    (let '(index, min_len) :=
       match indexed_domain (st_ast r) with
       | Some domain => (index_rule index domain h, Z.min min_len (u8_or_max (len domain)))
       | None => (index, min_len)
       end in project_tokens s ts index adv0 min_len) = Some (index', adv', min_len')
    ∧ (adv0 = adv ++ option_list (advanced_of s tok) →
       projected s (tok :: ts) index adv min_len index' adv' min_len')) as Hgo.
  { intros adv0. destruct (indexed_domain (st_ast r)) as [d|] eqn:Ed.
    - destruct (IH (index_rule index d h) adv0 (Z.min min_len (u8_or_max (len d))) Hr
        (slot_of_index_rule_le _ _ _ Hle)) as (i' & a' & m' & Heq & Hp).
      exists i', a', m'. split; [done|]. intros ->. apply (projected_indexed _ _ _ d h); [|done].
      unfold indexed_key. by rewrite Hst, Ed.
    - destruct (IH index adv0 min_len Hr Hle) as (i' & a' & m' & Heq & Hp).
      exists i', a', m'. split; [done|]. intros ->. apply projected_plain; [|done].
      unfold indexed_key. by rewrite Hst, Ed. }
  unfold advanced_of in Hgo. rewrite Hst in Hgo. fold h in Hgo.
  destruct (indexed_domain (st_ast r)) as [d|];
    (destruct (ast_pattern (st_ast r)) as [e|sfx|src ci];
     [destruct (Hgo adv) as (i' & a' & m' & Heq & Hp)
     |destruct (Hgo (adv ++ [{| adv_pattern := AdvWildcard sfx; adv_hit := h |}])) as (i' & a' & m' & Heq & Hp)
     |destruct (Hprog eq_refl) as [p Hp0]; rewrite Hp0 in Hgo |- *;
      destruct (Hgo (adv ++ [{| adv_pattern := AdvRegex p; adv_hit := h |}])) as (i' & a' & m' & Heq & Hp)];
     exists i', a', m'; (split; [exact Heq|apply Hp; simpl; by rewrite ?app_nil_r])).
Qed.

(** ** Folding the ancestors in *)

(** The least token a key reaches through its chain. *)
Definition chain_slot (index : gmap str ExactSlots) (k : str) (t : RuleTier) : Z :=
  min_token (map (fun k' => slot_of index k' t) (name_chain k)).

Lemma le_chain_slot index k t v :
  (v ≤ chain_slot index k t)%Z ↔
  (v ≤ EMPTY_TOKEN)%Z ∧ ∀ k', k' ∈ name_chain k → (v ≤ slot_of index k' t)%Z.
Proof.
  unfold chain_slot. rewrite le_min_token. apply and_iff_compat_l. split.
  - intros H k' Hk. apply H, list_elem_of_In, in_map_iff. exists k'. by rewrite <-list_elem_of_In.
  - intros H x Hx. apply list_elem_of_In, in_map_iff in Hx as (k' & <- & Hk).
    by apply H, list_elem_of_In.
Qed.

Lemma ancestor_fold index sfx acc t :
  slot (fold_left (fun acc suffix =>
          match index !! suffix with Some slots => slots_min acc slots | None => acc end) sfx acc) t
  = foldr Z.min (slot acc t) (map (fun k => slot_of index k t) (filter (fun k => is_Some (index !! k)) sfx)).
Proof.
  revert acc; induction sfx as [|x sfx IH]; intros acc; [done|]. cbn [fold_left].
  rewrite IH, filter_cons. destruct (index !! x) as [sl|] eqn:E.
  - rewrite decide_True by eauto. rewrite slots_min_spec. cbn [map foldr].
    assert (slot_of index x t = slot sl t) as -> by (unfold slot_of; by rewrite E). generalize (map (fun k => slot_of index k t)
      (filter (fun k => is_Some (index !! k)) sfx)) as l. clear.
    induction l as [|y l IH]; cbn [foldr]; lia.
  - rewrite decide_False; [done|]. by intros [? ?].
Qed.

Lemma le_ancestor_winners index d t v :
  (v ≤ slot (ancestor_winners index d) t)%Z ↔
  (v ≤ EMPTY_TOKEN)%Z ∧ ∀ k', k' ∈ after_dots d → (v ≤ slot_of index k' t)%Z.
Proof.
  unfold ancestor_winners. rewrite ancestor_fold.
  assert (slot empty_slots t = EMPTY_TOKEN) as -> by (by destruct t).
  rewrite (le_min_token v). split; intros [Hv H]; (split; [done|]).
  - intros k' Hk. destruct (index !! k') as [sl|] eqn:E; [|by unfold slot_of; rewrite E].
    apply H, list_elem_of_In, in_map_iff. exists k'. split; [done|].
    apply list_elem_of_In, list_elem_of_filter. rewrite E. split; [by exists sl|done].
  - intros x Hx. apply list_elem_of_In, in_map_iff in Hx as (k' & <- & Hk).
    apply list_elem_of_In, list_elem_of_filter in Hk as [_ Hk]. auto.
Qed.

(** Between the two loops' results: no slot above its own, none below its
    chain's. *)
Record between (index0 index : gmap str ExactSlots) : Prop := {
  bt_keys : ∀ k, is_Some (index !! k) ↔ is_Some (index0 !! k);
  bt_low : ∀ k t, (chain_slot index0 k t ≤ slot_of index k t)%Z;
  bt_high : ∀ k t, (slot_of index k t ≤ slot_of index0 k t)%Z;
}.

Lemma chain_slot_ancestor index k a t :
  a ∈ after_dots k → (chain_slot index k t ≤ chain_slot index a t)%Z.
Proof.
  intros Ha. rewrite le_chain_slot. assert (chain_slot index k t ≤ chain_slot index k t)%Z as H by lia.
  apply le_chain_slot in H as [H1 H2]. split; [done|]. intros k' Hk. apply H2. right.
  apply elem_of_cons in Hk as [->|Hk]; [done|]. by eapply after_dots_trans.
Qed.

Lemma chain_slot_le index k t : (chain_slot index k t ≤ slot_of index k t)%Z.
Proof.
  assert (chain_slot index k t ≤ chain_slot index k t)%Z as H by lia.
  apply le_chain_slot in H as [_ H]. apply H. left.
Qed.

Lemma slot_of_insert index k sl k' t :
  slot_of (<[k := sl]> index) k' t = if decide (k' = k) then slot sl t else slot_of index k' t.
Proof.
  unfold slot_of. case_decide as E.
  - subst. by rewrite lookup_insert_eq.
  - by rewrite lookup_insert_ne.
Qed.

(** Processing one key makes its slots final, and keeps the invariant. *)
Lemma fold_one index0 index k sl :
  (∀ k t, (slot_of index0 k t ≤ EMPTY_TOKEN)%Z) →
  between index0 index → index !! k = Some sl →
  let index' := <[k := slots_min sl (ancestor_winners index k)]> index in
  between index0 index' ∧ (∀ t, slot_of index' k t = chain_slot index0 k t)
  ∧ ∀ k' t, slot_of index k' t = chain_slot index0 k' t → slot_of index' k' t = chain_slot index0 k' t.
Proof.
  intros Hle0 [Hk Hlo Hhi] Hsl. cbv zeta.
  assert (∀ t, slot (slots_min sl (ancestor_winners index k)) t = chain_slot index0 k t) as Hfin.
  { intros t. rewrite slots_min_spec.
    assert (slot sl t = slot_of index k t) as -> by (unfold slot_of; by rewrite Hsl).
    apply Z.le_antisymm.
    - destruct (proj1 (le_ancestor_winners index k t _) (Z.le_refl _)) as [Hm Hanc].
      apply le_chain_slot. split; [lia|].
      intros k' [->|Hk']%elem_of_cons; [pose proof (Hhi k t); lia|].
      pose proof (Hanc k' Hk'). pose proof (Hhi k' t). lia.
    - destruct (proj1 (le_chain_slot index0 k t _) (Z.le_refl _)) as [Hm _].
      apply Z.min_glb; [apply Hlo|]. apply le_ancestor_winners. split; [done|]. intros a Ha.
      pose proof (chain_slot_ancestor index0 k a t Ha). pose proof (Hlo a t). lia. }
  split_and!.
  - split.
    + intros k'. destruct (decide (k' = k)) as [->|]; [|by rewrite lookup_insert_ne].
      rewrite lookup_insert_eq, <-Hk, Hsl. split; eauto.
    + intros k' t. rewrite slot_of_insert. case_decide as E; [|apply Hlo]. subst. rewrite Hfin. lia.
    + intros k' t. rewrite slot_of_insert. case_decide as E; [|apply Hhi]. subst. rewrite Hfin.
      apply chain_slot_le.
  - intros t. rewrite slot_of_insert, decide_True by done. apply Hfin.
  - intros k' t H. rewrite slot_of_insert. case_decide as E; [|done]. by subst.
Qed.

Lemma fold_ancestors_spec s ts index0 index :
  Forall (readable s) ts → (∀ k t, (slot_of index0 k t ≤ EMPTY_TOKEN)%Z) →
  between index0 index → (∀ k, own_hits s ts k ≠ [] → is_Some (index0 !! k)) →
  ∃ index', fold_ancestors s ts index = Some index' ∧ between index0 index'
    ∧ (∀ k t, own_hits s ts k ≠ [] → slot_of index' k t = chain_slot index0 k t)
    ∧ (∀ k t, slot_of index k t = chain_slot index0 k t → slot_of index' k t = chain_slot index0 k t).
Proof.
  revert index. induction ts as [|tok ts IH]; intros index Hr Hle Hb Hkeys.
  { exists index. done. }
  apply Forall_cons in Hr as [(r & Hst & _) Hr]. cbn [fold_ancestors]. rewrite Hst.
  assert (∀ k, own_hits s ts k ≠ [] → own_hits s (tok :: ts) k ≠ []) as Hsub.
  { intros k. rewrite own_hits_cons. destruct (indexed_key s tok) as [[d h]|]; [|done].
    by case_decide. }
  destruct (indexed_domain (st_ast r)) as [d|] eqn:Ed.
  2:{ destruct (IH index) as (i' & E & Hb' & H1 & H2); auto. exists i'. split_and!; auto.
      intros k t. rewrite own_hits_cons. unfold indexed_key. rewrite Hst, Ed. apply H1. }
  assert (indexed_key s tok = Some (d, {| tier := ast_tier (st_ast r); token := tok |})) as Ek
    by (unfold indexed_key; by rewrite Hst, Ed).
  destruct (proj2 (bt_keys _ _ Hb d)) as [sl Hsl].
  { apply Hkeys. rewrite own_hits_cons, Ek. by rewrite decide_True. }
  rewrite Hsl. destruct (fold_one index0 index d sl Hle Hb Hsl) as (Hb' & Hd & Hkeep).
  destruct (IH _ Hr Hle Hb') as (i' & E & Hb'' & H1 & H2); [auto|]. exists i'.
  split_and!; [done|done| |auto]. intros k t. rewrite own_hits_cons, Ek.
  case_decide as E'; [|apply H1]. subst d. intros _. apply H2, Hd.
Qed.

(** ** Lookup *)

Lemma walk_index_spec index min_len l :
  StronglySorted (fun a b => length b < length a) l →
  (∀ k, is_Some (index !! k) → (min_len ≤ len k)%Z) →
  (∃ l1 k l2 sl, l = l1 ++ k :: l2 ∧ Forall (fun x => index !! x = None) l1
     ∧ index !! k = Some sl ∧ walk_index index min_len l = indexed_winner sl)
  ∨ (Forall (fun x => index !! x = None) l ∧ walk_index index min_len l = None).
Proof.
  intros Hs Hmin. induction l as [|x l IH]; cbn [walk_index]; [by right|].
  apply StronglySorted_cons in Hs as [Hf Hs].
  destruct (Z.ltb_spec (len x) min_len) as [Hlt|Hge].
  - right. split; [|done]. rewrite Forall_forall in Hf. apply Forall_forall. intros y Hy.
    destruct (index !! y) eqn:E; [|done]. specialize (Hmin y ltac:(by rewrite E)).
    apply elem_of_cons in Hy as [->|Hy]; [lia|]. apply Hf in Hy. lia.
  - destruct (index !! x) as [sl|] eqn:E.
    + left. by exists [], x, l, sl.
    + destruct (IH Hs) as [(l1 & k & l2 & sl & -> & H1 & H2 & H3)|[H1 H2]].
      * left. exists (x :: l1), k, l2, sl. split_and!; [done|by constructor|done|done].
      * right. split; [by constructor|done].
Qed.

(** The slots of a key, once final, hold the winners of its whole chain. *)
Lemma key_slots_best s ts index0 index k sl :
  (∀ k t, slot_of index0 k t = min_token (tier_tokens (own_hits s ts k) t)) →
  (∀ t, slot_of index k t = chain_slot index0 k t) →
  Forall (fun tok => (tok < EMPTY_TOKEN)%Z) ts → index !! k = Some sl →
  indexed_winner sl = best_of (covering_hits s ts k).
Proof.
  intros Hslots Hfin Hsmall Hk. apply represents_best.
  - intros t. assert (slot sl t = slot_of index k t) as -> by (unfold slot_of; by rewrite Hk).
    rewrite Hfin. apply eq_by_lower. intros v.
    rewrite le_chain_slot, le_min_token. split; intros [Hv H]; (split; [done|]).
    + intros x Hx. apply tier_tokens_elem, covering_hits_elem in Hx as (k' & Hk' & Hx).
      specialize (H k' Hk'). rewrite Hslots, le_min_token in H. by apply H, tier_tokens_elem.
    + intros k' Hk'. rewrite Hslots, le_min_token. split; [done|].
      intros x Hx. apply H, tier_tokens_elem, covering_hits_elem. exists k'.
      split; [done|]. by apply tier_tokens_elem.
  - intros h Hh. apply covering_hits_elem in Hh as (k' & _ & Hh).
    apply own_hits_elem in Hh as (tok & Htok & E). rewrite Forall_forall in Hsmall.
    unfold indexed_key in E. destruct (stored s tok); [|done].
    destruct (indexed_domain _); [|done]. injection E as _ <-. simpl. by apply Hsmall.
Qed.

(** Of the chain of a name, only the part from the first key on can hit. *)
Lemma covering_first s ts d k l1 l2 :
  name_chain d = l1 ++ k :: l2 → Forall (fun x => own_hits s ts x = []) l1 →
  best_of (covering_hits s ts k) = best_of (covering_hits s ts d).
Proof.
  intros Hd Hnone. apply best_of_equiv. intros h. rewrite !covering_hits_elem.
  assert (k ∈ name_chain d) as Hkd by (rewrite Hd; set_solver).
  split; intros (k' & Hk' & Hh); (exists k'; split; [|done]).
  - apply elem_of_cons in Hkd as [->|Hkd]; [done|]. right.
    apply elem_of_cons in Hk' as [->|Hk']; [done|]. by eapply after_dots_trans.
  - rewrite Hd in Hk'. apply elem_of_app in Hk' as [Hk'|Hk'].
    { rewrite Forall_forall in Hnone. apply Hnone in Hk'. rewrite Hk' in Hh.
      by apply not_elem_of_nil in Hh. }
    apply elem_of_cons in Hk' as [->|Hk']; [left|].
    pose proof (name_chain_sorted d) as Hs. rewrite Hd in Hs.
    apply StronglySorted_app_1_r, StronglySorted_cons in Hs as [Hf _].
    rewrite Forall_forall in Hf. specialize (Hf _ Hk').
    assert (k' ∈ name_chain d) as Hkd' by (rewrite Hd; set_solver).
    apply elem_of_cons in Hkd as [->|Hkd]; [done|].
    destruct (after_dots_split d k Hkd) as (bf & E & Hb).
    apply elem_of_cons in Hkd' as [->|Hkd']; [apply after_dots_length in Hkd; lia|].
    rewrite E in Hkd'. apply elem_of_app in Hkd' as [Hin|Hin]; [|done].
    rewrite Forall_forall in Hb. apply Hb in Hin. lia.
Qed.

Lemma covering_none s ts d :
  Forall (fun x => own_hits s ts x = []) (name_chain d) → covering_hits s ts d = [].
Proof.
  intros Hn. destruct (covering_hits s ts d) as [|h hs] eqn:E; [done|].
  assert (h ∈ covering_hits s ts d) as Hh by (rewrite E; left).
  apply covering_hits_elem in Hh as (k & Hk & Hh). rewrite Forall_forall in Hn.
  rewrite (Hn _ Hk) in Hh. by apply not_elem_of_nil in Hh.
Qed.

(** The index alone: the best of the indexed rules whose domain is the name or
    one of its ancestors. *)
Lemma index_hit_spec s ts index0 index min_len d :
  projected s ts ∅ [] U8_MAX index0 (omap (advanced_of s) ts) min_len →
  between index0 index →
  (∀ k t, own_hits s ts k ≠ [] → slot_of index k t = chain_slot index0 k t) →
  Forall (fun tok => (tok < EMPTY_TOKEN)%Z) ts →
  index_hit index min_len d = best_of (covering_hits s ts d).
Proof.
  intros [Hslots Hkeys _ [_ Hlen]] [Hbk _ _] Hfin Hsmall.
  assert (∀ k, is_Some (index !! k) ↔ own_hits s ts k ≠ []) as Hown.
  { intros k. rewrite Hbk, Hkeys, lookup_empty. split; [by intros [[? ?]|?]|by right]. }
  assert (∀ k, index !! k = None ↔ own_hits s ts k = []) as Hno.
  { intros k. rewrite eq_None_not_Some, Hown. destruct (own_hits s ts k); [tauto|naive_solver]. }
  assert (∀ k t, slot_of index0 k t = min_token (tier_tokens (own_hits s ts k) t)) as Hs0.
  { intros k t. rewrite Hslots. change (slot_of ∅ k t) with EMPTY_TOKEN.
    destruct (proj1 (le_min_token _ (tier_tokens (own_hits s ts k) t)) (Z.le_refl _)). lia. }
  assert (∀ k sl, index !! k = Some sl → indexed_winner sl = best_of (covering_hits s ts k)) as Hwin.
  { intros k sl Hk. apply (key_slots_best s ts index0 index); auto. intros t. apply Hfin, Hown.
    by exists sl. }
  assert (∀ l, Forall (fun x => index !! x = None) l → Forall (fun x => own_hits s ts x = []) l) as Hf.
  { intros l Hl. eapply Forall_impl; [exact Hl|]. intros x. apply Hno. }
  unfold index_hit. case_decide as Hi.
  { subst index. rewrite covering_none; [done|]. apply Hf, Forall_true. intros x. apply lookup_empty. }
  destruct (index !! d) as [sl|] eqn:Ed; [rewrite (Hwin _ _ Ed); by apply (covering_first _ _ _ _ [] (after_dots d))|].
  pose proof (name_chain_sorted d) as Hs. apply StronglySorted_cons in Hs as [_ Hs].
  destruct (walk_index_spec index min_len (after_dots d) Hs)
    as [(l1 & k & l2 & sl & Hl & H1 & H2 & ->)|[Hn ->]].
  - intros k Hk. apply Hlen. by apply Hown.
  - rewrite (Hwin _ _ H2). apply (covering_first _ _ _ _ (d :: l1) l2); [unfold name_chain; by rewrite Hl|].
    apply Hf. by constructor.
  - rewrite covering_none; [done|]. apply Hf. by constructor.
Qed.

(** The advanced list adds the best of its matching rules. *)
Lemma advanced_hits_spec rules d hits :
  advanced_hits rules d (best_of hits) =
  best_of (hits ++ (adv_hit <$> filter (fun r => advanced_matches (adv_pattern r) d = true) rules)).
Proof.
  revert hits; induction rules as [|r rules IH]; intros hits; cbn [advanced_hits].
  { by rewrite app_nil_r. }
  rewrite filter_cons, <-best_of_snoc.
  destruct (decide (advanced_matches (adv_pattern r) d = true)) as [Hm|Hm].
  - specialize (IH (hits ++ [adv_hit r])). rewrite <-app_assoc in IH. cbn [app] in IH.
    rewrite fmap_cons, <-IH, Hm. case_decide as E; [|done]. by rewrite E.
  - apply not_true_is_false in Hm. rewrite Hm. case_decide; apply IH.
Qed.

(** The hits of the mounted rules that match a name. *)
Definition matching_hits (s : CompiledRuleStore) (ts : list RuleToken) (d : str) : list RankedHit :=
  omap (fun tok =>
    match stored s tok with
    | Some r => match match_projection r d with
                | Some _ => Some {| tier := ast_tier (st_ast r); token := tok |}
                | None => None
                end
    | None => None
    end) ts.

Lemma explain_hits p d : (explain p d).*1 = matching_hits (cp_store p) (cp_mounted p) d.
Proof.
  unfold explain, matching_hits. induction (cp_mounted p) as [|tok ts IH]; [done|]. csimpl.
  destruct (stored (cp_store p) tok) as [r|]; [|done].
  destruct (match_projection r d); csimpl; by rewrite IH.
Qed.

(** A token hits through the index or the advanced list exactly when its rule
    matches. *)
Lemma token_matches s tok d h :
  readable s tok →
  (h ∈ covering_hits s [tok] d
   ∨ h ∈ adv_hit <$> filter (fun r => advanced_matches (adv_pattern r) d = true) (omap (advanced_of s) [tok]))
  ↔ h ∈ matching_hits s [tok] d.
Proof.
  intros (r & Hst & Hprog). unfold covering_hits, matching_hits, indexed_key, advanced_of. csimpl.
  rewrite Hst. unfold match_projection, indexed_domain.
  assert (∀ sfx, sfx ∈ name_chain d ↔ str_eqb d sfx || descendant d sfx = true) as Hchain.
  { intros sfx. unfold name_chain, str_eqb.
    rewrite elem_of_cons, orb_true_iff, bool_decide_eq_true, descendant_spec. naive_solver. }
  destruct (ast_pattern (st_ast r)) as [sfx|sfx|src ci].
  - csimpl. destruct (decide (sfx ∈ name_chain d)) as [Hc|Hc]; rewrite Hchain in Hc.
    + rewrite Hc. set_solver.
    + apply not_true_is_false in Hc. rewrite Hc. set_solver.
  - csimpl. rewrite filter_cons, filter_nil. simpl.
    destruct (ast_noapex (st_ast r)); cbn [negb]; rewrite ?andb_false_r, ?andb_true_r.
    + destruct (descendant d sfx); simpl; set_solver.
    + destruct (decide (sfx ∈ name_chain d)) as [Hc|Hc]; rewrite Hchain in Hc.
      * destruct (str_eqb d sfx), (descendant d sfx); simpl in *; try done; set_solver.
      * destruct (str_eqb d sfx), (descendant d sfx); simpl in *; try done; set_solver.
  - destruct (Hprog eq_refl) as [p ->]. csimpl. rewrite filter_cons, filter_nil. simpl.
    destruct (program_is_match p d); simpl; set_solver.
Qed.

Lemma omap_elem_single {A B} (f : A → option B) (ts : list A) h :
  h ∈ omap f ts ↔ ∃ tok, tok ∈ ts ∧ h ∈ omap f [tok].
Proof.
  rewrite list_elem_of_omap. apply exist_proper. intros tok. apply and_iff_compat_l. csimpl.
  destruct (f tok); set_solver.
Qed.

Lemma tokens_match s ts d h :
  Forall (readable s) ts →
  (h ∈ covering_hits s ts d
   ∨ h ∈ adv_hit <$> filter (fun r => advanced_matches (adv_pattern r) d = true) (omap (advanced_of s) ts))
  ↔ h ∈ matching_hits s ts d.
Proof.
  rewrite Forall_forall. intros Hr.
  assert (∀ l : list RuleToken, h ∈ adv_hit <$> filter (fun r => advanced_matches (adv_pattern r) d = true)
      (omap (advanced_of s) l) ↔
    ∃ tok, tok ∈ l ∧ h ∈ adv_hit <$> filter (fun r => advanced_matches (adv_pattern r) d = true)
      (omap (advanced_of s) [tok])) as Hadv.
  { intros l. setoid_rewrite list_elem_of_fmap. setoid_rewrite list_elem_of_filter.
    setoid_rewrite (omap_elem_single _ l). naive_solver. }
  rewrite Hadv. unfold covering_hits, matching_hits. rewrite !(omap_elem_single _ ts). split.
  - intros [(tok & Hin & Hh)|(tok & Hin & Hh)]; exists tok; (split; [done|]);
      (apply token_matches; [by apply Hr|]); [by left|by right].
  - intros (tok & Hin & Hh). apply token_matches in Hh as [Hh|Hh]; [left|right|by apply Hr]; eauto.
Qed.

(** A profile built from readable tokens: it exists, and its lookup is the
    best of the matching mounted rules. *)
Lemma build_profile_spec s plan :
  Forall (readable s) (plan_tokens plan) →
  Forall (fun tok => (tok < EMPTY_TOKEN)%Z) (plan_tokens plan) →
  ∃ p, build_profile s plan = Some p ∧ cp_store p = s ∧ cp_mounted p = plan_tokens plan
    ∧ cp_block_all p = plan_block_all plan
    ∧ ∀ d, lookup_hit p d = best_of (explain p d).*1.
Proof.
  intros Hr Hsmall. set (ts := plan_tokens plan) in *.
  destruct (project_tokens_spec s ts ∅ [] U8_MAX Hr) as (i0 & adv & ml & E1 & Hp).
  { intros k t. change (slot_of ∅ k t) with EMPTY_TOKEN. lia. }
  assert (adv = omap (advanced_of s) ts) as -> by (by rewrite (pj_advanced _ _ _ _ _ _ _ _ Hp)).
  assert (∀ k t, (slot_of i0 k t ≤ EMPTY_TOKEN)%Z) as Hle.
  { intros k t. rewrite (pj_slots _ _ _ _ _ _ _ _ Hp). change (slot_of ∅ k t) with EMPTY_TOKEN. lia. }
  assert (between i0 i0) as Hb.
  { split; [done|apply chain_slot_le|done]. }
  destruct (fold_ancestors_spec s ts i0 i0 Hr Hle Hb) as (i' & E2 & Hb' & Hfin & _).
  { intros k Hk. apply (pj_keys _ _ _ _ _ _ _ _ Hp). by right. }
  unfold build_profile. fold ts. rewrite E1, E2. eexists. split_and!; [done..|].
  intros d. unfold lookup_hit. rewrite explain_hits. simpl.
  rewrite (index_hit_spec s ts i0), advanced_hits_spec by done.
  apply best_of_equiv. intros h. rewrite elem_of_app. by apply tokens_match.
Qed.

(** C14: the compiled profile answers like the exhaustive explanation: for
    every name, the index with its ancestor folding, its length cut-off and
    its early exits, followed by the advanced list with its skipped matches,
    finds the rule of highest tier, and of lowest token within that tier,
    among all the mounted rules that match; building it never panics when each
    mounted token names a stored rule that carries its program. *)
Theorem lookup_hit_is_best s plan :
  Forall (readable s) (plan_tokens plan) →
  Forall (fun tok => (tok < EMPTY_TOKEN)%Z) (plan_tokens plan) →
  ∃ p, build_profile s plan = Some p
    ∧ ∀ d, match lookup_hit p d with
           | Some h => is_best (explain p d).*1 h
           | None => explain p d = []
           end.
Proof.
  intros Hr Hsmall. destruct (build_profile_spec s plan Hr Hsmall) as (p & E & _ & _ & _ & Hl).
  exists p. split; [done|]. intros d. specialize (Hl d).
  destruct (lookup_hit p d) as [h|].
  - by apply best_of_spec.
  - symmetry in Hl. apply best_of_None in Hl. by apply fmap_nil_inv in Hl.
Qed.
End Index.

(** Programs that match when they occur in the name. *)
Definition literal_programs : RegexPrograms :=
  {| program := str;
     program_compile := fun source _ _ => Ok source;
     program_is_match := substring |}.

Definition sample_rule (a : OperatorRuleAst) (list_id : str) (p : option str)
  : @StoredRule literal_programs :=
  @Build_StoredRule literal_programs a
    {| origin_list_id := list_id; origin_rule_key := []; origin_pack_revision := [];
       origin_source_rows := [] |} p.

(** Three rules: a deny for a domain, an important allow for its subdomains,
    and a regex. *)
Definition sample_store : @CompiledRuleStore literal_programs :=
  @Build_CompiledRuleStore literal_programs
    [sample_rule {| ast_pattern := OExact (lit "ads.test"); ast_tier := OrdinaryDeny; ast_noapex := false |}
       (lit "a") None;
     sample_rule {| ast_pattern := OWildcard (lit "ok.ads.test"); ast_tier := ImportantAllow; ast_noapex := false |}
       (lit "a") None;
     sample_rule {| ast_pattern := ORegex (lit "track") true; ast_tier := OrdinaryDeny; ast_noapex := false |}
       (lit "b") (Some (lit "track"))] [].

Definition sample_plan : ProfilePlan :=
  {| plan_id := lit "p"; plan_tokens := [0; 1; 2]%Z; plan_counts := no_counts;
     plan_compiled_bytes := 0; plan_owned_bytes := 0; plan_block_all := false |}.

Lemma lookup_hit_is_best_witness :
  ∃ p, @build_profile literal_programs sample_store sample_plan = Some p
    ∧ lookup_hit p (lit "x.ok.ads.test") = Some {| tier := ImportantAllow; token := 1%Z |}
    ∧ ∀ d, match lookup_hit p d with
           | Some h => is_best (explain p d).*1 h
           | None => explain p d = []
           end.
Proof.
  destruct (@lookup_hit_is_best literal_programs sample_store sample_plan) as (p & E & Hp).
  - repeat constructor; by (eexists; split; [reflexivity|]; eauto).
  - by repeat constructor.
  - exists p. split_and!; [done| |done].
    assert ((@build_profile literal_programs sample_store sample_plan ≫= fun p =>
      lookup_hit p (lit "x.ok.ads.test")) = Some {| tier := ImportantAllow; token := 1%Z |}) as H
      by (vm_compute; reflexivity).
    by rewrite E in H.
Defined.
