(* ===== verification/CompilerStore.v ===== *)
(** * Correctness of the whole compilation

    From the text of the packs to the verdict of a profile: what the store
    holds, what a plan mounts, which program a rule carries, and that a
    compiled profile decides every name as the rows of its lists do. *)

From S2P Require Import Prelude RustStr SortedSlice DnsTypes Domain Rules Decision Limits Admission Ast Compiler CompilerIndex.

(** ** What the rows of a pack say *)

Definition row_ast (raw : str) : option OperatorRuleAst :=
  let text := row_text raw in
  if is_rule text then ok (parse_rule_ast text) else None.

Definition content_asts (content : str) : list OperatorRuleAst :=
  omap row_ast (split_inclusive NL content).

Section Store.
Context {SHA : Sha2Crate} {RP : RegexPrograms}.

(** The entries built from the rules read so far. *)
Record entries_ok (entries : entries_map) (seen : list OperatorRuleAst) : Prop := {
  eo_ascending : ascending entries;
  eo_sound : ∀ key a rows, (key, (a, rows)) ∈ entries → key = rule_key a ∧ a ∈ seen;
  eo_complete : ∀ a, a ∈ seen → rule_key a ∈ entries.*1;
}.

Lemma add_occurrence_ok entries seen a occ :
  entries_ok entries seen → entries_ok (add_occurrence a occ entries) (seen ++ [a]).
Proof.
  intros [Hs H1 H2]. unfold add_occurrence. split.
  - by apply bt_alter_ascending.
  - intros key a' rows Hin. apply bt_alter_elem in Hin; [|done]. case_decide as E.
    + subst key. destruct (bt_get (rule_key a) entries) as [[a0 rows0]|] eqn:G; simpl in Hin.
      * injection Hin as -> _. apply bt_get_elem in G. apply H1 in G as [G1 G2]. set_solver.
      * injection Hin as -> _. set_solver.
    + apply H1 in Hin. set_solver.
  - intros a' Hin. apply bt_alter_keys. apply elem_of_app in Hin as [Hin|Hin].
    + right. by apply H2.
    + apply list_elem_of_singleton in Hin as ->. by left.
Qed.

Lemma parse_rows_ok list_id raws index offset rr entries seen entries' rr' :
  parse_rows list_id raws index offset rr entries = Ok (entries', rr') →
  entries_ok entries seen → entries_ok entries' (seen ++ omap row_ast raws).
Proof.
  revert index offset rr entries seen.
  induction raws as [|raw raws IH]; intros index offset rr entries seen H Hok; cbn [parse_rows] in H.
  { injection H as <- _. csimpl. by rewrite app_nil_r. }
  csimpl. unfold row_ast at 1. destruct (is_rule (row_text raw)).
  - inv_bind. destruct (parse_rule_ast (row_text raw)) as [ast|] eqn:E; [|done].
    cbn [map_err] in *. inv_result. simpl. rewrite cons_middle, app_assoc.
    eapply IH; [done|]. by apply add_occurrence_ok.
  - inv_bind. by eapply IH.
Qed.

(** ** Numbering *)

Definition stored_entry (list_id revision : str) (e : str * (OperatorRuleAst * list SourceRow))
  : StoredRule :=
  {| st_ast := e.2.1;
     st_origin := {| origin_list_id := list_id; origin_rule_key := e.1;
                     origin_pack_revision := revision; origin_source_rows := e.2.2 |};
     st_program := None |}.

(** Each rule is counted in one projection at least, and the counts are
    within the limits. *)
Definition counted (l : RuleCompileLimits) (rules : list StoredRule) (c : CompiledCostV1) : Prop :=
  (len rules ≤ indexed (store_counts c) + advanced (store_counts c))%Z
  ∧ (0 < len rules → len rules ≤ max_store_indexed_rules l + max_store_advanced_rules l)%Z
  ∧ (0 ≤ store_bytes c)%Z ∧ (0 ≤ profile_owned_bytes_total c)%Z.

Definition cost_wf (c : CompiledCostV1) : Prop :=
  (0 ≤ store_bytes c)%Z ∧ (0 ≤ profile_owned_bytes_total c)%Z ∧ (0 ≤ snapshot_bytes c)%Z.

Lemma add_times_nonneg n total b t :
  add_times n total b = Ok t → (0 ≤ total)%Z → (∀ x, b = Ok x → (0 ≤ x)%Z) → (0 ≤ t)%Z.
Proof.
  intros H Ht Hb. revert total H Ht. induction n as [|n IH]; intros total H Ht; cbn [add_times] in H.
  { by injection H as <-. }
  inv_bind. apply add_Ok in Ha0 as [-> _]. apply Hb in Ha as Hx. apply IH in H; lia.
Qed.

Lemma projection_bytes_nonneg a b : projection_bytes a = Ok b → (0 ≤ b)%Z.
Proof.
  unfold projection_bytes. intros H. inv_bind.
  assert (0 ≤ a0)%Z.
  { destruct (indexed_domain a); [|by injection Ha as <-]. apply indexed_bytes_nonneg in Ha; lia. }
  destruct (negb _); [|by injection H as <-]. inv_bind. apply add_Ok in H as [-> _].
  apply advanced_bytes_nonneg in Ha0; lia.
Qed.

Lemma projections_counted a : (1 ≤ indexed (projections a) + advanced (projections a))%Z.
Proof.
  unfold projections, indexed_domain. destruct (ast_pattern a); simpl; try (destruct (ast_noapex a));
    simpl; repeat case_bool_decide; simpl; try lia; exfalso; eauto.
Qed.

Lemma counts_add_Ok a b c :
  counts_add a b = Ok c → indexed c = (indexed a + indexed b)%Z ∧ advanced c = (advanced a + advanced b)%Z.
Proof.
  unfold counts_add. intros H. inv_bind. injection H as <-. simpl.
  apply add_Ok in Ha as [-> _], Ha0 as [-> _]. done.
Qed.

Lemma check_store_counts_Ok l c :
  check_store_counts l c = Ok () → (indexed c ≤ max_store_indexed_rules l)%Z ∧ (advanced c ≤ max_store_advanced_rules l)%Z.
Proof.
  unfold check_store_counts. intros H. inv_bind.
  by rewrite ensure_Ok in Ha, Ha0.
Qed.

Lemma number_entry_ok l list_id rev key a rows n n' :
  number_entry l list_id rev key a rows n = Ok n' → counted l (nb_rules n) (nb_cost n) →
  nb_rules n' = nb_rules n ++ [stored_entry list_id rev (key, (a, rows))]
  ∧ nb_tokens n' = nb_tokens n ++ [len (nb_rules n)]
  ∧ counted l (nb_rules n') (nb_cost n')
  ∧ (0 ≤ nb_projection_bytes n → 0 ≤ nb_projection_bytes n')%Z.
Proof.
  unfold number_entry. intros H (Hc & _ & Hb & Ho). inv_bind. injection H as <-.
  unfold row_number in Ha. destruct (_ <=? _)%Z; [|done]. injection Ha as <-.
  apply counts_add_Ok in Ha1 as [Hi Hv]. apply check_store_counts_Ok in Ha2 as [Hmi Hmv].
  pose proof (projections_counted a). apply projection_bytes_nonneg in Ha3.
  apply ast_bytes_nonneg in Ha6; [|lia]. apply origin_bytes_nonneg in Ha8; [|lia|lia].
  apply add_Ok in Ha4 as [-> _], Ha5 as [-> _], Ha7 as [-> _], Ha9 as [-> _].
  split_and!; [done|done| |simpl; lia]. unfold counted. simpl. rewrite length_app. simpl. lia.
Qed.

Lemma number_entries_ok l list_id rev entries n n' :
  number_entries l list_id rev entries n = Ok n' → counted l (nb_rules n) (nb_cost n) →
  nb_rules n' = nb_rules n ++ map (stored_entry list_id rev) entries
  ∧ nb_tokens n' = nb_tokens n ++ map Z.of_nat (seq (length (nb_rules n)) (length entries))
  ∧ counted l (nb_rules n') (nb_cost n')
  ∧ (0 ≤ nb_projection_bytes n → 0 ≤ nb_projection_bytes n')%Z.
Proof.
  revert n; induction entries as [|[key [a rows]] entries IH]; intros n H Hc; cbn [number_entries] in H.
  { injection H as <-. csimpl. by rewrite !app_nil_r. }
  inv_bind. apply number_entry_ok in Ha as (E1 & E2 & Hc' & Hp); [|done].
  destruct (IH _ H Hc') as (F1 & F2 & Hc'' & Hp'). split_and!; [by rewrite F1, E1, <-app_assoc| |done|lia].
  rewrite F2, E1, E2, length_app, <-app_assoc. cbn [map seq length app]. by rewrite Nat.add_1_r.
Qed.

(** The tokens of a pack are the ranks of its rules, one per distinct key. *)
Definition pack_ok (rules : list StoredRule) (content : str) (id : str) (sum : PackSummary) : Prop :=
  ∃ entries base, entries_ok entries (content_asts content)
    ∧ sum_tokens sum = map Z.of_nat (seq base (length entries))
    ∧ (0 ≤ sum_projection_bytes sum)%Z
    ∧ ∀ i e, entries !! i = Some e → rules !! (base + i) = Some (stored_entry id (sha256 content) e).

Lemma pack_ok_mono rules rules' content id sum :
  rules `prefix_of` rules' → pack_ok rules content id sum → pack_ok rules' content id sum.
Proof.
  intros [k ->] (entries & base & H1 & H2 & H3 & H4). exists entries, base. split_and!; [done..|].
  intros i e Hi. apply H4 in Hi. by apply lookup_app_l_Some.
Qed.

Lemma entries_ok_nil : entries_ok [] [].
Proof. split; [constructor|intros ??? H; by apply not_elem_of_nil in H|intros ? H; by apply not_elem_of_nil in H]. Qed.

Lemma parse_packs_ok l sources rules packs cost rules' packs' cost' :
  parse_packs l sources rules packs cost = Ok (rules', packs', cost') →
  NoDup sources.*1 → ascending packs → counted l rules cost → (∀ id, id ∈ packs.*1 → id ∉ sources.*1) →
  rules `prefix_of` rules' ∧ ascending packs' ∧ counted l rules' cost'
  ∧ (∀ id sum, (id, sum) ∈ packs → (id, sum) ∈ packs')
  ∧ (∀ id content, (id, content) ∈ sources → ∃ sum, (id, sum) ∈ packs' ∧ pack_ok rules' content id sum)
  ∧ (∀ id, id ∈ packs'.*1 → id ∈ packs.*1 ∨ id ∈ sources.*1).
Proof.
  revert rules packs cost.
  induction sources as [|[id content] sources IH]; intros rules packs cost H Hnd Hasc Hc Hdisj;
    cbn [parse_packs] in H.
  { injection H as <- <- <-. split_and!; auto. by intros ?? ?%not_elem_of_nil. }
  inv_bind. destruct a as [entries rr]. inv_bind. csimpl in *. apply NoDup_cons in Hnd as [Hid Hnd].
  apply pack_bytes_nonneg in Ha0; [|lia]. apply add_Ok in Ha1 as [-> _].
  apply number_entries_ok in Ha2 as (E1 & E2 & Hc' & Hp).
  2:{ destruct Hc as (Hc1 & Hc2 & Hc3 & Hc4). split_and!; [done|done|simpl; lia|done]. }
  simpl in E1, E2, Hp.
  set (sum := {| sum_revision := _ |}) in H.
  apply IH in H as (Hpre & Hasc' & Hc'' & Hkeep & Hsrc & Hkeys);
    [|done|by apply bt_alter_ascending|done|].
  2:{ intros id' Hin. apply bt_alter_keys in Hin as [->|Hin]; [done|]. apply Hdisj in Hin.
      intros Hx. apply Hin. by right. }
  assert ((id, sum) ∈ packs') as Hsum.
  { apply Hkeep, bt_alter_elem; [done|]. by rewrite decide_True. }
  split_and!; [|done|done| | |].
  - etrans; [|exact Hpre]. rewrite E1. by eexists.
  - intros id' sum' Hin. apply Hkeep, bt_alter_elem; [done|]. rewrite decide_False; [done|].
    intros ->. apply (Hdisj id); [|left]. apply list_elem_of_fmap. by exists (id, sum').
  - intros id' content' [[= -> ->]|Hin]%elem_of_cons; [|by apply Hsrc]. exists sum. split; [done|].
    eapply pack_ok_mono; [exact Hpre|]. exists entries, (length rules). split_and!.
    + apply (parse_rows_ok _ _ _ _ _ _ [] _ _ Ha). apply entries_ok_nil.
    + exact E2.
    + simpl. lia.
    + intros i e Hi. rewrite E1, lookup_app_r by lia. rewrite Nat.add_comm, Nat.add_sub.
      by rewrite list_lookup_fmap, Hi.
  - intros id' Hin. apply Hkeys in Hin as [Hin|Hin]; [|right; by right].
    apply bt_alter_keys in Hin as [->|Hin]; [right; left|by left].
Qed.

(** The store of a compilation. *)
Record store_ok (l : RuleCompileLimits) (sources : list (str * str)) (s : CompiledRuleStore) : Prop := {
  so_packs : ascending (store_packs s);
  so_size : (0 < len (store_rules s) →
    len (store_rules s) ≤ max_store_indexed_rules l + max_store_advanced_rules l)%Z;
  so_pack : ∀ id content, (id, content) ∈ sources →
    ∃ sum, pack s id = Some sum ∧ pack_ok (store_rules s) content id sum;
  so_known : ∀ id, is_Some (pack s id) → id ∈ sources.*1;
}.

Lemma parse_store_ok sources l s cost :
  parse_store sources l = Ok (s, cost) → NoDup sources.*1 → limits_wf l →
  store_ok l sources s ∧ (snapshot_bytes cost ≤ max_compiled_bytes_total l)%Z ∧ cost_wf cost.
Proof.
  unfold parse_store. intros H Hnd Hl. inv_bind. destruct a as [[rules packs] cost0]. inv_bind.
  injection H as <- <-. apply ensure_Ok in Ha1, Ha2.
  apply parse_packs_ok in Ha as (_ & Hasc & (_ & Hc & Hb & Ho) & _ & Hsrc & Hkeys);
    [|done|constructor|by split_and!|by intros ? ?%not_elem_of_nil].
  assert (0 ≤ a)%Z.
  { eapply add_times_nonneg; [done|done|]. intros x Hx. apply (regex_bytes_nonneg _ _ Hx).
    apply (limits_wf_field l 14 _ _ Hl eq_refl). }
  unfold cost_wf. split_and!; [|done|done|done|done]. split; simpl; [done|done| |].
  - intros id content Hin. destruct (Hsrc _ _ Hin) as (sum & Hsum & Hok). exists sum.
    split; [|done]. by apply slice_get_spec.
  - intros id [sum Hsum]. apply slice_get_spec in Hsum; [|done].
    assert (id ∈ packs.*1) as Hin by (apply list_elem_of_fmap; by exists (id, sum)).
    apply Hkeys in Hin as [Hin|Hin]; [by apply not_elem_of_nil in Hin|done].
Qed.

Lemma store_sums_nonneg l sources s :
  store_ok l sources s → ∀ id sum, pack s id = Some sum → (0 ≤ sum_projection_bytes sum)%Z.
Proof.
  intros [_ _ Hpack Hknown] id sum Hsum.
  assert (id ∈ sources.*1) as Hin by (apply Hknown; by exists sum).
  apply list_elem_of_fmap in Hin as ([id' content] & -> & Hin).
  destruct (Hpack _ _ Hin) as (sum' & Hsum' & entries & base & _ & _ & Hn & _).
  simpl in *. congruence.
Qed.

(** ** Preflight *)

Lemma Id_new_Ok s id : Id_new s = Ok id → id = s.
Proof.
  unfold Id_new. destruct s as [|c s]; [done|]. destruct (_ <? _); [done|].
  destruct (first_bad_char _ _); [done|]. destruct (_ || _); [done|]. by intros [= <-].
Qed.

Lemma preflight_packs_ok l packs total sources sources' :
  preflight_packs l packs total sources = Ok sources' → ascending sources →
  ascending sources' ∧ ∀ id content, (id, content) ∈ sources' ↔
    (id, content) ∈ sources ∨ ∃ p, p ∈ packs ∧ ps_list_id p = id ∧ ps_content p = content.
Proof.
  revert total sources; induction packs as [|p packs IH]; intros total sources H Hasc;
    cbn [preflight_packs] in H.
  { injection H as <-. split; [done|]. setoid_rewrite elem_of_nil. naive_solver. }
  inv_bind. apply Id_new_Ok in Ha2 as ->.
  destruct (bt_get (ps_list_id p) sources) eqn:G; [done|]. apply bt_get_None in G.
  apply IH in H as [Hasc' Hmem]; [|by apply bt_alter_ascending]. split; [done|].
  intros id content. rewrite Hmem, bt_alter_elem by done. setoid_rewrite elem_of_cons.
  case_decide as E; [subst id|naive_solver].
  assert ((ps_list_id p, content) ∉ sources) as Hn.
  { intros Hin. apply G, list_elem_of_fmap. by exists (ps_list_id p, content). }
  naive_solver.
Qed.

Lemma preflight_sources_ok packs l sources :
  preflight_sources packs l = Ok sources →
  NoDup sources.*1 ∧ ∀ id content, (id, content) ∈ sources ↔
    ∃ p, p ∈ packs ∧ ps_list_id p = id ∧ ps_content p = content.
Proof.
  unfold preflight_sources. intros H. inv_bind. injection H as ->.
  apply preflight_packs_ok in Ha0 as [Hasc Hmem]; [|constructor].
  split; [by apply ascending_NoDup|]. intros id content. rewrite Hmem, elem_of_nil. naive_solver.
Qed.

(** ** Plans *)

Lemma plan_mounts_ok s l profile raws mounts tokens counts owned tokens' counts' owned' :
  plan_mounts s l profile raws mounts tokens counts owned = Ok (tokens', counts', owned') →
  ∀ t, t ∈ tokens' ↔ t ∈ tokens ∨ ∃ id sum, id ∈ raws ∧ pack s id = Some sum ∧ t ∈ sum_tokens sum.
Proof.
  revert mounts tokens counts owned.
  induction raws as [|raw raws IH]; intros mounts tokens counts owned H t; cbn [plan_mounts] in H.
  { injection H as <- _ _. setoid_rewrite elem_of_nil. naive_solver. }
  inv_bind. apply Id_new_Ok in Ha as ->. case_decide; [done|]. inv_bind.
  destruct (pack s raw) as [sum|] eqn:P; [|done]. cbn [ok_or] in *. inv_result.
  rewrite (IH _ _ _ _ H t), elem_of_app. setoid_rewrite elem_of_cons. naive_solver.
Qed.

Lemma plan_mounts_owned s l profile raws mounts tokens counts owned tokens' counts' owned' :
  plan_mounts s l profile raws mounts tokens counts owned = Ok (tokens', counts', owned') →
  (∀ id sum, pack s id = Some sum → (0 ≤ sum_projection_bytes sum)%Z) → (0 ≤ owned → 0 ≤ owned')%Z.
Proof.
  intros H Hs. revert mounts tokens counts owned H.
  induction raws as [|raw raws IH]; intros mounts tokens counts owned H Ho; cbn [plan_mounts] in H.
  { by injection H as _ _ <-. }
  inv_bind. case_decide; [done|]. inv_bind.
  destruct (pack s a) as [sum|] eqn:P; [|done]. cbn [ok_or] in *. inv_result.
  apply add_Ok in Ha3 as [-> _]. apply Hs in P. eapply IH; [done|lia].
Qed.

(** A plan mounts the rules of its profile's lists. *)
Record plan_ok (s : CompiledRuleStore) (m : ProfileMounts) (plan : ProfilePlan) : Prop := {
  po_id : plan_id plan = mt_profile_id m;
  po_block_all : plan_block_all plan = mt_block_all m;
  po_tokens : ∀ t, t ∈ plan_tokens plan ↔
    ∃ id sum, id ∈ mt_custom_lists m ∧ pack s id = Some sum ∧ t ∈ sum_tokens sum;
  po_known : ∀ id, id ∈ mt_custom_lists m → is_Some (pack s id);
}.

Lemma plan_mounts_known s l profile raws mounts tokens counts owned r :
  plan_mounts s l profile raws mounts tokens counts owned = Ok r →
  ∀ id, id ∈ raws → is_Some (pack s id).
Proof.
  revert mounts tokens counts owned.
  induction raws as [|raw raws IH]; intros mounts tokens counts owned H id Hid; cbn [plan_mounts] in H.
  { by apply not_elem_of_nil in Hid. }
  inv_bind. apply Id_new_Ok in Ha as ->. case_decide; [done|]. inv_bind.
  destruct (pack s raw) as [sum|] eqn:P; [|done].
  apply elem_of_cons in Hid as [->|Hid]; [by eexists|eauto].
Qed.

Lemma plan_profile_ok s l m cost plan cost' :
  plan_profile s l m (mt_profile_id m) cost = Ok (plan, cost') →
  (∀ id sum, pack s id = Some sum → (0 ≤ sum_projection_bytes sum)%Z) → cost_wf cost →
  plan_ok s m plan ∧ (snapshot_bytes cost' ≤ max_compiled_bytes_total l)%Z ∧ cost_wf cost'.
Proof.
  unfold plan_profile. intros H Hsum (Hw1 & Hw2 & Hw3). inv_bind.
  destruct a0 as [[tokens counts] owned]. inv_bind. injection H as <- <-.
  rename select (ensure (lit "max_compiled_bytes_total") _ _ = _) into Hb.
  apply ensure_Ok in Hb. unfold cost_wf. split_and!; [|done|done| |].
  2,3: apply profile_bytes_nonneg in Ha; [|lia]; apply plan_mounts_owned in Ha0; [|done|done];
    apply sidecar_bytes_nonneg in Ha1; [|lia]; apply add_Ok in Ha2 as [-> _]; simpl;
    repeat match goal with H : add _ _ = Ok _ |- _ => apply add_Ok in H as [-> _] end; lia.
  split; simpl; [done|done| |].
  - intros t. rewrite (merge_sort_Permutation Z.le tokens), (plan_mounts_ok _ _ _ _ _ _ _ _ _ _ _ Ha0 t).
    rewrite elem_of_nil. naive_solver.
  - by apply (plan_mounts_known _ _ _ _ _ _ _ _ _ Ha0).
Qed.

Lemma plan_profiles_ok s l ms seen cost plans cost' :
  plan_profiles s l ms seen cost = Ok (plans, cost') →
  (∀ id sum, pack s id = Some sum → (0 ≤ sum_projection_bytes sum)%Z) →
  (snapshot_bytes cost ≤ max_compiled_bytes_total l)%Z → cost_wf cost →
  Forall2 (plan_ok s) ms plans ∧ NoDup (map plan_id plans)
  ∧ (∀ p, p ∈ plans → plan_id p ∉ seen)
  ∧ (snapshot_bytes cost' ≤ max_compiled_bytes_total l)%Z ∧ cost_wf cost'.
Proof.
  intros H Hsum. revert seen cost plans H.
  induction ms as [|m ms IH]; intros seen cost plans H Hb Hw; cbn [plan_profiles] in H.
  { injection H as <- <-. split_and!; [constructor|constructor|by intros ? ?%not_elem_of_nil|done|done]. }
  inv_bind. apply Id_new_Ok in Ha as ->. case_decide as Hs; [done|]. inv_bind.
  destruct a as [plan cost1]. inv_bind. destruct a as [plans1 cost2]. injection H as <- <-.
  apply plan_profile_ok in Ha as (Hok & Hb1 & Hw1); [|done|done].
  apply IH in Ha0 as (Hf & Hnd & Hseen & Hb2 & Hw2); [|done|done].
  assert (plan_id plan = mt_profile_id m) as Hid by apply Hok.
  split_and!; [by constructor| | |done|done].
  - csimpl. constructor; [|done]. intros Hin. apply list_elem_of_In, in_map_iff in Hin as (p & Hp & Hin).
    apply list_elem_of_In, Hseen in Hin. rewrite Hp, Hid in Hin. set_solver.
  - intros p [->|Hin]%elem_of_cons; [by rewrite Hid|]. apply Hseen in Hin. set_solver.
Qed.

(** ** Programs *)

(** A rule with its program: the same rule, and every regex carries the
    program of its source. *)
Record programmed (l : RuleCompileLimits) (r r' : StoredRule) : Prop := {
  pr_ast : st_ast r' = st_ast r;
  pr_origin : st_origin r' = st_origin r;
  pr_program : ∀ source ci, ast_pattern (st_ast r) = ORegex source ci →
    ∃ p, st_program r' = Some p ∧ program_compile source ci (max_regex_program_bytes l) = Ok p;
}.

Lemma compile_programs_ok rules l programs rules' :
  compile_programs rules l programs = Ok rules' →
  (∀ source ci v limit p, programs !! (source, ci, v, limit) = Some p →
     program_compile source ci limit = Ok p) →
  Forall2 (programmed l) rules rules'.
Proof.
  revert programs rules'. induction rules as [|r rules IH]; intros programs rules' H Hp;
    cbn [compile_programs] in H.
  { injection H as <-. constructor. }
  unfold regex_key in H. destruct (ast_pattern (st_ast r)) as [d|d|source ci] eqn:E.
  1,2: inv_bind; injection H as <-; (constructor; [|by eapply IH]);
    by (split; [done|done|]; intros; congruence).
  inv_bind. injection H as <-.
  assert (program_compile source ci (max_regex_program_bytes l) = Ok a) as Hc.
  { destruct (programs !! _) as [p|] eqn:L in Ha.
    - injection Ha as <-. by apply Hp in L.
    - by apply map_err_Ok in Ha. }
  constructor.
  - split; [done|done|]. intros source' ci' E'. rewrite E in E'. injection E' as <- <-. by exists a.
  - eapply IH; [done|]. intros source' ci' v limit p. rewrite lookup_insert_Some.
    intros [[[= <- <- <- <-] <-]|[_ L]]; [done|by apply Hp in L].
Qed.

(** ** From rows to hits *)

(** What a rule says of a name, straight from its syntax tree. *)
Definition ast_matches (l : RuleCompileLimits) (a : OperatorRuleAst) (d : str) : bool :=
  match ast_pattern a with
  | OExact s => str_eqb d s || descendant d s
  | OWildcard s => (str_eqb d s && negb (ast_noapex a)) || descendant d s
  | ORegex source ci =>
    match program_compile source ci (max_regex_program_bytes l) with
    | Ok p => program_is_match p d
    | Err _ => false
    end
  end.

Lemma match_projection_ast l r r' d :
  programmed l r r' → (∃ m, match_projection r' d = Some m) ↔ ast_matches l (st_ast r') d = true.
Proof.
  intros [Ha _ Hp]. unfold match_projection, ast_matches. rewrite <-Ha in Hp.
  destruct (ast_pattern (st_ast r')) as [x|x|source ci].
  - destruct (_ || _); naive_solver.
  - destruct (_ && _); simpl; [naive_solver|]. destruct (descendant d x); naive_solver.
  - destruct (Hp _ _ eq_refl) as (p & -> & ->). destruct (program_is_match p d); naive_solver.
Qed.

(** The rules that a profile's lists contain. *)
Definition mounted_ast (packs : list PackSource) (m : ProfileMounts) (id : str) (a : OperatorRuleAst)
  : Prop :=
  ∃ p, p ∈ packs ∧ ps_list_id p = id ∧ id ∈ mt_custom_lists m ∧ a ∈ content_asts (ps_content p).

(** No two rules of one pack collide under the hash. *)
Definition no_collisions (packs : list PackSource) : Prop :=
  ∀ p a b, p ∈ packs → a ∈ content_asts (ps_content p) → b ∈ content_asts (ps_content p) →
    sha256 (rule_key_preimage a) = sha256 (rule_key_preimage b) →
    rule_key_preimage a = rule_key_preimage b.

Lemma content_asts_short content a : a ∈ content_asts content → short (ast_text a).
Proof.
  unfold content_asts. rewrite list_elem_of_omap. intros (raw & _ & H). unfold row_ast in H.
  destruct (is_rule _); [|done]. destruct (parse_rule_ast (row_text raw)) eqn:E; [|done].
  injection H as ->. by eapply parse_rule_ast_short.
Qed.

(** A compiled snapshot's store next to the packs it came from. *)
Record built (l : RuleCompileLimits) (packs : list PackSource) (s s' : CompiledRuleStore)
    (sources : list (str * str)) : Prop := {
  bu_sources : NoDup sources.*1 ∧ ∀ id content, (id, content) ∈ sources ↔
    ∃ p, p ∈ packs ∧ ps_list_id p = id ∧ ps_content p = content;
  bu_store : store_ok l sources s;
  bu_programs : Forall2 (programmed l) (store_rules s) (store_rules s');
}.

Lemma sources_unique (sources : list (str * str)) id c c' :
  NoDup sources.*1 → (id, c) ∈ sources → (id, c') ∈ sources → c = c'.
Proof.
  intros Hnd H1 H2. induction sources as [|[k v] sources IH]; [by apply not_elem_of_nil in H1|].
  csimpl in Hnd. apply NoDup_cons in Hnd as [Hk Hnd].
  assert (∀ x, (k, x) ∉ sources) as Hno.
  { intros x Hx. apply Hk, list_elem_of_fmap. by exists (k, x). }
  apply elem_of_cons in H1 as [E1|H1], H2 as [E2|H2]; [congruence| | |by apply IH];
    exfalso; [injection E1 as -> _|injection E2 as -> _]; by eapply Hno.
Qed.

(** A mounted token is a rule of a mounted list, with its program. *)
Lemma mounted_token l packs s s' sources m plan tok :
  built l packs s s' sources → plan_ok s m plan → tok ∈ plan_tokens plan →
  ∃ r r' id, stored s tok = Some r ∧ stored s' tok = Some r' ∧ programmed l r r'
    ∧ (0 ≤ tok < len (store_rules s'))%Z
    ∧ origin_list_id (st_origin r') = id ∧ mounted_ast packs m id (st_ast r').
Proof.
  intros [[Hnd Hsrc] [_ _ Hpack Hknown] Hprog] [_ _ Htok _] Hin.
  apply Htok in Hin as (id & sum & Hid & Hsum & Hin).
  assert (id ∈ sources.*1) as Hs by (apply Hknown; by exists sum).
  apply list_elem_of_fmap in Hs as ([id' content] & -> & Hs). simpl in *.
  destruct (Hpack _ _ Hs) as (sum' & Hsum' & entries & base & Heo & Htoks & _ & Hrules).
  rewrite Hsum in Hsum'. injection Hsum' as <-. rewrite Htoks in Hin.
  apply list_elem_of_In, in_map_iff in Hin as (n & <- & Hn). apply in_seq in Hn.
  destruct (lookup_lt_is_Some_2 entries (n - base)) as [[key [a rows]] He]; [lia|].
  apply Hrules in He as Hr. replace (base + (n - base)) with n in Hr by lia.
  destruct (Forall2_lookup_l _ _ _ _ _ Hprog Hr) as (r' & Hr' & Hpr).
  exists (stored_entry id' (sha256 content) (key, (a, rows))), r', id'. unfold stored. rewrite Nat2Z.id.
  pose proof (lookup_lt_Some _ _ _ Hr'). split_and!; [done|done|done|lia|lia| |].
  - by rewrite (pr_origin _ _ _ Hpr).
  - rewrite (pr_ast _ _ _ Hpr). simpl. apply Hsrc in Hs as (p & Hp & Hpid & Hpc). exists p.
    split_and!; [done|done|done|]. rewrite Hpc.
    apply list_elem_of_lookup_2 in He. by apply (eo_sound _ _ Heo) in He as [_ ?].
Qed.

(** Every rule of a mounted list is mounted. *)
Lemma mounted_rule l packs s s' sources m plan id a :
  built l packs s s' sources → plan_ok s m plan → no_collisions packs →
  mounted_ast packs m id a →
  ∃ tok r', tok ∈ plan_tokens plan ∧ stored s' tok = Some r' ∧ st_ast r' = a.
Proof.
  intros [[Hnd Hsrc] [_ _ Hpack _] Hprog] [_ _ Htok _] Hnc (p & Hp & Hpid & Hid & Ha).
  assert ((id, ps_content p) ∈ sources) as Hs by (apply Hsrc; by exists p).
  destruct (Hpack _ _ Hs) as (sum & Hsum & entries & base & Heo & Htoks & _ & Hrules).
  pose proof (eo_complete _ _ Heo _ Ha) as Hk.
  apply list_elem_of_fmap in Hk as ([key [a0 rows]] & Hkey & He). simpl in Hkey.
  pose proof (eo_sound _ _ Heo _ _ _ He) as [Hkey0 Ha0].
  assert (a0 = a) as ->.
  { apply rule_key_preimage_inj; [by eapply content_asts_short..|].
    apply (Hnc p); [done..|]. unfold rule_key in *. congruence. }
  apply list_elem_of_lookup in He as [i Hi]. apply Hrules in Hi as Hr.
  destruct (Forall2_lookup_l _ _ _ _ _ Hprog Hr) as (r' & Hr' & Hpr).
  exists (Z.of_nat (base + i)), r'. split_and!.
  - apply Htok. exists id, sum. split_and!; [done|done|]. rewrite Htoks.
    apply list_elem_of_In, in_map_iff. exists (base + i). split; [done|]. apply in_seq.
    apply lookup_lt_Some in Hi. lia.
  - unfold stored. by rewrite Nat2Z.id.
  - by rewrite (pr_ast _ _ _ Hpr).
Qed.

(** ** The compilation as a whole *)

Definition below_ceilings (l : RuleCompileLimits) : Prop :=
  (max_store_indexed_rules l + max_store_advanced_rules l < EMPTY_TOKEN)%Z.

Lemma validate_below l : validate l = Ok () → below_ceilings l.
Proof.
  unfold validate. rewrite validate_fields_Ok, Forall_forall. intros H.
  pose proof (H (lit "max_store_indexed_rules", max_store_indexed_rules)) as H1.
  pose proof (H (lit "max_store_advanced_rules", max_store_advanced_rules)) as H2.
  cbn [snd] in H1, H2. destruct H1 as [_ H1]; [by apply (list_elem_of_lookup_2 _ 10)|].
  destruct H2 as [_ H2]; [by apply (list_elem_of_lookup_2 _ 11)|].
  change (max_store_indexed_rules HARD_CEILINGS) with 1000000%Z in H1.
  change (max_store_advanced_rules HARD_CEILINGS) with 4096%Z in H2.
  unfold below_ceilings, EMPTY_TOKEN, U32_MAX. lia.
Qed.

Lemma prepare_ok packs profiles l s plans cost :
  prepare packs profiles l = Ok (s, plans, cost) → limits_wf l →
  ∃ sources, (NoDup sources.*1 ∧ ∀ id content, (id, content) ∈ sources ↔
       ∃ p, p ∈ packs ∧ ps_list_id p = id ∧ ps_content p = content)
    ∧ store_ok l sources s ∧ Forall2 (plan_ok s) profiles plans ∧ NoDup (map plan_id plans)
    ∧ (0 ≤ snapshot_bytes cost ≤ max_compiled_bytes_total l)%Z.
Proof.
  unfold prepare. intros H Hl. inv_bind. destruct a0 as [s0 cost0]. inv_bind.
  destruct a0 as [plans0 cost1]. injection H as -> -> ->.
  apply preflight_sources_ok in Ha as [Hnd Hsrc].
  apply parse_store_ok in Ha0 as (Hs & Hb & Hw); [|done|done].
  apply plan_profiles_ok in Ha1 as (Hf & Hndp & _ & Hb' & _ & _ & Hw');
    [|by apply (store_sums_nonneg l a)|done|done].
  by exists a.
Qed.

(** The plans of a prepared store can all be built. *)
Lemma built_plan l packs s s' sources m plan :
  built l packs s s' sources → below_ceilings l → plan_ok s m plan →
  ∃ p, build_profile s' plan = Some p ∧ cp_store p = s' ∧ cp_mounted p = plan_tokens plan
    ∧ cp_block_all p = plan_block_all plan
    ∧ ∀ d, lookup_hit p d = best_of (explain p d).*1.
Proof.
  intros Hb Hl Hplan. apply build_profile_spec; apply Forall_forall; intros tok Htok;
    destruct (mounted_token l packs s s' sources m plan tok Hb Hplan Htok)
      as (r & r' & id & Hr & Hr' & Hpr & Hrange & _).
  - exists r'. split; [done|]. intros Hreg. destruct Hpr as [Ha _ Hp].
    rewrite Ha in Hreg. destruct (ast_pattern (st_ast r)); [done|done|].
    destruct (Hp _ _ eq_refl) as (p & -> & _). by eexists.
  - destruct Hb as [_ [_ Hsize _ _] Hf]. apply Forall2_length in Hf.
    unfold below_ceilings in Hl. rewrite <-Hf in Hrange. lia.
Qed.

Lemma build_profiles_ok l packs s s' sources ms plans :
  built l packs s s' sources → below_ceilings l → Forall2 (plan_ok s) ms plans →
  ∃ ps, build_profiles s' plans = Some ps
    ∧ Forall2 (fun plan p => p.1 = plan_id plan ∧ build_profile s' plan = Some p.2) plans ps.
Proof.
  intros Hb Hl Hf. induction Hf as [|m plan ms plans Hplan Hf (ps & E & Hps)]; [by exists []|].
  destruct (built_plan _ _ _ _ _ _ _ Hb Hl Hplan) as (p & Ep & _).
  exists ((plan_id plan, p) :: ps). split; [|by constructor].
  unfold build_profiles in *. simpl. rewrite Ep. simpl. by rewrite E.
Qed.

(** The controller as [begin] needs it: within its maxima, at machine width. *)
Definition adm_wf (adm : AdmissionState) : Prop :=
  (0 ≤ adm_bytes adm ≤ adm_max_bytes adm)%Z ∧ (0 ≤ adm_builds adm ≤ adm_max_builds adm)%Z
  ∧ in_u64 (adm_max_bytes adm) ∧ in_u64 (adm_max_builds adm).

Lemma begin_ok adm ceiling lease adm' :
  begin adm ceiling = (Ok lease, adm') →
  lease = ceiling ∧ adm' = set_bytes (adm_bytes adm + ceiling) (set_builds (adm_builds adm + 1) adm)
  ∧ (adm_bytes adm + ceiling ≤ adm_max_bytes adm)%Z ∧ (adm_builds adm + 1 ≤ adm_max_builds adm)%Z.
Proof.
  unfold begin. destruct (reserve_new (adm_builds adm) _ _ _) as [b|] eqn:E1; [|done].
  destruct (reserve_new (adm_bytes _) _ _ _) as [y|] eqn:E2; [|done]. intros [= <- <-].
  apply reserve_new_Ok in E1 as [-> ?], E2 as [-> ?]. done.
Qed.

Lemma begin_err adm ceiling e adm' : adm_wf adm → begin adm ceiling = (Err e, adm') → adm' = adm.
Proof.
  intros (Hb & Hn & Hu1 & Hu2). unfold begin.
  destruct (reserve_new (adm_builds adm) _ _ _) as [b|] eqn:E1; [|by intros [= _ <-]].
  apply reserve_new_Ok in E1 as [-> ?]. destruct (reserve_new (adm_bytes _) _ _ _); [done|].
  intros [= _ <-]. unfold in_u64 in *. cbn [adm_builds set_builds].
  rewrite fetch_sub_exact by (unfold in_u64; lia).
  destruct adm. unfold set_builds. simpl in *. f_equal. lia.
Qed.

(** Dropping a builder whose lease is still within the reservation gives back
    exactly what the builder held. *)
Lemma drop_build_exact adm adm0 lease :
  adm_wf adm0 → adm = set_bytes (adm_bytes adm0 + lease) (set_builds (adm_builds adm0 + 1) adm0) →
  (0 ≤ lease)%Z → (adm_bytes adm0 + lease ≤ adm_max_bytes adm0)%Z →
  (adm_builds adm0 + 1 ≤ adm_max_builds adm0)%Z →
  drop_build adm lease = adm0.
Proof.
  intros (Hb & Hn & Hu1 & Hu2) -> Hl Hmb Hmn. unfold drop_build, drop_snapshot, in_u64 in *.
  cbn [adm_bytes adm_builds set_bytes set_builds].
  rewrite !fetch_sub_exact by (unfold in_u64; lia).
  destruct adm0. unfold set_bytes, set_builds. simpl in *. f_equal; lia.
Qed.

Lemma charge_exact adm adm0 lease bytes :
  adm_wf adm0 → adm = set_bytes (adm_bytes adm0 + lease) (set_builds (adm_builds adm0 + 1) adm0) →
  (0 ≤ bytes ≤ lease)%Z → (adm_bytes adm0 + lease ≤ adm_max_bytes adm0)%Z →
  charge adm lease bytes =
    Some (bytes, set_bytes (adm_bytes adm0 + bytes) (set_builds (adm_builds adm0 + 1) adm0)).
Proof.
  intros (Hb & Hn & Hu1 & Hu2) -> Hl Hmb. unfold charge. rewrite (proj2 (Z.leb_le _ _)) by lia.
  do 2 f_equal. unfold in_u64 in *. cbn [adm_bytes set_bytes set_builds].
  rewrite fetch_sub_exact by (unfold in_u64; lia).
  unfold set_bytes, set_builds. simpl. f_equal. lia.
Qed.

(** A successful compilation, opened up. *)
Record compiled (packs : list PackSource) (profiles : list ProfileMounts) (l : RuleCompileLimits)
    (c : CompiledOperatorRules) : Prop := {
  co_built : ∃ s plans sources ps,
    built l packs s (cr_store c) sources ∧ Forall2 (plan_ok s) profiles plans
    ∧ NoDup (map plan_id plans) ∧ cr_profiles c = merge_sort key_le ps
    ∧ Forall2 (fun plan p => p.1 = plan_id plan ∧ build_profile (cr_store c) plan = Some p.2) plans ps;
  co_limits : below_ceilings l;
  co_budget : cr_lease c = snapshot_bytes (cr_cost c)
    ∧ (snapshot_bytes (cr_cost c) ≤ max_compiled_bytes_total l)%Z;
}.

(** What [compile] does to the controller, and that a success is [compiled]. *)
Lemma compile_spec packs profiles l adm :
  adm_wf adm → limits_wf l →
  match compile packs profiles l adm with
  | (Some (Ok c), adm') =>
    adm' = set_bytes (adm_bytes adm + cr_lease c) adm
    ∧ (adm_bytes adm + cr_lease c ≤ adm_max_bytes adm)%Z ∧ compiled packs profiles l c
  | (Some (Err _), adm') => adm' = adm
  | (None, _) => False
  end.
Proof.
  intros Hadm Hl. unfold compile. destruct (validate l) as [[]|] eqn:V; [|done].
  apply validate_below in V.
  destruct (begin adm _) as [[lease|e] adm1] eqn:B; [|by apply begin_err in B].
  apply begin_ok in B as (-> & E1 & Hmb & Hmn).
  assert (0 ≤ max_compiled_bytes_total l)%Z as H0 by apply (limits_wf_field l 17 _ _ Hl eq_refl).
  destruct (prepare packs profiles l) as [[[s plans] cost]|e] eqn:P;
    [|by apply drop_build_exact].
  apply prepare_ok in P as (sources & Hsrc & Hs & Hf & Hnd & Hc); [|done].
  rewrite (charge_exact adm1 adm) by (done || lia).
  destruct (compile_programs _ _ _) as [rules|e] eqn:C; [|by apply drop_build_exact; lia || done].
  apply compile_programs_ok in C; [|by intros].
  set (s' := {| store_rules := rules; store_packs := store_packs s |}).
  assert (built l packs s s' sources) as Hb by (by split).
  destruct (build_profiles_ok l packs s s' sources profiles plans Hb V Hf) as (ps & -> & Hps).
  unfold finish. cbn [cr_lease]. split_and!; [|lia|].
  - destruct Hadm as (Hw1 & Hw2 & Hu1 & Hu2). unfold in_u64 in *. cbn [adm_builds set_bytes set_builds].
    rewrite fetch_sub_exact by (unfold in_u64; lia). destruct adm. unfold set_bytes, set_builds.
    simpl in *. f_equal. lia.
  - split; [|done|simpl; lia]. exists s, plans, sources, ps. done.
Qed.

Lemma profile_slice c id : profile c id = slice_get (cr_profiles c) id.
Proof. unfold profile, profile_index, slice_get. by destruct (binary_search _ _). Qed.

(** A compiled profile, found by its id. *)
Lemma compiled_profile packs profiles l c m :
  compiled packs profiles l c → m ∈ profiles →
  ∃ s sources plan p, built l packs s (cr_store c) sources ∧ plan_ok s m plan
    ∧ profile c (mt_profile_id m) = Some p ∧ cp_store p = cr_store c ∧ cp_mounted p = plan_tokens plan
    ∧ cp_block_all p = mt_block_all m ∧ ∀ d, lookup_hit p d = best_of (explain p d).*1.
Proof.
  intros [(s & plans & sources & ps & Hb & Hf & Hnd & Hps & Hf2) Hl _] Hm.
  apply list_elem_of_lookup in Hm as [i Hi].
  destruct (Forall2_lookup_l _ _ _ _ _ Hf Hi) as (plan & Hplan & Hok).
  destruct (Forall2_lookup_l _ _ _ _ _ Hf2 Hplan) as ([id p] & Hp & Hid & Hbuild). simpl in *.
  destruct (built_plan _ _ _ _ _ _ _ Hb Hl Hok) as (p' & Ep & Hst & Hmnt & Hba & Hlk).
  rewrite Hbuild in Ep. injection Ep as <-.
  assert (ps.*1 = map plan_id plans) as Hids.
  { clear -Hf2. induction Hf2 as [|x y xs ys [H _] _ IH]; csimpl; [done|]. by rewrite H, IH. }
  assert (ascending (cr_profiles c)) as Hasc.
  { rewrite Hps. apply merge_sort_ascending. by rewrite Hids. }
  exists s, sources, plan, p. split_and!; try done.
  - destruct Hok as [Hpid _ _ _]. rewrite <-Hpid, <-Hid.
    rewrite profile_slice. apply slice_get_spec; [done|]. rewrite Hps, (merge_sort_Permutation key_le ps).
    by apply list_elem_of_lookup_2 in Hp.
  - rewrite Hba. apply Hok.
Qed.

(** ** Verdicts *)

(** The verdict of a set of rules on a name: the highest tier with a matching
    rule decides, and the defaults decide when none matches. *)
Definition tier_hit (l : RuleCompileLimits) (asts : list OperatorRuleAst) (d : str) (t : RuleTier) : bool :=
  existsb (fun a => bool_decide (ast_tier a = t) && ast_matches l a d) asts.

Definition rows_verdict (l : RuleCompileLimits) (asts : list OperatorRuleAst) (d : str)
    (block_all : bool) (external : ExternalMatches) : Verdict :=
  if tier_hit l asts d ImportantAllow then VForward
  else if tier_hit l asts d ImportantDeny then VBlock
  else if tier_hit l asts d OrdinaryAllow then VForward
  else if tier_hit l asts d OrdinaryDeny then VBlock
  else if block_all || bool_decide (external = ExtDeny) then VBlock
  else VForward.

(** The rules of the lists a profile mounts, read straight from their text. *)
Definition mounted_asts (packs : list PackSource) (m : ProfileMounts) : list OperatorRuleAst :=
  concat (map (fun p => content_asts (ps_content p))
    (filter (fun p => ps_list_id p ∈ mt_custom_lists m) packs)).

Lemma mounted_asts_elem packs m a :
  a ∈ mounted_asts packs m ↔ ∃ id, mounted_ast packs m id a.
Proof.
  unfold mounted_asts, mounted_ast. rewrite list_elem_of_In, in_concat. setoid_rewrite in_map_iff. split.
  - intros (x & (p & <- & Hp) & Ha). apply list_elem_of_In, list_elem_of_filter in Hp as [Hid Hp].
    exists (ps_list_id p), p. split_and!; [done|done|done|by apply list_elem_of_In].
  - intros (id & p & Hp & <- & Hid & Ha). exists (content_asts (ps_content p)).
    split; [exists p; split; [done|]|by apply list_elem_of_In].
    by apply list_elem_of_In, list_elem_of_filter.
Qed.

Lemma matching_hits_elem s ts d h :
  h ∈ matching_hits s ts d ↔
  token h ∈ ts ∧ ∃ r m, stored s (token h) = Some r ∧ tier h = ast_tier (st_ast r)
    ∧ match_projection r d = Some m.
Proof.
  unfold matching_hits. rewrite list_elem_of_omap. split.
  - intros (tok & Htok & H). destruct (stored s tok) as [r|] eqn:E; [|done].
    destruct (match_projection r d) as [m|] eqn:M; [|done]. injection H as <-. simpl. eauto 10.
  - intros (Htok & r & m & E & Ht & M). exists (token h). split; [done|]. rewrite E, M.
    destruct h. simpl in *. by subst.
Qed.

(** The hits on a name, per tier, are the matching rows per tier. *)
Lemma hits_are_rows packs profiles l c m p d t :
  compiled packs profiles l c → no_collisions packs → m ∈ profiles →
  profile c (mt_profile_id m) = Some p →
  (∃ h, h ∈ (explain p d).*1 ∧ tier h = t) ↔ tier_hit l (mounted_asts packs m) d t = true.
Proof.
  intros Hc Hnc Hm Hp.
  destruct (compiled_profile _ _ _ _ _ Hc Hm) as (s & sources & plan & p' & Hb & Hok & Hp' & Hst & Hmnt & _ & _).
  rewrite Hp in Hp'. injection Hp' as <-. rewrite explain_hits, Hst, Hmnt.
  unfold tier_hit. rewrite existsb_exists. split.
  - intros (h & Hh & <-). apply matching_hits_elem in Hh as (Htok & r' & mp & Hr' & Ht & Hmp).
    destruct (mounted_token _ _ _ _ _ _ _ _ Hb Hok Htok) as (r & r0 & id & _ & Hr0 & Hpr & _ & _ & Hma).
    rewrite Hr' in Hr0. injection Hr0 as <-. exists (st_ast r'). split.
    + apply list_elem_of_In, mounted_asts_elem. by exists id.
    + rewrite bool_decide_eq_true_2 by done. simpl. apply (match_projection_ast l r); [done|by exists mp].
  - intros (a & Ha & Hmatch). apply andb_true_iff in Hmatch as [Ht Hmatch].
    apply bool_decide_eq_true in Ht. apply list_elem_of_In, mounted_asts_elem in Ha as [id Ha].
    destruct (mounted_rule _ _ _ _ _ _ _ _ _ Hb Hok Hnc Ha) as (tok & r' & Htok & Hr' & <-).
    destruct (mounted_token _ _ _ _ _ _ _ _ Hb Hok Htok) as (r & r0 & id' & _ & Hr0 & Hpr & _).
    rewrite Hr' in Hr0. injection Hr0 as <-.
    apply (match_projection_ast l r) in Hmatch as [mp Hmp]; [|done].
    exists {| tier := t; token := tok |}. split; [|done]. apply matching_hits_elem. simpl. eauto 10.
Qed.

(** The best hit decides as the tiers do. *)
Lemma best_tier_verdict hits (has : RuleTier → bool) block_all external :
  (∀ t, (∃ h, h ∈ hits ∧ tier h = t) ↔ has t = true) →
  match best_of hits with
  | Some h => hit_verdict (tier h)
  | None => default_verdict block_all external
  end =
  (if has ImportantAllow then VForward else if has ImportantDeny then VBlock
   else if has OrdinaryAllow then VForward else if has OrdinaryDeny then VBlock
   else default_verdict block_all external).
Proof.
  intros H. destruct (best_of hits) as [h|] eqn:E.
  - apply best_of_is_best in E as [Hin Hmax].
    assert (has (tier h) = true) as Hh by (apply H; by exists h).
    assert (∀ t, tier_rank (tier h) < tier_rank t → has t = false) as Habove.
    { intros t Ht. apply not_true_is_false. intros Hx. apply H in Hx as (h' & Hin' & <-).
      destruct (Hmax _ Hin') as [->|[Hlt|[Heq _]]]; [lia|lia|]. rewrite Heq in Ht. lia. }
    destruct (tier h); rewrite ?Hh; rewrite ?Habove by (simpl; lia); done.
  - apply best_of_None in E as ->.
    assert (∀ t, has t = false) as Hn.
    { intros t. apply not_true_is_false. intros Hx. apply H in Hx as (h & Hin & _).
      by apply not_elem_of_nil in Hin. }
    by rewrite !Hn.
Qed.

(** The hit a lookup returns is a matching row of a mounted list. *)
Lemma hit_row packs profiles l c m p d h :
  compiled packs profiles l c → m ∈ profiles → profile c (mt_profile_id m) = Some p →
  lookup_hit p d = Some h →
  ∃ r, stored (cp_store p) (token h) = Some r ∧ tier h = ast_tier (st_ast r)
    ∧ mounted_ast packs m (origin_list_id (st_origin r)) (st_ast r) ∧ ast_matches l (st_ast r) d = true.
Proof.
  intros Hc Hm Hp E.
  destruct (compiled_profile _ _ _ _ _ Hc Hm) as (s & src & plan & p' & Hb & Hok & Hp' & Hst & Hmnt & _ & Hlk).
  rewrite Hp in Hp'. injection Hp' as <-. rewrite Hlk in E. apply best_of_is_best in E as [Hin _].
  rewrite explain_hits, Hst, Hmnt in Hin. apply matching_hits_elem in Hin as (Htok & r & mp & Hr & Ht & Hmp).
  destruct (mounted_token _ _ _ _ _ _ _ _ Hb Hok Htok) as (r0 & r2 & id & _ & Hr2 & Hpr & _ & Hid & Hma).
  rewrite Hr in Hr2. injection Hr2 as <-. subst id. exists r. split_and!; [by rewrite Hst|done|done|].
  apply (match_projection_ast l r0); [done|by exists mp].
Qed.

(** Compiling never panics (no assertion, index or [expect] of the
    compiler can fail), a refused or failed compilation leaves the admission
    controller exactly as it was, and a successful one holds exactly its
    computed charge, within the node's maximum, and no build slot. *)
Theorem compile_admission packs profiles l adm :
  adm_wf adm → limits_wf l →
  match compile packs profiles l adm with
  | (Some (Ok c), adm') =>
    adm_bytes adm' = (adm_bytes adm + snapshot_bytes (cr_cost c))%Z
    ∧ adm_builds adm' = adm_builds adm
    ∧ (adm_bytes adm' ≤ adm_max_bytes adm)%Z
    ∧ (snapshot_bytes (cr_cost c) ≤ max_compiled_bytes_total l)%Z
  | (Some (Err _), adm') => adm' = adm
  | (None, _) => False
  end.
Proof.
  intros Hadm Hl. pose proof (compile_spec packs profiles l adm Hadm Hl) as H.
  destruct (compile packs profiles l adm) as [[[c|e]|] adm']; [|done|done].
  destruct H as (-> & Hb & [_ _ [Hlease Hbud]]). simpl. rewrite Hlease in *. done.
Qed.

(** C12: a compiled snapshot decides every name as its source text does.  For
    each profile given to [compile], the profile found under its id forwards
    or blocks a name exactly as the rules read from the rows of its mounted
    lists say, tier by tier, and by the profile's default when none matches. *)
Theorem compile_verdict packs profiles l adm c adm' m :
  adm_wf adm → limits_wf l → no_collisions packs →
  compile packs profiles l adm = (Some (Ok c), adm') → m ∈ profiles →
  ∃ p, profile c (mt_profile_id m) = Some p
    ∧ ∀ d external, cp_evaluate p d external =
        rows_verdict l (mounted_asts packs m) d (mt_block_all m) external.
Proof.
  intros Hadm Hl Hnc Hcomp Hm. pose proof (compile_spec packs profiles l adm Hadm Hl) as H.
  rewrite Hcomp in H. destruct H as (_ & _ & Hc).
  destruct (compiled_profile _ _ _ _ _ Hc Hm) as (s & src & plan & p & _ & _ & Hp & _ & _ & Hba & Hlk).
  exists p. split; [done|]. intros d external. unfold cp_evaluate. rewrite Hlk, Hba.
  apply (best_tier_verdict (explain p d).*1 (tier_hit l (mounted_asts packs m) d)).
  intros t. by apply (hits_are_rows packs profiles l c m p d t).
Qed.

(** The rule a decision is attributed to is a rule of a list that the
    profile mounts, it matches the name, and its tier gives the verdict. *)
Theorem winning_rule_origin packs profiles l adm c adm' m p addr d external h :
  adm_wf adm → limits_wf l →
  compile packs profiles l adm = (Some (Ok c), adm') → m ∈ profiles →
  profile c (mt_profile_id m) = Some p →
  let decision := evaluate_attributed {| ref_addr := addr; ref_profile := p |} d external in
  winning_rule decision = Some h →
  ∃ r, stored (cp_store p) (token h) = Some r
    ∧ mounted_ast packs m (origin_list_id (st_origin r)) (st_ast r)
    ∧ ast_matches l (st_ast r) d = true
    ∧ rd_verdict (dec_decision decision) = hit_verdict (ast_tier (st_ast r)).
Proof.
  cbv zeta. intros Hadm Hl Hcomp Hm Hp Hw. pose proof (compile_spec packs profiles l adm Hadm Hl) as H.
  rewrite Hcomp in H. destruct H as (_ & _ & Hc). revert Hw.
  unfold winning_rule, evaluate_attributed. simpl. destruct (lookup_hit p d) as [h'|] eqn:E; [|done].
  destruct (hit_row _ _ _ _ _ _ _ _ Hc Hm Hp E) as (r & Hr & Ht & Hma & Hmatch).
  unfold reduce. simpl. rewrite Hr. intros [= <-]. simpl. exists r. by rewrite <-Ht.
Qed.
End Store.

(** ** A concrete compilation *)

#[local] Existing Instance identity_sha.
#[local] Existing Instance literal_programs.

Definition line (s : str) : str := s ++ [NL].

Definition sample_packs : list PackSource :=
  [{| ps_list_id := lit "work"; ps_content := line (lit "@@||ok.ads.test^$important") |};
   {| ps_list_id := lit "ads";
      ps_content := line (lit "||ads.test^") ++ line (lit "# trackers") ++ line (lit "/track/") |}].

Definition sample_mounts : list ProfileMounts :=
  [{| mt_profile_id := lit "kids"; mt_custom_lists := [lit "ads"; lit "work"]; mt_block_all := false |};
   {| mt_profile_id := lit "guest"; mt_custom_lists := [lit "ads"]; mt_block_all := false |}].

Definition sample_admission : AdmissionState :=
  {| adm_max_bytes := Z.shiftl 32 20; adm_max_builds := 1; adm_bytes := 0; adm_builds := 0 |}.

Definition sample_compiled : option (CompiledOperatorRules * AdmissionState) :=
  match compile sample_packs sample_mounts RuleCompileLimits_default sample_admission with
  | (Some (Ok c), adm) => Some (c, adm)
  | _ => None
  end.

Lemma sample_adm_wf : adm_wf sample_admission.
Proof. unfold adm_wf, in_u64. vm_compute. split_and!; discriminate. Qed.

Lemma sample_limits_wf : limits_wf RuleCompileLimits_default.
Proof.
  unfold limits_wf, limit_fields. repeat (apply Forall_cons; split); try apply Forall_nil;
    vm_compute; split; discriminate.
Qed.

Lemma sample_compiles :
  ∃ c adm', compile sample_packs sample_mounts RuleCompileLimits_default sample_admission
    = (Some (Ok c), adm').
Proof.
  assert (match sample_compiled with Some _ => true | None => false end = true) as H
    by (vm_compute; reflexivity).
  unfold sample_compiled in H. destruct (compile _ _ _ _) as [[[c|e]|] adm']; [|done|done].
  by exists c, adm'.
Qed.

Lemma compile_admission_witness :
  ∃ c adm', compile sample_packs sample_mounts RuleCompileLimits_default sample_admission
    = (Some (Ok c), adm') ∧ adm_bytes adm' = snapshot_bytes (cr_cost c) ∧ adm_builds adm' = 0%Z.
Proof.
  destruct sample_compiles as (c & adm' & E). exists c, adm'.
  pose proof (compile_admission sample_packs sample_mounts RuleCompileLimits_default sample_admission
    sample_adm_wf sample_limits_wf) as H.
  rewrite E in H. destruct H as (H1 & H2 & _). by split_and!.
Defined.

(** The important allow of one list overrides the deny of the other, for the
    profile that mounts both. *)
Lemma compile_verdict_witness :
  ∃ c adm' p, compile sample_packs sample_mounts RuleCompileLimits_default sample_admission
      = (Some (Ok c), adm')
    ∧ profile c (lit "kids") = Some p
    ∧ cp_evaluate p (lit "x.ok.ads.test") ExtNone = VForward
    ∧ cp_evaluate p (lit "x.ads.test") ExtNone = VBlock
    ∧ cp_evaluate p (lit "other.test") ExtNone = VForward.
Proof.
  destruct sample_compiles as (c & adm' & E). exists c, adm'.
  destruct (compile_verdict sample_packs sample_mounts RuleCompileLimits_default sample_admission c adm'
    {| mt_profile_id := lit "kids"; mt_custom_lists := [lit "ads"; lit "work"]; mt_block_all := false |}
    sample_adm_wf sample_limits_wf) as (p & Hp & Hv); [by intros ? ? ? _ _ _|done|left|].
  exists p. split_and!; [done|done|..]; rewrite Hv; vm_compute; reflexivity.
Defined.

Lemma winning_rule_origin_witness :
  ∃ c adm' p r, compile sample_packs sample_mounts RuleCompileLimits_default sample_admission
      = (Some (Ok c), adm')
    ∧ profile c (lit "guest") = Some p
    ∧ origin_list_id (st_origin r) = lit "ads"
    ∧ ast_matches RuleCompileLimits_default (st_ast r) (lit "x.ads.test") = true.
Proof.
  set (m := {| mt_profile_id := lit "guest"; mt_custom_lists := [lit "ads"]; mt_block_all := false |}).
  assert (match sample_compiled with
          | Some (c, _) =>
            match profile c (lit "guest") with
            | Some p => match winning_rule (evaluate_attributed {| ref_addr := 0; ref_profile := p |}
                                              (lit "x.ads.test") ExtNone) with
                        | Some _ => true | None => false end
            | None => false
            end
          | None => false
          end = true) as H by (vm_compute; reflexivity).
  unfold sample_compiled in H. destruct (compile _ _ _ _) as [[[c|e]|] adm'] eqn:E; [|done|done].
  destruct (profile c (lit "guest")) as [p|] eqn:Hp; [|done].
  destruct (winning_rule _) as [h|] eqn:Hw; [|done].
  destruct (winning_rule_origin sample_packs sample_mounts RuleCompileLimits_default sample_admission c adm'
    m p 0 (lit "x.ads.test") ExtNone h sample_adm_wf sample_limits_wf E) as (r & Hr & Hma & Hmatch & _);
    [right; left|done|done|].
  exists c, adm', p, r. split_and!; [done|done| |done].
  destruct Hma as (pk & _ & _ & Hid & _). by apply list_elem_of_singleton in Hid.
Defined.
