(* ===== verification/Targets.v ===== *)
(** * Response targets under a request's authority

    The decisions of [src/filter/operator_rules/decision.rs] on the targets of
    a response (CNAME targets, answers): how the grant of the original query
    weighs against the rules that match a target. *)

From S2P Require Import Prelude RustStr SortedSlice DnsTypes Domain Rules Decision Limits Admission Ast Compiler CompilerIndex.

Section Targets.
Context {RP : RegexPrograms}.

(** The winner between a target's own rule and the rule of the request. *)
Definition joint_verdict (request target : option RankedHit) (block_all : bool)
    (external : ExternalMatches) : Verdict :=
  match best request target with
  | Some h => hit_verdict (tier h)
  | None => default_verdict block_all external
  end.

Lemma hit_grant_tier h g : hit_grant h = Some g →
  rule_tier g = tier h ∧ grant_token g = token h ∧ grant_origin g = OriginRule ∧ is_allow (tier h) = true.
Proof. unfold hit_grant. destruct h as [[] tok]; simpl; intros [= <-]; done. Qed.

Lemma reduce_no_grant hit block_all external :
  rd_verdict (reduce hit None block_all external) = joint_verdict None hit block_all external
  ∧ rd_allow_grant (reduce hit None block_all external) = hit ≫= hit_grant.
Proof. by destruct hit as [h|]. Qed.

(** Reducing a target under a grant issued by the rule [h]. *)
Lemma reduce_rule_grant target h g block_all external :
  hit_grant h = Some g →
  rd_verdict (reduce target (Some g) block_all external) = joint_verdict (Some h) target block_all external.
Proof.
  intros Hg. apply hit_grant_tier in Hg as (Ht & Hk & Ho & Ha). unfold joint_verdict.
  destruct target as [x|].
  2:{ unfold reduce. simpl. unfold hit_verdict. by rewrite Ha. }
  unfold reduce, best_with_grant. rewrite Ho, Ht, Hk.
  replace {| tier := tier h; token := token h |} with h by (by destruct h).
  rewrite (best_comm (Some x) (Some h)).
  destruct (best_Some_cases h x) as [[-> Hr]|[-> Hr]].
  - case_decide as E; simpl; [by rewrite E|]. unfold hit_verdict. by rewrite Ha.
  - by rewrite decide_True.
Qed.

(** Reducing a target under the same grant carried as request authority. *)
Lemma reduce_request_grant target h g block_all external :
  hit_grant h = Some g →
  rd_verdict (reduce target (Some {| grant_tier := grant_tier g; grant_token := grant_token g;
                                     grant_origin := OriginRequest |}) block_all external)
  = joint_verdict (Some h) target block_all external.
Proof.
  intros Hg. apply hit_grant_tier in Hg as (Ht & Hk & Ho & Ha). unfold joint_verdict.
  destruct target as [x|].
  2:{ unfold reduce. simpl. unfold hit_verdict. by rewrite Ha. }
  unfold reduce, best_with_grant. simpl. unfold rule_tier in *. simpl. rewrite Ht.
  destruct (Nat.ltb_spec (tier_rank (tier h)) (tier_rank (tier x))) as [Hlt|Hge].
  - destruct (best_Some_cases h x) as [[_ [[Hr|[Hr _]]|Hr]]|[Hb _]].
    + lia.
    + rewrite Hr in Hlt. lia.
    + subst. lia.
    + simpl in Hb. by injection Hb as ->.
  - simpl. destruct (beats x h) eqn:E; unfold hit_verdict; [|by rewrite Ha].
    apply beats_spec in E as [Hlt|[Heq _]]; [lia|]. by rewrite Heq, Ha.
Qed.

Lemma request_grant_cases p q external0 :
  let req := dec_decision (evaluate_attributed p q external0) in
  rd_verdict req = VForward →
  (∃ h g, lookup_hit (ref_profile p) q = Some h ∧ hit_grant h = Some g ∧ rd_allow_grant req = Some g)
  ∨ (lookup_hit (ref_profile p) q = None ∧ rd_allow_grant req = None).
Proof.
  simpl. destruct (reduce_no_grant (lookup_hit (ref_profile p) q) (cp_block_all (ref_profile p)) external0)
    as [-> ->].
  destruct (lookup_hit (ref_profile p) q) as [h|]; [|by right]. unfold joint_verdict, hit_verdict. simpl.
  intros Hv. left. unfold hit_grant. destruct (is_allow (tier h)) eqn:E; [|done].
  eexists h, _. rewrite ?E. done.
Qed.

(** A response target is forwarded exactly when it is structurally valid,
    the original query was forwarded, and the best of the query's own rule and
    the rule matching the target allows it; when neither name has a rule, the
    profile's default on the target's external matches decides.  In
    particular an ordinary allow of the query never overrides an important
    deny of the target. *)
Theorem evaluate_target_spec p q external0 d external structurally_valid :
  let req := evaluate_attributed p q external0 in
  let hit := lookup_hit (ref_profile p) in
  rd_verdict (evaluate_target req d external structurally_valid) = VForward ↔
  structurally_valid = true
  ∧ joint_verdict None (hit q) (cp_block_all (ref_profile p)) external0 = VForward
  ∧ joint_verdict (hit q) (hit d) (cp_block_all (ref_profile p)) external = VForward.
Proof.
  cbv zeta. unfold evaluate_target. destruct structurally_valid; [|simpl; naive_solver].
  cbn [negb]. rewrite <-(proj1 (reduce_no_grant _ _ external0)).
  change (reduce (lookup_hit (ref_profile p) q) None (cp_block_all (ref_profile p)) external0)
    with (dec_decision (evaluate_attributed p q external0)).
  case_decide as Hb; [naive_solver congruence|].
  assert (rd_verdict (dec_decision (evaluate_attributed p q external0)) = VForward) as Hf
    by (by destruct (rd_verdict _)).
  unfold reduce_target. change (dec_profile (evaluate_attributed p q external0)) with p.
  destruct (request_grant_cases p q external0 Hf) as [(h & g & Hh & Hg & ->)|[Hh ->]]; rewrite Hh.
  - rewrite (reduce_rule_grant _ h) by done. naive_solver.
  - rewrite (proj1 (reduce_no_grant _ _ _)). naive_solver.
Qed.

(** On a forwarded query, evaluating a target through the borrowed
    decision and through the captured grant give the same verdict, so carrying
    the grant across an await changes nothing; a grant issued by any other
    profile is ignored. *)
Theorem evaluate_target_with_grant_agrees p q external0 d external structurally_valid g :
  let req := evaluate_attributed p q external0 in
  (rd_verdict (dec_decision req) = VForward →
   rd_verdict (evaluate_target_with_grant p d (grant req) external structurally_valid)
   = rd_verdict (evaluate_target req d external structurally_valid))
  ∧ (is_issued_by g p = false →
     evaluate_target_with_grant p d (Some g) external structurally_valid
     = evaluate_target_with_grant p d None external structurally_valid).
Proof.
  cbv zeta. split.
  - intros Hf. unfold evaluate_target, evaluate_target_with_grant.
    destruct structurally_valid; [|done]. cbn [negb]. rewrite decide_False by (by rewrite Hf).
    unfold reduce_target. change (dec_profile (evaluate_attributed p q external0)) with p.
    destruct (request_grant_cases p q external0 Hf) as [(h & g' & Hh & Hg & Hr)|[Hh Hr]].
    + unfold grant. rewrite Hr, (proj1 (proj2 (proj2 (hit_grant_tier _ _ Hg)))).
      unfold is_issued_by. cbn [rg_issuer rg_grant]. change (dec_profile _) with p.
      rewrite Z.eqb_refl, (reduce_request_grant _ h), (reduce_rule_grant _ h) by done. done.
    + unfold grant. by rewrite Hr.
  - intros Hi. unfold evaluate_target_with_grant. by rewrite Hi.
Qed.
End Targets.

Lemma evaluate_target_with_grant_agrees_witness :
  match @build_profile literal_programs sample_store sample_plan with
  | Some p =>
    let here := {| ref_addr := 1; ref_profile := p |} in
    let req := evaluate_attributed here (lit "ok.ads.test") ExtNone in
    rd_verdict (evaluate_target_with_grant here (lit "cdn.ads.test") (grant req) ExtNone true)
    = rd_verdict (evaluate_target req (lit "cdn.ads.test") ExtNone true)
  | None => False
  end.
Proof.
  assert ((@build_profile literal_programs sample_store sample_plan ≫= fun p =>
    Some (rd_verdict (dec_decision (evaluate_attributed {| ref_addr := 1; ref_profile := p |}
      (lit "ok.ads.test") ExtNone)))) = Some VForward) as H by (vm_compute; reflexivity).
  destruct (build_profile sample_store sample_plan) as [p|]; [|done]. simpl in H. injection H as H.
  apply (evaluate_target_with_grant_agrees {| ref_addr := 1; ref_profile := p |} (lit "ok.ads.test")
    ExtNone (lit "cdn.ads.test") ExtNone true
    {| rg_issuer := {| ref_addr := 1; ref_profile := p |};
       rg_grant := {| grant_tier := GrantImportant; grant_token := 1%Z; grant_origin := OriginRule |} |}).
  exact H.
Defined.
