(* ===== verification/Engine.v ===== *)
(** * The filter engine: [src/filter/engine.rs], lines 955-2273

    Sixteen shards of tagged domains, the profile-aware evaluation of a name,
    and the active policy that joins downloaded lists and operator rules. *)

From S2P Require Import Prelude RustStr SortedSlice DnsTypes Domain Rules Evaluator Shard Decision Limits Admission Ast Compiler.

(** The process-wide [RandomState]: any function of the key. *)
Class ShardHasher := { hash_one : str → Z }.

(** [filter::cname::BlockSource] *)
Inductive BlockSource :=
| BSList (bit : Z)
| BSCustomList (id : str)
| BSRule (label : str)
| BSAdminBlock
| BSCnameLoop
| BSCnameDepthExceeded
| BSCnameMalformed.

Definition DOMAIN_SHARDS : nat := 16.

#[export] Instance sorted_shard_inhabited : Inhabited SortedShard := populate empty_shard.

(** [FilterEngine]: one atomically replaceable cell per shard. *)
Record FilterEngine := { shards : list SortedShard }.

(** ** Building and replacing shards *)

Section Building.
Context {H : ShardHasher}.

(** [(hash >> 32) as usize % DOMAIN_SHARDS] *)
Definition shard_index (key : str) : nat :=
  Z.to_nat (Z.shiftr (hash_one key) 32 mod Z.of_nat DOMAIN_SHARDS).

(** The sixteen buckets of [partition], filled in iteration order. *)
Definition bucket (i : nat) (pairs : list (str * DomainMasks)) : list (str * DomainMasks) :=
  List.filter (fun p => Nat.eqb (shard_index p.1) i) pairs.

(** [partition]: one generation id for all the shards of an install. *)
Definition partition (pairs : list (str * DomainMasks)) (ctr : Z) : list SortedShard * Z :=
  let '(gen_id, ctr) := next_gen_id ctr in
  (map (fun i => from_pairs (bucket i pairs) gen_id) (seq 0 DOMAIN_SHARDS), ctr).

Definition from_shard_maps (maps : list SortedShard) : FilterEngine := {| shards := maps |}.

(** [store_shard_maps]: one cell after the other; the engine after the first
    [n] stores. *)
Definition store_some (n : nat) (maps : list SortedShard) (e : FilterEngine) : FilterEngine :=
  {| shards := take n maps ++ drop n (shards e) |}.

Definition store_shard_maps (e : FilterEngine) (maps : list SortedShard) : FilterEngine :=
  store_some (length maps) maps e.

(** [swap_shard_sorted]: [None] is the index panic. *)
Definition swap_shard_sorted (e : FilterEngine) (idx : nat) (shard : SortedShard)
  : option FilterEngine :=
  if idx <? length (shards e) then Some {| shards := <[idx := shard]> (shards e) |} else None.

Definition new_engine : FilterEngine :=
  from_shard_maps (map (fun _ => empty_shard) (seq 0 DOMAIN_SHARDS)).

(** [install_prepared_shards]: cell by cell from another engine. *)
Definition install_prepared_shards (e prepared : FilterEngine) : FilterEngine :=
  {| shards := map snd (combine (shards e) (shards prepared)) |}.

(** The maps and sets given to the engine, in their iteration order. *)
Definition block_pairs (m : gmap str Z) : list (str * DomainMasks) :=
  map (fun p => (p.1, block_only p.2)) (map_to_list m).

Definition set_pairs (domains : gset str) : list (str * DomainMasks) :=
  map (fun d => (d, block_only 1)) (elements domains).

Definition with_domain_map (m : gmap str Z) (ctr : Z) : FilterEngine * Z :=
  let '(maps, ctr) := partition (block_pairs m) ctr in (from_shard_maps maps, ctr).

Definition with_per_direction_domain_map (m : gmap str DomainMasks) (ctr : Z) : FilterEngine * Z :=
  let '(maps, ctr) := partition (map_to_list m) ctr in (from_shard_maps maps, ctr).

Definition with_domains (domains : gset str) (ctr : Z) : FilterEngine * Z :=
  let '(maps, ctr) := partition (set_pairs domains) ctr in (from_shard_maps maps, ctr).

Definition swap_domain_map (e : FilterEngine) (m : gmap str Z) (ctr : Z) : FilterEngine * Z :=
  let '(maps, ctr) := partition (block_pairs m) ctr in (store_shard_maps e maps, ctr).

Definition swap_blocklist (e : FilterEngine) (domains : gset str) (ctr : Z) : FilterEngine * Z :=
  let '(maps, ctr) := partition (set_pairs domains) ctr in (store_shard_maps e maps, ctr).

(** [fixture_subscribe]: each shard keeps its entries and directions, and
    gains the profile's share of them. *)
Definition subscribe_shard (profile : str) (bits gen_id : Z) (s : SortedShard) : SortedShard :=
  let base := lp_base (policy s) in
  {| entries := entries s;
     policy := {| lp_per_profile :=
                    <[profile := {| pm_allow := Z.land (pm_allow base) bits;
                                    pm_block := Z.land (pm_block base) bits |}]>
                      (lp_per_profile (policy s));
                  lp_base := base; lp_fallback := lp_fallback (policy s); lp_gen_id := gen_id |} |}.

Definition fixture_subscribe (e : FilterEngine) (profile : str) (bits ctr : Z) : FilterEngine * Z :=
  let '(gen_id, ctr) := next_gen_id ctr in
  ({| shards := map (subscribe_shard profile bits gen_id) (shards e) |}, ctr).

Definition domain_count (e : FilterEngine) : nat :=
  fold_left (fun acc s => acc + length (entries s)) (shards e) 0.

Definition filter_gen_ids (e : FilterEngine) : list Z := map (fun s => lp_gen_id (policy s)) (shards e).

(** ** Probing *)

Definition probe_shard (e : FilterEngine) (key profile : str) : option DomainMasks :=
  let shard := shards e !!! shard_index key in
  let masks := masks_for (policy shard) profile in
  if is_inert masks then None
  else (fun bits => apply_masks bits masks) <$> slice_get (entries shard) key.

Definition probe_shard_base (e : FilterEngine) (key : str) : option DomainMasks :=
  let shard := shards e !!! shard_index key in
  (fun bits => split_base (policy shard) bits) <$> slice_get (entries shard) key.

Definition or_probe (acc : DomainMasks) (m : option DomainMasks) : DomainMasks :=
  match m with
  | Some m => masks_or acc m
  | None => acc
  end.

(** [walk_membership]: the name, then every non-empty suffix after a dot. *)
Definition walk_membership (domain : str) (probe : str → option DomainMasks) : DomainMasks :=
  fold_left (fun acc suffix => or_probe acc (probe suffix)) (dot_suffixes domain)
    (or_probe no_masks (probe domain)).

Definition list_membership (e : FilterEngine) (domain : str) : DomainMasks :=
  walk_membership domain (probe_shard_base e).

Definition list_membership_for (e : FilterEngine) (domain profile : str) : DomainMasks :=
  walk_membership domain (fun key => probe_shard e key profile).

Definition is_blocked (e : FilterEngine) (domain : str) : bool :=
  negb (block_mask (list_membership e domain) =? 0)%Z.
End Building.

(** [u64::trailing_zeros] *)
Definition trailing_zeros (x : Z) : Z := if (x =? 0)%Z then 64 else Z.log2 (Z.land x (- x)).

(** [domain_matches_set] *)
Definition domain_matches_set (domain : str) (set : gset str) : bool :=
  if decide (set = ∅) then false
  else if decide (domain ∈ set) then true
  else existsb (fun suffix => bool_decide (suffix ∈ set)) (dot_suffixes domain).

(** ** Profiles *)

Section Profiles.
Context {RC : RegexCrate} {RP : RegexPrograms}.

(** [CompiledProfileBinding]: a snapshot and a profile's index in it. *)
Record CompiledProfileBinding := { cb_rules : CompiledOperatorRules; cb_profile_index : nat }.

Definition binding_new (rules : CompiledOperatorRules) (profile_id : str)
  : option CompiledProfileBinding :=
  (fun i => {| cb_rules := rules; cb_profile_index := i |}) <$> profile_index rules profile_id.

Definition binding_profile (b : CompiledProfileBinding) : option CompiledProfile :=
  profile_at (cb_rules b) (cb_profile_index b).

(** The fields of [ResolvedProfile] that filtering reads. *)
Record ResolvedProfile := {
  rp_name : str;
  rp_unfiltered : bool;
  rp_allow_domains : gset str;
  rp_deny_domains : gset str;
  rp_block_all : bool;
  rp_rules : list DnsRule;
  rp_operator_rules : option CompiledProfileBinding;
}.

Definition rule_pattern_label (p : RulePattern) : str :=
  match p with
  | Exact d => d
  | Wildcard s => lit "*." ++ s
  | Regex source _ => lit "/" ++ source ++ lit "/"
  end.

(** ** Evaluation *)

Context {H : ShardHasher}.

(** What the unified walk carries; [None] once an admin allow has hit. *)
Record walk_state := { ws_deny_hit : bool; ws_allow_bits : Z; ws_block_bits : Z }.

Definition walk_probe (e : FilterEngine) (p : ResolvedProfile) (want_allow want_deny want_bits : bool)
    (key : str) (st : walk_state) : option walk_state :=
  if want_allow && bool_decide (key ∈ rp_allow_domains p) then None
  else
    let deny_hit := ws_deny_hit st
                    || (want_deny && negb (ws_deny_hit st) && bool_decide (key ∈ rp_deny_domains p)) in
    let masks := if want_bits then default no_masks (probe_shard e key (rp_name p)) else no_masks in
    Some {| ws_deny_hit := deny_hit;
            ws_allow_bits := Z.lor (ws_allow_bits st) (allow_mask masks);
            ws_block_bits := Z.lor (ws_block_bits st) (block_mask masks) |}.

Fixpoint walk_suffixes (e : FilterEngine) (p : ResolvedProfile) (want_allow want_deny want_bits : bool)
    (keys : list str) (st : walk_state) : option walk_state :=
  match keys with
  | [] => Some st
  | key :: rest =>
    match walk_probe e p want_allow want_deny want_bits key st with
    | None => None
    | Some st => walk_suffixes e p want_allow want_deny want_bits rest st
    end
  end.

Definition with_source (ATTR : bool) (s : BlockSource) : option BlockSource :=
  if ATTR then Some s else None.

(** The verdict of a rule, with its label when attributing. *)
Definition rule_outcome (ATTR : bool) (rule : DnsRule) : FilterResult * option BlockSource :=
  match action rule with
  | Allow => (FForward, None)
  | Block => (FBlock, with_source ATTR (BSRule (rule_pattern_label (pattern rule))))
  end.

Definition evaluate_inner (ATTR : bool) (e : FilterEngine) (domain : str) (p : ResolvedProfile)
  : FilterResult * option BlockSource :=
  let scan := priority_scan (rp_rules p) domain in
  if rp_block_all p then
    if domain_matches_set domain (rp_allow_domains p) then (FForward, None)
    else
      match scan with
      | Some (_, rule) =>
        if decide (action rule = Allow) then (FForward, None)
        else (FBlock, with_source ATTR BSAdminBlock)
      | None => (FBlock, with_source ATTR BSAdminBlock)
      end
  else
    let best_priority := match scan with Some (priority, _) => priority | None => (-1)%Z end in
    let best_rule := snd <$> scan in
    if (best_priority =? 3)%Z then (FForward, None)
    else
      let want_allow := (best_priority <? 1)%Z && bool_decide (rp_allow_domains p ≠ ∅) in
      let want_deny := bool_decide (best_rule = None) && bool_decide (rp_deny_domains p ≠ ∅) in
      let want_bits := bool_decide (best_rule = None) && negb (rp_unfiltered p) in
      if negb (want_allow || want_deny || want_bits) then
        match best_rule with
        | Some rule => rule_outcome ATTR rule
        | None => (FForward, None)
        end
      else
        match walk_suffixes e p want_allow want_deny want_bits (domain :: dot_suffixes domain)
                {| ws_deny_hit := false; ws_allow_bits := 0; ws_block_bits := 0 |} with
        | None => (FForward, None)
        | Some st =>
          match best_rule with
          | Some rule => rule_outcome ATTR rule
          | None =>
            if ws_deny_hit st then (FBlock, with_source ATTR BSAdminBlock)
            else if negb (ws_allow_bits st =? 0)%Z then (FForward, None)
            else if negb (ws_block_bits st =? 0)%Z then
              (FBlock, with_source ATTR (BSList (as_u8 (trailing_zeros (ws_block_bits st)))))
            else (FForward, None)
          end
        end.

Definition evaluate (e : FilterEngine) (domain : str) (p : ResolvedProfile) : FilterResult :=
  (evaluate_inner false e domain p).1.

Definition evaluate_attributed (e : FilterEngine) (domain : str) (p : ResolvedProfile)
  : FilterResult * option BlockSource :=
  evaluate_inner true e domain p.

(** [external_matches_attributed] *)
Definition external_matches_attributed (e : FilterEngine) (domain : str) (p : ResolvedProfile)
  : ExternalMatches * option BlockSource :=
  if rp_unfiltered p then (ExtDisabled, None)
  else
    let masks := list_membership_for e domain (rp_name p) in
    let external :=
      match negb (allow_mask masks =? 0)%Z, negb (block_mask masks =? 0)%Z with
      | false, false => ExtNone
      | true, false => ExtAllow
      | false, true => ExtDeny
      | true, true => ExtAllowAndDeny
      end in
    let source := if negb (block_mask masks =? 0)%Z
                  then Some (BSList (as_u8 (trailing_zeros (block_mask masks)))) else None in
    (external, source).

Definition external_matches (e : FilterEngine) (domain : str) (p : ResolvedProfile) : ExternalMatches :=
  (external_matches_attributed e domain p).1.

(** [ActivePolicyDecision] *)
Record ActivePolicyDecision := {
  ap_blocked : bool;
  ap_source : option BlockSource;
  ap_grant : option RequestGrant;
}.

(** [evaluate_active_operator_policy]; [addr] is the address of the bound
    profile, and [None] the panic of a binding outside its snapshot or of an
    attribution outside its store. *)
Definition evaluate_active_operator_policy (e : FilterEngine) (domain : str) (p : ResolvedProfile)
    (addr : Z) : option ActivePolicyDecision :=
  match rp_operator_rules p with
  | None => Some {| ap_blocked := true; ap_source := Some BSAdminBlock; ap_grant := None |}
  | Some binding =>
    match binding_profile binding with
    | None => None
    | Some compiled =>
      let '(external, external_source) := external_matches_attributed e domain p in
      let decision := Compiler.evaluate_attributed {| ref_addr := addr; ref_profile := compiled |}
                        domain external in
      let grant := grant decision in
      if decide (rd_verdict (dec_decision decision) = VForward) then
        Some {| ap_blocked := false; ap_source := None; ap_grant := grant |}
      else
        match rd_winning_token (dec_decision decision) with
        | Some tok =>
          (fun r => {| ap_blocked := true;
                       ap_source := Some (BSCustomList (origin_list_id (st_origin r)));
                       ap_grant := grant |}) <$> stored (cp_store compiled) tok
        | None =>
          let source := default BSAdminBlock
                          (if decide (external = ExtDeny) then external_source else None) in
          Some {| ap_blocked := true; ap_source := Some source; ap_grant := grant |}
        end
    end
  end.

(** [ResolvedProfile::as_unfiltered] *)
Definition as_unfiltered (p : ResolvedProfile) : ResolvedProfile :=
  {| rp_name := rp_name p; rp_unfiltered := true; rp_allow_domains := rp_allow_domains p;
     rp_deny_domains := rp_deny_domains p; rp_block_all := rp_block_all p; rp_rules := rp_rules p;
     rp_operator_rules := rp_operator_rules p |}.

(** [ResolvedProfile::bind_operator_rules]; [None] is the panic of a name that
    is not an identifier. *)
Definition bind_operator_rules (p : ResolvedProfile) (rules : CompiledOperatorRules)
  : option ResolvedProfile :=
  match Id_new (rp_name p) with
  | Err _ => None
  | Ok id =>
    Some {| rp_name := rp_name p; rp_unfiltered := rp_unfiltered p; rp_allow_domains := ∅;
            rp_deny_domains := ∅; rp_block_all := rp_block_all p; rp_rules := [];
            rp_operator_rules := binding_new rules id |}
  end.
End Profiles.
