(* ===== verification/EngineProofs.v ===== *)
(** * Correctness of the filter engine

    Every operation keeps the engine well-formed, sharding is invisible, and the
    membership of a name is the union over its suffixes. *)

From S2P Require Import Prelude RustStr SortedSlice DnsTypes Domain Rules Evaluator Shard Decision Limits Admission Ast Compiler CompilerIndex CompilerStore Engine.

(** ** Shards *)

Section Sharding.
Context {H : ShardHasher}.

Record engine_wf (e : FilterEngine) : Prop := {
  ew_length : length (shards e) = DOMAIN_SHARDS;
  ew_shards : Forall shard_wf (shards e);
}.

Lemma shard_index_range key : shard_index key < DOMAIN_SHARDS.
Proof.
  unfold shard_index, DOMAIN_SHARDS. pose proof (Z.mod_pos_bound (Z.shiftr (hash_one key) 32) 16). lia.
Qed.

Lemma partition_lookup pairs ctr key :
  (partition pairs ctr).1 !!! shard_index key = from_pairs (bucket (shard_index key) pairs) ctr.
Proof.
  unfold partition. cbn [fst next_gen_id]. apply list_lookup_total_correct.
  rewrite list_lookup_fmap, lookup_seq_lt by apply shard_index_range. done.
Qed.

Lemma bucket_elem i pairs p : p ∈ bucket i pairs ↔ p ∈ pairs ∧ shard_index p.1 = i.
Proof. unfold bucket. by rewrite !list_elem_of_In, filter_In, Nat.eqb_eq. Qed.

(** A key's bucket has all that the pairs give to the key. *)
Lemma masks_of_bucket pairs key : masks_of (bucket (shard_index key) pairs) key = masks_of pairs key.
Proof.
  unfold masks_of, bucket. do 2 f_equal. induction pairs as [|[k m] ps IH]; [done|]. cbn [List.filter fst].
  rewrite (filter_cons (fun p => p.1 = key)). destruct (decide ((k, m).1 = key)) as [E|E].
  - simpl in E. subst k. rewrite Nat.eqb_refl, filter_cons, decide_True by done. by rewrite IH.
  - destruct (Nat.eqb _ _); [|done]. by rewrite filter_cons, decide_False by done.
Qed.

Lemma conflicting_subset pairs pairs' :
  (∀ p, p ∈ pairs' → p ∈ pairs) → conflicting pairs = 0%Z → conflicting pairs' = 0%Z.
Proof.
  intros Hsub Hc. apply Z.bits_inj_0. intros i. apply not_true_is_false. intros Hi.
  unfold conflicting in Hi. rewrite (fold_lor_testbit (fun p => Z.land (block_mask p.2) _)) in Hi.
  rewrite Z.bits_0 in Hi. destruct Hi as [?|(p & Hp & Hb)]; [done|].
  rewrite Z.land_spec, andb_true_iff, union_allow_testbit in Hb. destruct Hb as [Hb (q & Hq & Ha)].
  by destruct (conflicting_zero pairs p q i Hc (Hsub _ Hp) (Hsub _ Hq)).
Qed.

(** What the engine answers for a key: the masks the pairs give it. *)
Definition pairs_masks (pairs : list (str * DomainMasks)) (key : str) : option DomainMasks :=
  if decide (key ∈ pairs.*1) then Some (masks_of pairs key) else None.

Lemma bucket_keys pairs key : key ∈ (bucket (shard_index key) pairs).*1 ↔ key ∈ pairs.*1.
Proof.
  rewrite !list_elem_of_fmap. setoid_rewrite bucket_elem. split.
  - intros (p & -> & Hp & _). by exists p.
  - intros (p & -> & Hp). by exists p.
Qed.

(** A uniform policy splits bits the same way for everyone, and is not inert. *)
Lemma uniform_masks a g profile :
  masks_for (uniform a g) profile = lp_base (uniform a g) ∧ is_inert (lp_base (uniform a g)) = false.
Proof.
  split; [done|].
  unfold is_inert. cbn [lp_base uniform pm_allow pm_block].
  destruct (Z.eqb_spec a 0) as [->|]; [|done]. by vm_compute.
Qed.

Lemma engine_probe pairs ctr key profile :
  Forall (fun p => masks_in_u64 p.2) pairs → conflicting pairs = 0%Z →
  let e := from_shard_maps (partition pairs ctr).1 in
  probe_shard_base e key = pairs_masks pairs key ∧ probe_shard e key profile = pairs_masks pairs key.
Proof.
  intros Hu Hc. cbv zeta. unfold probe_shard, probe_shard_base. cbn [shards from_shard_maps].
  rewrite partition_lookup. set (b := bucket (shard_index key) pairs).
  assert (∀ p, p ∈ b → p ∈ pairs) as Hsub by (intros p Hp; by apply bucket_elem in Hp as [? _]).
  assert (split_base (policy (from_pairs b ctr)) <$> shard_bits (from_pairs b ctr) key
          = pairs_masks pairs key) as Hlook.
  { rewrite (from_pairs_masks b ctr key).
    - unfold pairs_masks, b. rewrite masks_of_bucket.
      destruct (decide (key ∈ pairs.*1)) as [Hk|Hk]; rewrite <-(bucket_keys pairs key) in Hk;
        by case_decide.
    - rewrite Forall_forall in Hu |- *. auto.
    - by apply (conflicting_subset pairs). }
  split; [exact Hlook|]. rewrite <-Hlook. cbn [policy from_pairs].
  destruct (uniform_masks (union_allow b) ctr profile) as [Em Ei]. by rewrite Em, Ei.
Qed.

Lemma partition_wf pairs ctr : length (partition pairs ctr).1 = DOMAIN_SHARDS
  ∧ Forall shard_wf (partition pairs ctr).1.
Proof.
  unfold partition. cbn [fst next_gen_id]. rewrite length_map, length_seq. split; [done|].
  apply Forall_forall. intros s Hs. apply list_elem_of_In, in_map_iff in Hs as (i & <- & _).
  apply from_pairs_wf.
Qed.

Lemma combine_snd {A B} (l : list A) (l' : list B) :
  length l = length l' → map snd (combine l l') = l'.
Proof.
  revert l'; induction l as [|x l IH]; intros [|y l'] Hl; try done. simpl in *. f_equal. apply IH. lia.
Qed.

(** Distinct keys: the pairs give each key its value. *)
Lemma pairs_masks_nodup (pairs : list (str * DomainMasks)) key v : NoDup pairs.*1 → (key, v) ∈ pairs → pairs_masks pairs key = Some v.
Proof.
  intros Hnd Hp. unfold pairs_masks. rewrite decide_True by (apply list_elem_of_fmap; by exists (key, v)). f_equal. unfold masks_of.
  assert (filter (fun p => p.1 = key) pairs = [(key, v)]) as ->.
  2:{ simpl. unfold masks_or. simpl. destruct v. simpl. by rewrite !Z.lor_0_r. }
  induction pairs as [|[k' v'] l IH]; [by apply not_elem_of_nil in Hp|].
  rewrite elem_of_cons in Hp. rewrite fmap_cons, NoDup_cons in Hnd. destruct Hnd as [Hn Hnd]. rewrite filter_cons. cbn [fst] in *.
  assert (∀ x, (k', x) ∉ l) as Hno.
  { intros x Hx. apply Hn, list_elem_of_fmap. by exists (k', x). }
  destruct Hp as [[= <- <-]|Hp].
  - rewrite decide_True by done. f_equal. apply filter_none. intros [k'' v''] Hin. simpl. intros ->. by apply (Hno v'').
  - rewrite decide_False; [auto|]. intros ->. by apply (Hno v).
Qed.

Lemma pairs_masks_lookup (pairs : list (str * DomainMasks)) (m : gmap str DomainMasks) : NoDup pairs.*1 → (∀ k v, (k, v) ∈ pairs ↔ m !! k = Some v) →
  ∀ key, pairs_masks pairs key = m !! key.
Proof.
  intros Hnd Hm key. destruct (m !! key) as [v|] eqn:E; [apply pairs_masks_nodup; [done|by apply Hm]|]. unfold pairs_masks. rewrite decide_False; [done|].
  intros ([k v] & -> & Hp)%list_elem_of_fmap. apply Hm in Hp. cbn in E. congruence.
Qed.

(** An engine answers every probe, with or without a profile, as a map does, and
    so does every walk over the shards. *)
Definition answers_as (e : FilterEngine) (m : gmap str DomainMasks) : Prop := ∀ key profile,
  probe_shard_base e key = m !! key ∧ probe_shard e key profile = m !! key
  ∧ list_membership e key = walk_membership key (fun k => m !! k) ∧ list_membership_for e key profile = walk_membership key (fun k => m !! k).

Lemma walk_membership_ext domain probe probe' : (∀ key : str, probe key = probe' key) → walk_membership domain probe = walk_membership domain probe'.
Proof.
  intros Hp. unfold walk_membership. rewrite Hp. generalize (or_probe no_masks (probe' domain)) as acc.
  induction (dot_suffixes domain) as [|x l IH]; intros acc; cbn [fold_left]; [done|]. by rewrite Hp, IH.
Qed.

Lemma partition_answers (pairs : list (str * DomainMasks)) (ctr : Z) (m : gmap str DomainMasks) :
  NoDup pairs.*1 → (∀ k v, (k, v) ∈ pairs ↔ m !! k = Some v) → map_Forall (fun _ v => masks_in_u64 v) m → conflicting pairs = 0%Z →
  answers_as (from_shard_maps (partition pairs ctr).1) m.
Proof.
  intros Hnd Hm Hu Hc. assert (∀ key profile, probe_shard_base (from_shard_maps (partition pairs ctr).1) key = m !! key
    ∧ probe_shard (from_shard_maps (partition pairs ctr).1) key profile = m !! key) as Hp.
  { intros key profile. rewrite <- (pairs_masks_lookup pairs m Hnd Hm key). apply engine_probe; [|done].
    apply Forall_forall. intros [k v] Hin. apply Hm in Hin. by apply (Hu k). }
  intros key profile. split_and!; [apply (Hp key profile)|apply (Hp key profile)|apply walk_membership_ext; intros k; apply (Hp k profile)|].
  apply walk_membership_ext. intros k. apply (Hp k profile).
Qed.

(** Bits in one direction only. *)
Lemma block_only_fine (pairs : list (str * DomainMasks)) : Forall (fun p => ∃ b, p.2 = block_only b) pairs → conflicting pairs = 0%Z.
Proof.
  intros Hb. rewrite Forall_forall in Hb. apply Z.bits_inj_0. intros i. apply not_true_is_false. intros Hi.
  unfold conflicting in Hi. rewrite (fold_lor_testbit (fun p => Z.land (block_mask p.2) _)) in Hi.
  rewrite Z.bits_0 in Hi. destruct Hi as [?|(p & Hp & Hx)]; [done|].
  rewrite Z.land_spec, andb_true_iff, union_allow_testbit in Hx. destruct Hx as [_ (q & Hq & Ha)]. destruct (Hb q Hq) as [b Hqb]. rewrite Hqb in Ha. cbn in Ha. by rewrite Z.bits_0 in Ha.
Qed.

Definition blocks (m : gmap str Z) : gmap str DomainMasks := block_only <$> m.

Lemma block_pairs_answers (m : gmap str Z) (ctr : Z) : map_Forall (fun _ b => in_u64 b) m → answers_as (from_shard_maps (partition (block_pairs m) ctr).1) (blocks m).
Proof.
  intros Hu. apply partition_answers.
  - unfold block_pairs. rewrite <- list_fmap_compose. apply NoDup_fst_map_to_list.
  - intros k v. unfold block_pairs, blocks. rewrite lookup_fmap, fmap_Some. split.
    + intros ([k' b] & [= -> ->] & Hin)%list_elem_of_fmap. apply elem_of_map_to_list in Hin. by exists b.
    + intros (b & Hb & ->). apply list_elem_of_fmap. exists (k, b). split; [done|]. by apply elem_of_map_to_list.
  - intros k v. unfold blocks. rewrite lookup_fmap. intros (b & Hb & ->)%fmap_Some. specialize (Hu k b Hb). split; [done|]. cbn. unfold in_u64, U64_MAX in *. lia.
  - apply block_only_fine. apply Forall_forall. intros p ([k b] & -> & _)%list_elem_of_fmap. by exists b.
Qed.

Lemma set_pairs_answers (domains : gset str) (ctr : Z) : answers_as (from_shard_maps (partition (set_pairs domains) ctr).1) (blocks (gset_to_gmap 1%Z domains)).
Proof.
  apply partition_answers.
  - unfold set_pairs. rewrite <- list_fmap_compose. rewrite list_fmap_id. apply NoDup_elements.
  - intros k v. unfold set_pairs, blocks. rewrite lookup_fmap, fmap_Some. setoid_rewrite lookup_gset_to_gmap_Some. split.
    + intros (d & [= -> ->] & Hin)%list_elem_of_fmap. exists 1%Z. by apply elem_of_elements in Hin.
    + intros (b & [Hk <-] & ->). apply list_elem_of_fmap. exists k. split; [done|]. by apply elem_of_elements.
  - intros k v. unfold blocks. rewrite lookup_fmap. intros (b & [_ <-]%lookup_gset_to_gmap_Some & ->)%fmap_Some. split; cbn; unfold in_u64, U64_MAX; lia.
  - apply block_only_fine. apply Forall_forall. intros p (d & -> & _)%list_elem_of_fmap. by eexists.
Qed.

(** A reload replaces every shard. *)
Lemma store_all e (pairs : list (str * DomainMasks)) (ctr : Z) : engine_wf e → store_shard_maps e (partition pairs ctr).1 = from_shard_maps (partition pairs ctr).1.
Proof.
  intros [Hl _]. unfold store_shard_maps, store_some, from_shard_maps. f_equal. destruct (partition_wf pairs ctr) as [Hp _].
  rewrite firstn_all, Hp, <- Hl, drop_all. apply app_nil_r.
Qed.

(** C15: sharding is invisible.  Whatever the hash function, an engine that is
    built from a flat map or set of names, or into which one is swapped, or which
    takes its shards from such an engine, answers every probe, with or without a
    profile, as the map itself does, and every membership walk over the shards
    equals the walk over the unsharded map.  The maps with both directions, which
    only fixtures have, use no list bit in both. *)
Theorem sharding_invisible (e : FilterEngine) (m : gmap str DomainMasks) (b : gmap str Z) (domains : gset str) (ctr : Z) :
  engine_wf e → map_Forall (fun _ v => masks_in_u64 v) m → conflicting (map_to_list m) = 0%Z → map_Forall (fun _ bits => in_u64 bits) b →
  answers_as (with_domain_map b ctr).1 (blocks b) ∧ answers_as (swap_domain_map e b ctr).1 (blocks b)
  ∧ answers_as (with_domains domains ctr).1 (blocks (gset_to_gmap 1%Z domains)) ∧ answers_as (swap_blocklist e domains ctr).1 (blocks (gset_to_gmap 1%Z domains))
  ∧ answers_as (with_per_direction_domain_map m ctr).1 m
  ∧ ∀ prepared m', engine_wf prepared → answers_as prepared m' → answers_as (install_prepared_shards e prepared) m'.
Proof.
  intros He Hu Hc Hb. split; [by apply block_pairs_answers|]. split.
  { assert ((swap_domain_map e b ctr).1 = from_shard_maps (partition (block_pairs b) ctr).1) as -> by exact (store_all e (block_pairs b) ctr He). by apply block_pairs_answers. }
  split; [apply set_pairs_answers|]. split.
  { assert ((swap_blocklist e domains ctr).1 = from_shard_maps (partition (set_pairs domains) ctr).1) as -> by exact (store_all e (set_pairs domains) ctr He). apply set_pairs_answers. }
  split.
  - apply partition_answers; [apply NoDup_fst_map_to_list|intros k v; apply elem_of_map_to_list|done|done].
  - intros prepared m' Hw Ha. assert (install_prepared_shards e prepared = prepared) as ->; [|done]. destruct prepared as [l]. unfold install_prepared_shards. cbn. f_equal.
    apply combine_snd. transitivity DOMAIN_SHARDS; [exact (ew_length _ He)|symmetry; exact (ew_length _ Hw)].
Qed.

(** Membership is the union over the chain of a name, in each direction [f]. *)
Lemma walk_fold_testbit (f : DomainMasks → Z) (probe : str → option DomainMasks) i l acc :
  (∀ a b, f (masks_or a b) = Z.lor (f a) (f b)) →
  Z.testbit (f (fold_left (fun acc suffix => or_probe acc (probe suffix)) l acc)) i = true ↔
  Z.testbit (f acc) i = true ∨ ∃ k m, k ∈ l ∧ probe k = Some m ∧ Z.testbit (f m) i = true.
Proof.
  intros Hor. revert acc; induction l as [|x l IH]; intros acc; cbn [fold_left].
  { split; [by left|]. intros [?|(k & m & Hk & _)]; [done|by apply not_elem_of_nil in Hk]. }
  rewrite IH. split.
  - intros [Hb|(k & m & Hk & Hp & Hb)]; [|right; exists k, m; split_and!; [by right|done|done]].
    destruct (probe x) as [m|] eqn:E; cbn [or_probe] in Hb; [|by left].
    rewrite Hor, Z.lor_spec, orb_true_iff in Hb. destruct Hb as [?|?]; [by left|].
    right. exists x, m. split_and!; [left|done|done].
  - intros [Hb|(k & m & [->|Hk]%elem_of_cons & Hp & Hb)].
    + left. destruct (probe x); cbn [or_probe]; [|done]. by rewrite Hor, Z.lor_spec, Hb.
    + left. rewrite Hp. cbn [or_probe]. by rewrite Hor, Z.lor_spec, Hb, orb_true_r.
    + right. by exists k, m.
Qed.

Lemma walk_membership_testbit (f : DomainMasks → Z) domain probe i :
  (∀ a b, f (masks_or a b) = Z.lor (f a) (f b)) → f no_masks = 0%Z →
  Z.testbit (f (walk_membership domain probe)) i = true ↔
  ∃ k m, k ∈ domain :: dot_suffixes domain ∧ probe k = Some m ∧ Z.testbit (f m) i = true.
Proof.
  intros Hor H0. unfold walk_membership.
  change (fold_left (fun acc suffix => or_probe acc (probe suffix)) (dot_suffixes domain)
    (or_probe no_masks (probe domain)))
    with (fold_left (fun acc suffix => or_probe acc (probe suffix)) (domain :: dot_suffixes domain) no_masks).
  rewrite walk_fold_testbit by done. rewrite H0, Z.bits_0. split; [by intros [?|?]|by right].
Qed.

(** ** Well-formed engines *)

Lemma store_some_wf n maps e :
  engine_wf e → length maps = DOMAIN_SHARDS → Forall shard_wf maps → engine_wf (store_some n maps e).
Proof.
  intros [Hl Hs] Hm Hf. split; cbn [shards store_some].
  - rewrite length_app, length_take, length_drop. lia.
  - apply Forall_app. split; [by apply Forall_take|by apply Forall_drop].
Qed.

(** Every way to build or change an engine keeps it at sixteen shards of
    strictly ascending entries: the constructors, every prefix of a
    shard-by-shard reload, a single-shard swap, an install from a prepared
    engine and a subscription. *)
Theorem engine_operations_wf :
  engine_wf new_engine
  ∧ (∀ m ctr, engine_wf (with_domain_map m ctr).1)
  ∧ (∀ m ctr, engine_wf (with_per_direction_domain_map m ctr).1)
  ∧ (∀ domains ctr, engine_wf (with_domains domains ctr).1)
  ∧ (∀ e pairs ctr n, engine_wf e → engine_wf (store_some n (partition pairs ctr).1 e))
  ∧ (∀ e m ctr, engine_wf e → engine_wf (swap_domain_map e m ctr).1)
  ∧ (∀ e domains ctr, engine_wf e → engine_wf (swap_blocklist e domains ctr).1)
  ∧ (∀ e idx s e', engine_wf e → shard_wf s → swap_shard_sorted e idx s = Some e' → engine_wf e')
  ∧ (∀ e e', engine_wf e → engine_wf e' → engine_wf (install_prepared_shards e e')
       ∧ shards (install_prepared_shards e e') = shards e')
  ∧ (∀ e profile bits ctr, engine_wf e → engine_wf (fixture_subscribe e profile bits ctr).1).
Proof.
  assert (∀ pairs ctr, engine_wf (from_shard_maps (partition pairs ctr).1)) as Hpart.
  { intros pairs ctr. destruct (partition_wf pairs ctr). by split. }
  assert (∀ e pairs ctr n, engine_wf e → engine_wf (store_some n (partition pairs ctr).1 e)) as Hstore.
  { intros e pairs ctr n He. destruct (partition_wf pairs ctr). by apply store_some_wf. }
  split_and!; [|intros; apply Hpart..|exact Hstore| | | | |].
  - split; [done|]. apply Forall_forall. intros s Hs.
    apply list_elem_of_In, in_map_iff in Hs as (i & <- & _). constructor.
  - intros e m ctr He. apply Hstore, He.
  - intros e domains ctr He. apply Hstore, He.
  - intros e idx s e' [Hl Hs] Hw. unfold swap_shard_sorted. destruct (_ <? _); [|done].
    intros [= <-]. split; cbn [shards]; [by rewrite length_insert|by apply Forall_insert].
  - intros [sh] [sh'] [Hl Hs] [Hl' Hs']. unfold install_prepared_shards. cbn [shards] in *.
    assert (map snd (combine sh sh') = sh') as Hc.
    { apply combine_snd. lia. }
    rewrite Hc. by split.
  - intros e profile bits ctr [Hl Hs]. split; cbn [shards fst fixture_subscribe next_gen_id].
    + by rewrite length_map.
    + apply Forall_forall. intros s Hin. apply list_elem_of_In, in_map_iff in Hin as (s0 & <- & Hin).
      rewrite Forall_forall in Hs. apply list_elem_of_In in Hin. exact (Hs s0 Hin).
Qed.
End Sharding.

(** A hash that spreads keys over the shards by their length. *)
Definition length_hasher : ShardHasher := {| hash_one := fun key => Z.shiftl (len key) 32 |}.

Definition sample_map : gmap str DomainMasks :=
  {[ lit "ads.test" := {| allow_mask := 0; block_mask := 2 |};
     lit "ok.ads.test" := {| allow_mask := 1; block_mask := 0 |} ]}.

Lemma sharding_invisible_witness :
  list_membership_for (H:=length_hasher) (swap_domain_map (H:=length_hasher) new_engine {[ lit "ads.test" := 2%Z ]} 1).1 (lit "x.ok.ads.test") (lit "kids")
  = {| allow_mask := 0; block_mask := 2 |}.
Proof.
  assert (map_Forall (fun _ v => masks_in_u64 v) sample_map) as Hu.
  { unfold sample_map. apply map_Forall_insert_2; [|apply map_Forall_singleton];
      unfold masks_in_u64, in_u64, U64_MAX; simpl; lia. }
  assert (conflicting (map_to_list sample_map) = 0%Z) as Hc by (vm_compute; reflexivity).
  assert (engine_wf new_engine) as He by (split; [done|repeat constructor]).
  assert (map_Forall (fun _ bits => in_u64 bits) {[ lit "ads.test" := 2%Z ]}) as Hb by (apply map_Forall_singleton; unfold in_u64, U64_MAX; lia).
  destruct (sharding_invisible (H:=length_hasher) new_engine sample_map {[ lit "ads.test" := 2%Z ]} ∅ 1 He Hu Hc Hb) as (_ & Hm & _).
  etrans; [apply (Hm (lit "x.ok.ads.test") (lit "kids"))|]. vm_compute. reflexivity.
Defined.
