(* ===== verification/EngineVerdict.v ===== *)
(** * The verdict of the filter engine

    [evaluate] is the truth table of its documentation, [evaluate_attributed]
    names the exact cause of a block, unknown profiles are filtered, and a
    reload replaces the policy of a name at one instant. *)

From S2P Require Import Prelude RustStr SortedSlice DnsTypes Domain Rules Evaluator Shard Decision Limits Admission Ast Compiler CompilerIndex CompilerStore Engine EngineProofs.

(** ** Machine-width bits *)

Lemma in_u64_testbit x : (0 ≤ x)%Z → (∀ i, (64 ≤ i)%Z → Z.testbit x i = false) → in_u64 x.
Proof.
  intros Hx Hb. split; [done|]. unfold U64_MAX. destruct (decide (x = 0)%Z) as [->|Hne]; [lia|].
  assert (Z.log2 x < 64)%Z as Hl.
  { destruct (decide (64 ≤ Z.log2 x)%Z) as [Hge|]; [|lia]. specialize (Hb _ Hge).
    rewrite Z.bit_log2 in Hb by lia. done. }
  apply Z.log2_lt_pow2 in Hl; lia.
Qed.

Lemma in_u64_lor a b : in_u64 a → in_u64 b → in_u64 (Z.lor a b).
Proof.
  intros Ha Hb. apply in_u64_testbit.
  - apply Z.lor_nonneg. unfold in_u64 in *. lia.
  - intros i Hi. by rewrite Z.lor_spec, !bits_above_u64.
Qed.

Lemma in_u64_land a b : in_u64 a → in_u64 (Z.land a b).
Proof.
  intros Ha. apply in_u64_testbit.
  - apply Z.land_nonneg. unfold in_u64 in *. lia.
  - intros i Hi. by rewrite Z.land_spec, (bits_above_u64 a).
Qed.

(** ** Lowest set bit *)

(** [x = 2^k * m] with [m] odd. *)
Lemma lowest_bit x : (0 < x)%Z → ∃ k m, (0 ≤ k)%Z ∧ x = (2 ^ k * (2 * m + 1))%Z.
Proof.
  intros Hx. destruct x as [|p|p]; try lia. clear Hx. induction p as [p IH|p IH|].
  - exists 0%Z, (Z.pos p). split; [lia|]. rewrite Pos2Z.inj_xI. lia.
  - destruct IH as (k & m & Hk & E). exists (k + 1)%Z, m. split; [lia|].
    rewrite Pos2Z.inj_xO, E, Z.pow_add_r by lia. lia.
  - exists 0%Z, 0%Z. done.
Qed.

Lemma testbit_scaled k m i : (0 ≤ k)%Z →
  Z.testbit (2 ^ k * m) i = (k <=? i)%Z && Z.testbit m (i - k).
Proof.
  intros Hk. rewrite Z.mul_comm. destruct (Z.leb_spec k i) as [Hle|Hlt].
  - by rewrite Z.mul_pow2_bits by done.
  - rewrite Z.mul_pow2_bits by done. by rewrite Z.testbit_neg_r by lia.
Qed.

Lemma trailing_zeros_spec x : in_u64 x → x ≠ 0%Z →
  (0 ≤ trailing_zeros x < 64)%Z ∧ Z.testbit x (trailing_zeros x) = true
  ∧ ∀ i, (0 ≤ i < trailing_zeros x)%Z → Z.testbit x i = false.
Proof.
  intros Hu Hne. destruct (lowest_bit x) as (k & m & Hk & E); [unfold in_u64 in Hu; lia|].
  assert (trailing_zeros x = k) as ->.
  { unfold trailing_zeros. destruct (Z.eqb_spec x 0); [done|].
    assert (Z.land x (- x) = 2 ^ k)%Z as ->; [|by apply Z.log2_pow2].
    apply Z.bits_inj'. intros i Hi. rewrite Z.land_spec, Z.pow2_bits_eqb by done.
    replace (- x)%Z with (2 ^ k * (2 * (- m - 1) + 1))%Z by lia. rewrite E, !testbit_scaled by done.
    destruct (Z.leb_spec k i) as [Hle|Hlt]; cbn [andb]; [|destruct (Z.eqb_spec k i); [lia|done]].
    destruct (Z.eqb_spec k i) as [->|Hki].
    - rewrite Z.sub_diag, !Z.testbit_odd_0. done.
    - replace (i - k)%Z with (Z.succ (i - k - 1)) by lia. rewrite !Z.testbit_odd_succ by lia.
      replace (- m - 1)%Z with (Z.lnot m) by (unfold Z.lnot; lia). rewrite Z.lnot_spec by lia.
      by destruct (Z.testbit m _). }
  assert (Z.testbit x k = true) as Hbit.
  { rewrite E, testbit_scaled, Z.sub_diag, Z.testbit_odd_0 by done. by rewrite Z.leb_refl. }
  split_and!; [done| |done|].
  - destruct (decide (64 ≤ k)%Z); [|lia]. by rewrite bits_above_u64 in Hbit.
  - intros i Hi. rewrite E, testbit_scaled by done. by rewrite (proj2 (Z.leb_gt _ _)) by lia.
Qed.

(** ** The unified walk *)

Section Verdict.
Context {RC : RegexCrate} {RP : RegexPrograms} {H : ShardHasher}.

Definition set_hit (keys : list str) (set : gset str) : bool :=
  existsb (fun k => bool_decide (k ∈ set)) keys.

Lemma set_hit_spec keys set : set_hit keys set = true ↔ ∃ k, k ∈ keys ∧ k ∈ set.
Proof.
  unfold set_hit. rewrite existsb_exists. setoid_rewrite bool_decide_eq_true.
  by setoid_rewrite list_elem_of_In.
Qed.

Lemma domain_matches_set_hit d set : domain_matches_set d set = set_hit (d :: dot_suffixes d) set.
Proof.
  unfold domain_matches_set. case_decide as He.
  { subst. symmetry. apply not_true_is_false. rewrite set_hit_spec. set_solver. }
  unfold set_hit. cbn [existsb]. case_decide as Hd.
  - by rewrite bool_decide_eq_true_2.
  - by rewrite bool_decide_eq_false_2.
Qed.

Lemma walk_suffixes_spec e p wa wd wb keys dh m0 :
  walk_suffixes e p wa wd wb keys
    {| ws_deny_hit := dh; ws_allow_bits := allow_mask m0; ws_block_bits := block_mask m0 |} =
  let m := if wb then fold_left (fun acc k => or_probe acc (probe_shard e k (rp_name p))) keys m0 else m0 in
  if wa && set_hit keys (rp_allow_domains p) then None
  else Some {| ws_deny_hit := dh || (wd && set_hit keys (rp_deny_domains p));
               ws_allow_bits := allow_mask m; ws_block_bits := block_mask m |}.
Proof.
  revert dh m0; induction keys as [|k keys IH]; intros dh m0; cbv zeta; cbn [walk_suffixes fold_left].
  { simpl. rewrite andb_false_r, andb_false_r, orb_false_r. by destruct wb. }
  unfold walk_probe. cbn [set_hit existsb ws_deny_hit ws_allow_bits ws_block_bits].
  destruct (wa && bool_decide (k ∈ rp_allow_domains p)) eqn:Ea.
  { apply andb_true_iff in Ea as [-> ->]. done. }
  assert (wa && (bool_decide (k ∈ rp_allow_domains p) || set_hit keys (rp_allow_domains p))
          = wa && set_hit keys (rp_allow_domains p)) as Hset.
  { destruct wa; [|done]. simpl in *. by rewrite Ea. }
  fold (set_hit keys (rp_allow_domains p)). fold (set_hit keys (rp_deny_domains p)). rewrite Hset.
  set (m1 := if wb then or_probe m0 (probe_shard e k (rp_name p)) else m0).
  assert (Z.lor (allow_mask m0) (allow_mask (if wb then default no_masks (probe_shard e k (rp_name p)) else no_masks))
          = allow_mask m1
    ∧ Z.lor (block_mask m0) (block_mask (if wb then default no_masks (probe_shard e k (rp_name p)) else no_masks))
          = block_mask m1) as [-> ->].
  { unfold m1. destruct wb; [destruct (probe_shard e k (rp_name p))|]; simpl; by rewrite ?Z.lor_0_r. }
  rewrite IH. cbv zeta. destruct (wa && set_hit keys (rp_allow_domains p)); [done|].
  f_equal. unfold m1. destruct wb; f_equal; destruct dh, wd, (bool_decide (k ∈ rp_deny_domains p)); done.
Qed.

(** ** The truth table *)

(** The layers of a profile without [block_all], from the strongest. *)
Definition verdict_table (e : FilterEngine) (d : str) (p : ResolvedProfile) : FilterResult :=
  let covered := set_hit (d :: dot_suffixes d) in
  let lists := list_membership_for e d (rp_name p) in
  if some_match true Allow d (rp_rules p) then FForward
  else if some_match true Block d (rp_rules p) then FBlock
  else if some_match false Allow d (rp_rules p) || covered (rp_allow_domains p) then FForward
  else if some_match false Block d (rp_rules p) || covered (rp_deny_domains p) then FBlock
  else if rp_unfiltered p then FForward
  else if negb (allow_mask lists =? 0)%Z then FForward
  else if negb (block_mask lists =? 0)%Z then FBlock
  else FForward.

(** Without [block_all]: what the engine returns, by the winning rule. *)
Definition layered (ATTR : bool) (e : FilterEngine) (d : str) (p : ResolvedProfile)
  : FilterResult * option BlockSource :=
  let covered := set_hit (d :: dot_suffixes d) in
  let lists := list_membership_for e d (rp_name p) in
  match priority_scan (rp_rules p) d with
  | Some (priority, rule) =>
    if (priority <? 1)%Z && covered (rp_allow_domains p) then (FForward, None)
    else rule_outcome ATTR rule
  | None =>
    if covered (rp_allow_domains p) then (FForward, None)
    else if covered (rp_deny_domains p) then (FBlock, with_source ATTR BSAdminBlock)
    else if rp_unfiltered p then (FForward, None)
    else if negb (allow_mask lists =? 0)%Z then (FForward, None)
    else if negb (block_mask lists =? 0)%Z then
      (FBlock, with_source ATTR (BSList (as_u8 (trailing_zeros (block_mask lists)))))
    else (FForward, None)
  end.

Lemma set_hit_empty keys : set_hit keys ∅ = false.
Proof. apply not_true_is_false. rewrite set_hit_spec. set_solver. Qed.

Lemma nonempty_hit keys set : bool_decide (set ≠ ∅) && set_hit keys set = set_hit keys set.
Proof. case_bool_decide as E; [done|]. subst. by rewrite set_hit_empty. Qed.

Lemma evaluate_inner_layered ATTR e d p :
  rp_block_all p = false → evaluate_inner ATTR e d p = layered ATTR e d p.
Proof.
  intros Hb. unfold evaluate_inner, layered. rewrite Hb.
  change {| ws_deny_hit := false; ws_allow_bits := 0; ws_block_bits := 0 |}
    with {| ws_deny_hit := false; ws_allow_bits := allow_mask no_masks; ws_block_bits := block_mask no_masks |}.
  rewrite walk_suffixes_spec. cbv zeta.
  change (fold_left (fun acc k => or_probe acc (probe_shard e k (rp_name p))) (d :: dot_suffixes d) no_masks)
    with (list_membership_for e d (rp_name p)).
  set (ca := set_hit (d :: dot_suffixes d) (rp_allow_domains p)).
  set (cd := set_hit (d :: dot_suffixes d) (rp_deny_domains p)).
  pose proof (nonempty_hit (d :: dot_suffixes d) (rp_allow_domains p)) as Ha. fold ca in Ha.
  pose proof (nonempty_hit (d :: dot_suffixes d) (rp_deny_domains p)) as Hd. fold cd in Hd.
  destruct (priority_scan (rp_rules p) d) as [[priority rule]|] eqn:E; cbn [fmap option_fmap option_map snd].
  - rewrite (bool_decide_eq_false_2 (Some rule = None)) by done. cbn [andb]. rewrite !orb_false_r.
    apply priority_scan_Some in E as [-> _].
    destruct (Z.eqb_spec (rule_priority rule) 3) as [E3|E3].
    + rewrite E3. cbn [Z.ltb andb]. unfold rule_outcome.
      unfold rule_priority, priority_of in E3. by destruct (important rule), (action rule).
    + destruct (rule_priority rule <? 1)%Z; cbn [andb negb]; [|done].
      destruct (bool_decide (rp_allow_domains p ≠ ∅)); cbn [andb negb] in *; [by rewrite Ha || destruct ca|].
      rewrite <-Ha. done.
  - rewrite (bool_decide_eq_true_2 (None = None)) by done. cbn [andb Z.ltb].
    change (-1 =? 3)%Z with false. cbv iota. change (-1 <? 1)%Z with true. cbn [andb].
    rewrite Ha, Hd, orb_false_l.
    destruct (bool_decide (rp_allow_domains p ≠ ∅)) eqn:E1, (bool_decide (rp_deny_domains p ≠ ∅)) eqn:E2,
      (rp_unfiltered p); cbn [andb orb negb] in *; rewrite <-?Ha, <-?Hd; cbn [andb orb negb];
      try done; try (destruct ca; [done|]); try (destruct cd; done).
Qed.

(** The rules' verdict with the allow set joined in at its priority. *)
Lemma layered_table ATTR e d p : (layered ATTR e d p).1 = verdict_table e d p.
Proof.
  unfold layered, verdict_table. cbv zeta.
  destruct (priority_scan (rp_rules p) d) as [[priority rule]|] eqn:E.
  - apply priority_scan_Some in E as [-> Hw].
    pose proof (some_match_winner _ _ _ Hw) as Hm.
    pose proof (fun imp a => some_match_above _ _ _ imp a Hw) as Ha. unfold rule_priority, rule_outcome in *.
    destruct (important rule), (action rule); simpl in *; rewrite ?Hm; rewrite ?Ha by (simpl; lia);
      rewrite ?Hm; simpl; try done.
    by destruct (_ || _).
  - apply priority_scan_None in E. rewrite Forall_forall in E.
    assert (∀ imp a, some_match imp a d (rp_rules p) = false) as Hn.
    { intros imp a. apply not_true_iff_false. rewrite some_match_spec.
      intros (r & Hin & _ & _ & Hmt). apply E in Hin. congruence. }
    rewrite !Hn. cbn [orb]. repeat (case_match; try done).
Qed.

(** C3: [evaluate] is its documented truth table.  With [block_all], a name is
    forwarded exactly when the allow set covers it or the rules allow it;
    otherwise the layers decide in order: important allow, important deny,
    allow (rule or allow set), deny (rule or deny set), then, unless the
    resolution is unfiltered, an allow list over the whole chain of the name
    before a block list. *)
Theorem evaluate_truth_table e d p :
  evaluate e d p =
  if rp_block_all p then
    if set_hit (d :: dot_suffixes d) (rp_allow_domains p)
       || bool_decide (evaluate_rules d (rp_rules p) = Some FForward)
    then FForward else FBlock
  else verdict_table e d p.
Proof.
  unfold evaluate. destruct (rp_block_all p) eqn:Hb.
  - unfold evaluate_inner, evaluate_rules. rewrite Hb, domain_matches_set_hit.
    destruct (set_hit _ _); [done|]. cbn [orb].
    destruct (priority_scan (rp_rules p) d) as [[priority rule]|]; [|done].
    by destruct (action rule).
  - rewrite evaluate_inner_layered by done. apply layered_table.
Qed.

(** ** Attribution *)

Definition bits_wf (e : FilterEngine) : Prop :=
  Forall (fun s => Forall (fun p => in_u64 p.2) (entries s)) (shards e).

Lemma probe_in_u64 e key profile m :
  engine_wf e → bits_wf e → probe_shard e key profile = Some m →
  in_u64 (allow_mask m) ∧ in_u64 (block_mask m).
Proof.
  intros [Hl Hs] Hb. unfold probe_shard. destruct (is_inert _); [done|].
  assert (shards e !! shard_index key = Some (shards e !!! shard_index key)) as Hlk.
  { apply list_lookup_lookup_total_lt. rewrite Hl. apply shard_index_range. }
  intros Hm. apply fmap_Some in Hm as (bits & Hbits & ->).
  apply slice_get_spec in Hbits; [|by apply (Forall_lookup_1 _ _ _ _ Hs Hlk)].
  pose proof (Forall_lookup_1 _ _ _ _ Hb Hlk) as Hf. cbv beta in Hf. rewrite Forall_forall in Hf.
  apply Hf in Hbits. cbn [snd] in Hbits. split; by apply in_u64_land.
Qed.

Lemma membership_in_u64 e d profile :
  engine_wf e → bits_wf e → in_u64 (block_mask (list_membership_for e d profile)).
Proof.
  intros Hw Hb. unfold list_membership_for, walk_membership.
  assert (∀ acc m, in_u64 (block_mask acc) → (∀ x, m = Some x → in_u64 (block_mask x)) →
    in_u64 (block_mask (or_probe acc m))) as Hor.
  { intros acc [m|] Ha Hm; [|done]. simpl. apply in_u64_lor; auto. }
  assert (∀ k x, probe_shard e k profile = Some x → in_u64 (block_mask x)) as Hp.
  { intros k x Hx. by apply (probe_in_u64 e k profile x) in Hx as [_ ?]. }
  assert (in_u64 (block_mask (or_probe no_masks (probe_shard e d profile)))) as H0.
  { apply Hor; [|apply Hp]. unfold in_u64, U64_MAX. simpl. lia. }
  revert H0. generalize (or_probe no_masks (probe_shard e d profile)).
  induction (dot_suffixes d) as [|k l IH]; intros acc Ha; cbn [fold_left]; [done|].
  apply IH, Hor; [done|apply Hp].
Qed.

(** What each cause of a block means. *)
Definition cause_holds (e : FilterEngine) (d : str) (p : ResolvedProfile) (s : BlockSource) : Prop :=
  match s with
  | BSRule label =>
    rp_block_all p = false ∧ ∃ r, wins (rp_rules p) d r ∧ action r = Block
      ∧ label = rule_pattern_label (pattern r)
  | BSAdminBlock =>
    rp_block_all p = true
    ∨ (Forall (fun r => matches r d = false) (rp_rules p)
       ∧ set_hit (d :: dot_suffixes d) (rp_deny_domains p) = true)
  | BSList b =>
    rp_unfiltered p = false ∧ Forall (fun r => matches r d = false) (rp_rules p)
    ∧ allow_mask (list_membership_for e d (rp_name p)) = 0%Z
    ∧ let blocks := block_mask (list_membership_for e d (rp_name p)) in
      (0 ≤ b < 64)%Z ∧ Z.testbit blocks b = true ∧ ∀ i, (0 ≤ i < b)%Z → Z.testbit blocks i = false
  | _ => False
  end.

(** C4: [evaluate_attributed] returns the verdict of [evaluate], names a cause
    exactly when it blocks, and the cause it names is the real one: the
    pattern of the winning rule, the profile's own deny, or the lowest bit of
    the block lists that contain the name or a parent of it. *)
Theorem evaluate_attributed_exact e d p :
  engine_wf e → bits_wf e →
  (evaluate_attributed e d p).1 = evaluate e d p
  ∧ match evaluate_attributed e d p with
    | (FForward, source) => source = None
    | (FBlock, source) => ∃ s, source = Some s ∧ cause_holds e d p s
    end.
Proof.
  intros Hw Hbits. unfold evaluate_attributed, evaluate. destruct (rp_block_all p) eqn:Hb.
  - unfold evaluate_inner. rewrite Hb. destruct (domain_matches_set _ _); [done|].
    destruct (priority_scan (rp_rules p) d) as [[priority rule]|]; [case_decide; [done|]|]; simpl;
      (split; [done|]); exists BSAdminBlock; (split; [done|by left]).
  - rewrite !evaluate_inner_layered by done. split; [by rewrite !layered_table|].
    unfold layered. cbv zeta. destruct (priority_scan (rp_rules p) d) as [[priority rule]|] eqn:E.
    + apply priority_scan_Some in E as [-> Hwin]. destruct (_ && _); [done|]. unfold rule_outcome.
      destruct (action rule) eqn:Ha; [|done]. simpl. eexists. split; [done|]. simpl. eauto.
    + apply priority_scan_None in E. destruct (set_hit _ (rp_allow_domains p)); [done|].
      destruct (set_hit _ (rp_deny_domains p)) eqn:Hd;
        [exists BSAdminBlock; split; [done|by right]|].
      destruct (rp_unfiltered p) eqn:Hun; [done|].
      set (m := list_membership_for e d (rp_name p)).
      destruct (Z.eqb_spec (allow_mask m) 0) as [Ha|]; [|done].
      destruct (Z.eqb_spec (block_mask m) 0) as [|Hbl]; [done|]. simpl.
      pose proof (trailing_zeros_spec (block_mask m) (membership_in_u64 e d _ Hw Hbits) Hbl) as (Hr & Ht & Hlow).
      eexists. split; [done|]. simpl. fold m.
      assert (as_u8 (trailing_zeros (block_mask m)) = trailing_zeros (block_mask m)) as ->.
      { unfold as_u8. apply Z.mod_small. lia. }
      done.
Qed.

(** ** Unknown profiles *)

(** No shard has masks for the profile, and every shard falls back to the
    restrictive masks, as each published policy does. *)
Definition unknown_profile (e : FilterEngine) (profile : str) : Prop :=
  Forall (fun s => lp_fallback (policy s) = RESTRICTIVE ∧ lp_per_profile (policy s) !! profile = None)
    (shards e).

Lemma unknown_probe e key profile :
  engine_wf e → bits_wf e → unknown_profile e profile →
  probe_shard e key profile =
  (fun bits => {| allow_mask := 0; block_mask := bits |})
    <$> slice_get (entries (shards e !!! shard_index key)) key.
Proof.
  intros [Hl Hs] Hb Hu. unfold probe_shard.
  assert (shards e !! shard_index key = Some (shards e !!! shard_index key)) as Hlk.
  { apply list_lookup_lookup_total_lt. rewrite Hl. apply shard_index_range. }
  pose proof (Forall_lookup_1 _ _ _ _ Hu Hlk) as [Hf Hn]. cbv beta in *.
  unfold masks_for. rewrite Hn, Hf. cbn [default is_inert RESTRICTIVE pm_allow pm_block].
  change (is_inert RESTRICTIVE) with false. cbv iota.
  destruct (slice_get (entries (shards e !!! shard_index key)) key) as [bits|] eqn:E; [|done].
  apply slice_get_spec in E; [|by apply (Forall_lookup_1 _ _ _ _ Hs Hlk)].
  pose proof (Forall_lookup_1 _ _ _ _ Hb Hlk) as Hbf. cbv beta in Hbf. rewrite Forall_forall in Hbf.
  apply Hbf in E. cbn [snd] in E. cbn [fmap option_fmap option_map]. f_equal. unfold apply_masks.
  cbn [pm_allow pm_block RESTRICTIVE]. f_equal; [apply Z.land_0_r|].
  change U64_MAX with (Z.ones 64). rewrite Z.land_ones by lia. apply Z.mod_small.
  unfold in_u64, U64_MAX in E. lia.
Qed.

(** A name, or one that it lies under, is on some list of the corpus. *)
Definition on_a_list (e : FilterEngine) (d : str) : Prop :=
  ∃ k bits, k ∈ d :: dot_suffixes d ∧ bits ≠ 0%Z ∧ slice_get (entries (shards e !!! shard_index k)) k = Some bits.

Lemma unknown_blocks e d profile : engine_wf e → bits_wf e → unknown_profile e profile → on_a_list e d → block_mask (list_membership_for e d profile) ≠ 0%Z.
Proof.
  intros Hw Hb Hu (k & bits & Hk & Hne & Hlook) Hz. assert (in_u64 bits) as [Hpos _].
  { pose proof (unknown_probe e k profile Hw Hb Hu) as Hp. rewrite Hlook in Hp. by apply probe_in_u64 in Hp as [_ ?]. }
  destruct (land_nonzero_testbit bits Hne Hpos) as (i & _ & Hi).
  assert (Z.testbit (block_mask (list_membership_for e d profile)) i = true) as Hx.
  { apply (walk_membership_testbit block_mask); [done|done|].
    exists k, {| allow_mask := 0; block_mask := bits |}. split_and!; [done| |done].
    rewrite unknown_probe by done. by rewrite Hlook. }
  by rewrite Hz, Z.bits_0 in Hx.
Qed.

Lemma unknown_never_allows e d profile : engine_wf e → bits_wf e → unknown_profile e profile → allow_mask (list_membership_for e d profile) = 0%Z.
Proof.
  intros Hw Hb Hu. apply Z.bits_inj_0. intros i. apply not_true_is_false. intros Hi.
  apply (walk_membership_testbit allow_mask) in Hi as (k & m & _ & Hp & Hm); [|done|done].
  rewrite unknown_probe in Hp by done. apply fmap_Some in Hp as (bits & _ & ->). simpl in Hm. by rewrite Z.bits_0 in Hm.
Qed.

Lemma rules_forward d rules : evaluate_rules d rules = Some FForward → ∃ imp, some_match imp Allow d rules = true.
Proof.
  unfold evaluate_rules. destruct (priority_scan rules d) as [[priority rule]|] eqn:E; [|done]. apply priority_scan_Some in E as [_ Hw%some_match_winner].
  intros Ha. exists (important rule). cbn in Ha. by destruct (action rule).
Qed.

(** C16: a profile the published policy does not know is filtered, never
    exempted.  No list can allow a name for it.  A name that is listed, or lies
    under a name that is listed, on any list of the corpus is forwarded only by
    what the profile itself says: that it is unfiltered, or an allow rule of its
    own that matches the name, or its set of allowed names; and unless it is
    unfiltered, the lists report the name to the operator's policy as denied. *)
Theorem unknown_profile_fails_closed e d p :
  engine_wf e → bits_wf e → unknown_profile e (rp_name p) →
  allow_mask (list_membership_for e d (rp_name p)) = 0%Z
  ∧ (on_a_list e d →
     (evaluate e d p = FForward → rp_unfiltered p = true ∨ set_hit (d :: dot_suffixes d) (rp_allow_domains p) = true
        ∨ ∃ imp, some_match imp Allow d (rp_rules p) = true)
     ∧ (rp_unfiltered p = false → external_matches e d p = ExtDeny)).
Proof.
  intros Hw Hb Hu. pose proof (unknown_never_allows e d _ Hw Hb Hu) as Ha. split; [done|]. intros Hl. pose proof (unknown_blocks e d _ Hw Hb Hu Hl) as Hne. apply Z.eqb_neq in Hne. split.
  - rewrite evaluate_truth_table. destruct (rp_block_all p).
    + destruct (set_hit _ _); [by right; left|]. cbn [orb]. case_bool_decide as He; [|done]. intros _. right. right. by apply rules_forward.
    + unfold verdict_table. rewrite Ha, Hne. cbn [Z.eqb negb]. destruct (some_match true Allow _ _) eqn:E1; [by right; right; exists true|].
      destruct (some_match true Block _ _); [done|]. destruct (some_match false Allow _ _) eqn:E2; [by right; right; exists false|]. cbn [orb].
      destruct (set_hit _ (rp_allow_domains p)); [by right; left|]. destruct (_ || _); [done|]. destruct (rp_unfiltered p); [by left|done].
  - intros Hun. unfold external_matches, external_matches_attributed. rewrite Hun, Ha. cbn [fst]. by rewrite Hne.
Qed.

(** ** Reload *)

(** A shard-by-shard reload is atomic per name: after any number of the
    sixteen stores, a probe answers exactly as the new generation or exactly
    as the old one, according to the shard of the key alone; after all of them
    it answers as the new generation. *)
Theorem reload_atomic_per_key e maps n key profile :
  engine_wf e → length maps = DOMAIN_SHARDS →
  probe_shard (store_some n maps e) key profile =
    (if decide (shard_index key < n) then probe_shard (from_shard_maps maps) key profile
     else probe_shard e key profile)
  ∧ store_shard_maps e maps = from_shard_maps maps.
Proof.
  intros [Hl _] Hm. split.
  - pose proof (shard_index_range key) as Hr. unfold probe_shard.
    assert (shards (store_some n maps e) !!! shard_index key =
      (if decide (shard_index key < n) then shards (from_shard_maps maps) !!! shard_index key
       else shards e !!! shard_index key)) as ->; [|by case_decide].
    cbn [shards store_some from_shard_maps]. apply list_lookup_total_correct. case_decide as Hd.
    + rewrite lookup_app_l by (rewrite length_take; lia). rewrite lookup_take_lt by done.
      apply list_lookup_lookup_total_lt. lia.
    + rewrite lookup_app_r by (rewrite length_take; lia). rewrite lookup_drop, length_take.
      replace (n + (shard_index key - n `min` length maps)) with (shard_index key) by lia.
      apply list_lookup_lookup_total_lt. lia.
  - unfold store_shard_maps, store_some, from_shard_maps. f_equal.
    rewrite take_ge, drop_ge, app_nil_r by lia. done.
Qed.
End Verdict.

(** ** A concrete engine *)

#[local] Existing Instance literal_programs.
#[local] Existing Instance length_hasher.

(** One block list with bit 1, which only the profile kids is known to use. *)
Definition sample_shard : SortedShard :=
  {| entries := [(lit "ads.test", 2%Z)];
     policy := derived {| policy_base := RESTRICTIVE;
                          policy_per_profile := {[ lit "kids" := {| pm_allow := 0; pm_block := 2 |} ]} |} 1 |}.

Definition sample_engine : FilterEngine := {| shards := <[8 := sample_shard]> (shards new_engine) |}.

Definition sample_profile (name : str) (allow : gset str) (rules : list DnsRule) : ResolvedProfile :=
  {| rp_name := name; rp_unfiltered := false; rp_allow_domains := allow; rp_deny_domains := ∅;
     rp_block_all := false; rp_rules := rules; rp_operator_rules := None |}.

Lemma sample_engine_wf : engine_wf sample_engine.
Proof.
  split; [done|]. cbn [shards sample_engine]. apply Forall_insert; [|repeat constructor].
  by repeat constructor.
Qed.

Lemma sample_engine_bits : bits_wf sample_engine.
Proof.
  apply Forall_insert; [apply Forall_forall; intros s Hs; apply list_elem_of_In, in_map_iff in Hs as (i & <- & _); constructor|].
  repeat constructor; vm_compute; discriminate.
Qed.

(** A list block names the bit of the list. *)
Lemma evaluate_attributed_exact_witness :
  let p := sample_profile (lit "kids") ∅ [] in
  evaluate_attributed sample_engine (lit "x.ads.test") p = (FBlock, Some (BSList 1))
  ∧ cause_holds sample_engine (lit "x.ads.test") p (BSList 1).
Proof.
  cbv zeta. assert (evaluate_attributed sample_engine (lit "x.ads.test") (sample_profile (lit "kids") ∅ [])
    = (FBlock, Some (BSList 1))) as E by (vm_compute; reflexivity).
  pose proof (evaluate_attributed_exact sample_engine (lit "x.ads.test") (sample_profile (lit "kids") ∅ [])
    sample_engine_wf sample_engine_bits) as [_ Hc].
  rewrite E in Hc. destruct Hc as (s & [= <-] & Hc). by split.
Defined.

Lemma unknown_profile_fails_closed_witness :
  external_matches sample_engine (lit "x.ads.test") (sample_profile (lit "guest") ∅ []) = ExtDeny.
Proof.
  assert (unknown_profile sample_engine (lit "guest")) as Hu.
  { apply Forall_insert; [|done]. apply Forall_forall. intros s Hs.
    apply list_elem_of_In, in_map_iff in Hs as (i & <- & _). by split. }
  destruct (unknown_profile_fails_closed sample_engine (lit "x.ads.test") (sample_profile (lit "guest") ∅ []) sample_engine_wf sample_engine_bits Hu) as [_ H].
  apply H; [|reflexivity]. exists (lit "ads.test"), 2%Z. split_and!; [right; left|done|vm_compute; reflexivity].
Defined.

(** A reload to an empty corpus: the listed name is gone once its shard, the
    ninth, has been stored, and not before. *)
Lemma reload_atomic_per_key_witness :
  let maps := shards new_engine in
  probe_shard (store_some 8 maps sample_engine) (lit "ads.test") (lit "kids")
    = Some {| allow_mask := 0; block_mask := 2 |}
  ∧ probe_shard (store_some 9 maps sample_engine) (lit "ads.test") (lit "kids") = None.
Proof.
  cbv zeta. split.
  - destruct (reload_atomic_per_key sample_engine (shards new_engine) 8 (lit "ads.test") (lit "kids")
      sample_engine_wf eq_refl) as [-> _]. vm_compute. reflexivity.
  - destruct (reload_atomic_per_key sample_engine (shards new_engine) 9 (lit "ads.test") (lit "kids")
      sample_engine_wf eq_refl) as [-> _]. vm_compute. reflexivity.
Defined.
