(* ===== verification/ActivePolicy.v ===== *)
(** * The active operator policy

    [FilterEngine::evaluate_active_operator_policy] joins a compiled snapshot
    with the downloaded lists.  Its decision is the one the source text of the
    mounted lists and the list membership of the name give. *)

From S2P Require Import Prelude RustStr SortedSlice DnsTypes Domain Rules Evaluator Shard Decision Limits Admission Ast Compiler CompilerIndex CompilerStore Engine EngineProofs EngineVerdict.

Section Active.
Context {SH : Sha2Crate} {RC : RegexCrate} {RP : RegexPrograms} {H : ShardHasher}.

(** The profiles of a snapshot are those it was compiled for. *)
Lemma compiled_ids packs profiles l c :
  compiled packs profiles l c →
  ascending (cr_profiles c) ∧ (cr_profiles c).*1 ≡ₚ map mt_profile_id profiles.
Proof.
  intros [(s & plans & sources & ps & _ & Hf & Hnd & Hps & Hf2) _ _].
  assert (ps.*1 = map plan_id plans) as Hids.
  { clear -Hf2. induction Hf2 as [|x y xs ys [Hx _] _ IH]; csimpl; [done|]. by rewrite Hx, IH. }
  assert (map plan_id plans = map mt_profile_id profiles) as Hms.
  { clear -Hf. induction Hf as [|m plan ms ps' Hm _ IH]; csimpl; [done|]. by rewrite (po_id _ _ _ Hm), IH. }
  rewrite Hps. split; [apply merge_sort_ascending; by rewrite Hids|].
  by rewrite (merge_sort_Permutation key_le ps), Hids, Hms.
Qed.

Lemma compiled_absent packs profiles l c id :
  compiled packs profiles l c → id ∉ map mt_profile_id profiles → profile_index c id = None.
Proof.
  intros Hc Hid. apply compiled_ids in Hc as [Hasc Hp]. unfold profile_index.
  destruct (binary_search (cr_profiles c) id) as [i|i] eqn:E; [|done].
  apply binary_search_Ok in E; [|done]. exfalso. apply Hid. rewrite <-Hp.
  rewrite <-list_lookup_fmap in E. by apply list_elem_of_lookup_2 in E.
Qed.

Lemma binding_found c id p : profile c id = Some p → binding_new c id ≫= binding_profile = Some p.
Proof. unfold profile, binding_new, binding_profile. by destruct (profile_index c id). Qed.

(** The profile a binding produces. *)
Definition bound (p : ResolvedProfile) (c : CompiledOperatorRules) : ResolvedProfile :=
  {| rp_name := rp_name p; rp_unfiltered := rp_unfiltered p; rp_allow_domains := ∅;
     rp_deny_domains := ∅; rp_block_all := rp_block_all p; rp_rules := [];
     rp_operator_rules := binding_new c (rp_name p) |}.

Lemma bind_inv p c p' : bind_operator_rules p c = Some p' → p' = bound p c.
Proof.
  unfold bind_operator_rules. destruct (Id_new (rp_name p)) as [id|] eqn:E; [|done].
  apply Id_new_Ok in E as ->. by intros [= <-].
Qed.

(** What the cause of an operator-policy block means. *)
Definition policy_cause (packs : list PackSource) (m : ProfileMounts) (l : RuleCompileLimits)
    (external : ExternalMatches) (e : FilterEngine) (d : str) (p : ResolvedProfile) (s : BlockSource) : Prop :=
  let unmatched := Forall (fun a => ast_matches l a d = false) (mounted_asts packs m) in
  match s with
  | BSCustomList id =>
    ∃ a, mounted_ast packs m id a ∧ ast_matches l a d = true ∧ hit_verdict (ast_tier a) = VBlock
  | BSList b =>
    unmatched ∧ external = ExtDeny
    ∧ b = as_u8 (trailing_zeros (block_mask (list_membership_for e d (rp_name p))))
  | BSAdminBlock => unmatched ∧ external ≠ ExtDeny ∧ mt_block_all m = true
  | _ => False
  end.

Lemma no_hit_unmatched packs profiles l c m p d :
  compiled packs profiles l c → no_collisions packs → m ∈ profiles →
  profile c (mt_profile_id m) = Some p → (explain p d).*1 = [] →
  Forall (fun a => ast_matches l a d = false) (mounted_asts packs m).
Proof.
  intros Hc Hnc Hm Hp He. apply Forall_forall. intros a Ha. apply not_true_is_false. intros Hx.
  assert (tier_hit l (mounted_asts packs m) d (ast_tier a) = true) as Ht.
  { apply existsb_exists. exists a. split; [by apply list_elem_of_In|].
    by rewrite bool_decide_eq_true_2, Hx. }
  apply (hits_are_rows packs profiles l c m p d _ Hc Hnc Hm Hp) in Ht as (h & Hh & _).
  rewrite He in Hh. by apply not_elem_of_nil in Hh.
Qed.

Lemma external_deny_source e d p source :
  external_matches_attributed e d p = (ExtDeny, source) →
  source = Some (BSList (as_u8 (trailing_zeros (block_mask (list_membership_for e d (rp_name p)))))).
Proof.
  unfold external_matches_attributed. destruct (rp_unfiltered p); [done|]. cbv zeta.
  destruct (negb (allow_mask _ =? 0)%Z), (negb (block_mask _ =? 0)%Z); intros [=]; by subst.
Qed.

(** No mounted rule matches: the profile's default and the lists decide. *)
Lemma default_policy packs m l external source e d p g :
  external_matches_attributed e d p = (external, source) →
  Forall (fun a => ast_matches l a d = false) (mounted_asts packs m) →
  ∃ dec, (if decide (default_verdict (mt_block_all m) external = VForward) then
            Some {| ap_blocked := false; ap_source := None; ap_grant := g |}
          else Some {| ap_blocked := true;
                 ap_source := Some (default BSAdminBlock (if decide (external = ExtDeny) then source else None));
                 ap_grant := g |}) = Some dec
    ∧ ap_blocked dec = bool_decide (default_verdict (mt_block_all m) external = VBlock)
    ∧ match ap_source dec with
      | None => ap_blocked dec = false
      | Some s => ap_blocked dec = true ∧ policy_cause packs m l external e d p s
      end.
Proof.
  intros Hext Hno. case_decide as Hv; [rewrite Hv; eexists; by split_and!|].
  assert (default_verdict (mt_block_all m) external = VBlock) as Hv' by (by destruct (default_verdict _ _)).
  rewrite Hv'. eexists. split_and!; [done|done|]. split; [done|]. cbn [ap_source].
  case_decide as Hd.
  - subst. apply external_deny_source in Hext as ->. by split_and!.
  - split_and!; [done|done|]. unfold default_verdict in Hv'. destruct (mt_block_all m); [done|].
    by destruct external.
Qed.

(** The decision of a profile the snapshot was compiled for. *)
Lemma bound_policy packs profiles l c m e d p p' addr :
  compiled packs profiles l c → no_collisions packs → m ∈ profiles → rp_name p = mt_profile_id m →
  bind_operator_rules p c = Some p' →
  ∃ dec, evaluate_active_operator_policy e d p' addr = Some dec
    ∧ ap_blocked dec = bool_decide (rows_verdict l (mounted_asts packs m) d (mt_block_all m)
                                      (external_matches e d p) = VBlock)
    ∧ match ap_source dec with
      | None => ap_blocked dec = false
      | Some s => ap_blocked dec = true ∧ policy_cause packs m l (external_matches e d p) e d p s
      end.
Proof.
  intros Hc Hnc Hm Hname Hbd. apply bind_inv in Hbd as ->.
  destruct (compiled_profile _ _ _ _ _ Hc Hm) as (s & src & plan & q & Hb & Hok & Hq & Hst & Hmnt & Hba & Hlk).
  pose proof (binding_found _ _ _ Hq) as Hbind. unfold evaluate_active_operator_policy.
  cbn [rp_operator_rules bound]. rewrite Hname.
  destruct (binding_new c (mt_profile_id m)) as [b|]; [|done]. simpl in Hbind. rewrite Hbind.
  assert (rows_verdict l (mounted_asts packs m) d (mt_block_all m) (external_matches e d p) =
    match lookup_hit q d with
    | Some h => hit_verdict (tier h)
    | None => default_verdict (mt_block_all m) (external_matches e d p)
    end) as ->.
  { rewrite Hlk. symmetry. apply (best_tier_verdict _ (tier_hit l (mounted_asts packs m) d)).
    intros t. by apply (hits_are_rows packs profiles l c m q d t). }
  change (external_matches_attributed e d (bound p c)) with (external_matches_attributed e d p).
  unfold external_matches. destruct (external_matches_attributed e d p) as [external source] eqn:Hext.
  cbn [fst]. unfold Compiler.evaluate_attributed. cbn [ref_profile dec_decision]. rewrite Hba.
  destruct (lookup_hit q d) as [h|] eqn:E; cbn [reduce best_with_grant rd_verdict rd_winning_token].
  - destruct (hit_row _ _ _ _ _ _ _ _ Hc Hm Hq E) as (r & Hr & Ht & Hma & Hmatch). rewrite Hr, Ht.
    case_decide as Hv; [rewrite Hv; eexists; by split_and!|].
    assert (hit_verdict (ast_tier (st_ast r)) = VBlock) as Hv' by (by destruct (hit_verdict _)).
    rewrite Hv'. eexists. split_and!; [done|done|]. split; [done|]. by exists (st_ast r).
  - assert (Forall (fun a => ast_matches l a d = false) (mounted_asts packs m)) as Hno.
    { apply (no_hit_unmatched packs profiles l c m q); [done..|]. rewrite Hlk in E.
      by apply best_of_None in E. }
    by apply default_policy.
Qed.

(** C13: the active policy of a bound profile never panics and decides as the
    text of its mounted lists and the downloaded lists do: it blocks exactly
    when the rows of the mounted lists, tier by tier, or else the profile's
    default say so; a block names its real cause, the mounted list that denies
    the name, the downloaded list, or the profile's own [block_all].  A profile
    the snapshot was not compiled for is blocked. *)
Theorem active_policy_refines packs profiles l adm c adm' e d p p' addr :
  adm_wf adm → limits_wf l → no_collisions packs →
  compile packs profiles l adm = (Some (Ok c), adm') → bind_operator_rules p c = Some p' →
  (∀ m, m ∈ profiles → rp_name p = mt_profile_id m →
   ∃ dec, evaluate_active_operator_policy e d p' addr = Some dec
    ∧ ap_blocked dec = bool_decide (rows_verdict l (mounted_asts packs m) d (mt_block_all m)
                                      (external_matches e d p) = VBlock)
    ∧ match ap_source dec with
      | None => ap_blocked dec = false
      | Some s => ap_blocked dec = true ∧ policy_cause packs m l (external_matches e d p) e d p s
      end)
  ∧ (rp_name p ∉ map mt_profile_id profiles →
     evaluate_active_operator_policy e d p' addr =
     Some {| ap_blocked := true; ap_source := Some BSAdminBlock; ap_grant := None |}).
Proof.
  intros Hadm Hl Hnc Hcomp Hbd. pose proof (compile_spec packs profiles l adm Hadm Hl) as HC.
  rewrite Hcomp in HC. destruct HC as (_ & _ & Hc). split.
  2:{ apply bind_inv in Hbd as ->. intros Hn. unfold evaluate_active_operator_policy.
      cbn [rp_operator_rules bound].
      unfold binding_new. by rewrite (compiled_absent _ _ _ _ _ Hc Hn). }
  intros m Hm Hname. by apply (bound_policy packs profiles l c m e d p p' addr).
Qed.
End Active.

#[local] Existing Instance identity_sha.
#[local] Existing Instance literal_programs.
#[local] Existing Instance length_hasher.

(** The guest profile mounts the list of denials only, and a profile outside
    the snapshot is blocked. *)
Lemma active_policy_refines_witness :
  ∃ c adm' p' q' dec, compile sample_packs sample_mounts RuleCompileLimits_default sample_admission
      = (Some (Ok c), adm')
    ∧ bind_operator_rules (sample_profile (lit "guest") ∅ []) c = Some p'
    ∧ bind_operator_rules (sample_profile (lit "nobody") ∅ []) c = Some q'
    ∧ evaluate_active_operator_policy sample_engine (lit "x.ads.test") p' 0 = Some dec
    ∧ ap_blocked dec = true
    ∧ evaluate_active_operator_policy sample_engine (lit "x.test") q' 0
      = Some {| ap_blocked := true; ap_source := Some BSAdminBlock; ap_grant := None |}.
Proof.
  destruct sample_compiles as (c & adm' & E).
  assert (no_collisions sample_packs) as Hnc by (by intros ? ? ? _ _ _).
  destruct (active_policy_refines sample_packs sample_mounts RuleCompileLimits_default sample_admission c adm'
    sample_engine (lit "x.ads.test") (sample_profile (lit "guest") ∅ [])
    (bound (sample_profile (lit "guest") ∅ []) c) 0
    sample_adm_wf sample_limits_wf Hnc E eq_refl) as [Hg _].
  destruct (active_policy_refines sample_packs sample_mounts RuleCompileLimits_default sample_admission c adm'
    sample_engine (lit "x.test") (sample_profile (lit "nobody") ∅ [])
    (bound (sample_profile (lit "nobody") ∅ []) c) 0
    sample_adm_wf sample_limits_wf Hnc E eq_refl) as [_ Hn].
  destruct (Hg {| mt_profile_id := lit "guest"; mt_custom_lists := [lit "ads"]; mt_block_all := false |}
    ltac:(right; left) eq_refl) as (dec & Hd & Hb & _).
  eexists c, adm', _, _, dec. split_and!; [done|reflexivity|reflexivity|exact Hd| |].
  - rewrite Hb. vm_compute. reflexivity.
  - apply Hn, (bool_decide_eq_false_1 _). vm_compute. reflexivity.
Defined.
