(* ===== verification/CustomList.v ===== *)
(** * Custom lists: [src/config/custom_list/grammar.rs] and [io.rs]

    The line grammar of operator-authored pack files, the compiled form of a
    file, and the edits that add, replace and remove a rule in its text. *)

From S2P Require Import Prelude RustStr DnsTypes Domain Rules.

(** ** The grammar *)

Definition MAX_PACK_DOMAIN_LEN : nat := 253.
Definition MAX_PACK_LABEL_LEN : nat := 63.

Inductive PackLine :=
| PBlank
| PAllow (domain : str)
| PDeny (domain : str).

Inductive GrammarError :=
| GNotARule
| GEmptyDomain
| GDomainTooLong (n : nat)
| GLabelTooLong (label : str)
| GEmptyLabel
| GHyphenAtLabelEdge (label : str)
| GNotLdh (c : str)
| GLineSeparator.

#[export] Instance pack_line_eq_dec : EqDecision PackLine.
Proof. solve_decision. Defined.
#[export] Instance grammar_error_eq_dec : EqDecision GrammarError.
Proof. solve_decision. Defined.
#[export] Instance parsed_line_eq_dec : EqDecision (result GrammarError PackLine).
Proof. solve_decision. Defined.
#[export] Instance normalised_eq_dec : EqDecision (result GrammarError str).
Proof. solve_decision. Defined.

Definition ldh (b : ascii) : bool :=
  is_ascii_alphanumeric b || bool_decide (b = HYPHEN) || bool_decide (b = DOT).

(** The first character of a UTF-8 string, by the length its lead byte gives. *)
Definition first_char (s : str) : str :=
  match s with
  | [] => []
  | b :: _ =>
    if (byte b <? 128)%Z then take 1 s else if (byte b <? 224)%Z then take 2 s
    else if (byte b <? 240)%Z then take 3 s else take 4 s
  end.

(** [for c in raw.chars()] up to the first character outside LDH. *)
Fixpoint first_not_ldh (s : str) : option str :=
  match s with
  | [] => None
  | b :: rest => if ldh b then first_not_ldh rest else Some (first_char s)
  end.

Fixpoint check_pack_labels (labels : list str) : result GrammarError () :=
  match labels with
  | [] => Ok ()
  | label :: rest =>
    if bool_decide (label = []) then Err GEmptyLabel
    else if MAX_PACK_LABEL_LEN <? length label then Err (GLabelTooLong label)
    else if starts_with [HYPHEN] label || ends_with [HYPHEN] label then Err (GHyphenAtLabelEdge label)
    else check_pack_labels rest
  end.

Definition normalise_domain (raw : str) : result GrammarError str :=
  if bool_decide (raw = []) then Err GEmptyDomain
  else if MAX_PACK_DOMAIN_LEN <? length raw then Err (GDomainTooLong (length raw))
  else match first_not_ldh raw with
       | Some c => Err (GNotLdh c)
       | None => check_pack_labels (split DOT raw) ;;? Ok (to_ascii_lowercase raw)
       end.

Definition strip_terminator (rest : str) : result GrammarError str :=
  let? body := ok_or (strip_suffix (lit "^") rest) GNotARule in normalise_domain body.

Definition parse_pack_line (line : str) : result GrammarError PackLine :=
  let t := trim line in
  if bool_decide (t = []) || starts_with (lit "#") t then Ok PBlank
  else match strip_prefix (lit "@@||") t with
       | Some rest => let? d := strip_terminator rest in Ok (PAllow d)
       | None =>
         match strip_prefix (lit "||") t with
         | Some rest => let? d := strip_terminator rest in Ok (PDeny d)
         | None => Err GNotARule
         end
       end.

Definition has_line_separator (s : str) : bool := contains NL s || contains CR s.

Definition pack_prefix (allow : bool) : str := if allow then lit "@@||" else lit "||".

Definition compose_line (domain : str) (allow : bool) : result GrammarError str :=
  if has_line_separator domain then Err GLineSeparator
  else
    let? d := normalise_domain domain in
    let line := pack_prefix allow ++ d ++ lit "^" in
    if has_line_separator line then Err GLineSeparator else Ok line.

(** ** Pack files *)

Record CompiledCustomList := {
  cl_allow : list str;
  cl_deny : list str;
  cl_skipped : nat;
}.

Definition add_line (out : CompiledCustomList) (line : str) : CompiledCustomList :=
  match parse_pack_line line with
  | Ok PBlank => out
  | Ok (PAllow d) => {| cl_allow := cl_allow out ++ [d]; cl_deny := cl_deny out; cl_skipped := cl_skipped out |}
  | Ok (PDeny d) => {| cl_allow := cl_allow out; cl_deny := cl_deny out ++ [d]; cl_skipped := cl_skipped out |}
  | Err _ => {| cl_allow := cl_allow out; cl_deny := cl_deny out; cl_skipped := cl_skipped out + 1 |}
  end.

Definition parse_text (text : str) : CompiledCustomList :=
  fold_left add_line (lines text) {| cl_allow := []; cl_deny := []; cl_skipped := 0 |}.

(** [read_pack_lines]: what a surface shows, line by line. *)
Definition line_views (text : str) : list (result GrammarError PackLine) :=
  map parse_pack_line (lines text).

Inductive AddOutcome := Added | AlreadyPresent.

(** The errors an edit of readable text can return; reading and replacing the
    file itself belong to the operating system. *)
Inductive PackWriteError :=
| PWGrammar (e : GrammarError)
| PWInvalidLine (line : nat) (e : GrammarError)
| PWTooLarge (size cap : Z)
| PWStaleLine (line : nat)
| PWDuplicate (rule : str) (line : nat).

(** [write_all_raw]: the text the file holds afterwards. *)
Definition write_all_raw (ls : list str) (max_bytes : Z) : result PackWriteError str :=
  let body := join NL ls in
  let body := match body with [] => [] | _ => body ++ [NL] end in
  if (max_bytes <? Z.of_nat (length body))%Z
  then Err (PWTooLarge (Z.of_nat (length body)) max_bytes) else Ok body.

(** [write_pack]: the first invalid line rejects the write. *)
Fixpoint first_invalid (ls : list str) (n : nat) : result PackWriteError () :=
  match ls with
  | [] => Ok ()
  | l :: rest => match parse_pack_line l with
                 | Err e => Err (PWInvalidLine (n + 1) e)
                 | Ok _ => first_invalid rest (n + 1)
                 end
  end.

Definition write_pack (ls : list str) (max_bytes : Z) : result PackWriteError str :=
  first_invalid ls 0 ;;? write_all_raw ls max_bytes.

(** The rule of a direction and a domain. *)
Definition pack_rule (allow : bool) (d : str) : PackLine := if allow then PAllow d else PDeny d.

Definition holds_rule (allow : bool) (target line : str) : bool :=
  match parse_pack_line line with
  | Ok (PAllow d) => allow && str_eqb d target
  | Ok (PDeny d) => negb allow && str_eqb d target
  | _ => false
  end.

Definition add_rule (text domain : str) (allow : bool) (max_bytes : Z)
  : result PackWriteError (AddOutcome * str) :=
  let? line := map_err PWGrammar (compose_line domain allow) in
  let? target := map_err PWGrammar (normalise_domain domain) in
  if existsb (holds_rule allow target) (lines text) then Ok (AlreadyPresent, text)
  else let? text' := write_all_raw (lines text ++ [line]) max_bytes in Ok (Added, text').

Definition names_domain (target line : str) : bool :=
  match parse_pack_line line with
  | Ok (PAllow d) | Ok (PDeny d) => str_eqb d target
  | _ => false
  end.

Definition remove_rule (text domain : str) (max_bytes : Z) : result PackWriteError (bool * str) :=
  let? target := map_err PWGrammar (normalise_domain domain) in
  let kept := List.filter (fun l => negb (names_domain target l)) (lines text) in
  if negb (length kept =? length (lines text)) then
    let? text' := write_all_raw kept max_bytes in Ok (true, text')
  else Ok (false, text).

(** The row number of another line that already holds the replacement. *)
Fixpoint find_duplicate (allow : bool) (want : str) (idx i : nat) (ls : list str) : option nat :=
  match ls with
  | [] => None
  | l :: rest =>
    if negb (i =? idx) && holds_rule allow want l then Some (i + 1)
    else find_duplicate allow want idx (i + 1) rest
  end.

(** Whether a line still holds what the operator saw on it. *)
Definition holds_what_was_seen (expect_domain : str) (expect_allow : bool) (line : str) : bool :=
  match parse_pack_line line with
  | Ok (PAllow d) => expect_allow && bool_decide (normalise_domain expect_domain = Ok d)
  | Ok (PDeny d) => negb expect_allow && bool_decide (normalise_domain expect_domain = Ok d)
  | _ => false
  end.

Definition replace_rule_at_line (text : str) (line_no : nat) (expect : str * bool) (domain : str)
    (allow : bool) (max_bytes : Z) : result PackWriteError str :=
  let? new_line := map_err PWGrammar (compose_line domain allow) in
  let? want := map_err PWGrammar (normalise_domain domain) in
  let ls := lines text in
  match line_no with
  | 0 => Err (PWStaleLine line_no)
  | S idx =>
    match ls !! idx with
    | None => Err (PWStaleLine line_no)
    | Some line =>
      if negb (holds_what_was_seen expect.1 expect.2 line) then Err (PWStaleLine line_no)
      else match find_duplicate allow want idx 0 ls with
           | Some n => Err (PWDuplicate new_line n)
           | None => write_all_raw (<[idx := new_line]> ls) max_bytes
           end
    end
  end.

(** ** Lines of a rewritten file *)

Lemma trim_end_cr s : trim_end (s ++ [CR]) = trim_end s.
Proof. unfold trim_end. by rewrite rev_app_distr. Qed.

Lemma trim_start_cr s :
  trim_start (s ++ [CR]) = match trim_start s with [] => [] | t => t ++ [CR] end.
Proof.
  assert (∀ a, ws2 a CR = false) as H2.
  { intros a. unfold ws2. change (byte CR) with 13%Z. simpl. by rewrite andb_false_r. }
  assert (∀ a b, ws3 a b CR = false) as H3.
  { intros a b. unfold ws3. change (byte CR) with 13%Z. simpl. by rewrite !andb_false_r. }
  cut (∀ n s, length s ≤ n → trim_start (s ++ [CR]) = match trim_start s with [] => [] | t => t ++ [CR] end);
    [eauto|].
  clear s. induction n as [|n IH]; intros s Hn; [by destruct s; simpl in *; [|lia]|].
  destruct s as [|a [|b [|c s]]]; [done|..]; cbn [app trim_start]; simpl in Hn.
  - destruct (ws1 a); [done|]. by rewrite H2.
  - destruct (ws1 a); [by apply (IH [b]); simpl; lia|].
    destruct (ws2 a b); [done|]. by rewrite H3.
  - destruct (ws1 a); [by apply (IH (b :: c :: s)); simpl; lia|].
    destruct (ws2 a b); [by apply (IH (c :: s)); simpl; lia|].
    destruct (ws3 a b c); [by apply (IH s); lia|done].
Qed.

Lemma trim_cr s : trim (s ++ [CR]) = trim s.
Proof.
  unfold trim. rewrite trim_start_cr. destruct (trim_start s) as [|a t] eqn:E; [done|].
  apply (trim_end_cr (a :: t)).
Qed.

Definition strip_cr (line : str) : str := default line (strip_suffix [CR] line).

Lemma parse_strip_cr line : parse_pack_line (strip_cr line) = parse_pack_line line.
Proof.
  unfold strip_cr. destruct (strip_suffix [CR] line) as [l|] eqn:E; [|done]. simpl.
  apply strip_suffix_Some in E as ->. unfold parse_pack_line. by rewrite trim_cr.
Qed.

Lemma split_inclusive_line c w s : c ∉ w → split_inclusive c (w ++ c :: s) = (w ++ [c]) :: split_inclusive c s.
Proof.
  induction w as [|a w IH]; intros Hn; cbn [app split_inclusive]; [by rewrite decide_True|].
  rewrite decide_False by set_solver. by rewrite IH by set_solver.
Qed.

Lemma split_inclusive_fields c s :
  Forall (fun w => ∃ u, c ∉ u ∧ (w = u ++ [c] ∨ w = u)) (split_inclusive c s).
Proof.
  induction s as [|a s IH]; simpl; [constructor|]. case_decide as E.
  - subst. constructor; [|done]. exists []. split; [set_solver|by left].
  - destruct (split_inclusive c s) as [|w ws].
    + constructor; [|done]. exists [a]. split; [set_solver|by right].
    + inversion_clear IH as [|? ? (u & Hu & Hw) Hf]. constructor; [|done]. exists (a :: u).
      split; [set_solver|]. destruct Hw as [->| ->]; [by left|by right].
Qed.

Lemma strip_eol_line w : strip_eol (w ++ [NL]) = strip_cr w.
Proof. unfold strip_eol. by rewrite strip_suffix_app. Qed.

Lemma strip_cr_incl w x : x ∈ strip_cr w → x ∈ w.
Proof.
  unfold strip_cr. destruct (strip_suffix [CR] w) as [l|] eqn:E; [|done].
  apply strip_suffix_Some in E as ->. simpl. set_solver.
Qed.

Lemma lines_no_nl s : Forall (fun l => NL ∉ l) (lines s).
Proof.
  unfold lines. rewrite Forall_map. eapply Forall_impl; [apply split_inclusive_fields|].
  intros w (u & Hu & [->| ->]); cbv beta.
  - rewrite strip_eol_line. intros Hin. by apply Hu, strip_cr_incl.
  - unfold strip_eol. destruct (strip_suffix [NL] u) as [l|] eqn:E; [|done].
    apply strip_suffix_Some in E as ->. set_solver.
Qed.

Lemma lines_join ls : ls ≠ [] → Forall (fun l => NL ∉ l) ls → lines (join NL ls ++ [NL]) = map strip_cr ls.
Proof.
  unfold lines. induction ls as [|l ls IH]; [done|]. intros _ Hf. inversion_clear Hf as [|? ? Hl Hf'].
  destruct ls as [|l' ls].
  - cbn [join]. rewrite split_inclusive_line by done. simpl. by rewrite strip_eol_line.
  - rewrite join_cons by done. rewrite <-app_assoc, <-app_comm_cons, split_inclusive_line by done.
    cbn [map]. rewrite strip_eol_line, IH by done. done.
Qed.

(** What a file shows after a write, line by line. *)
Lemma write_all_raw_views ls max text :
  Forall (fun l => NL ∉ l) ls → write_all_raw ls max = Ok text →
  (Z.of_nat (length text) ≤ max)%Z
  ∧ (line_views text = map parse_pack_line ls ∨ (text = [] ∧ (ls = [] ∨ ls = [[]]))).
Proof.
  unfold write_all_raw. intros Hf. destruct (join NL ls) as [|x body] eqn:E.
  - destruct (Z.ltb_spec max (Z.of_nat (length (@nil ascii)))); [done|]. intros [= <-]. split; [done|].
    right. split; [done|]. destruct ls as [|l [|l' ls]]; [by left|by right; simpl in E; subst|].
    rewrite join_cons in E by done. by destruct l.
  - rewrite <-E. destruct (Z.ltb_spec max (Z.of_nat (length (join NL ls ++ [NL])))); [done|].
    intros [= <-]. split; [done|]. left. unfold line_views.
    rewrite lines_join by (done || by intros ->). rewrite map_map.
    apply map_ext. intros l. apply parse_strip_cr.
Qed.

(** ** Normalised domains *)

Lemma first_not_ldh_None s : first_not_ldh s = None ↔ Forall (fun b => ldh b = true) s.
Proof.
  induction s as [|b s IH]; simpl; [split; [constructor|done]|]. rewrite Forall_cons, <-IH.
  destruct (ldh b); naive_solver.
Qed.

Lemma ldh_domain_char b : ldh b = true → domain_char b = true.
Proof.
  unfold ldh, domain_char. destruct (is_ascii_alphanumeric b), (bool_decide (b = HYPHEN)), (bool_decide (b = DOT)); done.
Qed.

Lemma ldh_neq b c : ldh b = true → ldh c = false → b ≠ c.
Proof. intros Hb Hc ->. by rewrite Hb in Hc. Qed.

Lemma check_pack_labels_ok labels :
  Forall (Forall (fun b => label_char b = true)) labels →
  check_pack_labels labels = Ok () → Forall label_ok labels.
Proof.
  induction labels as [|l labels IH]; intros Hc Hk; [constructor|]. inversion_clear Hc as [|? ? Hl Hc'].
  simpl in Hk. case_bool_decide as He; [done|]. destruct (MAX_PACK_LABEL_LEN <? length l) eqn:Hlen; [done|].
  destruct (starts_with [HYPHEN] l || ends_with [HYPHEN] l) eqn:Hh; [done|]. constructor; [|auto].
  apply orb_false_iff in Hh as [Hs He']. apply Nat.ltb_ge in Hlen.
  split; [done|exact Hlen|done|intros r ->..].
  - assert (starts_with [HYPHEN] (HYPHEN :: r) = true) as Hx by (apply starts_with_spec; by exists r).
    by rewrite Hx in Hs.
  - assert (ends_with [HYPHEN] (r ++ [HYPHEN]) = true) as Hx by (apply ends_with_spec; by exists r).
    by rewrite Hx in He'.
Qed.

Lemma normalise_domain_Ok raw d :
  normalise_domain raw = Ok d →
  d = to_ascii_lowercase raw ∧ is_valid_domain raw = true ∧ Forall (fun b => ldh b = true) raw.
Proof.
  unfold normalise_domain. case_bool_decide as Hne; [done|].
  destruct (MAX_PACK_DOMAIN_LEN <? length raw) eqn:Hlen; [done|]. apply Nat.ltb_ge in Hlen.
  destruct (first_not_ldh raw) eqn:Hl; [done|]. apply first_not_ldh_None in Hl. intros Hk. inv_bind.
  injection Hk as <-. split_and!; [done| |done].
  assert (Forall (fun b => domain_char b = true) raw) as Hd
    by (eapply Forall_impl; [exact Hl|apply ldh_domain_char]).
  apply is_valid_domain_unfold. split_and!; [done|exact Hlen|done|].
  apply check_pack_labels_ok; [|done]. by apply domain_chars_labels.
Qed.

(** The text of a rule line: its prefix, a domain and the anchor. *)
Lemma parse_pack_line_rule line allow d :
  parse_pack_line line = Ok (pack_rule allow d) →
  ∃ raw, trim line = pack_prefix allow ++ raw ++ lit "^" ∧ normalise_domain raw = Ok d.
Proof.
  unfold parse_pack_line. destruct (_ || _); [by destruct allow|].
  destruct (strip_prefix (lit "@@||") (trim line)) as [rest|] eqn:E.
  - apply strip_prefix_Some in E as ->. intros Hk. inv_bind. destruct allow; [|done].
    injection Hk as <-. unfold strip_terminator in Ha. inv_bind.
    destruct (strip_suffix (lit "^") rest) as [body|] eqn:Es; [|done]. injection Ha0 as <-.
    apply strip_suffix_Some in Es as ->. by exists body.
  - destruct (strip_prefix (lit "||") (trim line)) as [rest|] eqn:E'; [|done].
    apply strip_prefix_Some in E' as ->. intros Hk. inv_bind. destruct allow; [done|].
    injection Hk as <-. unfold strip_terminator in Ha. inv_bind.
    destruct (strip_suffix (lit "^") rest) as [body|] eqn:Es; [|done]. injection Ha0 as <-.
    apply strip_suffix_Some in Es as ->. by exists body.
Qed.

Section Meaning.
Context {RC : RegexCrate}.

(** The admin-rule reading of a pack rule. *)
Definition pack_dns_rule (allow : bool) (d : str) : DnsRule :=
  {| pattern := Exact d; action := if allow then Allow else Block; important := false; noapex := false |}.

Lemma parse_domain_rule_body act body d :
  normalise_domain body = Ok d →
  parse_modified_rule act (body ++ lit "^") =
  Ok {| pattern := Exact d; action := act; important := false; noapex := false |}.
Proof.
  intros Hn. apply normalise_domain_Ok in Hn as (-> & Hv & Hl).
  assert (∀ c, ldh c = false → c ∉ body) as Hno.
  { intros c Hc Hin. rewrite Forall_forall in Hl. apply Hl in Hin. by rewrite Hc in Hin. }
  unfold parse_modified_rule.
  assert (split_once "$"%char (body ++ lit "^") = None) as ->.
  { apply split_once_None. rewrite elem_of_app. intros [Hin|Hin]; [by apply (Hno "$"%char)|].
    by apply list_elem_of_singleton in Hin. }
  pose proof (is_valid_domain_nonempty _ Hv) as Hne.
  assert (strip_prefix (lit "*.") body = None) as Hs.
  { apply strip_prefix_None. intros r E. apply (Hno "*"%char); [done|]. rewrite E. by left. }
  assert (contains "*"%char body = false) as Hc by (by apply contains_false, Hno).
  unfold parse_domain_rule. rewrite strip_suffix_app. cbn [default]. unfold id. cbv zeta.
  rewrite Hs, Hc, Hv. by destruct body.
Qed.

(** The pack grammar is a sub-language of the admin-rule grammar with the
    same meaning: every rule line of a pack file, read as an admin rule, is
    the plain exact rule for the same domain and direction, which carries no
    modifier and so always fits the hash sets. *)
Theorem pack_line_is_admin_rule line allow d :
  parse_pack_line line = Ok (pack_rule allow d) →
  parse_rule_checked line = Ok (pack_dns_rule allow d) ∧ is_simple_exact (pack_dns_rule allow d) = true.
Proof.
  intros Hp. split; [|done]. apply parse_pack_line_rule in Hp as (raw & Ht & Hn).
  unfold parse_rule_checked. rewrite Ht. destruct allow.
  - change (pack_prefix true ++ raw ++ lit "^") with ("@"%char :: "@"%char :: lit "||" ++ raw ++ lit "^").
    cbv iota. change (strip_prefix (lit "@@") ("@"%char :: "@"%char :: lit "||" ++ raw ++ lit "^"))
      with (Some (lit "||" ++ raw ++ lit "^")). cbv iota. by apply parse_domain_rule_body.
  - change (pack_prefix false ++ raw ++ lit "^") with ("|"%char :: "|"%char :: raw ++ lit "^").
    cbv iota. change (strip_prefix (lit "@@") ("|"%char :: "|"%char :: raw ++ lit "^"))
      with (@None str). cbv iota. by apply parse_domain_rule_body.
Qed.
End Meaning.

(** ** Composed lines *)

Lemma lower_ldh b : ldh b = true → ldh (to_lower b) = true.
Proof.
  unfold ldh. intros Hb.
  assert (is_ascii_alphanumeric (to_lower b) = is_ascii_alphanumeric b) as ->.
  { unfold is_ascii_alphanumeric. rewrite to_lower_not_upper.
    unfold is_ascii_lowercase, is_ascii_digit. rewrite byte_to_lower. unfold is_ascii_uppercase.
    destruct (65 <=? byte b)%Z eqn:E1, (byte b <=? 90)%Z eqn:E2; cbn [andb orb]; try done. lia. }
  rewrite (bool_decide_ext (to_lower b = HYPHEN) (b = HYPHEN)) by (by apply to_lower_eq_iff).
  by rewrite (bool_decide_ext (to_lower b = DOT) (b = DOT)) by (by apply to_lower_eq_iff).
Qed.

Lemma normalise_lower raw d : normalise_domain raw = Ok d → normalise_domain d = Ok d.
Proof.
  intros Hn. pose proof (normalise_domain_Ok raw d Hn) as (-> & Hv & Hl). revert Hn.
  unfold normalise_domain. rewrite length_to_ascii_lowercase.
  rewrite (bool_decide_ext (to_ascii_lowercase raw = []) (raw = []))
    by (split; [apply map_eq_nil|by intros ->]).
  case_bool_decide; [done|]. destruct (_ <? _); [done|].
  assert (first_not_ldh (to_ascii_lowercase raw) = None) as ->.
  { apply first_not_ldh_None. unfold to_ascii_lowercase. rewrite Forall_map.
    eapply Forall_impl; [exact Hl|apply lower_ldh]. }
  destruct (first_not_ldh raw); [done|]. rewrite split_to_lower. intros Hk. inv_bind. clear Hk.
  rewrite (to_ascii_lowercase_id (to_ascii_lowercase raw)) by apply to_ascii_lowercase_lower.
  cut (check_pack_labels (map to_ascii_lowercase (split DOT raw)) = Ok ()); [by intros ->|].
  revert Ha. generalize (split DOT raw). induction l as [|w ws IH]; [done|]. cbn [map check_pack_labels].
  rewrite length_to_ascii_lowercase.
  rewrite (bool_decide_ext (to_ascii_lowercase w = []) (w = []))
    by (split; [apply map_eq_nil|by intros ->]).
  assert (starts_with [HYPHEN] (to_ascii_lowercase w) = starts_with [HYPHEN] w) as ->.
  { destruct w as [|c w]; [done|]. unfold starts_with. simpl.
    destruct (decide (HYPHEN = to_lower c)) as [E|E], (decide (HYPHEN = c)) as [E'|E']; try done.
    - destruct E'. symmetry. by apply (to_lower_eq_iff HYPHEN c).
    - by subst. }
  assert (ends_with [HYPHEN] (to_ascii_lowercase w) = ends_with [HYPHEN] w) as ->.
  { apply eq_true_iff_eq. rewrite !ends_with_spec. split; intros [r E].
    - destruct w as [|c w] using rev_ind; [by destruct r|]. rewrite to_ascii_lowercase_app in E.
      apply app_inj_tail in E as [_ E]. exists w. f_equal. f_equal. by apply (to_lower_eq_iff HYPHEN c).
    - subst. exists (to_ascii_lowercase r). by rewrite to_ascii_lowercase_app. }
  repeat case_match; try done.
Qed.

Lemma compose_line_Ok domain allow line :
  compose_line domain allow = Ok line →
  ∃ d, normalise_domain domain = Ok d ∧ line = pack_prefix allow ++ d ++ lit "^"
    ∧ NL ∉ line ∧ CR ∉ line.
Proof.
  unfold compose_line. destruct (has_line_separator domain); [done|]. intros Hk. inv_bind.
  cbv zeta in Hk. destruct (has_line_separator _) eqn:Hs; [done|]. injection Hk as <-.
  apply orb_false_iff in Hs as [Hn Hc]. rewrite contains_false in Hn, Hc. by exists a.
Qed.

Lemma trim_composed allow d :
  trim (pack_prefix allow ++ d ++ lit "^") = pack_prefix allow ++ d ++ lit "^".
Proof.
  destruct allow.
  - change (pack_prefix true ++ d ++ lit "^") with ("@"%char :: (lit "@||" ++ d) ++ ["^"%char]).
    by apply trim_ends.
  - change (pack_prefix false ++ d ++ lit "^") with ("|"%char :: (lit "|" ++ d) ++ ["^"%char]).
    by apply trim_ends.
Qed.

Lemma parse_composed allow raw d :
  normalise_domain raw = Ok d → parse_pack_line (pack_prefix allow ++ d ++ lit "^") = Ok (pack_rule allow d).
Proof.
  intros Hn. apply normalise_lower in Hn.
  assert (strip_terminator (d ++ lit "^") = Ok d) as Ht
    by (unfold strip_terminator; by rewrite strip_suffix_app).
  unfold parse_pack_line. rewrite trim_composed. destruct allow.
  - change (strip_prefix (lit "@@||") (pack_prefix true ++ d ++ lit "^")) with (Some (d ++ lit "^")).
    cbv iota. by rewrite Ht.
  - change (strip_prefix (lit "@@||") (pack_prefix false ++ d ++ lit "^")) with (@None str).
    change (strip_prefix (lit "||") (pack_prefix false ++ d ++ lit "^")) with (Some (d ++ lit "^")).
    cbv iota. by rewrite Ht.
Qed.

(** A line composed from any text holds exactly one rule: it carries no
    line separator, a file made of it has that one line, and the line reads
    back as the rule for the normalised domain in the chosen direction. *)
Theorem compose_line_roundtrip domain allow line :
  compose_line domain allow = Ok line →
  NL ∉ line ∧ CR ∉ line ∧ lines line = [line]
  ∧ ∃ d, normalise_domain domain = Ok d ∧ d = to_ascii_lowercase domain
      ∧ parse_pack_line line = Ok (pack_rule allow d).
Proof.
  intros Hc. apply compose_line_Ok in Hc as (d & Hn & -> & Hnl & Hcr). split_and!; [done|done| |].
  - set (line := pack_prefix allow ++ d ++ lit "^") in *. unfold lines.
    assert (split_inclusive NL line = [line]) as ->; [|unfold strip_eol; simpl].
    + assert (line ≠ []) as Hne by (by destruct allow). clearbody line.
      clear -Hnl Hne. induction line as [|a [|b l] IH]; [done|simpl; by rewrite decide_False by set_solver|].
      change (split_inclusive NL (a :: b :: l)) with
        (if decide (a = NL) then [a] :: split_inclusive NL (b :: l)
         else match split_inclusive NL (b :: l) with [] => [[a]] | w :: ws => (a :: w) :: ws end).
      rewrite decide_False by set_solver. by rewrite IH by set_solver.
    + destruct (strip_suffix [NL] line) as [l|] eqn:E; [|done]. apply strip_suffix_Some in E.
      destruct Hnl. rewrite E. set_solver.
  - exists d. split_and!; [done|by apply normalise_domain_Ok in Hn as [-> _]|by apply (parse_composed _ domain)].
Qed.

(** ** Edits *)

Lemma holds_rule_spec allow d line :
  holds_rule allow d line = true ↔ parse_pack_line line = Ok (pack_rule allow d).
Proof.
  unfold holds_rule, str_eqb. destruct (parse_pack_line line) as [[|x|x]|e]; destruct allow; simpl;
    rewrite ?bool_decide_eq_true; split; intros E; simplify_eq; done.
Qed.

Lemma names_domain_spec d line :
  names_domain d line = true ↔
  parse_pack_line line = Ok (PAllow d) ∨ parse_pack_line line = Ok (PDeny d).
Proof.
  unfold names_domain, str_eqb. destruct (parse_pack_line line) as [[|x|x]|e];
    rewrite ?bool_decide_eq_true; naive_solver.
Qed.

Lemma find_duplicate_None allow want idx i ls :
  find_duplicate allow want idx i ls = None ↔
  ∀ j l, ls !! j = Some l → i + j ≠ idx → parse_pack_line l ≠ Ok (pack_rule allow want).
Proof.
  revert i; induction ls as [|l ls IH]; intros i; cbn [find_duplicate]; [done|].
  destruct (negb (i =? idx) && holds_rule allow want l) eqn:E.
  - apply andb_true_iff in E as [Hi Hh]. apply holds_rule_spec in Hh.
    split; [done|]. intros Hn. destruct (Hn 0 l eq_refl); [|done].
    apply negb_true_iff, Nat.eqb_neq in Hi. lia.
  - rewrite IH. split.
    + intros Hn [|j] l' Hl Hj; [|apply (Hn j l' Hl); lia]. injection Hl as <-. intros Hp.
      apply holds_rule_spec in Hp. rewrite Hp, andb_true_r, negb_false_iff, Nat.eqb_eq in E. lia.
    + intros Hn j l' Hl Hj. apply (Hn (S j) l' Hl). lia.
Qed.

Lemma seen_spec d allow line :
  holds_what_was_seen d allow line = true ↔
  ∃ d', normalise_domain d = Ok d' ∧ parse_pack_line line = Ok (pack_rule allow d').
Proof.
  unfold holds_what_was_seen. destruct (parse_pack_line line) as [[|x|x]|e]; destruct allow; simpl;
    rewrite ?bool_decide_eq_true; split; try done; naive_solver.
Qed.

Lemma views_insert ls idx new :
  map parse_pack_line (<[idx := new]> ls) = <[idx := parse_pack_line new]> (map parse_pack_line ls).
Proof. apply (list_fmap_insert parse_pack_line). Qed.

Lemma view_filter d ls :
  map parse_pack_line (List.filter (fun l => negb (names_domain d l)) ls) =
  filter (fun v => v ≠ Ok (PAllow d) ∧ v ≠ Ok (PDeny d)) (map parse_pack_line ls).
Proof.
  induction ls as [|l ls IH]; [done|]. cbn [List.filter map]. rewrite filter_cons.
  destruct (names_domain d l) eqn:E; cbn [negb].
  - apply names_domain_spec in E. rewrite decide_False by naive_solver. done.
  - rewrite decide_True; [cbn [map]; by rewrite IH|].
    assert (¬ (parse_pack_line l = Ok (PAllow d) ∨ parse_pack_line l = Ok (PDeny d))) as Hn
      by (by rewrite <-names_domain_spec, E).
    naive_solver.
Qed.

Lemma filter_length_eq {A} (f : A → bool) (l : list A) :
  length (List.filter f l) = length l → List.filter f l = l.
Proof.
  induction l as [|x l IH]; [done|]. simpl. destruct (f x); simpl; intros E; [by rewrite IH by lia|].
  pose proof (filter_length_le f l). lia.
Qed.

(** The text of a successful write of a list with a rule line in it. *)
Lemma write_rule_views ls line max text :
  Forall (fun l => NL ∉ l) ls → line ∈ ls → line ≠ [] → write_all_raw ls max = Ok text →
  (Z.of_nat (length text) ≤ max)%Z ∧ line_views text = map parse_pack_line ls.
Proof.
  intros Hf Hin Hne Hw. destruct (write_all_raw_views _ _ _ Hf Hw) as [Hl [Hv|[_ [->| ->]]]]; [done| |].
  - by apply not_elem_of_nil in Hin.
  - by apply list_elem_of_singleton in Hin as ->.
Qed.

Lemma composed_line domain allow line d :
  compose_line domain allow = Ok line → normalise_domain domain = Ok d →
  line ≠ [] ∧ NL ∉ line ∧ parse_pack_line line = Ok (pack_rule allow d).
Proof.
  intros Hc Hd. apply compose_line_Ok in Hc as (d' & Hd' & -> & Hn & _). rewrite Hd in Hd'.
  injection Hd' as <-. split_and!; [by destruct allow|done|by apply (parse_composed _ domain)].
Qed.

Lemma add_rule_views text domain allow max d out text' :
  normalise_domain domain = Ok d → add_rule text domain allow max = Ok (out, text') →
  match out with
  | AlreadyPresent => text' = text ∧ Ok (pack_rule allow d) ∈ line_views text
  | Added => Ok (pack_rule allow d) ∉ line_views text
      ∧ line_views text' = line_views text ++ [Ok (pack_rule allow d)]
      ∧ (Z.of_nat (length text') ≤ max)%Z
  end.
Proof.
  intros Hd. unfold add_rule. intros Hk. inv_bind. rewrite Hd in Ha0. injection Ha0 as <-.
  destruct (composed_line _ _ _ _ Ha Hd) as (Hne & Hnl & Hp).
  assert (Ok (pack_rule allow d) ∈ line_views text ↔ existsb (holds_rule allow d) (lines text) = true) as Hex.
  { unfold line_views. rewrite existsb_exists, list_elem_of_In, in_map_iff.
    setoid_rewrite holds_rule_spec. naive_solver. }
  destruct (existsb (holds_rule allow d) (lines text)).
  - injection Hk as <- <-. split; [done|by apply Hex].
  - inv_bind. injection Hk as <- <-. split; [by rewrite Hex|].
    destruct (write_rule_views (lines text ++ [a]) a max a0) as [Hl Hv]; [|set_solver|done|done|].
    { apply Forall_app. split; [apply lines_no_nl|by constructor]. }
    split; [|done]. rewrite Hv, map_app. simpl. by rewrite Hp.
Qed.

Lemma replace_rule_views text domain allow max d n seen sa text' :
  normalise_domain domain = Ok d →
  replace_rule_at_line text n (seen, sa) domain allow max = Ok text' →
  ∃ i s, n = S i ∧ normalise_domain seen = Ok s
    ∧ line_views text !! i = Some (Ok (pack_rule sa s))
    ∧ (∀ j, j ≠ i → line_views text !! j ≠ Some (Ok (pack_rule allow d)))
    ∧ line_views text' = <[i := Ok (pack_rule allow d)]> (line_views text)
    ∧ (Z.of_nat (length text') ≤ max)%Z.
Proof.
  intros Hd. unfold replace_rule_at_line. intros Hk. inv_bind. rewrite Hd in Ha0. injection Ha0 as <-.
  destruct (composed_line _ _ _ _ Ha Hd) as (Hne & Hnl & Hp). cbn [fst snd] in Hk.
  destruct n as [|i]; [done|]. destruct (lines text !! i) as [line|] eqn:Hi; [|done].
  destruct (holds_what_was_seen seen sa line) eqn:Hs; [|done]. cbn [negb] in Hk.
  apply seen_spec in Hs as (s & Hs & Hline).
  destruct (find_duplicate allow d i 0 (lines text)) as [m|] eqn:Hdup; [done|].
  rewrite find_duplicate_None in Hdup.
  destruct (write_rule_views (<[i:=a]> (lines text)) a max text') as [Hl Hv]; [|by eapply list_elem_of_insert, lookup_lt_Some|done|done|].
  { apply Forall_insert; [apply lines_no_nl|done]. }
  exists i, s. split_and!; [done|done| | | |done].
  - unfold line_views. rewrite list_lookup_fmap, Hi. simpl. by rewrite Hline.
  - intros j Hj. unfold line_views. rewrite list_lookup_fmap. destruct (lines text !! j) as [l'|] eqn:E; [|done].
    simpl. intros [= Hx]. by apply (Hdup j l').
  - by rewrite Hv, views_insert, Hp.
Qed.

Lemma remove_rule_views text domain max d removed text' :
  normalise_domain domain = Ok d → remove_rule text domain max = Ok (removed, text') →
  let left := filter (fun v => v ≠ Ok (PAllow d) ∧ v ≠ Ok (PDeny d)) (line_views text) in
  (line_views text' = left ∨ (text' = [] ∧ left = [Ok PBlank]))
  ∧ (removed = false → text' = text)
  ∧ (removed = true → (Z.of_nat (length text') ≤ max)%Z).
Proof.
  intros Hd. unfold remove_rule. intros Hk. inv_bind. rewrite Hd in Ha. injection Ha as <-. cbv zeta in *.
  unfold line_views at 2 3. rewrite <-view_filter.
  set (kept := List.filter (fun l => negb (names_domain d l)) (lines text)) in *.
  destruct (Nat.eqb_spec (length kept) (length (lines text))) as [E|E]; cbn [negb] in Hk.
  - injection Hk as <- <-. apply filter_length_eq in E. fold kept in E. rewrite E. split_and!; [by left|done|done].
  - inv_bind. injection Hk as <- <-.
    assert (Forall (fun l => NL ∉ l) kept) as Hf.
    { pose proof (lines_no_nl text) as Hl. rewrite Forall_forall in Hl |- *. intros l Hin.
      apply list_elem_of_In, filter_In in Hin as [Hin _]. by apply Hl, list_elem_of_In. }
    apply write_all_raw_views in Ha as [Hl [Hv|[-> Hk]]]; [| |done].
    + split_and!; [by left|done|done].
    + split_and!; [|done|done]. destruct Hk as [->| ->]; [by left|by right].
Qed.

(** The edits of a pack file change exactly what they name.  Adding a rule
    appends it, once, and leaves every line as it was; replacing line [n]
    requires the rule the operator saw there and no second copy, and changes
    that line alone; removing a domain drops its rules in both directions and
    nothing else, except that a file left with one blank line becomes empty.
    No edit leaves a file that exceeds the reader's limit. *)
Theorem pack_edits_exact text domain allow max d :
  normalise_domain domain = Ok d →
  (∀ out text', add_rule text domain allow max = Ok (out, text') →
     match out with
     | AlreadyPresent => text' = text ∧ Ok (pack_rule allow d) ∈ line_views text
     | Added => Ok (pack_rule allow d) ∉ line_views text
         ∧ line_views text' = line_views text ++ [Ok (pack_rule allow d)]
         ∧ (Z.of_nat (length text') ≤ max)%Z
     end)
  ∧ (∀ n seen seen_allow text', replace_rule_at_line text n (seen, seen_allow) domain allow max = Ok text' →
     ∃ i s, n = S i ∧ normalise_domain seen = Ok s
       ∧ line_views text !! i = Some (Ok (pack_rule seen_allow s))
       ∧ (∀ j, j ≠ i → line_views text !! j ≠ Some (Ok (pack_rule allow d)))
       ∧ line_views text' = <[i := Ok (pack_rule allow d)]> (line_views text)
       ∧ (Z.of_nat (length text') ≤ max)%Z)
  ∧ (∀ removed text', remove_rule text domain max = Ok (removed, text') →
     let left := filter (fun v => v ≠ Ok (PAllow d) ∧ v ≠ Ok (PDeny d)) (line_views text) in
     (line_views text' = left ∨ (text' = [] ∧ left = [Ok PBlank]))
     ∧ (removed = false → text' = text)
     ∧ (removed = true → (Z.of_nat (length text') ≤ max)%Z)).
Proof.
  intros Hd. split_and!.
  - intros out text' Ha. by apply (add_rule_views text domain allow max).
  - intros n seen sa text' Hr. by apply (replace_rule_views text domain allow max d n seen sa).
  - intros removed text' Hr. by apply (remove_rule_views text domain max).
Qed.

(** ** Concrete edits *)

Lemma pack_line_is_admin_rule_witness :
  parse_rule_checked (lit "  @@||CDN.Example.com^ ") = Ok (pack_dns_rule true (lit "cdn.example.com")).
Proof. apply (pack_line_is_admin_rule (lit "  @@||CDN.Example.com^ ") true). vm_compute. reflexivity. Defined.

Lemma compose_line_roundtrip_witness :
  compose_line (lit "Ads.Example.com") false = Ok (lit "||ads.example.com^")
  ∧ lines (lit "||ads.example.com^") = [lit "||ads.example.com^"].
Proof.
  assert (compose_line (lit "Ads.Example.com") false = Ok (lit "||ads.example.com^")) as E
    by (vm_compute; reflexivity).
  split; [exact E|]. apply (compose_line_roundtrip (lit "Ads.Example.com") false _ E).
Defined.

Definition sample_pack : str := lit "# ads" ++ [CR; NL] ++ lit "||ads.test^" ++ [NL] ++ lit "oops" ++ [NL].

(** Adding keeps the comment and the unreadable line, whatever their endings. *)
Lemma pack_edits_exact_witness :
  ∃ text', add_rule sample_pack (lit "Track.test") true 1000 = Ok (Added, text')
    ∧ line_views text' = [Ok PBlank; Ok (PDeny (lit "ads.test")); Err GNotARule; Ok (PAllow (lit "track.test"))].
Proof.
  destruct (pack_edits_exact sample_pack (lit "Track.test") true 1000 (lit "track.test")) as [Ha _];
    [vm_compute; reflexivity|].
  destruct (add_rule sample_pack (lit "Track.test") true 1000) as [[out text']|e] eqn:E; [|vm_compute in E; discriminate].
  assert (out = Added) as -> by (vm_compute in E; by injection E as <- _).
  exists text'. split; [done|]. destruct (Ha Added text' eq_refl) as (_ & -> & _). vm_compute. reflexivity.
Defined.
