(* ===== verification/Profile.v ===== *)
(** * Resolved profiles: [src/profiles/profile.rs]

    Building a profile from configuration: simple exact rules and custom lists
    go to two hash sets, every other rule to the scanned vector.  A device
    overlay is built from the same kinds of rules. *)

From S2P Require Import Prelude RustStr SortedSlice DnsTypes Domain Rules Evaluator Shard Decision Limits Admission Ast Compiler CompilerIndex Engine EngineProofs EngineVerdict CustomList.

Section Building.
Context {RC : RegexCrate} {RP : RegexPrograms}.

(** The parts of a configured profile that filtering is built from. *)
Record ProfileConfig := {
  pf_admin_rules : list str;
  pf_custom_lists : list str;
  pf_block_all : bool;
}.

(** The sets and the vector under construction. *)
Record RuleSets := {
  rs_allow : gset str;
  rs_deny : gset str;
  rs_rules : list DnsRule;
}.

Definition no_rules : RuleSets := {| rs_allow := ∅; rs_deny := ∅; rs_rules := [] |}.

Definition insert_some (d : option str) (set : gset str) : gset str :=
  match d with Some d => {[ d ]} ∪ set | None => set end.

(** The [match r.action] of the rule loop. *)
Definition classify_rule (st : RuleSets) (r : DnsRule) : RuleSets :=
  match action r with
  | Allow =>
    if is_simple_exact r then
      {| rs_allow := insert_some (exact_domain r) (rs_allow st); rs_deny := rs_deny st; rs_rules := rs_rules st |}
    else {| rs_allow := rs_allow st; rs_deny := rs_deny st; rs_rules := rs_rules st ++ [r] |}
  | Block =>
    if is_simple_exact r then
      {| rs_allow := rs_allow st; rs_deny := insert_some (exact_domain r) (rs_deny st); rs_rules := rs_rules st |}
    else {| rs_allow := rs_allow st; rs_deny := rs_deny st; rs_rules := rs_rules st ++ [r] |}
  end.

(** One reference of [admin_rules]; a dangling one is skipped. *)
Definition add_admin_rule (rules_by_id : gmap str str) (st : RuleSets) (id : str) : RuleSets :=
  match rules_by_id !! id with
  | None => st
  | Some text => fold_left classify_rule (parse_rules text) st
  end.

(** One reference of [custom_lists]. *)
Definition mount_custom_list (store : gmap str CompiledCustomList) (st : RuleSets) (id : str) : RuleSets :=
  match store !! id with
  | None => st
  | Some c => {| rs_allow := rs_allow st ∪ list_to_set (cl_allow c);
                 rs_deny := rs_deny st ∪ list_to_set (cl_deny c); rs_rules := rs_rules st |}
  end.

Definition build_sets (profile : ProfileConfig) (rules_by_id : gmap str str)
    (store : gmap str CompiledCustomList) : RuleSets :=
  fold_left (mount_custom_list store) (pf_custom_lists profile)
    (fold_left (add_admin_rule rules_by_id) (pf_admin_rules profile) no_rules).

(** [ResolvedProfile::build_v1] *)
Definition build_v1 (id : str) (profile : ProfileConfig) (rules_by_id : gmap str str)
    (store : gmap str CompiledCustomList) : ResolvedProfile :=
  let sets := build_sets profile rules_by_id store in
  {| rp_name := id; rp_unfiltered := false; rp_allow_domains := rs_allow sets;
     rp_deny_domains := rs_deny sets; rp_block_all := pf_block_all profile;
     rp_rules := rs_rules sets; rp_operator_rules := None |}.

Definition permissive_default : ResolvedProfile :=
  {| rp_name := lit "default"; rp_unfiltered := true; rp_allow_domains := ∅; rp_deny_domains := ∅;
     rp_block_all := false; rp_rules := []; rp_operator_rules := None |}.

(** ** The device overlay *)

Record DeviceConfig := {
  dv_id : str;
  dv_allow_rules : list str;
  dv_deny_rules : list str;
  dv_override_profile_deny : bool;
}.

Record DeviceOverlay := {
  ov_device_id : str;
  ov_allow : gset str;
  ov_deny : gset str;
  ov_override_profile_deny : bool;
}.

(** The loop over [allow_rules] or [deny_rules]: only simple exact rules of the
    wanted direction contribute. *)
Definition overlay_rule (act : RuleAction) (set : gset str) (r : DnsRule) : gset str :=
  if bool_decide (action r = act) && is_simple_exact r then insert_some (exact_domain r) set else set.

Definition overlay_ref (rules_by_id : gmap str str) (act : RuleAction) (set : gset str) (id : str) : gset str :=
  match rules_by_id !! id with
  | None => set
  | Some text => fold_left (overlay_rule act) (parse_rules text) set
  end.

Definition overlay_build_v1 (device : DeviceConfig) (rules_by_id : gmap str str) : option DeviceOverlay :=
  if bool_decide (dv_allow_rules device = []) && bool_decide (dv_deny_rules device = []) then None
  else
    let allow := fold_left (overlay_ref rules_by_id Allow) (dv_allow_rules device) ∅ in
    let deny := fold_left (overlay_ref rules_by_id Block) (dv_deny_rules device) ∅ in
    if bool_decide (allow = ∅) && bool_decide (deny = ∅) then None
    else Some {| ov_device_id := dv_id device; ov_allow := allow; ov_deny := deny;
                 ov_override_profile_deny := dv_override_profile_deny device |}.

(** ** The rules behind the sets *)

(** Every rule of a profile, as rules: its admin rules and the lines of its
    custom lists. *)
Definition admin_rules (rules_by_id : gmap str str) (ids : list str) : list DnsRule :=
  concat (map (fun id => match rules_by_id !! id with Some text => parse_rules text | None => [] end) ids).

Definition list_rules (c : CompiledCustomList) : list DnsRule :=
  map (pack_dns_rule true) (cl_allow c) ++ map (pack_dns_rule false) (cl_deny c).

Definition mounted_rules (store : gmap str CompiledCustomList) (ids : list str) : list DnsRule :=
  concat (map (fun id => match store !! id with Some c => list_rules c | None => [] end) ids).

Definition policy_rules (profile : ProfileConfig) (rules_by_id : gmap str str)
    (store : gmap str CompiledCustomList) : list DnsRule :=
  admin_rules rules_by_id (pf_admin_rules profile) ++ mounted_rules store (pf_custom_lists profile).

(** The profile that scans all its rules and has no sets. *)
Definition rule_form (id : str) (profile : ProfileConfig) (rules_by_id : gmap str str)
    (store : gmap str CompiledCustomList) : ResolvedProfile :=
  {| rp_name := id; rp_unfiltered := false; rp_allow_domains := ∅; rp_deny_domains := ∅;
     rp_block_all := pf_block_all profile; rp_rules := policy_rules profile rules_by_id store;
     rp_operator_rules := None |}.

(** [k] is the domain of a simple exact rule of the direction. *)
Definition simple_in (act : RuleAction) (rules : list DnsRule) (k : str) : Prop :=
  ∃ r, r ∈ rules ∧ action r = act ∧ important r = false ∧ pattern r = Exact k.

(** The sets and the vector hold exactly the rules. *)
Record classified (rules : list DnsRule) (st : RuleSets) : Prop := {
  cf_rules : rs_rules st = List.filter (fun r => negb (is_simple_exact r)) rules;
  cf_allow : ∀ k, k ∈ rs_allow st ↔ simple_in Allow rules k;
  cf_deny : ∀ k, k ∈ rs_deny st ↔ simple_in Block rules k;
}.

Lemma simple_in_app act rules rules' k :
  simple_in act (rules ++ rules') k ↔ simple_in act rules k ∨ simple_in act rules' k.
Proof. unfold simple_in. setoid_rewrite elem_of_app. naive_solver. Qed.

Lemma simple_in_single act r k :
  simple_in act [r] k ↔ action r = act ∧ important r = false ∧ pattern r = Exact k.
Proof. unfold simple_in. setoid_rewrite list_elem_of_singleton. naive_solver. Qed.

Lemma insert_some_elem d set k : k ∈ insert_some d set ↔ k ∈ set ∨ d = Some k.
Proof. destruct d; simpl; set_solver. Qed.

Lemma exact_domain_simple r k :
  is_simple_exact r = true → exact_domain r = Some k ↔ important r = false ∧ pattern r = Exact k.
Proof. unfold is_simple_exact, exact_domain. destruct (pattern r), (important r); naive_solver. Qed.

Lemma not_simple r k : is_simple_exact r = false → ¬ (important r = false ∧ pattern r = Exact k).
Proof. unfold is_simple_exact. intros Hs [Hi Hp]. rewrite Hp, Hi in Hs. done. Qed.

Lemma classify_rule_ok rules st r : classified rules st → classified (rules ++ [r]) (classify_rule st r).
Proof.
  intros [Hr Ha Hd]. unfold classify_rule. destruct (is_simple_exact r) eqn:Hs.
  - pose proof (fun k => exact_domain_simple r k Hs) as He.
    destruct (action r) eqn:Eact; split; cbn [rs_rules rs_allow rs_deny];
      try (rewrite List.filter_app; simpl; rewrite Hs; by rewrite app_nil_r, Hr); intros k;
      rewrite simple_in_app, simple_in_single, ?insert_some_elem, ?He, ?Ha, ?Hd; rewrite Eact; clear;
      intuition congruence.
  - pose proof (fun k => not_simple r k Hs) as He.
    assert (classified (rules ++ [r])
      {| rs_allow := rs_allow st; rs_deny := rs_deny st; rs_rules := rs_rules st ++ [r] |}) as Hc.
    { split; cbn [rs_rules rs_allow rs_deny]; [by rewrite List.filter_app, Hr; simpl; rewrite Hs|..]; intros k;
        rewrite simple_in_app, simple_in_single, ?Ha, ?Hd; specialize (He k); clear -He; intuition congruence. }
    by destruct (action r).
Qed.

Lemma classify_rules_ok rules' rules st :
  classified rules st → classified (rules ++ rules') (fold_left classify_rule rules' st).
Proof.
  revert rules st; induction rules' as [|r rules' IH]; intros rules st Hc; [by rewrite app_nil_r|].
  simpl. change (r :: rules') with ([r] ++ rules'). rewrite app_assoc. apply IH. by apply classify_rule_ok.
Qed.

Lemma simple_in_pack act b l k :
  simple_in act (map (pack_dns_rule b) l) k ↔ k ∈ l ∧ act = (if b then Allow else Block).
Proof.
  unfold simple_in. setoid_rewrite list_elem_of_fmap. split.
  - intros (r & (d & -> & Hd) & Ha & _ & Hp). simpl in *. by simplify_eq.
  - intros [Hk ->]. exists (pack_dns_rule b k). split_and!; [by exists k|done|done|done].
Qed.

Lemma filter_pack b l : List.filter (fun r => negb (is_simple_exact r)) (map (pack_dns_rule b) l) = [].
Proof. by induction l. Qed.

Lemma mount_custom_list_ok store rules st id :
  classified rules st →
  classified (rules ++ match store !! id with Some c => list_rules c | None => [] end)
    (mount_custom_list store st id).
Proof.
  intros Hc. unfold mount_custom_list. destruct (store !! id) as [c|]; [|by rewrite app_nil_r].
  destruct Hc as [Hr Ha Hd]. unfold list_rules. split; cbn [rs_rules rs_allow rs_deny].
  - by rewrite !List.filter_app, !filter_pack, !app_nil_r.
  - intros k. rewrite !simple_in_app, !simple_in_pack, elem_of_union, elem_of_list_to_set, Ha. clear; intuition congruence.
  - intros k. rewrite !simple_in_app, !simple_in_pack, elem_of_union, elem_of_list_to_set, Hd. clear; intuition congruence.
Qed.

Lemma build_sets_ok profile rules_by_id store :
  classified (policy_rules profile rules_by_id store) (build_sets profile rules_by_id store).
Proof.
  unfold build_sets, policy_rules, admin_rules, mounted_rules.
  assert (∀ ids rules st, classified rules st →
    classified (rules ++ concat (map (fun id => match rules_by_id !! id with Some text => parse_rules text | None => [] end) ids))
      (fold_left (add_admin_rule rules_by_id) ids st)) as Hadm.
  { induction ids as [|id ids IH]; intros rules st Hc; [by rewrite app_nil_r|]. simpl. rewrite app_assoc. apply IH.
    unfold add_admin_rule. destruct (rules_by_id !! id); [by apply classify_rules_ok|by rewrite app_nil_r]. }
  assert (∀ ids rules st, classified rules st →
    classified (rules ++ concat (map (fun id => match store !! id with Some c => list_rules c | None => [] end) ids))
      (fold_left (mount_custom_list store) ids st)) as Hmnt.
  { induction ids as [|id ids IH]; intros rules st Hc; [by rewrite app_nil_r|]. simpl. rewrite app_assoc. apply IH.
    by apply mount_custom_list_ok. }
  apply Hmnt, (Hadm _ []). split; [done|..]; intros k; cbn [rs_allow rs_deny no_rules]; unfold simple_in; set_solver.
Qed.

(** ** The fast path *)

Context {HS : ShardHasher}.

Definition exact_allow (d : str) (rules : list DnsRule) : bool :=
  existsb (fun r => is_simple_exact r && bool_decide (action r = Allow) && matches r d) rules.

Lemma covered_chain k d : k ∈ d :: dot_suffixes d ↔ covers k d.
Proof. rewrite elem_of_cons. unfold covers. naive_solver. Qed.

(** A set built from simple exact rules is hit when one of them matches. *)
Lemma simple_hit act rules set d :
  (∀ k, k ∈ set ↔ simple_in act rules k) →
  set_hit (d :: dot_suffixes d) set = true ↔
  ∃ r, r ∈ rules ∧ is_simple_exact r = true ∧ action r = act ∧ matches r d = true.
Proof.
  intros Hset. rewrite set_hit_spec. split.
  - intros (k & Hk & Hs). apply Hset in Hs as (r & Hin & Ha & Hi & Hp). exists r. split_and!; [done| |done|].
    + unfold is_simple_exact. by rewrite Hp, Hi.
    + apply matches_spec. rewrite Hp. by apply covered_chain.
  - intros (r & Hin & Hs & Ha & Hm). apply matches_spec in Hm. unfold is_simple_exact in Hs.
    destruct (pattern r) as [k| |] eqn:Hp; [|done|done]. exists k. split; [by apply covered_chain|].
    apply Hset. exists r. apply negb_true_iff in Hs. done.
Qed.

Lemma exact_allow_hit rules st d :
  classified rules st → set_hit (d :: dot_suffixes d) (rs_allow st) = exact_allow d rules.
Proof.
  intros Hc. apply eq_true_iff_eq. rewrite (simple_hit Allow rules) by apply Hc.
  unfold exact_allow. rewrite existsb_exists. setoid_rewrite andb_true_iff. setoid_rewrite andb_true_iff.
  setoid_rewrite bool_decide_eq_true. setoid_rewrite list_elem_of_In. naive_solver.
Qed.

(** The rules of a tier are those of the vector and, for ordinary rules, the
    set of the direction. *)
Lemma some_match_classified rules st imp a d :
  classified rules st →
  some_match imp a d rules =
  some_match imp a d (rs_rules st)
  || (negb imp && set_hit (d :: dot_suffixes d) (match a with Allow => rs_allow st | Block => rs_deny st end)).
Proof.
  intros Hc. apply eq_true_iff_eq. rewrite orb_true_iff, andb_true_iff, !some_match_spec.
  rewrite (simple_hit a rules) by (destruct a; apply Hc). rewrite (cf_rules _ _ Hc).
  setoid_rewrite list_elem_of_In. setoid_rewrite filter_In. split.
  - intros (r & Hin & <- & <- & Hm). destruct (is_simple_exact r) eqn:Hs.
    + right. split; [|by exists r]. unfold is_simple_exact in Hs. by destruct (pattern r).
    + left. exists r. by rewrite Hs.
  - intros [(r & [Hin _] & Hi & Ha & Hm)|[Hn (r & Hin & Hs & Ha & Hm)]]; exists r; [done|].
    split_and!; [done| |done|done]. unfold is_simple_exact in Hs. destruct (pattern r), imp, (important r); done.
Qed.

(** With [block_all], by the tiers of the vector. *)
Lemma evaluate_block_all e d p :
  rp_block_all p = true →
  evaluate e d p =
  if set_hit (d :: dot_suffixes d) (rp_allow_domains p)
     || bool_decide (tier_verdict d (rp_rules p) = Some FForward) then FForward else FBlock.
Proof.
  intros Hb. unfold evaluate, evaluate_inner. rewrite Hb, domain_matches_set_hit, <-scan_tier.
  destruct (set_hit _ _); [done|]. cbn [orb].
  destruct (priority_scan (rp_rules p) d) as [[priority rule]|]; [|done]. simpl.
  by destruct (action rule).
Qed.

Lemma evaluate_layers e d p : rp_block_all p = false → evaluate e d p = verdict_table e d p.
Proof. intros Hb. unfold evaluate. by rewrite evaluate_inner_layered, layered_table. Qed.

(** C26: keeping simple rules and custom lists in hash sets instead of scanning
    them does not change any verdict, except in one case: with [block_all], a name covered by a simple exact allow is forwarded even
    when an important deny rule matches it, while the same rules, scanned,
    block it. *)
Theorem fast_path_exact e id profile rules_by_id store d :
  let rules := policy_rules profile rules_by_id store in
  let shadowed := pf_block_all profile && exact_allow d rules
    && negb (some_match true Allow d rules) && some_match true Block d rules in
  evaluate e d (build_v1 id profile rules_by_id store) =
    (if shadowed then FForward else evaluate e d (rule_form id profile rules_by_id store))
  ∧ (shadowed = true → evaluate e d (rule_form id profile rules_by_id store) = FBlock).
Proof.
  cbv zeta. pose proof (build_sets_ok profile rules_by_id store) as Hc.
  set (rules := policy_rules profile rules_by_id store) in *.
  set (st := build_sets profile rules_by_id store) in *.
  pose proof (fun imp a => some_match_classified rules st imp a d Hc) as Hm.
  pose proof (exact_allow_hit rules st d Hc) as He.
  destruct (pf_block_all profile) eqn:Hb.
  - rewrite !evaluate_block_all by done. unfold tier_verdict. cbn [rp_allow_domains rp_rules build_v1 rule_form].
    fold rules st. rewrite set_hit_empty, !Hm, <-He. cbn [negb andb orb]. rewrite !orb_false_r.
    destruct (some_match true Allow d (rs_rules st)), (some_match true Block d (rs_rules st)),
      (set_hit (d :: dot_suffixes d) (rs_allow st)), (some_match false Allow d (rs_rules st)),
      (some_match false Block d (rs_rules st)), (set_hit (d :: dot_suffixes d) (rs_deny st)); done.
  - rewrite !evaluate_layers by done. unfold verdict_table.
    cbn [rp_allow_domains rp_deny_domains rp_rules rp_name rp_unfiltered build_v1 rule_form andb].
    fold rules st. rewrite !set_hit_empty, !Hm. cbn [negb andb orb]. rewrite !orb_false_r. done.
Qed.

(** ** The overlay's sets *)

Lemma overlay_rules_ok act rules rules' set :
  (∀ k, k ∈ set ↔ simple_in act rules k) →
  ∀ k, k ∈ fold_left (overlay_rule act) rules' set ↔ simple_in act (rules ++ rules') k.
Proof.
  revert rules set; induction rules' as [|r rules' IH]; intros rules set Hs k; [by rewrite app_nil_r|].
  simpl. change (r :: rules') with ([r] ++ rules'). rewrite app_assoc. apply IH. clear k. intros k.
  rewrite simple_in_app, simple_in_single, <-Hs. unfold overlay_rule.
  destruct (is_simple_exact r) eqn:Hx.
  - rewrite andb_true_r. pose proof (exact_domain_simple r k Hx) as He.
    case_bool_decide as E; [rewrite insert_some_elem, He|]; clear -E; intuition congruence.
  - rewrite andb_false_r. pose proof (not_simple r k Hx) as He. clear -He. intuition congruence.
Qed.

Lemma overlay_refs_ok rules_by_id act ids k :
  k ∈ fold_left (overlay_ref rules_by_id act) ids ∅ ↔ simple_in act (admin_rules rules_by_id ids) k.
Proof.
  cut (∀ rules set, (∀ k, k ∈ set ↔ simple_in act rules k) →
    ∀ k, k ∈ fold_left (overlay_ref rules_by_id act) ids set ↔ simple_in act (rules ++ admin_rules rules_by_id ids) k).
  { intros Hx. apply (Hx []). intros k'. unfold simple_in. set_solver. }
  clear k. unfold admin_rules. induction ids as [|id ids IH]; intros rules set Hs k; [by rewrite app_nil_r|].
  simpl. rewrite app_assoc. apply IH. clear k. intros k. unfold overlay_ref.
  destruct (rules_by_id !! id); [by apply overlay_rules_ok|by rewrite app_nil_r].
Qed.

(** A device overlay holds exactly the domains of the simple exact rules
    it references, each in its direction, and there is an overlay exactly when
    one of the two sets is not empty. *)
Theorem overlay_build_exact device rules_by_id :
  let refs act ids := simple_in act (admin_rules rules_by_id ids) in
  match overlay_build_v1 device rules_by_id with
  | Some ov =>
    ov_device_id ov = dv_id device ∧ ov_override_profile_deny ov = dv_override_profile_deny device
    ∧ (∀ k, k ∈ ov_allow ov ↔ refs Allow (dv_allow_rules device) k)
    ∧ (∀ k, k ∈ ov_deny ov ↔ refs Block (dv_deny_rules device) k)
    ∧ (ov_allow ov ≠ ∅ ∨ ov_deny ov ≠ ∅)
  | None => ∀ k, ¬ refs Allow (dv_allow_rules device) k ∧ ¬ refs Block (dv_deny_rules device) k
  end.
Proof.
  cbv zeta. unfold overlay_build_v1.
  pose proof (overlay_refs_ok rules_by_id Allow (dv_allow_rules device)) as Ha.
  pose proof (overlay_refs_ok rules_by_id Block (dv_deny_rules device)) as Hd.
  case_bool_decide as E1; [case_bool_decide as E2; cbn [andb]|cbn [andb]].
  { rewrite E1, E2. intros k. unfold simple_in. set_solver. }
  all: set (allow := fold_left _ (dv_allow_rules device) ∅) in *;
    set (deny := fold_left _ (dv_deny_rules device) ∅) in *;
    (case_bool_decide as E3; [case_bool_decide as E4; cbn [andb]|cbn [andb]]).
  all: try (intros k; rewrite <-Ha, <-Hd, E3, E4; set_solver).
  all: cbn [ov_device_id ov_override_profile_deny ov_allow ov_deny]; split_and!; auto.
Qed.
End Building.
