(* ===== verification/Cname.v ===== *)
(** * CNAME chain inspection: [src/filter/cname.rs]

    Names of a response are normalised to the filter's domains, the branch of
    the served name is followed hop by hop, and every target is evaluated under
    the grant of the request.  [hickory_proto]'s [Name] and [Record] are known
    by what the walker asks of them. *)

From S2P Require Import Prelude RustStr SortedSlice DnsTypes Domain Rules Evaluator Shard Decision Limits Admission Ast Compiler CompilerIndex CompilerStore Engine EngineProofs EngineVerdict ActivePolicy.

(** A [Name]: its labels as raw octets, without the root label, and a
    comparison that ignores case and a missing root, as documented. *)
Class NameCrate := {
  Name : Type;
  name_iter : Name → list str;
  eq_ignore_root : Name → Name → bool;
  eq_ignore_root_spec : ∀ a b,
    eq_ignore_root a b = true ↔ map to_ascii_lowercase (name_iter a) = map to_ascii_lowercase (name_iter b);
  name_labels_nonempty : ∀ n, Forall (fun l => l ≠ []) (name_iter n);
}.

(** ** Labels *)

Definition CNAME_LABEL_MAX : nat := 63.
Definition MAX_NORMALIZED_NAME_LEN : nat := 253.

Definition is_ascii (b : ascii) : bool := (byte b <? 128)%Z.
Definition is_ascii_control (b : ascii) : bool := (byte b <? 32)%Z || (byte b =? 127)%Z.

(** A write into the output buffer. *)
Definition push_byte (output : str) (b : ascii) : option str :=
  if length output =? MAX_NORMALIZED_NAME_LEN then None else Some (output ++ [b]).

Fixpoint push_label (output label : str) : option str :=
  match label with
  | [] => Some output
  | b :: rest =>
    if negb (is_ascii b) || is_ascii_control b || bool_decide (b = DOT) then None
    else match push_byte output (to_lower b) with
         | Some output => push_label output rest
         | None => None
         end
  end.

Fixpoint normalize_labels (labels : list str) (count : nat) (output : str) : option (nat * str) :=
  match labels with
  | [] => Some (count, output)
  | label :: rest =>
    if bool_decide (label = []) || (CNAME_LABEL_MAX <? length label) then None
    else
      match (if negb (count =? 0) then push_byte output DOT else Some output) with
      | None => None
      | Some output =>
        match push_label output label with
        | None => None
        | Some output => normalize_labels rest (count + 1) output
        end
      end
  end.

(** [normalize_target_name]; the accepted bytes are ASCII, so the final
    UTF-8 check always succeeds. *)
Definition normalize_iter (labels : list str) : option str :=
  match normalize_labels labels 0 [] with
  | Some (count, output) => if count =? 0 then None else Some output
  | None => None
  end.

(** [owner_matches], on the labels of the owner. *)
Fixpoint owner_matches_iter (labels : list str) (rest : str) : bool :=
  match labels with
  | [] => bool_decide (rest = [])
  | label :: labels' =>
    let '(head, tail) := default (rest, []) (split_once DOT rest) in
    if negb (length head =? length label) || negb (eq_ignore_ascii_case head label) then false
    else owner_matches_iter labels' tail
  end.

(** ** Normalisation *)

Definition name_byte (b : ascii) : bool :=
  is_ascii b && negb (is_ascii_control b) && negb (bool_decide (b = DOT)).

(** A label the filter's text form can spell. *)
Definition good_label (l : str) : Prop :=
  l ≠ [] ∧ length l ≤ CNAME_LABEL_MAX ∧ Forall (fun b => name_byte b = true) l.

Lemma push_label_spec label output out :
  length output ≤ MAX_NORMALIZED_NAME_LEN →
  push_label output label = Some out ↔
  Forall (fun b => name_byte b = true) label ∧ out = output ++ to_ascii_lowercase label
  ∧ length out ≤ MAX_NORMALIZED_NAME_LEN.
Proof.
  revert output; induction label as [|b label IH]; intros output Hlen; simpl.
  { rewrite app_nil_r. split; [by intros [= <-]|]. by intros (_ & -> & _). }
  rewrite Forall_cons. unfold name_byte at 1.
  destruct (is_ascii b); cbn [negb orb andb]; [|naive_solver].
  destruct (is_ascii_control b); cbn [negb orb andb]; [naive_solver|].
  destruct (bool_decide (b = DOT)); cbn [negb]; [naive_solver|].
  unfold push_byte. destruct (Nat.eqb_spec (length output) MAX_NORMALIZED_NAME_LEN) as [E|E].
  - split; [done|]. intros (_ & -> & Hl). rewrite length_app in Hl. simpl in Hl. lia.
  - rewrite IH by (rewrite length_app; simpl; lia). rewrite <-app_assoc. simpl. naive_solver.
Qed.

(** The text after a first label: each further label behind a dot. *)
Definition tail_text (labels : list str) : str := concat (map (fun l => DOT :: to_ascii_lowercase l) labels).

Lemma join_tail l labels :
  to_ascii_lowercase (join DOT (l :: labels)) = to_ascii_lowercase l ++ tail_text labels.
Proof.
  revert l; induction labels as [|l' labels IH]; intros l; [simpl; by rewrite app_nil_r|].
  rewrite join_cons by done. rewrite to_ascii_lowercase_app. cbn [tail_text map concat].
  change (to_ascii_lowercase (DOT :: join DOT (l' :: labels)))
    with (DOT :: to_ascii_lowercase (join DOT (l' :: labels))). by rewrite IH.
Qed.

Lemma normalize_tail labels count output n s :
  count ≠ 0 → length output ≤ MAX_NORMALIZED_NAME_LEN →
  normalize_labels labels count output = Some (n, s) ↔
  Forall good_label labels ∧ n = count + length labels ∧ s = output ++ tail_text labels
  ∧ length s ≤ MAX_NORMALIZED_NAME_LEN.
Proof.
  revert count output; induction labels as [|l labels IH]; intros count output Hc Hlen; cbn [normalize_labels].
  { rewrite app_nil_r. split; [intros [= <- <-]; simpl; auto with lia|]. intros (_ & -> & -> & _). simpl.
    by rewrite Nat.add_0_r. }
  rewrite Forall_cons. unfold good_label at 1. case_bool_decide as He; cbn [orb]; [naive_solver|].
  destruct (Nat.ltb_spec CNAME_LABEL_MAX (length l)) as [Hl|Hl]; [naive_solver lia|].
  rewrite (proj2 (Nat.eqb_neq _ _) Hc). cbn [negb]. unfold push_byte.
  destruct (Nat.eqb_spec (length output) MAX_NORMALIZED_NAME_LEN) as [E|E].
  { split; [done|]. intros (_ & _ & -> & Hs). rewrite length_app in Hs. simpl in Hs. lia. }
  assert (length (output ++ [DOT]) ≤ MAX_NORMALIZED_NAME_LEN) as Hlen'
    by (rewrite length_app; simpl; lia).
  pose proof (fun out => push_label_spec l (output ++ [DOT]) out Hlen') as Hp.
  cbn [tail_text map concat length]. fold (tail_text labels).
  assert (output ++ (DOT :: to_ascii_lowercase l) ++ tail_text labels
    = ((output ++ [DOT]) ++ to_ascii_lowercase l) ++ tail_text labels) as -> by (by rewrite <-!app_assoc).
  destruct (push_label (output ++ [DOT]) l) as [out|].
  - destruct (proj1 (Hp out) eq_refl) as (Hb & -> & Hs). rewrite IH by (done || lia).
    split; [intros (Hf & -> & -> & Hx)|intros ([_ Hf] & -> & -> & Hx)]; split_and!; auto with lia.
  - split; [done|]. intros ([(_ & _ & Hb) _] & _ & -> & Hx). exfalso.
    assert (None = Some ((output ++ [DOT]) ++ to_ascii_lowercase l)) as Hno; [|done].
    apply Hp. split_and!; [done|done|]. rewrite length_app in Hx. lia.
Qed.

Lemma normalize_iter_spec labels s :
  normalize_iter labels = Some s ↔
  labels ≠ [] ∧ Forall good_label labels ∧ s = to_ascii_lowercase (join DOT labels)
  ∧ length s ≤ MAX_NORMALIZED_NAME_LEN.
Proof.
  unfold normalize_iter. destruct labels as [|l labels]; [naive_solver|].
  cbn [normalize_labels]. rewrite Forall_cons, join_tail. unfold good_label at 1.
  case_bool_decide as He; cbn [orb]; [naive_solver|].
  destruct (Nat.ltb_spec CNAME_LABEL_MAX (length l)) as [Hl|Hl]; [naive_solver lia|]. cbn [Nat.eqb negb Nat.add].
  pose proof (fun out => push_label_spec l [] out ltac:(simpl; lia)) as Hp. cbn [app] in Hp.
  destruct (push_label [] l) as [out|].
  - destruct (proj1 (Hp out) eq_refl) as (Hb & -> & Hs).
    pose proof (fun n s' => normalize_tail labels 1 (to_ascii_lowercase l) n s' ltac:(done) Hs) as Ht.
    destruct (normalize_labels labels 1 (to_ascii_lowercase l)) as [[n s']|].
    + destruct (proj1 (Ht n s') eq_refl) as (Hf & -> & -> & Hx). simpl. split; [intros [= <-]; by split_and!|].
      by intros (_ & _ & -> & _).
    + split; [done|]. intros (_ & [_ Hf] & -> & Hx). exfalso.
      by discriminate (proj2 (Ht _ _) (conj Hf (conj eq_refl (conj eq_refl Hx)))).
  - split; [done|]. intros (_ & [(_ & _ & Hb) _] & -> & Hx). exfalso.
    assert (None = Some (to_ascii_lowercase l)) as Hno; [|done]. apply Hp. split_and!; [done|done|].
    rewrite length_app in Hx. lia.
Qed.

(** ** Owners *)

Lemma lower_idem s : to_ascii_lowercase (to_ascii_lowercase s) = to_ascii_lowercase s.
Proof. apply to_ascii_lowercase_id, to_ascii_lowercase_lower. Qed.

Lemma good_label_dotless l : good_label l → DOT ∉ to_ascii_lowercase l.
Proof.
  intros (_ & _ & Hf) Hin. apply list_elem_of_fmap in Hin as (b & Hb & Hin). symmetry in Hb.
  apply (to_lower_eq_iff DOT b) in Hb as ->; [|done|done]. rewrite Forall_forall in Hf. by apply Hf in Hin.
Qed.

Lemma owner_matches_nil labels : Forall (fun l => l ≠ []) labels → owner_matches_iter labels [] = bool_decide (labels = []).
Proof. destruct labels as [|[|a l] labels]; [done| |done]. intros Hf. by inversion Hf. Qed.

Lemma label_test head label :
  negb (length head =? length label) || negb (eq_ignore_ascii_case head label) =
  negb (bool_decide (to_ascii_lowercase head = to_ascii_lowercase label)).
Proof.
  unfold eq_ignore_ascii_case. case_bool_decide as E; cbn [negb]; [|by rewrite orb_true_r].
  apply (f_equal length) in E. rewrite !length_to_ascii_lowercase in E. by rewrite E, Nat.eqb_refl.
Qed.

Lemma owner_matches_spec owner l labels :
  Forall (fun l => l ≠ []) owner → Forall good_label (l :: labels) →
  owner_matches_iter owner (to_ascii_lowercase (join DOT (l :: labels))) = true ↔
  map to_ascii_lowercase owner = map to_ascii_lowercase (l :: labels).
Proof.
  revert owner l; induction labels as [|l' labels IH]; intros owner l Ho Hg;
    inversion_clear Hg as [|? ? Hl Hg']; pose proof (good_label_dotless l Hl) as Hd; destruct owner as [|o owner].
  - simpl. rewrite bool_decide_eq_true. split; [|done]. intros E. apply map_eq_nil in E. by destruct Hl.
  - inversion_clear Ho as [|? ? Ho1 Ho2]. cbn [join owner_matches_iter map].
    rewrite (proj2 (split_once_None _ _) Hd). cbn [default]. rewrite label_test, lower_idem.
    case_bool_decide as E; cbn [negb].
    + rewrite owner_matches_nil, bool_decide_eq_true by done. rewrite E.
      split; [by intros ->|]. intros [= Hx]. by apply map_eq_nil in Hx.
    + split; [done|]. intros [= Hx _]. by rewrite Hx in E.
  - simpl. split; [|done]. rewrite bool_decide_eq_true. intros E. apply map_eq_nil in E. by destruct l, Hl.
  - inversion_clear Ho as [|? ? Ho1 Ho2]. rewrite join_cons by done.
    rewrite to_ascii_lowercase_app. cbn [owner_matches_iter].
    change (to_ascii_lowercase (DOT :: join DOT (l' :: labels)))
      with (DOT :: to_ascii_lowercase (join DOT (l' :: labels))).
    rewrite (proj2 (split_once_Some _ _ _ _) (conj eq_refl Hd)). cbn [default]. unfold id. rewrite label_test, lower_idem.
    cbn [map]. case_bool_decide as E; cbn [negb].
    + rewrite IH by done. rewrite E. cbn [map]. split; [by intros ->|by intros [= ->]].
    + split; [done|]. intros [= Hx _]. by rewrite Hx in E.
Qed.

Lemma name_byte_lower b c : to_lower b = to_lower c → name_byte b = true → name_byte c = true.
Proof.
  unfold name_byte, is_ascii, is_ascii_control. intros E. apply (f_equal byte) in E.
  rewrite !byte_to_lower in E. unfold is_ascii_uppercase in E.
  rewrite !andb_true_iff, !negb_true_iff, !orb_false_iff, !bool_decide_eq_false, !Z.ltb_lt, !Z.ltb_ge, !Z.eqb_neq.
  intros [[H1 [H2 H3]] H4].
  assert (byte b ≠ 46)%Z as H4' by (intros E'; apply H4; by apply byte_inj).
  assert (byte c ≠ 46 → c ≠ DOT)%Z as H5 by (by intros Hc ->).
  repeat match type of E with context [(?x <=? ?y)%Z] => destruct (Z.leb_spec x y) end; cbn [andb] in E;
    split_and!; try lia; apply H5; lia.
Qed.

Lemma same_labels_good labels labels' :
  map to_ascii_lowercase labels' = map to_ascii_lowercase labels →
  Forall good_label labels → Forall good_label labels'.
Proof.
  revert labels'; induction labels as [|l labels IH]; intros [|l' labels'] E Hf; try done.
  injection E as El E. inversion_clear Hf as [|? ? (Hne & Hlen & Hb) Hf']. constructor; [|by apply IH].
  split_and!.
  - intros ->. simpl in El. by destruct l.
  - apply (f_equal length) in El. rewrite !length_to_ascii_lowercase in El. lia.
  - clear -El Hb. revert l El Hb. induction l' as [|c l' IH]; intros [|b l] El Hb; try done.
    apply (inj2 cons) in El as [Ec El]. inversion_clear Hb. constructor; [by apply (name_byte_lower b)|eauto].
Qed.

(** ** Records and verdicts *)

Section Walk.
Context {NC : NameCrate} {RC : RegexCrate} {RP : RegexPrograms} {HS : ShardHasher}.

Inductive RData := RCname (target : Name) | ROther.

Record DnsRecord := { rec_name : Name; rec_type_cname : bool; rec_data : RData }.

Inductive CnameVerdict := CAllow | CBlock (offending : str) (source : BlockSource).

Definition MAX_HOPS : nat := 16.
Definition VISITED_CAPACITY : nat := MAX_HOPS + 1.

Definition normalize_target_name (n : Name) : option str := normalize_iter (name_iter n).
Definition owner_matches (n : Name) (domain : str) : bool := owner_matches_iter (name_iter n) domain.

Definition is_cname_link (r : DnsRecord) : bool :=
  rec_type_cname r && match rec_data r with RCname _ => true | ROther => false end.

Definition cname_targets_match (left right : DnsRecord) : bool :=
  match rec_data left, rec_data right with
  | RCname l, RCname r => eq_ignore_root l r
  | _, _ => false
  end.

Definition malformed_name_verdict (n : Name) : CnameVerdict :=
  CBlock (default (lit "malformed-cname") (normalize_target_name n)) BSCnameMalformed.

Definition malformed_qname_verdict (qname : str) : CnameVerdict := CBlock qname BSCnameMalformed.

Definition policy_missing : CnameVerdict := CBlock (lit "runtime-policy-missing") BSAdminBlock.

(** [evaluate_synthetic_cname_hop]; [None] is the panic of a binding outside
    its snapshot or of an attribution outside its store. *)
Definition evaluate_synthetic_cname_hop (target : str) (e : FilterEngine) (p : ResolvedProfile)
    (addr : Z) (g : option RequestGrant) : option CnameVerdict :=
  match rp_operator_rules p with
  | None => Some policy_missing
  | Some binding =>
    match binding_profile binding with
    | None => None
    | Some compiled =>
      let '(external, external_source) := external_matches_attributed e target p in
      let decision := evaluate_target_with_grant {| ref_addr := addr; ref_profile := compiled |}
                        target g external true in
      if decide (rd_verdict decision = VBlock) then
        match rd_winning_token decision with
        | Some tok =>
          (fun r => CBlock target (BSCustomList (origin_list_id (st_origin r)))) <$> stored (cp_store compiled) tok
        | None =>
          Some (CBlock target (default BSAdminBlock
                  (if decide (external = ExtDeny) then external_source else None)))
        end
      else Some CAllow
    end
  end.

(** The first loop of the walk: the record of the served name, or the verdict
    on conflicting records. *)
Fixpoint find_start (records : list DnsRecord) (qname : str) (original : option str)
    (start : option DnsRecord) : result CnameVerdict (option DnsRecord) :=
  match records with
  | [] => Ok start
  | record :: rest =>
    if negb (is_cname_link record) then find_start rest qname original start
    else
      let at_qname :=
        if negb (owner_matches (rec_name record) qname) then find_start rest qname original start
        else match start with
             | Some first =>
               if negb (cname_targets_match first record) then Err (malformed_qname_verdict qname)
               else find_start rest qname original start
             | None => find_start rest qname original (Some record)
             end in
      match original with
      | Some o => if owner_matches (rec_name record) o then Err (malformed_qname_verdict o) else at_qname
      | None => at_qname
      end
  end.

(** The scan for the record that follows a target; [Err] is a fork. *)
Fixpoint find_following (records : list DnsRecord) (target_name : Name) (following : option DnsRecord)
  : result () (option DnsRecord) :=
  match records with
  | [] => Ok following
  | candidate :: rest =>
    if negb (is_cname_link candidate) || negb (eq_ignore_root (rec_name candidate) target_name)
    then find_following rest target_name following
    else match following with
         | Some first =>
           if negb (cname_targets_match first candidate) then Err ()
           else find_following rest target_name following
         | None => find_following rest target_name (Some candidate)
         end
  end.

(** The walk itself, with [remaining] the hops left before the cap: [hops >=
    cap] is [remaining = 0].  [None] is a panic. *)
Fixpoint walk_chain (records : list DnsRecord) (qname : str) (original : option str)
    (hop : str → option CnameVerdict) (remaining : nat) (record : DnsRecord) (visited : list Name)
  : option CnameVerdict :=
  match rec_data record with
  | ROther => Some CAllow
  | RCname target_name =>
    match normalize_target_name target_name with
    | None => Some (malformed_name_verdict target_name)
    | Some target =>
      match remaining with
      | 0 => Some (CBlock target BSCnameDepthExceeded)
      | S remaining' =>
        if owner_matches target_name qname
           || match original with Some o => owner_matches target_name o | None => false end
           || existsb (fun seen => eq_ignore_root seen target_name) visited
        then Some (CBlock target BSCnameLoop)
        else
          match find_following records target_name None with
          | Err _ => Some (malformed_name_verdict target_name)
          | Ok following =>
            match hop target with
            | None => None
            | Some (CBlock offending source) => Some (CBlock offending source)
            | Some CAllow =>
              if length visited <? VISITED_CAPACITY then
                match following with
                | None => Some CAllow
                | Some next => walk_chain records qname original hop remaining' next (visited ++ [target_name])
                end
              else None
            end
          end
      end
    end
  end.

Definition walk_response_with_rewrite (records : list DnsRecord) (qname : str) (original : option str)
    (e : FilterEngine) (p : ResolvedProfile) (addr : Z) (g : option RequestGrant) (max_depth : nat)
  : option CnameVerdict :=
  match rp_operator_rules p with
  | None => Some policy_missing
  | Some _ =>
    let cap := max_depth `min` MAX_HOPS in
    if bool_decide (is_Some original) && (cap =? 0) then Some (CBlock qname BSCnameDepthExceeded)
    else
      let cap := cap - (if bool_decide (is_Some original) then 1 else 0) in
      match find_start records qname original None with
      | Err v => Some v
      | Ok None => Some CAllow
      | Ok (Some start) =>
        walk_chain records qname original (fun t => evaluate_synthetic_cname_hop t e p addr g) cap start []
      end
  end.

Definition walk_response_with_grant (records : list DnsRecord) (qname : str) (e : FilterEngine)
    (p : ResolvedProfile) (addr : Z) (g : option RequestGrant) (max_depth : nat) : option CnameVerdict :=
  walk_response_with_rewrite records qname None e p addr g max_depth.

(** ** Names as domains *)

(** The text form of some name, as the handler passes the served name. *)
Definition normal_name (s : str) : Prop := ∃ labels, normalize_iter labels = Some s.

Lemma owner_matches_labels n labels s :
  normalize_iter labels = Some s →
  owner_matches n s = true ↔ map to_ascii_lowercase (name_iter n) = map to_ascii_lowercase labels.
Proof.
  intros Hs. apply normalize_iter_spec in Hs as (Hne & Hg & -> & _). destruct labels as [|l labels]; [done|].
  apply owner_matches_spec; [apply name_labels_nonempty|done].
Qed.

(** The text form is faithful: two names with a text form have the same one
    exactly when they are the same name. *)
Lemma same_text m n t :
  normalize_target_name n = Some t →
  eq_ignore_root m n = true ↔ normalize_target_name m = Some t.
Proof.
  intros Hn. rewrite eq_ignore_root_spec. split.
  - intros E. apply normalize_iter_spec in Hn as (Hne & Hg & -> & Hl). apply normalize_iter_spec.
    assert (to_ascii_lowercase (join DOT (name_iter m)) = to_ascii_lowercase (join DOT (name_iter n))) as Hj.
    { destruct (name_iter m) as [|a la], (name_iter n) as [|b lb]; [done|done|done|].
      injection E as Ea El. rewrite !join_tail, Ea. f_equal. unfold tail_text.
      rewrite <-(map_map to_ascii_lowercase (cons DOT) la), <-(map_map to_ascii_lowercase (cons DOT) lb).
      by rewrite El. }
    split_and!; [intros Em; rewrite Em in E; by destruct (name_iter n)| |by rewrite Hj|done].
    apply same_labels_good with (name_iter n); done.
  - intros Hm. apply (owner_matches_labels m) in Hn as Hx. apply (owner_matches_labels m) in Hm as Hy.
    rewrite <-Hx. by apply Hy.
Qed.

Lemma owner_of_target m n t :
  normalize_target_name n = Some t → eq_ignore_root m n = owner_matches m t.
Proof.
  intros Hn. apply eq_true_iff_eq. rewrite eq_ignore_root_spec. symmetry. by apply owner_matches_labels.
Qed.

Lemma target_at n t s :
  normalize_target_name n = Some t → normal_name s → owner_matches n s = true ↔ t = s.
Proof.
  intros Hn [labels Hs]. rewrite (owner_matches_labels n labels s Hs).
  apply normalize_iter_spec in Hn as (Hne & Hg & -> & Hl).
  apply normalize_iter_spec in Hs as (Hne' & Hg' & -> & Hl').
  destruct labels as [|l labels]; [done|]. destruct (name_iter n) as [|a la] eqn:En; [done|].
  pose proof (owner_matches_spec (a :: la) l labels) as Hx. rewrite <-Hx; [|rewrite <-En; apply name_labels_nonempty|done].
  split.
  - intros Hm. apply Hx in Hm; [|rewrite <-En; apply name_labels_nonempty|done].
    injection Hm as Ea El. rewrite !join_tail, Ea. f_equal. unfold tail_text.
    rewrite <-(map_map to_ascii_lowercase (cons DOT) la), <-(map_map to_ascii_lowercase (cons DOT) labels).
    by rewrite El.
  - intros <-. apply owner_matches_spec; [rewrite <-En; apply name_labels_nonempty|done|done].
Qed.

(** ** What a safe chain is *)

(** The usable CNAME records of an owner, and the text of a record's target. *)
Definition owned (records : list DnsRecord) (s : str) (r : DnsRecord) : Prop :=
  r ∈ records ∧ is_cname_link r = true ∧ owner_matches (rec_name r) s = true.

Definition target_of (r : DnsRecord) (t : str) : Prop :=
  ∃ n, rec_data r = RCname n ∧ normalize_target_name n = Some t.

(** From the name [s], with the names [seen] before: either no record continues
    the chain, or all the records of [s] agree on one well-formed target, not
    seen before and allowed, from which the chain goes on; at most [n] hops. *)
Inductive safe_chain (records : list DnsRecord) (allowed : str → Prop) : nat → list str → str → Prop :=
| chain_end n seen s :
    (∀ r, ¬ owned records s r) → safe_chain records allowed n seen s
| chain_hop n seen s t :
    (∃ r, owned records s r) → (∀ r, owned records s r → target_of r t) →
    t ∉ seen → allowed t → safe_chain records allowed n (t :: seen) t →
    safe_chain records allowed (S n) seen s.

(** The first selected record, when all the selected ones agree with it. *)
Fixpoint agreed (sel : DnsRecord → bool) (records : list DnsRecord) (first : option DnsRecord)
  : option (option DnsRecord) :=
  match records with
  | [] => Some first
  | r :: rest =>
    if sel r then
      match first with
      | Some f => if cname_targets_match f r then agreed sel rest first else None
      | None => agreed sel rest (Some r)
      end
    else agreed sel rest first
  end.

Definition selected (sel : DnsRecord → bool) (records : list DnsRecord) (r : DnsRecord) : Prop :=
  r ∈ records ∧ sel r = true.

Lemma selected_cons sel r records x :
  selected sel (r :: records) x ↔ (x = r ∧ sel r = true) ∨ selected sel records x.
Proof. unfold selected. rewrite elem_of_cons. naive_solver. Qed.

Lemma selected_nil sel x : ¬ selected sel [] x.
Proof. intros [Hin _]. by apply not_elem_of_nil in Hin. Qed.

Lemma agreed_Some sel records first :
  match agreed sel records (Some first) with
  | Some out => out = Some first ∧ ∀ r, selected sel records r → cname_targets_match first r = true
  | None => ∃ r, selected sel records r ∧ cname_targets_match first r = false
  end.
Proof.
  induction records as [|r records IH]; cbn [agreed].
  { split; [done|]. intros r Hr. by apply selected_nil in Hr. }
  destruct (sel r) eqn:Hs; [destruct (cname_targets_match first r) eqn:Hm|].
  - destruct (agreed sel records (Some first)).
    + destruct IH as [-> Hall]. split; [done|]. intros x [[-> _]|Hx]%selected_cons; [done|by apply Hall].
    + destruct IH as (x & Hx & Hn). exists x. split; [|done]. apply selected_cons. by right.
  - exists r. split; [|done]. apply selected_cons. by left.
  - destruct (agreed sel records (Some first)).
    + destruct IH as [-> Hall]. split; [done|]. intros x [[-> Hx]|Hx]%selected_cons; [congruence|by apply Hall].
    + destruct IH as (x & Hx & Hn). exists x. split; [|done]. apply selected_cons. by right.
Qed.

Lemma agreed_None sel records :
  match agreed sel records None with
  | Some None => ∀ r, ¬ selected sel records r
  | Some (Some f) => selected sel records f ∧ ∀ r, selected sel records r → r = f ∨ cname_targets_match f r = true
  | None => ∃ r r', selected sel records r ∧ selected sel records r' ∧ cname_targets_match r r' = false
  end.
Proof.
  induction records as [|r records IH]; cbn [agreed]; [intros x; apply selected_nil|].
  destruct (sel r) eqn:Hs.
  - pose proof (agreed_Some sel records r) as Ha. destruct (agreed sel records (Some r)).
    + destruct Ha as [-> Hall]. split; [apply selected_cons; by left|].
      intros x [[-> _]|Hx]%selected_cons; [by left|right; by apply Hall].
    + destruct Ha as (x & Hx & Hn). exists r, x. split_and!; [| |done]; apply selected_cons; auto.
  - destruct (agreed sel records None) as [[f|]|].
    + destruct IH as [Hf Hall]. split; [apply selected_cons; by right|].
      intros x [[-> Hx]|Hx]%selected_cons; [congruence|by apply Hall].
    + intros x [[-> Hx]|Hx]%selected_cons; [congruence|by apply (IH x)].
    + destruct IH as (a & b & Ha & Hb & Hn). exists a, b. split_and!; [| |done]; apply selected_cons; by right.
Qed.

(** Both scans of the walk are that search. *)
Lemma find_following_agreed records n following :
  find_following records n following =
  match agreed (fun r => is_cname_link r && eq_ignore_root (rec_name r) n) records following with
  | Some out => Ok out
  | None => Err ()
  end.
Proof.
  revert following; induction records as [|r records IH]; intros following; [done|]. cbn [find_following agreed].
  destruct (is_cname_link r), (eq_ignore_root (rec_name r) n); cbn [negb andb orb]; rewrite ?IH; try done.
  destruct following as [f|]; [|by rewrite ?IH]. destruct (cname_targets_match f r); cbn [negb]; by rewrite ?IH.
Qed.

Lemma find_start_agreed records qname original start :
  (∀ o r, original = Some o → ¬ owned records o r) →
  find_start records qname original start =
  match agreed (fun r => is_cname_link r && owner_matches (rec_name r) qname) records start with
  | Some out => Ok out
  | None => Err (malformed_qname_verdict qname)
  end.
Proof.
  revert start; induction records as [|r records IH]; intros start Ho; [done|]. cbn [find_start agreed].
  assert (∀ o x, original = Some o → ¬ owned records o x) as Ho'.
  { intros o x E [Hin Hx]. apply (Ho o x E). split; [by right|done]. }
  destruct (is_cname_link r) eqn:Hl; cbn [negb andb]; [|by apply IH]. cbv zeta.
  assert (match original with Some o => owner_matches (rec_name r) o = false | None => True end) as Hor.
  { destruct original as [o|]; [|done]. apply not_true_is_false. intros Hx.
    apply (Ho o r eq_refl). split_and!; [by left|done|done]. }
  destruct original as [o|]; [rewrite Hor|];
    (destruct (owner_matches (rec_name r) qname); cbn [negb]; [|by apply IH];
     destruct start as [f|]; [|by apply IH]; destruct (cname_targets_match f r); cbn [negb]; [by apply IH|done]).
Qed.

Lemma find_start_original records qname o start r :
  owned records o r → ∃ v, find_start records qname (Some o) start = Err v ∧ v ≠ CAllow.
Proof.
  revert start; induction records as [|x records IH]; intros start (Hin & Hl & Hx).
  { by apply not_elem_of_nil in Hin. }
  assert (x ≠ r → ∀ start, ∃ v, find_start records qname (Some o) start = Err v ∧ v ≠ CAllow) as IH'.
  { intros Hne st. apply IH. apply elem_of_cons in Hin as [->|Hin]; [done|]. by split_and!. }
  cbn [find_start]. cbv zeta.
  destruct (is_cname_link x) eqn:Hlx; cbn [negb]; [|apply IH'; intros ->; congruence].
  destruct (owner_matches (rec_name x) o) eqn:Ho; [by eexists|].
  assert (x ≠ r) as Hne by (intros ->; congruence). specialize (IH' Hne).
  destruct (owner_matches (rec_name x) qname); cbn [negb]; [|apply IH'].
  destruct start as [f|]; [|apply IH']. destruct (cname_targets_match f x); cbn [negb]; [apply IH'|by eexists].
Qed.

(** ** The walk allows exactly the safe chains *)

Lemma match_target r r' t :
  target_of r t → is_cname_link r' = true → cname_targets_match r r' = true ↔ target_of r' t.
Proof.
  intros (n & Hd & Hn) Hl. unfold cname_targets_match, target_of, is_cname_link in *. rewrite Hd.
  destruct (rec_data r') as [n'|]; [|by rewrite andb_false_r in Hl].
  rewrite eq_ignore_root_spec. split.
  - intros E. exists n'. split; [done|]. apply (same_text n' n t Hn). by apply eq_ignore_root_spec.
  - intros (x & [= <-] & Hx). symmetry. apply eq_ignore_root_spec. by apply (same_text n' n t Hn).
Qed.

(** The searched record speaks for all the records of the owner. *)
Definition speaks_for (records : list DnsRecord) (s : str) (f : DnsRecord) : Prop :=
  owned records s f ∧ ∀ t, target_of f t ↔ ∀ r, owned records s r → target_of r t.

Lemma agreed_owner records s sel :
  (∀ r, sel r = is_cname_link r && owner_matches (rec_name r) s) →
  match agreed sel records None with
  | Some None => ∀ r, ¬ owned records s r
  | Some (Some f) => speaks_for records s f
  | None => ∀ t, ∃ r, owned records s r ∧ ¬ target_of r t
  end.
Proof.
  intros Hsel. assert (∀ r, selected sel records r ↔ owned records s r) as Hown.
  { intros r. unfold selected, owned. by rewrite Hsel, andb_true_iff. }
  pose proof (agreed_None sel records) as Ha. destruct (agreed sel records None) as [[f|]|].
  - destruct Ha as [Hf Hall]. apply Hown in Hf. split; [done|]. intros t. split; [|intros Hx; by apply Hx].
    intros Ht r Hr. destruct (Hall r) as [->|Hm]; [by apply Hown|done|].
    apply (match_target f); [done|apply Hr|done].
  - intros r Hr. by apply (Ha r), Hown.
  - destruct Ha as (r & r' & Hr%Hown & Hr'%Hown & Hn). intros t.
    destruct (cname_targets_match r r') eqn:E; [done|]. clear Hn.
    assert (¬ (target_of r t ∧ target_of r' t)) as Hnot.
    { intros [Ht Ht']. apply (match_target r r' t Ht) in Ht'; [congruence|apply Hr']. }
    destruct (rec_data r) as [n|] eqn:Hd; [|exists r; split; [done|intros (x & Hx & _); congruence]].
    destruct (decide (normalize_target_name n = Some t)) as [Hn|Hn].
    + exists r'. split; [done|]. intros Ht'. apply Hnot. split; [by exists n|done].
    + exists r. split; [done|]. intros (x & Hx & Hx'). rewrite Hd in Hx. by injection Hx as <-.
Qed.

Section Chains.
Variables (records : list DnsRecord) (qname : str) (original : option str).
Variable hop : str → option CnameVerdict.
Hypothesis qname_normal : normal_name qname.
Hypothesis original_normal : ∀ o, original = Some o → normal_name o.

Definition seen_ok (visited : list Name) (seen : list str) : Prop :=
  ∀ t, t ∈ seen ↔ t = qname ∨ original = Some t ∨ ∃ v, v ∈ visited ∧ normalize_target_name v = Some t.

Lemma loop_test visited seen n t :
  seen_ok visited seen → normalize_target_name n = Some t →
  owner_matches n qname || match original with Some o => owner_matches n o | None => false end
    || existsb (fun v => eq_ignore_root v n) visited = bool_decide (t ∈ seen).
Proof.
  unfold seen_ok. intros Hs Hn. apply eq_true_iff_eq. rewrite bool_decide_eq_true, !orb_true_iff, Hs, existsb_exists.
  rewrite (target_at n t qname Hn qname_normal). setoid_rewrite (fun v => same_text v n t Hn).
  setoid_rewrite <-list_elem_of_In.
  assert (match original with Some o => owner_matches n o | None => false end = true ↔ original = Some t) as ->.
  { destruct original as [o|]; [|done]. rewrite (target_at n t o Hn) by (by apply original_normal).
    naive_solver. }
  clear. naive_solver.
Qed.

Lemma seen_push visited seen n t :
  seen_ok visited seen → normalize_target_name n = Some t → seen_ok (visited ++ [n]) (t :: seen).
Proof.
  unfold seen_ok. intros Hs Hn u. rewrite elem_of_cons, Hs. setoid_rewrite elem_of_app. setoid_rewrite list_elem_of_singleton.
  split; [|naive_solver]. intros [->|[?|[?|(v & ? & ?)]]]; eauto 10.
Qed.

Lemma following_owner n t :
  normalize_target_name n = Some t →
  match find_following records n None with
  | Ok None => ∀ r, ¬ owned records t r
  | Ok (Some f) => speaks_for records t f
  | Err _ => ∀ u, ∃ r, owned records t r ∧ ¬ target_of r u
  end.
Proof.
  intros Hn. rewrite find_following_agreed.
  pose proof (agreed_owner records t (fun r => is_cname_link r && eq_ignore_root (rec_name r) n)) as Ha.
  destruct (agreed _ records None) as [[f|]|]; apply Ha; intros r; by rewrite (owner_of_target _ n t Hn).
Qed.

Lemma walk_chain_allow remaining record visited seen s :
  speaks_for records s record → seen_ok visited seen → length visited + remaining ≤ MAX_HOPS →
  walk_chain records qname original hop remaining record visited = Some CAllow ↔
  safe_chain records (fun t => hop t = Some CAllow) remaining seen s.
Proof.
  revert record visited seen s. induction remaining as [|remaining IH];
    intros record visited seen s Hsp Hs Hlen; pose proof Hsp as [Hown Htgt].
  all: assert (∃ n, rec_data record = RCname n) as [n Hd]
      by (destruct Hown as (_ & Hl & _); unfold is_cname_link in Hl; destruct (rec_data record);
          [eauto|by rewrite andb_false_r in Hl]).
  all: cbn [walk_chain]; rewrite Hd.
  all: assert (∀ t, target_of record t ↔ normalize_target_name n = Some t) as Htn
      by (intros t; unfold target_of; rewrite Hd; naive_solver).
  - split; [by destruct (normalize_target_name n)|]. intros Hc. inversion Hc as [? ? ? Hno|]; subst.
    by destruct (Hno record).
  - destruct (normalize_target_name n) as [t|] eqn:Hn.
    2:{ split; [done|]. intros Hc. inversion Hc as [? ? ? Hno|? ? ? t Hex Hall]; subst; [by destruct (Hno record)|].
        apply Hall, Htn in Hown. done. }
    rewrite (loop_test visited seen n t Hs Hn).
    pose proof (following_owner n t Hn) as Hf.
    assert (safe_chain records (fun t => hop t = Some CAllow) (S remaining) seen s ↔
      t ∉ seen ∧ hop t = Some CAllow ∧ safe_chain records (fun t => hop t = Some CAllow) remaining (t :: seen) t) as ->.
    { split.
      - intros Hc. inversion Hc as [? ? ? Hno|? ? ? t' Hex Hall Hnew Hal Hrest]; subst; [by destruct (Hno record)|].
        pose proof (Hall record Hown) as Ht'. apply Htn in Ht' as [= <-]. done.
      - intros (Hnew & Hal & Hrest). eapply chain_hop; [by exists record| |done..]. by apply Htgt, Htn. }
    case_bool_decide as Hin; [split; [done|naive_solver]|].
    assert (length visited < VISITED_CAPACITY) as Hcap by (unfold VISITED_CAPACITY; lia).
    destruct (find_following records n None) as [[f|]|].
    + destruct (hop t) as [[|o src]|] eqn:Hh; [|naive_solver|naive_solver].
      rewrite (proj2 (Nat.ltb_lt _ _) Hcap). rewrite (IH f (visited ++ [n]) (t :: seen) t); [naive_solver|done| |].
      * by apply seen_push.
      * rewrite length_app. simpl. lia.
    + destruct (hop t) as [[|o src]|] eqn:Hh; [|naive_solver|naive_solver].
      rewrite (proj2 (Nat.ltb_lt _ _) Hcap). split; [|done]. intros _. split_and!; [done|done|by apply chain_end].
    + split; [done|]. intros (_ & _ & Hrest). inversion Hrest as [? ? ? Hno|? ? ? u Hex Hall]; subst.
      * destruct (Hf []) as (r & Hr & _). by destruct (Hno r).
      * destruct (Hf u) as (r & Hr & Hnot). by destruct Hnot; apply Hall.
Qed.
End Chains.

Lemma option_some_dec (original : option str) :
  bool_decide (is_Some original) = match original with Some _ => true | None => false end.
Proof. destruct original; [by apply bool_decide_eq_true_2|]. apply bool_decide_eq_false_2. by intros []. Qed.

(** The hops a response may use, the synthetic edge taken off. *)
Definition hop_cap (original : option str) (max_depth : nat) : nat :=
  max_depth `min` MAX_HOPS - match original with Some _ => 1 | None => 0 end.

(** The conditions under which an answer is passed on. *)
Record served_safely (records : list DnsRecord) (qname : str) (original : option str)
    (hop : str → option CnameVerdict) (p : ResolvedProfile) (max_depth : nat) : Prop := {
  ss_policy : rp_operator_rules p ≠ None;
  ss_bridge : original ≠ None → 0 < max_depth `min` MAX_HOPS;
  ss_original : ∀ o r, original = Some o → ¬ owned records o r;
  ss_chain : safe_chain records (fun t => hop t = Some CAllow) (hop_cap original max_depth)
    (qname :: option_list original) qname;
}.

Lemma walk_allow records qname original e p addr g max_depth :
  normal_name qname → (∀ o, original = Some o → normal_name o) →
  walk_response_with_rewrite records qname original e p addr g max_depth = Some CAllow ↔
  served_safely records qname original (fun t => evaluate_synthetic_cname_hop t e p addr g) p max_depth.
Proof.
  intros Hq Ho. unfold walk_response_with_rewrite. destruct (rp_operator_rules p) as [b|] eqn:Hb.
  2:{ split; [done|]. intros [Hx]. by rewrite Hb in Hx. }
  cbv zeta. rewrite option_some_dec.
  set (hop := fun t => evaluate_synthetic_cname_hop t e p addr g).
  assert (match original with Some _ => true | None => false end && (max_depth `min` MAX_HOPS =? 0) = true
    ↔ ¬ (original ≠ None → 0 < max_depth `min` MAX_HOPS)) as Hbridge.
  { rewrite andb_true_iff, Nat.eqb_eq. destruct original; split; naive_solver lia. }
  destruct (match original with Some _ => true | None => false end && (max_depth `min` MAX_HOPS =? 0)).
  { split; [done|]. intros [_ Hx _ _]. by apply Hbridge in Hx. }
  assert (original ≠ None → 0 < max_depth `min` MAX_HOPS) as Hbr.
  { apply dec_stable. by rewrite <-Hbridge. }
  assert (max_depth `min` MAX_HOPS - (if match original with Some _ => true | None => false end then 1 else 0)
    = hop_cap original max_depth) as -> by (unfold hop_cap; by destruct original).
  destruct (existsb (fun r => is_cname_link r
      && match original with Some o => owner_matches (rec_name r) o | None => false end) records) eqn:Hor.
  { apply existsb_exists in Hor as (r & Hin & [Hl Hr]%andb_true_iff). apply list_elem_of_In in Hin.
    destruct original as [o|]; [|done].
    destruct (find_start_original records qname o None r) as (v & -> & Hv); [by split_and!|].
    split; [by intros [= ->]|]. intros [_ _ Hx _]. destruct (Hx o r eq_refl). by split_and!. }
  assert (∀ o r, original = Some o → ¬ owned records o r) as Hno.
  { intros o r E (Hin & Hl & Hr). apply not_true_iff_false in Hor. apply Hor, existsb_exists. exists r.
    subst. by rewrite <-list_elem_of_In, Hl, Hr. }
  rewrite find_start_agreed by done.
  pose proof (agreed_owner records qname (fun r => is_cname_link r && owner_matches (rec_name r) qname)
    (fun r => eq_refl)) as Ha.
  assert (∀ P, (P ↔ safe_chain records (fun t => hop t = Some CAllow) (hop_cap original max_depth)
      (qname :: option_list original) qname) → (P ↔ served_safely records qname original hop p max_depth)) as Hss.
  { intros P ->. split; [|by intros []]. intros Hc. split; [by rewrite Hb|done|done|done]. }
  destruct (agreed _ records None) as [[f|]|]; apply Hss.
  - apply walk_chain_allow; [done|done|done| |simpl; unfold hop_cap; lia].
    intros t. destruct original; simpl; set_solver.
  - split; [|done]. intros _. by apply chain_end.
  - split; [done|]. intros Hc. inversion Hc as [? ? ? Hn|? ? ? t Hex Hall]; subst.
    + destruct (Ha []) as (r & Hr & _). by destruct (Hn r).
    + destruct (Ha t) as (r & Hr & Hnt). by destruct Hnt; apply Hall.
Qed.

(** ** Totality, order and grants *)

Context {SH : Sha2Crate}.

(** The causes an operator's policy can give, and those of a malformed answer. *)
Definition malformation (s : BlockSource) : bool :=
  match s with
  | BSCnameLoop | BSCnameDepthExceeded | BSCnameMalformed => true
  | _ => false
  end.

(** Every hop of a profile bound to a compiled snapshot is decided, and a
    blocked one names itself and a policy cause. *)
Definition hop_decides (hop : str → option CnameVerdict) : Prop :=
  ∀ t, hop t = Some CAllow ∨ ∃ o src, hop t = Some (CBlock o src) ∧ malformation src = false.

Lemma bound_snapshot packs profiles l c id b :
  compiled packs profiles l c → binding_new c id = Some b →
  ∃ q m, binding_profile b = Some q ∧ m ∈ profiles ∧ profile c (mt_profile_id m) = Some q.
Proof.
  intros Hc Hb.
  assert (id ∈ map mt_profile_id profiles) as Hid.
  { apply dec_stable. intros Hn. apply (compiled_absent _ _ _ _ _ Hc) in Hn.
    unfold binding_new in Hb. by rewrite Hn in Hb. }
  apply list_elem_of_fmap in Hid as (m & -> & Hm).
  destruct (compiled_profile _ _ _ _ _ Hc Hm) as (s & src & plan & q & _ & _ & Hq & _).
  exists q, m. split_and!; [|done|done]. apply binding_found in Hq. by rewrite Hb in Hq.
Qed.

Lemma reduce_token hit inherited block_all external tok :
  rd_winning_token (reduce hit inherited block_all external) = Some tok → ∃ h, hit = Some h ∧ tok = token h.
Proof.
  unfold reduce, best_with_grant. destruct hit as [h|], inherited as [g|]; simpl; [|naive_solver..].
  repeat case_match; simpl; naive_solver.
Qed.

Lemma external_source_list e d p external source :
  external_matches_attributed e d p = (external, source) → source = None ∨ ∃ bit, source = Some (BSList bit).
Proof.
  unfold external_matches_attributed. destruct (rp_unfiltered p); [intros [= <- <-]; by left|]. cbv zeta.
  intros [= <- <-]. case_match; eauto.
Qed.

Lemma hop_decides_bound packs profiles l c p p' e addr g :
  compiled packs profiles l c → bind_operator_rules p c = Some p' →
  hop_decides (fun t => evaluate_synthetic_cname_hop t e p' addr g).
Proof.
  intros Hc Hb t. apply bind_inv in Hb as ->. unfold evaluate_synthetic_cname_hop.
  cbn [rp_operator_rules bound]. destruct (binding_new c (rp_name p)) as [b|] eqn:Eb.
  2:{ right. by eexists _, _. }
  destruct (bound_snapshot _ _ _ _ _ _ Hc Eb) as (q & m & -> & Hm & Hq).
  destruct (external_matches_attributed e t (bound p c)) as [external source] eqn:Ex.
  case_decide as Hv; [|by left]. right.
  destruct (rd_winning_token _) as [tok|] eqn:Et.
  - apply reduce_token in Et as (h & Hh & ->).
    destruct (hit_row _ _ _ _ _ _ _ _ Hc Hm Hq Hh) as (r & -> & _). by eexists _, _.
  - eexists _, _. split; [done|]. case_decide; [|done].
    by destruct (external_source_list _ _ _ _ _ Ex) as [->|[bit ->]].
Qed.

Lemma walk_chain_total records qname original hop remaining record visited :
  hop_decides hop → length visited + remaining ≤ MAX_HOPS →
  is_Some (walk_chain records qname original hop remaining record visited).
Proof.
  intros Hh. revert record visited. induction remaining as [|remaining IH]; intros record visited Hl;
    cbn [walk_chain]; (destruct (rec_data record) as [n|]; [|done]);
    (destruct (normalize_target_name n) as [t|]; [|done]); [done|].
  destruct (_ || _); [done|]. destruct (find_following records n None) as [following|]; [|done].
  destruct (Hh t) as [->|(o & src & -> & _)]; [|done].
  rewrite (proj2 (Nat.ltb_lt _ _)) by (unfold VISITED_CAPACITY; lia).
  destruct following as [f|]; [|done]. apply IH. rewrite length_app. simpl. lia.
Qed.

Lemma walk_total records qname original e p addr g max_depth :
  hop_decides (fun t => evaluate_synthetic_cname_hop t e p addr g) →
  is_Some (walk_response_with_rewrite records qname original e p addr g max_depth).
Proof.
  intros Hh. unfold walk_response_with_rewrite. destruct (rp_operator_rules p); [|done]. cbv zeta.
  destruct (_ && _); [done|]. destruct (find_start _ _ _ _) as [[f|]|]; [|done|done].
  apply walk_chain_total; [done|]. simpl. lia.
Qed.

(** C17: a response is passed on exactly when the branch of the name it serves
    is safe.  For a profile bound to a compiled snapshot the walk always
    returns; it allows the answer exactly when the records of each name on the
    branch agree on one well-formed target that was not seen before, every
    target is allowed by the policy, at most [cname_max_depth] (capped at 16)
    hops are taken, the synthetic edge of a rewrite included, and no record is
    owned by the rewritten name. *)
Theorem walk_allows_safe_chains packs profiles l adm c adm' records qname original e p p' addr g max_depth :
  adm_wf adm → limits_wf l → compile packs profiles l adm = (Some (Ok c), adm') →
  bind_operator_rules p c = Some p' →
  normal_name qname → (∀ o, original = Some o → normal_name o) →
  ∃ v, walk_response_with_rewrite records qname original e p' addr g max_depth = Some v
    ∧ (v = CAllow ↔
       served_safely records qname original (fun t => evaluate_synthetic_cname_hop t e p' addr g) p' max_depth).
Proof.
  intros Hadm Hl Hcomp Hb Hq Ho. pose proof (compile_spec packs profiles l adm Hadm Hl) as HC.
  rewrite Hcomp in HC. destruct HC as (_ & _ & Hc).
  destruct (walk_total records qname original e p' addr g max_depth) as [v Hv].
  { by apply (hop_decides_bound packs profiles l c p). }
  exists v. split; [done|]. rewrite <-(walk_allow records qname original e p' addr g max_depth Hq Ho), Hv.
  split; [by intros ->|by intros [= ->]].
Qed.

Lemma safe_chain_same records records' (allowed allowed' : str → Prop) n seen s :
  (∀ r, r ∈ records ↔ r ∈ records') → (∀ t, allowed t → allowed' t) →
  safe_chain records allowed n seen s → safe_chain records' allowed' n seen s.
Proof.
  intros Hr Hal Hc. assert (∀ u r, owned records' u r ↔ owned records u r) as Hown.
  { intros u r. unfold owned. by rewrite Hr. }
  induction Hc as [n seen s Hno|n seen s t [r Hex] Hall Hnew Ha _ IH].
  - apply chain_end. intros r Hx. by apply (Hno r), Hown.
  - apply (chain_hop _ _ n seen s t); [exists r; by apply Hown| |done|by apply Hal|done].
    intros r' Hr'. by apply Hall, Hown.
Qed.

(** The order and the repetition of the records in an answer are
    irrelevant: whatever order upstream writes them in, the same set of records
    is allowed or not. *)
Theorem walk_order_irrelevant records records' qname original e p addr g max_depth :
  normal_name qname → (∀ o, original = Some o → normal_name o) → (∀ r, r ∈ records ↔ r ∈ records') →
  walk_response_with_rewrite records qname original e p addr g max_depth = Some CAllow →
  walk_response_with_rewrite records' qname original e p addr g max_depth = Some CAllow.
Proof.
  intros Hq Ho Hr. rewrite !walk_allow by done. intros [Hp Hbr Hor Hc]. split; [done|done| |].
  - intros o r E (Hin & Hx). apply (Hor o r E). split; [by apply Hr|done].
  - revert Hc. by apply safe_chain_same.
Qed.

(** A chain of safe shape is allowed, or blocked by the policy at one hop. *)
Lemma walk_chain_shape records qname original hop remaining record visited seen s :
  normal_name qname → (∀ o, original = Some o → normal_name o) →
  speaks_for records s record → seen_ok qname original visited seen → length visited + remaining ≤ MAX_HOPS →
  safe_chain records (fun _ => True) remaining seen s →
  match walk_chain records qname original hop remaining record visited with
  | Some (CBlock o src) => ∃ t, hop t = Some (CBlock o src)
  | _ => True
  end.
Proof.
  intros Hq Ho. revert record visited seen s. induction remaining as [|remaining IH];
    intros record visited seen s [Hown Htgt] Hs Hlen Hc.
  { inversion Hc as [? ? ? Hno|]; subst. by destruct (Hno record). }
  inversion Hc as [? ? ? Hno|? ? ? t Hex Hall Hnew _ Hrest]; subst; [by destruct (Hno record)|].
  destruct (Hall record Hown) as (n & Hd & Hn). cbn [walk_chain]. rewrite Hd, Hn.
  rewrite (loop_test qname original hop Hq Ho visited seen n t Hs Hn), bool_decide_eq_false_2 by done.
  pose proof (following_owner records n t Hn) as Hf.
  destruct (find_following records n None) as [[f|]|].
  - destruct (hop t) as [[|o src]|] eqn:Hh; [|by exists t|done]. destruct (_ <? _); [|done].
    apply (IH f (visited ++ [n]) (t :: seen) t); [done|by apply seen_push| |done].
    rewrite length_app. simpl. lia.
  - destruct (hop t) as [[|o src]|] eqn:Hh; [|by exists t|done]. by destruct (_ <? _).
  - inversion Hrest as [? ? ? Hno|? ? ? u Hex' Hall']; subst.
    + destruct (Hf []) as (r & Hr & _). by destruct (Hno r).
    + destruct (Hf u) as (r & Hr & Hnot). by destruct Hnot; apply Hall'.
Qed.

(** C18: no grant lifts a malformed answer: an answer blocked as a loop, as too
    deep or as malformed under one grant is not allowed under any other. *)
Theorem grants_never_lift_malformation packs profiles l adm c adm' records qname original e p p' addr g g' max_depth o src :
  adm_wf adm → limits_wf l → compile packs profiles l adm = (Some (Ok c), adm') →
  bind_operator_rules p c = Some p' →
  normal_name qname → (∀ o, original = Some o → normal_name o) →
  walk_response_with_rewrite records qname original e p' addr g max_depth = Some (CBlock o src) →
  malformation src = true →
  walk_response_with_rewrite records qname original e p' addr g' max_depth ≠ Some CAllow.
Proof.
  intros Hadm Hl Hcomp Hb Hq Ho Hw Hm. pose proof (compile_spec packs profiles l adm Hadm Hl) as HC.
  rewrite Hcomp in HC. destruct HC as (_ & _ & Hc).
  pose proof (hop_decides_bound packs profiles l c p p' e addr g Hc Hb) as Hh.
  rewrite walk_allow by done. intros [Hp Hbr Hor Hch]. revert Hw. unfold walk_response_with_rewrite.
  destruct (rp_operator_rules p') as [b|]; [|done]. cbv zeta. rewrite option_some_dec.
  assert (match original with Some _ => true | None => false end && (max_depth `min` MAX_HOPS =? 0) = false) as ->.
  { apply not_true_is_false. rewrite andb_true_iff, Nat.eqb_eq. destruct original; naive_solver lia. }
  assert (max_depth `min` MAX_HOPS - (if match original with Some _ => true | None => false end then 1 else 0)
    = hop_cap original max_depth) as -> by (unfold hop_cap; by destruct original).
  rewrite find_start_agreed by done.
  pose proof (agreed_owner records qname (fun r => is_cname_link r && owner_matches (rec_name r) qname)
    (fun r => eq_refl)) as Ha.
  destruct (agreed _ records None) as [[f|]|]; [|done|].
  - intros Hw. pose proof (walk_chain_shape records qname original
      (fun t => evaluate_synthetic_cname_hop t e p' addr g) (hop_cap original max_depth) f []
      (qname :: option_list original) qname Hq Ho Ha) as Hsh.
    rewrite Hw in Hsh. destruct Hsh as [t Ht].
    + intros u. destruct original; simpl; set_solver.
    + simpl. unfold hop_cap. lia.
    + revert Hch. by apply safe_chain_same.
    + destruct (Hh t) as [Hx|(o' & src' & Hx & Hpol)]; [congruence|]. rewrite Ht in Hx. injection Hx as _ <-. by rewrite Hpol in Hm.
  - inversion Hch as [? ? ? Hn|? ? ? t Hex Hall]; subst.
    + destruct (Ha []) as (r & Hr & _). by destruct (Hn r).
    + destruct (Ha t) as (r & Hr & Hnt). by destruct Hnt; apply Hall.
Qed.
End Walk.

(** ** Concrete answers *)

(** Names as their labels. *)
Definition label_names : NameCrate.
Proof.
  refine {| Name := { ls : list str | bool_decide (Forall (fun l => l ≠ []) ls) = true };
            name_iter := fun n => `n;
            eq_ignore_root := fun a b => bool_decide (map to_ascii_lowercase (`a) = map to_ascii_lowercase (`b)) |}.
  - intros a b. apply bool_decide_eq_true.
  - intros [ls Hls]. exact (bool_decide_eq_true_1 _ Hls).
Defined.

#[local] Existing Instance label_names.
#[local] Existing Instance identity_sha.
#[local] Existing Instance literal_programs.
#[local] Existing Instance length_hasher.

Definition www_test : Name := exist _ [lit "WWW"; lit "test"] eq_refl.
Definition cdn_test : Name := exist _ [lit "cdn"; lit "test"] eq_refl.
Definition edge_test : Name := exist _ [lit "edge"; lit "test"] eq_refl.

Definition cname (owner target : Name) : DnsRecord :=
  {| rec_name := owner; rec_type_cname := true; rec_data := RCname target |}.

(** The walk of the guest profile, compiled and bound. *)
Definition guest_walk_as (qname : str) (records : list DnsRecord) : option CnameVerdict :=
  match sample_compiled with
  | Some (c, _) =>
    match bind_operator_rules (sample_profile (lit "guest") ∅ []) c with
    | Some p => walk_response_with_grant records qname sample_engine p 0 None 16
    | None => None
    end
  | None => None
  end.

Definition guest_walk : list DnsRecord → option CnameVerdict := guest_walk_as (lit "www.test").

Lemma www_normal : normal_name (lit "www.test").
Proof. exists [lit "www"; lit "test"]. vm_compute. reflexivity. Qed.

Lemma no_original (o : str) : @None str = Some o → normal_name o.
Proof. done. Qed.

Lemma guest_bound (records : list DnsRecord) v :
  guest_walk records = Some v →
  ∃ c adm' p', compile sample_packs sample_mounts RuleCompileLimits_default sample_admission
      = (Some (Ok c), adm')
    ∧ bind_operator_rules (sample_profile (lit "guest") ∅ []) c = Some p'
    ∧ walk_response_with_rewrite records (lit "www.test") None sample_engine p' 0 None 16 = Some v.
Proof.
  unfold guest_walk, guest_walk_as, sample_compiled.
  destruct (compile _ _ _ _) as [[[c|err]|] adm'] eqn:E; [|done|done].
  destruct (bind_operator_rules _ c) as [p'|] eqn:B; [|done]. intros Hw. exists c, adm', p'. split; [first [reflexivity|exact E]|split; [exact B|exact Hw]].
Qed.

Lemma walk_allows_safe_chains_witness :
  ∃ p', served_safely [cname cdn_test edge_test; cname www_test cdn_test] (lit "www.test") None
      (fun t => evaluate_synthetic_cname_hop t sample_engine p' 0 None) p' 16.
Proof.
  destruct (guest_bound [cname cdn_test edge_test; cname www_test cdn_test] CAllow)
    as (c & adm' & p' & E & B & W); [vm_compute; reflexivity|].
  destruct (walk_allows_safe_chains sample_packs sample_mounts RuleCompileLimits_default sample_admission c adm'
    [cname cdn_test edge_test; cname www_test cdn_test] (lit "www.test") None sample_engine
    (sample_profile (lit "guest") ∅ []) p' 0 None 16
    sample_adm_wf sample_limits_wf E B www_normal no_original) as (v & Hv & Hsafe).
  exists p'. apply Hsafe. rewrite W in Hv. by injection Hv as <-.
Defined.

Lemma walk_order_irrelevant_witness :
  ∃ p', walk_response_with_rewrite [cname www_test cdn_test; cname cdn_test edge_test; cname www_test cdn_test]
      (lit "www.test") None sample_engine p' 0 None 16 = Some CAllow.
Proof.
  destruct (guest_bound [cname cdn_test edge_test; cname www_test cdn_test] CAllow)
    as (c & adm' & p' & E & B & W); [vm_compute; reflexivity|].
  exists p'. apply (walk_order_irrelevant [cname cdn_test edge_test; cname www_test cdn_test]
    [cname www_test cdn_test; cname cdn_test edge_test; cname www_test cdn_test] (lit "www.test") None
    sample_engine p' 0 None 16 www_normal no_original); [|exact W].
  intros r. rewrite !elem_of_cons. tauto.
Defined.

(** A cycle back to the served name. *)
Lemma grants_never_lift_malformation_witness :
  ∃ p', ∀ g', walk_response_with_rewrite [cname www_test cdn_test; cname cdn_test www_test]
      (lit "www.test") None sample_engine p' 0 g' 16 ≠ Some CAllow.
Proof.
  destruct (guest_bound [cname www_test cdn_test; cname cdn_test www_test] (CBlock (lit "www.test") BSCnameLoop))
    as (c & adm' & p' & E & B & W); [vm_compute; reflexivity|].
  exists p'. intros g'.
  apply (grants_never_lift_malformation sample_packs sample_mounts RuleCompileLimits_default sample_admission
    c adm' [cname www_test cdn_test; cname cdn_test www_test] (lit "www.test") None sample_engine
    (sample_profile (lit "guest") ∅ []) p' 0 None g' 16 (lit "www.test") BSCnameLoop
    sample_adm_wf sample_limits_wf E B www_normal no_original W eq_refl).
Defined.

Definition ads_test : Name := exist _ [lit "ads"; lit "test"] eq_refl.
Definition spaced_test : Name := exist _ [lit "a b"; lit "test"] eq_refl.

(** The walk compares labels with pieces of the text, which has an escape for a
    byte like the space: no record is found to be owned by such a name, and its
    aliases are passed on unread. *)
Lemma escaped_name_not_walked :
  guest_walk_as (lit "www.test") [cname www_test ads_test] ≠ Some CAllow ∧ guest_walk_as (lit "a\040b.test") [cname spaced_test ads_test] = Some CAllow.
Proof. split; [vm_compute; discriminate|vm_compute; reflexivity]. Qed.
