(* ===== verification/Windows.v ===== *)
(** * Packed window counters: [src/security/atomic_window.rs]

    A counter and the start of its window share one atomic word.  The loop of
    [check_and_bump] is a small state machine per thread, so that any
    interleaving of its loads, exchanges and additions is a run of a step
    relation. *)

From S2P Require Import Prelude.

(** ** Packed words *)

Definition pack (count ws : Z) : Z := Z.lor (Z.shiftl count 32) ws.

Definition unpack (packed : Z) : Z * Z := (as_u32 (Z.shiftr packed 32), as_u32 packed).

Lemma pack_add count ws : in_u32 ws → pack count ws = (count * 2 ^ 32 + ws)%Z.
Proof.
  intros Hw. unfold pack, in_u32, U32_MAX in *. rewrite <-(Z.shiftl_mul_pow2 count 32) by lia.
  rewrite <-Z.add_lor_land.
  assert (Z.land (Z.shiftl count 32) ws = 0)%Z as ->; [|lia].
  apply Z.bits_inj'. intros i Hi. rewrite Z.land_spec, Z.bits_0.
  destruct (Z.ltb_spec i 32).
  - by rewrite Z.shiftl_spec_low.
  - destruct (decide (ws = 0)%Z) as [->|Hne]; [by rewrite Z.bits_0, andb_false_r|].
    rewrite (Z.bits_above_log2 ws i), andb_false_r; [done|lia|].
    assert (Z.log2 ws < 32)%Z by (apply Z.log2_lt_pow2; lia). lia.
Qed.

Lemma unpack_div packed : (0 ≤ packed)%Z → unpack packed = (as_u32 (packed / 2 ^ 32), as_u32 packed).
Proof. intros Hp. unfold unpack. by rewrite Z.shiftr_div_pow2 by lia. Qed.

Lemma unpack_pack count ws : in_u32 count → in_u32 ws → unpack (pack count ws) = (count, ws).
Proof.
  intros Hc Hw. rewrite pack_add by done. unfold in_u32, U32_MAX in *. rewrite unpack_div by lia.
  unfold as_u32. rewrite Z.div_add_l by lia. rewrite (Z.div_small ws) by lia.
  rewrite Z.add_0_r, (Z.mod_small count) by lia.
  by rewrite Z.add_comm, Z.mod_add, Z.mod_small by lia.
Qed.

Lemma pack_in_u64 count ws : in_u32 count → in_u32 ws → in_u64 (pack count ws).
Proof. intros Hc Hw. rewrite pack_add by done. unfold in_u64, in_u32, U32_MAX, U64_MAX in *. lia. Qed.

(** Every word is the pair it unpacks to. *)
Lemma pack_unpack packed :
  in_u64 packed → pack (unpack packed).1 (unpack packed).2 = packed
    ∧ in_u32 (unpack packed).1 ∧ in_u32 (unpack packed).2.
Proof.
  intros Hp. unfold in_u64, U64_MAX in Hp. rewrite unpack_div by lia. cbn [fst snd]. unfold as_u32.
  assert (packed / 2 ^ 32 < 2 ^ 32)%Z as Hq by (apply Z.div_lt_upper_bound; lia).
  assert (0 ≤ packed / 2 ^ 32)%Z as Hq0 by (apply Z.div_pos; lia).
  pose proof (Z.mod_pos_bound packed (2 ^ 32) ltac:(lia)) as Hm.
  rewrite (Z.mod_small (packed / 2 ^ 32)) by lia.
  assert (in_u32 (packed mod 2 ^ 32)) as Hr by (unfold in_u32, U32_MAX; lia).
  rewrite pack_add by done. split_and!; [|unfold in_u32, U32_MAX; lia|done].
  rewrite (Z.div_mod packed (2 ^ 32)) at 3 by lia. lia.
Qed.

(** [fetch_add(1 << 32)] *)
Definition bump (packed : Z) : Z := as_u64 (packed + Z.shiftl 1 32).

(** A bump never disturbs the window start, even when the count wraps. *)
Lemma unpack_bump count ws :
  in_u32 count → in_u32 ws → bump (pack count ws) = pack (as_u32 (count + 1)) ws.
Proof.
  intros Hc Hw. unfold bump, as_u64, as_u32. rewrite !pack_add by done.
  change (Z.shiftl 1 32) with (2 ^ 32)%Z. unfold in_u32, U32_MAX in *.
  destruct (Z.eqb_spec count (2 ^ 32 - 1)) as [->|Hne].
  - rewrite (Z.sub_add 1), Z.mod_same by lia.
    replace ((2 ^ 32 - 1) * 2 ^ 32 + ws + 2 ^ 32)%Z with (ws + 1 * 2 ^ 64)%Z by lia.
    rewrite Z.mod_add by lia. rewrite Z.mod_small by lia. lia.
  - rewrite (Z.mod_small (count + 1)) by lia. rewrite Z.mod_small by lia. lia.
Qed.

(** ** The counter *)

Definition counter_new (now_secs : Z) : Z := pack 0 (as_u32 now_secs).

Definition window_start_secs (state : Z) : Z := (unpack state).2.

Definition elapsed (now_secs packed : Z) : Z := saturating_sub now_secs (unpack packed).2.

(** One undisturbed call: the new word and the count before it. *)
Definition check_and_bump (state now_secs window_secs : Z) : Z * Z :=
  if (window_secs <=? elapsed now_secs state)%Z then (pack 1 (as_u32 now_secs), 0%Z)
  else (bump state, (unpack state).1).

(** Where a thread is in the loop. *)
Inductive window_pc :=
| WStart
| WLoaded (packed : Z)
| WDone (prior : Z).

(** One atomic action of a thread: a load, the exchange, or the addition. *)
Definition window_act (now_secs window_secs : Z) (pc : window_pc) (state : Z) : option (window_pc * Z) :=
  match pc with
  | WStart => Some (WLoaded state, state)
  | WLoaded packed =>
    if (window_secs <=? elapsed now_secs packed)%Z then
      if (state =? packed)%Z then Some (WDone 0, pack 1 (as_u32 now_secs)) else Some (WStart, state)
    else Some (WDone (unpack state).1, bump state)
  | WDone _ => None
  end.

(** Any thread may move next. *)
Inductive window_step (now_secs window_secs : Z) : list window_pc * Z → list window_pc * Z → Prop :=
| window_step_at i pc pc' pcs state state' :
    pcs !! i = Some pc → window_act now_secs window_secs pc state = Some (pc', state') →
    window_step now_secs window_secs (pcs, state) (<[i := pc']> pcs, state').

Definition priors (pcs : list window_pc) : list Z :=
  omap (fun pc => match pc with WDone prior => Some prior | _ => None end) pcs.

(** ** Concurrent calls *)

Definition is_done (pc : window_pc) : bool := match pc with WDone _ => true | _ => false end.

Lemma priors_insert pcs i pc pc' :
  pcs !! i = Some pc → is_done pc = false →
  priors (<[i := pc']> pcs) ≡ₚ priors [pc'] ++ priors pcs.
Proof.
  intros Hi Hd. unfold priors. rewrite insert_take_drop by (by apply lookup_lt_Some in Hi).
  rewrite <-(take_drop_middle pcs i pc Hi) at 3. rewrite !omap_app. cbn [omap list_omap].
  destruct pc; [| |done]; destruct pc'; simpl; try done; by rewrite Permutation_middle.
Qed.

Lemma priors_length pcs : length (priors pcs) ≤ length pcs.
Proof. induction pcs as [|[| |] pcs IH]; simpl; lia. Qed.

Lemma priors_all pcs : Forall is_done pcs → length (priors pcs) = length pcs.
Proof. induction 1 as [|[| |] pcs Hd _ IH]; try done; simpl; by rewrite <-IH. Qed.

(** A thread that has not finished leaves room for its count. *)
Lemma inv_has_room pcs i pc : pcs !! i = Some pc → is_done pc = false → length (priors pcs) < length pcs.
Proof.
  intros Hi Hd. rewrite <-(take_drop_middle pcs i pc Hi). unfold priors. rewrite omap_app, !length_app.
  pose proof (priors_length (take i pcs)) as H1. pose proof (priors_length (drop (S i) pcs)) as H2.
  unfold priors in H1, H2. destruct pc; cbn [omap list_omap length] in *; [lia|lia|done].
Qed.

Lemma counts_below k (max : Z) :
  (0 ≤ max)%Z →
  Z.of_nat (length (List.filter (fun c => (c <? max)%Z) (map Z.of_nat (seq 0 k)))) = Z.min (Z.of_nat k) max.
Proof.
  intros Hm. induction k as [|k IH]; [simpl; lia|].
  rewrite seq_S, map_app, List.filter_app, length_app, Nat2Z.inj_add, IH. simpl.
  destruct (Z.ltb_spec (Z.of_nat k) max); simpl; lia.
Qed.

Lemma filter_Permutation_length {A} (f : A → bool) (l l' : list A) :
  l ≡ₚ l' → length (List.filter f l) = length (List.filter f l').
Proof. induction 1; simpl; repeat case_match; simpl in *; lia. Qed.

Section Calls.
Variables (now_secs window_secs st0 : Z).
Hypothesis now_fits : in_u32 now_secs.
Hypothesis window_positive : (0 < window_secs)%Z.
Hypothesis st0_expired : (window_secs ≤ elapsed now_secs st0)%Z.

(** Before the window is reset nobody has a count; afterwards the word holds
    the number of finished calls and they hold the counts below it. *)
Inductive window_inv : list window_pc * Z → Prop :=
| window_old pcs :
    Forall (fun pc => pc = WStart ∨ pc = WLoaded st0) pcs → window_inv (pcs, st0)
| window_new pcs k :
    0 < k → priors pcs ≡ₚ map Z.of_nat (seq 0 k) →
    Forall (fun pc => match pc with
                      | WLoaded p => p = st0 ∨ (unpack p).2 = now_secs
                      | _ => True end) pcs →
    window_inv (pcs, pack (Z.of_nat k) now_secs).

Lemma as_u32_now : as_u32 now_secs = now_secs.
Proof. unfold as_u32, in_u32, U32_MAX in *. apply Z.mod_small. lia. Qed.

Lemma not_expired packed : (unpack packed).2 = now_secs → (window_secs <=? elapsed now_secs packed)%Z = false.
Proof. intros E. unfold elapsed, saturating_sub. rewrite E. apply Z.leb_gt. lia. Qed.

Lemma fresh_word k : 0 < k → (Z.of_nat k ≤ U32_MAX)%Z →
  unpack (pack (Z.of_nat k) now_secs) = (Z.of_nat k, now_secs) ∧ pack (Z.of_nat k) now_secs ≠ st0.
Proof.
  intros Hk Hm. assert (unpack (pack (Z.of_nat k) now_secs) = (Z.of_nat k, now_secs)) as E
    by (apply unpack_pack; [unfold in_u32; lia|done]).
  split; [done|]. intros Hst. pose proof (not_expired (pack (Z.of_nat k) now_secs)) as Hx.
  rewrite E in Hx. specialize (Hx eq_refl). rewrite Hst in Hx. apply Z.leb_gt in Hx. lia.
Qed.

Lemma inv_not_done pcs state : window_inv (pcs, state) → length pcs ≤ Z.to_nat U32_MAX →
  ∀ i pc pc' state', pcs !! i = Some pc → window_act now_secs window_secs pc state = Some (pc', state') →
  window_inv (<[i := pc']> pcs, state').
Proof.
  intros Hinv Hlen i pc pc' state' Hi Ha.
  inversion Hinv as [pcs0 Hf|pcs0 k Hk Hp Hf]; subst.
  - pose proof (Forall_lookup_1 _ _ _ _ Hf Hi) as [->| ->]; cbn [window_act] in Ha.
    + injection Ha as <- <-. apply window_old, Forall_insert; [done|by right].
    + rewrite (proj2 (Z.leb_le _ _) st0_expired), Z.eqb_refl in Ha. injection Ha as <- <-.
      rewrite as_u32_now. apply (window_new _ 1); [lia| |].
      * rewrite (priors_insert _ _ (WLoaded st0)) by done.
        assert (priors pcs = []) as ->; [|done].
        clear -Hf. induction Hf as [|pc pcs [->| ->] _ IH]; [done|exact IH|exact IH].
      * apply Forall_insert; [|done]. eapply Forall_impl; [exact Hf|]. intros pc [->| ->]; [done|by left].
  - assert (k ≤ length pcs) as Hkl.
    { apply Permutation_length in Hp. rewrite length_map, length_seq in Hp. rewrite <-Hp. apply priors_length. }
    assert (Z.of_nat k ≤ U32_MAX)%Z as Hku by lia.
    destruct (fresh_word k Hk Hku) as [Hun Hne].
    pose proof (Forall_lookup_1 _ _ _ _ Hf Hi) as Hpc. destruct pc as [|p|prior]; cbn [window_act] in Ha; [| |done].
    + injection Ha as <- <-. apply window_new; [done| |].
      * by rewrite (priors_insert _ _ WStart).
      * apply Forall_insert; [done|]. right. by rewrite Hun.
    + destruct Hpc as [->|Hnow].
      * rewrite (proj2 (Z.leb_le _ _) st0_expired) in Ha.
        destruct (Z.eqb_spec (pack (Z.of_nat k) now_secs) st0); [done|]. injection Ha as <- <-.
        apply window_new; [done|by rewrite (priors_insert _ _ (WLoaded st0))|by apply Forall_insert].
      * rewrite not_expired, Hun in Ha by done. cbn [fst] in Ha. apply (inj Some), (inj2 pair) in Ha as [<- <-].
        assert (k < length pcs) as Hkl'.
        { apply Permutation_length in Hp. rewrite length_map, length_seq in Hp. rewrite <-Hp.
          by apply (inv_has_room _ i (WLoaded p)). }
        rewrite unpack_bump by (unfold in_u32 in *; lia || done).
        assert (as_u32 (Z.of_nat k + 1) = Z.of_nat (S k)) as ->
          by (unfold as_u32, U32_MAX in *; rewrite Z.mod_small; lia).
        apply window_new; [lia| |by apply Forall_insert].
        rewrite (priors_insert _ _ (WLoaded p)) by done. rewrite Hp, seq_S, map_app.
        by rewrite Permutation_app_comm.
Qed.
End Calls.

Lemma window_step_length now_secs window_secs c c' :
  window_step now_secs window_secs c c' → length c'.1 = length c.1.
Proof. destruct 1. simpl. by rewrite length_insert. Qed.

(** A call left alone is [check_and_bump]. *)
Lemma window_act_alone now_secs window_secs state :
  window_act now_secs window_secs (WLoaded state) state
  = Some (let '(state', prior) := check_and_bump state now_secs window_secs in (WDone prior, state')).
Proof. unfold window_act, check_and_bump. rewrite Z.eqb_refl. by destruct (_ <=? _)%Z. Qed.

Lemma window_one now_secs window_secs pcs i state :
  pcs !! i = Some WStart →
  rtc (window_step now_secs window_secs) (pcs, state)
    (let '(state', prior) := check_and_bump state now_secs window_secs in (<[i := WDone prior]> pcs, state')).
Proof.
  intros Hi. eapply rtc_l; [by eapply (window_step_at _ _ i)|].
  pose proof (window_act_alone now_secs window_secs state) as Ha. destruct (check_and_bump _ _ _) as [state' prior].
  rewrite <-(list_insert_insert_eq pcs i (WDone prior) (WLoaded state)). apply rtc_once.
  eapply window_step_at; [|done]. apply list_lookup_insert_eq. by eapply lookup_lt_Some.
Qed.

Lemma window_can_finish now_secs window_secs pcs state :
  ∃ pcs' state', rtc (window_step now_secs window_secs) (pcs, state) (pcs', state')
    ∧ length pcs' = length pcs ∧ Forall is_done pcs'.
Proof.
  apply (finish_all (window_step now_secs window_secs) (fun pc => is_done pc)). clear. intros pcs state i pc Hi.
  assert (∀ pcs, pcs !! i = Some WStart → ∃ pc' state', rtc (window_step now_secs window_secs) (pcs, state)
    (<[i := pc']> pcs, state') ∧ is_done pc') as Hstart.
  { clear. intros pcs Hi. pose proof (window_one now_secs window_secs pcs i state Hi) as H.
    destruct (check_and_bump _ _ _) as [state' prior]. by exists (WDone prior), state'. }
  destruct pc as [|packed|prior]; [by apply Hstart| |exists (WDone prior), state; by rewrite list_insert_id].
  destruct (window_act now_secs window_secs (WLoaded packed) state) as [[pc' state']|] eqn:Ha.
  2:{ cbn [window_act] in Ha. by repeat case_match. }
  destruct (is_done pc') eqn:Hd.
  { exists pc', state'. split; [|by rewrite Hd]. apply rtc_once. by eapply window_step_at. }
  assert (pc' = WStart ∧ state' = state) as [-> ->].
  { cbn [window_act] in Ha. repeat case_match; apply (inj Some), (inj2 pair) in Ha as [<- <-]; done. }
  destruct (Hstart (<[i := WStart]> pcs)) as (pc' & state' & Hr & Hd').
  { apply list_lookup_insert_eq. by eapply lookup_lt_Some. }
  rewrite list_insert_insert_eq in Hr. exists pc', state'. split; [|done].
  eapply rtc_l; [|done]. by eapply window_step_at.
Qed.

(** Concurrent calls that find an expired window share one reset.  In any
    interleaving of any number of calls in the same second, the calls that
    have returned hold exactly the prior counts 0, 1, 2, ..., each once, so of
    any budget exactly that many calls are within it; nothing is lost or
    counted twice at the reset.  Every run can be completed, and a call left
    alone returns what the sequential reading of the loop computes. *)
Theorem window_counts_exact now_secs window_secs st0 n pcs state budget :
  in_u32 now_secs → (0 < window_secs)%Z → (window_secs ≤ elapsed now_secs st0)%Z →
  n ≤ Z.to_nat U32_MAX → (0 ≤ budget)%Z →
  rtc (window_step now_secs window_secs) (replicate n WStart, st0) (pcs, state) →
  ∃ k, priors pcs ≡ₚ map Z.of_nat (seq 0 k)
    ∧ (0 < k → state = pack (Z.of_nat k) now_secs)
    ∧ Z.of_nat (length (List.filter (fun c => (c <? budget)%Z) (priors pcs))) = Z.min (Z.of_nat k) budget
    ∧ (∃ pcs' state', rtc (window_step now_secs window_secs) (pcs, state) (pcs', state')
        ∧ length (priors pcs') = n)
    ∧ rtc (window_step now_secs window_secs) ([WStart], state)
        (let '(state', prior) := check_and_bump state now_secs window_secs in ([WDone prior], state')).
Proof.
  intros Hnow Hw Hex Hn Hb Hr.
  assert (window_inv now_secs st0 (pcs, state) ∧ length pcs = n) as [Hinv Hlen].
  { apply (rtc_preserves (window_step now_secs window_secs)
      (fun c => window_inv now_secs st0 c ∧ length c.1 = n) (replicate n WStart, st0)); [| |done].
    - intros c c' [Hi Hl] Hs. split; [|by rewrite (window_step_length _ _ _ _ Hs)].
      destruct Hs as [i pc pc' pcs0 s s' Hlk Ha]. simpl in Hl.
      by apply (inv_not_done now_secs window_secs st0 Hnow Hw Hex pcs0 s Hi ltac:(lia) i pc).
    - split; [|apply length_replicate]. apply window_old, Forall_replicate. by left. }
  destruct (window_can_finish now_secs window_secs pcs state) as (pcs' & state' & Hfin & Hl' & Hd).
  apply priors_all in Hd. rewrite Hl', Hlen in Hd.
  pose proof (window_one now_secs window_secs [WStart] 0 state eq_refl) as Hone.
  inversion Hinv as [pcs0 Hf|pcs0 k Hk Hp Hf]; subst pcs0 state.
  - exists 0. assert (priors pcs = []) as ->.
    { clear -Hf. induction Hf as [|pc pcs [->| ->] _ IH]; [done|exact IH|exact IH]. }
    split_and!; [done|lia|simpl; lia|by exists pcs', state'|exact Hone].
  - exists k. split_and!; [done|done| |by exists pcs', state'|exact Hone]. rewrite (filter_Permutation_length _ _ _ Hp). by apply counts_below.
Qed.

(** ** A concrete interleaving *)

(** The run in which the threads move in the given order. *)
Fixpoint window_run (now_secs window_secs : Z) (schedule : list nat) (c : list window_pc * Z)
  : option (list window_pc * Z) :=
  match schedule with
  | [] => Some c
  | i :: rest =>
    match c.1 !! i with
    | None => None
    | Some pc =>
      match window_act now_secs window_secs pc c.2 with
      | None => None
      | Some (pc', state') => window_run now_secs window_secs rest (<[i := pc']> c.1, state')
      end
    end
  end.

Lemma window_run_rtc now_secs window_secs schedule c c' :
  window_run now_secs window_secs schedule c = Some c' → rtc (window_step now_secs window_secs) c c'.
Proof.
  revert c; induction schedule as [|i rest IH]; intros [pcs state] Hr; simpl in Hr.
  { injection Hr as <-. constructor. }
  destruct (pcs !! i) as [pc|] eqn:Hi; [|done].
  destruct (window_act _ _ pc state) as [[pc' state']|] eqn:Ha; [|done].
  eapply rtc_l; [by eapply window_step_at|by apply IH].
Qed.

(** Both threads load the expired word, one resets it, the other retries. *)
Lemma window_counts_exact_witness :
  ∃ pcs, rtc (window_step 100 15) (replicate 2 WStart, pack 7 20) (pcs, pack 2 100)
    ∧ pcs = [WDone 0; WDone 1] ∧ ∃ k, priors pcs ≡ₚ map Z.of_nat (seq 0 k).
Proof.
  assert (rtc (window_step 100 15) (replicate 2 WStart, pack 7 20) ([WDone 0; WDone 1], pack 2 100)) as Hr.
  { apply (window_run_rtc 100 15 [0; 1; 0; 1; 1; 1]). vm_compute. reflexivity. }
  exists [WDone 0; WDone 1]. split_and!; [exact Hr|reflexivity|].
  destruct (window_counts_exact 100 15 (pack 7 20) 2 [WDone 0; WDone 1] (pack 2 100) 1) as (k & Hk & _);
    [vm_compute; split; discriminate|lia|vm_compute; discriminate|unfold U32_MAX; lia|lia|exact Hr|].
  by exists k.
Defined.
