(* ===== verification/Limiter.v ===== *)
(** * Rate limiting: [src/security/bounded_map.rs], [rrl.rs], [rate_limiter.rs]

    A map with a soft cap and sampled eviction, the response rate limiter on
    top of packed windows, and the per-client token bucket. *)

From S2P Require Import Prelude Windows.

(** ** The bounded map *)

Section BoundedMap.
Context {K V : Type} `{Countable K}.
(** The order in which the concurrent map iterates. *)
Variable iter : gmap K V → list (K * V).
Variable ordering : V → Z.

Definition SAMPLE : nat := 8.

(** The scan for the oldest sampled entry. *)
Definition older (oldest : option (K * Z)) (entry : K * V) : option (K * Z) :=
  let age := ordering entry.2 in
  match oldest with
  | None => Some (entry.1, age)
  | Some (_, cur_age) => if (age <? cur_age)%Z then Some (entry.1, age) else oldest
  end.

Definition evict_approximate_oldest (m : gmap K V) : gmap K V :=
  match fold_left older (take SAMPLE (iter m)) None with
  | Some (k, _) => delete k m
  | None => m
  end.

Definition bounded_insert (cap : nat) (m : gmap K V) (key : K) (value : V) : gmap K V :=
  <[key := value]> (if cap <=? size m then evict_approximate_oldest m else m).

Definition entry_or_insert_with (cap : nat) (m : gmap K V) (key : K) (f : V) : V * gmap K V :=
  let m := if bool_decide (m !! key = None) && (cap <=? size m) then evict_approximate_oldest m else m in
  match m !! key with
  | Some v => (v, m)
  | None => (f, <[key := f]> m)
  end.

(** What one eviction removes: the entry of an oldest sampled value. *)
Definition sampled_oldest (m : gmap K V) (k : K) : Prop :=
  ∃ v, (k, v) ∈ take SAMPLE (iter m) ∧ ∀ k' v', (k', v') ∈ take SAMPLE (iter m) → (ordering v ≤ ordering v')%Z.

Lemma older_fold entries acc :
  match fold_left older entries acc with
  | None => acc = None ∧ entries = []
  | Some (k, age) =>
    (acc = Some (k, age) ∨ ∃ v, (k, v) ∈ entries ∧ age = ordering v)
    ∧ (∀ k' a', acc = Some (k', a') → (age ≤ a')%Z)
    ∧ ∀ k' v', (k', v') ∈ entries → (age ≤ ordering v')%Z
  end.
Proof.
  revert acc; induction entries as [|[k0 v0] entries IH]; intros acc; cbn [fold_left].
  { destruct acc as [[k age]|]; [|done]. split_and!; [by left|by intros k' a' [= _ <-]|].
    intros k' v' Hin. by apply not_elem_of_nil in Hin. }
  specialize (IH (older acc (k0, v0))). destruct (fold_left older entries (older acc (k0, v0))) as [[k age]|].
  2:{ destruct IH as [IH _]. unfold older in IH. destruct acc as [[ka aa]|]; [|done]. by destruct (_ <? _)%Z. }
  destruct IH as (Hsrc & Hacc & Hall). unfold older in Hsrc, Hacc. cbn [fst snd] in *.
  destruct acc as [[ka aa]|].
  - destruct (Z.ltb_spec (ordering v0) aa) as [Hlt|Hge].
    + specialize (Hacc _ _ eq_refl). split_and!.
      * right. destruct Hsrc as [[= <- <-]|(v & Hv & ->)]; [exists v0; split; [left|done]|exists v; split; [by right|done]].
      * intros k' a' [= _ <-]. lia.
      * intros k' v' [[= -> ->]|Hin]%elem_of_cons; [lia|by apply (Hall k')].
    + specialize (Hacc _ _ eq_refl). split_and!.
      * destruct Hsrc as [?|(v & Hv & ->)]; [by left|right; exists v; split; [by right|done]].
      * intros k' a' [= _ <-]. lia.
      * intros k' v' [[= -> ->]|Hin]%elem_of_cons; [lia|by apply (Hall k')].
  - specialize (Hacc _ _ eq_refl). split_and!; [|done|].
    + right. destruct Hsrc as [[= <- <-]|(v & Hv & ->)]; [exists v0; split; [left|done]|exists v; split; [by right|done]].
    + intros k' v' [[= -> ->]|Hin]%elem_of_cons; [lia|by apply (Hall k')].
Qed.

Hypothesis iter_permutation : ∀ m, iter m ≡ₚ map_to_list m.

Lemma evict_spec m :
  m ≠ ∅ → ∃ k, sampled_oldest m k ∧ is_Some (m !! k) ∧ evict_approximate_oldest m = delete k m.
Proof.
  intros Hne. unfold evict_approximate_oldest.
  pose proof (older_fold (take SAMPLE (iter m)) None) as Ho.
  destruct (fold_left older (take SAMPLE (iter m)) None) as [[k age]|].
  - destruct Ho as ([?|(v & Hv & ->)] & _ & Hall); [done|]. exists k. split_and!; [by exists v| |done].
    exists v. apply elem_of_map_to_list. rewrite <-iter_permutation, <-(take_drop SAMPLE (iter m)).
    apply elem_of_app. by left.
  - destruct Ho as [_ Ho]. exfalso. apply Hne. apply map_to_list_empty_iff.
    assert (iter m = []) as E by (by destruct (iter m)). apply Permutation_nil. by rewrite <-E, iter_permutation.
Qed.

Lemma evict_size (m : gmap K V) : m ≠ ∅ → S (size (evict_approximate_oldest m)) = size m.
Proof.
  intros Hne. destruct (evict_spec m Hne) as (k & _ & [v Hk] & ->).
  rewrite map_size_delete_Some by (by exists v). assert (size m ≠ 0) by (by apply map_size_non_empty_iff). lia.
Qed.

Lemma evict_room (m : gmap K V) cap : 0 < cap → size m ≤ cap → cap ≤ size m → m ≠ ∅.
Proof. intros Hc H1 H2 ->. rewrite map_size_empty in *. lia. Qed.

(** Used one call at a time, the map never exceeds its cap.  An existing
    key is returned without evicting anything; a fresh key is inserted, and
    only at the cap does it cost one entry, the oldest of the sampled ones,
    every other entry being kept. *)
Theorem bounded_map_cap cap (m : gmap K V) key f :
  0 < cap → size m ≤ cap →
  (∀ v, m !! key = Some v → entry_or_insert_with cap m key f = (v, m))
  ∧ (m !! key = None →
     ∃ m', entry_or_insert_with cap m key f = (f, m') ∧ size m' ≤ cap
       ∧ (m' = <[key := f]> m
          ∨ (size m = cap ∧ ∃ k, sampled_oldest m k ∧ m' = <[key := f]> (delete k m))))
  ∧ size (bounded_insert cap m key f) ≤ cap.
Proof.
  intros Hc Hs. unfold entry_or_insert_with, bounded_insert. cbv zeta. split_and!.
  - intros v Hv. rewrite bool_decide_eq_false_2 by (by rewrite Hv). cbn [andb]. by rewrite Hv.
  - intros Hn. rewrite bool_decide_eq_true_2 by done. cbn [andb].
    destruct (Nat.leb_spec cap (size m)) as [Hle|Hlt].
    + pose proof (evict_room m cap Hc Hs Hle) as Hne. pose proof (evict_size m Hne) as Hsz.
      destruct (evict_spec m Hne) as (k & Hk & Hin & E). rewrite E in *.
      assert (delete k m !! key = None) as Hd by (apply lookup_delete_None; by right).
      rewrite Hd. exists (<[key:=f]> (delete k m)). split_and!; [done| |].
      * rewrite map_size_insert_None by done. lia.
      * right. split; [lia|]. by exists k.
    + rewrite Hn. exists (<[key:=f]> m). split_and!; [done| |by left].
      rewrite map_size_insert_None by done. lia.
  - destruct (Nat.leb_spec cap (size m)) as [Hle|Hlt].
    + pose proof (evict_size m (evict_room m cap Hc Hs Hle)) as Hsz. rewrite map_size_insert.
      destruct (_ !! key); cbn; lia.
    + rewrite map_size_insert. destruct (m !! key); cbn; lia.
Qed.
End BoundedMap.

Lemma bounded_map_cap_witness :
  let m : gmap Z Z := {[1%Z := 10%Z; 2%Z := 5%Z]} in
  ∃ m', entry_or_insert_with map_to_list id 2 m 3%Z 7%Z = (7%Z, m') ∧ size m' ≤ 2.
Proof.
  cbv zeta. destruct (bounded_map_cap map_to_list id (fun m => reflexivity _) 2 {[1%Z := 10%Z; 2%Z := 5%Z]} 3%Z 7%Z)
    as (_ & Hf & _); [lia|by apply (bool_decide_eq_true_1 _)|].
  destruct Hf as (m' & E & Hs & _); [reflexivity|]. by exists m'.
Defined.

(** ** Response rate limiting *)

Inductive IpAddr :=
| V4 (a b c d : Z)
| V6 (octets : list Z).

Definition octet (o : Z) : Prop := (0 ≤ o < 256)%Z.

Definition ip_wf (ip : IpAddr) : Prop :=
  match ip with
  | V4 a b c d => octet a ∧ octet b ∧ octet c ∧ octet d
  | V6 os => length os = 16 ∧ Forall octet os
  end.

Definition FNV_OFFSET : Z := 14695981039346656037.
Definition FNV_PRIME : Z := 1099511628211.

Definition fnv1a (os : list Z) : Z :=
  fold_left (fun h b => as_u64 (Z.lxor h b * FNV_PRIME)) os FNV_OFFSET.

Definition client_key (ip : IpAddr) : Z :=
  match ip with
  | V4 a b c d =>
    Z.lor (Z.lor (Z.lor (Z.lor (Z.shiftl 1 62) (Z.shiftl a 24)) (Z.shiftl b 16)) (Z.shiftl c 8)) d
  | V6 os => Z.lor (Z.lor (Z.shiftr (fnv1a os) 2) (Z.shiftl 1 63)) (Z.shiftl 1 62)
  end.

Definition prefix_key (ip : IpAddr) : Z :=
  match ip with
  | V4 a b c _ => Z.lor (Z.lor (Z.shiftl a 16) (Z.shiftl b 8)) c
  | V6 os =>
    let o i := nth i os 0%Z in
    Z.lor (Z.lor (Z.lor (Z.lor (Z.lor (Z.lor (Z.shiftl 1 63) (Z.shiftl (o 0) 40)) (Z.shiftl (o 1) 32))
      (Z.shiftl (o 2) 24)) (Z.shiftl (o 3) 16)) (Z.shiftl (o 4) 8)) (o 5)
  end.

Inductive RrlAction := RrlAllow | RrlDrop | RrlSlip.

Record PrefixState := { ps_counter : Z; ps_slip : Z }.

Definition prefix_state_new (now_secs : Z) : PrefixState :=
  {| ps_counter := counter_new now_secs; ps_slip := 0 |}.

Definition prefix_age (s : PrefixState) : Z := window_start_secs (ps_counter s).

Record RrlParams := { responses_per_second : Z; rrl_window_secs : Z; slip_rate : Z }.

Definition rrl_params (rps window slip : Z) : RrlParams :=
  {| responses_per_second := rps; rrl_window_secs := Z.max window 1; slip_rate := slip |}.

Definition MAX_TRACKED_PREFIXES : nat := Z.to_nat 100000.

(** [slip_or_drop], with the slip counter before and after. *)
Definition slip_or_drop (slip rate : Z) : RrlAction * Z :=
  if (rate =? 0)%Z then (RrlDrop, slip)
  else if (rate =? 1)%Z then (RrlSlip, slip)
  else (if (slip mod rate =? 0)%Z then RrlSlip else RrlDrop, as_u32 (slip + 1)).

Definition rrl_max_count (p : RrlParams) : Z :=
  saturating_mul U32_MAX (responses_per_second p) (Z.min (rrl_window_secs p) U32_MAX).

(** The part of [Rrl::check] under the shard guard. *)
Definition rrl_bump (p : RrlParams) (now_secs : Z) (s : PrefixState) : RrlAction * PrefixState :=
  let '(counter, count) := check_and_bump (ps_counter s) now_secs (rrl_window_secs p) in
  if (count <? rrl_max_count p)%Z then (RrlAllow, {| ps_counter := counter; ps_slip := ps_slip s |})
  else let '(action, slip) := slip_or_drop (ps_slip s) (slip_rate p) in
       (action, {| ps_counter := counter; ps_slip := slip |}).

Definition rrl_key (per_client : bool) (dest_ip : IpAddr) : Z :=
  if per_client then client_key dest_ip else prefix_key dest_ip.

(** [Rrl::check] at a time, for a destination. *)
Definition rrl_check (iter : gmap Z PrefixState → list (Z * PrefixState)) (p : RrlParams)
    (m : gmap Z PrefixState) (dest_ip : IpAddr) (per_client : bool) (now_secs : Z)
  : RrlAction * gmap Z PrefixState :=
  let key := rrl_key per_client dest_ip in
  let '(s, m) := entry_or_insert_with iter prefix_age MAX_TRACKED_PREFIXES m key (prefix_state_new now_secs) in
  let '(action, s) := rrl_bump p now_secs s in
  (action, <[key := s]> m).

Definition rrl_cleanup (p : RrlParams) (m : gmap Z PrefixState) (now_secs : Z) : gmap Z PrefixState :=
  filter (fun e => (saturating_sub now_secs (prefix_age e.2) < as_u64 (rrl_window_secs p * 2))%Z) m.

(** *** Keys *)

(** Two destinations share a budget. *)
Definition same_budget (per_client : bool) (ip ip' : IpAddr) : Prop :=
  match ip, ip' with
  | V4 a b c d, V4 a' b' c' d' => a = a' ∧ b = b' ∧ c = c' ∧ (per_client = true → d = d')
  | V6 os, V6 os' =>
    if per_client then Z.shiftr (fnv1a os) 2 = Z.shiftr (fnv1a os') 2 else take 6 os = take 6 os'
  | _, _ => False
  end.

Lemma lor_disjoint n x y : (0 ≤ n → x mod 2 ^ n = 0 → 0 ≤ y < 2 ^ n → Z.lor x y = x + y)%Z.
Proof.
  intros Hn Hx Hy. rewrite <-Z.add_lor_land.
  assert (Z.land x y = 0)%Z as ->; [|lia].
  apply Z.bits_inj'. intros i Hi. rewrite Z.land_spec, Z.bits_0.
  destruct (Z.ltb_spec i n).
  - rewrite <-(Z.mod_pow2_bits_low x n i) by lia. by rewrite Hx, Z.bits_0.
  - rewrite <-(Z.mod_small y (2 ^ n)) by done. by rewrite Z.mod_pow2_bits_high, andb_false_r by lia.
Qed.

Local Ltac mod_lia := Z.to_euclidean_division_equations; lia.

Lemma fnv1a_range os : in_u64 (fnv1a os).
Proof.
  unfold fnv1a. assert (in_u64 FNV_OFFSET) as H by (unfold_max; unfold FNV_OFFSET; lia).
  revert H. generalize FNV_OFFSET. induction os as [|b os IH]; intros h Hh; cbn [fold_left]; [done|].
  apply IH. unfold as_u64. unfold_max. pose proof (Z.mod_pos_bound (Z.lxor h b * FNV_PRIME) (2 ^ 64) ltac:(lia)). lia.
Qed.

Lemma client_key_v4 a b c d :
  ip_wf (V4 a b c d) → client_key (V4 a b c d) = (2 ^ 62 + a * 2 ^ 24 + b * 2 ^ 16 + c * 2 ^ 8 + d)%Z.
Proof.
  unfold ip_wf, octet, client_key. intros (Ha & Hb & Hc & Hd). rewrite !Z.shiftl_mul_pow2 by lia.
  rewrite (lor_disjoint 62 _ (a * 2 ^ 24)), (lor_disjoint 24 _ (b * 2 ^ 16)), (lor_disjoint 16 _ (c * 2 ^ 8)),
    (lor_disjoint 8 _ d); mod_lia.
Qed.

Lemma prefix_key_v4 a b c d :
  ip_wf (V4 a b c d) → prefix_key (V4 a b c d) = (a * 2 ^ 16 + b * 2 ^ 8 + c)%Z.
Proof.
  unfold ip_wf, octet, prefix_key. intros (Ha & Hb & Hc & Hd). rewrite !Z.shiftl_mul_pow2 by lia.
  rewrite (lor_disjoint 16 _ (b * 2 ^ 8)), (lor_disjoint 8 _ c); mod_lia.
Qed.

Lemma client_key_v6 os : client_key (V6 os) = (3 * 2 ^ 62 + Z.shiftr (fnv1a os) 2)%Z.
Proof.
  unfold client_key. pose proof (fnv1a_range os) as H. unfold_max. rewrite Z.shiftr_div_pow2 by lia.
  rewrite <-Z.lor_assoc, Z.lor_comm. change (Z.lor (Z.shiftl 1 63) (Z.shiftl 1 62)) with (3 * 2 ^ 62)%Z.
  apply (lor_disjoint 62); mod_lia.
Qed.

Lemma prefix_key_v6 a b c d e f os :
  Forall octet (a :: b :: c :: d :: e :: f :: os) →
  prefix_key (V6 (a :: b :: c :: d :: e :: f :: os))
    = (2 ^ 63 + a * 2 ^ 40 + b * 2 ^ 32 + c * 2 ^ 24 + d * 2 ^ 16 + e * 2 ^ 8 + f)%Z.
Proof.
  rewrite !Forall_cons. unfold octet, prefix_key. intros (Ha & Hb & Hc & Hd & He & Hf & _). cbn [nth].
  rewrite !Z.shiftl_mul_pow2 by lia.
  rewrite (lor_disjoint 63 _ (a * 2 ^ 40)), (lor_disjoint 40 _ (b * 2 ^ 32)), (lor_disjoint 32 _ (c * 2 ^ 24)),
    (lor_disjoint 24 _ (d * 2 ^ 16)), (lor_disjoint 16 _ (e * 2 ^ 8)), (lor_disjoint 8 _ f); mod_lia.
Qed.

Lemma v6_cases os : ip_wf (V6 os) → ∃ a b c d e f os', os = a :: b :: c :: d :: e :: f :: os'.
Proof.
  intros [Hl _]. destruct os as [|a [|b [|c [|d [|e [|f os']]]]]]; try discriminate Hl.
  by exists a, b, c, d, e, f, os'.
Qed.

Lemma v6_hash_range os : (0 ≤ Z.shiftr (fnv1a os) 2 < 2 ^ 62)%Z.
Proof.
  pose proof (fnv1a_range os). unfold_max. rewrite Z.shiftr_div_pow2 by lia. mod_lia.
Qed.

(** The values the four kinds of key take. *)
Lemma rrl_key_range per_client ip :
  ip_wf ip →
  match ip, per_client with
  | V4 _ _ _ _, false => 0 ≤ rrl_key per_client ip < 2 ^ 62
  | V4 _ _ _ _, true => 2 ^ 62 ≤ rrl_key per_client ip < 2 ^ 63
  | V6 _, false => 2 ^ 63 ≤ rrl_key per_client ip < 3 * 2 ^ 62
  | V6 _, true => 3 * 2 ^ 62 ≤ rrl_key per_client ip < 2 ^ 64
  end%Z.
Proof.
  intros Hw. destruct ip as [a b c d|os], per_client; unfold rrl_key.
  - rewrite client_key_v4 by done. unfold ip_wf, octet in Hw. lia.
  - rewrite prefix_key_v4 by done. unfold ip_wf, octet in Hw. lia.
  - rewrite client_key_v6. pose proof (v6_hash_range os). lia.
  - destruct (v6_cases os Hw) as (a & b & c & d & e & f & os' & ->). destruct Hw as [_ Ho].
    rewrite prefix_key_v6 by done. rewrite !Forall_cons in Ho. unfold octet in Ho. lia.
Qed.

Lemma rrl_key_same per_client ip ip' :
  ip_wf ip → ip_wf ip' →
  same_budget per_client ip ip' → rrl_key per_client ip = rrl_key per_client ip'.
Proof.
  intros Hw Hw' Hs. destruct ip as [a b c d|os], ip' as [a' b' c' d'|os']; try done; cbn in Hs.
  - destruct Hs as (-> & -> & -> & Hd). destruct per_client; [by rewrite Hd|done].
  - unfold rrl_key. destruct per_client; [by rewrite !client_key_v6, Hs|].
    destruct (v6_cases os Hw) as (? & ? & ? & ? & ? & ? & ? & ->).
    destruct (v6_cases os' Hw') as (? & ? & ? & ? & ? & ? & ? & ->).
    cbn [take] in Hs. simplify_eq. done.
Qed.

Lemma rrl_key_inj per_client ip ip' :
  ip_wf ip → ip_wf ip' →
  rrl_key per_client ip = rrl_key per_client ip' → same_budget per_client ip ip'.
Proof.
  intros Hw Hw' Hk. pose proof (rrl_key_range per_client ip Hw). pose proof (rrl_key_range per_client ip' Hw').
  destruct ip as [a b c d|os], ip' as [a' b' c' d'|os'], per_client; try (exfalso; lia); unfold rrl_key in Hk.
  - rewrite !client_key_v4 in Hk by done. unfold ip_wf, octet in Hw, Hw'. cbn. lia.
  - rewrite !prefix_key_v4 in Hk by done. unfold ip_wf, octet in Hw, Hw'. cbn. lia.
  - rewrite !client_key_v6 in Hk. cbn. lia.
  - destruct (v6_cases os Hw) as (a & b & c & d & e & f & r & ->).
    destruct (v6_cases os' Hw') as (a' & b' & c' & d' & e' & f' & r' & ->).
    destruct Hw as [_ Ho], Hw' as [_ Ho']. rewrite !prefix_key_v6 in Hk by done.
    rewrite !Forall_cons in Ho, Ho'. unfold octet in Ho, Ho'. cbn [same_budget take].
    assert (a = a' ∧ b = b' ∧ c = c' ∧ d = d' ∧ e = e' ∧ f = f') as (-> & -> & -> & -> & -> & ->) by lia. done.
Qed.

(** The four kinds of key share one map and never collide.  Two
    destinations meet in one entry exactly when they were keyed the same way
    and are the same IPv4 address, the same /24, the same /48, or IPv6 addresses
    with the same 62-bit fold. *)
Theorem rrl_keys_separate per_client per_client' ip ip' :
  ip_wf ip → ip_wf ip' →
  in_u64 (rrl_key per_client ip)
  ∧ (rrl_key per_client ip = rrl_key per_client' ip'
     ↔ per_client = per_client' ∧ same_budget per_client ip ip').
Proof.
  intros Hw Hw'. pose proof (rrl_key_range per_client ip Hw) as H.
  pose proof (rrl_key_range per_client' ip' Hw') as H'. split.
  { unfold_max. destruct ip, per_client; lia. }
  split.
  - intros Hk. assert (per_client = per_client') as <-; [|split; [done|by apply rrl_key_inj]].
    destruct ip, ip', per_client, per_client'; done || (exfalso; lia).
  - intros [<- Hs]. by apply rrl_key_same.
Qed.

Lemma rrl_keys_separate_witness :
  rrl_key true (V4 192 168 1 9) = 4611686021659623689%Z
  ∧ (rrl_key true (V4 192 168 1 9) = rrl_key false (V4 192 168 1 9)
     ↔ true = false ∧ same_budget true (V4 192 168 1 9) (V4 192 168 1 9)).
Proof.
  split; [reflexivity|]. apply (rrl_keys_separate true false (V4 192 168 1 9) (V4 192 168 1 9));
    unfold ip_wf, octet; lia.
Defined.

(** *** Budgets *)

Definition params_wf (p : RrlParams) : Prop :=
  in_u32 (responses_per_second p) ∧ (1 ≤ rrl_window_secs p)%Z ∧ in_u32 (slip_rate p).

(** A run of the limiter: each response with its key and its fate. *)
Fixpoint rrl_run iter (p : RrlParams) (m : gmap Z PrefixState) (responses : list (IpAddr * bool * Z))
  : list (Z * RrlAction) :=
  match responses with
  | [] => []
  | (ip, per_client, now_secs) :: rest =>
    let '(action, m') := rrl_check iter p m ip per_client now_secs in
    (rrl_key per_client ip, action) :: rrl_run iter p m' rest
  end.

Definition times_at (key : Z) (responses : list (IpAddr * bool * Z)) : list Z :=
  omap (fun '(ip, per_client, now_secs) =>
    if (rrl_key per_client ip =? key)%Z then Some now_secs else None) responses.

Definition actions_at (key : Z) (log : list (Z * RrlAction)) : list RrlAction :=
  omap (fun '(key', action) => if (key' =? key)%Z then Some action else None) log.

(** One entry on its own. *)
Fixpoint entry_run (p : RrlParams) (entry : option PrefixState) (times : list Z) : list RrlAction :=
  match times with
  | [] => []
  | now_secs :: rest =>
    let '(action, s) := rrl_bump p now_secs (default (prefix_state_new now_secs) entry) in
    action :: entry_run p (Some s) rest
  end.

(** The fate of the response after [i] others of its window: the budget first,
    then one response in [slip_rate] truncated. *)
Definition scheduled (p : RrlParams) (slip0 i : Z) : RrlAction :=
  if (i <? rrl_max_count p)%Z then RrlAllow
  else if (slip_rate p =? 0)%Z then RrlDrop
  else if (slip_rate p =? 1)%Z then RrlSlip
  else if (as_u32 (slip0 + (i - rrl_max_count p)) mod slip_rate p =? 0)%Z then RrlSlip
  else RrlDrop.

(** A response at this time starts a window of its entry. *)
Definition opens_window (p : RrlParams) (entry : option PrefixState) (now_secs : Z) : Prop :=
  match entry with
  | None => True
  | Some s => (rrl_window_secs p ≤ elapsed now_secs (ps_counter s))%Z
  end.

Definition slip_at (p : RrlParams) (slip0 count : Z) : Z :=
  if (slip_rate p <=? 1)%Z then slip0 else as_u32 (slip0 + Z.max 0 (count - rrl_max_count p)).

Lemma max_count_nonneg p : params_wf p → (0 ≤ rrl_max_count p)%Z.
Proof.
  intros (Hr & Hw & _). unfold rrl_max_count, saturating_mul. unfold_max.
  apply Z.min_glb; [lia|]. apply Z.mul_nonneg_nonneg; lia.
Qed.

(** What one response does to the slip counter, and its fate. *)
Lemma fate_scheduled p slip0 count :
  params_wf p → (0 ≤ count)%Z →
  (if (count <? rrl_max_count p)%Z then (RrlAllow, slip_at p slip0 count)
   else slip_or_drop (slip_at p slip0 count) (slip_rate p))
  = (scheduled p slip0 count, slip_at p slip0 (count + 1)).
Proof.
  intros Hp Hc. pose proof (max_count_nonneg p Hp). destruct Hp as (_ & _ & Hs). unfold_max.
  unfold scheduled, slip_or_drop, slip_at.
  destruct (Z.leb_spec (slip_rate p) 1) as [H1|H1], (Z.ltb_spec count (rrl_max_count p)) as [H2|H2].
  - done.
  - destruct (Z.eqb_spec (slip_rate p) 0), (Z.eqb_spec (slip_rate p) 1); done || lia.
  - by rewrite !Z.max_l by lia.
  - rewrite !Z.max_r by lia. destruct (Z.eqb_spec (slip_rate p) 0), (Z.eqb_spec (slip_rate p) 1); try lia.
    f_equal. unfold as_u32. rewrite Zplus_mod_idemp_l. f_equal. lia.
Qed.

Lemma rrl_bump_in_window p now_secs count ws slip0 :
  params_wf p → in_u32 count → in_u32 ws → (now_secs - ws < rrl_window_secs p)%Z →
  rrl_bump p now_secs {| ps_counter := pack count ws; ps_slip := slip_at p slip0 count |}
  = (scheduled p slip0 count,
     {| ps_counter := pack (as_u32 (count + 1)) ws; ps_slip := slip_at p slip0 (count + 1) |}).
Proof.
  intros Hp Hc Hw Ht. unfold rrl_bump, check_and_bump, elapsed, saturating_sub. cbn [ps_counter ps_slip].
  rewrite unpack_pack by done. cbn [fst snd]. destruct (Z.leb_spec (rrl_window_secs p) (Z.max 0 (now_secs - ws))).
  { destruct Hp as (_ & ? & _). lia. }
  pose proof (fate_scheduled p slip0 count Hp ltac:(unfold_max; lia)) as Hf.
  rewrite unpack_bump by done. destruct (count <? rrl_max_count p)%Z.
  - by injection Hf as <- <-.
  - by destruct (slip_or_drop _ _) as [action slip]; injection Hf as <- <-.
Qed.

Lemma entry_run_window p ws slip0 times count :
  params_wf p → in_u32 ws → (0 ≤ count)%Z → (count + Z.of_nat (length times) ≤ 2 ^ 32)%Z →
  Forall (fun t => t - ws < rrl_window_secs p)%Z times →
  entry_run p (Some {| ps_counter := pack (as_u32 count) ws; ps_slip := slip_at p slip0 count |}) times
  = imap (fun i _ => scheduled p slip0 (count + Z.of_nat i)) times.
Proof.
  intros Hp Hw. revert count. induction times as [|t times IH]; intros count Hc Hl Ht; [done|].
  cbn [length] in Hl. rewrite Forall_cons in Ht. destruct Ht as [Ht Hts]. cbn [entry_run default from_option id].
  assert (as_u32 count = count) as E by (apply Z.mod_small; lia).
  rewrite E, rrl_bump_in_window by (done || unfold_max; lia).
  cbn [imap]. f_equal; [f_equal; lia|]. rewrite (IH (count + 1)%Z) by (done || lia).
  apply imap_ext. intros i x _. cbn. f_equal. lia.
Qed.

Lemma entry_run_opens p entry t0 times :
  params_wf p → in_u32 t0 → in_u32 (from_option ps_slip 0%Z entry) → opens_window p entry t0 →
  (Z.of_nat (length times) < 2 ^ 32)%Z → Forall (fun t => t - t0 < rrl_window_secs p)%Z times →
  entry_run p entry (t0 :: times)
  = imap (fun i _ => scheduled p (from_option ps_slip 0%Z entry) (Z.of_nat i)) (t0 :: times).
Proof.
  intros Hp H0 Hs Ho Hl Ht. set (slip0 := from_option ps_slip 0%Z entry) in *. cbn [entry_run].
  assert (slip_at p slip0 0 = slip0) as Es.
  { unfold slip_at. destruct (_ <=? _)%Z; [done|]. rewrite Z.max_l by (pose proof (max_count_nonneg p Hp); lia).
    unfold_max. unfold as_u32. rewrite Z.mod_small; lia. }
  assert (rrl_bump p t0 (default (prefix_state_new t0) entry)
    = (scheduled p slip0 0, {| ps_counter := pack 1 t0; ps_slip := slip_at p slip0 1 |})) as ->.
  { assert (as_u32 t0 = t0) as E0 by (apply Z.mod_small; unfold_max; lia).
    destruct entry as [s|]; cbn [default from_option id] in *.
    - pose proof (fate_scheduled p slip0 0 Hp ltac:(lia)) as Hf. rewrite Es, Z.add_0_l in Hf.
      unfold rrl_bump, check_and_bump. unfold opens_window in Ho.
      rewrite (proj2 (Z.leb_le _ _)) by done. rewrite E0. change (ps_slip s) with slip0.
      destruct (0 <? rrl_max_count p)%Z; [by injection Hf as <- <-|].
      by destruct (slip_or_drop _ _) as [action slip]; injection Hf as <- <-.
    - unfold prefix_state_new, counter_new. rewrite E0.
      pose proof (rrl_bump_in_window p t0 0 t0 slip0 Hp) as Hb. rewrite Es in Hb. unfold slip0 in Hb at 1.
      cbn [from_option] in Hb. rewrite Hb; [done| | |].
      all: destruct Hp as (_ & ? & _); unfold_max; lia. }
  cbn [imap]. f_equal. change (pack 1 t0) with (pack (as_u32 1) t0).
  rewrite entry_run_window by (done || lia). apply imap_ext. intros i x _. cbn. f_equal. lia.
Qed.

(** Below the cap, a check touches its own entry only. *)
Lemma rrl_check_key iter p m ip per_client now_secs :
  size m < MAX_TRACKED_PREFIXES →
  rrl_check iter p m ip per_client now_secs
  = (let '(action, s) := rrl_bump p now_secs (default (prefix_state_new now_secs) (m !! rrl_key per_client ip)) in
     (action, <[rrl_key per_client ip := s]> m)).
Proof.
  intros Hs. unfold rrl_check, entry_or_insert_with. cbv zeta.
  rewrite (proj2 (Nat.leb_gt _ _)) by done. rewrite andb_false_r.
  destruct (m !! rrl_key per_client ip) as [s|]; cbn [default from_option id].
  - done.
  - destruct (rrl_bump _ _ _) as [action s]. by rewrite insert_insert_eq.
Qed.

Lemma rrl_run_entry iter p key responses m :
  size m + length responses ≤ MAX_TRACKED_PREFIXES →
  actions_at key (rrl_run iter p m responses) = entry_run p (m !! key) (times_at key responses).
Proof.
  revert m. induction responses as [|[[ip per_client] t] responses IH]; intros m Hs; [done|].
  cbn [length] in Hs. cbn [rrl_run]. rewrite rrl_check_key by lia.
  destruct (rrl_bump p t _) as [action s] eqn:Eb. unfold actions_at, times_at. cbn [omap list_omap].
  assert (size (<[rrl_key per_client ip:=s]> m) + length responses ≤ MAX_TRACKED_PREFIXES) as Hs'.
  { rewrite map_size_insert. destruct (m !! rrl_key per_client ip); unfold id; lia. }
  specialize (IH _ Hs'). unfold actions_at, times_at in IH.
  destruct (Z.eqb_spec (rrl_key per_client ip) key) as [<-|Hne].
  - cbn [entry_run]. rewrite Eb, IH. by rewrite lookup_insert_eq.
  - rewrite IH. by rewrite lookup_insert_ne.
Qed.

Lemma rrl_cleanup_closed p m key now s t :
  params_wf p → (rrl_window_secs p * 2 ≤ U64_MAX)%Z → (now ≤ t)%Z →
  m !! key = Some s → rrl_cleanup p m now !! key = None → opens_window p (Some s) t.
Proof.
  intros (_ & Hp & _) Hm Ht Hs Hc. unfold rrl_cleanup in Hc.
  apply map_lookup_filter_None in Hc as [Hc|Hc]; [congruence|]. specialize (Hc s Hs). cbn [snd] in Hc.
  unfold as_u64 in Hc. unfold_max. rewrite Z.mod_small in Hc by lia.
  unfold opens_window, elapsed. unfold prefix_age, window_start_secs, saturating_sub in *. lia.
Qed.

Lemma times_at_length key responses : length (times_at key responses) ≤ length responses.
Proof.
  unfold times_at. induction responses as [|[[ip per_client] t] responses IH]; [done|].
  cbn. destruct (_ =? _)%Z; cbn; unfold omap, list_omap in *; lia.
Qed.

(** Below the cap on tracked prefixes, each entry has its own budget.
    Whatever the traffic to other destinations, and in whatever order, the
    responses of one entry within a window are allowed up to
    [responses_per_second * window_secs] (saturating) and throttled after it:
    dropped with a slip rate of 0, truncated with 1, and otherwise truncated
    once in [slip_rate], continuing the entry's own cadence.  The periodic
    clean-up forgets only entries whose next response opens a window anyway. *)
Theorem rrl_budgets_exact iter p m key responses t0 times :
  params_wf p → size m + length responses ≤ MAX_TRACKED_PREFIXES →
  times_at key responses = t0 :: times →
  in_u32 t0 → in_u32 (from_option ps_slip 0%Z (m !! key)) → opens_window p (m !! key) t0 →
  Forall (fun t => t - t0 < rrl_window_secs p)%Z times →
  actions_at key (rrl_run iter p m responses)
  = imap (fun i _ => scheduled p (from_option ps_slip 0%Z (m !! key)) (Z.of_nat i)) (t0 :: times)
  ∧ (∀ now s t, (rrl_window_secs p * 2 ≤ U64_MAX)%Z → (now ≤ t)%Z →
       m !! key = Some s → rrl_cleanup p m now !! key = None → opens_window p (Some s) t).
Proof.
  intros Hp Hs Ht H0 Hsl Ho Hw. split; [|by intros; eapply rrl_cleanup_closed]. rewrite rrl_run_entry, Ht by done. apply entry_run_opens; try done.
  assert (length (times_at key responses) ≤ length responses) as Hl by apply times_at_length.
  rewrite Ht in Hl. cbn [length] in Hl.
  assert (Z.of_nat MAX_TRACKED_PREFIXES = 100000)%Z by (unfold MAX_TRACKED_PREFIXES; lia). lia.
Qed.

(** The limit of the defaults with a two-second window: the budget is 10. *)
Definition sample_rrl : RrlParams := rrl_params 5 2 2.

(** Thirteen responses to a /24, with one to a neighbour in between. *)
Definition sample_responses : list (IpAddr * bool * Z) :=
  replicate 7 (V4 203 0 113 5, false, 100%Z) ++ [(V4 198 51 100 7, false, 100%Z)]
    ++ replicate 6 (V4 203 0 113 80, false, 101%Z).

Lemma rrl_budgets_exact_witness :
  actions_at (prefix_key (V4 203 0 113 1)) (rrl_run map_to_list sample_rrl ∅ sample_responses)
  = imap (fun i _ => scheduled sample_rrl 0 (Z.of_nat i)) (100%Z :: replicate 6 100%Z ++ replicate 6 101%Z)
  ∧ map (fun i => scheduled sample_rrl 0 i) [0; 9; 10; 11; 12]%Z
    = [RrlAllow; RrlAllow; RrlSlip; RrlDrop; RrlSlip].
Proof.
  split; [|vm_compute; reflexivity].
  pose proof (rrl_budgets_exact map_to_list sample_rrl ∅ (prefix_key (V4 203 0 113 1)) sample_responses 100
    (replicate 6 100%Z ++ replicate 6 101%Z)) as H.
  rewrite lookup_empty in H. cbn [from_option] in H. apply H; clear H.
  - unfold params_wf. unfold_max. cbn. lia.
  - rewrite map_size_empty. change (length sample_responses) with 14. unfold MAX_TRACKED_PREFIXES. lia.
  - vm_compute. reflexivity.
  - unfold_max. lia.
  - unfold_max. lia.
  - exact I.
  - repeat constructor.
Defined.
