(* ===== verification/TokenBucket.v ===== *)
(** * The per-client token bucket: [src/security/rate_limiter.rs]

    Tokens and the time of the last refill share one atomic word, packed as the
    window counters pack theirs.  The compare-and-swap loop of [try_acquire] is
    a state machine per thread, with spurious failures of the weak exchange. *)

From S2P Require Import Prelude Windows Limiter.

(** ** Buckets *)

Definition bucket_new (burst now_secs : Z) : Z := pack burst now_secs.

Definition bucket_age (state : Z) : Z := (unpack state).2.

(** The tokens and the refill time a call computes from the word it loaded. *)
Definition refill (now_secs qps burst current : Z) : Z * Z :=
  let '(tokens, last_refill) := unpack current in
  let elapsed := saturating_sub now_secs last_refill in
  if (0 <? elapsed)%Z then
    (Z.min (saturating_add U32_MAX tokens (saturating_mul U32_MAX elapsed qps)) burst, now_secs)
  else (tokens, last_refill).

(** [Bucket::try_acquire] without interference. *)
Definition try_acquire (state now_secs qps burst : Z) : bool * Z :=
  let '(available, ts) := refill now_secs qps burst state in
  if (available =? 0)%Z then (false, state) else (true, pack (available - 1) ts).

Record Call := { call_now : Z; call_qps : Z; call_burst : Z }.

Definition call_refill (c : Call) (current : Z) : Z * Z :=
  refill (call_now c) (call_qps c) (call_burst c) current.

Inductive acquire_pc :=
| AStart
| ALoaded (current : Z)
| ADone (allowed : bool).

(** One atomic action of a call. *)
Inductive acquire_act (c : Call) : acquire_pc → Z → acquire_pc → Z → Prop :=
| act_load state : acquire_act c AStart state (ALoaded state) state
| act_reject current state :
    (call_refill c current).1 = 0%Z → acquire_act c (ALoaded current) state (ADone false) state
| act_exchange current available ts :
    call_refill c current = (available, ts) → available ≠ 0%Z →
    acquire_act c (ALoaded current) current (ADone true) (pack (available - 1) ts)
| act_retry current state :
    (call_refill c current).1 ≠ 0%Z → acquire_act c (ALoaded current) state AStart state.

Inductive acquire_step : list (Call * acquire_pc) * Z → list (Call * acquire_pc) * Z → Prop :=
| acquire_step_at i c pc pc' calls state state' :
    calls !! i = Some (c, pc) → acquire_act c pc state pc' state' →
    acquire_step (calls, state) (<[i := (c, pc')]> calls, state').

Definition allowed (call : Call * acquire_pc) : bool :=
  match call.2 with ADone b => b | _ => false end.

Definition finished (call : Call * acquire_pc) : bool :=
  match call.2 with ADone _ => true | _ => false end.

Definition admitted (calls : list (Call * acquire_pc)) : nat := length (List.filter allowed calls).

Definition start (calls : list Call) : list (Call * acquire_pc) := map (fun c => (c, AStart)) calls.

(** ** The limiter *)

#[export] Instance IpAddr_eq_dec : EqDecision IpAddr.
Proof. solve_decision. Defined.

#[export] Instance IpAddr_countable : Countable IpAddr.
Proof.
  apply (inj_countable'
    (fun ip => match ip with V4 a b c d => inl (a, b, c, d) | V6 os => inr os end)
    (fun x => match x with inl (a, b, c, d) => V4 a b c d | inr os => V6 os end)).
  by intros [].
Defined.

Record RateLimiterParams := { rl_qps : Z; rl_burst : Z }.

Definition MAX_TRACKED_CLIENTS : nat := Z.to_nat 100000.

Definition rate_check (iter : gmap IpAddr Z → list (IpAddr * Z)) (p : RateLimiterParams)
    (m : gmap IpAddr Z) (ip : IpAddr) (elapsed_secs : Z) : bool * gmap IpAddr Z :=
  let now_secs := as_u32 elapsed_secs in
  let '(state, m) :=
    entry_or_insert_with iter bucket_age MAX_TRACKED_CLIENTS m ip (bucket_new (rl_burst p) now_secs) in
  let '(ok, state) := try_acquire state now_secs (rl_qps p) (rl_burst p) in
  (ok, <[ip := state]> m).

Definition rate_cleanup (m : gmap IpAddr Z) (elapsed_secs : Z) : gmap IpAddr Z :=
  filter (fun e => (saturating_sub (as_u32 elapsed_secs) (unpack e.2).2 < 300)%Z) m.

(** ** Refills *)

Definition call_wf (c : Call) : Prop := in_u32 (call_now c) ∧ in_u32 (call_qps c) ∧ in_u32 (call_burst c).

Lemma refill_spec c tokens last :
  in_u32 tokens → in_u32 last →
  call_refill c (pack tokens last)
  = if (last <? call_now c)%Z then
      (Z.min (Z.min U32_MAX (tokens + Z.min U32_MAX ((call_now c - last) * call_qps c))) (call_burst c), call_now c)
    else (tokens, last).
Proof.
  intros Ht Hl. unfold call_refill, refill. rewrite unpack_pack by done. unfold saturating_sub.
  destruct (Z.ltb_spec last (call_now c)), (Z.ltb_spec 0 (Z.max 0 (call_now c - last))); try lia; [|done].
  unfold saturating_add, saturating_mul. by rewrite Z.max_r by lia.
Qed.

Lemma refill_range c tokens last available ts :
  call_wf c → in_u32 tokens → in_u32 last → call_refill c (pack tokens last) = (available, ts) →
  in_u32 available ∧ in_u32 ts.
Proof.
  intros (Hn & Hq & Hb) Ht Hl. rewrite refill_spec by done. unfold_max.
  destruct (Z.ltb_spec last (call_now c)); intros [= <- <-]; [|done]. nia.
Qed.

(** ** Any interleaving *)

Lemma admitted_insert calls i c pc pc' :
  calls !! i = Some (c, pc) → allowed (c, pc) = false →
  admitted (<[i := (c, pc')]> calls) = admitted calls + (if allowed (c, pc') then 1 else 0).
Proof.
  unfold admitted. intros Hi Ha. revert i Hi. induction calls as [|x calls IH]; intros [|i] Hi; [done..| |].
  - injection Hi as ->. cbn [insert list_insert List.filter]. rewrite Ha. destruct (allowed (c, pc')); cbn [length]; lia.
  - change (<[S i := (c, pc')]> (x :: calls)) with (x :: <[i := (c, pc')]> calls). cbn [List.filter].
    destruct (allowed x); cbn [length]; rewrite (IH i Hi); lia.
Qed.

(** The invariant of a step: the calls are the same, and only a successful
    exchange changes the word. *)
Lemma acquire_step_inv calls state cfg' :
  acquire_step (calls, state) cfg' →
  map fst cfg'.1 = map fst calls ∧
  ((cfg'.2 = state ∧ admitted cfg'.1 = admitted calls)
   ∨ ∃ c available ts, c ∈ map fst calls ∧ call_refill c state = (available, ts) ∧ available ≠ 0%Z
       ∧ cfg'.2 = pack (available - 1) ts ∧ admitted cfg'.1 = S (admitted calls)).
Proof.
  intros Hs. inversion Hs as [i c pc pc' calls0 state0 state' Hi Hact]; subst. cbn [fst snd]. split.
  { rewrite !list_fmap_insert. apply list_insert_id. by rewrite list_lookup_fmap, Hi. }
  inversion Hact as [|current ? Hz|current available ts Hr Hne|current ? Hz]; subst;
    rewrite (admitted_insert _ _ _ _ _ Hi) by done; cbn; [left; by rewrite Nat.add_0_r..| |left; by rewrite Nat.add_0_r].
  right. exists c, available, ts. split_and!; try done; [|lia].
  apply list_elem_of_fmap. exists (c, ALoaded state). split; [done|]. by eapply list_elem_of_lookup_2.
Qed.

Section Bound.
Context (Q B t1 t2 : Z).

(** A call made in the interval, with parameters no larger than the given ones. *)
Definition call_within (c : Call) : Prop :=
  call_wf c ∧ (t1 ≤ call_now c ≤ t2)%Z ∧ (call_qps c ≤ Q)%Z ∧ (call_burst c ≤ B)%Z.

Definition bucket_budget (cfg : list (Call * acquire_pc) * Z) : Prop :=
  ∃ tokens ts, cfg.2 = pack tokens ts ∧ in_u32 tokens ∧ in_u32 ts ∧ (tokens ≤ B)%Z
    ∧ Forall call_within (map fst cfg.1)
    ∧ (Z.of_nat (admitted cfg.1) + tokens ≤ B + Q * (Z.max t1 (Z.min ts t2) - t1))%Z
    ∧ ((ts < t1)%Z → admitted cfg.1 = 0).

Lemma refill_gain qps now ts :
  (0 ≤ qps ≤ Q)%Z → (ts < now)%Z → (0 ≤ (now - ts) * qps ≤ Q * (now - ts))%Z.
Proof. intros. nia. Qed.

Lemma bucket_budget_step cfg cfg' : bucket_budget cfg → acquire_step cfg cfg' → bucket_budget cfg'.
Proof.
  destruct cfg as [calls state]. intros (tokens & ts & E & Ht & Hts & Hb & Hall & Hbudget & Hearly) Hs.
  cbn [fst snd] in *. subst state. apply acquire_step_inv in Hs as [Hc [[E Ha]|(c & av & ts' & Hin & Hr & Hne & E & Ha)]].
  { exists tokens, ts. rewrite Ha, Hc, E. done. }
  pose proof (proj1 (Forall_forall _ _) Hall _ Hin) as (Hcw & Hct & Hcq & Hcb).
  destruct (refill_range _ _ _ _ _ Hcw Ht Hts Hr) as [Hav Hts']. rewrite refill_spec in Hr by done.
  exists (av - 1)%Z, ts'. rewrite Ha, Hc. destruct Hcw as (_ & Hq & _).
  destruct (Z.ltb_spec ts (call_now c)) as [Hlt|Hge]; apply (inj2 pair) in Hr as [Eav <-].
  - destruct (refill_gain (call_qps c) (call_now c) ts) as [Hg1 Hg2]; [unfold_max; lia..|].
    unfold_max. split_and!; try done; try lia.
    rewrite (Z.min_l (call_now c)), (Z.max_r t1) by lia. destruct (Z.ltb_spec ts t1) as [He|He].
    + rewrite (Hearly He). assert (0 ≤ Q * (call_now c - t1))%Z by (apply Z.mul_nonneg_nonneg; lia). lia.
    + rewrite (Z.min_l ts), (Z.max_r t1) in Hbudget by lia.
      assert (Q * (call_now c - t1) = Q * (ts - t1) + Q * (call_now c - ts))%Z by ring. lia.
  - subst av. unfold_max. split_and!; try done; lia.
Qed.

Lemma bucket_budget_start calls tokens ts :
  in_u32 tokens → in_u32 ts → (tokens ≤ B)%Z → (0 ≤ Q)%Z → (t1 ≤ t2)%Z → Forall call_within calls →
  bucket_budget (start calls, pack tokens ts).
Proof.
  intros Ht Hts Hb HQ H12 Hall. assert (admitted (start calls) = 0) as E.
  { unfold admitted, start. by induction calls as [|c calls IH]; [|inversion Hall; subst; apply IH]. }
  exists tokens, ts. cbn [fst snd]. rewrite E. split_and!; try done.
  2:{ assert (0 ≤ Q * (Z.max t1 (Z.min ts t2) - t1))%Z by (apply Z.mul_nonneg_nonneg; lia). lia. }
  unfold start. rewrite map_map. by rewrite map_id.
Qed.

(** The token bucket keeps its rate.  Whatever the interleaving of the
    atomic actions and however often the weak exchange fails spuriously, calls
    made in an interval of seconds admit at most the burst plus the rate times
    the length of the interval, also across a reload of the two settings below
    the given bounds, and from any state the bucket may be left in. *)
Theorem bucket_rate_bound calls tokens ts calls' state' :
  in_u32 tokens → in_u32 ts → (tokens ≤ B)%Z → (0 ≤ Q)%Z → (t1 ≤ t2)%Z → Forall call_within calls →
  rtc acquire_step (start calls, pack tokens ts) (calls', state') →
  (Z.of_nat (admitted calls') ≤ B + Q * (t2 - t1))%Z.
Proof.
  intros Ht Hts Hb HQ H12 Hall Hr.
  pose proof (rtc_preserves _ _ _ _ bucket_budget_step (bucket_budget_start _ _ _ Ht Hts Hb HQ H12 Hall) Hr)
    as (k & ts' & _ & Hk & _ & _ & _ & Hbud & _). cbn [fst] in Hbud. unfold_max.
  assert (Q * (Z.max t1 (Z.min ts' t2) - t1) ≤ Q * (t2 - t1))%Z by (apply Z.mul_le_mono_nonneg_l; lia). lia.
Qed.
End Bound.

(** ** Calls of one instant *)

Lemma acquire_one calls i c pc state :
  calls !! i = Some (c, pc) →
  ∃ b state', rtc acquire_step (calls, state) (<[i := (c, ADone b)]> calls, state').
Proof.
  intros Hi. assert (∀ calls, calls !! i = Some (c, AStart) →
    ∃ b state', rtc acquire_step (calls, state) (<[i := (c, ADone b)]> calls, state')) as Hstart.
  { clear. intros calls Hi.
    assert (∃ b state', acquire_act c (ALoaded state) state (ADone b) state') as (b & state' & Hact).
    { destruct (call_refill c state) as [av ts] eqn:E. destruct (decide (av = 0)%Z) as [->|Hne].
      - exists false, state. constructor. by rewrite E.
      - exists true, (pack (av - 1) ts). by econstructor. }
    exists b, state'. eapply rtc_l; [econstructor; [done|constructor]|].
    rewrite <-(list_insert_insert_eq calls i (c, ADone b) (c, ALoaded state)). apply rtc_once. econstructor; [|done].
    apply list_lookup_insert_eq. by eapply lookup_lt_Some. }
  destruct pc as [|current|b]; [by apply Hstart| |exists b, state; by rewrite list_insert_id].
  destruct (decide ((call_refill c current).1 = 0)%Z) as [Hz|Hz].
  - exists false, state. apply rtc_once. by econstructor; [|constructor].
  - destruct (Hstart (<[i := (c, AStart)]> calls)) as (b & state' & Hr).
    { apply list_lookup_insert_eq. by eapply lookup_lt_Some. }
    rewrite list_insert_insert_eq in Hr. exists b, state'. eapply rtc_l; [|done]. by econstructor; [|constructor].
Qed.

(** No call is ever stuck: every configuration can run to completion. *)
Lemma acquire_can_finish calls state :
  ∃ calls' state', rtc acquire_step (calls, state) (calls', state') ∧ Forall finished calls'.
Proof.
  destruct (finish_all acquire_step (fun call => finished call)) with calls state as (calls' & state' & Hr & _ & Hf).
  - intros ts w i [c pc] Hi. destruct (acquire_one ts i c pc w Hi) as (b & w' & Hr).
    by exists (c, ADone b), w'.
  - by exists calls', state'.
Qed.

(** A call left alone is [try_acquire]. *)
Lemma acquire_alone c state :
  rtc acquire_step ([(c, AStart)], state)
    (let '(ok, state') := try_acquire state (call_now c) (call_qps c) (call_burst c) in ([(c, ADone ok)], state')).
Proof.
  eapply rtc_l; [eapply (acquire_step_at 0); [done|constructor]|].
  unfold try_acquire. fold (call_refill c state). destruct (call_refill c state) as [av ts] eqn:E.
  destruct (Z.eqb_spec av 0) as [->|Hne]; (eapply rtc_l; [eapply (acquire_step_at 0); [done|]|apply rtc_refl]).
  - constructor. by rewrite E.
  - by econstructor.
Qed.

Section Instant.
Context (c : Call) (Hc : call_wf c).

Definition available (state : Z) : Z := (call_refill c state).1.

Lemma available_exchange tokens last av ts :
  in_u32 tokens → in_u32 last → call_refill c (pack tokens last) = (av, ts) → av ≠ 0%Z →
  in_u32 (av - 1) ∧ in_u32 ts ∧ available (pack (av - 1) ts) = (av - 1)%Z.
Proof.
  intros Ht Hl Hr Hne. destruct (refill_range _ _ _ _ _ Hc Ht Hl Hr) as [Hav Hts].
  assert (in_u32 (av - 1)) as Ha by (unfold_max; lia). split_and!; [done..|].
  unfold available. rewrite refill_spec in Hr |- * by done.
  destruct (Z.ltb_spec last (call_now c)); apply (inj2 pair) in Hr as [_ <-];
    rewrite (proj2 (Z.ltb_ge _ _)) by lia; done.
Qed.

(** What a call may still conclude from the word it loaded. *)
Definition call_view (state : Z) (call : Call * acquire_pc) : Prop :=
  call.1 = c ∧
  match call.2 with
  | AStart | ADone true => True
  | ALoaded current => (available state ≤ available current)%Z
  | ADone false => available state = 0%Z
  end.

Definition instant_inv (available0 : Z) (cfg : list (Call * acquire_pc) * Z) : Prop :=
  (∃ tokens ts, cfg.2 = pack tokens ts ∧ in_u32 tokens ∧ in_u32 ts)
  ∧ (Z.of_nat (admitted cfg.1) + available cfg.2 = available0)%Z
  ∧ Forall (call_view cfg.2) cfg.1.

Lemma available_nonneg tokens ts : in_u32 tokens → in_u32 ts → (0 ≤ available (pack tokens ts))%Z.
Proof.
  intros Ht Hts. unfold available. destruct (call_refill c (pack tokens ts)) as [av ts'] eqn:E.
  destruct (refill_range _ _ _ _ _ Hc Ht Hts E) as [? _]. cbn [fst]. unfold_max. lia.
Qed.

Lemma instant_step available0 cfg cfg' :
  instant_inv available0 cfg → acquire_step cfg cfg' → instant_inv available0 cfg'.
Proof.
  intros ((tokens & last & E & Ht & Hl) & Hsum & Hall) Hs.
  inversion Hs as [i c' pc pc' calls state state' Hi Hact]; subst cfg cfg'. cbn [fst snd] in *. subst state.
  pose proof (Forall_lookup_1 _ _ _ _ Hall Hi) as [Ec Hv]. cbn [fst snd] in Ec, Hv. subst c'.
  pose proof (available_nonneg _ _ Ht Hl) as Hnn. unfold instant_inv. cbn [fst snd].
  inversion Hact as [|current ? Hz|current av ts Hr Hne|current ? Hz]; subst;
    rewrite (admitted_insert _ _ _ _ _ Hi) by done; cbn [allowed snd].
  - split_and!; [by exists tokens, last|lia|]. apply Forall_insert; [done|]. split; [done|]. cbn. lia.
  - split_and!; [by exists tokens, last|lia|]. apply Forall_insert; [done|]. split; [done|].
    cbn. change ((call_refill c current).1) with (available current) in Hz. lia.
  - destruct (available_exchange _ _ _ _ Ht Hl Hr Hne) as (Ha & Hts & E).
    assert (available (pack tokens last) = av) as E0 by (unfold available; by rewrite Hr).
    split_and!; [by exists (av - 1)%Z, ts|lia|]. apply Forall_insert; [|done].
    eapply Forall_impl; [exact Hall|]. intros [c' [|current|[]]] [E1 Hw]; (split; [done|]); cbn in Hw |- *; try done; lia.
  - split_and!; [by exists tokens, last|lia|]. by apply Forall_insert.
Qed.

Lemma admitted_all calls state :
  Forall (call_view state) calls → Forall finished calls →
  admitted calls = length calls ∨ (admitted calls < length calls ∧ available state = 0%Z).
Proof.
  intros Hv Hf. unfold admitted. induction calls as [|[c' pc] calls IH]; [by left|].
  rewrite !Forall_cons in Hv, Hf. destruct Hv as [[_ Hv] Hvs], Hf as [Hf Hfs]. specialize (IH Hvs Hfs).
  pose proof (List.filter_length_le allowed calls).
  destruct pc as [|current|[]]; try done; cbn in Hv |- *; [destruct IH as [?|[]]; [left|right]; lia|right; lia].
Qed.

Lemma instant_start n tokens ts :
  in_u32 tokens → in_u32 ts →
  instant_inv (available (pack tokens ts)) (start (replicate n c), pack tokens ts).
Proof.
  intros Ht Hts. assert (admitted (start (replicate n c)) = 0) as E by (by induction n).
  split_and!; cbn [fst snd]; [by exists tokens, ts|by rewrite E|].
  unfold start. apply Forall_fmap, Forall_replicate. by split.
Qed.

Lemma acquire_length cfg cfg' : rtc acquire_step cfg cfg' → length cfg'.1 = length cfg.1.
Proof.
  induction 1 as [|x y z Hs _ IH]; [done|]. rewrite IH. inversion Hs. apply length_insert.
Qed.

(** Concurrent calls of one second share one bucket exactly.  However
    they interleave, they can all complete, and when they have, the number
    admitted is the number of calls or the refilled tokens, whichever is less:
    no token is spent twice and none is lost to a failed exchange.  A call left
    alone returns what the sequential reading of the loop computes. *)
Theorem bucket_admits_exactly n tokens ts calls' state' :
  in_u32 tokens → in_u32 ts →
  rtc acquire_step (start (replicate n c), pack tokens ts) (calls', state') →
  (∃ calls'' state'', rtc acquire_step (calls', state') (calls'', state'') ∧ Forall finished calls'')
  ∧ (Forall finished calls' →
     Z.of_nat (admitted calls') = Z.min (Z.of_nat n) (call_refill c (pack tokens ts)).1)
  ∧ rtc acquire_step ([(c, AStart)], state')
      (let '(ok, state'') := try_acquire state' (call_now c) (call_qps c) (call_burst c) in ([(c, ADone ok)], state'')).
Proof.
  intros Ht Hts Hr. split_and!; [apply acquire_can_finish| |apply acquire_alone]. intros Hf.
  pose proof (acquire_length _ _ Hr) as Hl. cbn [fst] in Hl. unfold start in Hl.
  rewrite length_map, length_replicate in Hl.
  pose proof (rtc_preserves _ _ _ _ (instant_step _) (instant_start n _ _ Ht Hts) Hr)
    as ((k & ts' & E & Hk & Hts') & Hsum & Hall). cbn [fst snd] in *. subst state'.
  pose proof (available_nonneg _ _ Hk Hts').
  change (Z.of_nat (admitted calls') = Z.min (Z.of_nat n) (available (pack tokens ts))).
  destruct (admitted_all _ _ Hall Hf) as [?|[? ?]]; lia.
Qed.
End Instant.

(** Two calls, one token left, at the settings 20/s with a burst of 50. *)
Definition sample_call : Call := {| call_now := 7; call_qps := 20; call_burst := 50 |}.

Lemma sample_call_wf : call_wf sample_call.
Proof. unfold call_wf. unfold_max. cbn. lia. Qed.

(** Both load, the first takes the token, the second retries and is refused. *)
Lemma sample_race :
  rtc acquire_step (start [sample_call; sample_call], pack 1 7)
    ([(sample_call, ADone true); (sample_call, ADone false)], pack 0 7).
Proof.
  eapply rtc_l; [eapply (acquire_step_at 0); [done|constructor]|].
  eapply rtc_l; [eapply (acquire_step_at 1); [done|constructor]|].
  eapply rtc_l; [eapply (acquire_step_at 0); [done|by apply (act_exchange _ _ 1 7)]|].
  eapply rtc_l; [eapply (acquire_step_at 1); [done|by apply act_retry]|].
  eapply rtc_l; [eapply (acquire_step_at 1); [done|constructor]|].
  eapply rtc_l; [eapply (acquire_step_at 1); [done|by apply act_reject]|].
  apply rtc_refl.
Qed.

Lemma bucket_rate_bound_witness :
  (Z.of_nat (admitted [(sample_call, ADone true); (sample_call, ADone false)]) ≤ 50 + 20 * (8 - 6))%Z.
Proof.
  apply (bucket_rate_bound 20 50 6 8 [sample_call; sample_call] 1 7 _ (pack 0 7)).
  - unfold_max. lia.
  - unfold_max. lia.
  - lia.
  - lia.
  - lia.
  - repeat constructor; unfold_max; cbn; lia.
  - apply sample_race.
Defined.

Lemma bucket_admits_exactly_witness :
  Z.of_nat (admitted [(sample_call, ADone true); (sample_call, ADone false)]) = 1%Z.
Proof.
  apply (bucket_admits_exactly sample_call sample_call_wf 2 1 7 _ (pack 0 7)).
  - unfold_max. lia.
  - unfold_max. lia.
  - apply sample_race.
  - by repeat constructor.
Defined.
