(* ===== verification/Circuit.v ===== *)
(** * The circuit breaker: [src/upstream/circuit.rs]

    The three atomics of the breaker and its [lookup] around an upstream whose
    answer is given, with the clock read where the code reads it: when a query
    arrives and when its answer is recorded.  Lookups are run one at a time. *)

From S2P Require Import Prelude DnsTypes.

Definition FAILURE_THRESHOLD : Z := 10.
Definition PROBE_INTERVAL_SECS : Z := 10.

Inductive BreakerState := Closed | Open | HalfOpen.

#[export] Instance BreakerState_eq_dec : EqDecision BreakerState.
Proof. solve_decision. Defined.

Record Breaker := { failures : Z; opened_at : Z; state_word : Z }.

Definition breaker_new : Breaker := {| failures := 0; opened_at := 0; state_word := 0 |}.

Definition breaker_state (b : Breaker) : BreakerState :=
  if (state_word b =? 0)%Z then Closed else if (state_word b =? 1)%Z then Open else HalfOpen.

Definition set_state (b : Breaker) (s : BreakerState) : Breaker :=
  {| failures := failures b; opened_at := opened_at b;
     state_word := match s with Closed => 0 | Open => 1 | HalfOpen => 2 end |}.

Definition set_failures (b : Breaker) (n : Z) : Breaker :=
  {| failures := n; opened_at := opened_at b; state_word := state_word b |}.

Definition set_opened_at (b : Breaker) (t : Z) : Breaker :=
  {| failures := failures b; opened_at := t; state_word := state_word b |}.

Definition record_success (b : Breaker) : Breaker :=
  let b := if (0 <? failures b)%Z then set_failures b 0 else b in
  if (state_word b =? 0)%Z then b else set_state b Closed.

Definition record_failure (b : Breaker) (now : Z) : Breaker :=
  let count := as_u32 (failures b + 1) in
  let b := set_failures b count in
  if (FAILURE_THRESHOLD <=? count)%Z then
    let b := set_state (set_opened_at b now) Open in
    if (FAILURE_THRESHOLD * 2 <? count)%Z then set_failures b FAILURE_THRESHOLD else b
  else b.

Definition should_probe (b : Breaker) (now : Z) : bool :=
  (PROBE_INTERVAL_SECS <=? saturating_sub now (opened_at b))%Z.

(** A query: when it arrives, what the upstream would answer, and when. *)
Record Query (R : Type) := { arrives : Z; answer : result DnsError R; answered : Z }.
Arguments arrives {R} q : rename.
Arguments answer {R} q : rename.
Arguments answered {R} q : rename.

(** [lookup], with whether the upstream was contacted. *)
Definition breaker_lookup {R} (b : Breaker) (q : Query R) : bool * result DnsError R * Breaker :=
  match breaker_state b with
  | Closed =>
    match answer q with
    | Ok resp => (true, Ok resp, record_success b)
    | Err e => (true, Err e, record_failure b (answered q))
    end
  | Open =>
    if should_probe b (arrives q) then
      let b := set_state b HalfOpen in
      match answer q with
      | Ok resp => (true, Ok resp, record_success b)
      | Err e => (true, Err e, set_state (set_opened_at b (answered q)) Open)
      end
    else (false, Err CircuitBreakerOpen, b)
  | HalfOpen => (false, Err CircuitBreakerOpen, b)
  end.

Fixpoint breaker_run {R} (b : Breaker) (qs : list (Query R)) : list (bool * result DnsError R) :=
  match qs with
  | [] => []
  | q :: qs => let '(contacted, r, b') := breaker_lookup b q in (contacted, r) :: breaker_run b' qs
  end.

(** ** The contract

    Closed with a count of consecutive failures, or open since a time. *)

Inductive Contract := CClosed (consecutive : Z) | COpen (since : Z).

Definition contract_step {R} (c : Contract) (q : Query R) : bool * result DnsError R * Contract :=
  match c with
  | CClosed n =>
    (true, answer q,
     if is_ok (answer q) then CClosed 0
     else if (n + 1 =? FAILURE_THRESHOLD)%Z then COpen (answered q) else CClosed (n + 1))
  | COpen since =>
    if (since + PROBE_INTERVAL_SECS <=? arrives q)%Z then
      (true, answer q, if is_ok (answer q) then CClosed 0 else COpen (answered q))
    else (false, Err CircuitBreakerOpen, COpen since)
  end.

Fixpoint contract_run {R} (c : Contract) (qs : list (Query R)) : list (bool * result DnsError R) :=
  match qs with
  | [] => []
  | q :: qs => let '(contacted, r, c') := contract_step c q in (contacted, r) :: contract_run c' qs
  end.

(** Between lookups the breaker is closed below the threshold or open. *)
Definition implements (b : Breaker) (c : Contract) : Prop :=
  match c with
  | CClosed n => state_word b = 0%Z ∧ failures b = n ∧ (0 ≤ n < FAILURE_THRESHOLD)%Z
  | COpen since => state_word b = 1%Z ∧ opened_at b = since ∧ (0 ≤ failures b)%Z
  end.

Lemma record_success_closes b : (0 ≤ failures b)%Z → implements (record_success b) (CClosed 0).
Proof.
  intros Hf. unfold record_success, FAILURE_THRESHOLD. destruct b as [f o w]. cbn [failures] in *.
  destruct (Z.ltb_spec 0 f); cbn; destruct (Z.eqb_spec w 0); cbn; unfold FAILURE_THRESHOLD; lia.
Qed.

Lemma record_failure_counts b n t :
  implements b (CClosed n) →
  implements (record_failure b t) (if (n + 1 =? FAILURE_THRESHOLD)%Z then COpen t else CClosed (n + 1)).
Proof.
  destruct b as [f o w]. cbn [implements failures state_word]. intros (-> & -> & Hn).
  unfold record_failure, FAILURE_THRESHOLD, as_u32 in *. cbn [failures]. rewrite Z.mod_small by lia.
  destruct (Z.leb_spec 10 (n + 1)), (Z.eqb_spec (n + 1) 10); try lia.
  - rewrite (proj2 (Z.ltb_ge _ _)) by lia. cbn. lia.
  - cbn. unfold FAILURE_THRESHOLD. lia.
Qed.

Lemma breaker_lookup_implements {R} b c (q : Query R) :
  implements b c →
  (breaker_lookup b q).1 = (contract_step c q).1 ∧ implements (breaker_lookup b q).2 (contract_step c q).2.
Proof.
  intros Hi. unfold breaker_lookup, breaker_state. destruct c as [n|since]; pose proof Hi as Hi'.
  - destruct Hi as (-> & Hf & Hn). cbn [contract_step Z.eqb]. destruct (answer q) as [resp|e]; cbn [is_ok fst snd].
    + split; [done|]. apply record_success_closes. lia.
    + split; [done|]. by apply record_failure_counts.
  - destruct Hi as (-> & Ho & Hf). cbn [contract_step Z.eqb]. unfold should_probe, saturating_sub. rewrite Ho.
    change (1 =? 1)%Z with true. cbn [Pos.eqb]. unfold PROBE_INTERVAL_SECS.
    destruct (Z.leb_spec 10 (Z.max 0 (arrives q - since))), (Z.leb_spec (since + 10) (arrives q)); try lia; [|done].
    destruct (answer q) as [resp|e]; cbn [is_ok fst snd]; (split; [done|]); [|done].
    by apply record_success_closes.
Qed.

Lemma breaker_run_implements {R} (qs : list (Query R)) b c :
  implements b c → breaker_run b qs = contract_run c qs.
Proof.
  revert b c; induction qs as [|q qs IH]; intros b c Hi; [done|]. cbn [breaker_run contract_run].
  destruct (breaker_lookup_implements b c q Hi) as [E Hi'].
  destruct (breaker_lookup b q) as [[k r] b'], (contract_step c q) as [[k' r'] c']. cbn [fst snd] in *.
  injection E as -> ->. f_equal. by apply IH.
Qed.

Definition contacts {R} (log : list (bool * result DnsError R)) : nat := length (List.filter fst log).

(** Queries one after the other, none answered after [until]. *)
Fixpoint in_sequence {R} (from until : Z) (qs : list (Query R)) : Prop :=
  match qs with
  | [] => True
  | q :: qs => (from ≤ arrives q ≤ answered q)%Z ∧ (answered q ≤ until)%Z ∧ in_sequence (answered q) until qs
  end.

Lemma contract_contacts {R} (qs : list (Query R)) c from until :
  in_sequence from until qs → (from ≤ until)%Z → Forall (fun q => is_ok (answer q) = false) qs →
  match c with
  | CClosed n => (0 ≤ n < 10)%Z → (Z.of_nat (contacts (contract_run c qs)) ≤ 10 - n + (until - from) / 10)%Z
  | COpen since => (since ≤ from)%Z → (Z.of_nat (contacts (contract_run c qs)) ≤ (until - since) / 10)%Z
  end.
Proof.
  revert c from. induction qs as [|q qs IH]; intros c from Hseq Hle Hdead.
  { destruct c as [n|since]; intros H; cbn; [pose proof (Z.div_pos (until - from) 10)|apply Z.div_pos]; lia. }
  destruct Hseq as (Ht & Hu & Hseq). rewrite Forall_cons in Hdead. destruct Hdead as [Hd Hdead].
  specialize (fun c => IH c (answered q) Hseq Hu Hdead). unfold contacts in *. cbn [contract_run contract_step].
  destruct c as [n|since]; intros Hc; cbn [contract_step]; unfold FAILURE_THRESHOLD, PROBE_INTERVAL_SECS; rewrite ?Hd.
  - cbn [List.filter fst length]. assert ((until - answered q) / 10 ≤ (until - from) / 10)%Z by (apply Z.div_le_mono; lia).
    destruct (Z.eqb_spec (n + 1) 10).
    + specialize (IH (COpen (answered q)) ltac:(lia)). lia.
    + specialize (IH (CClosed (n + 1)) ltac:(lia)). lia.
  - destruct (Z.leb_spec (since + 10) (arrives q)); rewrite ?Hd; cbn [List.filter fst length].
    + specialize (IH (COpen (answered q)) ltac:(lia)).
      assert ((until - answered q) / 10 ≤ (until - since - 1 * 10) / 10)%Z as Hm by (apply Z.div_le_mono; lia).
      replace (until - since - 1 * 10)%Z with (until - since + (-1) * 10)%Z in Hm by lia.
      rewrite Z.div_add in Hm by lia. lia.
    + apply (IH (COpen since)). lia.
Qed.

(** Run one lookup at a time, the breaker keeps its contract: ten
    consecutive failures open it, an open breaker refuses without contacting
    the upstream until ten seconds have passed, then lets one query through
    whose answer closes it or restarts the ten seconds, and a refusal changes
    nothing.  Hence an upstream that answers nothing between two times is
    contacted at most ten times plus once per ten seconds. *)
Theorem breaker_contract {R} (qs : list (Query R)) :
  breaker_run breaker_new qs = contract_run (CClosed 0) qs
  ∧ ∀ from until, in_sequence from until qs → (from ≤ until)%Z →
      Forall (fun q => is_ok (answer q) = false) qs →
      (Z.of_nat (contacts (breaker_run breaker_new qs)) ≤ 10 + (until - from) / 10)%Z.
Proof.
  assert (breaker_run breaker_new qs = contract_run (CClosed 0) qs) as E by by apply breaker_run_implements.
  split; [done|]. intros from until Hseq Hle Hdead. rewrite E.
  apply (contract_contacts qs (CClosed 0) from until Hseq Hle Hdead). lia.
Qed.
