(* ===== verification/Schedule.v ===== *)
(** * Schedules: [src/profiles/schedule.rs]

    Parsing of day and hour specifications, the conversion of the C library's
    broken-down time, and the test whether a schedule is active.  Instants are
    seconds of some fixed clock; the current instant is an argument. *)

From S2P Require Import Prelude RustStr.

(** ** Parsing *)

Definition day_bits (spec : str) : option Z :=
  let named name := bool_decide (spec = lit name) in
  if named "mon" then Some (Z.shiftl 1 0)
  else if named "tue" then Some (Z.shiftl 1 1)
  else if named "wed" then Some (Z.shiftl 1 2)
  else if named "thu" then Some (Z.shiftl 1 3)
  else if named "fri" then Some (Z.shiftl 1 4)
  else if named "sat" then Some (Z.shiftl 1 5)
  else if named "sun" then Some (Z.shiftl 1 6)
  else if named "weekdays" then Some 31%Z
  else if named "weekends" then Some 96%Z
  else if named "all" then Some 127%Z
  else None.

Fixpoint or_days (mask : Z) (specs : list str) : option Z :=
  match specs with
  | [] => Some mask
  | spec :: rest =>
    match day_bits (to_ascii_lowercase spec) with
    | Some bits => or_days (Z.lor mask bits) rest
    | None => None
    end
  end.

Definition parse_days (specs : list str) : option Z :=
  match or_days 0 specs with
  | Some mask => if (mask =? 0)%Z then None else Some mask
  | None => None
  end.

Definition parse_time (s : str) : option (Z * Z) :=
  match split ":"%char (trim s) with
  | [hs; ms] =>
    match parse_uint U8_MAX hs, parse_uint U8_MAX ms with
    | Some h, Some m => if (23 <? h)%Z || (59 <? m)%Z then None else Some (h, m)
    | _, _ => None
    end
  | _ => None
  end.

Definition parse_hours (hours : str) : option (Z * Z * Z * Z) :=
  match split "-"%char hours with
  | [start; end_] =>
    match parse_time start, parse_time end_ with
    | Some (sh, sm), Some (eh, em) => Some (sh, sm, eh, em)
    | _, _ => None
    end
  | _ => None
  end.

(** [ScheduleConfig]; a schema [Schedule] is parsed the same way, with its
    target as the client. *)
Record ScheduleConfig := {
  sc_client : str; sc_profile : str; sc_days : list str; sc_hours : str; sc_expires_at : option Z }.

Record ParsedSchedule := {
  ps_client : str; ps_profile : str; ps_days : Z;
  ps_start_hour : Z; ps_start_min : Z; ps_end_hour : Z; ps_end_min : Z;
  ps_wraps_midnight : bool; ps_expires_at : option Z }.

Definition parse_schedule (config : ScheduleConfig) : option ParsedSchedule :=
  match parse_days (sc_days config), parse_hours (sc_hours config) with
  | Some days, Some (sh, sm, eh, em) =>
    let start_total := (sh * 60 + sm)%Z in
    let end_total := (eh * 60 + em)%Z in
    if (start_total =? end_total)%Z && negb (start_total =? 0)%Z then None
    else Some {| ps_client := sc_client config; ps_profile := sc_profile config; ps_days := days;
                 ps_start_hour := sh; ps_start_min := sm; ps_end_hour := eh; ps_end_min := em;
                 ps_wraps_midnight := (end_total <=? start_total)%Z; ps_expires_at := sc_expires_at config |}
  | _, _ => None
  end.

(** ** Matching *)

Definition is_active (s : ParsedSchedule) (now_utc weekday hour minute : Z) : bool :=
  let expired := match ps_expires_at s with Some e => (e <=? now_utc)%Z | None => false end in
  if expired then false
  else if (Z.land (ps_days s) (Z.shiftl 1 weekday) =? 0)%Z then false
  else
    let now := (hour * 60 + minute)%Z in
    let start := (ps_start_hour s * 60 + ps_start_min s)%Z in
    let end_ := (ps_end_hour s * 60 + ps_end_min s)%Z in
    if ps_wraps_midnight s then (start <=? now)%Z || (now <? end_)%Z
    else (start <=? now)%Z && (now <? end_)%Z.

Definition active_schedule_profile (schedules : list ParsedSchedule) (client : str)
    (now_utc weekday hour minute : Z) : option str :=
  ps_profile <$> List.find (fun s => bool_decide (ps_client s = client) && is_active s now_utc weekday hour minute) schedules.

(** [convert_libc_tm_components], on C integers. *)
Definition convert_libc_tm_components (tm_wday tm_hour tm_min : Z) : Z * Z * Z :=
  (if (tm_wday =? 0)%Z then 6%Z
   else if (1 <=? tm_wday)%Z && (tm_wday <=? 6)%Z then (tm_wday - 1)%Z else 0%Z,
   if (0 <=? tm_hour)%Z && (tm_hour <=? U8_MAX)%Z && (tm_hour <=? 23)%Z then tm_hour else 0%Z,
   if (0 <=? tm_min)%Z && (tm_min <=? U8_MAX)%Z && (tm_min <=? 59)%Z then tm_min else 0%Z).

(** [components_from_localtime]: no time at all is Monday midnight. *)
Definition components_from_localtime (tm : option (Z * Z * Z)) : Z * Z * Z :=
  match tm with
  | None => (0, 0, 0)%Z
  | Some (wday, hour, min) => convert_libc_tm_components wday hour min
  end.

(** ** What the texts mean *)

(** The days a specification names, Monday being 0. *)
Definition days_named (spec : str) : list Z :=
  let s := to_ascii_lowercase spec in
  if bool_decide (s = lit "weekdays") then [0; 1; 2; 3; 4]%Z
  else if bool_decide (s = lit "weekends") then [5; 6]%Z
  else if bool_decide (s = lit "all") then [0; 1; 2; 3; 4; 5; 6]%Z
  else if bool_decide (s = lit "mon") then [0]%Z
  else if bool_decide (s = lit "tue") then [1]%Z
  else if bool_decide (s = lit "wed") then [2]%Z
  else if bool_decide (s = lit "thu") then [3]%Z
  else if bool_decide (s = lit "fri") then [4]%Z
  else if bool_decide (s = lit "sat") then [5]%Z
  else if bool_decide (s = lit "sun") then [6]%Z
  else [].

(** The length of a window in minutes, on the clock of a day. *)
Definition window_minutes (start end_ : Z) : Z :=
  if (start =? end_)%Z then 1440 else (end_ - start) mod 1440.

Definition two_digits (n : Z) : str :=
  [ascii_of_N (Z.to_N (48 + n / 10)); ascii_of_N (Z.to_N (48 + n mod 10))].

(** [HH:MM] *)
Definition clock (h m : Z) : str := two_digits h ++ ":"%char :: two_digits m.

Lemma day_bits_spec spec bits d :
  day_bits (to_ascii_lowercase spec) = Some bits → (0 ≤ d < 7)%Z →
  Z.testbit bits d = true ↔ d ∈ days_named spec.
Proof.
  unfold day_bits, days_named. generalize (to_ascii_lowercase spec) as s. intros s Hb Hd.
  assert (d = 0 ∨ d = 1 ∨ d = 2 ∨ d = 3 ∨ d = 4 ∨ d = 5 ∨ d = 6)%Z as Hin by lia. clear Hd. revert Hb.
  repeat match goal with |- context [bool_decide (s = ?t)] => destruct (bool_decide_reflect (s = t)) as [->|_];
    [intros [= <-]; destruct_or! Hin; subst d; apply (bool_decide_unpack _); vm_compute; exact I|] end.
  done.
Qed.

Lemma or_days_spec specs mask0 mask d :
  or_days mask0 specs = Some mask → (0 ≤ d < 7)%Z →
  Z.testbit mask d = true ↔ Z.testbit mask0 d = true ∨ ∃ spec, spec ∈ specs ∧ d ∈ days_named spec.
Proof.
  revert mask0. induction specs as [|spec specs IH]; intros mask0 H Hd; cbn [or_days] in H.
  { injection H as ->. split; [by left|]. intros [?|(? & Hin & _)]; [done|]. by apply not_elem_of_nil in Hin. }
  destruct (day_bits (to_ascii_lowercase spec)) as [bits|] eqn:Eb; [|done].
  rewrite (IH _ H Hd), Z.lor_spec, orb_true_iff, (day_bits_spec _ _ _ Eb Hd). split.
  - intros [[?|?]|(s & Hs & ?)]; [by left|right; exists spec; split; [left|done]|right; exists s; split; [by right|done]].
  - intros [?|(s & [->|Hs]%elem_of_cons & ?)]; [by left; left|by left; right|right; by exists s].
Qed.

Lemma day_active mask d : (0 ≤ d)%Z → (Z.land mask (Z.shiftl 1 d) =? 0)%Z = negb (Z.testbit mask d).
Proof.
  intros Hd. rewrite Z.shiftl_1_l. destruct (Z.testbit mask d) eqn:E; cbn [negb].
  - apply Z.eqb_neq. intros H. assert (Z.testbit (Z.land mask (2 ^ d)) d = true) as Ht.
    { rewrite Z.land_spec, E, Z.pow2_bits_true by lia. done. }
    by rewrite H, Z.bits_0 in Ht.
  - apply Z.eqb_eq, Z.bits_inj'. intros i Hi. rewrite Z.land_spec, Z.bits_0.
    destruct (Z.eqb_spec i d) as [->|Hne]; [by rewrite E|]. by rewrite Z.pow2_bits_false, andb_false_r.
Qed.

Lemma parse_time_range s h m : parse_time s = Some (h, m) → (0 ≤ h < 24 ∧ 0 ≤ m < 60)%Z.
Proof.
  unfold parse_time. destruct (split _ _) as [|hs [|ms [|]]]; try done.
  destruct (parse_uint U8_MAX hs) as [h'|] eqn:Eh; [|done]. destruct (parse_uint U8_MAX ms) as [m'|] eqn:Em; [|done].
  apply parse_uint_range in Eh, Em; [|done..]. destruct (Z.ltb_spec 23 h'), (Z.ltb_spec 59 m'); try done. intros [= -> ->]. lia.
Qed.

Lemma parse_hours_range hours sh sm eh em :
  parse_hours hours = Some (sh, sm, eh, em) →
  (0 ≤ sh * 60 + sm < 1440 ∧ 0 ≤ eh * 60 + em < 1440)%Z.
Proof.
  unfold parse_hours. destruct (split _ _) as [|a [|b [|]]]; try done.
  destruct (parse_time a) as [[h m]|] eqn:Ea; [|done]. destruct (parse_time b) as [[h' m']|] eqn:Eb; [|done].
  intros [= -> -> -> ->]. apply parse_time_range in Ea, Eb. lia.
Qed.

(** Every hour and minute of the day, written with two digits, reads back. *)
Lemma parse_time_clock h m : (0 ≤ h < 24)%Z → (0 ≤ m < 60)%Z → parse_time (clock h m) = Some (h, m).
Proof.
  intros Hh Hm.
  assert (forallb (fun h => forallb (fun m => bool_decide (parse_time (clock h m) = Some (h, m)))
    (map Z.of_nat (seq 0 60))) (map Z.of_nat (seq 0 24)) = true) as H by (vm_compute; reflexivity).
  rewrite forallb_forall in H. specialize (H h). rewrite forallb_forall in H.
  apply (bool_decide_eq_true_1 _), H; apply in_map_iff; [exists (Z.to_nat h)|exists (Z.to_nat m)];
    (split; [lia|apply in_seq; lia]).
Qed.

Lemma clock_no_dash h m : (0 ≤ h < 24)%Z → (0 ≤ m < 60)%Z → "-"%char ∉ clock h m.
Proof.
  intros Hh Hm.
  assert (forallb (fun h => forallb (fun m => bool_decide ("-"%char ∉ clock h m))
    (map Z.of_nat (seq 0 60))) (map Z.of_nat (seq 0 24)) = true) as H by (vm_compute; reflexivity).
  rewrite forallb_forall in H. specialize (H h). rewrite forallb_forall in H.
  apply (bool_decide_eq_true_1 _), H; apply in_map_iff; [exists (Z.to_nat h)|exists (Z.to_nat m)];
    (split; [lia|apply in_seq; lia]).
Qed.

Lemma parse_hours_clock sh sm eh em :
  (0 ≤ sh < 24)%Z → (0 ≤ sm < 60)%Z → (0 ≤ eh < 24)%Z → (0 ≤ em < 60)%Z →
  parse_hours (clock sh sm ++ "-"%char :: clock eh em) = Some (sh, sm, eh, em).
Proof.
  intros. unfold parse_hours. rewrite split_app, split_word by (by apply clock_no_dash).
  by rewrite !parse_time_clock.
Qed.

Lemma components_range tm :
  let '(w, h, m) := components_from_localtime tm in (0 ≤ w < 7 ∧ 0 ≤ h < 24 ∧ 0 ≤ m < 60)%Z.
Proof.
  destruct tm as [[[w h] m]|]; cbn [components_from_localtime]; [|lia]. unfold convert_libc_tm_components, U8_MAX.
  repeat match goal with |- context [if ?b then _ else _] => destruct b eqn:? end; lia.
Qed.

Lemma in_window start end_ now :
  (0 ≤ start < 1440)%Z → (0 ≤ end_ < 1440)%Z → (0 ≤ now < 1440)%Z → (start = end_ → start = 0)%Z →
  (if (end_ <=? start)%Z then (start <=? now)%Z || (now <? end_)%Z else (start <=? now)%Z && (now <? end_)%Z) = true
  ↔ ((now - start) mod 1440 < window_minutes start end_)%Z.
Proof.
  intros Hs He Hn H0. unfold window_minutes.
  destruct (Z.leb_spec end_ start), (Z.eqb_spec start end_); try lia;
    rewrite ?orb_true_iff, ?andb_true_iff, ?Z.leb_le, ?Z.ltb_lt; Z.to_euclidean_division_equations; lia.
Qed.

Lemma window_minutes_range start end_ :
  (0 ≤ start < 1440)%Z → (0 ≤ end_ < 1440)%Z → (0 < window_minutes start end_ ≤ 1440)%Z.
Proof.
  intros Hs He. unfold window_minutes. destruct (Z.eqb_spec start end_); [lia|].
  Z.to_euclidean_division_equations; lia.
Qed.

Lemma is_active_spec s now_utc w h m :
  let start := (ps_start_hour s * 60 + ps_start_min s)%Z in
  let end_ := (ps_end_hour s * 60 + ps_end_min s)%Z in
  ps_wraps_midnight s = (end_ <=? start)%Z →
  (0 ≤ start < 1440)%Z → (0 ≤ end_ < 1440)%Z → (start = end_ → start = 0)%Z →
  (0 ≤ w < 7)%Z → (0 ≤ h < 24)%Z → (0 ≤ m < 60)%Z →
  is_active s now_utc w h m = true ↔
    (∀ e, ps_expires_at s = Some e → (now_utc < e)%Z)
    ∧ Z.testbit (ps_days s) w = true
    ∧ ((h * 60 + m - start) mod 1440 < window_minutes start end_)%Z.
Proof.
  cbv zeta. intros Hwrap Hs He H0 Hw Hh Hm. unfold is_active. rewrite Hwrap, day_active by lia.
  rewrite <-(in_window _ _ (h * 60 + m) Hs He) by (done || lia).
  assert ((match ps_expires_at s with Some e => (e <=? now_utc)%Z | None => false end) = false
    ↔ ∀ e, ps_expires_at s = Some e → (now_utc < e)%Z) as Hexp.
  { destruct (ps_expires_at s) as [e|]; [|done]. rewrite Z.leb_gt. split; [by intros ? ? [= <-]|auto]. }
  rewrite <-Hexp. destruct (match ps_expires_at s with Some e => _ | None => _ end); [naive_solver|].
  destruct (Z.testbit (ps_days s) w); cbn [negb]; naive_solver.
Qed.

(** C27: a schedule is active exactly in its window, at every time the C
    library may report.  It must not have expired, one of its day names must
    cover the current calendar day, and the minutes elapsed since its start on
    the clock of that day must be fewer than the length of the window, all of
    the day when start and end are both midnight.  The window is never empty,
    and every text [HH:MM-HH:MM] of valid times is read as those times.  So a
    window over midnight belongs to the calendar day on both of its sides: it
    does not continue into the day after a named one. *)
Theorem schedule_active_exact config s now_utc tm :
  parse_schedule config = Some s →
  ∃ sh sm eh em, parse_hours (sc_hours config) = Some (sh, sm, eh, em)
    ∧ (0 < window_minutes (sh * 60 + sm) (eh * 60 + em) ≤ 1440)%Z
    ∧ (let '(weekday, hour, minute) := components_from_localtime tm in
       is_active s now_utc weekday hour minute = true ↔
         (∀ e, sc_expires_at config = Some e → (now_utc < e)%Z)
         ∧ (∃ spec, spec ∈ sc_days config ∧ weekday ∈ days_named spec)
         ∧ ((hour * 60 + minute - (sh * 60 + sm)) mod 1440
            < window_minutes (sh * 60 + sm) (eh * 60 + em))%Z)
    ∧ ∀ sh sm eh em, (0 ≤ sh < 24)%Z → (0 ≤ sm < 60)%Z → (0 ≤ eh < 24)%Z → (0 ≤ em < 60)%Z →
        parse_hours (clock sh sm ++ "-"%char :: clock eh em) = Some (sh, sm, eh, em).
Proof.
  unfold parse_schedule. destruct (parse_days (sc_days config)) as [days|] eqn:Ed; [|done].
  destruct (parse_hours (sc_hours config)) as [[[[sh sm] eh] em]|] eqn:Eh; [|done].
  destruct ((_ =? _)%Z && _) eqn:Ez; [done|]. intros [= <-]. exists sh, sm, eh, em.
  destruct (parse_hours_range _ _ _ _ _ Eh) as [Hs He].
  assert (sh * 60 + sm = eh * 60 + em → sh * 60 + sm = 0)%Z as H0.
  { intros E. rewrite (proj2 (Z.eqb_eq _ _) E) in Ez. cbn [andb] in Ez.
    apply negb_false_iff, Z.eqb_eq in Ez. lia. }
  split_and!; [done|apply window_minutes_range; lia|apply window_minutes_range; lia| |exact parse_hours_clock].
  pose proof (components_range tm) as Hr. destruct (components_from_localtime tm) as [[w h] m].
  unfold parse_days in Ed. destruct (or_days 0 (sc_days config)) as [mask|] eqn:Eo; [|done].
  assert (mask = days) as -> by (by destruct (mask =? 0)%Z; [|injection Ed]).
  rewrite is_active_spec by (done || lia). cbn.
  rewrite (or_days_spec _ _ _ w Eo), Z.bits_0 by lia. intuition congruence.
Qed.

(** A Friday night and its two sides of midnight, on a Friday and on the
    Saturday after it (the C library counts days from Sunday). *)
Definition friday_night : ScheduleConfig := {|
  sc_client := lit "tablet"; sc_profile := lit "night"; sc_days := [lit "Fri"];
  sc_hours := lit "22:00-06:00"; sc_expires_at := None |}.

Definition active_at (config : ScheduleConfig) (tm : Z * Z * Z) : option bool :=
  let '(weekday, hour, minute) := components_from_localtime (Some tm) in
  (fun s => is_active s 0 weekday hour minute) <$> parse_schedule config.

Lemma schedule_active_exact_witness :
  (∃ s, parse_schedule friday_night = Some s ∧
   ∃ sh sm eh em, parse_hours (sc_hours friday_night) = Some (sh, sm, eh, em)
     ∧ (0 < window_minutes (sh * 60 + sm) (eh * 60 + em) ≤ 1440)%Z)
  ∧ active_at friday_night (5, 23, 30)%Z = Some true
  ∧ active_at friday_night (6, 3, 0)%Z = Some false
  ∧ active_at friday_night (5, 3, 0)%Z = Some true.
Proof.
  split; [|vm_compute; done].
  destruct (parse_schedule friday_night) as [s|] eqn:E; [|vm_compute in E; done]. exists s. split; [done|].
  destruct (schedule_active_exact friday_night s 0 None E) as (sh & sm & eh & em & H1 & H2 & _).
  by exists sh, sm, eh, em.
Defined.
