(* ===== verification/Forwarding.v ===== *)
(** * Conditional forwarding: [src/upstream/forwarding.rs]

    The router of split DNS: zones sorted by the length of their suffix, each
    behind its own circuit breaker, and a default upstream.  Building a
    transport is the work of other modules; it is a parameter that may fail. *)

From S2P Require Import Prelude RustStr DnsTypes Domain Circuit.

(** ** Suffixes *)

(** [is_subzone_of]; [None] is the panic of the index or of the slice. *)
Definition is_subzone_of (domain suffix : str) : option bool :=
  if bool_decide (suffix = []) || (length domain <=? length suffix) then Some false
  else
    let boundary := length domain - length suffix in
    match domain !! (boundary - 1) with
    | None => None
    | Some b => Some (bool_decide (b = DOT) && bool_decide (drop boundary domain = suffix))
    end.

(** A zone covers its own name and everything below it. *)
Definition covers_domain (suffix domain : str) : Prop := domain = suffix ∨ suffix ∈ dot_suffixes domain.

Section Router.
Context {Cfg U E : Type} (cfg_suffix : Cfg → str) (build_upstream : Cfg → result E U).

Record Zone := { zone_suffix : str; zone_upstream : U; zone_breaker : Breaker }.

(** The loop of [ForwardingRouter::new]. *)
Fixpoint build_zones (zones : list Cfg) : result E (list Zone) :=
  match zones with
  | [] => Ok []
  | zone_cfg :: rest =>
    let? upstream := build_upstream zone_cfg in
    let? built := build_zones rest in
    Ok ({| zone_suffix := to_ascii_lowercase (cfg_suffix zone_cfg); zone_upstream := upstream;
           zone_breaker := breaker_new |} :: built)
  end.

(** [sort_by_key(Reverse(len))], which is stable. *)
Fixpoint insert_zone (z : Zone) (zones : list Zone) : list Zone :=
  match zones with
  | [] => [z]
  | y :: rest =>
    if length (zone_suffix y) <=? length (zone_suffix z) then z :: y :: rest else y :: insert_zone z rest
  end.

Definition sort_zones (zones : list Zone) : list Zone := foldr insert_zone [] zones.

Definition router_new (zones : list Cfg) : result E (list Zone) :=
  let? built := build_zones zones in Ok (sort_zones built).

Definition zone_matches (domain : str) (z : Zone) : option bool :=
  if bool_decide (domain = zone_suffix z) then Some true else is_subzone_of domain (zone_suffix z).

(** [find_zone], with the position of the zone; [None] is a panic. *)
Fixpoint find_zone (zones : list Zone) (domain : str) : option (option (nat * Zone)) :=
  match zones with
  | [] => Some None
  | z :: rest =>
    match zone_matches domain z with
    | None => None
    | Some true => Some (Some (0, z))
    | Some false =>
      match find_zone rest domain with
      | Some (Some (i, z)) => Some (Some (S i, z))
      | r => r
      end
    end
  end.

(** [route]: the query as each upstream would answer it is given; the breaker
    of the chosen zone is updated in place. *)
Definition route {R} (zones : list Zone) (domain : str) (ask : U → Query R) (default : result DnsError R)
  : option (result DnsError R * list Zone) :=
  match find_zone zones domain with
  | None => None
  | Some (Some (i, z)) =>
    let '(_, r, b) := breaker_lookup (zone_breaker z) (ask (zone_upstream z)) in
    Some (r, <[i := {| zone_suffix := zone_suffix z; zone_upstream := zone_upstream z; zone_breaker := b |}]> zones)
  | Some None => Some (default, zones)
  end.

(** ** Matching *)

Lemma is_subzone_of_spec domain suffix :
  is_subzone_of domain suffix = Some (bool_decide (suffix ∈ dot_suffixes domain)).
Proof.
  unfold is_subzone_of. destruct (bool_decide_reflect (suffix = [])) as [->|Hne]; cbn [orb].
  { rewrite bool_decide_eq_false_2; [done|]. by intros (? & _)%dot_suffixes_spec. }
  destruct (Nat.leb_spec (length domain) (length suffix)) as [Hl|Hl].
  { rewrite bool_decide_eq_false_2; [done|]. intros H%dot_suffixes_length. lia. }
  set (b := length domain - length suffix).
  destruct (lookup_lt_is_Some_2 domain (b - 1)) as [a Ha]; [unfold b; lia|]. rewrite Ha. f_equal.
  rewrite <-bool_decide_and. apply bool_decide_ext. rewrite dot_suffixes_spec. split.
  - intros [-> Hd]. split; [done|]. exists (take (b - 1) domain).
    rewrite <-Hd, <-(take_drop_middle domain (b - 1) DOT Ha) at 1.
    replace (S (b - 1)) with b by (unfold b; lia). done.
  - intros (_ & p & ->). unfold b in *. rewrite length_app in *. cbn [length] in *.
    replace (length p + S (length suffix) - length suffix) with (S (length p)) in * by lia.
    replace (S (length p) - 1) with (length p) in * by lia.
    rewrite list_lookup_middle in Ha by done. injection Ha as <-. split; [done|].
    change (DOT :: suffix) with ([DOT] ++ suffix). rewrite app_assoc.
    rewrite drop_app_length'; [done|]. rewrite length_app. cbn. lia.
Qed.

#[local] Instance covers_domain_dec suffix domain : Decision (covers_domain suffix domain).
Proof. unfold covers_domain. apply _. Defined.

Lemma zone_matches_spec domain z :
  zone_matches domain z = Some (bool_decide (covers_domain (zone_suffix z) domain)).
Proof.
  unfold zone_matches, covers_domain. destruct (bool_decide_reflect (domain = zone_suffix z)) as [He|He].
  - by rewrite bool_decide_eq_true_2 by (by left).
  - rewrite is_subzone_of_spec. f_equal. apply bool_decide_ext. naive_solver.
Qed.

(** ** The longest zone *)

(** The first of the longest zones that cover a name, in configured order. *)
Fixpoint longest (domain : str) (zones : list Zone) : option Zone :=
  match zones with
  | [] => None
  | z :: rest =>
    if bool_decide (covers_domain (zone_suffix z) domain) then
      match longest domain rest with
      | Some b => if length (zone_suffix z) <? length (zone_suffix b) then Some b else Some z
      | None => Some z
      end
    else longest domain rest
  end.

Fixpoint first_match (domain : str) (zones : list Zone) : option Zone :=
  match zones with
  | [] => None
  | z :: rest => if bool_decide (covers_domain (zone_suffix z) domain) then Some z else first_match domain rest
  end.

Lemma find_zone_total zones domain :
  ∃ r, find_zone zones domain = Some r ∧ snd <$> r = first_match domain zones
    ∧ ∀ i z, r = Some (i, z) → zones !! i = Some z.
Proof.
  induction zones as [|z zones IH]; cbn [find_zone first_match]; [by exists None|].
  rewrite zone_matches_spec. destruct (bool_decide (covers_domain (zone_suffix z) domain)).
  - exists (Some (0, z)). split_and!; [done..|]. by intros i z' [= <- <-].
  - destruct IH as ([[i z']|] & -> & <- & Hi).
    + exists (Some (S i, z')). split_and!; [done..|]. intros j y [= <- <-]. by apply Hi.
    + by exists None.
Qed.

Definition longer_first (y z : Zone) : Prop := length (zone_suffix z) ≤ length (zone_suffix y).

Lemma first_match_bound domain zones z b :
  Forall (longer_first z) zones → first_match domain zones = Some b → longer_first z b.
Proof.
  induction 1 as [|y zones Hy _ IH]; cbn [first_match]; [done|].
  destruct (bool_decide _); [by intros [= <-]|done].
Qed.

Lemma insert_zone_sorted z zones :
  StronglySorted longer_first zones → StronglySorted longer_first (insert_zone z zones).
Proof.
  assert (∀ y l, Forall (longer_first y) l → longer_first y z → Forall (longer_first y) (insert_zone z l)) as Hins.
  { intros y l Hl Hz. induction Hl as [|x l Hx Hl IH]; cbn [insert_zone]; [by repeat constructor|].
    destruct (_ <=? _); by repeat constructor. }
  induction 1 as [|y zones Hs IH Hy]; cbn [insert_zone]; [by repeat constructor|].
  destruct (Nat.leb_spec (length (zone_suffix y)) (length (zone_suffix z))).
  - repeat constructor; [done..|]. eapply Forall_impl; [exact Hy|]. unfold longer_first. intros x. lia.
  - constructor; [done|]. apply Hins; [done|]. unfold longer_first. lia.
Qed.

Lemma sort_zones_sorted zones : StronglySorted longer_first (sort_zones zones).
Proof. induction zones; [constructor|]. by apply insert_zone_sorted. Qed.

Lemma first_match_insert domain z zones :
  StronglySorted longer_first zones →
  first_match domain (insert_zone z zones)
  = if bool_decide (covers_domain (zone_suffix z) domain) then
      match first_match domain zones with
      | Some b => if length (zone_suffix z) <? length (zone_suffix b) then Some b else Some z
      | None => Some z
      end
    else first_match domain zones.
Proof.
  induction 1 as [|y zones Hs IH Hy]; cbn [insert_zone]; [done|].
  destruct (Nat.leb_spec (length (zone_suffix y)) (length (zone_suffix z))) as [Hle|Hlt].
  - cbn [first_match]. destruct (bool_decide (covers_domain (zone_suffix z) domain)); [|done].
    destruct (bool_decide (covers_domain (zone_suffix y) domain)).
    + by rewrite (proj2 (Nat.ltb_ge _ _)).
    + destruct (first_match domain zones) as [b|] eqn:Ef; [|done].
      pose proof (first_match_bound _ _ _ _ Hy Ef) as Hb. unfold longer_first in Hb.
      by rewrite (proj2 (Nat.ltb_ge _ _)) by lia.
  - cbn [first_match]. rewrite IH. destruct (bool_decide (covers_domain (zone_suffix y) domain)); [|done].
    destruct (bool_decide _); [|done]. by rewrite (proj2 (Nat.ltb_lt _ _)).
Qed.

Lemma first_match_sort domain zones : first_match domain (sort_zones zones) = longest domain zones.
Proof.
  induction zones as [|z zones IH]; [done|]. change (sort_zones (z :: zones)) with (insert_zone z (sort_zones zones)).
  rewrite first_match_insert by apply sort_zones_sorted. cbn [longest]. by rewrite IH.
Qed.

Lemma longest_spec domain zones :
  match longest domain zones with
  | Some z => covers_domain (zone_suffix z) domain ∧ ∃ before after, zones = before ++ z :: after
      ∧ Forall (fun y => covers_domain (zone_suffix y) domain →
                  length (zone_suffix y) < length (zone_suffix z)) before
      ∧ Forall (fun y => covers_domain (zone_suffix y) domain →
                  length (zone_suffix y) ≤ length (zone_suffix z)) after
  | None => Forall (fun y => ¬ covers_domain (zone_suffix y) domain) zones
  end.
Proof.
  induction zones as [|z zones IH]; cbn [longest]; [done|].
  destruct (bool_decide_reflect (covers_domain (zone_suffix z) domain)) as [Hc|Hc].
  - destruct (longest domain zones) as [b|].
    + destruct IH as (Hb & before & after & -> & H1 & H2). destruct (Nat.ltb_spec (length (zone_suffix z)) (length (zone_suffix b))).
      * split; [done|]. exists (z :: before), after. split_and!; [done| |done]. by constructor.
      * split; [done|]. exists [], (before ++ b :: after). split_and!; [done|constructor|].
        apply Forall_app. split; [|constructor; [done|]]; (eapply Forall_impl; [eassumption|]); intros y Hy Hyc;
          specialize (Hy Hyc); lia.
    + split; [done|]. exists [], zones. split_and!; [done|constructor|]. eapply Forall_impl; [exact IH|]. done.
  - destruct (longest domain zones) as [b|].
    + destruct IH as (Hb & before & after & -> & H1 & H2). split; [done|].
      exists (z :: before), after. split_and!; [done| |done]. by constructor.
    + by constructor.
Qed.

(** ** Routing *)

(** What routing never changes of a zone. *)
Definition zone_entry (z : Zone) : str * U := (zone_suffix z, zone_upstream z).

Definition configured (c : Cfg) (z : Zone) : Prop :=
  zone_suffix z = to_ascii_lowercase (cfg_suffix c) ∧ build_upstream c = Ok (zone_upstream z).

Lemma build_zones_configured cfgs zones : build_zones cfgs = Ok zones → Forall2 configured cfgs zones.
Proof.
  revert zones. induction cfgs as [|c cfgs IH]; intros zones Hb; cbn [build_zones] in Hb.
  - inv_result. constructor.
  - inv_bind. inv_result. constructor; [done|]. by apply IH.
Qed.

Lemma first_match_entry domain zones zones' :
  map zone_entry zones = map zone_entry zones' →
  zone_entry <$> first_match domain zones = zone_entry <$> first_match domain zones'.
Proof.
  revert zones'. induction zones as [|z zones IH]; intros [|z' zones'] He; try done.
  cbn [map] in He. injection He as Hs Hu He. cbn [first_match]. rewrite Hs.
  destruct (bool_decide _); [|by apply IH]. cbn. unfold zone_entry. by rewrite Hs, Hu.
Qed.

Lemma route_entries {R} zones domain (ask : U → Query R) d r zones' :
  route zones domain ask d = Some (r, zones') → map zone_entry zones' = map zone_entry zones.
Proof.
  unfold route. destruct (find_zone_total zones domain) as ([[i z]|] & -> & _ & Hi); [|by intros [= _ <-]].
  specialize (Hi i z eq_refl). destruct (breaker_lookup _ _) as [[k r'] b]. intros [= _ <-].
  rewrite list_fmap_insert. apply list_insert_id. rewrite list_lookup_fmap, Hi. done.
Qed.

(** Split DNS sends a name to the longest configured zone and nowhere
    else.  Routing never panics and never changes which zones there are.  When
    some zone covers the name, the answer is that of the breaker of the longest
    such zone, the first configured one among equals, whatever the default
    upstream would say; the default upstream is asked only for names under no
    zone at all. *)
Theorem forwarding_longest_zone {R} cfgs router0 router domain (ask : U → Query R) d :
  router_new cfgs = Ok router0 → map zone_entry router = map zone_entry router0 →
  ∃ built r router', Forall2 configured cfgs built
    ∧ route router domain ask d = Some (r, router')
    ∧ map zone_entry router' = map zone_entry router0
    ∧ ((Forall (fun y => ¬ covers_domain (zone_suffix y) domain) built ∧ r = d ∧ router' = router)
       ∨ ∃ before z after z', built = before ++ z :: after ∧ covers_domain (zone_suffix z) domain
           ∧ Forall (fun y => covers_domain (zone_suffix y) domain →
                       length (zone_suffix y) < length (zone_suffix z)) before
           ∧ Forall (fun y => covers_domain (zone_suffix y) domain →
                       length (zone_suffix y) ≤ length (zone_suffix z)) after
           ∧ z' ∈ router ∧ zone_entry z' = zone_entry z
           ∧ r = (breaker_lookup (zone_breaker z') (ask (zone_upstream z))).1.2).
Proof.
  unfold router_new. intros Hn He. apply rbind_Ok in Hn as (built & Hb & Hn). injection Hn as <-.
  exists built. apply build_zones_configured in Hb.
  pose proof (longest_spec domain built) as Hl. pose proof (first_match_entry domain _ _ He) as Hm.
  rewrite first_match_sort in Hm.
  destruct (find_zone_total router domain) as (r & Hf & Hfm & Hi). rewrite <-Hfm in Hm.
  destruct (route router domain ask d) as [[res router']|] eqn:Er; cycle 1.
  { unfold route in Er. rewrite Hf in Er. destruct r as [[i z]|]; [|done]. by destruct (breaker_lookup _ _) as [[]]. }
  exists res, router'. split_and!; [done|done|by rewrite (route_entries _ _ _ _ _ _ Er)|].
  unfold route in Er. rewrite Hf in Er. destruct r as [[i z']|], (longest domain built) as [z|]; try discriminate Hm.
  - right. destruct Hl as (Hc & before & after & Hsplit & H1 & H2). injection Hm as Hs Hu.
    exists before, z, after, z'. split_and!; try done.
    + apply (list_elem_of_lookup_2 _ i). by apply Hi.
    + unfold zone_entry. by rewrite Hs, Hu.
    + rewrite <-Hu. destruct (breaker_lookup _ _) as [[k r'] b]. by injection Er as <- _.
  - left. by injection Er as <- <-.
Qed.
End Router.

(** The zones [corp.example] and [lab.corp.example], named by their position. *)
Definition sample_zones : list (str * nat) := [(lit "Corp.Example", 0); (lit "lab.corp.example", 1)].

Definition sample_build (c : str * nat) : result () nat := Ok c.2.

Definition sample_ask (u : nat) : Query nat := {| arrives := 0; answer := Ok u; answered := 0 |}.

Lemma forwarding_longest_zone_witness :
  ∃ router, router_new fst sample_build sample_zones = Ok router
    ∧ fst <$> route router (lit "db.lab.corp.example") sample_ask (Err AllUpstreamsFailed) = Some (Ok 1)
    ∧ fst <$> route router (lit "mycorp.example") sample_ask (Err AllUpstreamsFailed) = Some (Err AllUpstreamsFailed)
    ∧ ∃ built, Forall2 (configured fst sample_build) sample_zones built.
Proof.
  destruct (router_new fst sample_build sample_zones) as [router|e] eqn:E; [|vm_compute in E; done].
  exists router. split_and!; [done|..].
  1, 2: vm_compute in E; injection E as <-; vm_compute; reflexivity.
  destruct (forwarding_longest_zone fst sample_build sample_zones router router (lit "a") sample_ask (Ok 7) E eq_refl)
    as (built & _ & _ & H & _). by exists built.
Defined.
