(* ===== verification/Utf8.v ===== *)
(** * UTF-8: [str::from_utf8], [String::from_utf8_lossy], [is_char_boundary]

    The well-formed byte sequences of the standard library's decoder, lossy
    decoding with one replacement character per maximal ill-formed part, and
    the trimming facts that need to know about characters. *)

From S2P Require Import Prelude RustStr.

Definition in_range (lo hi : Z) (a : ascii) : bool := (lo <=? byte a)%Z && (byte a <=? hi)%Z.

Definition ascii_byte (a : ascii) : bool := (byte a <? 128)%Z.
Definition cont (a : ascii) : bool := in_range 128 191 a.
Definition lead2 (a : ascii) : bool := in_range 194 223 a.
Definition lead3 (a : ascii) : bool := in_range 224 239 a.
Definition lead4 (a : ascii) : bool := in_range 240 244 a.

(** The second byte allowed after a lead byte of three or four. *)
Definition second3 (a b : ascii) : bool :=
  if (byte a =? 224)%Z then in_range 160 191 b
  else if (byte a =? 237)%Z then in_range 128 159 b else cont b.
Definition second4 (a b : ascii) : bool :=
  if (byte a =? 240)%Z then in_range 144 191 b
  else if (byte a =? 244)%Z then in_range 128 143 b else cont b.

(** [str::from_utf8(..).is_ok()] *)
Fixpoint utf8_valid (s : str) : bool :=
  match s with
  | [] => true
  | a :: s1 =>
    if ascii_byte a then utf8_valid s1
    else if lead2 a then
      match s1 with b :: s2 => cont b && utf8_valid s2 | _ => false end
    else if lead3 a then
      match s1 with b :: c :: s3 => second3 a b && cont c && utf8_valid s3 | _ => false end
    else if lead4 a then
      match s1 with b :: c :: d :: s4 => second4 a b && cont c && cont d && utf8_valid s4 | _ => false end
    else false
  end.

(** U+FFFD *)
Definition REPLACEMENT : str := [ascii_of_N 239; ascii_of_N 191; ascii_of_N 189].

Fixpoint from_utf8_lossy (s : str) : str :=
  match s with
  | [] => []
  | a :: s1 =>
    if ascii_byte a then a :: from_utf8_lossy s1
    else if lead2 a then
      match s1 with
      | b :: s2 => if cont b then a :: b :: from_utf8_lossy s2 else REPLACEMENT ++ from_utf8_lossy s1
      | [] => REPLACEMENT
      end
    else if lead3 a then
      match s1 with
      | b :: s2 =>
        if second3 a b then
          match s2 with
          | c :: s3 => if cont c then a :: b :: c :: from_utf8_lossy s3 else REPLACEMENT ++ from_utf8_lossy s2
          | [] => REPLACEMENT
          end
        else REPLACEMENT ++ from_utf8_lossy s1
      | [] => REPLACEMENT
      end
    else if lead4 a then
      match s1 with
      | b :: s2 =>
        if second4 a b then
          match s2 with
          | c :: s3 =>
            if cont c then
              match s3 with
              | d :: s4 =>
                if cont d then a :: b :: c :: d :: from_utf8_lossy s4 else REPLACEMENT ++ from_utf8_lossy s3
              | [] => REPLACEMENT
              end
            else REPLACEMENT ++ from_utf8_lossy s2
          | [] => REPLACEMENT
          end
        else REPLACEMENT ++ from_utf8_lossy s1
      | [] => REPLACEMENT
      end
    else REPLACEMENT ++ from_utf8_lossy s1
  end.

(** [str::is_char_boundary] *)
Definition is_char_boundary (s : str) (i : nat) : bool :=
  (i =? 0) || match s !! i with
              | Some a => negb (cont a)
              | None => i =? length s
              end.

(** Induction over the characters of valid text. *)
Lemma utf8_ind (P : str → Prop) :
  P [] →
  (∀ a s, ascii_byte a = true → utf8_valid s = true → P s → P (a :: s)) →
  (∀ a b s, ascii_byte a = false → lead2 a = true → cont b = true → utf8_valid s = true → P s → P (a :: b :: s)) →
  (∀ a b c s, ascii_byte a = false → lead2 a = false → lead3 a = true → second3 a b = true → cont c = true →
     utf8_valid s = true → P s → P (a :: b :: c :: s)) →
  (∀ a b c d s, ascii_byte a = false → lead2 a = false → lead3 a = false → lead4 a = true → second4 a b = true →
     cont c = true → cont d = true → utf8_valid s = true → P s → P (a :: b :: c :: d :: s)) →
  ∀ s, utf8_valid s = true → P s.
Proof.
  intros H0 H1 H2 H3 H4 s. cut (∀ n s, length s ≤ n → utf8_valid s = true → P s); [eauto|].
  clear s. induction n as [|n IH]; intros s Hn Hv; [by destruct s; cbn in *; [|lia]|].
  destruct s as [|a s1]; [done|]. cbn [length utf8_valid] in *.
  destruct (ascii_byte a) eqn:Ea; [by apply H1; [..|apply IH; [lia|]]|].
  destruct (lead2 a) eqn:E2.
  { destruct s1 as [|b s2]; [done|]. apply andb_true_iff in Hv as [Hb Hv]. cbn [length] in Hn.
    apply H2; try done. apply IH; [lia|done]. }
  destruct (lead3 a) eqn:E3.
  { destruct s1 as [|b [|c s3]]; [done..|]. apply andb_true_iff in Hv as [[Hb Hc]%andb_true_iff Hv]. cbn [length] in Hn.
    apply H3; try done. apply IH; [lia|done]. }
  destruct (lead4 a) eqn:E4; [|done].
  destruct s1 as [|b [|c [|d s4]]]; [done..|].
  apply andb_true_iff in Hv as [[[Hb Hc]%andb_true_iff Hd]%andb_true_iff Hv]. cbn [length] in Hn.
  apply H4; try done. apply IH; [lia|done].
Qed.

(** Lossy decoding leaves valid text alone. *)
Lemma from_utf8_lossy_valid s : utf8_valid s = true → from_utf8_lossy s = s.
Proof.
  revert s. apply utf8_ind; cbn [from_utf8_lossy].
  - done.
  - intros a s Ha _ IH. by rewrite Ha, IH.
  - intros a b s -> -> -> _ ->. done.
  - intros a b c s -> -> -> -> -> _ ->. done.
  - intros a b c d s -> -> -> -> -> -> -> _ ->. done.
Qed.

(** Valid text is cut anywhere before an ASCII byte into valid parts. *)
Lemma utf8_valid_app s t :
  utf8_valid s = true → utf8_valid (s ++ t) = utf8_valid t.
Proof.
  revert s. apply (utf8_ind (fun s => utf8_valid (s ++ t) = utf8_valid t)); cbn [app utf8_valid].
  - done.
  - intros a s -> _ IH. done.
  - intros a b s -> -> -> _ IH. done.
  - intros a b c s -> -> -> -> -> _ IH. done.
  - intros a b c d s -> -> -> -> -> -> -> _ IH. done.
Qed.

Lemma cont_not_ascii a : cont a = true → ascii_byte a = false.
Proof. unfold cont, in_range, ascii_byte. lia. Qed.

Lemma second3_cont a b : second3 a b = true → cont b = true.
Proof. unfold second3, cont, in_range. repeat case_match; lia. Qed.

Lemma second4_cont a b : second4 a b = true → cont b = true.
Proof. unfold second4, cont, in_range. repeat case_match; lia. Qed.

(** A prefix that ends with an ASCII byte holds whole characters. *)
Lemma utf8_valid_prefix s x t :
  ascii_byte x = true → utf8_valid (s ++ x :: t) = true → utf8_valid (s ++ [x]) = true ∧ utf8_valid t = true.
Proof.
  intros Hx Hv. remember (s ++ x :: t) as u eqn:Eu. revert s Eu. revert u Hv.
  apply (utf8_ind (fun u => ∀ s, u = s ++ x :: t → utf8_valid (s ++ [x]) = true ∧ utf8_valid t = true)).
  - intros s Hs. by destruct s.
  - intros a u Ha Hu IH s Hs. destruct s as [|y s]; injection Hs as -> Hs.
    + subst u. cbn [app utf8_valid]. by rewrite Hx.
    + destruct (IH s Hs) as [H1 H2]. cbn [app utf8_valid]. by rewrite Ha, H1.
  - intros a b u Ha H2 Hb Hu IH s Hs. apply cont_not_ascii in Hb as Hb'.
    destruct s as [|y [|z s]]; [injection Hs as -> _; congruence|injection Hs as -> -> _; congruence|].
    injection Hs as -> -> Hs. destruct (IH s Hs) as [H1 H3]. cbn [app utf8_valid]. by rewrite Ha, H2, Hb, H1.
  - intros a b c u Ha H2 H3 Hb Hc Hu IH s Hs. pose proof (cont_not_ascii _ (second3_cont _ _ Hb)) as Hb'.
    apply cont_not_ascii in Hc as Hc'.
    destruct s as [|y [|z [|w s]]]; [injection Hs as -> _; congruence|injection Hs as -> -> _; congruence
      |injection Hs as -> -> -> _; congruence|].
    injection Hs as -> -> -> Hs. destruct (IH s Hs) as [H1 H4]. cbn [app utf8_valid]. by rewrite Ha, H2, H3, Hb, Hc, H1.
  - intros a b c d u Ha H2 H3 H4 Hb Hc Hd Hu IH s Hs. pose proof (cont_not_ascii _ (second4_cont _ _ Hb)) as Hb'.
    apply cont_not_ascii in Hc as Hc'. apply cont_not_ascii in Hd as Hd'.
    destruct s as [|y [|z [|w [|v s]]]]; [injection Hs as -> _; congruence|injection Hs as -> -> _; congruence
      |injection Hs as -> -> -> _; congruence|injection Hs as -> -> -> -> _; congruence|].
    injection Hs as -> -> -> -> Hs. destruct (IH s Hs) as [H1 H5]. cbn [app utf8_valid]. by rewrite Ha, H2, H3, H4, Hb, Hc, Hd, H1.
Qed.

(** ** Line ends are white space *)

Lemma trim_start_snoc s w :
  ws1 w = true → trim_start (s ++ [w]) = match trim_start s with [] => [] | t => t ++ [w] end.
Proof.
  intros Hw. assert (∀ a, ws2 a w = false) as H2 by (unfold ws1, ws2 in *; lia).
  assert (∀ a b, ws3 a b w = false) as H3 by (unfold ws1, ws3 in *; lia).
  cut (∀ n s, length s ≤ n → trim_start (s ++ [w]) = match trim_start s with [] => [] | t => t ++ [w] end); [eauto|].
  clear s. induction n as [|n IH]; intros s Hn; [destruct s; cbn [length] in *; [|lia]; cbn; by rewrite Hw|].
  destruct s as [|a s1]; [cbn; by rewrite Hw|]. cbn [length] in Hn. cbn [app trim_start].
  destruct (ws1 a); [apply IH; lia|]. destruct s1 as [|b s2]; cbn [app].
  { by rewrite H2. }
  destruct (ws2 a b); [apply IH; cbn [length] in Hn; lia|]. destruct s2 as [|c s3]; cbn [app].
  { by rewrite H3. }
  destruct (ws3 a b c); [apply IH; cbn [length] in Hn; lia|done].
Qed.

Lemma trim_snoc s w : ws1 w = true → trim (s ++ [w]) = trim s.
Proof.
  intros Hw. unfold trim. rewrite trim_start_snoc by done. destruct (trim_start s) as [|a t]; [done|].
  unfold trim_end. rewrite rev_app_distr. cbn [rev app trim_start_rev]. by rewrite Hw.
Qed.

Lemma trim_strip_eol raw : trim (strip_eol raw) = trim raw.
Proof.
  unfold strip_eol. destruct (strip_suffix [NL] raw) as [l|] eqn:E; [|done].
  apply strip_suffix_Some in E as ->. rewrite trim_snoc by done.
  destruct (strip_suffix [CR] l) as [l'|] eqn:E'; [|done]. apply strip_suffix_Some in E' as ->.
  cbn [default from_option id]. by rewrite trim_snoc.
Qed.
