(* ===== verification/ListParser.v ===== *)
(** * Downloaded lists: [src/lists/detector.rs], [src/lists/parser.rs]

    Format detection, the three line extractors, the per-line skeleton behind
    a sink, the parser of whole texts and the streaming parser with its line
    bound and its detection window.  [ParsedCounts] is [src/lists/status.rs]. *)

From S2P Require Import Prelude RustStr Utf8 Domain.

(** ** Detection *)

Inductive ListFormat := DomainOnly | Hosts | AdGuard.

#[export] Instance ListFormat_eq_dec : EqDecision ListFormat.
Proof. solve_decision. Defined.

Definition DETECT_LINES : nat := 10.

Definition is_comment (trimmed : str) : bool :=
  bool_decide (trimmed = []) || starts_with (lit "#") trimmed || starts_with (lit "!") trimmed.

(** The loop of [detect_format], with the number of lines checked so far. *)
Fixpoint detect_lines (checked : nat) (ls : list str) : ListFormat :=
  match ls with
  | [] => DomainOnly
  | line :: rest =>
    let trimmed := trim line in
    if is_comment trimmed then detect_lines checked rest
    else if DETECT_LINES <=? checked then DomainOnly
    else if starts_with (lit "||") trimmed || starts_with (lit "@@||") trimmed then AdGuard
    else if starts_with (lit "0.0.0.0 ") trimmed || starts_with (lit "127.0.0.1 ") trimmed then Hosts
    else detect_lines (S checked) rest
  end.

Definition detect_format (content : str) : ListFormat := detect_lines 0 (lines content).

(** ** Counts *)

Definition MAX_SKIPPED_SAMPLES : nat := 32.
Definition MAX_SKIPPED_SAMPLE_BYTES : nat := 256.

Record ParsedCounts := {
  parsed_ok : Z; unique_domains : Z; parsed_skipped : Z;
  parsed_skipped_samples : list str; parsed_truncated : Z }.

Definition no_counts : ParsedCounts :=
  {| parsed_ok := 0; unique_domains := 0; parsed_skipped := 0; parsed_skipped_samples := []; parsed_truncated := 0 |}.

(** The walk back to a character boundary. *)
Fixpoint boundary_at_or_below (line : str) (end_ : nat) : nat :=
  match end_ with
  | 0 => 0
  | S e => if is_char_boundary line end_ then end_ else boundary_at_or_below line e
  end.

(** U+2026 *)
Definition ELLIPSIS : str := [ascii_of_N 226; ascii_of_N 128; ascii_of_N 166].

Definition truncate_sample (line : str) : str :=
  if length line <=? MAX_SKIPPED_SAMPLE_BYTES then line
  else take (boundary_at_or_below line MAX_SKIPPED_SAMPLE_BYTES) line ++ ELLIPSIS.

Definition push_skipped (c : ParsedCounts) (line : str) : ParsedCounts :=
  {| parsed_ok := parsed_ok c; unique_domains := unique_domains c; parsed_skipped := parsed_skipped c + 1;
     parsed_skipped_samples :=
       if length (parsed_skipped_samples c) <? MAX_SKIPPED_SAMPLES
       then parsed_skipped_samples c ++ [truncate_sample line] else parsed_skipped_samples c;
     parsed_truncated := parsed_truncated c |}.

Definition count_ok (c : ParsedCounts) : ParsedCounts :=
  {| parsed_ok := parsed_ok c + 1; unique_domains := unique_domains c; parsed_skipped := parsed_skipped c;
     parsed_skipped_samples := parsed_skipped_samples c; parsed_truncated := parsed_truncated c |}.

Definition count_truncated (c : ParsedCounts) : ParsedCounts :=
  {| parsed_ok := parsed_ok c; unique_domains := unique_domains c; parsed_skipped := parsed_skipped c;
     parsed_skipped_samples := parsed_skipped_samples c; parsed_truncated := parsed_truncated c + 1 |}.

Definition with_unique (c : ParsedCounts) (n : Z) : ParsedCounts :=
  {| parsed_ok := parsed_ok c; unique_domains := n; parsed_skipped := parsed_skipped c;
     parsed_skipped_samples := parsed_skipped_samples c; parsed_truncated := parsed_truncated c |}.

(** ** Extraction *)

Inductive LineDecision := Skip | SkipCounted | Candidate (raw : str).

Definition domain_extract (line : str) : LineDecision := Candidate line.

Definition HOSTS_SKIP : list str :=
  [lit "localhost"; lit "localhost.localdomain"; lit "local"; lit "broadcasthost"; lit "ip6-localhost";
   lit "ip6-loopback"].

Definition hosts_extract (trimmed : str) : LineDecision :=
  let stripped := trim_end (default trimmed (head (split "#"%char trimmed))) in
  let after_ip :=
    match strip_prefix (lit "0.0.0.0") stripped with
    | Some rest => Some (trim_start rest)
    | None => trim_start <$> strip_prefix (lit "127.0.0.1") stripped
    end in
  match after_ip with
  | None => Skip
  | Some domain =>
    let domain := default domain (first_word domain) in
    if bool_decide (domain = []) || existsb (eq_ignore_ascii_case domain) HOSTS_SKIP then Skip
    else Candidate domain
  end.

Definition has_important (mods : str) : bool :=
  existsb (fun m => eq_ignore_ascii_case (trim m) (lit "important")) (split ","%char mods).

Definition adguard_extract (line : str) : LineDecision :=
  if starts_with (lit "@@") line then SkipCounted
  else if starts_with (lit "/") line then SkipCounted
  else
    match strip_prefix (lit "||") line with
    | None => Skip
    | Some rest =>
      let '(before_mod, modifiers) :=
        match split_once "$"%char rest with
        | Some (b, m) => (b, Some m)
        | None => (rest, None)
        end in
      if match modifiers with Some mods => has_important mods | None => false end then SkipCounted
      else
        let domain := default before_mod (strip_suffix (lit "^") before_mod) in
        if contains "*"%char domain then SkipCounted else Candidate domain
    end.

Definition extractor (f : ListFormat) : str → LineDecision :=
  match f with DomainOnly => domain_extract | Hosts => hosts_extract | AdGuard => adguard_extract end.

(** ** Sinks *)

(** The errors of the streaming parser; a sink may fail with any of its own. *)
Inductive IoError := LineTooLong | InvalidUtf8 | RefreshCancelled | SinkFailed (e : str).

(** [DomainSink]: a failed accept leaves the sink as it then is. *)
Class DomainSink (S : Type) := accept : S → str → Z → S * result IoError ().

(** [MapSink]: a map of tagged domains and the count of fresh tags. *)
Definition MapSink : Type := gmap str Z * Z.

#[export] Instance map_sink : DomainSink MapSink := fun '(m, unique) domain bit =>
  let entry := default 0%Z (m !! domain) in
  ((<[domain := Z.lor entry bit]> m, if (Z.land entry bit =? 0)%Z then (unique + 1)%Z else unique), Ok ()).

(** [CountSink] keeps nothing. *)
#[export] Instance count_sink : DomainSink () := fun _ _ _ => ((), Ok ()).

(** ** The skeleton *)

Section Skeleton.
Context {S : Type} `{DomainSink S}.

(** The sink, the number of accepted entries and the counts. *)
Record Progress := { pg_sink : S; pg_count : Z; pg_counts : ParsedCounts }.

Definition fresh (sink : S) : Progress := {| pg_sink := sink; pg_count := 0; pg_counts := no_counts |}.

Definition with_counts (st : Progress) (c : ParsedCounts) : Progress :=
  {| pg_sink := pg_sink st; pg_count := pg_count st; pg_counts := c |}.

Definition apply_line (bit max_entries : Z) (extract : str → LineDecision) (trimmed : str) (st : Progress)
  : Progress * result IoError () :=
  if is_comment trimmed then (st, Ok ())
  else
    match extract trimmed with
    | Skip => (st, Ok ())
    | SkipCounted => (with_counts st (push_skipped (pg_counts st) trimmed), Ok ())
    | Candidate raw =>
      let domain := default raw (strip_suffix (lit ".") raw) in
      if negb (bool_decide (domain = [])) && is_valid_domain domain then
        if (max_entries <=? pg_count st)%Z then (with_counts st (count_truncated (pg_counts st)), Ok ())
        else
          match accept (pg_sink st) (to_ascii_lowercase domain) bit with
          | (sink, Err e) => ({| pg_sink := sink; pg_count := pg_count st; pg_counts := pg_counts st |}, Err e)
          | (sink, Ok _) =>
            ({| pg_sink := sink; pg_count := pg_count st + 1; pg_counts := count_ok (pg_counts st) |}, Ok ())
          end
      else (with_counts st (push_skipped (pg_counts st) trimmed), Ok ())
    end.

Fixpoint apply_lines (bit max_entries : Z) (extract : str → LineDecision) (ls : list str) (st : Progress)
  : Progress * result IoError () :=
  match ls with
  | [] => (st, Ok ())
  | line :: rest =>
    match apply_line bit max_entries extract (trim line) st with
    | (st, Err e) => (st, Err e)
    | (st, Ok _) => apply_lines bit max_entries extract rest st
    end
  end.

Definition parse_lines_into_sink (content : str) (bit : Z) (sink : S) (max_entries : Z)
    (extract : str → LineDecision) : Progress * result IoError () :=
  apply_lines bit max_entries extract (lines content) (fresh sink).

(** ** The streaming skeleton *)

Definition STREAMING_LINE_MAX_BYTES : Z := 64 * 1024.
Definition DETECT_PREFIX_MAX_LINES : nat := 256.
Definition DETECT_PREFIX_MAX_BYTES : Z := 64 * 1024.

(** [reader.take(limit).read_until(b'\n')]: what was read and what is left. *)
Fixpoint read_until (limit : Z) (reader : str) : str * str :=
  match reader with
  | [] => ([], [])
  | a :: rest =>
    if (limit <=? 0)%Z then ([], reader)
    else if decide (a = NL) then ([a], rest)
    else let '(line, rest') := read_until (limit - 1) rest in (a :: line, rest')
  end.

(** The length of a line without its terminator; a bare CR belongs to it. *)
Definition payload_len (line : str) : Z :=
  match last line with
  | Some a =>
    if decide (a = NL) then
      let before := take (length line - 1) line in
      Z.of_nat (length before) - match last before with Some b => if decide (b = CR) then 1 else 0 | None => 0 end
    else Z.of_nat (length line)
  | None => Z.of_nat (length line)
  end.

(** [read_bounded_line]: the next line, or [None] at the end. *)
Definition read_bounded_line (reader : str) : result IoError (option str) * str :=
  let '(line, rest) := read_until (STREAMING_LINE_MAX_BYTES + 2) reader in
  if bool_decide (line = []) then (Ok None, rest)
  else if (STREAMING_LINE_MAX_BYTES <? payload_len line)%Z then (Err LineTooLong, rest)
  else (Ok (Some line), rest).

(** The cancellation signal as the checkpoints see it, numbered in order. *)
Variable cancelled : nat → bool.

Definition io_checkpoint (n : nat) : result IoError () := if cancelled n then Err RefreshCancelled else Ok ().

Inductive LoopResult := Finished (st : Progress) (r : result IoError ()) | OutOfFuel.

(** The loop of [parse_lines_into_sink_reader], from checkpoint [n]. *)
Fixpoint reader_loop (fuel : nat) (bit max_entries : Z) (extract : str → LineDecision) (n : nat) (reader : str)
    (st : Progress) : LoopResult :=
  match fuel with
  | 0 => OutOfFuel
  | Datatypes.S fuel =>
    match io_checkpoint n with
    | Err e => Finished st (Err e)
    | Ok _ =>
      match read_bounded_line reader with
      | (Err e, _) => Finished st (Err e)
      | (Ok None, _) => Finished st (Ok ())
      | (Ok (Some line), rest) =>
        if utf8_valid line then
          match apply_line bit max_entries extract (trim line) st with
          | (st, Err e) => Finished st (Err e)
          | (st, Ok _) => reader_loop fuel bit max_entries extract (Datatypes.S n) rest st
          end
        else Finished st (Err InvalidUtf8)
      end
    end
  end.

(** Every turn reads a byte or ends: one more turn than bytes is enough. *)
Definition parse_lines_into_sink_reader (n : nat) (reader : str) (bit : Z) (sink : S) (max_entries : Z)
    (extract : str → LineDecision) : LoopResult :=
  reader_loop (Datatypes.S (length reader)) bit max_entries extract n reader (fresh sink).

(** The sniffing loop: at most [turns] lines within [limit] bytes. *)
Fixpoint sniff_loop (turns n : nat) (limit : Z) (reader prefix : str) : result IoError (str * str * nat) :=
  match turns with
  | 0 => Ok (prefix, reader, n)
  | Datatypes.S turns =>
    let? _ := io_checkpoint n in
    let '(line, rest) := read_until limit reader in
    if bool_decide (line = []) then Ok (prefix, rest, Datatypes.S n)
    else sniff_loop turns (Datatypes.S n) (limit - Z.of_nat (length line)) rest (prefix ++ line)
  end.

(** [sniff_format_reader], with the next checkpoint. *)
Definition sniff_format_reader (reader : str) : result IoError (ListFormat * str * str * nat) :=
  let? sniffed := sniff_loop DETECT_PREFIX_MAX_LINES 0 DETECT_PREFIX_MAX_BYTES reader [] in
  let '(prefix, rest, n) := sniffed in
  Ok (detect_format (from_utf8_lossy prefix), prefix, rest, n).

Definition parse_list_streaming (reader : str) (bit : Z) (sink : S) (max_entries : Z) (declared : option ListFormat)
  : LoopResult :=
  let sniffed :=
    match declared with
    | Some f => Ok (f, [], reader, 0)
    | None => sniff_format_reader reader
    end in
  match sniffed with
  | Err e => Finished (fresh sink) (Err e)
  | Ok (f, prefix, rest, n) => parse_lines_into_sink_reader n (prefix ++ rest) bit sink max_entries (extractor f)
  end.
End Skeleton.
Arguments Progress : clear implicits.
Arguments LoopResult : clear implicits.

(** ** Into a map *)

Definition parse_list_into_map (content : str) (bit : Z) (m : gmap str Z) (max_entries : Z)
    (declared : option ListFormat) : gmap str Z * ParsedCounts :=
  let f := default (detect_format content) declared in
  let '(st, _) := parse_lines_into_sink (S := MapSink) content bit (m, 0%Z) max_entries (extractor f) in
  ((pg_sink st).1, with_unique (pg_counts st) (pg_sink st).2).

(** [parse_list_into_map_reader]: the map as it is left, and the result. *)
Definition parse_list_into_map_reader (cancelled : nat → bool) (reader : str) (bit : Z) (m : gmap str Z)
    (max_entries : Z) (declared : option ListFormat) : option (gmap str Z * result IoError ParsedCounts) :=
  match parse_list_streaming (S := MapSink) cancelled reader bit (m, 0%Z) max_entries declared with
  | OutOfFuel => None
  | Finished st r => Some ((pg_sink st).1, let? _ := r in Ok (with_unique (pg_counts st) (pg_sink st).2))
  end.

Definition count_list_entries (content : str) (f : ListFormat) : Z :=
  parsed_ok (pg_counts (parse_lines_into_sink content 1 () USIZE_MAX (extractor f)).1).
