(* ===== verification/ListStream.v ===== *)
(** * Correctness of the streaming list parser

    Whatever the bytes, the streaming parser treats a list as its physical
    lines, one after the other, up to the first that is too long or is not
    UTF-8; on text within its bounds it is the parser of whole texts. *)

From S2P Require Import Prelude RustStr Utf8 Domain ListParser.

(** ** Reading lines *)

(** The first physical line of a text. *)
Definition line_of (raw rest : str) : Prop :=
  raw ≠ [] ∧ NL ∉ take (length raw - 1) raw ∧ (last raw = Some NL ∨ rest = []).

Lemma body_cons (a : ascii) raw :
  raw ≠ [] → take (length (a :: raw) - 1) (a :: raw) = a :: take (length raw - 1) raw.
Proof.
  intros Hr. destruct raw as [|b raw]; [done|]. cbn [length].
  by replace (S (S (length raw)) - 1) with (S (S (length raw) - 1)) by lia.
Qed.

Lemma split_first_line s :
  s ≠ [] → ∃ raw rest, s = raw ++ rest ∧ split_inclusive NL s = raw :: split_inclusive NL rest ∧ line_of raw rest.
Proof.
  induction s as [|a s IH]; [done|]. intros _. cbn [split_inclusive].
  destruct (decide (a = NL)) as [->|Hne].
  { exists [NL], s. split_and!; try done. split_and!; [done|set_solver|by left]. }
  destruct (decide (s = [])) as [->|Hs].
  { exists [a], []. split_and!; try done. split_and!; [done|set_solver|by right]. }
  destruct (IH Hs) as (raw & rest & -> & -> & Hr & Hn & Hl). exists (a :: raw), rest. split_and!; try done.
  split_and!; [done| |].
  - rewrite body_cons, not_elem_of_cons by done. by split; [congruence|].
  - destruct raw; [done|]. done.
Qed.

Lemma read_until_line limit raw rest :
  line_of raw rest →
  read_until limit (raw ++ rest)
  = if (Z.of_nat (length raw) <=? limit)%Z then (raw, rest)
    else (take (Z.to_nat limit) raw, drop (Z.to_nat limit) raw ++ rest).
Proof.
  revert limit. induction raw as [|a raw IH]; intros limit (Hne & Hn & Hl); [done|]. clear Hne.
  cbn [app read_until length]. destruct (Z.leb_spec limit 0) as [H0|H0].
  { rewrite (proj2 (Z.leb_gt _ _)) by lia. by replace (Z.to_nat limit) with 0 by lia. }
  destruct (decide (raw = [])) as [->|Hr].
  { cbn [length]. rewrite (proj2 (Z.leb_le _ _)) by lia. destruct (decide (a = NL)); [done|].
    destruct Hl as [[= ?]| ->]; [done|]. done. }
  assert (a ≠ NL ∧ line_of raw rest) as [Ha Hline].
  { rewrite body_cons, not_elem_of_cons in Hn by done. destruct Hn as [Ha Hn]. split; [congruence|].
    split_and!; [done..|]. by destruct raw. }
  rewrite decide_False by done. rewrite (IH (limit - 1)%Z Hline).
  destruct (Z.leb_spec (Z.of_nat (length raw)) (limit - 1)), (Z.leb_spec (Z.of_nat (S (length raw))) limit); try lia; [done|].
  replace (Z.to_nat limit) with (S (Z.to_nat (limit - 1))) by lia. done.
Qed.

Lemma payload_bounds raw :
  (Z.of_nat (length raw) - 2 ≤ payload_len raw ≤ Z.of_nat (length raw))%Z.
Proof.
  unfold payload_len. destruct (last raw) as [a|] eqn:El; [|lia]. destruct (decide (a = NL)); [|lia].
  assert (0 < length raw) by (destruct raw; [done|cbn; lia]).
  rewrite length_take. repeat case_match; lia.
Qed.

Lemma payload_no_newline raw : NL ∉ raw → payload_len raw = Z.of_nat (length raw).
Proof.
  intros Hn. unfold payload_len. destruct (last raw) as [a|] eqn:El; [|done].
  destruct (decide (a = NL)) as [->|]; [|done]. apply last_Some_app in El as [l ->]. set_solver.
Qed.

(** The reader's verdict on a physical line is the bound on its payload. *)
Lemma read_bounded_line_spec raw rest :
  line_of raw rest →
  if (STREAMING_LINE_MAX_BYTES <? payload_len raw)%Z
  then (read_bounded_line (raw ++ rest)).1 = Err LineTooLong
  else read_bounded_line (raw ++ rest) = (Ok (Some raw), rest).
Proof.
  intros Hline. unfold read_bounded_line. rewrite read_until_line by done. pose proof (payload_bounds raw) as Hp.
  destruct Hline as (Hne & Hn & _). assert (0 ≤ STREAMING_LINE_MAX_BYTES)%Z as H0 by done.
  revert H0. generalize STREAMING_LINE_MAX_BYTES as cap. intros cap H0.
  destruct (Z.leb_spec (Z.of_nat (length raw)) (cap + 2)) as [Hle|Hgt].
  - rewrite bool_decide_eq_false_2 by done. by destruct (_ <? _)%Z.
  - rewrite (proj2 (Z.ltb_lt _ (payload_len raw))) by lia. set (k := Z.to_nat (cap + 2)) in *.
    assert (k < length raw) as Hk by (unfold k; lia). assert (0 < k) as Hk0 by (unfold k; lia).
    rewrite bool_decide_eq_false_2 by (intros E%(f_equal length); rewrite length_take in E; cbn in E; lia).
    rewrite payload_no_newline; [|].
    + rewrite length_take, Nat.min_l by lia. rewrite (proj2 (Z.ltb_lt _ _)); [done|]. unfold k. lia.
    + intros Hin. apply Hn. apply elem_of_take in Hin as (i & Hi & Hlt).
      apply elem_of_take. exists i. split; [done|]. lia.
Qed.

(** ** The loop over physical lines *)

(** What is wrong with a physical line, if anything. *)
Definition line_fault (raw : str) : option IoError :=
  if (STREAMING_LINE_MAX_BYTES <? payload_len raw)%Z then Some LineTooLong
  else if utf8_valid raw then None else Some InvalidUtf8.

Section Loop.
Context {S : Type} `{DomainSink S}.
Variable cancelled : nat → bool.
Variables (bit max_entries : Z) (extract : str → LineDecision).

(** The streaming parse as a fold over physical lines. *)
Fixpoint over_lines (n : nat) (raws : list str) (st : Progress S) : Progress S * result IoError () :=
  if cancelled n then (st, Err RefreshCancelled)
  else
    match raws with
    | [] => (st, Ok ())
    | raw :: rest =>
      match line_fault raw with
      | Some e => (st, Err e)
      | None =>
        match apply_line bit max_entries extract (trim raw) st with
        | (st, Err e) => (st, Err e)
        | (st, Ok _) => over_lines (Datatypes.S n) rest st
        end
      end
    end.

Lemma reader_loop_lines fuel n reader st :
  length reader < fuel →
  reader_loop cancelled fuel bit max_entries extract n reader st
  = let '(st', r) := over_lines n (split_inclusive NL reader) st in Finished st' r.
Proof.
  revert n reader st. induction fuel as [|fuel IH]; intros n reader st Hf; [lia|]. cbn [reader_loop].
  unfold io_checkpoint. destruct (decide (reader = [])) as [->|Hne].
  { cbn [split_inclusive over_lines]. by destruct (cancelled n). }
  destruct (split_first_line reader Hne) as (raw & rest & -> & -> & Hline). cbn [over_lines].
  destruct (cancelled n); [done|]. pose proof (read_bounded_line_spec raw rest Hline) as Hr. unfold line_fault.
  destruct (_ <? payload_len raw)%Z.
  { destruct (read_bounded_line (raw ++ rest)) as [[o|e] r]; [done|]. by injection Hr as ->. }
  rewrite Hr. destruct (utf8_valid raw); [|done].
  destruct (apply_line bit max_entries extract (trim raw) st) as [st' [[]|e]]; [|done].
  apply IH. destruct Hline as (Hn & _). destruct raw; [done|]. rewrite length_app in Hf. cbn [length] in Hf. lia.
Qed.

Lemma over_lines_good n good rest st st' :
  (∀ k, cancelled k = false) → Forall (fun raw => line_fault raw = None) good →
  apply_lines bit max_entries extract good st = (st', Ok ()) →
  over_lines n (good ++ rest) st = over_lines (n + length good) rest st'.
Proof.
  intros Hc Hg. revert n st. induction Hg as [|raw good Hr Hg IH]; intros n st Ha; cbn [app over_lines apply_lines] in *.
  { injection Ha as <-. by rewrite Nat.add_0_r. }
  rewrite Hc, Hr. destruct (apply_line bit max_entries extract (trim raw) st) as [st1 [[]|e]]; [|done].
  rewrite (IH _ _ Ha). cbn [length]. f_equal. lia.
Qed.

Lemma over_lines_all n raws st :
  (∀ k, cancelled k = false) → Forall (fun raw => line_fault raw = None) raws →
  over_lines n raws st = apply_lines bit max_entries extract raws st.
Proof.
  intros Hc Hg. revert n st. induction Hg as [|raw raws Hr Hg IH]; intros n st; cbn [over_lines apply_lines].
  { by rewrite Hc. }
  rewrite Hc, Hr. destruct (apply_line bit max_entries extract (trim raw) st) as [st1 [[]|e]]; [|done]. apply IH.
Qed.

Lemma apply_lines_strip raws st :
  apply_lines bit max_entries extract (map strip_eol raws) st = apply_lines bit max_entries extract raws st.
Proof.
  revert st. induction raws as [|raw raws IH]; intros st; cbn [map apply_lines]; [done|].
  rewrite trim_strip_eol. destruct (apply_line _ _ _ _ _) as [st' [[]|e]]; [|done]. apply IH.
Qed.
End Loop.

Lemma valid_lines content :
  utf8_valid content = true → Forall (fun raw => utf8_valid raw = true) (split_inclusive NL content).
Proof.
  cut (∀ n content, length content ≤ n → utf8_valid content = true →
    Forall (fun raw => utf8_valid raw = true) (split_inclusive NL content)); [eauto|].
  clear content. induction n as [|n IH]; intros content Hn Hv; [destruct content; cbn in *; [constructor|lia]|].
  destruct (decide (content = [])) as [->|Hne]; [constructor|].
  destruct (split_first_line content Hne) as (raw & rest & -> & -> & Hr & _ & Hl).
  rewrite length_app in Hn. assert (length raw ≠ 0) by (by destruct raw).
  destruct Hl as [Hl| ->]; [|rewrite app_nil_r in Hv; by constructor].
  apply last_Some_app in Hl as [l ->]. rewrite <-app_assoc in Hv. cbn [app] in Hv.
  destruct (utf8_valid_prefix l NL rest) as [H1 H2]; [done..|]. constructor; [done|]. apply IH; [lia|done].
Qed.

(** ** Sniffing *)

Lemma read_until_app limit reader : let '(line, rest) := read_until limit reader in line ++ rest = reader.
Proof.
  revert limit. induction reader as [|a reader IH]; intros limit; cbn [read_until]; [done|].
  destruct (_ <=? _)%Z; [done|]. destruct (decide _); [done|]. specialize (IH (limit - 1)%Z).
  destruct (read_until _ _) as [line rest]. cbn [app]. by rewrite IH.
Qed.

Section Sniff.
Variable cancelled : nat → bool.

Lemma sniff_loop_app turns n limit reader prefix p r k :
  sniff_loop cancelled turns n limit reader prefix = Ok (p, r, k) → p ++ r = prefix ++ reader.
Proof.
  revert n limit reader prefix. induction turns as [|turns IH]; intros n limit reader prefix Hs; cbn [sniff_loop] in Hs.
  { by injection Hs as <- <- _. }
  destruct (io_checkpoint cancelled n); [|done]. cbn [rbind] in Hs. pose proof (read_until_app limit reader) as Ha.
  destruct (read_until limit reader) as [line rest]. destruct (bool_decide_reflect (line = [])) as [->|].
  - injection Hs as <- <- _. by rewrite <-Ha.
  - apply IH in Hs. by rewrite Hs, <-app_assoc, Ha.
Qed.

Lemma sniff_loop_ok turns n limit reader prefix :
  (∀ k, cancelled k = false) → ∃ p r k, sniff_loop cancelled turns n limit reader prefix = Ok (p, r, k).
Proof.
  intros Hc. revert n limit reader prefix. induction turns as [|turns IH]; intros n limit reader prefix; cbn [sniff_loop].
  { by exists prefix, reader, n. }
  unfold io_checkpoint. rewrite Hc. cbn [rbind]. destruct (read_until limit reader) as [line rest].
  destruct (bool_decide (line = [])); [by exists prefix, rest, (S n)|apply IH].
Qed.

(** A text within the window is read to its end. *)
Lemma sniff_loop_fits turns n limit reader prefix :
  (∀ k, cancelled k = false) → length (split_inclusive NL reader) ≤ turns → (Z.of_nat (length reader) ≤ limit)%Z →
  ∃ k, sniff_loop cancelled turns n limit reader prefix = Ok (prefix ++ reader, [], k).
Proof.
  intros Hc. revert n limit reader prefix. induction turns as [|turns IH]; intros n limit reader prefix Ht Hl; cbn [sniff_loop].
  { destruct (decide (reader = [])) as [->|Hne]; [exists n; by rewrite app_nil_r|].
    destruct (split_first_line reader Hne) as (raw & rest & _ & E & _). rewrite E in Ht. cbn in Ht. lia. }
  unfold io_checkpoint. rewrite Hc. cbn [rbind]. destruct (decide (reader = [])) as [->|Hne].
  { cbn [read_until]. rewrite bool_decide_eq_true_2 by done. exists (S n). by rewrite app_nil_r. }
  destruct (split_first_line reader Hne) as (raw & rest & -> & E & Hline).
  rewrite E in Ht. cbn [length] in Ht. rewrite length_app in Hl.
  rewrite read_until_line by done. rewrite (proj2 (Z.leb_le _ _)) by lia.
  rewrite bool_decide_eq_false_2 by apply Hline. rewrite app_assoc. apply IH; lia.
Qed.
End Sniff.

(** ** The streaming parser *)

Section Streaming.
Context {S : Type} `{DomainSink S}.
Variable cancelled : nat → bool.

(** A run that is not cancelled while sniffing is a fold over the lines. *)
Lemma streaming_lines reader bit (sink : S) max_entries declared :
  (∃ st e, parse_list_streaming cancelled reader bit sink max_entries declared = Finished st (Err e)
     ∧ declared = None ∧ ∃ n, cancelled n = true)
  ∨ ∃ f n, (∀ g, declared = Some g → f = g)
     ∧ (declared = None → ∃ p r, sniff_format_reader cancelled reader = Ok (f, p, r, n))
     ∧ parse_list_streaming cancelled reader bit sink max_entries declared
       = let '(st, r) := over_lines cancelled bit max_entries (extractor f) n (split_inclusive NL reader) (fresh sink) in
         Finished st r.
Proof.
  unfold parse_list_streaming, parse_lines_into_sink_reader. destruct declared as [f|].
  { right. exists f, 0. split_and!; [by intros g [= <-]|done|]. cbn [app]. apply reader_loop_lines; lia. }
  unfold sniff_format_reader. destruct (sniff_loop _ _ _ _ _ _) as [[[p r] n]|e] eqn:Es; cbn [rbind].
  - right. exists (detect_format (from_utf8_lossy p)), n. split_and!; [done|by eauto|].
    apply sniff_loop_app in Es. cbn [app] in Es. rewrite Es. apply reader_loop_lines. lia.
  - left. exists (fresh sink), e. split_and!; [done..|]. clear -Es. revert Es.
    generalize DETECT_PREFIX_MAX_LINES 0 DETECT_PREFIX_MAX_BYTES reader (@nil ascii).
    intros turns. induction turns as [|turns IH]; intros n limit rd p Es; cbn [sniff_loop] in Es; [done|].
    unfold io_checkpoint in Es. destruct (cancelled n) eqn:Ec; [by exists n|]. cbn [rbind] in Es.
    destruct (read_until limit rd) as [line rest]. destruct (bool_decide _); [done|]. by eapply IH.
Qed.

(** The streaming parser ends on every byte stream, and fails closed at
    the first physical line that is too long or is not UTF-8.  It never runs
    out of turns; without a cancellation, a faulty line ends the parse with the
    error of that line, the sink and the counts being exactly what the lines
    before it made them, and nothing of the faulty line or of anything after it
    is delivered. *)
Theorem streaming_stops_at_fault reader bit (sink : S) max_entries declared :
  (∃ st r, parse_list_streaming cancelled reader bit sink max_entries declared = Finished st r)
  ∧ ((∀ n, cancelled n = false) →
     ∃ f, (∀ g, declared = Some g → f = g) ∧
     ∀ good bad rest e st, split_inclusive NL reader = good ++ bad :: rest →
       Forall (fun raw => line_fault raw = None) good → line_fault bad = Some e →
       apply_lines bit max_entries (extractor f) good (fresh sink) = (st, Ok ()) →
       parse_list_streaming cancelled reader bit sink max_entries declared = Finished st (Err e)).
Proof.
  destruct (streaming_lines reader bit sink max_entries declared) as [(st & e & E & _ & n & Hn)|(f & n & Hf & _ & E)].
  - split; [by eexists _, _|]. intros Hc. by rewrite Hc in Hn.
  - split.
    { rewrite E. destruct (over_lines _ _ _ _ _ _ _) as [st r]. by exists st, r. }
    intros Hc. exists f. split; [done|]. intros good bad rest e st Hs Hg Hb Ha.
    rewrite E, Hs, (over_lines_good _ _ _ _ _ _ _ _ _ Hc Hg Ha). cbn [over_lines]. by rewrite Hc, Hb.
Qed.

(** On text within its bounds, the streaming parser is the parser of
    whole texts: same deliveries in the same order, same counts, same error of
    the sink.  The bounds are those documented: valid UTF-8, no physical line
    over the limit, no cancellation, and a format that is declared or that the
    sniffed prefix already shows, as it does whenever the whole text fits the
    window. *)
Theorem streaming_matches_whole content bit (sink : S) max_entries declared :
  (∀ n, cancelled n = false) → utf8_valid content = true →
  Forall (fun raw => payload_len raw ≤ STREAMING_LINE_MAX_BYTES)%Z (split_inclusive NL content) →
  (declared = None →
     (∃ p r n, sniff_format_reader cancelled content = Ok (detect_format content, p, r, n))
     ∨ (length (split_inclusive NL content) ≤ DETECT_PREFIX_MAX_LINES
        ∧ (Z.of_nat (length content) ≤ DETECT_PREFIX_MAX_BYTES)%Z)) →
  parse_list_streaming cancelled content bit sink max_entries declared
  = let '(st, r) := parse_lines_into_sink content bit sink max_entries
                      (extractor (default (detect_format content) declared)) in
    Finished st r.
Proof.
  intros Hc Hv Hl Hfmt.
  destruct (streaming_lines content bit sink max_entries declared) as [(st & e & _ & _ & n & Hn)|(f & n & Hf & Hs & ->)].
  { by rewrite Hc in Hn. }
  assert (f = default (detect_format content) declared) as ->.
  { destruct declared as [g|]; [by apply Hf|]. destruct (Hs eq_refl) as (p & r & Es).
    destruct (Hfmt eq_refl) as [(p' & r' & n' & Es')|[Hlines Hbytes]]; [rewrite Es in Es'; by injection Es' as -> _ _ _|].
    destruct (sniff_loop_fits cancelled DETECT_PREFIX_MAX_LINES 0 DETECT_PREFIX_MAX_BYTES content [] Hc Hlines Hbytes)
      as [k Ek]. unfold sniff_format_reader in Es. rewrite Ek in Es. cbn [rbind app] in Es.
    injection Es as <- _ _ _. by rewrite from_utf8_lossy_valid. }
  unfold parse_lines_into_sink, lines. rewrite apply_lines_strip, over_lines_all; [done|done|].
  apply valid_lines in Hv. rewrite Forall_forall in *. intros raw Hin. unfold line_fault.
  by rewrite (proj2 (Z.ltb_ge _ _)), (Hv raw Hin) by (by apply Hl).
Qed.
End Streaming.

(** A hosts list with a comment, behind a CRLF line end. *)
Definition sample_list : str :=
  lit "# ads" ++ [CR; NL] ++ lit "0.0.0.0 Ads.Example # inline" ++ [CR; NL] ++ lit "127.0.0.1 localhost" ++ [NL].

Lemma streaming_matches_whole_witness :
  parse_list_streaming (fun _ => false) sample_list 4 ((∅, 0%Z) : MapSink) 10 None
  = let '(st, r) := parse_lines_into_sink sample_list 4 ((∅, 0%Z) : MapSink) 10 hosts_extract in Finished st r.
Proof.
  apply (streaming_matches_whole (S := MapSink) (fun _ => false) sample_list 4 (∅, 0%Z) 10 None).
  - done.
  - vm_compute. reflexivity.
  - repeat constructor; vm_compute; discriminate.
  - intros _. right. split; [vm_compute; lia|vm_compute; discriminate].
Defined.
