(* ===== verification/ListEffect.v ===== *)
(** * What parsing a downloaded list does

    The exact effect of a list on the map of tagged domains and on the counts,
    and the sandbox around lists in AdGuard syntax. *)

From S2P Require Import Prelude RustStr Utf8 Domain Rules ListParser ListStream.

(** The domain a line contributes, if any. *)
Definition line_domain (f : ListFormat) (line : str) : option str :=
  let trimmed := trim line in
  if is_comment trimmed then None
  else
    match extractor f trimmed with
    | Candidate raw =>
      let domain := default raw (strip_suffix (lit ".") raw) in
      if bool_decide (domain ≠ []) && is_valid_domain domain then Some (to_ascii_lowercase domain) else None
    | _ => None
    end.

(** The domains of a text, in order, repetitions included. *)
Definition list_domains (f : ListFormat) (content : str) : list str := omap (line_domain f) (lines content).

(** A stored domain is valid and in lower case. *)
Definition stored_form (d : str) : Prop := is_valid_domain d = true ∧ is_lowercase d = true.

Lemma line_domain_stored f line d : line_domain f line = Some d → stored_form d.
Proof.
  unfold line_domain. destruct (is_comment _); [done|]. destruct (extractor f _) as [| |raw]; [done..|].
  destruct (bool_decide _ && is_valid_domain _) eqn:E; [|done]. apply andb_true_iff in E as [_ E]. intros [= <-].
  split; [by apply is_valid_domain_lower|apply to_ascii_lowercase_lower].
Qed.

(** ** One line *)

Definition tag (bit : Z) (s : MapSink) (d : str) : MapSink :=
  let '(m, unique) := s in
  let entry := default 0%Z (m !! d) in
  (<[d := Z.lor entry bit]> m, if (Z.land entry bit =? 0)%Z then (unique + 1)%Z else unique).

(** What a skipped line may touch. *)
Definition samples_ok (c : ParsedCounts) : Prop :=
  length (parsed_skipped_samples c) ≤ MAX_SKIPPED_SAMPLES
  ∧ Forall (fun s => length s ≤ MAX_SKIPPED_SAMPLE_BYTES + length ELLIPSIS) (parsed_skipped_samples c).

Lemma boundary_le line e : boundary_at_or_below line e ≤ e.
Proof. induction e as [|e IH]; cbn [boundary_at_or_below]; [done|]. destruct (is_char_boundary _ _); lia. Qed.

Lemma truncate_sample_length line : length (truncate_sample line) ≤ MAX_SKIPPED_SAMPLE_BYTES + length ELLIPSIS.
Proof.
  unfold truncate_sample. destruct (Nat.leb_spec (length line) MAX_SKIPPED_SAMPLE_BYTES); [lia|].
  rewrite length_app, length_take. pose proof (boundary_le line MAX_SKIPPED_SAMPLE_BYTES). lia.
Qed.

Lemma push_skipped_ok c line : samples_ok c → samples_ok (push_skipped c line).
Proof.
  intros [H1 H2]. unfold samples_ok, push_skipped. cbn [parsed_skipped_samples].
  destruct (Nat.ltb_spec (length (parsed_skipped_samples c)) MAX_SKIPPED_SAMPLES); [|done].
  rewrite length_app. cbn [length]. split; [lia|]. apply Forall_app. split; [done|].
  constructor; [apply truncate_sample_length|constructor].
Qed.

(** The relation between two states of a parse that delivered [ds]. *)
Definition delivered (bit max_entries : Z) (ds : list str) (st st' : Progress MapSink) : Prop :=
  let acc := take (Z.to_nat (max_entries - pg_count st)) ds in
  pg_sink st' = foldl (tag bit) (pg_sink st) acc
  ∧ pg_count st' = (pg_count st + Z.of_nat (length acc))%Z
  ∧ parsed_ok (pg_counts st') = (parsed_ok (pg_counts st) + Z.of_nat (length acc))%Z
  ∧ parsed_truncated (pg_counts st')
    = (parsed_truncated (pg_counts st) + Z.of_nat (length ds - length acc))%Z
  ∧ (samples_ok (pg_counts st) → samples_ok (pg_counts st')).

Lemma delivered_none bit max_entries (st st' : Progress MapSink) :
  pg_sink st' = pg_sink st → pg_count st' = pg_count st →
  parsed_ok (pg_counts st') = parsed_ok (pg_counts st) →
  parsed_truncated (pg_counts st') = parsed_truncated (pg_counts st) →
  (samples_ok (pg_counts st) → samples_ok (pg_counts st')) →
  delivered bit max_entries [] st st'.
Proof.
  intros H1 H2 H3 H4 H5. unfold delivered. cbv zeta. rewrite take_nil. cbn [foldl length]. split_and!; [done|lia..|done].
Qed.

Lemma delivered_app bit max_entries ds1 ds2 st st1 st2 :
  delivered bit max_entries ds1 st st1 → delivered bit max_entries ds2 st1 st2 →
  delivered bit max_entries (ds1 ++ ds2) st st2.
Proof.
  intros (A1 & A2 & A3 & A4 & A5) (B1 & B2 & B3 & B4 & B5). unfold delivered. cbv zeta in *.
  set (n := Z.to_nat (max_entries - pg_count st)) in *.
  assert (Z.to_nat (max_entries - pg_count st1) = n - length ds1) as En by (rewrite A2, length_take; lia).
  rewrite En in *. rewrite take_app, length_app, (length_app ds1).
  split_and!; [by rewrite foldl_app, B1, A1|lia|lia| |auto].
  rewrite B4, A4, !length_take. lia.
Qed.

Lemma apply_line_effect f bit max_entries line (st : Progress MapSink) :
  ∃ st', apply_line bit max_entries (extractor f) (trim line) st = (st', Ok ())
    ∧ delivered bit max_entries (option_list (line_domain f line)) st st'.
Proof.
  unfold apply_line, line_domain. destruct (is_comment (trim line)).
  { exists st. split; [done|]. by apply delivered_none. }
  destruct (extractor f (trim line)) as [| |raw].
  { exists st. split; [done|]. by apply delivered_none. }
  { eexists. split; [done|]. apply delivered_none; try done. apply push_skipped_ok. }
  rewrite bool_decide_not. destruct (negb _ && is_valid_domain _).
  2:{ eexists. split; [done|]. apply delivered_none; try done. apply push_skipped_ok. }
  set (d := to_ascii_lowercase _). unfold delivered. change (option_list (Some d)) with [d].
  destruct (Z.leb_spec max_entries (pg_count st)) as [Hm|Hm].
  - eexists. split; [done|]. replace (Z.to_nat (max_entries - pg_count st)) with 0 by lia. cbn.
    split_and!; [done|lia..|done].
  - destruct (pg_sink st) as [m unique] eqn:Es. cbn [accept map_sink]. eexists. split; [done|].
    destruct (Z.to_nat (max_entries - pg_count st)) as [|n] eqn:En; [lia|].
    change (take (S n) [d]) with (d :: take n []). rewrite take_nil. cbn.
    split_and!; [done|lia..|done].
Qed.

Lemma apply_lines_effect f bit max_entries ls (st : Progress MapSink) :
  ∃ st', apply_lines bit max_entries (extractor f) ls st = (st', Ok ())
    ∧ delivered bit max_entries (omap (line_domain f) ls) st st'.
Proof.
  revert st. induction ls as [|line ls IH]; intros st; cbn [apply_lines].
  { exists st. split; [done|]. by apply delivered_none. }
  destruct (apply_line_effect f bit max_entries line st) as (st1 & -> & H1). destruct (IH st1) as (st2 & -> & H2).
  exists st2. split; [done|].
  replace (omap (line_domain f) (line :: ls)) with (option_list (line_domain f line) ++ omap (line_domain f) ls)
    by (cbn; by destruct (line_domain f line)).
  by eapply delivered_app.
Qed.

(** ** Many lines *)

Lemma land_lor_bit x bit : Z.land (Z.lor x bit) bit = bit.
Proof.
  apply Z.bits_inj'. intros i Hi. rewrite Z.land_spec, Z.lor_spec.
  by destruct (Z.testbit x i), (Z.testbit bit i).
Qed.

Lemma tag_lookup bit m ds k :
  (foldl (tag bit) (m, 0%Z) ds).1 !! k
  = if bool_decide (k ∈ ds) then Some (Z.lor (default 0%Z (m !! k)) bit) else m !! k.
Proof.
  induction ds as [|d ds IH] using rev_ind; [done|]. rewrite foldl_snoc.
  destruct (foldl (tag bit) (m, 0%Z) ds) as [m' u]. cbn [fst tag] in *.
  destruct (decide (d = k)) as [->|Hne].
  - rewrite lookup_insert_eq, (bool_decide_eq_true_2 (k ∈ ds ++ [k])) by set_solver. rewrite IH.
    destruct (bool_decide (k ∈ ds)); [|done]. cbn [default from_option id]. f_equal.
    rewrite <-Z.lor_assoc. f_equal. apply Z.lor_diag.
  - rewrite lookup_insert_ne by done. rewrite IH.
    rewrite (bool_decide_ext (k ∈ ds ++ [d]) (k ∈ ds)) by set_solver. done.
Qed.

Lemma tag_unique bit m ds :
  bit ≠ 0%Z →
  (foldl (tag bit) (m, 0%Z) ds).2
  = Z.of_nat (size (filter (fun d => Z.land (default 0%Z (m !! d)) bit = 0%Z) (list_to_set ds : gset str))).
Proof.
  intros Hb. induction ds as [|d ds IH] using rev_ind; [done|]. rewrite foldl_snoc.
  pose proof (tag_lookup bit m ds d) as Hl.
  destruct (foldl (tag bit) (m, 0%Z) ds) as [m' u]. cbn [fst snd tag] in *. rewrite Hl. subst u.
  rewrite list_to_set_app_L. cbn [list_to_set]. rewrite union_empty_r_L, filter_union_L.
  destruct (bool_decide_reflect (d ∈ ds)) as [Hin|Hin].
  - cbn [default from_option id]. rewrite land_lor_bit, (proj2 (Z.eqb_neq bit 0)) by done.
    do 2 f_equal. apply leibniz_equiv. set_solver.
  - destruct (Z.eqb_spec (Z.land (default 0%Z (m !! d)) bit) 0) as [Hz|Hz].
    + rewrite filter_singleton_L by apply _. rewrite decide_True by done. rewrite size_union, size_singleton by set_solver. lia.
    + rewrite filter_singleton_L by apply _. rewrite decide_False by done. by rewrite union_empty_r_L.
  - apply _.
Qed.

(** C22: what parsing a downloaded list does, in full.  The entries accepted
    are the first [max_entries] domains of the text, every one valid and in
    lower case; each gains the source's bit and no other entry changes, so a
    list can neither remove a domain nor touch another source's bit.  The
    counts are exact (accepted, dropped past the cap, newly tagged), and the
    samples kept of rejected lines are bounded in number and in size. *)
Theorem list_parse_effect content bit m max_entries declared m' c :
  bit ≠ 0%Z → (0 ≤ max_entries)%Z →
  parse_list_into_map content bit m max_entries declared = (m', c) →
  let ds := list_domains (default (detect_format content) declared) content in
  let accepted := take (Z.to_nat max_entries) ds in
  Forall stored_form ds
  ∧ (∀ k, m' !! k = if bool_decide (k ∈ accepted) then Some (Z.lor (default 0%Z (m !! k)) bit) else m !! k)
  ∧ parsed_ok c = Z.of_nat (length accepted)
  ∧ parsed_truncated c = Z.of_nat (length ds - length accepted)
  ∧ unique_domains c
    = Z.of_nat (size (filter (fun d => Z.land (default 0%Z (m !! d)) bit = 0%Z) (list_to_set accepted : gset str)))
  ∧ samples_ok c.
Proof.
  intros Hb Hm. unfold parse_list_into_map, parse_lines_into_sink. set (f := default _ declared).
  destruct (apply_lines_effect f bit max_entries (lines content) (fresh (S := MapSink) (m, 0%Z))) as (st & -> & H1 & _ & H3 & H4 & H5).
  cbn [fresh pg_sink pg_count pg_counts no_counts parsed_ok parsed_truncated] in *. rewrite Z.sub_0_r in *.
  intros [= <- <-]. cbv zeta. unfold list_domains. cbn [with_unique parsed_ok parsed_truncated unique_domains].
  split_and!; [|intros k; by rewrite H1, tag_lookup|done|done|by rewrite H1, tag_unique|].
  - apply Forall_forall. intros d Hd. apply list_elem_of_omap in Hd as (line & _ & Hd). by apply line_domain_stored in Hd.
  - apply H5. split; [cbn; lia|constructor].
Qed.

Lemma list_parse_effect_witness :
  let '(m', c) := parse_list_into_map (lit "Ads.Example" ++ [NL] ++ lit "ads.example." ++ [NL] ++ lit "x.test") 2
                    {[lit "x.test" := 1%Z]} 2 None in
  m' !! lit "ads.example" = Some 2%Z ∧ m' !! lit "x.test" = Some 1%Z ∧ parsed_truncated c = 1%Z
  ∧ parsed_ok c = 2%Z ∧ unique_domains c = 1%Z ∧ samples_ok c.
Proof.
  destruct (parse_list_into_map (lit "Ads.Example" ++ [NL] ++ lit "ads.example." ++ [NL] ++ lit "x.test") 2
                    {[lit "x.test" := 1%Z]} 2 None) as [m' c] eqn:E.
  destruct (list_parse_effect _ 2 _ 2 None m' c ltac:(lia) ltac:(lia) E) as (_ & Hk & Hok & Htr & Hun & Hs).
  rewrite !Hk, Hok, Htr, Hun. split_and!; try exact Hs; vm_compute; reflexivity.
Defined.

(** ** The sandbox *)

Lemma split_trailing c r : ∃ w ws, split c (r ++ [c]) = w :: ws ∧ last ws = Some [].
Proof.
  induction r as [|a r (w & ws & E & Hl)]; cbn [app split].
  - rewrite decide_True by done. by exists [], [[]].
  - rewrite E. case_decide; [exists [], (w :: ws)|exists (a :: w), ws]; (split; [done|]); [|done].
    by destruct ws.
Qed.

Lemma valid_no_root_dot d : is_valid_domain d = true → strip_suffix (lit ".") d = None.
Proof.
  intros Hv. destruct (strip_suffix (lit ".") d) as [r|] eqn:E; [|done]. apply strip_suffix_Some in E as ->.
  apply is_valid_domain_unfold in Hv as (_ & _ & _ & Hl). destruct (split_trailing DOT r) as (w & ws & E & Hlast).
  change (lit ".") with [DOT] in Hl. rewrite E in Hl. apply last_Some_app in Hlast as [l ->].
  rewrite Forall_cons, Forall_app in Hl. destruct Hl as (_ & _ & Hl). inversion_clear Hl as [|? ? Hlo _].
  by destruct (label_nonempty _ Hlo).
Qed.

Lemma modifiers_plain ms imp noap imp' noap' :
  existsb (fun m => eq_ignore_ascii_case (trim m) (lit "important")) ms = false →
  parse_modifiers ms imp noap = Ok (imp', noap') → imp' = imp.
Proof.
  revert imp noap. induction ms as [|m ms IH]; intros imp noap He Hp; cbn [existsb parse_modifiers] in *.
  { by injection Hp. }
  apply orb_false_iff in He as [Hm He]. unfold str_eqb in Hp.
  destruct (bool_decide_reflect (trim m = lit "important")) as [E|_]; [by rewrite E in Hm|].
  destruct (bool_decide _); [|done]. by eapply IH.
Qed.

Lemma modifiers_harmless ms imp noap noap' :
  parse_modifiers ms imp noap = Ok (false, noap') →
  existsb (fun m => eq_ignore_ascii_case (trim m) (lit "important")) ms = false.
Proof.
  assert (∀ ms noap noap', parse_modifiers ms true noap ≠ Ok (false, noap')) as Hstuck.
  { clear. induction ms as [|m ms IH]; intros noap noap'; cbn [parse_modifiers]; [done|].
    destruct (str_eqb _ _); [apply IH|]. destruct (str_eqb _ _); [apply IH|done]. }
  revert imp noap. induction ms as [|m ms IH]; intros imp noap Hp; cbn [existsb parse_modifiers] in *; [done|].
  unfold str_eqb in Hp. destruct (bool_decide_reflect (trim m = lit "important")) as [_|Hi]; [by apply Hstuck in Hp|].
  destruct (bool_decide_reflect (trim m = lit "noapex")) as [->|_]; [|done]. by eapply IH.
Qed.

Section Sandbox.
Context {RC : RegexCrate}.

Definition plain_block (d : str) : DnsRule :=
  {| pattern := Exact d; action := Block; important := false; noapex := false |}.

(** Both parsers drop the anchor the same way. *)
Definition anchored (s : str) : str := default s (strip_suffix (lit "^") s).

Definition candidate (s : str) : LineDecision :=
  if contains "*"%char (anchored s) then SkipCounted else Candidate (anchored s).

Lemma adguard_extract_bars body :
  adguard_extract (lit "||" ++ body)
  = match split_once "$"%char body with
    | Some (b, m) => if has_important m then SkipCounted else candidate b
    | None => candidate body
    end.
Proof.
  unfold adguard_extract. change (starts_with (lit "@@") (lit "||" ++ body)) with false.
  change (starts_with (lit "/") (lit "||" ++ body)) with false.
  change (strip_prefix (lit "||") (lit "||" ++ body)) with (Some body). cbv iota.
  by destruct (split_once _ body) as [[b m]|].
Qed.

Lemma adguard_candidate t raw : adguard_extract t = Candidate raw → ∃ body, t = lit "||" ++ body.
Proof.
  unfold adguard_extract. destruct (starts_with _ t); [done|]. destruct (starts_with _ t); [done|].
  destruct (strip_prefix (lit "||") t) as [body|] eqn:E; [|done]. apply strip_prefix_Some in E. by exists body.
Qed.

Lemma parse_rule_bars line body :
  trim line = lit "||" ++ body → parse_rule_checked line = parse_modified_rule Block body.
Proof. intros E. unfold parse_rule_checked. rewrite E. reflexivity. Qed.

Lemma domain_rule_plain imp noap s :
  contains "*"%char (anchored s) = false → anchored s ≠ [] →
  parse_domain_rule Block imp noap s
  = if is_valid_domain (anchored s)
    then Ok {| pattern := Exact (to_ascii_lowercase (anchored s)); action := Block; important := imp; noapex := false |}
    else Err (InvalidDomain (anchored s)).
Proof.
  intros Hs Hne. unfold parse_domain_rule. fold (anchored s). destruct (anchored s) as [|a d] eqn:E; [done|].
  destruct (strip_prefix (lit "*.") (a :: d)) as [r|] eqn:Ep.
  { apply strip_prefix_Some in Ep. apply contains_false in Hs. rewrite Ep in Hs. destruct Hs. left. }
  rewrite Hs. by destruct (is_valid_domain (a :: d)).
Qed.

Lemma domain_rule_exact imp noap s d imp' noap' :
  parse_domain_rule Block imp noap s
    = Ok {| pattern := Exact d; action := Block; important := imp'; noapex := noap' |} →
  contains "*"%char (anchored s) = false ∧ is_valid_domain (anchored s) = true
    ∧ d = to_ascii_lowercase (anchored s) ∧ imp' = imp.
Proof.
  unfold parse_domain_rule. fold (anchored s). destruct (anchored s) as [|a r] eqn:E; [done|].
  destruct (strip_prefix (lit "*.") (a :: r)) as [x|]; [by destruct (_ || _)|].
  destruct (contains _ (a :: r)); [done|]. destruct (is_valid_domain (a :: r)); [|done]. by intros [= <- <-].
Qed.

Lemma line_domain_bars line body :
  trim line = lit "||" ++ body →
  line_domain AdGuard line
  = match adguard_extract (lit "||" ++ body) with
    | Candidate raw =>
      let domain := default raw (strip_suffix (lit ".") raw) in
      if bool_decide (domain ≠ []) && is_valid_domain domain then Some (to_ascii_lowercase domain) else None
    | _ => None
    end.
Proof. intros E. unfold line_domain. rewrite E. reflexivity. Qed.

(** A candidate in stored form, against the admin reading of the same text. *)
Lemma candidate_plain s d imp noap :
  match candidate s with
  | Candidate raw =>
    let domain := default raw (strip_suffix (lit ".") raw) in
    if bool_decide (domain ≠ []) && is_valid_domain domain then Some (to_ascii_lowercase domain) else None
  | _ => None
  end = Some d →
  ∀ r, parse_domain_rule Block imp noap s = Ok r →
  r = {| pattern := Exact d; action := Block; important := imp; noapex := false |}.
Proof.
  unfold candidate. destruct (contains _ (anchored s)) eqn:Hs; [done|]. cbv zeta.
  destruct (bool_decide_reflect (default (anchored s) (strip_suffix (lit ".") (anchored s)) ≠ [])) as [Hne|]; [|done].
  cbn [andb]. destruct (is_valid_domain (default _ _)) eqn:Hv; [|done]. intros Ed r.
  rewrite domain_rule_plain; [|done|].
  - destruct (is_valid_domain (anchored s)) eqn:Hv'; [|done]. rewrite (valid_no_root_dot _ Hv') in Ed.
    intros Er. by injection Er as <-; injection Ed as <-.
  - intros E. rewrite E in Hne. done.
Qed.

(** The sandbox around downloaded lists.  A line of a list in AdGuard
    syntax contributes a domain only if it starts with [||], and then the
    operator's own parser either refuses the line or reads it as a plain block
    of exactly that domain: never as an allow, never as important, never as a
    wildcard or an expression.  Conversely every [||] line that the operator's
    parser reads as a plain block contributes its domain. *)
Theorem adguard_sandbox line d :
  (line_domain AdGuard line = Some d →
     (∃ body, trim line = lit "||" ++ body) ∧ ∀ r, parse_rule_checked line = Ok r → r = plain_block d)
  ∧ ((∃ body, trim line = lit "||" ++ body) → parse_rule_checked line = Ok (plain_block d) →
     line_domain AdGuard line = Some d).
Proof.
  split.
  - intros Hd. assert (∃ body, trim line = lit "||" ++ body) as [body Hb].
    { unfold line_domain in Hd. destruct (is_comment _); [done|].
      destruct (extractor AdGuard (trim line)) as [| |raw] eqn:E; [done..|]. by apply adguard_candidate in E. }
    split; [by exists body|]. intros r. rewrite (parse_rule_bars line body Hb).
    rewrite (line_domain_bars line body Hb), adguard_extract_bars in Hd. unfold parse_modified_rule.
    destruct (split_once "$"%char body) as [[b m]|]; [|by apply candidate_plain].
    destruct (has_important m) eqn:Hi; [done|]. destruct (parse_modifiers _ _ _) as [[imp noap]|] eqn:Hp; [|done].
    apply (modifiers_plain _ _ _ _ _ Hi) in Hp as ->. by apply candidate_plain.
  - intros [body Hb]. rewrite (parse_rule_bars line body Hb), (line_domain_bars line body Hb), adguard_extract_bars.
    assert (∀ s noap, parse_domain_rule Block false noap s = Ok (plain_block d) →
      match candidate s with
      | Candidate raw =>
        let domain := default raw (strip_suffix (lit ".") raw) in
        if bool_decide (domain ≠ []) && is_valid_domain domain then Some (to_ascii_lowercase domain) else None
      | _ => None
      end = Some d) as Hs.
    { intros s noap Hr. apply domain_rule_exact in Hr as (Hc & Hv & -> & _). unfold candidate. rewrite Hc. cbv zeta.
      rewrite (valid_no_root_dot _ Hv). cbn [default from_option id]. rewrite Hv.
      by rewrite bool_decide_eq_true_2 by (by apply is_valid_domain_nonempty). }
    unfold parse_modified_rule. destruct (split_once "$"%char body) as [[b m]|]; [|by apply Hs].
    destruct (parse_modifiers _ _ _) as [[imp noap]|] eqn:Hp; [|done]. cbn [rbind]. intros Hr.
    assert (imp = false) as -> by (by apply domain_rule_exact in Hr as (_ & _ & _ & ->)).
    unfold has_important. rewrite (modifiers_harmless _ _ _ _ Hp). by eapply Hs.
Qed.
End Sandbox.

(** ** Any sink *)

Section Deliveries.
Context {S : Type} `{DomainSink S}.

(** The deliveries of a source: one domain after the other, until one fails. *)
Fixpoint deliver (bit : Z) (ds : list str) (s : S) : S * result IoError () :=
  match ds with
  | [] => (s, Ok ())
  | d :: ds => match accept s d bit with (s, Ok _) => deliver bit ds s | (s, Err e) => (s, Err e) end
  end.

Lemma deliver_app bit ds es s s' :
  deliver bit ds s = (s', Ok ()) → deliver bit (ds ++ es) s = deliver bit es s'.
Proof.
  revert s. induction ds as [|d ds IH]; intros s; cbn; [by intros [= ->]|].
  destruct (accept s d bit) as [s1 [[]|e]]; [apply IH|done].
Qed.

(** What a parse without error did to the sink and to the counters. *)
Definition accounted (bit max_entries : Z) (ds : list str) (st st' : Progress S) : Prop :=
  let acc := take (Z.to_nat (max_entries - pg_count st)) ds in
  deliver bit acc (pg_sink st) = (pg_sink st', Ok ())
  ∧ pg_count st' = (pg_count st + Z.of_nat (length acc))%Z
  ∧ parsed_ok (pg_counts st') = (parsed_ok (pg_counts st) + Z.of_nat (length acc))%Z
  ∧ parsed_truncated (pg_counts st')
    = (parsed_truncated (pg_counts st) + Z.of_nat (length ds - length acc))%Z.

Lemma accounted_none bit max_entries (st st' : Progress S) :
  pg_sink st' = pg_sink st → pg_count st' = pg_count st →
  parsed_ok (pg_counts st') = parsed_ok (pg_counts st) →
  parsed_truncated (pg_counts st') = parsed_truncated (pg_counts st) →
  accounted bit max_entries [] st st'.
Proof. intros H1 H2 H3 H4. unfold accounted. rewrite take_nil. cbn. rewrite H1. split_and!; [done|lia..]. Qed.

Lemma accounted_app bit max_entries ds1 ds2 st st1 st2 :
  accounted bit max_entries ds1 st st1 → accounted bit max_entries ds2 st1 st2 →
  accounted bit max_entries (ds1 ++ ds2) st st2.
Proof.
  intros (A1 & A2 & A3 & A4) (B1 & B2 & B3 & B4). unfold accounted. cbv zeta in *.
  set (n := Z.to_nat (max_entries - pg_count st)) in *.
  assert (Z.to_nat (max_entries - pg_count st1) = n - length ds1) as En by (rewrite A2, length_take; lia).
  rewrite En in *. rewrite take_app, length_app, (length_app ds1).
  split_and!; [by rewrite (deliver_app _ _ _ _ _ A1)|lia|lia|]. rewrite B4, A4, !length_take. lia.
Qed.

Lemma apply_line_accounted f bit max_entries line (st st' : Progress S) :
  apply_line bit max_entries (extractor f) (trim line) st = (st', Ok ()) →
  accounted bit max_entries (option_list (line_domain f line)) st st'.
Proof.
  unfold apply_line, line_domain. destruct (is_comment (trim line)).
  { intros [= <-]. by apply accounted_none. }
  destruct (extractor f (trim line)) as [| |raw].
  { intros [= <-]. by apply accounted_none. }
  { intros E. apply (inj2 pair) in E as [<- _]. by apply accounted_none. }
  rewrite bool_decide_not. destruct (negb _ && is_valid_domain _).
  2:{ intros E. apply (inj2 pair) in E as [<- _]. by apply accounted_none. }
  set (d := to_ascii_lowercase _). unfold accounted. change (option_list (Some d)) with [d].
  destruct (Z.leb_spec max_entries (pg_count st)) as [Hm|Hm].
  - intros E. apply (inj2 pair) in E as [<- _]. replace (Z.to_nat (max_entries - pg_count st)) with 0 by lia.
    cbn. split_and!; [done|lia..].
  - destruct (accept (pg_sink st) d bit) as [s1 [[]|e]] eqn:Ea; [|done].
    intros E. apply (inj2 pair) in E as [<- _].
    destruct (Z.to_nat (max_entries - pg_count st)) as [|n] eqn:En; [lia|].
    change (take (Datatypes.S n) [d]) with (d :: take n []). rewrite take_nil. cbn. rewrite Ea.
    split_and!; [done|lia..].
Qed.

Lemma apply_lines_accounted f bit max_entries ls (st st' : Progress S) :
  apply_lines bit max_entries (extractor f) ls st = (st', Ok ()) →
  accounted bit max_entries (omap (line_domain f) ls) st st'.
Proof.
  revert st. induction ls as [|line ls IH]; intros st; cbn [apply_lines].
  { intros [= <-]. by apply accounted_none. }
  destruct (apply_line bit max_entries (extractor f) (trim line) st) as [st1 [[]|e]] eqn:E1; [|done].
  intros E. replace (omap (line_domain f) (line :: ls))
    with (option_list (line_domain f line) ++ omap (line_domain f) ls) by (cbn; by destruct (line_domain f line)).
  eapply accounted_app; [by apply apply_line_accounted|by apply IH].
Qed.

(** A property that every accept keeps is kept by a parse, however it ends. *)
Lemma apply_line_keeps (I : S → Prop) bit max_entries extract t st :
  (∀ s d, I s → I (accept s d bit).1) → I (pg_sink st) →
  I (pg_sink (apply_line bit max_entries extract t st).1).
Proof.
  intros HI Hs. unfold apply_line. destruct (is_comment t); [done|]. destruct (extract t) as [| |raw]; [done..|].
  destruct (negb _ && _); [|done]. destruct (_ <=? _)%Z; [done|].
  specialize (HI _ (to_ascii_lowercase (default raw (strip_suffix (lit ".") raw))) Hs).
  by destruct (accept _ _ _) as [s [|]].
Qed.

Lemma over_lines_keeps (I : S → Prop) cancelled bit max_entries extract raws :
  (∀ s d, I s → I (accept s d bit).1) → ∀ n st, I (pg_sink st) →
  I (pg_sink (over_lines cancelled bit max_entries extract n raws st).1).
Proof.
  intros HI. induction raws as [|raw raws IH]; intros n st Hs; cbn [over_lines]; (destruct (cancelled n); [done|]); [done|].
  destruct (line_fault raw); [done|].
  pose proof (apply_line_keeps I bit max_entries extract (trim raw) st HI Hs) as Hk.
  destruct (apply_line _ _ _ _ _) as [st1 [[]|e]]; [by apply IH|done].
Qed.

Lemma over_lines_Ok cancelled bit max_entries extract raws n st st' :
  over_lines cancelled bit max_entries extract n raws st = (st', Ok ()) →
  apply_lines bit max_entries extract raws st = (st', Ok ()).
Proof.
  revert n st. induction raws as [|raw raws IH]; intros n st; cbn [over_lines apply_lines];
    (destruct (cancelled n); [done|]); [done|].
  destruct (line_fault raw); [done|]. destruct (apply_line _ _ _ _ _) as [st1 [[]|e]]; [apply IH|done].
Qed.

(** The format a streaming parse settles on. *)
Definition settled_format (cancelled : nat → bool) (reader : str) (declared : option ListFormat) (f : ListFormat) : Prop :=
  match declared with
  | Some g => f = g
  | None => ∃ p r n, sniff_format_reader cancelled reader = Ok (f, p, r, n)
  end.

(** A streaming parse always ends; whatever every accept keeps is kept; and
    without error the sink got the first [max_entries] domains of the text, in
    order. *)
Lemma streaming_deliveries (I : S → Prop) cancelled reader bit sink max_entries declared :
  (∀ s d, I s → I (accept s d bit).1) → I sink →
  ∃ st r, parse_list_streaming cancelled reader bit sink max_entries declared = Finished st r ∧ I (pg_sink st) ∧
    (r = Ok () → ∃ f, settled_format cancelled reader declared f ∧
       accounted bit max_entries (list_domains f reader) (fresh sink) st).
Proof.
  intros HI Hs. destruct (streaming_lines cancelled reader bit sink max_entries declared)
    as [(st & e & E & -> & n & Hn)|(f & n & Hf & Hsn & E)].
  - exists st, (Err e). split; [done|]. split; [|done].
    unfold parse_list_streaming in E. destruct (sniff_format_reader cancelled reader) as [[[[f p] r] k]|e'] eqn:Es.
    + unfold parse_lines_into_sink_reader in E. rewrite reader_loop_lines in E by lia.
      pose proof (over_lines_keeps I cancelled bit max_entries (extractor f) (split_inclusive NL (p ++ r)) HI k (fresh sink) Hs) as Hk.
      destruct (over_lines _ _ _ _ _ _ _) as [st0 r0]. by injection E as <- _.
    + by injection E as <- _.
  - rewrite E. pose proof (over_lines_keeps I cancelled bit max_entries (extractor f) (split_inclusive NL reader) HI n (fresh sink) Hs) as Hk.
    destruct (over_lines _ _ _ _ _ _ _) as [st r] eqn:Eo. exists st, r. split; [done|]. split; [done|].
    intros ->. exists f. split.
    { unfold settled_format. destruct declared as [g|]; [by apply Hf|]. destruct (Hsn eq_refl) as (p & r & Es). eauto. }
    apply over_lines_Ok, apply_lines_accounted in Eo.
    replace (list_domains f reader) with (omap (line_domain f) (split_inclusive NL reader)); [done|].
    unfold list_domains, lines. clear. induction (split_inclusive NL reader) as [|raw raws IH]; [done|].
    cbn [map omap list_omap]. assert (line_domain f (strip_eol raw) = line_domain f raw) as ->
      by (unfold line_domain; by rewrite trim_strip_eol). by rewrite <-IH.
Qed.
End Deliveries.
