(* ===== verification/SourceKey.v ===== *)
(** * List sources, bits and directions: [src/lists/source_key.rs]

    The operator names a list three ways: a catalog slug in [lists.sources], a
    URL there, or a [blocklists] row with an id.  [build_with_control_mode]
    resolves every spelling to one source per canonical URL and refuses rows
    that would give one body two meanings; [from_plan] gives each source a bit
    of a [u64]; [project_policy] turns the operator's directions into the masks
    that a published shard carries.  The [Blocklist] row is
    [src/config/schema/blocklist.rs] and the catalog lookup is
    [src/lists/catalog.rs]. *)

From S2P Require Import Prelude RustStr DnsTypes Domain SortedSlice Shard Compiler ListParser.

(** ** Rows *)

Inductive BlocklistFormat := FmtDomains | FmtAdguard | FmtHosts.
Inductive BlocklistBase := BaseDeny | BaseAllow | BaseIgnore.
Inductive BlocklistTrust := TrustLocal | TrustSigned | TrustRemoteUnsigned.

(** [ListPolicy] of the configuration schema. *)
Inductive ListDirection := Deny | Allow | Ignore.

#[export] Instance BlocklistFormat_eq : EqDecision BlocklistFormat.
Proof. solve_decision. Defined.
#[export] Instance BlocklistBase_eq : EqDecision BlocklistBase.
Proof. solve_decision. Defined.
#[export] Instance BlocklistTrust_eq : EqDecision BlocklistTrust.
Proof. solve_decision. Defined.
#[export] Instance ListDirection_eq : EqDecision ListDirection.
Proof. solve_decision. Defined.

Definition as_policy (b : BlocklistBase) : ListDirection :=
  match b with BaseDeny => Deny | BaseAllow => Allow | BaseIgnore => Ignore end.

(** The fields the plan reads; the rest of the row is display and
    acknowledgement. *)
Record Blocklist := {
  bl_id : str;
  bl_url : str;
  bl_format : BlocklistFormat;
  bl_update_interval_hours : option Z;
  bl_max_entries : option Z;
  bl_enabled : bool;
  bl_auth_token_ref : option str;
  bl_base : BlocklistBase;
  bl_trust : BlocklistTrust;
  bl_max_consecutive_failures : Z;
}.

(** [Profile::lists], the only part of a profile the plan reads. *)
Definition ProfileLists : Type := gmap str ListDirection.

(** [BTreeMap<String, Profile>] in iteration order. *)
Definition Profiles : Type := list (str * ProfileLists).

Definition effective_direction (profile : ProfileLists) (l : Blocklist) : ListDirection :=
  default (as_policy (bl_base l)) (profile !! bl_id l).

(** ** Row controls *)

Inductive RowControlMode := InheritAll | HonorOverrides.

Definition for_schema_version (v : Z) : RowControlMode :=
  if (4 <=? v)%Z then HonorOverrides else InheritAll.

Record RowControlDefaults := { rd_max_entries : Z; rd_update_interval_secs : Z }.

Definition effective_max_entries (row : option Z) (global : Z) (m : RowControlMode) : Z :=
  match m with
  | InheritAll => global
  | HonorOverrides =>
    Z.min (default global (row ≫= fun v => if (v <=? USIZE_MAX)%Z then Some v else None)) global
  end.

Definition effective_update_interval_secs (row : option Z) (global : Z) (m : RowControlMode) : Z :=
  let configured :=
    match m with
    | HonorOverrides => default global ((fun h => h * 3600)%Z <$> row)
    | InheritAll => global
    end in
  Z.max configured 60.

(** The field on which two rows disagree. *)
Inductive AliasField :=
| BaseDirection
| EffectiveDirection (profile_id : str)
| ParserFormat | TrustMode | AuthToken | MaxEntriesCap | UpdateInterval | RetryOwnership
| ResolvedUrl.

Fixpoint direction_conflict (a b : Blocklist) (ps : Profiles) : option AliasField :=
  match ps with
  | [] => None
  | (pid, p) :: rest =>
    if decide (effective_direction p a = effective_direction p b)
    then direction_conflict a b rest else Some (EffectiveDirection pid)
  end.

Definition blocklist_alias_conflict (a b : Blocklist) (ps : Profiles) (d : RowControlDefaults)
    (m : RowControlMode) : option AliasField :=
  if negb (bool_decide (bl_base a = bl_base b)) then Some BaseDirection
  else match direction_conflict a b ps with
  | Some f => Some f
  | None =>
    if negb (bool_decide (bl_format a = bl_format b)) then Some ParserFormat
    else if negb (bool_decide (bl_trust a = bl_trust b)) then Some TrustMode
    else if negb (bool_decide (bl_auth_token_ref a = bl_auth_token_ref b)) then Some AuthToken
    else if negb (effective_max_entries (bl_max_entries a) (rd_max_entries d) m =?
                  effective_max_entries (bl_max_entries b) (rd_max_entries d) m)%Z
    then Some MaxEntriesCap
    else if negb (effective_update_interval_secs (bl_update_interval_hours a) (rd_update_interval_secs d) m =?
                  effective_update_interval_secs (bl_update_interval_hours b) (rd_update_interval_secs d) m)%Z
    then Some UpdateInterval
    else if negb (bl_max_consecutive_failures a =? bl_max_consecutive_failures b)%Z
    then Some RetryOwnership
    else None
  end.

(** ** URLs *)

Definition is_url_source (s : str) : bool :=
  starts_with (lit "http://") s || starts_with (lit "https://") s.

(** [str::find] on a pattern string. *)
Fixpoint find_str (p s : str) : option nat :=
  if starts_with p s then Some 0
  else match s with [] => None | _ :: rest => S <$> find_str p rest end.

(** [str::find] on a set of characters. *)
Fixpoint find_any (cs s : str) : option nat :=
  match s with
  | [] => None
  | c :: rest => if bool_decide (c ∈ cs) then Some 0 else S <$> find_any cs rest
  end.

(** [str::rfind] on a character. *)
Definition rfind (c : ascii) (s : str) : option nat :=
  (fun i => length s - S i) <$> find c (rev s).

Definition count_char (c : ascii) (s : str) : nat := length (List.filter (fun x => bool_decide (x = c)) s).

Definition port_separator (host_port : str) : option nat :=
  if starts_with (lit "[") host_port then
    find "]"%char host_port ≫= fun close =>
      if starts_with (lit ":") (drop (S close) host_port) then Some (S close) else None
  else if count_char ":"%char host_port =? 1 then Some (default 0 (find ":"%char host_port))
  else None.

Definition canonical_url_key (url : str) : str :=
  match find_str (lit "://") url with
  | None => url
  | Some scheme_end =>
    let scheme := to_ascii_lowercase (take scheme_end url) in
    let rest := drop (scheme_end + 3) url in
    let auth_end := default (length rest) (find_any (lit "/?#") rest) in
    let authority := take auth_end rest in
    let tail := drop auth_end rest in
    let '(userinfo, host_port) :=
      match rfind "@"%char authority with
      | Some i => (Some (take i authority), drop (S i) authority)
      | None => (None, authority)
      end in
    let '(host, port) :=
      match port_separator host_port with
      | Some i => (take i host_port, Some (drop (S i) host_port))
      | None => (host_port, None)
      end in
    let keep_port :=
      port ≫= fun p =>
        if str_eqb scheme (lit "http") && str_eqb p (lit "80")
           || str_eqb scheme (lit "https") && str_eqb p (lit "443")
        then None else Some p in
    let path_end := default (length tail) (find_any (lit "?#") tail) in
    let path := take path_end tail in
    scheme ++ lit "://"
    ++ match userinfo with Some ui => ui ++ lit "@" | None => [] end
    ++ to_ascii_lowercase host
    ++ match keep_port with Some p => lit ":" ++ p | None => [] end
    ++ default path (strip_suffix (lit "/") path)
    ++ drop path_end tail
  end.

(** [source.replace('/', "-")]. *)
Definition slash_to_dash (s : str) : str :=
  map (fun c => if bool_decide (c = "/"%char) then HYPHEN else c) s.

Definition legacy_slug_for_id (id : str) : option str :=
  (fun split => take split id ++ lit "/" ++ drop (S split) id) <$> find HYPHEN id.

(** ** Catalog lookup *)

Record CatalogEntry := { ce_scope : str; ce_topic : option str; ce_url : str }.

Definition CatalogEntry_id (e : CatalogEntry) : str :=
  match ce_topic e with
  | Some t => ce_scope e ++ lit "/" ++ t
  | None => ce_scope e
  end.

Definition id_matches (e : CatalogEntry) (candidate : str) : bool :=
  match ce_topic e with
  | Some topic =>
    match split_once "/"%char candidate with
    | Some (scope, rest) => str_eqb scope (ce_scope e) && str_eqb rest topic
    | None => false
    end
  | None => str_eqb candidate (ce_scope e)
  end.

Definition resolve (catalog : list CatalogEntry) (id_or_url : str) : option str :=
  if starts_with (lit "http://") id_or_url || starts_with (lit "https://") id_or_url
  then Some id_or_url
  else ce_url <$> List.find (fun e => id_matches e id_or_url) catalog.

(** ** The resolved plan *)

(** A conflict, with the four values its message is formatted from. *)
Record ResolvedSourcePlanError := {
  conflict_first : str;
  conflict_second : str;
  conflict_url : str;
  conflict_field : AliasField;
}.

(** The scheduling identity is a digest of the fetch URL and is left out. *)
Record ResolvedSource := {
  rs_representative : str;
  rs_fetch_url : str;
  rs_canonical_url : str;
  rs_source_aliases : list str;
  rs_id_aliases : list str;
  rs_owner : option Blocklist;
  rs_effective_max_entries : Z;
  rs_effective_update_interval_secs : Z;
}.

(** The locals of the build: the sources so far, the index of each canonical
    URL, and the ids that catalog slugs have claimed. *)
Record Building := {
  pb_sources : list ResolvedSource;
  pb_by_canonical : gmap str nat;
  pb_catalog_ids : gmap str (str * str);
}.

Record ResolvedSourcePlan := {
  plan_sources : list ResolvedSource;
  source_to_representative : gmap str str;
  canonical_url_to_representative : gmap str str;
  id_to_representative : gmap str str;
  primary_id_by_representative : gmap str str;
}.

Definition add_source_aliases (l : list str) (s : ResolvedSource) : ResolvedSource :=
  {| rs_representative := rs_representative s; rs_fetch_url := rs_fetch_url s;
     rs_canonical_url := rs_canonical_url s; rs_source_aliases := rs_source_aliases s ++ l;
     rs_id_aliases := rs_id_aliases s; rs_owner := rs_owner s;
     rs_effective_max_entries := rs_effective_max_entries s;
     rs_effective_update_interval_secs := rs_effective_update_interval_secs s |}.

Definition add_id_alias (id : str) (s : ResolvedSource) : ResolvedSource :=
  {| rs_representative := rs_representative s; rs_fetch_url := rs_fetch_url s;
     rs_canonical_url := rs_canonical_url s; rs_source_aliases := rs_source_aliases s;
     rs_id_aliases := rs_id_aliases s ++ [id]; rs_owner := rs_owner s;
     rs_effective_max_entries := rs_effective_max_entries s;
     rs_effective_update_interval_secs := rs_effective_update_interval_secs s |}.

Definition own (b : Blocklist) (d : RowControlDefaults) (m : RowControlMode) (s : ResolvedSource)
  : ResolvedSource :=
  {| rs_representative := rs_representative s; rs_fetch_url := rs_fetch_url s;
     rs_canonical_url := rs_canonical_url s; rs_source_aliases := rs_source_aliases s;
     rs_id_aliases := rs_id_aliases s; rs_owner := Some b;
     rs_effective_max_entries := effective_max_entries (bl_max_entries b) (rd_max_entries d) m;
     rs_effective_update_interval_secs :=
       effective_update_interval_secs (bl_update_interval_hours b) (rd_update_interval_secs d) m |}.

(** [insert] of a catalog claim. *)
Definition claim_id (id : str) (v : str * str) (st : Building) : Building :=
  {| pb_sources := pb_sources st; pb_by_canonical := pb_by_canonical st;
     pb_catalog_ids := <[id := v]> (pb_catalog_ids st) |}.

(** [&mut plan.sources[index]]. *)
Definition update_source (i : nat) (f : ResolvedSource → ResolvedSource) (st : Building) : Building :=
  {| pb_sources := alter f i (pb_sources st); pb_by_canonical := pb_by_canonical st;
     pb_catalog_ids := pb_catalog_ids st |}.

Section Build.
Context (catalog : list CatalogEntry) (blocklists : list Blocklist) (profiles : Profiles).
Context (defaults : RowControlDefaults) (mode : RowControlMode).

Definition push_or_get (st : Building) (representative fetch_url canonical_url : str)
  : Building * nat :=
  match pb_by_canonical st !! canonical_url with
  | Some index => (st, index)
  | None =>
    let index := length (pb_sources st) in
    ({| pb_sources := pb_sources st ++
          [{| rs_representative := representative; rs_fetch_url := fetch_url;
              rs_canonical_url := canonical_url; rs_source_aliases := []; rs_id_aliases := [];
              rs_owner := None; rs_effective_max_entries := rd_max_entries defaults;
              rs_effective_update_interval_secs :=
                effective_update_interval_secs None (rd_update_interval_secs defaults) mode |}];
        pb_by_canonical := <[canonical_url := index]> (pb_by_canonical st);
        pb_catalog_ids := pb_catalog_ids st |}, index)
  end.

(** [enabled_by_id]: collecting keeps the last row of an id. *)
Definition enabled_by_id : gmap str Blocklist :=
  foldl (fun m b => <[bl_id b := b]> m) ∅ (List.filter bl_enabled blocklists).

Definition legacy_id_of (source : str) : option str :=
  if is_url_source source then None else ok (Id_new (slash_to_dash source)).

(** The URL a configured spelling is fetched from, when it has one. *)
Definition legacy_fetch_url (source : str) : option str :=
  match resolve catalog source, legacy_id_of source with
  | Some url, _ => Some url
  | None, Some id => bl_url <$> enabled_by_id !! id
  | None, None => None
  end.

(** One iteration of the loop over [lists.sources]. *)
Definition legacy_step (st : Building) (source : str) : result ResolvedSourcePlanError Building :=
  match legacy_fetch_url source with
  | None => Ok st
  | Some fetch_url =>
    let '(st, index) := push_or_get st source fetch_url (canonical_url_key fetch_url) in
    let st := update_source index (add_source_aliases [source]) st in
    match legacy_id_of source with
    | None => Ok st
    | Some id =>
      let st := update_source index (add_id_alias id) st in
      match resolve catalog source with
      | None => Ok st
      | Some _ =>
        match pb_sources st !! index with
        | None => Ok st
        | Some s =>
          match pb_catalog_ids st !! id with
          | Some (first_source, first_url) =>
            if decide (first_url = rs_canonical_url s) then Ok st
            else Err {| conflict_first := first_source; conflict_second := source;
                        conflict_url := first_url; conflict_field := ResolvedUrl |}
          | None => Ok (claim_id id (source, rs_canonical_url s) st)
          end
        end
      end
    end
  end.

(** One iteration of the loop over the enabled rows. *)
Definition row_step (st : Building) (b : Blocklist) : result ResolvedSourcePlanError Building :=
  let canonical_url := canonical_url_key (bl_url b) in
  let? _ :=
    match pb_catalog_ids st !! bl_id b with
    | Some (legacy_source, legacy_url) =>
      if decide (legacy_url = canonical_url) then Ok tt
      else Err {| conflict_first := legacy_source; conflict_second := bl_id b;
                  conflict_url := legacy_url; conflict_field := ResolvedUrl |}
    | None => Ok tt
    end in
  let '(st, index) := push_or_get st (bl_url b) (bl_url b) canonical_url in
  let st := update_source index
    (add_id_alias (bl_id b) ∘
     add_source_aliases ([bl_url b; bl_id b] ++ option_list (legacy_slug_for_id (bl_id b)))) st in
  match pb_sources st !! index ≫= rs_owner with
  | Some owner =>
    match blocklist_alias_conflict owner b profiles defaults mode with
    | Some field =>
      Err {| conflict_first := bl_id owner; conflict_second := bl_id b;
             conflict_url := canonical_url; conflict_field := field |}
    | None => Ok st
    end
  | None => Ok (update_source index (own b defaults mode) st)
  end.

(** [insert_alias]: the first owner of a spelling keeps it, another owner is
    refused. *)
Definition insert_alias (aliases : gmap str str) (alias : str) (s : ResolvedSource)
  : result ResolvedSourcePlanError (gmap str str) :=
  match aliases !! alias with
  | Some existing =>
    if decide (existing = rs_representative s) then Ok aliases
    else Err {| conflict_first := existing; conflict_second := alias;
                conflict_url := rs_canonical_url s; conflict_field := ResolvedUrl |}
  | None => Ok (<[alias := rs_representative s]> aliases)
  end.

(** [source.owner().map(id).or_else(first id alias)]. *)
Definition primary_of (s : ResolvedSource) : option str :=
  match rs_owner s with Some o => Some (bl_id o) | None => head (rs_id_aliases s) end.

(** One iteration of the loop that registers every spelling.  The ids are
    registered by the same code as [insert_alias], written out in the source. *)
Definition register_step (plan : ResolvedSourcePlan) (s : ResolvedSource)
  : result ResolvedSourcePlanError ResolvedSourcePlan :=
  let? by_source :=
    try_fold (fun m a => insert_alias m a s) (source_to_representative plan) (rs_source_aliases s) in
  let? by_url := insert_alias (canonical_url_to_representative plan) (rs_canonical_url s) s in
  let? by_id :=
    try_fold (fun m a => insert_alias m a s) (id_to_representative plan) (rs_id_aliases s) in
  Ok {| plan_sources := plan_sources plan;
        source_to_representative := by_source;
        canonical_url_to_representative := by_url;
        id_to_representative := by_id;
        primary_id_by_representative :=
          match primary_of s with
          | Some id => <[rs_representative s := id]> (primary_id_by_representative plan)
          | None => primary_id_by_representative plan
          end |}.

Definition build_with_control_mode (legacy : list str)
  : result ResolvedSourcePlanError ResolvedSourcePlan :=
  let start := {| pb_sources := []; pb_by_canonical := ∅; pb_catalog_ids := ∅ |} in
  let? st := try_fold legacy_step start legacy in
  let? st := try_fold row_step st (List.filter bl_enabled blocklists) in
  try_fold register_step
    {| plan_sources := pb_sources st; source_to_representative := ∅;
       canonical_url_to_representative := ∅; id_to_representative := ∅;
       primary_id_by_representative := ∅ |}
    (pb_sources st).

End Build.

Definition build_for_schema catalog legacy blocklists profiles defaults (schema_version : Z) :=
  build_with_control_mode catalog blocklists profiles defaults (for_schema_version schema_version) legacy.

(** ** Lookups on the plan *)

Definition representatives (plan : ResolvedSourcePlan) : list str :=
  map rs_representative (plan_sources plan).

Definition representative_for_source (plan : ResolvedSourcePlan) (source : str) : option str :=
  match source_to_representative plan !! source with
  | Some r => Some r
  | None =>
    match canonical_url_to_representative plan !! canonical_url_key source with
    | Some r => Some r
    | None => ok (Id_new source) ≫= fun id => id_to_representative plan !! id
    end
  end.

Definition fetch_url_for_source (plan : ResolvedSourcePlan) (source : str) : option str :=
  representative_for_source plan source ≫= fun r =>
    rs_fetch_url <$> List.find (fun s => str_eqb (rs_representative s) r) (plan_sources plan).

Definition primary_id_for_source (plan : ResolvedSourcePlan) (source : str) : option str :=
  representative_for_source plan source ≫= fun r => primary_id_by_representative plan !! r.

(** The parser a row forces: [Domains] leaves the format to detection. *)
Definition forced_format (f : BlocklistFormat) : option ListFormat :=
  match f with FmtDomains => None | FmtHosts => Some Hosts | FmtAdguard => Some AdGuard end.

Record ManagerSourceMaps := {
  source_to_blocklist : gmap str (str * Z);
  source_to_format : gmap str ListFormat;
  source_to_max_entries : gmap str Z;
}.

(** One source of [manager_source_maps]: every alias gets its cap, and the
    aliases of an owned source its owner and forced format. *)
Definition manager_step (m : ManagerSourceMaps) (s : ResolvedSource) : ManagerSourceMaps :=
  let put {A} (v : A) (t : gmap str A) : gmap str A :=
    foldl (fun t a => <[a := v]> t) t (rs_source_aliases s) in
  let caps := put (rs_effective_max_entries s) (source_to_max_entries m) in
  match rs_owner s with
  | None =>
    {| source_to_blocklist := source_to_blocklist m; source_to_format := source_to_format m;
       source_to_max_entries := caps |}
  | Some o =>
    {| source_to_blocklist := put (bl_id o, bl_max_consecutive_failures o) (source_to_blocklist m);
       source_to_format :=
         match forced_format (bl_format o) with
         | Some f => put f (source_to_format m)
         | None => source_to_format m
         end;
       source_to_max_entries := caps |}
  end.

Definition manager_source_maps (plan : ResolvedSourcePlan) : ManagerSourceMaps :=
  foldl manager_step
    {| source_to_blocklist := ∅; source_to_format := ∅; source_to_max_entries := ∅ |}
    (plan_sources plan).

(** ** Bits *)

Definition MAX_LIST_SOURCES : nat := 64.

Record TooManySources := { tms_got : nat; tms_max : nat }.

Record SourceBitMap := {
  by_url : gmap str nat;
  by_canonical_url : gmap str nat;
  by_v1_id : gmap str nat;
  by_legacy_catalog_id : gmap str nat;
  bit_representatives : list str;
}.

(** [entry(k).or_insert(v)]. *)
Definition or_insert {A} (k : str) (v : A) (m : gmap str A) : gmap str A :=
  match m !! k with Some _ => m | None => <[k := v]> m end.

Definition or_insert_all {A} (ks : list str) (v : A) (m : gmap str A) : gmap str A :=
  foldl (fun m k => or_insert k v m) m ks.

(** One source of [from_plan]. *)
Definition plan_bit (m : SourceBitMap) (bit : nat) (s : ResolvedSource) : SourceBitMap :=
  {| by_url := or_insert_all (rs_source_aliases s) bit (by_url m);
     by_canonical_url := or_insert (rs_canonical_url s) bit (by_canonical_url m);
     by_v1_id := or_insert_all (rs_id_aliases s) bit (by_v1_id m);
     by_legacy_catalog_id :=
       or_insert_all (List.filter (fun a => negb (is_url_source a)) (rs_source_aliases s)) bit
         (by_legacy_catalog_id m);
     bit_representatives := bit_representatives m |}.

Fixpoint plan_bits (bit : nat) (ss : list ResolvedSource) (m : SourceBitMap) : SourceBitMap :=
  match ss with
  | [] => m
  | s :: rest => plan_bits (S bit) rest (plan_bit m bit s)
  end.

Definition from_plan (plan : ResolvedSourcePlan) : result TooManySources SourceBitMap :=
  let n := length (plan_sources plan) in
  if MAX_LIST_SOURCES <? n then Err {| tms_got := n; tms_max := MAX_LIST_SOURCES |}
  else Ok (plan_bits 0 (plan_sources plan)
             {| by_url := ∅; by_canonical_url := ∅; by_v1_id := ∅; by_legacy_catalog_id := ∅;
                bit_representatives := representatives plan |}).

Definition bit_for_v1_id (m : SourceBitMap) (id : str) : option nat := by_v1_id m !! id.

Definition bit_for_url (m : SourceBitMap) (url : str) : option nat :=
  match by_url m !! url with
  | Some bit => Some bit
  | None => by_canonical_url m !! canonical_url_key url
  end.

Definition bit_for_legacy_catalog_id (m : SourceBitMap) (id : str) : option nat :=
  by_legacy_catalog_id m !! id.

Definition bit_for_list (m : SourceBitMap) (b : Blocklist) : option nat :=
  if bl_enabled b then bit_for_v1_id m (bl_id b) else None.

(** ** Projection *)

(** [masks.block |= 1u64 << bit], by direction. *)
Definition add_direction (m : SourceBitMap) (dir : Blocklist → ListDirection)
    (masks : ProfileMasks) (b : Blocklist) : ProfileMasks :=
  match bit_for_list m b with
  | None => masks
  | Some bit =>
    let one := as_u64 (Z.shiftl 1 (Z.of_nat bit)) in
    match dir b with
    | Deny => {| pm_allow := pm_allow masks; pm_block := Z.lor (pm_block masks) one |}
    | Allow => {| pm_allow := Z.lor (pm_allow masks) one; pm_block := pm_block masks |}
    | Ignore => masks
    end
  end.

Definition project_masks (m : SourceBitMap) (bls : list Blocklist) (dir : Blocklist → ListDirection)
  : ProfileMasks :=
  foldl (add_direction m dir) INERT bls.

Definition project_policy (m : SourceBitMap) (bls : list Blocklist) (ps : Profiles) : PolicyMasks :=
  {| policy_base := project_masks m bls (fun b => as_policy (bl_base b));
     policy_per_profile :=
       foldl (fun t '(pid, p) => <[pid := project_masks m bls (effective_direction p)]> t) ∅ ps |}.
