(* ===== verification/SourcePlan.v ===== *)
(** * From the operator's directions to mask bits

    The plan of [SourceKey] keeps one source per canonical URL, every enabled
    row is an alias of exactly one source, and rows that share a source agree
    on their directions.  So the projected masks hold the bit of a row on the
    side its effective direction says and on no other side. *)

From S2P Require Import Prelude RustStr Shard Compiler SourceKey.

(** ** Growth of the plan *)

(** A source keeps its identity and its owner and only gains aliases. *)
Record extends (s s' : ResolvedSource) : Prop := {
  ext_rep : rs_representative s' = rs_representative s;
  ext_url : rs_canonical_url s' = rs_canonical_url s;
  ext_src : rs_source_aliases s ⊆ rs_source_aliases s';
  ext_ids : rs_id_aliases s ⊆ rs_id_aliases s';
  ext_owner : ∀ o, rs_owner s = Some o → rs_owner s' = Some o;
}.

Definition grow (ss ss' : list ResolvedSource) : Prop :=
  ∀ i s, ss !! i = Some s → ∃ s', ss' !! i = Some s' ∧ extends s s'.

#[export] Instance extends_preorder : PreOrder extends.
Proof.
  split; [by intros s; split|]. intros s1 s2 s3 [] []. split; try congruence; try set_solver.
Qed.

#[export] Instance grow_preorder : PreOrder grow.
Proof.
  split; [intros ss i s Hs; by exists s|].
  intros a b c Hab Hbc i s Hs. destruct (Hab _ _ Hs) as (s' & Hs' & He).
  destruct (Hbc _ _ Hs') as (s'' & ? & ?). exists s''. split; [done|]. by transitivity s'.
Qed.

Lemma extends_add_source_aliases l s : extends s (add_source_aliases l s).
Proof. split; cbn; try done. set_solver. Qed.

Lemma extends_add_id_alias id s : extends s (add_id_alias id s).
Proof. split; cbn; try done. set_solver. Qed.

Lemma extends_own b d m s : rs_owner s = None → extends s (own b d m s).
Proof. intros H. split; cbn; try done. congruence. Qed.

Lemma grow_alter ss i s f : ss !! i = Some s → extends s (f s) → grow ss (alter f i ss).
Proof.
  intros Hi Hf j t Hj. destruct (decide (i = j)) as [->|Hne].
  - rewrite Hi in Hj. injection Hj as <-. exists (f s). by rewrite list_lookup_alter_eq, Hi.
  - exists t. by rewrite list_lookup_alter_ne.
Qed.

Lemma grow_snoc ss s : grow ss (ss ++ [s]).
Proof. intros i t Hi. exists t. by rewrite (lookup_app_l_Some _ _ _ _ Hi). Qed.

(** ** Well-formed plans under construction *)

Section Plan.
Context (catalog : list CatalogEntry) (blocklists : list Blocklist) (profiles : Profiles).
Context (defaults : RowControlDefaults) (mode : RowControlMode).

Abbreviation fetched := (legacy_fetch_url catalog blocklists).

(** A source is the resolution of its representative spelling. *)
Definition resolves (s : ResolvedSource) : Prop :=
  ∃ f, fetched (rs_representative s) = Some f ∧ rs_canonical_url s = canonical_url_key f.

Record building_wf (st : Building) : Prop := {
  wf_index u i : pb_by_canonical st !! u = Some i ↔
    ∃ s, pb_sources st !! i = Some s ∧ rs_canonical_url s = u;
  wf_resolves i s : pb_sources st !! i = Some s → resolves s;
}.

(** A source answers to its own representative. *)
Definition listed (ss : list ResolvedSource) : Prop :=
  ∀ i s, ss !! i = Some s → rs_representative s ∈ rs_source_aliases s.

Lemma url_fetched s : is_url_source s = true → fetched s = Some s.
Proof. intros H. unfold legacy_fetch_url, resolve. unfold is_url_source in H. by rewrite H. Qed.

Lemma update_lookup st i f j :
  pb_sources (update_source i f st) !! j =
    if decide (i = j) then f <$> pb_sources st !! j else pb_sources st !! j.
Proof.
  cbn. case_decide as Hij; [subst; apply list_lookup_alter_eq|by apply list_lookup_alter_ne].
Qed.

Lemma update_wf st i s f :
  pb_sources st !! i = Some s → extends s (f s) → building_wf st →
  building_wf (update_source i f st).
Proof.
  intros Hi He [Hix Hr]. split.
  - intros u j. cbn [pb_by_canonical update_source]. rewrite Hix, update_lookup.
    case_decide as Hij; [subst j|done]. rewrite Hi. cbn. split; intros (t & [= <-] & <-);
      eexists; (split; [done|]); [|symmetry]; apply He.
  - intros j t. rewrite update_lookup. case_decide as Hij; [subst j|by apply Hr].
    rewrite Hi. intros [= <-]. destruct (Hr _ _ Hi) as (u & Hu & Hc). exists u.
    by rewrite (ext_rep _ _ He), (ext_url _ _ He).
Qed.

Lemma update_listed st i s f :
  pb_sources st !! i = Some s → extends s (f s) → listed (pb_sources st) →
  listed (pb_sources (update_source i f st)).
Proof.
  intros Hi He Hl j t. rewrite update_lookup. case_decide as Hij; [subst j|by apply Hl].
  rewrite Hi. intros [= <-]. rewrite (ext_rep _ _ He). apply (ext_src _ _ He), (Hl _ _ Hi).
Qed.

Lemma push_or_get_old st rep url canon i :
  pb_by_canonical st !! canon = Some i → push_or_get defaults mode st rep url canon = (st, i).
Proof. intros H. unfold push_or_get. by rewrite H. Qed.

Lemma push_or_get_new st rep url :
  building_wf st → fetched rep = Some url →
  pb_by_canonical st !! canonical_url_key url = None →
  ∃ s, rs_representative s = rep ∧ rs_canonical_url s = canonical_url_key url ∧
    let st' := {| pb_sources := pb_sources st ++ [s];
                  pb_by_canonical := <[canonical_url_key url := length (pb_sources st)]> (pb_by_canonical st);
                  pb_catalog_ids := pb_catalog_ids st |} in
    push_or_get defaults mode st rep url (canonical_url_key url) = (st', length (pb_sources st)) ∧
    building_wf st'.
Proof.
  intros [Hix Hr] Hf Hn. unfold push_or_get. rewrite Hn. eexists. split; [|split; [|split; [reflexivity|split]]]; [reflexivity|reflexivity|..].
  - intros u j. cbn [pb_sources pb_by_canonical]. rewrite lookup_insert_Some, Hix. split.
    + intros [[<- <-]|[Hne (s & Hs & Hc)]].
      * eexists. by rewrite lookup_app_r, Nat.sub_diag by lia.
      * exists s. by rewrite (lookup_app_l_Some _ _ _ _ Hs).
    + intros (s & Hs & Hc). apply lookup_app_Some in Hs as [Hs|[Hlen Hs]].
      * right. split; [|eauto]. intros <-. rewrite <- Hc in Hn.
        assert (pb_by_canonical st !! rs_canonical_url s = Some j) by (apply Hix; eauto). congruence.
      * apply list_lookup_singleton_Some in Hs as [? <-]. left. split; [done|lia].
  - intros j t Ht. cbn [pb_sources] in Ht. apply lookup_app_Some in Ht as [Ht|[Hlen Ht]]; [by eapply Hr|].
    apply list_lookup_singleton_Some in Ht as [_ <-]. exists url. done.
Qed.

(** Placing a spelling: the source of its canonical URL is found or created and
    then updated. *)
Lemma place_spec st rep url f st' i :
  building_wf st → listed (pb_sources st) → fetched rep = Some url →
  push_or_get defaults mode st rep url (canonical_url_key url) = (st', i) →
  (∀ s, extends s (f s)) → (∀ s, rep ∈ rs_source_aliases (f s)) →
  building_wf (update_source i f st') ∧ listed (pb_sources (update_source i f st')) ∧
  grow (pb_sources st) (pb_sources (update_source i f st')) ∧
  ∃ s, pb_sources (update_source i f st') !! i = Some (f s) ∧
       rs_canonical_url s = canonical_url_key url.
Proof.
  intros Hwf Hl Hf Hp He Hrep. destruct (pb_by_canonical st !! canonical_url_key url) as [k|] eqn:Hk.
  - rewrite (push_or_get_old _ _ _ _ _ Hk) in Hp. injection Hp as <- <-.
    destruct (proj1 (wf_index _ Hwf _ _) Hk) as (s & Hs & Hc). split_and!.
    + by eapply update_wf.
    + by eapply update_listed.
    + by eapply grow_alter.
    + exists s. rewrite update_lookup, decide_True, Hs by done. done.
  - destruct (push_or_get_new st rep url Hwf Hf Hk) as (s & Hsr & Hsc & Hpush & Hwf').
    rewrite Hpush in Hp. injection Hp as <- <-.
    assert (Hs : (pb_sources st ++ [s]) !! length (pb_sources st) = Some s)
      by (by rewrite lookup_app_r, Nat.sub_diag by lia).
    split_and!.
    + by eapply update_wf.
    + intros j t. rewrite update_lookup. case_decide as Hj; cbn [pb_sources].
      * subst j. rewrite Hs. intros [= <-]. rewrite (ext_rep _ _ (He s)), Hsr. apply Hrep.
      * intros Ht. apply lookup_app_Some in Ht as [Ht|[Hlen Ht]]; [by eapply Hl|].
        apply list_lookup_singleton_Some in Ht as [? _]. lia.
    + etransitivity; [apply grow_snoc|]. by eapply grow_alter.
    + exists s. rewrite update_lookup, decide_True by done. cbn [pb_sources]. by rewrite Hs.
Qed.

Definition good (st : Building) : Prop := building_wf st ∧ listed (pb_sources st).

Lemma good_update st i s f :
  pb_sources st !! i = Some s → extends s (f s) → good st → good (update_source i f st).
Proof. intros Hi He [Hw Hl]. split; [by eapply update_wf|by eapply update_listed]. Qed.

Lemma good_claim_id id v st : good st → good (claim_id id v st).
Proof. intros [[] ?]. by split. Qed.

Lemma legacy_step_good st source st' :
  good st → legacy_step catalog blocklists defaults mode st source = Ok st' → good st'.
Proof.
  intros [Hw Hl]. unfold legacy_step. destruct (fetched source) as [url|] eqn:Hf; [|by intros [= <-]].
  destruct (push_or_get _ _ _ _ _ _) as [st1 i] eqn:Hp.
  destruct (place_spec _ _ _ (add_source_aliases [source]) _ _ Hw Hl Hf Hp) as (Hw1 & Hl1 & _ & s & Hs & Hc).
  { apply extends_add_source_aliases. } { set_solver. }
  destruct (legacy_id_of source) as [id|]; [|by intros [= <-]].
  assert (good (update_source i (add_id_alias id) (update_source i (add_source_aliases [source]) st1))) as Hg
    by (eapply good_update; [done|apply extends_add_id_alias|done]).
  intros H. repeat (case_match; simplify_eq/=; try done). by apply good_claim_id.
Qed.

(** The row is an alias of the source of its URL, and agrees with its owner. *)
Definition seated (ss : list ResolvedSource) (b : Blocklist) : Prop :=
  ∃ i s o, ss !! i = Some s ∧ rs_canonical_url s = canonical_url_key (bl_url b) ∧
    bl_id b ∈ rs_id_aliases s ∧ bl_url b ∈ rs_source_aliases s ∧
    rs_owner s = Some o ∧ blocklist_alias_conflict o b profiles defaults mode = None.

Lemma seated_grow ss ss' b : grow ss ss' → seated ss b → seated ss' b.
Proof.
  intros Hg (i & s & o & Hi & Hc & Hid & Hurl & Ho & Hb).
  destruct (Hg _ _ Hi) as (s' & Hi' & [E1 E2 E3 E4 E5]).
  exists i, s', o. split_and!; [done|congruence|set_solver|set_solver|auto|done].
Qed.

Lemma direction_conflict_refl b ps : direction_conflict b b ps = None.
Proof. induction ps as [|[pid p] ps IH]; [done|]. cbn. by rewrite decide_True. Qed.

Lemma alias_conflict_refl b : blocklist_alias_conflict b b profiles defaults mode = None.
Proof.
  unfold blocklist_alias_conflict. rewrite direction_conflict_refl, !Z.eqb_refl.
  by rewrite !bool_decide_true.
Qed.

Lemma row_step_good st b st' :
  good st → is_url_source (bl_url b) = true →
  row_step profiles defaults mode st b = Ok st' →
  good st' ∧ grow (pb_sources st) (pb_sources st') ∧ seated (pb_sources st') b.
Proof.
  intros [Hw Hl] Hu H. unfold row_step in H. apply rbind_Ok in H as ([] & _ & H).
  destruct (push_or_get _ _ _ _ _ _) as [st1 i] eqn:Hp.
  set (f := _ ∘ _) in H.
  destruct (place_spec _ _ _ f _ _ Hw Hl (url_fetched _ Hu) Hp) as (Hw1 & Hl1 & Hg & s & Hs & Hc).
  { intros s. etransitivity; [apply extends_add_source_aliases|apply extends_add_id_alias]. }
  { intros s. cbn. set_solver. }
  assert (bl_id b ∈ rs_id_aliases (f s) ∧ bl_url b ∈ rs_source_aliases (f s)) as [Hid Hurl]
    by (cbn; set_solver).
  assert (rs_canonical_url (f s) = canonical_url_key (bl_url b)) as Hcan by done.
  rewrite Hs in H. cbn [mbind option_bind] in H. destruct (rs_owner (f s)) as [o|] eqn:Ho.
  - destruct (blocklist_alias_conflict _ _ _ _ _) eqn:Hb; [done|]. injection H as <-.
    split; [done|]. split; [done|]. exists i, (f s), o. done.
  - injection H as <-. assert (He := extends_own b defaults mode _ Ho). split_and!.
    + by eapply good_update.
    + etransitivity; [done|]. by eapply grow_alter.
    + exists i, (own b defaults mode (f s)), b. rewrite update_lookup, decide_True, Hs by done.
      split_and!; try done. apply alias_conflict_refl.
Qed.

(** ** Registration *)

Lemma insert_alias_spec m a s m' :
  insert_alias m a s = Ok m' → m ⊆ m' ∧ m' !! a = Some (rs_representative s).
Proof.
  unfold insert_alias. destruct (m !! a) as [e|] eqn:Ha.
  - case_decide; [|done]. intros [= <-]. split; [done|congruence].
  - intros [= <-]. split; [by apply insert_subseteq|by rewrite lookup_insert_eq].
Qed.

Lemma insert_aliases_spec m l s m' :
  try_fold (fun m a => insert_alias m a s) m l = Ok m' →
  m ⊆ m' ∧ ∀ a, a ∈ l → m' !! a = Some (rs_representative s).
Proof.
  revert m. induction l as [|x l IH]; intros m; cbn.
  { intros [= <-]. split; [done|]. set_solver. }
  intros H. apply rbind_Ok in H as (m1 & Hx & H). apply insert_alias_spec in Hx as [H1 Hx].
  apply IH in H as [H2 Hl]. split; [by transitivity m1|].
  intros a [->|Ha]%elem_of_cons; [by eapply lookup_weaken|auto].
Qed.

(** Every spelling of a registered source answers with its representative. *)
Definition registered (done : list ResolvedSource) (plan : ResolvedSourcePlan) : Prop :=
  ∀ s, s ∈ done →
    (∀ a, a ∈ rs_source_aliases s → source_to_representative plan !! a = Some (rs_representative s)) ∧
    canonical_url_to_representative plan !! rs_canonical_url s = Some (rs_representative s) ∧
    (∀ a, a ∈ rs_id_aliases s → id_to_representative plan !! a = Some (rs_representative s)).

Lemma register_step_spec done s plan plan' :
  registered done plan → register_step plan s = Ok plan' →
  registered (done ++ [s]) plan' ∧ plan_sources plan' = plan_sources plan.
Proof.
  intros Hr H. unfold register_step in H.
  apply rbind_Ok in H as (m1 & H1 & H). apply insert_aliases_spec in H1 as [S1 H1].
  apply rbind_Ok in H as (m2 & H2 & H). apply insert_alias_spec in H2 as [S2 H2].
  apply rbind_Ok in H as (m3 & H3 & H). apply insert_aliases_spec in H3 as [S3 H3].
  injection H as <-. split; [|done].
  intros t [Ht|Ht%list_elem_of_singleton]%elem_of_app; cbn; [|by subst].
  destruct (Hr t Ht) as (A & B & C). split_and!; intros; eapply lookup_weaken; eauto.
Qed.

Lemma build_spec legacy plan :
  (∀ b, b ∈ blocklists → bl_enabled b = true → is_url_source (bl_url b) = true) →
  build_with_control_mode catalog blocklists profiles defaults mode legacy = Ok plan →
  (∃ st, good st ∧ pb_sources st = plan_sources plan) ∧
  registered (plan_sources plan) plan ∧
  ∀ b, b ∈ blocklists → bl_enabled b = true → seated (plan_sources plan) b.
Proof.
  intros Hurl H. unfold build_with_control_mode in H.
  apply rbind_Ok in H as (st1 & H1 & H). apply rbind_Ok in H as (st2 & H2 & H).
  assert (good st1) as G1.
  { revert H1. apply (try_fold_inv _ (fun _ st => good st)).
    - split; [split|]; [|done..]. intros u i. cbn. rewrite lookup_empty. naive_solver.
    - intros ????? Hg. by apply legacy_step_good. }
  assert (good st2 ∧ ∀ b, b ∈ List.filter bl_enabled blocklists → seated (pb_sources st2) b) as [G2 HS].
  { revert H2. apply (try_fold_inv _ (fun d st => good st ∧ ∀ b, b ∈ d → seated (pb_sources st) b)).
    - split; [done|set_solver].
    - intros d b st st' Hb [Hg Hd] Hstep.
      apply list_elem_of_In, filter_In in Hb as [Hb He]. apply list_elem_of_In in Hb.
      destruct (row_step_good _ _ _ Hg (Hurl _ Hb He) Hstep) as (G & Hgr & Hs). split; [done|].
      intros c [Hc|Hc%list_elem_of_singleton]%elem_of_app; [|by subst].
      eapply seated_grow; eauto. }
  assert (registered (pb_sources st2) plan ∧ plan_sources plan = pb_sources st2) as [HR ->].
  { revert H. apply (try_fold_inv _ (fun d p => registered d p ∧ plan_sources p = pb_sources st2)).
    - split; [|done]. intros s Hs. set_solver.
    - intros d s p p' _ [Hd Hp] Hstep. destruct (register_step_spec _ _ _ _ Hd Hstep) as [? ->]. done. }
  split_and!; [by exists st2|done|]. intros b Hb He. apply HS. apply list_elem_of_In, filter_In.
  by rewrite <- list_elem_of_In.
Qed.

End Plan.

(** ** Bits *)

Lemma or_insert_lookup {A} k (v : A) m j :
  or_insert k v m !! j = match m !! j with Some w => Some w | None => if decide (k = j) then Some v else None end.
Proof.
  unfold or_insert. destruct (m !! k) eqn:Hk; case_decide; subst; simplify_map_eq; try done.
  all: by destruct (m !! j).
Qed.

Lemma or_insert_all_lookup {A} ks (v : A) m j :
  or_insert_all ks v m !! j =
    match m !! j with Some w => Some w | None => if decide (j ∈ ks) then Some v else None end.
Proof.
  unfold or_insert_all. revert m. induction ks as [|k ks IH]; intros m; cbn [foldl].
  { destruct (m !! j); [done|]. by rewrite decide_False by set_solver. }
  rewrite IH, or_insert_lookup. destruct (m !! j); [done|].
  repeat case_decide; try done; set_solver.
Qed.

(** A key has the bit of the first source that lists it. *)
Lemma plan_bits_lookup (proj : SourceBitMap → gmap str nat) (keys : ResolvedSource → list str) :
  (∀ m bit s, proj (plan_bit m bit s) = or_insert_all (keys s) bit (proj m)) →
  ∀ ss n m k, proj (plan_bits n ss m) !! k =
    match proj m !! k with
    | Some b => Some b
    | None => (fun x => n + fst x) <$> list_find (fun s => k ∈ keys s) ss
    end.
Proof.
  intros Hp. induction ss as [|s ss IH]; intros n m k; cbn [plan_bits list_find].
  { by destruct (proj m !! k). }
  rewrite IH, Hp, or_insert_all_lookup. destruct (proj m !! k); [done|]. case_decide; cbn.
  - f_equal. lia.
  - destruct (list_find _ ss) as [[i t]|]; cbn; [f_equal; lia|done].
Qed.

Lemma list_find_unique {A} (P : A → Prop) `{∀ x, Decision (P x)} l i x :
  l !! i = Some x → P x → (∀ j y, l !! j = Some y → P y → j = i) → list_find P l = Some (i, x).
Proof. intros Hi Hx Hu. apply list_find_Some. split_and!; try done. intros j y Hj ? Hy. apply Hu in Hj; [lia|done]. Qed.

Lemma plan_bits_unique proj keys ss i s k m :
  (∀ m bit s, proj (plan_bit m bit s) = or_insert_all (keys s) bit (proj m)) →
  proj m = ∅ → ss !! i = Some s → k ∈ keys s →
  (∀ j t, ss !! j = Some t → k ∈ keys t → j = i) → proj (plan_bits 0 ss m) !! k = Some i.
Proof.
  intros Hp Hm Hi Hk Hu. rewrite (plan_bits_lookup proj keys Hp), Hm, lookup_empty.
  by rewrite (list_find_unique _ _ _ _ Hi Hk Hu).
Qed.

(** ** Masks *)

Definition holds (m : SourceBitMap) (bls : list Blocklist) (dir : Blocklist → ListDirection)
    (d : ListDirection) (i : nat) : Prop :=
  ∃ b, b ∈ bls ∧ bit_for_list m b = Some i ∧ dir b = d.

Definition side (d : ListDirection) (masks : ProfileMasks) : Z :=
  match d with Allow => pm_allow masks | _ => pm_block masks end.

Lemma testbit_one bit i :
  bit < 64 → Z.testbit (as_u64 (Z.shiftl 1 (Z.of_nat bit))) (Z.of_nat i) = bool_decide (bit = i).
Proof.
  intros Hb. unfold as_u64. rewrite Z.shiftl_1_l, Z.mod_small.
  - rewrite Z.pow2_bits_eqb by lia. case_bool_decide; lia.
  - split; [lia|]. apply Z.pow_lt_mono_r; lia.
Qed.

Definition bits_small (m : SourceBitMap) : Prop := ∀ b i, bit_for_list m b = Some i → i < 64.

Lemma masks_testbit m bls dir d i :
  bits_small m → d ≠ Ignore →
  Z.testbit (side d (project_masks m bls dir)) (Z.of_nat i) = true ↔ holds m bls dir d i.
Proof.
  intros Hs Hd. unfold project_masks. induction bls as [|b bls IH] using rev_ind.
  { unfold holds. split; [destruct d; cbn; rewrite ?Z.testbit_0_l; done|]. set_solver. }
  rewrite foldl_snoc. assert (holds m (bls ++ [b]) dir d i ↔ holds m bls dir d i ∨ (bit_for_list m b = Some i ∧ dir b = d)) as ->.
  { unfold holds. set_solver. }
  rewrite <- IH. set (acc := foldl _ _ _). unfold add_direction.
  destruct (bit_for_list m b) as [bit|] eqn:Hb; [|split; [by left|intros [?|[??]]; congruence]].
  assert (Hone := testbit_one bit i (Hs _ _ Hb)).
  destruct (dir b) eqn:Hdir, d; cbn [side pm_allow pm_block]; try done;
    try (split; [by left|intros [?|[??]]; congruence]);
    rewrite Z.lor_spec, Hone, orb_true_iff, bool_decide_eq_true;
    (split; intros [?|?]; first [by left|right; intuition congruence]).
Qed.

(** ** The projected policy *)

Lemma conflict_none_base o b ps d m :
  blocklist_alias_conflict o b ps d m = None → bl_base o = bl_base b.
Proof. unfold blocklist_alias_conflict. by case_bool_decide. Qed.

Lemma conflict_none_direction o b ps d m pid p :
  blocklist_alias_conflict o b ps d m = None → (pid, p) ∈ ps →
  effective_direction p o = effective_direction p b.
Proof.
  unfold blocklist_alias_conflict. case_bool_decide; [|done]. cbn.
  destruct (direction_conflict o b ps) eqn:Hd; [done|]. intros _. clear -Hd. revert Hd.
  induction ps as [|[q t] ps IH]; [set_solver|]. cbn. case_decide; [|done].
  intros Hd [[= -> ->]|Hp]%elem_of_cons; auto.
Qed.

(** The bit is on the side the direction says and on no other. *)
Definition directed (masks : ProfileMasks) (bit : nat) (d : ListDirection) : Prop :=
  Z.testbit (pm_allow masks) (Z.of_nat bit) = bool_decide (d = Allow) ∧
  Z.testbit (pm_block masks) (Z.of_nat bit) = bool_decide (d = Deny).

Section Projection.
Context (catalog : list CatalogEntry) (bls : list Blocklist) (ps : Profiles).
Context (defaults : RowControlDefaults) (mode : RowControlMode) (legacy : list str).
Context (plan : ResolvedSourcePlan) (bm : SourceBitMap).
Context (Hurl : ∀ b, b ∈ bls → bl_enabled b = true → is_url_source (bl_url b) = true).
Context (Hbuild : build_with_control_mode catalog bls ps defaults mode legacy = Ok plan).
Context (Hbits : from_plan plan = Ok bm).

(** Two sources that share a representative are one source. *)
Lemma representative_unique i j s t :
  plan_sources plan !! i = Some s → plan_sources plan !! j = Some t →
  rs_representative s = rs_representative t → j = i.
Proof.
  intros Hi Hj Heq. destruct (build_spec _ _ _ _ _ _ _ Hurl Hbuild) as ((st & [[Hix Hr] _] & Hst) & _ & _).
  rewrite <- Hst in Hi, Hj.
  destruct (Hr _ _ Hi) as (u & Hu & Hcu), (Hr _ _ Hj) as (v & Hv & Hcv).
  assert (pb_by_canonical st !! rs_canonical_url s = Some i) by (apply Hix; eauto).
  assert (pb_by_canonical st !! rs_canonical_url s = Some j) by (apply Hix; exists t; split; congruence).
  congruence.
Qed.

(** Every spelling of a source has the source's position as its bit. *)
Lemma spelling_bits i s :
  plan_sources plan !! i = Some s →
  i < 64 ∧
  (∀ id, id ∈ rs_id_aliases s → bit_for_v1_id bm id = Some i) ∧
  (∀ a, a ∈ rs_source_aliases s → bit_for_url bm a = Some i) ∧
  bit_for_url bm (rs_representative s) = Some i.
Proof.
  intros Hi. destruct (build_spec _ _ _ _ _ _ _ Hurl Hbuild) as ((st & [_ Hl] & Hst) & Hreg & _).
  unfold from_plan in Hbits. destruct (MAX_LIST_SOURCES <? _) eqn:Hn; [done|]. apply Nat.ltb_ge in Hn.
  injection Hbits as <-.
  assert (Hrs := fun t j Hj => Hreg t (list_elem_of_lookup_2 _ j _ Hj)).
  assert (∀ a, a ∈ rs_source_aliases s → bit_for_url (plan_bits 0 (plan_sources plan)
    {| by_url := ∅; by_canonical_url := ∅; by_v1_id := ∅; by_legacy_catalog_id := ∅;
       bit_representatives := representatives plan |}) a = Some i) as Ha.
  { intros a Ha. unfold bit_for_url.
    rewrite (plan_bits_unique by_url rs_source_aliases _ i s); try done.
    intros j t Hj Ht. eapply representative_unique; [done..|].
    pose proof (proj1 (Hrs _ _ Hi) _ Ha). pose proof (proj1 (Hrs _ _ Hj) _ Ht). congruence. }
  split_and!.
  - apply lookup_lt_Some in Hi. unfold MAX_LIST_SOURCES in Hn. lia.
  - intros id Hid. apply (plan_bits_unique by_v1_id rs_id_aliases _ i s); try done.
    intros j t Hj Ht. eapply representative_unique; [done..|].
    destruct (Hrs _ _ Hi) as (_ & _ & H1), (Hrs _ _ Hj) as (_ & _ & H2).
    pose proof (H1 _ Hid). pose proof (H2 _ Ht). congruence.
  - done.
  - apply Ha. apply (Hl i). by rewrite Hst.
Qed.

Lemma row_seat b :
  b ∈ bls → bl_enabled b = true →
  ∃ i s o, i < 64 ∧ plan_sources plan !! i = Some s ∧
    rs_canonical_url s = canonical_url_key (bl_url b) ∧ rs_owner s = Some o ∧
    blocklist_alias_conflict o b ps defaults mode = None ∧
    bit_for_list bm b = Some i ∧ bit_for_url bm (bl_url b) = Some i ∧
    bit_for_url bm (rs_representative s) = Some i.
Proof.
  intros Hb He. destruct (build_spec _ _ _ _ _ _ _ Hurl Hbuild) as (_ & _ & HS).
  destruct (HS b Hb He) as (i & s & o & Hi & Hc & Hid & Hu & Ho & Hcf).
  destruct (spelling_bits i s Hi) as (Hlt & H1 & H2 & H3). exists i, s, o.
  unfold bit_for_list. rewrite He. split_and!; auto.
Qed.

Lemma bits_are_small : bits_small bm.
Proof.
  intros b i. unfold bit_for_list, bit_for_v1_id. destruct (bl_enabled b); [|done].
  unfold from_plan in Hbits. destruct (MAX_LIST_SOURCES <? _) eqn:Hn; [done|]. apply Nat.ltb_ge in Hn.
  injection Hbits as <-. rewrite (plan_bits_lookup by_v1_id rs_id_aliases) by done.
  cbn [by_v1_id]. rewrite lookup_empty. destruct (list_find _ _) as [[j t]|] eqn:Hf; [|done].
  intros [= <-]. apply list_find_Some in Hf as [Hj _]. apply lookup_lt_Some in Hj.
  unfold MAX_LIST_SOURCES in Hn. cbn. lia.
Qed.

(** Rows that hold one bit have one direction. *)
Lemma shared_bit_agrees dir b c i :
  (∀ o b, blocklist_alias_conflict o b ps defaults mode = None → dir o = dir b) →
  b ∈ bls → c ∈ bls → bit_for_list bm b = Some i → bit_for_list bm c = Some i →
  dir b = (dir c : ListDirection).
Proof.
  intros Hdir Hb Hc Hi Hj.
  assert (∀ x, bit_for_list bm x = Some i → bl_enabled x = true) as Hen
    by (intros x; unfold bit_for_list; by destruct (bl_enabled x)).
  destruct (row_seat b Hb (Hen _ Hi)) as (i1 & s1 & o1 & _ & L1 & _ & O1 & C1 & B1 & _).
  destruct (row_seat c Hc (Hen _ Hj)) as (i2 & s2 & o2 & _ & L2 & _ & O2 & C2 & B2 & _).
  simplify_eq. rewrite <- (Hdir _ _ C1). by apply Hdir.
Qed.

Lemma masks_directed dir b i :
  (∀ o b, blocklist_alias_conflict o b ps defaults mode = None → dir o = dir b) →
  b ∈ bls → bit_for_list bm b = Some i → directed (project_masks bm bls dir) i (dir b).
Proof.
  intros Hdir Hb Hi.
  assert (∀ d, d ≠ Ignore → Z.testbit (side d (project_masks bm bls dir)) (Z.of_nat i) = bool_decide (dir b = d)) as H.
  { intros d Hd. apply eq_bool_prop_intro. rewrite !Is_true_true, bool_decide_eq_true.
    rewrite (masks_testbit _ _ _ _ _ bits_are_small Hd). split; [|by exists b].
    intros (c & Hc & Hci & <-). by apply (shared_bit_agrees dir b c i). }
  split; [by apply (H Allow)|by apply (H Deny)].
Qed.

Lemma masks_disjoint dir :
  (∀ o b, blocklist_alias_conflict o b ps defaults mode = None → dir o = dir b) →
  Z.land (pm_allow (project_masks bm bls dir)) (pm_block (project_masks bm bls dir)) = 0%Z.
Proof.
  intros Hdir. apply Z.bits_inj'. intros n Hn. rewrite Z.land_spec, Z.bits_0, <- (Z2Nat.id n) by done.
  apply not_true_iff_false. intros [Ha Hd]%andb_true_iff.
  apply (masks_testbit _ _ _ Allow _ bits_are_small) in Ha as (b & Hb & Hbi & H1); [|done].
  apply (masks_testbit _ _ _ Deny _ bits_are_small) in Hd as (c & Hc & Hci & H2); [|done].
  pose proof (shared_bit_agrees dir b c _ Hdir Hb Hc Hbi Hci). congruence.
Qed.

End Projection.

Lemma per_profile_lookup m bls ps pid masks :
  NoDup ps.*1 →
  policy_per_profile (project_policy m bls ps) !! pid = Some masks ↔
  ∃ p, (pid, p) ∈ ps ∧ masks = project_masks m bls (effective_direction p).
Proof.
  cbn [project_policy policy_per_profile]. induction ps as [|[q p] ps IH] using rev_ind; intros Hn.
  { cbn. rewrite lookup_empty. set_solver. }
  rewrite fmap_app in Hn. apply NoDup_app in Hn as (Hn & Hd & _). cbn in Hd.
  rewrite foldl_snoc, lookup_insert_Some, (IH Hn). split.
  - intros [[<- <-]|[Hne (r & Hr & ->)]]; [exists p|exists r]; set_solver.
  - intros (r & [Hr|[= -> ->]%list_elem_of_singleton]%elem_of_app & ->); [|by left].
    right. split; [|eauto]. intros ->. apply (Hd pid); [|set_solver].
    apply list_elem_of_fmap. by exists (pid, r).
Qed.

(** When the source plan builds and fits the 64 bits, every enabled row has
    a bit below 64; the bit is the position of the source with the row's
    canonical URL, and the row's id, its URL and the representative the manager
    downloads under all look up that same bit.  The published base masks and
    the masks of each configured profile hold the bit on the side of the row's
    effective direction and on no other; allow and block never share a bit, and
    a bit is only ever set for an enabled row. *)
Theorem projected_masks_exact catalog bls ps defaults mode legacy plan bm :
  (∀ b, b ∈ bls → bl_enabled b = true → is_url_source (bl_url b) = true) →
  NoDup ps.*1 →
  build_with_control_mode catalog bls ps defaults mode legacy = Ok plan →
  from_plan plan = Ok bm →
  (∀ b, b ∈ bls → bl_enabled b = true →
    ∃ bit s, bit < 64 ∧ plan_sources plan !! bit = Some s ∧
      rs_canonical_url s = canonical_url_key (bl_url b) ∧
      bit_for_list bm b = Some bit ∧ bit_for_url bm (bl_url b) = Some bit ∧
      bit_for_url bm (rs_representative s) = Some bit ∧
      directed (policy_base (project_policy bm bls ps)) bit (as_policy (bl_base b)) ∧
      ∀ pid p, (pid, p) ∈ ps → ∃ masks,
        policy_per_profile (project_policy bm bls ps) !! pid = Some masks ∧
        directed masks bit (effective_direction p b)) ∧
  (∀ masks, masks = policy_base (project_policy bm bls ps) ∨
      (∃ pid, policy_per_profile (project_policy bm bls ps) !! pid = Some masks) →
    Z.land (pm_allow masks) (pm_block masks) = 0%Z ∧
    ∀ bit, Z.testbit (Z.lor (pm_allow masks) (pm_block masks)) (Z.of_nat bit) = true →
      ∃ b, b ∈ bls ∧ bl_enabled b = true ∧ bit_for_list bm b = Some bit).
Proof.
  intros Hurl Hn Hbuild Hbits.
  assert (Hbase : ∀ o b, blocklist_alias_conflict o b ps defaults mode = None →
    as_policy (bl_base o) = as_policy (bl_base b)) by (intros; f_equal; by eapply conflict_none_base).
  assert (Hprof : ∀ pid p, (pid, p) ∈ ps → ∀ o b, blocklist_alias_conflict o b ps defaults mode = None →
    effective_direction p o = effective_direction p b) by (intros; by eapply conflict_none_direction).
  split.
  - intros b Hb He.
    destruct (row_seat _ _ _ _ _ _ _ _ Hurl Hbuild Hbits b Hb He) as (i & s & o & Hlt & Hi & Hc & _ & _ & H1 & H2 & H3).
    exists i, s. split_and!; try done.
    + by eapply (masks_directed _ _ _ _ _ _ _ _ Hurl Hbuild Hbits (fun b => as_policy (bl_base b))).
    + intros pid p Hp. eexists. split; [apply per_profile_lookup; eauto|].
      eapply (masks_directed _ _ _ _ _ _ _ _ Hurl Hbuild Hbits); eauto.
  - intros masks Hm.
    assert (∃ dir, masks = project_masks bm bls dir ∧
      ∀ o b, blocklist_alias_conflict o b ps defaults mode = None → dir o = dir b) as (dir & -> & Hdir).
    { destruct Hm as [->|(pid & Hp)]; [by eexists|].
      apply per_profile_lookup in Hp as (p & Hp & ->); [|done]. eauto. }
    split; [by eapply masks_disjoint|].
    assert (∀ d i, d ≠ Ignore → Z.testbit (side d (project_masks bm bls dir)) (Z.of_nat i) = true →
      ∃ b, b ∈ bls ∧ bl_enabled b = true ∧ bit_for_list bm b = Some i) as H.
    { intros d i Hd Ht. apply masks_testbit in Ht as (b & Hb & Hi & _); [|by eapply bits_are_small|done].
      exists b. split_and!; try done. unfold bit_for_list in Hi. by destruct (bl_enabled b). }
    intros i. rewrite Z.lor_spec. intros [Ht|Ht]%orb_true_iff; [by apply (H Allow)|by apply (H Deny)].
Qed.

(** *** Witness: two spellings of one URL and an allow list, with a profile
    that turns the first off *)

Definition sample_row (id url : string) (base : BlocklistBase) : Blocklist :=
  {| bl_id := lit id; bl_url := lit url; bl_format := FmtDomains; bl_update_interval_hours := None;
     bl_max_entries := None; bl_enabled := true; bl_auth_token_ref := None; bl_base := base;
     bl_trust := TrustRemoteUnsigned; bl_max_consecutive_failures := 5 |}.

Definition sample_rows : list Blocklist :=
  [sample_row "ads" "https://Lists.example:443/ads/" BaseDeny;
   sample_row "work" "https://lists.example/work" BaseAllow;
   sample_row "ads-twin" "https://lists.example/ads" BaseDeny].

Definition sample_profiles : Profiles :=
  [(lit "guest", ∅); (lit "kids", <[lit "ads" := Ignore]> (<[lit "ads-twin" := Ignore]> ∅))].

Definition sample_defaults : RowControlDefaults :=
  {| rd_max_entries := 1000000; rd_update_interval_secs := 43200 |}.

Definition sample_plan : option (ResolvedSourcePlan * SourceBitMap) :=
  match build_for_schema [] [] sample_rows sample_profiles sample_defaults 4 with
  | Ok plan => match from_plan plan with Ok bm => Some (plan, bm) | Err _ => None end
  | Err _ => None
  end.

Lemma projected_masks_exact_witness :
  ∃ plan bm, sample_plan = Some (plan, bm) ∧
    bit_for_v1_id bm (lit "ads-twin") = Some 0 ∧
    ∀ masks, masks = policy_base (project_policy bm sample_rows sample_profiles) ∨
        (∃ pid, policy_per_profile (project_policy bm sample_rows sample_profiles) !! pid = Some masks) →
      Z.land (pm_allow masks) (pm_block masks) = 0%Z.
Proof.
  assert (Ht : (fun x => bit_for_v1_id (snd x) (lit "ads-twin")) <$> sample_plan = Some (Some 0))
    by (vm_compute; reflexivity).
  destruct sample_plan as [[plan bm]|] eqn:E; [|discriminate Ht].
  exists plan, bm. split; [done|].
  assert (H := E). unfold sample_plan, build_for_schema in H.
  destruct (build_with_control_mode _ _ _ _ _ _) as [pl|] eqn:Hb; [|discriminate H].
  destruct (from_plan pl) as [b|] eqn:Hf; [|discriminate H]. injection H as -> ->.
  split.
  - by apply (inj Some) in Ht.
  - intros masks Hm.
    refine (proj1 (proj2 (projected_masks_exact _ _ _ _ _ _ _ _ _ _ Hb Hf) masks Hm)).
    + intros r Hr _. unfold sample_rows in Hr. rewrite !elem_of_cons, elem_of_nil in Hr.
      by destruct Hr as [->|[->|[->|[]]]].
    + apply (bool_decide_unpack _). vm_compute. exact I.
Defined.
