(* ===== verification/Spill.v ===== *)
(** * The shard spill: [src/lists/manager.rs], lines 5375-5670 and 8640-9690

    A refresh streams each source once and routes every accepted domain to the
    spill of its shard, on disk as a stream of length-prefixed records or in
    memory as a bucket.  The spill is then sealed, counted and read back shard
    by shard into sorted arrays.  A source that fails half way is rolled back to
    the marks taken before it. *)

From S2P Require Import Prelude RustStr SortedSlice DnsTypes Domain Shard Ast Engine Utf8 ListParser.

(** ** Bytes *)

(** [u64::to_le_bytes] and [u64::from_le_bytes]. *)
Fixpoint le_bytes (k : nat) (n : Z) : str :=
  match k with
  | 0 => []
  | S k => ascii_of_N (Z.to_N (n mod 256)) :: le_bytes k (n / 256)
  end.

Definition to_le_bytes (n : Z) : str := le_bytes 8 n.

Fixpoint from_le_bytes (s : str) : Z :=
  match s with [] => 0%Z | a :: rest => (byte a + 256 * from_le_bytes rest)%Z end.

Definition is_power_of_two (x : Z) : bool := negb (x =? 0)%Z && (Z.land x (x - 1) =? 0)%Z.

(** [Read::read_exact]: what was read and what is left, or [None] at the end of
    the stream, which is then consumed. *)
Definition read_exact (n : nat) (s : str) : option (str * str) :=
  if n <=? length s then Some (take n s, drop n s) else None.

Definition SPILL_BIT_TAG : ascii := ascii_of_N 255.

(** ** Errors *)

Definition bad_bit_tag : IoError := SinkFailed (lit "shard spill bit tag is zero or not one-hot").
Definition no_bit_tag : IoError := SinkFailed (lit "shard spill domain appeared before a bit tag").
Definition unexpected_eof : IoError := SinkFailed (lit "failed to fill whole buffer").
Definition bad_bit : IoError := SinkFailed (lit "shard spill bit is zero or not one-hot").
Definition bad_domain : IoError := SinkFailed (lit "shard spill has an invalid domain").
Definition wrong_shard : IoError := SinkFailed (lit "shard spill domain is routed to the wrong shard").
Definition extent_mismatch : IoError := SinkFailed (lit "shard spill extent mismatch").
Definition invalid_index : IoError := SinkFailed (lit "invalid shard index").
Definition poisoned_error : IoError :=
  SinkFailed (lit "shard spill is poisoned by an earlier storage failure").
(** Any error of the operating system. *)
Definition storage_error : IoError := SinkFailed (lit "storage").

(** ** Records *)

(** [read_spill_records] from the current bit: what is left of the stream and
    the result.  Fuel is one more than the bytes, as every turn reads one. *)
Fixpoint read_records {A} (fuel : nat) (f : A → str → Z → result IoError A) (bit : option Z)
    (s : str) (acc : A) : option (str * result IoError A) :=
  match fuel with
  | 0 => None
  | S fuel =>
    match s with
    | [] => Some ([], Ok acc)
    | len :: rest =>
      if bool_decide (len = SPILL_BIT_TAG) then
        match read_exact 8 rest with
        | None => Some ([], Err unexpected_eof)
        | Some (raw, rest) =>
          let next_bit := from_le_bytes raw in
          if (next_bit =? 0)%Z || negb (is_power_of_two next_bit) then Some (rest, Err bad_bit_tag)
          else read_records fuel f (Some next_bit) rest acc
        end
      else
        match read_exact (Z.to_nat (byte len)) rest with
        | None => Some ([], Err unexpected_eof)
        | Some (domain, rest) =>
          if utf8_valid domain then
            match bit with
            | None => Some (rest, Err no_bit_tag)
            | Some b =>
              match f acc domain b with
              | Err e => Some (rest, Err e)
              | Ok acc => read_records fuel f bit rest acc
              end
            end
          else Some (rest, Err InvalidUtf8)
        end
    end
  end.

Definition read_spill_records {A} (f : A → str → Z → result IoError A) (s : str) (acc : A)
  : str * result IoError A :=
  default ([], Err unexpected_eof) (read_records (S (length s)) f None s acc).

Section Spill.
Context {H : ShardHasher}.

(** What the operating system does at its [n]-th call: [None] is success,
    [Some k] a failure after [k] bytes or steps. *)
Context (faults : nat → option nat).

Definition validate_spill_record (idx : nat) (domain : str) (bit : Z) : result IoError () :=
  if (bit =? 0)%Z || negb (is_power_of_two bit) then Err bad_bit
  else if negb (is_valid_domain domain) then Err bad_domain
  else if negb (shard_index domain =? idx) then Err wrong_shard
  else Ok ().

Definition validate_spill_records (idx : nat) (s : str) : result IoError () :=
  (read_spill_records (fun _ domain bit => validate_spill_record idx domain bit) s ()).2.

(** ** The spill *)

Record SpillWriter := { sw_file : str; sw_written : nat; sw_last_bit : option Z }.

#[export] Instance spill_writer_inhabited : Inhabited SpillWriter :=
  populate {| sw_file := []; sw_written := 0; sw_last_bit := None |}.

(** A sealed reader: the bytes it pins and those still to be read. *)
Record SpillReader := { rd_all : str; rd_rest : str }.

Inductive SpillStore :=
| Disk (writers : list SpillWriter) (readers : option (list (option SpillReader)))
| Memory (buckets : list (list (str * Z))).

(** [sp_calls] numbers the calls to the operating system. *)
Record ShardSpill := { sp_store : SpillStore; sp_poisoned : bool; sp_calls : nat }.

Definition open_disk : ShardSpill :=
  {| sp_store := Disk (replicate DOMAIN_SHARDS {| sw_file := []; sw_written := 0; sw_last_bit := None |}) None;
     sp_poisoned := false; sp_calls := 0 |}.

Definition memory : ShardSpill :=
  {| sp_store := Memory (replicate DOMAIN_SHARDS []); sp_poisoned := false; sp_calls := 0 |}.

(** [open]: disk when there is a cache directory. *)
Definition open (cache_dir : bool) : ShardSpill := if cache_dir then open_disk else memory.

Definition with_store (sp : ShardSpill) (st : SpillStore) (calls : nat) : ShardSpill :=
  {| sp_store := st; sp_poisoned := sp_poisoned sp; sp_calls := calls |}.

Definition poison (sp : ShardSpill) : ShardSpill :=
  {| sp_store := sp_store sp; sp_poisoned := true; sp_calls := sp_calls sp |}.

(** [if result.is_err() { self.poison(); }]. *)
Definition poison_on_err {A} (p : ShardSpill * result IoError A) : ShardSpill * result IoError A :=
  match p.2 with Ok _ => p | Err _ => (poison p.1, p.2) end.

(** [write_all] on a writer: appends, or fails with some bytes appended. *)
Definition write_all (w : SpillWriter) (bytes : str) (call : nat) : SpillWriter * bool :=
  match faults call with
  | None => ({| sw_file := sw_file w ++ bytes; sw_written := sw_written w; sw_last_bit := sw_last_bit w |}, true)
  | Some k =>
    ({| sw_file := sw_file w ++ take k bytes; sw_written := sw_written w; sw_last_bit := sw_last_bit w |}, false)
  end.

(** The bit-change record, written when the bit differs from the last one. *)
Definition write_bit (w : SpillWriter) (bit : Z) (call : nat) : SpillWriter * nat * bool :=
  if decide (sw_last_bit w = Some bit) then (w, call, true)
  else
    match write_all w (SPILL_BIT_TAG :: to_le_bytes bit) call with
    | (w, true) =>
      ({| sw_file := sw_file w; sw_written := sw_written w + 9; sw_last_bit := Some bit |}, S call, true)
    | (w, false) => (w, S call, false)
    end.

Definition write_domain (w : SpillWriter) (domain : str) (call : nat) : SpillWriter * nat * bool :=
  match write_all w (ascii_of_N (Z.to_N (as_u8 (Z.of_nat (length domain)))) :: domain) call with
  | (w, true) =>
    ({| sw_file := sw_file w; sw_written := sw_written w + (1 + length domain); sw_last_bit := sw_last_bit w |},
     S call, true)
  | (w, false) => (w, S call, false)
  end.

Definition write_entry (w : SpillWriter) (domain : str) (bit : Z) (call : nat) : SpillWriter * nat * bool :=
  match write_bit w bit call with
  | (w, call, true) => write_domain w domain call
  | failed => failed
  end.

Definition push (sp : ShardSpill) (domain : str) (bit : Z) : ShardSpill * result IoError () :=
  if sp_poisoned sp then (sp, Err poisoned_error)
  else
    let idx := shard_index domain in
    poison_on_err
      match sp_store sp with
      | Disk ws rs =>
        let '(w, call, ok) := write_entry (ws !!! idx) domain bit (sp_calls sp) in
        (with_store sp (Disk (<[idx := w]> ws) rs) call, if ok then Ok () else Err storage_error)
      | Memory bs =>
        (with_store sp (Memory (alter (fun b => b ++ [(domain, bit)]) idx bs)) (sp_calls sp), Ok ())
      end.

Definition mark (sp : ShardSpill) : list nat :=
  match sp_store sp with
  | Disk ws _ => map sw_written ws
  | Memory bs => map length bs
  end.

(** [File::set_len]: a shorter file is padded with zeros. *)
Definition set_len (s : str) (n : nat) : str := take n s ++ replicate (n - length s) NUL.

(** The writers in turn: flush, truncate and seek are one call here, which may
    fail before or after truncating. *)
Fixpoint rollback_writers (ws : list SpillWriter) (offsets : list nat) (call : nat)
  : list SpillWriter * nat * bool :=
  match ws, offsets with
  | w :: ws, offset :: offsets =>
    match faults call with
    | None =>
      let '(ws, call, ok) := rollback_writers ws offsets (S call) in
      ({| sw_file := set_len (sw_file w) offset; sw_written := offset; sw_last_bit := None |} :: ws, call, ok)
    | Some 0 => (w :: ws, S call, false)
    | Some (S _) =>
      ({| sw_file := set_len (sw_file w) offset; sw_written := sw_written w; sw_last_bit := sw_last_bit w |} :: ws,
       S call, false)
    end
  | ws, _ => (ws, call, true)
  end.

Fixpoint rollback_buckets (bs : list (list (str * Z))) (marks : list nat) : list (list (str * Z)) :=
  match bs, marks with
  | b :: bs, n :: marks => take n b :: rollback_buckets bs marks
  | bs, _ => bs
  end.

Definition rollback (sp : ShardSpill) (marks : list nat) : ShardSpill * result IoError () :=
  poison_on_err
    match sp_store sp with
    | Disk ws rs =>
      let '(ws, call, ok) := rollback_writers ws marks (sp_calls sp) in
      (with_store sp (Disk ws rs) call, if ok then Ok () else Err storage_error)
    | Memory bs =>
      (with_store sp (Memory (rollback_buckets bs marks)) (sp_calls sp), Ok ())
    end.

(** One call per writer. *)
Fixpoint flush_writers (n call : nat) : nat * bool :=
  match n with
  | 0 => (call, true)
  | S n => match faults call with None => flush_writers n (S call) | Some _ => (S call, false) end
  end.

Definition flush (sp : ShardSpill) : ShardSpill * result IoError () :=
  if sp_poisoned sp then (sp, Err poisoned_error)
  else
    poison_on_err
      match sp_store sp with
      | Disk ws _ =>
        let '(call, ok) := flush_writers (length ws) (sp_calls sp) in
        (with_store sp (sp_store sp) call, if ok then Ok () else Err storage_error)
      | Memory _ => (sp, Ok ())
      end.

(** ** Sealing *)

(** Opening the files again: the bytes found at a path, or an error. *)
Fixpoint seal (reopen : nat → str → option str) (idx : nat) (ws : list SpillWriter)
  : result IoError (list (option SpillReader)) :=
  match ws with
  | [] => Ok []
  | w :: ws =>
    let? bytes := ok_or (reopen idx (sw_file w)) storage_error in
    if negb (length bytes =? sw_written w) then Err extent_mismatch
    else
      let? _ := validate_spill_records idx bytes in
      let? rest := seal reopen (S idx) ws in
      Ok (Some {| rd_all := bytes; rd_rest := bytes |} :: rest)
  end.

Definition validate_entries (idx : nat) (b : list (str * Z)) : result IoError () :=
  try_fold (fun _ e => validate_spill_record idx e.1 e.2) () b.

Fixpoint validate_buckets (idx : nat) (bs : list (list (str * Z))) : result IoError () :=
  match bs with
  | [] => Ok ()
  | b :: bs => let? _ := validate_entries idx b in validate_buckets (S idx) bs
  end.

Definition prepare_validate (reopen : nat → str → option str) (sp : ShardSpill)
  : ShardSpill * result IoError () :=
  if sp_poisoned sp then (sp, Err poisoned_error)
  else
    poison_on_err
      match sp_store sp with
      | Disk ws rs =>
        match seal reopen 0 ws with
        | Ok sealed => (with_store sp (Disk ws (Some sealed)) (sp_calls sp), Ok ())
        | Err e => (sp, Err e)
        end
      | Memory bs => (sp, validate_buckets 0 bs)
      end.

(** ** Reading back *)

(** The records of shard [idx] that a pass reads, with the spill after it: a
    sealed reader is left at the end of what was read.  Without sealed readers
    the file itself is opened.  [faults] may end the pass early. *)
Definition read_shard (sp : ShardSpill) (idx : nat) : ShardSpill * result IoError (list (str * Z)) :=
  let collect := fun acc domain bit => Ok (acc ++ [(domain, bit)]) in
  match sp_store sp with
  | Disk ws (Some rs) =>
    match rs !! idx ≫= id with
    | None => (sp, Err invalid_index)
    | Some r =>
      let left_at rest := Disk ws (Some (<[idx := Some {| rd_all := rd_all r; rd_rest := rest |}]> rs)) in
      match faults (sp_calls sp) with
      | Some k => (with_store sp (left_at (drop k (rd_rest r))) (S (sp_calls sp)), Err storage_error)
      | None =>
        let '(rest, raw) := read_spill_records collect (rd_rest r) [] in
        (with_store sp (left_at rest) (S (sp_calls sp)), raw)
      end
    end
  | Disk ws None =>
    match faults (sp_calls sp) with
    | Some _ => (with_store sp (sp_store sp) (S (sp_calls sp)), Err storage_error)
    | None =>
      (with_store sp (sp_store sp) (S (sp_calls sp)), (read_spill_records collect (sw_file (ws !!! idx)) []).2)
    end
  | Memory bs =>
    match bs !! idx with
    | None => (sp, Err invalid_index)
    | Some b => (sp, Ok b)
    end
  end.

Definition rewind_shard (sp : ShardSpill) (idx : nat) : ShardSpill * result IoError () :=
  if sp_poisoned sp then (sp, Err poisoned_error)
  else
    match sp_store sp with
    | Disk ws rs =>
      match rs with
      | None => (sp, Err invalid_index)
      | Some rs =>
        match rs !! idx ≫= id with
        | None => (sp, Err invalid_index)
        | Some r =>
          match faults (sp_calls sp) with
          | Some _ => (with_store sp (sp_store sp) (S (sp_calls sp)), Err storage_error)
          | None =>
            (with_store sp (Disk ws (Some (<[idx := Some {| rd_all := rd_all r; rd_rest := rd_all r |}]> rs)))
               (S (sp_calls sp)), Ok ())
          end
        end
      end
    | Memory bs => (sp, match bs !! idx with Some _ => Ok () | None => Err invalid_index end)
    end.

(** The per-bit counters, indexed by [trailing_zeros]; a larger index is
    ignored. *)
Definition credit (bit : Z) (by_bit : list Z) : list Z :=
  alter (fun n => n + 1)%Z (Z.to_nat (trailing_zeros bit)) by_bit.

(** [observe]: the first record of a hash counts and is credited. *)
Fixpoint observe_all (hasher : str → Z) (raw : list (str * Z)) (seen : gset Z) (by_bit : list Z)
  : gset Z * list Z :=
  match raw with
  | [] => (seen, by_bit)
  | (domain, bit) :: raw =>
    if decide (hasher domain ∈ seen) then observe_all hasher raw seen by_bit
    else observe_all hasher raw ({[hasher domain]} ∪ seen) (credit bit by_bit)
  end.

Definition count_unique (hasher : str → Z) (sp : ShardSpill) (idx : nat) (novel_by_bit : list Z)
  : ShardSpill * result IoError (Z * list Z) :=
  if sp_poisoned sp then (sp, Err poisoned_error)
  else
    poison_on_err
      match read_shard sp idx with
      | (sp, Err e) => (sp, Err e)
      | (sp, Ok raw) =>
        let '(seen, novel) := observe_all hasher raw ∅ novel_by_bit in
        let counted := (Z.of_nat (size seen), novel) in
        match sp_store sp with
        | Disk _ (Some _) =>
          match rewind_shard sp idx with
          | (sp, Ok _) => (sp, Ok counted)
          | (sp, Err e) => (sp, Err e)
          end
        | _ => (sp, Ok counted)
        end
      end.

Definition release_after_swap (sp : ShardSpill) (idx : nat) : ShardSpill :=
  match sp_store sp with
  | Disk ws (Some rs) => with_store sp (Disk ws (Some (<[idx := None]> rs))) (sp_calls sp)
  | Disk _ None => sp
  | Memory bs => with_store sp (Memory (<[idx := []]> bs)) (sp_calls sp)
  end.

(** ** Building a shard *)

(** [sort_by] on the keys is stable: an element goes before the first later
    element whose key is not smaller. *)
Fixpoint sorted_insert (x : str * Z) (l : list (str * Z)) : list (str * Z) :=
  match l with
  | [] => [x]
  | y :: l' => if decide (key_le x y) then x :: l else y :: sorted_insert x l'
  end.

Definition stable_sort (l : list (str * Z)) : list (str * Z) := foldr sorted_insert [] l.

(** The first element of each run of equal domains is credited. *)
Fixpoint credit_runs (prev : option str) (l : list (str * Z)) (by_bit : list Z) : list Z :=
  match l with
  | [] => by_bit
  | (d, bit) :: l =>
    credit_runs (Some d) l (if decide (prev = Some d) then by_bit else credit bit by_bit)
  end.

Record BuiltShard := { bs_shard : SortedShard; bs_added_by_bit : list Z }.

Definition shard_of_records (raw : list (str * Z)) (p : ListPolicy) : result IoError BuiltShard :=
  let raw := stable_sort raw in
  let added_by_bit := credit_runs None raw (replicate 64 0%Z) in
  match from_sorted_entries (dedup raw) p with
  | Ok shard => Ok {| bs_shard := shard; bs_added_by_bit := added_by_bit |}
  | Err _ => Err (SinkFailed (lit "shard order"))
  end.

Definition build_shard (sp : ShardSpill) (idx : nat) (p : ListPolicy)
  : ShardSpill * result IoError BuiltShard :=
  if sp_poisoned sp then (sp, Err poisoned_error)
  else
    let '(sp, raw) := read_shard sp idx in
    (sp, let? raw := raw in shard_of_records raw p).

(** ** Parsing a source into the spill *)

(** [ShardSpillSink]: the spill and the hashes seen, when they are counted. *)
Record ShardSpillSink := { sk_spill : ShardSpill; sk_seen : option (gset Z) }.

#[export] Instance shard_spill_sink (hasher : str → Z) : DomainSink ShardSpillSink := fun s domain bit =>
  let '(sp, r) := push (sk_spill s) domain bit in
  ({| sk_spill := sp; sk_seen := (fun seen => {[hasher domain]} ∪ seen) <$> sk_seen s |}, r).

(** The counts of a previous cycle that the guards read. *)
Record ListStatus := { ls_unique_domains : Z; ls_prev_entries : option Z }.

Inductive UniqueCount := Measure (hint : option Z) | Carried (n : Z).

(** [NonZeroU64::new]. *)
Definition non_zero (n : Z) : option Z := if (n =? 0)%Z then None else Some n.

Definition prior (prev : option ListStatus) (max_entries : Z) : option Z :=
  prev ≫= fun p => non_zero (Z.min (ls_unique_domains p) max_entries).

Definition measure (prev : option ListStatus) (max_entries : Z) : UniqueCount :=
  Measure (prior prev max_entries).

Definition carry_or_measure (prev : option ListStatus) (max_entries : Z) : UniqueCount :=
  match prior prev max_entries with Some n => Carried n | None => Measure None end.

Inductive SpillParseFailure := ParseFailed (e : IoError) | CapRefusal (max_entries dropped : Z).

Record SpillParseError := { pe_failure : SpillParseFailure; pe_rollback : option IoError }.

Definition result_err {A} (r : result IoError A) : option IoError :=
  match r with Ok _ => None | Err e => Some e end.

(** Rolling back, with the error that its own failure adds. *)
Definition roll_back (sp : ShardSpill) (marks : list nat) (f : SpillParseFailure)
  : ShardSpill * SpillParseError :=
  let '(sp, r) := rollback sp marks in (sp, {| pe_failure := f; pe_rollback := result_err r |}).

Record ParsedSpillBody := { pb_counts : ParsedCounts; pb_digest : str; pb_len : nat }.

(** [None] would be the parser running out of turns.  A successful parse has
    read the stream to its end, so the digest of what was read is that of the
    whole stream. *)
Definition parse_source_into_spill_counted {SHA : Sha2Crate} (hasher : str → Z) (cancelled : nat → bool)
    (reader : str) (bit_mask : Z) (sp : ShardSpill) (max_entries : Z) (declared : option ListFormat)
    (counting : UniqueCount) : option (ShardSpill * result SpillParseError ParsedSpillBody) :=
  let marks := mark sp in
  let sink :=
    {| sk_spill := sp; sk_seen := match counting with Measure _ => Some ∅ | Carried _ => None end |} in
  match parse_list_streaming (H := shard_spill_sink hasher) cancelled reader bit_mask sink max_entries declared with
  | OutOfFuel => None
  | Finished st (Err e) =>
    let '(sp, err) := roll_back (sk_spill (pg_sink st)) marks (ParseFailed e) in Some (sp, Err err)
  | Finished st (Ok _) =>
    let sp := sk_spill (pg_sink st) in
    let dropped := parsed_truncated (pg_counts st) in
    if (0 <? dropped)%Z then
      let '(sp, err) := roll_back sp marks (CapRefusal max_entries dropped) in Some (sp, Err err)
    else
      let unique :=
        match sk_seen (pg_sink st), counting with
        | Some seen, _ => Z.of_nat (size seen)
        | None, Carried n => n
        | None, Measure _ => 0%Z
        end in
      Some (sp, Ok {| pb_counts := with_unique (pg_counts st) unique;
                      pb_digest := sha256 reader; pb_len := length reader |})
  end.

(** A body whose bytes must match: [accepts] is the check of its length and
    digest.  The outer mark covers a mismatch found after the parse. *)
Definition parse_verified {SHA : Sha2Crate} (hasher : str → Z) (cancelled : nat → bool) (reader : str)
    (bit_mask : Z) (sp : ShardSpill) (max_entries : Z) (declared : option ListFormat)
    (counting : UniqueCount) (accepts : ParsedSpillBody → bool)
  : option (ShardSpill * result SpillParseError (ParsedCounts * str)) :=
  let marks := mark sp in
  match parse_source_into_spill_counted hasher cancelled reader bit_mask sp max_entries declared counting with
  | None => None
  | Some (sp, Err e) => Some (sp, Err e)
  | Some (sp, Ok parsed) =>
    if accepts parsed then Some (sp, Ok (pb_counts parsed, pb_digest parsed))
    else
      let '(sp, err) := roll_back sp marks (ParseFailed (SinkFailed (lit "body changed"))) in Some (sp, Err err)
  end.

(** A fresh download: the staged body's length and digest, when it is staged. *)
Definition parse_fresh_download_into_spill_counted {SHA : Sha2Crate} hasher cancelled reader bit_mask sp
    max_entries declared counting (staged : option (nat * str)) :=
  parse_verified hasher cancelled reader bit_mask sp max_entries declared counting
    (fun parsed => match staged with
                   | None => true
                   | Some (len, digest) => (pb_len parsed =? len) && str_eqb (pb_digest parsed) digest
                   end).

(** A retained body: the digest of its manifest, when it has one. *)
Definition parse_retained_source_into_spill_counted {SHA : Sha2Crate} hasher cancelled reader bit_mask sp
    max_entries declared counting (expected : option str) :=
  parse_verified hasher cancelled reader bit_mask sp max_entries declared counting
    (fun parsed => match expected with
                   | None => true
                   | Some digest => str_eqb digest (pb_digest parsed)
                   end).

End Spill.

(** ** Guards *)

(** The accepted movement's percentage is for the log and is left out. *)
Inductive ShrinkVerdict := ShrinkAccept | ShrinkRefuse (drop_pct got kept : Z).

Definition shrink_baseline (prev : option ListStatus) (max_entries : Z) : option Z :=
  prev ≫= fun p =>
    if (0 <? ls_unique_domains p)%Z then Some (Z.min (ls_unique_domains p) max_entries)
    else ls_prev_entries p ≫= fun entries => non_zero (Z.min entries max_entries).

Definition compute_shrink_verdict (enabled : bool) (max_drop_pct : Z) (prev : option ListStatus)
    (fresh_unique max_entries : Z) : ShrinkVerdict :=
  if negb enabled then ShrinkAccept
  else
    match shrink_baseline prev max_entries with
    | None => ShrinkAccept
    | Some b =>
      if (fresh_unique * 100 <? b * (100 - max_drop_pct))%Z
      then ShrinkRefuse (as_u32 (saturating_sub b fresh_unique * 100 / b)) fresh_unique b
      else ShrinkAccept
    end.
