(* ===== verification/SpillProofs.v ===== *)
(** * The spill keeps what was pushed

    The record format reads back as written, a spill on disk behaves as the
    buckets in memory, and a source that fails leaves no trace. *)

From S2P Require Import Prelude RustStr SortedSlice DnsTypes Domain Shard Ast Engine EngineProofs Utf8 ListParser ListStream ListEffect Spill.

(** ** Bytes *)

Lemma length_le_bytes k n : length (le_bytes k n) = k.
Proof. revert n. induction k as [|k IH]; intros n; cbn; [done|]. by rewrite IH. Qed.

Lemma byte_of_mod n : byte (ascii_of_N (Z.to_N (n mod 256))) = (n mod 256)%Z.
Proof.
  unfold byte. pose proof (Z.mod_pos_bound n 256). rewrite N_ascii_embedding; lia.
Qed.

Lemma le_bytes_inv k n : (0 ≤ n < 256 ^ Z.of_nat k)%Z → from_le_bytes (le_bytes k n) = n.
Proof.
  revert n. induction k as [|k IH]; intros n Hn; cbn [le_bytes from_le_bytes]; [cbn in Hn; lia|].
  rewrite byte_of_mod, IH.
  - pose proof (Z.div_mod n 256). lia.
  - rewrite Nat2Z.inj_succ, Z.pow_succ_r in Hn by lia. split; [apply Z.div_pos; lia|].
    apply Z.div_lt_upper_bound; lia.
Qed.

Lemma from_to_le_bytes n : in_u64 n → from_le_bytes (to_le_bytes n) = n.
Proof. intros Hn. apply le_bytes_inv. unfold in_u64, U64_MAX in Hn. change (256 ^ Z.of_nat 8)%Z with (2 ^ 64)%Z. lia. Qed.

Lemma read_exact_app (s t : str) : read_exact (length s) (s ++ t) = Some (s, t).
Proof.
  unfold read_exact. rewrite length_app, (proj2 (Nat.leb_le _ _)) by lia.
  by rewrite take_app_length, drop_app_length.
Qed.

(** A domain the record format can hold: its length byte is not the tag. *)
Definition storable (d : str) : Prop := length d < 255 ∧ utf8_valid d = true.

Definition one_hot (bit : Z) : Prop := in_u64 bit ∧ is_power_of_two bit = true.

Lemma length_byte (d : str) : length d < 255 → Z.to_nat (byte (ascii_of_N (Z.to_N (as_u8 (Z.of_nat (length d)))))) = length d.
Proof.
  intros Hd. unfold as_u8. change (2 ^ 8)%Z with 256%Z. rewrite byte_of_mod, Z.mod_small by lia. lia.
Qed.

Lemma length_byte_not_tag (d : str) : length d < 255 → ascii_of_N (Z.to_N (as_u8 (Z.of_nat (length d)))) ≠ SPILL_BIT_TAG.
Proof.
  intros Hd E. apply (f_equal (fun a => Z.to_nat (byte a))) in E. rewrite length_byte in E by done.
  replace (Z.to_nat (byte SPILL_BIT_TAG)) with 255 in E by (by vm_compute). lia.
Qed.

(** ** The record format *)

(** [reads b s raw b']: from the bit [b], the stream [s] holds the records
    [raw] and leaves the bit [b']. *)
Inductive reads : option Z → str → list (str * Z) → option Z → Prop :=
| reads_nil b : reads b [] [] b
| reads_tag b n s raw b' :
    one_hot n → reads (Some n) s raw b' → reads b (SPILL_BIT_TAG :: to_le_bytes n ++ s) raw b'
| reads_domain n d s raw b' :
    storable d → reads (Some n) s raw b' →
    reads (Some n) (ascii_of_N (Z.to_N (as_u8 (Z.of_nat (length d)))) :: d ++ s) ((d, n) :: raw) b'.

Lemma reads_app b s raw b' t raw' b'' :
  reads b s raw b' → reads b' t raw' b'' → reads b (s ++ t) (raw ++ raw') b''.
Proof.
  intros H. revert t raw' b''. induction H; intros t raw' b'' Ht; [done| |];
    cbn [app]; rewrite <-app_assoc; constructor; auto.
Qed.

(** A pass over such a stream is the fold over its records. *)
Lemma read_records_reads {A} (f : A → str → Z → result IoError A) b s raw b' :
  reads b s raw b' →
  ∀ fuel acc, length s < fuel → ∃ rest, read_records fuel f b s acc =
    Some (rest, try_fold (fun a e => f a e.1 e.2) acc raw) ∧
    (is_ok (try_fold (fun a e => f a e.1 e.2) acc raw) = true → rest = []).
Proof.
  induction 1 as [b|b n s raw b' [Hn Hp] Hs IH|n d s raw b' [Hd Hu] Hs IH]; intros [|fuel] acc Hf;
    try (cbn in Hf; lia); cbn [read_records].
  - by exists [].
  - rewrite bool_decide_true by done.
    replace (read_exact 8 (to_le_bytes n ++ s)) with (Some (to_le_bytes n, s))
      by (symmetry; apply (read_exact_app (to_le_bytes n) s)).
    rewrite from_to_le_bytes, Hp by done.
    assert ((n =? 0)%Z = false) as ->.
    { unfold is_power_of_two in Hp. by destruct (n =? 0)%Z. }
    cbn [negb orb]. apply IH. cbn [length] in Hf. rewrite length_app in Hf. lia.
  - rewrite bool_decide_false by (by apply length_byte_not_tag). rewrite length_byte by done.
    rewrite read_exact_app, Hu. cbn [try_fold fst snd]. destruct (f acc d n) as [acc'|e] eqn:E; cbn [rbind].
    + apply IH. cbn [length] in Hf. rewrite length_app in Hf. lia.
    + by exists s.
Qed.

Lemma read_spill_reads {A} (f : A → str → Z → result IoError A) s raw b' acc :
  reads None s raw b' →
  (read_spill_records f s acc).2 = try_fold (fun a e => f a e.1 e.2) acc raw ∧
  (is_ok (try_fold (fun a e => f a e.1 e.2) acc raw) = true → (read_spill_records f s acc).1 = []).
Proof.
  intros Hr. unfold read_spill_records.
  destruct (read_records_reads f _ _ _ _ Hr (S (length s)) acc ltac:(lia)) as (rest & -> & Hrest). done.
Qed.

Lemma try_fold_collect (raw acc : list (str * Z)) :
  try_fold (fun a e => Ok (E := IoError) (a ++ [(e.1, e.2)])) acc raw = Ok (acc ++ raw).
Proof.
  revert acc. induction raw as [|[d n] raw IH]; intros acc; cbn [try_fold rbind fst snd].
  - by rewrite app_nil_r.
  - by rewrite IH, <-app_assoc.
Qed.

(** ** A spill and the buckets it stands for *)

Lemma Forall2_self {A} (R : A → A → Prop) l : (∀ x, R x x) → Forall2 R l l.
Proof. intros HR. induction l; by constructor. Qed.

Lemma alter_insert {A} f (l : list A) i x : l !! i = Some x → alter f i l = <[i := f x]> l.
Proof. revert i. induction l as [|y l IH]; intros [|i] Hi; simplify_eq/=; f_equal; auto. Qed.

Section Spill.
Context {H : ShardHasher}.
Context (faults : nat → option nat).

(** A writer between records: its file reads as the bucket, and the bit it
    remembers is the bit a reader would have. *)
Definition stands_for (w : SpillWriter) (b : list (str * Z)) : Prop :=
  ∃ c, reads None (sw_file w) b c ∧ sw_written w = length (sw_file w) ∧
    ∀ x, sw_last_bit w = Some x → c = Some x.

(** The buckets an unsealed spill holds. *)
Definition spill_abs (sp : ShardSpill) (bs : list (list (str * Z))) : Prop :=
  length bs = DOMAIN_SHARDS ∧
  match sp_store sp with
  | Disk ws rs => rs = None ∧ Forall2 stands_for ws bs
  | Memory bs' => bs' = bs
  end.

Definition route_to (bs : list (list (str * Z))) (d : str) (bit : Z) : list (list (str * Z)) :=
  alter (fun b => b ++ [(d, bit)]) (shard_index d) bs.

Lemma stands_for_bit w b bit call w' call' :
  one_hot bit → stands_for w b → write_bit faults w bit call = (w', call', true) →
  stands_for w' b ∧ sw_last_bit w' = Some bit.
Proof.
  intros Hb (c & Hr & Hw & Hl). unfold write_bit. case_decide as E.
  { intros [= <- <-]. split; [|done]. by exists c. }
  unfold write_all. destruct (faults call); [done|]. intros [= <- <-]. split; [|done].
  exists (Some bit). cbn [sw_file sw_written sw_last_bit]. split_and!; [|rewrite Hw, length_app; cbn; lia|done].
  rewrite <-(app_nil_r b). eapply reads_app; [done|].
  rewrite <-(app_nil_r (to_le_bytes bit)). apply reads_tag; [done|constructor].
Qed.

Lemma stands_for_domain w b d bit call w' call' :
  storable d → stands_for w b → sw_last_bit w = Some bit →
  write_domain faults w d call = (w', call', true) → stands_for w' (b ++ [(d, bit)]).
Proof.
  intros Hd (c & Hr & Hw & Hl) Hbit. apply Hl in Hbit as ->. unfold write_domain, write_all.
  destruct (faults call); [done|]. intros [= <- <-]. exists (Some bit).
  cbn [sw_file sw_written sw_last_bit]. split_and!; [|rewrite Hw, length_app; cbn; lia|done].
  eapply reads_app; [done|]. rewrite <-(app_nil_r d) at 2. apply reads_domain; [done|constructor].
Qed.

Lemma stands_for_entry w b d bit call w' call' :
  storable d → one_hot bit → stands_for w b → write_entry faults w d bit call = (w', call', true) →
  stands_for w' (b ++ [(d, bit)]).
Proof.
  intros Hd Hb Hsf E. unfold write_entry in E.
  destruct (write_bit _ _ _ _) as [[w1 c1] [|]] eqn:E1; [|done].
  destruct (stands_for_bit _ _ _ _ _ _ Hb Hsf E1) as [Hs1 Hl1]. by eapply stands_for_domain.
Qed.

Lemma push_abs sp bs d bit sp' :
  storable d → one_hot bit → spill_abs sp bs → push faults sp d bit = (sp', Ok ()) →
  spill_abs sp' (route_to bs d bit) ∧ sp_poisoned sp = false ∧ sp_poisoned sp' = false.
Proof.
  intros Hd Hb [Hlen Habs] Hp. unfold push in Hp. destruct (sp_poisoned sp) eqn:Hpo; [done|].
  unfold spill_abs, route_to. rewrite length_alter. destruct (sp_store sp) as [ws rs|bs'] eqn:Hst.
  - destruct Habs as [-> Hws].
    assert (shard_index d < length ws) as Hlt.
    { rewrite (Forall2_length _ _ _ Hws), Hlen. apply shard_index_range. }
    apply list_lookup_lookup_total_lt in Hlt as Hw.
    destruct (Forall2_lookup_l _ _ _ _ _ Hws Hw) as (b & Hbi & Hsf).
    destruct (write_entry _ _ _ _ _) as [[w2 c2] [|]] eqn:E; [|done].
    assert (Hs2 := stands_for_entry _ _ _ _ _ _ _ Hd Hb Hsf E).
    apply (inj2 pair) in Hp as [<- _]. cbn [fst with_store sp_store sp_poisoned]. split; [|done]. split; [done|]. split; [done|].
    rewrite (alter_insert _ _ _ _ Hbi). by apply Forall2_insert.
  - subst bs'. apply (inj2 pair) in Hp as [<- _]. done.
Qed.

(** ** Rolling back *)

(** Later in the same pass: nothing written before is gone. *)
Definition grown (sp sp' : ShardSpill) : Prop :=
  match sp_store sp, sp_store sp' with
  | Disk ws rs, Disk ws' rs' => rs' = rs ∧ Forall2 (fun w w' => sw_file w `prefix_of` sw_file w') ws ws'
  | Memory bs, Memory bs' => Forall2 prefix bs bs'
  | _, _ => False
  end.

#[export] Instance grown_preorder : PreOrder grown.
Proof.
  split.
  - intros sp. unfold grown. destruct (sp_store sp); [split; [done|]|]; by apply Forall2_self.
  - intros a b c. unfold grown. destruct (sp_store a), (sp_store b), (sp_store c); try done.
    + intros [-> H1] [-> H2]. split; [done|]. eapply Forall2_trans; [|done..]. cbn.
      intros x y z ??. by transitivity (sw_file y).
    + intros H1 H2. eapply Forall2_trans; [|done..].
      intros x y z. apply transitivity.
Qed.

Lemma write_all_prefix w bytes call : sw_file w `prefix_of` sw_file (write_all faults w bytes call).1.
Proof. unfold write_all. destruct (faults call); cbn; by apply prefix_app_r. Qed.

Lemma write_bit_prefix w bit call : sw_file w `prefix_of` sw_file (write_bit faults w bit call).1.1.
Proof.
  unfold write_bit. case_decide; [done|].
  pose proof (write_all_prefix w (SPILL_BIT_TAG :: to_le_bytes bit) call) as Hp.
  by destruct (write_all _ _ _ _) as [w' [|]].
Qed.

Lemma write_domain_prefix w d call : sw_file w `prefix_of` sw_file (write_domain faults w d call).1.1.
Proof.
  unfold write_domain. set (bytes := _ :: d). pose proof (write_all_prefix w bytes call) as Hp.
  by destruct (write_all _ _ _ _) as [w' [|]].
Qed.

Lemma write_entry_prefix w d bit call : sw_file w `prefix_of` sw_file (write_entry faults w d bit call).1.1.
Proof.
  unfold write_entry. pose proof (write_bit_prefix w bit call) as H1.
  destruct (write_bit _ _ _ _) as [[w1 c1] [|]]; [|done].
  etransitivity; [exact H1|apply write_domain_prefix].
Qed.

Lemma grown_poison_on_err {A} sp (p : ShardSpill * result IoError A) : grown sp p.1 → grown sp (poison_on_err p).1.
Proof. by destruct p as [? [|]]. Qed.

Lemma push_grown sp d bit : grown sp (push faults sp d bit).1.
Proof.
  unfold push. destruct (sp_poisoned sp); [done|]. apply grown_poison_on_err. unfold grown at 1.
  destruct (sp_store sp) as [ws rs|bs] eqn:Hst; rewrite ?Hst.
  - pose proof (write_entry_prefix (ws !!! shard_index d) d bit (sp_calls sp)) as Hp.
    destruct (write_entry _ _ _ _ _) as [[w c] ok]. cbn in *. split; [done|].
    destruct (decide (shard_index d < length ws)) as [Hlt|Hge].
    + apply list_lookup_lookup_total_lt in Hlt as Hw. rewrite <-(list_insert_id ws _ _ Hw) at 1.
      apply Forall2_insert; [by apply Forall2_self|done].
    + rewrite list_insert_ge by lia. by apply Forall2_self.
  - cbn. apply Forall2_same_length_lookup. rewrite length_alter. split; [done|].
    intros i x y Hx Hy. rewrite list_lookup_alter in Hy. case_decide as Hc.
    + rewrite Hc, Hx in Hy. apply (inj Some) in Hy as <-. by apply prefix_app_r.
    + rewrite Hx in Hy. by apply (inj Some) in Hy as ->.
Qed.

Lemma set_len_prefix s t n : s `prefix_of` t → n = length s → set_len t n = s.
Proof.
  intros [u ->] ->. unfold set_len. rewrite take_app_length, length_app.
  replace (length s - (length s + length u)) with 0 by lia. apply app_nil_r.
Qed.

Lemma rollback_writers_abs ws ws' bs call ws'' call' :
  Forall2 stands_for ws bs → Forall2 (fun w w' => sw_file w `prefix_of` sw_file w') ws ws' →
  rollback_writers faults ws' (map sw_written ws) call = (ws'', call', true) →
  Forall2 stands_for ws'' bs.
Proof.
  intros Hs Hg. revert bs Hs call ws'' call'. induction Hg as [|w w' ws ws' Hp Hg IH]; intros bs Hs call ws'' call';
    inversion_clear Hs as [|? b ? bs' Hw Hs']; cbn [map rollback_writers].
  { intros [= <- _]. constructor. }
  destruct (faults call) as [[|]|]; [done..|].
  destruct (rollback_writers _ ws' _ _) as [[l c] ok] eqn:E. intros [= <- <- ->]. constructor; [|by eapply IH].
  destruct Hw as (x & Hr & Hlen & _). exists x. cbn. rewrite (set_len_prefix (sw_file w)) by done.
  split_and!; done.
Qed.

Lemma rollback_buckets_prefix bs bs' : Forall2 prefix bs bs' → rollback_buckets bs' (map length bs) = bs.
Proof.
  induction 1 as [|b b' bs bs' [u ->] _ IH]; [done|]. cbn [map rollback_buckets]. by rewrite take_app_length, IH.
Qed.

(** A successful rollback restores the buckets of the mark. *)
Lemma rollback_abs sp sp' bs sp'' :
  spill_abs sp bs → grown sp sp' → rollback faults sp' (mark sp) = (sp'', Ok ()) →
  spill_abs sp'' bs ∧ sp_poisoned sp'' = sp_poisoned sp'.
Proof.
  intros [Hlen Habs] Hg Hr. unfold rollback, mark, grown, spill_abs in *.
  destruct (sp_store sp) as [ws rs|b0], (sp_store sp') as [ws' rs'|b1]; try done.
  - destruct Habs as [-> Hs], Hg as [-> Hg].
    destruct (rollback_writers _ _ _ _) as [[l c] [|]] eqn:E; [|done].
    apply (inj2 pair) in Hr as [<- _]. cbn [fst with_store sp_store sp_poisoned].
    split; [|done]. split; [done|]. split; [done|]. by eapply rollback_writers_abs.
  - subst b0. apply (inj2 pair) in Hr as [<- _]. cbn. by rewrite rollback_buckets_prefix.
Qed.

Lemma poison_on_err_Err {A} (p : ShardSpill * result IoError A) sp e :
  poison_on_err p = (sp, Err e) → sp_poisoned sp = true.
Proof. destruct p as [q [x|e']]; [done|]. intros E. apply (inj2 pair) in E as [<- _]. done. Qed.

Lemma rollback_failed_poisons sp marks sp' e : rollback faults sp marks = (sp', Err e) → sp_poisoned sp' = true.
Proof. apply poison_on_err_Err. Qed.

(** ** Parsing a source *)

Lemma stored_storable d : stored_form d → storable d.
Proof.
  intros [Hv _]. split; [apply is_valid_domain_length in Hv; lia|].
  apply is_valid_domain_chars in Hv. induction Hv as [|a d Ha _ IH]; [done|]. cbn [utf8_valid].
  apply domain_char_printable in Ha. assert (ascii_byte a = true) as ->; [|done].
  unfold printable, ascii_byte in *. lia.
Qed.

Lemma list_domains_stored f reader : Forall stored_form (list_domains f reader).
Proof.
  apply Forall_forall. intros d Hd. apply list_elem_of_omap in Hd as (line & _ & Hd). by apply line_domain_stored in Hd.
Qed.

(** Where a source's domains go. *)
Definition route_all (bit : Z) (ds : list str) (bs : list (list (str * Z))) : list (list (str * Z)) :=
  foldl (fun bs d => route_to bs d bit) bs ds.

Lemma deliver_abs hasher bit ds s s' bs :
  Forall storable ds → one_hot bit → spill_abs (sk_spill s) bs →
  deliver (H := shard_spill_sink faults hasher) bit ds s = (s', Ok ()) →
  spill_abs (sk_spill s') (route_all bit ds bs) ∧
  sk_seen s' = (fun seen => list_to_set (map hasher ds) ∪ seen) <$> sk_seen s.
Proof.
  intros Hds Hb. revert s bs. induction Hds as [|d ds Hd Hds IH]; intros s bs Ha; cbn [deliver].
  { intros [= <-]. split; [done|]. destruct (sk_seen s) as [seen|]; cbn; [|done]. f_equal. set_solver. }
  unfold accept at 1, shard_spill_sink at 1. destruct (push faults (sk_spill s) d bit) as [sp1 [[]|e]] eqn:Ep; [|done].
  destruct (push_abs _ _ _ _ _ Hd Hb Ha Ep) as [Ha' _]. intros E. apply (IH _ (route_to bs d bit)) in E as [H1 H2]; [|done].
  split; [done|]. rewrite H2. cbn [sk_seen]. destruct (sk_seen s) as [seen|]; cbn; [|done]. f_equal. set_solver.
Qed.

Lemma sink_grown hasher sp0 s d bit :
  grown sp0 (sk_spill s) → grown sp0 (sk_spill (accept (DomainSink := shard_spill_sink faults hasher) s d bit).1).
Proof.
  intros Hg. unfold accept, shard_spill_sink. pose proof (push_grown (sk_spill s) d bit) as Hp.
  destruct (push faults (sk_spill s) d bit) as [sp1 r]. cbn in *. by transitivity (sk_spill s).
Qed.

(** After a failure: the buckets of the mark, unless the rollback failed too,
    which poisons the spill. *)
Definition undone (sp : ShardSpill) (bs : list (list (str * Z))) (e : SpillParseError) : Prop :=
  match pe_rollback e with None => spill_abs sp bs | Some _ => sp_poisoned sp = true end.

Lemma roll_back_undone sp sp1 bs f sp2 err :
  spill_abs sp bs → grown sp sp1 → roll_back faults sp1 (mark sp) f = (sp2, err) →
  undone sp2 bs err ∧ pe_failure err = f.
Proof.
  intros Ha Hg. unfold roll_back. destruct (rollback faults sp1 (mark sp)) as [q r] eqn:Er.
  intros E. apply (inj2 pair) in E as [<- <-]. split; [|done]. unfold undone. cbn [pe_rollback].
  destruct r as [[]|e]; cbn [result_err]; [by eapply rollback_abs|by eapply rollback_failed_poisons].
Qed.

(** Counting: the hashes of the domains, when they are measured. *)
Definition counted (hasher : str → Z) (counting : UniqueCount) (ds : list str) : Z :=
  match counting with
  | Measure _ => Z.of_nat (size (list_to_set (map hasher ds) : gset Z))
  | Carried n => n
  end.

(** What an accepted source did. *)
Definition admitted {SHA : Sha2Crate} hasher cancelled reader bit max_entries declared counting
    (sp : ShardSpill) (bs : list (list (str * Z))) (c : ParsedCounts) (digest : str) : Prop :=
  digest = sha256 reader ∧ ∃ f, settled_format cancelled reader declared f ∧
    (Z.of_nat (length (list_domains f reader)) ≤ max_entries)%Z ∧
    spill_abs sp (route_all bit (list_domains f reader) bs) ∧
    parsed_ok c = Z.of_nat (length (list_domains f reader)) ∧
    unique_domains c = counted hasher counting (list_domains f reader).

Lemma parse_source_spec {SHA : Sha2Crate} hasher cancelled reader bit sp bs max_entries declared counting :
  (0 ≤ max_entries)%Z → one_hot bit → spill_abs sp bs →
  ∃ sp' r, parse_source_into_spill_counted faults hasher cancelled reader bit sp max_entries declared counting
             = Some (sp', r) ∧
    match r with
    | Err e => undone sp' bs e
    | Ok body => grown sp sp' ∧ pb_len body = length reader ∧
        admitted hasher cancelled reader bit max_entries declared counting sp' bs (pb_counts body) (pb_digest body)
    end.
Proof.
  intros Hmax Hb Ha. unfold parse_source_into_spill_counted. set (sink := {| sk_spill := sp |}).
  destruct (streaming_deliveries (H := shard_spill_sink faults hasher) (fun s => grown sp (sk_spill s))
    cancelled reader bit sink max_entries declared) as (st & r & -> & Hg & Hok).
  { intros s d. apply sink_grown. } { done. }
  destruct r as [[]|e].
  2:{ destruct (roll_back _ _ _ _) as [q err] eqn:E. eexists _, _. split; [done|]. by eapply roll_back_undone. }
  destruct (Hok eq_refl) as (f & Hf & Hd & _ & Hok' & Ht).
  cbn [fresh pg_sink pg_count pg_counts no_counts parsed_ok parsed_truncated] in *.
  rewrite Z.sub_0_r in *. set (ds := list_domains f reader) in *.
  destruct (Z.ltb_spec 0 (parsed_truncated (pg_counts st))) as [Hdrop|Hdrop].
  { destruct (roll_back _ _ _ _) as [q err] eqn:E. eexists _, _. split; [done|]. by eapply roll_back_undone. }
  eexists _, _. split; [done|]. split; [done|]. split; [done|]. split; [done|]. exists f.
  rewrite length_take in Ht. assert (length ds ≤ Z.to_nat max_entries) as Hle by lia.
  rewrite take_ge in Hd, Hok' by done.
  apply (deliver_abs _ _ _ _ _ bs) in Hd as [H1 H2]; [|by eapply Forall_impl; [apply list_domains_stored|apply stored_storable]|done..].
  fold ds. split; [done|]. split; [lia|]. split; [done|]. cbn [pb_counts with_unique parsed_ok unique_domains].
  split; [lia|]. rewrite H2.
  unfold counted. destruct counting; cbn [sink sk_seen fmap option_fmap option_map]; [|done].
  do 2 f_equal. set_solver.
Qed.

End Spill.

Lemma parse_verified_spec {H : ShardHasher} {SHA : Sha2Crate} faults hasher cancelled reader bit sp bs max_entries
    declared counting accepts :
  (0 ≤ max_entries)%Z → one_hot bit → spill_abs sp bs →
  ∃ sp' r, parse_verified faults hasher cancelled reader bit sp max_entries declared counting accepts = Some (sp', r) ∧
    match r with
    | Err e => undone sp' bs e
    | Ok (c, digest) =>
        admitted hasher cancelled reader bit max_entries declared counting sp' bs c digest ∧
        accepts {| pb_counts := c; pb_digest := digest; pb_len := length reader |} = true ∧ grown sp sp'
    end.
Proof.
  intros Hmax Hb Ha. unfold parse_verified.
  destruct (parse_source_spec faults hasher cancelled reader bit sp bs max_entries declared counting Hmax Hb Ha)
    as (sp1 & r & -> & Hr).
  destruct r as [body|e]; [|by eexists _, _]. destruct Hr as (Hg & Hlen & Had).
  destruct (accepts body) eqn:Hacc.
  - eexists _, _. split; [done|]. split; [done|]. split; [|done]. rewrite <-Hacc. f_equal. destruct body. cbn in *. by rewrite Hlen.
  - destruct (roll_back _ _ _ _) as [q err] eqn:E. eexists _, _. split; [done|]. by eapply roll_back_undone.
Qed.

(** C20: a source is taken whole or not at all, whatever the storage does and
    whenever the refresh is cancelled.  The parse always ends.  When it
    succeeds, the spill holds exactly the domains of the body in addition, in
    order and with the source's bit, no more than the cap allows; the bytes it
    read passed the length and digest check; the count kept for the retention
    guard is that of the body, or the one that was passed in when it is carried
    over.  When it fails (a faulty line, a cancellation, a
    storage error, the entry cap, a digest that does not match), the spill
    holds what it held before, unless undoing fails as well, in which case the
    spill is poisoned and refuses every later use. *)
Theorem source_all_or_nothing {H : ShardHasher} {SHA : Sha2Crate} faults hasher cancelled reader bit sp bs max_entries
    declared counting :
  (0 ≤ max_entries)%Z → one_hot bit → spill_abs sp bs →
  (∀ expected, ∃ sp' r,
     parse_retained_source_into_spill_counted faults hasher cancelled reader bit sp max_entries declared counting expected
       = Some (sp', r) ∧
     match r with
     | Err e => undone sp' bs e
     | Ok (c, digest) =>
         admitted hasher cancelled reader bit max_entries declared counting sp' bs c digest ∧
         ∀ d, expected = Some d → sha256 reader = d
     end) ∧
  (∀ staged, ∃ sp' r,
     parse_fresh_download_into_spill_counted faults hasher cancelled reader bit sp max_entries declared counting staged
       = Some (sp', r) ∧
     match r with
     | Err e => undone sp' bs e
     | Ok (c, digest) =>
         admitted hasher cancelled reader bit max_entries declared counting sp' bs c digest ∧
         ∀ len d, staged = Some (len, d) → length reader = len ∧ sha256 reader = d
     end).
Proof.
  intros Hmax Hb Ha. split; [intros expected|intros staged].
  - edestruct (parse_verified_spec faults hasher cancelled reader bit sp bs max_entries declared counting)
      as (sp' & r & E & Hr); [done..|]. exists sp', r. split; [exact E|]. destruct r as [[c digest]|e]; [|done].
    destruct Hr as (Had & Hacc & _). split; [done|]. intros d ->. destruct Had as [-> _]. unfold str_eqb in Hacc.
    cbn [pb_digest] in Hacc. by apply bool_decide_eq_true in Hacc.
  - edestruct (parse_verified_spec faults hasher cancelled reader bit sp bs max_entries declared counting)
      as (sp' & r & E & Hr); [done..|]. exists sp', r. split; [exact E|]. destruct r as [[c digest]|e]; [|done].
    destruct Hr as (Had & Hacc & _). split; [done|]. intros len d ->. destruct Had as [-> _]. unfold str_eqb in Hacc.
    cbn [pb_digest pb_len] in Hacc. apply andb_true_iff in Hacc as [H1 H2].
    by apply Nat.eqb_eq in H1; apply bool_decide_eq_true in H2.
Qed.

(** *** Witness: the second write of a source fails, and undoing it works *)

Definition one_bad_write (call : nat) : option nat := if call =? 1 then Some 3 else None.

Lemma source_all_or_nothing_witness :
  let sp := open true in
  let parse := parse_retained_source_into_spill_counted (H := length_hasher) (SHA := identity_sha)
    one_bad_write (fun _ => 0%Z) (fun _ => false) (lit "ads.test") 1 sp 10 (Some DomainOnly) (Carried 0) None in
  (match parse with
   | Some (_, Err e) => match pe_rollback e with None => true | Some _ => false end
   | _ => false
   end) = true ∧
  ∃ sp' r, parse = Some (sp', r) ∧
    match r with
    | Err e => undone sp' (replicate DOMAIN_SHARDS []) e
    | Ok (c, digest) =>
        admitted (H := length_hasher) (SHA := identity_sha) (fun _ => 0%Z) (fun _ => false) (lit "ads.test") 1 10
          (Some DomainOnly) (Carried 0) sp' (replicate DOMAIN_SHARDS []) c digest ∧
        ∀ d, None = Some d → lit "ads.test" = d
    end.
Proof.
  intros sp parse. split; [vm_compute; reflexivity|].
  apply (source_all_or_nothing (H := length_hasher) (SHA := identity_sha) one_bad_write (fun _ => 0%Z) (fun _ => false)
    (lit "ads.test") 1 sp (replicate DOMAIN_SHARDS []) 10 (Some DomainOnly) (Carried 0)).
  - done.
  - done.
  - split; [reflexivity|]. split; [reflexivity|]. apply Forall2_replicate.
    exists None. split; [constructor|]. split; [reflexivity|discriminate].
Defined.
