(* ===== verification/SpillBuild.v ===== *)
(** * From the spill to the shards

    What sealing certifies, what a pass reads back, and what the sorted shard
    built from the records of a spill answers. *)

From S2P Require Import Prelude RustStr SortedSlice DnsTypes Domain Shard Ast Engine EngineProofs EngineVerdict Utf8 ListParser ListStream ListEffect Spill SpillProofs.

(** ** A pass that succeeds has read well-formed records *)

Lemma ascii_of_byte a : ascii_of_N (Z.to_N (byte a)) = a.
Proof. unfold byte. rewrite N2Z.id. apply ascii_N_embedding. Qed.

Lemma from_le_bytes_range s : (0 ≤ from_le_bytes s < 256 ^ Z.of_nat (length s))%Z.
Proof.
  induction s as [|a s IH]; cbn [from_le_bytes length]; [lia|].
  rewrite Nat2Z.inj_succ, Z.pow_succ_r by lia. pose proof (byte_range a). lia.
Qed.

Lemma le_bytes_from s : le_bytes (length s) (from_le_bytes s) = s.
Proof.
  induction s as [|a s IH]; [done|]. cbn [length from_le_bytes le_bytes].
  pose proof (byte_range a).
  assert ((byte a + 256 * from_le_bytes s) mod 256 = byte a)%Z as -> by (Z.to_euclidean_division_equations; lia).
  assert ((byte a + 256 * from_le_bytes s) / 256 = from_le_bytes s)%Z as -> by (Z.to_euclidean_division_equations; lia).
  by rewrite IH, ascii_of_byte.
Qed.

Lemma read_exact_Some n s t rest : read_exact n s = Some (t, rest) → s = t ++ rest ∧ length t = n.
Proof.
  unfold read_exact. destruct (Nat.leb_spec n (length s)); [|done]. intros [= <- <-].
  rewrite take_drop, length_take. split; [done|lia].
Qed.

Lemma read_records_inv {A} (f : A → str → Z → result IoError A) fuel b s acc rest acc' :
  read_records fuel f b s acc = Some (rest, Ok acc') →
  ∃ raw c, reads b s raw c ∧ try_fold (fun a e => f a e.1 e.2) acc raw = Ok acc'.
Proof.
  revert b s acc. induction fuel as [|fuel IH]; intros b s acc; [done|]. cbn [read_records].
  destruct s as [|len s]; [intros [= <- <-]; exists [], b; by split; [constructor|]|].
  case_bool_decide as Htag.
  - destruct (read_exact 8 s) as [[raw s1]|] eqn:Er; [|done]. apply read_exact_Some in Er as [-> Hlen].
    destruct (_ || _) eqn:Eb; [done|]. apply orb_false_iff in Eb as [H0 Hp]. apply negb_false_iff in Hp.
    intros E. apply IH in E as (raw' & c & Hr & Hf). exists raw', c. split; [|done]. subst len.
    assert (raw = to_le_bytes (from_le_bytes raw)) as E.
    { unfold to_le_bytes. rewrite <-Hlen. symmetry. apply le_bytes_from. }
    rewrite E. apply reads_tag; [|done]. split; [|done]. pose proof (from_le_bytes_range raw) as Hrange.
    rewrite Hlen in Hrange. change (256 ^ Z.of_nat 8)%Z with (2 ^ 64)%Z in Hrange.
    unfold in_u64, U64_MAX. lia.
  - destruct (read_exact _ s) as [[d s1]|] eqn:Er; [|done]. apply read_exact_Some in Er as [-> Hlen].
    destruct (utf8_valid d) eqn:Hu; [|done]. destruct b as [n|]; [|done].
    destruct (f acc d n) as [acc1|e] eqn:Ef; [|done].
    intros E. apply IH in E as (raw' & c & Hr & Hf). exists ((d, n) :: raw'), c.
    cbn [try_fold fst snd]. rewrite Ef. split; [|done].
    assert (length d < 255) as Hd.
    { pose proof (byte_range len). destruct (decide (byte len = 255%Z)) as [E|]; [|lia].
      destruct Htag. rewrite <-(ascii_of_byte len), E. done. }
    replace len with (ascii_of_N (Z.to_N (as_u8 (Z.of_nat (length d))))).
    + by apply reads_domain.
    + rewrite Hlen, Z2Nat.id by (pose proof (byte_range len); lia). unfold as_u8.
      rewrite Z.mod_small by (pose proof (byte_range len); lia). apply ascii_of_byte.
Qed.

Lemma read_spill_inv {A} (f : A → str → Z → result IoError A) s acc acc' :
  (read_spill_records f s acc).2 = Ok acc' →
  ∃ raw c, reads None s raw c ∧ try_fold (fun a e => f a e.1 e.2) acc raw = Ok acc'.
Proof.
  unfold read_spill_records. destruct (read_records _ _ _ _ _) as [[rest r]|] eqn:E; [|done].
  cbn. intros ->. by eapply read_records_inv.
Qed.

(** ** Sealing *)

Section Sealing.
Context {H : ShardHasher}.
Context (faults : nat → option nat).

(** A record a shard may hold. *)
Definition placed (idx : nat) (e : str * Z) : Prop :=
  one_hot e.2 ∧ is_valid_domain e.1 = true ∧ shard_index e.1 = idx.

Lemma validate_placed idx d bit : in_u64 bit → validate_spill_record idx d bit = Ok () ↔ placed idx (d, bit).
Proof.
  intros Hu. unfold validate_spill_record, placed, one_hot, is_power_of_two. cbn [fst snd].
  destruct (Z.eqb_spec bit 0) as [->|Hn]; cbn [orb negb andb]; [naive_solver|].
  destruct (_ =? 0)%Z; cbn [negb]; [|naive_solver].
  destruct (is_valid_domain d); cbn [negb]; [|naive_solver].
  destruct (Nat.eqb_spec (shard_index d) idx); cbn [negb]; naive_solver.
Qed.

(** Shard [idx] can be read from its beginning, or from where it stands. *)
Definition pinned (sp : ShardSpill) (idx : nat) (b : list (str * Z)) (start : bool) : Prop :=
  match sp_store sp with
  | Disk _ (Some rs) => ∃ r c, rs !! idx = Some (Some r) ∧ reads None (rd_all r) b c ∧
      (start = true → rd_rest r = rd_all r)
  | Disk _ None => False
  | Memory bs => bs !! idx = Some b
  end.

Lemma try_validate idx raw :
  Forall (fun e => in_u64 e.2) raw →
  try_fold (fun _ e => validate_spill_record idx e.1 e.2) () raw = Ok () ↔ Forall (placed idx) raw.
Proof.
  induction 1 as [|[d n] raw Hn _ IH]; cbn [try_fold fst snd]; [split; [constructor|done]|].
  rewrite Forall_cons, <-IH, <-(validate_placed idx d n) by done.
  destruct (validate_spill_record idx d n) as [[]|e]; cbn [rbind]; naive_solver.
Qed.

Lemma reads_in_u64 b s raw c : reads b s raw c → (∀ n, b = Some n → in_u64 n) → Forall (fun e => in_u64 e.2) raw.
Proof.
  induction 1 as [| b n s raw b' [Hn _] _ IH|n d s raw b' _ _ IH]; intros Hb; [constructor| |].
  - apply IH. by intros ? [= <-].
  - constructor; [by apply Hb|auto].
Qed.

Lemma seal_spec reopen idx ws rs :
  seal reopen idx ws = Ok rs →
  length rs = length ws ∧ ∀ i w, ws !! i = Some w →
    ∃ r raw c, rs !! i = Some (Some r) ∧ reopen (idx + i) (sw_file w) = Some (rd_all r) ∧ rd_rest r = rd_all r ∧
      length (rd_all r) = sw_written w ∧ reads None (rd_all r) raw c ∧ Forall (placed (idx + i)) raw.
Proof.
  revert idx rs. induction ws as [|w ws IH]; intros idx rs; cbn [seal]; [by intros [= <-]|].
  intros E. apply rbind_Ok in E as (bytes & Hb & E). unfold ok_or in Hb.
  destruct (reopen idx (sw_file w)) as [bs|] eqn:Hre; [|done]. injection Hb as ->.
  destruct (Nat.eqb_spec (length bytes) (sw_written w)) as [Hlen|]; [|done]. cbn [negb] in E.
  apply rbind_Ok in E as ([] & Hv & E). apply rbind_Ok in E as (rest & Hs & E). injection E as <-.
  apply IH in Hs as [Hl Hi]. split; [cbn; lia|]. intros [|i] w0 Hw; cbn in Hw.
  - injection Hw as <-. unfold validate_spill_records in Hv. apply read_spill_inv in Hv as (raw & c & Hr & Ht).
    eexists _, raw, c. rewrite Nat.add_0_r. split_and!; [done..|]. apply try_validate; [|done].
    by eapply reads_in_u64.
  - rewrite Nat.add_succ_r. by apply Hi.
Qed.

(** The records of shard [idx] at the time of sealing: those the file is found to
    hold when it is opened again, or those in memory. *)
Definition sealed_as (reopen : nat → str → option str) (sp : ShardSpill) (idx : nat) (raw : list (str * Z)) : Prop :=
  match sp_store sp with
  | Disk ws _ => ∃ w bytes c, ws !! idx = Some w ∧ reopen idx (sw_file w) = Some bytes ∧ length bytes = sw_written w ∧ reads None bytes raw c
  | Memory bs => bs !! idx = Some raw
  end.

(** Sealing certifies what it found, whatever the files hold by then: every
    shard reads as records that belong to it. *)
Lemma prepare_validate_pins reopen sp sp' :
  prepare_validate reopen sp = (sp', Ok ()) →
  match sp_store sp with
  | Disk ws _ => ∀ i w, ws !! i = Some w → ∃ raw, sealed_as reopen sp i raw ∧ pinned sp' i raw true ∧ Forall (placed i) raw
  | Memory bs => ∀ i b, bs !! i = Some b → Forall (fun e => in_u64 e.2) b → pinned sp' i b true ∧ Forall (placed i) b
  end ∧ sp_poisoned sp' = false.
Proof.
  unfold prepare_validate. destruct (sp_poisoned sp) eqn:Hpo; [done|].
  destruct (sp_store sp) as [ws rs|bs] eqn:Hst.
  - destruct (seal reopen 0 ws) as [sealed|e] eqn:Es; [|done].
    intros E. apply (inj2 pair) in E as [<- _]. split; [|done]. apply seal_spec in Es as [_ Hs].
    intros i w Hw. destruct (Hs i w Hw) as (r & raw & c & Hr & Hre & Hrest & Hlen & Hreads & Hp).
    exists raw. split; [|split; [|done]].
    + unfold sealed_as. rewrite Hst. by exists w, (rd_all r), c.
    + exists r, c. by split_and!.
  - destruct (validate_buckets 0 bs) as [[]|e] eqn:Ev; [|done].
    intros E. apply (inj2 pair) in E as [<- _]. split; [|done].
    assert (∀ idx, validate_buckets idx bs = Ok () → ∀ i b, bs !! i = Some b →
      Forall (fun e => in_u64 e.2) b → Forall (placed (idx + i)) b) as Hv.
    { clear -H faults. induction bs as [|b0 bs IH]; intros idx Hv i b Hb Hu; [done|]. cbn [validate_buckets] in Hv.
      apply rbind_Ok in Hv as ([] & H0 & Hv). destruct i as [|i]; cbn in Hb.
      - injection Hb as ->. rewrite Nat.add_0_r. by apply try_validate.
      - rewrite Nat.add_succ_r. by apply (IH (S idx)). }
    intros i b Hb Hu. split; [unfold pinned; cbn; by rewrite Hst|]. by apply (Hv 0).
Qed.

(** An honest disk: what was written and not interfered with seals. *)
Lemma seal_honest idx ws bs :
  Forall2 stands_for ws bs → (∀ i b, bs !! i = Some b → Forall (placed (idx + i)) b) →
  ∃ rs, seal (fun _ s => Some s) idx ws = Ok rs ∧
    ∀ i b, bs !! i = Some b → ∃ r c, rs !! i = Some (Some r) ∧ reads None (rd_all r) b c ∧ rd_rest r = rd_all r.
Proof.
  intros Hs. revert idx. induction Hs as [|w b ws bs (c & Hr & Hlen & _) _ IH]; intros idx Hp; cbn [seal].
  { exists []. split; [done|]. intros i b Hb. done. }
  cbn [ok_or rbind]. rewrite <-Hlen, Nat.eqb_refl. cbn [negb].
  assert (validate_spill_records idx (sw_file w) = Ok ()) as ->.
  { unfold validate_spill_records. rewrite (proj1 (read_spill_reads _ _ _ _ _ Hr)).
    apply try_validate; [by eapply reads_in_u64|]. rewrite <-(Nat.add_0_r idx). by apply (Hp 0). }
  cbn [rbind]. destruct (IH (S idx)) as (rs & -> & Hrs).
  { intros i b' Hb'. replace (S idx + i) with (idx + S i) by lia. by apply Hp. }
  eexists. split; [done|]. intros [|i] b' Hb'; cbn in *; [|by apply Hrs].
  injection Hb' as ->. by eexists _, c.
Qed.

Lemma prepare_validate_honest sp bs :
  spill_abs sp bs → sp_poisoned sp = false → (∀ i b, bs !! i = Some b → Forall (placed i) b) →
  ∃ sp', prepare_validate (fun _ s => Some s) sp = (sp', Ok ()) ∧ sp_poisoned sp' = false ∧
    ∀ i b, bs !! i = Some b → pinned sp' i b true.
Proof.
  intros [Hlen Ha] Hpo Hp. unfold prepare_validate. rewrite Hpo. destruct (sp_store sp) as [ws rs|bs'] eqn:Hst.
  - destruct Ha as [-> Hs]. destruct (seal_honest 0 ws bs Hs Hp) as (rs & -> & Hrs).
    eexists. split; [done|]. split; [done|]. intros i b Hb. destruct (Hrs i b Hb) as (r & c & ? & ? & ?).
    exists r, c. done.
  - subst bs'. exists sp. assert (validate_buckets 0 bs = Ok ()) as ->.
    { assert (∀ i b, bs !! i = Some b → Forall (placed (0 + i)) b) as Hp' by done. clear -Hp' faults. revert Hp'.
      generalize 0. induction bs as [|b bs IH]; intros idx Hp; [done|]. cbn [validate_buckets].
      assert (Forall (placed idx) b) as Hb by (rewrite <-(Nat.add_0_r idx); by apply (Hp 0)).
      unfold validate_entries. assert (Forall (fun e => in_u64 e.2) b) as Hu.
      { eapply Forall_impl; [exact Hb|]. by intros e [[? _] _]. }
      rewrite (proj2 (try_validate idx b Hu) Hb). cbn [rbind].
      apply IH. intros i b' Hb'. replace (S idx + i) with (idx + S i) by lia. by apply Hp. }
    split; [done|]. split; [done|]. intros i b Hb. unfold pinned. by rewrite Hst.
Qed.

(** ** Passes over a sealed shard *)

(** Nothing but shard [idx] moved. *)
Definition elsewhere (sp sp' : ShardSpill) (idx : nat) : Prop :=
  sp_poisoned sp' = sp_poisoned sp ∧ ∀ j b start, j ≠ idx → pinned sp j b start → pinned sp' j b start.

Lemma elsewhere_refl sp idx : elsewhere sp sp idx.
Proof. done. Qed.

Lemma elsewhere_trans a b c idx : elsewhere a b idx → elsewhere b c idx → elsewhere a c idx.
Proof. intros [H1 H2] [H3 H4]. split; [congruence|]. intros. apply H4; [done|]. by apply H2. Qed.

Lemma elsewhere_reader sp ws rs idx r calls :
  sp_store sp = Disk ws (Some rs) →
  elsewhere sp (with_store sp (Disk ws (Some (<[idx := r]> rs))) calls) idx.
Proof.
  intros Hst. split; [done|]. intros j b start Hj. unfold pinned. rewrite Hst. cbn.
  rewrite list_lookup_insert_ne by done. done.
Qed.

Lemma pinned_any sp idx b start : pinned sp idx b start → pinned sp idx b false.
Proof.
  unfold pinned. destruct (sp_store sp) as [ws [rs|]|bs]; [|done..].
  intros (r & c & ? & ? & _). exists r, c. by split_and!.
Qed.

(** A stream reads in one way. *)
Lemma pinned_unique sp idx a b : pinned sp idx a true → pinned sp idx b true → a = b.
Proof.
  unfold pinned. destruct (sp_store sp) as [ws [rs|]|bs]; [|done|intros -> [= ->]; done].
  intros (r & c & Hr & Ha & _) (r' & c' & Hr' & Hb & _). rewrite Hr in Hr'. injection Hr' as <-.
  pose proof (proj1 (read_spill_reads (fun acc d n => Ok (acc ++ [(d, n)])) _ _ _ [] Ha)) as Ea.
  pose proof (proj1 (read_spill_reads (fun acc d n => Ok (acc ++ [(d, n)])) _ _ _ [] Hb)) as Eb.
  rewrite try_fold_collect in Ea, Eb. rewrite Ea in Eb. by injection Eb.
Qed.

Lemma read_shard_pinned sp idx b sp' res :
  pinned sp idx b true → read_shard faults sp idx = (sp', res) →
  elsewhere sp sp' idx ∧ pinned sp' idx b false ∧ (∀ raw, res = Ok raw → raw = b).
Proof.
  intros Hp. unfold read_shard. pose proof Hp as Hp'. unfold pinned in Hp'.
  destruct (sp_store sp) as [ws [rs|]|bs] eqn:Hst; [|done|].
  - destruct Hp' as (r & c & Hr & Hreads & Hrest). rewrite Hr. cbn [mbind option_bind id]. rewrite Hrest by done.
    assert (∀ rest calls, pinned (with_store sp (Disk ws (Some (<[idx := Some {| rd_all := rd_all r; rd_rest := rest |}]> rs))) calls) idx b false) as Hpin.
    { intros rest calls. exists {| rd_all := rd_all r; rd_rest := rest |}, c. split_and!; [|done..].
      apply list_lookup_insert_eq. by eapply lookup_lt_Some. }
    destruct (faults (sp_calls sp)) as [k|].
    + intros E. apply (inj2 pair) in E as [<- <-]. split; [by apply elsewhere_reader|]. by split; [apply Hpin|].
    + pose proof (proj1 (read_spill_reads (fun acc d n => Ok (acc ++ [(d, n)])) _ _ _ [] Hreads)) as Hraw.
      destruct (read_spill_records _ _ _) as [rest raw]. cbn [snd] in Hraw. rewrite try_fold_collect in Hraw.
      intros E. apply (inj2 pair) in E as [<- <-]. split; [by apply elsewhere_reader|]. split; [apply Hpin|].
      intros raw' E. rewrite Hraw in E. by injection E as <-.
  - rewrite Hp'. intros E. apply (inj2 pair) in E as [<- <-]. split; [done|].
    split; [by eapply pinned_any|]. by intros raw [= <-].
Qed.

Lemma rewind_shard_pinned sp idx b sp' res :
  pinned sp idx b false → rewind_shard faults sp idx = (sp', res) →
  elsewhere sp sp' idx ∧ pinned sp' idx b false ∧ (res = Ok () → pinned sp' idx b true).
Proof.
  intros Hp. unfold rewind_shard. destruct (sp_poisoned sp) eqn:Hpo.
  { intros E. apply (inj2 pair) in E as [<- <-]. split; [apply elsewhere_refl|]. by split. }
  pose proof Hp as Hp'. unfold pinned in Hp'. destruct (sp_store sp) as [ws [rs|]|bs] eqn:Hst; [|done|].
  - destruct Hp' as (r & c & Hr & Hreads & _). rewrite Hr. cbn [mbind option_bind id].
    destruct (faults (sp_calls sp)) as [k|]; intros E; apply (inj2 pair) in E as [<- <-].
    + split; [|split; [|done]].
      * split; [done|]. intros j b0 st _. unfold pinned. cbn. by rewrite Hst.
      * exists r, c. by split_and!.
    + assert (pinned (with_store sp (Disk ws (Some (<[idx := Some {| rd_all := rd_all r; rd_rest := rd_all r |}]> rs))) (S (sp_calls sp))) idx b true) as Hpin.
      { exists {| rd_all := rd_all r; rd_rest := rd_all r |}, c. split_and!; [|done..].
        apply list_lookup_insert_eq. by eapply lookup_lt_Some. }
      split; [by apply elsewhere_reader|]. by split; [eapply pinned_any|].
  - rewrite Hp'. intros E. apply (inj2 pair) in E as [<- <-]. split; [done|]. split; [done|].
    intros _. unfold pinned. by rewrite Hst.
Qed.

Lemma build_shard_pinned sp idx b p sp' res :
  pinned sp idx b true → build_shard faults sp idx p = (sp', res) →
  elsewhere sp sp' idx ∧ pinned sp' idx b false ∧ (∀ built, res = Ok built → shard_of_records b p = Ok built).
Proof.
  intros Hp. unfold build_shard. destruct (sp_poisoned sp) eqn:Hpo.
  { intros E. apply (inj2 pair) in E as [<- <-]. split; [apply elsewhere_refl|]. split; [by eapply pinned_any|done]. }
  destruct (read_shard faults sp idx) as [sp1 raw] eqn:Er. destruct (read_shard_pinned _ _ _ _ _ Hp Er) as (H1 & H2 & H3).
  intros E. apply (inj2 pair) in E as [<- <-]. split; [done|]. split; [done|].
  intros built Hb. apply rbind_Ok in Hb as (raw' & -> & Hb). by rewrite <-(H3 raw' eq_refl).
Qed.

Lemma count_unique_pinned hasher sp idx b novel sp' n novel' :
  pinned sp idx b true → count_unique faults hasher sp idx novel = (sp', Ok (n, novel')) →
  elsewhere sp sp' idx ∧ pinned sp' idx b true ∧ sp_poisoned sp' = false ∧
  n = Z.of_nat (size (observe_all hasher b ∅ novel).1) ∧ novel' = (observe_all hasher b ∅ novel).2.
Proof.
  intros Hp. unfold count_unique. destruct (sp_poisoned sp) eqn:Hpo; [done|].
  destruct (read_shard faults sp idx) as [sp1 raw] eqn:Er. destruct (read_shard_pinned _ _ _ _ _ Hp Er) as (H1 & H2 & H3).
  destruct raw as [raw|e]; [|done]. rewrite (H3 raw eq_refl) in *.
  destruct (observe_all hasher b ∅ novel) as [seen nov]. cbn [fst snd].
  destruct (sp_store sp1) as [ws [rs|]|bs] eqn:Hst.
  - destruct (rewind_shard faults sp1 idx) as [sp2 r] eqn:Ew.
    destruct (rewind_shard_pinned _ _ _ _ _ H2 Ew) as (G1 & G2 & G3). destruct r as [[]|e]; [|done].
    intros E. apply (inj2 pair) in E as [<- E]. injection E as <- <-.
    pose proof (elsewhere_trans _ _ _ _ H1 G1) as [Hpo2 He]. split; [done|]. split; [by apply G3|]. rewrite Hpo2. done.
  - unfold pinned in H2. by rewrite Hst in H2.
  - intros E. apply (inj2 pair) in E as [<- E]. injection E as <- <-. split; [done|].
    split; [|destruct H1 as [-> _]; done]. unfold pinned in *. by rewrite Hst in *.
Qed.

Lemma release_elsewhere sp idx : elsewhere sp (release_after_swap sp idx) idx.
Proof.
  unfold release_after_swap. destruct (sp_store sp) as [ws [rs|]|bs] eqn:Hst.
  - by apply elsewhere_reader.
  - apply elsewhere_refl.
  - split; [done|]. intros j b start Hj. unfold pinned. rewrite Hst. cbn. by rewrite list_lookup_insert_ne by done.
Qed.

End Sealing.

(** ** The stable sort *)

Lemma sorted_insert_perm x l : sorted_insert x l ≡ₚ x :: l.
Proof. induction l as [|y l IH]; [done|]. cbn. case_decide; [done|]. rewrite IH. apply Permutation_swap. Qed.

Lemma stable_sort_perm l : stable_sort l ≡ₚ l.
Proof. induction l as [|x l IH]; [done|]. cbn. by rewrite sorted_insert_perm, IH. Qed.

Lemma sorted_insert_sorted x l : StronglySorted key_le l → StronglySorted key_le (sorted_insert x l).
Proof.
  induction 1 as [|y l Hs IH Hf]; cbn; [by repeat constructor|]. case_decide as Hx.
  - constructor; [by constructor|]. constructor; [done|]. eapply Forall_impl; [exact Hf|]. intros z. by apply transitivity.
  - constructor; [done|]. rewrite sorted_insert_perm. constructor; [|done].
    destruct (total key_le x y); done.
Qed.

Lemma stable_sort_sorted l : StronglySorted key_le (stable_sort l).
Proof. induction l as [|x l IH]; [constructor|]. cbn. by apply sorted_insert_sorted. Qed.

(** Records with one key keep their order. *)
Lemma sorted_insert_key k x l :
  filter (fun e => e.1 = k) (sorted_insert x l) = filter (fun e => e.1 = k) (x :: l).
Proof.
  induction l as [|y l IH]; [done|]. cbn [sorted_insert]. case_decide as Hx; [done|].
  rewrite filter_cons, IH, !filter_cons. destruct (decide (y.1 = k)) as [Hy|Hy]; [|done].
  destruct (decide (x.1 = k)) as [Hk|]; [|done]. destruct Hx. apply key_le_iff. right. congruence.
Qed.

Lemma stable_sort_key k l : filter (fun e => e.1 = k) (stable_sort l) = filter (fun e => e.1 = k) l.
Proof.
  induction l as [|x l IH]; [done|]. cbn [stable_sort foldr]. rewrite sorted_insert_key.
  rewrite !filter_cons. fold (stable_sort l). by rewrite IH.
Qed.

(** ** First occurrences *)

(** The first record of each domain, in order. *)
Fixpoint firsts (seen : gset str) (raw : list (str * Z)) : list (str * Z) :=
  match raw with
  | [] => []
  | e :: raw => if decide (e.1 ∈ seen) then firsts seen raw else e :: firsts ({[e.1]} ∪ seen) raw
  end.

Lemma firsts_elem seen raw e :
  e ∈ firsts seen raw ↔ e.1 ∉ seen ∧ head (filter (fun x => x.1 = e.1) raw) = Some e.
Proof.
  revert seen. induction raw as [|x raw IH]; intros seen; cbn [firsts]; [set_solver|].
  rewrite filter_cons. case_decide as Hx.
  - rewrite IH. case_decide as Hk; [|done]. rewrite <-Hk. naive_solver.
  - rewrite elem_of_cons, IH. case_decide as Hk; cbn [head].
    + rewrite <-Hk. split; [intros [->|[Hn _]]; [done|set_solver]|]. intros [_ [= ->]]. by left.
    + split; [intros [->|[Hn Hh]]; [done|set_solver]|]. intros [Hn Hh]. right. split; [set_solver|done].
Qed.

Lemma firsts_keys seen raw : NoDup (firsts seen raw).*1 ∧ ∀ k, k ∈ (firsts seen raw).*1 ↔ k ∈ raw.*1 ∧ k ∉ seen.
Proof.
  revert seen. induction raw as [|x raw IH]; intros seen; cbn [firsts].
  { split; [constructor|]. set_solver. }
  case_decide as Hx.
  - destruct (IH seen) as [Hn Hk]. split; [done|]. intros k. rewrite Hk, fmap_cons, elem_of_cons.
    split; [naive_solver|]. intros [[->|?] ?]; done.
  - destruct (IH ({[x.1]} ∪ seen)) as [Hn Hk]. rewrite !fmap_cons. split.
    + constructor; [rewrite Hk; set_solver|done].
    + intros k. rewrite !elem_of_cons, Hk. destruct (decide (k = x.1)) as [->|]; set_solver.
Qed.

Lemma firsts_sort raw : firsts ∅ (stable_sort raw) ≡ₚ firsts ∅ raw.
Proof.
  apply NoDup_Permutation; [by eapply NoDup_fmap_1, firsts_keys..|].
  intros e. by rewrite !firsts_elem, stable_sort_key.
Qed.

(** The records [credit_runs] credits. *)
Fixpoint run_heads (prev : option str) (l : list (str * Z)) : list (str * Z) :=
  match l with
  | [] => []
  | e :: l => if decide (prev = Some e.1) then run_heads (Some e.1) l else e :: run_heads (Some e.1) l
  end.

Lemma credit_runs_heads prev l by_bit :
  credit_runs prev l by_bit = foldl (fun acc e => credit e.2 acc) by_bit (run_heads prev l).
Proof.
  revert prev by_bit. induction l as [|[d bit] l IH]; intros prev by_bit; [done|]. cbn [credit_runs run_heads fst].
  rewrite IH. by case_decide.
Qed.

Lemma run_heads_sorted p seen l :
  StronglySorted key_le l → Forall (fun e => ¬ str_lt e.1 p) l → p ∈ seen →
  (∀ k e, k ∈ seen → k ≠ p → e ∈ l → e.1 ≠ k) → run_heads (Some p) l = firsts seen l.
Proof.
  intros Hs. revert p seen. induction Hs as [|x l Hs IH Hx]; intros p seen Hge Hp Hseen; [done|].
  apply Forall_cons in Hge as [Hge Hgel]. cbn [run_heads firsts]. destruct (decide (Some p = Some x.1)) as [[= Hpx]|Hpx].
  - rewrite decide_True by congruence. rewrite <-Hpx. apply IH; [done..|]. intros k e Hk Hne He. apply Hseen; [done..|by right].
  - assert (p ≠ x.1) as Hne by congruence.
    rewrite decide_False by (intros Hin; by apply (Hseen x.1 x Hin); [congruence|left|]). f_equal.
    assert (str_lt p x.1) as Hlt by (destruct (str_lt_total x.1 p) as [?|[?|?]]; congruence).
    rewrite Forall_forall in Hx. apply IH; [|set_solver|].
    + apply Forall_forall. intros e He Hlt'. apply Hx in He. apply key_le_iff in He as [He|He].
      * apply (str_lt_irrefl x.1). by transitivity e.1.
      * rewrite He in Hlt'. by apply str_lt_irrefl in Hlt'.
    + intros k e Hk Hkx He. apply elem_of_union in Hk as [->%elem_of_singleton|Hk]; [done|].
      destruct (decide (k = p)) as [->|Hkp]; [|apply Hseen; [done..|by right]].
      intros Heq. apply Hx in He. apply key_le_iff in He. rewrite Heq in He. apply (str_lt_irrefl p).
      destruct He as [He| <-]; [by transitivity x.1|done].
Qed.

Lemma run_heads_firsts l : StronglySorted key_le l → run_heads None l = firsts ∅ l.
Proof.
  destruct 1 as [|x l Hs Hx]; [done|]. cbn [run_heads firsts]. rewrite decide_False by done.
  rewrite decide_False by set_solver. f_equal. apply run_heads_sorted; [done| |set_solver|set_solver].
  eapply Forall_impl; [exact Hx|]. intros e He Hlt. apply key_le_iff in He as [He|He].
  - apply (str_lt_irrefl x.1). by transitivity e.1.
  - rewrite He in Hlt. by apply str_lt_irrefl in Hlt.
Qed.

Lemma credit_lookup l by_bit i v :
  by_bit !! i = Some v →
  foldl (fun acc e => credit e.2 acc) by_bit l !! i
  = Some (v + Z.of_nat (length (filter (fun e : str * Z => Z.to_nat (trailing_zeros e.2) = i) l)))%Z.
Proof.
  revert by_bit v. induction l as [|e l IH]; intros by_bit v Hv; [cbn; by rewrite Z.add_0_r|].
  cbn [foldl]. rewrite filter_cons. unfold credit at 2. destruct (decide (Z.to_nat (trailing_zeros e.2) = i)) as [Hi|Hi].
  - rewrite (IH _ (v + 1)%Z); [cbn [length]; f_equal; lia|]. by rewrite Hi, list_lookup_alter_eq, Hv.
  - rewrite (IH _ v); [done|]. by rewrite list_lookup_alter_ne.
Qed.

(** ** What a built shard answers *)

(** Per bit, how many domains the source of that bit was first to bring. *)
Definition first_credit (raw : list (str * Z)) (i : nat) : Z :=
  Z.of_nat (length (filter (fun e => Z.to_nat (trailing_zeros e.2) = i) (firsts ∅ raw))).

(** The bits of a domain are those of all its records. *)
Record built_from (raw : list (str * Z)) (p : ListPolicy) (built : BuiltShard) : Prop := {
  bf_wf : shard_wf (bs_shard built);
  bf_policy : policy (bs_shard built) = p;
  bf_absent d : shard_bits (bs_shard built) d = None ↔ d ∉ raw.*1;
  bf_bits d bits i : shard_bits (bs_shard built) d = Some bits →
    Z.testbit bits i = true ↔ ∃ c, (d, c) ∈ raw ∧ Z.testbit c i = true;
  bf_size : length (entries (bs_shard built)) = length (firsts ∅ raw);
  bf_added i : i < 64 → bs_added_by_bit built !! i = Some (first_credit raw i);
}.

Lemma dedup_keys l k : k ∈ (dedup l).*1 ↔ k ∈ l.*1.
Proof. destruct l as [|e l]; [done|]. apply dedup_from_keys. Qed.

Lemma shard_of_records_spec raw p : ∃ built, shard_of_records raw p = Ok built ∧ built_from raw p built.
Proof.
  unfold shard_of_records. set (l := stable_sort raw).
  assert (ascending (dedup l)) as Hasc by apply dedup_ascending, stable_sort_sorted.
  unfold from_sorted_entries. rewrite (proj2 (first_disorder_None _) Hasc). eexists. split; [done|].
  assert (∀ k, k ∈ (dedup l).*1 ↔ k ∈ raw.*1) as Hkeys.
  { intros k. rewrite dedup_keys. unfold l. by rewrite (fmap_Permutation fst _ _ (stable_sort_perm raw)). }
  split; cbn [bs_shard bs_added_by_bit policy entries]; [done|done| | | |].
  - intros d. rewrite shard_bits_None by done. cbn [entries]. by rewrite Hkeys.
  - intros d bits i Hd. apply shard_bits_spec in Hd; [|done]. cbn [entries] in Hd.
    pose proof (stable_sort_perm raw) as Hperm. fold l in Hperm. setoid_rewrite <-Hperm.
    pose proof (stable_sort_sorted raw) as Hs. fold l in Hs.
    destruct l as [|e l']; [by apply not_elem_of_nil in Hd|]. by apply dedup_from_bits.
  - rewrite <-(length_fmap fst (dedup l)), <-(length_fmap fst (firsts ∅ raw)). apply Permutation_length.
    destruct (firsts_keys ∅ raw) as [Hn Hk].
    apply NoDup_Permutation; [by apply ascending_NoDup|done|]. intros k. rewrite Hkeys, Hk. set_solver.
  - intros i Hi. rewrite credit_runs_heads, run_heads_firsts by apply stable_sort_sorted.
    rewrite (credit_lookup _ _ _ 0%Z) by (by apply lookup_replicate_2). rewrite Z.add_0_l. unfold first_credit.
    do 2 f_equal. apply Permutation_length. apply filter_Permutation, firsts_sort.
Qed.

(** ** Counting without building *)

Lemma observe_all_seen hasher raw seen by_bit :
  (observe_all hasher raw seen by_bit).1 = list_to_set (map hasher raw.*1) ∪ seen.
Proof.
  revert seen by_bit. induction raw as [|[d bit] raw IH]; intros seen by_bit; cbn [observe_all].
  { cbn. set_solver. }
  rewrite fmap_cons. cbn [map list_to_set fst]. case_decide; rewrite IH; set_solver.
Qed.

Lemma size_list_to_set_le (l : list Z) : size (list_to_set l : gset Z) ≤ length l.
Proof.
  induction l as [|h l IH]; cbn [list_to_set length]; [by rewrite size_empty|].
  rewrite size_union_alt, size_singleton.
  pose proof (subseteq_size (list_to_set l ∖ {[h]}) (list_to_set l : gset Z) ltac:(set_solver)). lia.
Qed.

(** The measured count never exceeds the number of domains, and is that number
    when the hasher does not collide on them. *)
Lemma count_firsts hasher raw by_bit :
  size (observe_all hasher raw ∅ by_bit).1 ≤ length (firsts ∅ raw) ∧
  ((∀ a b, a ∈ raw.*1 → b ∈ raw.*1 → hasher a = hasher b → a = b) →
   size (observe_all hasher raw ∅ by_bit).1 = length (firsts ∅ raw)).
Proof.
  rewrite observe_all_seen, union_empty_r_L. destruct (firsts_keys ∅ raw) as [Hn Hk].
  assert (list_to_set (map hasher raw.*1) = (list_to_set (map hasher (firsts ∅ raw).*1) : gset Z)) as ->.
  { apply set_eq. intros h. rewrite !elem_of_list_to_set, !list_elem_of_fmap. setoid_rewrite Hk. set_solver. }
  rewrite <-(length_fmap fst (firsts ∅ raw)). split.
  - etransitivity; [apply size_list_to_set_le|]. by rewrite length_map.
  - intros Hinj. rewrite size_list_to_set; [by rewrite length_fmap|]. apply NoDup_fmap_2_strong; [|done].
    intros a b Ha Hb. apply Hinj; by apply Hk.
Qed.

(** ** The retention guard *)

(** The retention guard trips exactly on a drop of strictly more than the
    configured share, with a baseline; it never divides by zero, and the
    percentage it reports is the floor of the real one, between the configured
    share and 100, so the cast to 32 bits keeps it. *)
Theorem shrink_guard_exact enabled max_drop_pct prev fresh_unique max_entries :
  (1 ≤ max_drop_pct ≤ 100)%Z → (0 ≤ fresh_unique)%Z → (0 ≤ max_entries)%Z →
  match compute_shrink_verdict enabled max_drop_pct prev fresh_unique max_entries with
  | ShrinkRefuse drop_pct got kept =>
      enabled = true ∧ got = fresh_unique ∧ shrink_baseline prev max_entries = Some kept ∧ (0 < kept)%Z ∧
      ((kept - got) * 100 > max_drop_pct * kept)%Z ∧
      (drop_pct * kept ≤ (kept - got) * 100 < (drop_pct + 1) * kept)%Z ∧ (max_drop_pct ≤ drop_pct ≤ 100)%Z
  | ShrinkAccept => enabled = true → ∀ b, shrink_baseline prev max_entries = Some b →
      ((b - fresh_unique) * 100 ≤ max_drop_pct * b)%Z
  end.
Proof.
  intros Hp Hf Hm. unfold compute_shrink_verdict. destruct enabled; [|done]. cbn [negb].
  destruct (shrink_baseline prev max_entries) as [b|]; [|done].
  destruct (Z.ltb_spec (fresh_unique * 100) (b * (100 - max_drop_pct))) as [Ht|Ht].
  2:{ intros _ b' [= <-]. lia. }
  assert (0 < b)%Z as Hb by nia. assert (fresh_unique < b)%Z as Hlt by nia.
  unfold saturating_sub. rewrite Z.max_r by lia.
  pose proof (Z.mul_div_le ((b - fresh_unique) * 100) b Hb). pose proof (Z.mul_succ_div_gt ((b - fresh_unique) * 100) b Hb).
  set (q := ((b - fresh_unique) * 100 / b)%Z) in *.
  assert (max_drop_pct ≤ q ≤ 100)%Z as Hq by nia.
  unfold as_u32. rewrite Z.mod_small by lia. split_and!; try done; nia.
Qed.

Lemma shrink_guard_exact_witness :
  compute_shrink_verdict true 50 (Some {| ls_unique_domains := 1000; ls_prev_entries := None |}) 300 5000
    = ShrinkRefuse 70 300 1000 ∧ (50 ≤ 70 ≤ 100)%Z.
Proof.
  split; [reflexivity|].
  refine (proj2 (proj2 (proj2 (proj2 (proj2 (proj2 (shrink_guard_exact true 50
    (Some {| ls_unique_domains := 1000; ls_prev_entries := None |}) 300 5000 _ _ _))))))); lia.
Defined.
