(* ===== verification/Corpus.v ===== *)
(** * Committing a refresh: [src/lists/manager.rs], lines 2616-2682 and
    3940-4350, and [src/lists/cancellation.rs]

    Once every source is in the spill, the refresh seals it, measures the
    corpus against the operator's ceiling, and builds and installs one shard
    after the other.  A cancellation may arrive at any time until the first
    shard is installed. *)

From S2P Require Import Prelude RustStr SortedSlice DnsTypes Domain Shard Ast Engine ListParser Spill.

(** ** Cancellation *)

Inductive Phase := Running | Cancelled | Committing.

#[export] Instance Phase_eq : EqDecision Phase.
Proof. solve_decision. Defined.

(** [compare_exchange(RUNNING, CANCELLED)]. *)
Definition cancel (p : Phase) : Phase := match p with Running => Cancelled | p => p end.

(** The worker's view of the shared phase; [wk_clock] numbers its looks. *)
Record Worker := { wk_phase : Phase; wk_clock : nat }.

Inductive CorpusVerdict :=
| Unmeasured
| Install (unique : Z) (per_shard : list Z) (warn : bool)
| InstallOverCeiling (unique ceiling : Z) (per_shard : list Z)
| Refuse (unique ceiling : Z) (novel_by_bit : list Z).

Definition cold_start_hard_cap (ceiling : Z) : Z := ceiling * 2.

Section Commit.
Context {H : ShardHasher}.
Context (faults : nat → option nat).

(** Whether another thread calls [cancel] before the worker's [n]-th look. *)
Context (cancels : nat → bool).

Definition look (w : Worker) : Worker :=
  {| wk_phase := if cancels (wk_clock w) then cancel (wk_phase w) else wk_phase w;
     wk_clock := S (wk_clock w) |}.

(** [checkpoint]: whether to go on.  An operation that looks in between is
    followed by another look, which a cancelled phase fails as well, so the
    looks inside operations are left out. *)
Definition checkpoint (w : Worker) : Worker * bool :=
  let w := look w in (w, bool_decide (wk_phase w ≠ Cancelled)).

(** [begin_commit]: a look, then [compare_exchange(RUNNING, COMMITTING)]. *)
Definition begin_commit (w : Worker) : Worker * bool :=
  match checkpoint w with
  | (w, false) => (w, false)
  | (w, true) =>
    let w := look w in
    match wk_phase w with
    | Running | Committing => ({| wk_phase := Committing; wk_clock := wk_clock w |}, true)
    | Cancelled => (w, false)
    end
  end.

(** ** The ceiling on the corpus *)

(** The hasher of a shard's count is made for it: [hashers] gives one per shard. *)
Fixpoint count_shards (hashers : nat → str → Z) (idxs : list nat) (sp : ShardSpill) (novel : list Z)
  : ShardSpill * result IoError (list Z * list Z) :=
  match idxs with
  | [] => (sp, Ok ([], novel))
  | idx :: idxs =>
    match count_unique faults (hashers idx) sp idx novel with
    | (sp, Err e) => (sp, Err e)
    | (sp, Ok (n, novel)) =>
      match count_shards hashers idxs sp novel with
      | (sp, Err e) => (sp, Err e)
      | (sp, Ok (ns, novel)) => (sp, Ok (n :: ns, novel))
      end
    end
  end.

(** The decision on the measured corpus; [allow_cold_exception] is false on a
    node that follows another. *)
Definition corpus_decision (ceiling : Z) (allow_cold_exception : bool) (serving : nat)
    (per_shard novel_by_bit : list Z) : CorpusVerdict :=
  let unique := foldr Z.add 0%Z per_shard in
  if (ceiling <? unique)%Z then
    if allow_cold_exception && (serving =? 0) && (unique <=? cold_start_hard_cap ceiling)%Z
    then InstallOverCeiling unique ceiling per_shard
    else Refuse unique ceiling novel_by_bit
  else Install unique per_shard (ceiling * 9 <=? unique * 10)%Z.

Definition corpus_guard (hashers : nat → str → Z) (max_total_domains : option Z) (allow_cold_exception : bool)
    (sp : ShardSpill) (serving : nat) : ShardSpill * result IoError CorpusVerdict :=
  match max_total_domains with
  | None => (sp, Ok Unmeasured)
  | Some ceiling =>
    match count_shards hashers (seq 0 DOMAIN_SHARDS) sp (replicate 64 0%Z) with
    | (sp, Err e) => (sp, Err e)
    | (sp, Ok (per_shard, novel)) =>
      (sp, Ok (corpus_decision ceiling allow_cold_exception serving per_shard novel))
    end
  end.

(** ** Installing *)

Record Installing := {
  in_engine : FilterEngine;
  in_spill : ShardSpill;
  in_added : list Z;
  in_total : nat;
  in_published : nat;
  in_degraded : bool;
}.

(** [false] is the early return of a cancelled refresh; an index outside the
    engine would panic and leaves it as it is. *)
Definition install_shard (idx : nat) (b : BuiltShard) (w : Worker) (s : Installing) : Worker * Installing * bool :=
  match begin_commit w with
  | (w, false) => (w, s, false)
  | (w, true) =>
    let engine := default (in_engine s) (swap_shard_sorted (in_engine s) idx (bs_shard b)) in
    match checkpoint w with
    | (w, go) =>
      (w, {| in_engine := engine;
             in_spill := if go then release_after_swap (in_spill s) idx else in_spill s;
             in_added := if go then zip_with Z.add (in_added s) (bs_added_by_bit b) else in_added s;
             in_total := if go then in_total s + length (entries (bs_shard b)) else in_total s;
             in_published := if go then S (in_published s) else in_published s;
             in_degraded := in_degraded s |}, go)
    end
  end.

Definition with_spill (s : Installing) (sp : ShardSpill) (degraded : bool) : Installing :=
  {| in_engine := in_engine s; in_spill := sp; in_added := in_added s; in_total := in_total s;
     in_published := in_published s; in_degraded := degraded |}.

(** Building shard [idx], with one retry from a rewound reader. *)
Definition build_or_retry (p : ListPolicy) (idx : nat) (w : Worker) (sp : ShardSpill)
  : Worker * ShardSpill * option (option BuiltShard) :=
  let '(sp, built) := build_shard faults sp idx p in
  match checkpoint w with
  | (w, false) => (w, sp, None)
  | (w, true) =>
    match built with
    | Ok b => (w, sp, Some (Some b))
    | Err _ =>
      let '(sp, built) :=
        match rewind_shard faults sp idx with
        | (sp, Ok _) => build_shard faults sp idx p
        | (sp, Err e) => (sp, Err e)
        end in
      match checkpoint w with
      | (w, false) => (w, sp, None)
      | (w, true) => (w, sp, Some (match built with Ok b => Some b | Err _ => None end))
      end
    end
  end.

Fixpoint install_shards (p : ListPolicy) (idxs : list nat) (w : Worker) (s : Installing)
  : Worker * Installing * bool :=
  match idxs with
  | [] => (w, s, true)
  | idx :: idxs =>
    match build_or_retry p idx w (in_spill s) with
    | (w, sp, None) => (w, with_spill s sp (in_degraded s), false)
    | (w, sp, Some None) => install_shards p idxs w (with_spill s sp true)
    | (w, sp, Some (Some b)) =>
      match install_shard idx b w (with_spill s sp (in_degraded s)) with
      | (w, s, false) => (w, s, false)
      | (w, s, true) => install_shards p idxs w s
      end
    end
  end.

(** A complete empty corpus replaces every shard with an empty one. *)
Fixpoint install_empty (p : ListPolicy) (idxs : list nat) (w : Worker) (e : FilterEngine)
  : Worker * FilterEngine * bool :=
  match idxs with
  | [] => (w, e, true)
  | idx :: idxs =>
    match begin_commit w with
    | (w, false) => (w, e, false)
    | (w, true) =>
      let e := default e (swap_shard_sorted e idx {| entries := []; policy := p |}) in
      match checkpoint w with
      | (w, false) => (w, e, false)
      | (w, true) => install_empty p idxs w e
      end
    end
  end.

(** ** The commit *)

(** What the walk over the sources left behind, and the manager's settings. *)
Record Cycle := {
  cy_spill : ShardSpill;
  cy_rollback_failed : bool;
  cy_coverage_complete : bool;
  cy_spilled : Z;
  cy_digest : option str;
}.

Record Manager := {
  mg_engine : FilterEngine;
  mg_secondary : bool;
  mg_candidate : bool;
  mg_max_total_domains : option Z;
  mg_policy_masks : PolicyMasks;
  mg_installed_digest : option str;
}.

Record Outcome := {
  oc_engine : FilterEngine;
  oc_installed : bool;
  oc_degraded : bool;
  oc_refused : option (Z * Z * list Z);
  oc_total : nat;
  oc_added : list Z;
  oc_digest : option str;
}.

Inductive CommitResult := Returned (e : FilterEngine) | Completed (o : Outcome).

(** The branch that ends without touching the engine. *)
Definition kept (m : Manager) (refused : option (Z * Z * list Z)) : Outcome :=
  {| oc_engine := mg_engine m; oc_installed := false; oc_degraded := false; oc_refused := refused;
     oc_total := domain_count (mg_engine m); oc_added := replicate 64 0%Z; oc_digest := None |}.

(** The last steps: the closing [begin_commit], then the digest that describes
    what is live. *)
Definition conclude (m : Manager) (cy : Cycle) (digest : option str) (unchanged spill_poisoned : bool)
    (w : Worker) (o : Outcome) : CommitResult :=
  match begin_commit w with
  | (_, false) => Returned (oc_engine o)
  | (_, true) =>
    Completed
      {| oc_engine := oc_engine o; oc_installed := oc_installed o; oc_degraded := oc_degraded o;
         oc_refused := oc_refused o; oc_total := oc_total o; oc_added := oc_added o;
         oc_digest :=
           if oc_installed o && cy_coverage_complete cy then digest
           else if unchanged && negb spill_poisoned then mg_installed_digest m
           else None |}
  end.

Definition commit_refresh (hashers : nat → str → Z) (reopen : nat → str → option str) (gen : Z) (w : Worker)
    (m : Manager) (cy : Cycle) : CommitResult :=
  match checkpoint w with
  | (_, false) => Returned (mg_engine m)
  | (w, true) =>
    let serving := domain_count (mg_engine m) in
    let keep_live := negb (cy_coverage_complete cy) && ((0 <? serving) || mg_secondary m) in
    let digest := if cy_coverage_complete cy then cy_digest cy else None in
    let sp := cy_spill cy in
    let unchanged :=
      negb (sp_poisoned sp) && bool_decide (is_Some digest) && bool_decide (digest = mg_installed_digest m) in
    let complete_empty_install :=
      (cy_spilled cy =? 0)%Z && cy_coverage_complete cy && negb (cy_rollback_failed cy) && negb (sp_poisoned sp) in
    let preparing :=
      negb (sp_poisoned sp) && negb (cy_rollback_failed cy) && negb keep_live && (0 <? cy_spilled cy)%Z in
    let rebuilding := preparing && negb unchanged in
    let '(sp, flushed) := if preparing then flush faults sp else (sp, Ok ()) in
    let '(sp, sealed) := if preparing && is_ok flushed then prepare_validate reopen sp else (sp, Ok ()) in
    let guarding := rebuilding && is_ok flushed && is_ok sealed in
    let '(sp, guard) :=
      if guarding
      then corpus_guard hashers (mg_max_total_domains m) (negb (mg_secondary m) && negb (mg_candidate m)) sp serving
      else (sp, Ok Unmeasured) in
    match (if guarding then checkpoint w else (w, true)) with
    | (_, false) => Returned (mg_engine m)
    | (w, true) =>
    match checkpoint w with
    | (_, false) => Returned (mg_engine m)
    | (w, true) =>
      let conclude := conclude m cy digest unchanged (sp_poisoned sp) in
      if cy_rollback_failed cy || negb (is_ok flushed) || negb (is_ok sealed) || negb (is_ok guard)
         || sp_poisoned sp || unchanged || keep_live
      then conclude w (kept m None)
      else if (cy_spilled cy =? 0)%Z then
        if complete_empty_install then
          match install_empty (publish (mg_policy_masks m) gen).1 (seq 0 DOMAIN_SHARDS) w (mg_engine m) with
          | (_, e, false) => Returned e
          | (w, e, true) =>
            conclude w {| oc_engine := e; oc_installed := true; oc_degraded := false; oc_refused := None;
                          oc_total := 0; oc_added := replicate 64 0%Z; oc_digest := None |}
          end
        else conclude w (kept m None)
      else
        match guard with
        | Ok (Refuse unique ceiling novel) => conclude w (kept m (Some (unique, ceiling, novel)))
        | _ =>
          match install_shards (publish (mg_policy_masks m) gen).1 (seq 0 DOMAIN_SHARDS) w
                  {| in_engine := mg_engine m; in_spill := sp; in_added := replicate 64 0%Z; in_total := 0;
                     in_published := 0; in_degraded := false |} with
          | (_, s, false) => Returned (in_engine s)
          | (w, s, true) =>
            conclude w {| oc_engine := in_engine s; oc_installed := negb (in_degraded s);
                          oc_degraded := in_degraded s; oc_refused := None;
                          oc_total := if in_degraded s then domain_count (in_engine s) else in_total s;
                          oc_added := in_added s; oc_digest := None |}
          end
        end
    end
    end
  end.

End Commit.
