(* ===== verification/CorpusProofs.v ===== *)
(** * What a committed refresh serves

    A cancellation never leaves a half-replaced corpus, a failure never
    replaces a shard by anything but the records of its spill, and the digest
    kept for the next cycle describes what is live. *)

From S2P Require Import Prelude RustStr SortedSlice DnsTypes Domain Shard Ast Engine EngineProofs ListParser Spill SpillProofs SpillBuild Corpus.

(** ** Cancellation *)

Section Commit.
Context {H : ShardHasher}.
Context (faults : nat → option nat) (cancels : nat → bool).

Lemma look_committing w : wk_phase w = Committing → wk_phase (look cancels w) = Committing.
Proof. intros E. unfold look. cbn. rewrite E. by destruct (cancels _). Qed.

Lemma checkpoint_committing w : wk_phase w = Committing →
  (checkpoint cancels w).2 = true ∧ wk_phase (checkpoint cancels w).1 = Committing.
Proof. intros E. apply look_committing in E. unfold checkpoint. cbn [fst snd]. rewrite E. done. Qed.

Lemma begin_commit_committing w : wk_phase w = Committing → (begin_commit cancels w).2 = true.
Proof.
  intros E. apply checkpoint_committing in E as [E1 E2]. unfold begin_commit.
  destruct (checkpoint cancels w) as [w1 b]. cbn in E1, E2. subst b.
  apply look_committing in E2. by rewrite E2.
Qed.

(** Once a commit has begun there is no turning back. *)
Lemma begin_commit_true w w' : begin_commit cancels w = (w', true) → wk_phase w' = Committing.
Proof.
  unfold begin_commit. destruct (checkpoint cancels w) as [w1 [|]]; [|done].
  destruct (wk_phase (look cancels w1)) eqn:E; [|done|]; intros [= <-]; done.
Qed.

Lemma install_shard_spec idx b w s w' s' ok :
  install_shard cancels idx b w s = (w', s', ok) →
  (wk_phase w = Committing → ok = true) ∧
  (ok = false → in_engine s' = in_engine s) ∧
  (ok = true → wk_phase w' = Committing ∧
     in_engine s' = default (in_engine s) (swap_shard_sorted (in_engine s) idx (bs_shard b)) ∧
     in_spill s' = release_after_swap (in_spill s) idx ∧
     in_added s' = zip_with Z.add (in_added s) (bs_added_by_bit b) ∧
     in_total s' = in_total s + length (entries (bs_shard b)) ∧ in_degraded s' = in_degraded s).
Proof.
  unfold install_shard. pose proof (begin_commit_committing w) as Hc.
  destruct (begin_commit cancels w) as [w1 [|]] eqn:Eb.
  - pose proof (begin_commit_true _ _ Eb) as Hph. destruct (checkpoint_committing w1 Hph) as [E1 E2].
    destruct (checkpoint cancels w1) as [w2 go]. cbn in E1, E2. subst go. intros [= <- <- <-]. done.
  - intros [= <- <- <-]. split; [|done]. intros Hw. by apply Hc in Hw.
Qed.

(** ** Installing *)

(** A shard that serves exactly the records [raw] under [p]. *)
Definition serves (raw : list (str * Z)) (p : ListPolicy) (s : SortedShard) : Prop :=
  ∃ added, built_from raw p {| bs_shard := s; bs_added_by_bit := added |}.

Lemma build_or_retry_spec p idx w sp raw w' sp' r :
  pinned sp idx raw true → build_or_retry faults cancels p idx w sp = (w', sp', r) →
  elsewhere sp sp' idx ∧
  (wk_phase w = Committing → r ≠ None ∧ wk_phase w' = Committing) ∧
  (∀ b, r = Some (Some b) → built_from raw p b).
Proof.
  intros Hp. unfold build_or_retry.
  assert (∀ built b, built = Ok b → shard_of_records raw p = built → built_from raw p b) as Hbf.
  { intros built b -> E. destruct (shard_of_records_spec raw p) as (b' & E' & Hb'). rewrite E in E'. by injection E' as ->. }
  destruct (build_shard faults sp idx p) as [sp1 built] eqn:E1.
  destruct (build_shard_pinned _ _ _ _ _ _ _ Hp E1) as (He1 & Hp1 & Hb1).
  pose proof (checkpoint_committing w) as Hc. destruct (checkpoint cancels w) as [w1 [|]]; cbn in Hc.
  2:{ intros [= <- <- <-]. split; [done|]. split; [|done]. intros Hw. by destruct (Hc Hw). }
  destruct built as [b|e].
  { intros [= <- <- <-]. split; [done|]. split; [intros Hw; by destruct (Hc Hw)|].
    intros b' [= <-]. by eapply Hbf; [|apply Hb1]. }
  assert (∃ sp2 built2, match rewind_shard faults sp1 idx with
      | (sp, Ok _) => build_shard faults sp idx p | (sp, Err e) => (sp, Err e) end = (sp2, built2) ∧
      elsewhere sp sp2 idx ∧ ∀ b, built2 = Ok b → built_from raw p b) as (sp2 & built2 & -> & He2 & Hb2).
  { destruct (rewind_shard faults sp1 idx) as [q rr] eqn:Er.
    destruct (rewind_shard_pinned _ _ _ _ _ _ Hp1 Er) as (He & Hpq & Hq). destruct rr as [[]|e'].
    - destruct (build_shard faults q idx p) as [sp2 built2] eqn:E2.
      destruct (build_shard_pinned _ _ _ _ _ _ _ (Hq eq_refl) E2) as (He' & _ & Hb').
      eexists _, _. split; [done|]. split; [by do 2 (eapply elsewhere_trans; [done|])|].
      intros b ->. by eapply Hbf; [|apply Hb'].
    - eexists _, _. split; [done|]. split; [by eapply elsewhere_trans|done]. }
  pose proof (checkpoint_committing w1) as Hc1. destruct (checkpoint cancels w1) as [w2 [|]]; cbn in Hc1.
  - intros [= <- <- <-]. split; [done|]. split.
    + intros Hw. destruct (Hc Hw) as [_ Hw1]. by destruct (Hc1 Hw1).
    + intros b Hb. destruct built2 as [b2|]; [|done]. injection Hb as <-. by apply Hb2.
  - intros [= <- <- <-]. split; [done|]. split; [|done]. intros Hw. destruct (Hc Hw) as [_ Hw1]. by destruct (Hc1 Hw1).
Qed.

(** The loop over the shards: what was there, what is there now. *)
Record installed_as (p : ListPolicy) (raws : nat → list (str * Z)) (idxs : list nat) (s s' : Installing) : Prop := {
  ia_length : length (shards (in_engine s')) = length (shards (in_engine s));
  ia_other i : i ∉ idxs → shards (in_engine s') !! i = shards (in_engine s) !! i;
  ia_shard i : i ∈ idxs → ∃ sh, shards (in_engine s') !! i = Some sh ∧
    (serves (raws i) p sh ∨ (shards (in_engine s) !! i = Some sh ∧ in_degraded s' = true));
  ia_degraded : in_degraded s = true → in_degraded s' = true;
  ia_total : in_degraded s' = false →
    in_total s' = in_total s + sum_list (map (fun i => length (firsts ∅ (raws i))) idxs);
  ia_added k a : in_degraded s' = false → k < 64 → in_added s !! k = Some a →
    in_added s' !! k = Some (a + foldr Z.add 0 (map (fun i => first_credit (raws i) k) idxs))%Z;
}.

Lemma installed_as_nil p raws s : installed_as p raws [] s s.
Proof.
  split; try done.
  - intros i Hi. by apply not_elem_of_nil in Hi.
  - intros k a _ _ ->. cbn. by rewrite Z.add_0_r.
Qed.

Lemma installed_as_skip p raws idx idxs s sp s' :
  idx < length (shards (in_engine s)) → idx ∉ idxs →
  installed_as p raws idxs (with_spill s sp true) s' → installed_as p raws (idx :: idxs) s s'.
Proof.
  intros Hlt Hnot [H1 H2 H3 H4 H5 H6]. specialize (H4 eq_refl). cbn [in_engine with_spill] in *.
  split; try done; try congruence.
  - intros i Hi. apply H2. set_solver.
  - intros i [->|Hi]%elem_of_cons; [|by apply H3].
    destruct (lookup_lt_is_Some_2 _ _ Hlt) as [sh Hsh]. exists sh. rewrite H2 by done. eauto.
Qed.

Lemma installed_as_swap p raws idx idxs s s1 s' b :
  idx < length (shards (in_engine s)) → idx ∉ idxs → built_from (raws idx) p b →
  in_engine s1 = default (in_engine s) (swap_shard_sorted (in_engine s) idx (bs_shard b)) →
  in_added s1 = zip_with Z.add (in_added s) (bs_added_by_bit b) →
  in_total s1 = in_total s + length (entries (bs_shard b)) → in_degraded s1 = in_degraded s →
  installed_as p raws idxs s1 s' → installed_as p raws (idx :: idxs) s s'.
Proof.
  intros Hlt Hnot Hb He Ha Ht Hd [H1 H2 H3 H4 H5 H6].
  unfold swap_shard_sorted in He. rewrite (proj2 (Nat.ltb_lt _ _) Hlt) in He. cbn [default from_option id] in He.
  rewrite He in *. cbn [shards] in *. rewrite length_insert in H1. split.
  - done.
  - intros i Hi. rewrite H2 by set_solver. apply list_lookup_insert_ne. set_solver.
  - intros i [->|Hi]%elem_of_cons.
    + exists (bs_shard b). rewrite H2 by done. rewrite list_lookup_insert_eq by done. split; [done|]. left.
      exists (bs_added_by_bit b). by destruct b.
    + destruct (H3 i Hi) as (sh & Hsh & Hor). exists sh. split; [done|]. destruct Hor as [?|[Ho ?]]; [by left|right].
      rewrite list_lookup_insert_ne in Ho; [done|]. intros ->. done.
  - intros Hdeg. apply H4. congruence.
  - intros Hdeg. rewrite (H5 Hdeg), Ht, (bf_size _ _ _ Hb). cbn. lia.
  - intros k a Hdeg Hk Hka. cbn [map foldr]. rewrite (H6 k (a + first_credit (raws idx) k)%Z Hdeg Hk).
    + f_equal. lia.
    + rewrite Ha, lookup_zip_with, Hka. cbn. by rewrite (bf_added _ _ _ Hb k Hk).
Qed.

Lemma install_shards_spec p raws idxs w s w' s' ok :
  NoDup idxs →
  (∀ i, i ∈ idxs → pinned (in_spill s) i (raws i) true ∧ i < length (shards (in_engine s))) →
  install_shards faults cancels p idxs w s = (w', s', ok) →
  (wk_phase w = Committing → ok = true ∧ wk_phase w' = Committing) ∧
  (wk_phase w' = Committing ∨ in_engine s' = in_engine s) ∧ (ok = false → in_engine s' = in_engine s) ∧
  (ok = true → installed_as p raws idxs s s').
Proof.
  intros Hnd. revert w s. induction Hnd as [|idx idxs Hnot Hnd IH]; intros w s Hpin; cbn [install_shards].
  { intros [= <- <- <-]. split; [done|]. split; [by right|]. split; [done|]. intros _. apply installed_as_nil. }
  destruct (Hpin idx) as [Hp Hlt]; [by left|].
  destruct (build_or_retry faults cancels p idx w (in_spill s)) as [[w1 sp1] r] eqn:Eb.
  destruct (build_or_retry_spec _ _ _ _ _ _ _ _ Hp Eb) as ([_ He] & Hph & Hbf).
  assert (∀ i, i ∈ idxs → pinned sp1 i (raws i) true ∧ i < length (shards (in_engine s))) as Hpin1.
  { intros i Hi. destruct (Hpin i) as [Hpi ?]; [by right|]. split; [|done]. apply He; [|done]. by intros ->. }
  destruct r as [[b|]|].
  - destruct (install_shard cancels idx b w1 _) as [[w2 s2] ok2] eqn:Ei.
    destruct (install_shard_spec _ _ _ _ _ _ _ Ei) as (I1 & I2 & I3). destruct ok2.
    2:{ intros [= <- <- <-]. rewrite (I2 eq_refl). split; [|by split; [right|]].
        intros Hw. destruct (Hph Hw) as [_ Hw1]. by apply I1 in Hw1. }
    destruct (I3 eq_refl) as (J1 & J2 & J3 & J4 & J5 & J6). cbn [in_engine in_spill in_added in_total in_degraded with_spill] in *.
    intros E. apply IH in E as (K1 & _ & K2 & K3).
    + destruct (K1 J1) as [-> Hw']. split; [done|]. split; [by left|]. split; [done|]. intros _.
      eapply (installed_as_swap p raws idx idxs s s2); eauto.
    + intros i Hi. destruct (Hpin1 i Hi) as [Hpi Hli]. rewrite J3, J2. split.
      * apply (release_elsewhere sp1 idx); [|done]. by intros ->.
      * unfold swap_shard_sorted. destruct (_ <? _); cbn; [by rewrite length_insert|done].
  - intros E. apply IH in E as (K1 & K1' & K2 & K3); [|done]. split; [intros Hw; apply K1; by apply Hph|].
    split; [done|]. split; [done|]. intros Hok. eapply installed_as_skip; [done..|]. by apply K3.
  - intros [= <- <- <-]. split; [|by split; [right|]]. intros Hw. by destruct (Hph Hw).
Qed.

Lemma install_empty_spec p idxs w e w' e' ok :
  NoDup idxs → (∀ i, i ∈ idxs → i < length (shards e)) →
  install_empty cancels p idxs w e = (w', e', ok) →
  (wk_phase w = Committing → ok = true ∧ wk_phase w' = Committing) ∧
  (wk_phase w' = Committing ∨ e' = e) ∧ (ok = false → e' = e) ∧
  (ok = true → length (shards e') = length (shards e) ∧
     ∀ i, shards e' !! i = if decide (i ∈ idxs) then Some {| entries := []; policy := p |} else shards e !! i).
Proof.
  intros Hnd. revert w e. induction Hnd as [|idx idxs Hnot Hnd IH]; intros w e Hlt; cbn [install_empty].
  { intros [= <- <- <-]. split; [done|]. by split; [right|]. }
  pose proof (begin_commit_committing w) as Hc. destruct (begin_commit cancels w) as [w1 [|]] eqn:Eb.
  2:{ intros [= <- <- <-]. split; [|by split; [right|]]. intros Hw. by apply Hc in Hw. }
  pose proof (begin_commit_true _ _ Eb) as Hph. destruct (checkpoint_committing w1 Hph) as [E1 E2].
  destruct (checkpoint cancels w1) as [w2 go]. cbn in E1, E2. subst go.
  assert (idx < length (shards e)) as Hi by (apply Hlt; by left).
  unfold swap_shard_sorted. rewrite (proj2 (Nat.ltb_lt _ _) Hi). cbn [default from_option id].
  intros E. apply IH in E as (K1 & _ & K2 & K3).
  - destruct (K1 E2) as [-> Hw']. split; [done|]. split; [by left|]. split; [done|]. intros _. destruct (K3 eq_refl) as [L1 L2].
    cbn [shards] in *. rewrite length_insert in L1. split; [done|]. intros i. rewrite L2.
    destruct (decide (i = idx)) as [->|Hne].
    + rewrite decide_False, decide_True by set_solver. by apply list_lookup_insert_eq.
    + rewrite list_lookup_insert_ne by done. repeat case_decide; set_solver.
  - intros i Hin. cbn. rewrite length_insert. apply Hlt. by right.
Qed.

(** ** The guard *)

Lemma count_shards_spec hashers idxs raws sp novel sp' ns novel' :
  (∀ i, i ∈ idxs → pinned sp i (raws i) true) →
  count_shards faults hashers idxs sp novel = (sp', Ok (ns, novel')) →
  (∀ i b, pinned sp i b true → pinned sp' i b true) ∧ sp_poisoned sp' = sp_poisoned sp ∧
  ns = map (fun i => Z.of_nat (size (observe_all (hashers i) (raws i) ∅ []).1)) idxs.
Proof.
  revert sp novel sp' ns novel'. induction idxs as [|idx idxs IH]; intros sp novel sp' ns novel' Hpin; cbn [count_shards].
  { intros [= <- <- <-]. done. }
  destruct (count_unique faults (hashers idx) sp idx novel) as [sp1 [[n nv]|e]] eqn:Ec; [|done].
  destruct (count_unique_pinned _ _ _ _ _ _ _ _ _ (Hpin idx ltac:(by left)) Ec) as ([Hpo He] & Hp1 & _ & -> & _).
  assert (∀ i b, pinned sp i b true → pinned sp1 i b true) as Hkeep.
  { intros i b Hb. destruct (decide (i = idx)) as [->|Hne]; [|by apply He].
    pose proof (pinned_unique _ _ _ _ Hb (Hpin idx ltac:(by left))) as ->. done. }
  destruct (count_shards faults hashers idxs sp1 nv) as [sp2 [[ms nv2]|e]] eqn:Es; [|done].
  apply IH in Es as (K1 & K2 & K3); [|intros i Hi; apply Hkeep, Hpin; by right].
  intros E. apply (inj2 pair) in E as [<- E]. injection E as <- <-. split; [auto|]. split; [congruence|].
  cbn [map]. rewrite !observe_all_seen. by rewrite K3.
Qed.

Lemma corpus_guard_pinned hashers max cold sp serving sp' v raws :
  (∀ i, i < DOMAIN_SHARDS → pinned sp i (raws i) true) →
  corpus_guard faults hashers max cold sp serving = (sp', Ok v) →
  (∀ i, i < DOMAIN_SHARDS → pinned sp' i (raws i) true) ∧
  ∀ ceiling, max = Some ceiling → ∃ novel, v = corpus_decision ceiling cold serving
    (map (fun i => Z.of_nat (size (observe_all (hashers i) (raws i) ∅ []).1)) (seq 0 DOMAIN_SHARDS)) novel.
Proof.
  intros Hp. unfold corpus_guard. destruct max as [ceiling|]; [|by intros [= <- <-]].
  destruct (count_shards _ _ _ _ _) as [sp1 [[ns novel]|e]] eqn:E; [|done].
  apply (count_shards_spec _ _ raws) in E as (K1 & K2 & ->).
  - intros E. apply (inj2 pair) in E as [<- E]. injection E as <-. split; [auto|].
    intros c [= <-]. by eexists.
  - intros i Hi. apply elem_of_seq in Hi. apply Hp. lia.
Qed.

(** ** The commit *)

(** A spill between its passes: one file or bucket per shard. *)
Definition spill_shape (sp : ShardSpill) : Prop :=
  match sp_store sp with
  | Disk ws _ => length ws = DOMAIN_SHARDS
  | Memory bs => length bs = DOMAIN_SHARDS ∧ Forall (Forall (fun e => in_u64 e.2)) bs
  end.

Lemma flush_store sp : sp_store (flush faults sp).1 = sp_store sp.
Proof.
  unfold flush. destruct (sp_poisoned sp); [done|]. destruct (sp_store sp) as [ws rs|bs] eqn:E; [|exact E].
  by destruct (flush_writers _ _ _) as [call [|]].
Qed.

(** What sealing pins, for some records that belong where they are. *)
Lemma sealed_records reopen sp sp' :
  spill_shape sp → prepare_validate reopen sp = (sp', Ok ()) →
  ∃ raws, ∀ i, i < DOMAIN_SHARDS → sealed_as reopen sp i (raws i) ∧ pinned sp' i (raws i) true ∧ Forall (placed i) (raws i).
Proof.
  intros Hsh E. apply (prepare_validate_pins faults) in E as [Hp _]. unfold spill_shape in Hsh.
  destruct (sp_store sp) as [ws rs|bs] eqn:Hst.
  - assert (∀ i, ∃ raw, i < DOMAIN_SHARDS → sealed_as reopen sp i raw ∧ pinned sp' i raw true ∧ Forall (placed i) raw) as Hex.
    { intros i. destruct (decide (i < DOMAIN_SHARDS)) as [Hi|]; [|by exists []].
      rewrite <-Hsh in Hi. destruct (lookup_lt_is_Some_2 _ _ Hi) as [w Hw]. destruct (Hp i w Hw) as [raw ?]. by exists raw. }
    assert (∀ n, ∃ raws : list (list (str * Z)), length raws = n ∧
      ∀ i raw, raws !! i = Some raw → i < DOMAIN_SHARDS → sealed_as reopen sp i raw ∧ pinned sp' i raw true ∧ Forall (placed i) raw) as Hall.
    { induction n as [|n (raws & Hlen & IH)]; [by exists []|]. destruct (Hex n) as [raw Hraw].
      exists (raws ++ [raw]). rewrite length_app, Hlen. split; [cbn; lia|]. intros i x Hx Hi.
      apply lookup_app_Some in Hx as [Hx|[Hge Hx]]; [by apply IH|].
      apply list_lookup_singleton_Some in Hx as [Hz <-]. replace i with n in * by lia. by apply Hraw. }
    destruct (Hall DOMAIN_SHARDS) as (raws & Hlen & Hr). exists (fun i => raws !!! i). intros i Hi.
    apply Hr; [|done]. apply list_lookup_lookup_total_lt. by rewrite Hlen.
  - destruct Hsh as [Hlen Hu]. exists (fun i => bs !!! i). intros i Hi. rewrite <-Hlen in Hi.
    apply list_lookup_lookup_total_lt in Hi. split; [unfold sealed_as; by rewrite Hst|]. apply Hp; [done|]. by eapply Forall_lookup_1.
Qed.

(** The engine after the commit, from the records that were sealed. *)
Definition replaced (m : Manager) (p : ListPolicy) (raws : nat → list (str * Z)) (o : Outcome) : Prop :=
  length (shards (oc_engine o)) = DOMAIN_SHARDS ∧
  ∀ i, i < DOMAIN_SHARDS → ∃ sh, shards (oc_engine o) !! i = Some sh ∧
    (serves (raws i) p sh ∨ (shards (mg_engine m) !! i = Some sh ∧ oc_installed o = false)).

(** The corpus as the guard measures it, and what lets it in: the operator's
    ceiling, or twice that on a primary node that serves nothing yet. *)
Definition measured (hashers : nat → str → Z) (raws : nat → list (str * Z)) : Z :=
  foldr Z.add 0%Z (map (fun i => Z.of_nat (size (observe_all (hashers i) (raws i) ∅ []).1)) (seq 0 DOMAIN_SHARDS)).

Definition within_ceiling (m : Manager) (hashers : nat → str → Z) (raws : nat → list (str * Z)) : Prop :=
  ∀ ceiling, mg_max_total_domains m = Some ceiling →
    (measured hashers raws ≤ ceiling)%Z ∨
    mg_secondary m = false ∧ mg_candidate m = false ∧ domain_count (mg_engine m) = 0 ∧
    (measured hashers raws ≤ 2 * ceiling)%Z.

(** The corpus was replaced, in whole or shard by shard. *)
Definition renewed (m : Manager) (hashers : nat → str → Z) (p : ListPolicy) (known : (nat → list (str * Z)) → Prop) (o : Outcome) : Prop :=
  ∃ raws, known raws ∧ within_ceiling m hashers raws ∧ replaced m p raws o ∧
    (oc_installed o = true →
       oc_total o = sum_list (map (fun i => length (firsts ∅ (raws i))) (seq 0 DOMAIN_SHARDS))).

Lemma corpus_decision_admits ceiling m hashers raws novel :
  (∀ unique c novel', corpus_decision ceiling (negb (mg_secondary m) && negb (mg_candidate m))
     (domain_count (mg_engine m)) (map (fun i => Z.of_nat (size (observe_all (hashers i) (raws i) ∅ []).1)) (seq 0 DOMAIN_SHARDS))
     novel ≠ Refuse unique c novel') →
  (measured hashers raws ≤ ceiling)%Z ∨
  mg_secondary m = false ∧ mg_candidate m = false ∧ domain_count (mg_engine m) = 0 ∧
  (measured hashers raws ≤ 2 * ceiling)%Z.
Proof.
  unfold corpus_decision, cold_start_hard_cap. fold (measured hashers raws). cbv zeta.
  destruct (Z.ltb_spec ceiling (measured hashers raws)) as [Hlt|Hge]; [|by left]. intros Hn. right.
  destruct (mg_secondary m), (mg_candidate m); cbn [negb andb] in Hn; try (by destruct (Hn _ _ _ eq_refl)).
  destruct (Nat.eqb_spec (domain_count (mg_engine m)) 0) as [Hz|]; cbn [andb] in Hn; [|by destruct (Hn _ _ _ eq_refl)].
  destruct (Z.leb_spec (measured hashers raws) (ceiling * 2)) as [Hle|]; [|by destruct (Hn _ _ _ eq_refl)].
  split_and!; [done..|lia].
Qed.

(** The ways a commit can end when it is not cancelled. *)
Definition outcome_ok (m : Manager) (cy : Cycle) (hashers : nat → str → Z) (p : ListPolicy)
    (known : (nat → list (str * Z)) → Prop) (o : Outcome) : Prop :=
  (oc_engine o = mg_engine m ∧ oc_installed o = false ∨ renewed m hashers p known o) ∧
  (∀ g, oc_digest o = Some g →
     oc_engine o = mg_engine m ∧ mg_installed_digest m = Some g ∨
     oc_installed o = true ∧ cy_coverage_complete cy = true ∧ cy_digest cy = Some g).

(** Concluding: only a cycle that has not begun to commit can still return. *)
Lemma conclude_spec m cy hashers known p digest unchanged poisoned w o :
  (wk_phase w = Committing ∨ oc_engine o = mg_engine m) →
  (oc_engine o = mg_engine m ∧ oc_installed o = false ∨ renewed m hashers p known o) →
  (cy_coverage_complete cy = true → digest = cy_digest cy) →
  (unchanged = true → oc_engine o = mg_engine m) →
  match conclude cancels m cy digest unchanged poisoned w o with
  | Returned e => e = mg_engine m
  | Completed o => outcome_ok m cy hashers p known o
  end.
Proof.
  intros Hw Ho Hdig Hun. unfold conclude. pose proof (begin_commit_committing w) as Hc.
  destruct (begin_commit cancels w) as [w1 [|]].
  - split; [exact Ho|]. cbn [oc_digest]. intros g Hg. destruct (oc_installed o && cy_coverage_complete cy) eqn:E1.
    + apply andb_true_iff in E1 as [E1 E2]. right. rewrite <-(Hdig E2). done.
    + destruct (unchanged && negb poisoned) eqn:E2; [|done]. apply andb_true_iff in E2 as [E2 _].
      left. split; [by apply Hun|done].
  - destruct Hw as [Hw|?]; [|done]. by apply Hc in Hw.
Qed.

Lemma kept_ok m cy hashers known p digest unchanged poisoned w refused :
  (cy_coverage_complete cy = true → digest = cy_digest cy) →
  match conclude cancels m cy digest unchanged poisoned w (kept m refused) with
  | Returned e => e = mg_engine m
  | Completed o => outcome_ok m cy hashers p known o
  end.
Proof. intros Hd. apply conclude_spec; [by right|by left|done|done]. Qed.

Lemma empty_ok m cy hashers known p digest poisoned w :
  length (shards (mg_engine m)) = DOMAIN_SHARDS → known (fun _ => []) →
  (∀ c, mg_max_total_domains m = Some c → (0 ≤ c)%Z) →
  (cy_coverage_complete cy = true → digest = cy_digest cy) →
  match
    match install_empty cancels p (seq 0 DOMAIN_SHARDS) w (mg_engine m) with
    | (_, e, false) => Returned e
    | (w, e, true) =>
      conclude cancels m cy digest false poisoned w
        {| oc_engine := e; oc_installed := true; oc_degraded := false; oc_refused := None;
           oc_total := 0; oc_added := replicate 64 0%Z; oc_digest := None |}
    end
  with
  | Returned e => e = mg_engine m
  | Completed o => outcome_ok m cy hashers p known o
  end.
Proof.
  intros Hlen Hk Hc Hd. destruct (install_empty _ _ _ _ _) as [[w' e'] ok] eqn:E.
  apply install_empty_spec in E as (_ & K1 & K2 & K3); [|apply NoDup_seq|intros i Hi; apply elem_of_seq in Hi; lia].
  destruct ok; [|by apply K2]. destruct (K3 eq_refl) as [L1 L2]. apply conclude_spec; [done| |done|done].
  right. exists (fun _ => []). split; [done|]. split; [intros c ?; left; by apply Hc|]. split; [|done]. split; [cbn; lia|]. intros i Hi. cbn.
  eexists. rewrite L2, decide_True by (apply elem_of_seq; lia). split; [done|]. left.
  exists (replicate 64 0%Z). destruct (shard_of_records_spec [] p) as (b & Hb & Hbf). by injection Hb as <-.
Qed.

Lemma install_ok m cy hashers known p digest poisoned w sp raws :
  length (shards (mg_engine m)) = DOMAIN_SHARDS → known raws → within_ceiling m hashers raws →
  (∀ i, i < DOMAIN_SHARDS → pinned sp i (raws i) true) →
  (cy_coverage_complete cy = true → digest = cy_digest cy) →
  match
    match install_shards faults cancels p (seq 0 DOMAIN_SHARDS) w
            {| in_engine := mg_engine m; in_spill := sp; in_added := replicate 64 0%Z; in_total := 0;
               in_published := 0; in_degraded := false |} with
    | (_, s, false) => Returned (in_engine s)
    | (w, s, true) =>
      conclude cancels m cy digest false poisoned w
        {| oc_engine := in_engine s; oc_installed := negb (in_degraded s);
           oc_degraded := in_degraded s; oc_refused := None;
           oc_total := if in_degraded s then domain_count (in_engine s) else in_total s;
           oc_added := in_added s; oc_digest := None |}
    end
  with
  | Returned e => e = mg_engine m
  | Completed o => outcome_ok m cy hashers p known o
  end.
Proof.
  intros Hlen Hk Hcl Hp Hd. destruct (install_shards _ _ _ _ _ _) as [[w' s'] ok] eqn:E.
  apply (install_shards_spec _ raws) in E as (_ & K1 & K2 & K3); [|apply NoDup_seq|].
  2:{ intros i Hi. apply elem_of_seq in Hi. cbn [in_engine in_spill]. rewrite Hlen. split; [apply Hp; lia|lia]. }
  cbn [in_engine] in *. destruct ok; [|by apply K2]. destruct (K3 eq_refl) as [L1 _ L3 _ L5 _].
  cbn [in_engine in_total] in *. apply conclude_spec; [done| |done|done].
  right. exists raws. split; [done|]. split; [done|]. cbn [oc_engine oc_installed oc_total]. split.
  - split; [cbn; lia|]. intros i Hi. cbn [oc_engine oc_installed]. destruct (L3 i) as (sh & Hsh & Hor).
    { apply elem_of_seq. lia. }
    exists sh. split; [done|]. destruct Hor as [?|[? ->]]; [by left|by right].
  - intros Hi. apply negb_true_iff in Hi. rewrite Hi. by rewrite (L5 Hi).
Qed.

Lemma commit_spec hashers reopen gen w m cy known :
  length (shards (mg_engine m)) = DOMAIN_SHARDS → (0 ≤ cy_spilled cy)%Z →
  (∀ c, mg_max_total_domains m = Some c → (0 ≤ c)%Z) →
  (cy_spilled cy ≠ 0%Z → ∀ sp sp', sp_store sp = sp_store (cy_spill cy) → prepare_validate reopen sp = (sp', Ok ()) →
     ∃ raws, known raws ∧ ∀ i, i < DOMAIN_SHARDS → pinned sp' i (raws i) true) →
  (cy_spilled cy = 0%Z → known (fun _ => [])) →
  match commit_refresh faults cancels hashers reopen gen w m cy with
  | Returned e => e = mg_engine m
  | Completed o => outcome_ok m cy hashers (publish (mg_policy_masks m) gen).1 known o
  end.
Proof.
  intros Hlen Hsp Hcl Hseal Hempty. unfold commit_refresh. set (p := (publish _ gen).1).
  destruct (checkpoint cancels w) as [w0 [|]]; [|done].
  set (keep_live := negb _ && (_ || _)). set (digest := if cy_coverage_complete cy then _ else _).
  assert (cy_coverage_complete cy = true → digest = cy_digest cy) as Hd by (unfold digest; by intros ->).
  set (unchanged := negb _ && bool_decide _ && bool_decide _).
  set (preparing := negb _ && negb _ && negb keep_live && _).
  destruct (if preparing then flush faults _ else _) as [sp1 flushed] eqn:Ef.
  destruct (if preparing && is_ok flushed then prepare_validate reopen sp1 else _) as [sp2 sealed] eqn:Es.
  set (guarding := _ && is_ok flushed && is_ok sealed).
  destruct (if guarding then corpus_guard _ _ _ _ _ _ else _) as [sp3 guard] eqn:Eg.
  destruct (if guarding then checkpoint cancels w0 else _) as [w1 [|]]; [|done].
  destruct (checkpoint cancels w1) as [w2 [|]]; [|done].
  destruct (_ || keep_live) eqn:Ebad; [by apply kept_ok|].
  rewrite !orb_false_iff, !negb_false_iff in Ebad.
  destruct Ebad as ((((((Hrf & Hfl) & Hse) & Hgu) & Hpo) & Hun) & Hkl). rewrite Hun.
  destruct (Z.eqb_spec (cy_spilled cy) 0) as [Hz|Hnz].
  - destruct (_ && negb (sp_poisoned _)); [|by apply kept_ok]. apply empty_ok; auto.
  - assert (preparing = true) as Hpr.
    { apply not_false_iff_true. intros Hf. unfold guarding in Eg. rewrite Hf in Ef, Es, Eg. cbn [andb] in Ef, Es, Eg.
      assert (sp3 = cy_spill cy) as -> by congruence. unfold preparing in Hf.
      rewrite Hpo, Hrf, Hkl, (proj2 (Z.ltb_lt 0 _)) in Hf by lia. done. }
    assert (guarding = true) as Hgt by (unfold guarding; rewrite Hpr, Hun, Hfl, Hse; done).
    rewrite Hpr in Ef, Es. rewrite Hfl in Es. rewrite Hgt in Eg. cbn [andb] in Es.
    destruct sealed as [[]|]; [|done]. destruct guard as [v|]; [|done].
    assert (sp_store sp1 = sp_store (cy_spill cy)) as Hst by (by rewrite <-(flush_store (cy_spill cy)), Ef).
    destruct (Hseal Hnz _ _ Hst Es) as (raws & Hk & Hpin).
    destruct (corpus_guard_pinned _ _ _ _ _ _ _ _ Hpin Eg) as [Hpin3 Hv].
    assert ((∀ a b c, v ≠ Refuse a b c) → within_ceiling m hashers raws) as Hin.
    { intros Hr ceiling E. destruct (Hv ceiling E) as [novel ->]. by apply (corpus_decision_admits _ _ _ _ novel). }
    destruct v; try (by apply kept_ok); by eapply install_ok; [| |apply Hin| |].
Qed.

End Commit.

(** The corpus a commit has to install: nothing, or what the spill held when it
    was sealed, which are valid domains that belong to their shards. *)
Definition corpus_of {H : ShardHasher} (reopen : nat → str → option str) (cy : Cycle) (raws : nat → list (str * Z)) : Prop :=
  ∀ i, i < DOMAIN_SHARDS → if (cy_spilled cy =? 0)%Z then raws i = [] else sealed_as reopen (cy_spill cy) i (raws i) ∧ Forall (placed i) (raws i).

(** C19: committing a refresh is safe whatever the storage does, whatever the
    files hold when they are opened again and whenever a cancellation arrives.  A
    commit that returns early has left every shard as it was.  One that
    completes has either left the engine as it was and says so, or has put in
    the place of each shard exactly the sealed records of that shard, which are
    valid domains that belong there, under the published policy (or nothing, when
    the cycle spilled nothing); a shard that could not be built keeps its old
    contents, and then the outcome does not count as installed.  What goes in has
    passed the ceiling, or the cold-start exception of a primary node that serves
    nothing.  A digest is kept for the next cycle only when it describes what is
    live. *)
Theorem refresh_commit_sound {H : ShardHasher} faults cancels hashers reopen gen w m cy :
  length (shards (mg_engine m)) = DOMAIN_SHARDS → (0 ≤ cy_spilled cy)%Z → spill_shape (cy_spill cy) →
  (∀ ceiling, mg_max_total_domains m = Some ceiling → (0 ≤ ceiling)%Z) →
  match commit_refresh faults cancels hashers reopen gen w m cy with
  | Returned e => e = mg_engine m
  | Completed o => outcome_ok m cy hashers (publish (mg_policy_masks m) gen).1 (corpus_of reopen cy) o
  end.
Proof.
  intros Hlen Hsp Hsh Hcl. apply commit_spec; [done..| |].
  - intros Hnz sp sp' Hst Hv. assert (spill_shape sp) as Hsh' by (unfold spill_shape in *; by rewrite Hst).
    destruct (sealed_records faults reopen sp sp' Hsh' Hv) as (raws & Hr). exists raws.
    split; intros i Hi; [|by apply Hr]. rewrite (proj2 (Z.eqb_neq _ _) Hnz). destruct (Hr i Hi) as (Hs & _ & Hp). split; [|done]. unfold sealed_as in *. by rewrite <- Hst.
  - intros Hz i _. by rewrite (proj2 (Z.eqb_eq _ _) Hz).
Qed.

(** *** Witness: a corpus of two records in memory that goes live *)

#[local] Existing Instance length_hasher.

Definition little_cycle : Cycle :=
  {| cy_spill := {| sp_store := Memory (<[8 := [(lit "ads.test", 1%Z); (lit "bad.test", 2%Z)]]> (replicate DOMAIN_SHARDS []));
                    sp_poisoned := false; sp_calls := 0 |};
     cy_rollback_failed := false; cy_coverage_complete := true; cy_spilled := 2; cy_digest := Some (lit "new") |}.

Definition little_manager : Manager :=
  {| mg_engine := new_engine; mg_secondary := false; mg_candidate := false; mg_max_total_domains := Some 1%Z;
     mg_policy_masks := {| policy_base := RESTRICTIVE; policy_per_profile := ∅ |};
     mg_installed_digest := Some (lit "old") |}.

Definition first_byte (s : str) : Z := byte (default zero (head s)).

Definition little_commit : CommitResult :=
  commit_refresh (fun _ => None) (fun _ => false) (fun _ => first_byte) (fun _ s => Some s) 1
    {| wk_phase := Running; wk_clock := 0 |} little_manager little_cycle.

Lemma refresh_commit_sound_witness :
  (match little_commit with Completed o => Some (oc_installed o, oc_total o) | Returned _ => None end) = Some (true, 2) ∧
  match little_commit with
  | Returned e => e = mg_engine little_manager
  | Completed o => outcome_ok little_manager little_cycle (fun _ => first_byte)
      (publish (mg_policy_masks little_manager) 1).1 (corpus_of (fun _ s => Some s) little_cycle) o
  end.
Proof.
  split; [vm_compute; reflexivity|].
  unfold little_commit.
  apply (refresh_commit_sound (fun _ => None) (fun _ => false) (fun _ => first_byte) (fun _ s => Some s) 1
    {| wk_phase := Running; wk_clock := 0 |} little_manager little_cycle).
  - vm_compute. reflexivity.
  - done.
  - split; [vm_compute; reflexivity|]. cbn [little_cycle cy_spill sp_store].
    apply Forall_insert; [by apply Forall_replicate|]. by repeat constructor.
  - intros c [= <-]. done.
Defined.
