(* ===== verification/CorpusLive.v ===== *)
(** * A healthy refresh goes through

    With storage that works and no cancellation, a complete corpus that fits
    the ceiling is installed: the refresh ends, and ends well. *)

From S2P Require Import Prelude RustStr SortedSlice DnsTypes Domain Shard Ast Engine EngineProofs ListParser Spill SpillProofs SpillBuild Corpus CorpusProofs.

Section Live.
Context {H : ShardHasher}.

(** Storage that works, and nobody who cancels. *)
Definition no_faults (_ : nat) : option nat := None.
Definition never (_ : nat) : bool := false.

Lemma never_checkpoint w : wk_phase w ≠ Cancelled →
  ∃ w', checkpoint never w = (w', true) ∧ wk_phase w' = wk_phase w.
Proof. intros Hw. unfold checkpoint, look. cbn. rewrite bool_decide_eq_true_2 by done. eauto. Qed.

Lemma never_begin w : wk_phase w ≠ Cancelled → ∃ w', begin_commit never w = (w', true) ∧ wk_phase w' = Committing.
Proof.
  intros Hw. unfold begin_commit. destruct (never_checkpoint w Hw) as (w1 & -> & Hw1).
  unfold look, never. cbn. rewrite Hw1. destruct (wk_phase w); [by eexists|done|by eexists].
Qed.

Lemma read_shard_live sp idx b : pinned sp idx b true → (read_shard no_faults sp idx).2 = Ok b.
Proof.
  unfold pinned, read_shard. destruct (sp_store sp) as [ws [rs|]|bs]; [|done|by intros ->].
  intros (r & c & Hr & Hreads & Hrest). rewrite Hr. cbn [mbind option_bind id no_faults]. rewrite Hrest by done.
  pose proof (proj1 (read_spill_reads (fun acc d n => Ok (acc ++ [(d, n)])) _ _ _ [] Hreads)) as Hraw.
  destruct (read_spill_records _ _ _) as [rest raw]. cbn [snd] in *. by rewrite Hraw, try_fold_collect.
Qed.

Lemma rewind_shard_live sp idx b :
  sp_poisoned sp = false → pinned sp idx b false → (rewind_shard no_faults sp idx).2 = Ok ().
Proof.
  intros Hpo. unfold pinned, rewind_shard. rewrite Hpo. destruct (sp_store sp) as [ws [rs|]|bs]; [|done|by intros ->].
  intros (r & c & Hr & _). rewrite Hr. done.
Qed.

Lemma build_shard_live sp idx raw p :
  sp_poisoned sp = false → pinned sp idx raw true →
  ∃ sp' b, build_shard no_faults sp idx p = (sp', Ok b) ∧ elsewhere sp sp' idx.
Proof.
  intros Hpo Hp. pose proof (read_shard_live _ _ _ Hp) as Hr.
  destruct (build_shard no_faults sp idx p) as [sp' res] eqn:E.
  destruct (build_shard_pinned _ _ _ _ _ _ _ Hp E) as (He & _ & _). unfold build_shard in E. rewrite Hpo in E.
  destruct (read_shard no_faults sp idx) as [sp1 r]. cbn in Hr. subst r. cbn [rbind] in E.
  apply (inj2 pair) in E as [-> <-]. destruct (shard_of_records_spec raw p) as (b & -> & _). by eexists _, _.
Qed.

Lemma count_unique_live hasher sp idx raw novel :
  sp_poisoned sp = false → pinned sp idx raw true →
  ∃ sp' n novel', count_unique no_faults hasher sp idx novel = (sp', Ok (n, novel')).
Proof.
  intros Hpo Hp. pose proof (read_shard_live _ _ _ Hp) as Hr. unfold count_unique. rewrite Hpo.
  destruct (read_shard no_faults sp idx) as [sp1 r] eqn:E.
  destruct (read_shard_pinned _ _ _ _ _ _ Hp E) as ([Hpo1 _] & Hp1 & _). cbn in Hr. subst r.
  destruct (observe_all hasher raw ∅ novel) as [seen nov]. destruct (sp_store sp1) as [ws [rs|]|bs]; [|eexists _, _, _; reflexivity..].
  pose proof (rewind_shard_live sp1 idx raw ltac:(congruence) Hp1) as Hw.
  destruct (rewind_shard no_faults sp1 idx) as [sp2 r]. cbn in Hw. subst r. eexists _, _, _; reflexivity.
Qed.

Lemma count_shards_live hashers raws idxs sp novel :
  sp_poisoned sp = false → (∀ i, i ∈ idxs → pinned sp i (raws i) true) →
  ∃ sp' ns novel', count_shards no_faults hashers idxs sp novel = (sp', Ok (ns, novel')).
Proof.
  revert sp novel. induction idxs as [|idx idxs IH]; intros sp novel Hpo Hpin; cbn [count_shards]; [by eexists _, _, _|].
  destruct (count_unique_live (hashers idx) sp idx (raws idx) novel Hpo) as (sp1 & n & nov & Ec); [apply Hpin; by left|].
  rewrite Ec. destruct (count_unique_pinned _ _ _ _ _ _ _ _ _ (Hpin idx ltac:(by left)) Ec) as ([Hpo1 He] & Hp1 & _).
  destruct (IH sp1 nov) as (sp2 & ns & nov2 & ->); [congruence| |by eexists _, _, _].
  intros i Hi. destruct (decide (i = idx)) as [->|Hne]; [done|]. apply He; [done|]. apply Hpin. by right.
Qed.

Lemma install_shards_live p raws idxs w s :
  NoDup idxs → wk_phase w ≠ Cancelled → sp_poisoned (in_spill s) = false → in_degraded s = false →
  (∀ i, i ∈ idxs → pinned (in_spill s) i (raws i) true) →
  ∃ w' s', install_shards no_faults never p idxs w s = (w', s', true) ∧ wk_phase w' ≠ Cancelled ∧ in_degraded s' = false.
Proof.
  intros Hnd. revert w s. induction Hnd as [|idx idxs Hnot Hnd IH]; intros w s Hw Hpo Hdeg Hpin; cbn [install_shards].
  { by eexists _, _. }
  destruct (build_shard_live (in_spill s) idx (raws idx) p Hpo) as (sp1 & b & Eb & Hpo1 & He); [apply Hpin; by left|].
  unfold build_or_retry. rewrite Eb. destruct (never_checkpoint w Hw) as (w1 & -> & Hw1).
  unfold install_shard. destruct (never_begin w1) as (w2 & -> & Hw2); [congruence|].
  destruct (never_checkpoint w2) as (w3 & -> & Hw3); [congruence|]. apply IH; cbn.
  - congruence.
  - destruct (release_elsewhere sp1 idx) as [-> _]. congruence.
  - done.
  - intros i Hi. assert (i ≠ idx) by (by intros ->). apply (release_elsewhere sp1 idx); [done|].
    apply He; [done|]. apply Hpin. by right.
Qed.

Lemma install_empty_live p idxs w e :
  wk_phase w ≠ Cancelled → ∃ w' e', install_empty never p idxs w e = (w', e', true) ∧ wk_phase w' ≠ Cancelled.
Proof.
  revert w e. induction idxs as [|idx idxs IH]; intros w e Hw; cbn [install_empty]; [by eexists _, _|].
  destruct (never_begin w Hw) as (w1 & -> & Hw1). destruct (never_checkpoint w1) as (w2 & -> & Hw2); [congruence|].
  apply IH. congruence.
Qed.

Lemma flush_live sp : sp_poisoned sp = false →
  ∃ sp', flush no_faults sp = (sp', Ok ()) ∧ sp_store sp' = sp_store sp ∧ sp_poisoned sp' = false.
Proof.
  intros Hpo. pose proof (flush_store no_faults sp) as Hst. unfold flush in *. rewrite Hpo in *.
  destruct (sp_store sp) as [ws rs|bs] eqn:E; [|by exists sp].
  assert (∀ n call, ∃ call', flush_writers no_faults n call = (call', true)) as Hf.
  { induction n as [|n IH]; intros call; cbn; [by eexists|apply IH]. }
  destruct (Hf (length ws) (sp_calls sp)) as [call Ec]. rewrite Ec in *. eexists. split; [done|]. by split.
Qed.

Lemma conclude_live m cy digest unchanged poisoned w o :
  wk_phase w ≠ Cancelled → oc_installed o = true → cy_coverage_complete cy = true →
  ∃ o', conclude never m cy digest unchanged poisoned w o = Completed o' ∧ oc_installed o' = true ∧ oc_digest o' = digest.
Proof.
  intros Hw Hi Hc. unfold conclude. destruct (never_begin w Hw) as (w' & -> & _).
  eexists. split; [done|]. cbn. by rewrite Hi, Hc.
Qed.

Lemma guard_live hashers m sp raws :
  sp_poisoned sp = false → (∀ i, i < DOMAIN_SHARDS → pinned sp i (raws i) true) →
  (∀ ceiling, mg_max_total_domains m = Some ceiling → (measured hashers raws ≤ ceiling)%Z) →
  ∃ sp' v, corpus_guard no_faults hashers (mg_max_total_domains m) (negb (mg_secondary m) && negb (mg_candidate m))
      sp (domain_count (mg_engine m)) = (sp', Ok v) ∧ sp_poisoned sp' = false ∧
    (∀ i, i < DOMAIN_SHARDS → pinned sp' i (raws i) true) ∧ ∀ a b c, v ≠ Refuse a b c.
Proof.
  intros Hpo Hpin Hcl. unfold corpus_guard. destruct (mg_max_total_domains m) as [ceiling|]; [|by eexists _, _].
  assert (∀ i, i ∈ seq 0 DOMAIN_SHARDS → pinned sp i (raws i) true) as Hp.
  { intros i Hi. apply elem_of_seq in Hi. apply Hpin. lia. }
  destruct (count_shards_live hashers raws _ sp (replicate 64 0%Z) Hpo Hp) as (sp' & ns & novel & E). rewrite E.
  destruct (count_shards_spec _ _ _ _ _ _ _ _ _ Hp E) as (K1 & K2 & ->).
  eexists _, _. split; [done|]. split; [congruence|]. split; [auto|]. intros a b c. unfold corpus_decision.
  fold (measured hashers raws). rewrite (proj2 (Z.ltb_ge _ _)) by (by apply Hcl). done.
Qed.

(** Nothing stands in the way: the commit completes, installs and keeps the
    digest of the cycle. *)
Lemma commit_live hashers gen w m cy bs :
  wk_phase w ≠ Cancelled → spill_abs (cy_spill cy) bs → sp_poisoned (cy_spill cy) = false →
  (∀ i b, bs !! i = Some b → Forall (placed i) b) →
  cy_rollback_failed cy = false → cy_coverage_complete cy = true → (0 ≤ cy_spilled cy)%Z →
  (cy_digest cy = None ∨ cy_digest cy ≠ mg_installed_digest m) →
  (∀ ceiling, mg_max_total_domains m = Some ceiling → (measured hashers (fun i => bs !!! i) ≤ ceiling)%Z) →
  ∃ o, commit_refresh no_faults never hashers (fun _ s => Some s) gen w m cy = Completed o ∧
    oc_installed o = true ∧ oc_digest o = cy_digest cy.
Proof.
  intros Hw Ha Hpo Hpl Hrf Hcov Hsp Hdig Hcl. unfold commit_refresh.
  destruct (never_checkpoint w Hw) as (w1 & -> & Hw1). rewrite Hpo, Hrf, Hcov. cbn [negb andb orb].
  assert (bool_decide (is_Some (cy_digest cy)) && bool_decide (cy_digest cy = mg_installed_digest m) = false) as ->.
  { destruct Hdig as [->|Hne]; [done|]. by rewrite (bool_decide_eq_false_2 _ Hne), andb_false_r. }
  cbn [negb andb orb]. rewrite !andb_true_r.
  destruct (Z.eqb_spec (cy_spilled cy) 0) as [Hz|Hnz].
  - rewrite Hz. cbn [Z.ltb Z.compare andb]. destruct (never_checkpoint w1) as (w2 & -> & Hw2); [congruence|].
    rewrite Hpo. cbn [is_ok negb orb].
    destruct (install_empty_live (publish (mg_policy_masks m) gen).1 (seq 0 DOMAIN_SHARDS) w2 (mg_engine m))
      as (w3 & e & -> & Hw3); [congruence|]. by apply conclude_live.
  - rewrite (proj2 (Z.ltb_lt 0 _)) by lia. destruct (flush_live _ Hpo) as (sp1 & -> & Hst & Hpo1). cbn [is_ok andb].
    assert (spill_abs sp1 bs) as Ha1 by (unfold spill_abs in *; by rewrite Hst).
    destruct (prepare_validate_honest no_faults sp1 bs Ha1 Hpo1 Hpl) as (sp2 & -> & Hpo2 & Hpin). cbn [is_ok andb].
    destruct (guard_live hashers m sp2 (fun i => bs !!! i) Hpo2) as (sp3 & v & -> & Hpo3 & Hpin3 & Hv).
    { intros i Hi. apply Hpin, list_lookup_lookup_total_lt. by rewrite (proj1 Ha). } { done. }
    destruct (never_checkpoint w1) as (w2 & -> & Hw2); [congruence|].
    destruct (never_checkpoint w2) as (w3 & -> & Hw3); [congruence|]. rewrite Hpo3. cbn [is_ok negb orb].
    destruct (install_shards_live (publish (mg_policy_masks m) gen).1 (fun i => bs !!! i) (seq 0 DOMAIN_SHARDS) w3
      {| in_engine := mg_engine m; in_spill := sp3; in_added := replicate 64 0%Z; in_total := 0;
         in_published := 0; in_degraded := false |}) as (w4 & s & Ei & Hw4 & Hdeg);
      [apply NoDup_seq|congruence|done|done|intros i Hi; apply elem_of_seq in Hi; apply Hpin3; lia|].
    destruct v; try (by destruct (Hv _ _ _ eq_refl)); rewrite Ei; apply conclude_live; cbn; by rewrite ?Hdeg.
Qed.

End Live.
