(* ===== verification/Pipeline.v ===== *)
(** * From list texts to verdict bits

    The composition of [SourceKey], [Spill], [Corpus] and [Engine]: the sources
    of one refresh are parsed into the spill, the spill is committed to the
    engine under the projected policy, and a name is looked up for a profile. *)

From S2P Require Import Prelude RustStr SortedSlice DnsTypes Domain Shard Ast Engine EngineProofs ListParser ListEffect Spill SpillProofs SpillBuild Corpus CorpusProofs CorpusLive.
From S2P Require Import Rules Evaluator EngineVerdict Compiler CompilerIndex SourceKey SourcePlan.

(** ** The walk over the sources *)

Section Walk.
Context {H : ShardHasher} {SHA : Sha2Crate}.
Context (faults : nat → option nat) (cancelled : nat → bool).

(** [walked sp acc n sp']: the sources parsed in turn take the spill from [sp]
    to [sp']; [acc] is the bit, the body and the format of those that were
    accepted, and [n] sums their [parsed_ok].  A source that fails and is undone is
    passed over, and so is one that is parsed and then taken back, as the
    retention guard does, after which the body kept from before may follow as
    another source.  Each parse has a hasher of its own. *)
Inductive walked : ShardSpill → list (nat * str * ListFormat) → Z → ShardSpill → Prop :=
| walked_nil sp : walked sp [] 0 sp
| walked_accepted sp hasher bit body f max_entries declared counting accepts sp1 c digest acc n sp2 :
    bit < 64 → (0 ≤ max_entries)%Z → settled_format cancelled body declared f →
    parse_verified faults hasher cancelled body (2 ^ Z.of_nat bit) sp max_entries declared counting accepts
      = Some (sp1, Ok (c, digest)) →
    walked sp1 acc n sp2 → walked sp ((bit, body, f) :: acc) (parsed_ok c + n) sp2
| walked_withdrawn sp hasher bit body max_entries declared counting accepts sp1 c digest sp2 acc n sp3 :
    bit < 64 → (0 ≤ max_entries)%Z →
    parse_verified faults hasher cancelled body (2 ^ Z.of_nat bit) sp max_entries declared counting accepts
      = Some (sp1, Ok (c, digest)) →
    rollback faults sp1 (mark sp) = (sp2, Ok ()) → walked sp2 acc n sp3 → walked sp acc n sp3
| walked_failed sp hasher bit body max_entries declared counting accepts sp1 e acc n sp2 :
    bit < 64 → (0 ≤ max_entries)%Z →
    parse_verified faults hasher cancelled body (2 ^ Z.of_nat bit) sp max_entries declared counting accepts
      = Some (sp1, Err e) →
    pe_rollback e = None → walked sp1 acc n sp2 → walked sp acc n sp2.

Lemma one_hot_bit bit : bit < 64 → one_hot (2 ^ Z.of_nat bit).
Proof.
  intros Hb. assert (0 < 2 ^ Z.of_nat bit < 2 ^ 64)%Z as Hr by (split; [|apply Z.pow_lt_mono_r]; lia).
  split; [unfold in_u64, U64_MAX; lia|]. unfold is_power_of_two.
  rewrite (proj2 (Z.eqb_neq _ 0)) by lia. cbn [negb andb]. apply Z.eqb_eq.
  rewrite Z.sub_1_r, <-Z.ones_equiv, Z.land_ones by lia. apply Z.mod_same. lia.
Qed.

Lemma settled_unique body declared f g :
  settled_format cancelled body declared f → settled_format cancelled body declared g → f = g.
Proof.
  unfold settled_format. destruct declared; [congruence|]. intros (p & r & n & E) (p' & r' & n' & E'). congruence.
Qed.

Lemma route_all_elem bit ds bs i e :
  length bs = DOMAIN_SHARDS →
  length (route_all bit ds bs) = DOMAIN_SHARDS ∧
  (e ∈ route_all bit ds bs !!! i ↔ e ∈ bs !!! i ∨ (e.2 = bit ∧ e.1 ∈ ds ∧ shard_index e.1 = i)).
Proof.
  revert bs. induction ds as [|d ds IH]; intros bs Hlen; cbn [route_all foldl]; [set_solver|].
  destruct (IH (route_to bs d bit)) as [H1 H2]; [unfold route_to; by rewrite length_alter|].
  split; [done|]. unfold route_all in H2. rewrite H2, elem_of_cons. unfold route_to.
  destruct (decide (shard_index d = i)) as [<-|Hne].
  - rewrite list_lookup_total_alter_eq by (rewrite Hlen; apply shard_index_range).
    cbv beta. rewrite elem_of_app, list_elem_of_singleton. destruct e as [k n]. cbn [fst snd]. split.
    + intros [[?|[= -> ->]]|(? & ? & ?)]; auto.
    + intros [?|(-> & [->|?] & ?)]; auto.
  - rewrite list_lookup_total_alter_ne by done. split.
    + intros [?|(? & ? & ?)]; auto.
    + intros [?|(? & [Hd|?] & Hi)]; auto. rewrite Hd in Hi. contradiction.
Qed.

(** What the walk adds: the domains of the accepted bodies, with their bits. *)
Definition brought (acc : list (nat * str * ListFormat)) (e : str * Z) : Prop :=
  ∃ bit body f, (bit, body, f) ∈ acc ∧ e.2 = (2 ^ Z.of_nat bit)%Z ∧ e.1 ∈ list_domains f body.

(** The domains of the accepted bodies, counted with repetitions. *)
Definition bulk (acc : list (nat * str * ListFormat)) : Z :=
  foldr Z.add 0%Z (map (fun s => Z.of_nat (length (list_domains s.2 s.1.2))) acc).

Lemma bulk_nonneg acc : (0 ≤ bulk acc)%Z.
Proof. induction acc; unfold bulk in *; cbn; lia. Qed.

Lemma bulk_zero acc e : bulk acc = 0%Z → ¬ brought acc e.
Proof.
  intros Hz (bit & body & f & Hin & _ & Hd). revert Hz.
  apply list_elem_of_split in Hin as (l1 & l2 & ->). destruct (list_domains f body) as [|d ds] eqn:E.
  { by apply not_elem_of_nil in Hd. }
  induction l1 as [|x l1 IH]; unfold bulk in *; cbn [app map foldr fst snd].
  - rewrite E. pose proof (bulk_nonneg l2). unfold bulk in *. cbn [length]. lia.
  - pose proof (bulk_nonneg (l1 ++ (bit, body, f) :: l2)). unfold bulk in *. lia.
Qed.

(** The records of all buckets. *)
Definition stock (bs : list (list (str * Z))) : Z := foldr Z.add 0%Z (map (fun b => Z.of_nat (length b)) bs).

Lemma stock_alter bs i x : i < length bs → stock (alter (fun b => b ++ [x]) i bs) = (stock bs + 1)%Z.
Proof.
  revert i. induction bs as [|b bs IH]; intros [|i] Hi; cbn [length] in *; [lia..| |].
  - cbn. rewrite length_app. cbn. lia.
  - specialize (IH i ltac:(lia)). unfold stock in *. cbn in *. lia.
Qed.

Lemma stock_route_all bit ds bs :
  length bs = DOMAIN_SHARDS → stock (route_all bit ds bs) = (stock bs + Z.of_nat (length ds))%Z.
Proof.
  revert bs. induction ds as [|d ds IH]; intros bs Hlen; cbn [route_all foldl length]; [lia|].
  unfold route_all in IH. rewrite IH by (unfold route_to; by rewrite length_alter).
  unfold route_to. rewrite stock_alter by (rewrite Hlen; apply shard_index_range). lia.
Qed.

Lemma walked_bits sp acc n sp' : walked sp acc n sp' → Forall (fun s => s.1.1 < 64) acc.
Proof. induction 1; [constructor|by constructor|done|done]. Qed.

Lemma walked_abs sp acc n sp' bs :
  walked sp acc n sp' → spill_abs sp bs →
  n = bulk acc ∧
  ∃ bs', spill_abs sp' bs' ∧ stock bs' = (stock bs + n)%Z ∧ ∀ i e, e ∈ bs' !!! i ↔ e ∈ bs !!! i ∨ (brought acc e ∧ shard_index e.1 = i).
Proof.
  intros Hw. revert bs. induction Hw as [sp|sp hasher bit body f mx dec cnt accs sp1 c dig acc n sp2 Hb Hm Hf Hp _ IH
    |sp hasher bit body mx dec cnt accs sp1 c dig sp2 acc n sp3 Hb Hm Hp Hback _ IH|sp hasher bit body mx dec cnt accs sp1 e acc n sp2 Hb Hm Hp Hr _ IH]; intros bs Ha.
  - split; [done|]. exists bs. split; [done|]. split; [lia|]. intros i e. split; [by left|]. intros [?|[(? & ? & ? & Hin & _) _]]; [done|].
    by apply not_elem_of_nil in Hin.
  - destruct (parse_verified_spec faults hasher cancelled body (2 ^ Z.of_nat bit) sp bs mx dec cnt accs Hm (one_hot_bit _ Hb) Ha)
      as (sp' & r & E & Hr). rewrite Hp in E. injection E as <- <-.
    destruct Hr as [(_ & g & Hg & _ & Habs & Hok & _) _]. pose proof (settled_unique _ _ _ _ Hf Hg) as <-.
    destruct (IH _ Habs) as (-> & bs' & Ha' & Hst & Hel). split; [rewrite Hok; done|].
    exists bs'. split; [done|]. split; [rewrite Hst, stock_route_all by apply Ha; lia|]. intros i e. rewrite Hel.
    rewrite (proj2 (route_all_elem _ _ bs i e (proj1 Ha))). unfold brought. setoid_rewrite elem_of_cons.
    split.
    { intros [[?|(? & ? & ?)]|[(b0 & body0 & f0 & Hin & He & Hd) Hi]]; [by left|right; split; [|done]..].
      - exists bit, body, f. auto.
      - exists b0, body0, f0. auto. }
    intros [?|[(b0 & body0 & f0 & [[= -> -> ->]|Hin] & He & Hd) Hi]]; [by auto..|].
    right. split; [|done]. by exists b0, body0, f0.
  - destruct (parse_verified_spec faults hasher cancelled body (2 ^ Z.of_nat bit) sp bs mx dec cnt accs Hm (one_hot_bit _ Hb) Ha)
      as (sp' & r & E & Hr). rewrite Hp in E. injection E as <- <-. destruct Hr as (_ & _ & Hg). apply IH. by eapply (rollback_abs faults sp sp1).
  - destruct (parse_verified_spec faults hasher cancelled body (2 ^ Z.of_nat bit) sp bs mx dec cnt accs Hm (one_hot_bit _ Hb) Ha)
      as (sp' & r & E & Hu). rewrite Hp in E. injection E as <- <-. unfold undone in Hu. rewrite Hr in Hu. by apply IH.
Qed.

Lemma open_abs cache_dir : spill_abs (open cache_dir) (replicate DOMAIN_SHARDS []).
Proof.
  split; [by rewrite length_replicate|]. destruct cache_dir; [|done]. split; [done|].
  apply Forall2_replicate. exists None. split; [constructor|]. by split.
Qed.

(** What a refresh that starts from an empty spill has gathered. *)
Definition gathered (acc : list (nat * str * ListFormat)) (raws : nat → list (str * Z)) : Prop :=
  ∀ i e, i < DOMAIN_SHARDS → e ∈ raws i ↔ brought acc e ∧ shard_index e.1 = i.

Lemma walked_gathered cache_dir acc n sp :
  walked (open cache_dir) acc n sp →
  n = bulk acc ∧ ∃ bs, spill_abs sp bs ∧ stock bs = bulk acc ∧ gathered acc (fun i => bs !!! i).
Proof.
  intros Hw. destruct (walked_abs _ _ _ _ _ Hw (open_abs cache_dir)) as (-> & bs & Ha & Hst & Hel).
  split; [done|]. exists bs. split; [done|]. split; [done|]. intros i e Hi. rewrite Hel, lookup_total_replicate_2 by done.
  split; [|by right]. intros [Hn|?]; [by apply not_elem_of_nil in Hn|done].
Qed.

End Walk.

(** ** Sealing on an honest disk *)

Section Refresh.
Context {H : ShardHasher} {SHA : Sha2Crate}.
Context (faults : nat → option nat) (cancels : nat → bool).

(** Files that read back as they were written. *)
Definition honest (_ : nat) (file : str) : option str := Some file.

Lemma honest_pins sp bs sp' i b :
  spill_abs sp bs → prepare_validate honest sp = (sp', Ok ()) → bs !! i = Some b → pinned sp' i b true.
Proof.
  intros [_ Ha]. unfold prepare_validate. destruct (sp_poisoned sp); [done|].
  destruct (sp_store sp) as [ws rs|bs'] eqn:Hst.
  - destruct Ha as [_ Hs]. destruct (seal honest 0 ws) as [sealed|e] eqn:Es; [|done].
    intros E Hb. apply (inj2 pair) in E as [<- _]. apply (seal_spec faults) in Es as [_ Hi].
    destruct (Forall2_lookup_r _ _ _ _ _ Hs Hb) as (w & Hw & c & Hr & _).
    destruct (Hi i w Hw) as (r & _ & _ & Hri & Hre & Hrest & _). injection Hre as Hre.
    exists r, c. split; [done|]. split; [by rewrite <-Hre|done].
  - subst bs'. destruct (validate_buckets 0 bs) as [[]|e]; [|done].
    intros E Hb. apply (inj2 pair) in E as [<- _]. unfold pinned. by rewrite Hst.
Qed.

(** ** Looking a name up in the shards of a refresh *)

(** A key is found with the bits of its records that the profile's masks keep. *)
Lemma probe_served e raws p pid k (f : DomainMasks → Z) (g : ProfileMasks → Z) j :
  (∀ bits m, f (apply_masks bits m) = Z.land bits (g m)) → (∀ m, is_inert m = true → g m = 0%Z) →
  (∀ i, i < DOMAIN_SHARDS → ∃ sh, shards e !! i = Some sh ∧ serves (raws i) p sh) →
  (∃ m, probe_shard e k pid = Some m ∧ Z.testbit (f m) j = true) ↔
  Z.testbit (g (masks_for p pid)) j = true ∧ ∃ c, (k, c) ∈ raws (shard_index k) ∧ Z.testbit c j = true.
Proof.
  intros Hf Hg Hs. destruct (Hs _ (shard_index_range k)) as (sh & Hsh & added & Hbf).
  pose proof (bf_policy _ _ _ Hbf) as Hp. cbn [bs_shard] in Hp.
  unfold probe_shard. rewrite (list_lookup_total_correct _ _ _ Hsh), Hp.
  destruct (is_inert (masks_for p pid)) eqn:Hin.
  { rewrite (Hg _ Hin), Z.bits_0. split; [by intros (m & ? & _)|by intros [? _]]. }
  change (slice_get (entries sh) k) with (shard_bits sh k). split.
  - intros (m & Hm & Ht). apply fmap_Some in Hm as (bits & Hb & ->). rewrite Hf, Z.land_spec in Ht.
    apply andb_true_iff in Ht as [Ht1 Ht2]. split; [done|]. by apply (bf_bits _ _ _ Hbf k bits j Hb).
  - intros [Hm (c & Hc & Ht)]. destruct (shard_bits sh k) as [bits|] eqn:Hb.
    + eexists. split; [done|]. rewrite Hf, Z.land_spec, Hm, andb_true_r.
      apply (bf_bits _ _ _ Hbf k bits j Hb). by exists c.
    + apply (bf_absent _ _ _ Hbf) in Hb. destruct Hb. apply list_elem_of_fmap. by exists (k, c).
Qed.

(** The accepted body of [bit] lists the name or a parent of it. *)
Definition listed (acc : list (nat * str * ListFormat)) (bit : nat) (d : str) : Prop :=
  ∃ body f k, (bit, body, f) ∈ acc ∧ k ∈ list_domains f body ∧ k ∈ d :: dot_suffixes d.

Lemma membership_served e raws acc p pid d (f : DomainMasks → Z) (g : ProfileMasks → Z) j :
  (∀ a b, f (masks_or a b) = Z.lor (f a) (f b)) → f no_masks = 0%Z →
  (∀ bits m, f (apply_masks bits m) = Z.land bits (g m)) → (∀ m, is_inert m = true → g m = 0%Z) →
  (∀ i, i < DOMAIN_SHARDS → ∃ sh, shards e !! i = Some sh ∧ serves (raws i) p sh) → gathered acc raws →
  Z.testbit (f (list_membership_for e d pid)) (Z.of_nat j) = true ↔
  Z.testbit (g (masks_for p pid)) (Z.of_nat j) = true ∧ listed acc j d.
Proof.
  intros Hor H0 Hf Hg Hs Hga. unfold list_membership_for. rewrite walk_membership_testbit by done. split.
  - intros (k & m & Hk & Hm & Ht).
    destruct (proj1 (probe_served e raws p pid k f g (Z.of_nat j) Hf Hg Hs)) as [Hma (c & Hc & Hcj)]; [by exists m|].
    split; [done|]. apply Hga in Hc as [(bit & body & fmt & Hin & Hb & Hd) _]; [|apply shard_index_range].
    cbn [fst snd] in *. subst c. rewrite Z.pow2_bits_eqb in Hcj by lia. apply Z.eqb_eq, Nat2Z.inj in Hcj as ->.
    by exists body, fmt, k.
  - intros [Hma (body & fmt & k & Hin & Hd & Hk)].
    destruct (proj2 (probe_served e raws p pid k f g (Z.of_nat j) Hf Hg Hs)) as (m & Hm & Ht); [|by exists k, m].
    split; [done|]. exists (2 ^ Z.of_nat j)%Z. split; [|apply Z.pow2_bits_true; lia].
    apply Hga; [apply shard_index_range|]. split; [|done]. by exists j, body, fmt.
Qed.

(** ** A refresh that installed *)

Lemma installed_serves hashers cancelled cache_dir gen w m cy acc o :
  length (shards (mg_engine m)) = DOMAIN_SHARDS →
  (∀ ceiling, mg_max_total_domains m = Some ceiling → (0 ≤ ceiling)%Z) →
  walked faults cancelled (open cache_dir) acc (cy_spilled cy) (cy_spill cy) →
  commit_refresh faults cancels hashers honest gen w m cy = Completed o → oc_installed o = true →
  ∃ raws, gathered acc raws ∧ ∀ i, i < DOMAIN_SHARDS →
    ∃ sh, shards (oc_engine o) !! i = Some sh ∧ serves (raws i) (publish (mg_policy_masks m) gen).1 sh.
Proof.
  intros Hlen Hcl Hw Hc Hi. destruct (walked_gathered _ _ _ _ _ _ Hw) as (Hn & bs & Ha & _ & Hga).
  pose proof (commit_spec faults cancels hashers honest gen w m cy (gathered acc) Hlen) as Hspec.
  rewrite Hc in Hspec. destruct Hspec as [[[_ Hno]|(raws & Hk & _ & [_ Hr] & _)] _].
  - rewrite Hn. apply bulk_nonneg.
  - done.
  - intros _ sp sp' Hst Hv. exists (fun i => bs !!! i). split; [done|]. intros i Hlt.
    assert (spill_abs sp bs) as Ha' by (unfold spill_abs in *; by rewrite Hst).
    apply (honest_pins sp bs sp' i _ Ha' Hv). apply list_lookup_lookup_total_lt. by rewrite (proj1 Ha).
  - intros Hz i e _. rewrite Hn in Hz. split; [by intros ?%not_elem_of_nil|]. intros [Hb _].
    by apply (bulk_zero _ e) in Hz.
  - congruence.
  - exists raws. split; [done|]. intros i Hlt. destruct (Hr i Hlt) as (sh & Hsh & [?|[_ ?]]); [|congruence]. eauto.
Qed.

(** ** A refresh that nothing stands in the way of *)

Lemma gathered_placed acc bs i b :
  length bs = DOMAIN_SHARDS → Forall (fun s => s.1.1 < 64) acc → gathered acc (fun i => bs !!! i) →
  bs !! i = Some b → Forall (placed i) b.
Proof.
  intros Hlen Hbits Hga Hb. apply Forall_forall. intros e He.
  assert (i < DOMAIN_SHARDS) as Hi by (rewrite <-Hlen; by eapply lookup_lt_Some).
  rewrite <-(list_lookup_total_correct _ _ _ Hb) in He.
  apply Hga in He as [(bit & body & f & Hin & Hc & Hd) Hs]; [|done].
  rewrite Forall_forall in Hbits. apply Hbits in Hin. split; [rewrite Hc; by apply one_hot_bit|].
  split; [|done]. pose proof (list_domains_stored f body) as Hst. rewrite Forall_forall in Hst. by apply Hst in Hd as [? _].
Qed.

(** The names of the accepted bodies, each once. *)
Definition corpus_names (acc : list (nat * str * ListFormat)) : gset str := ⋃ (map (fun s => list_to_set (list_domains s.2 s.1.2)) acc).

Lemma corpus_names_spec acc d : d ∈ corpus_names acc ↔ ∃ bit body f, (bit, body, f) ∈ acc ∧ d ∈ list_domains f body.
Proof.
  unfold corpus_names. rewrite elem_of_union_list. split.
  - intros (X & HX & Hd). apply list_elem_of_fmap in HX as ([[bit body] f] & -> & Hin). cbn in Hd. rewrite elem_of_list_to_set in Hd. by exists bit, body, f.
  - intros (bit & body & f & Hin & Hd). exists (list_to_set (list_domains f body)). rewrite elem_of_list_to_set. split; [|done]. apply list_elem_of_fmap. by exists (bit, body, f).
Qed.

Lemma foldr_add_acc (l : list Z) a : foldr Z.add a l = (foldr Z.add 0 l + a)%Z.
Proof. induction l as [|x l IH]; cbn; [|rewrite IH]; lia. Qed.

(** The shards share the names out. *)
Lemma sharded_size (X : gset str) (n : nat) :
  foldr Z.add 0%Z (map (fun i => Z.of_nat (size (filter (fun d => shard_index d = i) X))) (seq 0 n)) =
  Z.of_nat (size (filter (fun d => shard_index d < n) X)).
Proof.
  induction n as [|n IH].
  - assert (filter (fun d => shard_index d < 0) X = ∅) as -> by (apply set_eq; intros d; rewrite elem_of_filter; set_solver by lia). done.
  - rewrite seq_S, map_app, foldr_app. cbn [map foldr]. rewrite foldr_add_acc, IH, Z.add_0_r, <- Nat2Z.inj_add.
    rewrite <- size_union by (intros d; rewrite !elem_of_filter; lia). do 2 f_equal. apply set_eq. intros d.
    rewrite elem_of_union, !elem_of_filter. cbn. assert (shard_index d < S n ↔ shard_index d < n ∨ shard_index d = n) by lia. tauto.
Qed.

(** A shard counts no more hashes than it has names. *)
Lemma observed_names (hasher : str → Z) (raw : list (str * Z)) (X : gset str) :
  (∀ e, e ∈ raw → e.1 ∈ X) → size (observe_all hasher raw ∅ []).1 ≤ size X.
Proof.
  intros HX. rewrite observe_all_seen, union_empty_r_L.
  assert (size X = length (map hasher (elements X))) as -> by by rewrite length_map.
  etransitivity; [|apply size_list_to_set_le]. apply subseteq_size. intros x. rewrite !elem_of_list_to_set.
  intros (d & -> & (e & -> & He)%list_elem_of_fmap)%list_elem_of_fmap. apply list_elem_of_fmap. exists e.1. rewrite elem_of_elements. auto.
Qed.

(** What the guard measures is at most the number of different names. *)
Lemma measured_names hashers acc (bs : list (list (str * Z))) :
  gathered acc (fun i => bs !!! i) → (measured hashers (fun i => bs !!! i) ≤ Z.of_nat (size (corpus_names acc)))%Z.
Proof.
  intros Hga. etransitivity; [|apply inj_le, (subseteq_size (filter (fun d => shard_index d < DOMAIN_SHARDS) (corpus_names acc))); set_solver].
  rewrite <- sharded_size. unfold measured.
  assert (∀ i, i ∈ seq 0 DOMAIN_SHARDS → i < DOMAIN_SHARDS) as Hl by (intros i; rewrite elem_of_seq; lia).
  induction (seq 0 DOMAIN_SHARDS) as [|i l IH]; [done|]. cbn [map foldr].
  apply Z.add_le_mono; [|apply IH; intros j Hj; apply Hl; by right]. apply inj_le, observed_names. intros e He.
  apply Hga in He as [(bit & body & f & Hacc & _ & Hdom) Hi]; [|apply Hl; by left].
  apply elem_of_filter. split; [done|]. apply corpus_names_spec. by exists bit, body, f.
Qed.

End Refresh.

(** C21: a refresh that nothing stands in the way of goes through.  Whatever
    sources were accepted and whatever failures on the way were undone: when
    every source is covered, no undo has failed, the number of different names in
    the accepted sources is within the operator's ceiling, the corpus is not the
    one already live, storage works during the commit
    and nobody cancels it, the commit completes, reports that it installed, and
    keeps the digest of this cycle. *)
Theorem healthy_refresh_installs {H : ShardHasher} {SHA : Sha2Crate} faults hashers cancelled cache_dir gen w m cy acc :
  walked faults cancelled (open cache_dir) acc (cy_spilled cy) (cy_spill cy) →
  sp_poisoned (cy_spill cy) = false → cy_rollback_failed cy = false → cy_coverage_complete cy = true →
  (cy_digest cy = None ∨ cy_digest cy ≠ mg_installed_digest m) →
  (∀ ceiling, mg_max_total_domains m = Some ceiling → (Z.of_nat (size (corpus_names acc)) ≤ ceiling)%Z) →
  wk_phase w ≠ Cancelled →
  ∃ o, commit_refresh no_faults never hashers honest gen w m cy = Completed o ∧
    oc_installed o = true ∧ oc_digest o = cy_digest cy.
Proof.
  intros Hw Hpo Hrf Hcov Hdig Hcl Hph. destruct (walked_gathered _ _ _ _ _ _ Hw) as (Hn & bs & Ha & Hst & Hga).
  apply (commit_live hashers gen w m cy bs); try done.
  - intros i b. apply (gathered_placed acc); [by apply Ha|by eapply walked_bits|done].
  - rewrite Hn. apply bulk_nonneg.
  - intros ceiling E. etransitivity; [by eapply measured_names|]. by apply Hcl.
Qed.

(** ** The verdict *)

Lemma nonzero_testbit x : negb (x =? 0)%Z = true ↔ ∃ j : nat, Z.testbit x (Z.of_nat j) = true.
Proof.
  rewrite negb_true_iff, Z.eqb_neq. split.
  - intros Hx. destruct (Z.lt_total 0 x) as [Hp|[<-|Hn]]; [|done|].
    + exists (Z.to_nat (Z.log2 x)). rewrite Z2Nat.id by apply Z.log2_nonneg. by apply Z.bit_log2.
    + exists (Z.to_nat (Z.log2 (Z.pred (- x)) + 1)). pose proof (Z.log2_nonneg (Z.pred (- x))).
      rewrite Z2Nat.id by lia. apply Z.bits_above_log2_neg; lia.
  - intros [j Hj] ->. by rewrite Z.bits_0 in Hj.
Qed.

(** Some enabled row that the profile directs to [dir] lists the name. *)
Definition row_lists (bm : SourceBitMap) (bls : list Blocklist) (p : ProfileLists)
    (acc : list (nat * str * ListFormat)) (dir : ListDirection) (d : str) : Prop :=
  ∃ b bit, b ∈ bls ∧ bl_enabled b = true ∧ bit_for_url bm (bl_url b) = Some bit ∧
    effective_direction p b = dir ∧ listed acc bit d.

Lemma row_lists_testbit catalog bls ps defaults mode legacy plan bm p acc dir d :
  (∀ b, b ∈ bls → bl_enabled b = true → is_url_source (bl_url b) = true) →
  build_with_control_mode catalog bls ps defaults mode legacy = Ok plan → from_plan plan = Ok bm → dir ≠ Ignore →
  row_lists bm bls p acc dir d ↔
  ∃ j : nat, Z.testbit (side dir (project_masks bm bls (effective_direction p))) (Z.of_nat j) = true ∧ listed acc j d.
Proof.
  intros Hurl Hbuild Hbits Hdir. pose proof (row_seat _ _ _ _ _ _ _ _ Hurl Hbuild Hbits) as Hseat. split.
  - intros (b & bit & Hb & He & Hu & Hd & Hl). exists bit. split; [|done].
    destruct (Hseat b Hb He) as (i & s & o & _ & _ & _ & _ & _ & H1 & H2 & _). rewrite Hu in H2. injection H2 as <-.
    apply masks_testbit; [by eapply bits_are_small|done|]. by exists b.
  - intros (j & Ht & Hl). apply masks_testbit in Ht as (b & Hb & Hi & Hd); [|by eapply bits_are_small|done].
    assert (bl_enabled b = true) as He by (unfold bit_for_list in Hi; by destruct (bl_enabled b)).
    destruct (Hseat b Hb He) as (i & s & o & _ & _ & _ & _ & _ & H1 & H2 & _). rewrite Hi in H1. injection H1 as <-.
    by exists b, j.
Qed.

Lemma lists_decide {RC : RegexCrate} {RP : RegexPrograms} {SHA : Sha2Crate} {H : ShardHasher} e d rp :
  rp_block_all rp = false → rp_unfiltered rp = false → Forall (fun r => matches r d = false) (rp_rules rp) →
  set_hit (d :: dot_suffixes d) (rp_allow_domains rp) = false →
  set_hit (d :: dot_suffixes d) (rp_deny_domains rp) = false →
  evaluate e d rp =
  let lists := list_membership_for e d (rp_name rp) in
  if negb (allow_mask lists =? 0)%Z then FForward else if negb (block_mask lists =? 0)%Z then FBlock else FForward.
Proof.
  intros Hba Hun Hr Ha Hd. unfold evaluate. rewrite evaluate_inner_layered, layered_table by done. unfold verdict_table.
  assert (∀ imp a, some_match imp a d (rp_rules rp) = false) as Hn.
  { intros imp a. apply not_true_iff_false. rewrite some_match_spec. intros (r & Hin & _ & _ & Hm).
    rewrite Forall_forall in Hr. apply Hr in Hin. congruence. }
  rewrite !Hn, Ha, Hd, Hun. done.
Qed.

(** C5: from list texts to verdicts.  A refresh parses the sources of the plan
    into the spill, on disk or in memory, seals it and installs it; the disk
    reads back what was written, and any storage call may fail and any
    cancellation may arrive before the commit.  When the refresh reports that
    it installed, a name that no rule and no allow or deny set of a profile
    decides, for a profile that neither blocks everything nor is unfiltered, is
    blocked exactly when an enabled row that the profile directs to deny has an
    accepted body that lists the name or a parent of it, and no row directed to
    allow has. *)
Theorem refresh_verdict {RC : RegexCrate} {RP : RegexPrograms} {SHA : Sha2Crate} {H : ShardHasher} faults cancels hashers cancelled cache_dir gen w m cy acc o
    catalog bls ps defaults mode legacy plan bm p rp d :
  (∀ b, b ∈ bls → bl_enabled b = true → is_url_source (bl_url b) = true) → NoDup ps.*1 →
  build_with_control_mode catalog bls ps defaults mode legacy = Ok plan → from_plan plan = Ok bm →
  mg_policy_masks m = project_policy bm bls ps → length (shards (mg_engine m)) = DOMAIN_SHARDS →
  (∀ ceiling, mg_max_total_domains m = Some ceiling → (0 ≤ ceiling)%Z) →
  walked faults cancelled (open cache_dir) acc (cy_spilled cy) (cy_spill cy) →
  commit_refresh faults cancels hashers honest gen w m cy = Completed o → oc_installed o = true →
  (rp_name rp, p) ∈ ps → rp_block_all rp = false → rp_unfiltered rp = false →
  Forall (fun r => matches r d = false) (rp_rules rp) →
  set_hit (d :: dot_suffixes d) (rp_allow_domains rp) = false →
  set_hit (d :: dot_suffixes d) (rp_deny_domains rp) = false →
  evaluate (oc_engine o) d rp = FBlock ↔ row_lists bm bls p acc Deny d ∧ ¬ row_lists bm bls p acc Allow d.
Proof.
  intros Hurl Hn Hbuild Hbits Hm Hlen Hcl Hw Hc Hi Hp Hba Hun Hr Ha Hd. rewrite lists_decide by done. cbv zeta.
  destruct (installed_serves _ _ _ _ _ _ _ _ _ _ _ Hlen Hcl Hw Hc Hi) as (raws & Hga & Hs).
  set (pol := (publish (mg_policy_masks m) gen).1) in Hs.
  assert (masks_for pol (rp_name rp) = project_masks bm bls (effective_direction p)) as Hmasks.
  { unfold pol, masks_for, publish. rewrite Hm. destruct (next_gen_id gen) as [g c]. cbn [fst derived lp_per_profile].
    rewrite (proj2 (per_profile_lookup bm bls ps (rp_name rp) (project_masks bm bls (effective_direction p)) Hn)); [done|].
    by exists p. }
  rewrite !(row_lists_testbit catalog bls ps defaults mode legacy plan bm p acc _ d Hurl Hbuild Hbits) by done.
  rewrite <-Hmasks. cbn [side].
  assert (∀ f g, (∀ a b, f (masks_or a b) = Z.lor (f a) (f b)) → f no_masks = 0%Z →
    (∀ bits m, f (apply_masks bits m) = Z.land bits (g m)) → (∀ m, is_inert m = true → g m = 0%Z) →
    negb (f (list_membership_for (oc_engine o) d (rp_name rp)) =? 0)%Z = true ↔
    ∃ j : nat, Z.testbit (g (masks_for pol (rp_name rp))) (Z.of_nat j) = true ∧ listed acc j d) as Hside.
  { intros f g F1 F2 F3 F4. rewrite nonzero_testbit. setoid_rewrite (membership_served _ raws acc pol _ d f g); done. }
  rewrite <-(Hside block_mask pm_block), <-(Hside allow_mask pm_allow); try done.
  - destruct (negb (allow_mask _ =? 0)%Z), (negb (block_mask _ =? 0)%Z); intuition congruence.
  - intros x Hx. unfold is_inert in Hx. lia.
  - intros x Hx. unfold is_inert in Hx. lia.
Qed.

(** *** Witness: an ads list, a source over its cap that is undone, and a work
    list, refreshed through files into an empty engine *)

#[local] Existing Instance literal_programs.
#[local] Existing Instance length_hasher.
#[local] Existing Instance identity_sha.

Definition by_length (s : str) : Z := len s.

Definition parse_sample (body : string) (bit : nat) (max_entries : Z) (sp : ShardSpill) :=
  parse_verified no_faults by_length never (lit body) (2 ^ Z.of_nat bit) sp max_entries (Some DomainOnly) (Carried 0) (fun _ => true).

Definition parsed_spill {A} (r : option (ShardSpill * A)) : ShardSpill :=
  match r with Some (sp, _) => sp | None => open true end.

Definition sample_spill1 : ShardSpill := parsed_spill (parse_sample "ads.test" 0 10 (open true)).
Definition sample_spill2 : ShardSpill := parsed_spill (parse_sample "over.test" 1 0 sample_spill1).
Definition sample_spill3 : ShardSpill := parsed_spill (parse_sample "ok.ads.test" 1 10 sample_spill2).

Definition sample_cycle : Cycle :=
  {| cy_spill := sample_spill3; cy_rollback_failed := false; cy_coverage_complete := true; cy_spilled := 2;
     cy_digest := None |}.

Definition sample_manager (bm : SourceBitMap) : Manager :=
  {| mg_engine := new_engine; mg_secondary := false; mg_candidate := false; mg_max_total_domains := Some 100%Z;
     mg_policy_masks := project_policy bm sample_rows sample_profiles; mg_installed_digest := None |}.

Definition sample_commit (bm : SourceBitMap) : CommitResult :=
  commit_refresh no_faults never (fun _ => by_length) honest 1 {| wk_phase := Running; wk_clock := 0 |} (sample_manager bm) sample_cycle.

Lemma sample_walked :
  walked no_faults never (open true) [(0, lit "ads.test", DomainOnly); (1, lit "ok.ads.test", DomainOnly)] 2 sample_spill3.
Proof.
  assert (∃ c g, parse_sample "ads.test" 0 10 (open true) = Some (sample_spill1, Ok (c, g)) ∧ parsed_ok c = 1%Z)
    as (c1 & g1 & E1 & H1) by (eexists _, _; split; vm_compute; reflexivity).
  assert (∃ e, parse_sample "over.test" 1 0 sample_spill1 = Some (sample_spill2, Err e) ∧ pe_rollback e = None)
    as (e2 & E2 & H2) by (eexists; split; vm_compute; reflexivity).
  assert (∃ c g, parse_sample "ok.ads.test" 1 10 sample_spill2 = Some (sample_spill3, Ok (c, g)) ∧ parsed_ok c = 1%Z)
    as (c3 & g3 & E3 & H3) by (eexists _, _; split; vm_compute; reflexivity).
  replace 2%Z with (parsed_ok c1 + (parsed_ok c3 + 0))%Z by lia.
  eapply walked_accepted; [| | |exact E1|]; [lia|lia|reflexivity|].
  eapply walked_failed; [| |exact E2|done|]; [lia..|].
  eapply walked_accepted; [| | |exact E3|]; [lia|lia|reflexivity|constructor].
Qed.

Definition guest : ResolvedProfile := sample_profile (lit "guest") ∅ [].

(** Whether the refresh installed, and what it blocks for the profile guest. *)
Definition sample_verdicts (bm : SourceBitMap) : option (bool * FilterResult * FilterResult) :=
  match sample_commit bm with
  | Completed o => Some (oc_installed o, evaluate (oc_engine o) (lit "x.ads.test") guest,
                         evaluate (oc_engine o) (lit "ok.ads.test") guest)
  | Returned _ => None
  end.

Lemma refresh_verdict_witness :
  ∃ plan bm o, sample_plan = Some (plan, bm) ∧ sample_commit bm = Completed o ∧
    evaluate (oc_engine o) (lit "ok.ads.test") guest = FForward ∧
    row_lists bm sample_rows ∅ [(0, lit "ads.test", DomainOnly); (1, lit "ok.ads.test", DomainOnly)] Deny
      (lit "x.ads.test").
Proof.
  assert (Ht : (fun x => sample_verdicts (snd x)) <$> sample_plan = Some (Some (true, FBlock, FForward)))
    by (vm_compute; reflexivity).
  destruct sample_plan as [[plan bm]|] eqn:E; [|discriminate Ht]. apply (inj Some) in Ht. cbn [snd] in Ht.
  unfold sample_verdicts in Ht. destruct (sample_commit bm) as [|o] eqn:Ec; [discriminate Ht|].
  apply (inj Some), (inj2 pair) in Ht as [[Hi Hx]%(inj2 pair) Hok].
  exists plan, bm, o. split; [done|]. split; [done|]. split; [done|].
  assert (H := E). unfold sample_plan, build_for_schema in H.
  destruct (build_with_control_mode _ _ _ _ _ _) as [pl|] eqn:Hb; [|discriminate H].
  destruct (from_plan pl) as [b|] eqn:Hf; [|discriminate H]. injection H as -> ->.
  refine (proj1 (proj1 (refresh_verdict no_faults never (fun _ => by_length) never true 1 _ (sample_manager bm) sample_cycle _ o
    _ sample_rows sample_profiles _ _ _ plan bm ∅ guest _ _ _ Hb Hf eq_refl _ _ sample_walked Ec Hi _ eq_refl eq_refl
    _ _ _) Hx)).
  - intros r Hr _. unfold sample_rows in Hr. rewrite !elem_of_cons, elem_of_nil in Hr.
    by destruct Hr as [->|[->|[->|[]]]].
  - apply (bool_decide_unpack _). vm_compute. exact I.
  - vm_compute. reflexivity.
  - intros c [= <-]. done.
  - by left.
  - constructor.
  - by apply set_hit_empty.
  - by apply set_hit_empty.
Defined.

Definition no_bits : SourceBitMap := 
  {| by_url := ∅; by_canonical_url := ∅; by_v1_id := ∅; by_legacy_catalog_id := ∅; bit_representatives := [] |}.

Lemma healthy_refresh_installs_witness :
  ∃ o, sample_commit no_bits = Completed o ∧ oc_installed o = true ∧ oc_digest o = None.
Proof.
  refine (healthy_refresh_installs no_faults (fun _ => by_length) never true 1 _ (sample_manager no_bits) sample_cycle _ sample_walked
    _ _ _ _ _ _).
  - vm_compute. reflexivity.
  - reflexivity.
  - reflexivity.
  - by left.
  - intros c [= <-]. vm_compute. discriminate.
  - discriminate.
Defined.
