(* ===== verification/Cidr.v ===== *)
(** * Addresses and CIDR blocks: [src/config/cidr.rs]

    The address parser is that of the standard library.  Error texts are left
    out; each message of the source is a constructor. *)

From S2P Require Import Prelude RustStr.

(** ** Addresses *)

(** [IpAddr]: the address as the integer [u32::from] or [u128::from] gives. *)
Inductive IpAddr := V4 (a : Z) | V6 (a : Z).

#[export] Instance IpAddr_eq_dec : EqDecision IpAddr.
Proof. solve_decision. Defined.

#[export] Instance IpAddr_countable : Countable IpAddr.
Proof.
  refine (inj_countable' (fun ip => match ip with V4 a => inl a | V6 a => inr a end)
    (fun s : Z + Z => match s with inl a => V4 a | inr a => V6 a end) _).
  by intros [].
Defined.

Definition ip_wf (ip : IpAddr) : Prop :=
  match ip with V4 a => (0 ≤ a < 2 ^ 32)%Z | V6 a => (0 ≤ a < 2 ^ 128)%Z end.

(** *** The parser of the standard library *)

(** [char::to_digit]. *)
Definition to_digit (radix : Z) (c : ascii) : option Z :=
  let b := byte c in
  let d := if is_ascii_digit c then Some (b - 48)%Z
           else if (97 <=? b)%Z && (b <=? 122)%Z then Some (b - 87)%Z
           else if (65 <=? b)%Z && (b <=? 90)%Z then Some (b - 55)%Z
           else None in
  d ≫= fun d => if (d <? radix)%Z then Some d else None.

Fixpoint digits (radix : Z) (s : str) : list Z * str :=
  match s with
  | [] => ([], [])
  | c :: s' => match to_digit radix c with
               | Some d => let '(ds, rest) := digits radix s' in (d :: ds, rest)
               | None => ([], s)
               end
  end.

Definition from_digits (radix : Z) (ds : list Z) : Z := fold_left (fun acc d => acc * radix + d)%Z ds 0%Z.

(** [Parser::read_number]; a run of more than [max_digits] digits is refused. *)
Definition read_number (radix : Z) (max_digits : nat) (allow_zero_prefix : bool) (max : Z) (s : str)
  : option (Z * str) :=
  let '(ds, rest) := digits radix s in
  if (max_digits <? length ds) || (length ds =? 0) then None
  else if negb allow_zero_prefix && bool_decide (head ds = Some 0%Z) && (1 <? length ds) then None
  else let v := from_digits radix ds in if (v <=? max)%Z then Some (v, rest) else None.

Definition read_separator {A} (sep : ascii) (index : nat) (inner : str → option (A * str)) (s : str) : option (A * str) :=
  match index with
  | 0 => inner s
  | S _ => match s with c :: s => if Ascii.eqb c sep then inner s else None | [] => None end
  end.

Definition read_octet : str → option (Z * str) := read_number 10 3 false 255.

(** [Parser::read_ipv4_addr]. *)
Definition read_ipv4_addr (s : str) : option (Z * str) :=
  '(a, s) ← read_separator "." 0 read_octet s;
  '(b, s) ← read_separator "." 1 read_octet s;
  '(c, s) ← read_separator "." 2 read_octet s;
  '(d, s) ← read_separator "." 3 read_octet s;
  Some (((a * 256 + b) * 256 + c) * 256 + d, s)%Z.

(** [read_groups] of [Parser::read_ipv6_addr]: [k] groups are left of the slice
    and [i] have been read. *)
Fixpoint read_groups (k i : nat) (s : str) : list Z * bool * str :=
  match k with
  | 0 => ([], false, s)
  | S k =>
    match (if 0 <? k then read_separator ":" i read_ipv4_addr s else None) with
    | Some (a, rest) => ([a / 65536; a mod 65536]%Z, true, rest)
    | None =>
      match read_separator ":" i (read_number 16 4 true 65535) s with
      | Some (g, rest) => let '(gs, v4, rest) := read_groups k (S i) rest in (g :: gs, v4, rest)
      | None => ([], false, s)
      end
    end
  end.

Definition from_groups (gs : list Z) : Z := fold_left (fun acc g => acc * 65536 + g)%Z gs 0%Z.

Definition read_ipv6_addr (s : str) : option (Z * str) :=
  let '(head, head_ipv4, rest) := read_groups 8 0 s in
  if length head =? 8 then Some (from_groups head, rest)
  else if head_ipv4 then None
  else match rest with
       | c :: c' :: rest =>
         if Ascii.eqb c ":" && Ascii.eqb c' ":" then
           let '(tail, _, rest) := read_groups (8 - (length head + 1)) 0 rest in
           Some (from_groups (head ++ replicate (8 - length head - length tail) 0%Z ++ tail), rest)
         else None
       | _ => None
       end.

(** [parse_with]: nothing may be left over. *)
Definition parse_with {A} (inner : str → option (A * str)) (s : str) : option A :=
  match inner s with Some (a, []) => Some a | _ => None end.

Definition ipv4_from_str (s : str) : option Z := parse_with read_ipv4_addr s.

(** [IpAddr::from_str]. *)
Definition ip_from_str (s : str) : option IpAddr :=
  parse_with (fun s =>
    match read_ipv4_addr s with
    | Some (a, rest) => Some (V4 a, rest)
    | None => match read_ipv6_addr s with Some (a, rest) => Some (V6 a, rest) | None => None end
    end) s.

(** [Ipv6Addr::to_ipv4_mapped]: [::ffff:a.b.c.d]. *)
Definition to_ipv4_mapped (a : Z) : option Z :=
  if (Z.shiftr a 32 =? 65535)%Z then Some (a mod 2 ^ 32)%Z else None.

(** [canonical_ip] of the resolver, and the first step of [any_contains]. *)
Definition canonical_ip (ip : IpAddr) : IpAddr :=
  match ip with
  | V6 a => match to_ipv4_mapped a with Some b => V4 b | None => ip end
  | V4 _ => ip
  end.

(** ** Blocks *)

Inductive Cidr := CV4 (network prefix : Z) | CV6 (network prefix : Z).

Inductive CidrError :=
| BadAddress | BadPrefix | PrefixTooLong | EmptyInput
| WildcardV6 | WildcardOctets | WildcardGap | NoWildcard | NoOctet | BadOctet
| RangeWildcard | RangeV6 | BadStart | BadEnd | EndBeforeStart | RangeSize | RangeTooLarge | RangeAlignment.

(** [v4_mask] and [v6_mask] at their widths: [MAX << (width - prefix)]. *)
Definition mask (width prefix : Z) : Z :=
  if (prefix =? 0)%Z then 0%Z else (Z.shiftl (2 ^ width - 1) (width - prefix) mod 2 ^ width)%Z.

Definition v4_mask : Z → Z := mask 32.
Definition v6_mask : Z → Z := mask 128.

Definition parse_prefix (prefix_part : option str) (width : Z) : result CidrError Z :=
  let? prefix := match prefix_part with
                 | Some p => ok_or (parse_uint U8_MAX (trim p)) BadPrefix
                 | None => Ok width
                 end in
  if (width <? prefix)%Z then Err PrefixTooLong else Ok prefix.

(** [Cidr::parse]. *)
Definition cidr_parse (s : str) : result CidrError Cidr :=
  let '(addr_part, prefix_part) :=
    match split_once "/" s with Some (a, p) => (a, Some p) | None => (s, None) end in
  let? ip := ok_or (ip_from_str (trim addr_part)) BadAddress in
  match ip with
  | V4 raw => let? prefix := parse_prefix prefix_part 32 in Ok (CV4 (Z.land raw (v4_mask prefix)) prefix)
  | V6 raw => let? prefix := parse_prefix prefix_part 128 in Ok (CV6 (Z.land raw (v6_mask prefix)) prefix)
  end.

(** [Cidr::input_has_host_bits]. *)
Definition input_has_host_bits (s : str) : bool :=
  match split_once "/" s with
  | None => false
  | Some (addr, prefix) =>
    match ip_from_str (trim addr) with
    | None => false
    | Some (V4 raw) =>
      match parse_uint U8_MAX (trim prefix) with
      | Some p => if (p <=? 32)%Z then negb (Z.land raw (v4_mask p) =? raw)%Z else false
      | None => false
      end
    | Some (V6 raw) =>
      match parse_uint U8_MAX (trim prefix) with
      | Some p => if (p <=? 128)%Z then negb (Z.land raw (v6_mask p) =? raw)%Z else false
      | None => false
      end
    end
  end.

(** [Cidr::contains]. *)
Definition cidr_contains (c : Cidr) (ip : IpAddr) : bool :=
  match c, ip with
  | CV4 network prefix, V4 raw => (Z.land raw (v4_mask prefix) =? network)%Z
  | CV6 network prefix, V6 raw => (Z.land raw (v6_mask prefix) =? network)%Z
  | _, _ => false
  end.

(** [any_contains]. *)
Definition any_contains (allow_from : list Cidr) (ip : IpAddr) : bool :=
  existsb (fun c => cidr_contains c (canonical_ip ip)) allow_from.

(** *** Printing an address, for the friendly forms *)

Definition digit_char (d : Z) : ascii := ascii_of_N (Z.to_N (48 + d)).

(** Decimal without leading zeros, for numbers below 1000. *)
Definition show_small (n : Z) : str :=
  if (100 <=? n)%Z then [digit_char (n / 100); digit_char (n / 10 mod 10); digit_char (n mod 10)]
  else if (10 <=? n)%Z then [digit_char (n / 10); digit_char (n mod 10)]
  else [digit_char n].

(** [Ipv4Addr]'s [Display], then a slash and the prefix. *)
Definition show_v4 (a : Z) : str :=
  join "." [show_small (a / 2 ^ 24 mod 256); show_small (a / 2 ^ 16 mod 256);
            show_small (a / 2 ^ 8 mod 256); show_small (a mod 256)]%Z.

Definition show_v4_block (a prefix : Z) : str := show_v4 a ++ "/"%char :: show_small prefix.

(** *** The friendly forms *)

(** The octets before the first wildcard; a number after one is an error. *)
Fixpoint numeric_prefix (octets : list str) (seen_wildcard : bool) : result CidrError (list str * bool) :=
  match octets with
  | [] => Ok ([], seen_wildcard)
  | o :: octets =>
    if str_eqb o (lit "*") then numeric_prefix octets true
    else if seen_wildcard then Err WildcardGap
    else let? rest := numeric_prefix octets false in Ok (o :: rest.1, rest.2)
  end.

Fixpoint parse_octets (octets : list str) : result CidrError (list Z) :=
  match octets with
  | [] => Ok []
  | o :: octets =>
    let? b := ok_or (parse_uint U8_MAX o) BadOctet in
    let? bs := parse_octets octets in
    Ok (b :: bs)
  end.

Definition from_octets (bytes : list Z) : Z :=
  fold_left (fun acc b => acc * 256 + b)%Z (take 4 (bytes ++ replicate 4 0%Z)) 0%Z.

(** [parse_wildcard_friendly]. *)
Definition parse_wildcard_friendly (s : str) : result CidrError Cidr :=
  if contains ":" s then Err WildcardV6
  else
    let octets := split "." s in
    if negb (length octets =? 4) then Err WildcardOctets
    else
      let? numeric := numeric_prefix octets false in
      let '(numeric, seen_wildcard) := numeric in
      if negb seen_wildcard then Err NoWildcard
      else if length numeric =? 0 then Err NoOctet
      else
        let? bytes := parse_octets numeric in
        cidr_parse (show_v4_block (from_octets bytes) (Z.of_nat (length numeric) * 8)).

(** [parse_range_friendly]. *)
Definition parse_range_friendly (lo hi : str) : result CidrError Cidr :=
  if contains "*" lo || contains "*" hi then Err RangeWildcard
  else if contains ":" lo || contains ":" hi then Err RangeV6
  else
    let? lo_raw := ok_or (ipv4_from_str lo) BadStart in
    let? hi_raw := ok_or (ipv4_from_str hi) BadEnd in
    if (hi_raw <? lo_raw)%Z then Err EndBeforeStart
    else
      let size := (hi_raw - lo_raw + 1)%Z in
      if negb (Z.land size (size - 1) =? 0)%Z then Err RangeSize
      else
        (* the trailing zeros of a power of two *)
        let host_bits := Z.log2 size in
        if (32 <? host_bits)%Z then Err RangeTooLarge
        else
          let prefix := (32 - host_bits)%Z in
          if negb (Z.land lo_raw (v4_mask prefix) =? lo_raw)%Z then Err RangeAlignment
          else cidr_parse (show_v4_block lo_raw prefix).

(** [Cidr::parse_friendly]. *)
Definition parse_friendly (input : str) : result CidrError Cidr :=
  let s := trim input in
  if bool_decide (s = []) then Err EmptyInput
  else if contains "/" s then cidr_parse s
  else match split_once "-" s with
       | Some (lo, hi) => parse_range_friendly (trim lo) (trim hi)
       | None => if contains "*" s then parse_wildcard_friendly s else cidr_parse s
       end.

(** ** What a block contains *)

(** The top [prefix] bits of a [width]-bit address. *)
Definition leading (width prefix raw : Z) : Z := (raw / 2 ^ (width - prefix))%Z.

Lemma mask_land width prefix raw :
  (0 ≤ prefix ≤ width)%Z → (0 ≤ raw < 2 ^ width)%Z →
  Z.land raw (mask width prefix) = (leading width prefix raw * 2 ^ (width - prefix))%Z.
Proof.
  intros Hp Hr. unfold mask, leading. destruct (Z.eqb_spec prefix 0) as [->|Hn].
  { rewrite Z.land_0_r, Z.sub_0_r, Z.div_small by done. done. }
  rewrite <-Z.shiftr_div_pow2, <-Z.shiftl_mul_pow2 by lia. apply Z.bits_inj'. intros i Hi.
  rewrite Z.land_spec, Z.shiftl_spec by lia.
  replace (2 ^ width - 1)%Z with (Z.ones width) by (rewrite Z.ones_equiv; lia).
  destruct (decide (width ≤ i)%Z) as [Hw|Hw].
  { rewrite Z.mod_pow2_bits_high, andb_false_r by lia. symmetry.
    rewrite Z.shiftr_spec by lia. replace (i - (width - prefix) + (width - prefix))%Z with i by lia.
    destruct (decide (raw = 0)%Z) as [->|Hnz]; [apply Z.bits_0|]. apply Z.bits_above_log2; [lia|].
    apply Z.log2_lt_pow2; [lia|]. eapply Z.lt_le_trans; [apply Hr|]. apply Z.pow_le_mono_r; lia. }
  rewrite Z.mod_pow2_bits_low by lia. rewrite Z.shiftl_spec by lia.
  destruct (decide (i < width - prefix)%Z) as [Hl|Hl].
  { rewrite !(Z.testbit_neg_r _ (i - (width - prefix))) by lia. by rewrite andb_false_r. }
  rewrite Z.ones_spec_low, andb_true_r by lia. rewrite Z.shiftr_spec by lia. f_equal. lia.
Qed.

Lemma leading_range width prefix raw :
  (0 ≤ prefix ≤ width)%Z → (0 ≤ raw < 2 ^ width)%Z → (0 ≤ leading width prefix raw < 2 ^ prefix)%Z.
Proof.
  intros Hp Hr. unfold leading. assert (0 < 2 ^ (width - prefix))%Z by (apply Z.pow_pos_nonneg; lia).
  split; [apply Z.div_pos; lia|]. apply Z.div_lt_upper_bound; [done|]. rewrite <-Z.pow_add_r by lia.
  replace (width - prefix + prefix)%Z with width by lia. lia.
Qed.

Lemma leading_eq width prefix a raw :
  (0 ≤ prefix ≤ width)%Z →
  leading width prefix raw = leading width prefix a ↔
  (leading width prefix a * 2 ^ (width - prefix) ≤ raw < (leading width prefix a + 1) * 2 ^ (width - prefix))%Z.
Proof.
  intros Hp. unfold leading. set (h := (2 ^ (width - prefix))%Z).
  assert (0 < h)%Z by (apply Z.pow_pos_nonneg; lia). generalize (a / h)%Z. intros q.
  pose proof (Z.mul_div_le raw h). pose proof (Z.mul_succ_div_gt raw h). nia.
Qed.

(** A block as the parsers make it: the network of some address. *)
Definition block_of (ip : IpAddr) (prefix : Z) : Cidr :=
  match ip with
  | V4 a => CV4 (Z.land a (v4_mask prefix)) prefix
  | V6 a => CV6 (Z.land a (v6_mask prefix)) prefix
  end.

(** Two addresses agree on their family and their top bits. *)
Definition agree (prefix : Z) (a ip : IpAddr) : Prop :=
  match a, ip with
  | V4 a, V4 x => leading 32 prefix x = leading 32 prefix a
  | V6 a, V6 x => leading 128 prefix x = leading 128 prefix a
  | _, _ => False
  end.

Definition width_of (ip : IpAddr) : Z := match ip with V4 _ => 32 | V6 _ => 128 end.

Lemma contains_block a prefix ip :
  ip_wf a → ip_wf ip → (0 ≤ prefix ≤ width_of a)%Z →
  cidr_contains (block_of a prefix) ip = true ↔ agree prefix a ip.
Proof.
  intros Ha Hi Hp. destruct a as [a|a], ip as [x|x]; try done; cbn [block_of cidr_contains agree width_of ip_wf] in *;
    unfold v4_mask, v6_mask; rewrite Z.eqb_eq, !mask_land by lia;
    match goal with |- context [(2 ^ (?w - prefix))%Z] => assert (0 < 2 ^ (w - prefix))%Z by (apply Z.pow_pos_nonneg; lia) end; nia.
Qed.

(** ** The parser's results are addresses *)

Lemma read_number_range radix k az max s v rest : read_number radix k az max s = Some (v, rest) → (v ≤ max)%Z.
Proof.
  unfold read_number. destruct (digits radix s) as [ds r]. destruct (_ || _); [done|]. destruct (_ && _ && _); [done|].
  destruct (Z.leb_spec (from_digits radix ds) max); [|done]. by intros [= <- <-].
Qed.

Lemma to_digit_range radix c d : to_digit radix c = Some d → (0 ≤ d)%Z.
Proof.
  unfold to_digit. pose proof (byte_range c). unfold is_ascii_digit.
  destruct (_ && _) eqn:E1; cbn [mbind option_bind]; [destruct (_ <? _)%Z; [|done]; intros [= <-]; lia|].
  destruct ((97 <=? byte c)%Z && _) eqn:E2; cbn [mbind option_bind]; [destruct (_ <? _)%Z; [|done]; intros [= <-]; lia|].
  destruct ((65 <=? byte c)%Z && _) eqn:E3; cbn [mbind option_bind]; [destruct (_ <? _)%Z; [|done]; intros [= <-]; lia|done].
Qed.

Lemma read_number_nonneg radix k az max s v rest :
  (0 ≤ radix)%Z → read_number radix k az max s = Some (v, rest) → (0 ≤ v)%Z.
Proof.
  intros Hr. unfold read_number. destruct (digits radix s) as [ds r] eqn:E.
  assert (Forall (fun d => 0 ≤ d)%Z ds) as Hds.
  { revert ds r E. induction s as [|c s IH]; intros ds r; cbn [digits]; [intros [= <- <-]; constructor|].
    destruct (to_digit radix c) as [d|] eqn:Ed; [|intros [= <- <-]; constructor].
    destruct (digits radix s) as [ds' r']. intros [= <- <-]. constructor; [by eapply to_digit_range|by eapply IH]. }
  assert (∀ acc, (0 ≤ acc)%Z → (0 ≤ fold_left (fun acc d => acc * radix + d)%Z ds acc)%Z) as Hf.
  { clear E. induction Hds as [|d ds Hd _ IH]; intros acc Ha; cbn; [done|]. apply IH. nia. }
  destruct (_ || _); [done|]. destruct (_ && _ && _); [done|]. destruct (_ <=? _)%Z; [|done]. intros [= <- <-].
  by apply Hf.
Qed.

Lemma read_octet_range i s v rest : read_separator "." i read_octet s = Some (v, rest) → (0 ≤ v ≤ 255)%Z.
Proof.
  assert (∀ s, read_octet s = Some (v, rest) → (0 ≤ v ≤ 255)%Z) as Ho.
  { intros t E. split; [by eapply read_number_nonneg in E|by eapply read_number_range in E]. }
  destruct i; cbn [read_separator]; [apply Ho|]. destruct s as [|c s]; [done|]. destruct (Ascii.eqb _ _); [apply Ho|done].
Qed.

Lemma read_ipv4_range s a rest : read_ipv4_addr s = Some (a, rest) → (0 ≤ a < 2 ^ 32)%Z.
Proof.
  unfold read_ipv4_addr. intros E.
  apply bind_Some in E as ([a0 s0] & E0 & E). apply bind_Some in E as ([a1 s1] & E1 & E).
  apply bind_Some in E as ([a2 s2] & E2 & E). apply bind_Some in E as ([a3 s3] & E3 & E). injection E as <- _.
  apply read_octet_range in E0, E1, E2, E3. lia.
Qed.

Lemma read_groups_range k i s gs v4 rest :
  read_groups k i s = (gs, v4, rest) → length gs ≤ k ∧ Forall (fun g => 0 ≤ g < 65536)%Z gs.
Proof.
  revert i s gs v4 rest. induction k as [|k IH]; intros i s gs v4 rest; cbn [read_groups].
  { intros [= <- <- <-]. by split; [|constructor]. }
  destruct (if 0 <? k then _ else None) as [[a r]|] eqn:E4.
  { intros [= <- <- <-]. destruct (Nat.ltb_spec 0 k) as [Hk|]; [|done]. split; [cbn; lia|].
    assert (0 ≤ a < 2 ^ 32)%Z as Ha.
    { destruct i; cbn [read_separator] in E4; [by eapply read_ipv4_range|].
      destruct s as [|c s]; [done|]. destruct (Ascii.eqb _ _); [by eapply read_ipv4_range|done]. }
    repeat constructor; Z.to_euclidean_division_equations; lia. }
  destruct (read_separator ":" i (read_number 16 4 true 65535) s) as [[g r]|] eqn:Eg; [|intros E; simplify_eq; split; [cbn; lia|constructor]].
  destruct (read_groups k (S i) r) as [[gs' b] r'] eqn:Er. intros [= <- <- <-]. apply IH in Er as [Hl Hf].
  split; [cbn; lia|]. constructor; [|done].
  assert (∀ t, read_number 16 4 true 65535 t = Some (g, r) → (0 ≤ g < 65536)%Z) as Hn.
  { intros t E. pose proof (read_number_nonneg 16 4 true 65535 t g r ltac:(lia) E). apply read_number_range in E. lia. }
  destruct i; cbn [read_separator] in Eg; [by eapply Hn|]. destruct s as [|c s]; [done|].
  destruct (Ascii.eqb _ _); [by eapply Hn|done].
Qed.

Lemma from_groups_range gs : Forall (fun g => 0 ≤ g < 65536)%Z gs → (0 ≤ from_groups gs < 65536 ^ Z.of_nat (length gs))%Z.
Proof.
  unfold from_groups. induction gs as [|g gs IH] using rev_ind; intros Hf; [done|].
  apply Forall_app in Hf as [Hf Hg%Forall_cons_1]. destruct Hg as [Hg _]. specialize (IH Hf).
  rewrite fold_left_app, length_app. cbn [fold_left length].
  replace (Z.of_nat (length gs + 1)) with (Z.of_nat (length gs) + 1)%Z by lia. rewrite Z.pow_add_r, Z.pow_1_r by lia. lia.
Qed.

Lemma read_ipv6_range s a rest : read_ipv6_addr s = Some (a, rest) → (0 ≤ a < 2 ^ 128)%Z.
Proof.
  assert (∀ gs, Forall (fun g => 0 ≤ g < 65536)%Z gs → length gs = 8 → (0 ≤ from_groups gs < 2 ^ 128)%Z) as H8.
  { intros gs Hf Hl. apply from_groups_range in Hf. rewrite Hl in Hf. done. }
  unfold read_ipv6_addr. destruct (read_groups 8 0 s) as [[head h4] r] eqn:E. apply read_groups_range in E as [Hl Hf].
  destruct (Nat.eqb_spec (length head) 8) as [H|H]; [intros [= <- _]; by apply H8|]. destruct h4; [done|].
  destruct r as [|c [|c' r]]; [done..|]. destruct (_ && _); [|done].
  destruct (read_groups (8 - (length head + 1)) 0 r) as [[tail t4] r'] eqn:Et. apply read_groups_range in Et as [Hl' Hf'].
  intros [= <- _]. apply H8.
  - apply Forall_app. split; [done|]. apply Forall_app. split; [|done]. apply Forall_replicate. lia.
  - rewrite !length_app, length_replicate. lia.
Qed.

Lemma ipv4_from_str_range s a : ipv4_from_str s = Some a → (0 ≤ a < 2 ^ 32)%Z.
Proof.
  unfold ipv4_from_str, parse_with. destruct (read_ipv4_addr s) as [[b [|]]|] eqn:E; [|done..].
  intros [= <-]. by eapply read_ipv4_range.
Qed.

Lemma ip_from_str_wf s ip : ip_from_str s = Some ip → ip_wf ip.
Proof.
  unfold ip_from_str, parse_with. destruct (read_ipv4_addr s) as [[a r]|] eqn:E4.
  - destruct r; [|done]. intros [= <-]. by eapply read_ipv4_range.
  - destruct (read_ipv6_addr s) as [[a r]|] eqn:E6; [|done]. destruct r; [|done]. intros [= <-]. by eapply read_ipv6_range.
Qed.

(** ** Printed addresses parse back *)

Lemma small_digit d : (0 ≤ d ≤ 9)%Z →
  to_digit 10 (digit_char d) = Some d ∧ is_ascii_digit (digit_char d) = true ∧ byte (digit_char d) = (48 + d)%Z.
Proof.
  intros Hd. assert (d = 0 ∨ d = 1 ∨ d = 2 ∨ d = 3 ∨ d = 4 ∨ d = 5 ∨ d = 6 ∨ d = 7 ∨ d = 8 ∨ d = 9)%Z as Hc by lia.
  repeat destruct Hc as [->|Hc]; [vm_compute; by split_and!..|subst; vm_compute; by split_and!].
Qed.

(** The digits [show_small] prints. *)
Definition small_digits (n : Z) : list Z :=
  if (100 <=? n)%Z then [n / 100; n / 10 mod 10; n mod 10]%Z
  else if (10 <=? n)%Z then [n / 10; n mod 10]%Z else [n].

Lemma small_digits_spec n : (0 ≤ n < 1000)%Z →
  show_small n = map digit_char (small_digits n) ∧ Forall (fun d => 0 ≤ d ≤ 9)%Z (small_digits n) ∧
  from_digits 10 (small_digits n) = n ∧ 1 ≤ length (small_digits n) ≤ 3 ∧
  (head (small_digits n) = Some 0%Z → length (small_digits n) = 1).
Proof.
  intros Hn. unfold show_small, small_digits.
  destruct (Z.leb_spec 100 n); [|destruct (Z.leb_spec 10 n)]; cbn [map head length];
    (split_and!; [done| | |lia..|]); try (unfold from_digits; cbn; Z.to_euclidean_division_equations; lia);
    try (repeat constructor; Z.to_euclidean_division_equations; lia);
    intros [= E]; try done; Z.to_euclidean_division_equations; lia.
Qed.

Lemma digits_app ds rest : Forall (fun d => 0 ≤ d ≤ 9)%Z ds →
  (∀ c rest', rest = c :: rest' → to_digit 10 c = None) → digits 10 (map digit_char ds ++ rest) = (ds, rest).
Proof.
  intros Hds Hr. induction Hds as [|d ds Hd _ IH]; cbn [map app digits].
  - destruct rest as [|c rest]; [done|]. cbn [digits]. by rewrite (Hr c rest eq_refl).
  - by rewrite (proj1 (small_digit d Hd)), IH.
Qed.

Lemma read_octet_show n rest : (0 ≤ n < 256)%Z →
  (∀ c rest', rest = c :: rest' → to_digit 10 c = None) → read_octet (show_small n ++ rest) = Some (n, rest).
Proof.
  intros Hn Hr. destruct (small_digits_spec n) as (-> & Hf & Hv & Hl & Hh); [lia|].
  unfold read_octet, read_number. rewrite digits_app by done.
  rewrite (proj2 (Nat.ltb_ge 3 _)) by lia. rewrite (proj2 (Nat.eqb_neq _ 0)) by lia. cbn [orb negb andb].
  destruct (bool_decide (head (small_digits n) = Some 0%Z)) eqn:Eb.
  - apply bool_decide_eq_true in Eb. rewrite (Hh Eb). cbn [Nat.ltb Nat.leb andb]. rewrite Hv, (proj2 (Z.leb_le _ _)) by lia. done.
  - cbn [andb]. rewrite Hv, (proj2 (Z.leb_le _ _)) by lia. done.
Qed.

Lemma read_ipv4_show a : (0 ≤ a < 2 ^ 32)%Z → read_ipv4_addr (show_v4 a) = Some (a, []).
Proof.
  intros Ha. unfold read_ipv4_addr, show_v4. cbn [join read_separator].
  assert (∀ x, (0 ≤ x mod 256 < 256)%Z) as Hx by (intros x; Z.to_euclidean_division_equations; lia).
  rewrite read_octet_show; [|apply Hx|by intros c r [= <- _]]. cbn [mbind option_bind Ascii.eqb Bool.eqb].
  rewrite read_octet_show; [|apply Hx|by intros c r [= <- _]]. cbn [mbind option_bind Ascii.eqb Bool.eqb].
  rewrite read_octet_show; [|apply Hx|by intros c r [= <- _]]. cbn [mbind option_bind Ascii.eqb Bool.eqb].
  rewrite <-(app_nil_r (show_small (a mod 256))).
  rewrite read_octet_show; [|apply Hx|done]. cbn [mbind option_bind].
  do 2 f_equal. Z.to_euclidean_division_equations; lia.
Qed.

Lemma show_small_chars n c : (0 ≤ n < 1000)%Z → c ∈ show_small n → is_ascii_digit c = true.
Proof.
  intros Hn. destruct (small_digits_spec n Hn) as (-> & Hf & _). intros Hc.
  apply list_elem_of_In, in_map_iff in Hc as (d & <- & Hd). apply list_elem_of_In in Hd.
  rewrite Forall_forall in Hf. by apply small_digit, Hf.
Qed.

Lemma show_v4_chars a c : c ∈ show_v4 a → is_ascii_digit c = true ∨ c = "."%char.
Proof.
  unfold show_v4. cbn [join].
  assert (∀ x, (0 ≤ x mod 256 < 1000)%Z) as Hx by (intros x; Z.to_euclidean_division_equations; lia).
  repeat first [rewrite elem_of_app | rewrite elem_of_cons]. intros Hc.
  destruct Hc as [Hc|[Hc|[Hc|[Hc|[Hc|[Hc|Hc]]]]]]; auto; left; by apply show_small_chars in Hc; [|apply Hx].
Qed.

Lemma digit_printable c : is_ascii_digit c = true ∨ c = "."%char → printable c = true.
Proof. unfold is_ascii_digit, printable. intros [Hc| ->]; [lia|done]. Qed.

Lemma trim_digits s : s ≠ [] → (∀ c, c ∈ s → is_ascii_digit c = true ∨ c = "."%char) → trim s = s.
Proof. intros Hn Hc. apply trim_printable; [done|]. apply Forall_forall. intros c Hin. by apply digit_printable, Hc. Qed.

Lemma parse_uint_show n max : (0 ≤ n < 1000)%Z → (n ≤ max)%Z → parse_uint max (show_small n) = Some n.
Proof.
  intros Hn Hm. destruct (small_digits_spec n Hn) as (-> & Hf & Hv & Hl & _).
  assert (∀ acc ds, Forall (fun d => 0 ≤ d ≤ 9)%Z ds → (0 ≤ acc)%Z →
    (fold_left (fun acc d => acc * 10 + d)%Z ds acc ≤ max)%Z →
    parse_digits acc max (map digit_char ds) = Some (fold_left (fun acc d => acc * 10 + d)%Z ds acc)) as Hp.
  { intros acc ds Hds. revert acc. induction Hds as [|d ds Hd Hds IH]; intros acc Ha Hle; cbn [map parse_digits fold_left] in *; [done|].
    destruct (small_digit d Hd) as (_ & -> & ->). replace (acc * 10 + (48 + d - 48))%Z with (acc * 10 + d)%Z by lia.
    assert (∀ l b, Forall (fun d => 0 ≤ d ≤ 9)%Z l → (0 ≤ b)%Z → (b ≤ fold_left (fun acc d => acc * 10 + d)%Z l b)%Z) as Hmono.
    { induction l as [|x l IHl]; intros b Hl' Hb; cbn; [lia|]. apply Forall_cons in Hl' as [Hx Hl'].
      specialize (IHl (b * 10 + x)%Z Hl' ltac:(lia)). lia. }
    rewrite (proj2 (Z.leb_le _ _)) by (etransitivity; [apply Hmono; [done|lia]|done]). apply IH; [lia|done]. }
  destruct (small_digits n) as [|d ds] eqn:E; [cbn in Hl; lia|]. unfold parse_uint. cbn [map].
  assert (digit_char d ≠ "+"%char) as Hplus.
  { intros Ec. apply Forall_cons in Hf as [Hd _]. apply small_digit in Hd as (_ & Hd & _). by rewrite Ec in Hd. }
  rewrite decide_False by done. rewrite <-map_cons, Hp; [by rewrite <-Hv|done|done|]. unfold from_digits in Hv. lia.
Qed.

(** A printed block parses to the block it prints. *)
Lemma cidr_parse_show a prefix :
  (0 ≤ a < 2 ^ 32)%Z → (0 ≤ prefix ≤ 32)%Z → cidr_parse (show_v4_block a prefix) = Ok (block_of (V4 a) prefix).
Proof.
  intros Ha Hp. unfold cidr_parse, show_v4_block.
  assert (split_once "/" (show_v4 a ++ "/"%char :: show_small prefix) = Some (show_v4 a, show_small prefix)) as ->.
  { apply split_once_Some. split; [done|]. intros Hin. by destruct (show_v4_chars _ _ Hin). }
  assert (show_v4 a ≠ []) as Hne by (intros E; pose proof (read_ipv4_show a Ha) as E'; by rewrite E in E').
  rewrite trim_digits; [|done|apply show_v4_chars].
  unfold ip_from_str, parse_with. rewrite read_ipv4_show by done. cbn [ok_or rbind].
  unfold parse_prefix. rewrite trim_digits.
  - rewrite parse_uint_show by (unfold U8_MAX; lia). cbn [ok_or rbind]. rewrite (proj2 (Z.ltb_ge _ _)) by lia. done.
  - unfold show_small. by repeat case_match.
  - intros c Hc. left. apply show_small_chars in Hc; [done|lia].
Qed.

(** ** The claim *)

Lemma power_of_two n : (0 < n)%Z → Z.land n (n - 1) = 0%Z → n = (2 ^ Z.log2 n)%Z.
Proof.
  intros Hn Hl. pose proof (Z.log2_spec n Hn) as [H1 H2]. pose proof (Z.log2_nonneg n).
  destruct (decide (n = 2 ^ Z.log2 n)%Z) as [|Hne]; [done|]. exfalso.
  assert (Z.testbit (Z.land n (n - 1)) (Z.log2 n) = true) as Ht; [|by rewrite Hl, Z.bits_0 in Ht].
  rewrite Z.land_spec, Z.bit_log2 by done. cbn [andb].
  assert (Z.log2 (n - 1) = Z.log2 n) as <- by (apply Z.log2_unique; lia). apply Z.bit_log2. lia.
Qed.

Lemma numeric_prefix_spec octets seen num any :
  numeric_prefix octets seen = Ok (num, any) →
  ∃ k, octets = num ++ replicate k (lit "*") ∧ (seen = true → num = []) ∧ (any = true → seen = true ∨ 0 < k).
Proof.
  revert seen num any. induction octets as [|o octets IH]; intros seen num any; cbn [numeric_prefix].
  { intros [= <- <-]. exists 0. split; [done|]. split; [done|auto]. }
  unfold str_eqb. case_bool_decide as Ho.
  - intros E. apply IH in E as (k & -> & Hn & _). rewrite (Hn eq_refl) in *. exists (S k). rewrite Ho. split; [done|].
    split; [done|]. intros _. right. lia.
  - destruct seen; [done|]. intros E. apply rbind_Ok in E as ([num' any'] & E & E2). injection E2 as <- <-.
    apply IH in E as (k & -> & _ & Hk). exists k. split; [done|]. split; [done|]. done.
Qed.

Lemma parse_octets_range octets bytes :
  parse_octets octets = Ok bytes → length bytes = length octets ∧ Forall (fun b => 0 ≤ b < 256)%Z bytes.
Proof.
  revert bytes. induction octets as [|o octets IH]; intros bytes; cbn [parse_octets].
  { intros [= <-]. by split; [|constructor]. }
  intros E. apply rbind_Ok in E as (b & Hb & E). apply rbind_Ok in E as (bs & Hbs & E). injection E as <-.
  apply IH in Hbs as [Hl Hf]. split; [cbn; lia|]. constructor; [|done]. unfold ok_or in Hb.
  destruct (parse_uint U8_MAX o) as [v|] eqn:Ev; [|done]. injection Hb as <-.
  apply parse_uint_range in Ev; [|done]. unfold U8_MAX in Ev. lia.
Qed.

Lemma from_octets_range bytes : Forall (fun b => 0 ≤ b < 256)%Z bytes → (0 ≤ from_octets bytes < 2 ^ 32)%Z.
Proof.
  intros Hf. unfold from_octets. assert (Forall (fun b => 0 ≤ b < 256)%Z (take 4 (bytes ++ replicate 4 0%Z))) as Ht.
  { apply Forall_take, Forall_app. split; [done|]. apply Forall_replicate. lia. }
  assert (length (take 4 (bytes ++ replicate 4 0%Z)) = 4) as Hl by (rewrite length_take, length_app, length_replicate; lia).
  destruct (take 4 _) as [|a [|b [|c [|d [|]]]]]; try done. rewrite !Forall_cons in Ht. cbn. lia.
Qed.

Lemma cidr_parse_block s c :
  cidr_parse s = Ok c → ∃ a prefix, ip_wf a ∧ (0 ≤ prefix ≤ width_of a)%Z ∧ c = block_of a prefix ∧
    ip_from_str (trim (match split_once "/" s with Some (t, _) => t | None => s end)) = Some a ∧
    match split_once "/" s with
    | Some (_, p) => parse_uint U8_MAX (trim p) = Some prefix
    | None => prefix = width_of a
    end.
Proof.
  unfold cidr_parse. destruct (split_once "/" s) as [[t p]|]; intros E; apply rbind_Ok in E as (ip & Hip & E);
    unfold ok_or in Hip; destruct (ip_from_str _) as [a|] eqn:Ea; try done; injection Hip as <-;
    pose proof (ip_from_str_wf _ _ Ea) as Hwf; destruct a as [a|a]; apply rbind_Ok in E as (prefix & Hp & E); injection E as <-;
    unfold parse_prefix in Hp; apply rbind_Ok in Hp as (q & Hq & Hp).
  all: match goal with |- context [block_of] => eexists (_ a), prefix; split; [exact Hwf|] end; cbn [width_of block_of].
  1, 2: destruct (parse_uint U8_MAX (trim p)) as [v|] eqn:Ev; [|done]; cbn [ok_or] in Hq; injection Hq as <-;
    pose proof (parse_uint_range U8_MAX _ _ ltac:(done) Ev);
    match type of Hp with context [(?w <? _)%Z] => destruct (Z.ltb_spec w v); [done|] end; injection Hp as <-; split; [lia|done].
  all: injection Hq as <-; cbn in Hp; injection Hp as <-; split; [lia|done].
Qed.

Lemma strict_denotes :
  ∀ s c, cidr_parse s = Ok c → ∃ a prefix,
     ip_from_str (trim (match split_once "/" s with Some (t, _) => t | None => s end)) = Some a ∧
     match split_once "/" s with
     | Some (_, p) => parse_uint U8_MAX (trim p) = Some prefix
     | None => prefix = width_of a
     end ∧ ∀ ip, ip_wf ip → cidr_contains c ip = true ↔ agree prefix a ip.
Proof.
  intros s c E. apply cidr_parse_block in E as (a & prefix & Hwf & Hp & -> & Ha & Hq). exists a, prefix.
  split; [done|]. split; [done|]. intros ip Hi. by apply contains_block.
Qed.

Lemma range_denotes :
  ∀ lo hi c, parse_range_friendly lo hi = Ok c → ∃ a b,
     ipv4_from_str lo = Some a ∧ ipv4_from_str hi = Some b ∧
     ∀ ip, ip_wf ip → cidr_contains c ip = true ↔ ∃ x, ip = V4 x ∧ (a ≤ x ≤ b)%Z.
Proof.
  intros lo hi c. unfold parse_range_friendly. destruct (_ || _); [done|]. destruct (_ || _); [done|].
  intros E. apply rbind_Ok in E as (a & Ha & E). apply rbind_Ok in E as (b & Hb & E). unfold ok_or in Ha, Hb.
  destruct (ipv4_from_str lo) as [a'|] eqn:Ela; [|done]. destruct (ipv4_from_str hi) as [b'|] eqn:Ehb; [|done].
  injection Ha as ->. injection Hb as ->. exists a, b. split; [done|]. split; [done|].
  apply ipv4_from_str_range in Ela, Ehb. destruct (Z.ltb_spec b a) as [|Hab]; [done|].
  set (size := (b - a + 1)%Z) in *. destruct (Z.eqb_spec (Z.land size (size - 1)) 0) as [Hpow|]; [|done]. cbn [negb] in E.
  assert (0 < size)%Z as Hs by (unfold size; lia). apply power_of_two in Hpow; [|done].
  destruct (Z.ltb_spec 32 (Z.log2 size)) as [|Hh]; [done|]. pose proof (Z.log2_nonneg size).
  set (prefix := (32 - Z.log2 size)%Z) in *. destruct (Z.eqb_spec (Z.land a (v4_mask prefix)) a) as [Hal|]; [|done].
  cbn [negb] in E. rewrite cidr_parse_show in E by lia. assert (c = block_of (V4 a) prefix) as -> by congruence. intros ip Hi.
  rewrite contains_block by (done || cbn; lia). unfold v4_mask in Hal. rewrite mask_land in Hal by lia.
  destruct ip as [x|x]; cbn [agree]; [|by split; [done|intros (? & ? & _)]]. rewrite leading_eq by lia.
  rewrite Z.mul_add_distr_r, Hal, Z.mul_1_l. replace (32 - prefix)%Z with (Z.log2 size) by lia. rewrite <-Hpow.
  unfold size. split; [intros ?; exists x; split; [done|lia]|]. intros (y & [= <-] & ?). lia.
Qed.

Lemma wildcard_denotes :
  ∀ s c, parse_wildcard_friendly s = Ok c → ∃ octets bytes k,
     split "." s = octets ++ replicate k (lit "*") ∧ parse_octets octets = Ok bytes ∧ length octets + k = 4 ∧ 0 < k ∧
     ∀ ip, ip_wf ip → cidr_contains c ip = true ↔ agree (8 * Z.of_nat (length octets)) (V4 (from_octets bytes)) ip.
Proof.
  intros s c. unfold parse_wildcard_friendly. destruct (contains _ _); [done|].
  destruct (Nat.eqb_spec (length (split "." s)) 4) as [Hl|]; [|done]. cbn [negb].
  intros E. apply rbind_Ok in E as ([num any] & Hn & E). apply numeric_prefix_spec in Hn as (k & Hs & _ & Hk).
  destruct any; [|done]. cbn [negb] in E. destruct (Nat.eqb_spec (length num) 0); [done|].
  apply rbind_Ok in E as (bytes & Hb & E). destruct (parse_octets_range _ _ Hb) as [_ Hf].
  apply from_octets_range in Hf. destruct (Hk eq_refl) as [|Hk']; [done|].
  rewrite Hs, length_app, length_replicate in Hl. rewrite cidr_parse_show in E by lia. injection E as <-.
  exists num, bytes, k. split_and!; try done. intros ip Hi. rewrite Z.mul_comm.
  apply (contains_block (V4 (from_octets bytes)) (8 * Z.of_nat (length num))); cbn; [done..|lia].
Qed.

Lemma mapped_denotes :
  ∀ cs a, (0 ≤ a < 2 ^ 32)%Z → any_contains cs (V6 (65535 * 2 ^ 32 + a)) = any_contains cs (V4 a).
Proof.
  intros cs a Ha. unfold any_contains. cbn [canonical_ip]. unfold to_ipv4_mapped.
  rewrite Z.shiftr_div_pow2 by lia. replace ((65535 * 2 ^ 32 + a) / 2 ^ 32)%Z with 65535%Z by (Z.to_euclidean_division_equations; lia).
  cbn [Z.eqb Pos.eqb]. by replace ((65535 * 2 ^ 32 + a) mod 2 ^ 32)%Z with a by (Z.to_euclidean_division_equations; lia).
Qed.

(** The text of a block denotes the addresses it says.  A strict block
    contains exactly the addresses of its family that agree with its address on
    the bits of the prefix; a range in the friendly form contains exactly the
    IPv4 addresses from its first to its last; a wildcard form exactly those
    with the octets it spells out.  An access list treats an IPv4-mapped
    address as the IPv4 address it carries. *)
Theorem cidr_denotes :
  (∀ s c, cidr_parse s = Ok c → ∃ a prefix,
     ip_from_str (trim (match split_once "/" s with Some (t, _) => t | None => s end)) = Some a ∧
     match split_once "/" s with
     | Some (_, p) => parse_uint U8_MAX (trim p) = Some prefix
     | None => prefix = width_of a
     end ∧ ∀ ip, ip_wf ip → cidr_contains c ip = true ↔ agree prefix a ip) ∧
  (∀ lo hi c, parse_range_friendly lo hi = Ok c → ∃ a b,
     ipv4_from_str lo = Some a ∧ ipv4_from_str hi = Some b ∧
     ∀ ip, ip_wf ip → cidr_contains c ip = true ↔ ∃ x, ip = V4 x ∧ (a ≤ x ≤ b)%Z) ∧
  (∀ s c, parse_wildcard_friendly s = Ok c → ∃ octets bytes k,
     split "." s = octets ++ replicate k (lit "*") ∧ parse_octets octets = Ok bytes ∧ length octets + k = 4 ∧ 0 < k ∧
     ∀ ip, ip_wf ip → cidr_contains c ip = true ↔ agree (8 * Z.of_nat (length octets)) (V4 (from_octets bytes)) ip) ∧
  (∀ cs a, (0 ≤ a < 2 ^ 32)%Z → any_contains cs (V6 (65535 * 2 ^ 32 + a)) = any_contains cs (V4 a)).
Proof. split_and!; [apply strict_denotes|apply range_denotes|apply wildcard_denotes|apply mapped_denotes]. Qed.
