(* ===== verification/Resolver.v ===== *)
(** * Which policy a client gets: [src/profiles/resolver.rs]

    The configuration is compiled into indexes, and a source address is
    resolved through five levels: schedule, device, group, subnet, default.
    The clock and the ARP table are arguments; log lines are left out. *)

From S2P Require Import Prelude RustStr SortedSlice DnsTypes Domain Rules Evaluator Shard Decision Limits Admission Ast Compiler Engine CustomList Profile Schedule Cidr.

(** ** Configuration *)

Definition to_upper (a : ascii) : ascii :=
  if is_ascii_lowercase a then ascii_of_N (Z.to_N (byte a - 32)) else a.

Definition to_ascii_uppercase (s : str) : str := map to_upper s.

(** [Device], without the fields only people read and the rule overlay. *)
Record Device := {
  dev_id : str;
  dev_display_name : str;
  dev_ip : option IpAddr;
  dev_mac : option str;
  dev_mac_aliases : list str;
  dev_profile : option str;
  dev_groups : list str;
  dev_unfiltered : bool;
  dev_network_name : option str;
  dev_network_name_wildcard : bool;
}.

Record Group := { gr_id : str; gr_profile : str; gr_priority : Z; gr_devices : list str }.

Record Subnet := { sn_id : str; sn_cidrs : list str; sn_profile : str; sn_priority : Z }.

Inductive ScheduleTargetType := TargetDevice | TargetGroup.

Record ScheduleRow := {
  sch_id : str;
  sch_target_type : ScheduleTargetType;
  sch_target_id : str;
  sch_profile : str;
  sch_days : list str;
  sch_hours : str;
  sch_expires_at : option Z;
}.

(** [ConfigV1] as the resolver reads it: the profile table in key order, the
    administrator rules by id, the custom lists as the compiled store that is
    passed beside it, and the two [server] fields. *)
Record ConfigV1 := {
  cf_profiles : list (str * ProfileConfig);
  cf_admin_rules : gmap str str;
  cf_custom_lists : gmap str CompiledCustomList;
  cf_devices : list Device;
  cf_groups : list Group;
  cf_subnets : list Subnet;
  cf_schedules : list ScheduleRow;
  cf_blocklist_ids : list str;
  cf_default_profile : option str;
  cf_enforce_device_mac : bool;
}.

(** [ParsedSchedule::parse_v1]. *)
Definition parse_v1 (s : ScheduleRow) : option ParsedSchedule :=
  parse_schedule {| sc_client := sch_target_id s; sc_profile := sch_profile s; sc_days := sch_days s;
                    sc_hours := sch_hours s; sc_expires_at := sch_expires_at s |}.

(** The instant of a build: UTC for expiries, and the local weekday and time. *)
Record Clock := { ck_utc : Z; ck_weekday : Z; ck_hour : Z; ck_minute : Z }.

Definition active_now (now : Clock) (s : ParsedSchedule) : bool :=
  is_active s (ck_utc now) (ck_weekday now) (ck_hour now) (ck_minute now).

Section Resolver.
Context {RC : RegexCrate} {RP : RegexPrograms}.

(** ** The indexes *)

Definition unfiltered_variant (d : Device) (base : ResolvedProfile) : ResolvedProfile :=
  if dev_unfiltered d then as_unfiltered base else base.

Record ProfilePair := { pp_filtered : ResolvedProfile; pp_unfiltered : ResolvedProfile }.

Definition pair_new (filtered : ResolvedProfile) : ProfilePair :=
  {| pp_filtered := filtered; pp_unfiltered := as_unfiltered filtered |}.

Definition pick (p : ProfilePair) (unfiltered : bool) : ResolvedProfile :=
  if unfiltered then pp_unfiltered p else pp_filtered p.

Record DeviceIndex := {
  ix_id : str;
  ix_display_name : str;
  ix_configured_ip : option IpAddr;
  ix_mac_pin : option str;
  ix_mac_aliases : list str;
  ix_direct_profile : option ResolvedProfile;
  ix_unfiltered : bool;
  ix_network_name : option str;
  ix_network_name_wildcard : bool;
}.

Record GroupMatch := { gm_id : str; gm_priority : Z; gm_profile : ResolvedProfile }.

Record SubnetMatch := { sm_id : str; sm_cidr : Cidr; sm_prefix : Z; sm_priority : Z; sm_profile : ProfilePair }.

Record ScheduleMatch := { scm_id : str; scm_parsed : ParsedSchedule; scm_profile : ResolvedProfile }.

Record ResolverMap := {
  rm_generation : Z;
  rm_profiles : gmap str ResolvedProfile;
  rm_devices_by_ip : gmap IpAddr DeviceIndex;
  rm_devices_by_mac : gmap str DeviceIndex;
  rm_devices_by_id : gmap str DeviceIndex;
  rm_device_groups : gmap str (list GroupMatch);
  rm_subnets : list SubnetMatch;
  rm_active_schedule_by_device : gmap str ScheduleMatch;
  rm_default_profile : option ProfilePair;
  rm_enforce_mac : bool;
  rm_slug_to_id : gmap str str;
  rm_network_names : gmap str str;
  rm_network_name_wildcards : list (str * str);
}.

(** *** Profiles *)

(** One configured profile.  With a compiled snapshot, a profile it omits is
    skipped, so that nothing resolves to it. *)
Definition add_profile (cfg : ConfigV1) (rules : option CompiledOperatorRules)
    (profiles : gmap str ResolvedProfile) (entry : str * ProfileConfig) : gmap str ResolvedProfile :=
  match Id_new entry.1 with
  | Err _ => profiles
  | Ok id =>
    let resolved := build_v1 id entry.2 (cf_admin_rules cfg) (cf_custom_lists cfg) in
    match rules with
    | None => <[id := resolved]> profiles
    | Some rules =>
      match bind_operator_rules resolved rules with
      | Some bound =>
        match rp_operator_rules bound with
        | Some _ => <[id := bound]> profiles
        | None => profiles
        end
      | None => profiles
      end
    end
  end.

Definition resolve_profiles (cfg : ConfigV1) (rules : option CompiledOperatorRules) : gmap str ResolvedProfile :=
  foldl (add_profile cfg rules) ∅ (cf_profiles cfg).

(** *** Devices *)

Record DeviceMaps := {
  dm_by_ip : gmap IpAddr DeviceIndex;
  dm_by_mac : gmap str DeviceIndex;
  dm_by_id : gmap str DeviceIndex;
  dm_names : gmap str str;
  dm_wildcards : list (str * str);
}.

Definition no_devices : DeviceMaps :=
  {| dm_by_ip := ∅; dm_by_mac := ∅; dm_by_id := ∅; dm_names := ∅; dm_wildcards := [] |}.

Definition mac_pin (d : Device) : option str := to_ascii_uppercase <$> dev_mac d.
Definition mac_aliases (d : Device) : list str := map to_ascii_uppercase (dev_mac_aliases d).

(** Every MAC the device owns, the pin first. *)
Definition macs (d : Device) : list str := option_list (mac_pin d) ++ mac_aliases d.

Definition index_device (profiles : gmap str ResolvedProfile) (d : Device) : DeviceIndex :=
  {| ix_id := dev_id d; ix_display_name := dev_display_name d; ix_configured_ip := dev_ip d;
     ix_mac_pin := mac_pin d; ix_mac_aliases := mac_aliases d;
     ix_direct_profile := dev_profile d ≫= fun pid => unfiltered_variant d <$> profiles !! pid;
     ix_unfiltered := dev_unfiltered d;
     ix_network_name := to_ascii_lowercase <$> dev_network_name d;
     ix_network_name_wildcard := dev_network_name_wildcard d |}.

(** [arp_ips_by_mac]: the addresses a MAC answers at. *)
Definition arp_ips (arp : gmap IpAddr str) (mac : str) : list IpAddr :=
  map fst (filter (fun e => e.2 = mac) (map_to_list arp)).

(** [register_arp_ips]: an address that is taken stays as it is. *)
Definition register_ip (ix : DeviceIndex) (by_ip : gmap IpAddr DeviceIndex) (arp_ip : IpAddr) : gmap IpAddr DeviceIndex :=
  match by_ip !! canonical_ip arp_ip with
  | Some _ => by_ip
  | None => <[canonical_ip arp_ip := ix]> by_ip
  end.

Definition register_arp_ips (arp : gmap IpAddr str) (ix : DeviceIndex) (by_ip : gmap IpAddr DeviceIndex) (mac : str)
  : gmap IpAddr DeviceIndex :=
  foldl (register_ip ix) by_ip (arp_ips arp mac).

Definition add_device (profiles : gmap str ResolvedProfile) (arp : gmap IpAddr str) (st : DeviceMaps) (d : Device)
  : DeviceMaps :=
  let ix := index_device profiles d in
  let by_ip := match dev_ip d with Some ip => <[canonical_ip ip := ix]> (dm_by_ip st) | None => dm_by_ip st end in
  {| dm_by_ip := foldl (register_arp_ips arp ix) by_ip (macs d);
     dm_by_mac := foldl (fun m mac => <[mac := ix]> m) (dm_by_mac st) (macs d);
     dm_by_id := <[dev_id d := ix]> (dm_by_id st);
     dm_names := match ix_network_name ix with Some name => <[name := dev_id d]> (dm_names st) | None => dm_names st end;
     dm_wildcards := match ix_network_name ix with
                     | Some name => if dev_network_name_wildcard d then dm_wildcards st ++ [(name, dev_id d)] else dm_wildcards st
                     | None => dm_wildcards st
                     end |}.

Definition index_devices (cfg : ConfigV1) (profiles : gmap str ResolvedProfile) (arp : gmap IpAddr str) : DeviceMaps :=
  foldl (add_device profiles arp) no_devices (cf_devices cfg).

(** [sort_by_key(Reverse(dots))]. *)
Definition dots (name : str) : nat := length (filter (fun c => c = "."%char) name).

Definition sort_wildcards (l : list (str * str)) : list (str * str) := sort_by (fun a b => dots b.1 <=? dots a.1) l.

(** *** Groups *)

(** A [HashMap] collected from rows keeps the last row of a key. *)
Definition collect {A} (key : A → str) (rows : list A) : gmap str A := foldl (fun m x => <[key x := x]> m) ∅ rows.

Definition push_group (id : str) (g : GroupMatch) (groups : gmap str (list GroupMatch)) : gmap str (list GroupMatch) :=
  <[id := default [] (groups !! id) ++ [g]]> groups.

(** The memberships the device rows state. *)
Definition join_own (cfg : ConfigV1) (profiles : gmap str ResolvedProfile) (d : Device)
    (groups : gmap str (list GroupMatch)) (gid : str) : gmap str (list GroupMatch) :=
  match collect gr_id (cf_groups cfg) !! gid with
  | Some g =>
    match profiles !! gr_profile g with
    | Some p => push_group (dev_id d)
                  {| gm_id := gr_id g; gm_priority := gr_priority g; gm_profile := unfiltered_variant d p |} groups
    | None => groups
    end
  | None => groups
  end.

(** The memberships the group rows state, unless they are there already. *)
Definition join_listed (cfg : ConfigV1) (g : Group) (p : ResolvedProfile)
    (groups : gmap str (list GroupMatch)) (id : str) : gmap str (list GroupMatch) :=
  if existsb (fun m => bool_decide (gm_id m = gr_id g)) (default [] (groups !! id)) then groups
  else push_group id
         {| gm_id := gr_id g; gm_priority := gr_priority g;
            gm_profile := match collect dev_id (cf_devices cfg) !! id with
                          | Some d => unfiltered_variant d p
                          | None => p
                          end |} groups.

(** Priority descending, then id ascending. *)
Definition group_le (a b : GroupMatch) : bool :=
  (gm_priority b <? gm_priority a)%Z
  || (gm_priority a =? gm_priority b)%Z && bool_decide (str_cmp (gm_id a) (gm_id b) ≠ Gt).

Definition index_groups (cfg : ConfigV1) (profiles : gmap str ResolvedProfile) : gmap str (list GroupMatch) :=
  let own := foldl (fun groups d => foldl (join_own cfg profiles d) groups (dev_groups d)) ∅ (cf_devices cfg) in
  let all := foldl (fun groups g => match profiles !! gr_profile g with
                                    | None => groups
                                    | Some p => foldl (join_listed cfg g p) groups (gr_devices g)
                                    end) own (cf_groups cfg) in
  sort_by group_le <$> all.

(** *** Subnets *)

Definition cidr_prefix_len (c : Cidr) : Z := match c with CV4 _ p | CV6 _ p => p end.

(** One block; an unparsable one is skipped. *)
Definition subnet_match (sn : Subnet) (p : ResolvedProfile) (text : str) : option SubnetMatch :=
  match cidr_parse text with
  | Ok c => Some {| sm_id := sn_id sn; sm_cidr := c; sm_prefix := cidr_prefix_len c; sm_priority := sn_priority sn;
                    sm_profile := pair_new p |}
  | Err _ => None
  end.

(** Longest prefix first, then priority descending, then id ascending. *)
Definition subnet_le (a b : SubnetMatch) : bool :=
  (sm_prefix b <? sm_prefix a)%Z
  || (sm_prefix a =? sm_prefix b)%Z
     && ((sm_priority b <? sm_priority a)%Z
         || (sm_priority a =? sm_priority b)%Z && bool_decide (str_cmp (sm_id a) (sm_id b) ≠ Gt)).

Definition subnet_matches (profiles : gmap str ResolvedProfile) (sn : Subnet) : list SubnetMatch :=
  match profiles !! sn_profile sn with
  | None => []
  | Some p => omap (subnet_match sn p) (sn_cidrs sn)
  end.

Definition index_subnets (cfg : ConfigV1) (profiles : gmap str ResolvedProfile) : list SubnetMatch :=
  sort_by subnet_le (concat (map (subnet_matches profiles) (cf_subnets cfg))).

(** *** Schedules *)

(** The rows of one target with a known profile and a parsable window, in file
    order. *)
Definition schedule_match (profiles : gmap str ResolvedProfile) (s : ScheduleRow) : option ScheduleMatch :=
  p ← profiles !! sch_profile s;
  parsed ← parse_v1 s;
  Some {| scm_id := sch_id s; scm_parsed := parsed; scm_profile := p |}.

Definition is_device_target (s : ScheduleRow) : bool :=
  match sch_target_type s with TargetDevice => true | TargetGroup => false end.

Definition schedules_for (cfg : ConfigV1) (profiles : gmap str ResolvedProfile) (device : bool) (id : str)
  : list ScheduleMatch :=
  omap (fun s => if bool_decide (is_device_target s = device ∧ sch_target_id s = id) then schedule_match profiles s else None)
    (cf_schedules cfg).

Fixpoint find_map {A B} (f : A → option B) (l : list A) : option B :=
  match l with
  | [] => None
  | x :: l => match f x with Some y => Some y | None => find_map f l end
  end.

Definition first_active (now : Clock) (l : list ScheduleMatch) : option ScheduleMatch :=
  List.find (fun s => active_now now (scm_parsed s)) l.

(** [compute_active_schedules] for one device: its own schedules, then those of
    its groups in priority order. *)
Definition active_schedule (cfg : ConfigV1) (profiles : gmap str ResolvedProfile) (groups : gmap str (list GroupMatch))
    (now : Clock) (id : str) : option ScheduleMatch :=
  match first_active now (schedules_for cfg profiles true id) with
  | Some s => Some s
  | None => groups !! id ≫= find_map (fun gm => first_active now (schedules_for cfg profiles false (gm_id gm)))
  end.

(** The profile of a schedule, in the variant of the device. *)
Definition specialise (cfg : ConfigV1) (id : str) (s : ScheduleMatch) : ScheduleMatch :=
  match collect dev_id (cf_devices cfg) !! id with
  | Some d => {| scm_id := scm_id s; scm_parsed := scm_parsed s; scm_profile := unfiltered_variant d (scm_profile s) |}
  | None => s
  end.

Definition active_schedules (cfg : ConfigV1) (profiles : gmap str ResolvedProfile) (groups : gmap str (list GroupMatch))
    (devices_by_id : gmap str DeviceIndex) (now : Clock) : gmap str ScheduleMatch :=
  map_imap (fun id _ => specialise cfg id <$> active_schedule cfg profiles groups now id) devices_by_id.

(** *** The bridge from list slugs to ids *)

Definition add_slug (m : gmap str str) (id : str) : gmap str str :=
  let m := <[id := id]> m in
  match split_once "-" id with
  | Some (scope, topic) => <[scope ++ "/"%char :: topic := id]> m
  | None => m
  end.

Definition build_slug_to_id_map (cfg : ConfigV1) : gmap str str := foldl add_slug ∅ (cf_blocklist_ids cfg).

(** *** [build_resolver_map] *)

Definition build_resolver_map (cfg : ConfigV1) (rules : option CompiledOperatorRules) (generation : Z)
    (arp : gmap IpAddr str) (now : Clock) : ResolverMap :=
  let profiles := resolve_profiles cfg rules in
  let devices := index_devices cfg profiles arp in
  let groups := index_groups cfg profiles in
  {| rm_generation := generation;
     rm_profiles := profiles;
     rm_devices_by_ip := dm_by_ip devices;
     rm_devices_by_mac := dm_by_mac devices;
     rm_devices_by_id := dm_by_id devices;
     rm_device_groups := groups;
     rm_subnets := index_subnets cfg profiles;
     rm_active_schedule_by_device := active_schedules cfg profiles groups (dm_by_id devices) now;
     rm_default_profile := pair_new <$> (cf_default_profile cfg ≫= fun id => profiles !! id);
     rm_enforce_mac := cf_enforce_device_mac cfg;
     rm_slug_to_id := build_slug_to_id_map cfg;
     rm_network_names := dm_names devices;
     rm_network_name_wildcards := sort_wildcards (dm_wildcards devices) |}.

(** ** The throttle of the mismatch warning *)

Definition MAC_MISMATCH_WARN_WINDOW : Z := 60.

(** [MacMismatchRing::should_warn]: eight slots of a hash and a second; [h] is
    the hash of the pair and [now_secs] counts from the ring's epoch. *)
Definition should_warn (slots : list Z) (h now_secs : Z) : list Z * bool :=
  let idx := Z.to_nat (Z.land h 7) in
  let hash_high := as_u32 (Z.shiftr h 32) in
  let now_secs := as_u32 now_secs in
  let prev := default 0%Z (slots !! idx) in
  let prev_hash := as_u32 (Z.shiftr prev 32) in
  let prev_secs := as_u32 (Z.land prev U32_MAX) in
  if (prev_hash =? hash_high)%Z && (saturating_sub now_secs prev_secs <? MAC_MISMATCH_WARN_WINDOW)%Z
  then (slots, false)
  else (<[idx := Z.lor (Z.shiftl hash_high 32) now_secs]> slots, true).

Definition ring_new : list Z := replicate 8 0%Z.

(** ** Resolution *)

Inductive ResolveLevel := LvlDeviceDirect | LvlSchedule | LvlGroup | LvlSubnet | LvlGlobalDefault.

Record Resolution := {
  res_profile : option ResolvedProfile;
  res_level : option ResolveLevel;
  res_device_id : option str;
  res_device_name : option str;
  res_matched_group : option str;
  res_matched_subnet : option str;
  res_matched_schedule : option str;
  res_policy_generation : Z;
}.

Definition refused (generation : Z) : Resolution :=
  {| res_profile := None; res_level := None; res_device_id := None; res_device_name := None;
     res_matched_group := None; res_matched_subnet := None; res_matched_schedule := None;
     res_policy_generation := generation |}.

(** [hash_pair], the SipHash of the standard library; only the slot it picks
    depends on it. *)
Context (hash_pair : IpAddr → str → Z).

Definition NO_MAC_PIN : str := lit "<no-mac-pin>".

(** The device behind an address, and the ring after a warning was considered. *)
Definition device_candidate (rm : ResolverMap) (arp : gmap IpAddr str) (slots : list Z) (now_secs : Z) (ip : IpAddr)
  : list Z * option DeviceIndex :=
  match rm_devices_by_ip rm !! ip with
  | Some dev =>
    match ix_mac_pin dev with
    | Some pin =>
      if rm_enforce_mac rm then
        match arp !! ip with
        | Some current =>
          if bool_decide (current = pin) then (slots, Some dev)
          else ((should_warn slots (hash_pair ip current) now_secs).1, None)
        | None => (slots, Some dev)
        end
      else (slots, Some dev)
    | None =>
      if rm_enforce_mac rm then ((should_warn slots (hash_pair ip NO_MAC_PIN) now_secs).1, None)
      else (slots, Some dev)
    end
  | None => (slots, arp !! ip ≫= fun mac => rm_devices_by_mac rm !! mac)
  end.

(** Levels 1 to 3 for a device that was identified. *)
Definition device_level (rm : ResolverMap) (dev : DeviceIndex) : option Resolution :=
  match rm_active_schedule_by_device rm !! ix_id dev with
  | Some s =>
    Some {| res_profile := Some (scm_profile s); res_level := Some LvlSchedule; res_device_id := Some (ix_id dev);
            res_device_name := Some (ix_display_name dev); res_matched_group := None; res_matched_subnet := None;
            res_matched_schedule := Some (scm_id s); res_policy_generation := rm_generation rm |}
  | None =>
    match ix_direct_profile dev with
    | Some p =>
      Some {| res_profile := Some p; res_level := Some LvlDeviceDirect; res_device_id := Some (ix_id dev);
              res_device_name := Some (ix_display_name dev); res_matched_group := None; res_matched_subnet := None;
              res_matched_schedule := None; res_policy_generation := rm_generation rm |}
    | None =>
      first ← (rm_device_groups rm !! ix_id dev ≫= head);
      Some {| res_profile := Some (gm_profile first); res_level := Some LvlGroup; res_device_id := Some (ix_id dev);
              res_device_name := Some (ix_display_name dev); res_matched_group := Some (gm_id first);
              res_matched_subnet := None; res_matched_schedule := None; res_policy_generation := rm_generation rm |}
    end
  end.

(** Levels 4 and 5, which any client may reach. *)
Definition network_level (rm : ResolverMap) (candidate : option DeviceIndex) (ip : IpAddr) : Resolution :=
  let unfiltered_device := match candidate with Some d => ix_unfiltered d | None => false end in
  let at_level p level subnet :=
    {| res_profile := Some (pick p unfiltered_device); res_level := Some level; res_device_id := ix_id <$> candidate;
       res_device_name := ix_display_name <$> candidate; res_matched_group := None; res_matched_subnet := subnet;
       res_matched_schedule := None; res_policy_generation := rm_generation rm |} in
  match List.find (fun sn => cidr_contains (sm_cidr sn) ip) (rm_subnets rm) with
  | Some sn => at_level (sm_profile sn) LvlSubnet (Some (sm_id sn))
  | None =>
    match rm_default_profile rm with
    | Some p => at_level p LvlGlobalDefault None
    | None => refused (rm_generation rm)
    end
  end.

(** [ProfileResolver::resolve]. *)
Definition resolve_client (rm : ResolverMap) (arp : gmap IpAddr str) (slots : list Z) (now_secs : Z) (source : IpAddr)
  : list Z * Resolution :=
  let ip := canonical_ip source in
  let '(slots, candidate) := device_candidate rm arp slots now_secs ip in
  (slots, match candidate ≫= device_level rm with
          | Some r => r
          | None => network_level rm candidate ip
          end).

(** ** Other lookups *)

Definition device_name (rm : ResolverMap) (ip : IpAddr) : option str :=
  ix_display_name <$> rm_devices_by_ip rm !! canonical_ip ip.

Definition default_profile (rm : ResolverMap) : option ResolvedProfile := pp_filtered <$> rm_default_profile rm.

Definition id_for_slug (rm : ResolverMap) (slug : str) : option str := rm_slug_to_id rm !! slug.

(** The walk over the wildcard apexes, one label at a time. *)
Fixpoint find_wildcard (wildcards : list (str * str)) (name : str) : option str :=
  match name with
  | [] => None
  | c :: rest =>
    if Ascii.eqb c "." then
      match List.find (fun w => bool_decide (w.1 = rest)) wildcards with
      | Some w => Some w.2
      | None => find_wildcard wildcards rest
      end
    else find_wildcard wildcards rest
  end.

Definition network_name_device_id (rm : ResolverMap) (qname_lower : str) : option str :=
  match rm_network_names rm !! qname_lower with
  | Some id => Some id
  | None => find_wildcard (rm_network_name_wildcards rm) qname_lower
  end.

(** [Ord] of [IpAddr]: IPv4 before IPv6. *)
Definition ip_le (a b : IpAddr) : bool :=
  match a, b with
  | V4 x, V4 y | V6 x, V6 y => (x <=? y)%Z
  | V4 _, V6 _ => true
  | V6 _, V4 _ => false
  end.

Definition resolve_network_name (rm : ResolverMap) (arp : gmap IpAddr str) (qname : str) : option IpAddr :=
  id ← network_name_device_id rm (to_ascii_lowercase qname);
  dev ← rm_devices_by_id rm !! id;
  match ix_configured_ip dev with
  | Some ip => Some ip
  | None => head (sort_by ip_le (concat (map (arp_ips arp) (option_list (ix_mac_pin dev) ++ ix_mac_aliases dev))))
  end.

Definition network_name_is_configured (rm : ResolverMap) (qname : str) : bool :=
  match network_name_device_id rm (to_ascii_lowercase qname) with Some _ => true | None => false end.

(** [effective_profile_name]: the levels without the schedule, for display. *)
Definition effective_profile_name (ix : DeviceIndex) (rm : ResolverMap) : str :=
  match ix_direct_profile ix with
  | Some p => rp_name p
  | None =>
    match rm_device_groups rm !! ix_id ix ≫= head with
    | Some g => rp_name (gm_profile g)
    | None =>
      match ix_configured_ip ix ≫= fun ip =>
              List.find (fun sn => cidr_contains (sm_cidr sn) (canonical_ip ip)) (rm_subnets rm) with
      | Some sn => rp_name (pp_filtered (sm_profile sn))
      | None => match rm_default_profile rm with Some p => rp_name (pp_filtered p) | None => lit "refused" end
      end
    end
  end.

End Resolver.

(** ** The overlay decision *)

Inductive AttribSource := AttribProfile | AttribDevice.

Inductive OverlayDecision :=
| OverlayAllow (source : AttribSource) (override_used : bool)
| OverlayBlock (source : AttribSource)
| FallThrough.

Record LayerHits := { lh_profile_deny : bool; lh_device_allow : bool; lh_device_deny : bool }.

Definition apply_overlay (hits : LayerHits) (override_profile_deny : bool) : OverlayDecision :=
  if lh_device_allow hits && lh_profile_deny hits then
    if override_profile_deny then OverlayAllow AttribDevice true else OverlayBlock AttribProfile
  else if lh_device_deny hits && lh_profile_deny hits then OverlayBlock AttribProfile
  else if lh_device_deny hits then OverlayBlock AttribDevice
  else if lh_device_allow hits then OverlayAllow AttribDevice false
  else FallThrough.
