(* ===== verification/ResolverProofs.v ===== *)
(** * The five levels

    What the indexes hold in terms of the configured rows, and that resolution
    picks the level and the profile the rows say. *)

From S2P Require Import Prelude RustStr SortedSlice DnsTypes Domain Rules Evaluator Shard Decision Limits Admission Ast Compiler CompilerIndex Engine CustomList Profile Schedule Cidr Resolver.

Lemma find_app {A} (f : A → bool) l k :
  List.find f (l ++ k) = match List.find f l with Some x => Some x | None => List.find f k end.
Proof. induction l as [|x l IH]; [done|]. cbn. by destruct (f x). Qed.

Lemma find_Some_elem {A} (f : A → bool) l x : List.find f l = Some x → x ∈ l ∧ f x = true.
Proof. intros E. apply List.find_some in E as [Hin Hf]. by apply list_elem_of_In in Hin. Qed.

Lemma find_None_all {A} (f : A → bool) l : List.find f l = None ↔ ∀ x, x ∈ l → f x = false.
Proof.
  split.
  - intros E x Hx. apply list_elem_of_In in Hx. by apply (List.find_none f l E).
  - intros Hall. destruct (List.find f l) as [x|] eqn:E; [|done]. apply find_Some_elem in E as [Hin Hf].
    apply Hall in Hin. congruence.
Qed.

(** The first hit in a sorted list is the least of all hits. *)
Lemma find_sorted {A} (le : A → A → bool) (f : A → bool) l x :
  (∀ y, le y y = true) → StronglySorted (fun a b => le a b = true) l → List.find f l = Some x →
  ∀ y, y ∈ l → f y = true → le x y = true.
Proof.
  intros Hrefl. induction 1 as [|z l Hs IH Hz]; [done|]. cbn. destruct (f z) eqn:Ez.
  - intros [= ->] y [->|Hy]%elem_of_cons Hf; [done|]. rewrite Forall_forall in Hz. by apply Hz.
  - intros E y [->|Hy]%elem_of_cons Hf; [congruence|]. by apply IH.
Qed.

Definition str_le (a b : str) : bool := bool_decide (str_cmp a b ≠ Gt).

Lemma str_le_iff a b : str_le a b = true ↔ str_lt a b ∨ a = b.
Proof.
  unfold str_le. rewrite bool_decide_eq_true. unfold str_lt. rewrite <-str_cmp_eq.
  destruct (str_cmp a b); naive_solver.
Qed.

(** Lexicographic orders on integers, descending, and strings. *)
Lemma str_le_total a b : str_le a b = true ∨ str_le b a = true.
Proof. rewrite !str_le_iff. destruct (str_lt_total a b) as [?|[?|?]]; auto. Qed.

Lemma str_le_trans a b c : str_le a b = true → str_le b c = true → str_le a c = true.
Proof. rewrite !str_le_iff. intros [?| ->] [?| ->]; auto. left. by transitivity b. Qed.

Section Proofs.
Context {RC : RegexCrate} {RP : RegexPrograms}.

Lemma group_le_spec a b :
  group_le a b = true ↔
  (gm_priority b < gm_priority a)%Z ∨ gm_priority a = gm_priority b ∧ str_le (gm_id a) (gm_id b) = true.
Proof. unfold group_le. fold (str_le (gm_id a) (gm_id b)). rewrite orb_true_iff, andb_true_iff, Z.ltb_lt, Z.eqb_eq. done. Qed.

Lemma group_le_total a b : group_le a b = true ∨ group_le b a = true.
Proof. rewrite !group_le_spec. destruct (str_le_total (gm_id a) (gm_id b)), (Z.lt_trichotomy (gm_priority a) (gm_priority b)) as [?|[?|?]]; auto. Qed.

Lemma group_le_trans a b c : group_le a b = true → group_le b c = true → group_le a c = true.
Proof. rewrite !group_le_spec. intros [?|[??]] [?|[??]]; [left; lia..|right]. split; [lia|by apply str_le_trans with (gm_id b)]. Qed.

Lemma subnet_le_spec a b :
  subnet_le a b = true ↔
  (sm_prefix b < sm_prefix a)%Z ∨ sm_prefix a = sm_prefix b ∧
    ((sm_priority b < sm_priority a)%Z ∨ sm_priority a = sm_priority b ∧ str_le (sm_id a) (sm_id b) = true).
Proof. unfold subnet_le. fold (str_le (sm_id a) (sm_id b)). rewrite orb_true_iff, andb_true_iff, orb_true_iff, andb_true_iff, !Z.ltb_lt, !Z.eqb_eq. done. Qed.

Lemma subnet_le_total a b : subnet_le a b = true ∨ subnet_le b a = true.
Proof. rewrite !subnet_le_spec. destruct (str_le_total (sm_id a) (sm_id b)), (Z.lt_trichotomy (sm_prefix a) (sm_prefix b)) as [?|[?|?]], (Z.lt_trichotomy (sm_priority a) (sm_priority b)) as [?|[?|?]]; auto 6. Qed.

Lemma subnet_le_trans a b c : subnet_le a b = true → subnet_le b c = true → subnet_le a c = true.
Proof. rewrite !subnet_le_spec. intros [?|[? [?|[??]]]] [?|[? [?|[??]]]]; 
    first [left; lia|right; split; [lia|first [left; lia|right; split; [lia|by apply str_le_trans with (sm_id b)]]]]. Qed.

Lemma total_refl {A} (le : A → A → bool) : (∀ a b, le a b = true ∨ le b a = true) → ∀ a, le a a = true.
Proof. intros Ht a. by destruct (Ht a a). Qed.

(** ** Devices *)

Definition pins (ip : IpAddr) (d : Device) : bool := bool_decide (canonical_ip <$> dev_ip d = Some ip).

Definition answers (arp : gmap IpAddr str) (ip : IpAddr) (d : Device) : bool :=
  existsb (fun mac => existsb (fun a => bool_decide (canonical_ip a = ip)) (arp_ips arp mac)) (macs d).

Lemma answers_spec arp ip d :
  answers arp ip d = true ↔ ∃ a mac, arp !! a = Some mac ∧ mac ∈ macs d ∧ canonical_ip a = ip.
Proof.
  unfold answers. rewrite existsb_exists. split.
  - intros (mac & Hm & Ha). apply existsb_exists in Ha as (a & Ha & He). apply bool_decide_eq_true in He.
    unfold arp_ips in Ha. apply in_map_iff in Ha as ([a' mac'] & Hf & Ha). cbn in Hf. subst a'.
    apply list_elem_of_In, list_elem_of_filter in Ha as [Hmac Ha]. cbn in Hmac. subst mac'.
    apply elem_of_map_to_list in Ha. exists a, mac. split_and!; [done| |done]. by apply list_elem_of_In.
  - intros (a & mac & Ha & Hm & Hc). exists mac. split; [by apply list_elem_of_In|]. apply existsb_exists. exists a.
    split; [|by apply bool_decide_eq_true]. unfold arp_ips. apply in_map_iff. exists (a, mac). split; [done|].
    apply list_elem_of_In, list_elem_of_filter. split; [done|]. by apply elem_of_map_to_list.
Qed.

Definition or_else {A} (x y : option A) : option A := match x with Some a => Some a | None => y end.

Lemma register_ips_lookup ix m l ip :
  foldl (register_ip ix) m l !! ip =
  or_else (m !! ip) (if existsb (fun a => bool_decide (canonical_ip a = ip)) l then Some ix else None).
Proof.
  revert m. induction l as [|a l IH]; intros m; cbn [foldl existsb]; [by destruct (m !! ip)|].
  rewrite IH. unfold register_ip. destruct (m !! canonical_ip a) as [x|] eqn:E.
  - case_bool_decide as Ha; cbn [orb]; [|done]. subst ip. by rewrite E.
  - case_bool_decide as Ha; cbn [orb].
    + subst ip. by rewrite lookup_insert_eq, E.
    + by rewrite lookup_insert_ne.
Qed.

Lemma register_all_lookup arp ix m l ip :
  foldl (register_arp_ips arp ix) m l !! ip =
  or_else (m !! ip)
    (if existsb (fun mac => existsb (fun a => bool_decide (canonical_ip a = ip)) (arp_ips arp mac)) l then Some ix else None).
Proof.
  revert m. induction l as [|mac l IH]; intros m; cbn [foldl existsb]; [by destruct (m !! ip)|].
  rewrite IH. unfold register_arp_ips. rewrite register_ips_lookup.
  destruct (m !! ip); [done|]. cbn [or_else]. by destruct (existsb _ (arp_ips arp mac)).
Qed.

(** The row behind an address: the last one pinned to it, otherwise the first
    one with a MAC that answered there when the map was built. *)
Definition row_at (arp : gmap IpAddr str) (devices : list Device) (ip : IpAddr) : option Device :=
  or_else (List.find (pins ip) (rev devices)) (List.find (answers arp ip) devices).

Lemma by_ip_lookup profiles arp devices ip :
  dm_by_ip (foldl (add_device profiles arp) no_devices devices) !! ip = index_device profiles <$> row_at arp devices ip.
Proof.
  unfold row_at. induction devices as [|d devices IH] using rev_ind; [done|].
  rewrite foldl_snoc, rev_app_distr. cbn [rev app add_device dm_by_ip List.find].
  rewrite register_all_lookup. fold (answers arp ip d). rewrite find_app.
  assert ((match dev_ip d with Some ip => <[canonical_ip ip := index_device profiles d]>
        (dm_by_ip (foldl (add_device profiles arp) no_devices devices))
      | None => dm_by_ip (foldl (add_device profiles arp) no_devices devices) end) !! ip =
    if pins ip d then Some (index_device profiles d)
    else dm_by_ip (foldl (add_device profiles arp) no_devices devices) !! ip) as ->.
  { unfold pins. destruct (dev_ip d) as [i|]; cbn [fmap option_fmap option_map].
    - case_bool_decide as Hb; [injection Hb as <-; by rewrite lookup_insert_eq|]. rewrite lookup_insert_ne; [done|congruence].
    - by rewrite bool_decide_eq_false_2. }
  rewrite IH. destruct (pins ip d); [done|]. destruct (List.find (pins ip) (rev devices)); [done|]. cbn [or_else].
  destruct (List.find (answers arp ip) devices); [done|]. cbn. by destruct (answers arp ip d).
Qed.

(** The row a MAC belongs to: the last one that owns it. *)
Definition owner (devices : list Device) (mac : str) : option Device :=
  List.find (fun d => bool_decide (mac ∈ macs d)) (rev devices).

Lemma by_mac_lookup profiles arp devices mac :
  dm_by_mac (foldl (add_device profiles arp) no_devices devices) !! mac = index_device profiles <$> owner devices mac.
Proof.
  unfold owner. induction devices as [|d devices IH] using rev_ind; [done|].
  rewrite foldl_snoc, rev_app_distr. cbn [rev app add_device dm_by_mac List.find].
  assert (∀ l (m : gmap str DeviceIndex), foldl (fun m k => <[k := index_device profiles d]> m) m l !! mac =
    if bool_decide (mac ∈ l) then Some (index_device profiles d) else m !! mac) as ->.
  { induction l as [|k l IHl]; intros m; cbn [foldl].
    - by rewrite bool_decide_eq_false_2 by apply not_elem_of_nil.
    - rewrite IHl. destruct (decide (mac ∈ l)) as [Hin|Hin].
      + rewrite !bool_decide_eq_true_2; [done|by right|done].
      + rewrite (bool_decide_eq_false_2 (mac ∈ l)) by done. destruct (decide (mac = k)) as [->|Hne].
        * rewrite lookup_insert_eq, bool_decide_eq_true_2 by left. done.
        * rewrite lookup_insert_ne by done. rewrite bool_decide_eq_false_2; [done|]. by rewrite elem_of_cons; intros [|]. }
  rewrite IH. by case_bool_decide.
Qed.

Lemma collect_lookup {A} (key : A → str) rows k :
  collect key rows !! k = List.find (fun x => bool_decide (key x = k)) (rev rows).
Proof.
  unfold collect. induction rows as [|x rows IH] using rev_ind; [done|].
  rewrite foldl_snoc, rev_app_distr. cbn [rev app List.find]. case_bool_decide as Hk.
  - by rewrite Hk, lookup_insert_eq.
  - by rewrite lookup_insert_ne.
Qed.

Lemma collect_unique {A} (key : A → str) rows x : NoDup (key <$> rows) → x ∈ rows → collect key rows !! key x = Some x.
Proof.
  intros Hn Hx. rewrite collect_lookup. destruct (List.find _ _) as [y|] eqn:E.
  - apply find_Some_elem in E as [Hy Hk]. apply bool_decide_eq_true in Hk.
    apply list_elem_of_In, in_rev, list_elem_of_In in Hy. f_equal.
    apply list_elem_of_lookup in Hx as [i Hi], Hy as [j Hj].
    assert (i = j) as <-; [|congruence]. apply (NoDup_lookup (key <$> rows) i j (key x)); [done|..];
      rewrite list_lookup_fmap, ?Hi, ?Hj; cbn; congruence.
  - apply find_None_all with (x := x) in E; [by rewrite bool_decide_eq_true_2 in E|].
    by apply list_elem_of_In, in_rev; rewrite rev_involutive; apply list_elem_of_In.
Qed.

Lemma by_id_lookup profiles arp devices id :
  dm_by_id (foldl (add_device profiles arp) no_devices devices) !! id = index_device profiles <$> collect dev_id devices !! id.
Proof.
  unfold collect. induction devices as [|d devices IH] using rev_ind; [done|].
  rewrite !foldl_snoc. cbn [add_device dm_by_id]. destruct (decide (dev_id d = id)) as [<-|Hne].
  - by rewrite !lookup_insert_eq.
  - by rewrite !lookup_insert_ne.
Qed.

(** ** Groups *)

Section Groups.
Context (cfg : ConfigV1) (profiles : gmap str ResolvedProfile).
Context (devices_unique : NoDup (dev_id <$> cf_devices cfg)) (groups_unique : NoDup (gr_id <$> cf_groups cfg)).

Definition member (id : str) (g : Group) : Prop :=
  (∃ d, d ∈ cf_devices cfg ∧ dev_id d = id ∧ gr_id g ∈ dev_groups d) ∨ id ∈ gr_devices g.

(** A group as the device [id] sees it. *)
Definition match_of (id : str) (g : Group) (p : ResolvedProfile) : GroupMatch :=
  {| gm_id := gr_id g; gm_priority := gr_priority g;
     gm_profile := match collect dev_id (cf_devices cfg) !! id with Some d => unfiltered_variant d p | None => p end |}.

Definition in_group (id : str) (m : GroupMatch) : Prop :=
  ∃ g p, g ∈ cf_groups cfg ∧ profiles !! gr_profile g = Some p ∧ member id g ∧ m = match_of id g p.

Definition at_id (groups : gmap str (list GroupMatch)) (id : str) : list GroupMatch := default [] (groups !! id).

Lemma at_push id g groups id' :
  at_id (push_group id g groups) id' = if decide (id = id') then at_id groups id' ++ [g] else at_id groups id'.
Proof.
  unfold at_id, push_group. case_decide as Hd; [subst; by rewrite lookup_insert_eq|by rewrite lookup_insert_ne].
Qed.

(** Memberships found so far, all of them right. *)
Definition sound (groups : gmap str (list GroupMatch)) : Prop := ∀ id m, m ∈ at_id groups id → in_group id m.

Definition extends (groups groups' : gmap str (list GroupMatch)) : Prop := ∀ id m, m ∈ at_id groups id → m ∈ at_id groups' id.

Lemma extends_refl groups : extends groups groups.
Proof. by intros ??. Qed.
#[local] Hint Resolve extends_refl : core.

Lemma push_keeps id m groups : in_group id m → sound groups → sound (push_group id m groups) ∧ extends groups (push_group id m groups).
Proof.
  intros Hm Hs. split; intros id' m'; rewrite at_push; case_decide as Hd; try (by apply Hs); try done.
  - rewrite elem_of_app, list_elem_of_singleton. intros [?| ->]; [by apply Hs|by subst].
  - intros ?. apply elem_of_app. by left.
Qed.

Lemma group_unique g g' : g ∈ cf_groups cfg → g' ∈ cf_groups cfg → gr_id g = gr_id g' → g = g'.
Proof.
  intros Hg Hg' He. pose proof (collect_unique gr_id _ g groups_unique Hg) as E1.
  pose proof (collect_unique gr_id _ g' groups_unique Hg') as E2. congruence.
Qed.

(** One device row and one of its groups. *)
Lemma join_own_step d gid groups :
  d ∈ cf_devices cfg → gid ∈ dev_groups d → sound groups →
  sound (join_own cfg profiles d groups gid) ∧ extends groups (join_own cfg profiles d groups gid) ∧
  ∀ g p, g ∈ cf_groups cfg → gr_id g = gid → profiles !! gr_profile g = Some p →
    match_of (dev_id d) g p ∈ at_id (join_own cfg profiles d groups gid) (dev_id d).
Proof.
  intros Hd Hgid Hs. unfold join_own. destruct (collect gr_id (cf_groups cfg) !! gid) as [g|] eqn:Eg.
  2:{ split_and!; [done..|]. intros g p Hg <- _. by rewrite (collect_unique gr_id _ g groups_unique Hg) in Eg. }
  assert (g ∈ cf_groups cfg ∧ gr_id g = gid) as [Hg Hid].
  { rewrite collect_lookup in Eg. apply find_Some_elem in Eg as [Hin Hk]. apply bool_decide_eq_true in Hk.
    split; [|done]. by apply list_elem_of_In, in_rev, list_elem_of_In in Hin. }
  assert (∀ g' p, g' ∈ cf_groups cfg → gr_id g' = gid → profiles !! gr_profile g' = Some p → profiles !! gr_profile g = Some p ∧ g' = g) as Hsame.
  { intros g' p Hg' Hid' Hp. rewrite (group_unique g' g) in * by congruence. done. }
  destruct (profiles !! gr_profile g) as [p|] eqn:Ep.
  2:{ split_and!; [done..|]. intros g' p Hg' Hid' Hp. by destruct (Hsame g' p Hg' Hid' Hp) as [? _]. }
  assert ({| gm_id := gr_id g; gm_priority := gr_priority g; gm_profile := unfiltered_variant d p |} = match_of (dev_id d) g p) as ->.
  { unfold match_of. by rewrite (collect_unique dev_id _ d devices_unique Hd). }
  destruct (push_keeps (dev_id d) (match_of (dev_id d) g p) groups) as [H1 H2]; [|done|].
  { exists g, p. split_and!; [done|done| |done]. left. exists d. split_and!; [done|done|by rewrite Hid]. }
  split_and!; [done..|]. intros g' p' Hg' Hid' Hp'. destruct (Hsame g' p' Hg' Hid' Hp') as [[= ->] ->].
  rewrite at_push, decide_True by done. apply elem_of_app. right. by apply list_elem_of_singleton.
Qed.

(** One group row and one device it lists. *)
Lemma join_listed_step g p id groups :
  g ∈ cf_groups cfg → profiles !! gr_profile g = Some p → id ∈ gr_devices g → sound groups →
  sound (join_listed cfg g p groups id) ∧ extends groups (join_listed cfg g p groups id) ∧
  match_of id g p ∈ at_id (join_listed cfg g p groups id) id.
Proof.
  intros Hg Hp Hid Hs. unfold join_listed. fold (at_id groups id).
  destruct (existsb _ (at_id groups id)) eqn:Ee.
  - split_and!; [done..|]. apply existsb_exists in Ee as (m & Hm & He). apply list_elem_of_In in Hm.
    apply bool_decide_eq_true in He. destruct (Hs _ _ Hm) as (g' & p' & Hg' & Hp' & _ & ->).
    cbn in He. pose proof (group_unique g' g Hg' Hg He) as ->. by assert (p' = p) as -> by congruence.
  - fold (match_of id g p). destruct (push_keeps id (match_of id g p) groups) as [H1 H2]; [|done|].
    { exists g, p. split_and!; [done|done|by right|done]. }
    split_and!; [done..|]. rewrite at_push, decide_True by done. apply elem_of_app. right. by apply list_elem_of_singleton.
Qed.

(** A fold of steps that keep [sound], extend, and each establish something
    that extending keeps. *)
Lemma fold_steps {A} (f : gmap str (list GroupMatch) → A → gmap str (list GroupMatch)) (Q : A → gmap str (list GroupMatch) → Prop) l :
  (∀ x m m', Q x m → extends m m' → Q x m') →
  (∀ x m, x ∈ l → sound m → sound (f m x) ∧ extends m (f m x) ∧ Q x (f m x)) →
  ∀ m, sound m → sound (foldl f m l) ∧ extends m (foldl f m l) ∧ ∀ x, x ∈ l → Q x (foldl f m l).
Proof.
  intros Hmono. induction l as [|x l IH]; intros Hstep m Hm; cbn [foldl].
  { split; [done|]. split; [done|]. intros x Hx. by apply not_elem_of_nil in Hx. }
  destruct (Hstep x m) as (H1 & H2 & H3); [by left|done|].
  destruct (IH (fun y n Hy => Hstep y n (list_elem_of_further _ _ _ Hy)) _ H1) as (K1 & K2 & K3).
  split; [done|]. split; [intros id g Hg; by apply K2, H2|].
  intros y [->|Hy]%elem_of_cons; [by eapply Hmono|by apply K3].
Qed.

Lemma index_groups_spec id m : m ∈ at_id (index_groups cfg profiles) id ↔ in_group id m.
Proof.
  unfold index_groups. set (own := foldl _ ∅ (cf_devices cfg)). set (all := foldl _ own (cf_groups cfg)).
  assert (at_id (sort_by group_le <$> all) id ≡ₚ at_id all id) as ->.
  { unfold at_id. rewrite lookup_fmap. destruct (all !! id); [|done]. apply sort_by_perm. }
  destruct (fold_steps (fun groups d => foldl (join_own cfg profiles d) groups (dev_groups d))
    (fun d m => ∀ g p, g ∈ cf_groups cfg → gr_id g ∈ dev_groups d → profiles !! gr_profile g = Some p →
       match_of (dev_id d) g p ∈ at_id m (dev_id d)) (cf_devices cfg)) with (m := ∅ : gmap str (list GroupMatch)) as (S1 & _ & Q1).
  { intros d n n' Hq He g p Hg Hin Hp. by apply He, Hq. }
  { intros d n Hd Hn. destruct (fold_steps (join_own cfg profiles d)
      (fun gid m => ∀ g p, g ∈ cf_groups cfg → gr_id g = gid → profiles !! gr_profile g = Some p →
         match_of (dev_id d) g p ∈ at_id m (dev_id d)) (dev_groups d)) with (m := n) as (K1 & K2 & K3); [..|done|].
    - intros gid x x' Hq He g p Hg Hin Hp. by apply He, Hq.
    - intros gid x Hgid Hx. by apply join_own_step.
    - split; [done|]. split; [done|]. intros g p Hg Hin Hp. by apply (K3 (gr_id g)). }
  { intros i x Hx. unfold at_id in Hx. rewrite lookup_empty in Hx. by apply not_elem_of_nil in Hx. }
  fold own in S1, Q1.
  destruct (fold_steps (fun groups g => match profiles !! gr_profile g with
      | None => groups | Some p => foldl (join_listed cfg g p) groups (gr_devices g) end)
    (fun g m => ∀ p i, profiles !! gr_profile g = Some p → i ∈ gr_devices g → match_of i g p ∈ at_id m i) (cf_groups cfg))
    with (m := own) as (S2 & E2 & Q2); [..|done|].
  { intros g n n' Hq He p i Hp Hi. by apply He, Hq. }
  { intros g n Hg Hn. destruct (profiles !! gr_profile g) as [p|] eqn:Ep; [|done].
    destruct (fold_steps (join_listed cfg g p) (fun i m => match_of i g p ∈ at_id m i) (gr_devices g)) with (m := n) as (K1 & K2 & K3); [..|done|].
    - intros i x x' Hq He. by apply He.
    - intros i x Hi Hx. by apply join_listed_step.
    - split; [done|]. split; [done|]. intros p' i [= <-] Hi. by apply K3. }
  fold all in S2, E2, Q2. split; [apply S2|].
  intros (g & p & Hg & Hp & [(d & Hd & <- & Hin)|Hin] & ->); [by apply E2, Q1|by apply Q2].
Qed.

Lemma index_groups_sorted id : StronglySorted (fun a b => group_le a b = true) (at_id (index_groups cfg profiles) id).
Proof.
  unfold index_groups, at_id. rewrite lookup_fmap. destruct (_ !! id); [|constructor].
  apply sort_by_sorted; [apply group_le_total|apply group_le_trans].
Qed.

(** The first group is the best one. *)
Lemma head_group id m :
  index_groups cfg profiles !! id ≫= head = Some m → in_group id m ∧ ∀ m', in_group id m' → group_le m m' = true.
Proof.
  intros E. assert (∃ rest, at_id (index_groups cfg profiles) id = m :: rest) as [rest Hl].
  { unfold at_id. destruct (index_groups cfg profiles !! id) as [[|x l]|]; [done| |done]. injection E as ->. by exists l. }
  pose proof (index_groups_sorted id) as Hs. rewrite Hl in Hs. inversion_clear Hs as [|? ? _ Hf].
  split; [apply index_groups_spec; rewrite Hl; by left|]. intros m' Hm'. apply index_groups_spec in Hm'.
  rewrite Hl in Hm'. apply elem_of_cons in Hm' as [->|Hm']; [apply total_refl, group_le_total|].
  rewrite Forall_forall in Hf. by apply Hf.
Qed.

Lemma no_head_group id : index_groups cfg profiles !! id ≫= head = None → ∀ m, ¬ in_group id m.
Proof.
  intros E m Hm. apply index_groups_spec in Hm. unfold at_id in Hm.
  destruct (index_groups cfg profiles !! id) as [[|x l]|]; [|done|]; by apply not_elem_of_nil in Hm.
Qed.

End Groups.

(** ** Subnets *)

(** A block of a configured subnet with a known profile. *)
Definition in_subnets (cfg : ConfigV1) (profiles : gmap str ResolvedProfile) (m : SubnetMatch) : Prop :=
  ∃ sn p text, sn ∈ cf_subnets cfg ∧ profiles !! sn_profile sn = Some p ∧ text ∈ sn_cidrs sn ∧ subnet_match sn p text = Some m.

Lemma index_subnets_spec cfg profiles m : m ∈ index_subnets cfg profiles ↔ in_subnets cfg profiles m.
Proof.
  unfold index_subnets, in_subnets. rewrite sort_by_perm, list_elem_of_In, in_concat. split.
  - intros (l & Hl & Hm). apply in_map_iff in Hl as (sn & <- & Hsn). unfold subnet_matches in Hm.
    destruct (profiles !! sn_profile sn) as [p|] eqn:Ep; [|done].
    apply list_elem_of_In, list_elem_of_omap in Hm as (text & Ht & He). apply list_elem_of_In in Hsn. by exists sn, p, text.
  - intros (sn & p & text & Hsn & Ep & Ht & He). exists (subnet_matches profiles sn).
    split; [apply in_map_iff; exists sn; by rewrite list_elem_of_In in Hsn|].
    unfold subnet_matches. rewrite Ep. apply list_elem_of_In, list_elem_of_omap. by exists text.
Qed.

Definition covering (cfg : ConfigV1) (profiles : gmap str ResolvedProfile) (ip : IpAddr) (m : SubnetMatch) : Prop :=
  in_subnets cfg profiles m ∧ cidr_contains (sm_cidr m) ip = true.

Lemma find_subnet cfg profiles ip m :
  List.find (fun sn => cidr_contains (sm_cidr sn) ip) (index_subnets cfg profiles) = Some m →
  covering cfg profiles ip m ∧ ∀ m', covering cfg profiles ip m' → subnet_le m m' = true.
Proof.
  intros E. split.
  - apply find_Some_elem in E as [Hin Hc]. apply index_subnets_spec in Hin. by split.
  - intros m' [Hm' Hc']. apply index_subnets_spec in Hm'.
    apply (find_sorted subnet_le (fun sn => cidr_contains (sm_cidr sn) ip) (index_subnets cfg profiles));
      [apply total_refl, subnet_le_total| |done..].
    apply sort_by_sorted; [apply subnet_le_total|apply subnet_le_trans].
Qed.

Lemma find_no_subnet cfg profiles ip :
  List.find (fun sn => cidr_contains (sm_cidr sn) ip) (index_subnets cfg profiles) = None →
  ∀ m, ¬ covering cfg profiles ip m.
Proof.
  intros E m [Hm Hc]. apply index_subnets_spec in Hm. apply find_None_all with (x := m) in E; [congruence|done].
Qed.

(** ** Schedules *)

Section Schedules.
Context (cfg : ConfigV1) (profiles : gmap str ResolvedProfile) (now : Clock).

Lemma find_map_Some {A B} (f : A → option B) l y :
  find_map f l = Some y → ∃ l1 x l2, l = l1 ++ x :: l2 ∧ f x = Some y ∧ ∀ z, z ∈ l1 → f z = None.
Proof.
  induction l as [|x l IH]; [done|]. cbn. destruct (f x) as [y'|] eqn:Ex.
  - intros [= ->]. exists [], x, l. split_and!; [done..|]. intros z Hz. by apply not_elem_of_nil in Hz.
  - intros E. destruct (IH E) as (l1 & z & l2 & -> & Hf & Hn). exists (x :: l1), z, l2. split_and!; [done..|].
    intros w [->|Hw]%elem_of_cons; [done|by apply Hn].
Qed.

Lemma find_map_None {A B} (f : A → option B) l : find_map f l = None → ∀ x, x ∈ l → f x = None.
Proof.
  induction l as [|x l IH]; cbn; intros E z Hz; [by apply not_elem_of_nil in Hz|].
  destruct (f x) eqn:Ex; [done|]. apply elem_of_cons in Hz as [->|Hz]; [done|by apply IH].
Qed.

(** The schedule in force for a device: its own first, otherwise that of the
    best of its groups with one. *)
Definition in_force (id : str) (s : ScheduleMatch) : Prop :=
  first_active now (schedules_for cfg profiles true id) = Some s ∨
  first_active now (schedules_for cfg profiles true id) = None ∧
  ∃ m, in_group cfg profiles id m ∧ first_active now (schedules_for cfg profiles false (gm_id m)) = Some s ∧
    ∀ m', in_group cfg profiles id m' → first_active now (schedules_for cfg profiles false (gm_id m')) ≠ None → group_le m m' = true.

Definition none_in_force (id : str) : Prop :=
  first_active now (schedules_for cfg profiles true id) = None ∧
  ∀ m, in_group cfg profiles id m → first_active now (schedules_for cfg profiles false (gm_id m)) = None.

Context (devices_unique : NoDup (dev_id <$> cf_devices cfg)) (groups_unique : NoDup (gr_id <$> cf_groups cfg)).

Lemma active_schedule_spec id :
  match active_schedule cfg profiles (index_groups cfg profiles) now id with
  | Some s => in_force id s
  | None => none_in_force id
  end.
Proof.
  unfold active_schedule. destruct (first_active now (schedules_for cfg profiles true id)) as [s|] eqn:E1; [by left|].
  set (f := fun gm => first_active now (schedules_for cfg profiles false (gm_id gm))).
  assert (index_groups cfg profiles !! id ≫= find_map f = find_map f (at_id (index_groups cfg profiles) id)) as ->.
  { unfold at_id. by destruct (index_groups cfg profiles !! id). }
  pose proof (index_groups_spec cfg profiles devices_unique groups_unique id) as Hspec.
  pose proof (index_groups_sorted cfg profiles id) as Hsorted.
  destruct (find_map f _) as [s|] eqn:E2.
  - right. split; [done|]. apply find_map_Some in E2 as (l1 & m & l2 & Hl & Hs & Hn). exists m.
    rewrite Hl in Hspec, Hsorted. split; [apply Hspec, elem_of_app; right; by left|]. split; [done|].
    intros m' Hm' Ha. apply Hspec, elem_of_app in Hm' as [Hm'|Hm']; [by destruct (Ha (Hn m' Hm'))|].
    apply elem_of_cons in Hm' as [->|Hm']; [apply total_refl, group_le_total|].
    apply StronglySorted_app_1_r in Hsorted. inversion_clear Hsorted as [|? ? _ Hf]. rewrite Forall_forall in Hf. by apply Hf.
  - split; [done|]. intros m Hm. apply Hspec in Hm. by apply (find_map_None f _ E2 m).
Qed.

(** A schedule is one of the rows of its target, in force now. *)
Lemma first_active_spec device id s :
  first_active now (schedules_for cfg profiles device id) = Some s →
  active_now now (scm_parsed s) = true ∧
  ∃ row, row ∈ cf_schedules cfg ∧ is_device_target row = device ∧ sch_target_id row = id ∧ schedule_match profiles row = Some s.
Proof.
  unfold first_active, schedules_for. intros E. apply find_Some_elem in E as [Hin Ha]. split; [done|].
  apply list_elem_of_omap in Hin as (row & Hr & He). exists row. case_bool_decide as Hb; [|done]. by destruct Hb.
Qed.

End Schedules.

(** ** The chain *)

(** The MAC check of a row found by address: the neighbour seen there must be
    the pinned one, a silent neighbour passes, and a row without a pin never
    does. *)
Definition passes (d : Device) (seen : option str) : bool :=
  match mac_pin d with
  | Some pin => match seen with Some mac => bool_decide (mac = pin) | None => true end
  | None => false
  end.

(** The device row behind an address. *)
Definition identified (cfg : ConfigV1) (arp0 arp : gmap IpAddr str) (ip : IpAddr) : option Device :=
  match row_at arp0 (cf_devices cfg) ip with
  | Some d => if cf_enforce_device_mac cfg && negb (passes d (arp !! ip)) then None else Some d
  | None => arp !! ip ≫= owner (cf_devices cfg)
  end.

(** A profile as the device sees it. *)
Definition seen_by (d : option Device) (p : ResolvedProfile) : ResolvedProfile :=
  match d with Some d => unfiltered_variant d p | None => p end.

(** What the configuration says about a client: the levels in order, each taken
    only when the earlier ones have nothing to say. *)
Section Chain.
Context (cfg : ConfigV1) (profiles : gmap str ResolvedProfile) (now : Clock) (ip : IpAddr).

Definition direct (d : Device) : option ResolvedProfile := dev_profile d ≫= fun pid => profiles !! pid.

(** No level of the device itself applies. *)
Definition passed_over (d : option Device) : Prop :=
  ∀ dev, d = Some dev →
    none_in_force cfg profiles now (dev_id dev) ∧ direct dev = None ∧ ∀ m, ¬ in_group cfg profiles (dev_id dev) m.

Inductive chain (d : option Device) : option ResolveLevel → option ResolvedProfile → Resolution → Prop :=
| chain_schedule dev s r : d = Some dev → in_force cfg profiles now (dev_id dev) s →
    res_matched_schedule r = Some (scm_id s) → chain d (Some LvlSchedule) (Some (scm_profile s)) r
| chain_direct dev p r : d = Some dev → none_in_force cfg profiles now (dev_id dev) → direct dev = Some p →
    chain d (Some LvlDeviceDirect) (Some p) r
| chain_group dev g p r : d = Some dev → none_in_force cfg profiles now (dev_id dev) → direct dev = None →
    g ∈ cf_groups cfg → member cfg (dev_id dev) g → profiles !! gr_profile g = Some p →
    (∀ m, in_group cfg profiles (dev_id dev) m → group_le (match_of cfg (dev_id dev) g p) m = true) →
    res_matched_group r = Some (gr_id g) → chain d (Some LvlGroup) (Some p) r
| chain_subnet m r : passed_over d → covering cfg profiles ip m →
    (∀ m', covering cfg profiles ip m' → subnet_le m m' = true) →
    res_matched_subnet r = Some (sm_id m) → chain d (Some LvlSubnet) (Some (pp_filtered (sm_profile m))) r
| chain_default id p r : passed_over d → (∀ m, ¬ covering cfg profiles ip m) →
    cf_default_profile cfg = Some id → profiles !! id = Some p → chain d (Some LvlGlobalDefault) (Some p) r
| chain_refused r : passed_over d → (∀ m, ¬ covering cfg profiles ip m) →
    (cf_default_profile cfg ≫= fun id => profiles !! id) = None → chain d None None r.

End Chain.

Section Resolve.
Context (hash_pair : IpAddr → str → Z).
Context (cfg : ConfigV1) (rules : option CompiledOperatorRules) (generation : Z) (arp0 : gmap IpAddr str) (now : Clock).

Let rm := build_resolver_map cfg rules generation arp0 now.
Let profiles := resolve_profiles cfg rules.

Lemma device_candidate_spec arp slots secs ip :
  (device_candidate hash_pair rm arp slots secs ip).2 = index_device profiles <$> identified cfg arp0 arp ip.
Proof.
  unfold device_candidate, identified. change (rm_devices_by_ip rm) with (dm_by_ip (index_devices cfg profiles arp0)).
  change (rm_devices_by_mac rm) with (dm_by_mac (index_devices cfg profiles arp0)).
  change (rm_enforce_mac rm) with (cf_enforce_device_mac cfg).
  unfold index_devices. rewrite by_ip_lookup. destruct (row_at arp0 (cf_devices cfg) ip) as [d|]; cbn [fmap option_fmap option_map].
  - change (ix_mac_pin (index_device profiles d)) with (mac_pin d). unfold passes.
    destruct (mac_pin d) as [pin|], (cf_enforce_device_mac cfg); cbn [andb negb snd]; try done.
    destruct (arp !! ip) as [mac|]; [|done]. by case_bool_decide.
  - cbn [snd]. destruct (arp !! ip) as [mac|]; [|done]. apply by_mac_lookup.
Qed.

Lemma row_at_elem arp devices ip d : row_at arp devices ip = Some d → d ∈ devices.
Proof.
  unfold row_at. destruct (List.find (pins ip) (rev devices)) as [d'|] eqn:E; cbn [or_else].
  - intros [= ->]. apply find_Some_elem in E as [Hin _]. by apply list_elem_of_In, in_rev, list_elem_of_In in Hin.
  - intros E2. by apply find_Some_elem in E2 as [? _].
Qed.

Lemma owner_elem devices mac d : owner devices mac = Some d → d ∈ devices ∧ mac ∈ macs d.
Proof.
  unfold owner. intros E. apply find_Some_elem in E as [Hin Hm]. apply bool_decide_eq_true in Hm.
  split; [|done]. by apply list_elem_of_In, in_rev, list_elem_of_In in Hin.
Qed.

Lemma identified_elem arp ip d : identified cfg arp0 arp ip = Some d → d ∈ cf_devices cfg.
Proof.
  unfold identified. destruct (row_at _ _ _) as [d'|] eqn:E.
  - destruct (_ && _); intros [= ->]. by eapply row_at_elem.
  - destruct (arp !! ip) as [mac|]; [|done]. intros E2. by apply owner_elem in E2 as [? _].
Qed.

Context (devices_unique : NoDup (dev_id <$> cf_devices cfg)) (groups_unique : NoDup (gr_id <$> cf_groups cfg)).

Lemma schedule_lookup d :
  d ∈ cf_devices cfg →
  rm_active_schedule_by_device rm !! dev_id d =
  specialise cfg (dev_id d) <$> active_schedule cfg profiles (index_groups cfg profiles) now (dev_id d).
Proof.
  intros Hd. change (rm_active_schedule_by_device rm)
    with (active_schedules cfg profiles (index_groups cfg profiles) (dm_by_id (index_devices cfg profiles arp0)) now).
  unfold active_schedules. rewrite map_lookup_imap. unfold index_devices. rewrite by_id_lookup.
  by rewrite (collect_unique dev_id _ d devices_unique Hd).
Qed.

(** The levels of an identified device. *)
Lemma device_level_spec ip d :
  d ∈ cf_devices cfg →
  match device_level rm (index_device profiles d) with
  | Some r => ∃ p, chain cfg profiles now ip (Some d) (res_level r) (Some p) r ∧ res_profile r = Some (unfiltered_variant d p) ∧
                   res_device_id r = Some (dev_id d) ∧ res_device_name r = Some (dev_display_name d)
                   ∧ res_policy_generation r = generation
  | None => passed_over cfg profiles now (Some d)
  end.
Proof.
  intros Hd. unfold device_level. change (ix_id (index_device profiles d)) with (dev_id d). rewrite (schedule_lookup d Hd).
  pose proof (active_schedule_spec cfg profiles now devices_unique groups_unique (dev_id d)) as Hs.
  destruct (active_schedule cfg profiles (index_groups cfg profiles) now (dev_id d)) as [s|]; cbn [fmap option_fmap option_map].
  { exists (scm_profile s). unfold specialise. rewrite (collect_unique dev_id _ d devices_unique Hd).
    split_and!; try done. by econstructor. }
  change (ix_direct_profile (index_device profiles d)) with (dev_profile d ≫= fun pid => unfiltered_variant d <$> profiles !! pid).
  assert ((dev_profile d ≫= fun pid => unfiltered_variant d <$> profiles !! pid) = unfiltered_variant d <$> direct profiles d) as ->.
  { unfold direct. by destruct (dev_profile d). }
  destruct (direct profiles d) as [p|] eqn:Ed; cbn [fmap option_fmap option_map].
  { exists p. split_and!; try done. by econstructor. }
  change (rm_device_groups rm) with (index_groups cfg profiles).
  destruct (index_groups cfg profiles !! dev_id d ≫= head) as [m|] eqn:Eh; cbn.
  - destruct (head_group cfg profiles devices_unique groups_unique _ _ Eh) as [(g & p & Hg & Hp & Hm & ->) Hbest].
    exists p. unfold match_of at 2. cbn. rewrite (collect_unique dev_id _ d devices_unique Hd).
    split_and!; try done. by eapply (chain_group _ _ _ _ _ d g p).
  - intros dev [= <-]. split_and!; [done..|]. by apply no_head_group.
Qed.

(** An answer that agrees with the chain in every field. *)
Definition agrees (ip : IpAddr) (d : option Device) (r : Resolution) : Prop :=
  ∃ p, chain cfg profiles now ip d (res_level r) p r ∧ res_profile r = seen_by d <$> p ∧
       res_policy_generation r = generation ∧
       res_device_id r = (_ ← p; dev_id <$> d) ∧ res_device_name r = (_ ← p; dev_display_name <$> d).

Lemma subnet_pair m : in_subnets cfg profiles m → sm_profile m = pair_new (pp_filtered (sm_profile m)).
Proof.
  intros (sn & p & text & _ & _ & _ & E). unfold subnet_match in E. destruct (cidr_parse text); [|done]. by injection E as <-.
Qed.

Lemma pick_seen d p :
  pick (pair_new p) (match index_device profiles <$> d with Some ix => ix_unfiltered ix | None => false end) = seen_by d p.
Proof. by destruct d. Qed.

Lemma network_level_spec ip d :
  passed_over cfg profiles now d → agrees ip d (network_level rm (index_device profiles <$> d) ip).
Proof.
  intros Hp. unfold network_level. change (rm_subnets rm) with (index_subnets cfg profiles).
  change (rm_default_profile rm) with (pair_new <$> (cf_default_profile cfg ≫= fun id => profiles !! id)).
  destruct (List.find _ _) as [m|] eqn:E.
  - apply find_subnet in E as [Hm Hbest]. exists (Some (pp_filtered (sm_profile m))).
    split_and!; [by econstructor| |done|by destruct d..]. rewrite (subnet_pair m) by apply Hm. cbn. f_equal. apply pick_seen.
  - pose proof (find_no_subnet _ _ _ E) as Hno.
    destruct (cf_default_profile cfg ≫= fun id => profiles !! id) as [p|] eqn:Ed; cbn [fmap option_fmap option_map].
    + apply bind_Some in Ed as (id & Hid & Hprof). exists (Some p).
      split_and!; [by econstructor| |done|by destruct d..]. cbn. f_equal. apply pick_seen.
    + exists None. split_and!; [by constructor|done..].
Qed.

Lemma resolve_client_agrees arp slots secs source :
  agrees (canonical_ip source) (identified cfg arp0 arp (canonical_ip source)) (resolve_client hash_pair rm arp slots secs source).2.
Proof.
  unfold resolve_client. pose proof (device_candidate_spec arp slots secs (canonical_ip source)) as Hc.
  destruct (device_candidate _ _ _ _ _ _) as [slots' candidate]. cbn [snd] in *. subst candidate.
  destruct (identified _ _ _ _) as [d|] eqn:Ed; [|by apply network_level_spec]. cbn [fmap option_fmap option_map mbind option_bind].
  pose proof (device_level_spec (canonical_ip source) d (identified_elem _ _ _ Ed)) as Hl.
  destruct (device_level _ _) as [r|]; [|by apply (network_level_spec _ (Some d))].
  destruct Hl as (p & Hch & Hprof & Hid & Hname & Hgen). by exists (Some p).
Qed.

End Resolve.

(** ** Enforcement *)

(** Under enforcement, whoever is identified owns the MAC seen at the address. *)
Lemma identified_owns cfg arp0 arp ip mac d :
  cf_enforce_device_mac cfg = true → arp !! ip = Some mac → identified cfg arp0 arp ip = Some d → mac ∈ macs d.
Proof.
  intros He Ha. unfold identified. rewrite He, Ha. destruct (row_at arp0 (cf_devices cfg) ip) as [d'|] eqn:Er.
  - unfold passes, macs. destruct (mac_pin d') as [pin|] eqn:Ep; [|done]. case_bool_decide as Hm; [|done].
    intros [= <-]. rewrite Ep. subst. by left.
  - cbn. intros E. by apply owner_elem in E as [_ ?].
Qed.

Lemma row_at_pinless arp devices ip mac d :
  (∀ d', d' ∈ devices → pins ip d' = false) → d ∈ devices → mac ∈ macs d → (∀ d', d' ∈ devices → mac ∈ macs d' → d' = d) →
  canonical_ip ip = ip → arp = {[ip := mac]} → row_at arp devices ip = Some d.
Proof.
  intros Hp Hd Hm Hu Hc ->. unfold row_at.
  assert (List.find (pins ip) (rev devices) = None) as ->.
  { apply find_None_all. intros x Hx. apply Hp. by apply list_elem_of_In, in_rev, list_elem_of_In in Hx. }
  cbn [or_else]. destruct (List.find (answers {[ip := mac]} ip) devices) as [d'|] eqn:E.
  - apply find_Some_elem in E as [Hin Ha]. apply answers_spec in Ha as (a & mac' & Hl & Hm' & _).
    apply lookup_singleton_Some in Hl as [-> ->]. by rewrite (Hu d').
  - apply find_None_all with (x := d) in E; [|done].
    assert (answers {[ip := mac]} ip d = true) as Ht; [|congruence].
    apply answers_spec. exists ip, mac. split_and!; [apply lookup_singleton_eq|done..].
Qed.

Lemma row_at_empty devices ip : (∀ d', d' ∈ devices → pins ip d' = false) → row_at ∅ devices ip = None.
Proof.
  intros Hp. unfold row_at.
  assert (List.find (pins ip) (rev devices) = None) as ->.
  { apply find_None_all. intros x Hx. apply Hp. by apply list_elem_of_In, in_rev, list_elem_of_In in Hx. }
  apply find_None_all. intros x Hx. destruct (answers ∅ ip x) eqn:E; [|done].
  by apply answers_spec in E as (a & mac & Hl & _).
Qed.

Lemma owner_unique devices mac d :
  d ∈ devices → mac ∈ macs d → (∀ d', d' ∈ devices → mac ∈ macs d' → d' = d) → owner devices mac = Some d.
Proof.
  intros Hd Hm Hu. destruct (owner devices mac) as [d'|] eqn:E.
  - apply owner_elem in E as [Hin Hm']. by rewrite (Hu d').
  - apply find_None_all with (x := d) in E; [by rewrite bool_decide_eq_true_2 in E|].
    by apply list_elem_of_In, in_rev; rewrite rev_involutive; apply list_elem_of_In.
Qed.

(** ** The properties *)

(** C9: the policy of a client is the one the configuration asks for.  With
    distinct device and group ids, the resolution of any source address against
    the compiled map agrees with the chain read off the configuration rows: the
    schedule in force for the identified device (its own, else that of its best
    group), else its direct profile, else its best group by priority and id,
    else the longest prefix covering the address, else the default, else no
    policy at all.  Each profile comes in the variant of the device, and the
    device is reported with every answer but the refusal. *)
Theorem resolve_chain_exact hash_pair cfg rules generation arp0 now arp slots secs source :
  NoDup (dev_id <$> cf_devices cfg) → NoDup (gr_id <$> cf_groups cfg) →
  let ip := canonical_ip source in
  let d := identified cfg arp0 arp ip in
  let r := (resolve_client hash_pair (build_resolver_map cfg rules generation arp0 now) arp slots secs source).2 in
  ∃ p, chain cfg (resolve_profiles cfg rules) now ip d (res_level r) p r ∧ res_profile r = seen_by d <$> p ∧
       res_policy_generation r = generation ∧
       res_device_id r = (_ ← p; dev_id <$> d) ∧ res_device_name r = (_ ← p; dev_display_name <$> d).
Proof. intros Hd Hg. exact (resolve_client_agrees hash_pair cfg rules generation arp0 now Hd Hg arp slots secs source). Qed.

(** C10: MAC enforcement.  With enforcement on and a neighbour seen at the
    address, an answer that names a device names one that owns the neighbour's
    MAC; and a neighbour whose MAC no device owns gets a subnet, the default or
    nothing, in the filtered variant. *)
Theorem mac_enforcement_safe hash_pair cfg rules generation arp0 now arp slots secs source mac :
  NoDup (dev_id <$> cf_devices cfg) → NoDup (gr_id <$> cf_groups cfg) →
  cf_enforce_device_mac cfg = true → arp !! canonical_ip source = Some mac →
  let rm := build_resolver_map cfg rules generation arp0 now in
  let r := (resolve_client hash_pair rm arp slots secs source).2 in
  (∀ id, res_device_id r = Some id → ∃ d, d ∈ cf_devices cfg ∧ dev_id d = id ∧ mac ∈ macs d) ∧
  ((∀ d, d ∈ cf_devices cfg → mac ∉ macs d) → r = network_level rm None (canonical_ip source)).
Proof.
  intros Hd Hg He Ha rm r. split.
  - intros id Hid. destruct (resolve_client_agrees hash_pair cfg rules generation arp0 now Hd Hg arp slots secs source)
      as (p & _ & _ & _ & Hdev & _). fold rm r in Hdev. rewrite Hid in Hdev.
    destruct p; [|done]. destruct (identified cfg arp0 arp (canonical_ip source)) as [d|] eqn:Ed; [|done].
    injection Hdev as Hdev. exists d. split; [by eapply identified_elem|]. split; [done|by eapply identified_owns].
  - intros Hno. subst r. unfold resolve_client.
    pose proof (device_candidate_spec hash_pair cfg rules generation arp0 now arp slots secs (canonical_ip source)) as Hc.
    fold rm in Hc. destruct (identified cfg arp0 arp (canonical_ip source)) as [d|] eqn:Ed.
    { destruct (Hno d); [by eapply identified_elem|by eapply identified_owns]. }
    destruct (device_candidate _ _ _ _ _ _) as [slots' c]. cbn in Hc. by subst c.
Qed.

(** C29: under enforcement an alias MAC identifies its device only until the
    next rebuild.  A device that answers through an alias, at an address no row
    is pinned to, is recognised by a map built before the neighbour was seen,
    and is not by a map built after. *)
Theorem alias_lost_at_rebuild hash_pair cfg rules generation now slots secs ip mac d :
  cf_enforce_device_mac cfg = true → canonical_ip ip = ip →
  (∀ d', d' ∈ cf_devices cfg → pins ip d' = false) →
  d ∈ cf_devices cfg → mac ∈ mac_aliases d → mac_pin d ≠ Some mac →
  (∀ d', d' ∈ cf_devices cfg → mac ∈ macs d' → d' = d) →
  let candidate arp0 :=
    (device_candidate hash_pair (build_resolver_map cfg rules generation arp0 now) {[ip := mac]} slots secs ip).2 in
  candidate ∅ = Some (index_device (resolve_profiles cfg rules) d) ∧ candidate {[ip := mac]} = None.
Proof.
  intros He Hc Hp Hd Hm Hpin Hu candidate. subst candidate.
  assert (mac ∈ macs d) as Hin by (apply elem_of_app; by right).
  cbv beta. rewrite !device_candidate_spec. unfold identified. rewrite lookup_singleton_eq, row_at_empty by done.
  rewrite (row_at_pinless _ _ _ mac d) by done. cbn [mbind option_bind]. rewrite (owner_unique _ _ d) by done. split; [done|].
  rewrite He. unfold passes. destruct (mac_pin d) as [pin|]; [|done]. rewrite bool_decide_eq_false_2; [done|congruence].
Qed.

End Proofs.

(** ** The warning throttle and the overlay *)

(** A slot packs a hash and a second. *)
Lemma slot_unpack a b :
  (0 ≤ a ≤ U32_MAX)%Z → (0 ≤ b ≤ U32_MAX)%Z →
  let slot := Z.lor (Z.shiftl a 32) b in
  as_u32 (Z.shiftr slot 32) = a ∧ as_u32 (Z.land slot U32_MAX) = b.
Proof.
  intros Ha Hb slot. subst slot. unfold as_u32, U32_MAX in *.
  assert (Z.shiftr b 32 = 0%Z) as Hs by (rewrite Z.shiftr_div_pow2 by lia; apply Z.div_small; lia).
  rewrite Z.shiftr_lor, Z.shiftr_shiftl_l, Hs, Z.lor_0_r by lia. rewrite Z.shiftl_0_r.
  split; [apply Z.mod_small; lia|].
  change (2 ^ 32 - 1)%Z with (Z.ones 32). rewrite Z.land_lor_distr_l, !Z.land_ones by lia.
  rewrite Z.shiftl_mul_pow2, Z.mod_mul, Z.lor_0_l, Z.mod_mod by lia. apply Z.mod_small. lia.
Qed.

(** A warning for a pair is not repeated within the window, as long as no other
    pair took its slot. *)
Lemma should_warn_once slots h t t' :
  length slots = 8 → (0 ≤ t ≤ t')%Z → (t' ≤ U32_MAX)%Z → (t' - t < MAC_MISMATCH_WARN_WINDOW)%Z →
  (should_warn slots h t).2 = true → (should_warn (should_warn slots h t).1 h t').2 = false.
Proof.
  intros Hl Ht Hm Hw. unfold should_warn at 1 3. destruct (_ && _); [done|]. intros _. cbn [fst]. unfold should_warn.
  assert (Z.to_nat (Z.land h 7) < 8) as Hi.
  { change 7%Z with (Z.ones 3). rewrite Z.land_ones by lia. pose proof (Z.mod_pos_bound h (2 ^ 3)). lia. }
  rewrite list_lookup_insert_eq by lia. cbn [from_option id].
  assert (0 ≤ as_u32 (Z.shiftr h 32) ≤ U32_MAX)%Z as Hh.
  { unfold as_u32, U32_MAX. pose proof (Z.mod_pos_bound (Z.shiftr h 32) (2 ^ 32)). lia. }
  assert (∀ x, (0 ≤ x ≤ U32_MAX)%Z → as_u32 x = x) as Hu by (intros; unfold as_u32, U32_MAX in *; apply Z.mod_small; lia).
  rewrite (Hu t), (Hu t') by lia.
  destruct (slot_unpack (as_u32 (Z.shiftr h 32)) t) as [-> ->]; [lia..|].
  rewrite Z.eqb_refl. cbn [andb]. unfold saturating_sub. assert ((Z.max 0 (t' - t) <? MAC_MISMATCH_WARN_WINDOW)%Z = true) as -> by lia.
  done.
Qed.

Lemma apply_overlay_blocks hits ovr :
  (∃ source, apply_overlay hits ovr = OverlayBlock source) ↔
  lh_profile_deny hits = true ∧ (lh_device_deny hits = true ∨ lh_device_allow hits = true) ∧ ¬ (lh_device_allow hits = true ∧ ovr = true) ∨
  lh_profile_deny hits = false ∧ lh_device_deny hits = true.
Proof. destruct hits as [[] [] []], ovr; cbn; naive_solver. Qed.

(** ** A home network *)

#[local] Existing Instance literal_programs.

Definition open_profile : ProfileConfig := {| pf_admin_rules := []; pf_custom_lists := []; pf_block_all := false |}.

Definition tablet : Device :=
  {| dev_id := lit "tablet"; dev_display_name := lit "Tablet"; dev_ip := None; dev_mac := Some (lit "AA"); dev_mac_aliases := [lit "bb"];
     dev_profile := None; dev_groups := []; dev_unfiltered := true; dev_network_name := None; dev_network_name_wildcard := false |}.

Definition home : ConfigV1 :=
  {| cf_profiles := [(lit "kids", open_profile); (lit "adults", open_profile)]; cf_admin_rules := ∅; cf_custom_lists := ∅;
     cf_devices := [tablet];
     cf_groups := [{| gr_id := lit "family"; gr_profile := lit "kids"; gr_priority := 5; gr_devices := [lit "tablet"] |}];
     cf_subnets := [{| sn_id := lit "lan"; sn_cidrs := [lit "10.0.0.0/8"; lit "10.1.0.0/16"]; sn_profile := lit "adults"; sn_priority := 0 |}];
     cf_schedules := []; cf_blocklist_ids := []; cf_default_profile := None; cf_enforce_device_mac := true |}.

Definition noon : Clock := {| ck_utc := 0; ck_weekday := 0; ck_hour := 12; ck_minute := 0 |}.

Definition home_map : ResolverMap := build_resolver_map home None 1 ∅ noon.

Definition home_answer (arp : gmap IpAddr str) (ip : IpAddr) : Resolution :=
  (resolve_client (fun _ _ => 0%Z) home_map arp ring_new 0 ip).2.

Lemma home_devices : NoDup (dev_id <$> cf_devices home).
Proof. apply (bool_decide_unpack _). by vm_compute. Defined.

Lemma home_groups : NoDup (gr_id <$> cf_groups home).
Proof. apply (bool_decide_unpack _). by vm_compute. Defined.

(** 10.1.0.7, and the same address embedded in IPv6. *)
Definition client : IpAddr := V4 167837703.
Definition client_mapped : IpAddr := V6 (281470681743360 + 167837703).

Lemma resolve_chain_exact_witness :
  res_level (home_answer {[client := lit "AA"]} client_mapped) = Some LvlGroup ∧
  res_matched_subnet (home_answer ∅ client) = Some (lit "lan") ∧
  ∃ p, chain home (resolve_profiles home None) noon (canonical_ip client_mapped) (Some tablet) (Some LvlGroup) p
         (home_answer {[client := lit "AA"]} client_mapped).
Proof.
  split; [by vm_compute|]. split; [by vm_compute|].
  destruct (resolve_chain_exact (fun _ _ => 0%Z) home None 1 ∅ noon {[client := lit "AA"]} ring_new 0 client_mapped home_devices home_groups)
    as (p & H & _).
  exists p. exact H.
Defined.

Lemma mac_enforcement_safe_witness :
  home_answer {[client := lit "CC"]} client = network_level home_map None client ∧
  res_matched_subnet (home_answer {[client := lit "CC"]} client) = Some (lit "lan").
Proof.
  split; [|by vm_compute].
  apply (mac_enforcement_safe (fun _ _ => 0%Z) home None 1 ∅ noon {[client := lit "CC"]} ring_new 0 client (lit "CC") home_devices home_groups);
    [done|by vm_compute|].
  intros d Hd. apply list_elem_of_singleton in Hd as ->. apply (bool_decide_unpack _). by vm_compute.
Defined.

Lemma alias_lost_at_rebuild_witness :
  let candidate arp0 :=
    (device_candidate (fun _ _ => 0%Z) (build_resolver_map home None 1 arp0 noon) {[client := lit "BB"]} ring_new 0 client).2 in
  ix_id <$> candidate ∅ = Some (lit "tablet") ∧ candidate {[client := lit "BB"]} = None.
Proof.
  destruct (alias_lost_at_rebuild (fun _ _ => 0%Z) home None 1 noon ring_new 0 client (lit "BB") tablet) as [H1 H2].
  - done.
  - done.
  - intros d Hd. apply list_elem_of_singleton in Hd as ->. by vm_compute.
  - by left.
  - by left.
  - done.
  - intros d Hd _. by apply list_elem_of_singleton in Hd.
  - cbv beta zeta in *. rewrite H1. by split.
Defined.
