(* ===== verification/ResolverSwap.v ===== *)
(** * Publishing a resolver map: the swaps of [src/profiles/resolver.rs]

    The published map is a cell that is replaced by compare-and-swap in a loop,
    by reloads and by the schedule tick; the ARP snapshot is a second cell.
    Every load, store and exchange is one action of a thread, so that any
    interleaving of any number of calls is a run of a step relation. *)

From S2P Require Import Prelude RustStr SortedSlice DnsTypes Domain Rules Evaluator Shard Decision Limits Admission Ast Compiler CompilerIndex Engine CustomList Profile Schedule Cidr Resolver ResolverProofs.

Record ActivePolicyIdentity := {
  ap_daemon_instance_id : str;
  ap_config_revision : str;
  ap_operator_policy_hash : str;
  ap_resolver_generation : Z;
}.

Definition is_known (i : ActivePolicyIdentity) : bool :=
  negb (bool_decide (ap_daemon_instance_id i = [])) && negb (bool_decide (ap_config_revision i = []))
  && negb (bool_decide (ap_operator_policy_hash i = [])) && negb (ap_resolver_generation i =? 0)%Z.

Definition at_generation (i : ActivePolicyIdentity) (g : Z) : ActivePolicyIdentity :=
  {| ap_daemon_instance_id := ap_daemon_instance_id i; ap_config_revision := ap_config_revision i;
     ap_operator_policy_hash := ap_operator_policy_hash i; ap_resolver_generation := g |}.

(** [saturating_add(1).max(1)] on [u64]. *)
Definition next_generation (g : Z) : Z := Z.max 1 (Z.min U64_MAX (g + 1)).

Section Swap.
Context {RC : RegexCrate} {RP : RegexPrograms}.

(** The inputs a map keeps for the next schedule refresh. *)
Record Source := { src_config : ConfigV1; src_rules : option CompiledOperatorRules }.

(** A published map, with its inputs and its identity. *)
Record Published := { pb_source : Source; pb_identity : ActivePolicyIdentity; pb_map : ResolverMap }.

(** What a build reads from the system: [/proc/net/arp] and the clock. *)
Record Reading := { rd_arp : gmap IpAddr str; rd_now : Clock }.

Definition publish_map (src : Source) (ident : ActivePolicyIdentity) (rd : Reading) : Published :=
  {| pb_source := src; pb_identity := ident;
     pb_map := build_resolver_map (src_config src) (src_rules src) (ap_resolver_generation ident) (rd_arp rd) (rd_now rd) |}.

(** The two cells.  An [Arc] is its address and its value; a thread holds the
    one it loaded, so an address it compares with is never reused. *)
Record ProfileResolver := {
  pr_inner : nat * Published;
  pr_next : nat;
  pr_arp_by_ip : gmap IpAddr str;
}.

Definition build_with (src : Source) (ident : ActivePolicyIdentity) (rd : Reading) : ProfileResolver :=
  {| pr_inner := (0, publish_map src ident rd); pr_next := 1; pr_arp_by_ip := rd_arp rd |}.

(** What the loop publishes: given inputs under a given identity, or those of
    the map it replaces. *)
Inductive Request := SwapTo (src : Source) (ident : ActivePolicyIdentity) | Again.

Definition successor (rq : Request) (current : Published) (rd : Reading) : Published :=
  let generation := next_generation (ap_resolver_generation (pb_identity current)) in
  match rq with
  | SwapTo src ident => publish_map src (at_generation ident generation) rd
  | Again => publish_map (pb_source current) (at_generation (pb_identity current) generation) rd
  end.

(** The calls. *)
Inductive SwapCall :=
| swap_with_operator_rules (cfg : ConfigV1) (rules : CompiledOperatorRules)
| swap_with_operator_rules_and_policy_identity (cfg : ConfigV1) (rules : CompiledOperatorRules) (ident : ActivePolicyIdentity)
| swap_without_list_bits (cfg : ConfigV1)
| swap_with_policy_identity (cfg : ConfigV1) (ident : ActivePolicyIdentity)
| refresh_schedules
| refresh_arp.

Inductive Pc :=
| Entry (call : SwapCall)
| StoreArp (src : Source) (ident : ActivePolicyIdentity)
| LoadFull (rq : Request)
| CompareAndSwap (rq : Request) (current : nat * Published)
| Returned (result : option ActivePolicyIdentity).

Definition with_arp (sh : ProfileResolver) (arp : gmap IpAddr str) : ProfileResolver :=
  {| pr_inner := pr_inner sh; pr_next := pr_next sh; pr_arp_by_ip := arp |}.

Definition cleared (i : ActivePolicyIdentity) : ActivePolicyIdentity :=
  {| ap_daemon_instance_id := ap_daemon_instance_id i; ap_config_revision := []; ap_operator_policy_hash := [];
     ap_resolver_generation := ap_resolver_generation i |}.

(** The rebuilds from a compiled snapshot pass an empty store of custom lists. *)
Definition without_custom_lists (cfg : ConfigV1) : ConfigV1 :=
  {| cf_profiles := cf_profiles cfg; cf_admin_rules := cf_admin_rules cfg; cf_custom_lists := ∅; cf_devices := cf_devices cfg;
     cf_groups := cf_groups cfg; cf_subnets := cf_subnets cfg; cf_schedules := cf_schedules cfg;
     cf_blocklist_ids := cf_blocklist_ids cfg; cf_default_profile := cf_default_profile cfg;
     cf_enforce_device_mac := cf_enforce_device_mac cfg |}.

Definition from_rules (cfg : ConfigV1) (rules : CompiledOperatorRules) : Source :=
  {| src_config := without_custom_lists cfg; src_rules := Some rules |}.
Definition from_lists (cfg : ConfigV1) : Source := {| src_config := cfg; src_rules := None |}.

(** One action of a thread; the third result is what it published. *)
Definition swap_act (pc : Pc) (sh : ProfileResolver) (rd : Reading) : Pc * ProfileResolver * option Published :=
  match pc with
  | Entry call =>
    match call with
    | swap_with_operator_rules cfg rules => (StoreArp (from_rules cfg rules) (pb_identity (pr_inner sh).2), sh, None)
    | swap_with_operator_rules_and_policy_identity cfg rules ident => (StoreArp (from_rules cfg rules) ident, sh, None)
    | swap_without_list_bits cfg => (StoreArp (from_lists cfg) (cleared (pb_identity (pr_inner sh).2)), sh, None)
    | swap_with_policy_identity cfg ident => (StoreArp (from_lists cfg) ident, sh, None)
    | refresh_schedules => (LoadFull Again, sh, None)
    | refresh_arp => (Returned None, with_arp sh (rd_arp rd), None)
    end
  | StoreArp src ident => (LoadFull (SwapTo src ident), with_arp sh (rd_arp rd), None)
  | LoadFull rq => (CompareAndSwap rq (pr_inner sh), sh, None)
  | CompareAndSwap rq current =>
    let map := successor rq current.2 rd in
    let fresh := pr_next sh in
    if (current.1 =? (pr_inner sh).1)%nat
    then (Returned (Some (pb_identity map)), {| pr_inner := (fresh, map); pr_next := S fresh; pr_arp_by_ip := pr_arp_by_ip sh |}, Some map)
    else (LoadFull rq, {| pr_inner := pr_inner sh; pr_next := S fresh; pr_arp_by_ip := pr_arp_by_ip sh |}, None)
  | Returned _ => (pc, sh, None)
  end.

(** A configuration: the threads, the cells, and who published what, newest
    first. *)
Definition config : Type := list Pc * (ProfileResolver * list (nat * Published)).

Inductive swap_step : relation config :=
| swap_step_intro ts i pc sh log rd pc' sh' out :
    ts !! i = Some pc → swap_act pc sh rd = (pc', sh', out) →
    swap_step (ts, (sh, log)) (<[i := pc']> ts, (sh', option_list (pair i <$> out) ++ log)).

(** ** What the log says *)

(** What a call asks the loop to publish.  The two that carry no identity take
    the one they found. *)
Definition asks (call : SwapCall) (rq : Request) : Prop :=
  match call with
  | swap_with_operator_rules cfg rules => ∃ ident, rq = SwapTo (from_rules cfg rules) ident
  | swap_with_operator_rules_and_policy_identity cfg rules ident => rq = SwapTo (from_rules cfg rules) ident
  | swap_without_list_bits cfg => ∃ ident, rq = SwapTo (from_lists cfg) (cleared ident)
  | swap_with_policy_identity cfg ident => rq = SwapTo (from_lists cfg) ident
  | refresh_schedules => rq = Again
  | refresh_arp => False
  end.

Definition latest (p0 : Published) (log : list (nat * Published)) : Published :=
  match log with [] => p0 | (_, p) :: _ => p end.

(** The log as one call after the other: each publication is what its call
    makes of the one before. *)
Inductive serial (calls : list SwapCall) (p0 : Published) : list (nat * Published) → Prop :=
| serial_nil : serial calls p0 []
| serial_cons i call rq rd log :
    serial calls p0 log → i ∉ log.*1 → calls !! i = Some call → asks call rq →
    serial calls p0 ((i, successor rq (latest p0 log) rd) :: log).

(** Where a thread is, given its call. *)
Definition follows (call : SwapCall) (pc : Pc) : Prop :=
  match pc with
  | Entry c => c = call
  | StoreArp src ident => asks call (SwapTo src ident)
  | LoadFull rq | CompareAndSwap rq _ => asks call rq
  | Returned None => call = refresh_arp
  | Returned (Some _) => True
  end.

Definition returned (pc : Pc) : option ActivePolicyIdentity :=
  match pc with Returned r => r | _ => None end.

Record inv (calls : list SwapCall) (p0 : Published) (c : config) : Prop := {
  inv_serial : serial calls p0 c.2.2;
  inv_current : (pr_inner c.2.1).2 = latest p0 c.2.2;
  inv_fresh : (pr_inner c.2.1).1 < pr_next c.2.1;
  inv_length : length c.1 = length calls;
  inv_follows : ∀ i call pc, calls !! i = Some call → c.1 !! i = Some pc → follows call pc;
  inv_loaded : ∀ i rq a, c.1 !! i = Some (CompareAndSwap rq a) →
    a.1 < pr_next c.2.1 ∧ (a.1 = (pr_inner c.2.1).1 → a = pr_inner c.2.1);
  inv_returned : ∀ i ident, c.1 !! i ≫= returned = Some ident ↔ ∃ p, (i, p) ∈ c.2.2 ∧ pb_identity p = ident;
}.

(** An action that publishes nothing. *)
Lemma quiet_step calls p0 ts i pc pc' sh sh' log :
  inv calls p0 (ts, (sh, log)) → ts !! i = Some pc →
  pr_inner sh' = pr_inner sh → pr_next sh ≤ pr_next sh' → returned pc' = returned pc →
  (∀ call, follows call pc → follows call pc') → (∀ rq a, pc' = CompareAndSwap rq a → a = pr_inner sh) →
  inv calls p0 (<[i := pc']> ts, (sh', log)).
Proof.
  intros [Hs Hc Hf Hl Hfo Hld Hr] Hi Hin Hn Hret Hfol Hcas. cbn [fst snd] in *.
  pose proof (lookup_lt_Some _ _ _ Hi) as Hlt. split; cbn [fst snd]; rewrite ?Hin; [done|done|lia|by rewrite length_insert| | |].
  - intros j call q Hj Hq. apply list_lookup_insert_Some in Hq as [(-> & -> & _)|[Hne Hq]]; [|by eapply Hfo].
    apply Hfol. by eapply Hfo.
  - intros j rq a Hq. apply list_lookup_insert_Some in Hq as [(-> & E & _)|[Hne Hq]].
    + rewrite (Hcas rq a E). split; [lia|done].
    + destruct (Hld j rq a Hq). split; [lia|done].
  - intros j ident. rewrite <-Hr. destruct (decide (i = j)) as [<-|Hne].
    + rewrite list_lookup_insert_eq, Hi by done. cbn. by rewrite Hret.
    + by rewrite list_lookup_insert_ne.
Qed.

(** The exchange that succeeds. *)
Lemma publish_step calls p0 ts i rq a sh log rd :
  inv calls p0 (ts, (sh, log)) → ts !! i = Some (CompareAndSwap rq a) → a.1 = (pr_inner sh).1 →
  let map := successor rq a.2 rd in
  inv calls p0 (<[i := Returned (Some (pb_identity map))]> ts,
    ({| pr_inner := (pr_next sh, map); pr_next := S (pr_next sh); pr_arp_by_ip := pr_arp_by_ip sh |}, (i, map) :: log)).
Proof.
  intros [Hs Hc Hf Hl Hfo Hld Hr] Hi Ha map. cbn [fst snd] in *.
  pose proof (lookup_lt_Some _ _ _ Hi) as Hlt. destruct (Hld i rq a Hi) as [_ Hsame]. specialize (Hsame Ha).
  assert (map = successor rq (latest p0 log) rd) as Hm by (unfold map; by rewrite Hsame, Hc).
  destruct (lookup_lt_is_Some_2 calls i) as [call Hcall]; [lia|].
  assert (i ∉ log.*1) as Hnew.
  { intros Hin. apply list_elem_of_fmap in Hin as ([j p] & -> & Hin). cbn in *.
    assert (ts !! j ≫= returned = Some (pb_identity p)) as E by (apply Hr; by exists p). by rewrite Hi in E. }
  split; cbn [fst snd pr_inner pr_next].
  - rewrite Hm. eapply serial_cons; [done..|]. by apply (Hfo i call (CompareAndSwap rq a)).
  - done.
  - lia.
  - by rewrite length_insert.
  - intros j c q Hj Hq. apply list_lookup_insert_Some in Hq as [(-> & <- & _)|[Hne Hq]]; [done|by eapply Hfo].
  - intros j rq' a' Hq. apply list_lookup_insert_Some in Hq as [(_ & ? & _)|[Hne Hq]]; [done|].
    destruct (Hld j rq' a' Hq) as [? _]. split; [lia|]. intros Heq. lia.
  - intros j ident. destruct (decide (i = j)) as [<-|Hne].
    + rewrite list_lookup_insert_eq by done. cbn. split.
      * intros [= <-]. exists map. split; [by left|done].
      * intros (p & [[= ->]|Hin]%elem_of_cons & <-); [done|]. destruct Hnew. apply list_elem_of_fmap. by exists (i, p).
    + rewrite list_lookup_insert_ne, Hr by done. split; intros (p & Hp & <-); exists p; (split; [|done]); [by right|].
      by apply elem_of_cons in Hp as [[= -> _]|Hp].
Qed.

Lemma inv_step calls p0 c c' : inv calls p0 c → swap_step c c' → inv calls p0 c'.
Proof.
  intros Hinv Hst. revert Hinv. destruct Hst as [ts i pc sh log rd pc' sh' out Hi Hact]. intros Hinv. destruct pc as [call|src ident|rq|rq a|r]; cbn in Hact.
  - destruct call; injection Hact as <- <- <-;
      (apply (quiet_step _ _ _ _ _ _ _ _ _ Hinv Hi); [done|done|done| |done]); intros call Hc; cbn in Hc; subst call; cbn; eauto.
  - injection Hact as <- <- <-. apply (quiet_step _ _ _ _ _ _ _ _ _ Hinv Hi); done.
  - injection Hact as <- <- <-. apply (quiet_step _ _ _ _ _ _ _ _ _ Hinv Hi); [done..|]. by intros rq' a [= _ <-].
  - destruct (Nat.eqb_spec a.1 (pr_inner sh).1) as [Ha|Ha]; injection Hact as <- <- <-.
    + by apply publish_step.
    + apply (quiet_step _ _ _ _ _ _ _ _ _ Hinv Hi); cbn; [done|lia|done..].
  - injection Hact as <- <- <-. by apply (quiet_step _ _ _ _ _ _ _ _ _ Hinv Hi).
Qed.

Lemma inv_start calls src ident rd :
  let sh := build_with src ident rd in inv calls (pr_inner sh).2 (Entry <$> calls, (sh, [])).
Proof.
  intros sh. split; cbn [fst snd]; [constructor|done|cbn; lia|by rewrite length_fmap| | |].
  - intros i call pc Hc Hp. rewrite list_lookup_fmap, Hc in Hp. by injection Hp as <-.
  - intros i rq a Hp. rewrite list_lookup_fmap in Hp. by destruct (calls !! i).
  - intros i r. rewrite list_lookup_fmap. split; [by destruct (calls !! i)|].
    intros (p & Hp & _). by apply not_elem_of_nil in Hp.
Qed.

(** ** Generations *)

Lemma successor_generation rq current rd :
  ap_resolver_generation (pb_identity (successor rq current rd)) = next_generation (ap_resolver_generation (pb_identity current)).
Proof. by destruct rq. Qed.

Lemma serial_generation calls p0 log :
  serial calls p0 log → (0 ≤ ap_resolver_generation (pb_identity p0))%Z →
  (ap_resolver_generation (pb_identity p0) + Z.of_nat (length log) ≤ U64_MAX)%Z →
  ap_resolver_generation (pb_identity (latest p0 log)) = (ap_resolver_generation (pb_identity p0) + Z.of_nat (length log))%Z.
Proof.
  intros Hs H0. induction Hs as [|i call rq rd log Hs IH _ _ _]; cbn [length latest]; intros Hb; [lia|].
  rewrite successor_generation, IH by lia. unfold next_generation. lia.
Qed.

(** A map carries the generation and the inputs it was published under. *)
Definition genuine (p : Published) : Prop :=
  ∃ rd, pb_map p = build_resolver_map (src_config (pb_source p)) (src_rules (pb_source p))
                     (ap_resolver_generation (pb_identity p)) (rd_arp rd) (rd_now rd).

Lemma serial_genuine calls p0 log : serial calls p0 log → genuine p0 → genuine (latest p0 log).
Proof. intros Hs H0. destruct Hs as [|i call rq rd log _ _ _ _]; [done|]. exists rd. by destruct rq. Qed.

(** ** Completion *)

Definition has_returned (pc : Pc) : Prop := match pc with Returned _ => True | _ => False end.

Definition can_return (i : nat) (ts : list Pc) (w : ProfileResolver * list (nat * Published)) : Prop :=
  ∃ pc' w', rtc swap_step (ts, w) (<[i := pc']> ts, w') ∧ has_returned pc'.

Lemma can_return_now i ts pc w : ts !! i = Some pc → has_returned pc → can_return i ts w.
Proof. intros Hi Hp. exists pc, w. split; [|done]. by rewrite list_insert_id. Qed.

Lemma can_return_step i ts pc pc1 sh sh1 log out (rd : Reading) :
  ts !! i = Some pc → swap_act pc sh rd = (pc1, sh1, out) →
  can_return i (<[i := pc1]> ts) (sh1, option_list (pair i <$> out) ++ log) → can_return i ts (sh, log).
Proof.
  intros Hq Hact (pc' & w' & Hr & Hd). exists pc', w'. split; [|done].
  rewrite list_insert_insert_eq in Hr. eapply rtc_l; [|done]. by econstructor.
Qed.

Lemma can_return_load i ts rq sh log (rd : Reading) : ts !! i = Some (LoadFull rq) → can_return i ts (sh, log).
Proof.
  intros Hi. pose proof (lookup_lt_Some _ _ _ Hi) as Hl.
  eapply (can_return_step i ts _ _ _ _ _ _ rd); [done|reflexivity|].
  eapply (can_return_step i _ _ _ _ _ _ _ rd); [by apply list_lookup_insert_eq|cbn; by rewrite Nat.eqb_refl|].
  eapply can_return_now; [apply list_lookup_insert_eq; by rewrite length_insert|done].
Qed.

Lemma can_return_store i ts src id sh log (rd : Reading) : ts !! i = Some (StoreArp src id) → can_return i ts (sh, log).
Proof.
  intros Hi. pose proof (lookup_lt_Some _ _ _ Hi) as Hl. eapply (can_return_step i ts _ _ _ _ _ _ rd); [done|reflexivity|].
  eapply (can_return_load i _ _ _ _ rd). by apply list_lookup_insert_eq.
Qed.

(** A thread that runs alone returns, from wherever it is. *)
Lemma solo_returns (rd : Reading) ts (w : ProfileResolver * list (nat * Published)) i pc :
  ts !! i = Some pc → can_return i ts w.
Proof.
  destruct w as [sh log]. intros Hi. pose proof (lookup_lt_Some _ _ _ Hi) as Hlt.
  destruct pc as [call|src id|rq|rq a|r].
  - destruct call; (eapply (can_return_step i ts _ _ _ _ _ _ rd); [done|reflexivity|]);
      [eapply can_return_store|eapply can_return_store|eapply can_return_store|eapply can_return_store|eapply can_return_load|eapply can_return_now];
      try (by apply list_lookup_insert_eq); done.
  - by eapply can_return_store.
  - by eapply can_return_load.
  - destruct (Nat.eqb_spec a.1 (pr_inner sh).1) as [Ha|Ha]; (eapply (can_return_step i ts _ _ _ _ _ _ rd); [done| |]).
    + cbn. by rewrite Ha, Nat.eqb_refl.
    + eapply can_return_now; [by apply list_lookup_insert_eq|done].
    + cbn. rewrite (proj2 (Nat.eqb_neq _ _) Ha). reflexivity.
    + eapply can_return_load; [done|by apply list_lookup_insert_eq].
  - by eapply can_return_now.
Qed.

(** ** The properties *)

(** C11: policy swaps and schedule refreshes linearise.  In every interleaving
    of any calls, the published maps are what the calls make one after the
    other, each of the map before it: a refresh keeps the inputs and the
    revision it finds and never undoes a swap that came between.  A call that
    returned published exactly once, under the identity it returned; the map in
    force is the last one, built from its own inputs; generations count the
    publications; and the calls can always be run to completion. *)
Theorem swaps_linearise calls src ident rd ts sh log :
  (0 ≤ ap_resolver_generation ident)%Z →
  rtc swap_step (Entry <$> calls, (build_with src ident rd, [])) (ts, (sh, log)) →
  let p0 := publish_map src ident rd in
  serial calls p0 log ∧ (pr_inner sh).2 = latest p0 log ∧ genuine (latest p0 log) ∧
  (∀ i r, ts !! i = Some (Returned (Some r)) ↔ ∃ p, (i, p) ∈ log ∧ pb_identity p = r) ∧
  ((ap_resolver_generation ident + Z.of_nat (length log) ≤ U64_MAX)%Z →
   ap_resolver_generation (pb_identity (latest p0 log)) = (ap_resolver_generation ident + Z.of_nat (length log))%Z) ∧
  (∃ ts' w, rtc swap_step (ts, (sh, log)) (ts', w) ∧ length ts' = length ts ∧ Forall has_returned ts').
Proof.
  intros Hg Hr p0.
  assert (inv calls p0 (ts, (sh, log))) as [Hs Hc _ _ _ _ Hret].
  { apply (rtc_preserves swap_step (inv calls p0) _ _ (inv_step calls p0)) with (2 := Hr). apply inv_start. }
  cbn [fst snd] in *. split_and!; [done|done| | | |].
  - apply (serial_genuine calls); [done|]. by exists rd.
  - intros i r. rewrite <-Hret. destruct (ts !! i) as [[]|]; cbn; naive_solver.
  - intros Hb. by apply (serial_generation calls p0).
  - destruct (finish_all swap_step has_returned (fun ts w i t => solo_returns rd ts w i t) ts (sh, log)) as (ts' & w & H1 & H2 & H3).
    by exists ts', w.
Qed.

(** ** The neighbours the ticks do not see *)

Definition ticks (c : config) (arp : gmap IpAddr str) : Prop :=
  pr_arp_by_ip c.2.1 = arp ∧ Forall (fun pc => match pc with
    | Entry refresh_schedules | LoadFull _ | CompareAndSwap _ _ | Returned _ => True | _ => False end) c.1.

Lemma ticks_step arp c c' : ticks c arp → swap_step c c' → ticks c' arp.
Proof.
  intros Ht Hst. revert Ht. destruct Hst as [ts i pc sh log rd pc' sh' out Hi Hact]. intros [Ha Hf]. cbn [fst snd] in *.
  assert (Hpc := Forall_lookup_1 _ _ _ _ Hf Hi). cbn in Hpc.
  destruct pc as [call|src id|rq|rq a|r]; cbn in Hact, Hpc; [destruct call; try done|done|..]; [| |destruct (_ =? _)|];
    injection Hact as <- <- <-; (split; [done|]); by apply Forall_insert.
Qed.

Lemma serial_ticks calls p0 log :
  Forall (fun call => call = refresh_schedules) calls → serial calls p0 log → pb_source (latest p0 log) = pb_source p0.
Proof.
  intros Hall Hs. induction Hs as [|i call rq rd log Hs IH _ Hc Ha]; [done|].
  assert (E := Forall_lookup_1 _ _ _ _ Hall Hc). cbn in E. subst call. cbn in Ha. by subst rq.
Qed.

(** C28: the schedule tick rebuilds the map and not the neighbour table.  After
    any number of ticks, whatever neighbours their builds read, a device row
    pinned to an address is still recognised there under enforcement when the
    table of the last reload had its MAC: who answers at the address now is not
    consulted. *)
Theorem ticks_keep_neighbours hash_pair calls src ident rd ts sh log slots secs ip pin d :
  Forall (fun call => call = refresh_schedules) calls →
  rtc swap_step (Entry <$> calls, (build_with src ident rd, [])) (ts, (sh, log)) →
  List.find (pins ip) (rev (cf_devices (src_config src))) = Some d → mac_pin d = Some pin → rd_arp rd !! ip = Some pin →
  pr_arp_by_ip sh = rd_arp rd ∧
  (device_candidate hash_pair (pb_map (pr_inner sh).2) (pr_arp_by_ip sh) slots secs ip).2 =
    Some (index_device (resolve_profiles (src_config src) (src_rules src)) d).
Proof.
  intros Hall Hr Hrow Hpin Hboot.
  assert (ticks (ts, (sh, log)) (rd_arp rd)) as [Harp _].
  { apply (rtc_preserves swap_step (fun c => ticks c (rd_arp rd)) _ _ (ticks_step (rd_arp rd))) with (2 := Hr).
    split; [done|]. apply Forall_fmap. apply (Forall_impl _ _ _ Hall). by intros ? ->. }
  assert (inv calls (publish_map src ident rd) (ts, (sh, log))) as [Hs Hc _ _ _ _ _].
  { apply (rtc_preserves swap_step (inv calls (publish_map src ident rd)) _ _ (inv_step calls _)) with (2 := Hr). apply inv_start. }
  cbn [fst snd] in *. split; [done|]. rewrite Hc, Harp.
  destruct (serial_genuine calls (publish_map src ident rd) log Hs ltac:(by exists rd)) as [rd' ->].
  rewrite (serial_ticks calls (publish_map src ident rd) log Hall Hs). cbn [publish_map pb_source]. rewrite device_candidate_spec.
  unfold identified, row_at. rewrite Hrow. cbn [or_else]. unfold passes. rewrite Hpin, Hboot.
  rewrite bool_decide_eq_true_2 by done. by rewrite andb_false_r.
Qed.

End Swap.

(** ** Samples *)

#[local] Existing Instance literal_programs.

Definition first_identity : ActivePolicyIdentity :=
  {| ap_daemon_instance_id := lit "daemon"; ap_config_revision := lit "r1"; ap_operator_policy_hash := lit "h1"; ap_resolver_generation := 1 |}.

Definition second_identity : ActivePolicyIdentity :=
  {| ap_daemon_instance_id := lit "daemon"; ap_config_revision := lit "r2"; ap_operator_policy_hash := lit "h2"; ap_resolver_generation := 0 |}.

Definition reading : Reading := {| rd_arp := {[client := lit "AA"]}; rd_now := noon |}.

(** The tablet at a fixed address. *)
Definition fixed_tablet : Device :=
  {| dev_id := lit "tablet"; dev_display_name := lit "Tablet"; dev_ip := Some client; dev_mac := Some (lit "AA"); dev_mac_aliases := [];
     dev_profile := None; dev_groups := []; dev_unfiltered := true; dev_network_name := None; dev_network_name_wildcard := false |}.

Definition fixed_home : ConfigV1 :=
  {| cf_profiles := []; cf_admin_rules := ∅; cf_custom_lists := ∅; cf_devices := [fixed_tablet]; cf_groups := []; cf_subnets := [];
     cf_schedules := []; cf_blocklist_ids := []; cf_default_profile := None; cf_enforce_device_mac := true |}.

(** A tick loads, a reload publishes, and the tick's exchange fails. *)
Definition sample_calls : list SwapCall := [refresh_schedules; swap_with_policy_identity fixed_home second_identity].

Fixpoint run_schedule (turns : list (nat * Reading)) (c : config) : config :=
  match turns with
  | [] => c
  | (i, rd) :: turns =>
    match c.1 !! i with
    | Some pc =>
      let '(pc', sh', out) := swap_act pc c.2.1 rd in
      run_schedule turns (<[i := pc']> c.1, (sh', option_list (pair i <$> out) ++ c.2.2))
    | None => c
    end
  end.

Lemma run_schedule_steps turns c : rtc swap_step c (run_schedule turns c).
Proof.
  revert c. induction turns as [|[i rd] turns IH]; intros [ts [sh log]]; cbn [run_schedule fst snd]; [done|].
  destruct (ts !! i) as [pc|] eqn:Ei; [|done]. destruct (swap_act pc sh rd) as [[pc' sh'] out] eqn:Ea.
  eapply rtc_l; [by econstructor|apply IH].
Qed.

Lemma run_schedule_reaches turns c e : e = run_schedule turns c → rtc swap_step c (e.1, (e.2.1, e.2.2)).
Proof. intros ->. pose proof (run_schedule_steps turns c) as H. by destruct (run_schedule turns c) as [ts [sh log]]. Qed.

Definition sample_end : config :=
  run_schedule ((fun i => (i, reading)) <$> [0; 0; 1; 1; 1; 1; 0; 0; 0])
    (Entry <$> sample_calls, (build_with (from_lists home) first_identity reading, [])).

Lemma swaps_linearise_witness :
  ap_resolver_generation (pb_identity (pr_inner sample_end.2.1).2) = 3%Z ∧
  ap_config_revision (pb_identity (pr_inner sample_end.2.1).2) = lit "r2" ∧
  serial sample_calls (publish_map (from_lists home) first_identity reading) sample_end.2.2.
Proof.
  split; [by vm_compute|]. split; [by vm_compute|].
  apply (swaps_linearise sample_calls (from_lists home) first_identity reading sample_end.1 sample_end.2.1 sample_end.2.2); [done|].
  exact (run_schedule_reaches _ _ sample_end eq_refl).
Defined.

Definition tick_end : config :=
  run_schedule [(0, reading); (0, reading); (0, {| rd_arp := {[client := lit "EE"]}; rd_now := noon |})]
    (Entry <$> [refresh_schedules], (build_with (from_lists fixed_home) first_identity reading, [])).

Lemma ticks_keep_neighbours_witness :
  length tick_end.2.2 = 1 ∧
  (device_candidate (fun _ _ => 0%Z) (pb_map (pr_inner tick_end.2.1).2) (pr_arp_by_ip tick_end.2.1) ring_new 0 client).2 =
    Some (index_device (resolve_profiles fixed_home None) fixed_tablet).
Proof.
  split; [by vm_compute|].
  apply (ticks_keep_neighbours (fun _ _ => 0%Z) [refresh_schedules] (from_lists fixed_home) first_identity reading
    tick_end.1 tick_end.2.1 tick_end.2.2 ring_new 0 client (lit "AA") fixed_tablet); try done.
  - by repeat constructor.
  - exact (run_schedule_reaches _ _ tick_end eq_refl).
Defined.
