(* ===== verification/Rewrite.v ===== *)
(** * Rewriting names: [src/dns/rewrite.rs] and its validation

    The table a profile rewrites queries with, and the search for cycles of
    [src/config/validator.rs] that runs over rewrites and over local CNAMEs.
    The order in which a hash map yields its keys is an argument. *)

From S2P Require Import Prelude RustStr SortedSlice DnsTypes Domain Rules Evaluator Shard Decision Limits Admission Ast Compiler CompilerIndex Engine CustomList Profile Schedule Cidr Resolver ResolverProofs.

(** ** Spelling *)

Definition canonicalize_domain (s : str) : str := to_ascii_lowercase (trim_end_matches DOT (trim s)).

Definition label_count (domain : str) : nat :=
  match domain with [] => 0 | _ => S (length (filter (fun b => b = DOT) domain)) end.

(** ** The table *)

Record RewriteRule := { rw_from : str; rw_to : str; rw_match_subdomains : bool }.

Record ProfileRewriteRules := {
  rr_forward : gmap str str;
  rr_suffix_rules : list (str * str);
  rr_has_subdomain_rules : bool;
}.

(** A rule in its canonical spelling; one with an empty side is dropped. *)
Definition canonical_rule (rule : RewriteRule) : option (str * str * bool) :=
  let from := canonicalize_domain (rw_from rule) in
  let to := canonicalize_domain (rw_to rule) in
  if bool_decide (from = []) || bool_decide (to = []) then None else Some (from, to, rw_match_subdomains rule).

(** [entry(k).or_insert(v)]. *)
Definition or_insert_new (m : gmap str str) (k v : str) : gmap str str :=
  match m !! k with Some _ => m | None => <[k := v]> m end.

Definition claim_exact (m : gmap str str) (r : str * str * bool) : gmap str str :=
  if r.2 then m else or_insert_new m r.1.1 r.1.2.

Definition claim_apex (m : gmap str str) (r : str * str * bool) : gmap str str :=
  if r.2 then or_insert_new m r.1.1 r.1.2 else m.

Definition deeper {V} (a b : str * V) : bool := label_count b.1 <=? label_count a.1.

Definition rewrite_build (rules : list RewriteRule) : ProfileRewriteRules :=
  let canonical := omap canonical_rule rules in
  let forward := foldl claim_apex (foldl claim_exact ∅ canonical) canonical in
  let suffix_rules := sort_by deeper (map fst (filter (fun r => r.2 = true) canonical)) in
  {| rr_forward := forward; rr_suffix_rules := suffix_rules; rr_has_subdomain_rules := negb (bool_decide (suffix_rules = [])) |}.

Definition suffix_lookup {V} (index : list (str * V)) (suffix : str) : option V :=
  snd <$> List.find (fun kv => bool_decide (kv.1 = suffix)) index.

(** The walk: strip a label, stop at an empty rest, and put what was stripped
    before the target of the first rest that has a rule. *)
Fixpoint rewrite_walk (index : list (str * str)) (stripped current : str) : option str :=
  match current with
  | [] => None
  | c :: rest =>
    let stripped := stripped ++ [c] in
    if Ascii.eqb c DOT then
      match rest with
      | [] => None
      | _ =>
        match suffix_lookup index rest with
        | Some target => Some (stripped ++ target)
        | None => rewrite_walk index stripped rest
        end
      end
    else rewrite_walk index stripped rest
  end.

Definition rewrite_apply (t : ProfileRewriteRules) (domain : str) : option str :=
  match rr_forward t !! domain with
  | Some target => Some target
  | None => if rr_has_subdomain_rules t then rewrite_walk (rr_suffix_rules t) [] domain else None
  end.

(** ** The search for cycles *)

(** One chase: [false] colours a name on the path, [true] one that is done.
    [None] is a chase cut short by its fuel. *)
Fixpoint chase (fuel : nat) (graph : gmap str str) (state : gmap str bool) (stack : list str) (current : str)
  : option (str + gmap str bool * list str) :=
  match fuel with
  | 0 => None
  | S fuel =>
    match state !! current with
    | Some false => Some (inl current)
    | Some true => Some (inr (state, stack))
    | None =>
      let state := <[current := false]> state in
      let stack := current :: stack in
      match graph !! current with
      | Some next => chase fuel graph state stack next
      | None => Some (inr (state, stack))
      end
    end
  end.

Definition blacken (state : gmap str bool) (stack : list str) : gmap str bool :=
  foldl (fun st node => <[node := true]> st) state stack.

Fixpoint find_cycle_from (graph : gmap str str) (starts : list str) (state : gmap str bool) : option (option str) :=
  match starts with
  | [] => Some None
  | start :: starts =>
    match state !! start with
    | Some true => find_cycle_from graph starts state
    | _ =>
      match chase (S (S (size graph))) graph state [] start with
      | None => None
      | Some (inl found) => Some (Some found)
      | Some (inr (state, stack)) => find_cycle_from graph starts (blacken state stack)
      end
    end
  end.

Definition find_cycle (graph : gmap str str) (keys : list str) : option (option str) := find_cycle_from graph keys ∅.

(** [find_rewrite_cycle]: the exact rules only. *)
Definition rewrite_edge (graph : gmap str str) (rule : RewriteRule) : gmap str str :=
  if rw_match_subdomains rule then graph
  else
    let from := canonicalize_domain (rw_from rule) in
    let to := canonicalize_domain (rw_to rule) in
    if bool_decide (from = []) || bool_decide (to = []) then graph else or_insert_new graph from to.

Definition rewrite_graph (rules : list RewriteRule) : gmap str str := foldl rewrite_edge ∅ rules.

Definition find_rewrite_cycle (order : gmap str str → list str) (rules : list RewriteRule) : option (option str) :=
  let graph := rewrite_graph rules in find_cycle graph (order graph).

(** ** What the search finds *)

Section Cycles.
Context (graph : gmap str str).

Definition edge (a b : str) : Prop := graph !! a = Some b.

Definition on_cycle (a : str) : Prop := tc edge a a.

(** The chain from a name leaves the table. *)
Inductive ends : str → Prop :=
| ends_out a : graph !! a = None → ends a
| ends_step a b : edge a b → ends b → ends a.

Lemma ends_reaches a b : ends a → tc edge a b → ends b.
Proof.
  intros Ha Ht. induction Ht as [a b He|a b c He Ht IH]; inversion Ha as [? Hn|? b' He' Hb]; subst; unfold edge in *; try congruence.
  assert (b = b') as -> by congruence. by apply IH.
Qed.

Lemma ends_not_on_cycle a : ends a → ¬ on_cycle a.
Proof.
  induction 1 as [a Hn|a b He Hb IH]; intros Hc.
  - inversion Hc as [? ? He|? ? ? He]; subst; unfold edge in *; congruence.
  - apply IH. inversion Hc as [? ? He'|? c ? He' Ht]; subst; unfold edge in *.
    + assert (a = b) as -> by congruence. by apply tc_once.
    + assert (c = b) as -> by congruence. eapply tc_r; done.
Qed.

(** The path of a chase, newest first, and the name it goes to. *)
Inductive path : list str → str → Prop :=
| path_start a : path [] a
| path_push stack a b : path stack a → edge a b → path (a :: stack) b.

Lemma path_reaches stack a b : path stack b → a ∈ stack → tc edge a b.
Proof.
  induction 1 as [b|stack c b Hp IH He]; intros Hin; [by apply not_elem_of_nil in Hin|].
  apply elem_of_cons in Hin as [->|Hin]; [by apply tc_once|]. eapply tc_r; [by apply IH|done].
Qed.

Lemma path_ends stack b : path stack b → ends b → ∀ a, a ∈ stack → ends a.
Proof.
  induction 1 as [b|stack c b Hp IH He]; intros Hb a Hin; [by apply not_elem_of_nil in Hin|].
  assert (ends c) as Hc by (by eapply ends_step). apply elem_of_cons in Hin as [->|Hin]; [done|by apply IH].
Qed.

(** What the colours mean: done names end, and the others coloured are the
    path. *)
Definition coloured (state : gmap str bool) (stack : list str) : Prop :=
  (∀ a, state !! a = Some true → ends a) ∧ (∀ a, state !! a = Some false ↔ a ∈ stack).

Lemma chase_spec fuel state stack current :
  coloured state stack → path stack current →
  match chase fuel graph state stack current with
  | Some (inl found) => on_cycle found
  | Some (inr (state', stack')) => coloured state' stack' ∧ (∀ a, a ∈ stack' → ends a)
      ∧ (∀ a, is_Some (state !! a) → is_Some (state' !! a)) ∧ is_Some (state' !! current)
  | None => True
  end.
Proof.
  revert state stack current. induction fuel as [|fuel IH]; intros state stack current [Hb Hg] Hp; [done|]. cbn [chase].
  destruct (state !! current) as [[]|] eqn:E.
  - split; [done|]. split; [apply (path_ends _ _ Hp), Hb, E|]. split; [done|by rewrite E].
  - apply (path_reaches stack); [done|by apply Hg].
  - assert (coloured (<[current := false]> state) (current :: stack)) as Hc'.
    { split; intros a; destruct (decide (current = a)) as [<-|Hne].
      - by rewrite lookup_insert_eq.
      - rewrite lookup_insert_ne by done. apply Hb.
      - rewrite lookup_insert_eq. split; [by left|done].
      - rewrite lookup_insert_ne by done. rewrite Hg, elem_of_cons. naive_solver. }
    assert (∀ a, is_Some (state !! a) → is_Some (<[current := false]> state !! a)) as Hkeep.
    { intros a Ha. destruct (decide (current = a)) as [<-|Hne]; [by rewrite lookup_insert_eq|by rewrite lookup_insert_ne]. }
    destruct (graph !! current) as [next|] eqn:En.
    + pose proof (IH _ _ next Hc' (path_push _ _ _ Hp En)) as H. destruct (chase _ _ _ _ _) as [[found|[state' stack']]|]; [done| |done].
      destruct H as (H1 & H2 & H3 & H4). split_and!; [done|done| |apply H3; by rewrite lookup_insert_eq].
      intros a Ha. by apply H3, Hkeep.
    + split; [done|]. split; [|split; [done|by rewrite lookup_insert_eq]].
      assert (ends current) by (by apply ends_out). intros a [->|Ha]%elem_of_cons; [done|by apply (path_ends _ _ Hp)].
Qed.

(** Each turn but the last colours one more key of the table. *)
Lemma chase_returns fuel state stack current :
  size (dom graph ∖ dom state) < fuel → is_Some (chase fuel graph state stack current).
Proof.
  revert state stack current. induction fuel as [|fuel IH]; intros state stack current Hf; [lia|]. cbn [chase].
  destruct (state !! current) as [[]|] eqn:E; [done|done|]. destruct (graph !! current) as [next|] eqn:En; [|done].
  apply IH. assert (current ∈ dom graph ∖ dom state) as Hin.
  { apply elem_of_difference. split; [by apply elem_of_dom|by apply not_elem_of_dom]. }
  assert (dom graph ∖ dom (<[current := false]> state) ⊂ dom graph ∖ dom state) as Hsub%subset_size; [|lia].
  rewrite dom_insert. split; set_solver.
Qed.

Lemma blacken_lookup state stack a :
  blacken state stack !! a = if bool_decide (a ∈ stack) then Some true else state !! a.
Proof.
  unfold blacken. revert state. induction stack as [|b stack IH]; intros state; cbn [foldl].
  - by rewrite bool_decide_eq_false_2 by apply not_elem_of_nil.
  - rewrite IH. destruct (decide (a ∈ stack)) as [Hin|Hin].
    + rewrite !bool_decide_eq_true_2; [done|by right|done].
    + rewrite (bool_decide_eq_false_2 (a ∈ stack)) by done. destruct (decide (b = a)) as [->|Hne].
      * rewrite lookup_insert_eq, bool_decide_eq_true_2 by left. done.
      * rewrite lookup_insert_ne by done. rewrite bool_decide_eq_false_2; [done|]. rewrite elem_of_cons. by intros [->|].
Qed.

Lemma blacken_coloured state stack :
  coloured state stack → (∀ a, a ∈ stack → ends a) → coloured (blacken state stack) [].
Proof.
  intros [Hb Hg] He. split; intros a; rewrite blacken_lookup; case_bool_decide as Hin.
  - intros _. by apply He.
  - apply Hb.
  - split; [done|]. intros H. by apply not_elem_of_nil in H.
  - rewrite Hg. split; [done|]. intros H. by apply not_elem_of_nil in H.
Qed.

Lemma find_cycle_from_spec starts state :
  coloured state [] →
  match find_cycle_from graph starts state with
  | Some (Some found) => on_cycle found
  | Some None => ∀ a, a ∈ starts → ends a
  | None => False
  end.
Proof.
  revert state. induction starts as [|start starts IH]; intros state Hc; cbn [find_cycle_from].
  { intros a Ha. by apply not_elem_of_nil in Ha. }
  assert (∀ st, coloured st [] → is_Some (st !! start) → ends start) as Hdone.
  { intros st [Hb Hg] [[] E]; [by apply Hb|]. apply Hg in E. by apply not_elem_of_nil in E. }
  assert (match find_cycle_from graph starts state with
    | Some (Some found) => on_cycle found | Some None => ∀ a, a ∈ starts → ends a | None => False end) as Hskip by (by apply IH).
  assert (match chase (S (S (size graph))) graph state [] start with
    | None => False | Some (inl found) => on_cycle found
    | Some (inr (state', stack)) => match find_cycle_from graph starts (blacken state' stack) with
        | Some (Some found) => on_cycle found | Some None => ∀ a, a ∈ start :: starts → ends a | None => False end end) as Hgo.
  { pose proof (chase_spec (S (S (size graph))) state [] start Hc (path_start start)) as H.
    destruct (chase_returns (S (S (size graph))) state [] start) as [r Er].
    { pose proof (subseteq_size (dom graph ∖ dom state) (dom graph) ltac:(set_solver)). rewrite size_dom in *. lia. }
    rewrite Er in *. destruct r as [found|[state' stack]]; [done|]. destruct H as (H1 & H2 & _ & H4).
    pose proof (blacken_coloured _ _ H1 H2) as Hc'. specialize (IH _ Hc').
    destruct (find_cycle_from graph starts (blacken state' stack)) as [[found|]|]; [done| |done].
    intros a [->|Ha]%elem_of_cons; [|by apply IH]. apply (Hdone _ Hc'). rewrite blacken_lookup. by case_bool_decide. }
  destruct (state !! start) as [[]|] eqn:E; [|by destruct (chase _ _ _ _ _) as [[|[]]|]..].
  destruct (find_cycle_from graph starts state) as [[found|]|]; [done| |done].
  intros a [->|Ha]%elem_of_cons; [|by apply Hskip]. apply (Hdone state Hc). by rewrite E.
Qed.

(** The search always ends; it reports a name on a cycle, or there is none. *)
Lemma find_cycle_spec keys :
  (∀ a, is_Some (graph !! a) → a ∈ keys) →
  match find_cycle graph keys with
  | Some (Some found) => on_cycle found
  | Some None => ∀ a, ends a
  | None => False
  end.
Proof.
  intros Hk. unfold find_cycle. pose proof (find_cycle_from_spec keys ∅) as H.
  destruct (find_cycle_from graph keys ∅) as [[found|]|]; cbn in H.
  - apply H. split; intros a; rewrite lookup_empty; [done|]. split; [done|]. intros Ha. by apply not_elem_of_nil in Ha.
  - intros a. destruct (graph !! a) as [b|] eqn:E; [|by apply ends_out]. apply H; [|by apply Hk].
    split; intros x; rewrite lookup_empty; [done|]. split; [done|]. intros Hx. by apply not_elem_of_nil in Hx.
  - apply H. split; intros a; rewrite lookup_empty; [done|]. split; [done|]. intros Ha. by apply not_elem_of_nil in Ha.
Qed.

End Cycles.

(** ** What a rewrite is *)

(** The target of the first rule for a name among the exact or among the
    subdomain rules. *)
Definition first_rule (rules : list RewriteRule) (subdomains : bool) (name : str) : option str :=
  (fun r => r.1.2) <$> List.find (fun r => bool_decide (r.1.1 = name) && Bool.eqb r.2 subdomains) (omap canonical_rule rules).

Lemma or_insert_new_lookup m k v k' :
  or_insert_new m k v !! k' = or_else (m !! k') (if bool_decide (k = k') then Some v else None).
Proof.
  unfold or_insert_new. destruct (m !! k) as [w|] eqn:E; case_bool_decide as Hk; subst; rewrite ?E; cbn.
  - done.
  - by destruct (m !! k').
  - by rewrite lookup_insert_eq.
  - rewrite lookup_insert_ne by done. by destruct (m !! k').
Qed.

Lemma or_else_assoc {A} (x y z : option A) : or_else (or_else x y) z = or_else x (or_else y z).
Proof. by destruct x. Qed.

Lemma claims_lookup (pick : bool) (l : list (str * str * bool)) (m : gmap str str) (k : str) :
  foldl (if pick then claim_apex else claim_exact) m l !! k =
  or_else (m !! k) ((fun r => r.1.2) <$> List.find (fun r => bool_decide (r.1.1 = k) && Bool.eqb r.2 pick) l).
Proof.
  revert m. induction l as [|[[from to] sub] l IH]; intros m; cbn [foldl List.find]; [by destruct (m !! k)|].
  assert (foldl (if pick then claim_apex else claim_exact) m ((from, to, sub) :: l) =
    foldl (if pick then claim_apex else claim_exact) (if Bool.eqb sub pick then or_insert_new m from to else m) l) as E.
  { cbn [foldl]. f_equal. by destruct pick, sub. }
  cbn [foldl] in E. rewrite E, IH. cbn [fst snd]. destruct (Bool.eqb sub pick); [|by rewrite andb_false_r].
  rewrite andb_true_r, or_insert_new_lookup, or_else_assoc. by case_bool_decide.
Qed.

Lemma sort_by_filter {A} (le : A → A → bool) (P : A → bool) l :
  (∀ a b, P a = true → P b = true → le a b = true) → List.filter P (sort_by le l) = List.filter P l.
Proof.
  intros Hle. assert (∀ x m, List.filter P (insert_by le x m) = if P x then x :: List.filter P m else List.filter P m) as Hins.
  { intros x m. induction m as [|y m IH]; cbn; [by destruct (P x)|]. destruct (le x y) eqn:E; cbn; [by destruct (P x)|].
    rewrite IH. destruct (P x) eqn:Ex, (P y) eqn:Ey; try done. by rewrite Hle in E. }
  induction l as [|x l IH]; [done|]. change (sort_by le (x :: l)) with (insert_by le x (sort_by le l)). by rewrite Hins, IH.
Qed.

Lemma find_filter {A} (P : A → bool) l : List.find P l = head (List.filter P l).
Proof. induction l as [|x l IH]; cbn; [done|]. by destruct (P x). Qed.

(** Sorting by depth does not change which entry of a name comes first. *)
Lemma suffix_lookup_sorted {V} (l : list (str * V)) s : suffix_lookup (sort_by deeper l) s = suffix_lookup l s.
Proof.
  unfold suffix_lookup. rewrite !find_filter, sort_by_filter; [done|]. intros a b Ha Hb.
  apply bool_decide_eq_true in Ha, Hb. unfold deeper. rewrite Ha, Hb. apply Nat.leb_refl.
Qed.

Lemma suffix_rules_lookup rules s : suffix_lookup (rr_suffix_rules (rewrite_build rules)) s = first_rule rules true s.
Proof.
  unfold rewrite_build, first_rule. cbn [rr_suffix_rules]. rewrite suffix_lookup_sorted. unfold suffix_lookup.
  induction (omap canonical_rule rules) as [|[[from to] sub] l IH]; cbn [List.find]; [done|].
  rewrite filter_cons. cbn [fst snd]. destruct sub; cbn [decide].
  - rewrite decide_True by done. cbn [map List.find fst snd]. case_bool_decide; cbn [andb]; [done|]. apply IH.
  - rewrite decide_False by done. rewrite andb_false_r. apply IH.
Qed.

Lemma first_rule_root rules sub : first_rule rules sub [] = None.
Proof.
  unfold first_rule. destruct (List.find _ _) as [r|] eqn:E; [|done]. apply find_Some_elem in E as [Hin Hk].
  apply andb_true_iff in Hk as [Hk _]. apply bool_decide_eq_true in Hk.
  apply list_elem_of_omap in Hin as (rule & _ & Hc). unfold canonical_rule in Hc.
  destruct (bool_decide _) eqn:Hf, (bool_decide (canonicalize_domain (rw_to rule) = [])); cbn in Hc; try done.
  injection Hc as <-. cbn in Hk. by rewrite Hk in Hf.
Qed.

Lemma rewrite_walk_spec index stripped current :
  suffix_lookup index [] = None →
  match rewrite_walk index stripped current with
  | Some out => ∃ p s t, current = p ++ DOT :: s ∧ suffix_lookup index s = Some t ∧ out = stripped ++ p ++ DOT :: t ∧
      ∀ p' s', current = p' ++ DOT :: s' → length s < length s' → suffix_lookup index s' = None
  | None => ∀ p s, current = p ++ DOT :: s → suffix_lookup index s = None
  end.
Proof.
  intros Hroot. revert stripped. induction current as [|c rest IH]; intros stripped; cbn [rewrite_walk].
  { intros [|? p] s E; discriminate. }
  destruct (Ascii.eqb_spec c DOT) as [->|Hc].
  - destruct rest as [|x rest'] eqn:Er.
    { intros [|? p] s E; [by injection E as <-|]. injection E as _ E. by destruct p. }
    rewrite <-Er in *. destruct (suffix_lookup index rest) as [t|] eqn:El.
    + exists [], rest, t. split_and!; [done|done|by rewrite <-app_assoc|]. intros [|? p'] s' E Hlen.
      * injection E as E. subst s'. lia.
      * injection E as _ E. rewrite E, length_app, length_cons in Hlen. lia.
    + specialize (IH (stripped ++ [DOT])). destruct (rewrite_walk index (stripped ++ [DOT]) rest) as [out|].
      * destruct IH as (p & s & t & E & Hl & -> & Hmax). exists (DOT :: p), s, t.
        split_and!; [by rewrite E|done|by rewrite <-app_assoc|]. intros [|? p'] s' E' Hlen.
        -- injection E' as <-. done.
        -- injection E' as <- E'. by eapply Hmax.
      * intros [|? p] s E; [by injection E as <-|]. injection E as _ E. by eapply IH.
  - specialize (IH (stripped ++ [c])). destruct (rewrite_walk index (stripped ++ [c]) rest) as [out|].
    + destruct IH as (p & s & t & E & Hl & -> & Hmax). exists (c :: p), s, t.
      split_and!; [by rewrite E|done|by rewrite <-app_assoc|]. intros [|? p'] s' E' Hlen; injection E' as ? E'; [done|]. by eapply Hmax.
    + intros [|? p] s E; injection E as ? E; [done|]. by eapply IH.
Qed.

Lemma rewrite_graph_lookup rules a : rewrite_graph rules !! a = first_rule rules false a.
Proof.
  assert (∀ m, foldl rewrite_edge m rules = foldl claim_exact m (omap canonical_rule rules)) as E.
  { induction rules as [|r rules IH]; intros m; [done|]. cbn [foldl]. rewrite IH.
    change (omap canonical_rule (r :: rules)) with (match canonical_rule r with Some y => y :: omap canonical_rule rules | None => omap canonical_rule rules end).
    assert (match canonical_rule r with Some y => claim_exact m y | None => m end = rewrite_edge m r) as <-; [|by destruct (canonical_rule r)].
    unfold canonical_rule, rewrite_edge, claim_exact. destruct (_ || _); cbn [fst snd]; by destruct (rw_match_subdomains r). }
  unfold rewrite_graph. rewrite E. pose proof (claims_lookup false (omap canonical_rule rules) ∅ a) as H. cbn in H. by rewrite H, lookup_empty.
Qed.

(** What a query is rewritten to.  The first exact rule for the name wins,
    then the first subdomain rule for the name itself, then the first subdomain
    rule for its longest parent that has one, with the labels before the parent
    kept; without such a rule the name is left alone. *)
Theorem rewrite_apply_exact rules domain :
  match rewrite_apply (rewrite_build rules) domain with
  | Some out =>
      first_rule rules false domain = Some out ∨
      first_rule rules false domain = None ∧ first_rule rules true domain = Some out ∨
      first_rule rules false domain = None ∧ first_rule rules true domain = None ∧
      ∃ p s t, domain = p ++ DOT :: s ∧ first_rule rules true s = Some t ∧ out = p ++ DOT :: t ∧
        ∀ p' s', domain = p' ++ DOT :: s' → length s < length s' → first_rule rules true s' = None
  | None =>
      first_rule rules false domain = None ∧ first_rule rules true domain = None ∧
      ∀ p s, domain = p ++ DOT :: s → first_rule rules true s = None
  end.
Proof.
  unfold rewrite_apply.
  assert (rr_forward (rewrite_build rules) !! domain = or_else (first_rule rules false domain) (first_rule rules true domain)) as ->.
  { unfold rewrite_build. cbn [rr_forward]. rewrite (claims_lookup true), (claims_lookup false), lookup_empty. done. }
  destruct (first_rule rules false domain) as [t|]; cbn [or_else]; [by left|].
  destruct (first_rule rules true domain) as [t|]; [by right; left|].
  assert (∀ s, suffix_lookup (rr_suffix_rules (rewrite_build rules)) s = first_rule rules true s) as Hl by apply suffix_rules_lookup.
  destruct (rr_has_subdomain_rules (rewrite_build rules)) eqn:Eh.
  - pose proof (rewrite_walk_spec (rr_suffix_rules (rewrite_build rules)) [] domain) as H. rewrite Hl, first_rule_root in H. specialize (H eq_refl).
    destruct (rewrite_walk _ _ _) as [out|].
    + destruct H as (p & s & t & E & Ht & -> & Hmax). right. right. split_and!; [done|done|]. exists p, s, t.
      rewrite <-Hl. split_and!; [done..|]. intros p' s' E' Hlen. rewrite <-Hl. by eapply Hmax.
    + split_and!; [done|done|]. intros p s E. rewrite <-Hl. by eapply H.
  - split_and!; [done|done|]. intros p s _. rewrite <-Hl. change (negb (bool_decide (rr_suffix_rules (rewrite_build rules) = [])) = false) in Eh.
    apply negb_false_iff, bool_decide_eq_true in Eh. by rewrite Eh.
Qed.

(** C39: the cycle check of the rewrite rules.  Whatever order the table yields
    its keys in, the check ends; the name it reports is on a cycle of exact
    rules, and when it reports none, following exact rules from any name
    leaves the table. *)
Theorem cycle_check_exact order rules :
  (∀ graph : gmap str str, ∀ a, is_Some (graph !! a) → a ∈ order graph) →
  match find_rewrite_cycle order rules with
  | Some (Some found) => tc (fun a b => first_rule rules false a = Some b) found found
  | Some None => ∀ a, ends (rewrite_graph rules) a ∧ ¬ tc (fun a b => first_rule rules false a = Some b) a a
  | None => False
  end.
Proof.
  intros Ho. pose proof (find_cycle_spec (rewrite_graph rules) (order (rewrite_graph rules)) (Ho _)) as H. unfold find_rewrite_cycle.
  assert (∀ a b, tc (edge (rewrite_graph rules)) a b ↔ tc (fun a b => first_rule rules false a = Some b) a b) as Htc.
  { intros a b. split; induction 1 as [x y He|x y z He _ IH]; unfold edge in *;
      rewrite ?rewrite_graph_lookup in *; [by apply tc_once|eapply tc_l; eauto|apply tc_once; unfold edge; by rewrite rewrite_graph_lookup|].
    eapply tc_l; [|done]. unfold edge. by rewrite rewrite_graph_lookup. }
  destruct (find_cycle _ _) as [[found|]|]; [by apply Htc| |done].
  intros a. split; [done|]. intros Hc. apply Htc in Hc. by apply (ends_not_on_cycle (rewrite_graph rules) a).
Qed.

Definition sample_rules : list RewriteRule :=
  [{| rw_from := lit "a.example.org"; rw_to := lit "B.example.org."; rw_match_subdomains := false |};
   {| rw_from := lit "b.example.org"; rw_to := lit "a.example.org"; rw_match_subdomains := false |};
   {| rw_from := lit "old.net"; rw_to := lit "new.net"; rw_match_subdomains := true |}].

Lemma cycle_check_exact_witness :
  find_rewrite_cycle (fun g => (map_to_list g).*1) sample_rules ≠ Some None ∧
  find_rewrite_cycle (fun g => (map_to_list g).*1) (drop 1 sample_rules) = Some None ∧
  ends (rewrite_graph (drop 1 sample_rules)) (lit "b.example.org").
Proof.
  split; [by vm_compute|]. assert (find_rewrite_cycle (fun g => (map_to_list g).*1) (drop 1 sample_rules) = Some None) as E by (by vm_compute).
  split; [done|]. pose proof (cycle_check_exact (fun g => (map_to_list g).*1) (drop 1 sample_rules)) as H. rewrite E in H. apply H.
  intros g a [b Hb]. apply list_elem_of_fmap. exists (a, b). split; [done|]. by apply elem_of_map_to_list.
Defined.
