(* ===== verification/LocalRecords.v ===== *)
(** * Records the operator defines: [src/dns/local.rs] and [src/dns/local_profile.rs]

    The global and the per-profile tables of static records, with subdomain
    matching, one local CNAME hop, reverse names and the answers that keep a
    local name from being asked upstream.  The order in which a hash map is
    drained is an argument. *)

From S2P Require Import Prelude RustStr SortedSlice DnsTypes Domain Rules Evaluator Shard Decision Limits Admission Ast Compiler CompilerIndex Engine CustomList Profile Schedule Cidr Resolver ResolverProofs Rewrite.

(** Names of [hickory_proto]: parsing text and printing it in ASCII. *)
Class LocalNames := {
  LName : Type;
  lname_from_str : str → option LName;
  lname_to_ascii : LName → str;
}.

(** ** Configuration *)

Inductive LocalDnsRecordType := TyA | TyAAAA | TyCNAME.

Record LocalDnsRecord := {
  ldr_domain : str;
  ldr_record_type : LocalDnsRecordType;
  ldr_value : str;
  ldr_match_subdomains : bool;
  ldr_ttl_secs : option Z;
}.

Record LocalDnsConfig := { ldc_ttl_secs : Z; ldc_nodata_for_missing_types : bool; ldc_records : list LocalDnsRecord }.

Definition is_address (q : RecordType) : bool := match q with RtA | RtAAAA => true | _ => false end.
Definition is_forward (q : RecordType) : bool := match q with RtA | RtAAAA | RtCNAME => true | _ => false end.

(** ** Reverse names *)

Definition ipv6_from_str (s : str) : option Z := parse_with read_ipv6_addr s.

Definition octets (a : Z) : list Z := [a / 2 ^ 24 mod 256; a / 2 ^ 16 mod 256; a / 2 ^ 8 mod 256; a mod 256]%Z.

Definition ipv4_to_ptr (a : Z) : str := join "." (map show_small (rev (octets a))) ++ lit ".in-addr.arpa".

Definition hex_digit (n : Z) : ascii := ascii_of_N (Z.to_N (if (n <? 10)%Z then 48 + n else 87 + n)).

(** The thirty-two nibbles, the last one first. *)
Definition nibbles_rev (a : Z) : list Z := map (fun i => (Z.shiftr a (4 * Z.of_nat i)) mod 16)%Z (seq 0 32).

Definition ipv6_to_ptr (a : Z) : str := concat (map (fun n => [hex_digit n; DOT]) (nibbles_rev a)) ++ lit "ip6.arpa".

(** *** Reverse names name one address *)

Definition swapped (a : Z) : Z :=
  ((a mod 256) * 2 ^ 24 + (a / 2 ^ 8 mod 256) * 2 ^ 16 + (a / 2 ^ 16 mod 256) * 2 ^ 8 + a / 2 ^ 24 mod 256)%Z.

Lemma swapped_octets a : (0 ≤ a < 2 ^ 32)%Z → octets (swapped a) = rev (octets a) ∧ (0 ≤ swapped a < 2 ^ 32)%Z.
Proof.
  intros Ha. unfold octets, swapped. cbn [rev app].
  pose proof (Z.mod_pos_bound a 256). pose proof (Z.mod_pos_bound (a / 2 ^ 8) 256).
  pose proof (Z.mod_pos_bound (a / 2 ^ 16) 256). pose proof (Z.mod_pos_bound (a / 2 ^ 24) 256).
  generalize dependent (a mod 256)%Z. intros d. generalize dependent (a / 2 ^ 8 mod 256)%Z. intros c.
  generalize dependent (a / 2 ^ 16 mod 256)%Z. intros b. generalize dependent (a / 2 ^ 24 mod 256)%Z. intros e. intros.
  split; [|lia]. f_equal; [|f_equal; [|f_equal; [|f_equal]]]; Z.div_mod_to_equations; lia.
Qed.

Lemma octets_inj a b : (0 ≤ a < 2 ^ 32)%Z → (0 ≤ b < 2 ^ 32)%Z → octets a = octets b → a = b.
Proof. unfold octets. intros Ha Hb [= H1 H2 H3 H4]. Z.div_mod_to_equations. lia. Qed.

Lemma ipv4_to_ptr_inj a b : (0 ≤ a < 2 ^ 32)%Z → (0 ≤ b < 2 ^ 32)%Z → ipv4_to_ptr a = ipv4_to_ptr b → a = b.
Proof.
  intros Ha Hb E. destruct (swapped_octets a Ha) as [Oa Ra], (swapped_octets b Hb) as [Ob Rb].
  assert (∀ x, ipv4_to_ptr x = join "." (map show_small (rev (octets x))) ++ lit ".in-addr.arpa") as Hp by done.
  rewrite !Hp, <-Oa, <-Ob in E. apply app_inv_tail in E.
  change (show_v4 (swapped a) = show_v4 (swapped b)) in E.
  pose proof (read_ipv4_show _ Ra) as Ea. rewrite E, (read_ipv4_show _ Rb) in Ea. injection Ea as Ea.
  apply octets_inj; [done..|]. apply (f_equal (@rev Z)) in Oa, Ob. rewrite rev_involutive in Oa, Ob. congruence.
Qed.

Lemma hex_digit_inj n m : (0 ≤ n < 16)%Z → (0 ≤ m < 16)%Z → hex_digit n = hex_digit m → n = m.
Proof.
  intros Hn Hm E. unfold hex_digit in E. apply (f_equal N_of_ascii) in E.
  rewrite !N_ascii_embedding in E by (destruct (Z.ltb_spec n 10), (Z.ltb_spec m 10); lia).
  destruct (Z.ltb_spec n 10), (Z.ltb_spec m 10); lia.
Qed.

Lemma nibbles_inj a b : (0 ≤ a < 2 ^ 128)%Z → (0 ≤ b < 2 ^ 128)%Z → nibbles_rev a = nibbles_rev b → a = b.
Proof.
  intros Ha Hb E. apply Z.bits_inj'. intros n Hn. destruct (Z.lt_ge_cases n 128) as [Hlt|Hge].
  - assert (Z.shiftr a (4 * (n / 4)) mod 16 = Z.shiftr b (4 * (n / 4)) mod 16)%Z as En.
    { assert (0 ≤ n / 4 < 32)%Z as Hi by (Z.div_mod_to_equations; lia).
      apply (f_equal (lookup (Z.to_nat (n / 4)))) in E. unfold nibbles_rev in E. rewrite !list_lookup_fmap, !lookup_seq_lt in E by lia.
      cbn in E. rewrite Z2Nat.id in E by lia. by injection E. }
    apply (f_equal (fun z => Z.testbit z (n mod 4))) in En. change 16%Z with (2 ^ 4)%Z in En.
    assert (0 ≤ n mod 4 < 4)%Z as Hm by (apply Z.mod_pos_bound; lia).
    rewrite !Z.mod_pow2_bits_low, !Z.shiftr_spec in En by lia.
    replace (n mod 4 + 4 * (n / 4))%Z with n in En by (Z.div_mod_to_equations; lia). done.
  - assert (∀ x, (0 ≤ x < 2 ^ 128)%Z → Z.testbit x n = false) as Hz; [|by rewrite !Hz].
    intros x Hx. destruct (decide (x = 0)%Z) as [->|]; [apply Z.bits_0|]. apply Z.bits_above_log2; [lia|].
    assert (Z.log2 x < 128)%Z by (apply Z.log2_lt_pow2; lia). lia.
Qed.

Lemma ipv6_to_ptr_inj a b : (0 ≤ a < 2 ^ 128)%Z → (0 ≤ b < 2 ^ 128)%Z → ipv6_to_ptr a = ipv6_to_ptr b → a = b.
Proof.
  intros Ha Hb E. apply nibbles_inj; [done..|]. unfold ipv6_to_ptr in E. apply app_inv_tail in E.
  assert (∀ x, Forall (fun n => 0 ≤ n < 16)%Z (nibbles_rev x)) as Hr.
  { intros x. unfold nibbles_rev. apply Forall_fmap, Forall_forall. intros i _. apply Z.mod_pos_bound. lia. }
  assert (length (nibbles_rev a) = length (nibbles_rev b)) as Hlen by (unfold nibbles_rev; by rewrite !length_map).
  revert E Hlen. generalize (Hr a) (Hr b). generalize (nibbles_rev a) (nibbles_rev b).
  induction l as [|n l IH]; intros [|m l'] Hn Hm E Hlen; [done|done|done|]. cbn in E. injection E as E1 E2.
  inversion_clear Hn. inversion_clear Hm. f_equal; [by apply hex_digit_inj|]. apply IH; [done..|]. cbn in Hlen. lia.
Qed.

Section Local.
Context {LN : LocalNames}.

(** [handler::ascii_domain] *)
Definition ascii_domain (n : LName) : str :=
  let domain := lname_to_ascii n in default domain (strip_suffix (lit ".") domain).

(** Record data: what the program builds and reads, and the rest as bytes. *)
Inductive LData :=
| DA (ip : Z) | DAAAA (ip : Z) | DCNAME (target : LName) | DPTR (target : LName)
| DHINFO (cpu : str) | DSOA (minimum : Z) | DOther (rt : RecordType) (rdata : str).

Record LRecord := { lr_name : LName; lr_ttl : Z; lr_data : LData }.

Definition record_type (r : LRecord) : RecordType :=
  match lr_data r with
  | DA _ => RtA | DAAAA _ => RtAAAA | DCNAME _ => RtCNAME | DPTR _ => RtPTR
  | DHINFO _ => RtHINFO | DSOA _ => RtSOA | DOther rt _ => rt
  end.

Inductive LocalLookup := LHit (records : list LRecord) (apex : str) | LNodata (ttl : Z) | LMiss.

Record LocalData := {
  ld_forward : gmap str (list LRecord);
  ld_reverse : gmap str (list LRecord);
  ld_suffix_index : list (str * list LRecord);
  ld_has_subdomain_records : bool;
  ld_ttl : Z;
  ld_nodata_for_missing_types : bool;
}.

(** ** Building *)

(** [entry(k).or_default().push(v)]. *)
Definition push_record (k : str) (r : LRecord) (m : gmap str (list LRecord)) : gmap str (list LRecord) :=
  <[k := default [] (m !! k) ++ [r]]> m.

(** A row as the tables hold it: the key, whether it covers subdomains, the
    record, and the reverse record with its key.  A row that does not parse is
    skipped. *)
Definition local_row (default_ttl : Z) (entry : LocalDnsRecord) : option (str * bool * LRecord * option (str * LRecord)) :=
  let ttl := default default_ttl (ldr_ttl_secs entry) in
  let domain := canonicalize_domain (ldr_domain entry) in
  name ← lname_from_str (domain ++ [DOT]);
  let reverse ptr_domain :=
    (fun ptr_name => (ptr_domain, {| lr_name := ptr_name; lr_ttl := ttl; lr_data := DPTR name |})) <$> lname_from_str (ptr_domain ++ [DOT]) in
  let row data rev := Some (domain, ldr_match_subdomains entry, {| lr_name := name; lr_ttl := ttl; lr_data := data |}, rev) in
  match ldr_record_type entry with
  | TyA => ip ← ipv4_from_str (ldr_value entry); row (DA ip) (reverse (ipv4_to_ptr ip))
  | TyAAAA => ip ← ipv6_from_str (ldr_value entry); row (DAAAA ip) (reverse (ipv6_to_ptr ip))
  | TyCNAME => target ← lname_from_str (canonicalize_domain (ldr_value entry) ++ [DOT]); row (DCNAME target) None
  end.

(** The maps under construction: forward, reverse and subdomain groups. *)
Definition add_row (st : gmap str (list LRecord) * gmap str (list LRecord) * gmap str (list LRecord))
    (row : str * bool * LRecord * option (str * LRecord)) :=
  let '(forward, reverse, groups) := st in
  let '(key, sub, record, ptr) := row in
  (push_record key record forward,
   match ptr with Some (k, r) => push_record k r reverse | None => reverse end,
   if (sub : bool) then push_record key record groups else groups).

Definition add_entry (default_ttl : Z) st (entry : LocalDnsRecord) :=
  match local_row default_ttl entry with Some row => add_row st row | None => st end.

Context (drain : gmap str (list LRecord) → list (str * list LRecord)).

Definition build_data (config : LocalDnsConfig) : LocalData :=
  let '(forward, reverse, groups) := foldl (add_entry (ldc_ttl_secs config)) (∅, ∅, ∅) (ldc_records config) in
  let suffix_index := sort_by deeper (drain groups) in
  {| ld_forward := forward; ld_reverse := reverse; ld_suffix_index := suffix_index;
     ld_has_subdomain_records := negb (bool_decide (length suffix_index = 0)); ld_ttl := ldc_ttl_secs config;
     ld_nodata_for_missing_types := ldc_nodata_for_missing_types config |}.

(** ** Lookups *)

Definition reowned (owner : option LName) (r : LRecord) : LRecord :=
  match owner with
  | Some name => {| lr_name := name; lr_ttl := lr_ttl r; lr_data := lr_data r |}
  | None => r
  end.

Definition of_type (q : RecordType) (l : list LRecord) : list LRecord := filter (fun r => record_type r = q) l.

Definition cname_target (r : LRecord) : option LName := match lr_data r with DCNAME t => Some t | _ => None end.

(** The records of the type, or the CNAME and what its target has here. *)
Definition filter_or_cname_follow (records : list LRecord) (q : RecordType) (forward : gmap str (list LRecord)) (owner : option LName)
  : option (list LRecord) :=
  match map (reowned owner) (of_type q records) with
  | [] =>
    if is_address q then
      cname ← List.find (fun r => bool_decide (record_type r = RtCNAME)) records;
      target ← cname_target cname;
      Some (reowned owner cname :: match forward !! ascii_domain target with Some rs => of_type q rs | None => [] end)
    else None
  | direct => Some direct
  end.

Definition resolve_forward (records : list LRecord) (q : RecordType) (forward : gmap str (list LRecord)) (nodata : bool) (ttl : Z)
    (owner : option LName) (apex : str) : LocalLookup :=
  match filter_or_cname_follow records q forward owner with
  | Some rs => LHit rs apex
  | None => if nodata then LNodata ttl else LMiss
  end.

Definition ptr_apex (records : list LRecord) : str :=
  match records with
  | r :: _ => match lr_data r with DPTR target => ascii_domain target | _ => [] end
  | [] => []
  end.

Definition local_lookup (data : LocalData) (domain : str) (q : RecordType) : LocalLookup :=
  let resolve rs owner apex := resolve_forward rs q (ld_forward data) (ld_nodata_for_missing_types data) (ld_ttl data) owner apex in
  match ld_forward data !! domain with
  | Some rs => resolve rs None domain
  | None =>
    match (if ld_has_subdomain_records data && is_forward q
           then find_map (fun s => pair s <$> suffix_lookup (ld_suffix_index data) s) (after_dots domain) else None) with
    | Some (s, rs) => resolve rs (lname_from_str (domain ++ [DOT])) s
    | None =>
      match (if bool_decide (q = RtPTR) then ld_reverse data !! domain else None) with
      | Some rs => LHit rs (ptr_apex rs)
      | None => LMiss
      end
    end
  end.

Definition has_domain (data : LocalData) (domain : str) : bool := bool_decide (is_Some (ld_forward data !! domain)).

(** ** The table of a profile *)

Record ProfileLocalRecords := {
  plr_forward : gmap str (list LRecord);
  plr_suffix_index : list (str * list LRecord);
  plr_has_subdomain_records : bool;
}.

Definition profile_build (records : list LocalDnsRecord) (default_ttl : Z) : ProfileLocalRecords :=
  let '(forward, _, groups) := foldl (add_entry default_ttl) (∅, ∅, ∅) records in
  let suffix_index := sort_by deeper (drain groups) in
  {| plr_forward := forward; plr_suffix_index := suffix_index;
     plr_has_subdomain_records := negb (bool_decide (length suffix_index = 0)) |}.

Definition lookup_with_apex (t : ProfileLocalRecords) (domain : str) (q : RecordType) : option (list LRecord * str) :=
  if is_forward q then
    let exact := rs ← plr_forward t !! domain; (fun l => (l, domain)) <$> filter_or_cname_follow rs q (plr_forward t) None in
    match exact with
    | Some hit => Some hit
    | None =>
      if plr_has_subdomain_records t then
        find_map (fun s => rs ← suffix_lookup (plr_suffix_index t) s;
          (fun l => (l, s)) <$> filter_or_cname_follow rs q (plr_forward t) (lname_from_str (domain ++ [DOT]))) (after_dots domain)
      else None
    end
  else None.

(** ** What the tables hold *)

Definition some_list {A} (l : list A) : option (list A) := match l with [] => None | _ => Some l end.

Lemma some_list_None {A} (l : list A) : some_list l = None ↔ l = [].
Proof. by destruct l. Qed.

Lemma some_list_nonempty {A} (l : list A) : l ≠ [] → some_list l = Some l.
Proof. by destruct l. Qed.

Definition values_at {A} (k : str) (l : list (str * A)) : list A := map snd (filter (fun x => x.1 = k) l).

Definition grouped (l : list (str * LRecord)) : gmap str (list LRecord) := foldl (fun m x => push_record x.1 x.2 m) ∅ l.

Lemma grouped_snoc l x : grouped (l ++ [x]) = push_record x.1 x.2 (grouped l).
Proof. unfold grouped. by rewrite foldl_snoc. Qed.

Lemma grouped_lookup l k : grouped l !! k = some_list (values_at k l).
Proof.
  induction l as [|[k' r] l IH] using rev_ind; [done|]. rewrite grouped_snoc. unfold push_record, values_at in *. cbn [fst snd].
  rewrite filter_app, filter_cons, filter_nil, map_app. cbn [fst]. destruct (decide (k' = k)) as [->|Hne].
  - rewrite lookup_insert_eq, IH. cbn [map snd]. by destruct (map snd (filter _ l)).
  - by rewrite lookup_insert_ne, IH, app_nil_r by done.
Qed.

(** The rows in use, and the records they give. *)
Definition rows (ttl : Z) (entries : list LocalDnsRecord) := omap (local_row ttl) entries.

Definition forward_rows ttl entries : list (str * LRecord) := map (fun r => (r.1.1.1, r.1.2)) (rows ttl entries).
Definition wildcard_rows ttl entries : list (str * LRecord) := map (fun r => (r.1.1.1, r.1.2)) (filter (fun r => r.1.1.2 = true) (rows ttl entries)).
Definition reverse_rows ttl entries : list (str * LRecord) := omap snd (rows ttl entries).

Lemma build_maps ttl entries :
  foldl (add_entry ttl) (∅, ∅, ∅) entries =
  (grouped (forward_rows ttl entries), grouped (reverse_rows ttl entries), grouped (wildcard_rows ttl entries)).
Proof.
  unfold forward_rows, reverse_rows, wildcard_rows, rows.
  induction entries as [|e entries IH] using rev_ind; [done|]. rewrite foldl_snoc, IH, omap_app.
  unfold add_entry. change (omap (local_row ttl) [e]) with (match local_row ttl e with Some y => [y] | None => [] end).
  destruct (local_row ttl e) as [[[[key sub] record] ptr]|]; cbn [add_row]; [|by rewrite !app_nil_r].
  rewrite !map_app, filter_app, filter_cons, filter_nil, omap_app, map_app. cbn [map fst snd]. rewrite grouped_snoc. cbn [fst snd].
  f_equal; [f_equal|].
  - destruct ptr as [[k r]|]; [change (omap snd [(key, sub, record, Some (k, r))]) with [(k, r)]; by rewrite grouped_snoc|].
    change (omap snd [(key, sub, record, @None (str * LRecord))]) with (@nil (str * LRecord)). by rewrite app_nil_r.
  - destruct sub; [rewrite decide_True by done|rewrite decide_False by done]; cbn [map fst snd]; [by rewrite grouped_snoc|by rewrite app_nil_r].
Qed.

(** Draining a map and sorting it keeps every entry findable. *)
Lemma suffix_lookup_drained (m : gmap str (list LRecord)) l s :
  l ≡ₚ map_to_list m → suffix_lookup (sort_by deeper l) s = m !! s.
Proof.
  intros Hp. rewrite suffix_lookup_sorted. unfold suffix_lookup. destruct (List.find _ l) as [[k v]|] eqn:E; cbn.
  - apply find_Some_elem in E as [Hin Hk]. apply bool_decide_eq_true in Hk. cbn in Hk. subst k.
    rewrite Hp in Hin. symmetry. by apply elem_of_map_to_list.
  - destruct (m !! s) as [v|] eqn:Em; [|done]. apply elem_of_map_to_list in Em. rewrite <-Hp in Em.
    apply find_None_all with (x := (s, v)) in E; [|done]. cbn in E. by rewrite bool_decide_eq_true_2 in E.
Qed.

Lemma find_map_parents {B} (f : str → option B) domain :
  match find_map f (after_dots domain) with
  | Some y => ∃ p s, domain = p ++ DOT :: s ∧ f s = Some y ∧
      ∀ p' s', domain = p' ++ DOT :: s' → length s < length s' → f s' = None
  | None => ∀ p s, domain = p ++ DOT :: s → f s = None
  end.
Proof.
  destruct (find_map f (after_dots domain)) as [y|] eqn:E.
  - revert y E. induction domain as [|c rest IH]; intros y; cbn [after_dots]; [done|]. case_decide as Hc.
    + subst c. cbn [find_map]. destruct (f rest) as [z|] eqn:Ef.
      * intros [= ->]. exists [], rest. split_and!; [done..|]. intros [|? p'] s' E' Hlen; [injection E' as E'; subst; lia|].
        injection E' as _ ->. rewrite length_app, length_cons in Hlen. lia.
      * intros E. destruct (IH y E) as (p & s & -> & Hf & Hmax). exists (DOT :: p), s. split_and!; [done..|].
        intros [|? p'] s' E' Hlen; [injection E' as E'; by subst|]. injection E' as _ E'. by eapply Hmax.
    + intros E. destruct (IH y E) as (p & s & -> & Hf & Hmax). exists (c :: p), s. split_and!; [done..|].
      intros [|? p'] s' E' Hlen; injection E' as Hx E'; [done|]. by eapply Hmax.
  - intros p s ->. apply (find_map_None f _ E). apply after_dots_spec. by exists p.
Qed.

(** ** What a query is answered *)

Section Answers.
Context (cfg : LocalDnsConfig).

Definition records_at (d : str) : list LRecord := values_at d (forward_rows (ldc_ttl_secs cfg) (ldc_records cfg)).
Definition wildcards_at (d : str) : list LRecord := values_at d (wildcard_rows (ldc_ttl_secs cfg) (ldc_records cfg)).
Definition reverse_at (d : str) : list LRecord := values_at d (reverse_rows (ldc_ttl_secs cfg) (ldc_records cfg)).

(** The answer from the records of a name: those of the type, else its CNAME
    with the local records of the target, else that there is none. *)
Definition answer (records : list LRecord) (q : RecordType) (owner : option LName) (apex : str) : LocalLookup :=
  let cname := if is_address q then List.find (fun r => bool_decide (record_type r = RtCNAME)) records ≫= fun r => pair r <$> cname_target r else None in
  if bool_decide (of_type q records ≠ []) then LHit (map (reowned owner) (of_type q records)) apex
  else match cname with
       | Some (r, target) => LHit (reowned owner r :: of_type q (records_at (ascii_domain target))) apex
       | None => if ldc_nodata_for_missing_types cfg then LNodata (ldc_ttl_secs cfg) else LMiss
       end.

Lemma resolve_forward_answer forward records q owner apex :
  (∀ d, forward !! d = some_list (records_at d)) →
  resolve_forward records q forward (ldc_nodata_for_missing_types cfg) (ldc_ttl_secs cfg) owner apex = answer records q owner apex.
Proof.
  intros Hf. unfold resolve_forward, filter_or_cname_follow, answer. destruct (of_type q records) as [|r rs] eqn:Et.
  - rewrite bool_decide_eq_false_2 by (intros H; by apply H). cbn [map]. destruct (is_address q); [|done].
    destruct (List.find _ records) as [c|]; [|done]. cbn. destruct (cname_target c) as [t|]; [|done]. cbn.
    rewrite Hf. by destruct (records_at (ascii_domain t)).
  - rewrite bool_decide_eq_true_2 by done. cbn [map]. reflexivity.
Qed.

Context (drains : ∀ m : gmap str (list LRecord), drain m ≡ₚ map_to_list m).

Lemma build_data_forward d : ld_forward (build_data cfg) !! d = some_list (records_at d).
Proof. unfold build_data. rewrite build_maps. cbn [ld_forward]. apply grouped_lookup. Qed.

Lemma build_data_reverse d : ld_reverse (build_data cfg) !! d = some_list (reverse_at d).
Proof. unfold build_data. rewrite build_maps. cbn [ld_reverse]. apply grouped_lookup. Qed.

Lemma build_data_suffix s : suffix_lookup (ld_suffix_index (build_data cfg)) s = some_list (wildcards_at s).
Proof.
  unfold build_data. rewrite build_maps. cbn [ld_suffix_index]. rewrite (suffix_lookup_drained _ _ _ (drains _)). apply grouped_lookup.
Qed.

Lemma build_data_flag s : ld_has_subdomain_records (build_data cfg) = false → wildcards_at s = [].
Proof.
  pose proof (build_data_suffix s) as H. unfold build_data in *. rewrite build_maps in *. cbn [ld_suffix_index ld_has_subdomain_records] in *.
  intros E%negb_false_iff%bool_decide_eq_true. apply nil_length_inv in E. rewrite E in H. by apply some_list_None.
Qed.

Lemma local_lookup_cases domain q :
  local_lookup (build_data cfg) domain q =
  match some_list (records_at domain) with
  | Some rs => answer rs q None domain
  | None =>
    match (if is_forward q then find_map (fun s => pair s <$> some_list (wildcards_at s)) (after_dots domain) else None) with
    | Some (s, rs) => answer rs q (lname_from_str (domain ++ [DOT])) s
    | None =>
      match (if bool_decide (q = RtPTR) then some_list (reverse_at domain) else None) with
      | Some rs => LHit rs (ptr_apex rs)
      | None => LMiss
      end
    end
  end.
Proof.
  unfold local_lookup. rewrite build_data_forward, build_data_reverse.
  assert (ld_nodata_for_missing_types (build_data cfg) = ldc_nodata_for_missing_types cfg ∧ ld_ttl (build_data cfg) = ldc_ttl_secs cfg) as [-> ->].
  { unfold build_data. by rewrite build_maps. }
  destruct (some_list (records_at domain)) as [rs|]; [apply resolve_forward_answer, build_data_forward|].
  assert (∀ l, find_map (fun s => pair s <$> suffix_lookup (ld_suffix_index (build_data cfg)) s) l = find_map (fun s => pair s <$> some_list (wildcards_at s)) l) as Hm.
  { induction l as [|s l IH]; [done|]. cbn. rewrite build_data_suffix. by destruct (some_list (wildcards_at s)). }
  rewrite Hm. destruct (is_forward q); [|by rewrite andb_false_r]. rewrite andb_true_r.
  destruct (ld_has_subdomain_records (build_data cfg)) eqn:Eh.
  - destruct (find_map _ _) as [[s rs]|]; [|done]. apply resolve_forward_answer, build_data_forward.
  - assert (find_map (fun s => pair s <$> some_list (wildcards_at s)) (after_dots domain) = None) as ->; [|done].
    induction (after_dots domain) as [|s l IH]; [done|]. cbn. by rewrite (build_data_flag s Eh).
Qed.

End Answers.

(** ** The table of a profile *)

Lemma profile_lookup_spec records ttl domain q (drains : ∀ m : gmap str (list LRecord), drain m ≡ₚ map_to_list m) :
  let at_name d := values_at d (forward_rows ttl records) in
  let wild d := values_at d (wildcard_rows ttl records) in
  let forward := grouped (forward_rows ttl records) in
  lookup_with_apex (profile_build records ttl) domain q =
  if is_forward q then
    match filter_or_cname_follow (at_name domain) q forward None with
    | Some rs => Some (rs, domain)
    | None => find_map (fun s => (fun l => (l, s)) <$> filter_or_cname_follow (wild s) q forward (lname_from_str (domain ++ [DOT]))) (after_dots domain)
    end
  else None.
Proof.
  intros at_name wild forward. unfold lookup_with_apex, profile_build. rewrite build_maps. cbn [plr_forward plr_suffix_index plr_has_subdomain_records].
  destruct (is_forward q); [|done]. fold forward.
  assert (∀ rs owner, filter_or_cname_follow [] q rs owner = None) as Hnil by (intros; cbn; by destruct (is_address q)).
  assert ((rs ← forward !! domain; (fun l => (l, domain)) <$> filter_or_cname_follow rs q forward None) =
    (fun l => (l, domain)) <$> filter_or_cname_follow (at_name domain) q forward None) as ->.
  { assert (forward !! domain = some_list (at_name domain)) as -> by apply grouped_lookup. destruct (at_name domain); [by rewrite Hnil|done]. }
  destruct (filter_or_cname_follow (at_name domain) q forward None) as [rs|]; [done|]. cbn.
  assert (∀ s, suffix_lookup (sort_by deeper (drain (grouped (wildcard_rows ttl records)))) s = some_list (wild s)) as Hs.
  { intros s. rewrite (suffix_lookup_drained _ _ _ (drains _)). apply grouped_lookup. }
  assert (∀ l owner, find_map (fun s => rs ← suffix_lookup (sort_by deeper (drain (grouped (wildcard_rows ttl records)))) s;
      (fun l => (l, s)) <$> filter_or_cname_follow rs q forward owner) l
    = find_map (fun s => (fun l => (l, s)) <$> filter_or_cname_follow (wild s) q forward owner) l) as Hm.
  { intros l owner. induction l as [|s l IH]; [done|]. cbn [find_map]. rewrite Hs, IH. destruct (wild s); [by rewrite Hnil|done]. }
  rewrite Hm. destruct (negb _) eqn:En; [done|]. apply negb_false_iff, bool_decide_eq_true, nil_length_inv in En.
  induction (after_dots domain) as [|s l IH]; [done|]. cbn [find_map].
  assert (wild s = []) as ->; [|by rewrite Hnil]. apply some_list_None. by rewrite <-Hs, En.
Qed.

(** *** Reverse rows *)

Lemma ipv6_from_str_range s a : ipv6_from_str s = Some a → (0 ≤ a < 2 ^ 128)%Z.
Proof.
  unfold ipv6_from_str, parse_with. destruct (read_ipv6_addr s) as [[b [|]]|] eqn:E; [|done..].
  intros [= <-]. by eapply read_ipv6_range.
Qed.

(** The two reverse zones do not meet. *)
Lemma ptr_zones_apart a b : ipv4_to_ptr a ≠ ipv6_to_ptr b.
Proof.
  unfold ipv4_to_ptr, ipv6_to_ptr. intros E. apply (f_equal (fun s => take 7 (rev s))) in E. rewrite !rev_app_distr in E.
  rewrite !take_app_le in E by (cbn; lia). by vm_compute in E.
Qed.

(** The reverse record a row gives for an IPv4 address. *)
Definition v4_reverse (ttl a : Z) (ptr_name : LName) (entry : LocalDnsRecord) : option LRecord :=
  name ← lname_from_str (canonicalize_domain (ldr_domain entry) ++ [DOT]);
  match ldr_record_type entry with
  | TyA => if bool_decide (ipv4_from_str (ldr_value entry) = Some a)
           then Some {| lr_name := ptr_name; lr_ttl := default ttl (ldr_ttl_secs entry); lr_data := DPTR name |} else None
  | _ => None
  end.

(** A reverse query for an IPv4 address finds the names of the rows with that
    address, in their order, and nothing else. *)
Lemma reverse_at_v4 cfg a ptr_name :
  (0 ≤ a < 2 ^ 32)%Z → lname_from_str (ipv4_to_ptr a ++ [DOT]) = Some ptr_name →
  reverse_at cfg (ipv4_to_ptr a) = omap (v4_reverse (ldc_ttl_secs cfg) a ptr_name) (ldc_records cfg).
Proof.
  intros Ha Hp. unfold reverse_at, reverse_rows, rows, values_at. induction (ldc_records cfg) as [|e l IH]; [done|].
  change (omap (v4_reverse (ldc_ttl_secs cfg) a ptr_name) (e :: l)) with
    (match v4_reverse (ldc_ttl_secs cfg) a ptr_name e with
     | Some y => y :: omap (v4_reverse (ldc_ttl_secs cfg) a ptr_name) l | None => omap (v4_reverse (ldc_ttl_secs cfg) a ptr_name) l end).
  rewrite <-IH. clear IH.
  assert (∀ x : option (str * LRecord), match local_row (ldc_ttl_secs cfg) e with Some r => r.2 | None => None end = x →
    omap snd (omap (local_row (ldc_ttl_secs cfg)) (e :: l)) =
      match x with Some y => y :: omap snd (omap (local_row (ldc_ttl_secs cfg)) l) | None => omap snd (omap (local_row (ldc_ttl_secs cfg)) l) end) as Hx.
  { intros x <-. change (omap (local_row (ldc_ttl_secs cfg)) (e :: l)) with
      (match local_row (ldc_ttl_secs cfg) e with Some y => y :: omap (local_row (ldc_ttl_secs cfg)) l | None => omap (local_row (ldc_ttl_secs cfg)) l end).
    by destruct (local_row (ldc_ttl_secs cfg) e) as [[? [?|]]|]. }
  rewrite (Hx _ eq_refl). unfold local_row, v4_reverse. destruct (lname_from_str (canonicalize_domain (ldr_domain e) ++ [DOT])) as [name|]; [|done]. cbn [mbind option_bind fmap option_fmap option_map fst snd].
  destruct (ldr_record_type e).
  - destruct (ipv4_from_str (ldr_value e)) as [ip|] eqn:Ei; [|by rewrite bool_decide_eq_false_2]. cbn [mbind option_bind fmap option_fmap option_map fst snd]. apply ipv4_from_str_range in Ei.
    destruct (decide (ip = a)) as [->|Hne].
    + rewrite bool_decide_eq_true_2, Hp by done. cbn [mbind option_bind fmap option_fmap option_map fst snd]. by rewrite filter_cons, decide_True.
    + rewrite bool_decide_eq_false_2 by congruence. destruct (lname_from_str (ipv4_to_ptr ip ++ [DOT])) as [pn|]; [|done]. cbn [mbind option_bind fmap option_fmap option_map fst snd].
      rewrite filter_cons, decide_False; [done|]. cbn [mbind option_bind fmap option_fmap option_map fst snd]. intros E. by apply ipv4_to_ptr_inj in E.
  - destruct (ipv6_from_str (ldr_value e)) as [ip|] eqn:Ei; [|done]. cbn [mbind option_bind fmap option_fmap option_map fst snd]. destruct (lname_from_str (ipv6_to_ptr ip ++ [DOT])) as [pn|]; [|done]. cbn [mbind option_bind fmap option_fmap option_map fst snd].
    rewrite filter_cons, decide_False; [done|]. cbn [mbind option_bind fmap option_fmap option_map fst snd]. intros E. symmetry in E. by apply ptr_zones_apart in E.
  - by destruct (lname_from_str (canonicalize_domain (ldr_value e) ++ [DOT])).
Qed.

(** ** Properties *)

(** What a local name is answered.  A configured name is answered from its
    own rows, and with the missing-type rule on it is never passed upstream
    whatever the type asked.  Another name is answered, for address and CNAME
    queries, from the rows of its longest parent that covers subdomains, owned
    by the queried name; a reverse query from the addresses of the rows; and
    every other query is passed on.  The order a hash map is drained in does
    not matter. *)
Theorem local_lookup_exact cfg domain q :
  (∀ m : gmap str (list LRecord), drain m ≡ₚ map_to_list m) →
  (records_at cfg domain ≠ [] → local_lookup (build_data cfg) domain q = answer cfg (records_at cfg domain) q None domain ∧
     (ldc_nodata_for_missing_types cfg = true → local_lookup (build_data cfg) domain q ≠ LMiss)) ∧
  (records_at cfg domain = [] → is_forward q = true → ∀ p s, domain = p ++ DOT :: s → wildcards_at cfg s ≠ [] →
     (∀ p' s', domain = p' ++ DOT :: s' → length s < length s' → wildcards_at cfg s' = []) →
     local_lookup (build_data cfg) domain q = answer cfg (wildcards_at cfg s) q (lname_from_str (domain ++ [DOT])) s) ∧
  (records_at cfg domain = [] → (is_forward q = false ∨ ∀ p s, domain = p ++ DOT :: s → wildcards_at cfg s = []) →
     local_lookup (build_data cfg) domain q =
       if bool_decide (q = RtPTR ∧ reverse_at cfg domain ≠ []) then LHit (reverse_at cfg domain) (ptr_apex (reverse_at cfg domain)) else LMiss).
Proof.
  intros Hd. rewrite (local_lookup_cases cfg Hd). split_and!.
  - intros Hr. rewrite some_list_nonempty by done. split; [done|]. intros Hn. unfold answer. rewrite Hn.
    destruct (bool_decide _); [done|]. by destruct (if is_address q then _ else _) as [[]|].
  - intros -> Hq p s -> Hw Hmax. rewrite Hq. cbn [some_list].
    pose proof (find_map_parents (fun s => pair s <$> some_list (wildcards_at cfg s)) (p ++ DOT :: s)) as H.
    destruct (find_map _ _) as [[s' rs]|].
    + destruct H as (p' & s0 & E & Hf & Hm). destruct (some_list (wildcards_at cfg s0)) as [l|] eqn:El; [|done]. injection Hf as -> ->.
      assert (length s = length s') as Hlen.
      { destruct (lt_eq_lt_dec (length s) (length s')) as [[Hl|Hl]|Hl]; [|done|].
        - rewrite (Hmax p' s' E Hl) in El. done.
        - specialize (Hm p s eq_refl Hl). by rewrite some_list_nonempty in Hm. }
      apply app_inj_2 in E as [-> [= ->]]; [|cbn; lia]. rewrite some_list_nonempty in El by done. by injection El as <-.
    + specialize (H p s eq_refl). by rewrite some_list_nonempty in H.
  - intros -> Hno. cbn [some_list].
    assert ((if is_forward q then find_map (fun s => pair s <$> some_list (wildcards_at cfg s)) (after_dots domain) else None) = None) as ->.
    { destruct Hno as [->|Hno]; [done|]. destruct (is_forward q); [|done].
      pose proof (find_map_parents (fun s => pair s <$> some_list (wildcards_at cfg s)) domain) as H.
      destruct (find_map _ _) as [y|]; [|done]. destruct H as (p & s & E & Hf & _). by rewrite (Hno p s E) in Hf. }
    destruct (decide (q = RtPTR)) as [->|Hq]; [|by rewrite (bool_decide_eq_false_2 (q = RtPTR)), bool_decide_eq_false_2 by naive_solver].
    rewrite bool_decide_eq_true_2 by done. destruct (reverse_at cfg domain) as [|r rs]; cbn [some_list].
    + rewrite bool_decide_eq_false_2; [done|]. by intros [_ ?].
    + rewrite bool_decide_eq_true_2; [done|]. by split.
Qed.

End Local.

(** ** A sample *)

(** Names as their text. *)
#[local] Instance text_names : LocalNames := {| LName := str; lname_from_str := Some; lname_to_ascii := fun s => s |}.

Definition sample_local : LocalDnsConfig :=
  {| ldc_ttl_secs := 3600; ldc_nodata_for_missing_types := true;
     ldc_records :=
       [{| ldr_domain := lit "NAS.home."; ldr_record_type := TyA; ldr_value := lit "192.168.1.5"; ldr_match_subdomains := false; ldr_ttl_secs := None |};
        {| ldr_domain := lit "lab.home"; ldr_record_type := TyCNAME; ldr_value := lit "nas.home"; ldr_match_subdomains := true; ldr_ttl_secs := Some 60%Z |}] |}.

Lemma local_lookup_exact_witness :
  (∃ records, local_lookup (build_data map_to_list sample_local) (lit "a.b.lab.home") RtA = LHit records (lit "lab.home") ∧ length records = 2) ∧
  local_lookup (build_data map_to_list sample_local) (lit "nas.home") RtMX ≠ LMiss.
Proof.
  split; [eexists; split; [by vm_compute|by vm_compute]|].
  destruct (local_lookup_exact map_to_list sample_local (lit "nas.home") RtMX (fun m => reflexivity _)) as [H _].
  apply H; [by vm_compute|done].
Defined.
