(* ===== verification/ClientSubnet.v ===== *)
(** * What an upstream learns of a client: [src/dns/edns/client_subnet.rs] and [EcsPolicy] of [src/profiles/profile.rs]

    The option a query carries upstream: the address of the client cut to a
    prefix that the policy of its profile chooses. *)

From S2P Require Import Prelude RustStr Cidr.

Inductive EcsMode := EcsOff | EcsCoarse | EcsSubnet.

Record EcsConfig := { ecs_enabled : bool; ecs_source_prefix_v4 : Z; ecs_source_prefix_v6 : Z; ecs_mode : EcsMode }.

Record ProfileEcsConfig := { pec_mode : option EcsMode; pec_source_prefix_v4 : option Z; pec_source_prefix_v6 : option Z }.

Record EcsPolicy := { ep_mode : EcsMode; ep_source_prefix_v4 : Z; ep_source_prefix_v6 : Z }.

Definition ECS_OFF : EcsPolicy := {| ep_mode := EcsOff; ep_source_prefix_v4 := 0; ep_source_prefix_v6 := 0 |}.

Definition COARSE_PREFIX_V4 : Z := 24.
Definition COARSE_PREFIX_V6 : Z := 56.

Definition from_profile_and_upstream (profile_ecs : option ProfileEcsConfig) (upstream_ecs : EcsConfig) : EcsPolicy :=
  if negb (ecs_enabled upstream_ecs) then ECS_OFF
  else
    match profile_ecs with
    | Some pe => {| ep_mode := default (ecs_mode upstream_ecs) (pec_mode pe);
                    ep_source_prefix_v4 := default (ecs_source_prefix_v4 upstream_ecs) (pec_source_prefix_v4 pe);
                    ep_source_prefix_v6 := default (ecs_source_prefix_v6 upstream_ecs) (pec_source_prefix_v6 pe) |}
    | None => {| ep_mode := ecs_mode upstream_ecs; ep_source_prefix_v4 := ecs_source_prefix_v4 upstream_ecs;
                 ep_source_prefix_v6 := ecs_source_prefix_v6 upstream_ecs |}
    end.

(** ** Cutting an address *)

(** [octets()] of an address of [n] bytes, and the address of octets. *)
Fixpoint be_octets (n : nat) (a : Z) : list Z :=
  match n with 0 => [] | S n => (Z.shiftr a (8 * Z.of_nat n) mod 256)%Z :: be_octets n a end.

Definition be_value (octets : list Z) : Z := foldl (fun acc b => acc * 256 + b)%Z 0%Z octets.

Definition mask_octets (octets : list Z) (prefix : Z) : list Z :=
  let total_bits := (Z.of_nat (length octets) * 8)%Z in
  if (total_bits <=? prefix)%Z then octets
  else
    let full_bytes := Z.to_nat (prefix / 8) in
    let leftover_bits := (prefix mod 8)%Z in
    if negb (leftover_bits =? 0)%Z then
      let m := as_u8 (Z.shiftl 255 (8 - leftover_bits)) in
      take full_bytes octets ++ [Z.land (default 0%Z (octets !! full_bytes)) m] ++ replicate (length octets - full_bytes - 1) 0%Z
    else take full_bytes octets ++ replicate (length octets - full_bytes) 0%Z.

Definition mask_address (address : IpAddr) (prefix : Z) : IpAddr :=
  match address with
  | V4 a => V4 (be_value (mask_octets (be_octets 4 a) prefix))
  | V6 a => V6 (be_value (mask_octets (be_octets 16 a) prefix))
  end.

(** ** The option *)

(** [ClientSubnet] with a scope of zero. *)
Record EdnsClientSubnet := { ecs_address : IpAddr; ecs_source_prefix : Z }.

Inductive EcsError := PrefixOutOfRange (prefix max : Z).

Definition max_prefix (ip : IpAddr) : Z := match ip with V4 _ => 32 | V6 _ => 128 end.

Definition ecs_new (address : IpAddr) (source_prefix : Z) : result EcsError EdnsClientSubnet :=
  if (max_prefix address <? source_prefix)%Z then Err (PrefixOutOfRange source_prefix (max_prefix address))
  else Ok {| ecs_address := mask_address address source_prefix; ecs_source_prefix := source_prefix |}.

Definition policy_prefix (p : EcsPolicy) (client_ip : IpAddr) : option Z :=
  match ep_mode p with
  | EcsOff => None
  | EcsCoarse => Some match client_ip with V4 _ => COARSE_PREFIX_V4 | V6 _ => COARSE_PREFIX_V6 end
  | EcsSubnet => Some match client_ip with V4 _ => ep_source_prefix_v4 p | V6 _ => ep_source_prefix_v6 p end
  end.

Definition build_option (p : EcsPolicy) (client_ip : IpAddr) : option EdnsClientSubnet :=
  match policy_prefix p client_ip with
  | None => None
  | Some prefix => match ecs_new client_ip prefix with Ok opt => Some opt | Err _ => None end
  end.

(** [EcsPrefix]: the part of a cache key that separates subnets. *)
Record EcsPrefix := { ecs_addr : IpAddr; ecs_prefix : Z }.

#[export] Instance ecs_prefix_eq_dec : EqDecision EcsPrefix.
Proof. solve_decision. Defined.

Definition as_cache_prefix (o : EdnsClientSubnet) : option EcsPrefix :=
  if (ecs_source_prefix o =? 0)%Z then None
  else Some {| ecs_addr := ecs_address o; ecs_prefix := ecs_source_prefix o |}.

(** ** What the mask keeps *)

Lemma be_value_app l l' : be_value (l ++ l') = (be_value l * 256 ^ Z.of_nat (length l') + be_value l')%Z.
Proof.
  unfold be_value. rewrite foldl_app. generalize (foldl (fun acc b => acc * 256 + b)%Z 0%Z l). intros z.
  induction l' as [|b l' IH] using rev_ind; [cbn; lia|]. rewrite !foldl_app, length_app. cbn [foldl length]. rewrite IH.
  rewrite Nat2Z.inj_add, Z.pow_add_r by lia. change (256 ^ Z.of_nat 1)%Z with 256%Z. lia.
Qed.

Lemma be_value_zeros k : be_value (replicate k 0%Z) = 0%Z.
Proof. induction k as [|k IH]; [done|]. cbn [replicate]. change (0%Z :: replicate k 0%Z) with ([0%Z] ++ replicate k 0%Z). rewrite be_value_app, IH. done. Qed.

Lemma length_be_octets n a : length (be_octets n a) = n.
Proof. induction n as [|n IH]; cbn; [done|]. by rewrite IH. Qed.

Lemma be_octets_split n k a : be_octets (n + k) a = be_octets n (Z.shiftr a (8 * Z.of_nat k)) ++ be_octets k a.
Proof.
  induction n as [|n IH]; [done|]. cbn [be_octets Nat.add app]. rewrite IH. f_equal. rewrite Z.shiftr_shiftr by lia. do 2 f_equal. lia.
Qed.

Lemma be_value_octets n a : be_value (be_octets n a) = (a mod 256 ^ Z.of_nat n)%Z.
Proof.
  revert a. induction n as [|n IH]; intros a; [symmetry; apply Z.mod_1_r|].
  replace (S n) with (1 + n) by lia. rewrite be_octets_split, be_value_app, length_be_octets, IH. cbn [be_octets].
  change (be_value [?b]) with (0 * 256 + b)%Z. rewrite Z.shiftr_0_r, Z.shiftr_div_pow2 by lia.
  replace (2 ^ (8 * Z.of_nat n))%Z with (256 ^ Z.of_nat n)%Z by (rewrite Z.pow_mul_r by lia; done).
  rewrite Nat2Z.inj_add, Z.pow_add_r by lia. change (256 ^ Z.of_nat 1)%Z with 256%Z.
  rewrite (Z.mul_comm 256), Z.rem_mul_r by (try apply Z.pow_nonzero; lia). lia.
Qed.

Lemma pow_256 k : (2 ^ (8 * Z.of_nat k) = 256 ^ Z.of_nat k)%Z.
Proof. rewrite Z.pow_mul_r by lia. done. Qed.

(** The bits of a number above [8 - l] are those above its last byte and the
    top [l] of that byte. *)
Lemma cut_byte x l : (0 ≤ l ≤ 8)%Z →
  (x / 2 ^ (8 - l) * 2 ^ (8 - l) = x / 256 * 256 + x mod 256 / 2 ^ (8 - l) * 2 ^ (8 - l))%Z.
Proof.
  intros Hl. assert (256 = 2 ^ l * 2 ^ (8 - l))%Z as H by (rewrite <-Z.pow_add_r by lia; replace (l + (8 - l))%Z with 8%Z by lia; done).
  assert (x / 2 ^ (8 - l) = x / 256 * 2 ^ l + x mod 256 / 2 ^ (8 - l))%Z as ->; [|generalize (x / 256)%Z (x mod 256 / 2 ^ (8 - l))%Z; intros q r; rewrite H; ring].
  rewrite <-Z.div_add_l by (apply Z.pow_nonzero; lia). f_equal. rewrite <-Z.mul_assoc, <-H. pose proof (Z.div_mod x 256). lia.
Qed.

Lemma high_octets f k a : (0 ≤ a < 2 ^ (8 * Z.of_nat (f + k)))%Z →
  be_value (be_octets f (Z.shiftr a (8 * Z.of_nat k))) = (a / 2 ^ (8 * Z.of_nat k))%Z.
Proof.
  intros Ha. rewrite be_value_octets, <-pow_256, Z.shiftr_div_pow2 by lia. apply Z.mod_small.
  assert (0 < 2 ^ (8 * Z.of_nat k))%Z by (apply Z.pow_pos_nonneg; lia). split; [apply Z.div_pos; lia|].
  apply Z.div_lt_upper_bound; [done|]. rewrite <-Z.pow_add_r by lia. replace (8 * Z.of_nat k + 8 * Z.of_nat f)%Z with (8 * Z.of_nat (f + k))%Z by lia. lia.
Qed.

(** The octets before the cut, the octet at the cut, and zeros. *)
Lemma mask_octets_value n a prefix :
  (0 ≤ a < 2 ^ (8 * Z.of_nat n))%Z → (0 ≤ prefix ≤ 8 * Z.of_nat n)%Z →
  be_value (mask_octets (be_octets n a) prefix) = (leading (8 * Z.of_nat n) prefix a * 2 ^ (8 * Z.of_nat n - prefix))%Z.
Proof.
  intros Ha Hp. unfold mask_octets, leading. rewrite length_be_octets.
  destruct (Z.leb_spec (Z.of_nat n * 8) prefix) as [Hle|Hlt].
  { replace prefix with (8 * Z.of_nat n)%Z by lia. rewrite Z.sub_diag, Z.div_1_r, Z.mul_1_r, be_value_octets, <-pow_256. by apply Z.mod_small. }
  pose proof (Z.div_mod prefix 8 ltac:(lia)) as Hdm. pose proof (Z.mod_pos_bound prefix 8 ltac:(lia)) as Hm.
  assert (0 ≤ prefix / 8)%Z as Hq by (apply Z.div_pos; lia).
  set (f := Z.to_nat (prefix / 8)). set (l := (prefix mod 8)%Z) in *.
  assert (∃ k, n = f + S k) as [k ->] by (exists (n - f - 1); lia).
  replace (8 * Z.of_nat (f + S k) - prefix)%Z with (8 * Z.of_nat k + (8 - l))%Z by lia.
  rewrite be_octets_split, take_app_length' by (by rewrite length_be_octets).
  pose proof (high_octets f (S k) a Ha) as Htop. set (x := (a / 2 ^ (8 * Z.of_nat k))%Z).
  assert (∀ m, (0 ≤ m)%Z → a / 2 ^ (8 * Z.of_nat k + m) = x / 2 ^ m)%Z as Hx
    by (intros m Hm0; rewrite Z.pow_add_r by lia; unfold x; rewrite Z.div_div by (try apply Z.pow_nonzero; try apply Z.pow_pos_nonneg; lia); done).
  replace (8 * Z.of_nat (S k))%Z with (8 * Z.of_nat k + 8)%Z in Htop by lia. rewrite Hx in Htop by lia.
  rewrite Hx, (Z.pow_add_r 2 (8 * Z.of_nat k) (8 - l)), (Z.mul_comm (2 ^ (8 * _))), Z.mul_assoc, cut_byte by lia.
  replace (8 * Z.of_nat (S k))%Z with (8 * Z.of_nat k + 8)%Z by lia.
  assert (length (be_octets f (Z.shiftr a (8 * Z.of_nat k + 8))) = f) as Hlen by apply length_be_octets.
  generalize dependent (be_octets f (Z.shiftr a (8 * Z.of_nat k + 8))). intros h Htop Hlen.
  destruct (Z.eqb_spec l 0) as [Hl|Hl]; cbn [negb].
  - rewrite be_value_app, be_value_zeros, length_replicate, Htop. replace (f + S k - f) with (S k) by lia.
    rewrite <-pow_256, Hl. replace (8 * Z.of_nat (S k))%Z with (8 + 8 * Z.of_nat k)%Z by lia. rewrite Z.pow_add_r by lia.
    change (2 ^ (8 - 0))%Z with 256%Z. rewrite (Z.div_small (x mod 256)) by (apply Z.mod_pos_bound; lia). change (2 ^ 8)%Z with 256%Z. lia.
  - rewrite lookup_app_r, Hlen, Nat.sub_diag by lia. cbn [be_octets lookup list_lookup default].
    rewrite Z.shiftr_div_pow2 by lia. fold x. replace (f + S k - f - 1) with k by lia.
    pose proof (mask_land 8 l (x mod 256) ltac:(lia) ltac:(apply Z.mod_pos_bound; lia)) as Hland. unfold mask in Hland.
    rewrite (proj2 (Z.eqb_neq _ _) Hl) in Hland. change (2 ^ 8 - 1)%Z with 255%Z in Hland. fold (as_u8 (Z.shiftl 255 (8 - l))) in Hland.
    rewrite !be_value_app, be_value_zeros, Htop, length_app, !length_replicate. cbn [length].
    change (be_value [?b]) with (0 * 256 + b)%Z. cbn [default]. unfold id. rewrite Hland. unfold leading. cbn [Nat.add]. rewrite Nat2Z.inj_succ, Z.pow_succ_r, <-pow_256 by lia.
    change (2 ^ 8)%Z with 256%Z. lia.
Qed.

Definition ecs_policy_wf (p : EcsPolicy) : Prop := in_u8 (ep_source_prefix_v4 p) ∧ in_u8 (ep_source_prefix_v6 p).

Lemma policy_prefix_wf p ip n : ecs_policy_wf p → policy_prefix p ip = Some n → in_u8 n.
Proof.
  intros [H4 H6]. unfold policy_prefix. destruct (ep_mode p); [done|by destruct ip; intros [= <-]|by destruct ip; intros [= <-]].
Qed.

Lemma mask_address_eq a b prefix : ip_wf a → ip_wf b → (0 ≤ prefix ≤ width_of a)%Z →
  mask_address b prefix = mask_address a prefix ↔ agree prefix a b.
Proof.
  intros Ha Hb Hp. destruct a as [a|a], b as [b|b]; cbn [mask_address agree ip_wf width_of] in *; try done.
  - rewrite !(mask_octets_value 4) by (cbn; lia). change (8 * Z.of_nat 4)%Z with 32%Z. assert (2 ^ (32 - prefix) ≠ 0)%Z by (apply Z.pow_nonzero; lia).
    split; [intros [= Heq%Z.mul_cancel_r]; done|by intros ->].
  - rewrite !(mask_octets_value 16) by (cbn; lia). change (8 * Z.of_nat 16)%Z with 128%Z. assert (2 ^ (128 - prefix) ≠ 0)%Z by (apply Z.pow_nonzero; lia).
    split; [intros [= Heq%Z.mul_cancel_r]; done|by intros ->].
Qed.

Lemma build_option_Some p ip o : build_option p ip = Some o ↔
  ∃ n, policy_prefix p ip = Some n ∧ (n ≤ width_of ip)%Z ∧ o = {| ecs_address := mask_address ip n; ecs_source_prefix := n |}.
Proof.
  unfold build_option, ecs_new. change (max_prefix ip) with (width_of ip). destruct (policy_prefix p ip) as [n|].
  - destruct (Z.ltb_spec (width_of ip) n); split; try done; [intros (m & [= <-] & ? & _); lia|by intros [= <-]; exists n|by intros (m & [= <-] & _ & ->)].
  - split; [done|by intros (? & ? & _)].
Qed.

(** C32: what an upstream learns of a client.  With the switch of the
    configuration off no query carries an option.  An option names the prefix
    the policy chose for the family, and its address tells two clients apart
    exactly when they differ in that many leading bits: nothing below the
    prefix leaves, everything above it does.  The cache keeps the answers of
    two clients in one place exactly when the upstream could not tell them
    apart, or when the prefix is empty. *)
Theorem ecs_option_exact profile upstream a b o :
  let p := from_profile_and_upstream profile upstream in
  ecs_policy_wf p → ip_wf a → ip_wf b → build_option p a = Some o →
  ecs_enabled upstream = true ∧ policy_prefix p a = Some (ecs_source_prefix o)
  ∧ (build_option p b = Some o ↔ agree (ecs_source_prefix o) a b)
  ∧ ((build_option p b ≫= as_cache_prefix) = as_cache_prefix o ↔
     agree (ecs_source_prefix o) a b ∨ ecs_source_prefix o = 0%Z ∧ (build_option p b ≫= as_cache_prefix) = None).
Proof.
  intros p Hwf Ha Hb Ho. pose proof Ho as Ho'. apply build_option_Some in Ho' as (n & Hn & Hw & ->). cbn [ecs_source_prefix].
  pose proof (policy_prefix_wf _ _ _ Hwf Hn) as Hu. unfold in_u8 in Hu.
  assert (ecs_enabled upstream = true) as Hen.
  { unfold p, from_profile_and_upstream in Hn. destruct (ecs_enabled upstream); [done|]. cbn in Hn. done. }
  assert (build_option p b = Some {| ecs_address := mask_address a n; ecs_source_prefix := n |} ↔ agree n a b) as Hsame.
  { rewrite build_option_Some, <-mask_address_eq by (done || lia). split; [by intros (m & _ & _ & [= -> ->])|]. intros Hm. exists n.
    assert (agree n a b) as Hag by (by apply mask_address_eq; [..|lia|]). split_and!; [|by destruct a, b|by rewrite Hm].
    rewrite <-Hn. unfold policy_prefix. by destruct a, b. }
  split_and!; [done|done|done|]. unfold as_cache_prefix at 2. cbn [ecs_source_prefix ecs_address].
  destruct (Z.eqb_spec n 0) as [->|Hnz].
  - split; [by right; split|]. intros [Hag|[_ H]]; [|done]. apply Hsame in Hag as ->. done.
  - rewrite <-Hsame. split; [|by intros [->|[? _]]; [cbn; unfold as_cache_prefix; cbn; by rewrite (proj2 (Z.eqb_neq _ _) Hnz)|]].
    intros Hc. left. destruct (build_option p b) as [o'|]; [|done]. cbn in Hc. unfold as_cache_prefix in Hc.
    destruct (ecs_source_prefix o' =? 0)%Z; [done|]. destruct o'. cbn in Hc. by injection Hc as -> ->.
Qed.

Definition sample_upstream : EcsConfig :=
  {| ecs_enabled := true; ecs_source_prefix_v4 := 24; ecs_source_prefix_v6 := 48; ecs_mode := EcsSubnet |}.

(** 10.10.1.50 and 10.10.1.99 leave as 10.10.1.0/24. *)
Lemma ecs_option_exact_witness :
  build_option (from_profile_and_upstream None sample_upstream) (V4 168427875) =
  Some {| ecs_address := V4 168427776; ecs_source_prefix := 24 |}.
Proof.
  pose proof (ecs_option_exact None sample_upstream (V4 168427826) (V4 168427875) {| ecs_address := V4 168427776; ecs_source_prefix := 24 |}) as H.
  destruct H as (_ & _ & H & _); [split; unfold_max; cbn; lia|cbn; lia|cbn; lia|by vm_compute|]. apply H. by vm_compute.
Defined.
