(* ===== verification/Cache.v ===== *)
(** * The response cache: [src/dns/cache.rs]

    Keys, lifetimes, the three-way lookup, the fetch that shares one upstream
    request, insertions and invalidations, one call at a time.  [moka] is a
    class with the documented facts the proofs use: it may forget any entry at
    any time, and what it returns is the last insertion under the key, neither
    invalidated nor expired since.  Times are nanoseconds. *)

From S2P Require Import Prelude RustStr DnsTypes Cidr ClientSubnet.

Definition SECOND : Z := 1000000000.
Definition from_secs (s : Z) : Z := (s * SECOND)%Z.
Definition as_secs (d : Z) : Z := (d / SECOND)%Z.

(** ** Keys and entries *)

Definition CacheKey : Type := str * RecordType * DNSClass * option EcsPrefix.

Section Cache.
Context {Payload : Type}.

(** A resource record: its lifetime, and the rest. *)
Record CRecord := { cr_ttl : Z; cr_payload : Payload }.

Record CacheEntry := {
  ce_records : list CRecord;
  ce_response_code : ResponseCode;
  ce_upstream_generation : option Z;
  ce_created_at : Z;
  ce_ttl : Z;
}.

(** [Instant::elapsed], which saturates at zero. *)
Definition age (e : CacheEntry) (now : Z) : Z := Z.max 0 (now - ce_created_at e).

Definition is_fresh (e : CacheEntry) (now : Z) : bool := (age e now <? ce_ttl e)%Z.

Definition remaining_ttl (e : CacheEntry) (now : Z) : Z := Z.max 0 (ce_ttl e - age e now).

Definition records_with_remaining_ttl (e : CacheEntry) (now : Z) : list CRecord :=
  let remaining := as_u32 (Z.max 1 (as_secs (remaining_ttl e now))) in
  map (fun r => {| cr_ttl := remaining; cr_payload := cr_payload r |}) (ce_records e).

(** [current] is the generation the upstream facade holds now. *)
Definition upstream_generation_is_current (e : CacheEntry) (current : Z) : bool :=
  match ce_upstream_generation e with Some id => (current =? id)%Z | None => true end.

Definition is_negative (e : CacheEntry) : bool :=
  bool_decide (ce_response_code e = NXDomain)
  || bool_decide (ce_response_code e = NoError) && bool_decide (length (ce_records e) = 0).

Definition needs_prefetch_lead (e : CacheEntry) (now lead_secs : Z) : bool :=
  let remaining := remaining_ttl e now in (remaining <=? from_secs lead_secs)%Z && (0 <? remaining)%Z.

Inductive CacheLookup := Fresh (e : CacheEntry) | Stale (e : CacheEntry) | Miss.

(** ** The store *)

(** [moka::future::Cache] with a lifetime per insertion. *)
Class Moka := {
  store : Type;
  mk_new : store;
  mk_get : store → Z → CacheKey → option CacheEntry;
  mk_insert : store → Z → CacheKey → CacheEntry → Z → store;
  mk_invalidate : store → CacheKey → store;
  mk_invalidate_all : store → store;
  mk_get_new : ∀ t k, mk_get mk_new t k = None;
  mk_get_insert : ∀ s t0 k v life t k' x, mk_get (mk_insert s t0 k v life) t k' = Some x →
    k' = k ∧ x = v ∧ (t < t0 + life)%Z ∨ k' ≠ k ∧ mk_get s t k' = Some x;
  mk_get_invalidate : ∀ s k t k' x, mk_get (mk_invalidate s k) t k' = Some x → k' ≠ k ∧ mk_get s t k' = Some x;
  mk_get_invalidate_all : ∀ s t k, mk_get (mk_invalidate_all s) t k = None;
}.

Context {MK : Moka}.

Record CacheConfig := { cc_min_ttl_secs : Z; cc_max_ttl_secs : Z; cc_negative_ttl_secs : Z; cc_stale_buffer_secs : Z }.

(** ** Lifetimes *)

Definition POSITIVE_WEIGHT : Z := 10.
Definition NEGATIVE_WEIGHT : Z := 1.

Definition weigh (e : CacheEntry) : Z := match ce_records e with [] => NEGATIVE_WEIGHT | _ => POSITIVE_WEIGHT end.

Definition compute_negative_ttl (negative_ttl max_ttl : Z) (soa_minimum_ttl : option Z) : Z :=
  let floor := match soa_minimum_ttl with Some soa_secs => Z.max (from_secs soa_secs) negative_ttl | None => negative_ttl end in
  Z.min floor max_ttl.

Definition min_record_ttl (records : list CRecord) : Z :=
  match records with [] => 0 | r :: rs => foldl (fun m r => Z.min m (cr_ttl r)) (cr_ttl r) rs end.

Definition compute_ttl (cfg : CacheConfig) (records : list CRecord) : Z :=
  from_secs (Z.min (Z.max (min_record_ttl records) (cc_min_ttl_secs cfg)) (cc_max_ttl_secs cfg)).

Definition entry_ttl (cfg : CacheConfig) (records : list CRecord) (soa_minimum_ttl : option Z) : Z :=
  match records with
  | [] => compute_negative_ttl (from_secs (cc_negative_ttl_secs cfg)) (from_secs (cc_max_ttl_secs cfg)) soa_minimum_ttl
  | _ => compute_ttl cfg records
  end.

Definition uncacheable (rc : ResponseCode) : bool := match rc with ServFail | Refused => true | _ => false end.

(** [DnsExpiry], for a creation and for an update. *)
Definition expire_after (cfg : CacheConfig) (e : CacheEntry) : Z := (ce_ttl e + from_secs (cc_stale_buffer_secs cfg))%Z.

Definition put (cfg : CacheConfig) (s : store) (now : Z) (k : CacheKey) (e : CacheEntry) : store :=
  mk_insert s now k e (expire_after cfg e).

(** ** Operations *)

Definition lookup_keyed (s : store) (now : Z) (k : CacheKey) : CacheLookup :=
  match mk_get s now k with
  | Some e => if is_fresh e now then Fresh e else Stale e
  | None => Miss
  end.

(** What a fetch brings: records, code, the SOA hint and the generation. *)
Record Answer := { an_records : list CRecord; an_code : ResponseCode; an_soa_minimum : option Z; an_generation : option Z }.

Record FetchFailure := { ff_stale : option CacheEntry; ff_error : DnsError }.

Definition make_entry (cfg : CacheConfig) (a : Answer) (now : Z) : CacheEntry :=
  {| ce_records := an_records a; ce_response_code := an_code a; ce_upstream_generation := an_generation a;
     ce_created_at := now; ce_ttl := entry_ttl cfg (an_records a) (an_soa_minimum a) |}.

(** [fetch_with_keyed_state]: [now] is when the fetch is over, [current] the
    generation then.  The third result is the entry a fetch made. *)
Definition fetch_with_keyed_state (cfg : CacheConfig) (s : store) (now : Z) (k : CacheKey) (stale_prior : option CacheEntry)
    (fetch : result DnsError Answer) (current : Z) : store * result FetchFailure CacheEntry * option CacheEntry :=
  let s := match stale_prior with Some _ => mk_invalidate s k | None => s end in
  let settle s e := if upstream_generation_is_current e current then s else mk_invalidate s k in
  match mk_get s now k with
  | Some e => (settle s e, Ok e, None)
  | None =>
    match fetch with
    | Err error => (s, Err {| ff_stale := stale_prior; ff_error := error |}, None)
    | Ok a =>
      if uncacheable (an_code a) then (s, Err {| ff_stale := stale_prior; ff_error := Uncacheable (an_code a) |}, None)
      else let e := make_entry cfg a now in (settle (put cfg s now k e) e, Ok e, Some e)
    end
  end.

Definition lookup_or_fetch (cfg : CacheConfig) (s : store) (now : Z) (k : CacheKey) (later : Z) (fetch : result DnsError Answer) (current : Z)
  : store * result FetchFailure CacheEntry * option CacheEntry :=
  match lookup_keyed s now k with
  | Fresh e => (s, Ok e, None)
  | Stale e => fetch_with_keyed_state cfg s later k (Some e) fetch current
  | Miss => fetch_with_keyed_state cfg s later k None fetch current
  end.

(** [insert_with_upstream_generation]. *)
Definition insert_answer (cfg : CacheConfig) (s : store) (now : Z) (k : CacheKey) (a : Answer) (current : Z) : store * option CacheEntry :=
  if uncacheable (an_code a) then (s, None)
  else
    let e := make_entry cfg a now in
    let s := put cfg s now k e in
    (match mk_get s now k with
     | Some found => if upstream_generation_is_current found current then s else mk_invalidate s k
     | None => s
     end, Some e).

Definition invalidate_key (s : store) (domain : str) (rt : RecordType) (class : DNSClass) (ecs : option EcsPrefix) : store :=
  mk_invalidate s (to_ascii_lowercase domain, rt, class, ecs).

Definition COMMON_TYPES : list RecordType := [RtA; RtAAAA; RtCNAME; RtMX; RtTXT; RtNS; RtSOA; RtHTTPS; RtSVCB; RtSRV; RtTLSA].

Definition invalidate_domain (s : store) (domain : str) : store :=
  let normalized := to_ascii_lowercase domain in
  foldl (fun s class => foldl (fun s rt => mk_invalidate s (normalized, rt, class, None)) s COMMON_TYPES) s [ClassIN; ClassCH].

Definition clear (s : store) : store := mk_invalidate_all s.

(** ** Runs *)

Inductive Op :=
| OpFetch (now : Z) (k : CacheKey) (later : Z) (fetch : result DnsError Answer) (current : Z)
| OpInsert (now : Z) (k : CacheKey) (a : Answer) (current : Z)
| OpInvalidateKey (domain : str) (rt : RecordType) (class : DNSClass) (ecs : option EcsPrefix)
| OpInvalidateDomain (domain : str)
| OpClear.

Section Runs.
Context (cfg : CacheConfig).

Definition step (s : store) (op : Op) : store :=
  match op with
  | OpFetch now k later fetch current => (lookup_or_fetch cfg s now k later fetch current).1.1
  | OpInsert now k a current => (insert_answer cfg s now k a current).1
  | OpInvalidateKey domain rt class ecs => invalidate_key s domain rt class ecs
  | OpInvalidateDomain domain => invalidate_domain s domain
  | OpClear => clear s
  end.

Definition run (ops : list Op) : store := foldl step mk_new ops.

(** The answer an operation has for a key, and when it got it. *)
Definition brings (op : Op) (k : CacheKey) (a : Answer) (t : Z) : Prop :=
  match op with
  | OpFetch _ k' later (Ok a') _ => k' = k ∧ a' = a ∧ later = t
  | OpInsert now k' a' _ => k' = k ∧ a' = a ∧ now = t
  | _ => False
  end.

Definition domain_keys (domain : str) : list CacheKey :=
  flat_map (fun class => map (fun rt => (to_ascii_lowercase domain, rt, class, None)) COMMON_TYPES) [ClassIN; ClassCH].

(** The operations after which the entry a store has for the key is gone: a fetch
    takes an expired entry out before it asks upstream. *)
Definition removes (s : store) (op : Op) (k : CacheKey) : Prop :=
  match op with
  | OpFetch now k' _ _ _ => k' = k ∧ ∃ e, lookup_keyed s now k = Stale e
  | OpInsert _ k' a _ => k' = k ∧ uncacheable (an_code a) = false
  | OpInvalidateKey domain rt class ecs => k = (to_ascii_lowercase domain, rt, class, ecs)
  | OpInvalidateDomain domain => k ∈ domain_keys domain
  | OpClear => True
  end.

(** No operation of a run from a store removes what it has for the key. *)
Fixpoint undisturbed (s : store) (ops : list Op) (k : CacheKey) : Prop :=
  match ops with [] => True | op :: ops => ¬ removes s op k ∧ undisturbed (step s op) ops k end.

Lemma undisturbed_snoc s ops op k : undisturbed s ops k → ¬ removes (foldl step s ops) op k → undisturbed s (ops ++ [op]) k.
Proof. revert s. induction ops as [|o ops IH]; intros s; cbn; [done|]. intros [? ?] ?. auto. Qed.

Lemma get_put s now k e t k' x :
  mk_get (put cfg s now k e) t k' = Some x → k' = k ∧ x = e ∧ (t < now + expire_after cfg e)%Z ∨ k' ≠ k ∧ mk_get s t k' = Some x.
Proof. apply mk_get_insert. Qed.

Lemma get_settled s k b t k' x : mk_get (if b : bool then s else mk_invalidate s k) t k' = Some x → mk_get s t k' = Some x.
Proof. destruct b; [done|]. by intros [_ ?]%mk_get_invalidate. Qed.

Lemma get_invalidated ks s t k x : mk_get (foldl mk_invalidate s ks) t k = Some x → k ∉ ks ∧ mk_get s t k = Some x.
Proof.
  revert s. induction ks as [|k' ks IH]; intros s; cbn [foldl]; [intros H; split; [apply not_elem_of_nil|done]|].
  intros [Hn [Hne H]%mk_get_invalidate]%IH. split; [|done]. by apply not_elem_of_cons.
Qed.

(** An entry made by an operation, still within its life. *)
Definition made_by (op : Op) (k : CacheKey) (e : CacheEntry) (t : Z) : Prop :=
  ∃ a t0, brings op k a t0 ∧ uncacheable (an_code a) = false ∧ e = make_entry cfg a t0 ∧ (t < t0 + expire_after cfg e)%Z.

Lemma fetch_get s later k prior fetch current t k' e :
  mk_get (fetch_with_keyed_state cfg s later k prior fetch current).1.1 t k' = Some e →
  (∃ a, fetch = Ok a ∧ k' = k ∧ uncacheable (an_code a) = false ∧ e = make_entry cfg a later ∧ (t < later + expire_after cfg e)%Z)
  ∨ mk_get s t k' = Some e ∧ (k = k' → prior = None).
Proof.
  unfold fetch_with_keyed_state.
  assert (∀ x, mk_get (match prior with Some _ => mk_invalidate s k | None => s end) t k' = Some x → mk_get s t k' = Some x ∧ (k = k' → prior = None)) as Hprior.
  { intros x. destruct prior; [|done]. intros [Hne ?]%mk_get_invalidate. split; [done|congruence]. }
  destruct (mk_get (match prior with Some _ => mk_invalidate s k | None => s end) later k) as [f|]; cbn [fst].
  { intros H%get_settled. right. by apply Hprior. }
  destruct fetch as [a|error]; cbn [fst]; [|intros H; right; by apply Hprior].
  destruct (uncacheable (an_code a)) eqn:Eu; cbn [fst]; [intros H; right; by apply Hprior|].
  intros H%get_settled. apply get_put in H as [(-> & -> & Ht)|[_ H]]; [|right; by apply Hprior].
  left. exists a. by split_and!.
Qed.

Lemma step_get s op t k e :
  mk_get (step s op) t k = Some e → made_by op k e t ∨ mk_get s t k = Some e ∧ ¬ removes s op k.
Proof.
  destruct op as [now k' later fetch current|now k' a current|domain rt class ecs|domain|]; cbn [step].
  - unfold lookup_or_fetch. destruct (lookup_keyed s now k') eqn:El; cbn [fst];
      [intros H; right; split; [done|]; intros [<- [x Hx]]; congruence|..];
      (intros [(a & -> & -> & Hu & -> & Ht)|[H Hp]]%fetch_get; [left; exists a, later; by (cbn; split_and!)|right; split; [done|]];
       intros [<- [x Hx]]; first [congruence|by specialize (Hp eq_refl)]).
  - unfold insert_answer. destruct (uncacheable (an_code a)) eqn:Eu; cbn [fst].
    { intros H. right. split; [done|]. intros [_ ?]. congruence. }
    intros H. assert (mk_get (put cfg s now k' (make_entry cfg a now)) t k = Some e) as Hp.
    { destruct (mk_get (put cfg s now k' (make_entry cfg a now)) now k') as [f|]; [by apply get_settled in H|done]. }
    apply get_put in Hp as [(-> & -> & Ht)|[Hne Hp]]; [left; exists a, now; by (cbn; split_and!)|].
    right. split; [done|]. by intros [? _].
  - intros [Hne H]%mk_get_invalidate. right. by split.
  - change (invalidate_domain s domain) with (foldl mk_invalidate s (domain_keys domain)). intros [Hn H]%get_invalidated. right. by split.
  - unfold clear. by rewrite mk_get_invalidate_all.
Qed.

(** What a store returns was brought by an operation for that key, and nothing
    after it removed it. *)
Lemma run_get ops t k e :
  mk_get (run ops) t k = Some e →
  ∃ before op after, ops = before ++ op :: after ∧ made_by op k e t ∧ undisturbed (run (before ++ [op])) after k.
Proof.
  unfold run. induction ops as [|op ops IH] using rev_ind; [cbn [foldl]; by rewrite mk_get_new|].
  rewrite foldl_snoc. intros [H|[H Hn]]%step_get; [by exists ops, op, []|].
  destruct (IH H) as (before & o & after & -> & Hm & Hf). exists before, o, (after ++ [op]).
  split; [by rewrite <-app_assoc|]. split; [done|]. apply undisturbed_snoc; [done|]. by rewrite <-foldl_app, <-app_assoc.
Qed.

(** ** Bounds *)

Lemma min_record_ttl_spec records : records ≠ [] →
  (∀ r, r ∈ records → min_record_ttl records ≤ cr_ttl r)%Z ∧ ∃ r, r ∈ records ∧ cr_ttl r = min_record_ttl records.
Proof.
  destruct records as [|r0 rs]; [done|]. intros _. unfold min_record_ttl. induction rs as [|x rs IH] using rev_ind.
  { cbn. split; [intros r ->%list_elem_of_singleton; lia|]. exists r0. split; [by left|done]. }
  rewrite foldl_snoc. set (m := foldl _ _ rs) in *. destruct IH as [H1 (r & Hr & Hm)]. split.
  - intros y. rewrite app_comm_cons, elem_of_app, list_elem_of_singleton. intros [Hy| ->]; [specialize (H1 y Hy)|]; lia.
  - destruct (Z.le_gt_cases m (cr_ttl x)).
    + exists r. split; [rewrite app_comm_cons; apply elem_of_app; by left|lia].
    + exists x. split; [rewrite app_comm_cons; apply elem_of_app; right; by left|lia].
Qed.

Lemma entry_ttl_le_max records soa : (entry_ttl cfg records soa ≤ from_secs (cc_max_ttl_secs cfg))%Z.
Proof. unfold entry_ttl, compute_ttl, compute_negative_ttl, from_secs, SECOND. destruct records; [destruct soa|]; lia. Qed.

(** ** Properties *)

(** C40: what the cache returns.  After any operations, an entry found under a
    key was made from an answer an operation got for that very key, not a
    failure or a refusal, and no operation since removed it, be it an invalidation,
    a newer answer or a fetch that found the entry expired.  A fresh entry is
    younger than its lifetime, a stale one is past it by less than the stale
    window; no lifetime exceeds the configured maximum. *)
Theorem cache_hit_sound ops now k :
  let origin e := ∃ before op after a t, ops = before ++ op :: after ∧ brings op k a t ∧ an_code a ≠ ServFail ∧ an_code a ≠ Refused ∧
                    e = make_entry cfg a t ∧ undisturbed (run (before ++ [op])) after k in
  match lookup_keyed (run ops) now k with
  | Fresh e => origin e ∧ (age e now < ce_ttl e ≤ from_secs (cc_max_ttl_secs cfg))%Z
  | Stale e => origin e ∧ (ce_ttl e ≤ age e now)%Z ∧
      (0 < ce_ttl e + from_secs (cc_stale_buffer_secs cfg) → age e now < ce_ttl e + from_secs (cc_stale_buffer_secs cfg))%Z
  | Miss => True
  end.
Proof.
  intros origin. unfold lookup_keyed. destruct (mk_get (run ops) now k) as [e|] eqn:E; [|done].
  apply run_get in E as (before & op & after & Hops & (a & t & Hb & Hu & He & Hlife) & Hf).
  assert (origin e) as Ho by (exists before, op, after, a, t; split_and!; try done; intros Hc; by rewrite Hc in Hu).
  assert (ce_created_at e = t) as Hc by (by subst e). unfold expire_after in Hlife.
  destruct (is_fresh e now) eqn:Ef; unfold is_fresh in Ef.
  - split; [done|]. split; [lia|]. subst e. apply entry_ttl_le_max.
  - split_and!; [done|lia|]. intros Hpos. unfold age. lia.
Qed.

(** A stale entry is served once.  When the upstream is unreachable, the
    first query for an expired entry gets it and removes it; from then on the
    same query has no entry to fall back to, however much of the stale window
    is left. *)
Theorem stale_served_once s now k e later error current :
  lookup_keyed s now k = Stale e →
  let '(s', answer, _) := lookup_or_fetch cfg s now k later (Err error) current in
  answer = Err {| ff_stale := Some e; ff_error := error |} ∧
  ∀ now' later', lookup_keyed s' now' k = Miss ∧
    (lookup_or_fetch cfg s' now' k later' (Err error) current).1.2 = Err {| ff_stale := None; ff_error := error |}.
Proof.
  intros Hs. unfold lookup_or_fetch at 1. rewrite Hs. unfold fetch_with_keyed_state.
  assert (∀ t, mk_get (mk_invalidate s k) t k = None) as Hgone.
  { intros t. destruct (mk_get (mk_invalidate s k) t k) as [x|] eqn:E; [|done]. by apply mk_get_invalidate in E as [? _]. }
  rewrite Hgone. split; [done|]. intros now' later'.
  assert (lookup_keyed (mk_invalidate s k) now' k = Miss) as Hm by (unfold lookup_keyed; by rewrite Hgone).
  split; [done|]. unfold lookup_or_fetch, fetch_with_keyed_state. by rewrite Hm, Hgone.
Qed.

(** The lifetime served is at least a second and at most what is left. *)
Lemma served_ttl_bounds e now r :
  (0 ≤ ce_ttl e ≤ from_secs U32_MAX)%Z → r ∈ records_with_remaining_ttl e now →
  (1 ≤ cr_ttl r)%Z ∧ (from_secs (cr_ttl r) ≤ Z.max (from_secs 1) (remaining_ttl e now))%Z.
Proof.
  intros Ht. unfold records_with_remaining_ttl. rewrite list_elem_of_fmap. intros (r0 & -> & _). cbn [cr_ttl].
  assert (0 ≤ remaining_ttl e now ≤ ce_ttl e)%Z as Hr by (unfold remaining_ttl, age; lia).
  unfold from_secs, as_secs, as_u32, U32_MAX, SECOND in *.
  assert (0 ≤ remaining_ttl e now / 1000000000 ≤ 2 ^ 32 - 1)%Z as Hd.
  { split; [apply Z.div_pos; lia|]. apply Z.div_le_upper_bound; lia. }
  rewrite Z.mod_small by lia. pose proof (Z.mul_div_le (remaining_ttl e now) 1000000000). lia.
Qed.

End Runs.

End Cache.

(** ** A store that forgets nothing *)

Section Sample.

Definition list_cache {payload : Type} : @Moka payload.
Proof.
  refine {| store := list (CacheKey * CacheEntry * Z); mk_new := [];
    mk_get := fun s t k => match List.find (fun x => bool_decide (x.1.1 = k)) s with
                           | Some (_, e, deadline) => if (t <? deadline)%Z then Some e else None | None => None end;
    mk_insert := fun s t k e life => (k, e, (t + life)%Z) :: s;
    mk_invalidate := fun s k => List.filter (fun x => negb (bool_decide (x.1.1 = k))) s;
    mk_invalidate_all := fun _ => [] |}.
  - done.
  - intros s t0 k v life t k' x. cbn. destruct (bool_decide_reflect (k = k')) as [->|Hne].
    + destruct (Z.ltb_spec t (t0 + life)); [|done]. intros [= <-]. by left.
    + intros H. by right.
  - intros s k t k' x H. induction s as [|[[kx e] d] s IH]; [done|]. cbn in *. destruct (bool_decide_reflect (kx = k)) as [->|Hne]; cbn in H.
    + destruct (IH H) as [Hk Hg]. split; [done|]. by rewrite bool_decide_eq_false_2 by congruence.
    + destruct (bool_decide_reflect (kx = k')) as [->|Hne']; [by split|]. by apply IH.
  - done.
Defined.

#[local] Existing Instance list_cache.

Definition sample_cfg : CacheConfig := {| cc_min_ttl_secs := 10; cc_max_ttl_secs := 3600; cc_negative_ttl_secs := 60; cc_stale_buffer_secs := 300 |}.
Definition sample_key : CacheKey := (lit "example.com", RtA, ClassIN, None).
Definition sample_answer : Answer :=
  {| an_records := [{| cr_ttl := 30; cr_payload := tt |}]; an_code := NoError; an_soa_minimum := None; an_generation := None |}.
Definition sample_store : store := run sample_cfg [OpInsert 0 sample_key sample_answer 1].

(** A minute after its insertion the entry has expired. *)
Definition sample_entry : CacheEntry := make_entry sample_cfg sample_answer 0.

Lemma cache_hit_sound_witness :
  lookup_keyed sample_store (from_secs 5) sample_key = Fresh sample_entry ∧
  (age sample_entry (from_secs 5) < ce_ttl sample_entry ≤ from_secs 3600)%Z.
Proof.
  assert (lookup_keyed sample_store (from_secs 5) sample_key = Fresh sample_entry) as E by (by vm_compute). split; [done|].
  pose proof (cache_hit_sound sample_cfg [OpInsert 0 sample_key sample_answer 1] (from_secs 5) sample_key) as H.
  unfold sample_store in E. rewrite E in H. apply H.
Defined.

Lemma stale_served_once_witness :
  lookup_keyed sample_store (from_secs 60) sample_key = Stale sample_entry ∧
  lookup_keyed (lookup_or_fetch sample_cfg sample_store (from_secs 60) sample_key (from_secs 61) (Err AllUpstreamsFailed) 1).1.1 (from_secs 62) sample_key = Miss.
Proof.
  assert (lookup_keyed sample_store (from_secs 60) sample_key = Stale sample_entry) as E by (by vm_compute). split; [done|].
  pose proof (stale_served_once sample_cfg sample_store (from_secs 60) sample_key sample_entry (from_secs 61) AllUpstreamsFailed 1 E) as H.
  destruct (lookup_or_fetch _ _ _ _ _ _ _) as [[s' answer] made]. apply (proj2 H (from_secs 62) 0%Z).
Defined.

End Sample.
