(* ===== verification/Tunnelling.v ===== *)
(** * Tunnelling detection: [src/security/tunneling.rs]

    The shape of a name and the rate of new names under one base domain per
    client.  Floating-point arithmetic is a class, the hash of a name and the
    iteration order of the concurrent map are arguments. *)

From S2P Require Import Prelude RustStr DnsTypes Domain Windows Limiter Cidr.

(** ** Labels and base domains *)

Definition MAX_LABELS : nat := Nat.max MAX_LABEL_COUNT_ARPA MAX_LABEL_COUNT + 1.

Definition TWO_LABEL_SUFFIXES : list str :=
  map (fun s => lit s)
  ["co.uk"; "co.jp"; "co.kr"; "co.nz"; "co.za"; "co.in"; "co.il"; "co.th"; "com.au"; "com.br";
   "com.cn"; "com.mx"; "com.tw"; "com.tr"; "com.sg"; "com.hk"; "ac.uk"; "ac.jp"; "ac.nz";
   "gov.uk"; "gov.au"; "gov.br"; "org.uk"; "org.au"; "org.nz"; "net.au"; "net.nz"; "net.br";
   "edu.au"; "edu.br"]%string.

Definition MAX_TWO_LABEL_SUFFIX_LEN : nat := 6.

(** The labels from the last one back. *)
Definition compute_base_domain (labels : list str) : option str :=
  match rev labels with
  | last :: second :: rest =>
    let probe := second ++ "."%char :: last in
    match rest with
    | third :: _ =>
      if (length probe <=? MAX_TWO_LABEL_SUFFIX_LEN) && bool_decide (probe ∈ TWO_LABEL_SUFFIXES)
      then Some (third ++ "."%char :: probe) else Some probe
    | [] => Some probe
    end
  | _ => None
  end.

Definition name_labels (domain : str) : list str := filter (fun l => l ≠ []) (split "." domain).

(** ** Parameters *)

Class F64 := {
  f64 : Type;
  f64_zero : f64;
  f64_of_nat : nat → f64;
  f64_sub : f64 → f64 → f64;
  f64_mul : f64 → f64 → f64;
  f64_div : f64 → f64 → f64;
  f64_log2 : f64 → f64;
  f64_ge : f64 → f64 → bool;
}.

Inductive TunnelingVerdict := Clean | Suspicious.

(** [trim_matches('.')]. *)
Definition trim_matches_dot (s : str) : str := trim_end_matches "." (trim_start_matches "." s).

Section Tunnelling.
Context {F : F64}.

Record TunnelingParams := {
  tp_entropy_threshold : f64;
  tp_label_len_threshold : nat;
  tp_max_unbroken_run : nat;
  tp_entropy_min_len : nat;
  tp_subdomain_rate_limit : Z;
  tp_window_secs : Z;
  tp_exempt_domains : list str;
}.

Definition exempt_entry (d : str) : str := to_ascii_lowercase (trim_matches_dot d).

(** ** Exemptions *)

Definition under_suffix (domain s : str) : bool :=
  if bool_decide (domain = s) then true
  else (length s <? length domain) && bool_decide (domain !! (length domain - length s - 1) = Some "."%char) && ends_with s domain.

Definition is_exempt (domain : str) (exempt : list str) : bool :=
  existsb (fun s => if bool_decide (s = []) then false else under_suffix domain s) exempt.

Definition is_reverse_zone (domain : str) : bool := existsb (under_suffix domain) [lit "in-addr.arpa"; lit "ip6.arpa"].

(** ** The shape of a name *)

Definition longest_unbroken_run (label : str) : nat := foldr Nat.max 0 (map length (split "-" label)).

(** The count of one byte value. *)
Definition freq (bytes : str) (i : nat) : nat := length (filter (fun b => nat_of_ascii b = i) bytes).

Definition shannon_entropy_bytes (bytes : str) (total_len : nat) : f64 :=
  if total_len =? 0 then f64_zero
  else
    let len := f64_of_nat total_len in
    foldl (fun entropy i =>
      let count := freq bytes i in
      if 0 <? count then let p := f64_div (f64_of_nat count) len in f64_sub entropy (f64_mul p (f64_log2 p)) else entropy)
      f64_zero (seq 0 256).

Definition shannon_entropy (s : str) : f64 := shannon_entropy_bytes s (length s).

(** The labels before the base domain; [None] when there is nothing to look at. *)
Definition check_labels (domain : str) : option (list str) :=
  let labels := name_labels domain in
  if MAX_LABELS <? length labels then None
  else
    base ← compute_base_domain labels;
    let base_label_count := length (split "." base) in
    if length labels <=? base_label_count then None else Some (take (length labels - base_label_count) labels).

Definition check (p : TunnelingParams) (domain : str) : TunnelingVerdict :=
  match check_labels domain with
  | None => Clean
  | Some labels =>
    let flagged :=
      existsb (fun label => (tp_label_len_threshold p <=? length label) || (tp_max_unbroken_run p <=? longest_unbroken_run label)) labels in
    let flagged :=
      if flagged then true
      else
        let bytes := concat labels in
        if tp_entropy_min_len p <=? length bytes
        then f64_ge (shannon_entropy_bytes bytes (length bytes)) (tp_entropy_threshold p) else false in
    if flagged && negb (bool_decide (tp_exempt_domains p = [])) && is_exempt domain (tp_exempt_domains p) then Clean
    else if flagged then Suspicious else Clean
  end.

(** ** The rate of new names *)

Definition RECENT_NAME_SLOTS : nat := 8.

Definition recent_new : list Z := replicate RECENT_NAME_SLOTS 0%Z.

(** [RecentNames::seen_or_record]. *)
Definition seen_or_record (slots : list Z) (hash now_secs window_secs : Z) : list Z * bool :=
  let idx := Z.to_nat (Z.land hash 7) in
  let hash_high := as_u32 (Z.shiftr hash 32) in
  let now := as_u32 now_secs in
  let prev := default 0%Z (slots !! idx) in
  let prev_hash := as_u32 (Z.shiftr prev 32) in
  let prev_secs := as_u32 prev in
  if (prev_hash =? hash_high)%Z && (saturating_sub now prev_secs <? window_secs)%Z then (slots, true)
  else (<[idx := pack hash_high now]> slots, false).

Record SubdomainTracker := { st_counter : Z; st_recent : list Z }.

Definition tracker_new (now_secs : Z) : SubdomainTracker := {| st_counter := counter_new now_secs; st_recent := recent_new |}.

Definition tracker_age (t : SubdomainTracker) : Z := window_start_secs (st_counter t).

(** One call on the tracker of a bucket. *)
Definition tracker_hit (p : TunnelingParams) (t : SubdomainTracker) (name now_secs : Z) : SubdomainTracker * bool :=
  let '(recent, seen) := seen_or_record (st_recent t) name now_secs (tp_window_secs p) in
  if seen then ({| st_counter := st_counter t; st_recent := recent |}, false)
  else
    let '(counter, prev_count) := check_and_bump (st_counter t) now_secs (tp_window_secs p) in
    ({| st_counter := counter; st_recent := recent |}, (tp_subdomain_rate_limit p <=? prev_count)%Z).

Definition MAX_TRACKED_BASE_DOMAINS : nat := Z.to_nat 100000.

Abbreviation Buckets := (gmap (IpAddr * str) SubdomainTracker).

Definition base_of (domain : str) : option str :=
  let labels := name_labels domain in
  if MAX_LABELS <? length labels then None
  else
    base ← compute_base_domain labels;
    if length labels <=? length (split "." base) then None else Some base.

Definition check_rate (name_hash : str → Z) (iter : Buckets → list (IpAddr * str * SubdomainTracker)) (p : TunnelingParams)
    (m : Buckets) (client_ip : IpAddr) (domain : str) (now_secs : Z) : Buckets * bool :=
  match base_of domain with
  | None => (m, false)
  | Some base_domain =>
    if negb (bool_decide (tp_exempt_domains p = [])) && is_exempt domain (tp_exempt_domains p) then (m, false)
    else
      let key := (client_ip, base_domain) in
      let '(tracker, m) := entry_or_insert_with iter tracker_age MAX_TRACKED_BASE_DOMAINS m key (tracker_new now_secs) in
      let '(tracker, over) := tracker_hit p tracker (name_hash domain) now_secs in
      (<[key := tracker]> m, over)
  end.

Definition tunnel_cleanup (p : TunnelingParams) (m : Buckets) (now_secs : Z) : Buckets :=
  filter (fun e => (saturating_sub now_secs (tracker_age e.2) < as_u64 (tp_window_secs p * 2))%Z) m.

(** ** Exemptions stop at label boundaries *)

Lemma under_suffix_spec domain s : under_suffix domain s = true ↔ domain = s ∨ ∃ p, domain = p ++ "."%char :: s.
Proof.
  unfold under_suffix. case_bool_decide as Heq; [by split; [left|]|]. rewrite !andb_true_iff, bool_decide_eq_true, ends_with_spec, Nat.ltb_lt. split.
  - intros [[Hlen Hdot] [q ->]]. right. rewrite length_app in Hdot, Hlen. destruct q as [|x q _] using rev_ind; [cbn in Hlen; lia|].
    rewrite length_app in Hdot. cbn [length] in Hdot. replace (length q + 1 + length s - length s - 1) with (length q) in Hdot by lia.
    rewrite <-app_assoc, lookup_app_r, Nat.sub_diag in Hdot by lia. injection Hdot as ->. exists q. by rewrite <-app_assoc.
  - intros [->|[p ->]]; [done|]. rewrite length_app, length_cons. split; [split; [lia|]|exists (p ++ ["."%char]); by rewrite <-app_assoc].
    replace (length p + S (length s) - length s - 1) with (length p) by lia. by rewrite lookup_app_r, Nat.sub_diag by lia.
Qed.

Lemma is_exempt_spec domain exempt :
  is_exempt domain exempt = true ↔ ∃ s, s ∈ exempt ∧ s ≠ [] ∧ (domain = s ∨ ∃ p, domain = p ++ "."%char :: s).
Proof.
  unfold is_exempt. rewrite existsb_exists. split; intros (s & Hs & H); exists s.
  - case_bool_decide as He; [done|]. apply under_suffix_spec in H. split_and!; [by apply list_elem_of_In|done|done].
  - destruct H as [Hne H]. split; [by apply list_elem_of_In|]. rewrite bool_decide_eq_false_2 by done. by apply under_suffix_spec.
Qed.

(** ** Buckets *)

Definition slot_of (h : Z) : nat := Z.to_nat (Z.land h 7).
Definition high_of (h : Z) : Z := as_u32 (Z.shiftr h 32).

Lemma slot_of_lt h : slot_of h < RECENT_NAME_SLOTS.
Proof.
  unfold slot_of, RECENT_NAME_SLOTS. change 7%Z with (Z.ones 3). rewrite Z.land_ones by lia. pose proof (Z.mod_pos_bound h (2 ^ 3)). lia.
Qed.

Lemma high_of_range h : in_u32 (high_of h).
Proof. unfold high_of, as_u32, in_u32, U32_MAX. pose proof (Z.mod_pos_bound (Z.shiftr h 32) (2 ^ 32)). lia. Qed.

(** The name a slot remembers, and when it was counted; zero is nobody. *)
Definition remembers (slots : list Z) (i : nat) (h t : Z) : Prop :=
  i = slot_of h ∧ slots !! i = Some (pack (high_of h) t) ∧ in_u32 t.

Lemma seen_or_record_new slots h now window :
  length slots = RECENT_NAME_SLOTS → in_u32 now →
  (slots !! slot_of h = Some 0%Z ∧ high_of h ≠ 0%Z ∨ ∃ h' t, remembers slots (slot_of h) h' t ∧ high_of h' ≠ high_of h) →
  seen_or_record slots h now window = (<[slot_of h := pack (high_of h) now]> slots, false).
Proof.
  intros Hl Hn Hc. unfold seen_or_record. fold (slot_of h) (high_of h).
  assert (as_u32 now = now) as -> by (unfold as_u32, in_u32, U32_MAX in *; apply Z.mod_small; lia).
  destruct Hc as [[-> Hh]|(h' & t & (_ & -> & Ht) & Hh)]; cbn [from_option id].
  - change (as_u32 (Z.shiftr 0 32)) with 0%Z. destruct (Z.eqb_spec 0 (high_of h)); [congruence|done].
  - pose proof (unpack_pack (high_of h') t (high_of_range h') Ht) as Hu. unfold unpack in Hu. injection Hu as -> _.
    destruct (Z.eqb_spec (high_of h') (high_of h)); done.
Qed.

Lemma seen_or_record_repeat slots h t now window :
  remembers slots (slot_of h) h t → in_u32 now → (t ≤ now)%Z → (now - t < window)%Z →
  seen_or_record slots h now window = (slots, true).
Proof.
  intros (_ & Hs & Ht) Hn Hle Hw. unfold seen_or_record. fold (slot_of h) (high_of h). rewrite Hs. cbn [from_option id].
  assert (as_u32 now = now) as -> by (unfold as_u32, in_u32, U32_MAX in *; apply Z.mod_small; lia).
  pose proof (unpack_pack (high_of h) t (high_of_range h) Ht) as Hu. unfold unpack in Hu. injection Hu as -> ->.
  rewrite Z.eqb_refl. unfold saturating_sub. by assert ((Z.max 0 (now - t) <? window)%Z = true) as -> by lia.
Qed.

Lemma remembers_record slots h now i :
  length slots = RECENT_NAME_SLOTS → in_u32 now →
  (i = slot_of h → remembers (<[slot_of h := pack (high_of h) now]> slots) i h now) ∧
  (i ≠ slot_of h → ∀ h' t, remembers slots i h' t → remembers (<[slot_of h := pack (high_of h) now]> slots) i h' t).
Proof.
  intros Hl Hn. pose proof (slot_of_lt h). split.
  - intros ->. split; [done|]. rewrite list_lookup_insert_eq by lia. by split.
  - intros Hne h' t (-> & Hs & Ht). split; [done|]. by rewrite list_lookup_insert_ne.
Qed.

Fixpoint tracker_run (p : TunnelingParams) (t : SubdomainTracker) (calls : list (Z * Z)) : list bool :=
  match calls with
  | [] => []
  | (h, now) :: calls => let '(t, over) := tracker_hit p t h now in over :: tracker_run p t calls
  end.

(** A tracker after [count] names counted in the window from [ws], each slot
    empty or with one of them. *)
Definition tracks (t : SubdomainTracker) (ws : Z) (count : Z) (names : list Z) : Prop :=
  st_counter t = pack count ws ∧ length (st_recent t) = RECENT_NAME_SLOTS ∧
  ∀ i, i < RECENT_NAME_SLOTS → st_recent t !! i = Some 0%Z ∨ ∃ h s, h ∈ names ∧ remembers (st_recent t) i h s.

Lemma tracker_hit_new p t ws count names h now :
  in_u32 ws → (0 ≤ count < U32_MAX)%Z → in_u32 now → (now - ws < tp_window_secs p)%Z → (0 < tp_window_secs p)%Z →
  tracks t ws count names → high_of h ≠ 0%Z → (∀ h', h' ∈ names → slot_of h' = slot_of h → high_of h' ≠ high_of h) →
  ∃ t', tracker_hit p t h now = (t', (tp_subdomain_rate_limit p <=? count)%Z) ∧ tracks t' ws (count + 1) (h :: names) ∧
    remembers (st_recent t') (slot_of h) h now ∧ ∀ i h' s, i ≠ slot_of h → remembers (st_recent t) i h' s → remembers (st_recent t') i h' s.
Proof.
  intros Hws Hc Hn Hw Hw0 (Hcnt & Hl & Hslots) Hh Hnew. pose proof (slot_of_lt h) as Hlt. unfold tracker_hit.
  rewrite (seen_or_record_new (st_recent t) h now (tp_window_secs p) Hl Hn).
  2:{ destruct (Hslots _ Hlt) as [H0|(h' & s & Hin & Hr)]; [by left|]. right. exists h', s. split; [done|].
      apply Hnew; [done|]. by destruct Hr as [-> _]. }
  assert (in_u32 count) as Hcu by (unfold in_u32, U32_MAX in *; lia).
  unfold check_and_bump, elapsed, saturating_sub. rewrite Hcnt, unpack_pack by done. cbn [fst snd].
  destruct (Z.leb_spec (tp_window_secs p) (Z.max 0 (now - ws))) as [?|_]; [lia|].
  rewrite unpack_bump by done. assert (as_u32 (count + 1) = (count + 1)%Z) as -> by (unfold as_u32, U32_MAX in *; apply Z.mod_small; lia).
  eexists. split; [done|]. unfold tracks. cbn [st_counter st_recent]. split; [|split].
  - split; [done|]. split; [by rewrite length_insert|]. intros i Hi. destruct (remembers_record (st_recent t) h now i Hl Hn) as [H1 H2].
    destruct (decide (i = slot_of h)) as [He|Hne]; [right; exists h, now; split; [by left|by apply H1]|].
    destruct (Hslots i Hi) as [H0|(h' & s & Hin & Hr)]; [left; by rewrite list_lookup_insert_ne|].
    right. exists h', s. split; [by right|by apply H2].
  - exact (proj1 (remembers_record (st_recent t) h now (slot_of h) Hl Hn) eq_refl).
  - intros i h' s Hne Hr. exact (proj2 (remembers_record (st_recent t) h now i Hl Hn) Hne h' s Hr).
Qed.

Lemma tracks_new ws : in_u32 ws → tracks (tracker_new ws) ws 0 [].
Proof.
  intros Hw. unfold tracks, tracker_new, counter_new. cbn [st_counter st_recent].
  assert (as_u32 ws = ws) as -> by (unfold as_u32, in_u32, U32_MAX in *; apply Z.mod_small; lia).
  split; [done|]. split; [done|]. intros i Hi. left. unfold recent_new. by apply lookup_replicate_2.
Qed.

(** What a budget of distinct names says to each call. *)
Fixpoint expected (limit : Z) (names calls : list Z) : list bool :=
  match calls with
  | [] => []
  | h :: calls =>
    if bool_decide (h ∈ names) then false :: expected limit names calls
    else (limit <=? Z.of_nat (length names))%Z :: expected limit (h :: names) calls
  end.

Definition fingerprint (h : Z) : nat * Z := (slot_of h, high_of h).

(** In one window from [ws], at times in order. *)
Definition within (ws window : Z) (calls : list (Z * Z)) : Prop :=
  Forall (fun c => in_u32 c.2 ∧ (ws ≤ c.2)%Z ∧ (c.2 - ws < window)%Z ∧ high_of c.1 ≠ 0%Z) calls ∧ StronglySorted (fun a b => a.2 ≤ b.2)%Z calls.

Section Window.
Context (p : TunnelingParams) (ws : Z).
Context (ws_range : in_u32 ws) (window_pos : (0 < tp_window_secs p)%Z).

Lemma fanout_from t names calls :
  tracks t ws (Z.of_nat (length names)) names → within ws (tp_window_secs p) calls →
  (Z.of_nat (length names) + Z.of_nat (length calls) ≤ U32_MAX)%Z →
  NoDup (fingerprint <$> (calls.*1 ++ names)) →
  tracker_run p t calls = expected (tp_subdomain_rate_limit p) names calls.*1.
Proof.
  revert t names. induction calls as [|[h now] calls IH]; intros t names Ht [Hf Hs] Hlen Hnd; [done|].
  cbn [tracker_run fmap list_fmap fst expected]. apply Forall_cons in Hf as [(Hn & Hle & Hw & Hh) Hf']. apply StronglySorted_inv in Hs as [Hs' _].
  cbn [fmap list_fmap app fst] in Hnd. apply NoDup_cons in Hnd as [Hnot Hnd]. cbn [length fst snd] in *.
  assert (∀ h', h' ∈ names → slot_of h' = slot_of h → high_of h' ≠ high_of h) as Hnew.
  { intros h' Hin Hsl Hhi. apply Hnot. apply list_elem_of_fmap. exists h'. unfold fingerprint. rewrite Hsl, Hhi. split; [done|]. apply elem_of_app. by right. }
  destruct (tracker_hit_new p t ws (Z.of_nat (length names)) names h now) as (t' & -> & Ht' & _); try done; [lia|].
  rewrite bool_decide_eq_false_2; [|intros Hin; by apply (Hnew h Hin)]. f_equal. apply IH; [| |cbn [length]; lia|].
  - cbn [length]. by replace (Z.of_nat (S (length names))) with (Z.of_nat (length names) + 1)%Z by lia.
  - by split.
  - rewrite <-Permutation_middle. cbn [fmap list_fmap]. by apply NoDup_cons.
Qed.

Lemma repeats_from t names calls :
  tracks t ws (Z.of_nat (length names)) names → within ws (tp_window_secs p) calls →
  (Z.of_nat (length names) + Z.of_nat (length calls) ≤ U32_MAX)%Z →
  (∀ h, h ∈ names → ∃ s, remembers (st_recent t) (slot_of h) h s ∧ (ws ≤ s)%Z ∧ Forall (fun c => s ≤ c.2)%Z calls) →
  (∀ h h', h ∈ names ++ calls.*1 → h' ∈ names ++ calls.*1 → slot_of h = slot_of h' → h = h') →
  tracker_run p t calls = expected (tp_subdomain_rate_limit p) names calls.*1.
Proof.
  revert t names. induction calls as [|[h now] calls IH]; intros t names Ht [Hf Hs] Hlen Hmem Hsep; [done|].
  cbn [tracker_run fmap list_fmap fst expected]. apply Forall_cons in Hf as [(Hn & Hle & Hw & Hh) Hf']. apply StronglySorted_inv in Hs as [Hs' Hlater].
  cbn [length fst snd] in *. case_bool_decide as Hin.
  - destruct (Hmem h Hin) as (s & Hr & Hws & Hall). apply Forall_cons in Hall as [Hsn Hall']. cbn [snd] in *.
    unfold tracker_hit. rewrite (seen_or_record_repeat _ _ s) by (done || lia). f_equal. apply IH; [by destruct t|by split|lia| |].
    + intros h' Hh'. destruct (Hmem h' Hh') as (s' & Hr' & Hws' & Hall). apply Forall_cons in Hall as [_ Hall]. exists s'. by split_and!.
    + intros a b Ha Hb. apply Hsep; (rewrite elem_of_app in *; cbn [fmap list_fmap fst]; rewrite elem_of_cons; tauto).
  - destruct (tracker_hit_new p t ws (Z.of_nat (length names)) names h now) as (t' & -> & Ht' & Hrec & Hkeep); try done; [lia| |].
    { intros h' Hh' Hsl _. destruct Hin. rewrite <-(Hsep h' h); [done|by apply elem_of_app; left| |done]. apply elem_of_app. right. by left. }
    f_equal. apply IH; [|by split|cbn [length]; lia| |].
    + cbn [length]. by replace (Z.of_nat (S (length names))) with (Z.of_nat (length names) + 1)%Z by lia.
    + intros h' [->|Hh']%elem_of_cons; [exists now; split_and!; [done|done|exact Hlater]|].
      destruct (Hmem h' Hh') as (s' & Hr' & Hws' & Hall). apply Forall_cons in Hall as [_ Hall]. exists s'. split_and!; [|done|done].
      apply Hkeep; [|done]. intros Hsl. destruct Hin. rewrite <-(Hsep h' h); [done|by apply elem_of_app; left| |done]. apply elem_of_app. right. by left.
    + intros a b Ha Hb. apply Hsep; (rewrite elem_of_app in *; rewrite elem_of_cons in *; cbn [fmap list_fmap fst]; rewrite elem_of_cons; tauto).
Qed.

End Window.

(** ** The gate *)

Section Gate.
Context (name_hash : str → Z) (iter : Buckets → list (IpAddr * str * SubdomainTracker)) (p : TunnelingParams).

Fixpoint rate_run (m : Buckets) (client : IpAddr) (calls : list (str * Z)) : list bool :=
  match calls with
  | [] => []
  | (domain, now) :: calls => let '(m, over) := check_rate name_hash iter p m client domain now in over :: rate_run m client calls
  end.

(** A call that is counted against a base domain. *)
Definition counts (base domain : str) : Prop := base_of domain = Some base ∧ is_exempt domain (tp_exempt_domains p) = false.

Lemma check_rate_bucket m client base domain now t :
  counts base domain → (entry_or_insert_with iter tracker_age MAX_TRACKED_BASE_DOMAINS m (client, base) (tracker_new now)).1 = t →
  let m' := (entry_or_insert_with iter tracker_age MAX_TRACKED_BASE_DOMAINS m (client, base) (tracker_new now)).2 in
  check_rate name_hash iter p m client domain now =
  (<[(client, base) := (tracker_hit p t (name_hash domain) now).1]> m', (tracker_hit p t (name_hash domain) now).2).
Proof.
  intros [Hb He] Ht m'. unfold check_rate. rewrite Hb, He, andb_false_r. unfold m'. clear m'.
  destruct (entry_or_insert_with _ _ _ _ _ _) as [t0 m0]. cbn in Ht. subst t0. cbn [snd]. by destruct (tracker_hit p t (name_hash domain) now).
Qed.

Lemma rate_run_bucket m client base calls t :
  m !! (client, base) = Some t → Forall (fun c => counts base c.1) calls →
  rate_run m client calls = tracker_run p t ((fun c => (name_hash c.1, c.2)) <$> calls).
Proof.
  revert m t. induction calls as [|[domain now] calls IH]; intros m t Hm Hc; [done|]. apply Forall_cons in Hc as [Hc1 Hc2]. cbn [fst] in Hc1.
  cbn [rate_run fmap list_fmap tracker_run fst snd].
  assert (entry_or_insert_with iter tracker_age MAX_TRACKED_BASE_DOMAINS m (client, base) (tracker_new now) = (t, m)) as He.
  { unfold entry_or_insert_with. rewrite Hm. rewrite bool_decide_eq_false_2 by done. cbn [andb]. by rewrite Hm. }
  rewrite (check_rate_bucket m client base domain now t Hc1) by (by rewrite He). rewrite He. cbn [snd].
  destruct (tracker_hit p t (name_hash domain) now) as [t' over]. cbn [fst snd]. f_equal. apply IH; [by rewrite lookup_insert_eq|done].
Qed.

Lemma rate_run_first m client base domain now calls :
  (m !! (client, base) = None) → size m < MAX_TRACKED_BASE_DOMAINS → Forall (fun c => counts base c.1) ((domain, now) :: calls) →
  rate_run m client ((domain, now) :: calls) =
  tracker_run p (tracker_new now) ((fun c => (name_hash c.1, c.2)) <$> ((domain, now) :: calls)).
Proof.
  intros Hm Hsz Hc. apply Forall_cons in Hc as [Hc1 Hc2]. cbn [fst] in Hc1. cbn [rate_run fmap list_fmap tracker_run fst snd].
  assert (entry_or_insert_with iter tracker_age MAX_TRACKED_BASE_DOMAINS m (client, base) (tracker_new now)
    = (tracker_new now, <[(client, base) := tracker_new now]> m)) as He.
  { unfold entry_or_insert_with. destruct (Nat.leb_spec MAX_TRACKED_BASE_DOMAINS (size m)); [lia|]. rewrite andb_false_r. by rewrite Hm. }
  rewrite (check_rate_bucket m client base domain now (tracker_new now) Hc1) by (by rewrite He). rewrite He. cbn [snd].
  destruct (tracker_hit p (tracker_new now) (name_hash domain) now) as [t' over]. cbn [fst snd]. f_equal.
  apply (rate_run_bucket _ client base); [by rewrite lookup_insert_eq|done].
Qed.

End Gate.

Lemma expected_distinct limit names calls :
  NoDup (fingerprint <$> (calls ++ names)) →
  expected limit names calls = imap (fun i _ => limit <=? Z.of_nat (length names) + Z.of_nat i)%Z calls.
Proof.
  revert names. induction calls as [|h calls IH]; intros names Hnd; [done|]. cbn [expected imap].
  cbn [app fmap list_fmap] in Hnd. apply NoDup_cons in Hnd as [Hnot Hnd].
  rewrite bool_decide_eq_false_2.
  2:{ intros Hin. apply Hnot, list_elem_of_fmap. exists h. split; [done|]. apply elem_of_app. by right. }
  f_equal; [f_equal; lia|]. rewrite IH.
  - apply imap_ext. intros i x _. cbn. f_equal. lia.
  - rewrite <-Permutation_middle. cbn [fmap list_fmap]. by apply NoDup_cons.
Qed.

(** The rate gate counts distinct names.  For one client and one base
    domain, in one window and with room in the table: names whose fingerprints
    differ are let through up to the limit and refused from then on, whichever
    slots they share; and when no two names share a slot, a name that was
    counted is let through again at no cost, so that exactly the new names
    beyond the limit are refused. *)
Theorem rate_gate_exact name_hash iter p m client base domain now calls :
  let names := (domain, now) :: calls in
  let hashes := name_hash <$> names.*1 in
  m !! (client, base) = None → size m < MAX_TRACKED_BASE_DOMAINS → Forall (fun c => counts p base c.1) names → (0 < tp_window_secs p)%Z →
  within now (tp_window_secs p) ((fun c => (name_hash c.1, c.2)) <$> names) → (Z.of_nat (length names) ≤ U32_MAX)%Z →
  (NoDup (fingerprint <$> hashes) →
     rate_run name_hash iter p m client names = imap (fun i _ => tp_subdomain_rate_limit p <=? Z.of_nat i)%Z names) ∧
  ((∀ h h', h ∈ hashes → h' ∈ hashes → slot_of h = slot_of h' → h = h') →
     rate_run name_hash iter p m client names = expected (tp_subdomain_rate_limit p) [] hashes).
Proof.
  intros names hashes Hm Hsz Hc Hw0 Hw Hlen. pose proof (rate_run_first name_hash iter p m client base domain now calls Hm Hsz Hc) as Hrun.
  fold names in Hrun. rewrite Hrun.
  set (hit := fun c : str * Z => (name_hash c.1, c.2)) in *.
  assert (in_u32 now) as Hn by (destruct Hw as [Hw _]; by apply Forall_cons in Hw as [[? _] _]).
  assert (((hit <$> names).*1) = hashes) as Eh by (unfold hashes; rewrite <-!list_fmap_compose; by apply list_fmap_ext).
  assert (length (hit <$> names) = length names) as El by apply length_fmap.
  split; intros Hs.
  - rewrite (fanout_from p now Hn Hw0 (tracker_new now) [] (hit <$> names) (tracks_new now Hn) Hw); [|cbn [length]; lia|by rewrite app_nil_r, Eh].
    rewrite Eh, expected_distinct by (by rewrite app_nil_r). unfold hashes. rewrite <-list_fmap_compose, imap_fmap. done.
  - rewrite (repeats_from p now Hn Hw0 (tracker_new now) [] (hit <$> names) (tracks_new now Hn) Hw); [by rewrite Eh|cbn [length]; lia| |].
    + intros h Hh. by apply not_elem_of_nil in Hh.
    + cbn [app]. by rewrite Eh.
Qed.

End Tunnelling.

(** ** A sample *)

Section Sample.

(** Arithmetic on integers: no entropy reaches a positive threshold. *)
Definition integer_f64 : F64 :=
  {| f64 := Z; f64_zero := 0%Z; f64_of_nat := Z.of_nat; f64_sub := Z.sub; f64_mul := Z.mul; f64_div := Z.div; f64_log2 := Z.log2; f64_ge := Z.geb |}.

#[local] Existing Instance integer_f64.

Definition sample_params : TunnelingParams :=
  {| tp_entropy_threshold := 1%Z; tp_label_len_threshold := 50; tp_max_unbroken_run := 40; tp_entropy_min_len := 60;
     tp_subdomain_rate_limit := 1; tp_window_secs := 60; tp_exempt_domains := [lit "a2z.com"] |}.

(** A hash by the first byte: slot and high half differ for a, b and c. *)
Definition first_byte (s : str) : Z := match s with c :: _ => Z.lor (byte c) (Z.shiftl (byte c) 32) | [] => 0 end.

Definition sample_calls : list (str * Z) :=
  [(lit "b.evil.co.uk", 101%Z); (lit "a.evil.co.uk", 102%Z); (lit "c.evil.co.uk", 103%Z)].

Lemma rate_gate_exact_witness :
  rate_run first_byte map_to_list sample_params ∅ (V4 1) ((lit "a.evil.co.uk", 100%Z) :: sample_calls) = [false; true; false; true] ∧
  is_exempt (lit "evil-a2z.com") (tp_exempt_domains sample_params) = false.
Proof.
  split; [|by vm_compute].
  destruct (rate_gate_exact first_byte map_to_list sample_params ∅ (V4 1) (lit "evil.co.uk") (lit "a.evil.co.uk") 100 sample_calls) as [_ H].
  - done.
  - rewrite map_size_empty. unfold MAX_TRACKED_BASE_DOMAINS. lia.
  - unfold sample_calls. repeat apply Forall_cons_2; try apply Forall_nil_2; by (split; vm_compute).
  - done.
  - split; [|repeat constructor; cbn; lia]. unfold sample_calls. repeat apply Forall_cons_2; try apply Forall_nil_2; by (vm_compute; split_and!).
  - cbn. unfold U32_MAX. lia.
  - set (hashes := first_byte <$> ((lit "a.evil.co.uk", 100%Z) :: sample_calls).*1) in *.
    assert (Forall (fun h => Forall (fun h' => slot_of h = slot_of h' → h = h') hashes) hashes) as Hsep by (apply (bool_decide_unpack _); by vm_compute).
    rewrite H; [by vm_compute|]. intros h h' Hh Hh'. rewrite Forall_forall in Hsep. specialize (Hsep h Hh). rewrite Forall_forall in Hsep. by apply Hsep.
Defined.

End Sample.
