(* ===== verification/Guards.v ===== *)
(** * Two guards around the answer: [src/security/anti_bypass.rs] and [src/filter/ip_filter.rs]

    The names of other resolvers the operator listed, and the addresses no
    answer may lead to. *)

From S2P Require Import Prelude RustStr SortedSlice DnsTypes Domain Rules Evaluator Shard Decision Limits Admission Ast Compiler CompilerIndex Cidr ResolverProofs.

(** ** Names of other resolvers *)

Definition strip_dot (s : str) : str := default s (strip_suffix (lit ".") s).

(** One entry of [extra_domains]; one that is empty after normalisation is
    skipped. *)
Definition bypass_entry (d : str) : option str :=
  let stripped := strip_dot (trim d) in
  if bool_decide (stripped = []) then None else Some (to_ascii_lowercase stripped).

Definition anti_bypass_new (extra_domains : list str) : gset str :=
  foldl (fun domains d => match bypass_entry d with Some e => {[ e ]} ∪ domains | None => domains end) ∅ extra_domains.

(** The exact name, then what follows each dot. *)
Definition bypass_matches (domains : gset str) (domain : str) : bool :=
  bool_decide (domain ∈ domains) || existsb (fun parent => bool_decide (parent ∈ domains)) (after_dots domain).

Definition is_bypass_domain (domains : gset str) (domain : str) : bool :=
  let stripped := strip_dot domain in
  if existsb is_ascii_uppercase stripped then bypass_matches domains (to_ascii_lowercase stripped)
  else bypass_matches domains stripped.

(** ** Addresses in answers *)

Inductive AddressData := DataA (ip : Z) | DataAAAA (ip : Z) | DataOther.

Definition data_ip (d : AddressData) : option IpAddr :=
  match d with DataA ip => Some (V4 ip) | DataAAAA ip => Some (V6 ip) | DataOther => None end.

Definition blocked_ip (blocklist : gset IpAddr) (d : AddressData) : option IpAddr :=
  match data_ip d with Some ip => if bool_decide (ip ∈ blocklist) then Some ip else None | None => None end.

Fixpoint first_blocked (blocklist : gset IpAddr) (records : list AddressData) : option IpAddr :=
  match records with
  | [] => None
  | d :: records => match blocked_ip blocklist d with Some ip => Some ip | None => first_blocked blocklist records end
  end.

(** One line of a list: trimmed, without its comment. *)
Definition blocklist_line (line : str) : option IpAddr :=
  let line := trim line in
  if bool_decide (line = []) || starts_with (lit "#") line then None
  else
    let ip_str := match find "#" line with Some pos => trim (take pos line) | None => line end in
    ip_from_str ip_str.

Definition parse_ip_blocklist (content : str) : gset IpAddr :=
  foldl (fun set line => match blocklist_line line with Some ip => {[ ip ]} ∪ set | None => set end) ∅ (lines content).

Section Grants.
Context {RC : RegexCrate} {RP : RegexPrograms}.

Definition check_response_for_profile_with_grant (blocklist : gset IpAddr) (records : list AddressData)
    (profile : option ProfileRef) (grant : option RequestGrant) : option IpAddr :=
  if match grant, profile with Some g, Some p => is_issued_by g p | _, _ => false end then None
  else if bool_decide (blocklist = ∅) then None
  else first_blocked blocklist records.

(** [check_response_with_grant] names no profile, so no grant applies. *)
Definition check_response_with_grant (blocklist : gset IpAddr) (records : list AddressData) (grant : option RequestGrant) : option IpAddr :=
  check_response_for_profile_with_grant blocklist records None grant.

End Grants.

(** ** What they accept *)

Lemma fold_union_spec {A B} `{Countable B} (f : A → option B) l (start : gset B) x :
  x ∈ foldl (fun set a => match f a with Some b => {[ b ]} ∪ set | None => set end) start l ↔ x ∈ start ∨ ∃ a, a ∈ l ∧ f a = Some x.
Proof.
  revert start. induction l as [|a l IH]; intros start; cbn [foldl].
  { split; [by left|]. intros [?|(a & Ha & _)]; [done|]. by apply not_elem_of_nil in Ha. }
  rewrite IH. split.
  - intros [Hs|(b & Hb & Hf)]; [|right; exists b; split; [by right|done]].
    destruct (f a) as [y|] eqn:E; [|by left]. apply elem_of_union in Hs as [->%elem_of_singleton|Hs]; [|by left].
    right. exists a. split; [by left|done].
  - intros [Hs|(b & [->|Hb]%elem_of_cons & Hf)].
    + left. destruct (f a); [|done]. apply elem_of_union. by right.
    + left. rewrite Hf. apply elem_of_union. left. by apply elem_of_singleton.
    + right. by exists b.
Qed.

Lemma bypass_matches_spec domains n :
  bypass_matches domains n = true ↔ ∃ e, e ∈ domains ∧ (n = e ∨ ∃ p, n = p ++ DOT :: e).
Proof.
  unfold bypass_matches. rewrite orb_true_iff, bool_decide_eq_true, existsb_exists. split.
  - intros [H|(e & He & Hd)]; [exists n; by split; [|left]|].
    apply list_elem_of_In, after_dots_spec in He. apply bool_decide_eq_true in Hd. exists e. by split; [|right].
  - intros (e & He & [->|Hp]); [by left|]. right. exists e. split; [by apply list_elem_of_In, after_dots_spec|].
    by apply bool_decide_eq_true.
Qed.

Lemma is_bypass_normalised domains domain :
  is_bypass_domain domains domain = bypass_matches domains (to_ascii_lowercase (strip_dot domain)).
Proof.
  unfold is_bypass_domain. destruct (existsb _ _) eqn:E; [done|]. f_equal. symmetry. apply to_ascii_lowercase_id.
  apply is_lowercase_spec, Forall_forall. intros c Hc. apply not_true_iff_false. intros Hu. apply not_true_iff_false in E.
  apply E, existsb_exists. exists c. split; [by apply list_elem_of_In|done].
Qed.

(** A name is refused as another resolver exactly when an entry of
    [extra_domains] that is not blank is, after both are brought to the same
    form (blanks trimmed around the entry, one final dot removed, ASCII
    lower case), the name itself or one of its ancestors, label by label. No
    name is refused that the operator did not list: an empty list refuses
    nothing. *)
Lemma bypass_exact extra_domains domain :
  is_bypass_domain (anti_bypass_new extra_domains) domain = true ↔
  ∃ d e, d ∈ extra_domains ∧ strip_dot (trim d) ≠ [] ∧ e = to_ascii_lowercase (strip_dot (trim d)) ∧
    (to_ascii_lowercase (strip_dot domain) = e ∨ ∃ p, to_ascii_lowercase (strip_dot domain) = p ++ DOT :: e).
Proof.
  rewrite is_bypass_normalised, bypass_matches_spec. unfold anti_bypass_new. setoid_rewrite fold_union_spec. split.
  - intros (e & [He|(d & Hd & He)] & Hm); [by apply not_elem_of_empty in He|]. unfold bypass_entry in He. case_bool_decide; [done|].
    injection He as <-. by exists d, (to_ascii_lowercase (strip_dot (trim d))).
  - intros (d & e & Hd & Hne & -> & Hm). eexists. split; [|exact Hm]. right. exists d. split; [done|]. unfold bypass_entry.
    by case_bool_decide.
Qed.

Definition listed (content : str) (d : AddressData) (ip : IpAddr) : Prop :=
  data_ip d = Some ip ∧ ∃ line, line ∈ lines content ∧ blocklist_line line = Some ip.

Lemma blocked_ip_spec content d ip : blocked_ip (parse_ip_blocklist content) d = Some ip ↔ listed content d ip.
Proof.
  unfold blocked_ip, listed, parse_ip_blocklist. destruct (data_ip d) as [i|]; [|by split; [|intros [? _]]].
  case_bool_decide as Hb; rewrite fold_union_spec in Hb.
  - destruct Hb as [Hb|Hb]; [by apply not_elem_of_empty in Hb|]. split; [by intros [= <-]|]. by intros [[= <-] _].
  - split; [done|]. intros [[= <-] Hl]. destruct Hb. by right.
Qed.

Lemma first_blocked_spec content records ip :
  first_blocked (parse_ip_blocklist content) records = Some ip ↔
  ∃ before d after, records = before ++ d :: after ∧ listed content d ip ∧ ∀ d' ip', d' ∈ before → ¬ listed content d' ip'.
Proof.
  induction records as [|r records IH]; cbn [first_blocked].
  { split; [done|]. by intros ([|] & ? & ? & ? & _). }
  destruct (blocked_ip _ r) as [i|] eqn:E.
  - split.
    + intros [= <-]. exists [], r, records. split; [done|]. split; [by apply blocked_ip_spec|]. by intros ? ? ?%not_elem_of_nil.
    + intros ([|b before] & d & after & Heq & Hl & Hb).
      * injection Heq as -> _. by apply blocked_ip_spec in Hl as <-.
      * injection Heq as -> _. destruct (Hb b i); [by left|by apply blocked_ip_spec].
  - assert (∀ j, ¬ listed content r j) as Hr by (intros j Hj%blocked_ip_spec; congruence). rewrite IH. split.
    + intros (before & d & after & -> & Hl & Hb). exists (r :: before), d, after. split; [done|]. split; [done|].
      intros d' ip' [->|Hd]%elem_of_cons; [done|by apply Hb].
    + intros ([|b before] & d & after & Heq & Hl & Hb); injection Heq as -> ->; [by destruct (Hr ip)|].
      exists before, d, after. split; [done|]. split; [done|]. intros d' ip' Hd. apply Hb. by right.
Qed.

Section Responses.
Context {RC : RegexCrate} {RP : RegexPrograms}.

(** An answer is refused for an address exactly when the list names the
    address of one of its [A] or [AAAA] records and the request carries no
    allow grant of the profile serving it; the address reported is that of the
    first such record, and records of other types are never matched. What the
    list names is what a line of the file says once its comment and blanks are
    gone; other lines contribute nothing. *)
Theorem response_ip_exact content records profile grant ip :
  check_response_for_profile_with_grant (parse_ip_blocklist content) records profile grant = Some ip ↔
  (∀ g p, grant = Some g → profile = Some p → is_issued_by g p = false)
  ∧ ∃ before d after, records = before ++ d :: after ∧ listed content d ip ∧ ∀ d' ip', d' ∈ before → ¬ listed content d' ip'.
Proof.
  rewrite <-first_blocked_spec. unfold check_response_for_profile_with_grant.
  destruct (match grant, profile with Some g, Some p => is_issued_by g p | _, _ => false end) eqn:E.
  { split; [done|]. intros [H _]. destruct grant as [g|], profile as [p|]; try done. by rewrite (H g p) in E. }
  split.
  - intros H. split; [by intros g p -> ->|]. by case_bool_decide.
  - intros [_ H]. case_bool_decide as Hb; [|done]. rewrite Hb in H. exfalso. clear -H.
    induction records as [|r records IH]; [done|]. cbn [first_blocked] in H. unfold blocked_ip in H.
    destruct (data_ip r); [case_bool_decide as Hx; [by apply not_elem_of_empty in Hx|]|]; by apply IH.
Qed.

End Responses.
