(* ===== verification/Security.v ===== *)
(** * The checks in front of a query: [src/security/query_validator.rs] and [SecurityLayer] of [src/dns/handler.rs]

    Characters, rebinding patterns, and the layer that runs them with the rate
    limiter, the names of other resolvers and the tunnelling detector.  The
    state of the layer is passed on; the clock of each limiter, the iteration
    order of the concurrent maps and the hash of a name are arguments. *)

From S2P Require Import Prelude RustStr SortedSlice DnsTypes Domain Rules Evaluator Shard Decision Limits Admission Ast Compiler CompilerIndex Windows Limiter TokenBucket Cidr ResolverProofs ClientSubnet Tunnelling Guards.

(** ** Names *)

Definition valid_domain_char (c : ascii) : bool :=
  is_ascii_alphanumeric c || bool_decide (c = "-"%char) || bool_decide (c = "_"%char).

Definition bad_chars_label (label : str) : option str :=
  if bool_decide (label = []) then None
  else if starts_with (lit "-") label || ends_with (lit "-") label then Some (lit "label starts or ends with hyphen")
  else if negb (forallb valid_domain_char label) then Some (lit "invalid character in domain label")
  else None.

Fixpoint first_bad_label (labels : list str) : option str :=
  match labels with
  | [] => None
  | label :: labels => match bad_chars_label label with Some e => Some e | None => first_bad_label labels end
  end.

Definition validate_domain_chars (domain : str) : result str () :=
  if bool_decide (domain = []) then Err (lit "empty domain")
  else match first_bad_label (split "." domain) with Some e => Err e | None => Ok () end.

(** [l.len() <= 3 && l.parse::<u8>().is_ok()] *)
Definition octet_label (l : str) : bool := (length l <=? 3) && bool_decide (is_Some (parse_uint U8_MAX l)).

(** The windows of four labels from each start. *)
Fixpoint has_octet_window (labels : list str) : bool :=
  match labels with
  | a :: (b :: c :: d :: _) as rest => octet_label a && octet_label b && octet_label c && octet_label d || has_octet_window rest
  | _ => false
  end.

Definition has_rebinding_pattern (domain : str) : bool :=
  let labels := name_labels domain in
  if MAX_LABELS <? length labels then false else has_octet_window labels.

(** ** The layer *)

(** The octets of an address, as the limiters key on them. *)
Definition wire_ip (ip : IpAddr) : Limiter.IpAddr :=
  match ip with
  | V4 a => match be_octets 4 a with [a; b; c; d] => Limiter.V4 a b c d | _ => Limiter.V4 0 0 0 0 end
  | V6 a => Limiter.V6 (be_octets 16 a)
  end.

(** The settings, as [SecurityConfig] and [AntiBypassConfig] hold them. *)
Record RateLimitConfig := { rlc_enabled : bool; rlc_queries_per_second : Z; rlc_burst : Z }.
Record RrlConfig := { rrc_enabled : bool; rrc_responses_per_second : Z; rrc_window_secs : Z; rrc_slip_rate : Z }.
Record AntiBypassConfig := { abc_enabled : bool; abc_extra_domains : list str }.

Abbreviation Trackers := (gmap (IpAddr * str) SubdomainTracker).

Section Layer.
Context {F : F64}.

Record TunnelingConfig := {
  tc_enabled : bool;
  tc_entropy_threshold : f64;
  tc_label_len_threshold : nat;
  tc_max_unbroken_run : nat;
  tc_entropy_min_len : nat;
  tc_subdomain_rate : Z;
  tc_window_secs : Z;
  tc_exempt_domains : list str;
}.

Record SecurityConfig := {
  sc_enabled : bool;
  sc_rrl : RrlConfig;
  sc_rate_limit : RateLimitConfig;
  sc_tunneling : TunnelingConfig;
}.

(** [TunnelingParams::from_config]. *)
Definition tunneling_params (c : TunnelingConfig) : TunnelingParams :=
  {| tp_entropy_threshold := tc_entropy_threshold c; tp_label_len_threshold := tc_label_len_threshold c;
     tp_max_unbroken_run := tc_max_unbroken_run c; tp_entropy_min_len := tc_entropy_min_len c;
     tp_subdomain_rate_limit := tc_subdomain_rate c; tp_window_secs := tc_window_secs c;
     tp_exempt_domains := map exempt_entry (tc_exempt_domains c) |}.

(** Each part with the settings it runs under and what it has counted. *)
Record SecurityLayer := {
  sl_rate_limiter : option (RateLimiterParams * gmap Limiter.IpAddr Z);
  sl_rrl : option (RrlParams * gmap Z PrefixState);
  sl_tunneling : option (TunnelingParams * Trackers);
  sl_anti_bypass : option (gset str);
}.

Definition when {A} (b : bool) (a : A) : option A := if b then Some a else None.

Definition security_from_config (security : SecurityConfig) (anti_bypass : AntiBypassConfig) : SecurityLayer :=
  if negb (sc_enabled security) then
    {| sl_rate_limiter := None; sl_rrl := None; sl_tunneling := None; sl_anti_bypass := None |}
  else
    let rl := sc_rate_limit security in
    let rrl := sc_rrl security in
    {| sl_rate_limiter := when (rlc_enabled rl) ({| rl_qps := rlc_queries_per_second rl; rl_burst := rlc_burst rl |}, ∅);
       sl_rrl := when (rrc_enabled rrl) (rrl_params (rrc_responses_per_second rrl) (rrc_window_secs rrl) (rrc_slip_rate rrl), ∅);
       sl_tunneling := when (tc_enabled (sc_tunneling security)) (tunneling_params (sc_tunneling security), ∅);
       sl_anti_bypass :=
         if abc_enabled anti_bypass then
           let ab := anti_bypass_new (abc_extra_domains anti_bypass) in when (negb (bool_decide (ab = ∅))) ab
         else None |}.

(** Seconds since each part was created. *)
Record Elapsed := { el_rate : Z; el_rrl : Z; el_tunneling : Z }.

(** The iteration orders of the concurrent maps and the hash of a name. *)
Context (rate_iter : gmap Limiter.IpAddr Z → list (Limiter.IpAddr * Z)).
Context (rrl_iter : gmap Z PrefixState → list (Z * PrefixState)).
Context (tunnel_iter : Trackers → list (IpAddr * str * SubdomainTracker)).
Context (name_hash : str → Z).

Definition set_rate_limiter (l : SecurityLayer) r : SecurityLayer :=
  {| sl_rate_limiter := r; sl_rrl := sl_rrl l; sl_tunneling := sl_tunneling l; sl_anti_bypass := sl_anti_bypass l |}.
Definition set_rrl (l : SecurityLayer) r : SecurityLayer :=
  {| sl_rate_limiter := sl_rate_limiter l; sl_rrl := r; sl_tunneling := sl_tunneling l; sl_anti_bypass := sl_anti_bypass l |}.
Definition set_tunneling (l : SecurityLayer) t : SecurityLayer :=
  {| sl_rate_limiter := sl_rate_limiter l; sl_rrl := sl_rrl l; sl_tunneling := t; sl_anti_bypass := sl_anti_bypass l |}.

Definition layer_rate_check (l : SecurityLayer) (client_ip : IpAddr) (t : Elapsed) : SecurityLayer * bool :=
  match sl_rate_limiter l with
  | None => (l, true)
  | Some (p, m) =>
    let '(ok, m) := rate_check rate_iter p m (wire_ip client_ip) (el_rate t) in
    (set_rate_limiter l (Some (p, m)), ok)
  end.

Definition rebindable (rt : RecordType) : bool :=
  match rt with RtA | RtAAAA | RtHTTPS | RtSVCB => true | _ => false end.

(** The checks after the rate limiter, which keep no state. *)
Definition check_shape (l : SecurityLayer) (domain : str) (rt : RecordType) : result str () :=
  match validate_domain_chars domain with
  | Err _ => Err (lit "invalid domain characters")
  | Ok _ =>
    if rebindable rt && has_rebinding_pattern domain then Err (lit "DNS rebinding pattern detected")
    else if match sl_anti_bypass l with Some ab => is_bypass_domain ab domain | None => false end then Err (lit "bypass domain blocked")
    else if negb (bool_decide (rt = RtPTR))
            && match sl_tunneling l with Some (p, _) => match check p domain with Suspicious => true | Clean => false end | None => false end
         then Err (lit "tunneling detected")
    else Ok ()
  end.

Definition check_pre_query (l : SecurityLayer) (client_ip : IpAddr) (domain : str) (rt : RecordType) (t : Elapsed)
  : SecurityLayer * result str () :=
  let '(l, ok) := layer_rate_check l client_ip t in
  if ok then (l, check_shape l domain rt) else (l, Err (lit "rate limited")).

Definition check_response (l : SecurityLayer) (dest_ip : IpAddr) (per_client : bool) (t : Elapsed) : SecurityLayer * RrlAction :=
  match sl_rrl l with
  | None => (l, RrlAllow)
  | Some (p, m) =>
    let '(action, m) := rrl_check rrl_iter p m (wire_ip dest_ip) per_client (el_rrl t) in
    (set_rrl l (Some (p, m)), action)
  end.

Definition check_tunneling_rate (l : SecurityLayer) (client_ip : IpAddr) (domain : str) (t : Elapsed) : SecurityLayer * bool :=
  match sl_tunneling l with
  | None => (l, false)
  | Some (p, m) =>
    let '(m, over) := check_rate name_hash tunnel_iter p m client_ip domain (el_tunneling t) in
    (set_tunneling l (Some (p, m)), over)
  end.

Definition security_cleanup (l : SecurityLayer) (t : Elapsed) : SecurityLayer :=
  {| sl_rate_limiter := (fun x => (x.1, rate_cleanup x.2 (el_rate t))) <$> sl_rate_limiter l;
     sl_rrl := (fun x => (x.1, rrl_cleanup x.1 x.2 (el_rrl t))) <$> sl_rrl l;
     sl_tunneling := (fun x => (x.1, tunnel_cleanup x.1 x.2 (el_tunneling t))) <$> sl_tunneling l;
     sl_anti_bypass := sl_anti_bypass l |}.

End Layer.

Definition tunneling_rate_gate_applies (rt : RecordType) (domain : str) : bool :=
  negb (bool_decide (rt = RtPTR)) || negb (is_reverse_zone domain).

(** ** What passes *)

(** A label of letters, digits, hyphens and underscores, with no hyphen at
    either end. *)
Definition plain_char (c : ascii) : Prop := is_ascii_alphanumeric c = true ∨ c = "-"%char ∨ c = "_"%char.

Definition plain_label (label : str) : Prop :=
  Forall plain_char label ∧ (∀ rest, label ≠ "-"%char :: rest) ∧ (∀ front, label ≠ front ++ ["-"%char]).

Lemma valid_domain_char_spec c : valid_domain_char c = true ↔ plain_char c.
Proof. unfold valid_domain_char, plain_char. rewrite !orb_true_iff, !bool_decide_eq_true. tauto. Qed.

Lemma bad_chars_label_None label : label ≠ [] → bad_chars_label label = None ↔ plain_label label.
Proof.
  intros Hne. unfold bad_chars_label, plain_label. rewrite bool_decide_eq_false_2 by done.
  assert (starts_with (lit "-") label = true ↔ ∃ rest, label = "-"%char :: rest) as Hs by apply starts_with_spec.
  assert (ends_with (lit "-") label = true ↔ ∃ front, label = front ++ ["-"%char]) as He by apply ends_with_spec.
  assert (forallb valid_domain_char label = true ↔ Forall plain_char label) as Hf.
  { rewrite forallb_forall, Forall_forall. setoid_rewrite <- list_elem_of_In. by setoid_rewrite valid_domain_char_spec. }
  destruct (starts_with _ _).
  { split; [done|]. intros (_ & H & _). destruct (proj1 Hs eq_refl) as [rest ->]. by destruct (H rest). }
  destruct (ends_with _ _).
  { split; [done|]. intros (_ & _ & H). destruct (proj1 He eq_refl) as [front ->]. by destruct (H front). }
  cbn [orb]. rewrite <- Hf. destruct (forallb _ _); cbn; (split; [intros E|intros (E & _)]); try done.
  split_and!; [done|intros r Hr|intros r Hr]; [assert (false = true) by (apply Hs; by exists r)|assert (false = true) by (apply He; by exists r)]; done.
Qed.

Lemma first_bad_label_None labels : first_bad_label labels = None ↔ Forall (fun l => l ≠ [] → plain_label l) labels.
Proof.
  induction labels as [|l labels IH]; cbn [first_bad_label]; [done|]. rewrite Forall_cons, <- IH. destruct (decide (l = [])) as [->|Hne].
  - cbn. split; [by split|by intros [_ ?]].
  - rewrite <- (bad_chars_label_None l Hne). destruct (bad_chars_label l); split; try done; [intros [H _]; by destruct (H Hne)|by intros [_ ?]].
Qed.

Lemma validate_domain_chars_Ok domain :
  validate_domain_chars domain = Ok () ↔ domain ≠ [] ∧ Forall plain_label (name_labels domain).
Proof.
  unfold validate_domain_chars. case_bool_decide as Hd; [by split; [|intros [? _]]|].
  assert (first_bad_label (split "." domain) = None ↔ Forall plain_label (name_labels domain)) as H.
  { rewrite first_bad_label_None. unfold name_labels. rewrite !Forall_forall. setoid_rewrite list_elem_of_filter. naive_solver. }
  destruct (first_bad_label _); split; try done; [intros [_ E]; by apply H in E|by intros _; split; [|apply H]].
Qed.

(** Four labels in a row that read as the octets of an IPv4 address. *)
Definition octet_run (labels : list str) : Prop :=
  ∃ front a b c d back, labels = front ++ a :: b :: c :: d :: back ∧ Forall (fun l => octet_label l = true) [a; b; c; d].

Lemma has_octet_window_spec labels : has_octet_window labels = true ↔ octet_run labels.
Proof.
  induction labels as [|a [|b [|c [|d rest]]] IH].
  1-4: (split; [done|]; intros (front & a' & b' & c' & d' & back & E & _); apply (f_equal length) in E; rewrite length_app in E; cbn in E; lia).
  cbn [has_octet_window]. rewrite orb_true_iff, IH, !andb_true_iff. split.
  - intros [(((Ha & Hb) & Hc) & Hd)|(front & a' & b' & c' & d' & back & -> & Hf)].
    + exists [], a, b, c, d, rest. split; [done|by repeat constructor].
    + by exists (a :: front), a', b', c', d', back.
  - intros (front & a' & b' & c' & d' & back & E & Hf). destruct front as [|x front]; cbn in E.
    + injection E as -> -> -> -> ->. left. inversion_clear Hf as [|? ? Ha H1]. inversion_clear H1 as [|? ? Hb H2]. inversion_clear H2 as [|? ? Hc H3].
      by inversion_clear H3 as [|? ? Hd _].
    + injection E as -> E. right. by exists front, a', b', c', d', back.
Qed.

Lemma valid_labels_fit domain : validate_query false false (split "." domain) = Ok () → length (name_labels domain) ≤ MAX_LABELS.
Proof.
  unfold validate_query. cbn [orb]. rewrite validate_labels_zero. change (real_labels (split "." domain)) with (name_labels domain).
  destruct (existsb _ _); [done|]. cbn [rbind]. destruct (MAX_NAME_LEN <? _); [done|].
  assert (∀ b : bool, (if b then MAX_LABEL_COUNT_ARPA else MAX_LABEL_COUNT) ≤ MAX_LABELS) as Hmax by (intros []; vm_compute; lia).
  destruct (Nat.ltb_spec (if str_eqb (default [] (last (name_labels domain))) (lit "arpa") then MAX_LABEL_COUNT_ARPA else MAX_LABEL_COUNT)
    (length (name_labels domain))); [done|]. intros _. etrans; [done|apply Hmax].
Qed.

Section Gate.
Context {FL : F64}.

Lemma layer_rate_keeps rate_iter l ip t :
  let l' := (layer_rate_check rate_iter l ip t).1 in sl_anti_bypass l' = sl_anti_bypass l ∧ sl_tunneling l' = sl_tunneling l.
Proof. unfold layer_rate_check. destruct (sl_rate_limiter l) as [[p m]|]; [|done]. by destruct (rate_check _ _ _ _ _). Qed.

Lemma rebinding_caught domain rt :
  validate_query false false (split "." domain) = Ok () →
  rebindable rt && has_rebinding_pattern domain = true ↔
  (rt = RtA ∨ rt = RtAAAA ∨ rt = RtHTTPS ∨ rt = RtSVCB) ∧ octet_run (name_labels domain).
Proof.
  intros Hv. rewrite andb_true_iff, <- has_octet_window_spec. unfold has_rebinding_pattern.
  rewrite (proj2 (Nat.ltb_ge _ _)) by (by apply valid_labels_fit). apply and_iff_compat_r. destruct rt; cbn; naive_solver.
Qed.

Lemma bypass_passes bypass domain :
  match bypass with Some ab => is_bypass_domain ab domain | None => false end = false ↔
  ∀ listed e, bypass = Some listed → e ∈ listed →
    let n := to_ascii_lowercase (strip_dot domain) in n ≠ e ∧ ∀ p, n ≠ p ++ DOT :: e.
Proof.
  destruct bypass as [ab|]; [|done]. rewrite is_bypass_normalised, <- not_true_iff_false, bypass_matches_spec. split.
  - intros H listed e [= <-] He n. split; [intros E|intros p E]; apply H; exists e; (split; [done|]); [by left|right; by exists p].
  - intros H (e & He & Hm). destruct (H ab e eq_refl He) as [H1 H2]. destruct Hm as [Hm|[p Hm]]; [done|by destruct (H2 p)].
Qed.

(** C31: the gate in front of a query.  For a name the wire validation accepts,
    the only state that changes is that of the rate limiter, which charges the
    client's budget, evicting another client's when it is full, whatever the
    other checks say.  The query goes on exactly when the budget
    admits it, every label is made of letters, digits, hyphens and underscores
    and has no hyphen at an end, the name is no listed resolver and is not below
    one, its shape is not that of a tunnel unless it is a reverse query, and, if
    the answer carries addresses, no four labels in a row anywhere in it are an
    IPv4 address: the fixed buffer of the scan cuts no accepted name off. *)
Theorem pre_query_exact rate_iter l ip domain rt t :
  validate_query false false (split "." domain) = Ok () →
  let '(l', verdict) := check_pre_query rate_iter l ip domain rt t in
  let '(charged, admitted) := layer_rate_check rate_iter l ip t in
  l' = charged ∧
  (verdict = Ok () ↔
     admitted = true ∧ domain ≠ [] ∧ Forall plain_label (name_labels domain)
     ∧ (rt = RtA ∨ rt = RtAAAA ∨ rt = RtHTTPS ∨ rt = RtSVCB → ¬ octet_run (name_labels domain))
     ∧ (∀ listed e, sl_anti_bypass l = Some listed → e ∈ listed →
          let n := to_ascii_lowercase (strip_dot domain) in n ≠ e ∧ ∀ p, n ≠ p ++ DOT :: e)
     ∧ (∀ params trackers, sl_tunneling l = Some (params, trackers) → rt ≠ RtPTR → check params domain = Clean)).
Proof.
  intros Hv. unfold check_pre_query. pose proof (layer_rate_keeps rate_iter l ip t) as Hk.
  destruct (layer_rate_check rate_iter l ip t) as [l1 admitted]. cbn [fst] in Hk. destruct Hk as [Hb Ht].
  destruct admitted; [|split; [done|]; by split; [|intros (? & _)]]. split; [done|]. unfold check_shape. rewrite Hb, Ht.
  destruct (validate_domain_chars domain) as [[]|e] eqn:Ec.
  2:{ split; [done|]. intros (_ & H1 & H2 & _). assert (validate_domain_chars domain = Ok ()) by (by apply validate_domain_chars_Ok). congruence. }
  apply validate_domain_chars_Ok in Ec as [Hne Hpl].
  pose proof (rebinding_caught domain rt Hv) as Hr.
  destruct (rebindable rt && has_rebinding_pattern domain).
  { split; [done|]. intros (_ & _ & _ & H & _). destruct (proj1 Hr eq_refl) as [H1 H2]. by destruct (H H1). }
  pose proof (bypass_passes (sl_anti_bypass l) domain) as Hby.
  destruct (match sl_anti_bypass l with Some ab => _ | None => _ end).
  { split; [done|]. intros (_ & _ & _ & _ & H & _). by apply Hby in H. }
  rewrite <- Hby. assert (¬ ((rt = RtA ∨ rt = RtAAAA ∨ rt = RtHTTPS ∨ rt = RtSVCB) ∧ octet_run (name_labels domain))) as Hno by (by intros H%Hr).
  destruct (sl_tunneling l) as [[params trackers]|].
  - destruct (bool_decide_reflect (rt = RtPTR)) as [Hp|Hp]; cbn [negb andb].
    + split; [|done]. intros _. split_and!; try done. intros H1 H2. by apply Hno.
    + destruct (check params domain) eqn:Eck; (split; [try done|]); try done.
      * intros _. split_and!; try done; [intros H1 H2; by apply Hno|by intros ? ? [= <- <-] _].
      * intros (_ & _ & _ & _ & _ & H). by rewrite (H params trackers eq_refl Hp) in Eck.
  - rewrite andb_false_r. split; [|done]. intros _. split_and!; try done. intros H1 H2. by apply Hno.
Qed.
End Gate.

#[local] Existing Instance integer_f64.

Definition listed_resolver : SecurityLayer :=
  {| sl_rate_limiter := None; sl_rrl := None; sl_tunneling := None; sl_anti_bypass := Some {[lit "dns.test"]} |}.

(** A name that hides an address behind other labels, and one below a listed
    resolver. *)
Lemma pre_query_exact_witness :
  let verdict name rt := (check_pre_query map_to_list listed_resolver (V4 1) (lit name) rt {| el_rate := 0; el_rrl := 0; el_tunneling := 0 |}).2 in
  verdict "a.10.0.0.1.evil.test" RtA ≠ Ok () ∧ verdict "a.10.0.0.1.evil.test" RtTXT = Ok () ∧ verdict "X.DNS.test" RtA ≠ Ok ().
Proof.
  cbv zeta. split_and!; [|by vm_compute|by vm_compute].
  pose proof (pre_query_exact map_to_list listed_resolver (V4 1) (lit "a.10.0.0.1.evil.test") RtA {| el_rate := 0; el_rrl := 0; el_tunneling := 0 |} eq_refl) as H.
  destruct (check_pre_query _ _ _ _ _ _) as [l' verdict]. destruct H as [_ H]. cbn [snd]. rewrite H. intros (_ & _ & _ & Hno & _).
  apply Hno; [by left|]. exists [lit "a"], (lit "10"), (lit "0"), (lit "0"), (lit "1"), [lit "evil"; lit "test"]. split; [by vm_compute|by repeat constructor].
Defined.
