(* ===== verification/Handler.v ===== *)
(** * The request handler: [src/dns/handler.rs]

    One query from its arrival to the message that answers it, through the
    components of the other files in the order of the source.  What the handler
    changes is a state that is passed on: the security layer, the response
    cache, the throttle of the resolver and the events it emits.  The upstream,
    the clocks, the DNSSEC verdict and the transport are given by the [World] of
    the request; the policy does not change while one request is handled. *)

From S2P Require Import Prelude RustStr SortedSlice DnsTypes Domain Rules Evaluator Shard Decision Limits Admission Ast Compiler CompilerIndex CompilerStore Engine EngineProofs EngineVerdict ActivePolicy CustomList Profile Cname Windows Limiter TokenBucket Schedule Cidr Resolver ResolverProofs Rewrite LocalRecords ClientSubnet Cache Tunnelling Guards Security.

(** ** Names on the wire *)

(** What starts an escape in the text of a name. *)
Definition BACKSLASH : ascii := "\"%char.

(** [hickory_proto]'s names as every component reads them: the labels without
    the root, the comparison of the CNAME walk, [PartialEq] and [from_ascii].
    [to_ascii] writes the labels with dots between and, for a fully qualified
    name, a dot behind, and escapes with a backslash every byte of a label that is
    a dot or no printable ASCII. *)
Class WireNames := {
  wn_local :: LocalNames;
  wn_iter : LName → list str;
  wn_eq_ignore_root : LName → LName → bool;
  wn_eq_ignore_root_spec : ∀ a b,
    wn_eq_ignore_root a b = true ↔ map to_ascii_lowercase (wn_iter a) = map to_ascii_lowercase (wn_iter b);
  wn_labels_nonempty : ∀ n, Forall (fun l => l ≠ []) (wn_iter n);
  wn_to_ascii : ∀ n, BACKSLASH ∉ lname_to_ascii n →
    Forall (Forall (fun b => name_byte b = true)) (wn_iter n) ∧ ∃ root, (root = [] ∨ root = [DOT]) ∧ lname_to_ascii n = join DOT (wn_iter n) ++ root;
  wn_eq : LName → LName → bool;
  wn_from_ascii : str → option LName;
}.

#[export] Instance wire_crate {W : WireNames} : NameCrate :=
  {| Name := LName; name_iter := wn_iter; eq_ignore_root := wn_eq_ignore_root;
     eq_ignore_root_spec := wn_eq_ignore_root_spec; name_labels_nonempty := wn_labels_nonempty |}.

(** The record payload the cache stores: owner and data. *)
Abbreviation wire_payload := (LName * LData)%type.

Section Records.
Context {W : WireNames}.

Definition of_cached (r : @CRecord wire_payload) : LRecord :=
  {| lr_name := (cr_payload r).1; lr_ttl := cr_ttl r; lr_data := (cr_payload r).2 |}.

(** A record as the CNAME walk reads it. *)
Definition as_dns_record (r : LRecord) : DnsRecord :=
  {| rec_name := lr_name r; rec_type_cname := bool_decide (record_type r = RtCNAME);
     rec_data := match lr_data r with DCNAME t => RCname t | _ => ROther end |}.

(** A record as the address filter reads it. *)
Definition as_address (r : LRecord) : AddressData :=
  match lr_data r with DA ip => DataA ip | DAAAA ip => DataAAAA ip | _ => DataOther end.

(** ** Requests and messages *)

Record Question := { qn_name : LName; qn_type : RecordType; qn_class : DNSClass }.

Record DnsRequest := { rq_src : IpAddr; rq_queries : list Question }.

(** What is set on the response beyond what the request dictates; [ms_soa] is
    the lifetime of the synthesised SOA record, when there is one. *)
Record Message := {
  ms_code : ResponseCode;
  ms_recursion_available : bool;
  ms_truncation : bool;
  ms_authentic : bool;
  ms_answers : list LRecord;
  ms_soa : option Z;
}.

Definition no_records (code : ResponseCode) : Message :=
  {| ms_code := code; ms_recursion_available := false; ms_truncation := false; ms_authentic := false; ms_answers := []; ms_soa := None |}.

Definition answer_message (records : list LRecord) (soa : option Z) : Message :=
  {| ms_code := NoError; ms_recursion_available := true; ms_truncation := false; ms_authentic := false; ms_answers := records; ms_soa := soa |}.

Definition truncated_message : Message :=
  {| ms_code := NoError; ms_recursion_available := true; ms_truncation := true; ms_authentic := false; ms_answers := []; ms_soa := None |}.

(** [send_blocked] *)
Definition blocked_message (qname : LName) (rt : RecordType) (ttl : Z) : Message :=
  match rt with
  | RtA => answer_message [{| lr_name := qname; lr_ttl := ttl; lr_data := DA 0 |}] None
  | RtAAAA => answer_message [{| lr_name := qname; lr_ttl := ttl; lr_data := DAAAA 0 |}] None
  | _ => answer_message [] (Some ttl)
  end.

Inductive BlockResponseV1 := BrZero | BrNxdomain | BrRefused | BrSoaNodata.

(** [send_block_response] *)
Definition block_response_message (qname : LName) (rt : RecordType) (ttl : Z) (response : BlockResponseV1) : Message :=
  match response with
  | BrZero => blocked_message qname rt ttl
  | BrNxdomain => no_records NXDomain
  | BrRefused => no_records DnsTypes.Refused
  | BrSoaNodata => answer_message [] (Some ttl)
  end.

(** [send_rfc8482] *)
Definition hinfo_message (qname : LName) (ttl : Z) : Message :=
  answer_message [{| lr_name := qname; lr_ttl := ttl; lr_data := DHINFO (lit "RFC8482") |}] None.

Definition fwd_name_for (domain : str) (rewrote : bool) (name : LName) : LName :=
  if rewrote then default name (wn_from_ascii (domain ++ lit ".")) else name.

Definition REWRITE_CNAME_TTL_SECS : Z := 300.

Definition prepend_rewrite_cname (queries : list Question) (target : LName) (remaining_ttl_secs : Z) (records : list LRecord) : list LRecord :=
  match records, queries with
  | [], _ | _, [] => records
  | _, query :: _ =>
    if wn_eq (qn_name query) target then records
    else {| lr_name := qn_name query; lr_ttl := Z.min remaining_ttl_secs REWRITE_CNAME_TTL_SECS; lr_data := DCNAME target |} :: records
  end.

(** [send_cached] *)
Definition cached_message (queries : list Question) (entry : @CacheEntry wire_payload) (now : Z) (authentic : bool) (rewrite_target : option LName) : Message :=
  let remaining := as_u32 (Z.max 1 (as_secs (remaining_ttl entry now))) in
  let records := map of_cached (records_with_remaining_ttl entry now) in
  let records := match rewrite_target with
                 | Some target => prepend_rewrite_cname queries target remaining records
                 | None => records
                 end in
  {| ms_code := if is_negative entry then ce_response_code entry else NoError;
     ms_recursion_available := true; ms_truncation := false;
     ms_authentic := authentic && match rewrite_target with None => true | Some _ => false end;
     ms_answers := records;
     ms_soa := if is_negative entry then Some remaining else None |}.

End Records.

(** ** Events *)

Inductive Outcome :=
| OutRefused | OutRrlDrop | OutRrlSlip | OutLocal | OutBlocked | OutCached | OutHinfo | OutAllowed | OutStale.

#[export] Instance outcome_eq_dec : EqDecision Outcome.
Proof. solve_decision. Defined.

(** [QueryDecision] without the elapsed time. *)
Record QueryDecision := {
  qd_client_ip : IpAddr;
  qd_domain : str;
  qd_client_name : option str;
  qd_client_profile : option str;
  qd_record_type : RecordType;
  qd_outcome : Outcome;
  qd_blocked : bool;
  qd_cached : bool;
  qd_cache_negative_hit : bool;
  qd_cname_chain_via : option str;
  qd_block_list_bit : option Z;
  qd_rewrote_from : option str;
}.

Inductive LocalRecordsScopeKey := ScopeProfile (name : str) | ScopeGlobal.

Inductive DnssecDecision := DnssecServfail | DnssecSetAd | DnssecServe.

Section Handler.
Context {W : WireNames} {RC : RegexCrate} {RP : RegexPrograms} {HS : ShardHasher} {FL : F64}.
Context {MK : @Moka wire_payload}.

Inductive Event :=
| EvAclRefused
| EvOutcome (d : QueryDecision)
| EvLocalHit (scope : LocalRecordsScopeKey) (apex : str)
| EvCnameAudit (qname offending : str) (source : BlockSource) (rewrote_from : option str)
| EvUpstream (domain : str) (name : LName) (rt : RecordType) (ecs : option EdnsClientSubnet)
| EvPrefetch (domain : str) (name : LName) (rt : RecordType) (class : DNSClass) (ecs : option EdnsClientSubnet) (prefix : option EcsPrefix)
| EvSend (m : Message).

(** The fields of [ResolvedProfile] the filter does not read. *)
Record ProfileExtras := {
  px_local_records : ProfileLocalRecords;
  px_rewrite_rules : ProfileRewriteRules;
  px_ecs_policy : EcsPolicy;
  px_block_response : BlockResponseV1;
  px_blocked_ttl_secs : Z;
}.

(** What does not change during a request: the settings, the policy published
    and whether the optional parts are there. *)
Record ForwardHandler := {
  fh_filter : FilterEngine;
  fh_profiles : option (ResolverMap * gmap IpAddr str);
  fh_extras : ResolvedProfile → ProfileExtras;
  fh_stats : bool;
  fh_local_records : option LocalData;
  fh_local_records_hits : bool;
  fh_ip_filter : option (gset IpAddr);
  fh_allow_from : option (list Cidr);
  fh_blocked_ttl : Z;
  fh_prefetch_threshold : option (Z → Z);
  fh_cname_max_depth : nat;
  fh_dynamic_ttl_secs : Z;
  fh_nodata_for_missing_types_network_name : bool;
  fh_audit_writer : bool;
  fh_filter_ready : bool;
  fh_cache_config : CacheConfig;
}.

Record HState := {
  hs_security : option SecurityLayer;
  hs_cache : store;
  hs_warned : list Z;
  hs_events : list Event;
}.

(** What the request meets outside the process.  [w_now] is the time of the
    lookup in the cache and of what is sent from it, [w_later] the time at which
    the upstream has answered. *)
Record World := {
  w_now : Z;
  w_later : Z;
  w_elapsed : Elapsed;
  w_resolver_secs : Z;
  w_upstream : str → LName → RecordType → option EdnsClientSubnet → result DnsError (@Answer wire_payload);
  w_generation : Z;
  w_profile_addr : Z;
  w_dnssec : bool → bool → option DnssecDecision;
  w_prefetch_permit : bool;
  w_send_error : Message → option str;
}.

(** The iteration orders of the concurrent maps and the hashes. *)
Context (rate_iter : gmap Limiter.IpAddr Z → list (Limiter.IpAddr * Z)).
Context (rrl_iter : gmap Z PrefixState → list (Z * PrefixState)).
Context (tunnel_iter : Trackers → list (IpAddr * str * SubdomainTracker)).
Context (name_hash : str → Z) (hash_pair : IpAddr → str → Z).

Definition emit (st : HState) (ev : Event) : HState :=
  {| hs_security := hs_security st; hs_cache := hs_cache st; hs_warned := hs_warned st; hs_events := hs_events st ++ [ev] |}.

Definition with_security (st : HState) (s : SecurityLayer) : HState :=
  {| hs_security := Some s; hs_cache := hs_cache st; hs_warned := hs_warned st; hs_events := hs_events st |}.

Definition with_cache (st : HState) (c : store) : HState :=
  {| hs_security := hs_security st; hs_cache := c; hs_warned := hs_warned st; hs_events := hs_events st |}.

Definition with_warned (st : HState) (slots : list Z) : HState :=
  {| hs_security := hs_security st; hs_cache := hs_cache st; hs_warned := slots; hs_events := hs_events st |}.

Definition record_outcome (h : ForwardHandler) (st : HState) (d : QueryDecision) : HState :=
  if fh_stats h then emit st (EvOutcome d) else st.

(** The sends that turn a failure of the transport into a response info. *)
Definition send (st : HState) (m : Message) : HState := emit st (EvSend m).

Definition reply_with (st : HState) (m : Message) : option (HState * result DnsError ()) := Some (send st m, Ok ()).

Definition source_allowed (client_ip : IpAddr) (allow_from : option (list Cidr)) : bool :=
  match allow_from with
  | None | Some [] => true
  | Some acl => any_contains acl client_ip
  end.

(** The fields of a decision that do not depend on where it is taken. *)
Record Asked := {
  ak_client_ip : IpAddr;
  ak_domain : str;
  ak_type : RecordType;
  ak_client_name : option str;
  ak_client_profile : option str;
  ak_rewrote_from : option str;
}.

Definition decision (a : Asked) (outcome : Outcome) (blocked : bool) : QueryDecision :=
  {| qd_client_ip := ak_client_ip a; qd_domain := ak_domain a; qd_client_name := ak_client_name a;
     qd_client_profile := ak_client_profile a; qd_record_type := ak_type a; qd_outcome := outcome; qd_blocked := blocked;
     qd_cached := false; qd_cache_negative_hit := false; qd_cname_chain_via := None; qd_block_list_bit := None;
     qd_rewrote_from := ak_rewrote_from a |}.

Definition decision_cached (a : Asked) (outcome : Outcome) (negative : bool) : QueryDecision :=
  {| qd_client_ip := ak_client_ip a; qd_domain := ak_domain a; qd_client_name := ak_client_name a;
     qd_client_profile := ak_client_profile a; qd_record_type := ak_type a; qd_outcome := outcome; qd_blocked := false;
     qd_cached := true; qd_cache_negative_hit := negative; qd_cname_chain_via := None; qd_block_list_bit := None;
     qd_rewrote_from := ak_rewrote_from a |}.

Definition decision_blocked (a : Asked) (via : option str) (bit : option Z) : QueryDecision :=
  {| qd_client_ip := ak_client_ip a; qd_domain := ak_domain a; qd_client_name := ak_client_name a;
     qd_client_profile := ak_client_profile a; qd_record_type := ak_type a; qd_outcome := OutBlocked; qd_blocked := true;
     qd_cached := false; qd_cache_negative_hit := false; qd_cname_chain_via := via; qd_block_list_bit := bit;
     qd_rewrote_from := ak_rewrote_from a |}.

Definition list_bit (source : option BlockSource) : option Z :=
  match source with Some (BSList b) => Some b | _ => None end.

(** ** Sending from the cache *)

(** [send_cached_validated] *)
Definition send_cached_validated (w : World) (st : HState) (queries : list Question) (entry : CacheEntry) (now : Z) (rewrite_target : option LName)
  : HState :=
  let rewrote := match rewrite_target with Some _ => true | None => false end in
  match w_dnssec w (is_negative entry) rewrote with
  | Some d =>
    if rewrote then send st (cached_message queries entry now false rewrite_target)
    else match d with
         | DnssecServfail => send st (no_records ServFail)
         | DnssecSetAd => send st (cached_message queries entry now true rewrite_target)
         | DnssecServe => send st (cached_message queries entry now false rewrite_target)
         end
  | None => send st (cached_message queries entry now false rewrite_target)
  end.

(** ** What an answer is checked for *)

Inductive AnswerBlock := ViaCname (offending : str) (source : BlockSource) | ViaAddress (ip : IpAddr).

(** The CNAME walk, then the address filter with the profile that serves. *)
Definition check_answer (h : ForwardHandler) (w : World) (p : ResolvedProfile) (grant : option RequestGrant) (domain : str)
    (rewrote_from : option str) (entry : @CacheEntry wire_payload) : option (option AnswerBlock) :=
  let records := map of_cached (ce_records entry) in
  v ← walk_response_with_rewrite (map as_dns_record records) domain rewrote_from (fh_filter h) p (w_profile_addr w) grant (fh_cname_max_depth h);
  match v with
  | CBlock offending source => Some (Some (ViaCname offending source))
  | CAllow =>
    match fh_ip_filter h with
    | None => Some None
    | Some ipf =>
      let checked profile := Some (ViaAddress <$> check_response_for_profile_with_grant ipf (map as_address records) profile grant) in
      match rp_operator_rules p with
      | None => checked None
      | Some binding =>
        compiled ← binding_profile binding;
        checked (Some {| ref_addr := w_profile_addr w; ref_profile := compiled |})
      end
    end
  end.

(** [BlockDispatchCtx] *)
Record BlockDispatchCtx := {
  bc_asked : Asked;
  bc_class : DNSClass;
  bc_ecs_cache_prefix : option EcsPrefix;
  bc_qname : LName;
  bc_blocked_ttl : Z;
  bc_block_response : BlockResponseV1;
}.

Definition invalidate_current_bucket (st : HState) (c : BlockDispatchCtx) : HState :=
  with_cache st (invalidate_key (hs_cache st) (ak_domain (bc_asked c)) (ak_type (bc_asked c)) (bc_class c) (bc_ecs_cache_prefix c)).

Definition block_reply (c : BlockDispatchCtx) : Message :=
  block_response_message (bc_qname c) (ak_type (bc_asked c)) (bc_blocked_ttl c) (bc_block_response c).

Definition emit_cname_block_audit (h : ForwardHandler) (st : HState) (a : Asked) (offending : str) (source : BlockSource) : HState :=
  if fh_audit_writer h then emit st (EvCnameAudit (ak_domain a) offending source (ak_rewrote_from a)) else st.

Definition dispatch_cname_block (h : ForwardHandler) (st : HState) (c : BlockDispatchCtx) (offending : str) (source : BlockSource) : HState :=
  let st := invalidate_current_bucket st c in
  let st := emit_cname_block_audit h st (bc_asked c) offending source in
  let st := record_outcome h st (decision_blocked (bc_asked c) (Some offending) (list_bit (Some source))) in
  send st (block_reply c).

Definition dispatch_ip_block (h : ForwardHandler) (st : HState) (c : BlockDispatchCtx) : HState :=
  let st := invalidate_current_bucket st c in
  let st := record_outcome h st (decision_blocked (bc_asked c) None None) in
  send st (block_reply c).

Definition dispatch_block (h : ForwardHandler) (st : HState) (c : BlockDispatchCtx) (b : AnswerBlock) : HState :=
  match b with
  | ViaCname offending source => dispatch_cname_block h st c offending source
  | ViaAddress _ => dispatch_ip_block h st c
  end.

(** ** From the cache or from upstream *)

(** What is known of a request once its profile allows the name: the profile,
    its grant, the name after the rewrite and the context of a block. *)
Record Allowed := {
  al_queries : list Question;
  al_name : LName;
  al_profile : ResolvedProfile;
  al_grant : option RequestGrant;
  al_ctx : BlockDispatchCtx;
  al_ecs : option EdnsClientSubnet;
}.

Definition al_asked (a : Allowed) : Asked := bc_asked (al_ctx a).
Definition al_domain (a : Allowed) : str := ak_domain (al_asked a).
Definition al_rewrote (a : Allowed) : bool := match ak_rewrote_from (al_asked a) with Some _ => true | None => false end.
Definition al_target (a : Allowed) : option LName :=
  if al_rewrote a then Some (fwd_name_for (al_domain a) true (al_name a)) else None.

(** Check an entry, then block or go on. *)
Definition guarded (h : ForwardHandler) (w : World) (a : Allowed) (st : HState) (entry : CacheEntry)
    (serve : HState → option (HState * result DnsError ())) : option (HState * result DnsError ()) :=
  verdict ← check_answer h w (al_profile a) (al_grant a) (al_domain a) (ak_rewrote_from (al_asked a)) entry;
  match verdict with
  | Some b => Some (dispatch_block h st (al_ctx a) b, Ok ())
  | None => serve st
  end.

Definition needs_prefetch (threshold : option (Z → Z)) (e : @CacheEntry wire_payload) (now : Z) : bool :=
  match threshold with
  | Some mul => let remaining := remaining_ttl e now in (remaining <? mul (ce_ttl e))%Z && (0 <? remaining)%Z
  | None => false
  end.

(** The hit: the outcome, a prefetch when one is due, and the answer. *)
Definition serve_fresh (h : ForwardHandler) (w : World) (a : Allowed) (entry : CacheEntry) (st : HState) : option (HState * result DnsError ()) :=
  let st := record_outcome h st (decision_cached (al_asked a) OutCached (is_negative entry)) in
  let st := if needs_prefetch (fh_prefetch_threshold h) entry (w_now w) && w_prefetch_permit w
            then emit st (EvPrefetch (al_domain a) (fwd_name_for (al_domain a) (al_rewrote a) (al_name a)) (ak_type (al_asked a)) (bc_class (al_ctx a))
                            (al_ecs a) (bc_ecs_cache_prefix (al_ctx a)))
            else st in
  Some (send_cached_validated w st (al_queries a) entry (w_now w) (al_target a), Ok ()).

Definition serve_stale (h : ForwardHandler) (w : World) (a : Allowed) (entry : CacheEntry) (st : HState) : option (HState * result DnsError ()) :=
  let st := record_outcome h st (decision_cached (al_asked a) OutStale (is_negative entry)) in
  Some (send_cached_validated w st (al_queries a) entry (w_later w) (al_target a), Ok ()).

(** What the singleflight closure returns. *)
Definition fetch_upstream (w : World) (a : Allowed) : result DnsError Answer :=
  match w_upstream w (al_domain a) (fwd_name_for (al_domain a) (al_rewrote a) (al_name a)) (ak_type (al_asked a)) (al_ecs a) with
  | Ok resp => if uncacheable (an_code resp) then Err (Uncacheable (an_code resp)) else Ok resp
  | Err e => Err e
  end.

Context (code_text : ResponseCode → str).

Definition after_fetch (h : ForwardHandler) (w : World) (a : Allowed) (st : HState) (fetched : result FetchFailure CacheEntry)
  : option (HState * result DnsError ()) :=
  match fetched with
  | Ok entry =>
    let serve st := Some (send_cached_validated w st (al_queries a) entry (w_later w) (al_target a), Ok ()) in
    match ce_records entry with
    | [] => serve st
    | _ => guarded h w a st entry serve
    end
  | Err failure =>
    match ff_error failure with
    | Uncacheable rc =>
      let m := {| ms_code := rc; ms_recursion_available := true; ms_truncation := false; ms_authentic := false; ms_answers := []; ms_soa := None |} in
      Some (send st m, match w_send_error w m with Some e => Err (ServerError e) | None => Ok () end)
    | error =>
      match ff_stale failure with
      | Some entry => guarded h w a st entry (serve_stale h w a entry)
      | None => Some (st, Err (UpstreamRequestFailed (dns_error_text code_text error)))
      end
    end
  end.

Definition cache_key (a : Allowed) : CacheKey :=
  (al_domain a, ak_type (al_asked a), bc_class (al_ctx a), bc_ecs_cache_prefix (al_ctx a)).

(** The fetch, with the upstream asked only when the cache has nothing. *)
Definition forward (h : ForwardHandler) (w : World) (a : Allowed) (st : HState) (stale_prior : option CacheEntry) : option (HState * result DnsError ()) :=
  let key := cache_key a in
  let before := match stale_prior with Some _ => mk_invalidate (hs_cache st) key | None => hs_cache st end in
  let st' := match mk_get before (w_later w) key with
             | None => emit st (EvUpstream (al_domain a) (fwd_name_for (al_domain a) (al_rewrote a) (al_name a)) (ak_type (al_asked a)) (al_ecs a))
             | Some _ => st
             end in
  let '(cache, fetched, _) := fetch_with_keyed_state (fh_cache_config h) (hs_cache st) (w_later w) key stale_prior (fetch_upstream w a) (w_generation w) in
  let st := with_cache st' cache in
  let st := record_outcome h st (decision (al_asked a) OutAllowed false) in
  after_fetch h w a st fetched.

(** The tunnelling gate in front of the fetch, on a miss. *)
Definition rate_gate (w : World) (a : Allowed) (st : HState) : HState * bool :=
  match hs_security st with
  | Some sec =>
    let '(sec, over) := check_tunneling_rate tunnel_iter name_hash sec (ak_client_ip (al_asked a)) (al_domain a) (w_elapsed w) in
    (with_security st sec, over)
  | None => (st, false)
  end.

Definition answer_allowed (h : ForwardHandler) (w : World) (a : Allowed) (st : HState) : option (HState * result DnsError ()) :=
  let asked := al_asked a in
  match lookup_keyed (hs_cache st) (w_now w) (cache_key a) with
  | Fresh entry => guarded h w a st entry (serve_fresh h w a entry)
  | found =>
    if bool_decide (ak_type asked = RtANY) then
      reply_with (record_outcome h st (decision asked OutHinfo false)) (hinfo_message (al_name a) (fh_blocked_ttl h))
    else
      match found with
      | Stale entry => forward h w a st (Some entry)
      | _ =>
        let '(st, over) := if tunneling_rate_gate_applies (ak_type asked) (al_domain a) then rate_gate w a st else (st, false) in
        if over then reply_with (record_outcome h st (decision asked OutRefused true)) (no_records DnsTypes.Refused)
        else forward h w a st None
      end
  end.

(** ** The rewrite *)

Definition rewritten (a : Asked) (new_domain : str) : Asked :=
  {| ak_client_ip := ak_client_ip a; ak_domain := new_domain; ak_type := ak_type a; ak_client_name := ak_client_name a;
     ak_client_profile := ak_client_profile a; ak_rewrote_from := Some (ak_domain a) |}.

Definition with_asked (a : Allowed) (asked : Asked) : Allowed :=
  {| al_queries := al_queries a; al_name := al_name a; al_profile := al_profile a; al_grant := al_grant a; al_ecs := al_ecs a;
     al_ctx := {| bc_asked := asked; bc_class := bc_class (al_ctx a); bc_ecs_cache_prefix := bc_ecs_cache_prefix (al_ctx a);
                  bc_qname := bc_qname (al_ctx a); bc_blocked_ttl := bc_blocked_ttl (al_ctx a);
                  bc_block_response := bc_block_response (al_ctx a) |} |}.

Definition answer_rewritten (h : ForwardHandler) (w : World) (a : Allowed) (st : HState) : option (HState * result DnsError ()) :=
  match rewrite_apply (px_rewrite_rules (fh_extras h (al_profile a))) (al_domain a) with
  | None => answer_allowed h w a st
  | Some new_domain =>
    let a := with_asked a (rewritten (al_asked a) new_domain) in
    v ← evaluate_synthetic_cname_hop new_domain (fh_filter h) (al_profile a) (w_profile_addr w) (al_grant a);
    match v with
    | CBlock offending source => Some (dispatch_cname_block h st (al_ctx a) offending source, Ok ())
    | CAllow => answer_allowed h w a st
    end
  end.

(** ** The policy *)

Definition for_client (a : Asked) (name profile : option str) : Asked :=
  {| ak_client_ip := ak_client_ip a; ak_domain := ak_domain a; ak_type := ak_type a; ak_client_name := name;
     ak_client_profile := profile; ak_rewrote_from := ak_rewrote_from a |}.

Definition answer_filtered (h : ForwardHandler) (w : World) (queries : list Question) (q : Question) (asked : Asked)
    (resolution : option Resolution) (ecs : option EdnsClientSubnet) (st : HState) : option (HState * result DnsError ()) :=
  match resolution with
  | None => reply_with (record_outcome h st (decision (for_client asked None None) OutRefused true)) (no_records DnsTypes.Refused)
  | Some r =>
    match res_profile r with
    | None => reply_with (record_outcome h st (decision (for_client asked (res_device_name r) None) OutRefused true)) (no_records DnsTypes.Refused)
    | Some p =>
      d ← evaluate_active_operator_policy (fh_filter h) (ak_domain asked) p (w_profile_addr w);
      let asked := for_client asked (res_device_name r) (Some (rp_name p)) in
      let extras := fh_extras h p in
      if ap_blocked d then
        reply_with (record_outcome h st (decision_blocked asked None (list_bit (ap_source d))))
          (block_response_message (qn_name q) (qn_type q) (px_blocked_ttl_secs extras) (px_block_response extras))
      else
        answer_rewritten h w
          {| al_queries := queries; al_name := qn_name q; al_profile := p; al_grant := ap_grant d; al_ecs := ecs;
             al_ctx := {| bc_asked := asked; bc_class := qn_class q; bc_ecs_cache_prefix := ecs ≫= as_cache_prefix; bc_qname := qn_name q;
                          bc_blocked_ttl := px_blocked_ttl_secs extras; bc_block_response := px_block_response extras |} |} st
    end
  end.

(** ** Local answers *)

(** What the profile's records, the global records and the network names say:
    the message, the hit to count and the profile the outcome names. *)
Record LocalAnswer := { la_message : Message; la_hit : option (LocalRecordsScopeKey * str); la_profile : option str }.

Definition profile_answer (h : ForwardHandler) (p : option ResolvedProfile) (domain : str) (rt : RecordType) : option LocalAnswer :=
  profile ← p;
  hit ← lookup_with_apex (px_local_records (fh_extras h profile)) domain rt;
  Some {| la_message := answer_message hit.1 None; la_hit := Some (ScopeProfile (rp_name profile), hit.2); la_profile := Some (rp_name profile) |}.

Definition global_answer (h : ForwardHandler) (domain : str) (rt : RecordType) : option LocalAnswer :=
  local ← fh_local_records h;
  match local_lookup local domain rt with
  | LHit records apex => Some {| la_message := answer_message records None; la_hit := Some (ScopeGlobal, apex); la_profile := None |}
  | LNodata ttl => Some {| la_message := answer_message [] (Some ttl); la_hit := None; la_profile := None |}
  | LMiss => None
  end.

Definition network_name_answer (h : ForwardHandler) (name : LName) (domain : str) (rt : RecordType) : option LocalAnswer :=
  '(rm, arp) ← fh_profiles h;
  let say m := Some {| la_message := m; la_hit := None; la_profile := None |} in
  if network_name_is_configured rm domain then
    if bool_decide (rt = RtA) then
      match resolve_network_name rm arp domain with
      | Some (V4 ip) => say (answer_message [{| lr_name := name; lr_ttl := fh_dynamic_ttl_secs h; lr_data := DA ip |}] None)
      | Some (V6 _) => None
      | None => say (no_records NXDomain)
      end
    else if fh_nodata_for_missing_types_network_name h then say (answer_message [] (Some (fh_dynamic_ttl_secs h)))
    else None
  else None.

Definition local_answer (h : ForwardHandler) (p : option ResolvedProfile) (name : LName) (domain : str) (rt : RecordType) : option LocalAnswer :=
  or_else (profile_answer h p domain rt) (or_else (global_answer h domain rt) (network_name_answer h name domain rt)).

Definition answer_locally (h : ForwardHandler) (st : HState) (asked : Asked) (device : option str) (la : LocalAnswer) : option (HState * result DnsError ()) :=
  let st := match la_hit la with
            | Some (scope, apex) => if fh_local_records_hits h then emit st (EvLocalHit scope apex) else st
            | None => st
            end in
  reply_with (record_outcome h st (decision (for_client asked device (la_profile la)) OutLocal false)) (la_message la).

(** ** The whole request *)

Definition answer_resolved (h : ForwardHandler) (w : World) (queries : list Question) (q : Question) (asked : Asked) (st : HState)
  : option (HState * result DnsError ()) :=
  let '(st, resolution) :=
    match fh_profiles h with
    | Some (rm, arp) =>
      let '(slots, r) := resolve_client hash_pair rm arp (hs_warned st) (w_resolver_secs w) (ak_client_ip asked) in
      (with_warned st slots, Some r)
    | None => (st, None)
    end in
  let profile := resolution ≫= res_profile in
  let ecs := profile ≫= fun p => build_option (px_ecs_policy (fh_extras h p)) (ak_client_ip asked) in
  match local_answer h profile (qn_name q) (ak_domain asked) (qn_type q) with
  | Some la => answer_locally h st asked (resolution ≫= res_device_name) la
  | None => answer_filtered h w queries q asked resolution ecs st
  end.

(** The security gate: a refusal, a rate-limited response, or the request goes
    on. *)
Definition security_gate (h : ForwardHandler) (w : World) (asked : Asked) (st : HState) : HState * option (option Message) :=
  match hs_security st with
  | None => (st, None)
  | Some sec =>
    let named := for_client asked ('(rm, _) ← fh_profiles h; device_name rm (ak_client_ip asked)) None in
    let '(sec, verdict) := check_pre_query rate_iter sec (ak_client_ip asked) (ak_domain asked) (ak_type asked) (w_elapsed w) in
    let st := with_security st sec in
    match verdict with
    | Err _ => (record_outcome h st (decision named OutRefused true), Some (Some (no_records DnsTypes.Refused)))
    | Ok _ =>
      let per_client := match fh_allow_from h with Some ((_ :: _) as c) => source_allowed (ak_client_ip asked) (Some c) | _ => false end in
      let '(sec, action) := check_response rrl_iter sec (ak_client_ip asked) per_client (w_elapsed w) in
      let st := with_security st sec in
      match action with
      | RrlAllow => (st, None)
      | RrlDrop => (record_outcome h st (decision named OutRrlDrop true), Some None)
      | RrlSlip => (record_outcome h st (decision named OutRrlSlip false), Some (Some truncated_message))
      end
    end
  end.

Definition valid_name (n : LName) : bool :=
  let is_empty := bool_decide (wn_iter n = []) in
  match validate_query is_empty is_empty (wn_iter n) with Ok _ => true | Err _ => false end.

Definition handle_inner (h : ForwardHandler) (w : World) (r : DnsRequest) (st : HState) : option (HState * result DnsError ()) :=
  if negb (source_allowed (rq_src r) (fh_allow_from h)) then
    reply_with (if fh_stats h then emit st EvAclRefused else st) (no_records DnsTypes.Refused)
  else if negb (fh_filter_ready h) then reply_with st (no_records ServFail)
  else
    match rq_queries r with
    | [] => reply_with st (no_records ServFail)
    | q :: _ =>
      if negb (valid_name (qn_name q)) then reply_with st (no_records ServFail)
      else
        let asked := {| ak_client_ip := rq_src r; ak_domain := ascii_domain (qn_name q); ak_type := qn_type q; ak_client_name := None;
                        ak_client_profile := None; ak_rewrote_from := None |} in
        let '(st, stopped) := security_gate h w asked st in
        match stopped with
        | Some (Some m) => reply_with st m
        | Some None => Some (st, Ok ())
        | None => answer_resolved h w (rq_queries r) q asked st
        end
    end.

(** [handle_request]: an error becomes a server failure. *)
Definition handle_request (h : ForwardHandler) (w : World) (r : DnsRequest) (st : HState) : option HState :=
  '(st, result) ← handle_inner h w r st;
  match result with
  | Ok _ => Some st
  | Err _ => Some (send st (no_records ServFail))
  end.

(** ** The background refresh of an entry *)

Fixpoint chain_blocked (cap checked : nat) (is_blocked : str → bool) (records : list LRecord) : option str :=
  match records with
  | [] => None
  | r :: records =>
    match lr_data r with
    | DCNAME cname =>
      let target := to_ascii_lowercase (ascii_domain cname) in
      if (cap <=? checked) || is_blocked target then Some target
      else chain_blocked cap (S checked) is_blocked records
    | _ => chain_blocked cap checked is_blocked records
    end
  end.

Definition cname_chain_blocked (records : list LRecord) (cname_max_depth : nat) (is_blocked : str → bool) : option str :=
  chain_blocked (cname_max_depth `min` MAX_HOPS) 0 is_blocked records.

(** The spawned task, when the upstream has answered it. *)
Definition prefetch_task (h : ForwardHandler) (w : World) (st : HState) (domain : str) (name : LName) (rt : RecordType) (class : DNSClass)
    (ecs : option EdnsClientSubnet) (prefix : option EcsPrefix) : HState :=
  match w_upstream w domain name rt ecs with
  | Ok resp =>
    if bool_decide (an_code resp = NoError) && negb (bool_decide (length (an_records resp) = 0)) then
      let records := map of_cached (an_records resp) in
      let has_blocked_cname := cname_chain_blocked records (fh_cname_max_depth h) (is_blocked (fh_filter h)) in
      let has_blocked_ip := ipf ← fh_ip_filter h; check_response_with_grant ipf (map as_address records) None in
      match has_blocked_cname, has_blocked_ip with
      | None, None =>
        let a := {| an_records := an_records resp; an_code := NoError; an_soa_minimum := None; an_generation := an_generation resp |} in
        with_cache st (insert_answer (fh_cache_config h) (hs_cache st) (w_later w) (domain, rt, class, prefix) a (w_generation w)).1
      | _, _ => st
      end
    else st
  | Err _ => st
  end.

End Handler.
