(* ===== verification/HandlerProofs.v ===== *)
(** * What the request handler lets through

    The events of a request, stage by stage, for the handler of [Handler]: what
    is sent, what goes upstream, what the cache keeps. *)

From S2P Require Import Prelude RustStr SortedSlice DnsTypes Domain Rules Evaluator Shard Decision Limits Admission Ast Compiler CompilerIndex CompilerStore Engine EngineProofs EngineVerdict ActivePolicy CustomList Profile Cname Windows Limiter TokenBucket Schedule Cidr Resolver ResolverProofs Rewrite LocalRecords ClientSubnet Cache Tunnelling Guards Security Handler.

(** ** The text of a name *)

Lemma join_last c ws : ws ≠ [] → Forall (fun w => w ≠ [] ∧ c ∉ w) ws → join c ws ≠ [] ∧ last (join c ws) ≠ Some c.
Proof.
  intros Hne H. induction H as [|w ws [Hw Hc] Hws IH]; [done|]. destruct ws as [|w' ws].
  - split; [done|]. intros Hl. apply Hc. by apply last_Some_elem_of in Hl.
  - destruct IH as [Hj Hl]; [done|]. rewrite join_cons by done. split; [by destruct w|]. rewrite last_app. destruct (join c (w' :: ws)) as [|b rest] eqn:Ej; [done|].
    rewrite last_cons_cons. destruct (last (b :: rest)) as [x|] eqn:El; [done|]. by apply last_None in El.
Qed.

Lemma pre_query_chars {FL : F64} rate_iter l ip domain rt t l' : check_pre_query rate_iter l ip domain rt t = (l', Ok ()) → validate_domain_chars domain = Ok ().
Proof.
  unfold check_pre_query, check_shape. destruct (layer_rate_check _ _ _ _) as [l1 []]; [|done]. destruct (validate_domain_chars domain) as [[]|e]; [done|]. by intros [= _ ?].
Qed.

(** The characters the security layer accepts need no escape. *)
Lemma chars_unescaped domain : validate_domain_chars domain = Ok () → BACKSLASH ∉ domain.
Proof.
  intros [_ H]%validate_domain_chars_Ok Hin. rewrite <- (join_split DOT domain) in Hin. rewrite Forall_forall in H.
  assert (∀ ls, BACKSLASH ∈ join DOT ls → ∃ l, l ∈ ls ∧ BACKSLASH ∈ l) as Hj.
  { intros ls. induction ls as [|l [|l' ls] IH]; intros Hb; [by apply elem_of_nil in Hb|exists l; split; [by left|done]|].
    rewrite join_cons in Hb by done. apply elem_of_app in Hb as [Hb|[Hb|Hb]%elem_of_cons]; [exists l; split; [by left|done]|done|].
    destruct (IH Hb) as (x & Hx & Hbx). exists x. split; [by right|done]. }
  apply Hj in Hin as (l & Hl & Hb). destruct (H l) as [Hp _]; [apply list_elem_of_filter; split; [by intros ->; apply elem_of_nil in Hb|done]|].
  rewrite Forall_forall in Hp. destruct (Hp _ Hb) as [Ha|[Ha|Ha]]; by vm_compute in Ha.
Qed.

Section Names.
Context {W : WireNames}.

(** A name in lower case, as [LowerName] holds it. *)
Definition lower_name (n : LName) : Prop := Forall (fun l => to_ascii_lowercase l = l) (wn_iter n).

(** Text without an escape is the labels with dots between. *)
Lemma ascii_domain_join n : wn_iter n ≠ [] → BACKSLASH ∉ ascii_domain n →
  ascii_domain n = join DOT (wn_iter n) ∧ Forall (Forall (fun b => name_byte b = true)) (wn_iter n).
Proof.
  intros Hne Hb. unfold ascii_domain in *. set (text := lname_to_ascii n) in *.
  assert (BACKSLASH ∉ text) as Hb'.
  { destruct (strip_suffix (lit ".") text) as [r|] eqn:E; [|done]. apply strip_suffix_Some in E as ->. cbn in Hb. intros [?|Hx]%elem_of_app; [done|].
    apply list_elem_of_singleton in Hx. by vm_compute in Hx. }
  destruct (wn_to_ascii n Hb') as (Hbytes & root & Hroot & Htext). split; [|done]. fold text in Htext.
  assert (last (join DOT (wn_iter n)) ≠ Some DOT) as Hlast.
  { apply join_last; [done|]. rewrite Forall_forall in Hbytes |- *. intros l Hl. split; [by eapply Forall_forall in Hl; [|apply wn_labels_nonempty]|].
    specialize (Hbytes l Hl). rewrite Forall_forall in Hbytes. intros Hd. specialize (Hbytes _ Hd). by vm_compute in Hbytes. }
  destruct Hroot as [-> | ->].
  - rewrite app_nil_r in Htext. destruct (strip_suffix (lit ".") text) as [r|] eqn:E; [|done]. apply strip_suffix_Some in E. change (lit ".") with [DOT] in E. rewrite <- Htext, E in Hlast. by rewrite last_snoc in Hlast.
  - rewrite Htext. change [DOT] with (lit "."). by rewrite strip_suffix_app.
Qed.

Lemma lower_join ls : Forall (fun l => to_ascii_lowercase l = l) ls → to_ascii_lowercase (join DOT ls) = join DOT ls.
Proof.
  induction 1 as [|l [|l' ls] Hl Hls IH]; [done|done|]. rewrite join_cons, to_ascii_lowercase_app, Hl by done. f_equal.
  change (to_ascii_lowercase (DOT :: join DOT (l' :: ls))) with (DOT :: to_ascii_lowercase (join DOT (l' :: ls))). by rewrite IH.
Qed.

(** An accepted name whose text needs no escape is its own normal form. *)
Lemma valid_name_normal n : valid_name n = true → lower_name n → BACKSLASH ∉ ascii_domain n → normal_name (ascii_domain n).
Proof.
  intros Hv Hlow Hb. unfold valid_name, validate_query in Hv. case_bool_decide as Hne; [done|]. cbn [orb] in Hv. destruct (ascii_domain_join n Hne Hb) as [-> Hbytes].
  rewrite validate_labels_zero in Hv. assert (real_labels (wn_iter n) = wn_iter n) as Hreal.
  { pose proof (wn_labels_nonempty n) as H. clear -H. unfold real_labels. induction H as [|l ls Hl _ IH]; [done|]. rewrite filter_cons_True by done. by rewrite IH. }
  rewrite Hreal in Hv. destruct (existsb too_long (wn_iter n)) eqn:Elong; [done|]. cbn [rbind] in Hv. destruct (Nat.ltb_spec MAX_NAME_LEN (length (join DOT (wn_iter n)))) as [|Hlen]; [done|].
  exists (wn_iter n). apply normalize_iter_spec. split; [done|]. split; [|split; [by rewrite lower_join|exact Hlen]].
  apply Forall_forall. intros l Hl. pose proof (wn_labels_nonempty n) as Hn. rewrite Forall_forall in Hn, Hbytes. split; [by apply Hn|]. split; [|by apply Hbytes].
  destruct (Nat.le_gt_cases (length l) MAX_LABEL_LEN) as [|Hgt]; [done|]. apply not_true_iff_false in Elong. destruct Elong. apply existsb_exists. exists l.
  split; [by apply list_elem_of_In|]. by apply Nat.ltb_lt.
Qed.

End Names.

Section Events.
Context {W : WireNames} {RC : RegexCrate} {RP : RegexPrograms} {HS : ShardHasher} {FL : F64}.
Context {MK : @Moka wire_payload}.
Context (rate_iter : gmap Limiter.IpAddr Z → list (Limiter.IpAddr * Z)).
Context (rrl_iter : gmap Z PrefixState → list (Z * PrefixState)).
Context (tunnel_iter : Trackers → list (IpAddr * str * SubdomainTracker)).
Context (name_hash : str → Z) (hash_pair : IpAddr → str → Z) (code_text : ResponseCode → str).

(** ** Appending events *)

Section Appends.
Context (P : Event → Prop).

Definition quiet (ev : Event) : Prop := match ev with EvSend _ | EvUpstream _ _ _ _ | EvPrefetch _ _ _ _ _ _ => False | _ => True end.

Context (P_quiet : ∀ ev, quiet ev → P ev).

Definition appends (st st' : HState) : Prop := ∃ evs, hs_events st' = hs_events st ++ evs ∧ Forall P evs.

Lemma appends_refl st st' : hs_events st' = hs_events st → appends st st'.
Proof. intros E. exists []. by rewrite app_nil_r. Qed.

Lemma appends_trans st1 st2 st3 : appends st1 st2 → appends st2 st3 → appends st1 st3.
Proof. intros (l & E & H) (l' & E' & H'). exists (l ++ l'). rewrite E', E, app_assoc. split; [done|]. by apply Forall_app. Qed.

Lemma appends_emit st0 st ev : appends st0 st → P ev → appends st0 (emit st ev).
Proof. intros H Hev. eapply appends_trans; [exact H|]. exists [ev]. split; [done|]. by constructor. Qed.

Lemma appends_record st0 h st d : appends st0 st → appends st0 (record_outcome h st d).
Proof. intros H. unfold record_outcome. destruct (fh_stats h); [|done]. apply appends_emit; [done|]. by apply P_quiet. Qed.

Lemma appends_with_cache st0 st c : appends st0 st → appends st0 (with_cache st c).
Proof. done. Qed.

Lemma appends_with_security st0 st c : appends st0 st → appends st0 (with_security st c).
Proof. done. Qed.

Lemma appends_with_warned st0 st c : appends st0 st → appends st0 (with_warned st c).
Proof. done. Qed.

(** A stage that ends. *)
Definition ends_with_events (st : HState) (res : option (HState * result DnsError ())) : Prop :=
  match res with Some (st', _) => appends st st' | None => True end.

Lemma appends_reply st0 st m : appends st0 st → P (EvSend m) → ends_with_events st0 (reply_with st m).
Proof. intros H Hm. unfold reply_with, send. cbn. by apply appends_emit. Qed.

Lemma ends_trans st0 st res : appends st0 st → ends_with_events st res → ends_with_events st0 res.
Proof. unfold ends_with_events. destruct res as [[st' r]|]; [|done]. apply appends_trans. Qed.

(** ** The stages after the policy *)

Context (P_empty : ∀ m, ms_answers m = [] → P (EvSend m)).

Lemma appends_cached w st0 st queries entry now target :
  appends st0 st → (∀ ad, P (EvSend (cached_message queries entry now ad target))) →
  appends st0 (send_cached_validated w st queries entry now target).
Proof.
  intros H Hm. unfold send_cached_validated, send. repeat case_match; apply appends_emit; try done. by apply P_empty.
Qed.

Lemma appends_dispatch h st0 st c b : appends st0 st → P (EvSend (block_reply c)) → appends st0 (dispatch_block h st c b).
Proof.
  intros H Hm. unfold dispatch_block, dispatch_cname_block, dispatch_ip_block, emit_cname_block_audit, send.
  destruct b; apply appends_emit, Hm; apply appends_record; [|done]. destruct (fh_audit_writer h); [|done]. apply appends_emit; [done|].
  by apply P_quiet.
Qed.

(** What the rest of a request needs to be true of its events. *)
Record settles (h : ForwardHandler) (w : World) (a : Allowed) : Prop := {
  se_served : ∀ entry now ad,
    ce_records entry = [] ∨ check_answer h w (al_profile a) (al_grant a) (al_domain a) (ak_rewrote_from (al_asked a)) entry = Some None →
    P (EvSend (cached_message (al_queries a) entry now ad (al_target a)));
  se_blocked : P (EvSend (block_reply (al_ctx a)));
  se_hinfo : P (EvSend (hinfo_message (al_name a) (fh_blocked_ttl h)));
  se_upstream : ∀ name ty, P (EvUpstream (al_domain a) name ty (al_ecs a));
  se_prefetch : ∀ name ty class prefix, P (EvPrefetch (al_domain a) name ty class (al_ecs a) prefix);
}.

Section Settled.
Context (h : ForwardHandler) (w : World) (a : Allowed) (S : settles h w a).

Lemma guarded_events st0 st entry serve :
  appends st0 st →
  (check_answer h w (al_profile a) (al_grant a) (al_domain a) (ak_rewrote_from (al_asked a)) entry = Some None → ends_with_events st0 (serve st)) →
  ends_with_events st0 (guarded h w a st entry serve).
Proof.
  intros H Hs. unfold guarded. destruct (check_answer _ _ _ _ _ _ _) as [[b|]|] eqn:E; cbn [mbind option_bind]; [|by apply Hs|done].
  cbn. apply appends_dispatch; [done|]. apply S.
Qed.

Lemma after_fetch_events st0 st fetched : appends st0 st → ends_with_events st0 (after_fetch code_text h w a st fetched).
Proof.
  intros H. unfold after_fetch. destruct fetched as [entry|[stale error]]; cbn [ff_error ff_stale].
  - destruct (ce_records entry) eqn:E.
    + cbn. apply appends_cached; [done|]. intros ad. apply S. by left.
    + apply guarded_events; [done|]. intros Hc. cbn. apply appends_cached; [done|]. intros ad. apply S. by right.
  - assert (ends_with_events st0 match stale with
              | Some entry => guarded h w a st entry (serve_stale h w a entry)
              | None => Some (st, Err (UpstreamRequestFailed (dns_error_text code_text error)))
              end) as Hs.
    { destruct stale as [entry|]; [|done]. apply guarded_events; [done|]. intros Hc. cbn.
      apply appends_cached; [by apply appends_record|]. intros ad. apply S. by right. }
    destruct error; try exact Hs. cbn. apply appends_emit; [done|]. by apply P_empty.
Qed.

Lemma forward_events st0 st stale : appends st0 st → ends_with_events st0 (forward code_text h w a st stale).
Proof.
  intros H. unfold forward. destruct (fetch_with_keyed_state _ _ _ _ _ _ _) as [[cache fetched] made].
  apply after_fetch_events, appends_record, appends_with_cache. case_match; [done|]. apply appends_emit; [done|]. apply S.
Qed.

Lemma answer_allowed_events st0 st : appends st0 st → ends_with_events st0 (answer_allowed tunnel_iter name_hash code_text h w a st).
Proof.
  intros H. unfold answer_allowed. assert (∀ found, ends_with_events st0
    (if bool_decide (ak_type (al_asked a) = RtANY) then
       reply_with (record_outcome h st (decision (al_asked a) OutHinfo false)) (hinfo_message (al_name a) (fh_blocked_ttl h))
     else match found with
          | Stale entry => forward code_text h w a st (Some entry)
          | _ =>
            let '(st, over) := if tunneling_rate_gate_applies (ak_type (al_asked a)) (al_domain a) then rate_gate tunnel_iter name_hash w a st else (st, false) in
            if over then reply_with (record_outcome h st (decision (al_asked a) OutRefused true)) (no_records DnsTypes.Refused)
            else forward code_text h w a st None
          end)) as Hrest.
  { intros found. case_bool_decide; [apply appends_reply; [by apply appends_record|apply S]|].
    assert (∀ b : bool, let '(st', over) := if b then rate_gate tunnel_iter name_hash w a st else (st, false) in appends st0 st') as Hgate.
    { intros []; [|done]. unfold rate_gate. destruct (hs_security st); [|done]. by destruct (check_tunneling_rate _ _ _ _ _ _). }
    specialize (Hgate (tunneling_rate_gate_applies (ak_type (al_asked a)) (al_domain a))).
    destruct (if tunneling_rate_gate_applies _ _ then _ else _) as [st' over].
    destruct found; [|by apply forward_events|]; (destruct over; [|by apply forward_events]);
      (apply appends_reply; [by apply appends_record|by apply P_empty]). }
  destruct (lookup_keyed _ _ _) as [entry|entry|]; [|apply (Hrest (Stale entry))|apply (Hrest Miss)].
  apply guarded_events; [done|]. intros Hc. cbn. apply appends_cached; [|intros ad; apply S; by right].
  destruct (_ && _); [|by apply appends_record]. apply appends_emit; [by apply appends_record|]. apply S.
Qed.
End Settled.
End Appends.

(** ** The whole request *)

Section DnsRequest.
Context (h : ForwardHandler) (w : World) (r : DnsRequest) (st0 : HState).

(** The client of the request, as the resolver sees it. *)
Definition client_resolution : option Resolution :=
  match fh_profiles h with
  | Some (rm, arp) => Some (resolve_client hash_pair rm arp (hs_warned st0) (w_resolver_secs w) (rq_src r)).2
  | None => None
  end.

Definition client_profile : option ResolvedProfile := client_resolution ≫= res_profile.

(** The policy of the profile lets a name through, under the name it has after
    the rewrite. *)
Record let_through (p : ResolvedProfile) (d d' : str) (original : option str) (g : option RequestGrant) : Prop := {
  cl_policy : ∃ dec, evaluate_active_operator_policy (fh_filter h) d p (w_profile_addr w) = Some dec ∧ ap_blocked dec = false ∧ ap_grant dec = g;
  cl_rewrite : match rewrite_apply (px_rewrite_rules (fh_extras h p)) d with
               | None => d' = d ∧ original = None
               | Some target => d' = target ∧ original = Some d
                   ∧ evaluate_synthetic_cname_hop target (fh_filter h) p (w_profile_addr w) g = Some CAllow
               end;
}.

(** What an event may be. *)
Definition own_words (q : Question) (m : Message) : Prop :=
  ms_answers m = []
  ∨ (∃ la, local_answer h client_profile (qn_name q) (ascii_domain (qn_name q)) (qn_type q) = Some la ∧ m = la_message la)
  ∨ (∃ ttl response, m = block_response_message (qn_name q) (qn_type q) ttl response)
  ∨ (∃ ttl, m = hinfo_message (qn_name q) ttl).

(** The checks a query has passed when it is resolved. *)
Definition vetted (q : Question) : Prop :=
  valid_name (qn_name q) = true ∧ (hs_security st0 ≠ None → validate_domain_chars (ascii_domain (qn_name q)) = Ok ()).

Definition passed_on (q : Question) (m : Message) : Prop :=
  vetted q ∧ ∃ p d' original g entry now ad, client_profile = Some p ∧ let_through p (ascii_domain (qn_name q)) d' original g
    ∧ (ce_records entry = [] ∨ check_answer h w p g d' original entry = Some None)
    ∧ m = cached_message (rq_queries r) entry now ad (match original with Some _ => Some (fwd_name_for d' true (qn_name q)) | None => None end).

Definition sent_upstream (q : Question) (d' : str) (ecs : option EdnsClientSubnet) : Prop :=
  ∃ p original g, client_profile = Some p ∧ let_through p (ascii_domain (qn_name q)) d' original g
    ∧ ecs = build_option (px_ecs_policy (fh_extras h p)) (rq_src r).

Definition event_ok (ev : Event) : Prop :=
  match ev with
  | EvSend m => ms_answers m = [] ∨ ∃ q, head (rq_queries r) = Some q ∧ (own_words q m ∨ passed_on q m)
  | EvUpstream d' _ _ ecs | EvPrefetch d' _ _ _ ecs _ => ∃ q, head (rq_queries r) = Some q ∧ sent_upstream q d' ecs
  | _ => True
  end.

Lemma event_ok_quiet ev : quiet ev → event_ok ev.
Proof. by destruct ev. Qed.

Lemma event_ok_empty m : ms_answers m = [] → event_ok (EvSend m).
Proof. by left. Qed.

Lemma own_words_ok q m : head (rq_queries r) = Some q → own_words q m → event_ok (EvSend m).
Proof. intros Hq Hm. right. exists q. split; [done|by left]. Qed.

(** What the later stages carry is about the request. *)
Record about (q : Question) (p : ResolvedProfile) (a : Allowed) : Prop := {
  ab_question : head (rq_queries r) = Some q;
  ab_vetted : vetted q;
  ab_client : client_profile = Some p;
  ab_profile : al_profile a = p;
  ab_queries : al_queries a = rq_queries r;
  ab_name : al_name a = qn_name q;
  ab_qname : bc_qname (al_ctx a) = qn_name q;
  ab_type : ak_type (bc_asked (al_ctx a)) = qn_type q;
  ab_ecs : al_ecs a = build_option (px_ecs_policy (fh_extras h p)) (rq_src r);
}.

Lemma block_reply_ok q p a : about q p a → event_ok (EvSend (block_reply (al_ctx a))).
Proof.
  intros [Hq _ _ _ _ _ Hn Ht _]. apply (own_words_ok q); [done|]. right; right; left. unfold block_reply. rewrite Hn, Ht. by eexists _, _.
Qed.

(** A let_through request settles. *)
Lemma cleared_settles q p a :
  about q p a → let_through p (ascii_domain (qn_name q)) (al_domain a) (ak_rewrote_from (al_asked a)) (al_grant a) → settles event_ok h w a.
Proof.
  intros Ha Hc. pose proof (block_reply_ok q p a Ha) as Hb. destruct Ha as [Hq Hv Hp Hap Haq Han _ _ Hecs]. split; [|done|..].
  - intros entry now ad He. right. exists q. split; [done|]. right. split; [done|]. exists p, (al_domain a), (ak_rewrote_from (al_asked a)), (al_grant a), entry, now, ad.
    split_and!; [done|done|by rewrite Hap in He|]. rewrite Haq. unfold al_target, al_rewrote. rewrite Han. by destruct (ak_rewrote_from (al_asked a)).
  - apply (own_words_ok q); [done|]. right; right; right. rewrite Han. by eexists.
  - intros name ty. exists q. split; [done|]. exists p, (ak_rewrote_from (al_asked a)), (al_grant a). by rewrite Hecs.
  - intros name ty class prefix. exists q. split; [done|]. exists p, (ak_rewrote_from (al_asked a)), (al_grant a). by rewrite Hecs.
Qed.

Lemma answer_rewritten_events q p a dec st :
  about q p a → al_domain a = ascii_domain (qn_name q) → ak_rewrote_from (al_asked a) = None →
  evaluate_active_operator_policy (fh_filter h) (ascii_domain (qn_name q)) p (w_profile_addr w) = Some dec → ap_blocked dec = false → ap_grant dec = al_grant a →
  appends event_ok st0 st →
  ends_with_events event_ok st0 (answer_rewritten tunnel_iter name_hash code_text h w a st).
Proof.
  intros Ha Hd Hor Hdec Hnb Hg H. unfold answer_rewritten. rewrite (ab_profile _ _ _ Ha), Hd.
  assert (∃ dec, evaluate_active_operator_policy (fh_filter h) (ascii_domain (qn_name q)) p (w_profile_addr w) = Some dec
            ∧ ap_blocked dec = false ∧ ap_grant dec = al_grant a) as Hpol by (by exists dec).
  destruct (rewrite_apply _ _) as [target|] eqn:Erw.
  - assert (about q p (with_asked a (rewritten (al_asked a) target))) as Ha' by (destruct Ha; by split).
    cbn [al_profile with_asked al_grant]. rewrite (ab_profile _ _ _ Ha).
    destruct (evaluate_synthetic_cname_hop _ _ _ _ _) as [[|offending source]|] eqn:Ehop; cbn [mbind option_bind]; [| |done].
    + apply answer_allowed_events; [apply event_ok_quiet|apply event_ok_empty| |done].
      apply (cleared_settles q p); [done|]. split; [done|]. rewrite Erw. split_and!; [done| |done]. cbn. by f_equal.
    + apply (appends_dispatch event_ok event_ok_quiet h st0 st _ (ViaCname offending source)); [done|]. by apply (block_reply_ok q p).
  - apply answer_allowed_events; [apply event_ok_quiet|apply event_ok_empty| |done].
    apply (cleared_settles q p); [done|]. split; [done|]. by rewrite Erw, Hd, Hor.
Qed.

Lemma answer_filtered_events q qs asked st :
  vetted q → rq_queries r = q :: qs → ak_client_ip asked = rq_src r → ak_domain asked = ascii_domain (qn_name q) → ak_type asked = qn_type q →
  ak_rewrote_from asked = None → appends event_ok st0 st →
  ends_with_events event_ok st0 (answer_filtered tunnel_iter name_hash code_text h w (rq_queries r) q asked client_resolution
    (client_profile ≫= fun p => build_option (px_ecs_policy (fh_extras h p)) (ak_client_ip asked)) st).
Proof.
  intros Hvet Hq Hip Hd Ht Hor H. unfold answer_filtered. destruct client_resolution as [res|] eqn:Er.
  2:{ apply appends_reply; [by apply appends_record, H; apply event_ok_quiet|by apply event_ok_empty]. }
  assert (client_profile = res_profile res) as Hcp by (unfold client_profile; by rewrite Er). rewrite Hcp.
  destruct (res_profile res) as [p|].
  2:{ apply appends_reply; [by apply appends_record, H; apply event_ok_quiet|by apply event_ok_empty]. }
  cbn [mbind option_bind]. rewrite Hip, Hd. destruct (evaluate_active_operator_policy _ _ _ _) as [dec|] eqn:Ed; cbn [mbind option_bind]; [|done].
  destruct (ap_blocked dec) eqn:Eb.
  - apply appends_reply; [by apply appends_record, H; apply event_ok_quiet|]. apply (own_words_ok q); [by rewrite Hq|].
    right; right; left. by eexists _, _.
  - apply (answer_rewritten_events q p _ dec); [|done|done|done|done|done|done]. split; try done; by rewrite Hq.
Qed.

(** Every event of a request is accounted for. *)
Lemma handle_request_events st' :
  handle_request rate_iter rrl_iter tunnel_iter name_hash hash_pair code_text h w r st0 = Some st' → appends event_ok st0 st'.
Proof.
  assert (ends_with_events event_ok st0 (handle_inner rate_iter rrl_iter tunnel_iter name_hash hash_pair code_text h w r st0)) as Hin.
  2:{ unfold handle_request. destruct (handle_inner _ _ _ _ _ _ _ _ _ _) as [[st [u|e]]|]; cbn in *; [by intros [= <-]| |done].
      intros [= <-]. apply appends_emit; [done|]. by left. }
  pose proof event_ok_empty as Hempty. pose proof event_ok_quiet as Hquiet. pose proof (appends_refl event_ok st0 st0 eq_refl) as H0.
  unfold handle_inner. destruct (negb (source_allowed _ _)).
  { apply appends_reply; [|by left]. destruct (fh_stats h); [|done]. by apply appends_emit. }
  destruct (negb (fh_filter_ready h)); [by apply appends_reply; [|left]|]. destruct (rq_queries r) as [|q qs] eqn:Eq; [by apply appends_reply; [|left]|].
  destruct (valid_name (qn_name q)) eqn:Evalid; cbn [negb]; [|by apply appends_reply; [|left]].
  set (asked := {| ak_client_ip := rq_src r |}). unfold security_gate.
  assert (∀ st, vetted q → appends event_ok st0 st → hs_warned st = hs_warned st0 →
    ends_with_events event_ok st0 (answer_resolved tunnel_iter name_hash hash_pair code_text h w (rq_queries r) q asked st)) as Hres.
  { intros st Hvet Hst Hw. unfold answer_resolved. rewrite Hw. change (ak_client_ip asked) with (rq_src r).
    assert (∃ st1, (match fh_profiles h with
      | Some (rm, arp) => let '(slots, res) := resolve_client hash_pair rm arp (hs_warned st0) (w_resolver_secs w) (rq_src r) in (with_warned st slots, Some res)
      | None => (st, None) end) = (st1, client_resolution) ∧ appends event_ok st0 st1) as (st1 & -> & Hst1).
    { unfold client_resolution. destruct (fh_profiles h) as [[rm arp]|]; [|by exists st]. destruct (resolve_client _ _ _ _ _ _) as [slots res].
      exists (with_warned st slots). by split. }
    fold client_profile. destruct (local_answer _ _ _ _ _) as [la|] eqn:El.
    - unfold answer_locally. apply appends_reply.
      + apply appends_record; [done|]. destruct (la_hit la) as [[scope apex]|]; [|done]. destruct (fh_local_records_hits h); [|done]. by apply appends_emit.
      + apply (own_words_ok q); [by rewrite Eq|]. right; left. by exists la.
    - by apply (answer_filtered_events q qs). }
  rewrite Eq in Hres. destruct (hs_security st0) as [sec|] eqn:Esec; [|by apply Hres; [split; [done|rewrite Esec]|..]].
  destruct (check_pre_query _ _ _ _ _ _) as [sec1 verdict] eqn:Ecp. destruct verdict as [u|e]; [|by apply appends_reply; [apply appends_record|left]].
  assert (vetted q) as Hvet by (split; [done|intros _; destruct u; by eapply pre_query_chars]).
  destruct (check_response _ _ _ _ _) as [sec2 []]; [by apply Hres|by apply appends_record|by apply appends_reply; [apply appends_record|left]].
Qed.
End DnsRequest.
End Events.

(** ** Every query gets one answer *)

Section Answered.
Context {W : WireNames} {RC : RegexCrate} {RP : RegexPrograms} {HS : ShardHasher} {FL : F64}.
Context {MK : @Moka wire_payload}.
Context (rate_iter : gmap Limiter.IpAddr Z → list (Limiter.IpAddr * Z)).
Context (rrl_iter : gmap Z PrefixState → list (Z * PrefixState)).
Context (tunnel_iter : Trackers → list (IpAddr * str * SubdomainTracker)).
Context (name_hash : str → Z) (hash_pair : IpAddr → str → Z) (code_text : ResponseCode → str).
Context (h : ForwardHandler) (w : World).

Definition messages (evs : list Event) : list Message := omap (fun ev => match ev with EvSend m => Some m | _ => None end) evs.

Definition grows (n : nat) (st st' : HState) : Prop := ∃ evs, hs_events st' = hs_events st ++ evs ∧ length (messages evs) = n.

Lemma grows_refl st : grows 0 st st.
Proof. exists []. by rewrite app_nil_r. Qed.

Lemma grows_emit n st0 st ev : grows n st0 st → (∀ m, ev ≠ EvSend m) → grows n st0 (emit st ev).
Proof.
  intros (evs & E & Hn) Hev. exists (evs ++ [ev]). split; [cbn; by rewrite E, app_assoc|]. unfold messages in *. rewrite omap_app, length_app, Hn.
  destruct ev; cbn; try lia. by destruct (Hev m).
Qed.

Lemma grows_send n st0 st m : grows n st0 st → grows (S n) st0 (send st m).
Proof.
  intros (evs & E & Hn). exists (evs ++ [EvSend m]). split; [cbn; by rewrite E, app_assoc|]. unfold messages in *. rewrite omap_app, length_app, Hn. cbn. lia.
Qed.

Lemma grows_record n st0 st d : grows n st0 st → grows n st0 (record_outcome h st d).
Proof. intros H. unfold record_outcome. destruct (fh_stats h); [|done]. by apply grows_emit. Qed.

(** A stage that answers, or leaves the answer to the caller. *)
Definition answered (st : HState) (res : option (HState * result DnsError ())) : Prop :=
  match res with Some (st', Ok _) => grows 1 st st' | Some (st', Err _) => grows 0 st st' | None => False end.

Lemma answered_reply st0 st m : grows 0 st0 st → answered st0 (reply_with st m).
Proof. apply grows_send. Qed.

Lemma grows_cached st0 st queries entry t target : grows 0 st0 st → grows 1 st0 (send_cached_validated w st queries entry t target).
Proof. intros H. unfold send_cached_validated. repeat case_match; by apply grows_send. Qed.

Lemma grows_dispatch st0 st ctx b : grows 0 st0 st → grows 1 st0 (dispatch_block h st ctx b).
Proof.
  intros H. unfold dispatch_block, dispatch_cname_block, dispatch_ip_block, emit_cname_block_audit. destruct b; apply grows_send, grows_record; [|done].
  destruct (fh_audit_writer h); [|done]. by apply grows_emit.
Qed.

(** The profile decides every name, and no answer of it panics. *)
Record decides (p : ResolvedProfile) : Prop := {
  de_policy : ∀ d, is_Some (evaluate_active_operator_policy (fh_filter h) d p (w_profile_addr w));
  de_hops : ∀ g, hop_decides (fun t => evaluate_synthetic_cname_hop t (fh_filter h) p (w_profile_addr w) g);
  de_bound : ∀ b, rp_operator_rules p = Some b → is_Some (binding_profile b);
}.

Context (Hsend : ∀ m, w_send_error w m = None).

Section Allowed.
Context (a : Allowed) (Ha : decides (al_profile a)).

Lemma guarded_answered st0 st entry serve : grows 0 st0 st → answered st0 (serve st) → answered st0 (guarded h w a st entry serve).
Proof.
  intros H Hs. unfold guarded, check_answer.
  destruct (walk_total (map as_dns_record (map of_cached (ce_records entry))) (al_domain a) (ak_rewrote_from (al_asked a)) (fh_filter h)
    (al_profile a) (w_profile_addr w) (al_grant a) (fh_cname_max_depth h) (de_hops _ Ha _)) as [v ->]. cbn [mbind option_bind].
  destruct v as [|offending source]; cbn [mbind option_bind]; [|by apply (grows_dispatch _ _ _ (ViaCname offending source))].
  destruct (fh_ip_filter h) as [ipf|]; [|done]. pose proof (de_bound _ Ha) as Hb. destruct (rp_operator_rules (al_profile a)) as [b|].
  - destruct (Hb b eq_refl) as [compiled ->]. cbn [mbind option_bind]. case_match; [|done]. by apply grows_dispatch.
  - cbn [mbind option_bind]. case_match; [|done]. by apply grows_dispatch.
Qed.

Lemma forward_answered st0 st stale : grows 0 st0 st → answered st0 (forward code_text h w a st stale).
Proof.
  intros H. unfold forward. destruct (fetch_with_keyed_state _ _ _ _ _ _ _) as [[cache fetched] made].
  set (st1 := match mk_get _ _ _ with Some _ => st | None => _ end).
  assert (grows 0 st0 (record_outcome h (with_cache st1 cache) (decision (al_asked a) OutAllowed false))) as H1.
  { apply grows_record. change (grows 0 st0 st1). unfold st1. case_match; [done|]. by apply grows_emit. }
  unfold after_fetch. destruct fetched as [entry|[prior error]]; cbn [ff_error ff_stale].
  - destruct (ce_records entry); [by apply grows_cached|]. apply guarded_answered; [done|]. by apply grows_cached.
  - assert (answered st0 match prior with
              | Some entry => guarded h w a (record_outcome h (with_cache st1 cache) (decision (al_asked a) OutAllowed false)) entry (serve_stale h w a entry)
              | None => Some (record_outcome h (with_cache st1 cache) (decision (al_asked a) OutAllowed false), Err (UpstreamRequestFailed (dns_error_text code_text error)))
              end) as Hs.
    { destruct prior as [entry|]; [|done]. apply guarded_answered; [done|]. by apply grows_cached, grows_record. }
    destruct error; try exact Hs. cbn. rewrite Hsend. by apply grows_send.
Qed.

Lemma answer_allowed_answered st0 st : grows 0 st0 st → answered st0 (answer_allowed tunnel_iter name_hash code_text h w a st).
Proof.
  intros H. unfold answer_allowed. destruct (lookup_keyed _ _ _) as [entry|entry|].
  - apply guarded_answered; [done|]. unfold serve_fresh. cbn. apply grows_cached. destruct (_ && _); [apply grows_emit|]; try done; by apply grows_record.
  - case_bool_decide; [by apply answered_reply, grows_record|by apply forward_answered].
  - case_bool_decide; [by apply answered_reply, grows_record|]. destruct (tunneling_rate_gate_applies _ _); [|by apply forward_answered].
    unfold rate_gate. destruct (hs_security st) as [sec|]; [|by apply forward_answered]. destruct (check_tunneling_rate _ _ _ _ _ _) as [sec' []].
    + by apply answered_reply, grows_record.
    + by apply forward_answered.
Qed.
End Allowed.

Lemma answer_filtered_answered queries q asked resolution ecs st0 st :
  (∀ res p, resolution = Some res → res_profile res = Some p → decides p) →
  grows 0 st0 st → answered st0 (answer_filtered tunnel_iter name_hash code_text h w queries q asked resolution ecs st).
Proof.
  intros Hp H. unfold answer_filtered. destruct resolution as [res|]; [|by apply answered_reply, grows_record].
  destruct (res_profile res) as [p|] eqn:Er; [|by apply answered_reply, grows_record]. pose proof (Hp res p eq_refl Er) as Hd.
  destruct (de_policy p Hd (ak_domain asked)) as [dec ->]. cbn [mbind option_bind]. destruct (ap_blocked dec); [by apply answered_reply, grows_record|].
  unfold answer_rewritten. cbn [al_profile]. destruct (rewrite_apply _ _) as [target|]; [|by apply answer_allowed_answered].
  cbn [al_profile with_asked al_grant]. destruct (de_hops p Hd (ap_grant dec) target) as [->|(o & src & -> & _)]; cbn [mbind option_bind].
  - by apply answer_allowed_answered.
  - by apply (grows_dispatch _ _ _ (ViaCname o src)).
Qed.

(** The security gate drops the query without an answer. *)
Definition dropped (r : DnsRequest) (st : HState) : Prop :=
  ∃ q asked, head (rq_queries r) = Some q ∧ ak_client_ip asked = rq_src r ∧ ak_domain asked = ascii_domain (qn_name q) ∧ ak_type asked = qn_type q
    ∧ (security_gate rate_iter rrl_iter h w asked st).2 = Some None.

Lemma request_answered r st :
  (∀ p, client_profile hash_pair h w r st = Some p → decides p) →
  ∃ st', handle_request rate_iter rrl_iter tunnel_iter name_hash hash_pair code_text h w r st = Some st' ∧ (grows 1 st st' ∨ grows 0 st st' ∧ dropped r st).
Proof.
  intros Hp.
  assert (let res := handle_inner rate_iter rrl_iter tunnel_iter name_hash hash_pair code_text h w r st in
          answered st res ∨ (∃ st', res = Some (st', Ok ()) ∧ grows 0 st st' ∧ dropped r st)) as Hin.
  2:{ unfold handle_request. destruct Hin as [Hin|(st' & -> & H0 & Hd)]; [|by exists st'; split; [|right]].
      destruct (handle_inner _ _ _ _ _ _ _ _ _ _) as [[st' [u|e]]|]; [..|done]; (eexists; split; [done|left]); [done|by apply grows_send]. }
  pose proof (grows_refl st) as H0. unfold handle_inner. destruct (negb (source_allowed _ _)).
  { left. apply answered_reply. destruct (fh_stats h); [|done]. by apply grows_emit. }
  destruct (negb (fh_filter_ready h)); [left; by apply answered_reply|]. destruct (rq_queries r) as [|q qs] eqn:Eq; [left; by apply answered_reply|].
  destruct (negb (valid_name _)); [left; by apply answered_reply|]. set (asked := {| ak_client_ip := rq_src r |}).
  assert (∀ st1, grows 0 st st1 → hs_warned st1 = hs_warned st →
    answered st (answer_resolved tunnel_iter name_hash hash_pair code_text h w (q :: qs) q asked st1)) as Hres.
  { intros st1 Hst Hw. unfold answer_resolved. rewrite Hw. change (ak_client_ip asked) with (rq_src r).
    unfold client_profile, client_resolution in Hp. destruct (fh_profiles h) as [[rm arp]|].
    - destruct (resolve_client _ _ _ _ _ _) as [slots res]. cbn [snd mbind option_bind] in *. destruct (local_answer _ _ _ _ _) as [la|].
      + apply answered_reply, grows_record. destruct (la_hit la) as [[scope apex]|]; [|done]. destruct (fh_local_records_hits h); [|done]. by apply grows_emit.
      + apply answer_filtered_answered; [|done]. intros res' p [= <-]. apply Hp.
    - destruct (local_answer _ _ _ _ _) as [la|].
      + apply answered_reply, grows_record. destruct (la_hit la) as [[scope apex]|]; [|done]. destruct (fh_local_records_hits h); [|done]. by apply grows_emit.
      + by apply answer_filtered_answered. }
  destruct (security_gate rate_iter rrl_iter h w asked st) as [st1 stopped] eqn:Eg.
  assert (grows 0 st st1 ∧ hs_warned st1 = hs_warned st) as [Hg Hw].
  { unfold security_gate in Eg. destruct (hs_security st); [|by injection Eg as <- _]. destruct (check_pre_query _ _ _ _ _ _) as [sec1 [u|e]].
    - destruct (check_response _ _ _ _ _) as [sec2 []]; injection Eg as <- _; split; try done; try (by apply grows_record);
        unfold record_outcome; by destruct (fh_stats h).
    - injection Eg as <- _. split; [by apply grows_record|]. unfold record_outcome. by destruct (fh_stats h). }
  destruct stopped as [[m|]|]; [left; by apply answered_reply| |left; by apply Hres].
  right. exists st1. split_and!; [done|done|]. exists q, asked. rewrite Eq, Eg. by split_and!.
Qed.
End Answered.

(** ** The response code a client sees *)

Section Codes.
Context {W : WireNames} {RC : RegexCrate} {RP : RegexPrograms} {HS : ShardHasher} {FL : F64}.
Context {MK : @Moka wire_payload}.
Context (code_text : ResponseCode → str).

Lemma cached_code w st queries e now target : (∀ n r, w_dnssec w n r = None) →
  ∃ m, hs_events (send_cached_validated w st queries e now target) = hs_events st ++ [EvSend m]
    ∧ ms_code m = (if is_negative e then ce_response_code e else NoError) ∧ (ce_records e = [] → ms_answers m = []).
Proof.
  intros Hd. unfold send_cached_validated. rewrite Hd. eexists. split_and!; [done|done|]. intros E. cbn. unfold records_with_remaining_ttl. rewrite E. cbn.
  by destruct target.
Qed.

(** C33: the code an upstream's empty answer reaches the client with.  When no
    DNSSEC validator answers for the name, the transport takes the message and the
    cache holds nothing, SERVFAIL and REFUSED pass through unchanged and are not
    stored, NXDOMAIN passes through, and every other code, FORMERR, NOTIMP and
    the like, is turned into NOERROR: the client sees an empty success. *)
Theorem upstream_code_table h w a st resp :
  (∀ n r, w_dnssec w n r = None) → (∀ m, w_send_error w m = None) →
  mk_get (hs_cache st) (w_later w) (cache_key a) = None →
  w_upstream w (al_domain a) (fwd_name_for (al_domain a) (al_rewrote a) (al_name a)) (ak_type (al_asked a)) (al_ecs a) = Ok resp → an_records resp = [] →
  ∃ st' m, forward code_text h w a st None = Some (st', Ok ()) ∧ last (hs_events st') = Some (EvSend m) ∧ ms_answers m = []
    ∧ ms_code m = match an_code resp with
                  | ServFail => ServFail | DnsTypes.Refused => DnsTypes.Refused | NXDomain => NXDomain
                  | _ => NoError
                  end
    ∧ (an_code resp = ServFail ∨ an_code resp = DnsTypes.Refused → hs_cache st' = hs_cache st).
Proof.
  intros Hd Hs Hm Hup Hr. unfold forward, fetch_with_keyed_state. rewrite Hm. unfold fetch_upstream. rewrite Hup.
  destruct (uncacheable (an_code resp)) eqn:Eu.
  - unfold after_fetch. cbn [ff_error]. rewrite Hs. eexists _, _. split_and!; [done|apply last_snoc|done| |].
    + cbn. by destruct (an_code resp).
    + intros _. cbn. unfold record_outcome. by destruct (fh_stats h).
  - rewrite Eu. unfold after_fetch. cbn [ce_records make_entry]. rewrite Hr. cbn beta iota.
    set (st1 := record_outcome h _ _).
    destruct (cached_code w st1 (al_queries a) (make_entry (fh_cache_config h) resp (w_later w)) (w_later w) (al_target a) Hd) as (m & He & Hc & Hn).
    eexists _, m. split_and!; [done|by rewrite He, last_snoc|by apply Hn| |].
    + rewrite Hc. unfold is_negative. cbn [ce_response_code ce_records make_entry]. rewrite Hr. by destruct (an_code resp).
    + by intros [E|E]; rewrite E in Eu.
Qed.
End Codes.

(** ** From the configuration *)

Section Configured.
Context {W : WireNames} {SH : Sha2Crate} {RC : RegexCrate} {RP : RegexPrograms} {HS : ShardHasher} {FL : F64}.
Context {MK : @Moka wire_payload}.

(** A profile bound to the snapshot, with a binding. *)
Definition bound_to (c : CompiledOperatorRules) (p : ResolvedProfile) : Prop :=
  ∃ p0, bind_operator_rules p0 c = Some p ∧ rp_operator_rules p ≠ None.

Lemma resolved_bound cfg c id p : resolve_profiles cfg (Some c) !! id = Some p → bound_to c p.
Proof.
  unfold resolve_profiles. assert (∀ l m, (∀ id p, m !! id = Some p → bound_to c p) →
    ∀ id p, foldl (add_profile cfg (Some c)) m l !! id = Some p → bound_to c p) as H.
  { induction l as [|[k pc] l IH]; intros m Hm; [done|]. cbn [foldl]. apply IH. intros id' p' Hp. unfold add_profile in Hp. cbn [fst snd] in Hp.
    destruct (Id_new k) as [k'|]; [|by apply (Hm id')]. destruct (bind_operator_rules _ _) as [b|] eqn:Eb; [|by apply (Hm id')].
    destruct (rp_operator_rules b) eqn:Er; [|by apply (Hm id')]. destruct (decide (k' = id')) as [->|Hne].
    - rewrite lookup_insert_eq in Hp. injection Hp as <-. eexists. split; [exact Eb|]. by rewrite Er.
    - rewrite lookup_insert_ne in Hp by done. by apply (Hm id'). }
  apply (H _ ∅). intros ? ? E. by rewrite lookup_empty in E.
Qed.

Lemma chain_bound cfg c now ip d level p r :
  chain cfg (resolve_profiles cfg (Some c)) now ip d level (Some p) r → bound_to c p.
Proof.
  set (profiles := resolve_profiles cfg (Some c)).
  assert (∀ dev id s, first_active now (schedules_for cfg profiles dev id) = Some s → bound_to c (scm_profile s)) as Hf.
  { intros dev id s E. apply first_active_spec in E as (_ & row & _ & _ & _ & E). unfold schedule_match in E.
    apply bind_Some in E as (q & Hq%resolved_bound & E). apply bind_Some in E as (parsed & _ & E). by injection E as <-. }
  inversion 1 as [dev s ? ? Hforce|dev q ? ? ? Hd|dev g q ? ? ? ? ? ? Hg|m ? ? Hc|id q ? ? ? ? Hd|]; subst.
  - destruct Hforce as [Hx|(_ & m & _ & Hx & _)]; by eapply Hf.
  - unfold direct in Hd. apply bind_Some in Hd as (pid & _ & Hp). by eapply resolved_bound.
  - by eapply resolved_bound.
  - destruct Hc as [(sn & q & text & _ & Hq & _ & Hm) _]. apply resolved_bound in Hq. unfold subnet_match in Hm.
    destruct (cidr_parse text); [|done]. by injection Hm as <-.
  - by eapply resolved_bound.
Qed.

Lemma bound_mount packs mounts l c p :
  compiled packs mounts l c → bound_to c p → ∃ m, m ∈ mounts ∧ mt_profile_id m = rp_name p.
Proof.
  intros Hc (p0 & Hb & Hr). apply bind_inv in Hb as ->. cbn [rp_operator_rules bound rp_name] in *.
  destruct (decide (rp_name p0 ∈ map mt_profile_id mounts)) as [Hin|Hn].
  - apply list_elem_of_fmap in Hin as (m & Hm & Hin). by exists m.
  - destruct Hr. unfold binding_new. by rewrite (compiled_absent _ _ _ _ _ Hc).
Qed.

(** The variant of a device is bound like the profile. *)
Lemma seen_bound c who p : bound_to c p → bound_to c (seen_by who p) ∧ rp_name (seen_by who p) = rp_name p.
Proof.
  intros (p0 & Hb & Hr). unfold seen_by, unfiltered_variant. destruct who as [dev|]; [|split; [by exists p0|done]].
  destruct (dev_unfiltered dev); [|split; [by exists p0|done]]. split; [|done]. exists (as_unfiltered p0).
  unfold bind_operator_rules in *. cbn [rp_name as_unfiltered]. destruct (Id_new (rp_name p0)) as [id|]; [|done]. injection Hb as <-. by split.
Qed.

Lemma first_blocked_None ipf records :
  first_blocked ipf records = None ↔ ∀ rec ip, rec ∈ records → data_ip rec = Some ip → ip ∉ ipf.
Proof.
  induction records as [|rec records IH]; cbn [first_blocked]; [split; [by intros _ ? ? ?%not_elem_of_nil|done]|]. unfold blocked_ip.
  destruct (data_ip rec) as [ip|] eqn:E; [case_bool_decide as Hb|]; [split; [done|intros H; by destruct (H rec ip); [left|..]]|..];
    rewrite IH; split; intros H rec' ip' Hin Hip; try (apply (H rec' ip'); [by right|done]);
    (apply elem_of_cons in Hin as [->|Hin]; [congruence|by apply (H rec' ip')]).
Qed.

(** What an answer was found to be before it was passed on. *)
Record wholesome (h : ForwardHandler) (w : World) (p : ResolvedProfile) (g : option RequestGrant) (d : str) (original : option str)
    (readable : Prop) (entry : @CacheEntry wire_payload) : Prop := {
  wh_chain : readable →
    served_safely (map as_dns_record (map of_cached (ce_records entry))) d original
      (fun t => evaluate_synthetic_cname_hop t (fh_filter h) p (w_profile_addr w) g) p (fh_cname_max_depth h);
  wh_addresses : ∀ ipf rec ip, fh_ip_filter h = Some ipf → rec ∈ map of_cached (ce_records entry) → data_ip (as_address rec) = Some ip → ip ∈ ipf →
    ∃ gr b compiled, g = Some gr ∧ rp_operator_rules p = Some b ∧ binding_profile b = Some compiled
      ∧ is_issued_by gr {| ref_addr := w_profile_addr w; ref_profile := compiled |} = true;
}.

Lemma check_answer_wholesome h w p g d original (readable : Prop) entry : (readable → normal_name d ∧ ∀ o, original = Some o → normal_name o) →
  check_answer h w p g d original entry = Some None → wholesome h w p g d original readable entry.
Proof.
  unfold check_answer. intros Hread E. apply bind_Some in E as (v & Hw & E). destruct v; [|done]. split.
  { intros [Hd Ho]%Hread. by apply walk_allow. }
  intros ipf rec ip Hf Hin Hip Hblk. rewrite Hf in E.
  assert (∀ profile, ViaAddress <$> check_response_for_profile_with_grant ipf (map as_address (map of_cached (ce_records entry))) profile g = None →
    ∃ gr pr, g = Some gr ∧ profile = Some pr ∧ is_issued_by gr pr = true) as Hcheck.
  { intros profile Hn. apply fmap_None in Hn. unfold check_response_for_profile_with_grant in Hn.
    destruct (match g, profile with Some g, Some p => is_issued_by g p | _, _ => false end) eqn:Ei.
    - destruct g as [gr|], profile as [pr|]; try done. by exists gr, pr.
    - case_bool_decide as He; [by rewrite He in Hblk; apply not_elem_of_empty in Hblk|].
      rewrite first_blocked_None in Hn. destruct (Hn (as_address rec) ip); [by apply list_elem_of_fmap_2|done|done]. }
  destruct (rp_operator_rules p) as [b|] eqn:Eb.
  - apply bind_Some in E as (compiled & Hb & E). injection E as E. apply Hcheck in E as (gr & pr & -> & [= <-] & Hi). by exists gr, b, compiled.
  - injection E as E. by apply Hcheck in E as (gr & pr & _ & ? & _).
Qed.

(** The CNAME walk can read the name a query goes by: the security layer is on,
    which refuses a name with an escape in its text, or there is no escape in it;
    and a name that a rewrite puts in its place is in normal form. *)
Definition walkable (st : HState) (d d' : str) (original : option str) : Prop :=
  (hs_security st ≠ None ∨ BACKSLASH ∉ d) ∧ (original ≠ None → normal_name d').

Section Enforced.
Context (packs : list PackSource) (mounts : list ProfileMounts) (l : RuleCompileLimits) (c : CompiledOperatorRules).
Context (cfg : ConfigV1) (generation : Z) (arp0 arp : gmap IpAddr str) (now : Clock).
Context (h : ForwardHandler).

(** What the configuration and the lists say of a client asking for a name: the
    chain of levels leads to a profile whose mounted lists, or else its default
    and the downloaded lists, forward the name. *)
Definition permits (source : IpAddr) (d : str) (p : ResolvedProfile) : Prop :=
  let who := identified cfg arp0 arp (canonical_ip source) in
  ∃ level base res m, chain cfg (resolve_profiles cfg (Some c)) now (canonical_ip source) who level (Some base) res ∧ p = seen_by who base
    ∧ m ∈ mounts ∧ mt_profile_id m = rp_name p
    ∧ rows_verdict l (mounted_asts packs m) d (mt_block_all m) (external_matches (fh_filter h) d p) = VForward.

(** The name a permitted query goes by: its own, or the target of the profile's
    rewrite, which the policy allows under the grant of the original. *)
Definition goes_by (w : World) (p : ResolvedProfile) (g : option RequestGrant) (d d' : str) (original : option str) : Prop :=
  match rewrite_apply (px_rewrite_rules (fh_extras h p)) d with
  | None => d' = d ∧ original = None
  | Some target => d' = target ∧ original = Some d ∧ evaluate_synthetic_cname_hop target (fh_filter h) p (w_profile_addr w) g = Some CAllow
  end.

Context (Hc : compiled packs mounts l c) (Hnc : no_collisions packs).
Context (Hdev : NoDup (dev_id <$> cf_devices cfg)) (Hgr : NoDup (gr_id <$> cf_groups cfg)).
Context (Hprof : fh_profiles h = Some (build_resolver_map cfg (Some c) generation arp0 now, arp)).

Lemma client_bound hash_pair w r st p :
  client_profile hash_pair h w r st = Some p →
  let who := identified cfg arp0 arp (canonical_ip (rq_src r)) in
  (∃ level base res, chain cfg (resolve_profiles cfg (Some c)) now (canonical_ip (rq_src r)) who level (Some base) res ∧ p = seen_by who base)
  ∧ bound_to c p.
Proof.
  intros Hp who. unfold client_profile, client_resolution in Hp. rewrite Hprof in Hp. cbn in Hp.
  destruct (resolve_client_agrees hash_pair cfg (Some c) generation arp0 now Hdev Hgr arp (hs_warned st) (w_resolver_secs w) (rq_src r))
    as (base & Hch & Hres & _). rewrite Hres in Hp. destruct base as [base|]; [|done]. injection Hp as Hp.
  split; [eexists _, base, _; split; [exact Hch|done]|]. rewrite <- Hp. apply seen_bound. by eapply chain_bound.
Qed.

Lemma let_through_permits hash_pair w r st p d d' original g :
  client_profile hash_pair h w r st = Some p → let_through h w p d d' original g → permits (rq_src r) d p ∧ goes_by w p g d d' original.
Proof.
  intros Hp [(dec & Hdec & Hnb & Hg) Hrw]. split; [|done]. apply client_bound in Hp as [(level & base & res & Hch & Hp) Hb].
  destruct (bound_mount packs mounts l c p Hc Hb) as (m & Hm & Hid). destruct Hb as (p0 & Hbind & _).
  assert (p = bound p0 c) as Hp0 by (by apply bind_inv).
  destruct (bound_policy packs mounts l c m (fh_filter h) d p0 p (w_profile_addr w) Hc Hnc Hm) as (dec' & Hdec' & Hv & _); [by rewrite Hid, Hp0|done|].
  rewrite Hdec in Hdec'. injection Hdec' as <-. rewrite Hnb in Hv. symmetry in Hv. apply bool_decide_eq_false in Hv.
  exists level, base, res, m. split; [exact Hch|]. split_and!; [done|done|done|].
  assert (external_matches (fh_filter h) d p = external_matches (fh_filter h) d p0) as -> by (by rewrite Hp0).
  by destruct (rows_verdict _ _ _ _ _).
Qed.

Lemma client_decides hash_pair w r st p : client_profile hash_pair h w r st = Some p → decides h w p.
Proof.
  intros Hp. apply client_bound in Hp as [_ (p0 & Hbind & Hr)]. pose proof (bound_mount packs mounts l c p Hc ltac:(by exists p0)) as (m & Hm & Hid).
  assert (p = bound p0 c) as Hp0 by (by apply bind_inv). split.
  - intros d. destruct (bound_policy packs mounts l c m (fh_filter h) d p0 p (w_profile_addr w) Hc Hnc Hm) as (dec & -> & _); [by rewrite Hid, Hp0|done|by eexists].
  - intros g. by apply (hop_decides_bound packs mounts l c p0).
  - intros b Hb. rewrite Hp0 in Hb. destruct (bound_snapshot packs mounts l c (rp_name p0) b Hc Hb) as (x & _ & -> & _). by eexists.
Qed.
End Enforced.

(** What the checks of a query leave readable. *)
Lemma vetted_readable h w st q p g d' original : vetted st q → lower_name (qn_name q) → let d := ascii_domain (qn_name q) in
  goes_by h w p g d d' original → walkable st d d' original → normal_name d' ∧ ∀ o, original = Some o → normal_name o.
Proof.
  intros [Hv Hsec] Hlow d Hgo [Hread Hre]. assert (normal_name d) as Hd.
  { apply valid_name_normal; [done|done|]. destruct Hread as [Hs|]; [|done]. by apply chars_unescaped, Hsec. }
  unfold goes_by in Hgo. destruct (rewrite_apply _ _) as [target|].
  - destruct Hgo as (-> & -> & _). split; [by apply Hre|]. by intros o [= <-].
  - by destruct Hgo as [-> ->].
Qed.

(** C1: what leaves the server.  Let the operator's lists be compiled and the
    resolver be built from the configuration.  Whatever a client asks, whatever
    the cache holds and whatever the upstream answers, a query goes upstream, or
    a record that came from there or from the cache is sent, only when the
    profile the configuration gives to this client forwards the name asked; the
    name it goes by is that name or the target of the profile's rewrite, and the
    policy allows the target; the upstream is told no more of the client's
    address than the profile says; the records passed on lead to no listed
    address, unless the profile granted the name, and they form a safe CNAME
    chain, with every target allowed, if the walk can read the name
    ([walkable]): it can when the security layer is on, as it is by default, or
    the text of the name has no escape, and a rewrite's target is in normal form.
    Everything else that is sent are the server's own words: no answer at all, a
    local record, the block response or the answer to a query for any type.  The
    name of a query is in lower case, as the DNS library hands it over. *)
Theorem nothing_unchecked_leaves rate_iter rrl_iter tunnel_iter name_hash hash_pair code_text
    packs mounts l adm c adm' cfg generation arp0 arp now h w r q st st' :
  adm_wf adm → limits_wf l → no_collisions packs → compile packs mounts l adm = (Some (Ok c), adm') →
  NoDup (dev_id <$> cf_devices cfg) → NoDup (gr_id <$> cf_groups cfg) →
  fh_profiles h = Some (build_resolver_map cfg (Some c) generation arp0 now, arp) →
  head (rq_queries r) = Some q → lower_name (qn_name q) →
  handle_request rate_iter rrl_iter tunnel_iter name_hash hash_pair code_text h w r st = Some st' →
  let d := ascii_domain (qn_name q) in
  let may p := permits packs mounts l c cfg arp0 arp now h (rq_src r) d p in
  ∃ evs, hs_events st' = hs_events st ++ evs ∧ ∀ ev, ev ∈ evs →
    match ev with
    | EvUpstream d' _ _ ecs | EvPrefetch d' _ _ _ ecs _ =>
      ∃ p g original, may p ∧ goes_by h w p g d d' original ∧ ecs = build_option (px_ecs_policy (fh_extras h p)) (rq_src r)
    | EvSend m =>
      own_words hash_pair h w r st q m
      ∨ ∃ p g d' original entry t ad, may p ∧ goes_by h w p g d d' original
          ∧ (ce_records entry = [] ∨ wholesome h w p g d' original (walkable st d d' original) entry)
          ∧ m = cached_message (rq_queries r) entry t ad (match original with Some _ => Some (fwd_name_for d' true (qn_name q)) | None => None end)
    | _ => True
    end.
Proof.
  intros Hadm Hl Hnc Hcomp Hdev Hgr Hprof Hq Hlow Hh d may. pose proof (compile_spec packs mounts l adm Hadm Hl) as HC.
  rewrite Hcomp in HC. destruct HC as (_ & _ & Hc). apply handle_request_events in Hh as (evs & He & Hevs). exists evs. split; [done|].
  rewrite Forall_forall in Hevs. intros ev Hev. apply Hevs in Hev.
  assert (∀ p d' original g, client_profile hash_pair h w r st = Some p → let_through h w p d d' original g → may p ∧ goes_by h w p g d d' original) as Hcl
    by (intros; by eapply let_through_permits).
  assert (∀ d' ecs, (∃ q', head (rq_queries r) = Some q' ∧ sent_upstream hash_pair h w r st q' d' ecs) →
    ∃ p g original, may p ∧ goes_by h w p g d d' original ∧ ecs = build_option (px_ecs_policy (fh_extras h p)) (rq_src r)) as Hup.
  { intros d' ecs (q' & Hq' & p & original & g & Hp & Hx & ->). rewrite Hq in Hq'. injection Hq' as <-.
    destruct (Hcl p d' original g Hp Hx). by exists p, g, original. }
  destruct ev; try done; try (by apply Hup). destruct Hev as [Hm|(q' & Hq' & Hm)]; [by left; left|]. rewrite Hq in Hq'. injection Hq' as <-.
  destruct Hm as [Hm|(Hvet & p & d' & original & g & entry & t & ad & Hp & Hx & He' & ->)]; [by left|]. right.
  destruct (Hcl p d' original g Hp Hx) as [Hmay Hgo]. exists p, g, d', original, entry, t, ad. split_and!; try done.
  destruct He'; [by left|]. right. apply check_answer_wholesome; [|done]. by apply (vetted_readable h w st q p g).
Qed.

(** C2: every query is answered, once.  Let the operator's lists be compiled and
    the resolver be built from the configuration.  Whatever is asked, in whatever
    state, handling the request comes to an end without a panic, in the CNAME
    walk and the compiled policy included, and sends exactly one message; the
    only exception is a query the response rate limiter drops, which sends none.
    The transport is taken to accept what is sent. *)
Theorem every_query_answered rate_iter rrl_iter tunnel_iter name_hash hash_pair code_text
    packs mounts l adm c adm' cfg generation arp0 arp now h w r st :
  adm_wf adm → limits_wf l → no_collisions packs → compile packs mounts l adm = (Some (Ok c), adm') →
  NoDup (dev_id <$> cf_devices cfg) → NoDup (gr_id <$> cf_groups cfg) →
  fh_profiles h = Some (build_resolver_map cfg (Some c) generation arp0 now, arp) →
  (∀ m, w_send_error w m = None) →
  ∃ st' evs, handle_request rate_iter rrl_iter tunnel_iter name_hash hash_pair code_text h w r st = Some st'
    ∧ hs_events st' = hs_events st ++ evs
    ∧ (length (messages evs) = 1 ∨ messages evs = [] ∧ dropped rate_iter rrl_iter h w r st).
Proof.
  intros Hadm Hl Hnc Hcomp Hdev Hgr Hprof Hsend. pose proof (compile_spec packs mounts l adm Hadm Hl) as HC.
  rewrite Hcomp in HC. destruct HC as (_ & _ & Hc).
  destruct (request_answered rate_iter rrl_iter tunnel_iter name_hash hash_pair code_text h w Hsend r st) as (st' & Hst & [(evs & He & Hn)|[(evs & He & Hn) Hd]]).
  - intros p Hp. by eapply client_decides.
  - exists st', evs. split_and!; [done|done|by left].
  - exists st', evs. split_and!; [done|done|right; split; [by apply nil_length_inv|done]].
Qed.

End Configured.

(** ** A guest's query *)

(** Names as their text, labels between the dots. *)
#[local] Instance text_wire : WireNames.
Proof.
  refine {| wn_local := {| LName := str; lname_from_str := Some; lname_to_ascii := fun s => if forallb (forallb name_byte) (name_labels s) then join DOT (name_labels s) else [BACKSLASH] |};
            wn_iter := name_labels;
            wn_eq_ignore_root := fun a b => bool_decide (map to_ascii_lowercase (name_labels a) = map to_ascii_lowercase (name_labels b));
            wn_eq := fun a b => bool_decide (a = b); wn_from_ascii := Some |}.
  - intros a b. apply bool_decide_eq_true.
  - intros n. apply Forall_forall. intros label H. by apply list_elem_of_filter in H as [H _].
  - cbn. intros n H. destruct (forallb (forallb name_byte) (name_labels n)) eqn:E; [|by destruct H; left]. split; [|exists []; split; [by left|by rewrite app_nil_r]].
    apply Forall_forall. intros l Hl. apply Forall_forall. intros b Hb. rewrite forallb_forall in E. specialize (E l ltac:(by apply list_elem_of_In)). rewrite forallb_forall in E. apply E. by apply list_elem_of_In.
Defined.

#[local] Existing Instance identity_sha.
#[local] Existing Instance literal_programs.
#[local] Existing Instance length_hasher.
#[local] Existing Instance integer_f64.
#[local] Existing Instance list_cache.

Definition guests : ConfigV1 :=
  {| cf_profiles := [(lit "guest", open_profile)]; cf_admin_rules := ∅; cf_custom_lists := ∅; cf_devices := []; cf_groups := []; cf_subnets := [];
     cf_schedules := []; cf_blocklist_ids := []; cf_default_profile := Some (lit "guest"); cf_enforce_device_mac := false |}.

Definition guest_extras : ProfileExtras :=
  {| px_local_records := profile_build map_to_list [] 0; px_rewrite_rules := {| rr_forward := {[lit "old.test" := lit "www.test"]}; rr_suffix_rules := []; rr_has_subdomain_rules := false |};
     px_ecs_policy := ECS_OFF; px_block_response := BrNxdomain; px_blocked_ttl_secs := 60 |}.

Definition forwarder (c : CompiledOperatorRules) : ForwardHandler :=
  {| fh_filter := sample_engine; fh_profiles := Some (build_resolver_map guests (Some c) 1 ∅ noon, ∅); fh_extras := fun _ => guest_extras; fh_stats := true;
     fh_local_records := None; fh_local_records_hits := false; fh_ip_filter := Some {[V4 1]}; fh_allow_from := None; fh_blocked_ttl := 60;
     fh_prefetch_threshold := None; fh_cname_max_depth := 16; fh_dynamic_ttl_secs := 60; fh_nodata_for_missing_types_network_name := true;
     fh_audit_writer := false; fh_filter_ready := true;
     fh_cache_config := {| cc_min_ttl_secs := 10; cc_max_ttl_secs := 3600; cc_negative_ttl_secs := 60; cc_stale_buffer_secs := 300 |} |}.

(** An upstream that has one address for every name. *)
Definition one_address (records : list CRecord) (code : ResponseCode) : World :=
  {| w_now := 0; w_later := 1; w_elapsed := {| el_rate := 0; el_rrl := 0; el_tunneling := 0 |}; w_resolver_secs := 0;
     w_upstream := fun _ _ _ _ => Ok {| an_records := records; an_code := code; an_soa_minimum := None; an_generation := None |};
     w_generation := 1; w_profile_addr := 0; w_dnssec := fun _ _ => None; w_prefetch_permit := false; w_send_error := fun _ => None |}.

Definition fresh_state : HState := {| hs_security := None; hs_cache := mk_new; hs_warned := ring_new; hs_events := [] |}.

Definition question (name : str) : Question := {| qn_name := name; qn_type := RtA; qn_class := ClassIN |}.

Definition ask (name : str) : DnsRequest := {| rq_src := client; rq_queries := [question name] |}.

Definition addressed (address : Z) : CRecord := {| cr_ttl := 30; cr_payload := (lit "www.test.", DA address) |}.

Definition guest_run (c : CompiledOperatorRules) (address : Z) (name : str) : option HState :=
  handle_request map_to_list map_to_list map_to_list (fun _ => 0%Z) (fun _ _ => 0%Z) (fun _ => []) (forwarder c)
    (one_address [addressed address] NoError) (ask name) fresh_state.

Lemma no_sample_collisions : no_collisions sample_packs.
Proof. by intros ? ? ? _ _ _. Qed.

(** The guest's query for an old name goes upstream under the new one. *)
Lemma nothing_unchecked_leaves_witness :
  ∃ c p g original, permits sample_packs sample_mounts RuleCompileLimits_default c guests ∅ ∅ noon (forwarder c) client (lit "old.test") p
    ∧ goes_by (forwarder c) (one_address [addressed 7] NoError) p g (lit "old.test") (lit "www.test") original.
Proof.
  assert (match sample_compiled with
          | Some (c, _) =>
            match guest_run c 7 (lit "old.test.") with
            | Some st => match hs_events st with EvUpstream d _ _ _ :: _ => bool_decide (d = lit "www.test") | _ => false end
            | None => false
            end
          | None => false
          end = true) as H by (vm_compute; reflexivity).
  unfold sample_compiled in H. destruct (compile sample_packs sample_mounts RuleCompileLimits_default sample_admission) as [[[c|e]|] adm'] eqn:E; [|done|done].
  destruct (guest_run c 7 (lit "old.test.")) as [st|] eqn:Er; [|done].
  destruct (nothing_unchecked_leaves map_to_list map_to_list map_to_list (fun _ => 0%Z) (fun _ _ => 0%Z) (fun _ => []) sample_packs sample_mounts
    RuleCompileLimits_default sample_admission c adm' guests 1 ∅ ∅ noon (forwarder c) (one_address [addressed 7] NoError) (ask (lit "old.test."))
    (question (lit "old.test.")) fresh_state st) as (evs & He & Hevs);
    [exact sample_adm_wf|exact sample_limits_wf|exact no_sample_collisions|exact E|apply NoDup_nil_2|apply NoDup_nil_2|done|done|by repeat constructor|exact Er|].
  cbn [fresh_state hs_events app] in He. rewrite He in H. destruct evs as [|ev evs]; [done|]. specialize (Hevs ev (list_elem_of_here _ _)).
  destruct ev; try discriminate H. apply bool_decide_eq_true in H as ->. destruct Hevs as (p & g & original & Hp & Hg & _). exists c, p, g, original. exact (conj Hp Hg).
Defined.

(** A listed name is answered like any other. *)
Lemma every_query_answered_witness :
  ∃ c st evs, guest_run c 7 (lit "x.ads.test.") = Some st ∧ hs_events st = evs ∧ length (messages evs) = 1.
Proof.
  destruct sample_compiles as (c & adm' & E). exists c.
  destruct (every_query_answered map_to_list map_to_list map_to_list (fun _ => 0%Z) (fun _ _ => 0%Z) (fun _ => []) sample_packs sample_mounts
    RuleCompileLimits_default sample_admission c adm' guests 1 ∅ ∅ noon (forwarder c) (one_address [addressed 7] NoError) (ask (lit "x.ads.test.")) fresh_state)
    as (st & evs & Hst & He & [Hn|[_ (q & asked & _ & _ & _ & _ & Hd)]]);
    [exact sample_adm_wf|exact sample_limits_wf|exact no_sample_collisions|exact E|apply NoDup_nil_2|apply NoDup_nil_2|reflexivity|reflexivity|exists st, evs; exact (conj Hst (conj He Hn))|discriminate Hd].
Defined.

(** A FORMERR of the upstream. *)
Definition guest_allowed : Allowed :=
  {| al_queries := [question (lit "www.test.")]; al_name := lit "www.test."; al_profile := sample_profile (lit "guest") ∅ []; al_grant := None; al_ecs := None;
     al_ctx := {| bc_asked := {| ak_client_ip := client; ak_domain := lit "www.test"; ak_type := RtA; ak_client_name := None; ak_client_profile := None;
                                 ak_rewrote_from := None |};
                  bc_class := ClassIN; bc_ecs_cache_prefix := None; bc_qname := lit "www.test."; bc_blocked_ttl := 60; bc_block_response := BrZero |} |}.

Lemma upstream_code_table_witness :
  ∃ c st m, forward (fun _ => []) (forwarder c) (one_address [] FormErr) guest_allowed fresh_state None = Some (st, Ok ())
    ∧ last (hs_events st) = Some (EvSend m) ∧ ms_code m = NoError.
Proof.
  destruct sample_compiles as (c & adm' & E). exists c.
  destruct (upstream_code_table (fun _ => []) (forwarder c) (one_address [] FormErr) guest_allowed fresh_state
    {| an_records := []; an_code := FormErr; an_soa_minimum := None; an_generation := None |}) as (st & m & H1 & H2 & _ & H3 & _); try reflexivity.
  exists st, m. exact (conj H1 (conj H2 H3)).
Defined.
