(* ===== verification/Membership.v ===== *)
(** * Node membership: [src/cluster/membership.rs] and [src/auth/token.rs]

    The roster a primary keeps: one-use invitations, admissions and the
    credentials of its nodes.  Every call opens the store under the lock, works
    on its copy and saves it; what a save leaves on disk is an oracle, since a
    write may be lost or may reach the disk and still report an error.  The wall
    clock, random bytes and SHA-256 are arguments. *)

From S2P Require Import Prelude RustStr SortedSlice DnsTypes Domain Rules Decision Limits Ast Cidr LocalRecords.

(** ** Tokens *)

Definition hex_encode (s : str) : str := concat (map (fun c => [hex_digit (byte c / 16); hex_digit (byte c mod 16)]) s).

Definition TOKEN_PREFIX : str := lit "ps_".

Section Membership.
Context {SHA : Sha2Crate}.

Definition hash_token (token : str) : str := hex_encode (sha256 token).

(** [buf] holds the random bytes. *)
Definition generate_token (buf : str) : str * str :=
  let plaintext := TOKEN_PREFIX ++ hex_encode buf in (plaintext, hash_token plaintext).

Definition verify_token (token stored_hash : str) : bool := str_eqb (hash_token token) stored_hash.

(** ** Identities and names *)

Definition lower_hex (c : ascii) : bool := is_ascii_digit c || ((97 <=? byte c)%Z && (byte c <=? 102)%Z).

Definition is_ascii_hexdigit (c : ascii) : bool := lower_hex c || ((65 <=? byte c)%Z && (byte c <=? 70)%Z).

Definition is_hash (value : str) : bool := (length value =? 64) && forallb lower_hex value.

Definition valid_node_id (id : str) : bool :=
  (length id =? 36) &&
  forallb (fun p => if bool_decide (p.1 ∈ [8; 13; 18; 23]) then bool_decide (p.2 = "-"%char) else lower_hex p.2) (imap pair id).

(** [char::is_control] over UTF-8: the two blocks of control characters. *)
Fixpoint has_control (s : str) : bool :=
  match s with
  | [] => false
  | a :: rest =>
    (byte a <? 32)%Z || (byte a =? 127)%Z
    || match rest with b :: _ => (byte a =? 194)%Z && (128 <=? byte b)%Z && (byte b <=? 159)%Z | [] => false end
    || has_control rest
  end.

Definition validate_name (name : str) : result str () :=
  if negb (bool_decide (trim name = [])) && (length name <=? 64) && negb (has_control name) then Ok ()
  else Err (lit "node name must contain 1–64 bytes without control characters").

Definition valid_credential (credential : str) : bool :=
  starts_with TOKEN_PREFIX credential && (length credential =? 67) && forallb is_ascii_hexdigit (drop 3 credential).

(** ** The roster *)

Definition MEMBERSHIP_VERSION : Z := 1.
Definition INVITE_TTL : Z := 15 * 60.
Definition PENDING_TTL : Z := 24 * 60 * 60.
Definition MAX_MEMBERS : nat := 64.
Definition MAX_INVITES : nat := 64.

Record Invitation := {
  inv_version : Z;
  inv_cluster_id : str;
  inv_primary_node_id : str;
  inv_fingerprint : str;
  inv_expires_at : Z;
  inv_secret : str;
}.

(** [Invitation::decode]; [parse] is the decoding of Base64 and JSON. *)
Definition invitation_decode (parse : str → option Invitation) (secret : str) (now : Z) : result str Invitation :=
  if 4096 <? length secret then Err (lit "invalid invitation")
  else match parse (trim secret) with
       | None => Err (lit "invalid invitation")
       | Some invite =>
         if negb ((inv_version invite =? MEMBERSHIP_VERSION)%Z && (now <? inv_expires_at invite)%Z
                  && (inv_expires_at invite <=? Z.min U64_MAX (now + INVITE_TTL))%Z)
         then Err (lit "invitation expired or unsupported")
         else if negb (is_hash (inv_fingerprint invite) && valid_node_id (inv_cluster_id invite) && valid_node_id (inv_primary_node_id invite))
         then Err (lit "invalid invitation identity")
         else Ok invite
       end.

Inductive MemberState := Pending | Active | Revoked.

#[export] Instance member_state_eq_dec : EqDecision MemberState.
Proof. solve_decision. Defined.

Record MemberView := {
  mv_node_id : str;
  mv_name : str;
  mv_state : MemberState;
  mv_admitted_at : Z;
  mv_expires_at : option Z;
  mv_endpoint : option str;
  mv_sync : option str;
  mv_last_confirmation_secs : option Z;
  mv_fingerprint : option str;
}.

Record Member := { mb_view : MemberView; mb_credential_hash : str; mb_invitation_hash : str }.

(** The invitations with their expiry, the members by identity. *)
Record Roster := {
  ro_version : Z;
  ro_cluster_id : str;
  ro_primary_node_id : str;
  ro_fingerprint : str;
  ro_invites : gmap str Z;
  ro_members : gmap str Member;
}.

Definition with_invites (r : Roster) (i : gmap str Z) : Roster :=
  {| ro_version := ro_version r; ro_cluster_id := ro_cluster_id r; ro_primary_node_id := ro_primary_node_id r;
     ro_fingerprint := ro_fingerprint r; ro_invites := i; ro_members := ro_members r |}.

Definition with_members (r : Roster) (m : gmap str Member) : Roster :=
  {| ro_version := ro_version r; ro_cluster_id := ro_cluster_id r; ro_primary_node_id := ro_primary_node_id r;
     ro_fingerprint := ro_fingerprint r; ro_invites := ro_invites r; ro_members := m |}.

Definition with_view (m : Member) (v : MemberView) : Member :=
  {| mb_view := v; mb_credential_hash := mb_credential_hash m; mb_invitation_hash := mb_invitation_hash m |}.

Definition with_state (v : MemberView) (s : MemberState) (expires : option Z) : MemberView :=
  {| mv_node_id := mv_node_id v; mv_name := mv_name v; mv_state := s; mv_admitted_at := mv_admitted_at v; mv_expires_at := expires;
     mv_endpoint := mv_endpoint v; mv_sync := mv_sync v; mv_last_confirmation_secs := mv_last_confirmation_secs v; mv_fingerprint := mv_fingerprint v |}.

(** The rows of a [BTreeMap] in order. *)
Definition rows {A} (m : gmap str A) : list (str * A) := merge_sort key_le (map_to_list m).

Definition is_revoked (m : Member) : bool := bool_decide (mv_state (mb_view m) = Revoked).

(** ** The store *)

(** What became of a write: done, lost, or done although an error is reported. *)
Inductive WriteOutcome := Written | Lost | Unsure.

(** The copy in memory and what is on disk. *)
Record MembershipStore := { ms_roster : Roster; ms_disk : Roster }.

Definition save (io : WriteOutcome) (s : MembershipStore) : MembershipStore * result str () :=
  match io with
  | Written => ({| ms_roster := ms_roster s; ms_disk := ms_roster s |}, Ok ())
  | Lost => (s, Err (lit "write failed"))
  | Unsure => ({| ms_roster := ms_roster s; ms_disk := ms_roster s |}, Err (lit "write failed"))
  end.

Definition upd (s : MembershipStore) (r : Roster) : MembershipStore := {| ms_roster := r; ms_disk := ms_disk s |}.

Definition initial_roster (cluster_id primary_node_id fingerprint : str) : Roster :=
  {| ro_version := MEMBERSHIP_VERSION; ro_cluster_id := cluster_id; ro_primary_node_id := primary_node_id; ro_fingerprint := fingerprint;
     ro_invites := ∅; ro_members := ∅ |}.

Definition initialize (cluster_id primary_node_id fingerprint : str) : result str Roster :=
  if valid_node_id cluster_id && valid_node_id primary_node_id && is_hash fingerprint
  then Ok (initial_roster cluster_id primary_node_id fingerprint)
  else Err (lit "invalid membership identity").

Definition member_ok (p : str * Member) : result str () :=
  if str_eqb p.1 (mv_node_id (mb_view p.2)) && valid_node_id p.1 && is_hash (mb_credential_hash p.2)
  then validate_name (mv_name (mb_view p.2))
  else Err (lit "invalid member identity").

Definition open_store (disk : Roster) : result str MembershipStore :=
  if negb ((ro_version disk =? MEMBERSHIP_VERSION)%Z && (size (ro_members disk) <=? MAX_MEMBERS) && (size (ro_invites disk) <=? MAX_INVITES))
  then Err (lit "invalid membership store")
  else if negb (valid_node_id (ro_cluster_id disk) && valid_node_id (ro_primary_node_id disk) && is_hash (ro_fingerprint disk))
  then Err (lit "invalid membership identity")
  else let? _ := try_fold (fun _ p => member_ok p) () (rows (ro_members disk)) in Ok {| ms_roster := disk; ms_disk := disk |}.

(** ** Operations *)

Definition expire_member (now : Z) (m : Member) : Member :=
  let v := mb_view m in
  if bool_decide (mv_state v = Pending) && match mv_expires_at v with Some until => (until <=? now)%Z | None => false end
  then with_view m (with_state v Revoked (mv_expires_at v))
  else m.

Definition expire (now : Z) (r : Roster) : Roster :=
  with_members (with_invites r (filter (fun p => (now < p.2)%Z) (ro_invites r))) (expire_member now <$> ro_members r).

Definition invite (io : WriteOutcome) (buf : str) (now : Z) (s : MembershipStore) : MembershipStore * result str Invitation :=
  let r := expire now (ms_roster s) in
  let s := upd s r in
  if MAX_INVITES <=? size (ro_invites r) then (s, Err (lit "too many unexpired invitations"))
  else
    let '(secret, hash) := generate_token buf in
    let expires_at := (now + INVITE_TTL)%Z in
    if (U64_MAX <? expires_at)%Z then (s, Err (lit "clock overflow"))
    else
      let s := upd s (with_invites r (<[hash := expires_at]> (ro_invites r))) in
      let '(s, saved) := save io s in
      (s, let? _ := saved in
          Ok {| inv_version := MEMBERSHIP_VERSION; inv_cluster_id := ro_cluster_id r; inv_primary_node_id := ro_primary_node_id r;
                inv_fingerprint := ro_fingerprint r; inv_expires_at := expires_at; inv_secret := secret |}).

(** The first of the revoked rows that were admitted earliest. *)
Definition admitted_earlier (best : option (str * Member)) (p : str * Member) : option (str * Member) :=
  match best with
  | Some b => if (mv_admitted_at (mb_view p.2) <? mv_admitted_at (mb_view b.2))%Z then Some p else best
  | None => Some p
  end.

Definition oldest_revoked (members : gmap str Member) : option str :=
  fst <$> foldl admitted_earlier None (filter (fun p => is_revoked p.2 = true) (rows members)).

Definition make_room (members : gmap str Member) : gmap str Member :=
  if MAX_MEMBERS <=? size members then
    match oldest_revoked members with Some id => delete id members | None => members end
  else members.

Definition pending_view (node_id name : str) (now : Z) (endpoint : option str) : MemberView :=
  {| mv_node_id := node_id; mv_name := name; mv_state := Pending; mv_admitted_at := now; mv_expires_at := Some (now + PENDING_TTL)%Z;
     mv_endpoint := endpoint; mv_sync := None; mv_last_confirmation_secs := None; mv_fingerprint := None |}.

Definition admit_member (io : WriteOutcome) (s : MembershipStore) (r : Roster) (view : MemberView) (credential invitation_hash : str)
  : MembershipStore * result str MemberView :=
  let m := {| mb_view := view; mb_credential_hash := hash_token credential; mb_invitation_hash := invitation_hash |} in
  let s := upd s (with_members r (<[mv_node_id view := m]> (ro_members r))) in
  let '(s, saved) := save io s in
  (s, let? _ := saved in Ok view).

(** The rest of [enroll], for an identity that is not enrolled. *)
Definition enroll_new (io : WriteOutcome) (s : MembershipStore) (r : Roster) (invitation_hash node_id name credential : str) (now : Z)
  : MembershipStore * result str MemberView :=
  let members := make_room (ro_members r) in
  let r := with_members r members in
  let s := upd s r in
  if negb ((size members <? MAX_MEMBERS) || bool_decide (is_Some (members !! node_id))) then (s, Err (lit "membership capacity reached"))
  else match ro_invites r !! invitation_hash with
  | None => (s, Err (lit "invitation expired, consumed or invalid"))
  | Some _ =>
    let r := with_invites r (delete invitation_hash (ro_invites r)) in
    let s := upd s r in
    if (U64_MAX <? now + PENDING_TTL)%Z then (s, Err (lit "clock overflow"))
    else admit_member io s r (pending_view node_id name now None) credential invitation_hash
  end.

Definition enroll (io : WriteOutcome) (invitation node_id name credential : str) (now : Z) (s : MembershipStore)
  : MembershipStore * result str MemberView :=
  if negb (valid_node_id node_id && negb (str_eqb node_id (ro_primary_node_id (ms_roster s)))) then (s, Err (lit "invalid node identity"))
  else match validate_name name with
  | Err e => (s, Err e)
  | Ok _ =>
    if negb (valid_credential credential) then (s, Err (lit "invalid node credential"))
    else
      let r := expire now (ms_roster s) in
      let s := upd s r in
      let invitation_hash := hash_token invitation in
      match ro_members r !! node_id with
      | Some member =>
        if is_revoked member then
          enroll_new io s r invitation_hash node_id name credential now
        else if str_eqb (mb_invitation_hash member) invitation_hash && verify_token credential (mb_credential_hash member)
        then (s, Ok (mb_view member))
        else (s, Err (lit "node identity already enrolled"))
      | None => enroll_new io s r invitation_hash node_id name credential now
      end
  end.

(** [endpoint] is the text of the address and its port. *)
Definition admit_prepared (io : WriteOutcome) (operation_id node_id name : str) (endpoint : str * Z) (credential : str) (now : Z) (s : MembershipStore)
  : MembershipStore * result str MemberView :=
  if negb (valid_node_id operation_id) then (s, Err (lit "invalid prepared operation identity"))
  else if negb (valid_node_id node_id && negb (str_eqb node_id (ro_primary_node_id (ms_roster s)))) then (s, Err (lit "invalid node identity"))
  else match validate_name name with
  | Err e => (s, Err e)
  | Ok _ =>
    if (endpoint.2 =? 0)%Z then (s, Err (lit "invalid node endpoint"))
    else if negb (valid_credential credential) then (s, Err (lit "invalid node credential"))
    else
      let r := expire now (ms_roster s) in
      let s := upd s r in
      let binding := hash_token (lit "nodes-v2:" ++ operation_id) in
      let take_in :=
        if negb ((size (ro_members r) <? MAX_MEMBERS) || bool_decide (is_Some (ro_members r !! node_id))) then (s, Err (lit "membership capacity reached"))
        else if (U64_MAX <? now + PENDING_TTL)%Z then (s, Err (lit "clock overflow"))
        else admit_member io s r (pending_view node_id name now (Some (lit "https://" ++ endpoint.1))) credential binding in
      match ro_members r !! node_id with
      | Some member =>
        if str_eqb (mb_invitation_hash member) binding && verify_token credential (mb_credential_hash member) then
          if is_revoked member then (s, Err (lit "revoked admission cannot be replayed")) else (s, Ok (mb_view member))
        else if is_revoked member then take_in
        else (s, Err (lit "node identity already enrolled by another operation"))
      | None => take_in
      end
  end.

(** Whether a row admits its node at the time. *)
Definition admits (now : Z) (m : Member) : bool :=
  negb (is_revoked m) && match mv_expires_at (mb_view m) with None => true | Some until => (now <? until)%Z end.

(** The last row that is_for, in order of identity. *)
Definition authenticate (s : MembershipStore) (credential : str) (now : Z) : option str :=
  foldl (fun found p => if verify_token credential (mb_credential_hash p.2) && admits now p.2 then Some (mv_node_id (mb_view p.2)) else found)
    None (rows (ro_members (ms_roster s))).

Definition set_member (s : MembershipStore) (id : str) (m : Member) : MembershipStore :=
  upd s (with_members (ms_roster s) (<[id := m]> (ro_members (ms_roster s)))).

Definition activate (io : WriteOutcome) (principal : str) (now : Z) (s : MembershipStore) : MembershipStore * result str () :=
  let s := upd s (expire now (ms_roster s)) in
  match ro_members (ms_roster s) !! principal with
  | None => (s, Err (lit "unknown member"))
  | Some m =>
    if is_revoked m then (s, Err (lit "membership revoked or expired"))
    else save io (set_member s principal (with_view m (with_state (mb_view m) Active None)))
  end.

Definition with_name (v : MemberView) (name : str) : MemberView :=
  {| mv_node_id := mv_node_id v; mv_name := name; mv_state := mv_state v; mv_admitted_at := mv_admitted_at v; mv_expires_at := mv_expires_at v;
     mv_endpoint := mv_endpoint v; mv_sync := mv_sync v; mv_last_confirmation_secs := mv_last_confirmation_secs v; mv_fingerprint := mv_fingerprint v |}.

Definition rename (io : WriteOutcome) (node_id name : str) (s : MembershipStore) : MembershipStore * result str () :=
  match validate_name name with
  | Err e => (s, Err e)
  | Ok _ =>
    match ro_members (ms_roster s) !! node_id with
    | None => (s, Err (lit "unknown member"))
    | Some m =>
      if is_revoked m then (s, Err (lit "member revoked"))
      else if str_eqb (mv_name (mb_view m)) name then (s, Ok ())
      else save io (set_member s node_id (with_view m (with_name (mb_view m) name)))
    end
  end.

Definition revoke (io : WriteOutcome) (node_id : str) (s : MembershipStore) : MembershipStore * result str () :=
  match ro_members (ms_roster s) !! node_id with
  | None => (s, Err (lit "unknown member"))
  | Some m => save io (set_member s node_id (with_view m (with_state (mb_view m) Revoked (mv_expires_at (mb_view m)))))
  end.

Definition view_at (now : Z) (m : Member) : MemberView :=
  let v := mb_view m in
  if bool_decide (mv_state v = Pending) && match mv_expires_at v with Some t => (t <=? now)%Z | None => false end
  then with_state v Revoked (mv_expires_at v) else v.

Definition views (s : MembershipStore) (now : Z) : list MemberView := map (fun p => view_at now p.2) (rows (ro_members (ms_roster s))).

Definition is_for (s : MembershipStore) (cluster_id primary : str) : bool :=
  str_eqb (ro_cluster_id (ms_roster s)) cluster_id && str_eqb (ro_primary_node_id (ms_roster s)) primary.

Definition replace_primary_fingerprint (io : WriteOutcome) (cluster_id primary_node_id fingerprint : str) (now : Z) (s : MembershipStore)
  : MembershipStore * result str () :=
  if negb (is_for s cluster_id primary_node_id && is_hash fingerprint) then (s, Err (lit "primary fingerprint replacement identity mismatch"))
  else
    let r := expire now (ms_roster s) in
    let s := upd s r in
    if negb (forallb (fun p => is_revoked p.2) (rows (ro_members r))) then (s, Err (lit "primary fingerprint replacement requires peerless membership"))
    else save io (upd s {| ro_version := ro_version r; ro_cluster_id := ro_cluster_id r; ro_primary_node_id := ro_primary_node_id r;
                           ro_fingerprint := fingerprint; ro_invites := ro_invites r; ro_members := ro_members r |}).

(** ** Histories *)

(** The calls that write, each on a store opened from disk. *)
Inductive Call :=
| CInvite (buf : str)
| CEnroll (invitation node_id name credential : str)
| CAdmit (operation_id node_id name : str) (endpoint : str * Z) (credential : str)
| CActivate (node_id : str)
| CRename (node_id name : str)
| CRevoke (node_id : str)
| CReplace (cluster_id primary_node_id fingerprint : str).

Record Step := { sp_call : Call; sp_now : Z; sp_io : WriteOutcome }.

(** What is on disk after a call. *)
Definition call (disk : Roster) (c : Step) : Roster :=
  match open_store disk with
  | Err _ => disk
  | Ok s =>
    let io := sp_io c in let now := sp_now c in
    match sp_call c with
    | CInvite buf => ms_disk (invite io buf now s).1
    | CEnroll inv id name cred => ms_disk (enroll io inv id name cred now s).1
    | CAdmit op id name ep cred => ms_disk (admit_prepared io op id name ep cred now s).1
    | CActivate id => ms_disk (activate io id now s).1
    | CRename id name => ms_disk (rename io id name s).1
    | CRevoke id => ms_disk (revoke io id s).1
    | CReplace cid pid fp => ms_disk (replace_primary_fingerprint io cid pid fp now s).1
    end
  end.

Definition run (start : Roster) (history : list Step) : Roster := foldl call start history.

End Membership.
