(* ===== verification/MembershipProofs.v ===== *)
(** * Who may speak for a node: [src/cluster/membership.rs]

    The rosters that histories of calls leave on disk, for the operations of
    [Membership]: what they hold and what they let in. *)

From S2P Require Import Prelude RustStr SortedSlice DnsTypes Domain Rules Decision Limits Ast Cidr LocalRecords Membership.

Section Proofs.
Context {SHA : Sha2Crate}.

(** ** What a call may write *)

(** The identity is free: unknown, or its row is revoked. *)
Definition free (r : Roster) (id : str) : Prop := ∀ m, ro_members r !! id = Some m → is_revoked m = true.

Definition admissible (r : Roster) (id name credential : str) : Prop :=
  valid_node_id id = true ∧ id ≠ ro_primary_node_id r ∧ validate_name name = Ok () ∧ valid_credential credential = true.

Definition fresh_member (id name : str) (now : Z) (endpoint : option str) (credential bound_to : str) : Member :=
  {| mb_view := pending_view id name now endpoint; mb_credential_hash := hash_token credential; mb_invitation_hash := bound_to |}.

Inductive writes (disk : Roster) (now : Z) : Call → Roster → Prop :=
| writes_invite buf : let r := expire now disk in
    size (ro_invites r) < MAX_INVITES → (now + INVITE_TTL ≤ U64_MAX)%Z →
    writes disk now (CInvite buf) (with_invites r (<[(generate_token buf).2 := (now + INVITE_TTL)%Z]> (ro_invites r)))
| writes_enroll inv id name cred : let r := expire now disk in
    admissible disk id name cred → free r id → is_Some (ro_invites r !! hash_token inv) → (now + PENDING_TTL ≤ U64_MAX)%Z →
    size (make_room (ro_members r)) < MAX_MEMBERS ∨ is_Some (make_room (ro_members r) !! id) →
    writes disk now (CEnroll inv id name cred)
      (with_members (with_invites r (delete (hash_token inv) (ro_invites r)))
         (<[id := fresh_member id name now None cred (hash_token inv)]> (make_room (ro_members r))))
| writes_admit op id name ep cred : let r := expire now disk in
    admissible disk id name cred → free r id → (now + PENDING_TTL ≤ U64_MAX)%Z →
    size (ro_members r) < MAX_MEMBERS ∨ is_Some (ro_members r !! id) →
    writes disk now (CAdmit op id name ep cred)
      (with_members r (<[id := fresh_member id name now (Some (lit "https://" ++ ep.1)) cred (hash_token (lit "nodes-v2:" ++ op))]> (ro_members r)))
| writes_activate id m : let r := expire now disk in
    ro_members r !! id = Some m → is_revoked m = false →
    writes disk now (CActivate id) (with_members r (<[id := with_view m (with_state (mb_view m) Active None)]> (ro_members r)))
| writes_rename id name m :
    validate_name name = Ok () → ro_members disk !! id = Some m → is_revoked m = false →
    writes disk now (CRename id name) (with_members disk (<[id := with_view m (with_name (mb_view m) name)]> (ro_members disk)))
| writes_revoke id m :
    ro_members disk !! id = Some m →
    writes disk now (CRevoke id) (with_members disk (<[id := with_view m (with_state (mb_view m) Revoked (mv_expires_at (mb_view m)))]> (ro_members disk)))
| writes_replace cid pid fp : let r := expire now disk in
    is_hash fp = true →
    writes disk now (CReplace cid pid fp)
      {| ro_version := ro_version r; ro_cluster_id := ro_cluster_id r; ro_primary_node_id := ro_primary_node_id r; ro_fingerprint := fp;
         ro_invites := ro_invites r; ro_members := ro_members r |}.

Lemma save_disk io s : ms_disk (save io s).1 = ms_disk s ∨ io ≠ Lost ∧ ms_disk (save io s).1 = ms_roster s.
Proof. destruct io; cbn; [right|left|right]; try done. Qed.

Lemma admit_member_disk io s r view cred bound :
  let new := with_members r (<[mv_node_id view := {| mb_view := view; mb_credential_hash := hash_token cred; mb_invitation_hash := bound |}]> (ro_members r)) in
  ms_disk (admit_member io s r view cred bound).1 = ms_disk s ∨ io ≠ Lost ∧ ms_disk (admit_member io s r view cred bound).1 = new.
Proof.
  intros new. unfold admit_member. pose proof (save_disk io (upd s new)) as H. subst new. destruct (save _ _) as [s' saved]. exact H.
Qed.

Lemma str_eqb_spec a b : str_eqb a b = true ↔ a = b.
Proof. unfold str_eqb. apply bool_decide_eq_true. Qed.

Lemma open_Ok disk s : open_store disk = Ok s → s = {| ms_roster := disk; ms_disk := disk |}.
Proof. unfold open_store. repeat case_match; try done. intros E. apply rbind_Ok in E as (? & _ & E). by injection E as <-. Qed.

(** The disk is as it was, or holds what the call may write. *)
Definition settled (disk : Roster) (c : Call) (now : Z) (io : WriteOutcome) (after : Roster) : Prop :=
  after = disk ∨ io ≠ Lost ∧ writes disk now c after.

Lemma settled_save disk c now io s : ms_disk s = disk → writes disk now c (ms_roster s) → settled disk c now io (ms_disk (save io s).1).
Proof. intros Hd Hw. destruct (save_disk io s) as [E|[Hio E]]; rewrite E; [by left|by right]. Qed.

Lemma settled_admit disk c now io s r view cred bound :
  ms_disk s = disk →
  writes disk now c (with_members r (<[mv_node_id view := {| mb_view := view; mb_credential_hash := hash_token cred; mb_invitation_hash := bound |}]> (ro_members r))) →
  settled disk c now io (ms_disk (admit_member io s r view cred bound).1).
Proof. intros Hd Hw. destruct (admit_member_disk io s r view cred bound) as [E|[Hio E]]; rewrite E; [by left|by right]. Qed.

Section Calls.
Context (disk : Roster) (now : Z) (io : WriteOutcome).
Let s := {| ms_roster := disk; ms_disk := disk |}.

Lemma invite_settled buf : settled disk (CInvite buf) now io (ms_disk (invite io buf now s).1).
Proof.
  unfold invite. cbn [ms_roster s]. destruct (Nat.leb_spec MAX_INVITES (size (ro_invites (expire now disk)))); [by left|].
  destruct (generate_token buf) as [secret hash] eqn:Et. destruct (Z.ltb_spec U64_MAX (now + INVITE_TTL)); [by left|].
  pose proof (settled_save disk (CInvite buf) now io (upd (upd s (expire now disk)) (with_invites (expire now disk) (<[hash:=(now + INVITE_TTL)%Z]> (ro_invites (expire now disk))))) eq_refl) as H1.
  destruct (save _ _) as [s' saved]. apply H1. cbn [ms_roster upd]. replace hash with (generate_token buf).2 by (by rewrite Et). by apply writes_invite.
Qed.

Lemma admissible_intro id name cred :
  negb (valid_node_id id && negb (str_eqb id (ro_primary_node_id disk))) = false → validate_name name = Ok () → negb (valid_credential cred) = false →
  admissible disk id name cred.
Proof.
  intros Hid Hn Hc. apply negb_false_iff in Hid, Hc. apply andb_true_iff in Hid as [Hv Hp]. split_and!; try done.
  intros ->. by rewrite (proj2 (str_eqb_spec _ _) eq_refl) in Hp.
Qed.

Lemma enroll_new_settled inv id name cred : let r := expire now disk in
  admissible disk id name cred → free r id →
  settled disk (CEnroll inv id name cred) now io (ms_disk (enroll_new io (upd s r) r (hash_token inv) id name cred now).1).
Proof.
  intros r Had Hfree. unfold enroll_new. set (room := make_room (ro_members r)).
  destruct (negb _) eqn:Er; [by left|]. change (ro_invites (with_members r room)) with (ro_invites r).
  destruct (ro_invites r !! hash_token inv) as [ex|] eqn:Ei; [|by left]. destruct (Z.ltb_spec U64_MAX (now + PENDING_TTL)); [by left|].
  apply settled_admit; [done|]. apply (writes_enroll disk now inv id name cred); try done.
  apply negb_false_iff, orb_true_iff in Er as [E|E]; [left; by apply Nat.ltb_lt|right; by apply bool_decide_eq_true in E].
Qed.

Lemma enroll_settled inv id name cred : settled disk (CEnroll inv id name cred) now io (ms_disk (enroll io inv id name cred now s).1).
Proof.
  unfold enroll. cbn [ms_roster s]. destruct (negb (valid_node_id id && _)) eqn:Eid; [by left|]. destruct (validate_name name) as [[]|e] eqn:En; [|by left].
  destruct (negb (valid_credential cred)) eqn:Ec; [by left|]. assert (admissible disk id name cred) as Had by (by apply admissible_intro).
  destruct (ro_members (expire now disk) !! id) as [m|] eqn:Em.
  - destruct (is_revoked m) eqn:Er; [|cbv zeta; destruct (str_eqb _ _ && _); by left]. apply enroll_new_settled; [done|]. intros m' Hm'. rewrite Em in Hm'. by injection Hm' as <-.
  - apply enroll_new_settled; [done|]. intros m' Hm'. by rewrite Em in Hm'.
Qed.

Lemma admit_settled op id name ep cred : settled disk (CAdmit op id name ep cred) now io (ms_disk (admit_prepared io op id name ep cred now s).1).
Proof.
  unfold admit_prepared. cbn [ms_roster s]. destruct (negb (valid_node_id op)); [by left|]. destruct (negb (valid_node_id id && _)) eqn:Eid; [by left|].
  destruct (validate_name name) as [[]|e] eqn:En; [|by left]. destruct (ep.2 =? 0)%Z; [by left|].
  destruct (negb (valid_credential cred)) eqn:Ec; [by left|]. assert (admissible disk id name cred) as Had by (by apply admissible_intro).
  cbv zeta. set (r := expire now disk). set (take_in := if negb ((size (ro_members r) <? MAX_MEMBERS) || _) then _ else _).
  assert (free r id → settled disk (CAdmit op id name ep cred) now io (ms_disk take_in.1)) as Hadmit.
  { intros Hfree. subst take_in. destruct (negb ((size (ro_members r) <? MAX_MEMBERS) || _)) eqn:Er; [by left|]. destruct (Z.ltb_spec U64_MAX (now + PENDING_TTL)); [by left|].
    apply settled_admit; [done|]. apply (writes_admit disk now op id name ep cred); try done.
    apply negb_false_iff, orb_true_iff in Er as [E|E]; [left; by apply Nat.ltb_lt|right; by apply bool_decide_eq_true in E]. }
  destruct (ro_members r !! id) as [m|] eqn:Em.
  - destruct (str_eqb _ _ && _); [destruct (is_revoked m); by left|]. destruct (is_revoked m) eqn:Er; [|by left]. apply Hadmit. intros m' Hm'. rewrite Em in Hm'. by injection Hm' as <-.
  - apply Hadmit. intros m' Hm'. by rewrite Em in Hm'.
Qed.

Lemma activate_settled id : settled disk (CActivate id) now io (ms_disk (activate io id now s).1).
Proof.
  unfold activate. cbn [ms_roster s upd]. destruct (ro_members (expire now disk) !! id) as [m|] eqn:Em; [|by left]. destruct (is_revoked m) eqn:Er; [by left|].
  apply settled_save; [done|]. by apply writes_activate.
Qed.

Lemma rename_settled id name : settled disk (CRename id name) now io (ms_disk (rename io id name s).1).
Proof.
  unfold rename. destruct (validate_name name) as [[]|e] eqn:En; [|by left]. cbn [ms_roster s]. destruct (ro_members disk !! id) as [m|] eqn:Em; [|by left].
  destruct (is_revoked m) eqn:Er; [by left|]. destruct (str_eqb _ _); [by left|]. apply settled_save; [done|]. by apply writes_rename.
Qed.

Lemma revoke_settled id : settled disk (CRevoke id) now io (ms_disk (revoke io id s).1).
Proof.
  unfold revoke. cbn [ms_roster s]. destruct (ro_members disk !! id) as [m|] eqn:Em; [|by left]. apply settled_save; [done|]. by apply writes_revoke.
Qed.

Lemma replace_settled cid pid fp : settled disk (CReplace cid pid fp) now io (ms_disk (replace_primary_fingerprint io cid pid fp now s).1).
Proof.
  unfold replace_primary_fingerprint. destruct (negb (is_for _ _ _ && _)) eqn:Em; [by left|]. apply negb_false_iff, andb_true_iff in Em as [_ Hfp].
  destruct (negb _); [by left|]. apply settled_save; [done|]. by apply writes_replace.
Qed.
End Calls.

Lemma call_settled disk c : settled disk (sp_call c) (sp_now c) (sp_io c) (call disk c).
Proof.
  unfold call. destruct (open_store disk) as [s|e] eqn:Eo; [|by left]. apply open_Ok in Eo as ->.
  destruct (sp_call c).
  - apply invite_settled.
  - apply enroll_settled.
  - apply admit_settled.
  - apply activate_settled.
  - apply rename_settled.
  - apply revoke_settled.
  - apply replace_settled.
Qed.

(** ** Well-formed rosters *)

(** When the admission of a row ends, by its state. *)
Definition term_ok (v : MemberView) : Prop :=
  match mv_state v with
  | Pending => mv_expires_at v = Some (mv_admitted_at v + PENDING_TTL)%Z
  | Active => mv_expires_at v = None
  | Revoked => True
  end.

Record row_wf (id : str) (m : Member) : Prop := {
  rw_id : mv_node_id (mb_view m) = id;
  rw_valid : valid_node_id id = true;
  rw_credential : is_hash (mb_credential_hash m) = true;
  rw_name : validate_name (mv_name (mb_view m)) = Ok ();
  rw_term : term_ok (mb_view m);
}.

Record roster_wf (r : Roster) : Prop := {
  rf_version : ro_version r = MEMBERSHIP_VERSION;
  rf_members : size (ro_members r) ≤ MAX_MEMBERS;
  rf_invites : size (ro_invites r) ≤ MAX_INVITES;
  rf_cluster : valid_node_id (ro_cluster_id r) = true;
  rf_primary : valid_node_id (ro_primary_node_id r) = true;
  rf_fingerprint : is_hash (ro_fingerprint r) = true;
  rf_rows : map_Forall row_wf (ro_members r);
}.

Lemma rows_spec {A} (m : gmap str A) p : p ∈ rows m ↔ m !! p.1 = Some p.2.
Proof. unfold rows. rewrite merge_sort_Permutation. destruct p. apply elem_of_map_to_list. Qed.

Lemma try_fold_all {A} (f : A → result str ()) l : (∀ x, x ∈ l → f x = Ok ()) → try_fold (fun _ x => f x) () l = Ok ().
Proof. intros H. induction l as [|x l IH]; [done|]. cbn. rewrite (H x) by (by left). cbn. apply IH. intros y Hy. apply H. by right. Qed.

Lemma wf_opens r : roster_wf r → open_store r = Ok {| ms_roster := r; ms_disk := r |}.
Proof.
  intros [Hv Hm Hi Hc Hp Hf Hr]. unfold open_store. rewrite Hv, Hc, Hp, Hf, Z.eqb_refl, (proj2 (Nat.leb_le _ _) Hm), (proj2 (Nat.leb_le _ _) Hi). cbn.
  rewrite try_fold_all; [done|]. intros [id m] Hin. apply rows_spec in Hin. cbn in Hin. apply Hr in Hin as [H1 H2 H3 H4 _]. unfold member_ok. cbn [fst snd].
  by rewrite (proj2 (str_eqb_spec id (mv_node_id (mb_view m))) (eq_sym H1)), H2, H3.
Qed.

Lemma expire_member_same now m :
  mv_node_id (mb_view (expire_member now m)) = mv_node_id (mb_view m) ∧ mv_name (mb_view (expire_member now m)) = mv_name (mb_view m)
  ∧ mb_credential_hash (expire_member now m) = mb_credential_hash m ∧ mb_invitation_hash (expire_member now m) = mb_invitation_hash m
  ∧ mv_admitted_at (mb_view (expire_member now m)) = mv_admitted_at (mb_view m) ∧ mv_expires_at (mb_view (expire_member now m)) = mv_expires_at (mb_view m).
Proof. unfold expire_member. by destruct (_ && _). Qed.

Lemma expire_row now id m : row_wf id m → row_wf id (expire_member now m).
Proof.
  intros [H1 H2 H3 H4 H5]. destruct (expire_member_same now m) as (E1 & E2 & E3 & _ & E5 & E6). split; try congruence.
  unfold expire_member in *. by destruct (_ && _).
Qed.

Lemma expire_members now r id : ro_members (expire now r) !! id = expire_member now <$> ro_members r !! id.
Proof. apply lookup_fmap. Qed.

Lemma expire_invites now r h t : ro_invites (expire now r) !! h = Some t ↔ ro_invites r !! h = Some t ∧ (now < t)%Z.
Proof. cbn. by rewrite map_lookup_filter_Some. Qed.

Lemma expire_wf now r : roster_wf r → roster_wf (expire now r).
Proof.
  intros [Hv Hm Hi Hc Hp Hf Hr]. split; try done; cbn.
  - by rewrite map_size_fmap.
  - etrans; [|exact Hi]. apply map_subseteq_size, map_filter_subseteq.
  - apply map_Forall_fmap. intros id m Hid. apply expire_row. by apply Hr.
Qed.

Lemma make_room_sub (m : gmap str Member) : make_room m ⊆ m.
Proof. unfold make_room. destruct (_ <=? _); [|done]. destruct (oldest_revoked m); [apply delete_subseteq|done]. Qed.

Lemma insert_member_wf (r : Roster) (id : str) (m : Member) (base : gmap str Member) :
  roster_wf r → base ⊆ ro_members r → row_wf id m → size base < MAX_MEMBERS ∨ is_Some (base !! id) →
  size (<[id := m]> base) ≤ MAX_MEMBERS ∧ map_Forall row_wf (<[id := m]> base).
Proof.
  intros Hr Hb Hm Hs. pose proof (map_subseteq_size _ _ Hb) as Hsz. pose proof (rf_members r Hr). split.
  - destruct Hs as [Hs|[x Hx]]; [|rewrite map_size_insert_Some by (by exists x); lia]. rewrite map_size_insert. destruct (base !! id); cbn; lia.
  - apply map_Forall_insert_2; [done|]. intros i x Hx. apply (rf_rows r Hr). by eapply lookup_weaken.
Qed.

Lemma hex_lower n : (0 ≤ n < 16)%Z → lower_hex (hex_digit n) = true.
Proof. intros Hn. assert (n ∈ [0;1;2;3;4;5;6;7;8;9;10;11;12;13;14;15]%Z) as Hin by (rewrite !elem_of_cons; lia). by repeat (apply elem_of_cons in Hin as [->|Hin]; [done|]); apply not_elem_of_nil in Hin. Qed.

Lemma hex_encode_spec s : length (hex_encode s) = 2 * length s ∧ Forall (fun c => lower_hex c = true) (hex_encode s).
Proof.
  induction s as [|c s [IH1 IH2]]; [done|]. pose proof (byte_range c) as Hb.
  change (hex_encode (c :: s)) with (hex_digit (byte c / 16) :: hex_digit (byte c mod 16) :: hex_encode s). split; [cbn; lia|].
  repeat constructor; [apply hex_lower|apply hex_lower|done]; [split; [apply Z.div_pos; lia|apply Z.div_lt_upper_bound; lia]|apply Z.mod_pos_bound; lia].
Qed.

Section Digests.
(** SHA-256 has digests of 32 bytes. *)
Context (Hsha : ∀ s, length (sha256 s) = 32).

Lemma hash_token_is_hash t : is_hash (hash_token t) = true.
Proof.
  unfold is_hash, hash_token. destruct (hex_encode_spec (sha256 t)) as [Hl Hf]. rewrite Hl, Hsha. apply andb_true_iff. split; [done|].
  apply forallb_forall. intros c Hc. rewrite Forall_forall in Hf. by apply Hf, list_elem_of_In.
Qed.

Lemma fresh_row disk id name now ep cred bound : admissible disk id name cred → row_wf id (fresh_member id name now ep cred bound).
Proof. intros (Hv & _ & Hn & _). split; try done. apply hash_token_is_hash. Qed.

Lemma writes_wf disk now c after : roster_wf disk → writes disk now c after → roster_wf after.
Proof.
  intros Hd Hw. destruct Hw as [buf r Hsz Ht|inv id name cred r Had Hfree Hinv Ht Hsz|op id name ep cred r Had Hfree Ht Hsz|id m r Hm Hr|id name m Hn Hm Hr|id m Hm|cid pid fp r Hfp].
  - pose proof (expire_wf now disk Hd) as [Hv Hm Hi Hc Hp Hf Hr]. split; try done. cbn [ro_invites with_invites]. rewrite map_size_insert.
    subst r. destruct (_ !! _); cbn -[MAX_INVITES] in *; lia.
  - pose proof (expire_wf now disk Hd) as He. destruct (insert_member_wf r id (fresh_member id name now None cred (hash_token inv)) (make_room (ro_members r)) He)
      as [H1 H2]; [apply make_room_sub|by eapply fresh_row|done|]. destruct He as [Hv Hm Hi Hc Hp Hf Hr]. split; try done. cbn [ro_invites with_invites with_members].
    etrans; [|exact Hi]. apply map_subseteq_size, delete_subseteq.
  - pose proof (expire_wf now disk Hd) as He.
    destruct (insert_member_wf r id (fresh_member id name now (Some (lit "https://" ++ ep.1)) cred (hash_token (lit "nodes-v2:" ++ op))) (ro_members r) He)
      as [H1 H2]; [done|by eapply fresh_row|done|]. by destruct He.
  - pose proof (expire_wf now disk Hd) as He. pose proof (rf_rows _ He id m Hm) as [W1 W2 W3 W4 W5].
    destruct (insert_member_wf r id (with_view m (with_state (mb_view m) Active None)) (ro_members r) He) as [H1 H2]; [done|by split|right; by exists m|]. by destruct He.
  - pose proof (rf_rows _ Hd id m Hm) as [W1 W2 W3 W4 W5].
    destruct (insert_member_wf disk id (with_view m (with_name (mb_view m) name)) (ro_members disk) Hd) as [H1 H2]; [done|by split|right; by exists m|]. by destruct Hd.
  - pose proof (rf_rows _ Hd id m Hm) as [W1 W2 W3 W4 W5].
    destruct (insert_member_wf disk id (with_view m (with_state (mb_view m) Revoked (mv_expires_at (mb_view m)))) (ro_members disk) Hd) as [H1 H2];
      [done|by split|right; by exists m|]. by destruct Hd.
  - pose proof (expire_wf now disk Hd) as [Hv Hm Hi Hc Hp Hf Hr]. by split.
Qed.

Lemma run_wf start history : roster_wf start → roster_wf (run start history).
Proof.
  intros H. unfold run. revert start H. induction history as [|c h IH]; intros start H; [done|]. cbn [foldl]. apply IH.
  destruct (call_settled start c) as [->|[_ Hw]]; [done|by eapply writes_wf].
Qed.

(** ** Where an admission comes from *)

(** The call brings the node in with a credential of this hash. *)
Definition brings (c : Call) (id credential_hash : str) : Prop :=
  match c with
  | CEnroll _ id' _ cred | CAdmit _ id' _ _ cred => id' = id ∧ hash_token cred = credential_hash
  | _ => False
  end.

(** An enrolment rests on an invitation issued before, in time. *)
Definition invited (before : list Step) (c : Step) : Prop :=
  match sp_call c with
  | CEnroll inv _ _ _ => ∃ c' buf, c' ∈ before ∧ sp_call c' = CInvite buf ∧ (generate_token buf).2 = hash_token inv ∧ (sp_now c < sp_now c' + INVITE_TTL)%Z
  | _ => True
  end.

Definition not_revoked_in (id : str) (steps : list Step) : Prop := ∀ c, c ∈ steps → sp_call c = CRevoke id → sp_io c = Lost.

Definition activated_in (id : str) (deadline : Z) (steps : list Step) : Prop := ∃ c, c ∈ steps ∧ sp_call c = CActivate id ∧ (sp_now c < deadline)%Z.

Record earned (h : list Step) (id : str) (m : Member) (before : list Step) (c : Step) (after : list Step) : Prop := {
  ea_history : h = before ++ c :: after;
  ea_brings : brings (sp_call c) id (mb_credential_hash m);
  ea_invited : invited before c;
  ea_time : mv_admitted_at (mb_view m) = sp_now c;
  ea_kept : not_revoked_in id after;
  ea_active : mv_state (mb_view m) = Active → activated_in id (sp_now c + PENDING_TTL) after;
}.

Record accounted (h : list Step) (disk : Roster) : Prop := {
  ac_members : ∀ id m, ro_members disk !! id = Some m → is_revoked m = false → ∃ before c after, earned h id m before c after;
  ac_invites : ∀ hash t, ro_invites disk !! hash = Some t →
    ∃ c buf, c ∈ h ∧ sp_call c = CInvite buf ∧ (generate_token buf).2 = hash ∧ t = (sp_now c + INVITE_TTL)%Z;
}.

Lemma earned_extend h c' id m m' before c after :
  earned h id m before c after → mb_credential_hash m' = mb_credential_hash m → mv_admitted_at (mb_view m') = mv_admitted_at (mb_view m) →
  (mv_state (mb_view m') = Active → mv_state (mb_view m) = Active ∨ sp_call c' = CActivate id ∧ (sp_now c' < sp_now c + PENDING_TTL)%Z) →
  (sp_call c' = CRevoke id → sp_io c' = Lost) →
  earned (h ++ [c']) id m' before c (after ++ [c']).
Proof.
  intros [Hh Hb Hi Ht Hk Ha] Hc Hat Hst Hr. split; try congruence.
  - by rewrite Hh, <- app_assoc.
  - intros x Hx Ex. apply elem_of_app in Hx as [Hx|Hx%list_elem_of_singleton]; [by apply Hk|]. subst x. by apply Hr.
  - intros Hact. destruct (Hst Hact) as [H1|[H1 H2]].
    + destruct (Ha H1) as (x & Hx & Ex). exists x. split; [apply elem_of_app; by left|done].
    + exists c'. split; [apply elem_of_app; right; by apply list_elem_of_singleton|done].
Qed.

Lemma expired_state now m : mv_state (mb_view (expire_member now m)) = mv_state (mb_view m) ∨ is_revoked (expire_member now m) = true.
Proof. unfold expire_member. destruct (_ && _); [right|left]; done. Qed.

Lemma expire_accounted h c' now disk : accounted h disk → (∀ id, sp_call c' = CRevoke id → sp_io c' = Lost) → accounted (h ++ [c']) (expire now disk).
Proof.
  intros [Hm Hi] Hc. split.
  - intros id m Hid Hlive. rewrite expire_members in Hid. apply fmap_Some in Hid as (m0 & Hid & ->).
    destruct (expire_member_same now m0) as (_ & _ & E3 & _ & E5 & _). destruct (expired_state now m0) as [Es|Es]; [|congruence].
    destruct (Hm id m0 Hid) as (before & c & after & He). { unfold is_revoked in *. by rewrite Es in Hlive. }
    exists before, c, (after ++ [c']). apply (earned_extend h c' id m0); try done; [|by apply Hc]. intros Hact. left. by rewrite <- Es.
  - intros hash t Ht. apply expire_invites in Ht as [Ht _]. destruct (Hi hash t Ht) as (c & buf & Hin & E). exists c, buf. split; [apply elem_of_app; by left|done].
Qed.

(** Rows that were replaced by one. *)
Lemma accounted_insert (h : list Step) (r : Roster) (id : str) (m : Member) (base : gmap str Member) (inv : gmap str Z) (new : Roster) :
  accounted h r → base ⊆ ro_members r → inv ⊆ ro_invites r → ro_members new = <[id := m]> base → ro_invites new = inv →
  (is_revoked m = false → ∃ before c after, earned h id m before c after) → accounted h new.
Proof.
  intros [Hm Hi] Hb Hinv En Ei Hnew. split.
  - intros id' m' Hid Hlive. rewrite En in Hid. apply lookup_insert_Some in Hid as [[<- <-]|[_ Hid]]; [by apply Hnew|].
    apply Hm; [by eapply lookup_weaken|done].
  - intros hash t Ht. rewrite Ei in Ht. apply Hi. by eapply lookup_weaken.
Qed.

Lemma revoke_effective disk c id m :
  roster_wf disk → sp_call c = CRevoke id → sp_io c ≠ Lost → ro_members disk !! id = Some m →
  ∃ m', ro_members (call disk c) !! id = Some m' ∧ is_revoked m' = true.
Proof.
  intros Hwf Hc Hio Hm. unfold call. rewrite (wf_opens disk Hwf), Hc. cbv zeta. unfold revoke. cbn [ms_roster]. rewrite Hm.
  eexists. destruct (sp_io c); [|done|]; (split; [apply lookup_insert_eq|done]).
Qed.

(** No call but an effective revocation of the node ends its admission. *)
Lemma live_not_revoked disk c id m :
  roster_wf disk → ro_members (call disk c) !! id = Some m → is_revoked m = false → is_Some (ro_members disk !! id) →
  sp_call c = CRevoke id → sp_io c = Lost.
Proof.
  intros Hwf Hm Hlive [m0 Hm0] Hc. destruct (sp_io c) eqn:Eio; [|done|];
    destruct (revoke_effective disk c id m0 Hwf Hc) as (m' & Hm' & Hr); try done; (by rewrite Eio) || (rewrite Hm in Hm'; injection Hm' as <-; congruence).
Qed.

Lemma extend_accounted h disk c :
  (∀ id m, ro_members disk !! id = Some m → is_revoked m = false → sp_call c = CRevoke id → sp_io c = Lost) →
  accounted h disk → accounted (h ++ [c]) disk.
Proof.
  intros Hc [Hm Hi]. split.
  - intros id m Hid Hlive. destruct (Hm id m Hid Hlive) as (before & x & after & He). exists before, x, (after ++ [c]).
    apply (earned_extend h c id m); try done; [by left|]. by apply (Hc id m).
  - intros hash t Ht. destruct (Hi hash t Ht) as (x & buf & Hin & E). exists x, buf. split; [apply elem_of_app; by left|done].
Qed.

Lemma unchanged_accounted h disk c : roster_wf disk → accounted h disk → call disk c = disk → accounted (h ++ [c]) disk.
Proof.
  intros Hwf Hac Hcall. apply extend_accounted; [|done]. intros id m Hid Hlive. apply (live_not_revoked disk c id m Hwf); [by rewrite Hcall|done|by exists m].
Qed.

Lemma fresh_earned h c id name ep cred bound :
  brings (sp_call c) id (hash_token cred) → invited h c → earned (h ++ [c]) id (fresh_member id name (sp_now c) ep cred bound) h c [].
Proof. intros Hb Hi. split; try done. by intros x Hx%not_elem_of_nil. Qed.

Lemma activated_earned h c id now disk m :
  roster_wf disk → accounted h disk → sp_call c = CActivate id → sp_now c = now → ro_members (expire now disk) !! id = Some m → is_revoked m = false →
  ∃ before x after, earned (h ++ [c]) id (with_view m (with_state (mb_view m) Active None)) before x after.
Proof.
  intros Hwf [Hm _] Hc Hnow Hid Hlive. rewrite expire_members in Hid. apply fmap_Some in Hid as (m0 & Hid & ->).
  destruct (expire_member_same now m0) as (_ & _ & E3 & _ & E5 & E6). destruct (expired_state now m0) as [Es|Es]; [|congruence].
  destruct (Hm id m0 Hid) as (before & x & after & He). { unfold is_revoked in *. by rewrite Es in Hlive. }
  exists before, x, (after ++ [c]). apply (earned_extend h c id m0); try done; [|congruence]. intros _.
  pose proof (rw_term id m0 (rf_rows _ Hwf id m0 Hid)) as Ht. unfold term_ok in Ht. destruct (mv_state (mb_view m0)) eqn:E0; [right|by left|].
  - unfold is_revoked, expire_member in Hlive. rewrite E0, Ht in Hlive. cbn -[PENDING_TTL] in Hlive.
    destruct (Z.leb_spec (mv_admitted_at (mb_view m0) + PENDING_TTL) now); cbn in Hlive; [done|].
    split; [done|]. rewrite Hnow, <- (ea_time _ _ _ _ _ _ He). lia.
  - unfold is_revoked in Hlive. by rewrite Es in Hlive.
Qed.

Lemma writes_accounted h disk c after :
  roster_wf disk → accounted h disk → writes disk (sp_now c) (sp_call c) after → call disk c = after → accounted (h ++ [c]) after.
Proof.
  intros Hwf Hac Hw Hcall. inversion Hw as [buf r Hsz Ht Ec Ea|inv id name cred r Had Hfree [t Hinv] Ht Hsz Ec Ea|op id name ep cred r Had Hfree Ht Hsz Ec Ea
    |id m r Hm Hr Ec Ea|id name m Hn Hm Hr Ec Ea|id m Hm Ec Ea|cid pid fp r Hfp Ec Ea].
  all: try (assert (accounted (h ++ [c]) (expire (sp_now c) disk)) as He by (apply expire_accounted; [done|]; intros id'; by rewrite <- Ec)).
  - destruct He as [Hm Hi]. split; [exact Hm|]. intros hash t Hht. cbn [ro_invites with_invites] in Hht. apply lookup_insert_Some in Hht as [[<- <-]|[_ Hht]]; [|by apply Hi].
    exists c, buf. split_and!; try done. apply elem_of_app. right. by apply list_elem_of_singleton.
  - eapply (accounted_insert _ r id _ (make_room (ro_members r)) (delete (hash_token inv) (ro_invites r)) _ He);
      [apply make_room_sub|apply delete_subseteq|done|done|]. intros _. exists h, c, []. apply fresh_earned; [by rewrite <- Ec|].
    unfold invited. rewrite <- Ec. apply expire_invites in Hinv as [Hinv Hlt]. destruct (ac_invites _ _ Hac _ _ Hinv) as (x & buf & Hin & Hx & Hh & ->). by exists x, buf.
  - eapply (accounted_insert _ r id _ (ro_members r) (ro_invites r) _ He); try done. intros _. exists h, c, []. apply fresh_earned; [by rewrite <- Ec|].
    unfold invited. by rewrite <- Ec.
  - eapply (accounted_insert _ r id _ (ro_members r) (ro_invites r) _ He); try done. intros _. by eapply activated_earned.
  - assert (accounted (h ++ [c]) disk) as Hd by (apply extend_accounted; [|done]; intros id' m' _ _; by rewrite <- Ec).
    eapply (accounted_insert _ disk id _ (ro_members disk) (ro_invites disk) _ Hd); try done. intros _.
    destruct (ac_members _ _ Hd id m Hm Hr) as (before & x & rest & [H1 H2 H3 H4 H5 H6]). exists before, x, rest. by split.
  - assert (accounted (h ++ [c]) (with_members disk (delete id (ro_members disk)))) as Hd.
    { apply extend_accounted; [|destruct Hac as [H1 H2]; split; [|done]; intros id' m' Hid; apply H1; eapply lookup_weaken; [exact Hid|apply delete_subseteq]].
      intros id' m' Hid _. rewrite <- Ec. intros [= ->]. cbn in Hid. by rewrite lookup_delete_eq in Hid. }
    eapply (accounted_insert _ _ id (with_view m (with_state (mb_view m) Revoked (mv_expires_at (mb_view m)))) (delete id (ro_members disk)) (ro_invites disk) _ Hd);
      try done. cbn [ro_members with_members]. by rewrite insert_delete_eq.
  - by destruct He.
Qed.

Lemma history_accounted start h : roster_wf start → accounted [] start → accounted h (run start h) ∧ roster_wf (run start h).
Proof.
  intros Hwf Hac. induction h as [|c h [IH1 IH2]] using rev_ind; [done|]. unfold run in *. rewrite foldl_app. cbn [foldl]. set (disk := foldl call start h) in *.
  destruct (call_settled disk c) as [E|[_ Hw]].
  - rewrite E. split; [by apply unchanged_accounted|done].
  - split; [by apply (writes_accounted h disk)|by eapply writes_wf].
Qed.

Lemma initial_ok cid pid fp start : initialize cid pid fp = Ok start → roster_wf start ∧ accounted [] start.
Proof.
  unfold initialize. destruct (_ && _) eqn:E; [|done]. intros [= <-]. apply andb_true_iff in E as [E Hf]. apply andb_true_iff in E as [Hc Hp]. split.
  - split; try done; cbn [initial_roster ro_members ro_invites]; try (rewrite map_size_empty; apply Nat.le_0_l); try apply map_Forall_empty.
  - split; cbn [initial_roster ro_members ro_invites]; intros ? ? H; by rewrite lookup_empty in H.
Qed.

(** ** Who is let in *)

Lemma authenticate_Some s credential now id :
  authenticate s credential now = Some id →
  ∃ k m, ro_members (ms_roster s) !! k = Some m ∧ mv_node_id (mb_view m) = id ∧ mb_credential_hash m = hash_token credential ∧ admits now m = true.
Proof.
  unfold authenticate. assert (∀ l (acc : option str), (∀ p, p ∈ l → ro_members (ms_roster s) !! p.1 = Some p.2) →
    foldl (fun found p => if verify_token credential (mb_credential_hash p.2) && admits now p.2 then Some (mv_node_id (mb_view p.2)) else found) acc l = Some id →
    acc = Some id ∨ ∃ k m, ro_members (ms_roster s) !! k = Some m ∧ mv_node_id (mb_view m) = id ∧ mb_credential_hash m = hash_token credential ∧ admits now m = true) as H.
  { induction l as [|p l IH]; intros acc Hl E; [by left|]. cbn [foldl] in E. apply IH in E; [|intros q Hq; apply Hl; by right]. destruct E as [E|E]; [|by right].
    destruct (verify_token _ _ && _) eqn:Ev; [|by left]. injection E as <-. apply andb_true_iff in Ev as [Ev Ha]. right. exists p.1, p.2. split_and!; try done.
    - apply Hl. by left.
    - unfold verify_token in Ev. by apply str_eqb_spec in Ev. }
  intros E. apply H in E as [E|E]; [done|done|]. intros p Hp. by apply rows_spec.
Qed.

(** C34: a node is let in only on an admission that still holds.  In any history
    of calls, with lost and with doubtful writes, at whatever times they were
    made, a credential that authenticates as a node was given at an enrolment or
    a prepared admission of that node; an enrolment used an invitation issued
    before, while it was valid; no revocation of the node was saved since; and
    the node was activated before the admission lapsed, or it has not lapsed. *)
Theorem access_is_earned cid pid fp start history credential now id :
  initialize cid pid fp = Ok start →
  authenticate {| ms_roster := run start history; ms_disk := run start history |} credential now = Some id →
  ∃ before c after, history = before ++ c :: after ∧ brings (sp_call c) id (hash_token credential) ∧ invited before c ∧ not_revoked_in id after
    ∧ ((now < sp_now c + PENDING_TTL)%Z ∨ activated_in id (sp_now c + PENDING_TTL) after).
Proof.
  intros [Hwf Hac]%initial_ok Hau. destruct (history_accounted start history Hwf Hac) as [Ha Hw].
  apply authenticate_Some in Hau as (k & m & Hm & Hid & Hcr & Had). cbn [ms_roster] in Hm. pose proof (rf_rows _ Hw k m Hm) as [H1 _ _ _ H5]. rewrite Hid in H1. subst k.
  unfold admits in Had. apply andb_true_iff in Had as [Hlive Hterm]. apply negb_true_iff in Hlive.
  destruct (ac_members _ _ Ha id m Hm Hlive) as (before & c & after & [E1 E2 E3 E4 E5 E6]). exists before, c, after. rewrite Hcr in E2. split_and!; try done.
  unfold term_ok in H5. unfold is_revoked in Hlive. destruct (mv_state (mb_view m)) eqn:Es; [left|right; by apply E6|done].
  rewrite H5, E4 in Hterm. by apply Z.ltb_lt in Hterm.
Qed.

(** ** Invitations are used once *)

#[export] Instance view_eq_dec : EqDecision MemberView.
Proof. solve_decision. Defined.
#[export] Instance member_eq_dec : EqDecision Member.
Proof. solve_decision. Defined.
#[export] Instance roster_eq_dec : EqDecision Roster.
Proof. solve_decision. Defined.

Definition issues_it (hash : str) (c : Step) : bool :=
  match sp_call c with CInvite buf => str_eqb (generate_token buf).2 hash | _ => false end.

(** An enrolment with the invitation that reached the disk. *)
Definition enrols_with (hash : str) (disk : Roster) (c : Step) : bool :=
  match sp_call c with
  | CEnroll inv _ _ _ => str_eqb (hash_token inv) hash && negb (bool_decide (call disk c = disk))
  | _ => false
  end.

Fixpoint issued (hash : str) (h : list Step) : nat :=
  match h with [] => 0 | c :: h => (if issues_it hash c then 1 else 0) + issued hash h end.

Fixpoint enrolments (hash : str) (disk : Roster) (h : list Step) : nat :=
  match h with [] => 0 | c :: h => (if enrols_with hash disk c then 1 else 0) + enrolments hash (call disk c) h end.

Definition open_invite (hash : str) (disk : Roster) : nat := match ro_invites disk !! hash with Some _ => 1 | None => 0 end.

Lemma open_invite_sub hash r r' : ro_invites r' ⊆ ro_invites r → open_invite hash r' ≤ open_invite hash r.
Proof. intros H. unfold open_invite. destruct (ro_invites r' !! hash) eqn:E; [|lia]. by rewrite (lookup_weaken _ _ _ _ E H). Qed.

Lemma expire_invites_sub now disk : ro_invites (expire now disk) ⊆ ro_invites disk.
Proof. apply map_filter_subseteq. Qed.

(** A call pays for the invitation it uses. *)
Lemma call_pays hash disk c :
  open_invite hash (call disk c) + (if enrols_with hash disk c then 1 else 0) ≤ open_invite hash disk + (if issues_it hash c then 1 else 0).
Proof.
  unfold enrols_with, issues_it. destruct (call_settled disk c) as [E|[_ Hw]].
  { rewrite E, bool_decide_eq_true_2 by done. destruct (sp_call c); rewrite ?andb_false_r; lia. }
  pose proof (open_invite_sub hash _ _ (expire_invites_sub (sp_now c) disk)) as Hex. remember (call disk c) as after eqn:Ea.
  destruct Hw as [buf r Hsz Ht|inv id name cred r Had Hfree [t Hinv] Ht Hsz|op id name ep cred r Had Hfree Ht Hsz|id m r Hm Hr|id name m Hn Hm Hr|id m Hm|cid pid fp r Hfp];
    try (change (open_invite hash (expire (sp_now c) disk) + 0 ≤ open_invite hash disk + 0); lia); try (change (open_invite hash disk + 0 ≤ open_invite hash disk + 0); lia).
  - unfold open_invite in *. cbn [ro_invites with_invites]. destruct (str_eqb (generate_token buf).2 hash) eqn:Eh.
    + destruct (<[_ := _]> _ !! hash); lia.
    + rewrite lookup_insert_ne; [subst r; lia|]. intros E. by rewrite (proj2 (str_eqb_spec _ _) E) in Eh.
  - destruct (str_eqb (hash_token inv) hash) eqn:Eh; cbn [andb].
    + apply str_eqb_spec in Eh as <-. assert (open_invite (hash_token inv) disk = 1) as ->.
      { unfold open_invite. apply expire_invites in Hinv as [-> _]. done. }
      unfold open_invite at 1. cbn [ro_invites with_members with_invites]. rewrite lookup_delete_eq. destruct (negb _); lia.
    + rewrite !Nat.add_0_r. etrans; [|exact Hex]. apply open_invite_sub. apply delete_subseteq.
Qed.

(** C35: an invitation admits at most one node.  In any history, the enrolments
    with an invitation that reached the disk are no more than the times it was
    issued; since its secret is drawn at random, that is once. *)
Theorem invitation_admits_once cid pid fp start history hash :
  initialize cid pid fp = Ok start → enrolments hash start history ≤ issued hash history.
Proof.
  intros Hi. assert (∀ h disk, enrolments hash disk h ≤ open_invite hash disk + issued hash h) as H.
  { induction h as [|c h IH]; intros disk; cbn [enrolments issued]; [lia|]. pose proof (call_pays hash disk c). pose proof (IH (call disk c)). lia. }
  specialize (H history start). unfold initialize in Hi. destruct (_ && _); [|done]. injection Hi as <-. unfold open_invite in H. cbn in H. by rewrite lookup_empty in H.
Qed.

(** ** The store never locks itself out *)

Lemma authenticate_found s k m credential now :
  ro_members (ms_roster s) !! k = Some m → mb_credential_hash m = hash_token credential → admits now m = true → is_Some (authenticate s credential now).
Proof.
  intros Hm Hc Ha. unfold authenticate. assert ((k, m) ∈ rows (ro_members (ms_roster s))) as Hin by (by apply rows_spec).
  assert (∀ l (acc : option str), (k, m) ∈ l ∨ is_Some acc →
    is_Some (foldl (fun found p => if verify_token credential (mb_credential_hash p.2) && admits now p.2 then Some (mv_node_id (mb_view p.2)) else found) acc l)) as H.
  { induction l as [|p l IH]; intros acc [Hp|Hp]; [by apply not_elem_of_nil in Hp|done|..]; cbn [foldl]; apply IH.
    - apply elem_of_cons in Hp as [<-|Hp]; [|by left]. right. cbn [snd]. unfold verify_token. rewrite (proj2 (str_eqb_spec _ _) (eq_sym Hc)), Ha. done.
    - right. by destruct (_ && _). }
  apply H. by left.
Qed.

Lemma view_at_admits now id m : row_wf id m → mv_state (view_at now m) ≠ Revoked ↔ admits now m = true.
Proof.
  intros [_ _ _ _ Ht]. unfold view_at, admits, is_revoked, term_ok in *. destruct (mv_state (mb_view m)) eqn:Es.
  - rewrite Ht, (bool_decide_eq_true_2 (Pending = Pending)), (bool_decide_eq_false_2 (Pending = Revoked)) by done. cbn [andb negb].
    destruct (Z.leb_spec (mv_admitted_at (mb_view m) + PENDING_TTL) now) as [Hle|Hle].
    + rewrite (proj2 (Z.ltb_ge _ _) Hle). by split; [intros []|].
    + rewrite (proj2 (Z.ltb_lt _ _) Hle), Es. by split.
  - rewrite Ht, (bool_decide_eq_false_2 (Active = Pending)), (bool_decide_eq_false_2 (Active = Revoked)) by done. cbn [andb negb]. rewrite Es. by split.
  - rewrite (bool_decide_eq_false_2 (Revoked = Pending)), (bool_decide_eq_true_2 (Revoked = Revoked)) by done. cbn [andb negb]. rewrite Es. by split; [intros []|].
Qed.

(** C36: whatever was saved can be opened again, and the roster shown agrees with
    the door.  After any history the store on disk opens, within its limits; a
    row is shown as pending or active exactly when its credential is accepted at
    that time, and who authenticates is shown as such. *)
Theorem roster_reopens cid pid fp start history now :
  initialize cid pid fp = Ok start →
  ∃ s, open_store (run start history) = Ok s
    ∧ (∀ v, v ∈ views s now ∧ mv_state v ≠ Revoked ↔
         ∃ m, ro_members (run start history) !! mv_node_id v = Some m ∧ v = view_at now m ∧ admits now m = true
           ∧ ∀ credential, hash_token credential = mb_credential_hash m → is_Some (authenticate s credential now))
    ∧ (∀ credential id, authenticate s credential now = Some id → ∃ v, v ∈ views s now ∧ mv_node_id v = id ∧ mv_state v ≠ Revoked).
Proof.
  intros [Hwf Hac]%initial_ok. destruct (history_accounted start history Hwf Hac) as [_ Hw]. set (disk := run start history) in *.
  exists {| ms_roster := disk; ms_disk := disk |}. split; [by apply wf_opens|].
  assert (∀ k m, ro_members disk !! k = Some m → mv_node_id (view_at now m) = k) as Hid.
  { intros k m Hm. pose proof (rw_id k m (rf_rows _ Hw k m Hm)) as <-. unfold view_at. by destruct (_ && _). }
  assert (∀ v, v ∈ views {| ms_roster := disk; ms_disk := disk |} now ↔ ∃ k m, ro_members disk !! k = Some m ∧ v = view_at now m) as Hv.
  { intros v. unfold views. rewrite list_elem_of_fmap. split; [intros ([k m] & -> & Hin%rows_spec)|intros (k & m & Hm & ->)]; [by exists k, m|].
    exists (k, m). split; [done|by apply rows_spec]. }
  split.
  - intros v. rewrite Hv. split.
    + intros [(k & m & Hm & ->) Hs]. pose proof (rf_rows _ Hw k m Hm) as Hrow. apply (view_at_admits now k m Hrow) in Hs. exists m. rewrite (Hid k m Hm).
      split_and!; try done. intros credential Hc. by eapply (authenticate_found _ k m).
    + intros (m & Hm & -> & Ha & _). pose proof (rf_rows _ Hw _ m Hm) as Hrow. split; [by eexists _, m|by apply (view_at_admits now _ m Hrow)].
  - intros credential id (k & m & Hm & Hmid & _ & Ha)%authenticate_Some. cbn [ms_roster] in Hm. pose proof (rf_rows _ Hw k m Hm) as Hrow. exists (view_at now m).
    split_and!; [apply Hv; by exists k, m| |by apply (view_at_admits now k m Hrow)]. rewrite (Hid k m Hm), <- Hmid. symmetry. apply (rw_id k m Hrow).
Qed.
End Digests.
End Proofs.

(** ** A node joins *)

(** The last 32 bytes stand for a digest. *)
Definition tail_sha : Sha2Crate := {| sha256 := fun s => take 32 (rev s ++ replicate 32 Ascii.zero) |}.

Lemma tail_sha_length s : length (@sha256 tail_sha s) = 32.
Proof. change (length (take 32 (rev s ++ replicate 32 Ascii.zero)) = 32). rewrite length_take, length_app, length_replicate. lia. Qed.

#[local] Existing Instance tail_sha.

Definition a_cluster : str := lit "00000000-0000-4000-8000-00000000000c".
Definition a_primary : str := lit "00000000-0000-4000-8000-000000000001".
Definition a_node : str := lit "00000000-0000-4000-8000-000000000002".
Definition a_fingerprint : str := replicate 64 "f"%char.
Definition a_credential : str := TOKEN_PREFIX ++ replicate 64 "a"%char.
Definition random_bytes : str := replicate 32 "z"%char.

Definition new_roster : Roster := initial_roster a_cluster a_primary a_fingerprint.

Definition joins : list Step :=
  [{| sp_call := CInvite random_bytes; sp_now := 100; sp_io := Written |};
   {| sp_call := CEnroll (generate_token random_bytes).1 a_node (lit "kitchen") a_credential; sp_now := 200; sp_io := Unsure |};
   {| sp_call := CActivate a_node; sp_now := 300; sp_io := Written |}].

Definition door (history : list Step) (now : Z) : option str :=
  authenticate {| ms_roster := run new_roster history; ms_disk := run new_roster history |} a_credential now.

(** Days later the activated node is known; after a revocation it is not. *)
Lemma access_is_earned_witness :
  door joins 999999 = Some a_node
  ∧ door (joins ++ [{| sp_call := CRevoke a_node; sp_now := 400; sp_io := Written |}]) 999999 = None
  ∧ ∃ before c after, joins = before ++ c :: after ∧ invited before c ∧ activated_in a_node (sp_now c + PENDING_TTL) after.
Proof.
  assert (door joins 999999 = Some a_node) as E by (vm_compute; reflexivity). split_and!; [done|vm_compute; reflexivity|].
  destruct (access_is_earned tail_sha_length a_cluster a_primary a_fingerprint new_roster joins a_credential 999999 a_node) as (before & c & after & Hh & Hb & Hi & _ & Hn);
    [vm_compute; reflexivity|exact E|]. exists before, c, after. split; [exact Hh|]. split; [exact Hi|]. destruct Hn as [Hn|Hn]; [|exact Hn].
  assert (c ∈ joins) as Hc by (rewrite Hh; apply elem_of_app; right; by left). unfold joins in Hc. rewrite !elem_of_cons in Hc.
  exfalso. destruct Hc as [->|[->|[->|Hc]]]; cbn -[PENDING_TTL] in Hn; unfold PENDING_TTL in Hn; try lia. by apply not_elem_of_nil in Hc.
Defined.

(** A second node with the same invitation is turned away. *)
Lemma invitation_admits_once_witness :
  let again := {| sp_call := CEnroll (generate_token random_bytes).1 a_cluster (lit "attic") a_credential; sp_now := 201; sp_io := Written |} in
  enrolments (generate_token random_bytes).2 new_roster (joins ++ [again]) ≤ 1.
Proof.
  intros again. assert (issued (generate_token random_bytes).2 (joins ++ [again]) = 1) as <- by (vm_compute; reflexivity).
  apply (invitation_admits_once a_cluster a_primary a_fingerprint new_roster). vm_compute. reflexivity.
Defined.

Lemma roster_reopens_witness : ∃ s, open_store (run new_roster joins) = Ok s ∧ ∃ v, v ∈ views s 999999 ∧ mv_node_id v = a_node ∧ mv_state v ≠ Revoked.
Proof.
  destruct (roster_reopens tail_sha_length a_cluster a_primary a_fingerprint new_roster joins 999999) as (s & Ho & _ & Hv); [vm_compute; reflexivity|].
  exists s. split; [done|]. apply (Hv a_credential a_node). apply open_Ok in Ho as ->. vm_compute. reflexivity.
Defined.

(** A revoked prepared admission is remembered only until the node is admitted
    by another operation: revoke that one too, and the first operation with its
    old credential is accepted again. *)
Example revoked_admission_replayed :
  let step c := {| sp_call := c; sp_now := 100; sp_io := Written |} in
  let take_in op cred := step (CAdmit op a_node (lit "kitchen") (lit "10.0.0.2:8053", 8053%Z) cred) in
  let other := TOKEN_PREFIX ++ replicate 64 "b"%char in
  let once := [take_in a_cluster a_credential; step (CRevoke a_node)] in
  door (once ++ [take_in a_cluster a_credential]) 100 = None
  ∧ door (once ++ [take_in a_primary other; step (CRevoke a_node); take_in a_cluster a_credential]) 100 = Some a_node.
Proof. split; vm_compute; reflexivity. Qed.
