(* ===== verification/Convergence.v ===== *)
(** * Convergence of a cluster: [src/cluster/acknowledgement.rs], [src/cluster/state.rs] and [src/cluster/routes.rs]

    What the nodes report about the policy they hold and when the primary says
    that all of them hold it.  The handlers of the routes run under the lock of
    the configuration, one at a time, each on a store opened from disk; instants
    of the monotonic clock and times of the wall clock are arguments. *)

From S2P Require Import Prelude RustStr SortedSlice DnsTypes Domain Rules Decision Limits Ast Cidr Resolver ResolverProofs ResolverSwap LocalRecords Membership MembershipProofs.

(** ** Identities of a policy *)

Record ArtifactIdentity := {
  ai_primary_lineage : str;
  ai_policy_epoch : Z;
  ai_artifact_hash : str;
  ai_config_revision : str;
  ai_operator_policy_hash : str;
}.

Record ActiveArtifactAck := {
  aa_artifact : ArtifactIdentity;
  aa_local_config_revision : str;
  aa_daemon_instance_id : str;
  aa_resolver_generation : Z;
}.

#[export] Instance artifact_identity_eq_dec : EqDecision ArtifactIdentity.
Proof. solve_decision. Defined.
#[export] Instance active_ack_eq_dec : EqDecision ActiveArtifactAck.
Proof. solve_decision. Defined.

Definition valid_identity (i : ArtifactIdentity) : bool :=
  (0 <? ai_policy_epoch i)%Z && is_hash (ai_primary_lineage i) && is_hash (ai_artifact_hash i)
  && is_hash (ai_config_revision i) && is_hash (ai_operator_policy_hash i).

Definition valid_active_ack (a : ActiveArtifactAck) : bool :=
  valid_identity (aa_artifact a) && is_hash (aa_local_config_revision a) && negb (bool_decide (aa_daemon_instance_id a = []))
  && (length (aa_daemon_instance_id a) <=? 256) && (0 <? aa_resolver_generation a)%Z.

(** [Option::is_none_or] *)
Definition none_or {A} (f : A → bool) (o : option A) : bool := match o with Some a => f a | None => true end.

Record PeerObservation := { po_persisted : option ArtifactIdentity; po_active : option ActiveArtifactAck; po_last_ack : option Z }.

Definition no_observation : PeerObservation := {| po_persisted := None; po_active := None; po_last_ack := None |}.

(** [now.checked_duration_since(at)] against the limit. *)
Definition is_fresh_ack (last : option Z) (now stale : Z) : bool :=
  match last with Some t => (t <=? now)%Z && (now - t <=? stale)%Z | None => false end.

(** The same with [saturating_duration_since]. *)
Definition seen_within (last : option Z) (now stale : Z) : bool :=
  match last with Some t => (Z.max 0 (now - t) <=? stale)%Z | None => false end.

(** What an observation says of the policy wanted. *)
Definition holds_policy (o : PeerObservation) (desired : ArtifactIdentity) : bool :=
  bool_decide (po_persisted o = Some desired)
  && match po_active o with Some ack => valid_active_ack ack && bool_decide (aa_artifact ack = desired) | None => false end.

(** ** Peers known by address *)

Definition MAX_PEERS : nat := 64.

(** The decoded file: its format and the addresses. *)
Record ExpectedPeers := { ep_format : Z; ep_peers : list IpAddr }.

(** The order of the standard library: IPv4 first, then by value. *)
Definition ip_lt (a b : IpAddr) : bool :=
  match a, b with
  | V4 x, V4 y | V6 x, V6 y => (x <? y)%Z
  | V4 _, V6 _ => true
  | V6 _, V4 _ => false
  end.

Fixpoint ascending_ips (l : list IpAddr) : bool :=
  match l with a :: (b :: _) as rest => ip_lt a b && ascending_ips rest | _ => true end.

Definition check_roster (e : ExpectedPeers) : bool :=
  (ep_format e =? 1)%Z && (length (ep_peers e) <=? MAX_PEERS) && ascending_ips (ep_peers e).

Record PeerAcknowledgements := { pa_peers : gmap IpAddr PeerObservation; pa_available : bool }.

(** The addresses of a set in order. *)
Definition ip_le (a b : IpAddr) : Prop := ip_lt b a = false.
#[export] Instance ip_le_dec a b : Decision (ip_le a b).
Proof. unfold ip_le. apply _. Defined.

Definition in_order (s : gset IpAddr) : list IpAddr := merge_sort ip_le (elements s).

(** The store file of the peers: absent, or what it decodes to. *)
Definition peers_file : Type := option (option ExpectedPeers).

(** [load]: [opened] is whether the store opened with nothing unexpected in it. *)
Definition peers_load (opened : bool) (io : WriteOutcome) (file : peers_file) : peers_file * result str PeerAcknowledgements :=
  if negb opened then (file, Err (lit "store unavailable"))
  else match file with
       | Some (Some e) =>
         if check_roster e then (file, Ok {| pa_peers := list_to_map (map (fun ip => (ip, no_observation)) (ep_peers e)); pa_available := true |})
         else (file, Err (lit "ArtifactAcknowledgementConflict: invalid expected peer roster"))
       | Some None => (file, Err (lit "ArtifactAcknowledgementConflict: invalid expected peer roster"))
       | None =>
         let new := Some (Some {| ep_format := 1; ep_peers := [] |}) in
         match io with
         | Written => (new, Ok {| pa_peers := ∅; pa_available := true |})
         | Lost => (None, Err (lit "write failed"))
         | Unsure => (new, Err (lit "write failed"))
         end
       end.

(** What [record] finds: the same master and root, the store opened. *)
Record TreeCheck := { tc_same_master : bool; tc_same_root : bool; tc_opened : bool; tc_io : WriteOutcome }.

Definition peers_record (t : TreeCheck) (file : peers_file) (p : PeerAcknowledgements) (ip : IpAddr) (persisted : option ArtifactIdentity)
    (active : option ActiveArtifactAck) (now : Z) : peers_file * PeerAcknowledgements * result str () :=
  let p := {| pa_peers := match pa_peers p !! ip with Some _ => <[ip := no_observation]> (pa_peers p) | None => pa_peers p end; pa_available := false |} in
  let refuse e := (file, p, Err e) in
  if negb (tc_same_master t) then refuse (lit "ArtifactAcknowledgementConflict: different configuration master")
  else if negb (tc_same_root t) then refuse (lit "ArtifactAcknowledgementConflict: configuration root changed")
  else if negb (tc_opened t) then refuse (lit "store unavailable")
  else match file with
  | None => refuse (lit "ArtifactAcknowledgementConflict: expected peer roster disappeared")
  | Some None => refuse (lit "ArtifactAcknowledgementConflict: invalid expected peer roster")
  | Some (Some stored) =>
    if negb (check_roster stored) then refuse (lit "ArtifactAcknowledgementConflict: invalid expected peer roster")
    else
      let expected : gset IpAddr := list_to_set (ep_peers stored) in
      if negb (bool_decide (dom (pa_peers p) ⊆ expected)) then refuse (lit "ArtifactAcknowledgementConflict: expected peer was removed")
      else if negb (bool_decide (ip ∈ expected)) && (MAX_PEERS <=? size expected) then refuse (lit "ArtifactAcknowledgementLimit: expected peer roster is full")
      else
        let admitted := expected ∪ {[ip]} in
        let next := Some (Some {| ep_format := 1; ep_peers := in_order admitted |}) in
        let '(file, saved) := if bool_decide (ip ∈ expected) then (file, Ok ())
                              else match tc_io t with Written => (next, Ok ()) | Lost => (file, Err (lit "write failed")) | Unsure => (next, Err (lit "write failed")) end in
        match saved with
        | Err e => (file, p, Err e)
        | Ok _ =>
          let peers := pa_peers p ∪ gset_to_gmap no_observation admitted in
          let p := {| pa_peers := peers; pa_available := false |} in
          if negb (none_or valid_identity persisted) then (file, p, Err (lit "ArtifactAcknowledgementInvalid: persisted identity"))
          else if negb (none_or valid_active_ack active) then (file, p, Err (lit "ArtifactAcknowledgementInvalid: active identity"))
          else
            let last_ack := match active with Some _ => Some now | None => None end in
            (file, {| pa_peers := <[ip := {| po_persisted := persisted; po_active := active; po_last_ack := last_ack |}]> peers; pa_available := true |}, Ok ())
        end
  end.

Definition peers_converged (p : PeerAcknowledgements) (desired : ArtifactIdentity) (now stale : Z) : bool :=
  pa_available p && negb (bool_decide (pa_peers p = ∅)) && valid_identity desired
  && bool_decide (map_Forall (fun _ o => (is_fresh_ack (po_last_ack o) now stale && holds_policy o desired) = true) (pa_peers p)).

(** ** Nodes known by identity *)

Record NodeAcknowledgement := {
  na_persisted : option ArtifactIdentity;
  na_active : option ActiveArtifactAck;
  na_persisted_corpus : option str;
  na_active_corpus : option str;
}.

Record NodeObservation := { no_peer : PeerObservation; no_persisted_corpus : option str; no_active_corpus : option str; no_endpoint : str }.

Abbreviation NodeAcknowledgements := (gmap str NodeObservation).

Definition acks_forget (acks : NodeAcknowledgements) (node_id : str) : NodeAcknowledgements := delete node_id acks.

Definition acks_record (acks : NodeAcknowledgements) (node_id endpoint : str) (a : NodeAcknowledgement) (now : Z) : NodeAcknowledgements * result str () :=
  let acks := delete node_id acks in
  if negb (none_or valid_identity (na_persisted a) && none_or valid_active_ack (na_active a)) then (acks, Err (lit "invalid node acknowledgement"))
  else if negb (none_or is_hash (na_persisted_corpus a) && none_or is_hash (na_active_corpus a)) then (acks, Err (lit "invalid corpus acknowledgement"))
  else (<[node_id := {| no_peer := {| po_persisted := na_persisted a; po_active := na_active a; po_last_ack := Some now |};
                        no_persisted_corpus := na_persisted_corpus a; no_active_corpus := na_active_corpus a; no_endpoint := endpoint |}]> acks, Ok ()).

Definition sync_text (o : NodeObservation) (state : MemberState) (desired : option ArtifactIdentity) (corpus : option str) (now stale : Z) : str :=
  if bool_decide (state = Revoked) then lit "revoked"
  else if negb (seen_within (po_last_ack (no_peer o)) now stale) then lit "stale"
  else if bool_decide (is_Some desired) && bool_decide (aa_artifact <$> po_active (no_peer o) = desired)
          && bool_decide (is_Some corpus) && bool_decide (no_active_corpus o = corpus) then lit "current"
  else lit "pending".

(** [enrich], one row. *)
Definition enrich_member (acks : NodeAcknowledgements) (desired : option ArtifactIdentity) (corpus : option str) (now stale : Z) (m : MemberView) : MemberView :=
  match acks !! mv_node_id m with
  | None => m
  | Some o =>
    {| mv_node_id := mv_node_id m; mv_name := mv_name m; mv_state := mv_state m; mv_admitted_at := mv_admitted_at m; mv_expires_at := mv_expires_at m;
       mv_endpoint := Some (no_endpoint o); mv_sync := Some (sync_text o (mv_state m) desired corpus now stale);
       mv_last_confirmation_secs := (fun t => Z.max 0 (now - t) / 1000000000)%Z <$> po_last_ack (no_peer o); mv_fingerprint := mv_fingerprint m |}
  end.

Definition node_confirms (acks : NodeAcknowledgements) (desired : ArtifactIdentity) (corpus : str) (now stale : Z) (m : MemberView) : bool :=
  bool_decide (mv_state m = Active)
  && match acks !! mv_node_id m with
     | Some o => seen_within (po_last_ack (no_peer o)) now stale && holds_policy (no_peer o) desired
                 && bool_decide (no_persisted_corpus o = Some corpus) && bool_decide (no_active_corpus o = Some corpus)
     | None => false
     end.

Definition acks_converged (acks : NodeAcknowledgements) (expected : list MemberView) (desired : ArtifactIdentity) (corpus : option str) (now stale : Z) : bool :=
  valid_identity desired
  && match corpus with
     | Some corpus => forallb (node_confirms acks desired corpus now stale) (filter (fun m => mv_state m ≠ Revoked) expected)
     | None => false
     end.

(** ** The state of the primary *)

Record MembershipContext := { mc_cluster_id : str; mc_primary_node_id : str; mc_acknowledgements : NodeAcknowledgements }.

Record ClusterState := {
  cs_membership : option MembershipContext;
  cs_primary_active : option ActivePolicyIdentity;
  cs_primary_corpus : option (ArtifactIdentity * str);
  cs_membership_roster : option (list MemberView * Z);
  cs_peers : option PeerAcknowledgements;
}.

Definition set_membership (s : ClusterState) (m : option MembershipContext) : ClusterState :=
  {| cs_membership := m; cs_primary_active := cs_primary_active s; cs_primary_corpus := cs_primary_corpus s;
     cs_membership_roster := cs_membership_roster s; cs_peers := cs_peers s |}.

Definition set_acks (s : ClusterState) (c : MembershipContext) (acks : NodeAcknowledgements) : ClusterState :=
  set_membership s (Some {| mc_cluster_id := mc_cluster_id c; mc_primary_node_id := mc_primary_node_id c; mc_acknowledgements := acks |}).

Definition set_primary_active_identity (s : ClusterState) (i : ActivePolicyIdentity) : ClusterState :=
  {| cs_membership := cs_membership s; cs_primary_active := Some i; cs_primary_corpus := cs_primary_corpus s;
     cs_membership_roster := cs_membership_roster s; cs_peers := cs_peers s |}.

Definition set_primary_pair (s : ClusterState) (held : option (ArtifactIdentity * str)) : ClusterState :=
  {| cs_membership := cs_membership s; cs_primary_active := cs_primary_active s; cs_primary_corpus := held;
     cs_membership_roster := cs_membership_roster s; cs_peers := cs_peers s |}.

Definition record_membership_roster (s : ClusterState) (roster : list MemberView) (observed : Z) : ClusterState :=
  {| cs_membership := cs_membership s; cs_primary_active := cs_primary_active s; cs_primary_corpus := cs_primary_corpus s;
     cs_membership_roster := Some (roster, observed); cs_peers := cs_peers s |}.

Definition primary_active_matches (s : ClusterState) (desired : ArtifactIdentity) : bool :=
  match cs_primary_active s with
  | Some a => is_known a && is_hash (ap_config_revision a) && is_hash (ap_operator_policy_hash a)
              && str_eqb (ap_config_revision a) (ai_config_revision desired) && str_eqb (ap_operator_policy_hash a) (ai_operator_policy_hash desired)
  | None => false
  end.

Definition primary_pair_matches (s : ClusterState) (policy : ArtifactIdentity) (corpus : option str) : bool :=
  primary_active_matches s policy
  && match cs_primary_corpus s with Some held => bool_decide (held.1 = policy) && bool_decide (corpus = Some held.2) | None => false end.

Definition converged_for (s : ClusterState) (desired : ArtifactIdentity) (now stale : Z) : bool :=
  match cs_membership s with
  | Some context =>
    match cs_membership_roster s, cs_primary_corpus s with
    | Some (roster, observed), Some held =>
      (Z.max 0 (now - observed) <=? stale)%Z && primary_pair_matches s desired (Some held.2)
      && acks_converged (mc_acknowledgements context) roster desired (Some held.2) now stale
    | _, _ => false
    end
  | None =>
    primary_active_matches s desired
    && match cs_peers s with Some peers => peers_converged peers desired now stale | None => false end
  end.

(** ** The routes *)

Section Routes.
Context {SHA : Sha2Crate}.

(** The primary: its store on disk and its state in memory. *)
Record Primary := { pm_disk : Roster; pm_state : ClusterState }.

Definition with_state_of (p : Primary) (s : ClusterState) : Primary := {| pm_disk := pm_disk p; pm_state := s |}.

(** [routes::enroll]; the wall clock is read for the enrolment and again for
    the roster. *)
Definition enroll_route (io : WriteOutcome) (cluster_id primary_node_id invitation node_id name credential : str) (now later instant : Z) (p : Primary)
  : Primary * bool :=
  match cs_membership (pm_state p) with
  | None => (p, false)
  | Some context =>
    match open_store (pm_disk p) with
    | Err _ => (p, false)
    | Ok members =>
      if negb (is_for members (mc_cluster_id context) (mc_primary_node_id context)
               && str_eqb cluster_id (mc_cluster_id context) && str_eqb primary_node_id (mc_primary_node_id context)) then (p, false)
      else
        let '(members, r) := enroll io invitation node_id name credential now members in
        match r with
        | Err _ => ({| pm_disk := ms_disk members; pm_state := pm_state p |}, false)
        | Ok _ => ({| pm_disk := ms_disk members; pm_state := record_membership_roster (pm_state p) (views members later) instant |}, true)
        end
    end
  end.

Definition shown_as (members : MembershipStore) (now : Z) (id : str) (state : MemberState) : bool :=
  existsb (fun m => str_eqb (mv_node_id m) id && bool_decide (mv_state m = state)) (views members now).

(** [membership_transition]: activation, or the cancellation of an admission by
    its node.  The wall clock is read at each use. *)
Definition membership_transition (io : WriteOutcome) (principal : str) (cancel : bool) (t1 t2 t3 instant : Z) (p : Primary) : Primary * bool :=
  match cs_membership (pm_state p) with
  | None => (p, false)
  | Some context =>
    match open_store (pm_disk p) with
    | Err _ => (p, false)
    | Ok members =>
      let was_pending := shown_as members t1 principal Pending in
      let state := if cancel || was_pending then set_acks (pm_state p) context (acks_forget (mc_acknowledgements context) principal) else pm_state p in
      let '(members, r) :=
        if cancel then
          if shown_as members t2 principal Pending then revoke io principal members
          else (members, Err (lit "only pending admission can be cancelled remotely"))
        else activate io principal t2 members in
      match r with
      | Err _ => ({| pm_disk := ms_disk members; pm_state := state |}, false)
      | Ok _ => ({| pm_disk := ms_disk members; pm_state := record_membership_roster state (views members t3) instant |}, true)
      end
    end
  end.

(** The capabilities a request and the manifest name. *)
Record Capabilities := { cp_artifact_format : Z; cp_schema_version : Z; cp_operator_rule_grammar : str; cp_compiled_cost_version : Z }.

#[export] Instance capabilities_eq_dec : EqDecision Capabilities.
Proof. solve_decision. Defined.

Record HeartbeatV2Request := {
  hb_capabilities : Capabilities;
  hb_node_name : option str;
  hb_persisted : option ArtifactIdentity;
  hb_active : option ActiveArtifactAck;
  hb_persisted_corpus : option str;
  hb_active_corpus : option str;
}.

(** What a heartbeat acknowledges: nothing for the policy, when the node cannot
    serve it or sends a bad name. *)
Definition reported (manifest : Capabilities) (request : HeartbeatV2Request) : NodeAcknowledgement :=
  let incompatible := negb (bool_decide (hb_capabilities request = manifest)) in
  let invalid_name := match hb_node_name request with Some name => match validate_name name with Ok _ => false | Err _ => true end | None => false end in
  let keep {A} (o : option A) := if negb incompatible && negb invalid_name then o else None in
  {| na_persisted := keep (hb_persisted request); na_active := keep (hb_active request);
     na_persisted_corpus := hb_persisted_corpus request; na_active_corpus := hb_active_corpus request |}.

(** [heartbeat_v2] of an enrolled node, from the lock on.  [authoritative] is
    the name the controller has for the node. *)
Definition heartbeat (io : WriteOutcome) (manifest : Capabilities) (authoritative : result str (option str)) (principal endpoint : str)
    (request : HeartbeatV2Request) (now instant : Z) (p : Primary) : Primary * bool :=
  match cs_membership (pm_state p) with
  | None => (p, false)
  | Some context =>
    let invalid_name := match hb_node_name request with Some name => match validate_name name with Ok _ => false | Err _ => true end | None => false end in
    match (if invalid_name then Ok None else authoritative) with
    | Err _ => (p, false)
    | Ok authoritative =>
      match open_store (pm_disk p) with
      | Err _ => (p, false)
      | Ok members =>
        if negb (shown_as members now principal Active) then (p, false)
        else
          let '(members, renamed) :=
            match (if invalid_name then None else or_else authoritative (hb_node_name request)) with
            | Some name => rename io principal name members
            | None => (members, Ok ())
            end in
          match renamed with
          | Err _ => ({| pm_disk := ms_disk members; pm_state := pm_state p |}, false)
          | Ok _ =>
            let '(acks, r) := acks_record (mc_acknowledgements context) principal endpoint (reported manifest request) instant in
            ({| pm_disk := ms_disk members; pm_state := set_acks (pm_state p) context acks |}, match r with Ok _ => true | Err _ => false end)
          end
      end
    end
  end.

(** The roster is read for the status and by the observer. *)
Definition observe_roster (now instant : Z) (p : Primary) : Primary :=
  match open_store (pm_disk p) with
  | Ok members => with_state_of p (record_membership_roster (pm_state p) (views members now) instant)
  | Err _ => p
  end.

(** ** Histories of a primary *)

(** The writes to the membership store made outside these routes, by the control
    of nodes and the lifecycle of the cluster.  Enrolment and activation are made
    by the routes only. *)
Inductive Elsewhere :=
| EInvite (buf : str)
| EAdmit (operation_id node_id name : str) (endpoint : str * Z) (credential : str)
| ERename (node_id name : str)
| ERevoke (node_id : str)
| EReplace (cluster_id primary_node_id fingerprint : str).

Definition elsewhere (c : Elsewhere) : Call :=
  match c with
  | EInvite buf => CInvite buf
  | EAdmit op id name ep cred => CAdmit op id name ep cred
  | ERename id name => CRename id name
  | ERevoke id => CRevoke id
  | EReplace cid pid fp => CReplace cid pid fp
  end.

Inductive ClusterEvent :=
| ByAnother (c : Elsewhere) (now : Z) (io : WriteOutcome)
| Enrolled (io : WriteOutcome) (cluster_id primary_node_id invitation node_id name credential : str) (now later instant : Z)
| Transition (io : WriteOutcome) (principal : str) (cancel : bool) (t1 t2 t3 instant : Z)
| Heartbeat (io : WriteOutcome) (manifest : Capabilities) (authoritative : result str (option str)) (principal endpoint : str)
    (request : HeartbeatV2Request) (now instant : Z)
| Observed (now instant : Z)
| PrimaryActive (i : ActivePolicyIdentity)
| PrimaryPair (held : option (ArtifactIdentity * str))
| Restarted.

Definition boot (cluster_id primary_node_id : str) : ClusterState :=
  {| cs_membership := Some {| mc_cluster_id := cluster_id; mc_primary_node_id := primary_node_id; mc_acknowledgements := ∅ |};
     cs_primary_active := None; cs_primary_corpus := None; cs_membership_roster := None; cs_peers := None |}.

Definition happen (cluster_id primary_node_id : str) (p : Primary) (e : ClusterEvent) : Primary :=
  match e with
  | ByAnother c now io => {| pm_disk := call (pm_disk p) {| sp_call := elsewhere c; sp_now := now; sp_io := io |}; pm_state := pm_state p |}
  | Enrolled io cid pid inv id name cred now later instant => (enroll_route io cid pid inv id name cred now later instant p).1
  | Transition io id cancel t1 t2 t3 instant => (membership_transition io id cancel t1 t2 t3 instant p).1
  | Heartbeat io manifest auth id ep request now instant => (heartbeat io manifest auth id ep request now instant p).1
  | Observed now instant => observe_roster now instant p
  | PrimaryActive i => with_state_of p (set_primary_active_identity (pm_state p) i)
  | PrimaryPair held => with_state_of p (set_primary_pair (pm_state p) held)
  | Restarted => with_state_of p (boot cluster_id primary_node_id)
  end.

Definition unfold_history (cid pid : str) (start : Roster) (history : list ClusterEvent) : Primary :=
  foldl (happen cid pid) {| pm_disk := start; pm_state := boot cid pid |} history.

(** ** What convergence means *)

Definition acks_of (s : ClusterState) : NodeAcknowledgements := match cs_membership s with Some c => mc_acknowledgements c | None => ∅ end.

Definition observation (a : NodeAcknowledgement) (endpoint : str) (instant : Z) : NodeObservation :=
  {| no_peer := {| po_persisted := na_persisted a; po_active := na_active a; po_last_ack := Some instant |};
     no_persisted_corpus := na_persisted_corpus a; no_active_corpus := na_active_corpus a; no_endpoint := endpoint |}.

(** The row of the node is active. *)
Definition member_active (disk : Roster) (id : str) : Prop := ∃ m, ro_members disk !! id = Some m ∧ mv_state (mb_view m) = Active.

(** The wall clock is not set back between the check of a transition and its write. *)
Definition steady (e : ClusterEvent) : Prop := match e with Transition _ _ _ t1 t2 _ _ => (t1 ≤ t2)%Z | _ => True end.

(** *** Rows *)

(** Every row is under the identity of its node. *)
Definition keyed (disk : Roster) : Prop := ∀ id m, ro_members disk !! id = Some m → mv_node_id (mb_view m) = id.

Lemma try_fold_each {A} (f : A → result str ()) l x : try_fold (fun _ y => f y) () l = Ok () → x ∈ l → f x = Ok ().
Proof.
  induction l as [|y l IH]; [by intros _ ?%not_elem_of_nil|]. cbn [try_fold]. destruct (f y) as [[]|e] eqn:E; [|done].
  intros H [->|Hx]%elem_of_cons; auto.
Qed.

Lemma open_keyed disk s : open_store disk = Ok s → keyed disk.
Proof.
  unfold open_store. repeat case_match; try done. intros E. apply rbind_Ok in E as ([] & E & _). intros id m Hm.
  pose proof (try_fold_each member_ok _ (id, m) E) as H1. rewrite rows_spec in H1. specialize (H1 Hm). unfold member_ok in H1. cbn [fst snd] in H1.
  destruct (str_eqb id _) eqn:Ek; [|done]. apply str_eqb_spec in Ek. done.
Qed.

Lemma expire_keyed now disk : keyed disk → keyed (expire now disk).
Proof.
  intros Hk id m. rewrite expire_members. intros (m0 & Hm & ->)%fmap_Some. apply Hk in Hm. unfold expire_member. by destruct (_ && _).
Qed.

Lemma insert_keyed (disk : Roster) (base : gmap str Member) (id : str) (m : Member) : keyed disk → base ⊆ ro_members disk → mv_node_id (mb_view m) = id →
  keyed (with_members disk (<[id := m]> base)).
Proof. intros Hk Hsub Hid id' m'. cbn [ro_members with_members]. intros [[<- <-]|[_ H]]%lookup_insert_Some; [done|]. apply Hk. by eapply lookup_weaken. Qed.

Lemma settled_keyed disk c now io after : keyed disk → settled disk c now io after → keyed after.
Proof.
  intros Hk [->|[_ Hw]]; [done|]. pose proof (expire_keyed now disk Hk) as He. destruct Hw; try done.
  - intros id' m'. cbn [ro_members with_members]. by apply (insert_keyed r (make_room (ro_members r)) id); [|apply make_room_sub|].
  - by apply insert_keyed.
  - apply insert_keyed; [done..|]. cbn. by apply He.
  - apply insert_keyed; [done..|]. cbn. by apply Hk.
  - apply insert_keyed; [done..|]. cbn. by apply Hk.
Qed.

Lemma expire_active now disk id : member_active (expire now disk) id ↔ member_active disk id.
Proof.
  unfold member_active. split.
  - intros (m & Hm & Hs). rewrite expire_members in Hm. apply fmap_Some in Hm as (m0 & Hm & ->). exists m0. split; [done|].
    destruct (expired_state now m0) as [<-|Hr]; [done|]. apply bool_decide_eq_true in Hr. congruence.
  - intros (m & Hm & Hs). exists m. split; [|done]. rewrite expire_members, Hm. cbn. unfold expire_member. by rewrite Hs.
Qed.

Lemma insert_active (disk : Roster) (base : gmap str Member) (id : str) (m : Member) (id' : str) : base ⊆ ro_members disk →
  member_active (with_members disk (<[id := m]> base)) id' → id' = id ∧ mv_state (mb_view m) = Active ∨ member_active disk id'.
Proof.
  intros Hsub (m' & H & Hs). cbn [ro_members with_members] in H. apply lookup_insert_Some in H as [[<- <-]|[_ H]]; [by left|]. right. exists m'. split; [|done]. by eapply lookup_weaken.
Qed.

(** Only an activation makes a row active. *)
Lemma settled_active disk c now io after id : settled disk c now io after → member_active after id →
  member_active disk id ∨ c = CActivate id ∧ ∃ m, ro_members (expire now disk) !! id = Some m ∧ is_revoked m = false.
Proof.
  intros [->|[_ Hw]]; [by left|]. pose proof (expire_active now disk id) as He. destruct Hw as [buf r _ _|inv id' name cred r _ _ _ _ _|op id' name ep cred r _ _ _ _|id' m r Hm Hr|id' name m _ Hm _|id' m Hm|cid pid fp r _]; intros Ha.
  - left. by apply He.
  - left. apply He. apply (insert_active r (make_room (ro_members r))) in Ha as [[_ ?]|?]; [done|done|apply make_room_sub].
  - left. apply He. by apply insert_active in Ha as [[_ ?]|?].
  - apply insert_active in Ha as [[-> _]|Ha]; [right; by eauto|left; by apply He|done].
  - apply insert_active in Ha as [[-> Hs]|?]; [|by left|done]. left. by exists m.
  - by apply insert_active in Ha as [[-> Hs]|?]; [|left|].
  - left. by apply He.
Qed.

Section Meaning.
Context (cid pid : str) (start : Roster).
Let after_ (h : list ClusterEvent) : Primary := unfold_history cid pid start h.

(** The event is no restart, no cancellation by the node and no transition of it
    out of an admission, and it does not make the node active. *)
Definition keeps_word (id : str) (p : Primary) (e : ClusterEvent) : Prop :=
  match e with
  | Restarted => False
  | Transition _ id' cancel t1 _ _ _ => id' = id → ∀ s, open_store (pm_disk p) = Ok s → cancel = false ∧ shown_as s t1 id Pending = false
  | _ => True
  end ∧ (member_active (pm_disk (happen cid pid p e)) id → member_active (pm_disk p) id).

(** The event is a heartbeat of the node, active then, that said this, and the
    events since keep it. *)
Definition heard_at (before : list ClusterEvent) (e : ClusterEvent) (rest : list ClusterEvent) (id : str) (o : NodeObservation) : Prop :=
  (∃ io manifest auth ep request now instant, e = Heartbeat io manifest auth id ep request now instant
    ∧ o = observation (reported manifest request) ep instant
    ∧ ∃ s, open_store (pm_disk (after_ before)) = Ok s ∧ shown_as s now id Active = true)
  ∧ ∀ a x b, rest = a ++ x :: b → keeps_word id (after_ (before ++ e :: a)) x.

Definition heard (history : list ClusterEvent) (id : str) (o : NodeObservation) : Prop :=
  ∃ before e rest, history = before ++ e :: rest ∧ heard_at before e rest id o.

(** Heard, and from then to the end of [seen] the node was active on the disk
    after every event. *)
Definition confirmed (history seen : list ClusterEvent) (id : str) (o : NodeObservation) : Prop :=
  ∃ before e rest, history = before ++ e :: rest ∧ heard_at before e rest id o
    ∧ ∀ a b, rest = a ++ b → length (before ++ e :: a) ≤ length seen → member_active (pm_disk (after_ (before ++ e :: a))) id.

(** The roster was on the disk at the end of [seen], lapsed admissions closed or not. *)
Definition was_roster (history seen : list ClusterEvent) (roster : list MemberView) : Prop :=
  ∃ later r t, history = seen ++ later ∧ (r = pm_disk (after_ seen) ∨ ∃ t0, r = expire t0 (pm_disk (after_ seen)))
    ∧ roster = views {| ms_roster := r; ms_disk := pm_disk (after_ seen) |} t.

Lemma heard_extend history id o e : heard history id o → keeps_word id (after_ history) e → heard (history ++ [e]) id o.
Proof.
  intros (before & h & rest & -> & Ho & Hk) He.
  exists before, h, (rest ++ [e]). split; [by rewrite <- app_assoc|]. split; [done|].
  intros a e' b E. destruct b as [|x b _] using rev_ind.
  - apply app_inj_tail in E as [-> ->]. exact He.
  - rewrite app_comm_cons, app_assoc in E. apply app_inj_tail in E as [-> _]. by eapply Hk.
Qed.

Lemma was_roster_extend history seen roster e : was_roster history seen roster → was_roster (history ++ [e]) seen roster.
Proof. intros (b & r & t & -> & H). exists (b ++ [e]), r, t. split; [by rewrite app_assoc|done]. Qed.

Lemma was_roster_now history r t :
  r = pm_disk (after_ history) ∨ (∃ t0, r = expire t0 (pm_disk (after_ history))) →
  was_roster history history (views {| ms_roster := r; ms_disk := pm_disk (after_ history) |} t).
Proof. intros H. exists [], r, t. by rewrite app_nil_r. Qed.

Lemma after_snoc history e : after_ (history ++ [e]) = happen cid pid (after_ history) e.
Proof. unfold after_, unfold_history. by rewrite foldl_app. Qed.

(** Active at the end, a node that no event made active was active before. *)
Lemma kept_back id h x : (∀ a e b, x = a ++ e :: b → keeps_word id (after_ (h ++ a)) e) →
  member_active (pm_disk (after_ (h ++ x))) id → member_active (pm_disk (after_ h)) id.
Proof.
  induction x as [|e x IH] using rev_ind; intros Hk Ha; [by rewrite app_nil_r in Ha|].
  apply IH; [intros a e' b ->; apply (Hk a e' (b ++ [e])); by rewrite <- app_assoc|].
  apply (Hk x e []); [done|]. by rewrite <- after_snoc, <- app_assoc.
Qed.

Lemma heard_confirmed history seen later id o :
  history = seen ++ later → heard history id o → member_active (pm_disk (after_ seen)) id → confirmed history seen id o.
Proof.
  intros Eh (before & e & rest & Er & Hh) Ha. exists before, e, rest. split; [done|]. split; [done|]. intros a b -> Hlen.
  assert (∃ x, seen = (before ++ e :: a) ++ x ∧ b = x ++ later) as (x & -> & ->).
  { rewrite Eh in Er. rewrite app_comm_cons, app_assoc in Er. apply app_eq_inv in Er as [(x & -> & ->)|(x & E & ->)]; [by exists x|].
    assert (x = []) as -> by (apply nil_length_inv; rewrite E, length_app in Hlen; lia). rewrite app_nil_r in E. exists []. by rewrite app_nil_r, E. }
  eapply kept_back; [|exact Ha]. intros a' x' b' ->. destruct Hh as [_ Hk]. specialize (Hk (a ++ a') x' (b' ++ later)).
  rewrite <- app_assoc, <- app_comm_cons. apply Hk. by rewrite <- !app_assoc.
Qed.

(** ** One event *)

Lemma save_Ok io s s' : save io s = (s', Ok ()) → ms_disk s' = ms_roster s'.
Proof. by destruct io; intros [= <-]. Qed.

Lemma admit_member_Ok io s r v cred b s' v' : admit_member io s r v cred b = (s', Ok v') → ms_disk s' = ms_roster s'.
Proof.
  unfold admit_member. destruct (save io _) as [s1 saved] eqn:E. intros [= -> H]. destruct saved as [[]|]; [|done]. by eapply save_Ok.
Qed.

Lemma enroll_Ok io inv id name cred now disk s' v :
  enroll io inv id name cred now {| ms_roster := disk; ms_disk := disk |} = (s', Ok v) →
  ms_roster s' = ms_disk s' ∨ ms_roster s' = expire now (ms_disk s').
Proof.
  unfold enroll. repeat (case_match; try done).
  all: try (intros [= <- _]; by right).
  all: unfold enroll_new; repeat (case_match; try done); intros E%admit_member_Ok; by left.
Qed.

Lemma activate_Ok io id now s s' : activate io id now s = (s', Ok ()) → ms_disk s' = ms_roster s'.
Proof. unfold activate. repeat (case_match; try done). apply save_Ok. Qed.

Lemma revoke_Ok io id s s' : revoke io id s = (s', Ok ()) → ms_disk s' = ms_roster s'.
Proof. unfold revoke. repeat (case_match; try done). apply save_Ok. Qed.

(** An event leaves the disk alone or makes one call on it. *)
Lemma happen_disk p e : let disk' := pm_disk (happen cid pid p e) in
  disk' = pm_disk p ∨ ∃ c now io, settled (pm_disk p) c now io disk' ∧ ∀ id, c = CActivate id → ∃ w t1 t3 instant, e = Transition w id false t1 now t3 instant.
Proof.
  destruct e as [c now io|io cid' pid' inv id name cred now later instant|io id cancel t1 t2 t3 instant|io mf auth id ep rq now instant|now instant|i|held|]; cbn [happen pm_disk with_state_of]; try by left.
  - right. exists (elsewhere c), now, io. split; [apply call_settled|]. intros id E. by destruct c.
  - unfold enroll_route. destruct (cs_membership _); [|by left]. destruct (open_store _) as [s|] eqn:Eo; [|by left]. apply open_Ok in Eo as ->.
    destruct (negb _); [by left|]. right. exists (CEnroll inv id name cred), now, io. split; [|done]. pose proof (enroll_settled (pm_disk p) now io inv id name cred) as Hs.
    destruct (enroll _ _ _ _ _ _ _) as [s [v|err]]; exact Hs.
  - unfold membership_transition. destruct (cs_membership _); [|by left]. destruct (open_store _) as [s|] eqn:Eo; [|by left]. apply open_Ok in Eo as ->. destruct cancel.
    + destruct (shown_as _ t2 _ _); [|by left]. right. exists (CRevoke id), t2, io. split; [|done]. pose proof (revoke_settled (pm_disk p) t2 io id) as Hs.
      destruct (revoke _ _ _) as [s [v|err]]; exact Hs.
    + right. exists (CActivate id), t2, io. split; [|intros id' [= <-]; by exists io, t1, t3, instant]. pose proof (activate_settled (pm_disk p) t2 io id) as Hs.
      destruct (activate _ _ _ _) as [s [v|err]]; exact Hs.
  - unfold heartbeat. destruct (cs_membership _); [|by left]. cbv zeta.
    set (bad := match hb_node_name rq with Some name => match validate_name name with Ok _ => false | Err _ => true end | None => false end).
    destruct (if bad then Ok None else auth) as [au|]; [|by left].
    destruct (open_store _) as [s|] eqn:Eo; [|by left]. apply open_Ok in Eo as ->. destruct (negb _); [by left|].
    destruct (if bad then None else or_else au (hb_node_name rq)) as [name|].
    + right. exists (CRename id name), now, io. split; [|done]. pose proof (rename_settled (pm_disk p) now io id name) as Hs.
      destruct (rename _ _ _ _) as [s [[]|err]]; [|exact Hs]. by destruct (acks_record _ _ _ _ _).
    + left. by destruct (acks_record _ _ _ _ _).
  - unfold observe_roster. destruct (open_store _); by left.
Qed.

Lemma happen_keyed p e s : open_store (pm_disk p) = Ok s → keyed (pm_disk (happen cid pid p e)).
Proof. intros Hk%open_keyed. destruct (happen_disk p e) as [->|(c & now & io & Hs & _)]; [done|]. by eapply settled_keyed. Qed.

(** A row not shown as pending is not activated by a clock that runs on. *)
Lemma lapsed_stays disk t1 t2 id m : keyed disk → (t1 ≤ t2)%Z → shown_as {| ms_roster := disk; ms_disk := disk |} t1 id Pending = false →
  ro_members (expire t2 disk) !! id = Some m → is_revoked m = false → member_active disk id.
Proof.
  intros Hk Ht Hs Hm Hr. rewrite expire_members in Hm. apply fmap_Some in Hm as (m0 & Hm & ->). exists m0. split; [done|].
  destruct (mv_state (mb_view m0)) eqn:Es; [|done|].
  - exfalso. apply not_true_iff_false in Hs. apply Hs. apply existsb_exists. exists (view_at t1 m0). split.
    + apply list_elem_of_In, list_elem_of_fmap. exists (id, m0). split; [done|]. by apply rows_spec.
    + assert (view_at t1 m0 = mb_view m0) as ->.
      { unfold expire_member in Hr. unfold view_at. rewrite Es in *. destruct (mv_expires_at (mb_view m0)) as [u|]; [|done].
        rewrite bool_decide_eq_true_2 in * by done. cbn [andb] in *. destruct (Z.leb_spec u t2); [done|]. by rewrite (proj2 (Z.leb_gt u t1)) by lia. }
      by rewrite (Hk id m0 Hm), Es, (proj2 (str_eqb_spec id id)).
  - unfold expire_member in Hr. rewrite Es, bool_decide_eq_false_2 in Hr by done. cbn [andb] in Hr. unfold is_revoked in Hr. by rewrite Es in Hr.
Qed.

Lemma keeps_word_intro id p e : steady e → e ≠ Restarted →
  (∀ io cancel t1 t2 t3 instant s, e = Transition io id cancel t1 t2 t3 instant → open_store (pm_disk p) = Ok s → cancel = false ∧ shown_as s t1 id Pending = false) →
  keeps_word id p e.
Proof.
  intros Hst Hre Htr. split; [destruct e; try done; intros -> s Hs; by eapply Htr|].
  intros Ha. destruct (happen_disk p e) as [E|(c & now & io & Hs & Hc)]; [by rewrite E in Ha|].
  destruct (settled_active _ _ _ _ _ _ Hs Ha) as [?|[-> (m & Hm & Hr)]]; [done|]. destruct (Hc id eq_refl) as (w & t1 & t3 & instant & ->).
  destruct (open_store (pm_disk p)) as [s|err] eqn:Eo.
  - destruct (Htr w false t1 now t3 instant s eq_refl eq_refl) as [_ Hp]. pose proof (open_keyed _ _ Eo) as Hk. apply open_Ok in Eo as ->. by eapply lapsed_stays.
  - cbn [happen] in Ha. unfold membership_transition in Ha. destruct (cs_membership _); [|done]. by rewrite Eo in Ha.
Qed.

Record tells (history : list ClusterEvent) (s : ClusterState) : Prop := {
  te_context : ∃ acks, cs_membership s = Some {| mc_cluster_id := cid; mc_primary_node_id := pid; mc_acknowledgements := acks |}
    ∧ ∀ id o, acks !! id = Some o → heard history id o;
  te_roster : ∀ roster t, cs_membership_roster s = Some (roster, t) → ∃ seen, was_roster history seen roster ∧ keyed (pm_disk (after_ seen));
}.

Lemma roster_still history e s : tells history s → ∀ roster t, cs_membership_roster s = Some (roster, t) →
  ∃ seen, was_roster (history ++ [e]) seen roster ∧ keyed (pm_disk (after_ seen)).
Proof. intros Ht roster t Hr. destruct (te_roster _ _ Ht _ _ Hr) as (seen & Hw & Hk). exists seen. split; [by apply was_roster_extend|done]. Qed.

(** Events that touch no acknowledgement. *)
Lemma tells_same history e s s' :
  tells history s → cs_membership s' = cs_membership s → (∀ id, keeps_word id (after_ history) e) →
  (∀ roster t, cs_membership_roster s' = Some (roster, t) → cs_membership_roster s = Some (roster, t) ∨ ∃ seen, was_roster (history ++ [e]) seen roster ∧ keyed (pm_disk (after_ seen))) →
  tells (history ++ [e]) s'.
Proof.
  intros [(acks & Hm & Ha) Hr] Em Hk Hr'. split.
  - exists acks. rewrite Em. split; [done|]. intros id o Ho. apply heard_extend; [by apply Ha|by apply Hk].
  - intros roster t Ht. destruct (Hr' roster t Ht) as [H|H]; [|done]. destruct (Hr _ _ H) as (seen & Hw & Hkey). exists seen. split; [by apply was_roster_extend|done].
Qed.

(** The roster read after an event on a store that opened. *)
Lemma roster_read history e s r t : open_store (pm_disk (after_ history)) = Ok s →
  (r = pm_disk (after_ (history ++ [e])) ∨ ∃ t0, r = expire t0 (pm_disk (after_ (history ++ [e])))) →
  ∃ seen, was_roster (history ++ [e]) seen (views {| ms_roster := r; ms_disk := pm_disk (after_ (history ++ [e])) |} t) ∧ keyed (pm_disk (after_ seen)).
Proof. intros Ho Hr. exists (history ++ [e]). split; [by apply was_roster_now|]. rewrite after_snoc. by eapply happen_keyed. Qed.

Lemma enrolled_tells history e io cid' pid' inv id name cred now later instant :
  e = Enrolled io cid' pid' inv id name cred now later instant →
  tells history (pm_state (after_ history)) → tells (history ++ [e]) (pm_state (after_ (history ++ [e]))).
Proof.
  intros He Ht. assert (∀ id, keeps_word id (after_ history) e) as Hk by (intros i; apply keeps_word_intro; by rewrite He).
  pose proof (after_snoc history e) as Ea. rewrite He in Ea at 2. cbn [happen] in Ea. set (p := after_ history) in *.
  assert (∀ d, after_ (history ++ [e]) = {| pm_disk := d; pm_state := pm_state p |} → tells (history ++ [e]) (pm_state (after_ (history ++ [e])))) as Hsame.
  { intros d ->. apply (tells_same history _ (pm_state p)); try done. by left. }
  unfold enroll_route in Ea. destruct (te_context _ _ Ht) as (acks & Hm & _). rewrite Hm in Ea.
  destruct (open_store (pm_disk p)) as [members|err] eqn:Eo; [|apply (Hsame (pm_disk p)); rewrite Ea; by destruct p].
  destruct (negb _); [apply (Hsame (pm_disk p)); rewrite Ea; by destruct p|]. apply open_Ok in Eo as Em. subst members.
  destruct (enroll _ _ _ _ _ _ _) as [members r] eqn:Ee. destruct r as [v|err]; cbn [fst] in Ea; [|by apply (Hsame _ Ea)].
  rewrite Ea. apply (tells_same history _ (pm_state p)); try done. intros roster t [= <- <-]. right. apply enroll_Ok in Ee.
  pose proof (roster_read history e _ (ms_roster members) later Eo) as Hw. rewrite Ea in Hw. cbn [pm_disk] in Hw. destruct members as [mr md].
  apply Hw. destruct Ee as [E|E]; [by left|right; by exists now].
Qed.

(** The transition forgets its node, or found it active. *)
Lemma transition_acks history io id cancel t1 t2 t3 instant s acks state :
  let p := after_ history in let e := Transition io id cancel t1 t2 t3 instant in
  (t1 ≤ t2)%Z → open_store (pm_disk p) = Ok s → (∀ id o, acks !! id = Some o → heard history id o) →
  let context := {| mc_cluster_id := cid; mc_primary_node_id := pid; mc_acknowledgements := acks |} in
  cs_membership (pm_state p) = Some context →
  state = (if cancel || shown_as s t1 id Pending then set_acks (pm_state p) context (acks_forget acks id) else pm_state p) →
  ∃ acks', cs_membership state = Some {| mc_cluster_id := cid; mc_primary_node_id := pid; mc_acknowledgements := acks' |}
    ∧ ∀ id o, acks' !! id = Some o → heard (history ++ [e]) id o.
Proof.
  intros p e Hclock Ho Ha context Hm ->.
  assert (∀ id', (id' = id → cancel || shown_as s t1 id Pending = false) → keeps_word id' p e) as Hk.
  { intros id' Hn. apply keeps_word_intro; [done..|]. intros io' c' t1' t2' t3' i' s' [= <- <- <- <- <- <- <-] Hs'. rewrite Ho in Hs'. injection Hs' as <-. apply orb_false_iff. auto. }
  destruct (cancel || _) eqn:Ef.
  - exists (acks_forget acks id). split; [done|]. intros id' o Hid. unfold acks_forget in Hid. apply lookup_delete_Some in Hid as [Hne Hid]. apply heard_extend; [by apply Ha|]. apply Hk. congruence.
  - exists acks. split; [done|]. intros id' o Hid. apply heard_extend; [by apply Ha|]. by apply Hk.
Qed.

Lemma transition_tells history e io id cancel t1 t2 t3 instant :
  e = Transition io id cancel t1 t2 t3 instant → (t1 ≤ t2)%Z →
  tells history (pm_state (after_ history)) → tells (history ++ [e]) (pm_state (after_ (history ++ [e]))).
Proof.
  intros He Hclock Ht. pose proof (after_snoc history e) as Ea. rewrite He in Ea at 2. cbn [happen] in Ea. set (p := after_ history) in *.
  destruct (te_context _ _ Ht) as (acks & Hm & Ha). unfold membership_transition in Ea. rewrite Hm in Ea.
  destruct (open_store (pm_disk p)) as [members|err] eqn:Eo.
  2:{ rewrite Ea. apply (tells_same history _ (pm_state p)); try done; [|by left]. intros id'. apply keeps_word_intro; [by rewrite He..|]. intros ? ? ? ? ? ? s _ Hs. fold p in Hs. by rewrite Eo in Hs. }
  cbn [mc_acknowledgements] in Ea. set (state := if cancel || _ then _ else _) in Ea.
  destruct (transition_acks history io id cancel t1 t2 t3 instant members acks state Hclock Eo Ha Hm eq_refl) as (acks' & Hm' & Ha'). rewrite <- He in Ha'.
  assert (cs_membership_roster state = cs_membership_roster (pm_state p)) as Hst by (unfold state; by destruct (cancel || _)).
  destruct (if cancel then _ else _) as [members' r] eqn:Er in Ea. destruct r as [[]|err]; rewrite Ea; cbn [fst pm_state].
  - split; [by exists acks'|]. intros roster t [= <- <-]. apply open_Ok in Eo as Em. subst members.
    assert (ms_disk members' = ms_roster members') as Hd.
    { destruct cancel; [|by apply activate_Ok in Er]. destruct (shown_as _ _ _ _) in Er; [|done]. by apply revoke_Ok in Er. }
    pose proof (roster_read history e _ (ms_roster members') t3 Eo) as Hw. rewrite Ea in Hw. cbn [pm_disk fst] in Hw. destruct members' as [mr md]. apply Hw. by left.
  - split; [by exists acks'|]. intros roster t Hr. rewrite Hst in Hr. by eapply roster_still.
Qed.

Lemma heartbeat_tells history e io mf auth id ep rq now instant :
  e = Heartbeat io mf auth id ep rq now instant →
  tells history (pm_state (after_ history)) → tells (history ++ [e]) (pm_state (after_ (history ++ [e]))).
Proof.
  intros He Ht. pose proof (after_snoc history e) as Ea. rewrite He in Ea at 2. cbn [happen] in Ea. set (p := after_ history) in *.
  assert (∀ id, keeps_word id p e) as Hk by (intros i; apply keeps_word_intro; by rewrite He).
  destruct (te_context _ _ Ht) as (acks & Hm & Ha). unfold heartbeat in Ea. rewrite Hm in Ea. 
  set (bad := match hb_node_name rq with Some name => match validate_name name with Ok _ => false | Err _ => true end | None => false end) in Ea.
  assert (∀ d, after_ (history ++ [e]) = {| pm_disk := d; pm_state := pm_state p |} → tells (history ++ [e]) (pm_state (after_ (history ++ [e])))) as Hsame.
  { intros d ->. apply (tells_same history _ (pm_state p)); try done. by left. }
  destruct (if bad then _ else auth) as [authoritative|err]; [|by apply (Hsame (pm_disk p)); rewrite Ea; destruct p].
  destruct (open_store (pm_disk p)) as [members|err] eqn:Eo; [|by apply (Hsame (pm_disk p)); rewrite Ea; destruct p].
  destruct (negb _) eqn:Es; [by apply (Hsame (pm_disk p)); rewrite Ea; destruct p|]. apply negb_false_iff in Es.
  destruct (match _ with Some name => rename _ _ _ _ | None => _ end) as [members' renamed] in Ea. destruct renamed as [u|err]; [|by eapply Hsame].
  cbn [mc_acknowledgements] in Ea. unfold acks_record in Ea. split.
  2:{ rewrite Ea. intros roster t Hr. eapply (roster_still _ _ _ Ht roster t). destruct (negb _) in Hr; [exact Hr|]. destruct (negb _) in Hr; exact Hr. }
  assert (∀ id' o, delete id acks !! id' = Some o → heard (history ++ [e]) id' o) as Hold.
  { intros id' o Hid. apply lookup_delete_Some in Hid as [Hne Hid]. apply heard_extend; [by apply Ha|by apply Hk]. }
  rewrite Ea. destruct (negb _); [by eexists|]. destruct (negb _); [by eexists|]. eexists. split; [done|]. cbn [mc_acknowledgements].
  intros id' o Hid. apply lookup_insert_Some in Hid as [[<- <-]|[_ Hid]]; [|by apply Hold].
  exists history, e, []. split; [done|]. split; [exists io, mf, auth, ep, rq, now, instant; split_and!; [done..|by exists members]|]. intros a e' b E. by destruct a.
Qed.

Lemma history_tells history : Forall steady history → tells history (pm_state (after_ history)).
Proof.
  induction history as [|e history IH] using rev_ind; intros Hst.
  { split; [|done]. exists ∅. split; [done|]. intros id o H. by rewrite lookup_empty in H. }
  apply Forall_app in Hst as [Hst [Hs _]%Forall_cons]. specialize (IH Hst).
  assert (∀ s, cs_membership s = cs_membership (pm_state (after_ history)) → cs_membership_roster s = cs_membership_roster (pm_state (after_ history)) →
    (∀ id, keeps_word id (after_ history) e) → tells (history ++ [e]) s) as Hsame.
  { intros s Em Er Hk. apply (tells_same history _ (pm_state (after_ history))); try done. rewrite Er. by left. }
  destruct e; try (by rewrite after_snoc; apply Hsame; [..|intros ?; by apply keeps_word_intro]).
  - by eapply enrolled_tells.
  - by eapply transition_tells.
  - by eapply heartbeat_tells.
  - pose proof (after_snoc history (Observed now instant)) as Ea. cbn [happen] in Ea. unfold observe_roster in Ea.
    destruct (open_store _) as [s|err] eqn:Eo; rewrite Ea; [|apply Hsame; [done..|intros ?; by apply keeps_word_intro]].
    apply (tells_same history _ (pm_state (after_ history))); try done; [intros ?; by apply keeps_word_intro|]. intros roster t [= <- <-]. right.
    pose proof (roster_read history (Observed now instant) s (pm_disk (after_ history)) now Eo) as Hw. rewrite Ea in Hw.
    apply open_Ok in Eo as ->. apply Hw. by left.
  - rewrite after_snoc. split; [|done]. exists ∅. split; [done|]. intros id o H. by rewrite lookup_empty in H.
Qed.

(** A node the roster shows as active was active on the disk. *)
Lemma roster_active history seen roster v : was_roster history seen roster → keyed (pm_disk (after_ seen)) → v ∈ roster → mv_state v = Active →
  member_active (pm_disk (after_ seen)) (mv_node_id v).
Proof.
  intros (later & r & t & _ & Hr & ->) Hk Hv Hs. apply list_elem_of_fmap in Hv as ([id m] & -> & Hm%rows_spec). cbn [fst snd ms_roster] in *.
  assert (keyed r ∧ (member_active r id → member_active (pm_disk (after_ seen)) id)) as [Hkr Har].
  { destruct Hr as [->|[t0 ->]]; [done|]. split; [by apply expire_keyed|apply expire_active]. }
  unfold view_at in *. destruct (_ && _); [done|]. rewrite (Hkr id m Hm). apply Har. by exists m.
Qed.
End Meaning.

(** C37: what convergence says.  In any history of a primary, with restarts,
    writes to the membership by the control of nodes and the lifecycle, and
    failing writes, when it reports that a policy has converged, its own resolver
    runs that policy with the corpus of the pair, and it has read the roster no
    longer ago than the limit.  Every node of that roster that is not revoked is
    active and confirmed, no longer ago than the limit and while it was active,
    that it holds and runs exactly this policy and corpus.  Since that heartbeat
    the primary has not restarted and nothing has made the node active: from the
    heartbeat to the reading of the roster it was active on the disk all along,
    so the word is not that of an earlier admission.  What is written after the
    reading counts when the roster is read again; the wall clock is not set back
    within one request. *)
Theorem convergence_sound cid pid start history desired now stale :
  let p := unfold_history cid pid start history in
  Forall steady history → converged_for (pm_state p) desired now stale = true →
  ∃ corpus roster observed seen,
    primary_active_matches (pm_state p) desired = true ∧ cs_primary_corpus (pm_state p) = Some (desired, corpus)
    ∧ cs_membership_roster (pm_state p) = Some (roster, observed) ∧ was_roster cid pid start history seen roster ∧ (Z.max 0 (now - observed) ≤ stale)%Z
    ∧ ∀ v, v ∈ roster → mv_state v ≠ Revoked → mv_state v = Active ∧
        ∃ a ack ep instant, confirmed cid pid start history seen (mv_node_id v) (observation a ep instant) ∧ (Z.max 0 (now - instant) ≤ stale)%Z
          ∧ na_persisted a = Some desired ∧ na_active a = Some ack ∧ valid_active_ack ack = true ∧ aa_artifact ack = desired
          ∧ na_persisted_corpus a = Some corpus ∧ na_active_corpus a = Some corpus.
Proof.
  intros p Hst. pose proof (history_tells cid pid start history Hst) as [(acks & Hm & Ha) Hr]. fold p in Hm, Hr. unfold converged_for. rewrite Hm.
  destruct (cs_membership_roster (pm_state p)) as [[roster observed]|] eqn:Er; [|done]. destruct (cs_primary_corpus (pm_state p)) as [[policy corpus]|] eqn:Ec; [|done].
  rewrite !andb_true_iff. intros [[Hobs Hpair] Hacks]. apply Z.leb_le in Hobs. unfold primary_pair_matches in Hpair. rewrite Ec in Hpair. cbn [fst snd] in *.
  rewrite !andb_true_iff, !bool_decide_eq_true in Hpair. destruct Hpair as (Hact & -> & _). destruct (Hr roster observed eq_refl) as (seen & Hw & Hkey).
  exists corpus, roster, observed, seen. split_and!; try done. unfold acks_converged in Hacks. apply andb_true_iff in Hacks as [_ Hall].
  intros v Hv Hs. rewrite forallb_forall in Hall. specialize (Hall v). rewrite <- list_elem_of_In, list_elem_of_filter in Hall. specialize (Hall (conj Hs Hv)).
  unfold node_confirms in Hall. apply andb_true_iff in Hall as [Hact' Ho]. apply bool_decide_eq_true in Hact'. split; [done|].
  cbn [mc_acknowledgements] in Ho. destruct (acks !! mv_node_id v) as [o|] eqn:Eo; [|done]. apply Ha in Eo as Hh.
  pose proof (roster_active cid pid start history seen roster v Hw Hkey Hv Hact') as Hdisk.
  assert (∃ mf rq ep instant, o = observation (reported mf rq) ep instant) as (mf & rq & ep & instant & ->).
  { destruct Hh as (before & e & rest & _ & (io & mf & auth & ep & rq & t & instant & _ & -> & _) & _). by exists mf, rq, ep, instant. }
  unfold seen_within, holds_policy, observation in Ho. cbn [no_peer po_last_ack po_persisted po_active no_persisted_corpus no_active_corpus] in Ho.
  rewrite !andb_true_iff, !bool_decide_eq_true in Ho. destruct Ho as (((Hfresh & Hp & Hack) & Hc1) & Hc2). apply Z.leb_le in Hfresh.
  destruct (na_active (reported mf rq)) as [ack|] eqn:Ea; [|done]. apply andb_true_iff in Hack as [Hva Hart]. apply bool_decide_eq_true in Hart.
  exists (reported mf rq), ack, ep, instant. split_and!; try done. destruct Hw as (later & r & t & Hx & _). by eapply heard_confirmed.
Qed.

End Routes.

(** ** Peers known by address: the file and the observations *)

Lemma ip_le_iff a b : ip_le a b ↔ ip_lt a b = true ∨ a = b.
Proof.
  unfold ip_le. assert (∀ x y, (y <? x)%Z = false ↔ (x <? y)%Z = true ∨ x = y) as H by (intros x y; rewrite Z.ltb_ge, Z.ltb_lt; lia).
  destruct a as [x|x], b as [y|y]; cbn; rewrite ?H; naive_solver.
Qed.

#[export] Instance ip_le_total : Total ip_le.
Proof. intros a b. unfold ip_le. destruct a as [x|x], b as [y|y]; cbn; auto; destruct (Z.ltb_spec y x), (Z.ltb_spec x y); auto; lia. Qed.

#[export] Instance ip_le_trans : Transitive ip_le.
Proof. intros a b c. unfold ip_le. destruct a as [x|x], b as [y|y], c as [z|z]; cbn; try done; destruct (Z.ltb_spec y x), (Z.ltb_spec z y), (Z.ltb_spec z x); try done; lia. Qed.

Lemma ascending_sorted l : StronglySorted ip_le l → NoDup l → ascending_ips l = true.
Proof.
  induction l as [|a [|b l] IH]; intros Hs Hn; [done|done|]. apply StronglySorted_cons in Hs as [Hf Hs]. apply NoDup_cons in Hn as [Ha Hn].
  cbn [ascending_ips]. apply andb_true_iff. split; [|by apply IH]. apply Forall_cons in Hf as [Hab _]. apply ip_le_iff in Hab as [?| ->]; [done|]. destruct Ha. by left.
Qed.

Lemma in_order_spec (s : gset IpAddr) : list_to_set (in_order s) = s ∧ length (in_order s) = size s ∧ ascending_ips (in_order s) = true.
Proof.
  unfold in_order. pose proof (merge_sort_Permutation ip_le (elements s)) as Hp. split_and!.
  - apply set_eq. intros x. rewrite elem_of_list_to_set, Hp, elem_of_elements. done.
  - by rewrite Hp.
  - apply ascending_sorted; [apply StronglySorted_merge_sort; apply _|]. rewrite Hp. apply NoDup_elements.
Qed.

(** After an acknowledgement was taken, the observations are those of the
    addresses in the file, which reads back; so convergence speaks for all of
    them, and the one that reported is the only one that changed. *)
Theorem record_covers t e p ip persisted active now file' p' :
  peers_record t (Some (Some e)) p ip persisted active now = (file', p', Ok ()) →
  ∃ e', file' = Some (Some e') ∧ check_roster e' = true ∧ dom (pa_peers p') = list_to_set (ep_peers e') ∧ ip ∈ dom (pa_peers p')
    ∧ pa_available p' = true
    ∧ ∀ other, other ≠ ip → default no_observation (pa_peers p' !! other) = default no_observation (pa_peers p !! other).
Proof.
  unfold peers_record. destruct (negb (tc_same_master t)); [done|]. destruct (negb (tc_same_root t)); [done|]. destruct (negb (tc_opened t)); [done|].
  destruct (check_roster e) eqn:Ec; [|done]. cbn [negb].
  set (peers0 := match pa_peers p !! ip with Some _ => _ | None => _ end). cbn [pa_peers].
  set (expected := (list_to_set (ep_peers e) : gset IpAddr)). destruct (bool_decide (dom peers0 ⊆ expected)) eqn:Ed; [|done]. apply bool_decide_eq_true in Ed. cbn [negb].
  destruct (negb (bool_decide (ip ∈ expected)) && _) eqn:El; [done|].
  set (next := {| ep_format := 1; ep_peers := in_order (expected ∪ {[ip]}) |}).
  destruct (if bool_decide (ip ∈ expected) then _ else _) as [f saved] eqn:Ef. destruct saved as [[]|]; [|done].
  destruct (negb (none_or valid_identity persisted)); [done|]. destruct (negb (none_or valid_active_ack active)); [done|]. intros [= <- <-].
  assert (∃ e', f = Some (Some e') ∧ check_roster e' = true ∧ list_to_set (ep_peers e') = expected ∪ {[ip]}) as (e' & -> & Hc & Hs).
  { destruct (bool_decide_reflect (ip ∈ expected)) as [Hin|Hin].
    - injection Ef as <-. exists e. split_and!; try done. fold expected. set_solver.
    - cbn [negb andb] in El. apply Nat.leb_gt in El. destruct (in_order_spec (expected ∪ {[ip]})) as (H1 & H2 & H3). destruct (tc_io t); simplify_eq.
      exists next. split_and!; [done| |done]. unfold check_roster. cbn [next ep_format ep_peers]. rewrite H3, H2, size_union, size_singleton by set_solver.
      cbn [Z.eqb andb]. rewrite andb_true_r. apply Nat.leb_le. lia. }
  exists e'. split_and!; try done.
  - cbn [pa_peers]. rewrite dom_insert_L, dom_union_L, dom_gset_to_gmap, Hs. set_solver.
  - cbn [pa_peers]. rewrite dom_insert_L. set_solver.
  - intros other Hne. cbn [pa_peers]. rewrite lookup_insert_ne by done. rewrite lookup_union.
    assert (peers0 !! other = pa_peers p !! other) as ->. { unfold peers0. destruct (pa_peers p !! ip); [by apply lookup_insert_ne|done]. }
    destruct (pa_peers p !! other); [by rewrite union_Some_l|]. rewrite left_id by apply _. rewrite lookup_gset_to_gmap. by destruct (decide (other ∈ expected ∪ {[ip]})) as [H|H]; [rewrite option_guard_True|rewrite option_guard_False].
Qed.

(** ** A node converges *)

#[local] Existing Instance tail_sha.

Definition hash_of (c : ascii) : str := replicate 64 c.

Definition wanted : ArtifactIdentity :=
  {| ai_primary_lineage := hash_of "1"; ai_policy_epoch := 4; ai_artifact_hash := hash_of "2"; ai_config_revision := hash_of "3"; ai_operator_policy_hash := hash_of "4" |}.

Definition own_policy : ActivePolicyIdentity :=
  {| ap_daemon_instance_id := lit "p"; ap_config_revision := hash_of "3"; ap_operator_policy_hash := hash_of "4"; ap_resolver_generation := 2 |}.

Definition abilities : Capabilities := {| cp_artifact_format := 1; cp_schema_version := 5; cp_operator_rule_grammar := lit "1"; cp_compiled_cost_version := 1 |}.

Definition beat : HeartbeatV2Request :=
  {| hb_capabilities := abilities; hb_node_name := Some (lit "pantry"); hb_persisted := Some wanted;
     hb_active := Some {| aa_artifact := wanted; aa_local_config_revision := hash_of "5"; aa_daemon_instance_id := lit "n"; aa_resolver_generation := 1 |};
     hb_persisted_corpus := Some (hash_of "6"); hb_active_corpus := Some (hash_of "6") |}.

Definition day : list ClusterEvent :=
  [ByAnother (EInvite random_bytes) 100 Written;
   Enrolled Written a_cluster a_primary (generate_token random_bytes).1 a_node (lit "kitchen") a_credential 200 200 1;
   PrimaryActive own_policy; PrimaryPair (Some (wanted, hash_of "6"));
   Transition Written a_node false 300 300 300 2].

Definition says (history : list ClusterEvent) : bool :=
  converged_for (pm_state (unfold_history a_cluster a_primary new_roster history)) wanted 5 10.

Definition full_day : list ClusterEvent := day ++ [Heartbeat Written abilities (Ok None) a_node (lit "10.0.0.2") beat 400 3].

(** The node is revoked and admitted again by the control of nodes, then active:
    the old word does not count. *)
Definition readmitted : list ClusterEvent :=
  full_day ++ [ByAnother (ERevoke a_node) 500 Written;
               ByAnother (EAdmit a_primary a_node (lit "kitchen") (lit "10.0.0.2", 443%Z) a_credential) 500 Written;
               Transition Written a_node false 600 600 600 4].

(** Active is not enough: the node has to report. *)
Lemma convergence_sound_witness :
  says day = false ∧ says full_day = true ∧ says (full_day ++ [Restarted]) = false ∧ says readmitted = false
  ∧ (∃ v, v ∈ views {| ms_roster := pm_disk (unfold_history a_cluster a_primary new_roster readmitted); ms_disk := new_roster |} 600 ∧ mv_state v = Active)
  ∧ ∃ seen roster, was_roster a_cluster a_primary new_roster full_day seen roster.
Proof.
  do 4 (split; [vm_compute; reflexivity|]).
  split; [eexists; split; [vm_compute; left|reflexivity]|].
  assert (converged_for (pm_state (unfold_history a_cluster a_primary new_roster full_day)) wanted 5 10 = true) as E by (vm_compute; reflexivity).
  assert (Forall steady full_day) as Hs by (repeat constructor; done).
  destruct (convergence_sound a_cluster a_primary new_roster full_day wanted 5 10 Hs E) as (corpus & roster & observed & seen & _ & _ & _ & Hr & _).
  exists seen, roster. exact Hr.
Defined.
