(* ===== verification/TimeSeries.v ===== *)
(** * Traffic over time: [src/tracking/time_series.rs]

    Hourly and daily counters.  A call of [record_into] is a sequence of atomic
    actions on the bucket it loaded, on the lock of the archive and on the
    pointer to the current bucket; any number of calls interleave.  A bucket is
    its address in the order of allocation.  The wall clock is an argument. *)

From S2P Require Import Prelude RustStr.

(** ** Buckets *)

Definition TYPE_BUCKET_COUNT : nat := 10.

(** The fields of a bucket that count, those of the arrays by their index. *)
Inductive Counter := Queries | Blocked | CacheHits | PerType (i : nat) | BlockedPerType (i : nat).

#[export] Instance counter_eq_dec : EqDecision Counter.
Proof. solve_decision. Defined.

Record TimeBucket := { tb_timestamp : Z; tb_count : Counter → Z }.

Definition zero_counts : Counter → Z := fun _ => 0%Z.

Definition CurrentBucket_new (timestamp : Z) : TimeBucket := {| tb_timestamp := timestamp; tb_count := zero_counts |}.

(** The order in which [snapshot] reads. *)
Definition all_counters : list Counter := [Queries; Blocked; CacheHits] ++ map PerType (seq 0 TYPE_BUCKET_COUNT) ++ map BlockedPerType (seq 0 TYPE_BUCKET_COUNT).

(** What a query adds to, in the order of [increment]. *)
Definition touched (blocked cache_hit : bool) (bucket : nat) : list Counter :=
  [Queries] ++ (if blocked then [Blocked] else []) ++ (if cache_hit then [CacheHits] else [])
  ++ (if bucket <? TYPE_BUCKET_COUNT then PerType bucket :: (if blocked then [BlockedPerType bucket] else []) else []).

Definition MAX_HOURLY : nat := 168.
Definition MAX_DAILY : nat := 10.
Definition SECS_PER_HOUR : Z := 3600.
Definition SECS_PER_DAY : Z := 86400.

Definition truncate_hour (secs : Z) : Z := secs - secs mod SECS_PER_HOUR.
Definition truncate_day (secs : Z) : Z := secs - secs mod SECS_PER_DAY.

(** ** Recording *)

(** A call: the boundary its time falls on and the query. *)
Record RecordCall := { cl_ts : Z; cl_blocked : bool; cl_cache_hit : bool; cl_bucket : nat }.

Definition cl_touched (c : RecordCall) : list Counter := touched (cl_blocked c) (cl_cache_hit c) (cl_bucket c).

Definition set_count (f : Counter → Z) (k : Counter) (v : Z) : Counter → Z := fun k' => if decide (k' = k) then v else f k'.

(** [fetch_add(1)] *)
Definition fetch_add (b : TimeBucket) (k : Counter) : TimeBucket :=
  {| tb_timestamp := tb_timestamp b; tb_count := set_count (tb_count b) k (as_u64 (tb_count b k + 1)) |}.

(** The fresh bucket with the increment of the caller stored in it. *)
Definition fresh_bucket (ts : Z) (ks : list Counter) : TimeBucket :=
  {| tb_timestamp := ts; tb_count := fun k => if decide (k ∈ ks) then 1%Z else 0%Z |}.

(** The shared state: every bucket allocated, the current one, the archive and
    its lock.  The last three fields only keep history: the archived buckets
    that fell out, the counters of the current bucket a rollover has read, and
    the additions that came too late for the archive, by call, bucket and
    counter. *)
Record Series := {
  sr_heap : list TimeBucket;
  sr_current : nat;
  sr_archive : list TimeBucket;
  sr_locked : bool;
  sr_dropped : list TimeBucket;
  sr_read : list Counter;
  sr_missed : list (nat * nat * Counter);
}.

(** Where a call is: before the first load, waiting for the lock, with the lock,
    reading the old bucket, about to install the fresh one, about to archive,
    adding to a bucket, or done. *)
Inductive RecordPc :=
| RStart
| RWait
| RHeld
| RSnap (rest : list Counter) (got : Counter → Z)
| RSwap (snap : TimeBucket)
| RPush (snap : TimeBucket)
| RInc (bucket : nat) (todo : list Counter)
| RDone.

Definition too_late (s : Series) (bucket : nat) (k : Counter) : bool :=
  (bucket <? sr_current s) || bool_decide (bucket = sr_current s) && bool_decide (k ∈ sr_read s).

(** One atomic action of call [i]; [cap] bounds the archive. *)
Definition record_act (cap i : nat) (c : RecordCall) (pc : RecordPc) (s : Series) : option (RecordPc * Series) :=
  match pc with
  | RStart =>
    cur ← sr_heap s !! sr_current s;
    Some (if (cl_ts c <=? tb_timestamp cur)%Z then RInc (sr_current s) (cl_touched c) else RWait, s)
  | RWait =>
    if sr_locked s then None
    else Some (RHeld, {| sr_heap := sr_heap s; sr_current := sr_current s; sr_archive := sr_archive s; sr_locked := true;
                         sr_dropped := sr_dropped s; sr_read := sr_read s; sr_missed := sr_missed s |})
  | RHeld =>
    cur ← sr_heap s !! sr_current s;
    if (cl_ts c <=? tb_timestamp cur)%Z then
      Some (RInc (sr_current s) (cl_touched c),
            {| sr_heap := sr_heap s; sr_current := sr_current s; sr_archive := sr_archive s; sr_locked := false;
               sr_dropped := sr_dropped s; sr_read := sr_read s; sr_missed := sr_missed s |})
    else Some (RSnap all_counters zero_counts, s)
  | RSnap (k :: rest) got =>
    cur ← sr_heap s !! sr_current s;
    Some (RSnap rest (set_count got k (tb_count cur k)),
          {| sr_heap := sr_heap s; sr_current := sr_current s; sr_archive := sr_archive s; sr_locked := sr_locked s;
             sr_dropped := sr_dropped s; sr_read := k :: sr_read s; sr_missed := sr_missed s |})
  | RSnap [] got =>
    cur ← sr_heap s !! sr_current s;
    Some (RSwap {| tb_timestamp := tb_timestamp cur; tb_count := got |}, s)
  | RSwap snap =>
    Some (RPush snap,
          {| sr_heap := sr_heap s ++ [fresh_bucket (cl_ts c) (cl_touched c)]; sr_current := length (sr_heap s); sr_archive := sr_archive s;
             sr_locked := sr_locked s; sr_dropped := sr_dropped s; sr_read := []; sr_missed := sr_missed s |})
  | RPush snap =>
    let all := sr_archive s ++ [snap] in
    let over := length all - cap in
    Some (RDone,
          {| sr_heap := sr_heap s; sr_current := sr_current s; sr_archive := drop over all; sr_locked := false;
             sr_dropped := sr_dropped s ++ take over all; sr_read := sr_read s; sr_missed := sr_missed s |})
  | RInc bucket (k :: todo) =>
    b ← sr_heap s !! bucket;
    Some (RInc bucket todo,
          {| sr_heap := <[bucket := fetch_add b k]> (sr_heap s); sr_current := sr_current s; sr_archive := sr_archive s; sr_locked := sr_locked s;
             sr_dropped := sr_dropped s; sr_read := sr_read s;
             sr_missed := if too_late s bucket k then (i, bucket, k) :: sr_missed s else sr_missed s |})
  | RInc _ [] => Some (RDone, s)
  | RDone => None
  end.

(** Any call may move next. *)
Inductive record_step (cap : nat) (calls : list RecordCall) : list RecordPc * Series → list RecordPc * Series → Prop :=
| record_step_at i c pc pc' pcs s s' :
    calls !! i = Some c → pcs !! i = Some pc → record_act cap i c pc s = Some (pc', s') →
    record_step cap calls (pcs, s) (<[i := pc']> pcs, s').

Definition series_new (ts : Z) : Series :=
  {| sr_heap := [CurrentBucket_new ts]; sr_current := 0; sr_archive := []; sr_locked := false; sr_dropped := []; sr_read := []; sr_missed := [] |}.

(** ** Reading *)

Definition sum_buckets (a b : TimeBucket) : TimeBucket :=
  {| tb_timestamp := tb_timestamp a; tb_count := fun k => Z.min U64_MAX (tb_count a k + tb_count b k) |}.

(** The entry of a timestamp in a [BTreeMap], kept in order. *)
Fixpoint add_to (acc : list TimeBucket) (b : TimeBucket) : list TimeBucket :=
  match acc with
  | [] => [b]
  | e :: acc =>
    if (tb_timestamp b <? tb_timestamp e)%Z then b :: e :: acc
    else if (tb_timestamp b =? tb_timestamp e)%Z then sum_buckets e b :: acc
    else e :: add_to acc b
  end.

Definition dedupe_by_timestamp_summing (input : list TimeBucket) : list TimeBucket := foldl add_to [] input.

Definition merge_current_into_snapshot (result : list TimeBucket) (current : TimeBucket) : list TimeBucket :=
  match last result with
  | Some l => if (tb_timestamp l =? tb_timestamp current)%Z then removelast result ++ [sum_buckets l current] else result ++ [current]
  | None => result ++ [current]
  end.

Definition hourly_snapshot (archive : list TimeBucket) (current : TimeBucket) : list TimeBucket :=
  dedupe_by_timestamp_summing (if (0 <? tb_count current Queries)%Z then merge_current_into_snapshot archive current else archive).

Definition hour_in_24h_window (timestamp now : Z) : bool :=
  let the_end := truncate_hour now in
  let timestamp := truncate_hour timestamp in
  (Z.max 0 (the_end - 23 * SECS_PER_HOUR) <=? timestamp)%Z && (timestamp <=? the_end)%Z.

Definition at_day (b : TimeBucket) : TimeBucket := {| tb_timestamp := truncate_day (tb_timestamp b); tb_count := tb_count b |}.

Definition normalize_daily_buckets (buckets : list TimeBucket) (now : Z) : list TimeBucket :=
  let today := truncate_day now in
  let start := Z.max 0 (today - (Z.of_nat MAX_DAILY - 1) * SECS_PER_DAY) in
  dedupe_by_timestamp_summing (filter (fun b => (start ≤ tb_timestamp b ≤ today)%Z) (map at_day buckets)).

Definition daily_snapshot_at (archive : list TimeBucket) (current : TimeBucket) (now : Z) : list TimeBucket :=
  normalize_daily_buckets (if (0 <? tb_count current Queries)%Z then archive ++ [current] else archive) now.

(** The sums by query type over the last 24 hours. *)
Definition per_type_24h_from_buckets (hourly : list TimeBucket) (now : Z) : Counter → Z :=
  tb_count (foldl sum_buckets (CurrentBucket_new 0) (filter (fun b => hour_in_24h_window (tb_timestamp b) now = true) hourly)).

(** [load]: the last entries that fit. *)
Definition keep_last (cap : nat) (l : list TimeBucket) : list TimeBucket := drop (length l - cap) l.

Definition load_hourly (hourly : list TimeBucket) : list TimeBucket := keep_last MAX_HOURLY (dedupe_by_timestamp_summing hourly).

Definition load_daily (daily : list TimeBucket) : list TimeBucket := keep_last MAX_DAILY (dedupe_by_timestamp_summing (map at_day daily)).
