(* ===== verification/TimeSeriesProofs.v ===== *)
(** * What the counters account for: proofs about [TimeSeries]

    Every interleaving of calls of [record_into] is covered by one invariant:
    who has the lock and how far its rollover is, and for each bucket how its
    archived form differs from it.  From it follow what a finished run has
    counted, and what was lost.  The second part is the merge of fragments when
    a snapshot is read or loaded. *)

From S2P Require Import Prelude RustStr TimeSeries.

(** ** Sums *)

Definition zsum (l : list Z) : Z := foldr Z.add 0%Z l.

Lemma zsum_cons x l : zsum (x :: l) = (x + zsum l)%Z.
Proof. done. Qed.

Lemma zsum_app l l' : zsum (l ++ l') = (zsum l + zsum l')%Z.
Proof. induction l as [|x l IH]; [done|]. rewrite <- app_comm_cons, !zsum_cons, IH. lia. Qed.

Lemma zsum_insert {A} (f : A → Z) l i x y : l !! i = Some x → (zsum (map f (<[i := y]> l)) = zsum (map f l) - f x + f y)%Z.
Proof.
  intros Hi. rewrite insert_take_drop by (by apply lookup_lt_Some in Hi).
  replace (map f l) with (map f (take i l ++ x :: drop (S i) l)) by (by rewrite take_drop_middle).
  rewrite !map_app, !map_cons, !zsum_app, !zsum_cons. lia.
Qed.

Lemma zsum_nonneg {A} (f : A → Z) l : (∀ y, y ∈ l → 0 ≤ f y)%Z → (0 ≤ zsum (map f l))%Z.
Proof.
  induction l as [|z l IH]; intros Hf; [done|]. rewrite map_cons, zsum_cons. pose proof (Hf z ltac:(by left)).
  assert (0 ≤ zsum (map f l))%Z; [|lia]. apply IH. intros w Hw. apply Hf. by right.
Qed.

Lemma zsum_elem {A} (f : A → Z) l i x : (∀ y, y ∈ l → 0 ≤ f y)%Z → l !! i = Some x → (f x ≤ zsum (map f l))%Z.
Proof.
  intros Hf Hi. rewrite <- (take_drop_middle l i x Hi), map_app, map_cons, zsum_app, zsum_cons.
  assert (∀ l', (∀ y, y ∈ l' → y ∈ l) → 0 ≤ zsum (map f l'))%Z as H by (intros l' Hl'; apply zsum_nonneg; auto).
  assert (0 ≤ zsum (map f (take i l)))%Z by (apply H; intros y Hy; by eapply elem_of_take in Hy as (? & ? & _); eapply list_elem_of_lookup_2).
  assert (0 ≤ zsum (map f (drop (S i) l)))%Z; [|lia]. apply H. intros y Hy. rewrite <- (take_drop (S i) l). apply elem_of_app. by right.
Qed.

Lemma zsum_bound {A} (f : A → Z) l : (∀ y, y ∈ l → f y ≤ 1)%Z → (zsum (map f l) ≤ Z.of_nat (length l))%Z.
Proof.
  induction l as [|y l IH]; intros Hf; [done|]. rewrite map_cons, zsum_cons. cbn [length]. pose proof (Hf y ltac:(by left)).
  assert (zsum (map f l) ≤ Z.of_nat (length l))%Z by (apply IH; intros w Hw; apply Hf; by right). lia.
Qed.

(** ** What the counters account for *)

(** The additions to a counter of a bucket that came too late. *)
Definition late (s : Series) (bucket : nat) (k : Counter) : Z :=
  Z.of_nat (length (filter (fun m => m.1.2 = bucket ∧ m.2 = k) (sr_missed s))).

Definition in_section (pc : RecordPc) : bool := match pc with RHeld | RSnap _ _ | RSwap _ | RPush _ => true | _ => false end.

(** What a call has added to a counter so far. *)
Definition executed (k : Counter) (p : RecordCall * RecordPc) : Z :=
  match p.2 with
  | RInc _ todo => if decide (k ∈ cl_touched p.1 ∧ k ∉ todo) then 1 else 0
  | RPush _ | RDone => if decide (k ∈ cl_touched p.1) then 1 else 0
  | _ => 0
  end.

(** The call that has the lock, if any. *)
Inductive holds (calls : list RecordCall) (pcs : list RecordPc) (locked : bool) : option (RecordCall * RecordPc) → Prop :=
| holds_none : locked = false → (∀ j pc, pcs !! j = Some pc → in_section pc = false) → holds calls pcs locked None
| holds_some h c pc : locked = true → calls !! h = Some c → pcs !! h = Some pc → in_section pc = true →
    (∀ j pc', j ≠ h → pcs !! j = Some pc' → in_section pc' = false) → holds calls pcs locked (Some (c, pc)).

Definition not_late (s : Series) : Prop := ∀ k, k ∉ sr_read s → late s (sr_current s) k = 0%Z.

(** How far the rollover is with the current bucket. *)
Definition phase_ok (s : Series) (cur : TimeBucket) (ph : option (RecordCall * RecordPc)) : Prop :=
  not_late s ∧
  match ph with
  | None | Some (_, RHeld) | Some (_, RPush _) => sr_read s = []
  | Some (c, RSnap rest got) =>
    all_counters = reverse (sr_read s) ++ rest ∧ (tb_timestamp cur < cl_ts c)%Z
    ∧ ∀ k, k ∈ sr_read s → tb_count cur k = (got k + late s (sr_current s) k)%Z
  | Some (c, RSwap snap) =>
    tb_timestamp snap = tb_timestamp cur ∧ (tb_timestamp cur < cl_ts c)%Z
    ∧ ∀ k, k ∈ all_counters → k ∈ sr_read s ∧ tb_count cur k = (tb_count snap k + late s (sr_current s) k)%Z
  | _ => False
  end.

Definition pushing (ph : option (RecordCall * RecordPc)) : list TimeBucket := match ph with Some (_, RPush snap) => [snap] | _ => [] end.

Definition archived (s : Series) (ph : option (RecordCall * RecordPc)) : list TimeBucket := sr_dropped s ++ sr_archive s ++ pushing ph.

Record shared_ok (cap : nat) (s : Series) (ph : option (RecordCall * RecordPc)) : Prop := {
  so_len : length (sr_heap s) = S (sr_current s);
  so_asc : ∀ i j a b, i < j → sr_heap s !! i = Some a → sr_heap s !! j = Some b → (tb_timestamp a < tb_timestamp b)%Z;
  so_all : length (archived s ph) = sr_current s;
  so_match : ∀ j t b, archived s ph !! j = Some t → sr_heap s !! j = Some b →
    tb_timestamp t = tb_timestamp b ∧ ∀ k, k ∈ all_counters → tb_count b k = (tb_count t k + late s j k)%Z;
  so_phase : ∀ cur, sr_heap s !! sr_current s = Some cur → phase_ok s cur ph;
  so_missed : ∀ m, m ∈ sr_missed s → m.1.2 ≤ sr_current s;
  so_cap : length (sr_archive s) ≤ cap;
  so_pos : ∀ b k, b ∈ sr_heap s → (0 ≤ tb_count b k)%Z;
}.

Definition thread_ok (s : Series) (c : RecordCall) (pc : RecordPc) : Prop :=
  match pc with
  | RInc b todo => (∃ past, cl_touched c = past ++ todo) ∧ ∃ bk, sr_heap s !! b = Some bk ∧ (cl_ts c ≤ tb_timestamp bk)%Z
  | _ => True
  end.

Record Inv (cap : nat) (calls : list RecordCall) (cfg : list RecordPc * Series) : Prop := {
  iv_len : length cfg.1 = length calls;
  iv_shared : ∃ ph, holds calls cfg.1 (sr_locked cfg.2) ph ∧ shared_ok cap cfg.2 ph;
  iv_threads : ∀ i c pc, calls !! i = Some c → cfg.1 !! i = Some pc → thread_ok cfg.2 c pc;
  iv_sum : ∀ k, zsum (map (fun b => tb_count b k) (sr_heap cfg.2)) = zsum (map (executed k) (zip calls cfg.1));
  iv_once : NoDup (sr_missed cfg.2);
  iv_who : ∀ i b k, (i, b, k) ∈ sr_missed cfg.2 → ∃ c pc bk, calls !! i = Some c ∧ cfg.1 !! i = Some pc ∧ executed k (c, pc) = 1%Z ∧ sr_heap cfg.2 !! b = Some bk ∧ (cl_ts c ≤ tb_timestamp bk)%Z;
}.

(** ** Moving one call *)

Lemma holds_other calls pcs locked ph i pc pc' :
  holds calls pcs locked ph → pcs !! i = Some pc → in_section pc = false → in_section pc' = false → holds calls (<[i := pc']> pcs) locked ph.
Proof.
  intros Hh Hi Hs Hs'. destruct Hh as [Hl Hn|h c pc0 Hl Hc Hp Hin Hn].
  - apply holds_none; [done|]. intros j q Hj. destruct (decide (j = i)) as [->|Hne].
    + rewrite list_lookup_insert_eq in Hj by (by eapply lookup_lt_Some). by injection Hj as <-.
    + rewrite list_lookup_insert_ne in Hj by done. by eapply Hn.
  - assert (h ≠ i) as Hne by (intros ->; congruence). apply (holds_some _ _ _ h); try done; [by rewrite list_lookup_insert_ne|].
    intros j q Hjh Hj. destruct (decide (j = i)) as [->|Hne'].
    + rewrite list_lookup_insert_eq in Hj by (by eapply lookup_lt_Some). by injection Hj as <-.
    + rewrite list_lookup_insert_ne in Hj by done. by eapply Hn.
Qed.

(** The call in the section is the one that has the lock. *)
Lemma holds_self calls pcs locked ph i c pc :
  holds calls pcs locked ph → calls !! i = Some c → pcs !! i = Some pc → in_section pc = true →
  locked = true ∧ ph = Some (c, pc) ∧
  (∀ pc', in_section pc' = true → holds calls (<[i := pc']> pcs) true (Some (c, pc')))
  ∧ (∀ pc', in_section pc' = false → holds calls (<[i := pc']> pcs) false None).
Proof.
  intros Hh Hc Hi Hs. destruct Hh as [Hl Hn|h c0 pc0 Hl Hc0 Hp Hin Hn]; [by rewrite (Hn i pc Hi) in Hs|].
  assert (i = h) as ->. { destruct (decide (i = h)) as [|Hne]; [done|]. by rewrite (Hn i pc Hne Hi) in Hs. }
  rewrite Hc in Hc0. injection Hc0 as <-. rewrite Hi in Hp. injection Hp as <-. split_and!; try done.
  - intros pc' Hs'. apply (holds_some _ _ _ h); try done; [by rewrite list_lookup_insert_eq by (by eapply lookup_lt_Some)|].
    intros j q Hne Hj. rewrite list_lookup_insert_ne in Hj by done. by eapply Hn.
  - intros pc' Hs'. apply holds_none; [done|]. intros j q Hj. destruct (decide (j = h)) as [->|Hne].
    + rewrite list_lookup_insert_eq in Hj by (by eapply lookup_lt_Some). by injection Hj as <-.
    + rewrite list_lookup_insert_ne in Hj by done. by eapply Hn.
Qed.

Lemma zip_insert (calls : list RecordCall) (pcs : list RecordPc) i c (pc' : RecordPc) : calls !! i = Some c → zip calls (<[i := pc']> pcs) = <[i := (c, pc')]> (zip calls pcs).
Proof. intros Hc. rewrite <- (list_insert_id calls i c Hc) at 1. symmetry. apply insert_zip_with. Qed.

Lemma zip_lookup (calls : list RecordCall) (pcs : list RecordPc) i c (pc : RecordPc) : calls !! i = Some c → pcs !! i = Some pc → zip calls pcs !! i = Some (c, pc).
Proof. intros Hc Hp. by rewrite lookup_zip_with, Hc, Hp. Qed.

Lemma executed_bit k p : executed k p = 0%Z ∨ executed k p = 1%Z.
Proof. unfold executed. destruct p.2; repeat case_decide; auto. Qed.

Lemma touched_nodup c : NoDup (cl_touched c).
Proof.
  unfold cl_touched, touched. destruct (cl_blocked c), (cl_cache_hit c), (cl_bucket c <? TYPE_BUCKET_COUNT); cbn;
    repeat (constructor; [set_solver|]); constructor.
Qed.

(** A counter is added to once: before its turn nothing, after it one. *)
Lemma executed_inc c past k todo b k' : cl_touched c = past ++ k :: todo →
  executed k' (c, RInc b todo) = (executed k' (c, RInc b (k :: todo)) + (if decide (k' = k) then 1 else 0))%Z
  ∧ (k' = k → executed k' (c, RInc b (k :: todo)) = 0%Z).
Proof.
  intros Ht. pose proof (touched_nodup c) as Hnd. rewrite Ht in Hnd. apply NoDup_app in Hnd as (_ & _ & Hnd). apply NoDup_cons in Hnd as [Hnd _].
  unfold executed. cbn [fst snd]. rewrite Ht. destruct (decide (k' = k)) as [->|Hne].
  - rewrite decide_True by set_solver. rewrite decide_False by set_solver. done.
  - split; [|done]. rewrite Z.add_0_r. apply decide_ext. set_solver.
Qed.

Definition same_buckets (s s' : Series) : Prop :=
  ∀ b bk, sr_heap s !! b = Some bk → ∃ bk', sr_heap s' !! b = Some bk' ∧ tb_timestamp bk' = tb_timestamp bk.

Definition missed_by (i : nat) (c : RecordCall) (was now : Counter → Z) (s s' : Series) : Prop :=
  sr_missed s' = sr_missed s ∨ ∃ b k, sr_missed s' = (i, b, k) :: sr_missed s ∧ was k = 0%Z ∧ now k = 1%Z
    ∧ ∃ bk, sr_heap s' !! b = Some bk ∧ (cl_ts c ≤ tb_timestamp bk)%Z.

Lemma same_buckets_refl s s' : sr_heap s' = sr_heap s → same_buckets s s'.
Proof. intros He b bk Hb. exists bk. by rewrite He. Qed.

(** What one action has to show. *)
Lemma inv_move cap calls pcs s i c pc pc' s' :
  Inv cap calls (pcs, s) → calls !! i = Some c → pcs !! i = Some pc →
  (∃ ph, holds calls (<[i := pc']> pcs) (sr_locked s') ph ∧ shared_ok cap s' ph) →
  same_buckets s s' → thread_ok s' c pc' →
  (∀ k, zsum (map (fun b => tb_count b k) (sr_heap s'))
        = zsum (map (fun b => tb_count b k) (sr_heap s)) + (executed k (c, pc') - executed k (c, pc)))%Z →
  (∀ k, executed k (c, pc) ≤ executed k (c, pc'))%Z →
  missed_by i c (fun k => executed k (c, pc)) (fun k => executed k (c, pc')) s s' →
  Inv cap calls (<[i := pc']> pcs, s').
Proof.
  intros [Hlen Hsh Hth Hsum Hnd Hwho] Hc Hi Hph Hsame Hok Hz Hmono Hmiss. cbn [fst snd] in *.
  assert (∀ i0 b k, (i0, b, k) ∈ sr_missed s → ∃ c0 pc0 bk, calls !! i0 = Some c0 ∧ <[i := pc']> pcs !! i0 = Some pc0
            ∧ executed k (c0, pc0) = 1%Z ∧ sr_heap s' !! b = Some bk ∧ (cl_ts c0 ≤ tb_timestamp bk)%Z) as Hold.
  { intros i0 b k Hm. destruct (Hwho _ _ _ Hm) as (c0 & pc0 & bk & Hc0 & Hp0 & He & Hb & Hts). destruct (Hsame _ _ Hb) as (bk' & Hb' & Hts').
    rewrite <- Hts' in Hts. destruct (decide (i0 = i)) as [->|Hne].
    - rewrite Hc in Hc0. injection Hc0 as <-. rewrite Hi in Hp0. injection Hp0 as <-. exists c, pc', bk'. rewrite list_lookup_insert_eq by (by eapply lookup_lt_Some). split_and!; try done.
      pose proof (Hmono k). destruct (executed_bit k (c, pc')); lia.
    - exists c0, pc0, bk'. by rewrite list_lookup_insert_ne. }
  constructor; cbn [fst snd].
  - by rewrite length_insert.
  - done.
  - intros i0 c0 pc0 Hc0 Hp0. destruct (decide (i0 = i)) as [->|Hne].
    + rewrite list_lookup_insert_eq in Hp0 by (by eapply lookup_lt_Some). by simplify_eq.
    + rewrite list_lookup_insert_ne in Hp0 by done. pose proof (Hth _ _ _ Hc0 Hp0) as Ht. destruct pc0 as [| | | | | |b todo|]; try done.
      destruct Ht as (Hpast & bk & Hb & Hts). split; [done|]. destruct (Hsame _ _ Hb) as (bk' & Hb' & He). exists bk'. by rewrite He.
  - intros k. rewrite (zip_insert calls pcs i c pc' Hc), (zsum_insert _ _ _ _ _ (zip_lookup _ _ _ _ _ Hc Hi)), Hz, Hsum. lia.
  - destruct Hmiss as [->|(b & k & -> & H0 & _ & _)]; [done|]. apply NoDup_cons. split; [|done]. intros Hm.
    destruct (Hwho _ _ _ Hm) as (c0 & pc0 & _ & Hc0 & Hp0 & He & _). simplify_eq. lia.
  - intros i0 b0 k0 Hm. destruct Hmiss as [He|(b & k & He & _ & H1 & bk & Hb & Hts)]; rewrite He in Hm; [by eapply Hold|].
    apply elem_of_cons in Hm as [Heq|Hm]; [|by eapply Hold]. simplify_eq. exists c, pc', bk.
    rewrite list_lookup_insert_eq by (by eapply lookup_lt_Some). done.
Qed.

(** ** The shared state *)

Lemma late_same s s' : sr_missed s' = sr_missed s → ∀ j k, late s' j k = late s j k.
Proof. intros He j k. unfold late. by rewrite He. Qed.

Lemma shared_rephase cap s ph s' ph' :
  shared_ok cap s ph → sr_heap s' = sr_heap s → sr_current s' = sr_current s → sr_archive s' = sr_archive s → sr_dropped s' = sr_dropped s →
  sr_missed s' = sr_missed s → pushing ph' = pushing ph →
  (∀ cur, sr_heap s !! sr_current s = Some cur → phase_ok s cur ph → phase_ok s' cur ph') → shared_ok cap s' ph'.
Proof.
  intros [H1 H2 H3 H4 H5 H6 H7 H8] Eh Ec Ea Ed Em Ep Hph. assert (archived s' ph' = archived s ph) as Ear by (unfold archived; by rewrite Ea, Ed, Ep).
  constructor; rewrite ?Eh, ?Ec, ?Ea, ?Em, ?Ear; try done.
  - intros j t b Ht Hb. destruct (H4 j t b Ht Hb) as [? Hk]. split; [done|]. intros k Hin. rewrite (late_same s s' Em). auto.
  - intros cur Hcur. apply Hph; auto.
Qed.

Lemma late_fresh s j k : (∀ m, m ∈ sr_missed s → m.1.2 ≤ sr_current s) → sr_current s < j → late s j k = 0%Z.
Proof.
  intros Hm Hj. unfold late. destruct (filter _ _) as [|m l] eqn:E; [done|]. exfalso.
  assert (m ∈ filter (fun m => m.1.2 = j ∧ m.2 = k) (sr_missed s)) as Hin by (rewrite E; by left).
  apply list_elem_of_filter in Hin as [[? _] Hin]. specialize (Hm m Hin). lia.
Qed.

(** Installing the fresh bucket: what was read of the old one is its archived
    form, and nothing has come late for the fresh one. *)
Lemma shared_swap cap s c snap :
  shared_ok cap s (Some (c, RSwap snap)) →
  shared_ok cap {| sr_heap := sr_heap s ++ [fresh_bucket (cl_ts c) (cl_touched c)]; sr_current := length (sr_heap s); sr_archive := sr_archive s;
                   sr_locked := sr_locked s; sr_dropped := sr_dropped s; sr_read := []; sr_missed := sr_missed s |} (Some (c, RPush snap)).
Proof.
  intros [H1 H2 H3 H4 H5 H6 H7 H8]. unfold archived, pushing in *. rewrite app_nil_r in *.
  destruct (lookup_lt_is_Some_2 (sr_heap s) (sr_current s) ltac:(lia)) as [cur Hcur]. destruct (H5 cur Hcur) as (_ & Hts & Hlt & Hk).
  constructor; cbn [sr_heap sr_current sr_archive sr_dropped sr_missed]; unfold archived, pushing; cbn [sr_archive sr_dropped].
  - rewrite length_app. cbn. lia.
  - intros i j a b Hij Ha Hb. apply lookup_snoc_Some in Hb as [[Hj Hb]|[-> <-]].
    + rewrite lookup_app_l in Ha by lia. exact (H2 i j a b Hij Ha Hb).
    + rewrite lookup_app_l in Ha by lia. cbn. destruct (decide (i = sr_current s)) as [->|Hne]; [by simplify_eq|].
      pose proof (H2 i (sr_current s) a cur ltac:(lia) Ha Hcur). lia.
  - rewrite app_assoc, length_app, H3. cbn. lia.
  - intros j t b Ht Hb. rewrite app_assoc in Ht. apply lookup_snoc_Some in Ht as [[Hj Ht]|[-> <-]].
    + rewrite lookup_app_l in Hb by lia. exact (H4 j t b Ht Hb).
    + rewrite H3 in *. rewrite lookup_app_l in Hb by lia. simplify_eq. split; [done|]. intros k Hin. by apply Hk.
  - intros cur' _. split; [|done]. intros k _. apply (late_fresh s); [done|]. cbn. lia.
  - intros m Hm. specialize (H6 m Hm). lia.
  - done.
  - intros b k Hb. apply elem_of_app in Hb as [Hb|Hb]; [by apply H8|]. apply list_elem_of_singleton in Hb as ->. cbn. case_decide; lia.
Qed.

Lemma shared_push cap s c snap :
  let all := sr_archive s ++ [snap] in let over := length all - cap in
  shared_ok cap s (Some (c, RPush snap)) →
  shared_ok cap {| sr_heap := sr_heap s; sr_current := sr_current s; sr_archive := drop over all; sr_locked := false;
                   sr_dropped := sr_dropped s ++ take over all; sr_read := sr_read s; sr_missed := sr_missed s |} None.
Proof.
  intros all over [H1 H2 H3 H4 H5 H6 H7 H8].
  assert ((sr_dropped s ++ take over all) ++ drop over all ++ [] = archived s (Some (c, RPush snap))) as Ear.
  { unfold archived. cbn [pushing]. by rewrite app_nil_r, <- app_assoc, take_drop. }
  constructor; unfold archived; cbn [sr_heap sr_current sr_archive sr_dropped sr_missed pushing]; rewrite ?Ear; try done.
  rewrite length_drop. lia.
Qed.

Lemma late_add s s' i b k j k' :
  sr_missed s' = (if too_late s b k then (i, b, k) :: sr_missed s else sr_missed s) →
  late s' j k' = (late s j k' + (if decide (too_late s b k = true ∧ j = b ∧ k' = k) then 1 else 0))%Z.
Proof.
  intros He. unfold late. rewrite He. destruct (too_late s b k); [|rewrite decide_False by naive_solver; lia].
  rewrite filter_cons. cbn [fst snd]. destruct (decide (b = j ∧ k = k')) as [[-> ->]|Hne].
  - rewrite decide_True by done. cbn [length]. lia.
  - rewrite decide_False by naive_solver. lia.
Qed.

Lemma count_add b k k' : (0 ≤ tb_count b k < U64_MAX)%Z → tb_count (fetch_add b k) k' = (tb_count b k' + (if decide (k' = k) then 1 else 0))%Z.
Proof.
  intros Hb. cbn. unfold set_count. case_decide as E; [|lia]. rewrite E. unfold as_u64. rewrite Z.mod_small; [done|]. unfold U64_MAX in *. lia.
Qed.

Lemma phase_inc s s' i b k x y ph :
  sr_current s' = sr_current s → sr_read s' = sr_read s → sr_missed s' = (if too_late s b k then (i, b, k) :: sr_missed s else sr_missed s) →
  tb_timestamp x = tb_timestamp y → (∀ k', tb_count x k' = (tb_count y k' + (if decide (sr_current s = b ∧ k' = k) then 1 else 0))%Z) →
  phase_ok s y ph → phase_ok s' x ph.
Proof.
  intros Ec Er Em Hts Hc [Hnl Hph].
  assert (∀ k', k' ∈ sr_read s → late s' (sr_current s) k' = (late s (sr_current s) k' + (if decide (sr_current s = b ∧ k' = k) then 1 else 0))%Z) as Hin.
  { intros k' Hk'. rewrite (late_add s s' i b k _ k' Em). f_equal. apply decide_ext. split; [naive_solver|]. intros [<- ->]. split_and!; try done.
    unfold too_late. rewrite !bool_decide_eq_true_2 by done. apply orb_true_r. }
  split.
  - intros k' Hk'. rewrite Er in Hk'. rewrite Ec, (late_add s s' i b k _ k' Em), (Hnl k' Hk'). rewrite decide_False; [done|].
    intros (Ht & <- & ->). unfold too_late in Ht. rewrite Nat.ltb_irrefl, (bool_decide_eq_false_2 (k ∈ sr_read s)) in Ht by done. by rewrite andb_false_r in Ht.
  - destruct ph as [[c pc]|]; [|by rewrite Er]. destruct pc as [| | |rest got|snap|snap| |]; try done; rewrite ?Er, ?Ec, ?Hts; try done.
    + destruct Hph as (? & ? & Hk). split_and!; try done. intros k' Hk'. rewrite Hc, (Hk k' Hk'), (Hin k' Hk'). lia.
    + destruct Hph as (? & ? & Hk). split_and!; try done. intros k' Hk'. destruct (Hk k' Hk') as [Hr He]. split; [done|]. rewrite Hc, He, (Hin k' Hr). lia.
Qed.

(** An addition is seen by the rollover exactly when it does not come late. *)
Lemma shared_inc cap s ph i b bk k s' :
  shared_ok cap s ph → sr_heap s !! b = Some bk → (tb_count bk k < U64_MAX)%Z →
  sr_heap s' = <[b := fetch_add bk k]> (sr_heap s) → sr_current s' = sr_current s → sr_archive s' = sr_archive s → sr_dropped s' = sr_dropped s →
  sr_read s' = sr_read s → sr_missed s' = (if too_late s b k then (i, b, k) :: sr_missed s else sr_missed s) →
  shared_ok cap s' ph.
Proof.
  intros [H1 H2 H3 H4 H5 H6 H7 H8] Hb Hmax Eh Ec Ea Ed Er Em. pose proof (lookup_lt_Some _ _ _ Hb) as Hlt.
  assert (0 ≤ tb_count bk k)%Z as Hpos by (apply H8; by eapply list_elem_of_lookup_2).
  assert (archived s' ph = archived s ph) as Ear by (unfold archived; by rewrite Ea, Ed).
  assert (∀ j x, sr_heap s' !! j = Some x → ∃ y, sr_heap s !! j = Some y ∧ tb_timestamp x = tb_timestamp y
            ∧ ∀ k', tb_count x k' = (tb_count y k' + (if decide (j = b ∧ k' = k) then 1 else 0))%Z) as Hx.
  { intros j x. rewrite Eh. destruct (decide (j = b)) as [->|Hne].
    - rewrite list_lookup_insert_eq by done. intros [= <-]. exists bk. split_and!; try done. intros k'.
      rewrite count_add by lia. f_equal. apply decide_ext. naive_solver.
    - rewrite list_lookup_insert_ne by done. intros Hx. exists x. split_and!; try done. intros k'. rewrite decide_False by naive_solver. lia. }
  constructor; rewrite ?Ear, ?Ec, ?Ea; try done.
  - by rewrite Eh, length_insert.
  - intros j l x y Hjl Hj Hl. destruct (Hx _ _ Hj) as (x' & Hj' & -> & _), (Hx _ _ Hl) as (y' & Hl' & -> & _). exact (H2 j l x' y' Hjl Hj' Hl').
  - intros j t x Ht Hj. destruct (Hx _ _ Hj) as (y & Hy & -> & Hc). destruct (H4 j t y Ht Hy) as [Hts Hk]. split; [done|]. intros k' Hin.
    rewrite Hc, (Hk k' Hin), (late_add s s' i b k j k' Em), <- Z.add_assoc. do 2 f_equal. apply decide_ext.
    split; [intros [-> ->]|naive_solver]. split_and!; try done. unfold too_late. apply lookup_lt_Some in Ht. rewrite (proj2 (Nat.ltb_lt _ _)) by lia. done.
  - intros x Hx'. destruct (Hx _ _ Hx') as (y & Hy & Hts & Hc). eapply (phase_inc s s' i b k x y ph); try done. apply H5. done.
  - intros m. rewrite Em. destruct (too_late s b k); [|auto]. intros [->|Hm]%elem_of_cons; [cbn; lia|auto].
  - intros x k' Hin. apply list_elem_of_lookup in Hin as [j Hj]. destruct (Hx _ _ Hj) as (y & Hy & _ & ->).
    pose proof (H8 y k' ltac:(by eapply list_elem_of_lookup_2)). case_decide; lia.
Qed.

(** ** Every action keeps the account *)

(** No counter can wrap while a call still has to add to it. *)
Lemma room_left cap calls pcs s i c b bk past k todo :
  Inv cap calls (pcs, s) → (Z.of_nat (length calls) ≤ U64_MAX)%Z → calls !! i = Some c → pcs !! i = Some (RInc b (k :: todo)) →
  cl_touched c = past ++ k :: todo → sr_heap s !! b = Some bk → (tb_count bk k < U64_MAX)%Z.
Proof.
  intros [Hlen (ph & _ & Hsh) _ Hsum _ _] Hmax Hc Hi Hpast Hb. cbn [fst snd] in *.
  pose proof (zsum_elem (fun b => tb_count b k) (sr_heap s) b bk (fun y Hy => so_pos _ _ _ Hsh y k Hy) Hb) as Hle. rewrite Hsum in Hle.
  pose proof (zsum_insert (executed k) (zip calls pcs) i _ (c, RInc b todo) (zip_lookup _ _ _ _ _ Hc Hi)) as Hins.
  destruct (executed_inc c past k todo b k Hpast) as [Hone Hzero]. rewrite decide_True in Hone by done. specialize (Hzero eq_refl).
  assert (zsum (map (executed k) (<[i := (c, RInc b todo)]> (zip calls pcs))) ≤ Z.of_nat (length calls))%Z as Hbound.
  { etrans; [apply zsum_bound; intros p _; destruct (executed_bit k p); lia|]. rewrite length_insert, length_zip_with. lia. }
  cbn beta in Hle. lia.
Qed.

Lemma inv_inc cap calls pcs s i c b k todo bk :
  Inv cap calls (pcs, s) → (Z.of_nat (length calls) ≤ U64_MAX)%Z → calls !! i = Some c → pcs !! i = Some (RInc b (k :: todo)) →
  sr_heap s !! b = Some bk →
  Inv cap calls (<[i := RInc b todo]> pcs,
    {| sr_heap := <[b := fetch_add bk k]> (sr_heap s); sr_current := sr_current s; sr_archive := sr_archive s; sr_locked := sr_locked s;
       sr_dropped := sr_dropped s; sr_read := sr_read s;
       sr_missed := if too_late s b k then (i, b, k) :: sr_missed s else sr_missed s |}).
Proof.
  intros Hinv Hmax Hc Hi Hb. destruct (iv_threads _ _ _ Hinv i c _ Hc Hi) as ([past Hpast] & bk' & Hb' & Hts). cbn [fst snd] in Hb'. simplify_eq.
  pose proof (room_left _ _ _ _ _ _ _ _ _ _ _ Hinv Hmax Hc Hi Hpast Hb) as Hroom.
  destruct (iv_shared _ _ _ Hinv) as (ph & Hh & Hsh). cbn [fst snd] in Hh, Hsh. pose proof (lookup_lt_Some _ _ _ Hb) as Hlt.
  assert (0 ≤ tb_count bk k)%Z as Hpos by (apply (so_pos _ _ _ Hsh); by eapply list_elem_of_lookup_2).
  eapply inv_move; try done; cbn [sr_heap sr_locked sr_missed].
  - exists ph. split; [by eapply holds_other|]. by eapply (shared_inc cap s ph i b bk k).
  - intros j x Hj. destruct (decide (j = b)) as [->|Hne]; cbn [sr_heap].
    + rewrite list_lookup_insert_eq by done. simplify_eq. eauto.
    + rewrite list_lookup_insert_ne by done. eauto.
  - split; [exists (past ++ [k]); by rewrite <- app_assoc|]. exists (fetch_add bk k). cbn [sr_heap]. by rewrite list_lookup_insert_eq.
  - intros k'. destruct (executed_inc c past k todo b k' Hpast) as [-> _]. rewrite (zsum_insert _ _ _ _ _ Hb), count_add by lia. lia.
  - intros k'. destruct (executed_inc c past k todo b k' Hpast) as [-> _]. case_decide; lia.
  - unfold missed_by; cbn [sr_missed]. destruct (too_late s b k); [right|by left]. exists b, k.
    destruct (executed_inc c past k todo b k Hpast) as [H1 H0]. rewrite decide_True in H1 by done. specialize (H0 eq_refl). split_and!; [done|done|lia|].
    exists (fetch_add bk k). cbn [sr_heap]. by rewrite list_lookup_insert_eq.
Qed.

Lemma inv_swap cap calls pcs s i c snap :
  Inv cap calls (pcs, s) → calls !! i = Some c → pcs !! i = Some (RSwap snap) →
  Inv cap calls (<[i := RPush snap]> pcs,
    {| sr_heap := sr_heap s ++ [fresh_bucket (cl_ts c) (cl_touched c)]; sr_current := length (sr_heap s); sr_archive := sr_archive s;
       sr_locked := sr_locked s; sr_dropped := sr_dropped s; sr_read := []; sr_missed := sr_missed s |}).
Proof.
  intros Hinv Hc Hi. destruct (iv_shared _ _ _ Hinv) as (ph & Hh & Hsh). cbn [fst snd] in Hh, Hsh.
  destruct (holds_self _ _ _ _ _ _ _ Hh Hc Hi eq_refl) as (Hl & -> & Hin & _).
  eapply inv_move; try done; cbn [sr_heap sr_locked sr_missed].
  - exists (Some (c, RPush snap)). rewrite Hl. split; [by apply Hin|]. rewrite <- Hl. by apply shared_swap.
  - intros b bk Hb. exists bk. cbn [sr_heap]. split; [|done]. rewrite lookup_app_l; [done|by eapply lookup_lt_Some].
  - intros k. rewrite map_app, zsum_app. cbn. case_decide; lia.
  - intros k. cbn. case_decide; lia.
  - by left.
Qed.

(** Actions that only move the call, or the lock, or what has been read. *)
Lemma inv_quiet cap calls pcs s i c pc pc' s' ph ph' :
  Inv cap calls (pcs, s) → calls !! i = Some c → pcs !! i = Some pc →
  shared_ok cap s ph → holds calls (<[i := pc']> pcs) (sr_locked s') ph' →
  sr_heap s' = sr_heap s → sr_current s' = sr_current s → sr_archive s' = sr_archive s → sr_dropped s' = sr_dropped s → sr_missed s' = sr_missed s →
  pushing ph' = pushing ph → (∀ cur, sr_heap s !! sr_current s = Some cur → phase_ok s cur ph → phase_ok s' cur ph') →
  thread_ok s' c pc' → (∀ k, executed k (c, pc') = executed k (c, pc)) → Inv cap calls (<[i := pc']> pcs, s').
Proof.
  intros Hinv Hc Hi Hsh Hh Eh Ec Ea Ed Em Ep Hph Hth Hex. eapply inv_move; try done.
  - exists ph'. split; [done|]. by eapply shared_rephase.
  - by apply same_buckets_refl.
  - intros k. rewrite Eh, Hex. lia.
  - intros k. by rewrite Hex.
  - by left.
Qed.

Lemma executed_start k c b : executed k (c, RInc b (cl_touched c)) = 0%Z.
Proof. unfold executed. cbn [fst snd]. rewrite decide_False by naive_solver. done. Qed.

Lemma executed_end k c b : executed k (c, RDone) = executed k (c, RInc b []).
Proof. unfold executed. cbn [fst snd]. apply decide_ext. set_solver. Qed.

(** Reading one counter: nothing has come late for it, or it was read before. *)
Lemma phase_read s cur c k rest got :
  not_late s → all_counters = reverse (sr_read s) ++ k :: rest → (tb_timestamp cur < cl_ts c)%Z →
  (∀ k', k' ∈ sr_read s → tb_count cur k' = (got k' + late s (sr_current s) k')%Z) →
  phase_ok {| sr_heap := sr_heap s; sr_current := sr_current s; sr_archive := sr_archive s; sr_locked := sr_locked s;
              sr_dropped := sr_dropped s; sr_read := k :: sr_read s; sr_missed := sr_missed s |} cur
           (Some (c, RSnap rest (set_count got k (tb_count cur k)))).
Proof.
  intros Hnl Hall Hlt Hk. split.
  - intros k' Hk'. cbn in Hk'. apply (Hnl k'). set_solver.
  - cbn [sr_read sr_current]. split_and!; [by rewrite reverse_cons, <- app_assoc|done|]. intros k' Hk'. change (late _ _ k') with (late s (sr_current s) k').
    unfold set_count. case_decide as E.
    + rewrite E. rewrite (Hnl k); [lia|]. assert (NoDup all_counters) as Hnd by (apply (bool_decide_unpack _); by vm_compute).
      rewrite Hall in Hnd. apply NoDup_app in Hnd as (_ & Hdis & _). intros Hin. apply (Hdis k); [|by left]. by apply elem_of_reverse.
    + apply Hk. set_solver.
Qed.

Lemma account_step cap calls cfg cfg' :
  (Z.of_nat (length calls) ≤ U64_MAX)%Z → record_step cap calls cfg cfg' → Inv cap calls cfg → Inv cap calls cfg'.
Proof.
  intros Hmax Hstep Hinv. destruct Hstep as [i c pc pc' pcs s s' Hc Hi Hact].
  destruct (iv_shared _ _ _ Hinv) as (ph & Hh & Hsh). cbn [fst snd] in Hh, Hsh.
  destruct pc as [| | |rest got|snap|snap|b todo|]; cbn [record_act] in Hact.
  - apply bind_Some in Hact as (cur & Hcur & [= <- <-]). destruct (cl_ts c <=? tb_timestamp cur)%Z eqn:E.
    + eapply inv_quiet; eauto using holds_other; [|intros k; by rewrite executed_start]. split; [by exists []|]. exists cur. split; [done|lia].
    + eapply inv_quiet; eauto using holds_other. done.
  - destruct (sr_locked s) eqn:El; [done|]. injection Hact as <- <-.
    destruct Hh as [_ Hn|]; [|done]. apply (inv_quiet cap calls pcs s i c RWait RHeld _ None (Some (c, RHeld))); try done.
    apply (holds_some _ _ _ i); try done; [by rewrite list_lookup_insert_eq by (by eapply lookup_lt_Some)|].
    intros j q Hne Hj. rewrite list_lookup_insert_ne in Hj by done. by eapply Hn.
  - apply bind_Some in Hact as (cur & Hcur & Hact). destruct (holds_self _ _ _ _ _ _ _ Hh Hc Hi eq_refl) as (Hl & -> & Hin & Hout).
    destruct (cl_ts c <=? tb_timestamp cur)%Z eqn:E; injection Hact as <- <-.
    + apply (inv_quiet cap calls pcs s i c RHeld _ _ (Some (c, RHeld)) None); try done; [by apply Hout| |intros k; by rewrite executed_start]. split; [by exists []|]. exists cur. split; [done|lia].
    + apply (inv_quiet cap calls pcs s i c RHeld _ _ (Some (c, RHeld)) (Some (c, RSnap all_counters zero_counts))); try done; [rewrite Hl; by apply Hin|]. intros cur' Hcur' [Hnl Hr]. rewrite Hcur in Hcur'. injection Hcur' as <-.
      split; [done|]. rewrite Hr. split_and!; [done|lia|set_solver].
  - destruct (holds_self _ _ _ _ _ _ _ Hh Hc Hi eq_refl) as (Hl & -> & Hin & Hout). destruct rest as [|k rest]; cbn [record_act] in Hact.
    + apply bind_Some in Hact as (cur & Hcur & [= <- <-]).
      apply (inv_quiet cap calls pcs s i c _ _ _ (Some (c, RSnap [] got)) (Some (c, RSwap {| tb_timestamp := tb_timestamp cur; tb_count := got |}))) with (3 := Hi);
        try done; [rewrite Hl; by apply Hin|].
      intros cur' Hcur' (Hnl & Hall & Hlt & Hk). rewrite Hcur in Hcur'. injection Hcur' as <-. split; [done|]. split_and!; try done.
      intros k Hin'. rewrite Hall, app_nil_r in Hin'. assert (k ∈ sr_read s) by (by apply elem_of_reverse).
      split; [done|]. by apply Hk.
    + apply bind_Some in Hact as (cur & Hcur & [= <- <-]).
      apply (inv_quiet cap calls pcs s i c _ _ _ (Some (c, RSnap (k :: rest) got)) (Some (c, RSnap rest (set_count got k (tb_count cur k))))) with (3 := Hi);
        try done; [cbn [sr_locked]; rewrite Hl; by apply Hin|].
      intros cur' Hcur' (Hnl & Hall & Hlt & Hk). rewrite Hcur in Hcur'. injection Hcur' as <-. by apply phase_read.
  - injection Hact as <- <-. by apply inv_swap.
  - injection Hact as <- <-. destruct (holds_self _ _ _ _ _ _ _ Hh Hc Hi eq_refl) as (Hl & -> & Hin & Hout). eapply inv_move; try done.
    + exists None. split; [by apply Hout|]. by eapply shared_push.
    + by apply same_buckets_refl.
    + intros k. change (executed k (c, RDone)) with (executed k (c, RPush snap)). cbn [sr_heap]. lia.
    + by left.
  - destruct todo as [|k todo]; cbn [record_act] in Hact.
    + injection Hact as <- <-. apply (inv_quiet cap calls pcs s i c (RInc b []) RDone s ph ph); eauto using holds_other; [done|]. intros k. exact (executed_end k c b).
    + apply bind_Some in Hact as (bk & Hb & [= <- <-]). by eapply inv_inc.
  - done.
Qed.

(** ** The account of a run *)

Definition all_start (calls : list RecordCall) : list RecordPc := replicate (length calls) RStart.

Lemma account_start cap calls ts : Inv cap calls (all_start calls, series_new ts).
Proof.
  constructor; cbn [fst snd series_new sr_heap sr_locked sr_missed].
  - apply length_replicate.
  - exists None. split.
    + apply holds_none; [done|]. intros j pc [-> _]%lookup_replicate. done.
    + constructor; cbn; try done; try lia.
      * intros i j a b Hij Ha Hb. apply lookup_lt_Some in Hb. cbn in Hb. lia.
      * intros m Hm. by apply elem_of_nil in Hm.
      * intros b k ->%list_elem_of_singleton. done.
  - intros i c pc _ [-> _]%lookup_replicate. done.
  - intros k. transitivity 0%Z; [done|]. unfold all_start. induction calls as [|c calls IH]; [done|]. cbn [length replicate zip_with map]. by rewrite zsum_cons, <- IH.
  - apply NoDup_nil_2.
  - intros i b k Hm. by apply elem_of_nil in Hm.
Qed.

Lemma inv_reachable cap calls ts cfg :
  (Z.of_nat (length calls) ≤ U64_MAX)%Z → rtc (record_step cap calls) (all_start calls, series_new ts) cfg → Inv cap calls cfg.
Proof. intros Hmax. apply rtc_preserves; [|apply account_start]. intros x y Hx Hs. by eapply account_step. Qed.

(** The call in the section can move; with nobody there, any call can. *)
Lemma record_progress cap calls cfg i pc : Inv cap calls cfg → cfg.1 !! i = Some pc → pc ≠ RDone → ∃ cfg', record_step cap calls cfg cfg'.
Proof.
  intros Hinv Hi Hnd. destruct cfg as [pcs s]. pose proof (iv_len _ _ _ Hinv) as Hlen. destruct (iv_shared _ _ _ Hinv) as (ph & Hh & Hsh). cbn [fst snd] in *.
  destruct (lookup_lt_is_Some_2 (sr_heap s) (sr_current s)) as [cur Hcur]; [rewrite (so_len _ _ _ Hsh); lia|].
  assert (∀ j c pc', calls !! j = Some c → pcs !! j = Some pc' → pc' ≠ RDone → (pc' = RWait → sr_locked s = false) → ∃ cfg', record_step cap calls (pcs, s) cfg') as Hgo.
  { intros j c pc' Hc Hj Hd Hw. assert (is_Some (record_act cap j c pc' s)) as [[pc1 s1] Ha]; [|exists (<[j := pc1]> pcs, s1); by econstructor].
    destruct pc' as [| | |[|]| | |b [|]|]; try done; cbn [record_act]; rewrite ?Hcur; cbn; try (eapply mk_is_Some; reflexivity).
    - rewrite Hw by done. eapply mk_is_Some; reflexivity.
    - case_match; eapply mk_is_Some; reflexivity.
    - destruct (iv_threads _ _ _ Hinv j c _ Hc Hj) as (_ & bk & Hb & _). cbn [fst snd] in Hb. rewrite Hb. eapply mk_is_Some; reflexivity. }
  destruct Hh as [Hl _|h c0 pc0 _ Hc0 Hp0 Hin _].
  - destruct (lookup_lt_is_Some_2 calls i) as [c Hc]; [rewrite <- Hlen; exact (lookup_lt_Some _ _ _ Hi)|]. by apply (Hgo i c pc).
  - apply (Hgo h c0 pc0); try done; by destruct pc0.
Qed.

(** The calls that count towards [k], and the additions to [k] that came late. *)
Definition touching (k : Counter) (calls : list RecordCall) : Z := Z.of_nat (length (filter (fun c => k ∈ cl_touched c) calls)).

Definition missed_of (k : Counter) (s : Series) : Z := Z.of_nat (length (filter (fun m => m.2 = k) (sr_missed s))).

Lemma zsum_pointwise {A B} (f : A → Z) (h : B → Z) (g : nat → Z) l1 l2 n :
  length l1 = length l2 → (∀ j x y, l1 !! j = Some x → l2 !! j = Some y → f x = h y + g (n + j)%nat)%Z →
  (zsum (map f l1) = zsum (map h l2) + zsum (map g (seq n (length l1))))%Z.
Proof.
  revert l2 n. induction l1 as [|x l1 IH]; intros [|y l2] n Hl H; try done. injection Hl as Hl. cbn [map length seq]. rewrite !zsum_cons.
  rewrite (H 0 x y eq_refl eq_refl), Nat.add_0_r, (IH l2 (S n) Hl); [lia|]. intros j x' y' Hx Hy. rewrite (H (S j) x' y' Hx Hy). by rewrite Nat.add_succ_r.
Qed.

Lemma zsum_zero {A} (f : A → Z) l : (∀ x, f x = 0%Z) → zsum (map f l) = 0%Z.
Proof. intros Hf. induction l as [|x l IH]; [done|]. cbn [map]. by rewrite zsum_cons, Hf, IH. Qed.

Lemma zsum_seq_one (b n m : nat) : zsum (map (fun j => if decide (b = j) then 1 else 0)%Z (seq n m)) = if decide (n ≤ b < n + m) then 1%Z else 0%Z.
Proof.
  revert n. induction m as [|m IH]; intros n; cbn [seq map].
  - by rewrite decide_False by lia.
  - rewrite zsum_cons, IH. repeat case_decide; lia.
Qed.

Lemma zsum_late k l n : (∀ m : nat * nat * Counter, m ∈ l → m.1.2 < n) →
  zsum (map (fun j => Z.of_nat (length (filter (fun m : nat * nat * Counter => m.1.2 = j ∧ m.2 = k) l))) (seq 0 n))
  = Z.of_nat (length (filter (fun m : nat * nat * Counter => m.2 = k) l)).
Proof.
  induction l as [|m l IH]; intros Hb.
  - by apply zsum_zero.
  - assert (∀ j, Z.of_nat (length (filter (fun m : nat * nat * Counter => m.1.2 = j ∧ m.2 = k) (m :: l)))
              = ((if decide (m.2 = k) then if decide (m.1.2 = j) then 1 else 0 else 0)
                 + Z.of_nat (length (filter (fun m : nat * nat * Counter => (m.1.2 = j ∧ m.2 = k)%type) l)))%Z) as Hj.
    { intros j. rewrite filter_cons. repeat case_decide; cbn [length]; try lia; naive_solver. }
    rewrite (map_ext _ _ Hj), filter_cons. clear Hj. specialize (IH ltac:(intros m' Hm'; apply Hb; by right)).
    assert (∀ (f g : nat → Z) ns, zsum (map (fun j => f j + g j) ns) = zsum (map f ns) + zsum (map g ns))%Z as Hadd.
    { intros f g ns. induction ns as [|j ns IHn]; [done|]. cbn [map]. rewrite !zsum_cons, IHn. lia. }
    rewrite Hadd, IH. destruct (decide (m.2 = k)); cbn [length].
    + rewrite zsum_seq_one, decide_True; [lia|]. specialize (Hb m ltac:(by left)). lia.
    + by rewrite zsum_zero.
Qed.

Lemma executed_done k calls : zsum (map (executed k) (zip calls (replicate (length calls) RDone))) = touching k calls.
Proof.
  unfold touching. induction calls as [|c calls IH]; [done|]. cbn [length replicate zip_with map]. rewrite zsum_cons, IH, filter_cons.
  cbn. case_decide; cbn [length]; lia.
Qed.

Definition earlier (a b : TimeBucket) : Prop := (tb_timestamp a < tb_timestamp b)%Z.

Lemma sorted_lookup l : (∀ i j a b, i < j → l !! i = Some a → l !! j = Some b → earlier a b) → StronglySorted earlier l.
Proof.
  induction l as [|x l IH]; intros H; constructor.
  - apply IH. intros i j a b Hij Ha Hb. exact (H (S i) (S j) a b ltac:(lia) Ha Hb).
  - apply Forall_lookup. intros j y Hy. exact (H 0 (S j) x y ltac:(lia) eq_refl Hy).
Qed.

(** With every call finished, nobody is in the section and the archive is all
    of the old buckets. *)
Lemma finished_shared cap calls s :
  Inv cap calls (replicate (length calls) RDone, s) → sr_locked s = false ∧ shared_ok cap s None.
Proof.
  intros Hinv. destruct (iv_shared _ _ _ Hinv) as (ph & Hh & Hsh). cbn [fst snd] in *.
  destruct Hh as [Hl _|h c pc _ _ Hp Hin _]; [done|]. apply lookup_replicate in Hp as [-> _]. done.
Qed.

(** A run in a given order. *)
Fixpoint run_schedule (cap : nat) (calls : list RecordCall) (order : list nat) (cfg : list RecordPc * Series) : option (list RecordPc * Series) :=
  match order with
  | [] => Some cfg
  | i :: order =>
    c ← calls !! i; pc ← cfg.1 !! i; '(pc', s') ← record_act cap i c pc cfg.2;
    run_schedule cap calls order (<[i := pc']> cfg.1, s')
  end.

Lemma run_schedule_sound cap calls order cfg cfg' : run_schedule cap calls order cfg = Some cfg' → rtc (record_step cap calls) cfg cfg'.
Proof.
  revert cfg. induction order as [|i order IH]; intros [pcs s] H; cbn [run_schedule fst snd] in H; [by injection H as ->; apply rtc_refl|].
  apply bind_Some in H as (c & Hc & (pc & Hp & ([pc' s'] & Ha & H)%bind_Some)%bind_Some). eapply rtc_l; [|by apply IH]. by econstructor.
Qed.

(** Between rollovers, whatever came late came for an older bucket. *)
Lemma missed_before cap s m : shared_ok cap s None → m ∈ sr_missed s → m.1.2 < sr_current s.
Proof.
  intros Hsh Hm. pose proof (so_missed _ _ _ Hsh m Hm). destruct (decide (m.1.2 = sr_current s)) as [He|Hne]; [|lia]. exfalso.
  destruct (lookup_lt_is_Some_2 (sr_heap s) (sr_current s)) as [cur Hcur]; [rewrite (so_len _ _ _ Hsh); lia|].
  destruct (so_phase _ _ _ Hsh cur Hcur) as [Hnl Hr]. specialize (Hnl m.2 ltac:(rewrite Hr; set_solver)). unfold late in Hnl.
  assert (m ∈ filter (fun m' => m'.1.2 = sr_current s ∧ m'.2 = m.2) (sr_missed s)) as Hin by (by apply list_elem_of_filter).
  destruct (filter _ _); [by apply elem_of_nil in Hin|done].
Qed.

Lemma finished_count cap calls s k :
  Inv cap calls (replicate (length calls) RDone, s) → k ∈ all_counters →
  ∃ cur, sr_heap s !! sr_current s = Some cur
    ∧ (zsum (map (fun b => tb_count b k) (sr_dropped s ++ sr_archive s ++ [cur])) + missed_of k s = touching k calls)%Z.
Proof.
  intros Hinv Hk. destruct (finished_shared _ _ _ Hinv) as [_ Hsh]. pose proof Hsh as [H1 H2 H3 H4 H5 H6 H7 H8]. unfold archived, pushing in *. rewrite app_nil_r in *.
  destruct (lookup_lt_is_Some_2 (sr_heap s) (sr_current s) ltac:(lia)) as [cur Hcur]. exists cur. split; [done|].
  pose proof (iv_sum _ _ _ Hinv k) as Hsum. cbn [fst snd] in Hsum. rewrite executed_done in Hsum. rewrite <- Hsum.
  assert (sr_heap s = take (sr_current s) (sr_heap s) ++ [cur]) as Hh.
  { rewrite <- (take_drop_middle _ _ _ Hcur) at 1. rewrite drop_ge by lia. done. }
  rewrite app_assoc, Hh, !map_app, !zsum_app, (zsum_pointwise _ (fun b => tb_count b k) (fun j => late s j k) (take (sr_current s) (sr_heap s)) (sr_dropped s ++ sr_archive s) 0).
  - rewrite length_take_le by lia. unfold late. rewrite zsum_late; [unfold missed_of; rewrite map_app, zsum_app; lia|].
    intros m Hm. by eapply missed_before.
  - rewrite length_take_le by lia. done.
  - intros j x y Hx Hy. apply lookup_take_Some in Hx as [Hx _]. by destruct (H4 j y x Hy Hx) as [_ ->].
Qed.

Lemma finished_order cap calls s cur :
  Inv cap calls (replicate (length calls) RDone, s) → sr_heap s !! sr_current s = Some cur →
  StronglySorted earlier (sr_dropped s ++ sr_archive s ++ [cur])
  ∧ ∀ i b k, (i, b, k) ∈ sr_missed s → ∃ c, calls !! i = Some c ∧ k ∈ cl_touched c ∧ (cl_ts c < tb_timestamp cur)%Z.
Proof.
  intros Hinv Hcur. destruct (finished_shared _ _ _ Hinv) as [_ Hsh]. pose proof Hsh as [H1 H2 H3 H4 H5 H6 H7 H8]. unfold archived, pushing in *. rewrite app_nil_r in *.
  rewrite app_assoc.
  assert (∀ j t, ((sr_dropped s ++ sr_archive s) ++ [cur]) !! j = Some t → ∃ b, sr_heap s !! j = Some b ∧ tb_timestamp t = tb_timestamp b) as Hb.
  { intros j t Hj. apply lookup_snoc_Some in Hj as [[Hlt Hj]|[-> <-]]; [|exists cur; by rewrite H3].
    destruct (lookup_lt_is_Some_2 (sr_heap s) j ltac:(lia)) as [b Hb]. exists b. split; [done|]. by destruct (H4 j t b Hj Hb). }
  split.
  - apply sorted_lookup. intros i j a b Hij Ha Hb'. destruct (Hb _ _ Ha) as (a' & Ha' & Ea), (Hb _ _ Hb') as (b' & Hb'' & Eb).
    unfold earlier. rewrite Ea, Eb. exact (H2 i j a' b' Hij Ha' Hb'').
  - intros i b k Hm. destruct (iv_who _ _ _ Hinv i b k Hm) as (c & pc & bk & Hc & Hp & He & Hbk & Hts). cbn [fst snd] in *.
    apply lookup_replicate in Hp as [-> _]. exists c. split; [done|]. split; [unfold executed in He; cbn in He; by case_decide|].
    pose proof (missed_before _ _ _ Hsh Hm) as Hlt. cbn in Hlt. pose proof (H2 b (sr_current s) bk cur Hlt Hbk Hcur). lia.
Qed.

(** C38: Counting under concurrency.  Whatever the interleaving, no call is ever
    stuck; once all calls are done the lock is free, the archive is within its
    bound, the buckets ascend in time, and for every counter the buckets that
    fell out, the archive and the current bucket together hold exactly the calls
    that count towards it, less the additions that came after a rollover had
    read the bucket.  Such an addition is lost at most once, and only for a call
    whose time lies before the current bucket. *)
Theorem series_accounts (cap : nat) (calls : list RecordCall) (ts : Z) (pcs : list RecordPc) (s : Series) :
  (Z.of_nat (length calls) ≤ U64_MAX)%Z → rtc (record_step cap calls) (all_start calls, series_new ts) (pcs, s) →
  (∀ i pc, pcs !! i = Some pc → pc ≠ RDone → ∃ cfg, record_step cap calls (pcs, s) cfg)
  ∧ (pcs = replicate (length calls) RDone →
     sr_locked s = false ∧ length (sr_archive s) ≤ cap ∧ NoDup (sr_missed s)
     ∧ ∃ cur, sr_heap s !! sr_current s = Some cur
       ∧ StronglySorted earlier (sr_dropped s ++ sr_archive s ++ [cur])
       ∧ (∀ k, k ∈ all_counters → zsum (map (fun b => tb_count b k) (sr_dropped s ++ sr_archive s ++ [cur])) + missed_of k s = touching k calls)%Z
       ∧ ∀ i b k, (i, b, k) ∈ sr_missed s → ∃ c, calls !! i = Some c ∧ k ∈ cl_touched c ∧ (cl_ts c < tb_timestamp cur)%Z).
Proof.
  intros Hmax Hr. pose proof (inv_reachable _ _ _ _ Hmax Hr) as Hinv. split.
  - intros i pc Hi Hnd. exact (record_progress _ _ (pcs, s) i pc Hinv Hi Hnd).
  - intros ->. destruct (finished_shared _ _ _ Hinv) as [Hl Hsh]. split; [done|]. split; [apply (so_cap _ _ _ Hsh)|]. split; [apply (iv_once _ _ _ Hinv)|].
    destruct (finished_count _ _ _ Queries Hinv ltac:(by left)) as (cur & Hcur & _). exists cur. split; [done|].
    destruct (finished_order _ _ _ cur Hinv Hcur) as [Hs Hm]. split; [done|]. split; [|done].
    intros k Hk. destruct (finished_count _ _ _ k Hinv Hk) as (cur' & Hcur' & Hsum). by simplify_eq.
Qed.

(** A call that loads its bucket, then a rollover by another, then the first
    call's additions: they are lost, as accounted. *)
Definition straddling : list RecordCall :=
  [{| cl_ts := 3600; cl_blocked := false; cl_cache_hit := false; cl_bucket := 1 |}; {| cl_ts := 7200; cl_blocked := true; cl_cache_hit := false; cl_bucket := 2 |}].

Definition straddling_order : list nat := [0] ++ replicate 29 1 ++ [0; 0; 0].

Lemma series_accounts_witness :
  ∃ s, run_schedule 168 straddling straddling_order (all_start straddling, series_new 3600) = Some (replicate 2 RDone, s)
    ∧ length (sr_missed s) = 2 ∧ ∃ cur, sr_heap s !! sr_current s = Some cur
    ∧ (zsum (map (fun b => tb_count b Queries) (sr_dropped s ++ sr_archive s ++ [cur])) + missed_of Queries s = 2)%Z.
Proof.
  destruct (run_schedule 168 straddling straddling_order (all_start straddling, series_new 3600)) as [[pcs s]|] eqn:E; [|by vm_compute in E].
  assert (pcs = replicate 2 RDone) as -> by (revert E; vm_compute; intros [= <- _]; reflexivity).
  exists s. split; [reflexivity|]. split; [revert E; vm_compute; intros [= <-]; reflexivity|].
  destruct (series_accounts 168 straddling 3600 (replicate 2 RDone) s) as [_ H]; [by vm_compute|by eapply run_schedule_sound|].
  destruct (H eq_refl) as (_ & _ & _ & cur & Hcur & _ & Hk & _). exists cur. split; [exact Hcur|]. rewrite (Hk Queries) by (by left). reflexivity.
Defined.

(** ** Merging by timestamp *)

(** The entries of a time, added up. *)
Definition total_at (t : Z) (k : Counter) (l : list TimeBucket) : Z := zsum (map (fun b => tb_count b k) (filter (fun b => tb_timestamp b = t) l)).

Definition counts_ok (l : list TimeBucket) : Prop := ∀ b k, b ∈ l → (0 ≤ tb_count b k ≤ U64_MAX)%Z.

Lemma total_cons t k b l : total_at t k (b :: l) = ((if decide (tb_timestamp b = t) then tb_count b k else 0) + total_at t k l)%Z.
Proof. unfold total_at. rewrite filter_cons. case_decide; [by rewrite map_cons, zsum_cons|lia]. Qed.

Lemma total_app t k l l' : total_at t k (l ++ l') = (total_at t k l + total_at t k l')%Z.
Proof. unfold total_at. by rewrite filter_app, map_app, zsum_app. Qed.

Lemma total_later t k l : Forall (fun b => t < tb_timestamp b)%Z l → total_at t k l = 0%Z.
Proof. induction 1 as [|b l Hb _ IH]; [done|]. rewrite total_cons, IH, decide_False by lia. done. Qed.

Lemma add_to_forall (P : Z → Prop) acc b : P (tb_timestamp b) → Forall (fun x => P (tb_timestamp x)) acc → Forall (fun x => P (tb_timestamp x)) (add_to acc b).
Proof.
  intros Hb Ha. induction Ha as [|e acc He Ha IH]; cbn [add_to]; [by constructor|].
  repeat case_match; repeat constructor; auto.
Qed.

Lemma add_to_sorted acc b : StronglySorted earlier acc → StronglySorted earlier (add_to acc b).
Proof.
  induction 1 as [|e acc Hs IH He]; cbn [add_to]; [repeat constructor|].
  destruct (tb_timestamp b <? tb_timestamp e)%Z eqn:E1; [|destruct (tb_timestamp b =? tb_timestamp e)%Z eqn:E2].
  - constructor; [by constructor|]. constructor; [unfold earlier; lia|]. eapply Forall_impl; [exact He|]. unfold earlier. intros; lia.
  - by constructor.
  - constructor; [done|]. apply (add_to_forall (fun t => tb_timestamp e < t)%Z); [lia|done].
Qed.

Lemma add_to_total acc b t k : StronglySorted earlier acc → counts_ok acc → (0 ≤ tb_count b k ≤ U64_MAX)%Z →
  total_at t k (add_to acc b) = if decide (tb_timestamp b = t) then Z.min U64_MAX (total_at t k acc + tb_count b k) else total_at t k acc.
Proof.
  intros Hs Hok Hb. induction Hs as [|e acc Hs IH He]; cbn [add_to].
  - rewrite total_cons. change (total_at t k []) with 0%Z. case_decide; lia.
  - specialize (IH ltac:(intros x k' Hx; apply Hok; by right)). pose proof (Hok e k ltac:(by left)) as Hek.
    destruct (tb_timestamp b <? tb_timestamp e)%Z eqn:E1; [|destruct (tb_timestamp b =? tb_timestamp e)%Z eqn:E2].
    + rewrite !total_cons. repeat case_decide; try lia. rewrite total_later; [lia|]. eapply Forall_impl; [exact He|]. unfold earlier. intros; lia.
    + rewrite !total_cons. cbn [sum_buckets tb_timestamp tb_count]. repeat case_decide; try lia.
      rewrite total_later; [lia|]. eapply Forall_impl; [exact He|]. unfold earlier. intros; lia.
    + rewrite !total_cons, IH. repeat case_decide; lia.
Qed.

Lemma add_to_ok acc b : counts_ok acc → (∀ k, 0 ≤ tb_count b k ≤ U64_MAX)%Z → counts_ok (add_to acc b).
Proof.
  intros Ha Hb. induction acc as [|e acc IH]; cbn [add_to]; intros x k Hx.
  - apply list_elem_of_singleton in Hx as ->. done.
  - specialize (IH ltac:(intros y k' Hy; apply Ha; by right)). pose proof (fun k => Ha e k ltac:(by left)) as Hek.
    repeat case_match; rewrite ?elem_of_cons in Hx; destruct_or!; subst; auto; try (by apply Ha; right).
    cbn. pose proof (Hb k). pose proof (Hek k). lia.
Qed.

Lemma add_to_times acc b t : t ∈ map tb_timestamp (add_to acc b) ↔ t = tb_timestamp b ∨ t ∈ map tb_timestamp acc.
Proof.
  induction acc as [|e acc IH]; cbn [add_to map]; [set_solver|].
  destruct (tb_timestamp b <? tb_timestamp e)%Z; [set_solver|]. destruct (tb_timestamp b =? tb_timestamp e)%Z eqn:E.
  - cbn [map sum_buckets tb_timestamp]. apply Z.eqb_eq in E. rewrite E. set_solver.
  - cbn [map]. set_solver.
Qed.

(** Merging: one entry for each time of the input, in ascending order, each
    counter the sum of the fragments, held at the largest value. *)
Theorem dedupe_exact (input : list TimeBucket) : counts_ok input →
  let out := dedupe_by_timestamp_summing input in
  StronglySorted earlier out ∧ counts_ok out ∧ (∀ t, t ∈ map tb_timestamp out ↔ t ∈ map tb_timestamp input)
  ∧ ∀ t k, total_at t k out = Z.min U64_MAX (total_at t k input).
Proof.
  intros Hok out. subst out. unfold dedupe_by_timestamp_summing. induction input as [|b input IH] using rev_ind.
  - split_and!; [constructor|intros ? ? Hx; by apply elem_of_nil in Hx|done|done].
  - rewrite foldl_app. cbn [foldl]. destruct IH as (Hs & Ho & Ht & Hk); [intros x k Hx; apply Hok; set_solver|].
    assert (∀ k, 0 ≤ tb_count b k ≤ U64_MAX)%Z as Hb by (intros k; apply Hok; set_solver). split_and!.
    + by apply add_to_sorted.
    + by apply add_to_ok.
    + intros t. rewrite add_to_times, Ht, map_app. cbn [map]. set_solver.
    + intros t k. rewrite add_to_total, Hk by done. rewrite total_app, total_cons. change (total_at t k []) with 0%Z.
      pose proof (Hb k). case_decide; lia.
Qed.

Lemma add_to_last acc b : Forall (fun e => earlier e b) acc → add_to acc b = acc ++ [b].
Proof.
  induction 1 as [|e acc He _ IH]; [done|]. cbn [add_to]. unfold earlier in He.
  rewrite (proj2 (Z.ltb_ge _ _)), (proj2 (Z.eqb_neq _ _)), IH by lia. done.
Qed.

(** What is in order already is left alone. *)
Lemma dedupe_sorted l : StronglySorted earlier l → dedupe_by_timestamp_summing l = l.
Proof.
  unfold dedupe_by_timestamp_summing. enough (∀ acc, StronglySorted earlier (acc ++ l) → foldl add_to acc l = acc ++ l) as H by exact (H []).
  induction l as [|b l IH]; intros acc Hs; cbn [foldl]; [by rewrite app_nil_r|].
  rewrite add_to_last; [rewrite IH; rewrite <- app_assoc; done|].
  clear IH. induction acc as [|e acc IH]; [done|]. apply StronglySorted_inv in Hs as [Hs Hf]. constructor; [|by apply IH].
  rewrite Forall_forall in Hf. apply Hf. set_solver.
Qed.

Lemma total_at_nonneg t k l : counts_ok l → (0 ≤ total_at t k l)%Z.
Proof. intros Hok. apply zsum_nonneg. intros b Hb. apply list_elem_of_filter in Hb as [_ Hb]. by apply Hok. Qed.

Lemma merge_total archive cur t k : counts_ok archive → (∀ k, 0 ≤ tb_count cur k)%Z →
  Z.min U64_MAX (total_at t k (merge_current_into_snapshot archive cur)) = Z.min U64_MAX (total_at t k archive + total_at t k [cur]).
Proof.
  intros Hok Hc. unfold merge_current_into_snapshot. destruct (last archive) as [l|] eqn:El; [|by rewrite total_app].
  destruct (tb_timestamp l =? tb_timestamp cur)%Z eqn:E; [|by rewrite total_app]. apply Z.eqb_eq in E.
  apply last_Some in El as [init ->]. rewrite removelast_last, !total_app, !total_cons. change (total_at t k []) with 0%Z. cbn [sum_buckets tb_timestamp tb_count].
  rewrite E. pose proof (Hc k). assert (0 ≤ total_at t k init)%Z by (apply total_at_nonneg; intros b k' Hb; apply Hok; set_solver). case_decide; lia.
Qed.

Lemma merge_ok archive cur : counts_ok archive → (∀ k, 0 ≤ tb_count cur k ≤ U64_MAX)%Z → counts_ok (merge_current_into_snapshot archive cur).
Proof.
  intros Hok Hc. unfold merge_current_into_snapshot. destruct (last archive) as [l|] eqn:El; [apply last_Some in El as [init ->]; case_match|].
  2, 3: intros b k Hb; apply elem_of_app in Hb as [Hb|Hb]; [by apply Hok|]; apply list_elem_of_singleton in Hb as ->; apply Hc.
  rewrite removelast_last. intros b k Hb. apply elem_of_app in Hb as [Hb|Hb]; [apply Hok; set_solver|]. apply list_elem_of_singleton in Hb as ->.
  cbn. pose proof (Hc k). pose proof (Hok l k ltac:(set_solver)). lia.
Qed.

(** A restart within the hour: what was saved is loaded, counting goes on in a
    fresh bucket of the same hour, and the next reading shows the sum of both,
    one entry for each hour in ascending order. *)
Theorem restart_keeps_counts (saved : list TimeBucket) (cur : TimeBucket) :
  counts_ok (cur :: saved) → length (dedupe_by_timestamp_summing saved) ≤ MAX_HOURLY → (0 < tb_count cur Queries)%Z →
  let shown := hourly_snapshot (load_hourly saved) cur in
  StronglySorted earlier shown
  ∧ (∀ t, t ∈ map tb_timestamp shown ↔ t = tb_timestamp cur ∨ t ∈ map tb_timestamp saved)
  ∧ ∀ t k, total_at t k shown = Z.min U64_MAX (total_at t k saved + total_at t k [cur]).
Proof.
  intros Hok Hlen Hq shown. subst shown. assert (counts_ok saved) as Hs by (intros b k Hb; apply Hok; by right).
  assert (∀ k, 0 ≤ tb_count cur k ≤ U64_MAX)%Z as Hc by (intros k; apply Hok; by left).
  destruct (dedupe_exact saved Hs) as (Hsort & Hok' & Ht & Hk). unfold hourly_snapshot, load_hourly, keep_last.
  rewrite (proj2 (Nat.sub_0_le _ _) Hlen), drop_0, (proj2 (Z.ltb_lt _ _) Hq).
  destruct (dedupe_exact _ (merge_ok _ cur Hok' Hc)) as (Hs2 & _ & Ht2 & Hk2). split; [done|]. split.
  - intros t. rewrite Ht2, <- Ht. generalize (dedupe_by_timestamp_summing saved). clear. intros l. unfold merge_current_into_snapshot.
    destruct (last l) as [e|] eqn:El; [|rewrite map_app; set_solver]. destruct (_ =? _)%Z eqn:E; [|rewrite map_app; set_solver].
    apply Z.eqb_eq in E. apply last_Some in El as [init ->]. rewrite removelast_last, !map_app. cbn [map sum_buckets tb_timestamp]. rewrite E. set_solver.
  - intros t k. rewrite Hk2, merge_total, Hk; [|done|intros k'; apply Hc].
    assert (0 ≤ total_at t k [cur])%Z by (apply total_at_nonneg; intros b k' Hb; apply list_elem_of_singleton in Hb as ->; apply Hc). lia.
Qed.

(** What a reading saved is loaded back as it was. *)
Theorem snapshot_loads_back (archive : list TimeBucket) (cur : TimeBucket) :
  counts_ok (cur :: archive) → length (hourly_snapshot archive cur) ≤ MAX_HOURLY →
  load_hourly (hourly_snapshot archive cur) = hourly_snapshot archive cur.
Proof.
  intros Hok Hlen. unfold load_hourly, keep_last. rewrite dedupe_sorted, (proj2 (Nat.sub_0_le _ _) Hlen); [apply drop_0|].
  unfold hourly_snapshot. assert (counts_ok archive) as Ha by (intros b k Hb; apply Hok; by right). case_match; apply dedupe_exact; [|done].
  apply merge_ok; [done|]. intros k. apply Hok. by left.
Qed.
