(* ===== verification/DiskTree.v ===== *)
(** * Files and their durability: the calls of [src/config/tree_io.rs],
    [src/config/write_lock.rs] and [src/config/atomic_write.rs] that a
    transaction over the configuration makes

    Files and directories are numbered nodes.  A directory has the entries that
    are on disk and the changes made since it was last synced: a power cut keeps
    some first part of them.  A file that was not synced may hold anything of its
    length or less after a power cut.  Each system call meets a fate: it works, it
    fails, or the process dies before it.  The directories that hold the members
    of the configuration are not followed: a member is a slot with the file it
    names now and those that may come back, so less is assumed durable than a
    sync of its directory gives.  Change times are not kept. *)

From S2P Require Import Prelude RustStr.

Record Attr := { at_uid : Z; at_gid : Z; at_mode : Z }.

#[export] Instance attr_eq_dec : EqDecision Attr.
Proof. solve_decision. Defined.

Record FileNode := { fl_bytes : str; fl_attr : Attr; fl_nlink : Z; fl_synced : bool }.

(** A change of a directory: names given to a node or removed, at once. *)
Definition Update : Type := list (str * option nat).

Record Dir := { dir_disk : gmap str nat; dir_pending : list Update }.

(** [NOther]: a link, a socket, a device. *)
Inductive Node := NFile (f : FileNode) | NDir (a : Attr) (d : Dir) | NOther.

Record Slot := { sl_now : option nat; sl_may : list (option nat) }.

Record Fs := { fs_nodes : gmap nat Node; fs_live : gmap str Slot; fs_next : nat }.

(** The pinned root of the configuration tree. *)
Definition ROOT : nat := 0.

Definition apply_one (m : gmap str nat) (p : str * option nat) : gmap str nat := match p.2 with Some i => <[p.1 := i]> m | None => delete p.1 m end.

Definition apply_update (m : gmap str nat) (u : Update) : gmap str nat := foldl apply_one m u.

Definition apply_all (m : gmap str nat) (us : list Update) : gmap str nat := foldl apply_update m us.

Definition dir_view (d : Dir) : gmap str nat := apply_all (dir_disk d) (dir_pending d).

(** ** What a power cut leaves *)

Definition cut_file (f f' : FileNode) : Prop :=
  f' = f ∨ fl_synced f = false ∧ length (fl_bytes f') ≤ length (fl_bytes f) ∧ fl_attr f' = fl_attr f ∧ fl_nlink f' = fl_nlink f.

Definition cut_dir (d d' : Dir) : Prop :=
  ∃ n, d' = {| dir_disk := apply_all (dir_disk d) (take n (dir_pending d)); dir_pending := [] |}.

Inductive cut_node : Node → Node → Prop :=
| cut_NFile f f' : cut_file f f' → cut_node (NFile f) (NFile f')
| cut_NDir a d d' : cut_dir d d' → cut_node (NDir a d) (NDir a d')
| cut_NOther : cut_node NOther NOther.

Definition cut_slot (s s' : Slot) : Prop := sl_may s' = [] ∧ sl_now s' ∈ sl_now s :: sl_may s.

Definition power_cut (fs fs' : Fs) : Prop :=
  fs_next fs' = fs_next fs
  ∧ (∀ i, option_Forall2 cut_node (fs_nodes fs !! i) (fs_nodes fs' !! i))
  ∧ (∀ p, option_Forall2 cut_slot (fs_live fs !! p) (fs_live fs' !! p)).

(** ** Calls *)

Inductive Fate := Works | Fails (written : nat) | Cut.

(** An error of [anyhow], or one of [CommitError]. *)
Inductive Error := Refused | RenameNotLanded | RootFsyncUncertain.

Inductive Out (A : Type) := Done (a : A) | Failed (e : Error) | Dead.
Arguments Done {A} a.
Arguments Failed {A} e.
Arguments Dead {A}.

(** With no fates left, every call works. *)
Definition M (A : Type) : Type := Fs → list Fate → Fs * list Fate * Out A.

#[export] Instance M_ret : MRet M := fun A a fs io => (fs, io, Done a).

#[export] Instance M_bind : MBind M := fun A B k m fs io =>
  match m fs io with
  | (fs, io, Done a) => k a fs io
  | (fs, io, Failed e) => (fs, io, Failed e)
  | (fs, io, Dead) => (fs, io, Dead)
  end.

Definition fail {A} (e : Error) : M A := fun fs io => (fs, io, Failed e).

Definition ensure (b : bool) : M unit := if b then mret tt else fail Refused.

Definition some {A} (o : option A) : M A := match o with Some a => mret a | None => fail Refused end.

(** [map_err] *)
Definition failing_as {A} (e : Error) (m : M A) : M A := fun fs io =>
  match m fs io with
  | (fs, io, Failed _) => (fs, io, Failed e)
  | r => r
  end.

(** The error branch of a [match] on a result. *)
Definition or_else {A} (m : M A) (h : Error → M A) : M A := fun fs io =>
  match m fs io with
  | (fs, io, Failed e) => h e fs io
  | r => r
  end.

Definition sys : M unit := fun fs io =>
  match io with
  | [] | Works :: _ => (fs, tail io, Done tt)
  | Fails _ :: io => (fs, io, Failed Refused)
  | Cut :: io => (fs, io, Dead)
  end.

(** A call whose error is ignored. *)
Definition sys_ignored : M unit := or_else sys (fun _ => mret tt).

Definition view {A} (f : Fs → A) : M A := fun fs io => (fs, io, Done (f fs)).

Definition change (f : Fs → Fs) : M unit := fun fs io => (f fs, io, Done tt).

Fixpoint for_each {A} (l : list A) (f : A → M unit) : M unit :=
  match l with
  | [] => mret tt
  | x :: l => f x ;; for_each l f
  end.

Fixpoint collect_each {A B} (l : list A) (f : A → M B) : M (list B) :=
  match l with
  | [] => mret []
  | x :: l => y ← f x; ys ← collect_each l f; mret (y :: ys)
  end.

(** ** Nodes *)

Definition set_node (i : nat) (n : Node) (fs : Fs) : Fs :=
  {| fs_nodes := <[i := n]> (fs_nodes fs); fs_live := fs_live fs; fs_next := fs_next fs |}.

Definition set_slot (p : str) (s : Slot) (fs : Fs) : Fs :=
  {| fs_nodes := fs_nodes fs; fs_live := <[p := s]> (fs_live fs); fs_next := fs_next fs |}.

Definition entries (fs : Fs) (d : nat) : gmap str nat :=
  match fs_nodes fs !! d with Some (NDir _ dir) => dir_view dir | _ => ∅ end.

(** Record a change of a directory. *)
Definition push_update (d : nat) (u : Update) (fs : Fs) : Fs :=
  match fs_nodes fs !! d with
  | Some (NDir a dir) => set_node d (NDir a {| dir_disk := dir_disk dir; dir_pending := dir_pending dir ++ [u] |}) fs
  | _ => fs
  end.

(** A new node under a name of a directory. *)
Definition add_node (d : nat) (name : str) (n : Node) (fs : Fs) : Fs :=
  push_update d [(name, Some (fs_next fs))] {| fs_nodes := <[fs_next fs := n]> (fs_nodes fs); fs_live := fs_live fs; fs_next := S (fs_next fs) |}.

(** Who runs the command, and the name of the master file. *)
Record Guard := { g_euid : Z; g_egid : Z; g_master : str }.

Definition stat (i : nat) : M Node :=
  sys ;; n ← view (fun fs => fs_nodes fs !! i); some n.

Definition is_dir (n : Node) : bool := match n with NDir _ _ => true | _ => false end.

(** [open_at] with [O_PATH], and [inspect_at]: a missing name is [None]. *)
Definition inspect_at (d : nat) (name : str) : M (option nat) :=
  sys ;; view (fun fs => entries fs d !! name).

Definition open_path (d : nat) (name : str) : M nat :=
  o ← inspect_at d name; some o.

(** [open_at] with [O_DIRECTORY] *)
Definition open_dir (d : nat) (name : str) : M (option nat) :=
  o ← inspect_at d name;
  match o with
  | None => mret None
  | Some i => n ← view (fun fs => fs_nodes fs !! i); ensure (from_option is_dir false n) ;; mret (Some i)
  end.

Definition open_existing_dir (d : nat) (name : str) : M nat :=
  o ← open_dir d name; some o.

Definition mkdir_at (g : Guard) (d : nat) (name : str) (mode : Z) : M unit :=
  sys ;; o ← view (fun fs => entries fs d !! name); ensure (negb (bool_decide (is_Some o))) ;;
  change (add_node d name (NDir {| at_uid := g_euid g; at_gid := g_egid g; at_mode := mode |} {| dir_disk := ∅; dir_pending := [] |})).

(** [open_at] with [O_CREAT | O_EXCL] *)
Definition create_file (g : Guard) (d : nat) (name : str) (mode : Z) : M nat :=
  sys ;; o ← view (fun fs => entries fs d !! name); ensure (negb (bool_decide (is_Some o))) ;;
  i ← view fs_next;
  change (add_node d name (NFile {| fl_bytes := []; fl_attr := {| at_uid := g_euid g; at_gid := g_egid g; at_mode := mode |}; fl_nlink := 1; fl_synced := false |})) ;;
  mret i.

Definition with_attr (f : Attr → Attr) (i : nat) (fs : Fs) : Fs :=
  match fs_nodes fs !! i with
  | Some (NFile x) => set_node i (NFile {| fl_bytes := fl_bytes x; fl_attr := f (fl_attr x); fl_nlink := fl_nlink x; fl_synced := fl_synced x |}) fs
  | Some (NDir a d) => set_node i (NDir (f a) d) fs
  | _ => fs
  end.

Definition owned_by (owner a : Attr) : Attr := {| at_uid := at_uid owner; at_gid := at_gid owner; at_mode := at_mode a |}.

Definition fchown (i : nat) (owner : Attr) : M unit := sys ;; change (with_attr (owned_by owner) i).

Definition preserve_owner (g : Guard) (i : nat) (owner : Attr) : M unit :=
  if (g_euid g =? 0)%Z then fchown i owner else mret tt.

Definition set_permissions (i : nat) (mode : Z) : M unit :=
  sys ;; change (with_attr (fun a => {| at_uid := at_uid a; at_gid := at_gid a; at_mode := mode |}) i).

Definition with_file (f : FileNode → FileNode) (i : nat) (fs : Fs) : Fs :=
  match fs_nodes fs !! i with
  | Some (NFile x) => set_node i (NFile (f x)) fs
  | _ => fs
  end.

Definition unsynced (bytes : str) (x : FileNode) : FileNode :=
  {| fl_bytes := bytes; fl_attr := fl_attr x; fl_nlink := fl_nlink x; fl_synced := false |}.

(** [write_all]: a write that fails has written some of the bytes. *)
Definition write_all (i : nat) (bytes : str) : M unit := fun fs io =>
  match io with
  | [] | Works :: _ => (with_file (unsynced bytes) i fs, tail io, Done tt)
  | Fails n :: io => (with_file (unsynced (take n bytes)) i fs, io, Failed Refused)
  | Cut :: io => (with_file (unsynced bytes) i fs, io, Dead)
  end.

(** [sync_all] of a file and of a directory. *)
Definition sync_file (i : nat) : M unit :=
  sys ;; change (with_file (fun x => {| fl_bytes := fl_bytes x; fl_attr := fl_attr x; fl_nlink := fl_nlink x; fl_synced := true |}) i).

Definition sync_dir (d : nat) : M unit :=
  sys ;; change (fun fs => match fs_nodes fs !! d with
                           | Some (NDir a dir) => set_node d (NDir a {| dir_disk := dir_view dir; dir_pending := [] |}) fs
                           | _ => fs
                           end).

(** [rename_noreplace_at] within one directory. *)
Definition rename_noreplace_at (d : nat) (from to : str) : M unit :=
  sys ;; m ← view (fun fs => entries fs d); i ← some (m !! from); ensure (negb (bool_decide (is_Some (m !! to)))) ;;
  change (push_update d [(from, None); (to, Some i)]).

Definition unlink_at (d : nat) (name : str) : M unit :=
  sys ;; m ← view (fun fs => entries fs d); i ← some (m !! name); n ← view (fun fs => fs_nodes fs !! i);
  ensure (negb (from_option is_dir false n)) ;; change (push_update d [(name, None)]).

Definition rmdir_at (d : nat) (name : str) : M unit :=
  sys ;; m ← view (fun fs => entries fs d); i ← some (m !! name); n ← view (fun fs => fs_nodes fs !! i);
  ensure (from_option is_dir false n) ;; inner ← view (fun fs => entries fs i); ensure (bool_decide (inner = ∅)) ;;
  change (push_update d [(name, None)]).

(** The names of a directory. *)
Definition visit_directory (d : nat) : M (list str) :=
  sys ;; m ← view (fun fs => entries fs d); mret (map fst (map_to_list m)).

(** Read a whole file, unless it is longer than the bound. *)
Definition read_file (i : nat) (cap : Z) : M str :=
  n ← stat i;
  match n with
  | NFile f => ensure (Z.of_nat (length (fl_bytes f)) <=? cap)%Z ;; mret (fl_bytes f)
  | _ => fail Refused
  end.

(** ** Members of the configuration *)

(** [TargetPlan]: the file found and its metadata. *)
Record TargetPlan := { tp_path : str; tp_original : option (nat * FileNode) }.

(** [plan_root_file_no_follow] *)
Definition plan_root_file (path : str) : M TargetPlan :=
  sys ;; o ← view (fun fs => fs_live fs !! path ≫= sl_now);
  match o with
  | None => mret {| tp_path := path; tp_original := None |}
  | Some i =>
    n ← stat i;
    match n with
    | NFile f => ensure (fl_nlink f =? 1)%Z ;; mret {| tp_path := path; tp_original := Some (i, f) |}
    | _ => fail Refused
    end
  end.

(** [PinnedTarget] *)
Record PinnedTarget := { pt_path : str; pt_original : option (nat * FileNode); pt_promoted : option nat }.

Definition check_original (t : PinnedTarget) : M unit :=
  sys ;; o ← view (fun fs => fs_live fs !! pt_path t ≫= sl_now);
  ensure (bool_decide (o = fst <$> pt_original t)).

Definition materialize (p : TargetPlan) : M PinnedTarget :=
  let t := {| pt_path := tp_path p; pt_original := tp_original p; pt_promoted := None |} in
  check_original t ;; mret t.

(** The file of a slot is replaced; the former one may come back until the
    directory is synced. *)
Definition replace_live (path : str) (i : nat) (fs : Fs) : Fs :=
  let s := default {| sl_now := None; sl_may := [] |} (fs_live fs !! path) in
  set_slot path {| sl_now := Some i; sl_may := sl_now s :: sl_may s |} fs.

Definition sync_parent (path : str) : M unit :=
  sys ;; change (fun fs => match fs_live fs !! path with
                           | Some s => set_slot path {| sl_now := sl_now s; sl_may := [] |} fs
                           | None => fs
                           end).

Definition new_file (g : Guard) (mode : Z) (fs : Fs) : Fs :=
  {| fs_nodes := <[fs_next fs := NFile {| fl_bytes := []; fl_attr := {| at_uid := g_euid g; at_gid := g_egid g; at_mode := mode |}; fl_nlink := 1; fl_synced := false |}]> (fs_nodes fs);
     fs_live := fs_live fs; fs_next := S (fs_next fs) |}.

Definition DEFAULT_TARGET_MODE : Z := 416.

(** [hardened_atomic_write_at] with the options of the journal.  The private
    staging directory is not part of the tree: its creation and its removal are
    calls that may fail and leave nothing else behind. *)
Definition hardened_atomic_write_at (g : Guard) (t : PinnedTarget) (content : str) (mode : option Z) (owner : Z * Z) : M PinnedTarget :=
  check_original t ;;
  let meta := snd <$> pt_original t in
  let mode := default (default DEFAULT_TARGET_MODE ((fun f => Z.land (at_mode (fl_attr f)) 4095) <$> meta)) mode in
  sys ;; (* the staging directory *)
  sys ;; file ← view fs_next; change (new_file g 384) ;; (* the payload in it *)
  write_all file content ;;
  let owner := default owner ((fun f => (at_uid (fl_attr f), at_gid (fl_attr f))) <$> meta) in
  (if bool_decide ((g_euid g, g_egid g) = owner) then mret tt
   else fchown file {| at_uid := owner.1; at_gid := owner.2; at_mode := 0 |}) ;;
  set_permissions file mode ;;
  sync_file file ;;
  check_original t ;;
  sys ;; change (replace_live (pt_path t) file) ;; (* the rename *)
  let t := {| pt_path := pt_path t; pt_original := pt_original t; pt_promoted := Some file |} in
  sys ;; (* sync of the staging directory *)
  sys_ignored ;; (* its removal *)
  sync_parent (pt_path t) ;;
  mret t.

(** [sync_held_file_and_parent] *)
Definition sync_held_file_and_parent (t : PinnedTarget) : M unit :=
  held ← some (match pt_promoted t with Some i => Some i | None => fst <$> pt_original t end);
  sync_file held ;;
  sync_parent (pt_path t) ;;
  sys ;; o ← view (fun fs => fs_live fs !! pt_path t ≫= sl_now);
  ensure (bool_decide (o = Some held)).
