(* ===== verification/MigrationJournal.v ===== *)
(** * The record of a migration: [src/config/migration_journal.rs]

    The journal, its checks, and the names a transaction uses.  JSON is a class:
    what the parser of the envelope sees of a written journal, and that a
    journal reads back as it was written.  SHA-256 is the class of [Ast]. *)

From S2P Require Import Prelude RustStr Ast LocalRecords Membership DiskTree.

Definition TXN_DIR_NAME : str := lit ".warden-migration".
Definition CLEANUP_DIR_PREFIX : str := lit ".warden-migration.cleanup-".
Definition FINALIZED_DIR_PREFIX : str := lit ".warden-migration.finalized-".
Definition JOURNAL_NAME : str := lit "journal.json".
Definition JOURNAL_FORMAT_VERSION : Z := 1.
Definition MAX_JOURNAL_BYTES : Z := 4 * 1024 * 1024.
Definition ORIGINALS_DIR_NAME : str := lit "originals".
Definition JOURNAL_STAGE_NAME : str := lit "journal.staging".
Definition SETUP_MARKER : str := lit "format2.setup".
Definition POLICY_FORMAT_VERSION : Z := 2.
Definition MAX_INCLUDE_FILES : nat := 1000.
Definition MAX_TOTAL_BYTES : Z := 50 * 1024 * 1024.
Definition NAME_MAX : nat := 255.

Inductive MemberRole := Include | Master.

#[export] Instance member_role_eq_dec : EqDecision MemberRole.
Proof. solve_decision. Defined.

Record FileReceipt := { fr_len : Z; fr_sha256 : str; fr_uid : Z; fr_gid : Z; fr_mode : Z }.

Record JournalMember := { jm_path : str; jm_role : MemberRole; jm_original_blob : str; jm_before : FileReceipt; jm_after : FileReceipt }.

Record Journal := {
  jn_format_version : Z;
  jn_migration : str;
  jn_from_schema : Z;
  jn_to_schema : Z;
  jn_master : str;
  jn_members : list JournalMember;
}.

#[export] Instance file_receipt_eq_dec : EqDecision FileReceipt.
Proof. solve_decision. Defined.

#[export] Instance journal_member_eq_dec : EqDecision JournalMember.
Proof. solve_decision. Defined.

#[export] Instance journal_eq_dec : EqDecision Journal.
Proof. solve_decision. Defined.

(** [serde_json] *)
Class JsonCrate := {
  journal_to_json : Journal → str;
  journal_of_json : str → option Journal;
  peek_format_version : str → option Z;
  peek_manifest_kind : str → option str;
  journal_round_trip : ∀ j, journal_of_json (journal_to_json j) = Some j;
  peek_of_journal : ∀ j, peek_format_version (journal_to_json j) = Some (jn_format_version j);
}.

(** ** Names *)

Definition decimal_digit (n : nat) : ascii := ascii_of_nat (48 + n).

(** [{index:04}], for an index of four digits at most. *)
Definition four_digits (index : nat) : str :=
  map (fun power => decimal_digit (index / power mod 10)) [1000; 100; 10; 1].

Definition original_blob_file_name (index : nat) : str := four_digits index ++ lit ".toml".

Definition original_blob_name (index : nat) : str := ORIGINALS_DIR_NAME ++ lit "/" ++ original_blob_file_name index.

Definition parse_blob_index (name : str) : option nat :=
  digits ← strip_suffix (lit ".toml") name;
  if (length digits =? 4) && forallb is_ascii_digit digits then Z.to_nat <$> parse_uint USIZE_MAX digits else None.

Definition reserved_component (name : str) : bool :=
  let receipt := default name (strip_suffix (lit ".next") name) in
  bool_decide (name ∈ [lit ".warden-config.lock"; lit ".warden-policy-transactions"; lit ".warden-policy-receipts"; lit ".warden-cluster-publications";
                       lit ".warden-cluster-ownership"; lit ".warden-cluster-peers"; lit ".warden-node-membership"; lit ".warden-node-lifecycle";
                       lit ".warden-node-corpus"; lit ".warden-node-control"; TXN_DIR_NAME])
  || starts_with (lit ".warden-write-") name || starts_with CLEANUP_DIR_PREFIX name || starts_with FINALIZED_DIR_PREFIX name
  || bool_decide (receipt ∈ [lit ".warden-relocate.json"; lit ".warden-relocate.done.json"]).

(** The parts of a path that is its own normal form. *)
Definition path_part_ok (part : str) : bool :=
  bool_decide (part ∉ [[]; lit "."; lit ".."]) && (length part <=? NAME_MAX) && negb (reserved_component part).

Definition validate_member_path (path : str) : bool :=
  bool_decide (path ≠ []) && bool_decide (ascii_of_nat 0 ∉ path)
  && let parts := split "/"%char path in forallb path_part_ok parts && (Z.of_nat (length parts) <=? 8192)%Z.

Definition is_sha256 (value : str) : bool := (length value =? 64) && forallb lower_hex value.

Section Receipts.

Context {sha : Sha2Crate} {json : JsonCrate}.

Definition sha256_hex (bytes : str) : str := hex_encode (sha256 bytes).

Definition cleanup_name (hash : str) : str := CLEANUP_DIR_PREFIX ++ take 32 hash.

Definition finalized_name (hash : str) : str := FINALIZED_DIR_PREFIX ++ take 32 hash.

Definition validate_receipt (r : FileReceipt) : bool :=
  (fr_len r <=? MAX_TOTAL_BYTES)%Z && is_sha256 (fr_sha256 r) && (Z.ldiff (fr_mode r) 4095 =? 0)%Z.

(** [FileReceipt::from_bytes_with_metadata] *)
Definition receipt_of (a : Attr) (bytes : str) : FileReceipt :=
  {| fr_len := Z.of_nat (length bytes); fr_sha256 := sha256_hex bytes; fr_uid := at_uid a; fr_gid := at_gid a; fr_mode := Z.land (at_mode a) 4095 |}.

Definition same_owner_and_mode (a b : FileReceipt) : bool := bool_decide ((fr_uid a, fr_gid a, fr_mode a) = (fr_uid b, fr_gid b, fr_mode b)).

(** ** The journal *)

Fixpoint validate_members (index : nat) (paths : gset str) (before after : Z) (members : list JournalMember) : bool :=
  match members with
  | [] => true
  | m :: members =>
    let before := (before + fr_len (jm_before m))%Z in
    let after := (after + fr_len (jm_after m))%Z in
    validate_member_path (jm_path m) && bool_decide (jm_path m ∉ paths)
    && bool_decide (jm_original_blob m = original_blob_name index)
    && validate_receipt (jm_before m) && validate_receipt (jm_after m) && same_owner_and_mode (jm_after m) (jm_before m)
    && (before <=? U64_MAX)%Z && (before <=? MAX_TOTAL_BYTES)%Z && (after <=? U64_MAX)%Z && (after <=? MAX_TOTAL_BYTES)%Z
    && validate_members (S index) ({[jm_path m]} ∪ paths) before after members
  end.

Definition validate_journal_fields (j : Journal) (expected_master : str) : bool :=
  (jn_format_version j =? JOURNAL_FORMAT_VERSION)%Z && bool_decide (jn_migration j = lit "v3-to-v4")
  && (jn_from_schema j =? 3)%Z && (jn_to_schema j =? 4)%Z
  && validate_member_path (jn_master j) && bool_decide (jn_master j = expected_master)
  && negb (length (jn_members j) =? 0) && (length (jn_members j) <=? MAX_INCLUDE_FILES)
  && validate_members 0 ∅ 0 0 (jn_members j)
  && match last (jn_members j) with
     | Some l => bool_decide (jm_role l = Master) && bool_decide (jm_path l = jn_master j)
     | None => false
     end
  && forallb (fun m => bool_decide (jm_role m = Include)) (removelast (jn_members j)).

Definition validate_journal (bytes : str) (expected_master : str) : option Journal :=
  if (Z.of_nat (length bytes) <=? MAX_JOURNAL_BYTES)%Z then
    j ← journal_of_json bytes; if validate_journal_fields j expected_master then Some j else None
  else None.

(** [JournalMember::new] *)
Definition journal_member_new (path : str) (role : MemberRole) (before after : FileReceipt) : option JournalMember :=
  if validate_member_path path && validate_receipt before && validate_receipt after && same_owner_and_mode after before
  then Some {| jm_path := path; jm_role := role; jm_original_blob := []; jm_before := before; jm_after := after |} else None.

Definition with_blob (index : nat) (m : JournalMember) : JournalMember :=
  {| jm_path := jm_path m; jm_role := jm_role m; jm_original_blob := original_blob_name index; jm_before := jm_before m; jm_after := jm_after m |}.

Definition journal_new (master : str) (members : list JournalMember) : option Journal :=
  let j := {| jn_format_version := JOURNAL_FORMAT_VERSION; jn_migration := lit "v3-to-v4"; jn_from_schema := 3; jn_to_schema := 4;
              jn_master := master; jn_members := imap with_blob members |} in
  if validate_journal_fields j master then Some j else None.

(** [to_json_bytes]: the writer is bounded. *)
Definition to_json_bytes (j : Journal) : option str :=
  let bytes := journal_to_json j in if (Z.of_nat (length bytes) <=? MAX_JOURNAL_BYTES)%Z then Some bytes else None.

(** ** A member to migrate *)

Record MigrationMember := {
  mm_path : str;
  mm_role : MemberRole;
  mm_before : str;
  mm_after : str;
  mm_inode : nat;
  mm_metadata : FileNode;
}.

Definition before_receipt (m : MigrationMember) : FileReceipt := receipt_of (fl_attr (mm_metadata m)) (mm_before m).

Definition after_receipt (m : MigrationMember) : FileReceipt := receipt_of (fl_attr (mm_metadata m)) (mm_after m).

(** [MigrationMember::new]: the captured metadata and the two images. *)
Definition migration_member_ok (m : MigrationMember) : bool :=
  validate_member_path (mm_path m) && (fl_nlink (mm_metadata m) =? 1)%Z
  && (length (fl_bytes (mm_metadata m)) =? length (mm_before m)) && validate_receipt (before_receipt m) && validate_receipt (after_receipt m).

Fixpoint members_in_order (previous : option str) (paths : gset str) (master : str) (members : list MigrationMember) : bool :=
  match members with
  | [] => true
  | m :: members =>
    validate_member_path (mm_path m) && bool_decide (mm_path m ∉ paths)
    && (match members with
        | [] => bool_decide (mm_role m = Master) && bool_decide (mm_path m = master)
        | _ => bool_decide (mm_role m = Include) && match previous with Some p => str_ltb p (mm_path m) | None => true end
        end)
    && members_in_order (Some (mm_path m)) ({[mm_path m]} ∪ paths) master members
  end.

Definition validate_migration_members (master : str) (members : list MigrationMember) : bool :=
  negb (length members =? 0) && (length members <=? MAX_INCLUDE_FILES) && members_in_order None ∅ master members.

(** [receipt_matches] *)
Definition receipt_matches (f : FileNode) (bytes : str) (r : FileReceipt) : bool :=
  (fl_nlink f =? 1)%Z && (Z.of_nat (length (fl_bytes f)) =? fr_len r)%Z && (at_uid (fl_attr f) =? fr_uid r)%Z && (at_gid (fl_attr f) =? fr_gid r)%Z
  && (Z.land (at_mode (fl_attr f)) 4095 =? fr_mode r)%Z && bool_decide (sha256_hex bytes = fr_sha256 r).

End Receipts.
