(* ===== verification/MigrationTxn.v ===== *)
(** * The migration transaction: [src/config/migration_journal.rs] and its
    driver [src/cli/commands/migrate/v3_to_v4.rs]

    A fixed directory fences readers while members are replaced; it is renamed
    once they all are, and kept as the undo.  Loading and validating the
    configuration in between is a call that may fail. *)

From S2P Require Import Prelude RustStr Ast Membership DiskTree MigrationJournal.

Inductive FenceState := Absent | Empty | HasJournal | PolicyTransaction (schema_migration : bool) | Invalid.

Inductive RecoveryOutcome := NothingToRecover | SetupRemoved | RolledBack.

Inductive RollbackOutcome := NoArtifact | RollbackSetupRemoved | Restored.

Inductive FinalizeOutcome := NothingToFinalize | Finalized.

Inductive LiveState := Before | After | BeforeAndAfter | OtherLive.

#[export] Instance live_state_eq_dec : EqDecision LiveState.
Proof. solve_decision. Defined.

Section Txn.

Context {sha : Sha2Crate} {json : JsonCrate}.

Variable g : Guard.

(** ** Checks *)

(** [owner_metadata]: of the master file, or of the root if there is none. *)
Definition owner_metadata : M Attr :=
  sys ;; o ← view (fun fs => fs_live fs !! g_master g ≫= sl_now);
  match o with
  | Some i => n ← stat i; match n with NFile f => mret (fl_attr f) | _ => fail Refused end
  | None => n ← stat ROOT; match n with NDir a _ => mret a | _ => fail Refused end
  end.

Definition owned_with_mode (owner a : Attr) (mode : Z) : bool :=
  bool_decide ((at_uid a, at_gid a) = (at_uid owner, at_gid owner)) && (Z.land (at_mode a) 4095 =? mode)%Z.

Definition dir_ok (owner : Attr) (mode : Z) (n : Node) : bool := match n with NDir a _ => owned_with_mode owner a mode | _ => false end.

Definition file_ok (owner : Attr) (mode : Z) (n : Node) : bool :=
  match n with NFile f => (fl_nlink f =? 1)%Z && owned_with_mode owner (fl_attr f) mode | _ => false end.

Definition validate_owned_directory (d : nat) (owner : Attr) (mode : Z) : M unit :=
  n ← stat d; ensure (dir_ok owner mode n).

Definition validate_safe_file (d : nat) (name : str) (owner : Attr) (mode : Z) : M nat :=
  i ← open_path d name; n ← stat i; ensure (file_ok owner mode n) ;; mret i.

Definition file_len (n : Node) : Z := match n with NFile f => Z.of_nat (length (fl_bytes f)) | _ => 0%Z end.

Definition read_journal_bytes (fence : nat) (owner : Attr) : M str :=
  i ← open_path fence JOURNAL_NAME; n ← stat i;
  ensure (file_ok owner 384 n && (file_len n <=? MAX_JOURNAL_BYTES)%Z) ;;
  read_file i MAX_JOURNAL_BYTES.

Definition read_valid_journal (fence : nat) (owner : Attr) : M Journal :=
  bytes ← read_journal_bytes fence owner; some (validate_journal bytes (g_master g)).

Definition validate_original_blob_file (held : nat) (owner : Attr) (member : JournalMember) : M str :=
  n ← stat held;
  ensure (file_ok owner 384 n && (file_len n =? fr_len (jm_before member))%Z) ;;
  bytes ← read_file held (fr_len (jm_before member));
  ensure (Z.of_nat (length bytes) =? fr_len (jm_before member))%Z ;;
  ensure (bool_decide (sha256_hex bytes = fr_sha256 (jm_before member))) ;;
  mret bytes.

Definition validate_original_blob_held (fence : nat) (owner : Attr) (index : nat) (member : JournalMember) : M (nat * str) :=
  ensure (bool_decide (jm_original_blob member = original_blob_name index)) ;;
  originals ← open_existing_dir fence ORIGINALS_DIR_NAME;
  n ← stat originals; ensure (dir_ok owner 448 n) ;;
  held ← open_path originals (original_blob_file_name index);
  bytes ← validate_original_blob_file held owner member;
  mret (held, bytes).

Definition validate_original_blob (fence : nat) (owner : Attr) (index : nat) (member : JournalMember) : M str :=
  r ← validate_original_blob_held fence owner index member; mret r.2.

(** ** Inspection *)

Definition inspect : M FenceState :=
  dir ← or_else (o ← open_dir ROOT TXN_DIR_NAME; mret (inl o)) (fun _ => mret (inr tt));
  match dir with
  | inr _ => mret Invalid
  | inl None => mret Absent
  | inl (Some dir) =>
    owner ← owner_metadata; n ← stat dir;
    if negb (dir_ok owner 448 n) then mret Invalid
    else
      journal ← or_else (o ← inspect_at dir JOURNAL_NAME; mret (inl o)) (fun _ => mret (inr tt));
      match journal with
      | inr _ => mret Invalid
      | inl None =>
        marker ← or_else (o ← inspect_at dir SETUP_MARKER; mret (inl o)) (fun _ => mret (inr tt));
        mret (match marker with inr _ => Invalid | inl None => Empty | inl (Some _) => PolicyTransaction false end)
      | inl (Some i) =>
        n ← stat i;
        if negb (file_ok owner 384 n && (file_len n <=? MAX_JOURNAL_BYTES)%Z) then mret Invalid
        else
          bytes ← read_file i MAX_JOURNAL_BYTES;
          if bool_decide (peek_format_version bytes = Some POLICY_FORMAT_VERSION)
          then mret (PolicyTransaction (bool_decide (peek_manifest_kind bytes = Some (lit "v4_to_v5_migration"))))
          else mret (match validate_journal bytes (g_master g) with Some _ => HasJournal | None => Invalid end)
      end
  end.

(** [refuse_normal_access]: any fence, or a failure to look, refuses. *)
Definition refuse_normal_access : M unit :=
  s ← inspect; match s with Absent => mret tt | _ => fail Refused end.

Definition artifact_suffix_ok (prefix name : str) : bool :=
  let suffix := drop (length prefix) name in (length suffix =? 32) && forallb lower_hex suffix.

Definition artifact_candidate (prefix : str) : M (option str) :=
  names ← visit_directory ROOT;
  let candidates := filter (fun name => starts_with prefix name = true) names in
  ensure (forallb (artifact_suffix_ok prefix) candidates) ;;
  ensure (length candidates <=? 1) ;;
  mret (last candidates).

Definition cleanup_candidate : M (option str) := artifact_candidate CLEANUP_DIR_PREFIX.

Definition finalized_candidate : M (option str) := artifact_candidate FINALIZED_DIR_PREFIX.

Definition root_has_cleanup_artifact : M bool :=
  names ← visit_directory ROOT;
  mret (existsb (fun name => starts_with CLEANUP_DIR_PREFIX name || starts_with FINALIZED_DIR_PREFIX name) names).

(** [refuse_normal_write] *)
Definition refuse_normal_write : M unit :=
  refuse_normal_access ;;
  cleanup ← cleanup_candidate;
  match cleanup with
  | Some _ => fail Refused
  | None => terminal ← finalized_candidate; match terminal with Some _ => fail Refused | None => mret tt end
  end.

Definition classify_receipts (plan : TargetPlan) (before after : FileReceipt) : M LiveState :=
  match tp_original plan with
  | None => mret OtherLive
  | Some (i, metadata) =>
    n ← stat i;
    match n with
    | NFile f =>
      if (MAX_TOTAL_BYTES <? Z.of_nat (length (fl_bytes f)))%Z then mret OtherLive
      else mret (match receipt_matches metadata (fl_bytes f) before, receipt_matches metadata (fl_bytes f) after with
                 | true, true => BeforeAndAfter
                 | true, false => Before
                 | false, true => After
                 | false, false => OtherLive
                 end)
    | _ => mret OtherLive
    end
  end.

Definition classify_path (path : str) (before after : FileReceipt) : M LiveState :=
  plan ← plan_root_file path; classify_receipts plan before after.

(** ** Inventories *)

Record FenceInventory := { fi_journal : nat; fi_originals : nat; fi_blobs : list nat }.

Definition validate_fence_inventory (fence : nat) (owner : Attr) (journal : Journal) (allow_stage : bool) : M FenceInventory :=
  names ← visit_directory fence;
  ensure (length names <=? 2 + (if allow_stage then 1 else 0)) ;;
  ensure (forallb (fun name => bool_decide (name ∈ [JOURNAL_NAME; ORIGINALS_DIR_NAME]) || allow_stage && bool_decide (name = JOURNAL_STAGE_NAME)) names) ;;
  originals ← open_existing_dir fence ORIGINALS_DIR_NAME;
  validate_owned_directory originals owner 448 ;;
  blob_names ← visit_directory originals;
  ensure (length blob_names <=? length (jn_members journal) + 1) ;;
  ensure (forallb (fun name => bool_decide (name ∈ map original_blob_file_name (seq 0 (length (jn_members journal))))) blob_names) ;;
  journal_file ← validate_safe_file fence JOURNAL_NAME owner 384;
  blobs ← collect_each (imap pair (jn_members journal)) (fun p => r ← validate_original_blob_held fence owner p.1 p.2; mret r.1);
  mret {| fi_journal := journal_file; fi_originals := originals; fi_blobs := blobs |}.

Record CleanupInventory := { ci_journal : nat; ci_originals : option nat; ci_blobs : list (option nat) }.

(** The blobs found, each in the place its name gives. *)
Fixpoint place_blobs (originals : nat) (owner : Attr) (names : list str) (blobs : list (option nat)) : M (list (option nat)) :=
  match names with
  | [] => mret blobs
  | name :: names =>
    index ← some (parse_blob_index name);
    ensure (index <? length blobs) ;;
    ensure (bool_decide (blobs !! index = Some None)) ;;
    i ← validate_safe_file originals name owner 384;
    place_blobs originals owner names (<[index := Some i]> blobs)
  end.

Definition validate_cleanup_inventory (fence : nat) (owner : Attr) (journal : Journal) : M CleanupInventory :=
  names ← visit_directory fence;
  ensure (length names <=? 3) ;;
  ensure (forallb (fun name => bool_decide (name ∈ [JOURNAL_NAME; ORIGINALS_DIR_NAME])) names) ;;
  journal_file ← validate_safe_file fence JOURNAL_NAME owner 384;
  let none := replicate (length (jn_members journal)) None in
  o ← inspect_at fence ORIGINALS_DIR_NAME;
  match o with
  | None => mret {| ci_journal := journal_file; ci_originals := None; ci_blobs := none |}
  | Some originals =>
    validate_owned_directory originals owner 448 ;;
    blob_names ← visit_directory originals;
    ensure (length blob_names <=? length (jn_members journal) + 1) ;;
    blobs ← place_blobs originals owner blob_names none;
    mret {| ci_journal := journal_file; ci_originals := Some originals; ci_blobs := blobs |}
  end.

Record SetupInventory := { si_stage : option nat; si_originals : option nat; si_blobs : list (nat * str * nat) }.

Fixpoint find_setup_blobs (originals : nat) (owner : Attr) (names : list str) (blobs : list (nat * str * nat)) : M (list (nat * str * nat)) :=
  match names with
  | [] => mret blobs
  | name :: names =>
    ensure (length blobs <? MAX_INCLUDE_FILES) ;;
    index ← some (parse_blob_index name);
    ensure (bool_decide (index ∉ map (fst ∘ fst) blobs)) ;;
    i ← validate_safe_file originals name owner 384;
    find_setup_blobs originals owner names (blobs ++ [(index, name, i)])
  end.

Definition later_blob (a b : nat * str * nat) : bool := b.1.1 <=? a.1.1.

Definition validate_setup_inventory (fence : nat) (owner : Attr) : M SetupInventory :=
  names ← visit_directory fence;
  ensure (length names <=? 3) ;;
  ensure (forallb (fun name => bool_decide (name ∈ [JOURNAL_STAGE_NAME; ORIGINALS_DIR_NAME])) names) ;;
  stage ← (if bool_decide (JOURNAL_STAGE_NAME ∈ names) then
             i ← validate_safe_file fence JOURNAL_STAGE_NAME owner 384; n ← stat i;
             ensure (file_len n <=? MAX_JOURNAL_BYTES)%Z ;; mret (Some i)
           else mret None);
  if bool_decide (ORIGINALS_DIR_NAME ∈ names) then
    originals ← open_existing_dir fence ORIGINALS_DIR_NAME;
    validate_owned_directory originals owner 448 ;;
    blob_names ← visit_directory originals;
    blobs ← find_setup_blobs originals owner blob_names [];
    ensure (forallb (fun index => bool_decide (index ∈ map (fst ∘ fst) blobs)) (seq 0 (length blobs))) ;;
    mret {| si_stage := stage; si_originals := Some originals; si_blobs := sort_by later_blob blobs |}
  else mret {| si_stage := stage; si_originals := None; si_blobs := [] |}.

(** ** Removal *)

Definition ensure_current_inode (d : nat) (name : str) (held : nat) : M unit :=
  current ← open_path d name; ensure (bool_decide (current = held)).

Definition checked_unlink (d : nat) (name : str) (held : nat) : M unit :=
  ensure_current_inode d name held ;; ensure_current_inode d name held ;;
  unlink_at d name ;; sync_dir d.

Definition checked_rmdir (d : nat) (name : str) (held : nat) : M unit :=
  ensure_current_inode d name held ;; rmdir_at d name ;; sync_dir d.

Definition remove_setup_fence (fence : nat) (inventory : SetupInventory) : M unit :=
  match si_stage inventory with Some stage => checked_unlink fence JOURNAL_STAGE_NAME stage | None => mret tt end ;;
  match si_originals inventory with
  | Some originals =>
    for_each (si_blobs inventory) (fun b => checked_unlink originals b.1.2 b.2) ;;
    checked_rmdir fence ORIGINALS_DIR_NAME originals
  | None => mret tt
  end ;;
  checked_rmdir ROOT TXN_DIR_NAME fence ;;
  sync_dir ROOT.

(** [remove_validated_fence] *)
Definition remove_validated_fence (fence : nat) (cleanup : str) (inventory : FenceInventory) : M unit :=
  for_each (reverse (imap pair (fi_blobs inventory))) (fun b => checked_unlink (fi_originals inventory) (original_blob_file_name b.1) b.2) ;;
  checked_rmdir fence ORIGINALS_DIR_NAME (fi_originals inventory) ;;
  checked_unlink fence JOURNAL_NAME (fi_journal inventory) ;;
  sync_dir fence ;;
  checked_rmdir ROOT cleanup fence.

Definition remove_cleanup_inventory (fence : nat) (cleanup : str) (inventory : CleanupInventory) : M unit :=
  match ci_originals inventory with
  | Some originals =>
    for_each (reverse (imap pair (ci_blobs inventory)))
      (fun b => match b.2 with Some i => checked_unlink originals (original_blob_file_name b.1) i | None => mret tt end) ;;
    checked_rmdir fence ORIGINALS_DIR_NAME originals
  | None => mret tt
  end ;;
  checked_unlink fence JOURNAL_NAME (ci_journal inventory) ;;
  sync_dir fence ;;
  checked_rmdir ROOT cleanup fence.

(** A directory without a journal is removed only if it is empty. *)
Definition remove_empty (fence : nat) (name : str) : M unit :=
  names ← visit_directory fence; ensure (bool_decide (names = [])) ;;
  checked_rmdir ROOT name fence ;; sync_dir ROOT.

(** ** Publication *)

Definition create_fence : M unit :=
  owner ← owner_metadata;
  mkdir_at g ROOT TXN_DIR_NAME 448 ;;
  dir ← open_existing_dir ROOT TXN_DIR_NAME;
  preserve_owner g dir owner ;;
  set_permissions dir 448 ;;
  n ← stat dir;
  ensure (match n with NDir a _ => bool_decide ((at_uid a, at_gid a) = (at_uid owner, at_gid owner)) | _ => false end) ;;
  sync_dir dir ;; sync_dir ROOT.

Definition create_owned_directory (d : nat) (name : str) (owner : Attr) : M nat :=
  mkdir_at g d name 448 ;;
  directory ← open_existing_dir d name;
  preserve_owner g directory owner ;;
  set_permissions directory 448 ;;
  validate_owned_directory directory owner 448 ;;
  sync_dir directory ;; sync_dir d ;; mret directory.

Definition write_original_blob (originals : nat) (index : nat) (bytes : str) (owner : Attr) : M unit :=
  blob ← create_file g originals (original_blob_file_name index) 384;
  preserve_owner g blob owner ;;
  set_permissions blob 384 ;;
  write_all blob bytes ;;
  sync_file blob ;;
  n ← stat blob;
  ensure (file_ok owner 384 n && (file_len n =? Z.of_nat (length bytes))%Z).

Definition write_journal (fence : nat) (bytes : str) (owner : Attr) : M unit :=
  stage ← create_file g fence JOURNAL_STAGE_NAME 384;
  preserve_owner g stage owner ;;
  set_permissions stage 384 ;;
  write_all stage bytes ;;
  sync_file stage ;;
  staged ← validate_safe_file fence JOURNAL_STAGE_NAME owner 384;
  n ← stat staged; ensure (file_len n <=? MAX_JOURNAL_BYTES)%Z ;;
  staged_bytes ← read_file staged MAX_JOURNAL_BYTES;
  ensure (bool_decide (staged_bytes = bytes) && bool_decide (sha256_hex staged_bytes = sha256_hex bytes)) ;;
  some (validate_journal staged_bytes (g_master g)) ;;
  rename_noreplace_at fence JOURNAL_STAGE_NAME JOURNAL_NAME ;;
  sync_dir fence.

(** [same_metadata], without the change times. *)
Definition same_metadata (i : nat) (current : FileNode) (m : MigrationMember) : bool :=
  let captured := mm_metadata m in
  (i =? mm_inode m) && (length (fl_bytes current) =? length (fl_bytes captured)) && bool_decide (fl_attr current = fl_attr captured)
  && (fl_nlink current =? fl_nlink captured)%Z.

Definition read_plan_bytes (i : nat) (expected_len : Z) : M str := read_file i expected_len.

Definition plan_unchanged (m : MigrationMember) : M TargetPlan :=
  plan ← plan_root_file (mm_path m);
  o ← some (tp_original plan);
  bytes ← read_plan_bytes o.1 (Z.of_nat (length (mm_before m)));
  ensure (receipt_matches o.2 bytes (before_receipt m)) ;;
  ensure (same_metadata o.1 o.2 m) ;;
  mret plan.

Record PublishedMigration := {
  pm_members : list MigrationMember;
  pm_targets : list PinnedTarget;
  pm_journal : Journal;
  pm_journal_hash : str;
  pm_fence : nat;
  pm_owner : Attr;
}.

Definition publish (members : list MigrationMember) : M PublishedMigration :=
  ensure (validate_migration_members (g_master g) members) ;;
  s ← inspect; ensure (match s with Absent => true | _ => false end) ;;
  found ← root_has_cleanup_artifact; ensure (negb found) ;;
  plans ← collect_each members plan_unchanged;
  targets ← collect_each plans materialize;
  journal_members ← some (mapM (fun m => journal_member_new (mm_path m) (mm_role m) (before_receipt m) (after_receipt m)) members);
  journal ← some (journal_new (g_master g) journal_members);
  journal_bytes ← some (to_json_bytes journal);
  create_fence ;;
  owner ← owner_metadata;
  fence ← open_existing_dir ROOT TXN_DIR_NAME;
  originals ← create_owned_directory fence ORIGINALS_DIR_NAME owner;
  for_each (imap pair members) (fun p => write_original_blob originals p.1 (mm_before p.2) owner) ;;
  sync_dir originals ;;
  for_each (imap pair (jn_members journal)) (fun p => validate_original_blob fence owner p.1 p.2 ;; mret tt) ;;
  write_journal fence journal_bytes owner ;;
  parsed ← read_valid_journal fence owner;
  validate_fence_inventory fence owner parsed false ;;
  for_each (imap pair (jn_members parsed)) (fun p => validate_original_blob fence owner p.1 p.2 ;; mret tt) ;;
  mret {| pm_members := members; pm_targets := targets; pm_journal := parsed; pm_journal_hash := sha256_hex journal_bytes;
          pm_fence := fence; pm_owner := owner |}.

Definition validate_snapshot (t : PublishedMigration) : M unit :=
  bytes ← read_journal_bytes (pm_fence t) (pm_owner t);
  ensure (bool_decide (sha256_hex bytes = pm_journal_hash t)) ;;
  journal ← some (validate_journal bytes (g_master g));
  ensure (length (jn_members journal) =? length (jn_members (pm_journal t))) ;;
  validate_fence_inventory (pm_fence t) (pm_owner t) journal false ;;
  for_each (imap pair (jn_members journal)) (fun p => validate_original_blob (pm_fence t) (pm_owner t) p.1 p.2 ;; mret tt).

Definition is_before (s : LiveState) : bool := match s with Before | BeforeAndAfter => true | _ => false end.

Definition is_after (s : LiveState) : bool := match s with After | BeforeAndAfter => true | _ => false end.

(** [promote_all]: the targets remember what they were promoted to. *)
Definition promote_all (t : PublishedMigration) : M PublishedMigration :=
  validate_snapshot t ;;
  for_each (pm_members t) (fun m => s ← classify_path (mm_path m) (before_receipt m) (after_receipt m); ensure (is_before s)) ;;
  targets ← collect_each (zip (pm_members t) (pm_targets t))
    (fun p => hardened_atomic_write_at g p.2 (mm_after p.1) (Some (fr_mode (after_receipt p.1))) (fr_uid (after_receipt p.1), fr_gid (after_receipt p.1)));
  mret {| pm_members := pm_members t; pm_targets := targets; pm_journal := pm_journal t; pm_journal_hash := pm_journal_hash t;
          pm_fence := pm_fence t; pm_owner := pm_owner t |}.

(** Everything before the rename of [commit]. *)
Definition ready_to_commit (t : PublishedMigration) : M unit :=
  validate_snapshot t ;;
  for_each (zip (pm_members t) (pm_targets t))
    (fun p => s ← classify_path (mm_path p.1) (before_receipt p.1) (after_receipt p.1); ensure (is_after s) ;; sync_held_file_and_parent p.2) ;;
  ensure_current_inode ROOT TXN_DIR_NAME (pm_fence t) ;;
  rename_noreplace_at ROOT TXN_DIR_NAME (cleanup_name (pm_journal_hash t)).

Definition commit (t : PublishedMigration) : M str :=
  failing_as RenameNotLanded (ready_to_commit t) ;;
  failing_as RootFsyncUncertain (sync_dir ROOT) ;;
  mret (cleanup_name (pm_journal_hash t)).

(** ** Recovery *)

(** All members, with the state of each. *)
Definition classify_all (journal : Journal) : M (list LiveState) :=
  collect_each (jn_members journal) (fun m => classify_path (jm_path m) (jm_before m) (jm_after m)).

Definition all_one_side (states : list LiveState) : M (bool * bool) :=
  ensure (forallb (fun s => negb (bool_decide (s = OtherLive))) states) ;;
  let before_only := forallb (fun s => negb (bool_decide (s = After))) states in
  let after_only := forallb (fun s => negb (bool_decide (s = Before))) states in
  ensure (before_only || after_only) ;; mret (before_only, after_only).

(** A committed undo has every original. *)
Definition require_originals (owner : Attr) (journal : Journal) (inventory : CleanupInventory) : M unit :=
  ensure (bool_decide (is_Some (ci_originals inventory))) ;;
  for_each (zip (jn_members journal) (ci_blobs inventory)) (fun p => i ← some p.2; validate_original_blob_file i owner p.1 ;; mret tt).

Definition recover_cleanup : M RecoveryOutcome :=
  candidate ← cleanup_candidate;
  match candidate with
  | None => mret NothingToRecover
  | Some cleanup =>
    fence ← open_existing_dir ROOT cleanup;
    owner ← owner_metadata;
    validate_owned_directory fence owner 448 ;;
    o ← inspect_at fence JOURNAL_NAME;
    if bool_decide (o = None) then remove_empty fence cleanup ;; mret RolledBack
    else
      bytes ← read_journal_bytes fence owner;
      ensure (bool_decide (cleanup = cleanup_name (sha256_hex bytes))) ;;
      journal ← some (validate_journal bytes (g_master g));
      inventory ← validate_cleanup_inventory fence owner journal;
      states ← classify_all journal;
      '(_, after_only) ← all_one_side states;
      if (after_only : bool) then require_originals owner journal inventory ;; mret NothingToRecover
      else
        ensure_current_inode ROOT cleanup fence ;;
        sync_dir ROOT ;;
        remove_cleanup_inventory fence cleanup inventory ;;
        sync_dir ROOT ;;
        mret RolledBack
  end.

(** Put the original of one member back. *)
Definition restore_member (p : JournalMember * str * option PinnedTarget) : M unit :=
  match p.2 with
  | Some target =>
    hardened_atomic_write_at g target p.1.2 (Some (fr_mode (jm_before p.1.1))) (fr_uid (jm_before p.1.1), fr_gid (jm_before p.1.1)) ;; mret tt
  | None => mret tt
  end.

Definition pin_changed (p : TargetPlan * LiveState) : M (option PinnedTarget) :=
  if bool_decide (p.2 = After) then t ← materialize p.1; mret (Some t) else mret None.

(** Recovery under a fence with a journal. *)
Definition recover_journal (fence : nat) (owner : Attr) : M RecoveryOutcome :=
  journal ← read_valid_journal fence owner;
  inventory ← validate_fence_inventory fence owner journal false;
  originals ← collect_each (imap pair (jn_members journal)) (fun p => validate_original_blob fence owner p.1 p.2);
  planned ← collect_each (jn_members journal)
    (fun m => plan ← plan_root_file (jm_path m); s ← classify_receipts plan (jm_before m) (jm_after m); mret (plan, s));
  ensure (forallb (fun p => negb (bool_decide (p.2 = OtherLive))) planned) ;;
  ensure_current_inode ROOT TXN_DIR_NAME fence ;;
  sync_dir ROOT ;;
  targets ← collect_each planned pin_changed;
  for_each (reverse (zip (zip (jn_members journal) originals) targets)) restore_member ;;
  for_each (jn_members journal) (fun m => s ← classify_path (jm_path m) (jm_before m) (jm_after m); ensure (is_before s)) ;;
  sys ;; (* the restored configuration is validated *)
  bytes ← read_journal_bytes fence owner;
  let cleanup := cleanup_name (sha256_hex bytes) in
  rename_noreplace_at ROOT TXN_DIR_NAME cleanup ;;
  sync_dir ROOT ;;
  remove_validated_fence fence cleanup inventory ;;
  sync_dir ROOT ;;
  mret RolledBack.

Definition recover_fixed : M RecoveryOutcome :=
  o ← open_dir ROOT TXN_DIR_NAME;
  match o with
  | None => recover_cleanup
  | Some fence =>
    owner ← owner_metadata;
    validate_owned_directory fence owner 448 ;;
    o ← inspect_at fence JOURNAL_NAME;
    if bool_decide (o = None) then
      inventory ← validate_setup_inventory fence owner; remove_setup_fence fence inventory ;; mret SetupRemoved
    else recover_journal fence owner
  end.

(** [rollback] *)
Definition rollback : M RollbackOutcome :=
  fixed ← inspect;
  terminal ← finalized_candidate;
  cleanup ← cleanup_candidate;
  match fixed, cleanup with
  | Absent, None => ensure (bool_decide (terminal = None)) ;; mret NoArtifact
  | Absent, Some cleanup =>
    ensure (bool_decide (terminal = None)) ;;
    fence ← open_existing_dir ROOT cleanup;
    owner ← owner_metadata;
    validate_owned_directory fence owner 448 ;;
    o ← inspect_at fence JOURNAL_NAME;
    if bool_decide (o = None) then remove_empty fence cleanup ;; mret RollbackSetupRemoved
    else
      bytes ← read_journal_bytes fence owner;
      ensure (bool_decide (cleanup = cleanup_name (sha256_hex bytes))) ;;
      journal ← some (validate_journal bytes (g_master g));
      inventory ← validate_cleanup_inventory fence owner journal;
      states ← classify_all journal;
      '(before_only, _) ← all_one_side states;
      if (before_only : bool) then
        ensure_current_inode ROOT cleanup fence ;;
        sync_dir ROOT ;;
        sys ;; (* the restored configuration is validated *)
        ensure_current_inode ROOT cleanup fence ;;
        remove_cleanup_inventory fence cleanup inventory ;;
        sync_dir ROOT ;;
        mret Restored
      else
        require_originals owner journal inventory ;;
        ensure_current_inode ROOT cleanup fence ;;
        rename_noreplace_at ROOT cleanup TXN_DIR_NAME ;;
        sync_dir ROOT ;;
        r ← recover_fixed;
        match r with RolledBack => mret Restored | _ => fail Refused end
  | _, _ =>
    ensure (bool_decide (cleanup = None) && bool_decide (terminal = None)) ;;
    r ← recover_fixed;
    match r with SetupRemoved => mret RollbackSetupRemoved | RolledBack => mret Restored | NothingToRecover => fail Refused end
  end.

(** ** Keeping the migration *)

Definition resume_terminal_cleanup (terminal : str) : M unit :=
  fence ← open_existing_dir ROOT terminal;
  owner ← owner_metadata;
  validate_owned_directory fence owner 448 ;;
  ensure_current_inode ROOT terminal fence ;;
  sync_dir ROOT ;;
  o ← inspect_at fence JOURNAL_NAME;
  if bool_decide (o = None) then remove_empty fence terminal
  else
    bytes ← read_journal_bytes fence owner;
    ensure (bool_decide (terminal = finalized_name (sha256_hex bytes))) ;;
    journal ← some (validate_journal bytes (g_master g));
    inventory ← validate_cleanup_inventory fence owner journal;
    remove_cleanup_inventory fence terminal inventory ;;
    sync_dir ROOT.

Definition finalize : M FinalizeOutcome :=
  s ← inspect; ensure (match s with Absent => true | _ => false end) ;;
  terminal ← finalized_candidate;
  cleanup ← cleanup_candidate;
  ensure (bool_decide (terminal = None) || bool_decide (cleanup = None)) ;;
  match terminal, cleanup with
  | Some terminal, _ => resume_terminal_cleanup terminal ;; mret Finalized
  | None, None => mret NothingToFinalize
  | None, Some cleanup =>
    fence ← open_existing_dir ROOT cleanup;
    owner ← owner_metadata;
    validate_owned_directory fence owner 448 ;;
    bytes ← read_journal_bytes fence owner;
    let hash := sha256_hex bytes in
    ensure (bool_decide (cleanup = cleanup_name hash)) ;;
    journal ← some (validate_journal bytes (g_master g));
    inventory ← validate_cleanup_inventory fence owner journal;
    ensure (bool_decide (is_Some (ci_originals inventory)) && forallb (fun b => bool_decide (is_Some b)) (ci_blobs inventory)) ;;
    for_each (zip (jn_members journal) (ci_blobs inventory))
      (fun p => i ← some p.2; validate_original_blob_file i owner p.1 ;;
                s ← classify_path (jm_path p.1) (jm_before p.1) (jm_after p.1); ensure (is_after s)) ;;
    sys ;; (* the installed configuration is validated *)
    ensure_current_inode ROOT cleanup fence ;;
    rename_noreplace_at ROOT cleanup (finalized_name hash) ;;
    sync_dir ROOT ;;
    remove_cleanup_inventory fence (finalized_name hash) inventory ;;
    sync_dir ROOT ;;
    mret Finalized
  end.

(** ** The command *)

(** [recover_after_failure] always reports the failure. *)
Definition recover_after_failure {A} : M A :=
  recover_fixed ;; sys ;; fail Refused.

Inductive MigrationStatus := AlreadyV4 | Migrated (cleanup : str).

(** [migrate_tree_locked]: reading the tree, working out the members and
    checking the candidate are calls that may fail; the schema that a master
    declares is [declared_schema] of its text. *)
Definition migrate_tree (declared_schema : str → Z) (members : list MigrationMember) : M MigrationStatus :=
  recover_fixed ;;
  plan ← plan_root_file (g_master g); master ← some (tp_original plan); text ← read_file master.1 MAX_TOTAL_BYTES;
  if (declared_schema text =? 4)%Z then sys ;; mret AlreadyV4 else
  ensure (declared_schema text =? 3)%Z ;;
  sys ;;
  ensure (forallb migration_member_ok members) ;;
  t ← or_else (publish members) (fun _ => recover_after_failure);
  t ← or_else (promote_all t) (fun _ => recover_after_failure);
  or_else sys (fun _ => recover_after_failure) ;; (* the installed configuration is validated *)
  cleanup ← or_else (commit t) (fun e => match e with RootFsyncUncertain => fail e | _ => recover_after_failure end);
  mret (Migrated cleanup).

(** [rollback_tree] and [finalize_tree] *)
Definition rollback_tree : M RollbackOutcome := r ← rollback; match r with Restored => mret r | _ => sys ;; mret r end.

Definition finalize_tree : M FinalizeOutcome := refuse_normal_access ;; sys ;; finalize.

End Txn.
