(* ===== verification/DiskLogic.v ===== *)
(** * Reasoning about the calls of [DiskTree]

    A triple says what holds when a program is done, what holds when it reports a
    failure, and what holds when the process dies in it; and that it does not
    fail unless a call did.  A program that only reads has a simpler one. *)

From S2P Require Import Prelude RustStr DiskTree.

(** ** Triples *)

(** [c] is the condition under which the program must succeed when every call
    works. *)
Definition triple {A} (c : Prop) (E : Fs → Prop) (P : Fs → Prop) (m : M A) (F : Fs → Prop) (Q : A → Fs → Prop) : Prop :=
  ∀ fs io, P fs →
  match m fs io with
  | (fs', io', o) =>
    (io = [] → io' = []) ∧
    match o with
    | Done a => Q a fs'
    | Failed _ => F fs' ∧ ¬ (c ∧ io = [])
    | Dead => E fs' ∧ io ≠ []
    end
  end.

Section Rules.

Context (c : Prop) (E F : Fs → Prop).

Lemma triple_ret {A} (a : A) (P : Fs → Prop) : triple c E P (mret a) F (fun b fs => P fs ∧ b = a).
Proof. intros fs io HP. cbn. auto. Qed.

Lemma triple_done {A} (a : A) (P : Fs → Prop) (Q : A → Fs → Prop) : (∀ fs, P fs → Q a fs) → triple c E P (mret a) F Q.
Proof. intros H fs io HP. cbn. auto. Qed.

Lemma triple_bind {A B} P (m : M A) (k : A → M B) R Q :
  triple c E P m F R → (∀ a, triple c E (R a) (k a) F Q) → triple c E P (m ≫= k) F Q.
Proof.
  intros Hm Hk fs io HP. specialize (Hm fs io HP). unfold mbind, M_bind. destruct (m fs io) as [[fs1 io1] [a|e|]]; [|done..].
  destruct Hm as [Hio HR]. specialize (Hk a fs1 io1 HR). destruct (k a fs1 io1) as [[fs2 io2] [b|e|]]; destruct Hk as [Hio2 H2]; (split; [auto|]); [done| |];
    destruct H2 as [H2 Hn]; (split; [done|]); [intros [Hc He]; apply Hn; auto|intros ->; by apply Hn, Hio].
Qed.

Lemma triple_assoc {A B C} P (m : M A) (k : A → M B) (h : B → M C) Q : triple c E P ((m ≫= k) ≫= h) F Q → triple c E P (m ≫= fun a => k a ≫= h) F Q.
Proof. intros H fs io HP. specialize (H fs io HP). unfold mbind, M_bind in *. by destruct (m fs io) as [[fs1 io1] [a|e|]]. Qed.

Lemma triple_conseq {A} P P' (m : M A) (Q Q' : A → Fs → Prop) :
  triple c E P' m F Q' → (∀ fs, P fs → P' fs) → (∀ a fs, Q' a fs → Q a fs) → triple c E P m F Q.
Proof. intros Hm Hp Hq fs io HP. specialize (Hm fs io (Hp _ HP)). destruct (m fs io) as [[fs1 io1] [a|e|]]; naive_solver. Qed.

Lemma triple_pre {A} P P' (m : M A) (Q : A → Fs → Prop) : triple c E P' m F Q → (∀ fs, P fs → P' fs) → triple c E P m F Q.
Proof. intros. by eapply triple_conseq. Qed.

(** A fact that does not depend on the state. *)
Lemma triple_fact {A} (p : Prop) P (m : M A) Q : (p → triple c E P m F Q) → triple c E (fun fs => p ∧ P fs) m F Q.
Proof. intros H fs io [Hp HP]. exact (H Hp fs io HP). Qed.

Lemma triple_exists {A X} (P : X → Fs → Prop) (m : M A) Q : (∀ x, triple c E (P x) m F Q) → triple c E (fun fs => ∃ x, P x fs) m F Q.
Proof. intros H fs io [x HP]. exact (H x fs io HP). Qed.

Lemma triple_or {A} P P' (m : M A) Q : triple c E P m F Q → triple c E P' m F Q → triple c E (fun fs => P fs ∨ P' fs) m F Q.
Proof. intros H H' fs io [HP|HP]; [exact (H fs io HP)|exact (H' fs io HP)]. Qed.

Lemma triple_sys P : (∀ fs, P fs → E fs) → (∀ fs, P fs → F fs) → triple c E P sys F (fun _ fs => P fs).
Proof.
  intros HE HF fs io HP. destruct io as [|[| |] io]; cbn; (split; [done|]); try done.
  - split; [auto|]. by intros [_ ?].
  - split; [auto|]. done.
Qed.

Lemma triple_view {A} (f : Fs → A) P : triple c E P (view f) F (fun a fs => P fs ∧ a = f fs).
Proof. intros fs io HP. cbn. auto. Qed.

Lemma triple_change (f : Fs → Fs) P Q : (∀ fs, P fs → Q (f fs)) → triple c E P (change f) F (fun _ fs => Q fs).
Proof. intros H fs io HP. cbn. auto. Qed.

Lemma triple_fail {A} e P (Q : A → Fs → Prop) : (∀ fs, P fs → F fs ∧ ¬ c) → triple c E P (fail e) F Q.
Proof. intros H fs io HP. destruct (H fs HP) as [HF Hn]. cbn. split; [auto|]. split; [done|]. by intros [Hc _]. Qed.

Lemma triple_ensure b P : (∀ fs, P fs → F fs) → (∀ fs, P fs → c → b = true) → triple c E P (ensure b) F (fun _ fs => P fs ∧ b = true).
Proof.
  intros HF Hb fs io HP. unfold ensure. destruct b; cbn; [auto|]. split; [auto|]. split; [auto|]. intros [Hc _]. by specialize (Hb fs HP Hc).
Qed.

Lemma triple_some {A} (o : option A) P : (∀ fs, P fs → F fs) → (∀ fs, P fs → c → is_Some o) → triple c E P (some o) F (fun a fs => P fs ∧ o = Some a).
Proof.
  intros HF Hb fs io HP. unfold some. destruct o as [a|]; cbn; [auto|]. split; [auto|]. split; [auto|]. intros [Hc _]. by destruct (Hb fs HP Hc).
Qed.

Lemma triple_for_each {A} (l : list A) (f : A → M unit) (P : nat → Fs → Prop) :
  (∀ k x, l !! k = Some x → triple c E (P k) (f x) F (fun _ => P (S k))) → triple c E (P 0) (for_each l f) F (fun _ => P (length l)).
Proof.
  revert P. induction l as [|x l IH]; intros P H; cbn [for_each length].
  - apply triple_done. done.
  - eapply triple_bind; [exact (H 0 x eq_refl)|]. intros u. apply (IH (fun k => P (S k))). intros k y Hk. exact (H (S k) y Hk).
Qed.

Lemma triple_collect {A B} (l : list A) (f : A → M B) (P : nat → list B → Fs → Prop) :
  (∀ k x ys, l !! k = Some x → length ys = k → triple c E (P k ys) (f x) F (fun y => P (S k) (ys ++ [y]))) →
  triple c E (P 0 []) (collect_each l f) F (fun ys fs => P (length l) ys fs ∧ length ys = length l).
Proof.
  intros H.
  assert (∀ l' pre k, (∀ j, l' !! j = l !! (k + j)) → k + length l' = length l → length pre = k →
    triple c E (P k pre) (collect_each l' f) F (fun ys fs => P (length l) (pre ++ ys) fs ∧ length ys = length l')) as Hgen.
  { induction l' as [|x l' IH]; intros pre k Hl Hk Hp; cbn [collect_each length] in *.
    - apply triple_done. intros fs HP. rewrite app_nil_r. split; [|done]. by replace (length l) with k by lia.
    - eapply triple_bind; [apply (H k x pre); [rewrite <- (Nat.add_0_r k), <- Hl; done|done]|]. intros y.
      eapply triple_bind; [apply (IH (pre ++ [y]) (S k))|].
      + intros j. transitivity (l !! (k + S j)); [exact (Hl (S j))|]. f_equal. lia.
      + lia.
      + rewrite length_app. cbn. lia.
      + intros ys. apply triple_done. intros fs [HP Hys]. rewrite <- app_assoc in HP. cbn in *. split; [done|lia]. }
  apply (Hgen l [] 0); [done|lia|done].
Qed.

End Rules.

Lemma triple_weaken {A} (c c' : Prop) (E E' F F' : Fs → Prop) P (m : M A) Q :
  triple c E P m F Q → (c' → c) → (∀ fs, E fs → E' fs) → (∀ fs, F fs → F' fs) → triple c' E' P m F' Q.
Proof. intros Hm Hc HE HF fs io HP. specialize (Hm fs io HP). destruct (m fs io) as [[fs1 io1] [a|e|]]; naive_solver. Qed.

(** Where nothing fails, a program that has to succeed does. *)
Lemma triple_runs {A} (c : Prop) (E F : Fs → Prop) P (m : M A) Q fs : triple c E P m F Q → c → P fs → ∃ a fs', m fs [] = (fs', [], Done a) ∧ Q a fs'.
Proof.
  intros Hm Hc HP. specialize (Hm fs [] HP). destruct (m fs []) as [[fs' io'] [a|e|]]; destruct Hm as [Hio Hm]; [rewrite (Hio eq_refl); by exists a, fs'|naive_solver..].
Qed.

Lemma triple_done_inv {A} (c : Prop) (E F : Fs → Prop) P (m : M A) Q fs io fs' io' a : triple c E P m F Q → P fs → m fs io = (fs', io', Done a) → Q a fs'.
Proof. intros Hm HP He. specialize (Hm fs io HP). rewrite He in Hm. apply Hm. Qed.

(** The handler starts from what holds at a failure. *)
Lemma triple_or_else {A} (c : Prop) (E F F' : Fs → Prop) P (m : M A) (h : Error → M A) Q :
  triple c E P m F' Q → (∀ e, triple False E F' (h e) F Q) → triple c E P (or_else m h) F Q.
Proof.
  intros Hm Hh fs io HP. specialize (Hm fs io HP). unfold or_else. destruct (m fs io) as [[fs1 io1] [a|e|]]; [done| |done].
  destruct Hm as [Hio [HF Hn]]. specialize (Hh e fs1 io1 HF). destruct (h e fs1 io1) as [[fs2 io2] [b|e'|]]; destruct Hh as [Hio2 H2]; (split; [auto|]); [done| |].
  - split; [apply H2|]. done.
  - split; [apply H2|]. intros ->. by apply H2, Hio.
Qed.

Lemma triple_failing_as {A} (c : Prop) (E F : Fs → Prop) P (m : M A) e Q : triple c E P m F Q → triple c E P (failing_as e m) F Q.
Proof. intros Hm fs io HP. specialize (Hm fs io HP). unfold failing_as. destruct (m fs io) as [[fs1 io1] [a|e'|]]; done. Qed.

Lemma triple_sys_ignored c E F P : (∀ fs, P fs → E fs) → triple c E P sys_ignored F (fun _ fs => P fs).
Proof.
  intros HE. unfold sys_ignored. eapply (triple_or_else _ _ _ P); [by apply triple_sys|]. intros _. by apply triple_done.
Qed.

(** ** Programs that only read *)

(** [C]: when it has to succeed; [R]: what it may return. *)
Definition reads {A} (m : M A) (C : Fs → Prop) (R : Fs → A → Prop) : Prop :=
  ∀ fs io, match m fs io with
           | (fs', io', o) => fs' = fs ∧ (io = [] → io' = [])
                              ∧ match o with Done a => R fs a | Failed _ => ¬ (C fs ∧ io = []) | Dead => io ≠ [] end
           end.

Lemma triple_reads {A} (c : Prop) (E F : Fs → Prop) (P : Fs → Prop) (m : M A) C R :
  reads m C R → (∀ fs, P fs → E fs) → (∀ fs, P fs → F fs) → (∀ fs, P fs → c → C fs) → triple c E P m F (fun a fs => P fs ∧ R fs a).
Proof.
  intros Hm HE HF HC fs io HP. specialize (Hm fs io). destruct (m fs io) as [[fs1 io1] [a|e|]]; destruct Hm as (-> & Hio & H); (split; [done|]); auto.
  split; [auto|]. intros [Hc He]. apply H. auto.
Qed.

(** A read, and what follows it. *)
Lemma triple_read {A B} (c : Prop) (E F : Fs → Prop) (P : Fs → Prop) (m : M A) (k : A → M B) C R Q :
  reads m C R → (∀ fs, P fs → E fs) → (∀ fs, P fs → F fs) → (∀ fs, P fs → c → C fs) → (∀ a, triple c E (fun fs => P fs ∧ R fs a) (k a) F Q) → triple c E P (m ≫= k) F Q.
Proof. intros. eapply triple_bind; [by eapply triple_reads|done]. Qed.

(** A read with one possible result. *)
Lemma triple_read_eq {A B} (c : Prop) (E F : Fs → Prop) (P : Fs → Prop) (m : M A) (k : A → M B) C R Q v :
  reads m C R → (∀ fs, P fs → E fs) → (∀ fs, P fs → F fs) → (∀ fs, P fs → c → C fs) → (∀ fs a, P fs → R fs a → a = v) → triple c E P (k v) F Q → triple c E P (m ≫= k) F Q.
Proof.
  intros Hm HE HF HC Hv Hk. eapply triple_read; [done..|]. intros a. eapply triple_pre; [apply (triple_fact c E F (a = v) P); intros ->; exact Hk|].
  cbn. intros fs [HP HR]. split; [by eapply Hv|done].
Qed.

(** A check that is not used further. *)
Lemma triple_check {A B} (c : Prop) (E F : Fs → Prop) (P : Fs → Prop) (m : M A) (k : A → M B) C R Q :
  reads m C R → (∀ fs, P fs → E fs) → (∀ fs, P fs → F fs) → (∀ fs, P fs → c → C fs) → (∀ a, triple c E P (k a) F Q) → triple c E P (m ≫= k) F Q.
Proof. intros Hm HE HF HC Hk. eapply triple_read; [done..|]. intros a. eapply triple_pre; [apply Hk|]. by intros fs [H _]. Qed.

Lemma reads_ret {A} (a : A) C : reads (mret a) C (fun _ b => b = a).
Proof. intros fs io. cbn. auto. Qed.

Lemma reads_bind {A B} (m : M A) (k : A → M B) C R C' R' :
  reads m C R → (∀ a, reads (k a) (C' a) (R' a)) →
  reads (m ≫= k) (fun fs => C fs ∧ ∀ a, R fs a → C' a fs) (fun fs b => ∃ a, R fs a ∧ R' a fs b).
Proof.
  intros Hm Hk fs io. specialize (Hm fs io). unfold mbind, M_bind. destruct (m fs io) as [[fs1 io1] [a|e|]]; destruct Hm as (-> & Hio & H).
  - specialize (Hk a fs io1). destruct (k a fs io1) as [[fs2 io2] [b|e|]]; destruct Hk as (-> & Hio2 & H2); (split; [done|]); (split; [auto|]).
    + eauto.
    + intros [[HC HC'] He]. apply H2. auto.
    + intros ->. by apply H2, Hio.
  - split; [done|]. split; [auto|]. intros [[HC _] He]. by apply H.
  - split; [done|]. split; [auto|]. done.
Qed.

Lemma reads_weaken {A} (m : M A) (C C' : Fs → Prop) (R R' : Fs → A → Prop) :
  reads m C R → (∀ fs, C' fs → C fs) → (∀ fs a, R fs a → R' fs a) → reads m C' R'.
Proof. intros Hm HC HR fs io. specialize (Hm fs io). destruct (m fs io) as [[fs1 io1] [a|e|]]; naive_solver. Qed.

Lemma reads_sys : reads sys (fun _ => True) (fun _ _ => True).
Proof. intros fs [|[| |] io]; cbn; split_and!; try done. by intros [_ ?]. Qed.

Lemma reads_view {A} (f : Fs → A) : reads (view f) (fun _ => True) (fun fs a => a = f fs).
Proof. intros fs io. cbn. auto. Qed.

Lemma reads_ensure b : reads (ensure b) (fun _ => b = true) (fun _ _ => b = true).
Proof. intros fs io. unfold ensure. destruct b; cbn; split_and!; try done. by intros [? _]. Qed.

Lemma reads_some {A} (o : option A) : reads (some o) (fun _ => is_Some o) (fun _ a => o = Some a).
Proof. intros fs io. unfold some. destruct o; cbn; split_and!; try done. by intros [[? ?] _]. Qed.

Lemma reads_fail {A} e : reads (fail (A := A) e) (fun _ => False) (fun _ _ => False).
Proof. intros fs io. cbn. split_and!; try done. by intros [? _]. Qed.

Lemma reads_or_else {A} (m : M A) (h : Error → M A) C R R' :
  reads m C R → (∀ e, reads (h e) (fun _ => True) (R' e)) → reads (or_else m h) (fun _ => True) (fun fs a => R fs a ∨ ∃ e, R' e fs a).
Proof.
  intros Hm Hh fs io. specialize (Hm fs io). unfold or_else. destruct (m fs io) as [[fs1 io1] [a|e|]]; destruct Hm as (-> & Hio & H); [by auto| |by auto].
  specialize (Hh e fs io1). destruct (h e fs io1) as [[fs2 io2] [b|e'|]]; destruct Hh as (-> & Hio2 & H2); (split; [done|]); (split; [auto|]); [eauto| |].
  - intros [_ He]. apply H2. auto.
  - intros ->. by apply H2, Hio.
Qed.

Lemma reads_collect_in {A B} (l : list A) (f : A → M B) (C : A → Fs → Prop) (R : A → Fs → B → Prop) :
  (∀ x, x ∈ l → reads (f x) (C x) (R x)) → reads (collect_each l f) (fun fs => ∀ x, x ∈ l → C x fs) (fun fs ys => Forall2 (fun x y => R x fs y) l ys).
Proof.
  induction l as [|x l IH]; intros Hf; cbn [collect_each].
  - eapply reads_weaken; [apply (reads_ret _ (fun _ => True))|done|]. by intros fs a ->.
  - eapply reads_weaken; [apply reads_bind; [apply Hf; by left|]; intros y; apply reads_bind; [apply IH; intros z Hz; apply Hf; by right|]; intros ys; apply (reads_ret _ (fun _ => True))| |].
    + cbn. intros fs H. split; [apply H; by left|]. intros _ _. split; [|done]. intros z Hz. apply H. by right.
    + cbn. intros fs zs (y & Hy & ys & Hys & ->). by constructor.
Qed.

Lemma reads_collect {A B} (l : list A) (f : A → M B) (C : A → Fs → Prop) (R : A → Fs → B → Prop) :
  (∀ x, reads (f x) (C x) (R x)) → reads (collect_each l f) (fun fs => ∀ x, x ∈ l → C x fs) (fun fs ys => Forall2 (fun x y => R x fs y) l ys).
Proof. intros Hf. apply reads_collect_in. auto. Qed.

Lemma reads_for_each_in {A} (l : list A) (f : A → M unit) (C : A → Fs → Prop) (R : A → Fs → unit → Prop) :
  (∀ x, x ∈ l → reads (f x) (C x) (R x)) → reads (for_each l f) (fun fs => ∀ x, x ∈ l → C x fs) (fun fs _ => ∀ x, x ∈ l → R x fs tt).
Proof.
  induction l as [|x l IH]; intros Hf; cbn [for_each].
  - eapply reads_weaken; [apply (reads_ret tt (fun _ => True))|done|]. intros fs a _ x Hx. by apply elem_of_nil in Hx.
  - eapply reads_weaken; [apply reads_bind; [apply Hf; by left|intros y; apply IH; intros z Hz; apply Hf; by right]| |].
    + cbn. intros fs H. split; [apply H; by left|]. intros _ _ z Hz. apply H. by right.
    + cbn. intros fs [] ([] & Hx & Hl) z [->|Hz]%elem_of_cons; auto.
Qed.

(** A program with a family of specifications has their conjunction. *)
Lemma reads_family {A X} (m : M A) (I : X → Prop) C R (x0 : X) :
  I x0 → (∀ x, I x → reads m (C x) (R x)) → reads m (fun fs => ∃ x, I x ∧ C x fs) (fun fs a => ∀ x, I x → R x fs a).
Proof.
  intros H0 H fs io. pose proof (fun x Hx => H x Hx fs io) as Hx. clear H. destruct (m fs io) as [[fs' io'] o]. destruct (Hx x0 H0) as (-> & Hio & Ho).
  split; [done|]. split; [done|]. destruct o; [intros x HI; apply (Hx x HI)| |done]. intros [(x & HI & HC) He]. by apply (Hx x HI).
Qed.

Lemma reads_if {A} (b : bool) (m m' : M A) C C' R R' :
  reads m C R → reads m' C' R' → reads (if b then m else m') (fun fs => if b then C fs else C' fs) (fun fs a => if b then R fs a else R' fs a).
Proof. by destruct b. Qed.

Lemma reads_option {A X} (o : option X) (f : X → M A) (m : M A) C C' R R' :
  (∀ x, reads (f x) (C x) (R x)) → reads m C' R' →
  reads (match o with Some x => f x | None => m end) (fun fs => match o with Some x => C x fs | None => C' fs end)
        (fun fs a => match o with Some x => R x fs a | None => R' fs a end).
Proof. intros. by destruct o. Qed.

Lemma reads_node {A} (n : Node) (f : FileNode → M A) (f' : Attr → Dir → M A) (m : M A) C C' C'' R R' R'' :
  (∀ x, reads (f x) (C x) (R x)) → (∀ a d, reads (f' a d) (C' a d) (R' a d)) → reads m C'' R'' →
  reads (match n with NFile x => f x | NDir a d => f' a d | NOther => m end)
        (fun fs => match n with NFile x => C x fs | NDir a d => C' a d fs | NOther => C'' fs end)
        (fun fs r => match n with NFile x => R x fs r | NDir a d => R' a d fs r | NOther => R'' fs r end).
Proof. intros. by destruct n. Qed.

(** Cut a reading program into its steps; what is left is to weaken. *)
Ltac reads_step :=
  match goal with
  | |- reads (_ ≫= _) _ _ => eapply reads_bind; [|intros ?]
  | |- reads sys _ _ => apply reads_sys
  | |- reads (view _) _ _ => apply reads_view
  | |- reads (ensure _) _ _ => apply reads_ensure
  | |- reads (some _) _ _ => apply reads_some
  | |- reads (fail _) _ _ => apply reads_fail
  | |- reads (mret _) _ _ => apply (reads_ret _ (fun _ => True))
  | |- reads (if _ then _ else _) _ _ => eapply reads_if
  | |- reads (match _ with Some _ => _ | None => _ end) _ _ => eapply reads_option; [intros ?|]
  | |- reads (match _ with NFile _ => _ | NDir _ _ => _ | NOther => _ end) _ _ => eapply reads_node; [intros ?|intros ? ?|]
  | |- reads _ _ _ => solve [eauto with reads]
  end.

Create HintDb reads.

Ltac reads_by := eapply reads_weaken; [repeat reads_step|cbn beta iota; intros fs|cbn beta iota; intros fs ?].

Lemma reads_stat i : reads (stat i) (fun fs => is_Some (fs_nodes fs !! i)) (fun fs n => fs_nodes fs !! i = Some n).
Proof. unfold stat. reads_by; [|naive_solver]. intros H. split; [done|]. intros _ _. split; [done|]. by intros ? ->. Qed.
#[export] Hint Resolve reads_stat : reads.

Lemma reads_inspect_at d name : reads (inspect_at d name) (fun _ => True) (fun fs o => o = entries fs d !! name).
Proof. unfold inspect_at. reads_by; naive_solver. Qed.
#[export] Hint Resolve reads_inspect_at : reads.

Lemma reads_open_path d name : reads (open_path d name) (fun fs => is_Some (entries fs d !! name)) (fun fs i => entries fs d !! name = Some i).
Proof. unfold open_path. reads_by; [|naive_solver]. intros H. split; [done|]. by intros ? ->. Qed.
#[export] Hint Resolve reads_open_path : reads.

Definition dir_at (fs : Fs) (i : nat) : Prop := ∃ a d, fs_nodes fs !! i = Some (NDir a d).

Lemma is_dir_at fs i : from_option is_dir false (fs_nodes fs !! i) = true ↔ dir_at fs i.
Proof. unfold dir_at. destruct (fs_nodes fs !! i) as [[| |]|]; cbn; naive_solver. Qed.

Lemma reads_open_dir d name :
  reads (open_dir d name) (fun fs => ∀ i, entries fs d !! name = Some i → dir_at fs i) (fun fs o => o = entries fs d !! name ∧ ∀ i, o = Some i → dir_at fs i).
Proof.
  unfold open_dir. reads_by.
  - intros H. split; [done|]. intros o ->. destruct (entries fs d !! name) as [i|] eqn:E; [|done]. split; [done|]. intros n ->. split; [|done]. by apply is_dir_at, H.
  - intros (o & -> & H). destruct (entries fs d !! name) as [i|] eqn:E; [|by subst]. destruct H as (n & -> & b & Hb & ->). split; [done|]. intros ? [= <-]. by apply is_dir_at.
Qed.
#[export] Hint Resolve reads_open_dir : reads.

Lemma reads_open_existing_dir d name :
  reads (open_existing_dir d name) (fun fs => ∃ i, entries fs d !! name = Some i ∧ dir_at fs i) (fun fs i => entries fs d !! name = Some i ∧ dir_at fs i).
Proof.
  unfold open_existing_dir. reads_by.
  - intros (i & Hi & Hd). split; [intros j Hj; by simplify_eq|]. intros o [-> _]. by rewrite Hi.
  - intros (o & [Ho Hd] & ->). split; [done|]. by apply Hd.
Qed.
#[export] Hint Resolve reads_open_existing_dir : reads.

Lemma reads_visit d : reads (visit_directory d) (fun _ => True) (fun fs names => names = map fst (map_to_list (entries fs d))).
Proof. unfold visit_directory. reads_by; naive_solver. Qed.
#[export] Hint Resolve reads_visit : reads.

Definition file_at (fs : Fs) (i : nat) (f : FileNode) : Prop := fs_nodes fs !! i = Some (NFile f).

Lemma reads_read_file i cap :
  reads (read_file i cap) (fun fs => ∃ f, file_at fs i f ∧ (Z.of_nat (length (fl_bytes f)) ≤ cap)%Z)
        (fun fs bytes => ∃ f, file_at fs i f ∧ bytes = fl_bytes f ∧ (Z.of_nat (length bytes) ≤ cap)%Z).
Proof.
  unfold read_file, file_at. reads_by.
  - intros (f & Hf & Hl). rewrite Hf. split; [done|]. intros n [= <-]. split; [|done]. by apply Z.leb_le.
  - intros (n & Hn & H). destruct n as [f| |]; [|done..]. destruct H as (? & Hb & ->). exists f. split; [done|]. split; [done|]. by apply Z.leb_le.
Qed.
#[export] Hint Extern 0 (reads (read_file _ _) _ _) => apply reads_read_file : reads.

(** ** Members *)

Definition live_now (fs : Fs) (path : str) : option nat := fs_live fs !! path ≫= sl_now.

Definition plan_of (fs : Fs) (path : str) (p : TargetPlan) : Prop :=
  tp_path p = path
  ∧ match tp_original p with
    | None => live_now fs path = None
    | Some (i, f) => live_now fs path = Some i ∧ file_at fs i f ∧ fl_nlink f = 1%Z
    end.

Lemma reads_plan path :
  reads (plan_root_file path) (fun fs => ∀ i, live_now fs path = Some i → ∃ f, file_at fs i f ∧ fl_nlink f = 1%Z) (fun fs p => plan_of fs path p).
Proof.
  unfold plan_root_file, plan_of. reads_by.
  - intros H. split; [done|]. intros _ _. split; [done|]. intros o ->. change (fs_live fs !! path ≫= sl_now) with (live_now fs path).
    destruct (live_now fs path) as [i|]; [|done]. destruct (H i eq_refl) as (f & Hf & Hn). split; [by rewrite Hf|].
    intros n Hn'. unfold file_at in Hf. simplify_eq. split; [|done]. by apply Z.eqb_eq.
  - intros ([] & _ & o & -> & H). change (fs_live fs !! path ≫= sl_now) with (live_now fs path) in H.
    destruct (live_now fs path) as [i|]; [|by subst]. destruct H as (n & Hn & H). destruct n as [f| |]; [|done..]. destruct H as (? & Hl & ->). cbn.
    split; [done|]. split; [done|]. split; [done|]. by apply Z.eqb_eq.
Qed.
#[export] Hint Resolve reads_plan : reads.

Lemma reads_check_original t :
  reads (check_original t) (fun fs => live_now fs (pt_path t) = fst <$> pt_original t) (fun fs _ => live_now fs (pt_path t) = fst <$> pt_original t).
Proof.
  unfold check_original. reads_by.
  - intros H. split; [done|]. intros _ _. split; [done|]. intros o ->. by apply bool_decide_eq_true_2.
  - intros ([] & _ & o & -> & H). by apply bool_decide_eq_true_1 in H.
Qed.
#[export] Hint Resolve reads_check_original : reads.

Definition pinned (p : TargetPlan) : PinnedTarget := {| pt_path := tp_path p; pt_original := tp_original p; pt_promoted := None |}.

Lemma reads_materialize p :
  reads (materialize p) (fun fs => live_now fs (tp_path p) = fst <$> tp_original p) (fun fs t => t = pinned p).
Proof. unfold materialize. reads_by; naive_solver. Qed.
#[export] Hint Resolve reads_materialize : reads.
