(* ===== verification/MigrationReads.v ===== *)
(** * What the checks of a migration establish

    Each check of [MigrationTxn] only reads.  For each: when it has to pass, and
    what is known once it has. *)

From S2P Require Import Prelude RustStr Ast Membership DiskTree MigrationJournal MigrationTxn DiskLogic.

(** ** Names of blobs *)

Lemma parse_blob_name k : k < MAX_INCLUDE_FILES → parse_blob_index (original_blob_file_name k) = Some k.
Proof.
  intros Hk. assert (forallb (fun k => bool_decide (parse_blob_index (original_blob_file_name k) = Some k)) (seq 0 MAX_INCLUDE_FILES) = true) as H by (vm_compute; reflexivity).
  rewrite forallb_forall in H. specialize (H k). apply bool_decide_eq_true_1 in H; [done|]. apply in_seq. lia.
Qed.

Lemma blob_name_inj k l : k < MAX_INCLUDE_FILES → l < MAX_INCLUDE_FILES → original_blob_file_name k = original_blob_file_name l → k = l.
Proof. intros Hk Hl He. pose proof (parse_blob_name k Hk) as H. rewrite He, parse_blob_name in H by done. by injection H. Qed.

#[local] Opaque original_blob_file_name.

(** The originals of the first members, under their names. *)
Definition blob_entries (blobs : list nat) : list (str * nat) := imap (fun k i => (original_blob_file_name k, i)) blobs.

Definition blob_map (blobs : list nat) : gmap str nat := list_to_map (blob_entries blobs).

Lemma blob_entries_elem blobs name i : (name, i) ∈ blob_entries blobs ↔ ∃ k, name = original_blob_file_name k ∧ blobs !! k = Some i.
Proof.
  unfold blob_entries. rewrite list_elem_of_lookup. setoid_rewrite list_lookup_imap. split.
  - intros (k & Hk). destruct (blobs !! k) eqn:E; [|done]. cbn in Hk. simplify_eq. eauto.
  - intros (k & -> & Hk). exists k. by rewrite Hk.
Qed.

Lemma blob_entries_nodup blobs : length blobs ≤ MAX_INCLUDE_FILES → NoDup (blob_entries blobs).*1.
Proof.
  intros Hl. apply NoDup_alt. intros a b x Ha Hb. unfold blob_entries in *. rewrite list_lookup_fmap, list_lookup_imap in Ha, Hb.
  destruct (blobs !! a) eqn:Ea; [|done]. destruct (blobs !! b) eqn:Eb; [|done]. cbn in Ha, Hb. apply lookup_lt_Some in Ea, Eb.
  apply blob_name_inj; [lia|lia|congruence].
Qed.

Lemma blob_map_lookup blobs name i : length blobs ≤ MAX_INCLUDE_FILES →
  blob_map blobs !! name = Some i ↔ ∃ k, name = original_blob_file_name k ∧ blobs !! k = Some i.
Proof. intros Hl. rewrite <- blob_entries_elem. symmetry. apply elem_of_list_to_map. by apply blob_entries_nodup. Qed.

Lemma blob_map_at blobs k i : length blobs ≤ MAX_INCLUDE_FILES → blobs !! k = Some i → blob_map blobs !! original_blob_file_name k = Some i.
Proof. intros Hl Hk. apply blob_map_lookup; [done|]. eauto. Qed.

Lemma blob_map_list blobs : length blobs ≤ MAX_INCLUDE_FILES → map_to_list (blob_map blobs) ≡ₚ blob_entries blobs.
Proof. intros Hl. apply map_to_list_to_map. by apply blob_entries_nodup. Qed.

Lemma blob_map_fresh blobs : length blobs < MAX_INCLUDE_FILES → blob_map blobs !! original_blob_file_name (length blobs) = None.
Proof.
  intros Hl. destruct (blob_map blobs !! _) as [i|] eqn:E; [|done]. apply blob_map_lookup in E as (k & He & Hk); [|lia].
  apply lookup_lt_Some in Hk. apply blob_name_inj in He; lia.
Qed.

Lemma blob_map_snoc blobs i : length blobs < MAX_INCLUDE_FILES → blob_map (blobs ++ [i]) = <[original_blob_file_name (length blobs) := i]> (blob_map blobs).
Proof.
  intros Hl. apply map_eq. intros name. apply option_eq. intros j. rewrite lookup_insert_Some, !blob_map_lookup by (rewrite ?length_app; cbn; lia). split.
  - intros (k & -> & Hk). apply lookup_snoc_Some in Hk as [[Hlt Hk]|[-> ->]]; [|by left]. right. split; [|eauto]. intros He.
    apply blob_name_inj in He; lia.
  - intros [[<- <-]|(Hne & k & -> & Hk)]; [exists (length blobs); by rewrite lookup_snoc_Some; auto|]. exists k. split; [done|].
    rewrite lookup_app_l; [done|]. by eapply lookup_lt_Some.
Qed.

Lemma blob_map_delete blobs i : length blobs < MAX_INCLUDE_FILES → delete (original_blob_file_name (length blobs)) (blob_map (blobs ++ [i])) = blob_map blobs.
Proof. intros Hl. rewrite blob_map_snoc by done. apply delete_insert_id. by apply blob_map_fresh. Qed.

Lemma blob_map_empty blobs : length blobs ≤ MAX_INCLUDE_FILES → blob_map blobs = ∅ → blobs = [].
Proof. intros Hl He. destruct blobs as [|i blobs]; [done|]. pose proof (blob_map_at (i :: blobs) 0 i Hl eq_refl) as H. by rewrite He in H. Qed.

Lemma blob_map_inj bs bs' : length bs ≤ MAX_INCLUDE_FILES → length bs' ≤ MAX_INCLUDE_FILES → blob_map bs' = blob_map bs → bs = bs'.
Proof.
  intros Hl Hl' He. apply list_eq. intros k. apply option_eq. intros i. split; intros Hk.
  - pose proof (blob_map_at bs k i Hl Hk) as H. rewrite <- He in H. apply blob_map_lookup in H as (k' & Hn & Hk'); [|done]. apply lookup_lt_Some in Hk as Hlt, Hk' as Hlt'.
    apply blob_name_inj in Hn; [by subst|lia|lia].
  - pose proof (blob_map_at bs' k i Hl' Hk) as H. rewrite He in H. apply blob_map_lookup in H as (k' & Hn & Hk'); [|done]. apply lookup_lt_Some in Hk as Hlt, Hk' as Hlt'.
    apply blob_name_inj in Hn; [by subst|lia|lia].
Qed.

(** A complete fence. *)
Definition fence_map (j o : nat) : gmap str nat := <[JOURNAL_NAME := j]> {[ORIGINALS_DIR_NAME := o]}.

Section Reads.

Context {sha : Sha2Crate} {json : JsonCrate} (g : Guard).

(** The owner of the tree, in a state where the master exists. *)
Lemma reads_owner :
  reads (owner_metadata g) (fun fs => ∃ i f, live_now fs (g_master g) = Some i ∧ file_at fs i f)
        (fun fs a => (∀ i f, live_now fs (g_master g) = Some i → file_at fs i f → a = fl_attr f)).
Proof.
  unfold owner_metadata. reads_by.
  - intros (i & f & Hi & Hf). split; [done|]. intros _ _. split; [done|]. intros o ->. change (fs_live fs !! g_master g ≫= sl_now) with (live_now fs (g_master g)).
    rewrite Hi. split; [by rewrite Hf|]. intros n Hn. unfold file_at in Hf. by simplify_eq.
  - intros ([] & _ & o & -> & H) i f Hi Hf. change (fs_live fs !! g_master g ≫= sl_now) with (live_now fs (g_master g)) in H. rewrite Hi in H.
    destruct H as (n & Hn & H). unfold file_at in Hf. by simplify_eq.
Qed.
#[local] Hint Resolve reads_owner : reads.

Lemma reads_validate_dir d owner mode :
  reads (validate_owned_directory d owner mode) (fun fs => ∃ n, fs_nodes fs !! d = Some n ∧ dir_ok owner mode n = true)
        (fun fs _ => ∃ n, fs_nodes fs !! d = Some n ∧ dir_ok owner mode n = true).
Proof. unfold validate_owned_directory. reads_by; [|naive_solver]. intros (n & Hn & Ho). split; [by rewrite Hn|]. intros n' Hn'. by simplify_eq. Qed.
#[local] Hint Resolve reads_validate_dir : reads.

Definition safe_file (fs : Fs) (owner : Attr) (mode : Z) (i : nat) : Prop := ∃ n, fs_nodes fs !! i = Some n ∧ file_ok owner mode n = true.

Lemma reads_safe_file d name owner mode :
  reads (validate_safe_file d name owner mode) (fun fs => ∃ i, entries fs d !! name = Some i ∧ safe_file fs owner mode i)
        (fun fs i => entries fs d !! name = Some i ∧ safe_file fs owner mode i).
Proof.
  unfold validate_safe_file, safe_file. reads_by.
  - intros (i & Hi & n & Hn & Ho). split; [by rewrite Hi|]. intros j Hj. simplify_eq. split; [by rewrite Hn|]. intros n' Hn'. by simplify_eq.
  - intros (i & Hi & n & Hn & ? & Ho & ->). eauto.
Qed.
#[local] Hint Resolve reads_safe_file : reads.

(** The journal of a directory. *)
Definition journal_at (fs : Fs) (fence : nat) (owner : Attr) (bytes : str) : Prop :=
  ∃ j f, entries fs fence !! JOURNAL_NAME = Some j ∧ file_at fs j f ∧ file_ok owner 384 (NFile f) = true ∧ fl_bytes f = bytes
         ∧ (Z.of_nat (length bytes) ≤ MAX_JOURNAL_BYTES)%Z.

Lemma reads_journal_bytes fence owner :
  reads (read_journal_bytes fence owner) (fun fs => ∃ bytes, journal_at fs fence owner bytes) (fun fs bytes => journal_at fs fence owner bytes).
Proof.
  unfold read_journal_bytes, journal_at, file_at. reads_by.
  - intros (bytes & j & f & Hj & Hf & Ho & <- & Hl). split; [by rewrite Hj|]. intros j' Hj'. simplify_eq. split; [by rewrite Hf|].
    intros n Hn. simplify_eq. split; [|intros _ _; eauto]. rewrite Ho. cbn. by apply Z.leb_le.
  - intros (j & Hj & n & Hn & ? & Hok & f & Hf & -> & Hl). unfold file_at in Hf. simplify_eq. apply andb_true_iff in Hok as [Hok _]. eauto 10.
Qed.
#[local] Hint Resolve reads_journal_bytes : reads.

Lemma reads_valid_journal fence owner :
  reads (read_valid_journal g fence owner) (fun fs => ∃ bytes, journal_at fs fence owner bytes ∧ is_Some (validate_journal bytes (g_master g)))
        (fun fs journal => ∃ bytes, journal_at fs fence owner bytes ∧ validate_journal bytes (g_master g) = Some journal).
Proof.
  unfold read_valid_journal. reads_by; [|naive_solver]. intros (bytes & Hj & Hv). split; [eauto|]. intros bytes' Hj'.
  destruct Hj as (j & f & Hj & Hf & _ & <- & _), Hj' as (j' & f' & Hj' & Hf' & _ & <- & _). unfold file_at in *. by simplify_eq.
Qed.
#[local] Hint Resolve reads_valid_journal : reads.

(** A blob that is an original of a member. *)
Definition blob_ok (fs : Fs) (owner : Attr) (member : JournalMember) (i : nat) (bytes : str) : Prop :=
  ∃ f, file_at fs i f ∧ file_ok owner 384 (NFile f) = true ∧ fl_bytes f = bytes
       ∧ Z.of_nat (length bytes) = fr_len (jm_before member) ∧ sha256_hex bytes = fr_sha256 (jm_before member).

Lemma reads_blob_file held owner member :
  reads (validate_original_blob_file held owner member) (fun fs => ∃ bytes, blob_ok fs owner member held bytes) (fun fs bytes => blob_ok fs owner member held bytes).
Proof.
  unfold validate_original_blob_file, blob_ok, file_at. reads_by.
  - intros (bytes & f & Hf & Ho & <- & Hl & Hh). split; [by rewrite Hf|]. intros n Hn. simplify_eq. split; [rewrite Ho; cbn; by apply Z.eqb_eq|]. intros _ _.
    split; [exists f; split; [done|lia]|]. intros bytes (f' & Hf' & -> & _). unfold file_at in Hf'. simplify_eq. split; [by apply Z.eqb_eq|]. intros _ _.
    split; [by apply bool_decide_eq_true_2|done].
  - intros (n & Hn & ? & Hok & bytes & (f & Hf & -> & _) & ? & Hl & ? & Hh & ->). unfold file_at in Hf. simplify_eq. apply andb_true_iff in Hok as [Hok _].
    apply Z.eqb_eq in Hl. apply bool_decide_eq_true_1 in Hh. eauto 10.
Qed.
#[local] Hint Resolve reads_blob_file : reads.

(** The directory of the originals, below a fence. *)
Definition originals_at (fs : Fs) (fence : nat) (owner : Attr) (o : nat) : Prop :=
  entries fs fence !! ORIGINALS_DIR_NAME = Some o ∧ ∃ a d, fs_nodes fs !! o = Some (NDir a d) ∧ owned_with_mode owner a 448 = true.

Lemma reads_blob_held fence owner index member :
  reads (validate_original_blob_held fence owner index member)
    (fun fs => jm_original_blob member = original_blob_name index ∧ ∃ o i bytes, originals_at fs fence owner o
               ∧ entries fs o !! original_blob_file_name index = Some i ∧ blob_ok fs owner member i bytes)
    (fun fs r => ∃ o, originals_at fs fence owner o ∧ entries fs o !! original_blob_file_name index = Some r.1 ∧ blob_ok fs owner member r.1 r.2).
Proof.
  unfold validate_original_blob_held, originals_at. reads_by.
  - intros (Hb & o & i & bytes & (Ho & a & d & Hd & Hok) & Hi & Hblob). split; [by apply bool_decide_eq_true_2|]. intros _ _.
    split; [exists o; split; [done|by exists a, d]|]. intros o' [Ho' _]. simplify_eq. split; [by rewrite Hd|]. intros n Hn. simplify_eq. split; [done|]. intros _ _.
    split; [by rewrite Hi|]. intros i' Hi'. simplify_eq. eauto.
  - intros (? & _ & o & [Ho Hd] & n & Hn & ? & Hok & i & Hi & bytes & Hb & ->). exists o. cbn. split; [|done]. split; [done|].
    destruct Hd as (a0 & d & Hd). simplify_eq. eauto.
Qed.
#[local] Hint Resolve reads_blob_held : reads.

Lemma reads_blob fence owner index member :
  reads (validate_original_blob fence owner index member)
    (fun fs => jm_original_blob member = original_blob_name index ∧ ∃ o i bytes, originals_at fs fence owner o
               ∧ entries fs o !! original_blob_file_name index = Some i ∧ blob_ok fs owner member i bytes)
    (fun fs bytes => ∃ o i, originals_at fs fence owner o ∧ entries fs o !! original_blob_file_name index = Some i ∧ blob_ok fs owner member i bytes).
Proof. unfold validate_original_blob. reads_by; naive_solver. Qed.
#[local] Hint Resolve reads_blob : reads.
(** ** Inspection *)

Lemma reads_nothing {A} (m : M A) C R : reads m C R → reads m (fun _ => False) (fun _ _ => True).
Proof. intros H. by eapply reads_weaken. Qed.

Lemma reads_then {A B} (m : M A) (k : A → M B) C R (P : B → Prop) :
  reads m C R → (∀ a, reads (k a) (fun _ => False) (fun _ b => P b)) → reads (m ≫= k) (fun _ => False) (fun _ b => P b).
Proof. intros Hm Hk. eapply reads_weaken; [by apply (reads_bind _ _ C R); [|intros a; apply (Hk a)]|done|]. cbn. by intros fs b (a & _ & Hb). Qed.

Lemma reads_try {A} (m : M A) C R :
  reads m C R → reads (or_else (o ← m; mret (inl o)) (fun _ => mret (inr tt))) (fun _ => True) (fun fs (r : A + unit) => ∀ o, r = inl o → R fs o).
Proof.
  intros Hm. eapply reads_weaken; [eapply reads_or_else; [eapply reads_bind; [exact Hm|]; intros o; apply (reads_ret _ (fun _ => True))|intros e; apply (reads_ret _ (fun _ => True))]|done|].
  cbn. intros fs r [(o & Ho & ->)|[e ->]] o' [= <-]. done.
Qed.

Ltac reads_not :=
  repeat first [eapply reads_then; [solve [eauto using reads_try, reads_inspect_at, reads_stat, reads_owner with reads]|intros ?]
               |match goal with |- reads (if ?b then _ else _) _ _ => destruct b | |- reads (match ?x with _ => _ end) _ _ => destruct x end];
  try (eapply reads_weaken; [apply (reads_ret _ (fun _ => True))|done|cbn; intros ? ? ->; repeat case_match; done]).

(** [Absent] is only said when there is no fence. *)
Lemma reads_inspect : reads (inspect g) (fun _ => False) (fun fs s => s = Absent → entries fs ROOT !! TXN_DIR_NAME = None).
Proof.
  unfold inspect. eapply reads_weaken; [eapply (reads_bind _ _ _ _ (fun _ _ => False) (fun r _ s => s = Absent → r = inl None)); [eapply reads_try, reads_open_dir|]|done|].
  - intros [[dir|]|[]].
    + eapply (reads_weaken _ (fun _ => False) _ (fun _ s => s ≠ Absent)); [|done|naive_solver]. reads_not.
    + eapply reads_weaken; [apply (reads_ret _ (fun _ => True))|done|]. done.
    + eapply reads_weaken; [apply (reads_ret _ (fun _ => True))|done|]. cbn. by intros fs s ->.
  - cbn. intros fs s (r & Hr & Hs) Ha. rewrite (Hs Ha) in Hr. destruct (Hr None eq_refl) as [He _]. done.
Qed.

(** The only artifact of a kind in the root. *)
Lemma reads_candidate prefix :
  reads (artifact_candidate prefix)
    (fun fs => ∀ name i, entries fs ROOT !! name = Some i → starts_with prefix name = true →
               artifact_suffix_ok prefix name = true ∧ ∀ name' i', entries fs ROOT !! name' = Some i' → starts_with prefix name' = true → name' = name)
    (fun fs o => match o with
                 | None => ∀ name i, entries fs ROOT !! name = Some i → starts_with prefix name = false
                 | Some name => is_Some (entries fs ROOT !! name) ∧ starts_with prefix name = true
                 end).
Proof.
  unfold artifact_candidate.
  assert (∀ fs name, name ∈ filter (fun name => starts_with prefix name = true) (map fst (map_to_list (entries fs ROOT)))
            ↔ is_Some (entries fs ROOT !! name) ∧ starts_with prefix name = true) as Hin.
  { intros fs name. rewrite list_elem_of_filter, list_elem_of_fmap. setoid_rewrite surjective_pairing at 1. split.
    - intros [Hs ([n i] & -> & Hi)]. apply elem_of_map_to_list in Hi. eauto.
    - intros [[i Hi] Hs]. split; [done|]. exists (name, i). split; [done|]. by apply elem_of_map_to_list. }
  reads_by.
  - intros H. split; [done|]. intros names ->. set (cs := filter _ _). assert (∀ name, name ∈ cs → artifact_suffix_ok prefix name = true ∧ ∀ n', n' ∈ cs → n' = name) as Hcs.
    { intros name Hn. apply Hin in Hn as [[i Hi] Hs]. destruct (H _ _ Hi Hs) as [Hok Huniq]. split; [done|]. intros n' [[i' Hi'] Hs']%Hin. by eapply Huniq. }
    split; [apply forallb_forall; intros x Hx; apply Hcs; by apply list_elem_of_In|]. intros _ _. split; [|done]. apply Nat.leb_le.
    assert (NoDup cs) as Hnd by (apply NoDup_filter, NoDup_fst_map_to_list). clearbody cs.
    destruct cs as [|x [|y rest]]; cbn; [lia|lia|]. exfalso. assert (y = x) as -> by (apply Hcs; [by left|by right; left]).
    apply NoDup_cons in Hnd as [Hnd _]. apply Hnd. by left.
  - intros (names & -> & ? & _ & ? & _ & ->). destruct (last _) as [name|] eqn:El.
    + apply Hin. apply last_Some in El as [l ->]. apply elem_of_app. right. by left.
    + intros name i Hi. apply last_None in El. destruct (starts_with prefix name) eqn:Es; [|done].
      assert (name ∈ filter (fun name => starts_with prefix name = true) (map fst (map_to_list (entries fs ROOT)))) as Hn by (apply Hin; eauto).
      rewrite El in Hn. by apply elem_of_nil in Hn.
Qed.

(** ** Members *)

Definition file_state (f : FileNode) (before after : FileReceipt) : LiveState :=
  if (MAX_TOTAL_BYTES <? Z.of_nat (length (fl_bytes f)))%Z then OtherLive
  else match receipt_matches f (fl_bytes f) before, receipt_matches f (fl_bytes f) after with
       | true, true => BeforeAndAfter
       | true, false => Before
       | false, true => After
       | false, false => OtherLive
       end.

(** The file a member names, when it is an ordinary one. *)
Definition live_file (fs : Fs) (path : str) (i : nat) (f : FileNode) : Prop :=
  live_now fs path = Some i ∧ file_at fs i f ∧ fl_nlink f = 1%Z.

Lemma live_file_unique fs path i f j h : live_file fs path i f → live_file fs path j h → i = j ∧ f = h.
Proof. unfold live_file, file_at. intros (H1 & H2 & _) (H3 & H4 & _). by simplify_eq. Qed.

Lemma reads_classify plan before after :
  reads (classify_receipts plan before after) (fun fs => ∃ i f, tp_original plan = Some (i, f) ∧ file_at fs i f)
        (fun fs s => ∀ i f, tp_original plan = Some (i, f) → file_at fs i f → s = file_state f before after).
Proof.
  unfold classify_receipts. destruct (tp_original plan) as [[i f0]|]; [|eapply reads_weaken; [apply (reads_ret _ (fun _ => True))|done|done]].
  reads_by.
  - intros (j & f & [= <- <-] & Hf). split; [by rewrite Hf|]. intros n Hn. unfold file_at in Hf. simplify_eq. by case_match.
  - intros (n & Hn & H) j f [= <- <-] Hf. unfold file_at in Hf. simplify_eq. unfold file_state. by case_match.
Qed.
#[local] Hint Resolve reads_classify : reads.

Lemma plan_of_live fs path p i f : plan_of fs path p → live_file fs path i f → tp_path p = path ∧ tp_original p = Some (i, f).
Proof.
  intros [Hp H] (Hi & Hf & _). split; [done|]. destruct (tp_original p) as [[j h]|]; [|congruence]. destruct H as (Hj & Hh & _).
  unfold file_at in *. by simplify_eq.
Qed.

Lemma reads_plan_live path : reads (plan_root_file path) (fun fs => ∃ i f, live_file fs path i f) (fun fs p => plan_of fs path p).
Proof.
  eapply reads_weaken; [apply reads_plan| |done]. intros fs (i & f & Hi & Hf & Hn) j Hj. simplify_eq. eauto.
Qed.
#[local] Hint Resolve reads_plan_live : reads.

Lemma reads_classify_path path before after :
  reads (classify_path path before after) (fun fs => ∃ i f, live_file fs path i f)
        (fun fs s => ∀ i f, live_file fs path i f → s = file_state f before after).
Proof.
  unfold classify_path. eapply reads_weaken; [eapply reads_bind; [apply reads_plan_live|intros p; apply reads_classify]| |].
  - cbn. intros fs (i & f & Hl). split; [eauto|]. intros p Hp. destruct (plan_of_live _ _ _ _ _ Hp Hl) as [_ ->]. exists i, f. split; [done|]. apply Hl.
  - cbn. intros fs s (p & Hp & Hs) i f Hl. destruct (plan_of_live _ _ _ _ _ Hp Hl) as [_ Ho]. apply (Hs i f Ho). apply Hl.
Qed.

Lemma reads_current d name held :
  reads (ensure_current_inode d name held) (fun fs => entries fs d !! name = Some held) (fun fs _ => entries fs d !! name = Some held).
Proof.
  unfold ensure_current_inode. reads_by.
  - intros H. split; [by rewrite H|]. intros i Hi. simplify_eq. by apply bool_decide_eq_true_2.
  - intros (i & Hi & H). apply bool_decide_eq_true_1 in H. by subst.
Qed.

(** ** Inventories *)

Definition indexed (p : str * nat) : nat * nat := (default 0 (parse_blob_index p.1), p.2).

(** A name of a directory whose file is safe and whose number is known. *)
Definition blob_listed (fs : Fs) (o : nat) (owner : Attr) (p : str * nat) : Prop :=
  is_Some (parse_blob_index p.1) ∧ entries fs o !! p.1 = Some p.2 ∧ safe_file fs owner 384 p.2.

Lemma reads_place o owner ml blobs :
  reads (place_blobs o owner (map fst ml) blobs)
    (fun fs => (∀ p, p ∈ ml → blob_listed fs o owner p ∧ blobs !! (indexed p).1 = Some None) ∧ NoDup (map (fst ∘ indexed) ml))
    (fun fs r => (∀ p, p ∈ ml → entries fs o !! p.1 = Some p.2) → r = foldl (fun bs x => <[x.1 := Some x.2]> bs) blobs (map indexed ml)).
Proof.
  revert blobs. induction ml as [|p ml IH]; intros blobs; cbn [map place_blobs foldl].
  - eapply reads_weaken; [apply (reads_ret _ (fun _ => True))|done|]. by intros fs r ->.
  - eapply reads_weaken; [repeat (eapply reads_bind; [solve [apply reads_some|apply reads_ensure|apply reads_safe_file]|intros ?]); apply IH| |].
    + cbn beta. intros fs [H Hnd]. destruct (H p ltac:(by left)) as [(Hs & He & Hf) Hb]. split; [done|]. intros k Hk.
      unfold indexed in Hb. rewrite Hk in Hb. cbn in Hb. split; [apply Nat.ltb_lt; by eapply lookup_lt_Some|]. intros _ _. split; [by apply bool_decide_eq_true_2|].
      intros _ _. split; [eauto|]. intros i [Hi _]. simplify_eq. apply NoDup_cons in Hnd as [Hp Hnd]. split; [|done]. intros q Hq.
      destruct (H q ltac:(by right)) as [Hq1 Hq2]. split; [done|]. rewrite list_lookup_insert_ne; [done|]. intros Heq. apply Hp. cbn.
      rewrite Hk. cbn. rewrite Heq. apply (list_elem_of_fmap_2 (fst ∘ indexed)). done.
    + cbn beta. intros fs r (k & Hk & ? & _ & ? & _ & i & [Hi _] & Hr) He. rewrite (He p ltac:(by left)) in Hi. injection Hi as <-.
      rewrite Hr by (intros q Hq; apply He; by right). unfold indexed at 2. rewrite Hk. done.
Qed.

Lemma some_listing (names : list str) : names = map fst (map (fun x => (x, 0)) names).
Proof. rewrite map_map. symmetry. apply map_id. Qed.

Lemma reads_place_names o owner names blobs :
  reads (place_blobs o owner names blobs)
    (fun fs => ∃ ml, names = map fst ml ∧ (∀ p, p ∈ ml → blob_listed fs o owner p ∧ blobs !! (indexed p).1 = Some None) ∧ NoDup (map (fst ∘ indexed) ml))
    (fun fs r => ∀ ml, names = map fst ml → (∀ p, p ∈ ml → entries fs o !! p.1 = Some p.2) → r = foldl (fun bs x => <[x.1 := Some x.2]> bs) blobs (map indexed ml)).
Proof. eapply reads_family; [apply some_listing|]. intros ml ->. apply reads_place. Qed.

Lemma reads_find_setup o owner ml blobs :
  reads (find_setup_blobs o owner (map fst ml) blobs)
    (fun fs => (∀ p, p ∈ ml → blob_listed fs o owner p) ∧ NoDup (map (fst ∘ fst) blobs ++ map (fst ∘ indexed) ml) ∧ length blobs + length ml ≤ MAX_INCLUDE_FILES)
    (fun fs r => (∀ p, p ∈ ml → entries fs o !! p.1 = Some p.2) → r = blobs ++ map (fun p => ((indexed p).1, p.1, p.2)) ml).
Proof.
  revert blobs. induction ml as [|p ml IH]; intros blobs; cbn [map find_setup_blobs].
  - eapply reads_weaken; [apply (reads_ret _ (fun _ => True))|done|]. intros fs r -> _. by rewrite app_nil_r.
  - eapply reads_weaken; [repeat (eapply reads_bind; [solve [apply reads_some|apply reads_ensure|apply reads_safe_file]|intros ?]); apply IH| |].
    + cbn beta. intros fs (H & Hnd & Hl). destruct (H p ltac:(by left)) as (Hs & He & Hf). cbn [length] in Hl.
      split; [apply Nat.ltb_lt; lia|]. intros _ _. split; [done|]. intros k Hk.
      assert ((fst ∘ indexed) p = k) as Hpk by (cbn; by rewrite Hk). cbn [map] in Hnd. rewrite Hpk in Hnd.
      split; [apply bool_decide_eq_true_2; intros Hin; apply NoDup_app in Hnd as (_ & Hd & _); apply (Hd k Hin); by left|]. intros _ _. split; [eauto|].
      intros i _. split; [intros q Hq; apply H; by right|]. rewrite map_app, <- app_assoc, length_app. cbn. split; [done|lia].
    + cbn beta. intros fs r (? & _ & k & Hk & ? & _ & i & [Hi _] & Hr) He. rewrite (He p ltac:(by left)) in Hi. injection Hi as <-.
      rewrite Hr by (intros q Hq; apply He; by right). rewrite <- app_assoc. unfold indexed at 2. by rewrite Hk.
Qed.

Lemma names_elem (m : gmap str nat) name : name ∈ map fst (map_to_list m) ↔ is_Some (m !! name).
Proof.
  rewrite list_elem_of_fmap. split.
  - intros ([n i] & -> & Hi). apply elem_of_map_to_list in Hi. eauto.
  - intros [i Hi]. exists (name, i). split; [done|]. by apply elem_of_map_to_list.
Qed.

Lemma names_length (m : gmap str nat) : length (map fst (map_to_list m)) = size m.
Proof. by rewrite length_map, length_map_to_list. Qed.

Lemma names_all (m : gmap str nat) (P : str → bool) : (∀ name, is_Some (m !! name) → P name = true) → forallb P (map fst (map_to_list m)) = true.
Proof. intros H. apply forallb_forall. intros x Hx. apply H. by apply names_elem, list_elem_of_In. Qed.

Lemma fence_map_some j o name : is_Some (fence_map j o !! name) → name ∈ [JOURNAL_NAME; ORIGINALS_DIR_NAME].
Proof. unfold fence_map. intros [i [[<- _]|[_ [<- _]%lookup_singleton_Some]]%lookup_insert_Some]; set_solver. Qed.

Lemma fence_map_journal j o : fence_map j o !! JOURNAL_NAME = Some j.
Proof. unfold fence_map. apply lookup_insert_eq. Qed.

Lemma fence_map_originals j o : fence_map j o !! ORIGINALS_DIR_NAME = Some o.
Proof. unfold fence_map. rewrite lookup_insert_ne by done. apply lookup_singleton_eq. Qed.

Lemma fence_map_size j o : size (fence_map j o) = 2.
Proof. unfold fence_map. rewrite map_size_insert_None by done. by rewrite map_size_singleton. Qed.

Lemma blob_map_size blobs : length blobs ≤ MAX_INCLUDE_FILES → size (blob_map blobs) = length blobs.
Proof.
  intros Hl. rewrite <- length_map_to_list. rewrite (Permutation_length (blob_map_list blobs Hl)). unfold blob_entries. by rewrite length_imap.
Qed.

(** Everything recovery needs is there. *)
Record complete (fs : Fs) (fence : nat) (owner : Attr) (journal : Journal) (j o : nat) (blobs : list nat) : Prop := {
  cp_fence : entries fs fence = fence_map j o;
  cp_originals : originals_at fs fence owner o;
  cp_blobs : entries fs o = blob_map blobs;
  cp_length : length blobs = length (jn_members journal);
  cp_bound : length blobs ≤ MAX_INCLUDE_FILES;
  cp_journal : safe_file fs owner 384 j;
  cp_each : ∀ k m, jn_members journal !! k = Some m → jm_original_blob m = original_blob_name k ∧ ∃ i bytes, blobs !! k = Some i ∧ blob_ok fs owner m i bytes;
}.

Lemma originals_unique fs fence owner o o' : originals_at fs fence owner o → originals_at fs fence owner o' → o = o'.
Proof. intros [H _] [H' _]. congruence. Qed.

Lemma complete_blob fs fence owner journal j o blobs k m : complete fs fence owner journal j o blobs → jn_members journal !! k = Some m →
  jm_original_blob m = original_blob_name k ∧ ∃ o i bytes, originals_at fs fence owner o ∧ entries fs o !! original_blob_file_name k = Some i ∧ blob_ok fs owner m i bytes.
Proof.
  intros H Hk. destruct (cp_each _ _ _ _ _ _ _ H k m Hk) as [Hb (i & bytes & Hi & Hok)]. split; [done|]. exists o, i, bytes.
  split; [apply (cp_originals _ _ _ _ _ _ _ H)|]. split; [|done]. rewrite (cp_blobs _ _ _ _ _ _ _ H). apply blob_map_at; [apply (cp_bound _ _ _ _ _ _ _ H)|done].
Qed.

Lemma imap_pair_elem {A} (l : list A) p : p ∈ imap pair l → l !! p.1 = Some p.2.
Proof. rewrite list_elem_of_lookup. intros [k Hk]. rewrite list_lookup_imap in Hk. destruct (l !! k) eqn:E; [|done]. cbn in Hk. by simplify_eq. Qed.

Lemma Forall2_imap_pair {A B} (P : nat → A → B → Prop) (l : list A) ys : Forall2 (fun p y => P p.1 p.2 y) (imap pair l) ys →
  length ys = length l ∧ ∀ k x, l !! k = Some x → ∃ y, ys !! k = Some y ∧ P k x y.
Proof.
  intros H. split; [rewrite <- (Forall2_length _ _ _ H); apply length_imap|]. intros k x Hk.
  destruct (Forall2_lookup_l _ _ _ k (k, x) H) as (y & Hy & HP); [by rewrite list_lookup_imap, Hk|]. eauto.
Qed.

Lemma reads_fence_inventory fence owner journal :
  reads (validate_fence_inventory fence owner journal false)
    (fun fs => ∃ j o blobs, complete fs fence owner journal j o blobs)
    (fun fs inventory => ∀ j o blobs, entries fs fence = fence_map j o → entries fs o = blob_map blobs →
       length blobs = length (jn_members journal) → length blobs ≤ MAX_INCLUDE_FILES →
       inventory = {| fi_journal := j; fi_originals := o; fi_blobs := blobs |}).
Proof.
  unfold validate_fence_inventory. eapply reads_weaken.
  { do 6 (eapply reads_bind; [solve [apply reads_visit|apply reads_ensure|apply reads_open_existing_dir|apply reads_validate_dir]|intros ?]).
    do 2 (eapply reads_bind; [solve [apply reads_ensure]|intros ?]). eapply reads_bind; [apply reads_safe_file|intros ?].
    eapply reads_bind; [apply (reads_collect _ _ (fun p fs => jm_original_blob p.2 = original_blob_name p.1 ∧ ∃ o i bytes, originals_at fs fence owner o
               ∧ entries fs o !! original_blob_file_name p.1 = Some i ∧ blob_ok fs owner p.2 i bytes)
             (fun p fs i => ∃ o bytes, originals_at fs fence owner o ∧ entries fs o !! original_blob_file_name p.1 = Some i ∧ blob_ok fs owner p.2 i bytes))|
        intros ?; apply (reads_ret _ (fun _ => True))].
    intros p. reads_by; naive_solver. }
  - cbn beta. intros fs (j & o & blobs & H). pose proof (cp_originals _ _ _ _ _ _ _ H) as (Ho & a & d & Hd & Hok).
    split; [done|]. intros names ->. rewrite (cp_fence _ _ _ _ _ _ _ H), names_length, fence_map_size. split; [done|]. intros _ _.
    split; [apply names_all; intros name Hn%fence_map_some; apply orb_true_iff; left; by apply bool_decide_eq_true_2|]. intros _ _.
    split; [exists o; split; [by rewrite fence_map_originals|by exists a, d]|].
    intros o' [Ho' _]. rewrite <- (cp_fence _ _ _ _ _ _ _ H) in Ho'. simplify_eq. split; [exists (NDir a d); by split|]. intros _ _. split; [done|]. intros bn ->.
    rewrite (cp_blobs _ _ _ _ _ _ _ H), names_length, blob_map_size by apply (cp_bound _ _ _ _ _ _ _ H). rewrite (cp_length _ _ _ _ _ _ _ H).
    split; [apply Nat.leb_le; lia|]. intros _ _. split.
    { apply names_all. intros name [i Hi]. apply blob_map_lookup in Hi as (k & -> & Hk); [|apply (cp_bound _ _ _ _ _ _ _ H)]. apply bool_decide_eq_true_2.
      apply list_elem_of_fmap_2. apply elem_of_seq. apply lookup_lt_Some in Hk. rewrite (cp_length _ _ _ _ _ _ _ H) in Hk. lia. }
    intros _ _. split; [exists j; split; [rewrite fence_map_journal; done|apply (cp_journal _ _ _ _ _ _ _ H)]|]. intros jf _. split; [|done].
    intros p Hp. eapply complete_blob; [exact H|by apply imap_pair_elem].
  - cbn beta. intros fs inv (? & _ & ? & _ & ? & _ & o' & [Ho' _] & ? & _ & ? & _ & ? & _ & ? & _ & j' & [Hj' _] & bl & Hbl & ->) j o blobs Hf Hob Hlen Hmax.
    rewrite Hf in Ho', Hj'. rewrite fence_map_originals in Ho'. rewrite fence_map_journal in Hj'. simplify_eq. f_equal.
    apply (Forall2_imap_pair (fun k m i => ∃ o bytes, originals_at fs fence owner o ∧ entries fs o !! original_blob_file_name k = Some i ∧ blob_ok fs owner m i bytes)) in Hbl as [Hl Hbl].
    apply list_eq. intros k. destruct (blobs !! k) as [i|] eqn:Ek.
    + destruct (lookup_lt_is_Some_2 (jn_members journal) k) as [m Hm]; [apply lookup_lt_Some in Ek; lia|].
      destruct (Hbl k m Hm) as (i' & Hi' & o2 & bytes & [Ho2 _] & Hio & _). rewrite Hf, fence_map_originals in Ho2. simplify_eq.
      rewrite Hob in Hio. rewrite (blob_map_at _ _ _ Hmax Ek) in Hio. by simplify_eq.
    + apply lookup_ge_None in Ek. apply lookup_ge_None. lia.
Qed.

(** ** What is left of a transaction directory *)

(** The directory of the originals with its first blobs, if it is there. *)
Definition Rest : Type := option (nat * list nat).

Definition rest_map (rest : Rest) : gmap str nat := match rest with Some (o, _) => {[ORIGINALS_DIR_NAME := o]} | None => ∅ end.

Definition remains (j : nat) (rest : Rest) : gmap str nat := <[JOURNAL_NAME := j]> (rest_map rest).

Definition setup_map (stage : option nat) (rest : Rest) : gmap str nat :=
  match stage with Some i => <[JOURNAL_STAGE_NAME := i]> (rest_map rest) | None => rest_map rest end.

Definition rest_content (fs : Fs) (n : nat) (rest : Rest) : Prop :=
  match rest with Some (o, blobs) => entries fs o = blob_map blobs ∧ length blobs ≤ n | None => True end.

Definition rest_safe (fs : Fs) (owner : Attr) (rest : Rest) : Prop :=
  match rest with
  | Some (o, blobs) => (∃ a d, fs_nodes fs !! o = Some (NDir a d) ∧ owned_with_mode owner a 448 = true) ∧ Forall (safe_file fs owner 384) blobs
  | None => True
  end.

Definition inventory_of (n j : nat) (rest : Rest) : CleanupInventory :=
  {| ci_journal := j; ci_originals := fst <$> rest;
     ci_blobs := match rest with Some (_, blobs) => map Some blobs ++ replicate (n - length blobs) None | None => replicate n None end |}.

Lemma rest_map_size rest : size (rest_map rest) ≤ 1.
Proof. destruct rest as [[o bs]|]; unfold rest_map; [rewrite map_size_singleton|rewrite map_size_empty]; lia. Qed.

Lemma rest_map_some rest name : is_Some (rest_map rest !! name) → name = ORIGINALS_DIR_NAME ∧ is_Some rest.
Proof. destruct rest as [[o bs]|]; unfold rest_map; [|by rewrite lookup_empty; intros [? ?]]. intros [i [<- _]%lookup_singleton_Some]. eauto. Qed.

Lemma rest_map_originals rest : rest_map rest !! ORIGINALS_DIR_NAME = fst <$> rest.
Proof. destruct rest as [[o bs]|]; unfold rest_map; [apply lookup_singleton_eq|apply lookup_empty]. Qed.

Lemma remains_journal j rest : remains j rest !! JOURNAL_NAME = Some j.
Proof. apply lookup_insert_eq. Qed.

Lemma remains_originals j rest : remains j rest !! ORIGINALS_DIR_NAME = fst <$> rest.
Proof. unfold remains. rewrite lookup_insert_ne by done. apply rest_map_originals. Qed.

Lemma remains_some j rest name : is_Some (remains j rest !! name) → name ∈ [JOURNAL_NAME; ORIGINALS_DIR_NAME].
Proof.
  unfold remains. destruct (decide (JOURNAL_NAME = name)) as [<-|Hne]; [set_solver|]. rewrite lookup_insert_ne by done. intros [-> _]%rest_map_some. set_solver.
Qed.

Lemma remains_size j rest : size (remains j rest) ≤ 2.
Proof. unfold remains. pose proof (rest_map_size rest). rewrite map_size_insert. case_match; cbn; lia. Qed.

Lemma indexed_entries blobs : length blobs ≤ MAX_INCLUDE_FILES → map indexed (blob_entries blobs) = imap pair blobs.
Proof.
  intros Hl. unfold blob_entries. apply list_eq. intros k. rewrite list_lookup_fmap, !list_lookup_imap. destruct (blobs !! k) as [i|] eqn:E; [|done].
  apply lookup_lt_Some in E. cbn. unfold indexed. cbn. by rewrite parse_blob_name by lia.
Qed.

Lemma imap_pair_fst {A} (l : list A) : (imap pair l).*1 = seq 0 (length l).
Proof.
  apply list_eq. intros k. rewrite list_lookup_fmap, list_lookup_imap. destruct (l !! k) as [x|] eqn:E.
  - apply lookup_lt_Some in E. rewrite lookup_seq_lt by done. done.
  - apply lookup_ge_None in E. by rewrite lookup_seq_ge.
Qed.

(** The blobs fill the places their names give. *)
Lemma place_all (l : list (nat * nat)) (bs : list (option nat)) k : NoDup l.*1 →
  foldl (fun bs x => <[x.1 := Some x.2]> bs) bs l !! k
  = match (list_to_map l : gmap nat nat) !! k with Some i => if decide (k < length bs) then Some (Some i) else None | None => bs !! k end.
Proof.
  revert bs. induction l as [|[a i] l IH]; intros bs Hnd; cbn [foldl list_to_map]; [done|]. cbn in Hnd. apply NoDup_cons in Hnd as [Ha Hnd].
  rewrite IH by done. rewrite length_insert. cbn. destruct (decide (a = k)) as [<-|Hne].
  - rewrite lookup_insert_eq. rewrite not_elem_of_list_to_map_1 by done. case_decide; [by apply list_lookup_insert_eq|]. apply lookup_ge_None. rewrite length_insert. lia.
  - rewrite lookup_insert_ne, list_lookup_insert_ne by done. done.
Qed.

Lemma blob_listing blobs : length blobs ≤ MAX_INCLUDE_FILES → ∀ p, p ∈ map_to_list (blob_map blobs) → ∃ k, p.1 = original_blob_file_name k ∧ blobs !! k = Some p.2 ∧ indexed p = (k, p.2).
Proof.
  intros Hl [name i] Hp. rewrite (blob_map_list blobs Hl) in Hp. apply blob_entries_elem in Hp as (k & -> & Hk). exists k. split; [done|]. split; [done|].
  unfold indexed. cbn. apply lookup_lt_Some in Hk. by rewrite parse_blob_name by lia.
Qed.

Lemma indexed_nodup blobs : length blobs ≤ MAX_INCLUDE_FILES → NoDup (map indexed (map_to_list (blob_map blobs))).*1.
Proof. intros Hl. rewrite (blob_map_list blobs Hl), indexed_entries, imap_pair_fst by done. apply NoDup_seq. Qed.

Lemma place_blob_map blobs n : length blobs ≤ n → n ≤ MAX_INCLUDE_FILES →
  foldl (fun bs x => <[x.1 := Some x.2]> bs) (replicate n None) (map indexed (map_to_list (blob_map blobs))) = map Some blobs ++ replicate (n - length blobs) None.
Proof.
  intros Hl Hn. apply list_eq. intros k. rewrite place_all, length_replicate by (apply indexed_nodup; lia).
  rewrite (list_to_map_proper _ (imap pair blobs)); [| |rewrite (blob_map_list blobs), indexed_entries by lia; done].
  2: { apply indexed_nodup. lia. }
  destruct (blobs !! k) as [i|] eqn:Ek.
  - pose proof (lookup_lt_Some _ _ _ Ek) as Hk. erewrite (elem_of_list_to_map_1 _ k i).
    + rewrite decide_True by lia. rewrite lookup_app_l by (rewrite length_map; lia). by rewrite list_lookup_fmap, Ek.
    + rewrite imap_pair_fst. apply NoDup_seq.
    + rewrite list_elem_of_lookup. exists k. by rewrite list_lookup_imap, Ek.
  - pose proof (proj1 (lookup_ge_None _ _) Ek) as Hk. rewrite not_elem_of_list_to_map_1 by (rewrite imap_pair_fst; intros H%elem_of_seq; lia).
    rewrite lookup_app_r by (rewrite length_map; lia). rewrite length_map. apply option_eq. intros x. rewrite !lookup_replicate. split; intros [-> ?]; split; try done; lia.
Qed.

Lemma reads_cleanup_inventory fence owner journal :
  let n := length (jn_members journal) in
  reads (validate_cleanup_inventory fence owner journal)
    (fun fs => n ≤ MAX_INCLUDE_FILES ∧ ∃ j rest, entries fs fence = remains j rest ∧ safe_file fs owner 384 j ∧ rest_content fs n rest ∧ rest_safe fs owner rest)
    (fun fs inventory => n ≤ MAX_INCLUDE_FILES → ∀ j rest, entries fs fence = remains j rest → rest_content fs n rest → inventory = inventory_of n j rest).
Proof.
  cbv zeta. unfold validate_cleanup_inventory. eapply reads_weaken.
  { do 3 (eapply reads_bind; [solve [apply reads_visit|apply reads_ensure]|intros ?]). eapply reads_bind; [apply reads_safe_file|intros ?].
    eapply reads_bind; [apply reads_inspect_at|intros ?]. eapply reads_option; [intros o|apply (reads_ret _ (fun _ => True))].
    eapply reads_bind; [apply reads_validate_dir|intros ?]. eapply reads_bind; [apply reads_visit|intros names].
    eapply reads_bind; [apply reads_ensure|intros ?].
    eapply reads_bind; [apply reads_place_names|intros ?; apply (reads_ret _ (fun _ => True))]. }
  - cbn beta. intros fs (Hn & j & rest & Hf & Hj & Hc & Hs). split; [done|]. intros names ->. rewrite Hf, names_length. split; [apply Nat.leb_le; pose proof (remains_size j rest); lia|].
    intros _ _. split; [apply names_all; intros name Hname; apply bool_decide_eq_true_2; by eapply remains_some|]. intros _ _.
    split; [exists j; split; [apply remains_journal|done]|]. intros j' _. split; [done|]. intros o ->. rewrite remains_originals.
    destruct rest as [[o bs]|]; cbn; [|done]. destruct Hc as [Hb Hl], Hs as [(a & d & Hd & Hok) Hsafe]. split; [exists (NDir a d); by split|]. intros _ _. split; [done|].
    intros names ->. rewrite Hb, names_length, blob_map_size by lia. split; [apply Nat.leb_le; lia|]. intros _ _. split; [|done].
    exists (map_to_list (blob_map bs)). split; [done|]. split; [|rewrite <- (map_map indexed fst); apply indexed_nodup; lia]. intros p Hp. destruct (blob_listing bs ltac:(lia) p Hp) as (k & Hk & Hi & Hix).
    pose proof (lookup_lt_Some _ _ _ Hi) as Hlt. split; [|change (replicate (length (jn_members journal)) (None : option nat) !! (indexed p).1 = Some None); rewrite Hix; apply lookup_replicate; split; [done|cbn; lia]].
    split; [rewrite Hk, parse_blob_name by lia; done|].
    split; [rewrite Hb, Hk; apply blob_map_at; [lia|done]|]. rewrite Forall_forall in Hsafe. apply Hsafe. by eapply list_elem_of_lookup_2.
  - cbn beta. intros fs inv (? & _ & ? & _ & ? & _ & j' & [Hj' _] & o & -> & H) Hn j rest Hf Hc. rewrite Hf, remains_journal in Hj'. injection Hj' as <-.
    rewrite Hf, remains_originals in H. unfold inventory_of. destruct rest as [[o bs]|]; cbn in H |- *; [|done]. destruct Hc as [Hb Hl].
    destruct H as (? & _ & names & -> & ? & _ & bl & Hbl & ->). f_equal. rewrite Hb in Hbl. rewrite (Hbl _ eq_refl); [apply place_blob_map; lia|].
    intros p Hp. destruct p as [name i]. by apply elem_of_map_to_list.
Qed.

Lemma setup_map_size stage rest : size (setup_map stage rest) ≤ 2.
Proof. unfold setup_map. pose proof (rest_map_size rest). destruct stage; [|lia]. rewrite map_size_insert. case_match; cbn; lia. Qed.

Lemma setup_map_some stage rest name : is_Some (setup_map stage rest !! name) → name ∈ [JOURNAL_STAGE_NAME; ORIGINALS_DIR_NAME].
Proof.
  unfold setup_map. destruct stage as [i|]; [|intros [-> _]%rest_map_some; set_solver].
  destruct (decide (JOURNAL_STAGE_NAME = name)) as [<-|Hne]; [set_solver|]. rewrite lookup_insert_ne by done. intros [-> _]%rest_map_some. set_solver.
Qed.

Lemma setup_map_stage stage rest : setup_map stage rest !! JOURNAL_STAGE_NAME = stage.
Proof.
  unfold setup_map. destruct stage as [i|]; [apply lookup_insert_eq|]. destruct rest as [[o bs]|]; unfold rest_map; [by rewrite lookup_singleton_ne|apply lookup_empty].
Qed.

Lemma setup_map_originals stage rest : setup_map stage rest !! ORIGINALS_DIR_NAME = fst <$> rest.
Proof. unfold setup_map. destruct stage; [rewrite lookup_insert_ne by done|]; apply rest_map_originals. Qed.

Lemma setup_map_journal stage rest : setup_map stage rest !! JOURNAL_NAME = None.
Proof.
  unfold setup_map, rest_map. destruct stage, rest as [[o bs]|]; rewrite ?lookup_insert_ne, ?lookup_singleton_ne, ?lookup_empty by done; done.
Qed.

Lemma reads_find_setup_names o owner names blobs :
  reads (find_setup_blobs o owner names blobs)
    (fun fs => ∃ ml, names = map fst ml ∧ (∀ p, p ∈ ml → blob_listed fs o owner p) ∧ NoDup (map (fst ∘ fst) blobs ++ map (fst ∘ indexed) ml) ∧ length blobs + length ml ≤ MAX_INCLUDE_FILES)
    (fun fs r => ∀ ml, names = map fst ml → (∀ p, p ∈ ml → entries fs o !! p.1 = Some p.2) → r = blobs ++ map (fun p => ((indexed p).1, p.1, p.2)) ml).
Proof. eapply reads_family; [apply some_listing|]. intros ml ->. apply reads_find_setup. Qed.

(** The blobs of an unfinished set, the last one first. *)
Definition setup_blobs (blobs : list nat) : list (nat * str * nat) := reverse (imap (fun k i => (k, original_blob_file_name k, i)) blobs).

Definition later (a b : nat * str * nat) : Prop := later_blob a b = true.

Lemma setup_blobs_sorted blobs : StronglySorted later (setup_blobs blobs).
Proof.
  unfold setup_blobs. induction blobs as [|i blobs IH] using rev_ind; [constructor|]. rewrite imap_app. cbn. rewrite reverse_app. cbn. constructor; [done|].
  apply Forall_forall. intros x Hx. rewrite elem_of_reverse, list_elem_of_lookup in Hx. destruct Hx as [k Hk]. rewrite list_lookup_imap in Hk.
  destruct (blobs !! k) eqn:E; [|done]. apply lookup_lt_Some in E. cbn in Hk. simplify_eq. unfold later, later_blob. cbn. apply Nat.leb_le. lia.
Qed.

Lemma sort_setup_blobs blobs l : l ≡ₚ imap (fun k i => (k, original_blob_file_name k, i)) blobs → sort_by later_blob l = setup_blobs blobs.
Proof.
  intros Hp. assert (sort_by later_blob l ≡ₚ setup_blobs blobs) as Hperm.
  { rewrite (sort_by_perm later_blob l), Hp. unfold setup_blobs. by rewrite reverse_Permutation. }
  apply (StronglySorted_unique_strong later); [|apply sort_by_sorted|apply setup_blobs_sorted|done].
  - intros x y Hx Hy H1 H2. rewrite Hperm in Hx. unfold setup_blobs in *. rewrite elem_of_reverse, list_elem_of_lookup in Hx, Hy.
    destruct Hx as [a Ha], Hy as [b Hb]. rewrite list_lookup_imap in Ha, Hb. destruct (blobs !! a) eqn:Ea; [|done]. destruct (blobs !! b) eqn:Eb; [|done]. cbn in Ha, Hb.
    simplify_eq. unfold later, later_blob in *. cbn in *. apply Nat.leb_le in H1, H2. assert (a = b) as -> by lia. congruence.
  - intros x y. unfold later_blob. destruct (Nat.leb_spec y.1.1 x.1.1); [by left|]. right. apply Nat.leb_le. lia.
  - intros x y z. unfold later_blob. rewrite !Nat.leb_le. lia.
Qed.

Definition setup_inventory_of (stage : option nat) (rest : Rest) : SetupInventory :=
  {| si_stage := stage; si_originals := fst <$> rest; si_blobs := match rest with Some (_, blobs) => setup_blobs blobs | None => [] end |}.

Lemma listed_setup blobs : length blobs ≤ MAX_INCLUDE_FILES →
  map (fun p => ((indexed p).1, p.1, p.2)) (map_to_list (blob_map blobs)) ≡ₚ imap (fun k i => (k, original_blob_file_name k, i)) blobs.
Proof.
  intros Hl. rewrite (blob_map_list blobs Hl). unfold blob_entries. enough (map (fun p => ((indexed p).1, p.1, p.2)) (imap (fun k i => (original_blob_file_name k, i)) blobs) = imap (fun k i => (k, original_blob_file_name k, i)) blobs) as -> by done.
  apply list_eq. intros k.
  rewrite list_lookup_fmap, !list_lookup_imap. destruct (blobs !! k) as [i|] eqn:E; [|done]. apply lookup_lt_Some in E. cbn.
  unfold indexed. cbn. by rewrite parse_blob_name by lia.
Qed.

Lemma reads_stage fence owner :
  reads (i ← validate_safe_file fence JOURNAL_STAGE_NAME owner 384; n ← stat i; ensure (file_len n <=? MAX_JOURNAL_BYTES)%Z ;; mret (Some i))
    (fun fs => ∃ i n, entries fs fence !! JOURNAL_STAGE_NAME = Some i ∧ fs_nodes fs !! i = Some n ∧ file_ok owner 384 n = true ∧ (file_len n ≤ MAX_JOURNAL_BYTES)%Z)
    (fun fs s => s = entries fs fence !! JOURNAL_STAGE_NAME).
Proof.
  eapply reads_weaken; [repeat (eapply reads_bind; [solve [apply reads_safe_file|apply reads_stat|apply reads_ensure]|intros ?]); apply (reads_ret _ (fun _ => True))| |].
  - cbn beta. intros fs (i & n & Hi & Hn & Ho & Hl). split; [exists i; split; [done|by exists n]|]. intros i' [Hi' _]. simplify_eq. split; [by rewrite Hn|].
    intros n' Hn'. simplify_eq. split; [by apply Z.leb_le|done].
  - cbn beta. intros fs s (i & [Hi _] & n & _ & ? & _ & ->). done.
Qed.

Lemma reads_setup_inventory fence owner :
  reads (validate_setup_inventory fence owner)
    (fun fs => ∃ stage rest, entries fs fence = setup_map stage rest
       ∧ (∀ i, stage = Some i → ∃ n, fs_nodes fs !! i = Some n ∧ file_ok owner 384 n = true ∧ (file_len n ≤ MAX_JOURNAL_BYTES)%Z)
       ∧ rest_content fs MAX_INCLUDE_FILES rest ∧ rest_safe fs owner rest)
    (fun fs inventory => ∀ stage rest, entries fs fence = setup_map stage rest → rest_content fs MAX_INCLUDE_FILES rest → inventory = setup_inventory_of stage rest).
Proof.
  unfold validate_setup_inventory. eapply reads_weaken.
  { do 3 (eapply reads_bind; [solve [apply reads_visit|apply reads_ensure]|intros ?]).
    eapply reads_bind; [eapply reads_if; [apply reads_stage|apply (reads_ret _ (fun _ => True))]|intros ?].
    eapply reads_if; [|apply (reads_ret _ (fun _ => True))].
    eapply reads_bind; [apply reads_open_existing_dir|intros ?]. eapply reads_bind; [apply reads_validate_dir|intros ?]. eapply reads_bind; [apply reads_visit|intros ?].
    eapply reads_bind; [apply reads_find_setup_names|intros ?]. eapply reads_bind; [apply reads_ensure|intros ?]. apply (reads_ret _ (fun _ => True)). }
  - cbn beta. intros fs (stage & rest & Hf & Hst & Hc & Hs). split; [done|]. intros names ->. rewrite Hf, names_length.
    split; [apply Nat.leb_le; pose proof (setup_map_size stage rest); lia|]. intros _ _.
    split; [apply names_all; intros name Hname; apply bool_decide_eq_true_2; by eapply setup_map_some|]. intros _ _. split.
    { case_bool_decide as Hin; [|done]. apply names_elem in Hin. rewrite setup_map_stage in *. destruct Hin as [i ->]. destruct (Hst i eq_refl) as (n & Hn). eauto. }
    intros s _. case_bool_decide as Hin; [|done]. apply names_elem in Hin. rewrite setup_map_originals in *. destruct rest as [[o bs]|]; [|by destruct Hin].
    destruct Hc as [Hb Hl], Hs as [(a' & d & Hd & Hok) Hsafe]. cbn [fmap option_fmap option_map fst]. split; [exists o; split; [done|by exists a', d]|].
    intros o' [[= <-] _]. split; [exists (NDir a' d); by split|]. intros _ _. split; [done|]. intros names ->. rewrite Hb. split.
    { exists (map_to_list (blob_map bs)). split; [done|]. split; [|split; [cbn [map app]; rewrite <- (map_map indexed fst); by apply indexed_nodup|]].
      - intros p Hp. destruct (blob_listing bs Hl p Hp) as (k & Hk & Hi & _). pose proof (lookup_lt_Some _ _ _ Hi) as Hlt.
        split; [rewrite Hk, parse_blob_name by lia; done|]. split; [rewrite Hb, Hk; by apply blob_map_at|]. rewrite Forall_forall in Hsafe. apply Hsafe. by eapply list_elem_of_lookup_2.
      - rewrite length_map_to_list, blob_map_size by done. cbn. lia. }
    intros bl Hbl. split; [|done]. rewrite (Hbl _ eq_refl) by (intros [n' i'] Hp; by apply elem_of_map_to_list). cbn [app].
    apply forallb_forall. intros k Hk. apply bool_decide_eq_true_2. apply in_seq in Hk. rewrite (Permutation_length (listed_setup bs Hl)), length_imap in Hk.
    destruct (lookup_lt_is_Some_2 bs k ltac:(lia)) as [i Hi]. rewrite map_map. apply list_elem_of_fmap. exists (original_blob_file_name k, i).
    split; [unfold indexed; cbn; by rewrite parse_blob_name by (apply lookup_lt_Some in Hi; lia)|]. rewrite (blob_map_list bs Hl). apply blob_entries_elem. eauto.
  - cbn beta. intros fs inv (? & -> & ? & _ & ? & _ & s & Hs & H) stage rest Hf Hc. rewrite Hf in Hs, H. unfold setup_inventory_of.
    assert (s = stage) as ->.
    { destruct (decide (JOURNAL_STAGE_NAME ∈ map fst (map_to_list (setup_map stage rest)))) as [Hin|Hin];
        [rewrite bool_decide_eq_true_2 in Hs by done; by rewrite setup_map_stage in Hs|rewrite bool_decide_eq_false_2 in Hs by done].
      rewrite names_elem, setup_map_stage in Hin. subst s. destruct stage; [|done]. by destruct Hin. }
    clear Hs. destruct (decide (ORIGINALS_DIR_NAME ∈ map fst (map_to_list (setup_map stage rest)))) as [Hin|Hin];
      [rewrite bool_decide_eq_true_2 in H by done|rewrite bool_decide_eq_false_2 in H by done]; rewrite names_elem, setup_map_originals in Hin; destruct rest as [[o bs]|]; cbn [fmap option_fmap option_map fst] in *;
      [|by destruct Hin|by destruct Hin|done].
    destruct H as (o' & [Ho' _] & ? & _ & names & -> & bl & Hbl & ? & _ & ->). rewrite setup_map_originals in Ho'. injection Ho' as <-. destruct Hc as [Hb Hl].
    f_equal. rewrite Hb in Hbl. rewrite (Hbl _ eq_refl) by (intros [n' i'] Hp; by apply elem_of_map_to_list). cbn [app]. apply sort_setup_blobs. by apply listed_setup.
Qed.

End Reads.
