(* ===== verification/MigrationPlan.v ===== *)
(** * What a planned migration fixes

    The members, the journal that describes them and the names that its hash
    gives.  The facts about them that the rest of the argument needs. *)

From S2P Require Import Prelude RustStr Ast LocalRecords Membership MembershipProofs DiskTree MigrationJournal MigrationTxn DiskLogic MigrationReads.

Section Plan.

Context {sha : Sha2Crate} {json : JsonCrate}.

(** The entry of a member in the journal. *)
Definition entry_of (index : nat) (m : MigrationMember) : JournalMember :=
  {| jm_path := mm_path m; jm_role := mm_role m; jm_original_blob := original_blob_name index; jm_before := before_receipt m; jm_after := after_receipt m |}.

Definition journal_members (ms : list MigrationMember) : option (list JournalMember) :=
  mapM (fun m => journal_member_new (mm_path m) (mm_role m) (before_receipt m) (after_receipt m)) ms.

(** [ow]: the owner of the tree.  SHA-256 has digests of 32 bytes and tells the
    two images of a member apart; a migration changes some member. *)
Record planned (g : Guard) (ms : list MigrationMember) (ow : Attr) (J : Journal) (jbytes : str) : Prop := {
  pl_order : validate_migration_members (g_master g) ms = true;
  pl_entries : ∃ entries, journal_members ms = Some entries ∧ journal_new (g_master g) entries = Some J;
  pl_bytes : to_json_bytes J = Some jbytes;
  pl_owner : ∃ m, last ms = Some m ∧ ow = fl_attr (mm_metadata m);
  pl_digest : ∀ s, length (sha256 s) = 32;
  pl_apart : ∀ m, m ∈ ms → sha256 (mm_before m) = sha256 (mm_after m) → mm_before m = mm_after m;
  pl_changes : ∃ m, m ∈ ms ∧ mm_before m ≠ mm_after m;
}.

Lemma entries_of (ms : list MigrationMember) (l : list JournalMember) : journal_members ms = Some l →
  (∀ k, imap with_blob l !! k = entry_of k <$> ms !! k) ∧ ∀ m, m ∈ ms → validate_receipt (before_receipt m) = true ∧ validate_receipt (after_receipt m) = true.
Proof.
  unfold journal_members. intros H%mapM_Some_1. assert (∀ k, imap with_blob l !! k = entry_of k <$> ms !! k) as Hk.
  { intros k. rewrite list_lookup_imap. destruct (ms !! k) as [m|] eqn:Em.
    - destruct (Forall2_lookup_l _ _ _ _ _ H Em) as (x & Hx & Hm). rewrite Hx. unfold journal_member_new in Hm. case_match; [|done]. by simplify_eq.
    - apply lookup_ge_None in Em. rewrite (Forall2_length _ _ _ H) in Em. apply lookup_ge_None in Em. by rewrite Em. }
  split; [done|]. intros m [k Hm]%list_elem_of_lookup. destruct (Forall2_lookup_l _ _ _ _ _ H Hm) as (x & _ & Hx). unfold journal_member_new in Hx.
  destruct (_ && _) eqn:E; [|done]. rewrite !andb_true_iff in E. naive_solver.
Qed.

Lemma members_in_order_nodup (prev : option str) (paths : gset str) (master : str) (ms : list MigrationMember) : members_in_order prev paths master ms = true →
  NoDup (mm_path <$> ms) ∧ (∀ m, m ∈ ms → mm_path m ∉ paths) ∧ ∀ m, last ms = Some m → mm_path m = master.
Proof.
  revert prev paths. induction ms as [|m ms IH]; intros prev paths H; cbn in H |- *; [by split_and!; [constructor|intros ? ?%elem_of_nil|]|].
  rewrite !andb_true_iff in H. destruct H as [[[_ Hp] Hr] Hms]. apply bool_decide_eq_true_1 in Hp. destruct (IH _ _ Hms) as (Hnd & Hout & Hlast). split_and!.
  - constructor; [|done]. intros (m' & He & Hm')%list_elem_of_fmap. specialize (Hout m' Hm'). set_solver.
  - intros m' [->|Hm']%elem_of_cons; [done|]. specialize (Hout m' Hm'). set_solver.
  - destruct ms as [|m' ms]; [|exact Hlast]. intros ? [= <-]. rewrite andb_true_iff in Hr. by destruct Hr as [_ Hr%bool_decide_eq_true_1].
Qed.

Context {g : Guard} {ms : list MigrationMember} {ow : Attr} {J : Journal} {jbytes : str} (plan : planned g ms ow J jbytes).

Lemma plan_members k : jn_members J !! k = entry_of k <$> ms !! k.
Proof.
  destruct (pl_entries _ _ _ _ _ plan) as (l & Hl & HJ). unfold journal_new in HJ. case_match; [|done]. injection HJ as <-. cbn. by apply entries_of.
Qed.

Lemma plan_length : length (jn_members J) = length ms.
Proof.
  apply Nat.le_antisymm; apply Nat.le_ngt; intros H.
  - destruct (lookup_lt_is_Some_2 (jn_members J) (length ms) H) as [x Hx]. rewrite plan_members in Hx. rewrite (lookup_ge_None_2 ms) in Hx by lia. done.
  - destruct (lookup_lt_is_Some_2 ms (length (jn_members J)) H) as [m Hm]. pose proof (plan_members (length (jn_members J))) as He. rewrite Hm in He. rewrite (lookup_ge_None_2 (jn_members J)) in He by lia. done.
Qed.

Lemma plan_bound : length ms ≤ MAX_INCLUDE_FILES.
Proof. pose proof (pl_order _ _ _ _ _ plan) as H. unfold validate_migration_members in H. rewrite !andb_true_iff in H. destruct H as [[_ H] _]. apply Nat.leb_le in H. exact H. Qed.

Lemma plan_nodup : NoDup (mm_path <$> ms).
Proof. pose proof (pl_order _ _ _ _ _ plan) as H. unfold validate_migration_members in H. rewrite !andb_true_iff in H. destruct H as [_ H]. by apply members_in_order_nodup in H as (? & _). Qed.

Lemma plan_path_inj m m' : m ∈ ms → m' ∈ ms → mm_path m = mm_path m' → m = m'.
Proof.
  intros [k Hk]%list_elem_of_lookup [k' Hk']%list_elem_of_lookup He. assert (k = k') as ->; [|congruence].
  eapply NoDup_lookup; [apply plan_nodup| |]; rewrite list_lookup_fmap; [by rewrite Hk|by rewrite Hk', He].
Qed.

(** The master is a member, and its owner is that of the tree. *)
Lemma plan_master : ∃ m, m ∈ ms ∧ mm_path m = g_master g ∧ ow = fl_attr (mm_metadata m).
Proof.
  destruct (pl_owner _ _ _ _ _ plan) as (m & Hm & Ho). exists m. pose proof (pl_order _ _ _ _ _ plan) as H. unfold validate_migration_members in H.
  rewrite !andb_true_iff in H. destruct H as [_ H]. apply members_in_order_nodup in H as (_ & _ & Hl). apply Hl in Hm as Hp. apply last_Some in Hm as [l ->].
  split; [|done]. set_solver.
Qed.

Lemma plan_journal : validate_journal jbytes (g_master g) = Some J.
Proof.
  destruct (pl_entries _ _ _ _ _ plan) as (l & _ & HJ). pose proof (pl_bytes _ _ _ _ _ plan) as Hb. unfold to_json_bytes in Hb. cbv zeta in Hb.
  destruct (_ <=? _)%Z eqn:El; [|done]. injection Hb as <-. unfold validate_journal. rewrite El, journal_round_trip.
  assert (validate_journal_fields J (g_master g) = true) as Hv; [|cbn [mbind option_bind]; by rewrite Hv].
  unfold journal_new in HJ. cbv zeta in HJ. destruct (validate_journal_fields _ _) eqn:Ev in HJ; [|done]. injection HJ as <-. exact Ev.
Qed.

Lemma plan_journal_len : (Z.of_nat (length jbytes) ≤ MAX_JOURNAL_BYTES)%Z.
Proof. pose proof (pl_bytes _ _ _ _ _ plan) as Hb. unfold to_json_bytes in Hb. cbv zeta in Hb. destruct (_ <=? _)%Z eqn:El; [|done]. injection Hb as <-. by apply Z.leb_le. Qed.

Lemma plan_len m : m ∈ ms → (Z.of_nat (length (mm_before m)) ≤ MAX_TOTAL_BYTES)%Z ∧ (Z.of_nat (length (mm_after m)) ≤ MAX_TOTAL_BYTES)%Z.
Proof.
  intros Hm. destruct (pl_entries _ _ _ _ _ plan) as (l & Hl & _). destruct (proj2 (entries_of ms l Hl) m Hm) as [Hb Ha].
  unfold validate_receipt in Hb, Ha. rewrite !andb_true_iff in Hb, Ha. destruct Hb as [[Hb _] _], Ha as [[Ha _] _]. cbn in Hb, Ha. lia.
Qed.

Lemma hex_encode_inj a b : hex_encode a = hex_encode b → a = b.
Proof.
  revert b. induction a as [|c a IH]; intros [|d b]; intros H; try done.
  change (hex_encode (c :: a)) with (hex_digit (byte c / 16) :: hex_digit (byte c mod 16) :: hex_encode a) in H.
  change (hex_encode (d :: b)) with (hex_digit (byte d / 16) :: hex_digit (byte d mod 16) :: hex_encode b) in H. injection H as H1 H2 H3.
  pose proof (byte_range c). pose proof (byte_range d). f_equal; [|by apply IH].
  apply hex_digit_inj in H1; [|split; [apply Z.div_pos; lia|apply Z.div_lt_upper_bound; lia]..]. apply hex_digit_inj in H2; [|apply Z.mod_pos_bound; lia..].
  apply byte_inj. rewrite (Z.div_mod (byte c) 16), (Z.div_mod (byte d) 16) by lia. congruence.
Qed.

Lemma plan_apart m a b : m ∈ ms → (a = mm_before m ∨ a = mm_after m) → (b = mm_before m ∨ b = mm_after m) → sha256_hex a = sha256_hex b → a = b.
Proof.
  intros Hm Ha Hb He%hex_encode_inj. pose proof (pl_apart _ _ _ _ _ plan m Hm) as Hap. destruct Ha as [-> | ->], Hb as [-> | ->]; try done; [by apply Hap|]. symmetry. by apply Hap.
Qed.

(** ** Names *)

Definition cl_of (bytes : str) : str := cleanup_name (sha256_hex bytes).
Definition fin_of (bytes : str) : str := finalized_name (sha256_hex bytes).

Lemma artifact_ok prefix (b : str) : artifact_suffix_ok prefix (prefix ++ take 32 (sha256_hex b)) = true.
Proof.
  unfold artifact_suffix_ok. rewrite drop_app_length. destruct (hex_encode_spec (sha256 b)) as [Hl Hf]. rewrite (pl_digest _ _ _ _ _ plan) in Hl.
  apply andb_true_iff. split; [apply Nat.eqb_eq; rewrite length_take; unfold sha256_hex; lia|]. apply forallb_forall. intros x Hx%list_elem_of_In.
  rewrite Forall_forall in Hf. apply Hf. unfold sha256_hex in Hx. eapply (proj1 (elem_of_subseteq _ _)); [|exact Hx]. apply subseteq_take.
Qed.

End Plan.

Lemma cl_cleanup {sha : Sha2Crate} b : starts_with CLEANUP_DIR_PREFIX (cl_of b) = true ∧ starts_with FINALIZED_DIR_PREFIX (cl_of b) = false.
Proof. split; [apply starts_with_spec; by eexists|done]. Qed.

Lemma fin_finalized {sha : Sha2Crate} b : starts_with CLEANUP_DIR_PREFIX (fin_of b) = false ∧ starts_with FINALIZED_DIR_PREFIX (fin_of b) = true.
Proof. split; [done|apply starts_with_spec; by eexists]. Qed.

Lemma txn_plain : starts_with CLEANUP_DIR_PREFIX TXN_DIR_NAME = false ∧ starts_with FINALIZED_DIR_PREFIX TXN_DIR_NAME = false.
Proof. done. Qed.

Lemma names_apart {sha : Sha2Crate} b : TXN_DIR_NAME ≠ cl_of b ∧ TXN_DIR_NAME ≠ fin_of b ∧ cl_of b ≠ fin_of b.
Proof. done. Qed.
