(* ===== verification/MigrationState.v ===== *)
(** * The states a migration passes through

    What holds of the disk at every moment of a migration, of its recovery, its
    rollback and its end, whatever fails and whenever the process dies.  It is
    said of every content a directory may have after a power cut, so a power cut
    keeps it. *)

From S2P Require Import Prelude RustStr Ast Membership DiskTree MigrationJournal MigrationTxn DiskLogic MigrationReads MigrationPlan.

(** ** What a directory may hold *)

Definition dviews (d : Dir) (V : gmap str nat) : Prop := ∃ n, V = apply_all (dir_disk d) (take n (dir_pending d)).

Lemma dviews_now d : dviews d (dir_view d).
Proof. exists (length (dir_pending d)). by rewrite firstn_all. Qed.

Lemma dviews_synced m V : dviews {| dir_disk := m; dir_pending := [] |} V ↔ V = m.
Proof. unfold dviews. cbn. split; [intros [n ->]; by rewrite take_nil|intros ->; by exists 0]. Qed.

Lemma dviews_push d u V : dviews {| dir_disk := dir_disk d; dir_pending := dir_pending d ++ [u] |} V → dviews d V ∨ V = apply_update (dir_view d) u.
Proof.
  intros [n ->]. cbn. destruct (decide (n ≤ length (dir_pending d))) as [Hn|Hn].
  - left. exists n. by rewrite take_app_le.
  - right. rewrite take_ge by (rewrite length_app; cbn; lia). unfold dir_view, apply_all. by rewrite foldl_app.
Qed.

Lemma dviews_cut d d' V : cut_dir d d' → dviews d' V → dviews d V.
Proof. intros [n ->] ->%dviews_synced. by exists n. Qed.

(** A directory that lost nothing, or kept some first part of its changes. *)
Definition dir_le (d d' : Dir) : Prop := d' = d ∨ cut_dir d d'.

Lemma dir_le_views d d' V : dir_le d d' → dviews d' V → dviews d V.
Proof. intros [-> |H]; [done|]. by apply dviews_cut. Qed.

Lemma dir_le_synced d : dir_le d {| dir_disk := dir_view d; dir_pending := [] |}.
Proof. right. exists (length (dir_pending d)). by rewrite firstn_all. Qed.

(** The migration under way. *)
Class Migration := { tx_guard : Guard; tx_members : list MigrationMember; tx_owner : Attr; tx_journal : Journal; tx_bytes : str }.

(** The nodes that are known to belong to the owner of the tree. *)
Class Owners := trusted : nat → Prop.

Section State.

Context {sha : Sha2Crate} {json : JsonCrate} {tx : Migration} {tr : Owners}.

#[local] Abbreviation g := tx_guard.
#[local] Abbreviation ms := tx_members.
#[local] Abbreviation ow := tx_owner.
#[local] Abbreviation jbytes := tx_bytes.
#[local] Abbreviation cl := (cl_of tx_bytes).
#[local] Abbreviation fin := (fin_of tx_bytes).

Definition calm : Prop := ∀ i, trusted i.

(** ** Nodes that keep what matters *)

(** A file that was synced is the same; one that was not keeps its owner, where
    that matters, and if [short] does not outgrow a journal.  A directory has no
    more possible contents. *)
Definition node_le (short : bool) (i : nat) (n n' : Node) : Prop :=
  match n, n' with
  | NFile f, NFile f' =>
    (trusted i → fl_attr f' = fl_attr f) ∧ fl_nlink f' = fl_nlink f ∧ (fl_synced f = true → f' = f)
    ∧ (short = true → length (fl_bytes f') ≤ length (fl_bytes f) ∨ (Z.of_nat (length (fl_bytes f')) ≤ MAX_JOURNAL_BYTES)%Z)
  | NDir a d, NDir a' d' => (trusted i → a' = a) ∧ dir_le d d'
  | NOther, NOther => True
  | _, _ => False
  end.

(** [x]: a directory that may change in any way. *)
Definition keeps (short : bool) (x : option nat) (fs fs' : Fs) : Prop :=
  (∀ d, x = Some d → dir_at fs d) ∧
  ∀ i n, x ≠ Some i → fs_nodes fs !! i = Some n → ∃ n', fs_nodes fs' !! i = Some n' ∧ node_le short i n n'.

Lemma node_le_refl short i n : node_le short i n n.
Proof. destruct n; cbn; split_and?; auto. by left. Qed.

Lemma node_le_cut short i n n' : cut_node n n' → node_le short i n n'.
Proof.
  intros [f f' Hf|a d d' Hd|]; cbn; [|split; [done|by right]|done].
  destruct Hf as [->|(Hs & Hl & Ha & Hn)]; [split_and!; auto|]. rewrite Hs. split_and!; auto; done.
Qed.

Lemma keeps_cut fs fs' : power_cut fs fs' → keeps true None fs fs'.
Proof.
  intros (_ & Hn & _). split; [done|]. intros i n _ Hi. specialize (Hn i). rewrite Hi in Hn. inversion Hn; subst.
  eexists. split; [done|]. by apply node_le_cut.
Qed.

Lemma keeps_set_node short fs i n n' : fs_nodes fs !! i = Some n → node_le short i n n' → keeps short None fs (set_node i n' fs).
Proof.
  intros Hi Hle. split; [done|]. intros j m _ Hj. cbn. destruct (decide (j = i)) as [->|Hne].
  - rewrite lookup_insert_eq. simplify_eq. eauto.
  - rewrite lookup_insert_ne by done. eauto using node_le_refl.
Qed.

Lemma keeps_set_dir short fs d n' : dir_at fs d → keeps short (Some d) fs (set_node d n' fs).
Proof.
  intros Hd. split; [by intros ? [= <-]|]. intros j m Hne Hj. cbn. rewrite lookup_insert_ne by congruence. eauto using node_le_refl.
Qed.

Lemma keeps_same short fs fs' : fs_nodes fs' = fs_nodes fs → keeps short None fs fs'.
Proof. intros He. split; [done|]. intros i n _ Hi. rewrite He. eauto using node_le_refl. Qed.

Lemma keeps_weaken short x fs fs' : keeps true x fs fs' → keeps short x fs fs'.
Proof.
  intros [Hd H]. split; [done|]. intros i n Hx Hi. destruct (H i n Hx Hi) as (n' & Hn' & Hle). exists n'. split; [done|].
  destruct n, n'; cbn in *; try done. naive_solver.
Qed.

Lemma dir_le_trans d1 d2 d3 : dir_le d1 d2 → dir_le d2 d3 → dir_le d1 d3.
Proof. intros H [-> |[n ->]]; [done|]. destruct H as [-> |[n' ->]]; [right; by exists n|]. right. exists n'. cbn. by rewrite take_nil. Qed.

Lemma node_le_trans short i n1 n2 n3 : node_le short i n1 n2 → node_le short i n2 n3 → node_le short i n1 n3.
Proof.
  destruct n1 as [f1|a1 d1|], n2 as [f2|a2 d2|], n3 as [f3|a3 d3|]; cbn; try done.
  - intros (Ha & Hn & Hs & Hl) (Ha' & Hn' & Hs' & Hl'). split; [intros Hc; by rewrite Ha', Ha|]. split; [congruence|]. split.
    + intros H. specialize (Hs H). subst f2. by apply Hs'.
    + intros H. specialize (Hl H). specialize (Hl' H). lia.
  - intros [Ha Hd] [Ha' Hd']. split; [intros Hc; by rewrite Ha', Ha|]. by eapply dir_le_trans.
Qed.

Lemma keeps_trans short x fs1 fs2 fs3 : keeps short None fs1 fs2 → keeps short x fs2 fs3 → (∀ d, x = Some d → dir_at fs1 d) → keeps short x fs1 fs3.
Proof.
  intros [_ H] [_ H'] Hd. split; [done|]. intros i n Hx Hi. destruct (H i n ltac:(done) Hi) as (n2 & Hi2 & Hle). destruct (H' i n2 Hx Hi2) as (n3 & Hi3 & Hle').
  exists n3. split; [done|]. by eapply node_le_trans.
Qed.

Lemma keeps_any short d fs fs' : dir_at fs d → keeps short None fs fs' → keeps short (Some d) fs fs'.
Proof. intros Hd [_ H]. split; [by intros ? [= <-]|]. intros i n _ Hi. by apply H. Qed.

(** ** Files *)

Definition good_file (fs : Fs) (i : nat) : Prop := ∃ f, file_at fs i f ∧ (trusted i → file_ok ow 384 (NFile f) = true).

Definition stage_file (fs : Fs) (i : nat) : Prop :=
  ∃ f, file_at fs i f ∧ (trusted i → file_ok ow 384 (NFile f) = true) ∧ (Z.of_nat (length (fl_bytes f)) ≤ MAX_JOURNAL_BYTES)%Z.

(** A file of the transaction that holds these bytes for good. *)
Definition holding (fs : Fs) (bytes : str) (i : nat) : Prop :=
  ∃ f, file_at fs i f ∧ fl_synced f = true ∧ fl_bytes f = bytes ∧ (trusted i → file_ok ow 384 (NFile f) = true).

Definition same_attr (a b : Attr) : Prop := at_uid a = at_uid b ∧ at_gid a = at_gid b ∧ Z.land (at_mode a) 4095 = Z.land (at_mode b) 4095.

(** A file of the configuration with these bytes, the owner and the mode of the member. *)
Definition image (fs : Fs) (m : MigrationMember) (bytes : str) (i : nat) : Prop :=
  ∃ f, file_at fs i f ∧ fl_synced f = true ∧ fl_bytes f = bytes ∧ fl_nlink f = 1%Z ∧ same_attr (fl_attr f) (fl_attr (mm_metadata m)).

Section Keeps.

Context {short : bool} {x : option nat} {fs fs' : Fs} (K : keeps short x fs fs').

Lemma keeps_file i f : file_at fs i f → ∃ f', file_at fs' i f' ∧ (trusted i → fl_attr f' = fl_attr f) ∧ fl_nlink f' = fl_nlink f ∧ (fl_synced f = true → f' = f)
  ∧ (short = true → length (fl_bytes f') ≤ length (fl_bytes f) ∨ (Z.of_nat (length (fl_bytes f')) ≤ MAX_JOURNAL_BYTES)%Z).
Proof.
  intros Hf. destruct K as [Hd H]. destruct (H i (NFile f)) as (n' & Hn' & Hle); [|done|].
  - intros ->. destruct (Hd i eq_refl) as (a & d & Hi). unfold file_at in Hf. congruence.
  - destruct n' as [f'| |]; [|done..]. exists f'. split; [done|]. done.
Qed.

Lemma keeps_synced i f : file_at fs i f → fl_synced f = true → file_at fs' i f.
Proof. intros Hf Hs. destruct (keeps_file i f Hf) as (f' & Hf' & _ & _ & He & _). by rewrite <- (He Hs). Qed.

Lemma keeps_good i : good_file fs i → good_file fs' i.
Proof.
  intros (f & Hf & Ho). destruct (keeps_file i f Hf) as (f' & Hf' & Ha & Hn & _). exists f'. split; [done|]. intros Hc. specialize (Ho Hc).
  cbn in *. by rewrite (Ha Hc), Hn.
Qed.

Lemma keeps_stage i : short = true → stage_file fs i → stage_file fs' i.
Proof.
  intros Hs (f & Hf & Ho & Hl). destruct (keeps_file i f Hf) as (f' & Hf' & Ha & Hn & _ & Hl'). exists f'. split; [done|]. split; [|specialize (Hl' Hs); lia].
  intros Hc. specialize (Ho Hc). cbn in *. by rewrite (Ha Hc), Hn.
Qed.

Lemma keeps_holding bytes i : holding fs bytes i → holding fs' bytes i.
Proof. intros (f & Hf & Hs & Hb & Ho). exists f. split; [by apply keeps_synced|done]. Qed.

Lemma keeps_image m bytes i : image fs m bytes i → image fs' m bytes i.
Proof. intros (f & Hf & Hs & H). exists f. split; [by apply keeps_synced|done]. Qed.

Lemma keeps_dir i a d : x ≠ Some i → fs_nodes fs !! i = Some (NDir a d) →
  ∃ a' d', fs_nodes fs' !! i = Some (NDir a' d') ∧ (trusted i → a' = a) ∧ dir_le d d'.
Proof.
  intros Hx Hi. destruct K as [_ H]. destruct (H i _ Hx Hi) as ([|a' d'|] & Hn' & Hle); [done| |done]. destruct Hle as [Ha Hv]. eauto.
Qed.

End Keeps.

(** ** Directories of a transaction *)

Definition dir_all (fs : Fs) (i : nat) (P : gmap str nat → Prop) : Prop :=
  ∃ a d, fs_nodes fs !! i = Some (NDir a d) ∧ (trusted i → owned_with_mode ow a 448 = true) ∧ ∀ V, dviews d V → P V.

(** A directory made after [i], and in it. *)
Definition below (fs : Fs) (i o : nat) (P : gmap str nat → Prop) : Prop := i < o ∧ dir_all fs o P.

Definition blobs_full (fs : Fs) (W : gmap str nat) : Prop :=
  ∃ blobs, W = blob_map blobs ∧ Forall2 (fun m i => holding fs (mm_before m) i) ms blobs.

Definition blobs_part (fs : Fs) (W : gmap str nat) : Prop :=
  ∃ blobs, W = blob_map blobs ∧ length blobs ≤ length ms ∧ Forall (good_file fs) blobs.

Definition just (o : nat) : nat * list nat := (o, []).

(** Before the journal is there. *)
Definition setup_view (fs : Fs) (i : nat) (V : gmap str nat) : Prop :=
  ∃ stage ro, V = setup_map stage (just <$> ro) ∧ (∀ s, stage = Some s → stage_file fs s) ∧ ∀ o, ro = Some o → below fs i o (blobs_part fs).

(** With the journal and all originals. *)
Definition full_view (fs : Fs) (i : nat) (V : gmap str nat) : Prop :=
  ∃ j o, V = fence_map j o ∧ holding fs jbytes j ∧ below fs i o (blobs_full fs).

(** While it is being removed. *)
Definition part_view (fs : Fs) (i : nat) (V : gmap str nat) : Prop :=
  V = ∅ ∨ ∃ j ro, V = remains j (just <$> ro) ∧ holding fs jbytes j ∧ ∀ o, ro = Some o → below fs i o (blobs_part fs).

(** A fence: its journal is there in the end or not at all. *)
Definition setup_dir (fs : Fs) (i : nat) (d : Dir) : Prop :=
  (∀ V, dviews d V → setup_view fs i V) ∨ (∀ V, dviews d V → setup_view fs i V ∨ full_view fs i V) ∧ full_view fs i (dir_view d).

Definition setup (fs : Fs) (i : nat) : Prop :=
  i ≠ ROOT ∧ ∃ a d, fs_nodes fs !! i = Some (NDir a d) ∧ (trusted i → owned_with_mode ow a 448 = true) ∧ setup_dir fs i d.

Definition full (fs : Fs) (i : nat) : Prop := i ≠ ROOT ∧ dir_all fs i (full_view fs i).

(** As recovery removes it: on disk the journal may still be a stage. *)
Definition loose (fs : Fs) (i : nat) : Prop := i ≠ ROOT ∧ dir_all fs i (fun V => setup_view fs i V ∨ part_view fs i V).

Lemma dir_all_impl (fs : Fs) (i : nat) (P Q : gmap str nat → Prop) : dir_all fs i P → (∀ V, P V → Q V) → dir_all fs i Q.
Proof. intros (a & d & Hi & Ho & H) HPQ. exists a, d. auto. Qed.

Lemma below_impl (fs : Fs) (i o : nat) (P Q : gmap str nat → Prop) : below fs i o P → (∀ V, P V → Q V) → below fs i o Q.
Proof. intros [H1 H2] HPQ. split; [done|]. by eapply dir_all_impl. Qed.

Lemma holding_good fs bytes i : holding fs bytes i → good_file fs i.
Proof. intros (f & Hf & _ & _ & Ho). by exists f. Qed.

Lemma blobs_full_part (fs : Fs) (W : gmap str nat) : blobs_full fs W → blobs_part fs W.
Proof.
  intros (blobs & -> & H). exists blobs. split; [done|]. rewrite (Forall2_length _ _ _ H). split; [done|].
  apply Forall_lookup. intros k i Hi. destruct (Forall2_lookup_r _ _ _ _ _ H Hi) as (m & _ & Hm). by eapply holding_good.
Qed.

Lemma fence_map_remains j o : fence_map j o = remains j (Some (just o)).
Proof. done. Qed.

Lemma full_view_part (fs : Fs) (i : nat) (V : gmap str nat) : full_view fs i V → part_view fs i V.
Proof.
  intros (j & o & -> & Hj & Ho). right. exists j, (Some o). split; [done|]. split; [done|].
  intros o' [= <-]. eapply below_impl; [exact Ho|]. apply blobs_full_part.
Qed.

Lemma setup_loose fs i : setup fs i → loose fs i.
Proof.
  intros [Hr (a & d & Hi & Ho & H)]. split; [done|]. exists a, d. split; [done|]. split; [done|]. intros V HV.
  destruct H as [H|[H _]]; [left; by apply H|]. destruct (H V HV); [by left|right; by apply full_view_part].
Qed.

Lemma full_setup fs i : full fs i → setup fs i.
Proof. intros [Hr (a & d & Hi & Ho & H)]. split; [done|]. exists a, d. split; [done|]. split; [done|]. right. split; [auto|]. apply H, dviews_now. Qed.

(** Nothing changes in the directory or in one it holds. *)
Definition untouched (x : option nat) (fs : Fs) (i : nat) : Prop :=
  x ≠ Some i ∧ ∀ a d V o, fs_nodes fs !! i = Some (NDir a d) → dviews d V → V !! ORIGINALS_DIR_NAME = Some o → x ≠ Some o.

Lemma view_originals (fs : Fs) (i : nat) (V : gmap str nat) (o : nat) : setup_view fs i V ∨ part_view fs i V → V !! ORIGINALS_DIR_NAME = Some o → i < o ∧ ∃ n, fs_nodes fs !! o = Some n.
Proof.
  intros [(st & ro & -> & _ & Hb)|[->|(j & ro & -> & _ & Hb)]] He.
  - rewrite setup_map_originals in He. destruct ro as [o'|]; [|done]. injection He as <-. destruct (Hb o' eq_refl) as [Hlt (a & d & Ho & _)]. eauto.
  - done.
  - rewrite remains_originals in He. destruct ro as [o'|]; [|done]. injection He as <-. destruct (Hb o' eq_refl) as [Hlt (a & d & Ho & _)]. eauto.
Qed.

Lemma loose_untouched (fs : Fs) (i : nat) (x : option nat) : x = None ∨ x = Some ROOT → loose fs i → untouched x fs i.
Proof.
  intros Hx [Hr (a & d & Hi & _ & H)]. split; [destruct Hx; congruence|]. intros a' d' V o Hi' HV Ho. simplify_eq.
  destruct (view_originals fs i V o (H V HV) Ho) as [Hlt _]. destruct Hx as [-> | ->]; [done|]. unfold ROOT in *. intros [= <-]. lia.
Qed.

Section KeepsDirs.

Context {short : bool} {x : option nat} {fs fs' : Fs} (K : keeps short x fs fs').

Lemma keeps_dir_all (i : nat) (P P' : gmap str nat → Prop) : x ≠ Some i → dir_all fs i P → (∀ V, P V → P' V) → dir_all fs' i P'.
Proof.
  intros Hx (a & d & Hi & Ho & H) HP. destruct (keeps_dir K i a d Hx Hi) as (a' & d' & Hi' & Ha & Hv). exists a', d'. split; [done|]. split; [intros Hc; rewrite (Ha Hc); by apply Ho|]. intros V HV. apply HP, H. by eapply dir_le_views.
Qed.

Lemma keeps_blobs_full (W : gmap str nat) : blobs_full fs W → blobs_full fs' W.
Proof. intros (blobs & -> & H). exists blobs. split; [done|]. eapply Forall2_impl; [exact H|]. intros m i. apply (keeps_holding K). Qed.

Lemma keeps_blobs_part (W : gmap str nat) : blobs_part fs W → blobs_part fs' W.
Proof. intros (blobs & -> & Hl & H). exists blobs. split; [done|]. split; [done|]. eapply Forall_impl; [exact H|]. intros i. apply (keeps_good K). Qed.

Lemma keeps_below (i o : nat) (P P' : gmap str nat → Prop) : x ≠ Some o → below fs i o P → (∀ V, P V → P' V) → below fs' i o P'.
Proof. intros Hx [H1 H2] HP. split; [done|]. by eapply keeps_dir_all. Qed.

Lemma keeps_full_view (i : nat) (V : gmap str nat) : (∀ o, V !! ORIGINALS_DIR_NAME = Some o → x ≠ Some o) → full_view fs i V → full_view fs' i V.
Proof.
  intros Hx (j & o & -> & Hj & Ho). exists j, o. split; [done|]. split; [by apply (keeps_holding K)|].
  eapply keeps_below; [apply Hx, fence_map_originals|exact Ho|apply keeps_blobs_full].
Qed.

Lemma keeps_part_view (i : nat) (V : gmap str nat) : (∀ o, V !! ORIGINALS_DIR_NAME = Some o → x ≠ Some o) → part_view fs i V → part_view fs' i V.
Proof.
  intros Hx [->|(j & ro & -> & Hj & Ho)]; [by left|right]. exists j, ro. split; [done|]. split; [by apply (keeps_holding K)|]. intros o Heq.
  eapply keeps_below; [apply Hx; rewrite remains_originals; by rewrite Heq|by apply Ho|apply keeps_blobs_part].
Qed.

Lemma keeps_setup_view (i : nat) (V : gmap str nat) : short = true → (∀ o, V !! ORIGINALS_DIR_NAME = Some o → x ≠ Some o) → setup_view fs i V → setup_view fs' i V.
Proof.
  intros Hs Hx (st & ro & -> & Hst & Ho). exists st, ro. split; [done|]. split; [intros s Heq; by apply (keeps_stage K s Hs), Hst|]. intros o Heq.
  eapply keeps_below; [apply Hx; rewrite setup_map_originals; by rewrite Heq|by apply Ho|apply keeps_blobs_part].
Qed.

Lemma keeps_full (i : nat) : untouched x fs i → full fs i → full fs' i.
Proof.
  intros [Hx Hv] [Hr (a & d & Hi & Ho & H)]. split; [done|]. destruct (keeps_dir K i a d Hx Hi) as (a' & d' & Hi' & Ha & Hle). exists a', d'.
  split; [done|]. split; [intros Hc; rewrite (Ha Hc); auto|]. intros V HV%(dir_le_views _ _ _ Hle). apply keeps_full_view; [|by apply H]. eauto.
Qed.

Lemma keeps_loose (i : nat) : short = true → untouched x fs i → loose fs i → loose fs' i.
Proof.
  intros Hs [Hx Hv] [Hr (a & d & Hi & Ho & H)]. split; [done|]. destruct (keeps_dir K i a d Hx Hi) as (a' & d' & Hi' & Ha & Hle). exists a', d'.
  split; [done|]. split; [intros Hc; rewrite (Ha Hc); auto|]. intros V HV%(dir_le_views _ _ _ Hle).
  destruct (H V HV); [left; apply keeps_setup_view; eauto|right; apply keeps_part_view; eauto].
Qed.

Lemma keeps_setup (i : nat) : short = true → untouched x fs i → setup fs i → setup fs' i.
Proof.
  intros Hs [Hx Hv] [Hr (a & d & Hi & Ho & H)]. split; [done|]. destruct (keeps_dir K i a d Hx Hi) as (a' & d' & Hi' & Ha & Hle). exists a', d'.
  split; [done|]. split; [intros Hc; rewrite (Ha Hc); auto|].
  assert (∀ V, dviews d V → setup_view fs i V → setup_view fs' i V) as Hsv by (intros V HV; apply keeps_setup_view; eauto).
  assert (∀ V, dviews d V → full_view fs i V → full_view fs' i V) as Hfv by (intros V HV; apply keeps_full_view; eauto).
  destruct H as [H|[H Hn]]; [left; intros V HV%(dir_le_views _ _ _ Hle); by auto|].
  destruct Hle as [-> |[n ->]]; [right; split; [intros V HV; destruct (H V HV); auto|by apply Hfv; [apply dviews_now|]]|].
  assert (dviews d (apply_all (dir_disk d) (take n (dir_pending d)))) as HV by (by exists n).
  destruct (H _ HV) as [H1|H1]; [left|right; split]; [intros V ->%dviews_synced; by auto|intros V ->%dviews_synced; by auto|]. by apply Hfv.
Qed.

End KeepsDirs.

(** ** The configuration *)

(** Every file that a member names, or may name after a power cut, is an image
    of the allowed kind. *)
Definition slot_all (fs : Fs) (m : MigrationMember) (kind : str → Prop) : Prop :=
  ∃ s, fs_live fs !! mm_path m = Some s ∧ ∀ v, v ∈ sl_now s :: sl_may s → ∃ i bytes, v = Some i ∧ image fs m bytes i ∧ kind bytes.

Definition live (fs : Fs) (kind : MigrationMember → str → Prop) : Prop := ∀ m, m ∈ ms → slot_all fs m (kind m).

Definition is_old (m : MigrationMember) (bytes : str) : Prop := bytes = mm_before m.
Definition is_new (m : MigrationMember) (bytes : str) : Prop := bytes = mm_after m.
Definition is_either (m : MigrationMember) (bytes : str) : Prop := bytes = mm_before m ∨ bytes = mm_after m.

(** A member that is old again cannot fall back to the new image. *)
Definition restorable (fs : Fs) : Prop :=
  ∀ m s i, m ∈ ms → fs_live fs !! mm_path m = Some s → sl_now s = Some i → image fs m (mm_before m) i → slot_all fs m (is_old m).

Lemma slot_impl (fs : Fs) (m : MigrationMember) (k k' : str → Prop) : slot_all fs m k → (∀ b, k b → k' b) → slot_all fs m k'.
Proof. intros (s & Hs & Hv) Hk. exists s. split; [done|]. intros v Hin. destruct (Hv v Hin) as (i & b & -> & Hi & Hb). exists i, b. auto. Qed.

Lemma live_impl (fs : Fs) (k k' : MigrationMember → str → Prop) : live fs k → (∀ m b, k m b → k' m b) → live fs k'.
Proof. intros H Hk m Hm. eapply slot_impl; [by apply H|]. apply Hk. Qed.

Lemma keeps_slot (short : bool) (x : option nat) (fs fs' : Fs) (m : MigrationMember) (k : str → Prop) :
  keeps short x fs fs' → fs_live fs' !! mm_path m = fs_live fs !! mm_path m → slot_all fs m k → slot_all fs' m k.
Proof.
  intros K He (s & Hs & Hv). exists s. rewrite He. split; [done|]. intros v Hin. destruct (Hv v Hin) as (i & b & -> & Hi & Hb).
  exists i, b. split; [done|]. split; [by apply (keeps_image K)|done].
Qed.

Lemma keeps_live (short : bool) (x : option nat) (fs fs' : Fs) (k : MigrationMember → str → Prop) : keeps short x fs fs' → fs_live fs' = fs_live fs → live fs k → live fs' k.
Proof. intros K He H m Hm. eapply keeps_slot; [done|by rewrite He|by apply H]. Qed.

Lemma cut_live (fs fs' : Fs) (k : MigrationMember → str → Prop) : power_cut fs fs' → live fs k → live fs' k.
Proof.
  intros Hc H m Hm. pose proof (keeps_cut fs fs' Hc) as K. destruct Hc as (_ & _ & Hl). destruct (H m Hm) as (s & Hs & Hv). specialize (Hl (mm_path m)). rewrite Hs in Hl.
  inversion Hl as [? s' [Hmay Hnow] E1 E2|]; subst. exists s'. split; [done|]. intros v Hin. rewrite Hmay in Hin. apply list_elem_of_singleton in Hin as ->.
  destruct (Hv _ Hnow) as (i & b & He & Hi & Hb). exists i, b. split; [done|]. split; [by apply (keeps_image K)|done].
Qed.

(** ** The invariant *)

Definition root_all (fs : Fs) (P : gmap str nat → Prop) : Prop := ∃ a d, fs_nodes fs !! ROOT = Some (NDir a d) ∧ ∀ V, dviews d V → P V.

(** The root holds this one entry, on disk as well. *)
Definition at_root (fs : Fs) (name : str) (i : nat) : Prop := root_all fs (fun V => V = {[name := i]}).

(** Nothing has been decided: the old configuration. *)
Definition old_root (fs : Fs) (V : gmap str nat) : Prop :=
  V = ∅ ∨ (∃ i, V = {[TXN_DIR_NAME := i]} ∧ setup fs i) ∨ (∃ i, V = {[cl := i]} ∧ loose fs i).

(** The new configuration, with or without its undo. *)
Definition new_root (fs : Fs) (V : gmap str nat) : Prop :=
  V = ∅ ∨ (∃ i, V = {[TXN_DIR_NAME := i]} ∧ full fs i) ∨ (∃ i, V = {[cl := i]} ∧ full fs i) ∨ (∃ i, V = {[fin := i]} ∧ loose fs i).

(** A directory made before [b], and what it holds. *)
Definition older (fs : Fs) (b i : nat) : Prop :=
  i < b ∧ ∃ a d, fs_nodes fs !! i = Some (NDir a d) ∧ ∀ V o, dviews d V → V !! ORIGINALS_DIR_NAME = Some o → o < b.

(** Other directories that the root may still hold are older than the fence. *)
Definition fence_newest (fs : Fs) : Prop :=
  ∀ i, entries fs ROOT !! TXN_DIR_NAME = Some i → root_all fs (fun V => V = {[TXN_DIR_NAME := i]} ∨ ∀ k i', V !! k = Some i' → older fs i i').

Definition Old (fs : Fs) : Prop := live fs is_old ∧ root_all fs (old_root fs) ∧ fence_newest fs.
Definition Between (fs : Fs) : Prop := live fs is_either ∧ ∃ i, full fs i ∧ at_root fs TXN_DIR_NAME i.
Definition New (fs : Fs) : Prop := live fs is_new ∧ root_all fs (new_root fs).

Definition fresh_ok (fs : Fs) : Prop := ∀ i n, fs_nodes fs !! i = Some n → i < fs_next fs.

Definition Safe (fs : Fs) : Prop := fresh_ok fs ∧ (Old fs ∨ Between fs ∨ New fs).

Lemma root_all_impl (fs : Fs) (P P' : gmap str nat → Prop) : root_all fs P → (∀ V, P V → P' V) → root_all fs P'.
Proof. intros (a & d & Hi & H) HP. exists a, d. auto. Qed.

Lemma root_now (fs : Fs) (P : gmap str nat → Prop) : root_all fs P → P (entries fs ROOT).
Proof. intros (a & d & Hi & H). unfold entries. rewrite Hi. apply H, dviews_now. Qed.

Lemma dir_now (fs : Fs) (i : nat) (P : gmap str nat → Prop) : dir_all fs i P → P (entries fs i).
Proof. intros (a & d & Hi & _ & H). unfold entries. rewrite Hi. apply H, dviews_now. Qed.

Lemma keeps_root_all (short : bool) (x : option nat) (fs fs' : Fs) (P P' : gmap str nat → Prop) : keeps short x fs fs' → x ≠ Some ROOT →
  root_all fs P → (∀ V, P V → P' V) → root_all fs' P'.
Proof.
  intros K Hx (a & d & Hi & H) HP. destruct (keeps_dir K ROOT a d Hx Hi) as (a' & d' & Hi' & _ & Hv). exists a', d'. split; [done|].
  intros V HV. apply HP, H. by eapply dir_le_views.
Qed.

Lemma keeps_older (short : bool) (x : option nat) (fs fs' : Fs) (b i : nat) : keeps short x fs fs' → x ≠ Some i → older fs b i → older fs' b i.
Proof.
  intros K Hx [Hb (a & d & Hi & H)]. split; [done|]. destruct (keeps_dir K i a d Hx Hi) as (a' & d' & Hi' & _ & Hv). exists a', d'. split; [done|].
  intros V o HV. apply H. by eapply dir_le_views.
Qed.

Section KeepsRoots.

Context {x : option nat} {fs fs' : Fs} (K : keeps true x fs fs') (Hx : x = None ∨ x = Some ROOT).

Lemma keeps_old_root (V : gmap str nat) : old_root fs V → old_root fs' V.
Proof.
  intros [->|[(i & -> & Hi)|(i & -> & Hi)]]; [by left|right; left|right; right]; exists i; (split; [done|]); [apply (keeps_setup K)|apply (keeps_loose K)];
    auto using loose_untouched, setup_loose.
Qed.

Lemma full_loose (fs0 : Fs) (i : nat) : full fs0 i → loose fs0 i.
Proof. intros H. by apply setup_loose, full_setup. Qed.

Lemma keeps_full_root (i : nat) : full fs i → full fs' i.
Proof. intros H. apply (keeps_full K); [|done]. by apply loose_untouched, full_loose. Qed.

Lemma keeps_loose_root (i : nat) : loose fs i → loose fs' i.
Proof. intros H. apply (keeps_loose K); [done| |done]. by apply loose_untouched. Qed.

Lemma keeps_new_root (V : gmap str nat) : new_root fs V → new_root fs' V.
Proof.
  intros [->|[(i & -> & Hi)|[(i & -> & Hi)|(i & -> & Hi)]]]; [by left|right; left|do 2 right; left|do 3 right]; exists i; (split; [done|]);
    auto using keeps_full_root, keeps_loose_root.
Qed.

End KeepsRoots.

Lemma old_txn (fs : Fs) (V : gmap str nat) (i : nat) : old_root fs V → V !! TXN_DIR_NAME = Some i → V = {[TXN_DIR_NAME := i]} ∧ setup fs i.
Proof.
  destruct (names_apart jbytes) as (Hn1 & Hn2 & _).
  intros [->|[(i' & -> & Hi)|(i' & -> & Hi)]] H; [done| |by rewrite lookup_singleton_ne in H]. rewrite lookup_singleton_eq in H. by simplify_eq.
Qed.

Lemma keeps_newest (fs fs' : Fs) : keeps true None fs fs' → root_all fs (old_root fs) → fence_newest fs → fence_newest fs'.
Proof.
  intros K Hr Hn i Hi. pose proof (keeps_root_all _ _ _ _ _ _ K ltac:(done) Hr (keeps_old_root K ltac:(by left))) as Hr'.
  destruct Hr as (a & d & Hd & Hr). destruct (keeps_dir K ROOT a d ltac:(done) Hd) as (a' & d' & Hd' & _ & [-> |[n ->]]).
  - assert (entries fs' ROOT = entries fs ROOT) as He by (unfold entries; by rewrite Hd, Hd'). rewrite He in Hi. eapply keeps_root_all; [done|done|by apply Hn|].
    intros V [->|HV]; [by left|right]. intros k i' Hk. eapply keeps_older; [done|done|by eapply HV].
  - eexists _, _. split; [done|]. intros V ->%dviews_synced. left. unfold entries in Hi. rewrite Hd' in Hi. cbn in Hi.
    eapply old_txn; [|exact Hi]. apply root_now in Hr'. unfold entries in Hr'. rewrite Hd' in Hr'. exact Hr'.
Qed.

Lemma keeps_old (fs fs' : Fs) : keeps true None fs fs' → (live fs is_old → live fs' is_old) → Old fs → Old fs'.
Proof.
  intros K HL (Hl & Hr & Hn). split; [by apply HL|]. split; [|by apply (keeps_newest fs fs')]. eapply keeps_root_all; [done|done|exact Hr|]. apply (keeps_old_root K). by left.
Qed.

(** What a change of the nodes that keeps them leaves. *)
Lemma keeps_cases (fs fs' : Fs) : keeps true None fs fs' → (∀ k, live fs k → live fs' k) → Old fs ∨ Between fs ∨ New fs → Old fs' ∨ Between fs' ∨ New fs'.
Proof.
  intros K HL [H|[[Hl (i & Hi & Hr)]|[Hl Hr]]]; [left; by eapply keeps_old; [..|exact H]; auto|right; left|right; right]; (split; [by apply HL|]).
  - exists i. split; [by apply (keeps_full_root K); [left|]|]. by eapply keeps_root_all.
  - eapply keeps_root_all; [done|done|exact Hr|]. apply (keeps_new_root K). by left.
Qed.

(** A power cut leaves a safe state safe. *)
Lemma cut_safe (fs fs' : Fs) : power_cut fs fs' → Safe fs → Safe fs'.
Proof.
  intros Hc [Hf H]. split.
  { intros i n Hi. destruct Hc as (-> & Hn & _). specialize (Hn i). rewrite Hi in Hn. inversion Hn; subst. by eapply Hf. }
  eapply keeps_cases; [by apply keeps_cut| |done]. intros k. by apply cut_live.
Qed.

Lemma keeps_safe (fs fs' : Fs) : keeps true None fs fs' → fs_live fs' = fs_live fs → fresh_ok fs' → Safe fs → Safe fs'.
Proof. intros K He Hf' [Hf H]. split; [done|]. eapply keeps_cases; [done| |done]. intros k. by eapply keeps_live. Qed.

End State.
