(* ===== verification/MigrationSteps.v ===== *)
(** * Single changes of the disk

    What each call that changes the disk does to what a directory may hold, and
    its triple. *)

From S2P Require Import Prelude RustStr Ast Membership DiskTree MigrationJournal MigrationTxn DiskLogic MigrationReads MigrationPlan MigrationState.

(** ** Changes of directories *)

Definition sync_at (d : nat) (fs : Fs) : Fs :=
  match fs_nodes fs !! d with
  | Some (NDir a dir) => set_node d (NDir a {| dir_disk := dir_view dir; dir_pending := [] |}) fs
  | _ => fs
  end.

Lemma push_node (fs : Fs) (d : nat) (u : Update) (a : Attr) (dir : Dir) : fs_nodes fs !! d = Some (NDir a dir) →
  push_update d u fs = set_node d (NDir a {| dir_disk := dir_disk dir; dir_pending := dir_pending dir ++ [u] |}) fs.
Proof. intros H. unfold push_update. by rewrite H. Qed.

Lemma dir_view_push (dir : Dir) (u : Update) : dir_view {| dir_disk := dir_disk dir; dir_pending := dir_pending dir ++ [u] |} = apply_update (dir_view dir) u.
Proof. unfold dir_view, apply_all. cbn. by rewrite foldl_app. Qed.

Lemma entries_push (fs : Fs) (d : nat) (u : Update) : dir_at fs d → entries (push_update d u fs) d = apply_update (entries fs d) u.
Proof. intros (a & dir & H). rewrite (push_node _ _ _ _ _ H). unfold entries. cbn. rewrite lookup_insert_eq, H. apply dir_view_push. Qed.

Lemma nodes_push_ne (fs : Fs) (d d' : nat) (u : Update) : d' ≠ d → fs_nodes (push_update d u fs) !! d' = fs_nodes fs !! d'.
Proof. intros Hne. unfold push_update. destruct (fs_nodes fs !! d) as [[| |]|]; try done. cbn. by rewrite lookup_insert_ne. Qed.

Lemma entries_push_ne (fs : Fs) (d d' : nat) (u : Update) : d' ≠ d → entries (push_update d u fs) d' = entries fs d'.
Proof. intros Hne. unfold entries. by rewrite nodes_push_ne. Qed.

Lemma push_live (fs : Fs) (d : nat) (u : Update) : fs_live (push_update d u fs) = fs_live fs.
Proof. unfold push_update. by repeat case_match. Qed.

Lemma push_file (fs : Fs) (d : nat) (u : Update) (i : nat) (f : FileNode) : file_at fs i f → file_at (push_update d u fs) i f.
Proof. intros Hf. unfold file_at. destruct (decide (i = d)) as [->|Hne]; [unfold push_update; by rewrite Hf|]. by rewrite nodes_push_ne. Qed.

Lemma push_dir (fs : Fs) (d : nat) (u : Update) (i : nat) : dir_at fs i → dir_at (push_update d u fs) i.
Proof.
  intros (a & dir & Hi). unfold dir_at. destruct (decide (i = d)) as [->|Hne]; [|rewrite nodes_push_ne by done; eauto].
  rewrite (push_node _ _ _ _ _ Hi). cbn. rewrite lookup_insert_eq. eauto.
Qed.

Lemma push_fresh (fs : Fs) (d : nat) (u : Update) : fresh_ok fs → fresh_ok (push_update d u fs).
Proof.
  intros Hf i n. unfold push_update. destruct (fs_nodes fs !! d) as [[|a dir|]|] eqn:E; try apply Hf. cbn. intros [[<- _]|[_ H]]%lookup_insert_Some; [|by eapply Hf].
  by eapply Hf.
Qed.

Lemma entries_sync (fs : Fs) (d d' : nat) : entries (sync_at d fs) d' = entries fs d'.
Proof.
  unfold sync_at. destruct (fs_nodes fs !! d) as [[|a dir|]|] eqn:E; try done. unfold entries. cbn. destruct (decide (d' = d)) as [->|Hne].
  - by rewrite lookup_insert_eq, E.
  - by rewrite lookup_insert_ne.
Qed.

Lemma sync_live (fs : Fs) (d : nat) : fs_live (sync_at d fs) = fs_live fs.
Proof. unfold sync_at. by repeat case_match. Qed.

Lemma sync_next (fs : Fs) (d : nat) : fs_next (sync_at d fs) = fs_next fs.
Proof. unfold sync_at. by repeat case_match. Qed.

Lemma sync_fresh (fs : Fs) (d : nat) : fresh_ok fs → fresh_ok (sync_at d fs).
Proof.
  intros Hf i n. unfold sync_at. destruct (fs_nodes fs !! d) as [[|a dir|]|] eqn:E; try apply Hf. cbn. intros [[<- _]|[_ H]]%lookup_insert_Some; by eapply Hf.
Qed.

Lemma sync_file_at (fs : Fs) (d i : nat) (f : FileNode) : file_at (sync_at d fs) i f ↔ file_at fs i f.
Proof.
  unfold sync_at, file_at. destruct (fs_nodes fs !! d) as [[|a dir|]|] eqn:E; try done. cbn. destruct (decide (i = d)) as [->|Hne].
  - rewrite lookup_insert_eq, E. by split.
  - by rewrite lookup_insert_ne.
Qed.

Lemma sync_dir_at (fs : Fs) (d i : nat) : dir_at fs i → dir_at (sync_at d fs) i.
Proof.
  intros (a & dir & Hi). unfold dir_at, sync_at. destruct (decide (i = d)) as [->|Hne]; [rewrite Hi; cbn; rewrite lookup_insert_eq; eauto|].
  destruct (fs_nodes fs !! d) as [[| |]|]; cbn; rewrite ?lookup_insert_ne by done; eauto.
Qed.

(** One more node, that nothing names yet. *)
Definition alloc (n : Node) (fs : Fs) : Fs := {| fs_nodes := <[fs_next fs := n]> (fs_nodes fs); fs_live := fs_live fs; fs_next := S (fs_next fs) |}.

Lemma alloc_at n fs : fs_nodes (alloc n fs) !! fs_next fs = Some n.
Proof. cbn. apply lookup_insert_eq. Qed.

Lemma alloc_old n fs i x : fresh_ok fs → fs_nodes fs !! i = Some x → fs_nodes (alloc n fs) !! i = Some x.
Proof. intros Hf Hi. cbn. rewrite lookup_insert_ne; [done|]. specialize (Hf i x Hi). lia. Qed.

Lemma alloc_fresh n fs : fresh_ok fs → fresh_ok (alloc n fs).
Proof. intros Hf i x. cbn. intros [[<- _]|[_ H]]%lookup_insert_Some; [lia|]. specialize (Hf i x H). lia. Qed.

(** A node without entries. *)
Definition hollow (n : Node) : Prop := match n with NDir _ d => dir_view d = ∅ | _ => True end.

Lemma alloc_entries n fs d : fresh_ok fs → hollow n → entries (alloc n fs) d = entries fs d.
Proof.
  intros Hf Hn. unfold entries. cbn. destruct (decide (fs_next fs = d)) as [<-|Hne]; [|by rewrite lookup_insert_ne]. rewrite lookup_insert_eq.
  destruct (fs_nodes fs !! fs_next fs) as [x|] eqn:E; [specialize (Hf _ _ E); lia|]. by destruct n.
Qed.

Section Dirs.

Context {sha : Sha2Crate} {json : JsonCrate} {tx : Migration} {tr : Owners}.

Lemma keeps_push (short : bool) (fs : Fs) (d : nat) (u : Update) : dir_at fs d → keeps short (Some d) fs (push_update d u fs).
Proof. intros Hd. pose proof Hd as (a & dir & H). rewrite (push_node _ _ _ _ _ H). by apply keeps_set_dir. Qed.

Lemma keeps_sync (short : bool) (fs : Fs) (d : nat) : keeps short None fs (sync_at d fs).
Proof.
  unfold sync_at. destruct (fs_nodes fs !! d) as [[|a dir|]|] eqn:E; try by apply keeps_same. eapply keeps_set_node; [done|]. split; [done|]. apply dir_le_synced.
Qed.

Lemma alloc_keeps (short : bool) (n : Node) (fs : Fs) : fresh_ok fs → keeps short None fs (alloc n fs).
Proof. intros Hf. split; [done|]. intros i x _ Hi. exists x. split; [by apply alloc_old|apply node_le_refl]. Qed.

Lemma add_keeps (short : bool) (d : nat) (name : str) (n : Node) (fs : Fs) : fresh_ok fs → dir_at fs d → keeps short (Some d) fs (add_node d name n fs).
Proof.
  intros Hf Hd. eapply keeps_trans; [by apply (alloc_keeps short n)|apply keeps_push|by intros ? [= <-]]. destruct Hd as (a & dir & Hd). exists a, dir. by apply alloc_old.
Qed.

Lemma dir_push (fs : Fs) (d : nat) (u : Update) (P P' : gmap str nat → Prop) : dir_all fs d P → (∀ V, P V → P' V) → P' (apply_update (entries fs d) u) →
  dir_all (push_update d u fs) d P'.
Proof.
  intros (a & dir & Hd & Ho & H) HP Hu. rewrite (push_node _ _ _ _ _ Hd). eexists a, _. cbn. rewrite lookup_insert_eq. split; [done|]. split; [done|].
  intros V [HV| ->]%dviews_push; [by apply HP, H|]. unfold entries in Hu. by rewrite Hd in Hu.
Qed.

Lemma root_push (fs : Fs) (u : Update) (P P' : gmap str nat → Prop) : root_all fs P → (∀ V, P V → P' V) → P' (apply_update (entries fs ROOT) u) →
  root_all (push_update ROOT u fs) P'.
Proof.
  intros (a & dir & Hd & H) HP Hu. rewrite (push_node _ _ _ _ _ Hd). eexists a, _. cbn. rewrite lookup_insert_eq. split; [done|].
  intros V [HV| ->]%dviews_push; [by apply HP, H|]. unfold entries in Hu. by rewrite Hd in Hu.
Qed.

Lemma dir_sync (fs : Fs) (d : nat) (P : gmap str nat → Prop) : dir_all fs d P → dir_all (sync_at d fs) d (fun V => V = entries fs d ∧ P V).
Proof.
  intros (a & dir & Hd & Ho & H). unfold sync_at, entries. rewrite Hd. eexists a, _. cbn. rewrite lookup_insert_eq. split; [done|]. split; [done|].
  intros V ->%dviews_synced. split; [done|]. apply H, dviews_now.
Qed.

Lemma root_sync (fs : Fs) (P : gmap str nat → Prop) : root_all fs P → root_all (sync_at ROOT fs) (fun V => V = entries fs ROOT ∧ P V).
Proof.
  intros (a & dir & Hd & H). unfold sync_at, entries. rewrite Hd. eexists a, _. cbn. rewrite lookup_insert_eq. split; [done|].
  intros V ->%dviews_synced. split; [done|]. apply H, dviews_now.
Qed.

Lemma root_ne (fs fs' : Fs) (P : gmap str nat → Prop) : fs_nodes fs' !! ROOT = fs_nodes fs !! ROOT → root_all fs P → root_all fs' P.
Proof. intros He (a & dir & Hd & H). exists a, dir. by rewrite He. Qed.

Lemma root_dir (fs : Fs) (P : gmap str nat → Prop) : root_all fs P → dir_at fs ROOT.
Proof. intros (a & dir & Hd & _). by exists a, dir. Qed.

Lemma dir_all_dir (fs : Fs) (d : nat) (P : gmap str nat → Prop) : dir_all fs d P → dir_at fs d.
Proof. intros (a & dir & Hd & _). by exists a, dir. Qed.

End Dirs.

(** ** Triples of the calls *)

Section Calls.

Context (c : Prop) (E F : Fs → Prop).

Lemma triple_call (f : Fs → Fs) (P Q : Fs → Prop) : (∀ fs, P fs → E fs) → (∀ fs, P fs → F fs) → (∀ fs, P fs → Q (f fs)) → triple c E P (sys ;; change f) F (fun _ => Q).
Proof. intros HE HF HQ. eapply triple_bind; [by apply triple_sys|]. intros []. by apply triple_change. Qed.

Lemma triple_sync_dir (d : nat) (P Q : Fs → Prop) : (∀ fs, P fs → E fs) → (∀ fs, P fs → F fs) → (∀ fs, P fs → Q (sync_at d fs)) →
  triple c E P (sync_dir d) F (fun _ => Q).
Proof. intros HE HF HQ. by apply triple_call. Qed.

Lemma triple_rename (d : nat) (from to : str) (P Q : Fs → Prop) : (∀ fs, P fs → E fs) → (∀ fs, P fs → F fs) →
  (∀ fs, P fs → c → is_Some (entries fs d !! from) ∧ entries fs d !! to = None) →
  (∀ fs i, P fs → entries fs d !! from = Some i → entries fs d !! to = None → Q (push_update d [(from, None); (to, Some i)] fs)) →
  triple c E P (rename_noreplace_at d from to) F (fun _ => Q).
Proof.
  intros HE HF HC HQ. unfold rename_noreplace_at. eapply triple_bind; [by apply triple_sys|]. intros [].
  eapply triple_bind; [apply (triple_view c E F (fun fs => entries fs d))|]. intros m.
  eapply triple_bind; [apply triple_some; [naive_solver|]; intros fs [HP ->] Hc; apply (HC fs HP Hc)|]. intros i.
  eapply triple_bind; [apply triple_ensure; [naive_solver|]; intros fs [[HP ->] _] Hc; by rewrite (proj2 (HC fs HP Hc))|]. intros [].
  apply triple_change. intros fs [[[HP ->] Hi] Ht]. apply HQ; [done|done|]. apply negb_true_iff, bool_decide_eq_false_1 in Ht. by apply eq_None_not_Some.
Qed.

Lemma triple_unlink (d : nat) (name : str) (P Q : Fs → Prop) : (∀ fs, P fs → E fs) → (∀ fs, P fs → F fs) →
  (∀ fs, P fs → c → ∃ i, entries fs d !! name = Some i ∧ ¬ dir_at fs i) →
  (∀ fs i, P fs → entries fs d !! name = Some i → Q (push_update d [(name, None)] fs)) →
  triple c E P (unlink_at d name) F (fun _ => Q).
Proof.
  intros HE HF HC HQ. unfold unlink_at. eapply triple_bind; [by apply triple_sys|]. intros [].
  eapply triple_bind; [apply (triple_view c E F (fun fs => entries fs d))|]. intros m.
  eapply triple_bind; [apply triple_some; [naive_solver|]; intros fs [HP ->] Hc; destruct (HC fs HP Hc) as (i & -> & _); done|]. intros i.
  eapply triple_bind; [apply (triple_view c E F (fun fs => fs_nodes fs !! i))|]. intros n.
  eapply triple_bind; [apply triple_ensure; [naive_solver|]|].
  - intros fs [[[HP ->] Hi] ->] Hc. destruct (HC fs HP Hc) as (i' & Hi' & Hd). simplify_eq. apply negb_true_iff, not_true_iff_false. by rewrite is_dir_at.
  - intros []. apply triple_change. intros fs [[[[HP ->] Hi] ->] _]. by eapply HQ.
Qed.

Lemma triple_rmdir (d : nat) (name : str) (P Q : Fs → Prop) : (∀ fs, P fs → E fs) → (∀ fs, P fs → F fs) →
  (∀ fs, P fs → c → ∃ i, entries fs d !! name = Some i ∧ dir_at fs i ∧ entries fs i = ∅) →
  (∀ fs i, P fs → entries fs d !! name = Some i → dir_at fs i → entries fs i = ∅ → Q (push_update d [(name, None)] fs)) →
  triple c E P (rmdir_at d name) F (fun _ => Q).
Proof.
  intros HE HF HC HQ. unfold rmdir_at. eapply triple_bind; [by apply triple_sys|]. intros [].
  eapply triple_bind; [apply (triple_view c E F (fun fs => entries fs d))|]. intros m.
  eapply triple_bind; [apply triple_some; [naive_solver|]; intros fs [HP ->] Hc; destruct (HC fs HP Hc) as (i & -> & _); done|]. intros i.
  eapply triple_bind; [apply (triple_view c E F (fun fs => fs_nodes fs !! i))|]. intros n.
  eapply triple_bind; [apply triple_ensure; [naive_solver|]|].
  { intros fs [[[HP ->] Hi] ->] Hc. destruct (HC fs HP Hc) as (i' & Hi' & Hd & _). simplify_eq. by apply is_dir_at. }
  intros []. eapply triple_bind; [apply (triple_view c E F (fun fs => entries fs i))|]. intros inner.
  eapply triple_bind; [apply triple_ensure; [naive_solver|]|].
  { intros fs [[[[[HP ->] Hi] ->] _] ->] Hc. destruct (HC fs HP Hc) as (i' & Hi' & _ & He). simplify_eq. by apply bool_decide_eq_true_2. }
  intros []. apply triple_change. intros fs [[[[[[HP ->] Hi] ->] Hd] ->] He]. eapply HQ; [done|done|by apply is_dir_at|by apply bool_decide_eq_true_1 in He].
Qed.

Lemma triple_mkdir (g : Guard) (d : nat) (name : str) (mode : Z) (P Q : Fs → Prop) : (∀ fs, P fs → E fs) → (∀ fs, P fs → F fs) →
  (∀ fs, P fs → c → entries fs d !! name = None) →
  (∀ fs, P fs → entries fs d !! name = None →
     Q (add_node d name (NDir {| at_uid := g_euid g; at_gid := g_egid g; at_mode := mode |} {| dir_disk := ∅; dir_pending := [] |}) fs)) →
  triple c E P (mkdir_at g d name mode) F (fun _ => Q).
Proof.
  intros HE HF HC HQ. unfold mkdir_at. eapply triple_bind; [by apply triple_sys|]. intros [].
  eapply triple_bind; [apply (triple_view c E F (fun fs => entries fs d !! name))|]. intros o.
  eapply triple_bind; [apply triple_ensure; [naive_solver|]; intros fs [HP ->] Hc; by rewrite (HC fs HP Hc)|]. intros [].
  apply triple_change. intros fs [[HP ->] Hn]. apply HQ; [done|]. apply negb_true_iff, bool_decide_eq_false_1 in Hn. by apply eq_None_not_Some.
Qed.

Lemma triple_create (g : Guard) (d : nat) (name : str) (mode : Z) (P : Fs → Prop) (Q : nat → Fs → Prop) : (∀ fs, P fs → E fs) → (∀ fs, P fs → F fs) →
  (∀ fs, P fs → c → entries fs d !! name = None) →
  (∀ fs, P fs → entries fs d !! name = None →
     Q (fs_next fs) (add_node d name (NFile {| fl_bytes := []; fl_attr := {| at_uid := g_euid g; at_gid := g_egid g; at_mode := mode |}; fl_nlink := 1; fl_synced := false |}) fs)) →
  triple c E P (create_file g d name mode) F Q.
Proof.
  intros HE HF HC HQ. unfold create_file. eapply triple_bind; [by apply triple_sys|]. intros [].
  eapply triple_bind; [apply (triple_view c E F (fun fs => entries fs d !! name))|]. intros o.
  eapply triple_bind; [apply triple_ensure; [naive_solver|]; intros fs [HP ->] Hc; by rewrite (HC fs HP Hc)|]. intros [].
  eapply triple_bind; [apply triple_view|]. intros i. eapply triple_bind; [eapply (triple_change _ _ _ _ _ (Q i))|intros []; by apply triple_done].
  intros fs [[[HP ->] Hn] ->]. apply HQ; [done|]. apply negb_true_iff, bool_decide_eq_false_1 in Hn. by apply eq_None_not_Some.
Qed.

End Calls.
