(* ===== verification/MigrationFacts.v ===== *)
(** * What a safe disk shows to the checks

    The owner of the tree, the state of every member, the journal and the
    originals of a transaction directory, as the checks of [MigrationReads] find
    them on a disk of [MigrationState]. *)

From S2P Require Import Prelude RustStr Ast Membership DiskTree MigrationJournal MigrationTxn DiskLogic MigrationReads MigrationPlan MigrationState.

#[local] Opaque original_blob_file_name.

Section Facts.

Context {sha : Sha2Crate} {json : JsonCrate} {tx : Migration} {tr : Owners}.

#[local] Abbreviation g := tx_guard.
#[local] Abbreviation ms := tx_members.
#[local] Abbreviation ow := tx_owner.
#[local] Abbreviation J := tx_journal.
#[local] Abbreviation jbytes := tx_bytes.

Context (plan : planned g ms ow J jbytes).

(** ** The owner *)

Definition owner_is (a : Attr) : Prop := at_uid a = at_uid ow ∧ at_gid a = at_gid ow.

Lemma owner_owned a b mode : owner_is a → owned_with_mode a b mode = owned_with_mode ow b mode.
Proof. intros [Hu Hg]. unfold owned_with_mode. by rewrite Hu, Hg. Qed.

Lemma owner_file a mode n : owner_is a → file_ok a mode n = file_ok ow mode n.
Proof. intros H. destruct n; cbn; [|done..]. by rewrite (owner_owned a). Qed.

(** The file of a member. *)
Definition member_file (m : MigrationMember) (f : FileNode) : Prop := fl_synced f = true ∧ fl_nlink f = 1%Z ∧ same_attr (fl_attr f) (fl_attr (mm_metadata m)).

Lemma slot_file (fs : Fs) (m : MigrationMember) (k : str → Prop) : slot_all fs m k → ∃ i f, live_file fs (mm_path m) i f ∧ member_file m f ∧ k (fl_bytes f).
Proof.
  intros (s & Hs & Hv). destruct (Hv (sl_now s) ltac:(by left)) as (i & b & Hn & (f & Hf & Hsy & Hb & Hl & Ha) & Hk). exists i, f.
  split; [|split; [done|by rewrite Hb]]. split; [unfold live_now; by rewrite Hs|done].
Qed.

Lemma safe_live (fs : Fs) : Safe fs → live fs is_either.
Proof. intros [_ [[H _]|[[H _]|[H _]]]]; [|done|]; (eapply live_impl; [exact H|]); intros m b Hb; [by left|by right]. Qed.

Lemma old_either (fs : Fs) : live fs is_old → live fs is_either.
Proof. intros H. eapply live_impl; [exact H|]. by left. Qed.

Lemma new_either (fs : Fs) : live fs is_new → live fs is_either.
Proof. intros H. eapply live_impl; [exact H|]. by right. Qed.

Lemma reads_tree_owner : reads (owner_metadata g) (fun fs => live fs is_either) (fun fs a => live fs is_either → owner_is a).
Proof.
  destruct (plan_master plan) as (m & Hm & Hp & How). eapply reads_weaken; [apply reads_owner| |].
  - intros fs H. destruct (slot_file _ _ _ (H m Hm)) as (i & f & (Hi & Hf & _) & _). rewrite Hp in Hi. eauto.
  - cbn. intros fs a H HL. destruct (slot_file _ _ _ (HL m Hm)) as (i & f & (Hi & Hf & _) & (_ & _ & Ha) & _). rewrite Hp in Hi.
    rewrite (H i f Hi Hf). unfold owner_is. rewrite How. destruct Ha as (H1 & H2 & _). done.
Qed.

(** ** The members *)

Definition state_of (m : MigrationMember) (bytes : str) : LiveState :=
  if decide (mm_before m = mm_after m) then BeforeAndAfter else if decide (bytes = mm_before m) then Before else After.

Lemma receipt_image m f bytes : member_file m f → is_either m (fl_bytes f) → m ∈ ms → bytes = mm_before m ∨ bytes = mm_after m →
  receipt_matches f (fl_bytes f) (receipt_of (fl_attr (mm_metadata m)) bytes) = bool_decide (fl_bytes f = bytes).
Proof.
  intros (_ & Hn & Hu & Hg & Hmode) He Hm Hb. unfold receipt_matches, receipt_of. cbn. rewrite Hn, Hu, Hg, Hmode, !Z.eqb_refl. cbn.
  destruct (decide (fl_bytes f = bytes)) as [->|Hne].
  - by rewrite Z.eqb_refl, !bool_decide_eq_true_2.
  - rewrite (bool_decide_eq_false_2 (fl_bytes f = bytes)) by done. rewrite (bool_decide_eq_false_2 (sha256_hex _ = _)); [by rewrite !andb_false_r|].
    intros H. by apply Hne, (plan_apart plan m).
Qed.

Lemma member_state m f : member_file m f → is_either m (fl_bytes f) → m ∈ ms → file_state f (before_receipt m) (after_receipt m) = state_of m (fl_bytes f).
Proof.
  intros Hf He Hm. unfold file_state, before_receipt, after_receipt. rewrite (receipt_image m f _ Hf He Hm (or_introl eq_refl)), (receipt_image m f _ Hf He Hm (or_intror eq_refl)).
  assert ((MAX_TOTAL_BYTES <? Z.of_nat (length (fl_bytes f)))%Z = false) as ->.
  { destruct (plan_len plan m Hm). apply Z.ltb_ge. destruct He as [-> | ->]; lia. }
  unfold state_of. destruct (decide (mm_before m = mm_after m)) as [Heq|Hne].
  - assert (fl_bytes f = mm_before m) as Hb by (destruct He; congruence). by rewrite !bool_decide_eq_true_2 by congruence.
  - destruct (decide (fl_bytes f = mm_before m)) as [Hb|Hb].
    + rewrite bool_decide_eq_true_2, bool_decide_eq_false_2 by congruence. done.
    + destruct He as [?|Ha]; [done|]. rewrite bool_decide_eq_false_2, bool_decide_eq_true_2 by congruence. done.
Qed.

Lemma state_before m bytes : is_either m bytes → is_before (state_of m bytes) = true ↔ bytes = mm_before m.
Proof. unfold state_of. intros He. destruct (decide _) as [Heq|Hne]; [|destruct (decide _)]; cbn; split; try done. intros _. destruct He; congruence. Qed.

Lemma state_after m bytes : is_either m bytes → is_after (state_of m bytes) = true ↔ bytes = mm_after m.
Proof. unfold state_of. intros He. destruct (decide _) as [Heq|Hne]; [|destruct (decide _)]; cbn; split; try done; destruct He; congruence. Qed.

Lemma state_live m bytes : state_of m bytes ≠ OtherLive.
Proof. unfold state_of. by repeat case_decide. Qed.

(** The state of a member, as it is found. *)
Definition found (fs : Fs) (m : MigrationMember) (s : LiveState) : Prop :=
  live fs is_either → ∃ i f, live_file fs (mm_path m) i f ∧ member_file m f ∧ is_either m (fl_bytes f) ∧ s = state_of m (fl_bytes f).

Lemma reads_member m : m ∈ ms →
  reads (classify_path (mm_path m) (before_receipt m) (after_receipt m)) (fun fs => live fs is_either) (fun fs s => found fs m s).
Proof.
  intros Hm. eapply reads_weaken; [apply reads_classify_path| |].
  - intros fs H. destruct (slot_file _ _ _ (H m Hm)) as (i & f & Hl & _). eauto.
  - cbn. intros fs s H HL. destruct (slot_file _ _ _ (HL m Hm)) as (i & f & Hl & Hf & Hk). exists i, f. split; [done|]. split; [done|]. split; [done|].
    rewrite (H i f Hl). by apply member_state.
Qed.

(** ** The entries of the journal *)

Lemma plan_list : jn_members J = imap entry_of ms.
Proof. apply list_eq. intros k. by rewrite list_lookup_imap, (plan_members plan). Qed.

Lemma plan_entry e : e ∈ jn_members J → ∃ k m, ms !! k = Some m ∧ e = entry_of k m.
Proof. rewrite list_elem_of_lookup. intros [k Hk]. rewrite (plan_members plan) in Hk. destruct (ms !! k) as [m|] eqn:E; [|done]. injection Hk as <-. eauto. Qed.

Lemma plan_all {B} (R : MigrationMember → B → Prop) (R' : JournalMember → B → Prop) (ys : list B) :
  (∀ k m y, R' (entry_of k m) y → R m y) → Forall2 R' (jn_members J) ys → Forall2 R ms ys.
Proof.
  intros HR H. apply Forall2_same_length_lookup. pose proof (Forall2_length _ _ _ H) as Hl. rewrite (plan_length plan) in Hl. split; [done|].
  intros k m y Hm Hy. apply (HR k). eapply Forall2_lookup_lr; [exact H| |done]. by rewrite (plan_members plan), Hm.
Qed.

Lemma reads_entry e : e ∈ jn_members J →
  reads (classify_path (jm_path e) (jm_before e) (jm_after e)) (fun fs => live fs is_either) (fun fs s => ∀ k m, e = entry_of k m → m ∈ ms → found fs m s).
Proof.
  intros (k & m & Hm & ->)%plan_entry. eapply reads_weaken; [apply (reads_member m); by eapply list_elem_of_lookup_2|done|].
  cbn. intros fs s H k' m' He Hm'. assert (mm_path m' = mm_path m) as Hp by (by injection He). by rewrite (plan_path_inj plan m' m) by (done || by eapply list_elem_of_lookup_2).
Qed.

(** ** The journal *)

Definition journal_in (fs : Fs) (i : nat) : Prop := ∃ j, entries fs i !! JOURNAL_NAME = Some j ∧ holding fs jbytes j.

Lemma journal_found (fs : Fs) (i : nat) (owner : Attr) : calm → owner_is owner → journal_in fs i → journal_at fs i owner jbytes.
Proof.
  intros Hc Ho (j & Hj & f & Hf & _ & Hb & Hok). exists j, f. split; [done|]. split; [done|]. rewrite (owner_file owner) by done. split; [by apply Hok|].
  split; [done|]. apply (plan_journal_len plan).
Qed.

Lemma journal_only (fs : Fs) (i : nat) (owner : Attr) (bytes : str) : journal_in fs i → journal_at fs i owner bytes → bytes = jbytes.
Proof. intros (j & Hj & f & Hf & _ & <- & _) (j' & f' & Hj' & Hf' & _ & <- & _). unfold file_at in *. by simplify_eq. Qed.

Lemma reads_our_bytes (i : nat) (owner : Attr) :
  reads (read_journal_bytes i owner) (fun fs => calm ∧ owner_is owner ∧ journal_in fs i) (fun fs bytes => journal_in fs i → bytes = jbytes).
Proof.
  eapply reads_weaken; [apply reads_journal_bytes| |].
  - intros fs (Hc & Ho & Hj). exists jbytes. by apply journal_found.
  - cbn. intros fs bytes H Hj. by eapply journal_only.
Qed.

Lemma reads_our_journal (i : nat) (owner : Attr) :
  reads (read_valid_journal g i owner) (fun fs => calm ∧ owner_is owner ∧ journal_in fs i) (fun fs journal => journal_in fs i → journal = J).
Proof.
  eapply reads_weaken; [apply reads_valid_journal| |].
  - intros fs (Hc & Ho & Hj). exists jbytes. split; [by apply journal_found|]. by rewrite (plan_journal plan).
  - cbn. intros fs journal (bytes & Hb & Hv) Hj. rewrite (journal_only _ _ _ _ Hj Hb), (plan_journal plan) in Hv. by injection Hv.
Qed.

(** ** A complete fence *)

(** What the fence holds now. *)
Record holds (fs : Fs) (i j o : nat) (blobs : list nat) : Prop := {
  ho_fence : entries fs i = fence_map j o;
  ho_journal : holding fs jbytes j;
  ho_below : below fs i o (blobs_full fs);
  ho_blobs : entries fs o = blob_map blobs;
  ho_each : Forall2 (fun m b => holding fs (mm_before m) b) ms blobs;
}.

Lemma full_holds (fs : Fs) (i : nat) : full_view fs i (entries fs i) → ∃ j o blobs, holds fs i j o blobs.
Proof.
  intros (j & o & He & Hj & Ho). pose proof Ho as [_ Hd]. apply dir_now in Hd as (blobs & Hb & Hall). exists j, o, blobs. by split.
Qed.

Lemma holds_journal (fs : Fs) (i j o : nat) (blobs : list nat) : holds fs i j o blobs → journal_in fs i.
Proof. intros [He Hj _ _ _]. exists j. split; [|done]. rewrite He. apply fence_map_journal. Qed.

Lemma holds_length (fs : Fs) (i j o : nat) (blobs : list nat) : holds fs i j o blobs → length blobs = length ms ∧ length blobs ≤ MAX_INCLUDE_FILES.
Proof. intros [_ _ _ _ H]. rewrite <- (Forall2_length _ _ _ H). split; [done|]. apply (plan_bound plan). Qed.

Lemma holding_safe (fs : Fs) (owner : Attr) (bytes : str) (i : nat) : calm → owner_is owner → holding fs bytes i → safe_file fs owner 384 i.
Proof. intros Hc Ho (f & Hf & _ & _ & Hok). exists (NFile f). split; [done|]. rewrite (owner_file owner) by done. by apply Hok. Qed.

Lemma holding_blob (fs : Fs) (owner : Attr) (m : MigrationMember) (k i : nat) : calm → owner_is owner → holding fs (mm_before m) i → blob_ok fs owner (entry_of k m) i (mm_before m).
Proof. intros Hc Ho (f & Hf & _ & Hb & Hok). exists f. split; [done|]. rewrite (owner_file owner) by done. split; [by apply Hok|]. by split. Qed.

Lemma below_dir (fs : Fs) (i o : nat) (P : gmap str nat → Prop) (owner : Attr) : calm → owner_is owner → below fs i o P →
  ∃ a d, fs_nodes fs !! o = Some (NDir a d) ∧ owned_with_mode owner a 448 = true.
Proof. intros Hc Ho [_ (a & d & Hd & Hok & _)]. exists a, d. split; [done|]. rewrite (owner_owned owner) by done. by apply Hok. Qed.

Lemma holds_complete (fs : Fs) (i j o : nat) (blobs : list nat) (owner : Attr) : calm → owner_is owner → holds fs i j o blobs → complete fs i owner J j o blobs.
Proof.
  intros Hc Ho H. pose proof (holds_length _ _ _ _ _ H) as [Hl Hb]. destruct H as [He Hj Hbelow Hbl Hall]. split; try done.
  - split; [rewrite He; apply fence_map_originals|]. by eapply below_dir.
  - by rewrite (plan_length plan).
  - by eapply holding_safe.
  - intros k e Hk. rewrite (plan_members plan) in Hk. destruct (ms !! k) as [m|] eqn:Em; [|done]. injection Hk as <-. split; [done|].
    destruct (Forall2_lookup_l _ _ _ _ _ Hall Em) as (b & Hb' & Hh). exists b, (mm_before m). split; [done|]. by apply holding_blob.
Qed.

Definition inventory (j o : nat) (blobs : list nat) : FenceInventory := {| fi_journal := j; fi_originals := o; fi_blobs := blobs |}.

Lemma reads_our_fence (i : nat) (owner : Attr) :
  reads (validate_fence_inventory i owner J false) (fun fs => calm ∧ owner_is owner ∧ full_view fs i (entries fs i))
        (fun fs inv => ∀ j o blobs, holds fs i j o blobs → inv = inventory j o blobs).
Proof.
  eapply reads_weaken; [apply reads_fence_inventory| |].
  - intros fs (Hc & Ho & H). destruct (full_holds _ _ H) as (j & o & blobs & Hh). exists j, o, blobs. by apply holds_complete.
  - cbn. intros fs inv H j o blobs Hh. pose proof (holds_length _ _ _ _ _ Hh) as [Hl Hb]. apply H; [apply Hh..| |done]. by rewrite (plan_length plan).
Qed.

(** The original of one member. *)
Lemma reads_our_blob (i : nat) (owner : Attr) (p : nat * JournalMember) : p ∈ imap pair (jn_members J) →
  reads (validate_original_blob i owner p.1 p.2) (fun fs => calm ∧ owner_is owner ∧ full_view fs i (entries fs i))
        (fun fs bytes => full_view fs i (entries fs i) → ∀ m, ms !! p.1 = Some m → bytes = mm_before m).
Proof.
  intros Hp%imap_pair_elem. pose proof Hp as Hp'. rewrite (plan_members plan) in Hp'. destruct (ms !! p.1) as [m|] eqn:Em; [|done]. injection Hp' as Hp'.
  eapply reads_weaken; [apply reads_blob| |].
  - intros fs (Hc & Ho & H). destruct (full_holds _ _ H) as (j & o & blobs & Hh). eapply complete_blob; [by apply holds_complete|done].
  - cbn. intros fs bytes (o' & b' & [Ho' _] & Hb' & (f & Hf & _ & <- & _)) H m' [= <-]. destruct (full_holds _ _ H) as (j & o & blobs & Hh). pose proof (holds_length _ _ _ _ _ Hh) as [_ Hmax].
    destruct Hh as [He _ _ Hbl Hall]. rewrite He, fence_map_originals in Ho'. injection Ho' as <-. destruct (Forall2_lookup_l _ _ _ _ _ Hall Em) as (b & Hb & (f' & Hf' & _ & Hbytes & _)).
    rewrite Hbl, (blob_map_at _ _ _ Hmax Hb) in Hb'. unfold file_at in *. by simplify_eq.
Qed.


(** ** What is left of a directory *)

Definition rest_in (fs : Fs) (i : nat) (rest : Rest) : Prop :=
  match rest with
  | Some (o, blobs) => below fs i o (blobs_part fs) ∧ entries fs o = blob_map blobs ∧ length blobs ≤ length ms ∧ Forall (good_file fs) blobs
  | None => True
  end.

Lemma rest_of (fs : Fs) (i : nat) (ro : option nat) : (∀ o, ro = Some o → below fs i o (blobs_part fs)) → ∃ rest, rest_map rest = rest_map (just <$> ro) ∧ rest_in fs i rest.
Proof.
  intros H. destruct ro as [o|]; [|by exists None]. pose proof (H o eq_refl) as [Hlt Hd]. pose proof Hd as Hd'. apply dir_now in Hd' as (blobs & Hb & Hl & Hg).
  exists (Some (o, blobs)). split; [done|]. by split.
Qed.

Lemma rest_in_content (fs : Fs) (i n : nat) (rest : Rest) : rest_in fs i rest → length ms ≤ n → rest_content fs n rest.
Proof. destruct rest as [[o blobs]|]; [|done]. cbn. intros (_ & He & Hl & _) Hn. split; [done|lia]. Qed.

Lemma rest_in_safe (fs : Fs) (i : nat) (rest : Rest) (owner : Attr) : calm → owner_is owner → rest_in fs i rest → rest_safe fs owner rest.
Proof.
  destruct rest as [[o blobs]|]; [|done]. cbn. intros Hc Ho (Hb & _ & _ & Hg). split; [by eapply below_dir|]. eapply Forall_impl; [exact Hg|]. intros b (f & Hf & Hok).
  exists (NFile f). split; [done|]. rewrite (owner_file owner) by done. by apply Hok.
Qed.

Definition setup_now (fs : Fs) (i : nat) (stage : option nat) (rest : Rest) : Prop :=
  entries fs i = setup_map stage rest ∧ (∀ s, stage = Some s → stage_file fs s) ∧ rest_in fs i rest.

Definition part_now (fs : Fs) (i j : nat) (rest : Rest) : Prop := entries fs i = remains j rest ∧ holding fs jbytes j ∧ rest_in fs i rest.

Lemma setup_now_of (fs : Fs) (i : nat) : setup_view fs i (entries fs i) → ∃ stage rest, setup_now fs i stage rest.
Proof.
  intros (stage & ro & He & Hs & Ho). destruct (rest_of _ _ _ Ho) as (rest & Hm & Hr). exists stage, rest. split; [|done]. rewrite He. unfold setup_map. by rewrite Hm.
Qed.

Lemma part_now_of (fs : Fs) (i : nat) : part_view fs i (entries fs i) → entries fs i = ∅ ∨ ∃ j rest, part_now fs i j rest.
Proof.
  intros [H|(j & ro & He & Hj & Ho)]; [by left|right]. destruct (rest_of _ _ _ Ho) as (rest & Hm & Hr). exists j, rest. split; [|done]. rewrite He. unfold remains. by rewrite Hm.
Qed.

Lemma part_journal (fs : Fs) (i j : nat) (rest : Rest) : part_now fs i j rest → journal_in fs i.
Proof. intros (He & Hj & _). exists j. split; [|done]. rewrite He. apply remains_journal. Qed.

Lemma reads_our_setup (i : nat) (owner : Attr) :
  reads (validate_setup_inventory i owner) (fun fs => calm ∧ owner_is owner ∧ ∃ stage rest, setup_now fs i stage rest)
        (fun fs inv => ∀ stage rest, setup_now fs i stage rest → inv = setup_inventory_of stage rest).
Proof.
  eapply reads_weaken; [apply reads_setup_inventory| |].
  - intros fs (Hc & Ho & stage & rest & He & Hs & Hr). exists stage, rest. split; [done|]. split; [|split; [by eapply rest_in_content, (plan_bound plan)|by eapply rest_in_safe]].
    intros s Heq. destruct (Hs s Heq) as (f & Hf & Hok & Hl). exists (NFile f). split; [done|]. rewrite (owner_file owner) by done. split; [by apply Hok|done].
  - cbn. intros fs inv H stage rest (He & _ & Hr). apply H; [done|]. by eapply rest_in_content, (plan_bound plan).
Qed.

Lemma reads_our_cleanup (i : nat) (owner : Attr) :
  reads (validate_cleanup_inventory i owner J) (fun fs => calm ∧ owner_is owner ∧ ∃ j rest, part_now fs i j rest)
        (fun fs inv => ∀ j rest, part_now fs i j rest → inv = inventory_of (length ms) j rest).
Proof.
  eapply reads_weaken; [apply reads_cleanup_inventory| |].
  - intros fs (Hc & Ho & j & rest & He & Hj & Hr). rewrite (plan_length plan). split; [apply (plan_bound plan)|]. exists j, rest. split; [done|].
    split; [by eapply holding_safe|]. split; [by eapply rest_in_content|by eapply rest_in_safe].
  - cbn. intros fs inv H j rest (He & _ & Hr). rewrite (plan_length plan) in H. apply H; [apply (plan_bound plan)|done|]. by eapply rest_in_content.
Qed.

(** The directory of a transaction. *)
Lemma reads_our_dir (i : nat) (owner : Attr) (P : gmap str nat → Prop) :
  reads (validate_owned_directory i owner 448) (fun fs => calm ∧ owner_is owner ∧ dir_all fs i P) (fun _ _ => True).
Proof.
  eapply reads_weaken; [apply reads_validate_dir| |done]. intros fs (Hc & Ho & a & d & Hd & Hok & _). exists (NDir a d). split; [done|]. cbn.
  rewrite (owner_owned owner) by done. by apply Hok.
Qed.


End Facts.
