(* ===== verification/MigrationRemoval.v ===== *)
(** * Removing the directory of a transaction

    The undo of a migration that did not happen, or of one that is kept, is
    removed entry by entry; so is a fence without a journal.  Wherever that stops,
    the disk is safe. *)

From S2P Require Import Prelude RustStr Ast Membership DiskTree MigrationJournal MigrationTxn DiskLogic MigrationReads MigrationPlan MigrationState MigrationSteps MigrationFacts.

#[local] Opaque original_blob_file_name.

Section Removal.

Context {sha : Sha2Crate} {json : JsonCrate} {tx : Migration} {tr : Owners}.

#[local] Abbreviation g := tx_guard.
#[local] Abbreviation ms := tx_members.
#[local] Abbreviation ow := tx_owner.
#[local] Abbreviation J := tx_journal.
#[local] Abbreviation jbytes := tx_bytes.
#[local] Abbreviation cl := (cl_of tx_bytes).
#[local] Abbreviation fin := (fin_of tx_bytes).

Context (plan : planned g ms ow J jbytes) (c : Prop).

(** ** Checked removal *)

Section Checked.

Context (d : nat) (name : str) (held : nat) (P P1 Q : Fs → Prop).
Context (HP : ∀ fs, P fs → Safe fs) (HP1 : ∀ fs, P1 fs → Safe fs) (Hsync : ∀ fs, P1 fs → Q (sync_at d fs)).

Lemma triple_current : (∀ fs, P fs → c → entries fs d !! name = Some held) →
  triple c Safe P (ensure_current_inode d name held) Safe (fun _ fs => P fs ∧ entries fs d !! name = Some held).
Proof. intros H. by apply (triple_reads _ _ _ _ _ _ _ (reads_current d name held)). Qed.

Lemma triple_checked_unlink :
  (∀ fs, P fs → c → entries fs d !! name = Some held ∧ ¬ dir_at fs held) →
  (∀ fs, P fs → entries fs d !! name = Some held → P1 (push_update d [(name, None)] fs)) →
  triple c Safe P (checked_unlink d name held) Safe (fun _ => Q).
Proof.
  intros HC Hpush. unfold checked_unlink. eapply triple_bind; [apply triple_current; intros fs H Hc; by apply HC|]. intros [].
  eapply triple_bind; [eapply triple_pre; [apply triple_current; intros fs H Hc; by apply HC|]; by intros fs [H _]|]. intros [].
  eapply triple_bind; [eapply triple_unlink with (Q := P1); [naive_solver|naive_solver| |]|].
  - intros fs [H He] Hc. exists held. split; [done|]. by apply HC.
  - intros fs i [H He] _. by apply Hpush.
  - intros []. by apply triple_sync_dir.
Qed.

Lemma triple_checked_rmdir :
  (∀ fs, P fs → c → entries fs d !! name = Some held ∧ dir_at fs held ∧ entries fs held = ∅) →
  (∀ fs, P fs → entries fs d !! name = Some held → entries fs held = ∅ → P1 (push_update d [(name, None)] fs)) →
  triple c Safe P (checked_rmdir d name held) Safe (fun _ => Q).
Proof.
  intros HC Hpush. unfold checked_rmdir. eapply triple_bind; [apply triple_current; intros fs H Hc; by apply HC|]. intros [].
  eapply triple_bind; [eapply triple_rmdir with (Q := P1); [naive_solver|naive_solver| |]|].
  - intros fs [H He] Hc. exists held. split; [done|]. by apply HC.
  - intros fs i [H He] Hi _ Hem. simplify_eq. by apply Hpush.
  - intros []. by apply triple_sync_dir.
Qed.

End Checked.

(** ** One entry less *)

Lemma touch_setup_view (fs fs' : Fs) (i o : nat) (V : gmap str nat) : keeps true (Some o) fs fs' → dir_all fs' o (blobs_part fs') → setup_view fs i V → setup_view fs' i V.
Proof.
  intros K Hd (st & ro & -> & Hst & Ho). exists st, ro. split; [done|]. split; [intros s Hs; apply (keeps_stage K); [done|by apply Hst]|]. intros o' He.
  destruct (Ho o' He) as [Hlt Hd']. split; [done|]. destruct (decide (o' = o)) as [->|Hne]; [done|]. eapply (keeps_dir_all K); [congruence|exact Hd'|]. apply (keeps_blobs_part K).
Qed.

Lemma touch_part_view (fs fs' : Fs) (i o : nat) (V : gmap str nat) : keeps true (Some o) fs fs' → dir_all fs' o (blobs_part fs') → part_view fs i V → part_view fs' i V.
Proof.
  intros K Hd [->|(j & ro & -> & Hj & Ho)]; [by left|right]. exists j, ro. split; [done|]. split; [by apply (keeps_holding K)|]. intros o' He.
  destruct (Ho o' He) as [Hlt Hd']. split; [done|]. destruct (decide (o' = o)) as [->|Hne]; [done|]. eapply (keeps_dir_all K); [congruence|exact Hd'|]. apply (keeps_blobs_part K).
Qed.

(** The change of the directory itself. *)
Lemma self_setup_view (fs fs' : Fs) (i : nat) (V : gmap str nat) : keeps true (Some i) fs fs' → setup_view fs i V → setup_view fs' i V.
Proof.
  intros K H. apply (keeps_setup_view K); [done| |done]. intros o Ho [= ->]. destruct (view_originals fs o V o (or_introl H) Ho). lia.
Qed.

Lemma self_part_view (fs fs' : Fs) (i : nat) (V : gmap str nat) : keeps true (Some i) fs fs' → part_view fs i V → part_view fs' i V.
Proof.
  intros K H. apply (keeps_part_view K); [|done]. intros o Ho [= ->]. destruct (view_originals fs o V o (or_intror H) Ho). lia.
Qed.

(** A blob less: the directory of the originals. *)
Lemma originals_less (fs : Fs) (o : nat) (bs : list nat) (b : nat) :
  dir_all fs o (blobs_part fs) → entries fs o = blob_map (bs ++ [b]) → length (bs ++ [b]) ≤ length ms → Forall (good_file fs) (bs ++ [b]) →
  let fs' := push_update o [(original_blob_file_name (length bs), None)] fs in
  keeps true (Some o) fs fs' ∧ dir_all fs' o (blobs_part fs') ∧ entries fs' o = blob_map bs ∧ Forall (good_file fs') bs.
Proof.
  intros Hd He Hl Hg fs'. pose proof (plan_bound plan) as Hmax. rewrite length_app in Hl. cbn in Hl.
  assert (keeps true (Some o) fs fs') as K by (by eapply keeps_push, dir_all_dir). apply Forall_app in Hg as [Hg _].
  assert (Forall (good_file fs') bs) as Hg' by (eapply Forall_impl; [exact Hg|]; intros x; apply (keeps_good K)).
  assert (apply_update (entries fs o) [(original_blob_file_name (length bs), None)] = blob_map bs) as Hu by (rewrite He; apply blob_map_delete; lia).
  split; [done|]. split; [|split; [|done]].
  - eapply dir_push; [exact Hd|intros V; apply (keeps_blobs_part K)|]. rewrite Hu. exists bs. split; [done|]. split; [lia|done].
  - unfold fs'. rewrite entries_push by (by eapply dir_all_dir). done.
Qed.

(** The originals gone. *)
Lemma rest_map_delete rest : delete ORIGINALS_DIR_NAME (rest_map rest) = ∅.
Proof. destruct rest as [[o bs]|]; unfold rest_map; [apply delete_singleton_eq|apply delete_empty]. Qed.

Lemma remains_delete j rest : delete ORIGINALS_DIR_NAME (remains j rest) = remains j None.
Proof. unfold remains. rewrite delete_insert_ne by done. by rewrite rest_map_delete. Qed.

Lemma remains_done j : delete JOURNAL_NAME (remains j None) = ∅.
Proof. unfold remains. apply delete_insert_id. apply lookup_empty. Qed.

Lemma setup_delete stage rest : delete ORIGINALS_DIR_NAME (setup_map stage rest) = setup_map stage None.
Proof. unfold setup_map. destruct stage; [rewrite delete_insert_ne by done|]; by rewrite rest_map_delete. Qed.

Lemma setup_delete_stage s rest : delete JOURNAL_STAGE_NAME (setup_map (Some s) rest) = setup_map None rest.
Proof. unfold setup_map. apply delete_insert_id. destruct rest as [[o bs]|]; unfold rest_map; [by apply lookup_singleton_ne|apply lookup_empty]. Qed.

(** ** The undo of a decided migration *)

(** Undone under one name, kept under the other. *)
Definition decided (name : str) (k : MigrationMember → str → Prop) : Prop := name = cl ∧ k = is_old ∨ name = fin ∧ k = is_new.

Definition removing (name : str) (k : MigrationMember → str → Prop) (i : nat) (fs : Fs) : Prop :=
  fresh_ok fs ∧ live fs k ∧ at_root fs name i ∧ loose fs i.

(** Nothing of the transaction is left, on disk as well. *)
Definition clean (k : MigrationMember → str → Prop) (fs : Fs) : Prop := fresh_ok fs ∧ live fs k ∧ root_all fs (fun V => V = ∅).

Lemma decided_safe (name : str) (k : MigrationMember → str → Prop) (fs : Fs) : decided name k → fresh_ok fs → live fs k →
  root_all fs (fun V => V = ∅ ∨ ∃ i, V = {[name := i]} ∧ loose fs i) → Safe fs.
Proof.
  intros Hn Hf Hl Hr. split; [done|]. destruct Hn as [[-> ->]|[-> ->]].
  - left. split; [done|]. split; [eapply root_all_impl; [exact Hr|]; intros V [->|H]; [by left|by right; right]|].
    intros i Hi. apply root_now in Hr. destruct (names_apart jbytes) as (Hne & _ & _). destruct Hr as [Hr|(i' & Hr & _)]; rewrite Hr in Hi; [done|].
    by rewrite lookup_singleton_ne in Hi.
  - right. right. split; [done|]. eapply root_all_impl; [exact Hr|]. intros V [->|H]; [by left|by do 3 right].
Qed.

Lemma removing_safe (name : str) (k : MigrationMember → str → Prop) (i : nat) (fs : Fs) : decided name k → removing name k i fs → Safe fs.
Proof. intros Hn (Hf & Hl & Hr & Hi). eapply decided_safe; [done..|]. eapply root_all_impl; [exact Hr|]. intros V ->. right. eauto. Qed.

Lemma clean_safe (k : MigrationMember → str → Prop) (fs : Fs) : k = is_old ∨ k = is_new → clean k fs → Safe fs.
Proof.
  intros Hk (Hf & Hl & Hr). destruct Hk as [-> | ->]; [apply (decided_safe cl is_old)|apply (decided_safe fin is_new)]; try done; [by left|..|by right|];
    (eapply root_all_impl; [exact Hr|]; by left).
Qed.

Section Undo.

Context (name : str) (k : MigrationMember → str → Prop) (i : nat) (Hname : decided name k).

Lemma removing_sync (d : nat) (fs : Fs) : removing name k i fs → removing name k i (sync_at d fs).
Proof.
  intros (Hf & Hl & Hr & Hi). pose proof (keeps_sync true fs d) as K. split; [by apply sync_fresh|]. split; [eapply keeps_live; [done|apply sync_live|done]|].
  split; [by eapply keeps_root_all|]. apply (keeps_loose_root K); [by left|done].
Qed.

Lemma rest_in_sync (d i' : nat) (rest : Rest) (fs : Fs) : rest_in fs i' rest → rest_in (sync_at d fs) i' rest.
Proof.
  pose proof (keeps_sync true fs d) as K. destruct rest as [[o blobs]|]; [|done]. cbn. intros (Hb & He & Hl & Hg). rewrite entries_sync.
  split; [eapply (keeps_below K); [done|exact Hb|apply (keeps_blobs_part K)]|]. split; [done|]. split; [done|]. eapply Forall_impl; [exact Hg|]. intros x. apply (keeps_good K).
Qed.

Lemma part_sync (d i' j : nat) (rest : Rest) (fs : Fs) : part_now fs i' j rest → part_now (sync_at d fs) i' j rest.
Proof.
  intros (He & Hj & Hr). split; [by rewrite entries_sync|]. split; [apply (keeps_holding (keeps_sync true fs d)), Hj|by apply rest_in_sync].
Qed.

(** A change in the directory, or in that of the originals. *)
Lemma removing_push (d : nat) (u : Update) (fs : Fs) : d ≠ ROOT → removing name k i fs → dir_at fs d → loose (push_update d u fs) i → removing name k i (push_update d u fs).
Proof.
  intros Hd (Hf & Hl & Hr & Hi) Hdir Hi'. pose proof (keeps_push true fs d u Hdir) as K. split; [by apply push_fresh|].
  split; [eapply keeps_live; [done|apply push_live|done]|]. split; [|done]. eapply root_ne; [|exact Hr]. by apply nodes_push_ne.
Qed.

Lemma loose_self (u : Update) (fs : Fs) : loose fs i → part_view (push_update i u fs) i (apply_update (entries fs i) u) → loose (push_update i u fs) i.
Proof.
  intros [Hr Hd] Hu. split; [done|]. pose proof (keeps_push true fs i u (dir_all_dir _ _ _ Hd)) as K. eapply dir_push; [exact Hd| |by right].
  intros V [HV|HV]; [left; by eapply self_setup_view|right; by eapply self_part_view].
Qed.

Lemma removing_blob (j o : nat) (bs : list nat) (b : nat) (fs : Fs) :
  let fs' := push_update o [(original_blob_file_name (length bs), None)] fs in
  removing name k i fs → part_now fs i j (Some (o, bs ++ [b])) → removing name k i fs' ∧ part_now fs' i j (Some (o, bs)).
Proof.
  intros fs' H (He & Hj & Hb & Heo & Hl & Hg). destruct Hb as [Hlt Hd]. destruct (originals_less fs o bs b Hd Heo Hl Hg) as (K & Hd' & Heo' & Hg').
  pose proof H as (_ & _ & _ & [Hr Hi]). split.
  - apply removing_push; [unfold ROOT in *; lia|done|by eapply dir_all_dir|]. split; [done|]. eapply (keeps_dir_all K); [intros [= ->]; lia|exact Hi|].
    intros V [HV|HV]; [left; by eapply touch_setup_view|right; by eapply touch_part_view].
  - split; [unfold fs'; rewrite entries_push_ne by lia; done|]. split; [by apply (keeps_holding K)|]. split; [done|]. split; [done|]. split; [rewrite length_app in Hl; lia|done].
Qed.

Lemma removing_originals (j o : nat) (fs : Fs) :
  let fs' := push_update i [(ORIGINALS_DIR_NAME, None)] fs in
  removing name k i fs → part_now fs i j (Some (o, [])) → removing name k i fs' ∧ part_now fs' i j None.
Proof.
  intros fs' H (He & Hj & _). pose proof H as (_ & _ & _ & Hi). pose proof Hi as [Hr Hd]. pose proof (dir_all_dir _ _ _ Hd) as Hdir.
  pose proof (keeps_push true fs i [(ORIGINALS_DIR_NAME, None)] Hdir) as K.
  assert (apply_update (entries fs i) [(ORIGINALS_DIR_NAME, None)] = remains j None) as Hu by (rewrite He; apply remains_delete). split.
  - apply removing_push; [done..|]. apply loose_self; [done|]. rewrite Hu. right. exists j, None. split; [done|]. split; [by apply (keeps_holding K)|done].
  - split; [unfold fs'; by rewrite entries_push|]. split; [by apply (keeps_holding K)|done].
Qed.

Lemma removing_journal (j : nat) (fs : Fs) :
  let fs' := push_update i [(JOURNAL_NAME, None)] fs in
  removing name k i fs → part_now fs i j None → removing name k i fs' ∧ entries fs' i = ∅.
Proof.
  intros fs' H (He & Hj & _). pose proof H as (_ & _ & _ & Hi). pose proof Hi as [Hr Hd]. pose proof (dir_all_dir _ _ _ Hd) as Hdir.
  assert (apply_update (entries fs i) [(JOURNAL_NAME, None)] = ∅) as Hu by (rewrite He; apply remains_done). split.
  - apply removing_push; [done..|]. apply loose_self; [done|]. rewrite Hu. by left.
  - unfold fs'. by rewrite entries_push.
Qed.

(** The directory itself. *)
Definition dropped (fs : Fs) : Prop := fresh_ok fs ∧ live fs k ∧ root_all fs (fun V => V = ∅ ∨ V = {[name := i]} ∧ loose fs i) ∧ entries fs ROOT = ∅.

Lemma dropped_safe fs : dropped fs → Safe fs.
Proof. intros (Hf & Hl & Hr & _). eapply decided_safe; [done..|]. eapply root_all_impl; [exact Hr|]. intros V [->|[-> Hi]]; [by left|right; eauto]. Qed.

Lemma removing_drop fs : removing name k i fs → dropped (push_update ROOT [(name, None)] fs).
Proof.
  intros (Hf & Hl & Hr & Hi). pose proof (root_dir _ _ Hr) as Hdir. pose proof (keeps_push true fs ROOT [(name, None)] Hdir) as K.
  assert (apply_update (entries fs ROOT) [(name, None)] = ∅) as Hu by (rewrite (root_now _ _ Hr); apply delete_singleton_eq).
  split; [by apply push_fresh|]. split; [eapply keeps_live; [done|apply push_live|done]|]. split; [|by rewrite entries_push].
  eapply root_push; [exact Hr| |by rewrite Hu; left]. intros V ->. right. split; [done|]. apply (keeps_loose_root K); [by right|done].
Qed.

Lemma dropped_sync fs : dropped fs → clean k (sync_at ROOT fs).
Proof.
  intros (Hf & Hl & Hr & He). pose proof (keeps_sync true fs ROOT) as K. split; [by apply sync_fresh|]. split; [eapply keeps_live; [done|apply sync_live|done]|].
  eapply root_all_impl; [by apply root_sync|]. intros V [-> _]. done.
Qed.

(** ** The programs *)

Definition left_over (j : nat) (rest : Rest) (fs : Fs) : Prop := removing name k i fs ∧ part_now fs i j rest.

Lemma left_over_safe (j : nat) (rest : Rest) (fs : Fs) : left_over j rest fs → Safe fs.
Proof. intros [H _]. by eapply removing_safe. Qed.

Lemma left_over_sync (j : nat) (rest : Rest) (d : nat) (fs : Fs) : left_over j rest fs → left_over j rest (sync_at d fs).
Proof. intros [H1 H2]. split; [by apply removing_sync|by apply part_sync]. Qed.

Lemma file_not_dir fs x f : file_at fs x f → ¬ dir_at fs x.
Proof. intros Hf (a & d & Hd). unfold file_at in Hf. congruence. Qed.

Lemma remove_blob (j o : nat) (bs : list nat) (b : nat) :
  triple c Safe (left_over j (Some (o, bs ++ [b]))) (checked_unlink o (original_blob_file_name (length bs)) b) Safe (fun _ => left_over j (Some (o, bs))).
Proof.
  pose proof (plan_bound plan) as Hmax.
  eapply (triple_checked_unlink _ _ _ _ (left_over j (Some (o, bs)))); try (intros fs; apply left_over_safe); [intros fs; apply left_over_sync| |].
  - intros fs [_ (_ & _ & _ & He & Hl & Hg)] _. rewrite length_app in Hl. cbn in Hl. split.
    + rewrite He. apply blob_map_at; [rewrite length_app; cbn; lia|]. by apply list_lookup_middle.
    + apply Forall_app in Hg as [_ Hg]. inversion Hg as [|? ? (f & Hf & _)]; subst. by eapply file_not_dir.
  - intros fs [H Hp] _. by apply removing_blob with (b := b).
Qed.

Lemma remove_originals (j o : nat) :
  triple c Safe (left_over j (Some (o, []))) (checked_rmdir i ORIGINALS_DIR_NAME o) Safe (fun _ => left_over j None).
Proof.
  eapply (triple_checked_rmdir _ _ _ _ (left_over j None)); try (intros fs; apply left_over_safe); [intros fs; apply left_over_sync| |].
  - intros fs [_ (He & _ & [_ Hd] & Heo & _)] _. split; [rewrite He; apply remains_originals|]. split; [by eapply dir_all_dir|by rewrite Heo].
  - intros fs [H Hp] _ _. by eapply removing_originals.
Qed.

Lemma remove_rest (j : nat) :
  triple c Safe (left_over j None) (checked_unlink i JOURNAL_NAME j ;; sync_dir i ;; checked_rmdir ROOT name i) Safe (fun _ => clean k).
Proof.
  set (P := fun fs => removing name k i fs ∧ entries fs i = ∅).
  assert (∀ fs, P fs → Safe fs) as HP by (intros fs [H _]; by eapply removing_safe).
  assert (∀ d fs, P fs → P (sync_at d fs)) as HS by (intros d fs [H He]; split; [by apply removing_sync|by rewrite entries_sync]).
  eapply triple_bind; [eapply (triple_checked_unlink _ _ _ _ P P); [intros fs; apply left_over_safe|done|auto| |]|].
  - intros fs [_ (He & (f & Hf & _) & _)] _. split; [rewrite He; apply remains_journal|by eapply file_not_dir].
  - intros fs [H Hp] _. by eapply removing_journal.
  - intros []. eapply triple_bind; [by apply (triple_sync_dir _ _ _ _ P P); auto|]. intros [].
    eapply (triple_checked_rmdir _ _ _ _ dropped); [done|apply dropped_safe|apply dropped_sync| |].
    + intros fs [(_ & _ & Hr & [_ Hd]) He] _. split; [rewrite (root_now _ _ Hr); apply lookup_singleton_eq|]. split; [by eapply dir_all_dir|done].
    + intros fs [H _] _ _. by apply removing_drop.
Qed.

(** The blobs that are there, the last one first. *)
Lemma remove_blobs {A} (j o n : nat) (blobs : list nat) (l : list A) (f : A → M unit) : length l = n → length blobs ≤ n →
  (∀ x idx, l !! idx = Some x → match blobs !! idx with Some b => f x = checked_unlink o (original_blob_file_name idx) b | None => f x = mret tt end) →
  triple c Safe (left_over j (Some (o, blobs))) (for_each (reverse l) f) Safe (fun _ => left_over j (Some (o, []))).
Proof.
  intros Hl Hn Hf. set (P := fun k' => left_over j (Some (o, take (n - k') blobs))).
  eapply (triple_conseq _ _ _ _ (P 0) _ _ (fun _ => P (length (reverse l)))); [apply triple_for_each| |].
  - intros k' x Hk. assert (k' < n) as Hlt by (rewrite <- Hl, <- (length_reverse l); by eapply lookup_lt_Some). rewrite reverse_lookup, Hl in Hk by lia.
    unfold P. replace (n - S k') with (pred (n - k')) by lia. set (idx := n - S k') in *. replace (n - k') with (S idx) by (unfold idx; lia). cbn [pred].
    specialize (Hf x idx Hk). destruct (blobs !! idx) as [b|] eqn:Eb; rewrite Hf.
    + rewrite (take_S_r _ _ _ Eb). pose proof (remove_blob j o (take idx blobs) b) as Hr. rewrite length_take_le in Hr; [exact Hr|]. apply lookup_lt_Some in Eb. lia.
    + apply lookup_ge_None in Eb. rewrite !take_ge by lia. by apply triple_done.
  - intros fs H. unfold P. by rewrite take_ge by lia.
  - intros u fs H. unfold P in H. rewrite length_reverse, Hl, Nat.sub_diag in H. done.
Qed.

Lemma remove_validated (j o : nat) (blobs : list nat) :
  triple c Safe (left_over j (Some (o, blobs))) (remove_validated_fence i name (inventory j o blobs)) Safe (fun _ => clean k).
Proof.
  unfold remove_validated_fence, inventory. cbn. eapply triple_bind.
  - eapply (remove_blobs j o (length blobs) blobs); [by rewrite length_imap|done|]. intros x idx Hx. rewrite list_lookup_imap in Hx.
    destruct (blobs !! idx) as [b|]; [|done]. cbn in Hx. injection Hx as <-. done.
  - intros []. eapply triple_bind; [apply remove_originals|]. intros []. apply remove_rest.
Qed.

Lemma remove_cleanup (j : nat) (rest : Rest) :
  triple c Safe (left_over j rest) (remove_cleanup_inventory i name (inventory_of (length ms) j rest)) Safe (fun _ => clean k).
Proof.
  unfold remove_cleanup_inventory, inventory_of. cbn [ci_originals ci_blobs ci_journal]. eapply (triple_bind _ _ _ _ _ _ (fun _ => left_over j None)); [|intros []; apply remove_rest].
  destruct rest as [[o blobs]|]; cbn [fmap option_fmap option_map fst]; [|by apply triple_done].
  eapply (triple_bind _ _ _ _ _ _ (fun _ => left_over j (Some (o, [])))); [|intros []; apply remove_originals].
  eapply (triple_pre _ _ _ _ (fun fs => length blobs ≤ length ms ∧ left_over j (Some (o, blobs)) fs)); [|by intros fs [H Hp]; pose proof Hp as (_ & _ & _ & _ & ? & _)].
  apply triple_fact. intros Hl. eapply (remove_blobs j o (length ms) blobs); [|done|].
  - rewrite length_imap, length_app, length_map, length_replicate. lia.
  - intros x idx Hx. rewrite list_lookup_imap in Hx. destruct (blobs !! idx) as [b|] eqn:Eb.
    + rewrite lookup_app_l in Hx by (rewrite length_map; by eapply lookup_lt_Some). rewrite list_lookup_fmap, Eb in Hx. cbn in Hx. injection Hx as <-. done.
    + apply lookup_ge_None in Eb. rewrite lookup_app_r in Hx by (rewrite length_map; lia). destruct (replicate _ _ !! _) as [y|] eqn:Ey; [|done]. apply lookup_replicate in Ey as [-> _].
      cbn in Hx. injection Hx as <-. done.
Qed.


End Undo.

(** ** The last entry of the root *)

Definition rootless (fs : Fs) : Prop := fresh_ok fs ∧ Old fs ∧ entries fs ROOT = ∅.

Lemma rootless_safe fs : rootless fs → Safe fs.
Proof. intros (Hf & Ho & _). split; [done|by left]. Qed.

Lemma old_drop (fs : Fs) (name : str) : fresh_ok fs → Old fs → delete name (entries fs ROOT) = ∅ → rootless (push_update ROOT [(name, None)] fs).
Proof.
  intros Hf (Hl & Hr & _) Hu. pose proof (root_dir _ _ Hr) as Hdir. pose proof (keeps_push true fs ROOT [(name, None)] Hdir) as K.
  assert (entries (push_update ROOT [(name, None)] fs) ROOT = ∅) as He by (by rewrite entries_push). split; [by apply push_fresh|]. split; [|done].
  split; [eapply keeps_live; [done|apply push_live|done]|]. split; [|intros i Hi; by rewrite He in Hi].
  eapply root_push; [exact Hr|intros V; apply (keeps_old_root K); by right|]. change (old_root (push_update ROOT [(name, None)] fs) (delete name (entries fs ROOT))). rewrite Hu. by left.
Qed.

Lemma rootless_sync fs : rootless fs → clean is_old (sync_at ROOT fs).
Proof.
  intros (Hf & (Hl & Hr & _) & He). pose proof (keeps_sync true fs ROOT) as K. split; [by apply sync_fresh|]. split; [eapply keeps_live; [done|apply sync_live|done]|].
  eapply root_all_impl; [by apply root_sync|]. intros V [-> _]. done.
Qed.

Lemma clean_sync (k : MigrationMember → str → Prop) (d : nat) (fs : Fs) : clean k fs → clean k (sync_at d fs).
Proof.
  intros (Hf & Hl & Hr). pose proof (keeps_sync true fs d) as K. split; [by apply sync_fresh|]. split; [eapply keeps_live; [done|apply sync_live|done]|].
  by eapply keeps_root_all.
Qed.

(** An empty directory goes. *)
Lemma triple_remove_empty (name : str) (i : nat) (k : MigrationMember → str → Prop) (P P1 : Fs → Prop) : k = is_old ∨ k = is_new →
  (∀ fs, P fs → Safe fs) → (∀ fs, P1 fs → Safe fs) → (∀ fs, P1 fs → clean k (sync_at ROOT fs)) →
  (∀ fs, P fs → c → entries fs ROOT !! name = Some i ∧ dir_at fs i ∧ entries fs i = ∅) →
  (∀ fs, P fs → entries fs ROOT !! name = Some i → entries fs i = ∅ → P1 (push_update ROOT [(name, None)] fs)) →
  triple c Safe P (remove_empty i name) Safe (fun _ => clean k).
Proof.
  intros Hk HP HP1 HQ HC Hpush. unfold remove_empty.
  eapply triple_bind; [by apply (triple_reads _ _ _ _ _ _ _ (reads_visit i))|]. intros names.
  eapply triple_bind; [apply triple_ensure; [naive_solver|]|].
  { intros fs [H ->] Hc. destruct (HC fs H Hc) as (_ & _ & ->). apply bool_decide_eq_true_2. by rewrite map_to_list_empty. }
  intros []. eapply triple_bind; [eapply (triple_checked_rmdir _ _ _ _ P1 (clean k)); [naive_solver|done|done| |]|].
  - intros fs [[H _] _] Hc. by apply HC.
  - intros fs [[H _] _] He Hem. by apply Hpush.
  - intros []. apply triple_sync_dir; [intros fs; by apply clean_safe|intros fs; by apply clean_safe|]. intros fs. apply clean_sync.
Qed.

(** ** A fence without a journal *)

Definition bare (fs : Fs) (i : nat) : Prop := i ≠ ROOT ∧ dir_all fs i (setup_view fs i).

Definition fencing (i : nat) (fs : Fs) : Prop := fresh_ok fs ∧ Old fs ∧ entries fs ROOT = {[TXN_DIR_NAME := i]} ∧ bare fs i.

Lemma fencing_safe (i : nat) (fs : Fs) : fencing i fs → Safe fs.
Proof. intros (Hf & Ho & _). split; [done|by left]. Qed.

Lemma bare_setup (fs : Fs) (i : nat) : bare fs i → setup fs i.
Proof. intros [Hr (a & d & Hi & Ho & H)]. split; [done|]. exists a, d. split; [done|]. split; [done|]. by left. Qed.

Lemma older_untouched (fs : Fs) (b i x : nat) : older fs b i → b ≤ x → untouched (Some x) fs i.
Proof.
  intros [Hlt (a & d & Hi & H)] Hx. split; [intros [= ->]; lia|]. intros a' d' V o Hi' HV Ho [= ->]. simplify_eq. specialize (H V o HV Ho). lia.
Qed.

(** A change in the fence or in a later directory. *)
Lemma fencing_change (i x : nat) (fs fs' : Fs) : i ≤ x → keeps true (Some x) fs fs' → fs_live fs' = fs_live fs → fresh_ok fs' →
  fs_nodes fs' !! ROOT = fs_nodes fs !! ROOT → fencing i fs → bare fs' i → fencing i fs'.
Proof.
  intros Hx K Hlive Hf' Hroot (Hf & (Hl & Hr & Hn) & He & Hb) Hb'.
  assert (entries fs' ROOT = entries fs ROOT) as He' by (unfold entries; by rewrite Hroot). split; [done|]. rewrite He'. split; [|by split].
  specialize (Hn i ltac:(rewrite He; apply lookup_singleton_eq)). destruct Hr as (a & d & Hd & Hr). destruct Hn as (a' & d' & Hd' & Hn). simplify_eq.
  split; [by eapply keeps_live|]. split.
  - exists a, d. split; [congruence|]. intros V HV. destruct (Hn V HV) as [->|Hold]; [right; left; eauto using bare_setup|].
    destruct (Hr V HV) as [->|[(i' & -> & Hi')|(i' & -> & Hi')]]; [by left|right; left|right; right]; exists i'; (split; [done|]);
      specialize (Hold _ i' (lookup_singleton_eq _ _)); [apply (keeps_setup K)|apply (keeps_loose K)]; try done; by eapply older_untouched.
  - intros i'' Hi''. rewrite He', He, lookup_singleton_eq in Hi''. injection Hi'' as <-. exists a, d. split; [congruence|]. intros V HV.
    destruct (Hn V HV) as [->|Hold]; [by left|right]. intros k i' Hk. specialize (Hold k i' Hk). eapply keeps_older; [done| |done]. intros [= ->]. destruct Hold. lia.
Qed.

Lemma fencing_sync (i d : nat) (fs : Fs) : fencing i fs → fencing i (sync_at d fs).
Proof.
  intros (Hf & (Hl & Hr & Hn) & He & Hb). pose proof (keeps_sync true fs d) as K. split; [by apply sync_fresh|]. rewrite entries_sync. split; [|split; [done|]].
  - split; [eapply keeps_live; [done|apply sync_live|done]|]. split; [|by apply (keeps_newest fs)]. eapply keeps_root_all; [done|done|exact Hr|]. apply (keeps_old_root K). by left.
  - destruct Hb as [H0 Hd]. split; [done|]. eapply (keeps_dir_all K); [done|exact Hd|]. intros V. by apply (keeps_setup_view K).
Qed.

Lemma fencing_self (i : nat) (u : Update) (fs : Fs) : fencing i fs → setup_view (push_update i u fs) i (apply_update (entries fs i) u) → fencing i (push_update i u fs).
Proof.
  intros H Hu. pose proof H as (Hf & _ & _ & [Hr Hd]). pose proof (keeps_push true fs i u (dir_all_dir _ _ _ Hd)) as K.
  eapply (fencing_change i i fs); [done|done|apply push_live|by apply push_fresh|by apply nodes_push_ne|done|]. split; [done|].
  eapply dir_push; [exact Hd| |done]. intros V. by apply self_setup_view.
Qed.

Lemma fencing_blob (i o : nat) (stage : option nat) (bs : list nat) (b : nat) (fs : Fs) :
  let fs' := push_update o [(original_blob_file_name (length bs), None)] fs in
  fencing i fs → setup_now fs i stage (Some (o, bs ++ [b])) → fencing i fs' ∧ setup_now fs' i stage (Some (o, bs)).
Proof.
  intros fs' H (He & Hs & Hb & Heo & Hl & Hg). destruct Hb as [Hlt Hd]. destruct (originals_less fs o bs b Hd Heo Hl Hg) as (K & Hd' & Heo' & Hg').
  pose proof H as (Hf & _ & _ & [Hr Hi]). split.
  - eapply (fencing_change i o fs); [lia|done|apply push_live|by apply push_fresh|apply nodes_push_ne; unfold ROOT in *; lia|done|]. split; [done|].
    eapply (keeps_dir_all K); [intros [= ->]; lia|exact Hi|]. intros V. by apply touch_setup_view with (o := o).
  - split; [unfold fs'; rewrite entries_push_ne by lia; done|]. split; [intros s Hst; by apply (keeps_stage K), Hs|]. split; [done|]. split; [done|].
    split; [rewrite length_app in Hl; lia|done].
Qed.

Section Setup.

Context (i : nat).

Definition set_up (stage : option nat) (rest : Rest) (fs : Fs) : Prop := fencing i fs ∧ setup_now fs i stage rest.

Lemma set_up_safe (stage : option nat) (rest : Rest) (fs : Fs) : set_up stage rest fs → Safe fs.
Proof. intros [H _]. by eapply fencing_safe. Qed.

Lemma set_up_sync (stage : option nat) (rest : Rest) (d : nat) (fs : Fs) : set_up stage rest fs → set_up stage rest (sync_at d fs).
Proof.
  intros [H (He & Hs & Hr)]. pose proof (keeps_sync true fs d) as K. split; [by apply fencing_sync|]. split; [by rewrite entries_sync|].
  split; [intros s Hst; by apply (keeps_stage K), Hs|by apply rest_in_sync].
Qed.

(** A change of the fence that leaves the originals. *)
Lemma set_up_self (stage stage' : option nat) (rest rest' : Rest) (u : Update) (fs : Fs) : set_up stage rest fs →
  apply_update (entries fs i) u = setup_map stage' rest' → (∀ s, stage' = Some s → stage_file fs s) → rest' = rest ∨ rest' = None →
  set_up stage' rest' (push_update i u fs).
Proof.
  intros [H (He & Hs & Hr)] Hu Hs' Hrest. pose proof H as (_ & _ & _ & [_ Hd]). pose proof (dir_all_dir _ _ _ Hd) as Hdir. pose proof (keeps_push true fs i u Hdir) as K.
  assert (rest_in (push_update i u fs) i rest') as Hin.
  { destruct Hrest as [-> | ->]; [|done]. destruct rest as [[o blobs]|]; [|done]. destruct Hr as (Hb & Heo & Hl & Hg). split; [|split; [|split; [done|]]].
    - eapply (keeps_below K); [destruct Hb; intros [= ->]; lia|exact Hb|apply (keeps_blobs_part K)].
    - rewrite entries_push_ne; [done|]. destruct Hb. lia.
    - eapply Forall_impl; [exact Hg|]. intros x. apply (keeps_good K). }
  assert (∀ s, stage' = Some s → stage_file (push_update i u fs) s) as Hst by (intros s Heq; by apply (keeps_stage K), Hs').
  split; [|split; [by rewrite entries_push|by split]]. apply fencing_self; [done|]. rewrite Hu. exists stage', (fst <$> rest'). split; [by destruct stage', rest' as [[? ?]|]|].
  split; [done|]. intros o Ho. destruct rest' as [[o' bs]|]; [|done]. injection Ho as <-. apply Hin.
Qed.

Lemma remove_stage (s : nat) (rest : Rest) :
  triple c Safe (set_up (Some s) rest) (checked_unlink i JOURNAL_STAGE_NAME s) Safe (fun _ => set_up None rest).
Proof.
  eapply (triple_checked_unlink _ _ _ _ (set_up None rest)); try (intros fs; apply set_up_safe); [intros fs; apply set_up_sync| |].
  - intros fs [_ (He & Hs & _)] _. split; [rewrite He; apply setup_map_stage|]. destruct (Hs s eq_refl) as (f & Hf & _). by eapply file_not_dir.
  - intros fs H _. eapply set_up_self; [exact H| |done|by left]. destruct H as [_ [He _]]. rewrite He. apply setup_delete_stage.
Qed.

Lemma remove_setup_blob (o : nat) (bs : list nat) (b : nat) :
  triple c Safe (set_up None (Some (o, bs ++ [b]))) (checked_unlink o (original_blob_file_name (length bs)) b) Safe (fun _ => set_up None (Some (o, bs))).
Proof.
  pose proof (plan_bound plan) as Hmax.
  eapply (triple_checked_unlink _ _ _ _ (set_up None (Some (o, bs)))); try (intros fs; apply set_up_safe); [intros fs; apply set_up_sync| |].
  - intros fs [_ (_ & _ & _ & He & Hl & Hg)] _. rewrite length_app in Hl. cbn in Hl. split.
    + rewrite He. apply blob_map_at; [rewrite length_app; cbn; lia|]. by apply list_lookup_middle.
    + apply Forall_app in Hg as [_ Hg]. inversion Hg as [|? ? (f & Hf & _)]; subst. by eapply file_not_dir.
  - intros fs [H Hp] _. by apply fencing_blob with (b := b).
Qed.

Lemma remove_setup_blobs (o : nat) (blobs : list nat) :
  triple c Safe (set_up None (Some (o, blobs))) (for_each (setup_blobs blobs) (fun b => checked_unlink o b.1.2 b.2)) Safe (fun _ => set_up None (Some (o, []))).
Proof.
  unfold setup_blobs. induction blobs as [|b blobs IH] using rev_ind; [by apply triple_done|]. rewrite imap_app. cbn [imap]. rewrite reverse_app. cbn [app reverse rev_append for_each].
  rewrite Nat.add_0_r. eapply triple_bind; [apply remove_setup_blob|]. intros []. apply IH.
Qed.

Lemma remove_setup_originals (o : nat) :
  triple c Safe (set_up None (Some (o, []))) (checked_rmdir i ORIGINALS_DIR_NAME o) Safe (fun _ => set_up None None).
Proof.
  eapply (triple_checked_rmdir _ _ _ _ (set_up None None)); try (intros fs; apply set_up_safe); [intros fs; apply set_up_sync| |].
  - intros fs [_ (He & _ & [_ Hd] & Heo & _)] _. split; [rewrite He; apply setup_map_originals|]. split; [by eapply dir_all_dir|by rewrite Heo].
  - intros fs H _ _. eapply set_up_self; [exact H| |done|by right]. destruct H as [_ [He _]]. rewrite He. apply setup_delete.
Qed.

Lemma remove_setup (stage : option nat) (rest : Rest) :
  triple c Safe (set_up stage rest) (remove_setup_fence i (setup_inventory_of stage rest)) Safe (fun _ => clean is_old).
Proof.
  unfold remove_setup_fence, setup_inventory_of. cbn [si_stage si_originals si_blobs]. eapply (triple_bind _ _ _ _ _ _ (fun _ => set_up None rest)).
  { destruct stage as [s|]; [apply remove_stage|by apply triple_done]. }
  intros []. eapply (triple_bind _ _ _ _ _ _ (fun _ => set_up None None)).
  { destruct rest as [[o blobs]|]; cbn [fmap option_fmap option_map fst]; [|by apply triple_done]. eapply triple_bind; [apply remove_setup_blobs|]. intros []. apply remove_setup_originals. }
  intros []. eapply triple_bind; [eapply (triple_checked_rmdir _ _ _ _ rootless); [intros fs; apply set_up_safe|apply rootless_safe|apply rootless_sync| |]|].
  - intros fs [(_ & _ & He & [_ Hd]) [Hi _]] _. split; [rewrite He; apply lookup_singleton_eq|]. split; [by eapply dir_all_dir|done].
  - intros fs [(Hf & Ho & He & _) _] _ _. apply old_drop; [done|done|]. rewrite He. apply delete_singleton_eq.
  - intros []. apply triple_sync_dir; [intros fs; apply clean_safe; by left|intros fs; apply clean_safe; by left|]. intros fs. apply clean_sync.
Qed.

End Setup.


End Removal.
