(* ===== verification/MigrationWrite.v ===== *)
(** * Replacing one member

    [hardened_atomic_write_at] under a complete fence: the member is its old or
    its new image at every moment, and the one written once it is done. *)

From S2P Require Import Prelude RustStr Ast Membership DiskTree MigrationJournal MigrationTxn DiskLogic MigrationReads MigrationPlan MigrationState MigrationSteps MigrationFacts.

Section Write.

Context {sha : Sha2Crate} {json : JsonCrate} {tx : Migration} {tr : Owners}.

#[local] Abbreviation g := tx_guard.
#[local] Abbreviation ms := tx_members.

Context (plan : planned g ms tx_owner tx_journal tx_bytes) (c : Prop).

(** Members are being replaced. *)
Definition amid (i : nat) (fs : Fs) : Prop := fresh_ok fs ∧ at_root fs TXN_DIR_NAME i ∧ full fs i ∧ live fs is_either.

Lemma amid_safe (i : nat) (fs : Fs) : amid i fs → Safe fs.
Proof. intros (Hf & Hr & Hi & Hl). split; [done|]. right. left. split; [done|]. eauto. Qed.

Lemma amid_keeps (i : nat) (fs fs' : Fs) : keeps true None fs fs' → fresh_ok fs' → live fs' is_either → amid i fs → amid i fs'.
Proof.
  intros K Hf' Hl' (Hf & Hr & Hi & Hl). split; [done|]. split; [by eapply keeps_root_all|]. split; [|done]. apply (keeps_full_root K); [by left|done].
Qed.

(** ** The new file *)

Definition payload (f : FileNode) (fs : Fs) : Fs := alloc (NFile f) fs.

Lemma payload_at f fs : file_at (payload f fs) (fs_next fs) f.
Proof. apply alloc_at. Qed.

Lemma payload_file h f fs : with_file h (fs_next fs) (payload f fs) = payload (h f) fs.
Proof. unfold with_file. rewrite (payload_at f fs). unfold set_node, payload, alloc. cbn. by rewrite insert_insert_eq. Qed.

Lemma payload_attr h f fs :
  with_attr h (fs_next fs) (payload f fs) = payload {| fl_bytes := fl_bytes f; fl_attr := h (fl_attr f); fl_nlink := fl_nlink f; fl_synced := fl_synced f |} fs.
Proof. unfold with_attr. rewrite (payload_at f fs). unfold set_node, payload, alloc. cbn. by rewrite insert_insert_eq. Qed.

Lemma amid_payload (i : nat) f fs : amid i fs → amid i (payload f fs).
Proof.
  intros H. pose proof H as (Hf & _ & _ & Hl). eapply amid_keeps; [by apply alloc_keeps|by apply alloc_fresh| |done].
  eapply keeps_live; [by apply (alloc_keeps true)|done|done].
Qed.

Section Member.

Context (m : MigrationMember) (Hm : m ∈ ms) (content : str) (Hcontent : is_either m content) (t : PinnedTarget) (i : nat).
Context (Hpath : pt_path t = mm_path m) (i0 : nat) (f0 : FileNode) (Horig : pt_original t = Some (i0, f0)) (Hattr : same_attr (fl_attr f0) (fl_attr (mm_metadata m))).

(** What the replacement leaves alone. *)
Context (X : Fs → Prop).
Context (HX : ∀ fs fs', X fs → keeps true None fs fs' → (∀ d, entries fs' d = entries fs d) → (∀ p, p ≠ mm_path m → fs_live fs' !! p = fs_live fs !! p) → X fs').

(** What only holds until the rename. *)
Context (X0 : Fs → Prop).
Context (HX0 : ∀ fs fs', X0 fs → keeps true None fs fs' → (∀ d, entries fs' d = entries fs d) → fs_live fs' = fs_live fs → X0 fs').

Definition ready (fs : Fs) : Prop := amid i fs ∧ X fs ∧ live_now fs (mm_path m) = Some i0 ∧ X0 fs.

Definition named (file : nat) (may : list (option nat)) (fs : Fs) : Prop :=
  amid i fs ∧ X fs ∧ fs_live fs !! mm_path m = Some {| sl_now := Some file; sl_may := may |} ∧ image fs m content file.

Context (F : Fs → Prop) (HF : ∀ fs, ready fs → F fs) (HF' : ∀ fs file may, named file may fs → F fs).

Lemma ready_payload f fs : ready fs → ready (payload f fs).
Proof.
  intros (Ha & Hx & Hl & H0). pose proof (alloc_keeps true (NFile f) fs (proj1 Ha)) as K.
  assert (∀ d, entries (payload f fs) d = entries fs d) as He by (intros d; by apply alloc_entries; [apply Ha|]).
  split; [by apply amid_payload|]. split; [by eapply HX|]. split; [done|]. by eapply HX0.
Qed.

(** The file is being written. *)
Definition writing (file : nat) (f : FileNode) (fs : Fs) : Prop := ∃ fs0, ready fs0 ∧ file = fs_next fs0 ∧ fs = payload f fs0.

Lemma writing_ready file f fs : writing file f fs → ready fs.
Proof. intros (fs0 & H & -> & ->). by apply ready_payload. Qed.

Lemma ready_safe fs : ready fs → Safe fs.
Proof. intros [H _]. by eapply amid_safe. Qed.

Lemma writing_safe file f fs : writing file f fs → Safe fs.
Proof. intros H. by eapply ready_safe, writing_ready. Qed.

Lemma writing_failed file f fs : writing file f fs → F fs.
Proof. intros H. by eapply HF, writing_ready. Qed.

Lemma triple_writing file f h f' : (∀ fs, h (payload f fs) = payload f' fs ∨ file ≠ fs_next fs) →
  triple c Safe (writing file f) (sys ;; change h) F (fun _ => writing file f').
Proof.
  intros Hh. apply triple_call; [apply writing_safe|apply writing_failed|]. intros fs (fs0 & H & He & ->). exists fs0. split; [done|]. split; [done|].
  by destruct (Hh fs0).
Qed.

Lemma triple_write file f bytes : triple c Safe (writing file f) (write_all file bytes) F (fun _ => writing file (unsynced bytes f)).
Proof.
  intros fs io (fs0 & H & -> & ->). assert (∀ b, writing (fs_next fs0) (unsynced b f) (with_file (unsynced b) (fs_next fs0) (payload f fs0))) as Hw.
  { intros b. exists fs0. split; [done|]. split; [done|]. apply payload_file. }
  unfold write_all. destruct io as [|[|n|] io]; cbn; (split; [done|]); [apply Hw|apply Hw| |].
  - split; [by eapply writing_failed|]. by intros [_ ?].
  - split; [by eapply writing_safe|done].
Qed.

(** ** The rename and the sync *)

Lemma set_slot_keeps short p s fs : keeps short None fs (set_slot p s fs).
Proof. by apply keeps_same. Qed.

(** The slot of the member changes. *)
Lemma amid_slot (s : Slot) (fs : Fs) : amid i fs → X fs → (∀ v, v ∈ sl_now s :: sl_may s → ∃ i bytes, v = Some i ∧ image fs m bytes i ∧ is_either m bytes) →
  amid i (set_slot (mm_path m) s fs) ∧ X (set_slot (mm_path m) s fs).
Proof.
  intros H Hx Hs. pose proof (set_slot_keeps true (mm_path m) s fs) as K. pose proof H as (Hf & _ & _ & Hl).
  assert (∀ p, p ≠ mm_path m → fs_live (set_slot (mm_path m) s fs) !! p = fs_live fs !! p) as Hne by (intros p Hp; cbn; by apply lookup_insert_ne).
  split; [|by eapply HX]. eapply amid_keeps; [done|done| |done]. intros m' Hm'. destruct (decide (mm_path m' = mm_path m)) as [He|Hp].
  - rewrite (plan_path_inj plan m' m) by done. exists s. split; [cbn; apply lookup_insert_eq|]. intros v Hv. destruct (Hs v Hv) as (x & b & -> & Hx' & Hb).
    exists x, b. split; [done|]. split; [|done]. by apply (keeps_image K).
  - eapply keeps_slot; [done|by apply Hne|by apply Hl].
Qed.

Lemma ready_named file fs : ready fs → image fs m content file → ∃ may, named file may (replace_live (mm_path m) file fs).
Proof.
  intros (Ha & Hx & Hn & _) Hi. pose proof Ha as (_ & _ & _ & Hl). destruct (Hl m Hm) as (s & Hs & Hv). unfold replace_live. rewrite Hs. cbn. exists (sl_now s :: sl_may s).
  destruct (amid_slot {| sl_now := Some file; sl_may := sl_now s :: sl_may s |} fs Ha Hx) as [Ha' Hx'].
  - cbn. intros v [->|Hin]%elem_of_cons; [exists file, content; by split|by apply Hv].
  - split; [done|]. split; [done|]. split; [cbn; apply lookup_insert_eq|]. by apply (keeps_image (set_slot_keeps true _ _ fs)).
Qed.

Lemma named_safe file may fs : named file may fs → Safe fs.
Proof. intros [H _]. by eapply amid_safe. Qed.

Lemma named_synced file may fs : named file may fs →
  named file [] (match fs_live fs !! mm_path m with Some s => set_slot (mm_path m) {| sl_now := sl_now s; sl_may := [] |} fs | None => fs end).
Proof.
  intros (Ha & Hx & Hs & Hi). rewrite Hs. cbn. destruct (amid_slot {| sl_now := Some file; sl_may := [] |} fs Ha Hx) as [Ha' Hx'].
  - cbn. intros v ->%list_elem_of_singleton. exists file, content. by split.
  - split; [done|]. split; [done|]. split; [cbn; apply lookup_insert_eq|]. by apply (keeps_image (set_slot_keeps true _ _ fs)).
Qed.

Lemma triple_sync_parent file may : triple c Safe (named file may) (sync_parent (mm_path m)) F (fun _ => named file []).
Proof. apply triple_call; [apply named_safe|intros fs; apply HF'|]. intros fs. apply named_synced. Qed.

(** ** The whole write *)

Definition promoted (file : nat) : PinnedTarget := {| pt_path := pt_path t; pt_original := pt_original t; pt_promoted := Some file |}.

Lemma triple_check_original (P : Fs → Prop) : (∀ fs, P fs → ready fs) → triple c Safe P (check_original t) F (fun _ => P).
Proof.
  intros HP. eapply triple_conseq; [apply (triple_reads _ _ _ P _ _ _ (reads_check_original t))|done|by intros [] fs [H _]]; intros fs H.
  - by apply ready_safe, HP.
  - by apply HF, HP.
  - intros _. rewrite Hpath, Horig. apply HP, H.
Qed.

(** Written, with the owner it has to have. *)
Definition filled (file : nat) (fs : Fs) : Prop :=
  ∃ f, writing file f fs ∧ fl_bytes f = content ∧ fl_nlink f = 1%Z ∧ at_uid (fl_attr f) = at_uid (fl_attr f0) ∧ at_gid (fl_attr f) = at_gid (fl_attr f0).

Lemma triple_owner file f : fl_bytes f = content → fl_nlink f = 1%Z → at_uid (fl_attr f) = g_euid g → at_gid (fl_attr f) = g_egid g →
  triple c Safe (writing file f)
    (if bool_decide ((g_euid g, g_egid g) = (at_uid (fl_attr f0), at_gid (fl_attr f0))) then mret tt
     else fchown file {| at_uid := at_uid (fl_attr f0); at_gid := at_gid (fl_attr f0); at_mode := 0 |}) F (fun _ => filled file).
Proof.
  intros Hb Hn Hu Hg. case_bool_decide as He.
  - injection He as H1 H2. apply triple_done. intros fs H. exists f. split; [done|]. split; [done|]. split; [done|]. by rewrite Hu, Hg.
  - eapply triple_conseq; [eapply triple_writing; intros fs|done|].
    + destruct (decide (file = fs_next fs)) as [->|Hne]; [left; apply payload_attr|by right].
    + intros [] fs H. eexists. split; [exact H|]. done.
Qed.

Lemma triple_mode file : triple c Safe (filled file) (set_permissions file (Z.land (at_mode (fl_attr (mm_metadata m))) 4095)) F
  (fun _ fs => ∃ f, writing file f fs ∧ fl_bytes f = content ∧ fl_nlink f = 1%Z ∧ same_attr (fl_attr f) (fl_attr (mm_metadata m))).
Proof.
  apply triple_exists. intros f. eapply (triple_pre _ _ _ _ (fun fs => (fl_bytes f = content ∧ fl_nlink f = 1%Z ∧ at_uid (fl_attr f) = at_uid (fl_attr f0) ∧ at_gid (fl_attr f) = at_gid (fl_attr f0)) ∧ writing file f fs)); [|naive_solver].
  apply triple_fact. intros (Hb & Hn & Hu & Hg). eapply triple_conseq; [eapply triple_writing; intros fs|done|].
  - destruct (decide (file = fs_next fs)) as [->|Hne]; [left; apply payload_attr|by right].
  - intros [] fs H. eexists. split; [exact H|]. cbn. destruct Hattr as (H1 & H2 & _). split; [done|]. split; [done|]. unfold same_attr. cbn.
    split; [congruence|]. split; [congruence|]. by rewrite <- Z.land_assoc.
Qed.

Lemma triple_synced file : triple c Safe (fun fs => ∃ f, writing file f fs ∧ fl_bytes f = content ∧ fl_nlink f = 1%Z ∧ same_attr (fl_attr f) (fl_attr (mm_metadata m)))
  (sync_file file) F (fun _ fs => ready fs ∧ image fs m content file).
Proof.
  apply triple_exists. intros f. eapply (triple_pre _ _ _ _ (fun fs => (fl_bytes f = content ∧ fl_nlink f = 1%Z ∧ same_attr (fl_attr f) (fl_attr (mm_metadata m))) ∧ writing file f fs)); [|naive_solver].
  apply triple_fact. intros (Hb & Hn & Ha). eapply triple_conseq; [eapply triple_writing; intros fs|done|].
  - destruct (decide (file = fs_next fs)) as [->|Hne]; [left; apply payload_file|by right].
  - intros [] fs H. split; [by eapply writing_ready|]. destruct H as (fs0 & _ & -> & ->). eexists. split; [apply payload_at|]. by split_and!.
Qed.

Lemma replace_member (owner : Z * Z) :
  triple c Safe ready (hardened_atomic_write_at g t content (Some (Z.land (at_mode (fl_attr (mm_metadata m))) 4095)) owner) F
    (fun t' fs => ∃ file, t' = promoted file ∧ named file [] fs).
Proof.
  unfold hardened_atomic_write_at. rewrite Horig. cbn [fmap option_fmap option_map snd default from_option id]. cbv zeta.
  eapply triple_bind; [by apply (triple_check_original ready)|]. intros [].
  do 2 (eapply triple_bind; [apply (triple_sys _ _ _ ready); [apply ready_safe|done]|]; intros []).
  eapply triple_bind; [apply triple_view|]. intros file.
  eapply triple_bind; [eapply (triple_change _ _ _ _ _ (writing file _)); intros fs [H ->]; exists fs; split; [done|]; split; [done|]; reflexivity|]. intros [].
  eapply triple_bind; [apply triple_write|]. intros [].
  eapply triple_bind; [by apply triple_owner|]. intros [].
  eapply triple_bind; [apply triple_mode|]. intros [].
  eapply triple_bind; [apply triple_synced|]. intros [].
  eapply triple_bind; [apply (triple_check_original (fun fs => ready fs ∧ image fs m content file)); by intros fs [H _]|]. intros [].
  eapply triple_bind; [apply triple_sys; intros fs [H _]; [by apply ready_safe|by apply HF]|]. intros [].
  rewrite Hpath. eapply triple_bind; [eapply (triple_change _ _ _ _ _ (fun fs => ∃ may, named file may fs)); intros fs [H Hi]; by apply ready_named|]. intros [].
  apply triple_exists. intros may.
  eapply triple_bind; [apply triple_sys; intros fs H; [by eapply named_safe|by eapply HF']|]. intros [].
  eapply triple_bind; [apply triple_sys_ignored; intros fs H; by eapply named_safe|]. intros [].
  cbn [pt_path]. eapply triple_bind; [apply triple_sync_parent|]. intros [].
  apply triple_done. intros fs H. exists file. split; [|done]. unfold promoted. by rewrite Hpath, Horig.
Qed.


End Member.

End Write.
