(* ===== verification/MigrationRecovery.v ===== *)
(** * Recovery: [recover_fixed] of [src/config/migration_journal.rs]

    From any safe disk, recovery leaves the old configuration and nothing of the
    transaction, or finds nothing to do; wherever it stops, the disk is safe. *)

From S2P Require Import Prelude RustStr Ast Membership DiskTree MigrationJournal MigrationTxn DiskLogic MigrationReads MigrationPlan MigrationState MigrationSteps MigrationFacts.
From S2P Require Import MigrationRemoval MigrationWrite.

#[local] Opaque original_blob_file_name.

Section Recovery.

Context {sha : Sha2Crate} {json : JsonCrate} {tx : Migration} {tr : Owners}.

#[local] Abbreviation g := tx_guard.
#[local] Abbreviation ms := tx_members.
#[local] Abbreviation ow := tx_owner.
#[local] Abbreviation J := tx_journal.
#[local] Abbreviation jbytes := tx_bytes.
#[local] Abbreviation cl := (cl_of tx_bytes).
#[local] Abbreviation fin := (fin_of tx_bytes).

Context (plan : planned g ms ow J jbytes) (c : Prop) (Hc : c → calm).

(** ** The plan of recovery *)

(** A member as recovery found it. *)
Definition pin (fs : Fs) (m : MigrationMember) (p : TargetPlan * LiveState) : Prop :=
  ∃ x f, p = ({| tp_path := mm_path m; tp_original := Some (x, f) |}, state_of m (fl_bytes f))
         ∧ live_file fs (mm_path m) x f ∧ member_file m f ∧ is_either m (fl_bytes f).

Lemma reads_pin e : e ∈ jn_members J →
  reads (plan ← plan_root_file (jm_path e); s ← classify_receipts plan (jm_before e) (jm_after e); mret (plan, s)) (fun fs => live fs is_either)
        (fun fs p => live fs is_either → ∀ k m, ms !! k = Some m → e = entry_of k m → pin fs m p).
Proof.
  intros He. eapply reads_weaken; [eapply reads_bind; [apply reads_plan_live|intros p; eapply reads_bind; [apply reads_classify|intros s; apply (reads_ret _ (fun _ => True))]]| |].
  - cbn. intros fs H. destruct (plan_entry plan e He) as (k & m & Hk & ->). destruct (slot_file _ _ _ (H m ltac:(by eapply list_elem_of_lookup_2))) as (x & f & Hl & Hf & Hb).
    split; [by exists x, f|]. intros p Hp. destruct (plan_of_live _ _ _ _ _ Hp Hl) as [_ Ho]. split; [|done]. exists x, f. split; [done|]. apply Hl.
  - cbn. intros fs q (p & Hp & s & Hs & ->) H k m Hk ->. assert (m ∈ ms) as Hm by (by eapply list_elem_of_lookup_2).
    destruct (slot_file _ _ _ (H m Hm)) as (x & f & Hl & Hf & Hb). destruct (plan_of_live _ _ _ _ _ Hp Hl) as [Hpath Ho]. exists x, f. split; [|done].
    rewrite (Hs x f Ho (proj1 (proj2 Hl))). cbn. rewrite (member_state plan m f Hf Hb Hm). destruct p as [pp po]. cbn in *. by subst.
Qed.

Lemma reads_pins :
  reads (collect_each (jn_members J) (fun m => plan ← plan_root_file (jm_path m); s ← classify_receipts plan (jm_before m) (jm_after m); mret (plan, s)))
        (fun fs => live fs is_either) (fun fs ps => live fs is_either → Forall2 (pin fs) ms ps).
Proof.
  eapply reads_weaken; [apply reads_collect_in; intros e He; by apply (reads_pin e)|naive_solver|]. cbn. intros fs ps H HL.
  apply Forall2_same_length_lookup. pose proof (Forall2_length _ _ _ H) as Hl. rewrite (plan_length plan) in Hl. split; [done|]. intros k m p Hm Hp.
  destruct (Forall2_lookup_r _ _ _ _ _ H Hp) as (e & He & HR). rewrite (plan_members plan), Hm in He. injection He as <-. by eapply HR.
Qed.

(** The target of a member that has to be put back. *)
Definition target_of (p : TargetPlan * LiveState) : option PinnedTarget := if decide (p.2 = After) then Some (pinned p.1) else None.

Lemma reads_targets (ps : list (TargetPlan * LiveState)) :
  reads (collect_each ps pin_changed) (fun fs => Forall2 (pin fs) ms ps) (fun fs ts => ts = map target_of ps).
Proof.
  eapply reads_weaken; [apply (reads_collect _ _ (fun p fs => live_now fs (tp_path p.1) = fst <$> tp_original p.1) (fun p fs t => t = target_of p))| |].
  - intros p. unfold pin_changed, target_of. reads_by; case_bool_decide as Hs; [naive_solver|done| |].
    + intros (t & -> & ->). by rewrite decide_True.
    + intros ->. by rewrite decide_False.
  - cbn. intros fs H p Hp. apply list_elem_of_lookup in Hp as [k Hk]. destruct (Forall2_lookup_r _ _ _ _ _ H Hk) as (m & _ & x & f & -> & (Hl & _) & _). done.
  - cbn. intros fs ts H. clear plan Hc. induction H as [|p t ps ts -> _ IH]; [done|]. cbn. by rewrite IH.
Qed.

(** ** Putting the originals back *)

Lemma keeps_holds (fs fs' : Fs) (i j o : nat) (blobs : list nat) : keeps true None fs fs' → (∀ d, entries fs' d = entries fs d) → holds fs i j o blobs → holds fs' i j o blobs.
Proof.
  intros K He [H1 H2 H3 H4 H5]. split; [by rewrite He|by apply (keeps_holding K)| |by rewrite He|].
  - eapply (keeps_below K); [done|exact H3|apply (keeps_blobs_full K)].
  - eapply Forall2_impl; [exact H5|]. intros m b. apply (keeps_holding K).
Qed.

Lemma holds_full_view (fs : Fs) (i j o : nat) (blobs : list nat) : holds fs i j o blobs → full_view fs i (entries fs i).
Proof. intros [H1 H2 H3 H4 H5]. by exists j, o. Qed.

(** A member with its target, when the first [left] are still to be put back. *)
Definition member_left (left idx : nat) (fs : Fs) (m : MigrationMember) (tg : option PinnedTarget) : Prop :=
  match tg with
  | None => slot_all fs m (is_old m)
  | Some t => pt_path t = mm_path m ∧ ∃ i0 f0, pt_original t = Some (i0, f0) ∧ same_attr (fl_attr f0) (fl_attr (mm_metadata m))
      ∧ if decide (idx < left) then live_now fs (mm_path m) = Some i0 else slot_all fs m (is_old m)
  end.

Lemma member_left_keeps (left idx : nat) (fs fs' : Fs) (m : MigrationMember) (tg : option PinnedTarget) : keeps true None fs fs' →
  fs_live fs' !! mm_path m = fs_live fs !! mm_path m → member_left left idx fs m tg → member_left left idx fs' m tg.
Proof.
  intros K He. destruct tg as [t|]; cbn; [|by apply keeps_slot with (short := true) (x := None)].
  intros (Hp & i0 & f0 & Ho & Ha & H). split; [done|]. exists i0, f0. split; [done|]. split; [done|]. destruct (decide (idx < left)); [unfold live_now in *; by rewrite He|].
  by eapply keeps_slot.
Qed.

Section Restore.

Context (i j o : nat) (blobs : list nat) (targets : list (option PinnedTarget)).

Definition one_target (fs : Fs) : Prop := live fs is_old ∧ setup fs i ∧ (∀ tg, tg ∈ targets → tg = None) ∨ live fs is_either ∧ full fs i.

Definition restoring (left : nat) (fs : Fs) : Prop :=
  fresh_ok fs ∧ at_root fs TXN_DIR_NAME i ∧ holds fs i j o blobs ∧ one_target fs
  ∧ ∀ idx m tg, ms !! idx = Some m → targets !! idx = Some tg → member_left left idx fs m tg.

Lemma fenced_old (fs : Fs) : fresh_ok fs → at_root fs TXN_DIR_NAME i → live fs is_old → setup fs i → Old fs.
Proof.
  intros Hf Hr Hl Hi. split; [done|]. split; [eapply root_all_impl; [exact Hr|]; intros V ->; right; left; eauto|]. intros i' Hi'.
  rewrite (root_now _ _ Hr), lookup_singleton_eq in Hi'. injection Hi' as <-. eapply root_all_impl; [exact Hr|]. by left.
Qed.

Lemma restoring_safe (left : nat) (fs : Fs) : restoring left fs → Safe fs.
Proof.
  intros (Hf & Hr & _ & [(Hl & Hi & _)|[Hl Hi]] & _); [split; [done|left; by apply fenced_old]|]. by apply (amid_safe i).
Qed.

(** The other members. *)
Definition others (idx : nat) (fs : Fs) : Prop :=
  holds fs i j o blobs ∧ ∀ idx' m tg, ms !! idx' = Some m → targets !! idx' = Some tg → idx' ≠ idx → member_left idx idx' fs m tg.

Lemma left_less (left idx : nat) (fs : Fs) (m : MigrationMember) (tg : option PinnedTarget) : idx ≠ left → member_left (S left) idx fs m tg → member_left left idx fs m tg.
Proof.
  intros Hne. destruct tg as [t|]; cbn; [|done]. intros (Hp & i0 & f0 & Ho & Ha & H). split; [done|]. exists i0, f0. split; [done|]. split; [done|].
  destruct (decide (idx < S left)), (decide (idx < left)); try done; lia.
Qed.

Lemma named_slot (fs : Fs) (m : MigrationMember) (X : Fs → Prop) (content : str) (file : nat) (k : str → Prop) : named m content i X file [] fs → k content → slot_all fs m k.
Proof.
  intros (_ & _ & Hs & Hi) Hk. eexists. split; [exact Hs|]. cbn. intros v ->%list_elem_of_singleton. eauto.
Qed.

Lemma restore_one (idx : nat) (m : MigrationMember) (tg : option PinnedTarget) : ms !! idx = Some m → targets !! idx = Some tg →
  triple c Safe (restoring (S idx)) (restore_member g (entry_of idx m, mm_before m, tg)) Safe (fun _ => restoring idx).
Proof.
  intros Hm Ht. unfold restore_member. destruct tg as [t|]; cbn [snd fst].
  - eapply (triple_pre _ _ _ _ (fun fs => ∃ i0 f0, (pt_path t = mm_path m ∧ pt_original t = Some (i0, f0) ∧ same_attr (fl_attr f0) (fl_attr (mm_metadata m))) ∧ ready m i i0 (others idx) (fun _ => True) fs)).
    + apply triple_exists. intros i0. apply triple_exists. intros f0. apply triple_fact. intros (Hp & Ho & Ha).
      eapply triple_bind; [eapply (replace_member plan c m ltac:(by eapply list_elem_of_lookup_2) (mm_before m) ltac:(by left) t i Hp i0 f0 Ho Ha (others idx)) with (X0 := fun _ => True)|].
      * intros fs fs' [Hh Ho'] K He Hlive. split; [by eapply keeps_holds|]. intros idx' m' tg' Hm' Ht' Hne. eapply member_left_keeps; [done| |by apply Ho'].
        apply Hlive. intros Heq. apply Hne. eapply NoDup_lookup; [apply (plan_nodup plan)| |]; rewrite list_lookup_fmap; [by rewrite Hm'|by rewrite Hm, Heq].
      * done.
      * intros fs. apply ready_safe.
      * intros fs file may. apply named_safe.
      * intros t'. apply triple_done. intros fs (file & -> & Hn). pose proof Hn as ((Hf & Hr & Hi & Hl) & (Hh & Hoth) & _).
        split; [done|]. split; [done|]. split; [done|]. split; [by right|]. intros idx' m' tg' Hm' Ht'. destruct (decide (idx' = idx)) as [->|Hne]; [|by apply Hoth]. simplify_eq. cbn.
        split; [done|]. exists i0, f0. split; [done|]. split; [done|]. rewrite decide_False by lia. by eapply named_slot.
    + intros fs (Hf & Hr & Hh & [(_ & _ & Hnone)|[Hl Hi]] & Hleft); [by specialize (Hnone (Some t) ltac:(by eapply list_elem_of_lookup_2))|].
      destruct (Hleft idx m _ Hm Ht) as (Hp & i0 & f0 & Ho & Ha & Hlive). rewrite decide_True in Hlive by lia. exists i0, f0. split; [done|]. split; [done|]. split; [|done].
      split; [done|]. intros idx' m' tg' Hm' Ht' Hne. apply left_less; [done|]. by apply Hleft.
  - apply triple_done. intros fs (Hf & Hr & Hh & Hone & Hleft). split; [done|]. split; [done|]. split; [done|]. split; [done|]. intros idx' m' tg' Hm' Ht'.
    specialize (Hleft idx' m' tg' Hm' Ht'). destruct (decide (idx' = idx)) as [->|Hne]; [|by apply left_less]. by simplify_eq.
Qed.

Lemma restore_all : length targets = length ms →
  triple c Safe (restoring (length ms)) (for_each (reverse (zip (zip (jn_members J) (map mm_before ms)) targets)) (restore_member g)) Safe (fun _ => restoring 0).
Proof.
  intros Hlen. set (items := zip (zip (jn_members J) (map mm_before ms)) targets). pose proof (plan_length plan) as HJ.
  assert (length items = length ms) as Hn by (unfold items; rewrite !length_zip_with, length_map; lia).
  eapply (triple_conseq _ _ _ _ (restoring (length ms - 0)) _ _ (fun _ => restoring (length ms - length (reverse items)))); [apply (triple_for_each _ _ _ _ _ (fun k => restoring (length ms - k)))| |].
  - intros k x Hk. assert (k < length ms) as Hlt by (rewrite <- Hn, <- (length_reverse items); by eapply lookup_lt_Some). rewrite reverse_lookup, Hn in Hk by lia.
    set (idx := length ms - S k) in *. replace (length ms - k) with (S idx) by (unfold idx; lia). unfold items in Hk. apply lookup_zip_with_Some in Hk as (y & tg & -> & Hy & Htg).
    apply lookup_zip_with_Some in Hy as (e & b & -> & He & Hb). rewrite (plan_members plan) in He. rewrite list_lookup_fmap in Hb.
    destruct (ms !! idx) as [m|] eqn:Em; [|done]. injection He as <-. injection Hb as <-. by apply restore_one.
  - intros fs. by rewrite Nat.sub_0_r.
  - intros u fs. by rewrite length_reverse, Hn, Nat.sub_diag.
Qed.

End Restore.


(** ** Under a fence with a journal *)

Lemma keeps_restorable (x : option nat) (fs fs' : Fs) : keeps true x fs fs' → fs_live fs' = fs_live fs → live fs is_either → restorable fs → restorable fs'.
Proof.
  intros K He Hl Hr m s y Hm Hs Hn (f & Hf & _ & Hb & _). rewrite He in Hs. eapply keeps_slot; [done|by rewrite He|]. destruct (Hl m Hm) as (s' & Hs' & Hv). simplify_eq.
  destruct (Hv (sl_now s) ltac:(by left)) as (y' & b & Hy & Hi & _). assert (y' = y) as -> by congruence. eapply Hr; [done|done|done|].
  destruct Hi as (f' & Hf' & Hsy & Hb' & Hrest). pose proof (keeps_synced K y f' Hf' Hsy) as Hf2. unfold file_at in Hf, Hf2. assert (f' = f) as -> by congruence.
  exists f. split; [done|]. split; [done|]. by split.
Qed.

Lemma old_restorable (fs : Fs) : live fs is_old → restorable fs.
Proof. intros H m s y Hm _ _ _. by apply H. Qed.

Section Journal.

Context (i j o : nat) (blobs : list nat) (owner : Attr) (Howner : owner_is owner).

Definition fenced (fs : Fs) : Prop :=
  fresh_ok fs ∧ restorable fs ∧ holds fs i j o blobs ∧ entries fs ROOT = {[TXN_DIR_NAME := i]} ∧ (Old fs ∧ setup fs i ∨ (Between fs ∨ New fs) ∧ full fs i).

Definition fixed (fs : Fs) : Prop :=
  fresh_ok fs ∧ restorable fs ∧ holds fs i j o blobs ∧ at_root fs TXN_DIR_NAME i ∧ (live fs is_old ∧ setup fs i ∨ live fs is_either ∧ full fs i).

Definition restored (fs : Fs) : Prop := fresh_ok fs ∧ holds fs i j o blobs ∧ at_root fs TXN_DIR_NAME i ∧ live fs is_old ∧ setup fs i.

Definition renamed (fs : Fs) : Prop :=
  fresh_ok fs ∧ holds fs i j o blobs ∧ live fs is_old ∧ entries fs ROOT = {[cl := i]}
  ∧ root_all fs (fun V => V = {[TXN_DIR_NAME := i]} ∧ setup fs i ∨ V = {[cl := i]} ∧ loose fs i).

Lemma fenced_safe fs : fenced fs → Safe fs.
Proof. intros (Hf & _ & _ & _ & H). split; [done|]. destruct H as [[H _]|[[H|H] _]]; auto. Qed.

Lemma fixed_safe fs : fixed fs → Safe fs.
Proof. intros (Hf & _ & _ & Hr & [[Hl Hi]|[Hl Hi]]); [split; [done|left; by eapply fenced_old]|]. by apply (amid_safe i). Qed.

Lemma restored_safe fs : restored fs → Safe fs.
Proof. intros (Hf & _ & Hr & Hl & Hi). split; [done|left]. by eapply fenced_old. Qed.

Lemma renamed_safe fs : renamed fs → Safe fs.
Proof.
  intros (Hf & _ & Hl & He & Hr). split; [done|left]. split; [done|]. split.
  - eapply root_all_impl; [exact Hr|]. intros V [[-> H]|[-> H]]; right; [left|right]; eauto.
  - intros i' Hi'. rewrite He, lookup_singleton_ne in Hi'; [done|]. intros H. by destruct (names_apart jbytes) as (Hn & _ & _).
Qed.

Lemma fenced_sync fs : fenced fs → fixed (sync_at ROOT fs).
Proof.
  intros (Hf & Hres & Hh & He & H). pose proof (keeps_sync true fs ROOT) as K. assert (Safe fs) as Hsafe by (split; [done|]; destruct H as [[H _]|[[H|H] _]]; auto).
  assert (root_all fs (fun _ => True)) as Hr by (destruct H as [[(_ & H & _) _]|[[(_ & i' & _ & H)|[_ H]] _]]; (eapply root_all_impl; [exact H|done])).
  split; [by apply sync_fresh|]. split; [eapply keeps_restorable; [done|apply sync_live|by apply safe_live|done]|].
  split; [eapply keeps_holds; [done|intros d; apply entries_sync|done]|]. split; [eapply root_all_impl; [by apply root_sync|]; intros V [-> _]; done|].
  destruct H as [[(Hl & _) Hi]|[_ Hi]]; [left|right].
  - split; [eapply keeps_live; [done|apply sync_live|done]|]. apply (keeps_setup K); [done| |done]. apply loose_untouched; [by left|by apply setup_loose].
  - split; [eapply keeps_live; [done|apply sync_live|by apply safe_live]|]. by apply (keeps_full_root K); [left|].
Qed.

Lemma keeps_pin (fs fs' : Fs) (m : MigrationMember) (p : TargetPlan * LiveState) : keeps true None fs fs' → fs_live fs' = fs_live fs → pin fs m p → pin fs' m p.
Proof.
  intros K He (x & f & -> & (Hl & Hf & Hn) & Hm & Hb). exists x, f. split; [done|]. split; [|done]. split; [unfold live_now in *; by rewrite He|]. split; [|done].
  eapply (keeps_synced K); [done|]. apply Hm.
Qed.

Lemma pins_ready (fs : Fs) (ps : list (TargetPlan * LiveState)) : fixed fs → Forall2 (pin fs) ms ps → restoring i j o blobs (map target_of ps) (length ms) fs.
Proof.
  intros (Hf & Hres & Hh & Hr & Hcase) Hps. split; [done|]. split; [done|]. split; [done|]. split.
  - destruct Hcase as [[Hl Hi]|Hcase]; [left|by right]. split; [done|]. split; [done|]. intros tg (p & -> & Hp)%list_elem_of_fmap.
    apply list_elem_of_lookup in Hp as [k Hk]. destruct (Forall2_lookup_r _ _ _ _ _ Hps Hk) as (m & Hm & x & f & -> & Hlive & Hmf & He). unfold target_of. cbn.
    destruct (slot_file _ _ _ (Hl m ltac:(by eapply list_elem_of_lookup_2))) as (x' & f' & Hlive' & _ & Hb). destruct (live_file_unique _ _ _ _ _ _ Hlive Hlive') as [-> ->].
    rewrite decide_False; [done|]. intros Hs. apply (state_before _ _ He) in Hb. by rewrite Hs in Hb.
  - intros idx m tg Hm Htg. rewrite list_lookup_fmap in Htg. destruct (ps !! idx) as [p|] eqn:Ep; [|done]. injection Htg as <-.
    destruct (Forall2_lookup_lr _ _ _ _ _ _ Hps Hm Ep) as (x & f & -> & (Hl & Hfile & Hn) & (Hsy & _ & Ha) & He). unfold target_of. cbn.
    destruct (decide (state_of m (fl_bytes f) = After)) as [Hs|Hs]; cbn.
    + split; [done|]. exists x, f. split; [done|]. split; [done|]. rewrite decide_True; [done|]. by eapply lookup_lt_Some.
    + assert (fl_bytes f = mm_before m) as Hb. { apply (state_before _ _ He). unfold state_of in *. by repeat case_decide. }
      unfold live_now in Hl. destruct (fs_live fs !! mm_path m) as [s|] eqn:Es; [|done]. cbn in Hl. eapply Hres; [by eapply list_elem_of_lookup_2|done|done|]. exists f. split; [done|]. split; [done|]. by split.
Qed.

Lemma restoring_done (fs : Fs) (targets : list (option PinnedTarget)) : length targets = length ms → restoring i j o blobs targets 0 fs → restored fs.
Proof.
  intros Hlen (Hf & Hr & Hh & Hone & Hleft). assert (live fs is_old) as Hl.
  { intros m Hm. apply list_elem_of_lookup in Hm as [k Hm]. destruct (lookup_lt_is_Some_2 targets k) as [tg Htg]; [rewrite Hlen; by eapply lookup_lt_Some|].
    specialize (Hleft k m tg Hm Htg). destruct tg as [t|]; [|done]. destruct Hleft as (_ & i0 & f0 & _ & _ & H). by rewrite decide_False in H by lia. }
  split; [done|]. split; [done|]. split; [done|]. split; [done|]. destruct Hone as [(_ & Hi & _)|[_ Hi]]; [done|by apply full_setup].
Qed.

Lemma restored_rename (fs : Fs) : restored fs → renamed (push_update ROOT [(TXN_DIR_NAME, None); (cl, Some i)] fs).
Proof.
  intros (Hf & Hh & Hr & Hl & Hi). set (u := [(TXN_DIR_NAME, None); (cl, Some i)]). pose proof (root_dir _ _ Hr) as Hdir. pose proof (keeps_push true fs ROOT u Hdir) as K.
  pose proof Hh as [_ _ [Hlt _] _ _]. pose proof Hi as [Hir _].
  assert (apply_update (entries fs ROOT) u = {[cl := i]}) as Hu.
  { rewrite (root_now _ _ Hr). unfold u, apply_update. cbn [foldl apply_one fst snd]. unfold apply_one. cbn [fst snd]. by rewrite delete_singleton_eq. }
  split; [by apply push_fresh|]. split.
  { destruct Hh as [H1 H2 H3 H4 H5]. split; [rewrite entries_push_ne by done; done|by apply (keeps_holding K)| |rewrite entries_push_ne by (unfold ROOT in *; lia); done|].
    - eapply (keeps_below K); [unfold ROOT in *; intros [= <-]; lia|exact H3|apply (keeps_blobs_full K)].
    - eapply Forall2_impl; [exact H5|]. intros m b. apply (keeps_holding K). }
  split; [eapply keeps_live; [done|apply push_live|done]|]. split; [by rewrite entries_push|].
  assert (untouched (Some ROOT) fs i) as Hun by (apply loose_untouched; [by right|by apply setup_loose]).
  eapply root_push; [exact Hr| |rewrite Hu; right; split; [done|]]; [intros V ->; left; split; [done|]; by apply (keeps_setup K)|].
  apply (keeps_loose K); [done|done|by apply setup_loose].
Qed.

Lemma holds_part (fs : Fs) : holds fs i j o blobs → part_now fs i j (Some (o, blobs)).
Proof.
  intros Hh. pose proof (holds_length plan _ _ _ _ _ Hh) as [Hn _]. destruct Hh as [H1 H2 H3 H4 H5]. split; [by rewrite H1|]. split; [done|]. split; [|split; [done|split; [lia|]]].
  - eapply below_impl; [exact H3|]. apply blobs_full_part.
  - apply Forall_lookup. intros k b Hb. destruct (Forall2_lookup_r _ _ _ _ _ H5 Hb) as (m & _ & Hm). by eapply holding_good.
Qed.

Lemma renamed_sync (fs : Fs) : renamed fs → left_over cl is_old i j (Some (o, blobs)) (sync_at ROOT fs).
Proof.
  intros (Hf & Hh & Hl & He & Hr). pose proof (keeps_sync true fs ROOT) as K. split; [|by apply part_sync, holds_part].
  split; [by apply sync_fresh|]. split; [eapply keeps_live; [done|apply sync_live|done]|].
  split; [eapply root_all_impl; [by apply root_sync|]; intros V [-> _]; done|]. apply (keeps_loose_root K); [by left|].
  apply root_now in Hr. rewrite He in Hr. destruct Hr as [[Hr _]|[_ Hr]]; [|done]. apply (f_equal (lookup TXN_DIR_NAME)) in Hr.
  rewrite lookup_singleton_eq, lookup_singleton_ne in Hr; [done|]. intros H. by destruct (names_apart jbytes) as (Hn & _ & _).
Qed.

(** ** The program *)

Lemma reads_our_originals :
  reads (collect_each (imap pair (jn_members J)) (fun p => validate_original_blob i owner p.1 p.2)) (fun fs => calm ∧ owner_is owner ∧ full_view fs i (entries fs i))
        (fun fs bs => full_view fs i (entries fs i) → bs = map mm_before ms).
Proof.
  eapply reads_weaken; [apply reads_collect_in; intros p Hp; by apply (reads_our_blob plan i owner p)|naive_solver|]. cbn. intros fs bs H Hv.
  pose proof (Forall2_length _ _ _ H) as Hl. rewrite length_imap, (plan_length plan) in Hl. apply list_eq_same_length with (n := length ms); [by rewrite length_map|done|].
  intros k b b' Hk Hb Hb'. rewrite list_lookup_fmap in Hb'. destruct (ms !! k) as [m|] eqn:Em; [|done]. injection Hb' as <-.
  destruct (Forall2_lookup_r _ _ _ _ _ H Hb) as (p & Hp & HR). rewrite list_lookup_imap in Hp. destruct (jn_members J !! k) as [e|]; [|done]. injection Hp as <-. by apply HR.
Qed.

Lemma fixed_sync_pins (fs : Fs) (ps : list (TargetPlan * LiveState)) : fenced fs → Forall2 (pin fs) ms ps → fixed (sync_at ROOT fs) ∧ Forall2 (pin (sync_at ROOT fs)) ms ps.
Proof.
  intros H Hps. split; [by apply fenced_sync|]. eapply Forall2_impl; [exact Hps|]. intros m p. apply keeps_pin; [apply keeps_sync|apply sync_live].
Qed.

Lemma checks_old :
  triple c Safe restored (for_each (jn_members J) (fun m => s ← classify_path (jm_path m) (jm_before m) (jm_after m); ensure (is_before s))) Safe (fun _ => restored).
Proof.
  eapply triple_conseq; [eapply (triple_reads _ _ _ restored); [apply (reads_for_each_in _ _ (fun _ fs => live fs is_old) (fun _ _ _ => True))|..]| |].
  - intros e He. eapply reads_weaken; [eapply reads_bind; [by apply (reads_entry plan e)|intros s; apply reads_ensure]| |done]. cbn. intros fs H. split; [by apply old_either|].
    intros s Hs. destruct (plan_entry plan e He) as (k & m & Hm & ->). apply list_elem_of_lookup_2 in Hm as Hin.
    destruct (Hs k m eq_refl Hin (old_either _ H)) as (x & f & Hl & Hf & Hb & ->). apply state_before; [done|].
    destruct (slot_file _ _ _ (H m Hin)) as (x' & f' & Hl' & _ & Hb'). by destruct (live_file_unique _ _ _ _ _ _ Hl Hl') as [_ ->].
  - intros fs. apply restored_safe.
  - intros fs. apply restored_safe.
  - intros fs (_ & _ & _ & Hl & _) _ x _. done.
  - done.
  - by intros [] fs [H _].
Qed.

(** The originals are back: the fence becomes the undo and goes. *)
Lemma forget_journal :
  triple c Safe restored
    (sys ;; bytes ← read_journal_bytes i owner; let cleanup := cleanup_name (sha256_hex bytes) in
     rename_noreplace_at ROOT TXN_DIR_NAME cleanup ;; sync_dir ROOT ;; remove_validated_fence i cleanup (inventory j o blobs) ;; sync_dir ROOT ;; mret RolledBack)
    Safe (fun r fs => r = RolledBack ∧ clean is_old fs).
Proof.
  eapply triple_bind; [apply triple_sys; apply restored_safe|intros []].
  eapply (triple_read_eq _ _ _ _ _ _ _ _ _ jbytes); [apply (reads_our_bytes plan i owner)|apply restored_safe|apply restored_safe| | |].
  { intros fs (_ & Hh & _) H. split; [auto|]. split; [done|]. by eapply holds_journal. }
  { intros fs a (_ & Hh & _) H. eapply H, holds_journal, Hh. }
  cbv zeta. change (cleanup_name (sha256_hex jbytes)) with cl.
  eapply triple_bind; [apply (triple_rename _ _ _ _ _ _ _ renamed); [apply restored_safe|apply restored_safe| |]|intros []].
  { intros fs (_ & _ & Hr & _) _. rewrite (root_now _ _ Hr). split; [by rewrite lookup_singleton_eq|]. by apply lookup_singleton_ne. }
  { intros fs i' H Hi _. pose proof H as (_ & _ & Hr & _). rewrite (root_now _ _ Hr), lookup_singleton_eq in Hi. injection Hi as <-. by apply restored_rename. }
  eapply triple_bind; [apply (triple_sync_dir _ _ _ _ _ (left_over cl is_old i j (Some (o, blobs)))); [apply renamed_safe|apply renamed_safe|]; intros fs; apply renamed_sync|intros []].
  eapply triple_bind; [apply (remove_validated plan); by left|intros []].
  eapply triple_bind; [apply triple_sync_dir; [intros fs; apply clean_safe; by left|intros fs; apply clean_safe; by left|intros fs; apply clean_sync]|intros []].
  by apply triple_done.
Qed.

(** What was found is put back. *)
Lemma put_back (ps : list (TargetPlan * LiveState)) {A} (k : M A) Q : triple c Safe restored k Safe Q →
  triple c Safe (fun fs => fixed fs ∧ Forall2 (pin fs) ms ps)
    (targets ← collect_each ps pin_changed;
     for_each (reverse (zip (zip (jn_members J) (map mm_before ms)) targets)) (restore_member g) ;;
     for_each (jn_members J) (fun m => s ← classify_path (jm_path m) (jm_before m) (jm_after m); ensure (is_before s)) ;; k) Safe Q.
Proof.
  intros Hk. assert (∀ fs, fixed fs ∧ Forall2 (pin fs) ms ps → Safe fs) as HE by (intros fs [H _]; by apply fixed_safe).
  eapply (triple_read_eq _ _ _ _ _ _ _ _ _ (map target_of ps)); [apply (reads_targets ps)|done|done|by intros fs [_ H]|by intros|].
  eapply (triple_pre _ _ _ _ (fun fs => length ps = length ms ∧ restoring i j o blobs (map target_of ps) (length ms) fs)).
  2: { intros fs [H Hp]. split; [symmetry; by eapply Forall2_length|by apply pins_ready]. }
  apply triple_fact. intros Hlen. assert (length (map target_of ps) = length ms) as Hlen' by (by rewrite length_map).
  eapply triple_bind; [by apply restore_all|intros []].
  eapply triple_pre; [|intros fs H; by eapply (restoring_done fs (map target_of ps))].
  eapply triple_bind; [apply checks_old|intros []]. done.
Qed.

Lemma recover_journal_ok : triple c Safe fenced (recover_journal g i owner) Safe (fun r fs => r = RolledBack ∧ clean is_old fs).
Proof.
  unfold recover_journal.
  eapply (triple_read_eq _ _ _ _ _ _ _ _ _ J); [apply (reads_our_journal plan i owner)|apply fenced_safe|apply fenced_safe| | |].
  { intros fs (_ & _ & Hh & _) H. split; [auto|]. split; [done|]. by eapply holds_journal. }
  { intros fs a (_ & _ & Hh & _) H. eapply H, holds_journal, Hh. }
  eapply (triple_read_eq _ _ _ _ _ _ _ _ _ (inventory j o blobs)); [apply (reads_our_fence plan i owner)|apply fenced_safe|apply fenced_safe| | |].
  { intros fs (_ & _ & Hh & _) H. split; [auto|]. split; [done|]. by eapply holds_full_view. }
  { intros fs a (_ & _ & Hh & _) H. by eapply H. }
  eapply (triple_read_eq _ _ _ _ _ _ _ _ _ (map mm_before ms)); [apply reads_our_originals|apply fenced_safe|apply fenced_safe| | |].
  { intros fs (_ & _ & Hh & _) H. split; [auto|]. split; [done|]. by eapply holds_full_view. }
  { intros fs a (_ & _ & Hh & _) H. by eapply H, holds_full_view. }
  eapply triple_read; [apply reads_pins|apply fenced_safe|apply fenced_safe| |intros ps].
  { intros fs H _. by apply safe_live, fenced_safe. }
  eapply (triple_pre _ _ _ _ (fun fs => fenced fs ∧ Forall2 (pin fs) ms ps)); [|intros fs [H Hp]; split; [done|]; by apply Hp, safe_live, fenced_safe].
  assert (∀ fs, fenced fs ∧ Forall2 (pin fs) ms ps → Safe fs) as HE by (intros fs [H _]; by apply fenced_safe).
  eapply triple_check; [apply reads_ensure|done|done| |intros []].
  { intros fs [_ Hp] _. apply forallb_forall. intros p Hin%list_elem_of_In. apply list_elem_of_lookup in Hin as [k Hk].
    destruct (Forall2_lookup_r _ _ _ _ _ Hp Hk) as (m & _ & x & f & -> & _). apply negb_true_iff, bool_decide_eq_false_2. apply state_live. }
  eapply triple_check; [apply reads_current|done|done| |intros []].
  { intros fs [(_ & _ & _ & He & _) _] _. rewrite He. apply lookup_singleton_eq. }
  eapply triple_bind; [apply (triple_sync_dir _ _ _ _ _ (fun fs => fixed fs ∧ Forall2 (pin fs) ms ps)); [done|done|]; intros fs [H Hp]; by apply fixed_sync_pins|intros []].
  apply put_back, forget_journal.
Qed.

End Journal.


(** ** Which side the members are on *)

Definition sides (states : list LiveState) : bool * bool :=
  (forallb (fun s => negb (bool_decide (s = After))) states, forallb (fun s => negb (bool_decide (s = Before))) states).

Definition no_other (states : list LiveState) : Prop := forallb (fun s => negb (bool_decide (s = OtherLive))) states = true.

Lemma reads_one_side states : reads (all_one_side states) (fun _ => no_other states ∧ sides states ∈ [(true, false); (false, true)]) (fun _ r => r = sides states).
Proof.
  unfold all_one_side, no_other, sides. reads_by; [|by intros (? & _ & ? & _ & ->)]. intros [Hn Hs]. split; [done|]. intros _ _. split; [|done]. apply orb_true_iff.
  apply elem_of_cons in Hs as [[= H1 _]|Hs]; [by left|]. apply list_elem_of_singleton in Hs as [= _ H2]. by right.
Qed.

Definition side_found (fs : Fs) (states : list LiveState) : Prop :=
  no_other states ∧ (live fs is_old → sides states = (true, false)) ∧ (live fs is_new → sides states = (false, true)).

Lemma found_sides (fs : Fs) (states : list LiveState) : live fs is_either → Forall2 (found fs) ms states → side_found fs states.
Proof.
  intros HL H. assert (∀ k s, states !! k = Some s → ∃ m f x, ms !! k = Some m ∧ live_file fs (mm_path m) x f ∧ is_either m (fl_bytes f) ∧ s = state_of m (fl_bytes f)) as Hs.
  { intros k s Hk. destruct (Forall2_lookup_r _ _ _ _ _ H Hk) as (m & Hm & Hf). destruct (Hf HL) as (x & f & Hl & _ & Hb & ->). eauto 10. }
  assert (∀ (P : LiveState → Prop) `{∀ s, Decision (P s)}, (∀ k m s f x, ms !! k = Some m → states !! k = Some s → live_file fs (mm_path m) x f → s = state_of m (fl_bytes f) → ¬ P s) →
    forallb (fun s => negb (bool_decide (P s))) states = true) as Hall.
  { intros P ? HP. apply forallb_forall. intros s Hin%list_elem_of_In. apply list_elem_of_lookup in Hin as [k Hk]. destruct (Hs k s Hk) as (m & f & x & Hm & Hl & _ & He).
    apply negb_true_iff, bool_decide_eq_false_2. eauto. }
  destruct (pl_changes _ _ _ _ _ plan) as (m0 & Hm0 & Hne). apply list_elem_of_lookup in Hm0 as [k0 Hk0]. destruct (Forall2_lookup_l _ _ _ _ _ H Hk0) as (s0 & Hs0 & Hf0).
  destruct (Hf0 HL) as (x0 & f0 & Hl0 & _ & Hb0 & He0).
  assert (∀ s, s0 = s → forallb (fun s' => negb (bool_decide (s' = s))) states = false) as Hex.
  { intros s <-. apply not_true_iff_false. rewrite forallb_forall. intros Hf. specialize (Hf s0 ltac:(apply list_elem_of_In; by eapply list_elem_of_lookup_2)).
    by rewrite bool_decide_eq_true_2 in Hf. }
  split; [apply Hall; intros k m s f x _ _ _ ->; apply state_live|]. unfold sides. split; intros Hlive.
  - f_equal; [apply Hall|apply Hex].
    + intros k m s f x Hm _ Hl -> Hst. destruct (slot_file _ _ _ (Hlive m ltac:(by eapply list_elem_of_lookup_2))) as (x' & f' & Hl' & _ & Hb').
      destruct (live_file_unique _ _ _ _ _ _ Hl Hl') as [-> ->]. unfold state_of in Hst. repeat case_decide; done.
    + destruct (slot_file _ _ _ (Hlive m0 ltac:(by eapply list_elem_of_lookup_2))) as (x' & f' & Hl' & _ & Hb'). destruct (live_file_unique _ _ _ _ _ _ Hl0 Hl') as [-> ->].
      rewrite He0. unfold state_of. rewrite decide_False by done. by rewrite decide_True.
  - f_equal; [apply Hex|apply Hall].
    + destruct (slot_file _ _ _ (Hlive m0 ltac:(by eapply list_elem_of_lookup_2))) as (x' & f' & Hl' & _ & Hb'). destruct (live_file_unique _ _ _ _ _ _ Hl0 Hl') as [-> ->].
      unfold is_new in Hb'. rewrite He0. unfold state_of. rewrite decide_False by done. rewrite decide_False by congruence. done.
    + intros k m s f x Hm _ Hl -> Hst. destruct (slot_file _ _ _ (Hlive m ltac:(by eapply list_elem_of_lookup_2))) as (x' & f' & Hl' & _ & Hb').
      destruct (live_file_unique _ _ _ _ _ _ Hl Hl') as [-> ->]. unfold is_new in Hb'. unfold state_of in Hst. repeat case_decide; try done. congruence.
Qed.

Lemma reads_all : reads (classify_all J) (fun fs => live fs is_either) (fun fs states => live fs is_either → side_found fs states).
Proof.
  unfold classify_all. eapply reads_weaken; [apply reads_collect_in; intros e He; by apply (reads_entry plan e)|naive_solver|]. cbn. intros fs states H HL.
  apply found_sides; [done|]. apply Forall2_same_length_lookup. pose proof (Forall2_length _ _ _ H) as Hl. rewrite (plan_length plan) in Hl. split; [done|]. intros k m s Hm Hs.
  destruct (Forall2_lookup_r _ _ _ _ _ H Hs) as (e & He & HR). rewrite (plan_members plan), Hm in He. injection He as <-. eapply HR; [done|by eapply list_elem_of_lookup_2].
Qed.


(** ** What the root holds *)

(** A directory under the name of an undo that recovery cannot remove: its
    journal never reached the disk. *)
Definition stuck (fs : Fs) : Prop := ∃ i, entries fs ROOT !! cl = Some i ∧ entries fs i !! JOURNAL_NAME = None ∧ entries fs i ≠ ∅.

Definition root_case (fs : Fs) : Prop :=
  entries fs ROOT = ∅ ∧ (Old fs ∨ New fs)
  ∨ (∃ i, entries fs ROOT = {[TXN_DIR_NAME := i]} ∧ (Old fs ∧ setup fs i ∨ (Between fs ∨ New fs) ∧ full fs i))
  ∨ (∃ i, entries fs ROOT = {[cl := i]} ∧ (Old fs ∧ loose fs i ∨ New fs ∧ full fs i))
  ∨ (∃ i, entries fs ROOT = {[fin := i]} ∧ New fs ∧ loose fs i).

Lemma safe_root (fs : Fs) : Safe fs → root_case fs.
Proof.
  intros [_ [H|[H|H]]].
  - pose proof H as (_ & Hr & _). apply root_now in Hr as [Hr|[(i & Hr & Hi)|(i & Hr & Hi)]]; [left|right; left|do 2 right; left]; eauto 10.
  - pose proof H as (_ & i & Hi & Hr). apply root_now in Hr. right. left. eauto 10.
  - pose proof H as (_ & Hr). apply root_now in Hr as [Hr|[(i & Hr & Hi)|[(i & Hr & Hi)|(i & Hr & Hi)]]]; [left|right; left|do 2 right; left|do 3 right]; eauto 10.
Qed.

Lemma root_entry (fs : Fs) (name : str) (i : nat) : Safe fs → entries fs ROOT !! name = Some i →
  entries fs ROOT = {[name := i]} ∧ (name = TXN_DIR_NAME ∨ name = cl ∨ name = fin) ∧ dir_at fs i.
Proof.
  intros Hs H. apply safe_root in Hs as [[He _]|[(i' & He & Hi)|[(i' & He & Hi)|(i' & He & _ & [_ Hi])]]]; rewrite He in H; [done|..]; apply lookup_singleton_Some in H as [<- <-].
  - split; [done|]. split; [by left|]. destruct Hi as [[_ (_ & a & d & Hd & _)]|[_ [_ Hd]]]; [by exists a, d|by eapply dir_all_dir].
  - split; [done|]. split; [by right; left|]. destruct Hi as [[_ [_ Hd]]|[_ [_ Hd]]]; by eapply dir_all_dir.
  - split; [done|]. split; [by right; right|]. by eapply dir_all_dir.
Qed.

Lemma safe_txn (fs : Fs) (i : nat) : Safe fs → entries fs ROOT !! TXN_DIR_NAME = Some i →
  entries fs ROOT = {[TXN_DIR_NAME := i]} ∧ (Old fs ∧ setup fs i ∨ (Between fs ∨ New fs) ∧ full fs i).
Proof.
  intros Hs H. destruct (names_apart jbytes) as (Hn1 & Hn2 & Hn3).
  apply safe_root in Hs as [[He _]|[(i' & He & Hi)|[(i' & He & Hi)|(i' & He & _ & Hi)]]]; rewrite He in H; [done|..]; apply lookup_singleton_Some in H as [Hn Hi']; try congruence.
  by subst.
Qed.

Lemma safe_cl (fs : Fs) (i : nat) : Safe fs → entries fs ROOT !! cl = Some i → entries fs ROOT = {[cl := i]} ∧ (Old fs ∧ loose fs i ∨ New fs ∧ full fs i).
Proof.
  intros Hs H. destruct (names_apart jbytes) as (Hn1 & Hn2 & Hn3).
  apply safe_root in Hs as [[He _]|[(i' & He & Hi)|[(i' & He & Hi)|(i' & He & _ & Hi)]]]; rewrite He in H; [done|..]; apply lookup_singleton_Some in H as [Hn Hi']; try congruence.
  by subst.
Qed.

(** The candidates of both kinds. *)
Lemma reads_our_candidate (prefix : str) : prefix = CLEANUP_DIR_PREFIX ∨ prefix = FINALIZED_DIR_PREFIX →
  reads (artifact_candidate prefix) Safe
    (fun fs o => Safe fs → match o with
                           | None => ∀ name, is_Some (entries fs ROOT !! name) → starts_with prefix name = false
                           | Some name => is_Some (entries fs ROOT !! name) ∧ name = (if decide (prefix = CLEANUP_DIR_PREFIX) then cl else fin)
                           end).
Proof.
  intros Hp. destruct (cl_cleanup jbytes) as [Hc1 Hc2], (fin_finalized jbytes) as [Hf1 Hf2], txn_plain as [Ht1 Ht2]. eapply reads_weaken; [apply reads_candidate| |].
  - intros fs H name i Hi Hs. destruct (root_entry _ _ _ H Hi) as (He & Hname & _). split; [|intros name' i'; rewrite He; by intros [<- _]%lookup_singleton_Some].
    destruct Hname as [-> |[-> | ->]]; destruct Hp as [-> | ->]; try congruence; apply (artifact_ok plan).
  - cbn. intros fs [name|] H Hsafe; [|intros name [i Hi]; by eapply H]. destruct H as [[i Hi] Hs]. split; [by eexists|]. destruct (root_entry _ _ _ Hsafe Hi) as (_ & Hname & _).
    destruct Hname as [-> |[-> | ->]], Hp as [-> | ->]; try congruence; done.
Qed.

(** Every original of a committed undo. *)
Lemma reads_require (i : nat) (owner : Attr) (inv : CleanupInventory) :
  reads (require_originals owner J inv)
    (fun fs => calm ∧ owner_is owner ∧ ∃ j o blobs, holds fs i j o blobs ∧ inv = inventory_of (length ms) j (Some (o, blobs))) (fun _ _ => True).
Proof.
  unfold require_originals. eapply reads_weaken; [eapply reads_bind; [apply reads_ensure|intros u]; apply (reads_for_each_in _ _ (fun p fs => ∃ b bytes, p.2 = Some b ∧ blob_ok fs owner p.1 b bytes) (fun _ _ _ => True))| |done].
  - intros [e b] _. cbn. eapply reads_weaken; [eapply reads_bind; [apply reads_some|intros x; eapply reads_bind; [apply reads_blob_file|intros y; apply (reads_ret _ (fun _ => True))]]| |done].
    cbn. intros fs (b' & bytes & -> & Hb). split; [done|]. intros ? [= <-]. split; [by exists bytes|done].
  - cbn. intros fs (Hcalm & Ho & j & o & blobs & Hh & ->). split; [done|]. intros _ _ p Hp. apply list_elem_of_lookup in Hp as [k Hk].
    apply lookup_zip_with_Some in Hk as (e & b & -> & He & Hb). cbn in *. pose proof (holds_length plan _ _ _ _ _ Hh) as [Hl _]. rewrite Hl, Nat.sub_diag, app_nil_r in Hb.
    rewrite (plan_members plan) in He. destruct (ms !! k) as [m|] eqn:Em; [|done]. injection He as <-. destruct Hh as [_ _ _ _ Hall].
    destruct (Forall2_lookup_l _ _ _ _ _ Hall Em) as (x & Hx & Hhold). rewrite list_lookup_fmap, Hx in Hb. injection Hb as <-. exists x, (mm_before m). split; [done|]. by apply holding_blob.
Qed.


(** ** An undo without a fence *)

Definition undo_at (i : nat) (fs : Fs) : Prop := Safe fs ∧ entries fs ROOT !! cl = Some i.

Lemma undo_dir (i : nat) (fs : Fs) : undo_at i fs → dir_all fs i (fun _ => True).
Proof. intros [Hs He]. destruct (safe_cl _ _ Hs He) as [_ [[_ [_ H]]|[_ [_ H]]]]; (eapply dir_all_impl; [exact H|done]). Qed.

Lemma undo_journal (i j : nat) (fs : Fs) : undo_at i fs → entries fs i !! JOURNAL_NAME = Some j → ∃ j rest, part_now fs i j rest.
Proof.
  intros [Hs He] Hj. destruct (safe_cl _ _ Hs He) as [_ [[_ [_ H]]|[_ [_ H]]]]; apply dir_now in H.
  - destruct H as [(st & ro & H & _)|H]; [by rewrite H, setup_map_journal in Hj|]. apply part_now_of in H as [H|H]; [by rewrite H in Hj|done].
  - apply full_view_part, part_now_of in H as [H|H]; [by rewrite H in Hj|done].
Qed.

Lemma undo_bare (i : nat) (fs : Fs) : undo_at i fs → entries fs i !! JOURNAL_NAME = None → Old fs ∧ entries fs ROOT = {[cl := i]} ∧ dir_at fs i.
Proof.
  intros [Hs He] Hj. destruct (safe_cl _ _ Hs He) as [Hr [[Ho [_ H]]|[_ [_ H]]]]; [split; [done|]; split; [done|]; by eapply dir_all_dir|]. apply dir_now in H.
  destruct H as (j & o & H & _). by rewrite H, fence_map_journal in Hj.
Qed.

(** The old side: what is left goes. *)
Lemma undo_old (i j : nat) (rest : Rest) (fs : Fs) : undo_at i fs → live fs is_old → part_now fs i j rest → left_over cl is_old i j rest (sync_at ROOT fs).
Proof.
  intros [Hs He] Hl Hp. destruct (safe_cl _ _ Hs He) as [Hr Hcase]. pose proof (keeps_sync true fs ROOT) as K. split; [|by apply part_sync].
  assert (loose fs i) as Hi by (destruct Hcase as [[_ H]|[_ H]]; [done|by apply full_loose]).
  assert (root_all fs (fun _ => True)) as Hroot by (destruct Hcase as [[(_ & H & _) _]|[[_ H] _]]; (eapply root_all_impl; [exact H|done])).
  split; [apply sync_fresh, Hs|]. split; [eapply keeps_live; [done|apply sync_live|done]|].
  split; [eapply root_all_impl; [by apply root_sync|]; intros V [-> _]; done|]. apply (keeps_loose_root K); [by left|done].
Qed.

Lemma undo_sides (i : nat) (fs : Fs) : undo_at i fs → live fs is_old ∨ live fs is_new ∧ full fs i.
Proof. intros [Hs He]. destruct (safe_cl _ _ Hs He) as [_ [[(H & _) _]|[[H _] Hi]]]; auto. Qed.

Lemma undo_remove_empty (i : nat) (X : Fs → Prop) : (∀ fs, X fs → undo_at i fs ∧ entries fs i !! JOURNAL_NAME = None ∧ (c → ¬ stuck fs)) →
  triple c Safe X (remove_empty i cl) Safe (fun _ => clean is_old).
Proof.
  intros HX. eapply (triple_remove_empty c cl i is_old X rootless); [by left|intros fs H; apply (HX fs H)|apply rootless_safe|apply rootless_sync| |].
  - intros fs H HC. destruct (HX fs H) as (Hu & Hj & Hst). destruct (undo_bare _ _ Hu Hj) as (_ & _ & Hd). split; [apply Hu|]. split; [done|].
    destruct (decide (entries fs i = ∅)) as [|Hne]; [done|]. destruct (Hst HC). exists i. split; [apply Hu|by split].
  - intros fs H _ _. destruct (HX fs H) as (Hu & Hj & _). destruct (undo_bare _ _ Hu Hj) as (Ho & He & _). apply old_drop; [apply Hu|done|]. rewrite He. apply delete_singleton_eq.
Qed.

Lemma new_part_holds (i j : nat) (rest : Rest) (fs : Fs) : full fs i → part_now fs i j rest → ∃ j' o blobs, holds fs i j' o blobs ∧ inventory_of (length ms) j rest = inventory_of (length ms) j' (Some (o, blobs)).
Proof.
  intros [_ H] (He & Hj & Hr). apply dir_now, full_holds in H as (j' & o & blobs & Hh). exists j', o, blobs. split; [done|]. pose proof (holds_length plan _ _ _ _ _ Hh) as [Hl Hmax].
  destruct Hh as [Hf _ _ Hb _]. rewrite He in Hf. assert (j = j') as <-.
  { apply (f_equal (lookup JOURNAL_NAME)) in Hf. rewrite remains_journal, fence_map_journal in Hf. by injection Hf. }
  assert (fst <$> rest = Some o) as Ho. { apply (f_equal (lookup ORIGINALS_DIR_NAME)) in Hf. by rewrite remains_originals, fence_map_originals in Hf. }
  destruct rest as [[o' bs]|]; [|done]. injection Ho as ->. destruct Hr as (_ & Hb' & Hlb & _). rewrite Hb in Hb'. f_equal. f_equal. f_equal.
  eapply (blob_map_inj bs blobs); [pose proof (plan_bound plan); lia|done|done].
Qed.


Lemma undo_open {A} (i : nat) (X : Fs → Prop) (k : nat → Attr → M A) Q : (∀ fs, X fs → undo_at i fs) → (∀ owner, owner_is owner → triple c Safe X (k i owner) Safe Q) →
  triple c Safe X (fence ← open_existing_dir ROOT cl; owner ← owner_metadata g; validate_owned_directory fence owner 448 ;; k fence owner) Safe Q.
Proof.
  intros HX Hk. assert (∀ fs, X fs → Safe fs) as HE by (intros fs H; apply (HX fs H)).
  eapply (triple_read_eq _ _ _ _ _ _ _ _ _ i); [apply reads_open_existing_dir|done|done| | |].
  { intros fs H _. exists i. split; [apply (HX fs H)|]. by eapply dir_all_dir, undo_dir, HX. }
  { intros fs a H [Ha _]. destruct (HX fs H) as [_ He]. congruence. }
  eapply triple_read; [apply (reads_tree_owner plan)|done|done|intros fs H _; by apply safe_live, HE|intros owner].
  eapply (triple_pre _ _ _ _ (fun fs => owner_is owner ∧ X fs)); [apply triple_fact; intros Ho|intros fs [H HR]; split; [by apply HR, safe_live, HE|done]].
  eapply triple_check; [apply (reads_our_dir i owner (fun _ => True))|done|done| |intros []; by apply Hk].
  intros fs H HC. split; [auto|]. split; [done|]. by apply undo_dir, HX.
Qed.

Lemma undo_read {A} (i : nat) (owner : Attr) (X : Fs → Prop) (k : Journal → CleanupInventory → bool * bool → M A) Q : owner_is owner →
  (∀ fs, X fs → undo_at i fs ∧ is_Some (entries fs i !! JOURNAL_NAME)) →
  (∀ j rest r, triple c Safe (fun fs => X fs ∧ part_now fs i j rest ∧ (live fs is_old → r = (true, false)) ∧ (live fs is_new → r = (false, true))) (k J (inventory_of (length ms) j rest) r) Safe Q) →
  triple c Safe X (bytes ← read_journal_bytes i owner; ensure (bool_decide (cl = cleanup_name (sha256_hex bytes))) ;;
    journal ← some (validate_journal bytes (g_master g)); inventory ← validate_cleanup_inventory i owner journal;
    states ← classify_all journal; r ← all_one_side states; k journal inventory r) Safe Q.
Proof.
  intros Ho HX Hk. assert (∀ fs, X fs → Safe fs) as HE by (intros fs H; apply (HX fs H)).
  eapply (triple_pre _ _ _ _ (fun fs => ∃ j rest, X fs ∧ part_now fs i j rest)).
  2: { intros fs H. destruct (HX fs H) as [Hu [j' Hj]]. destruct (undo_journal _ _ _ Hu Hj) as (j & rest & Hp). eauto. }
  apply triple_exists. intros j. apply triple_exists. intros rest.
  assert (∀ fs, X fs ∧ part_now fs i j rest → Safe fs) as HE' by naive_solver.
  eapply (triple_read_eq _ _ _ _ _ _ _ _ _ jbytes); [apply (reads_our_bytes plan i owner)|done|done| | |].
  { intros fs [_ Hp] HC. split; [auto|]. split; [done|]. by eapply part_journal. }
  { intros fs a [_ Hp] H. eapply H, part_journal, Hp. }
  eapply triple_check; [apply reads_ensure|done|done|intros fs _ _; by apply bool_decide_eq_true_2|intros []].
  rewrite (plan_journal plan). eapply (triple_read_eq _ _ _ _ _ _ _ _ _ J); [apply reads_some|done|done|by intros fs _ _; eexists|intros fs a _ Ha; by injection Ha|].
  eapply (triple_read_eq _ _ _ _ _ _ _ _ _ (inventory_of (length ms) j rest)); [apply (reads_our_cleanup plan i owner)|done|done| | |].
  { intros fs [_ Hp] HC. split; [auto|]. split; [done|]. eauto. }
  { intros fs a [_ Hp] H. by apply H. }
  eapply triple_read; [apply reads_all|done|done|intros fs H _; by apply safe_live, HE'|intros states].
  eapply (triple_pre _ _ _ _ (fun fs => (X fs ∧ part_now fs i j rest) ∧ side_found fs states)); [|intros fs [H HR]; split; [done|]; by apply HR, safe_live, HE'].
  eapply (triple_read_eq _ _ _ _ _ _ _ _ _ (sides states)); [apply reads_one_side|naive_solver|naive_solver| |done|].
  { intros fs [[H _] (Hn & H1 & H2)] _. split; [done|]. destruct (HX fs H) as [Hu _]. destruct (undo_sides _ _ Hu) as [Hl|[Hl _]]; [rewrite (H1 Hl)|rewrite (H2 Hl)]; set_solver. }
  eapply triple_pre; [apply Hk|]. cbn. intros fs [[H Hp] (_ & H1 & H2)]. by split.
Qed.

(** ** [recover_cleanup] *)

Section Outcome.

(** When the root is known to be empty; when the fence is known to have a journal. *)
Context (bare_root sealed_fence : Prop).

(** [X]: what else holds, if nothing is done. *)
Definition recoverable (X : Fs → Prop) (fs : Fs) : Prop :=
  Safe fs ∧ restorable fs ∧ (c → ¬ stuck fs) ∧ (bare_root → entries fs ROOT = ∅)
  ∧ (sealed_fence → ∀ i, entries fs ROOT !! TXN_DIR_NAME = Some i → entries fs i !! JOURNAL_NAME ≠ None) ∧ X fs.

Definition recovered (X : Fs → Prop) (r : RecoveryOutcome) (fs : Fs) : Prop :=
  match r with
  | NothingToRecover => recoverable X fs ∧ entries fs ROOT !! TXN_DIR_NAME = None
  | SetupRemoved => ¬ bare_root ∧ ¬ sealed_fence ∧ clean is_old fs
  | RolledBack => ¬ bare_root ∧ clean is_old fs
  end.

Lemma recover_cleanup_ok (X : Fs → Prop) :
  triple c Safe (fun fs => recoverable X fs ∧ entries fs ROOT !! TXN_DIR_NAME = None) (recover_cleanup g) Safe (recovered X).
Proof.
  set (P := fun fs => recoverable X fs ∧ entries fs ROOT !! TXN_DIR_NAME = None). assert (∀ fs, P fs → Safe fs) as HE by (intros fs [H _]; apply H).
  unfold recover_cleanup. eapply triple_read; [apply (reads_our_candidate CLEANUP_DIR_PREFIX); by left|done|done|by intros fs H _; apply HE|intros [name|]].
  2: { apply triple_done. intros fs [H _]. exact H. }
  eapply (triple_pre _ _ _ _ (fun fs => (name = cl ∧ ¬ bare_root) ∧ ∃ i, P fs ∧ undo_at i fs)).
  2: { intros fs [H HR]. destruct (HR (HE fs H)) as [[i Hi] ->]. split; [|exists i; split; [done|]; split; [by apply HE|done]]. split; [done|]. intros Hb.
       destruct H as [(_ & _ & _ & H & _) _]. by rewrite (H Hb) in Hi. }
  apply triple_fact. intros [-> Hbare]. apply triple_exists. intros i. apply (undo_open i); [by intros fs [_ H]|]. intros owner Ho.
  eapply triple_read; [apply reads_inspect_at|naive_solver|naive_solver|done|intros o]. cbn beta.
  destruct (decide (o = None)) as [->|Hne].
  { rewrite bool_decide_eq_true_2 by done. eapply triple_bind; [apply (undo_remove_empty i)|intros []; by apply triple_done].
    intros fs [[((_ & _ & Hs & _) & _) Hu] Hj]. done. }
  rewrite bool_decide_eq_false_2 by done. apply (undo_read i owner); [done| |].
  { intros fs [[_ Hu] ->]. split; [done|]. by apply not_eq_None_Some. }
  intros j rest [b a]. destruct a.
  - eapply triple_check; [apply (reads_require i owner)|naive_solver|naive_solver| |intros []; apply triple_done; intros fs [[[H _] _] _]; exact H].
    intros fs [[[H Hu] _] (Hp & Hold & _)] HC. split; [auto|]. split; [done|]. destruct (undo_sides _ _ Hu) as [Hl|[_ Hf]]; [by specialize (Hold Hl)|]. by apply (new_part_holds i).
  - eapply (triple_pre _ _ _ _ (fun fs => undo_at i fs ∧ live fs is_old ∧ part_now fs i j rest)).
    2: { intros fs [[[H Hu] _] (Hp & _ & Hnew)]. split; [done|]. split; [|done]. destruct (undo_sides _ _ Hu) as [Hl|[Hl _]]; [done|]. by specialize (Hnew Hl). }
    assert (∀ fs, undo_at i fs ∧ live fs is_old ∧ part_now fs i j rest → Safe fs) as HE' by (intros fs [[H _] _]; done).
    eapply triple_check; [apply reads_current|done|done|intros fs [[_ H] _] _; exact H|intros []].
    eapply triple_bind; [apply (triple_sync_dir _ _ _ _ _ (left_over cl is_old i j rest)); [done|done|]; intros fs (Hu & Hl & Hp); by apply undo_old|intros []].
    eapply triple_bind; [apply (remove_cleanup plan); by left|intros []].
    eapply triple_bind; [apply triple_sync_dir; [intros fs; apply clean_safe; by left|intros fs; apply clean_safe; by left|intros fs; apply clean_sync]|intros []].
    by apply triple_done.
Qed.

(** ** [recover_fixed] *)

Lemma txn_dir (i : nat) (fs : Fs) : Safe fs → entries fs ROOT !! TXN_DIR_NAME = Some i → dir_all fs i (fun _ => True).
Proof.
  intros Hs He. destruct (safe_txn _ _ Hs He) as [_ [[_ (_ & a & d & Hd & Hok & _)]|[_ [_ H]]]]; [by exists a, d|]. by eapply dir_all_impl.
Qed.

Lemma txn_bare (i : nat) (fs : Fs) : Safe fs → entries fs ROOT !! TXN_DIR_NAME = Some i → entries fs i !! JOURNAL_NAME = None → ∃ stage rest, set_up i stage rest fs.
Proof.
  intros Hs He Hj. destruct (safe_txn _ _ Hs He) as [Hr [[Ho (Hi & a & d & Hd & Hok & H)]|[_ [_ H]]]].
  - destruct H as [H|[_ (j & o & H & _)]].
    + assert (dir_all fs i (setup_view fs i)) as Hb by (by exists a, d). destruct (setup_now_of _ _ (dir_now _ _ _ Hb)) as (st & rest & Hn). exists st, rest. split; [|done].
      split; [apply Hs|]. by split_and!.
    + unfold entries in Hj. by rewrite Hd, H, fence_map_journal in Hj.
  - apply dir_now in H as (j & o & H & _). by rewrite H, fence_map_journal in Hj.
Qed.

Lemma txn_fenced (i : nat) (fs : Fs) : Safe fs → restorable fs → entries fs ROOT !! TXN_DIR_NAME = Some i → entries fs i !! JOURNAL_NAME ≠ None → ∃ j o blobs, fenced i j o blobs fs.
Proof.
  intros Hs Hres He Hj. destruct (safe_txn _ _ Hs He) as [Hr Hcase]. assert (full_view fs i (entries fs i)) as Hv.
  { destruct Hcase as [[_ (_ & a & d & Hd & _ & [H|[_ H]])]|[_ [_ H]]]; [|unfold entries; by rewrite Hd|by apply dir_now in H].
    unfold entries in Hj. rewrite Hd in Hj. destruct (H _ (dviews_now d)) as (st & ro & Hm & _). by rewrite Hm, setup_map_journal in Hj. }
  apply full_holds in Hv as (j & o & blobs & Hh). exists j, o, blobs. split; [apply Hs|]. by split_and!.
Qed.

Lemma recover_fixed_ok (X : Fs → Prop) : triple c Safe (recoverable X) (recover_fixed g) Safe (recovered X).
Proof.
  assert (∀ fs, recoverable X fs → Safe fs) as HE by (intros fs H; apply H).
  unfold recover_fixed. eapply triple_read; [apply reads_open_dir|done|done| |intros [i|]].
  { intros fs H _ i Hi. by eapply dir_all_dir, txn_dir, Hi; apply HE. }
  2: { eapply triple_pre; [apply recover_cleanup_ok|]. by intros fs [H [He _]]. }
  set (P := fun fs => recoverable X fs ∧ entries fs ROOT !! TXN_DIR_NAME = Some i). eapply (triple_pre _ _ _ _ (fun fs => ¬ bare_root ∧ P fs)).
  2: { intros fs [H [He _]]. split; [|done]. intros Hb. destruct H as (_ & _ & _ & H & _). by rewrite (H Hb) in He. }
  apply triple_fact. intros Hbare.
  assert (∀ fs, P fs → Safe fs) as HE' by (intros fs [H _]; auto).
  eapply triple_read; [apply (reads_tree_owner plan)|done|done|intros fs H _; by apply safe_live, HE'|intros owner].
  eapply (triple_pre _ _ _ _ (fun fs => owner_is owner ∧ P fs)); [apply triple_fact; intros Ho|intros fs [H HR]; split; [by apply HR, safe_live, HE'|done]].
  eapply triple_check; [apply (reads_our_dir i owner (fun _ => True))|done|done| |intros []].
  { intros fs H HC. split; [auto|]. split; [done|]. apply txn_dir; [by apply HE'|apply H]. }
  eapply triple_read; [apply reads_inspect_at|naive_solver|naive_solver|done|intros o]. destruct (decide (o = None)) as [->|Hne].
  - rewrite bool_decide_eq_true_2 by done. eapply (triple_pre _ _ _ _ (fun fs => ¬ sealed_fence ∧ ∃ stage rest, set_up i stage rest fs)).
    2: { intros fs [[H He] Hj]. split; [|by apply txn_bare; [apply HE|..]]. intros Hs. destruct H as (_ & _ & _ & _ & H & _). by destruct (H Hs i He). }
    apply triple_fact. intros Hsealed. apply triple_exists. intros stage. apply triple_exists. intros rest.
    eapply (triple_read_eq _ _ _ _ _ _ _ _ _ (setup_inventory_of stage rest)); [apply (reads_our_setup plan i owner)|intros fs; apply set_up_safe|intros fs; apply set_up_safe| | |].
    + intros fs [_ H] HC. split; [auto|]. split; [done|]. eauto.
    + intros fs a [_ H] HR. by apply HR.
    + eapply triple_bind; [apply (remove_setup plan)|intros []; by apply triple_done].
  - rewrite bool_decide_eq_false_2 by done. eapply (triple_pre _ _ _ _ (fun fs => ∃ j o blobs, fenced i j o blobs fs)).
    2: { intros fs [[H He] ->]. apply txn_fenced; [by apply HE|apply H|done|done]. }
    apply triple_exists. intros j. apply triple_exists. intros o'. apply triple_exists. intros blobs.
    eapply triple_conseq; [by apply recover_journal_ok|done|]. by intros r fs [-> H].
Qed.


End Outcome.

End Recovery.
