(* ===== verification/MigrationTrust.v ===== *)
(** * Who owns the files of a transaction

    What is said of the disk may leave out the owner of some nodes: of a node that
    a command running as root has made and not yet given away, or of all that a
    killed command left.  Nodes that are seen to belong to the owner of the tree
    can be added. *)

From S2P Require Import Prelude RustStr Ast Membership DiskTree MigrationJournal MigrationTxn DiskLogic MigrationReads MigrationPlan MigrationState.

(** ** The nodes of a transaction *)

(** A directory names a node, now or after a power cut. *)
Definition shows (fs : Fs) (d i : nat) : Prop := ∃ a dir V name, fs_nodes fs !! d = Some (NDir a dir) ∧ dviews dir V ∧ V !! name = Some i.

(** The root names the directory of a transaction, which names its journal and
    the directory of the originals, which names them. *)
Definition in_tree (fs : Fs) (i : nat) : Prop :=
  shows fs ROOT i ∨ (∃ j, shows fs ROOT j ∧ shows fs j i) ∨ (∃ j k, shows fs ROOT j ∧ shows fs j k ∧ shows fs k i).

Definition node_owned (owner : Attr) (n : Node) : bool :=
  match n with NFile _ => file_ok owner 384 n | NDir _ _ => dir_ok owner 448 n | NOther => true end.

Section Trust.

Context {sha : Sha2Crate} {json : JsonCrate} {tx : Migration} (t t' : Owners).

#[local] Abbreviation g := tx_guard.
#[local] Abbreviation ms := tx_members.
#[local] Abbreviation ow := tx_owner.
#[local] Abbreviation J := tx_journal.
#[local] Abbreviation jbytes := tx_bytes.

Context (plan : planned g ms ow J jbytes) (fs : Fs).
(** [D] holds of the nodes of the transactions. *)
Context (D : nat → Prop) (HD : ∀ i, in_tree fs i → D i).
Context (U : ∀ i n, D i → fs_nodes fs !! i = Some n → trusted (Owners := t') i → trusted (Owners := t) i ∨ node_owned ow n = true).

Lemma trust_good i : D i → good_file (tr := t) fs i → good_file (tr := t') fs i.
Proof. intros Hi (f & Hf & Ho). exists f. split; [done|]. intros H. destruct (U i _ Hi Hf H); [auto|done]. Qed.

Lemma trust_stage i : D i → stage_file (tr := t) fs i → stage_file (tr := t') fs i.
Proof. intros Hi (f & Hf & Ho & Hl). exists f. split; [done|]. split; [|done]. intros H. destruct (U i _ Hi Hf H); [auto|done]. Qed.

Lemma trust_holding bytes i : D i → holding (tr := t) fs bytes i → holding (tr := t') fs bytes i.
Proof. intros Hi (f & Hf & Hs & Hb & Ho). exists f. split; [done|]. split; [done|]. split; [done|]. intros H. destruct (U i _ Hi Hf H); [auto|done]. Qed.

Lemma trust_dir (i : nat) (P P' : gmap str nat → Prop) : D i → dir_all (tr := t) fs i P →
  (∀ V, (∀ name j, V !! name = Some j → shows fs i j) → P V → P' V) → dir_all (tr := t') fs i P'.
Proof.
  intros Hi (a & d & Hd & Ho & H) HP. exists a, d. split; [done|]. split; [intros HT; destruct (U i _ Hi Hd HT); [auto|done]|].
  intros V HV. apply HP; [|by apply H]. intros name j Hj. by exists a, d, V, name.
Qed.

Lemma trust_blobs (W : gmap str nat) (blobs : list nat) : W = blob_map blobs → length blobs ≤ length ms → (∀ name b, W !! name = Some b → D b) → ∀ k b, blobs !! k = Some b → D b.
Proof. intros -> Hl H k b Hb. eapply H, blob_map_at; [|done]. pose proof (plan_bound plan). lia. Qed.

Lemma trust_full (W : gmap str nat) : (∀ name b, W !! name = Some b → D b) → blobs_full (tr := t) fs W → blobs_full (tr := t') fs W.
Proof.
  intros HW (blobs & He & H). exists blobs. split; [done|]. pose proof (Forall2_length _ _ _ H) as Hl. pose proof (trust_blobs W blobs He ltac:(lia) HW) as Hin.
  apply Forall2_same_length_lookup. split; [done|]. intros k m b Hm Hb. apply trust_holding; [by eapply Hin|]. by eapply (Forall2_lookup_lr _ _ _ k m b H).
Qed.

Lemma trust_part (W : gmap str nat) : (∀ name b, W !! name = Some b → D b) → blobs_part (tr := t) fs W → blobs_part (tr := t') fs W.
Proof.
  intros HW (blobs & He & Hl & H). exists blobs. split; [done|]. split; [done|]. apply Forall_lookup. intros k b Hb.
  apply trust_good; [by eapply (trust_blobs W blobs)|]. by eapply Forall_lookup in H.
Qed.

(** [i] is a directory of a transaction. *)
Section Dir.

Context (i : nat) (Hi : shows fs ROOT i).

Lemma trust_below (o : nat) (P P' : gmap str nat → Prop) : shows fs i o → below (tr := t) fs i o P →
  (∀ W, (∀ name b, W !! name = Some b → D b) → P W → P' W) → below (tr := t') fs i o P'.
Proof. intros Ho [Hlt H] HP. split; [done|]. eapply trust_dir; [apply HD; right; left; eauto|exact H|]. intros V HV. apply HP. intros name b Hb. apply HD. right. right. exists i, o. eauto. Qed.

Lemma trust_setup_view (V : gmap str nat) : (∀ name j, V !! name = Some j → shows fs i j) → setup_view (tr := t) fs i V → setup_view (tr := t') fs i V.
Proof.
  intros HV (st & ro & -> & Hs & Ho). exists st, ro. split; [done|]. split.
  - intros s ->. apply trust_stage; [|by apply Hs]. apply HD. right. left. exists i. split; [done|]. eapply HV, setup_map_stage.
  - intros o ->. eapply trust_below; [eapply HV; rewrite setup_map_originals; done|by apply Ho|]. apply trust_part.
Qed.

Lemma trust_full_view (V : gmap str nat) : (∀ name j, V !! name = Some j → shows fs i j) → full_view (tr := t) fs i V → full_view (tr := t') fs i V.
Proof.
  intros HV (j & o & -> & Hj & Ho). exists j, o. split; [done|]. split.
  - apply trust_holding; [|done]. apply HD. right. left. exists i. split; [done|]. eapply HV, fence_map_journal.
  - eapply trust_below; [eapply HV, fence_map_originals|exact Ho|]. apply trust_full.
Qed.

Lemma trust_part_view (V : gmap str nat) : (∀ name j, V !! name = Some j → shows fs i j) → part_view (tr := t) fs i V → part_view (tr := t') fs i V.
Proof.
  intros HV [->|(j & ro & -> & Hj & Ho)]; [by left|right]. exists j, ro. split; [done|]. split.
  - apply trust_holding; [|done]. apply HD. right. left. exists i. split; [done|]. eapply HV, remains_journal.
  - intros o ->. eapply trust_below; [eapply HV; rewrite remains_originals; done|by apply Ho|]. apply trust_part.
Qed.

Lemma trust_fulldir : full (tr := t) fs i → full (tr := t') fs i.
Proof. intros [Hr H]. split; [done|]. eapply trust_dir; [apply HD; by left|exact H|]. apply trust_full_view. Qed.

Lemma trust_loose : loose (tr := t) fs i → loose (tr := t') fs i.
Proof.
  intros [Hr H]. split; [done|]. eapply trust_dir; [apply HD; by left|exact H|]. intros V HV [H'|H']; [left; by apply trust_setup_view|right; by apply trust_part_view].
Qed.

Lemma trust_setup : setup (tr := t) fs i → setup (tr := t') fs i.
Proof.
  intros [Hr (a & d & Hd & Ho & H)]. split; [done|]. exists a, d. split; [done|]. split; [intros HT; destruct (U i _ (HD i ltac:(by left)) Hd HT); [auto|done]|].
  assert (∀ V, dviews d V → ∀ name j, V !! name = Some j → shows fs i j) as Hs by (intros V HV name j Hj; by exists a, d, V, name).
  destruct H as [H|[H Hn]]; [left|right; split].
  - intros V HV. apply trust_setup_view; [by apply Hs|by apply H].
  - intros V HV. destruct (H V HV) as [H'|H']; [left; apply trust_setup_view; [by apply Hs|done]|right; apply trust_full_view; [by apply Hs|done]].
  - apply trust_full_view; [|done]. apply Hs, dviews_now.
Qed.

End Dir.

Lemma trust_root (P P' : gmap str nat → Prop) : root_all fs P → (∀ V, (∀ name j, V !! name = Some j → shows fs ROOT j) → P V → P' V) → root_all fs P'.
Proof. intros (a & d & Hd & H) HP. exists a, d. split; [done|]. intros V HV. apply HP; [|by apply H]. intros name j Hj. by exists a, d, V, name. Qed.

Lemma trust_old : Old (tr := t) fs → Old (tr := t') fs.
Proof.
  intros (Hl & Hr & Hn). split; [done|]. split; [|done]. eapply trust_root; [exact Hr|]. intros V HV [->|[(i & -> & Hi)|(i & -> & Hi)]]; [by left|right; left|right; right];
    exists i; (split; [done|]); [apply trust_setup|apply trust_loose]; try done; (eapply HV, lookup_singleton_eq).
Qed.

(** What is known of the state without the owners holds with them. *)
Lemma trust_safe : Safe (tr := t) fs → Safe (tr := t') fs.
Proof.
  intros [Hf H]. split; [done|]. destruct H as [H|[(Hl & i & Hi & Hr)|(Hl & Hr)]]; [left; by apply trust_old|right; left|right; right].
  - split; [done|]. exists i. split; [|done]. apply trust_fulldir; [|done]. destruct Hr as (a & d & Hd & Hr). exists a, d, (dir_view d), TXN_DIR_NAME. split; [done|]. split; [apply dviews_now|].
    rewrite (Hr _ (dviews_now d)). apply lookup_singleton_eq.
  - split; [done|]. eapply trust_root; [exact Hr|]. intros V HV [->|[(i & -> & Hi)|[(i & -> & Hi)|(i & -> & Hi)]]]; [by left|right; left|do 2 right; left|do 3 right];
      exists i; (split; [done|]); [apply trust_fulldir|apply trust_fulldir|apply trust_loose]; try done; (eapply HV, lookup_singleton_eq).
Qed.

End Trust.

(** All owners are known. *)
Definition everyone : Owners := fun _ => True.

(** Fewer trusted nodes. *)
Lemma trust_less {sha : Sha2Crate} {json : JsonCrate} {tx : Migration} (t t' : Owners) : planned tx_guard tx_members tx_owner tx_journal tx_bytes →
  (∀ i, trusted (Owners := t') i → trusted (Owners := t) i) → ∀ fs, Safe (tr := t) fs → Safe (tr := t') fs.
Proof. intros plan H fs. apply (trust_safe t t' plan fs (fun _ => True)); auto. Qed.

(** All that the transactions have made belongs to the owner of the tree. *)
Definition domestic {tx : Migration} (fs : Fs) : Prop := ∀ i n, in_tree fs i → fs_nodes fs !! i = Some n → node_owned tx_owner n = true.

Lemma domestic_safe {sha : Sha2Crate} {json : JsonCrate} {tx : Migration} (t : Owners) (fs : Fs) : planned tx_guard tx_members tx_owner tx_journal tx_bytes →
  domestic fs → Safe (tr := t) fs → Safe (tr := everyone) fs.
Proof. intros plan Hd. apply (trust_safe t everyone plan fs (in_tree fs)); [done|]. intros i n Hi Hn _. right. by eapply Hd. Qed.
