(* ===== verification/MigrationDraft.v ===== *)
(** * The states of publication

    What is on disk between the steps of [publish] of
    [src/config/migration_journal.rs]: the fence, the directory of the originals,
    the originals and the journal, each from the moment it is made until it is
    there for good. *)

From S2P Require Import Prelude RustStr Ast Membership DiskTree MigrationJournal MigrationTxn DiskLogic MigrationReads MigrationPlan MigrationState MigrationSteps MigrationFacts.
From S2P Require Import MigrationRemoval MigrationWrite MigrationRecovery MigrationTrust.

#[local] Opaque original_blob_file_name.

Lemma with_attr_dir (h : Attr → Attr) (x : nat) (fs : Fs) (a : Attr) (d : Dir) : fs_nodes fs !! x = Some (NDir a d) → with_attr h x fs = set_node x (NDir (h a) d) fs.
Proof. intros H. unfold with_attr. by rewrite H. Qed.

Lemma with_attr_file (h : Attr → Attr) (x : nat) (fs : Fs) (f : FileNode) : file_at fs x f →
  with_attr h x fs = set_node x (NFile {| fl_bytes := fl_bytes f; fl_attr := h (fl_attr f); fl_nlink := fl_nlink f; fl_synced := fl_synced f |}) fs.
Proof. intros H. unfold with_attr. by rewrite H. Qed.

Lemma with_file_at (h : FileNode → FileNode) (x : nat) (fs : Fs) (f : FileNode) : file_at fs x f → with_file h x fs = set_node x (NFile (h f)) fs.
Proof. intros H. unfold with_file. by rewrite H. Qed.

(** The node is replaced by one with the same entries. *)
Definition same_entries (n n' : Node) : Prop :=
  match n, n' with NDir _ d, NDir _ d' => dir_view d' = dir_view d | NFile _, NFile _ => True | NOther, NOther => True | _, _ => False end.

Lemma set_node_entries (x : nat) (n n' : Node) (fs : Fs) (d : nat) : fs_nodes fs !! x = Some n → same_entries n n' → entries (set_node x n' fs) d = entries fs d.
Proof.
  intros Hx Hs. unfold entries. cbn. destruct (decide (x = d)) as [<-|Hne]; [|by rewrite lookup_insert_ne]. rewrite lookup_insert_eq, Hx.
  by destruct n, n'.
Qed.

Lemma set_node_fresh (x : nat) (n n' : Node) (fs : Fs) : fs_nodes fs !! x = Some n → fresh_ok fs → fresh_ok (set_node x n' fs).
Proof. intros Hx Hf i y. cbn. intros [[<- _]|[_ H]]%lookup_insert_Some; by eapply Hf. Qed.

Definition empty_dir : Dir := {| dir_disk := ∅; dir_pending := [] |}.

Section Draft.

Context {sha : Sha2Crate} {json : JsonCrate} {tx : Migration} {tr : Owners}.

#[local] Abbreviation g := tx_guard.
#[local] Abbreviation ms := tx_members.
#[local] Abbreviation ow := tx_owner.
#[local] Abbreviation J := tx_journal.
#[local] Abbreviation jbytes := tx_bytes.

Context (plan : planned g ms ow J jbytes) .

(** What recovery starts from. *)
Definition sound (fs : Fs) : Prop := Safe fs ∧ restorable fs.

Lemma old_sound (fs : Fs) : fresh_ok fs → Old fs → sound fs.
Proof. intros Hf Ho. split; [split; [done|by left]|]. apply old_restorable, Ho. Qed.

Section Build.

(** What depends on the members only. *)
Context (Y : Fs → Prop) (HY : ∀ fs fs', fs_live fs' = fs_live fs → Y fs → Y fs').

(** ** The fence *)

Definition raising (i : nat) (a : Attr) (fs : Fs) : Prop :=
  fresh_ok fs ∧ Old fs ∧ entries fs ROOT = {[TXN_DIR_NAME := i]} ∧ i ≠ ROOT ∧ Y fs
  ∧ fs_nodes fs !! i = Some (NDir a empty_dir) ∧ at_mode a = 448%Z ∧ (trusted i → owner_is a).

Lemma raising_sound i a fs : raising i a fs → sound fs.
Proof. intros (Hf & Ho & _). by apply old_sound. Qed.

Lemma empty_setup_view (fs : Fs) (i : nat) : setup_view fs i ∅.
Proof. exists None, None. split; [done|]. by split. Qed.

Lemma empty_view V : dviews empty_dir V → V = ∅.
Proof. intros H. by apply dviews_synced in H. Qed.

Lemma owned_448 a : at_mode a = 448%Z → owner_is a → owned_with_mode ow a 448 = true.
Proof. intros Hm [H1 H2]. unfold owned_with_mode. rewrite H1, H2, Hm. by rewrite bool_decide_eq_true_2. Qed.

Lemma owned_is a mode : owned_with_mode ow a mode = true → owner_is a.
Proof. intros [H _]%andb_true_iff. apply bool_decide_eq_true_1 in H. by injection H. Qed.

Lemma raise (fs : Fs) (a : Attr) : fresh_ok fs → Old fs → entries fs ROOT = ∅ → Y fs → at_mode a = 448%Z → (trusted (fs_next fs) → owner_is a) →
  raising (fs_next fs) a (add_node ROOT TXN_DIR_NAME (NDir a empty_dir) fs).
Proof.
  intros Hf (Hl & Hr & _) He Hy Hm Ha. pose proof (root_dir _ _ Hr) as Hdir. pose proof Hdir as (ar & dr & Hroot). pose proof (Hf _ _ Hroot) as Hlt. set (i := fs_next fs) in *.
  set (fs1 := alloc (NDir a empty_dir) fs). pose proof (add_keeps true ROOT TXN_DIR_NAME (NDir a empty_dir) fs Hf Hdir) as K. change (add_node ROOT TXN_DIR_NAME (NDir a empty_dir) fs) with (push_update ROOT [(TXN_DIR_NAME, Some i)] fs1) in *.
  set (fs' := push_update ROOT [(TXN_DIR_NAME, Some i)] fs1) in *. assert (dir_at fs1 ROOT) as Hdir1 by (exists ar, dr; by apply alloc_old).
  assert (fs_live fs' = fs_live fs) as Hlive by (exact (push_live fs1 ROOT _)).
  assert (entries fs1 ROOT = ∅) as He1 by (unfold fs1; by rewrite alloc_entries).
  assert (fs_nodes fs' !! i = Some (NDir a empty_dir)) as Hi by (unfold fs'; rewrite nodes_push_ne by (unfold ROOT in *; lia); apply alloc_at).
  assert (entries fs' ROOT = {[TXN_DIR_NAME := i]}) as He' by (unfold fs'; rewrite entries_push by done; rewrite He1; done).
  assert (setup fs' i) as Hset. { split; [unfold ROOT in *; lia|]. exists a, empty_dir. split; [done|]. split; [intros HC; by apply owned_448; [|apply Ha]|]. left. intros V ->%empty_view. apply empty_setup_view. }
  assert (root_all fs1 (old_root fs)) as Hr1 by (destruct Hr as (ar' & dr' & Hd & Hr); exists ar', dr'; split; [by apply alloc_old|done]).
  split; [apply push_fresh, alloc_fresh, Hf|]. split; [|split; [done|]; split; [unfold ROOT in *; lia|]; split; [by eapply HY|done]].
  split; [by eapply keeps_live|]. split.
  - eapply root_push; [exact Hr1|intros V; apply (keeps_old_root K); by right|]. rewrite He1. right. left. exists i. split; [done|done].
  - intros i' Hi'. rewrite He', lookup_singleton_eq in Hi'. injection Hi' as <-. eapply root_push; [exact Hr1| |left; by rewrite He1].
    intros V HV. right. intros k i' Hk. assert (loose fs i') as Hloose.
    { destruct HV as [->|[(i'' & -> & H)|(i'' & -> & H)]]; [done|..]; apply lookup_singleton_Some in Hk as [<- <-]; [by apply setup_loose|done]. }
    eapply keeps_older; [exact K|destruct Hloose; congruence|]. destruct Hloose as [_ (a' & d' & Hd' & _ & Hv)]. split; [by eapply Hf|]. exists a', d'. split; [done|].
    intros V' o HV' Ho. destruct (view_originals _ _ _ _ (Hv V' HV') Ho) as [_ [n Hn]]. by eapply Hf.
Qed.

(** A directory that is new keeps its place when its owner is set. *)
Lemma dir_attr_keeps (x : nat) (a : Attr) (d : Dir) (h : Attr → Attr) (fs : Fs) : fs_nodes fs !! x = Some (NDir a d) → (trusted x → h a = a) →
  keeps true None fs (with_attr h x fs) ∧ fs_live (with_attr h x fs) = fs_live fs ∧ (∀ d, entries (with_attr h x fs) d = entries fs d)
  ∧ fs_nodes (with_attr h x fs) !! x = Some (NDir (h a) d) ∧ (fresh_ok fs → fresh_ok (with_attr h x fs)).
Proof.
  intros Hx Ha. rewrite (with_attr_dir _ _ _ _ _ Hx). split; [eapply keeps_set_node; [done|]; split; [done|by left]|]. split; [done|].
  split; [intros y; by eapply set_node_entries|]. split; [apply lookup_insert_eq|by eapply set_node_fresh].
Qed.

Lemma raising_attr (i : nat) (a : Attr) (h : Attr → Attr) (fs : Fs) : raising i a fs → at_mode (h a) = 448%Z → (trusted i → h a = a) → raising i (h a) (with_attr h i fs).
Proof.
  intros (Hf & Ho & He & Hi & Hy & Hn & Hm & Ha) Hm' Ha'. destruct (dir_attr_keeps i a empty_dir h fs Hn Ha') as (K & Hlive & Hent & Hn' & Hf').
  split; [auto|]. split; [eapply keeps_old; [done| |done]; by eapply keeps_live|]. split; [by rewrite Hent|]. split; [done|]. split; [by eapply HY|]. split; [done|]. split; [done|].
  intros HC. rewrite (Ha' HC). auto.
Qed.

Lemma sync_empty (x : nat) (a : Attr) (d : nat) (fs : Fs) : fs_nodes fs !! x = Some (NDir a empty_dir) → fs_nodes (sync_at d fs) !! x = Some (NDir a empty_dir).
Proof.
  intros Hx. unfold sync_at. destruct (decide (d = x)) as [->|Hne]; [rewrite Hx; cbn; by rewrite lookup_insert_eq|].
  destruct (fs_nodes fs !! d) as [[| |]|]; cbn; rewrite ?lookup_insert_ne by done; done.
Qed.

Lemma raising_sync (i d : nat) (a : Attr) (fs : Fs) : raising i a fs → raising i a (sync_at d fs).
Proof.
  intros (Hf & Ho & He & Hi & Hy & Hn & Hm & Ha). pose proof (keeps_sync true fs d) as K. split; [by apply sync_fresh|].
  split; [eapply keeps_old; [done| |done]; eapply keeps_live; [done|apply sync_live]|]. split; [by rewrite entries_sync|]. split; [done|].
  split; [eapply HY; [apply sync_live|done]|]. split; [by apply sync_empty|done].
Qed.

(** The fence stands. *)
Definition base (i : nat) (fs : Fs) : Prop := fresh_ok fs ∧ live fs is_old ∧ at_root fs TXN_DIR_NAME i ∧ i ≠ ROOT ∧ Y fs.

Definition raised (i : nat) (fs : Fs) : Prop := base i fs ∧ dir_all fs i (fun V => V = ∅).

Lemma raising_done (i : nat) (a : Attr) (fs : Fs) : raising i a fs → raised i (sync_at ROOT fs).
Proof.
  intros H. pose proof (raising_sync i ROOT a fs H) as (Hf & (Hl & _) & _ & Hi & Hy & Hn & Hm & Ha). destruct H as (_ & (_ & Hr & _) & He & _). split.
  - split; [done|]. split; [done|]. split; [|done]. eapply root_all_impl; [by apply root_sync|]. intros V [-> _]. done.
  - exists a, empty_dir. split; [done|]. split; [intros HC; by apply owned_448; [|apply Ha]|]. apply empty_view.
Qed.

(** ** The directory of the originals *)

Lemma base_sound (i : nat) (fs : Fs) : base i fs → setup fs i → sound fs.
Proof. intros (Hf & Hl & Hr & _) Hi. apply old_sound; [done|]. by eapply fenced_old. Qed.

Lemma base_keeps (short : bool) (x : option nat) (i : nat) (fs fs' : Fs) : keeps short x fs fs' → x ≠ Some ROOT → fs_live fs' = fs_live fs → fresh_ok fs' → base i fs → base i fs'.
Proof.
  intros K Hx Hlive Hf' (Hf & Hl & Hr & Hi & Hy). split; [done|]. split; [by eapply keeps_live|]. split; [by eapply keeps_root_all|]. split; [done|]. by eapply HY.
Qed.

Definition room (o : nat) : gmap str nat := {[ORIGINALS_DIR_NAME := o]}.

Lemma room_setup_view (fs : Fs) (i o : nat) : below fs i o (blobs_part fs) → setup_view fs i (room o).
Proof. intros H. exists None, (Some o). split; [done|]. split; [done|]. by intros ? [= <-]. Qed.

Definition rooming (i o : nat) (a : Attr) (fs : Fs) : Prop :=
  base i fs ∧ i < o ∧ dir_all fs i (fun V => V = ∅ ∨ V = room o) ∧ entries fs i = room o
  ∧ fs_nodes fs !! o = Some (NDir a empty_dir) ∧ at_mode a = 448%Z ∧ (trusted o → owner_is a).

Lemma empty_originals (fs : Fs) (o : nat) (a : Attr) : fs_nodes fs !! o = Some (NDir a empty_dir) → at_mode a = 448%Z → (trusted o → owner_is a) → dir_all fs o (fun V => V = ∅).
Proof. intros Ho Hm Ha. exists a, empty_dir. split; [done|]. split; [intros HC; by apply owned_448; [|apply Ha]|apply empty_view]. Qed.

Lemma empty_part (fs : Fs) : blobs_part fs ∅.
Proof. exists []. split; [done|]. split; [cbn; lia|done]. Qed.

Lemma rooming_sound i o a fs : rooming i o a fs → sound fs.
Proof.
  intros (Hb & Hlt & Hd & _ & Ho & Hm & Ha). eapply base_sound; [done|]. apply bare_setup. split; [apply Hb|]. eapply dir_all_impl; [exact Hd|].
  intros V [-> | ->]; [apply empty_setup_view|]. apply room_setup_view. split; [done|]. eapply dir_all_impl; [by eapply empty_originals|]. intros W ->. apply empty_part.
Qed.

Lemma make_room (i : nat) (a : Attr) (fs : Fs) : raised i fs → at_mode a = 448%Z → (trusted (fs_next fs) → owner_is a) →
  rooming i (fs_next fs) a (add_node i ORIGINALS_DIR_NAME (NDir a empty_dir) fs).
Proof.
  intros [Hb Hd] Hm Ha. pose proof Hb as (Hf & _ & _ & Hi & _). pose proof (dir_all_dir _ _ _ Hd) as Hdir. pose proof Hdir as (ai & di & Hin). pose proof (Hf _ _ Hin) as Hlt.
  pose proof (add_keeps true i ORIGINALS_DIR_NAME (NDir a empty_dir) fs Hf Hdir) as K. set (fs1 := alloc (NDir a empty_dir) fs).
  change (add_node i ORIGINALS_DIR_NAME (NDir a empty_dir) fs) with (push_update i [(ORIGINALS_DIR_NAME, Some (fs_next fs))] fs1) in *.
  assert (dir_all fs1 i (fun V => V = ∅)) as Hd1 by (destruct Hd as (a' & d' & Hd' & H'); exists a', d'; split; [by apply alloc_old|done]).
  assert (entries fs1 i = ∅) as He1 by (by apply dir_now in Hd1).
  split; [eapply base_keeps; [exact K|congruence|exact (push_live fs1 i _)|apply push_fresh, alloc_fresh, Hf|done]|]. split; [done|]. split; [|split].
  - eapply dir_push; [exact Hd1|by left|]. rewrite He1. by right.
  - rewrite entries_push by (by eapply dir_all_dir). by rewrite He1.
  - split; [|done]. rewrite nodes_push_ne by lia. apply alloc_at.
Qed.

Lemma rooming_attr (i o : nat) (a : Attr) (h : Attr → Attr) (fs : Fs) : rooming i o a fs → at_mode (h a) = 448%Z → (trusted o → h a = a) → rooming i o (h a) (with_attr h o fs).
Proof.
  intros (Hb & Hlt & Hd & He & Ho & Hm & Ha) Hm' Ha'. destruct (dir_attr_keeps o a empty_dir h fs Ho Ha') as (K & Hlive & Hent & Hn' & Hf').
  split; [eapply base_keeps; [done|done|done|apply Hf', Hb|done]|]. split; [done|]. split; [by eapply (keeps_dir_all K)|]. split; [by rewrite Hent|]. split; [done|]. split; [done|].
  intros HC. rewrite (Ha' HC). auto.
Qed.

Lemma rooming_sync (i o d : nat) (a : Attr) (fs : Fs) : rooming i o a fs → rooming i o a (sync_at d fs).
Proof.
  intros (Hb & Hlt & Hd & He & Ho & Hm & Ha). pose proof (keeps_sync true fs d) as K.
  split; [eapply base_keeps; [done|done|apply sync_live|apply sync_fresh, Hb|done]|]. split; [done|]. split; [by eapply (keeps_dir_all K)|]. split; [by rewrite entries_sync|].
  split; [by apply sync_empty|done].
Qed.

(** The directory of the originals is there for good. *)
Definition shelf (i o : nat) (names : list nat) (fs : Fs) : Prop :=
  base i fs ∧ i < o ∧ dir_all fs i (fun V => V = room o) ∧ dir_all fs o (blobs_part fs) ∧ entries fs o = blob_map names.

(** The originals of the first members are saved. *)
Definition saved (bl : list nat) (fs : Fs) : Prop := Forall2 (fun m b => holding fs (mm_before m) b) (take (length bl) ms) bl.

Definition saving (i o : nat) (bl : list nat) (fs : Fs) : Prop := shelf i o bl fs ∧ length bl ≤ length ms ∧ saved bl fs.

Lemma rooming_done (i o : nat) (a : Attr) (fs : Fs) : rooming i o a fs → saving i o [] (sync_at i fs).
Proof.
  intros H. pose proof (rooming_sync i o i a fs H) as (Hb & Hlt & _ & _ & Ho & Hm & Ha). destruct H as (_ & _ & Hd & He & _).
  pose proof (empty_originals _ _ _ Ho Hm Ha) as Hemp. split; [|split; [cbn; lia|constructor]]. split; [done|]. split; [done|].
  split; [eapply dir_all_impl; [by apply dir_sync|]; intros V [-> _]; done|]. split; [eapply dir_all_impl; [exact Hemp|]; intros V ->; apply empty_part|]. by apply dir_now in Hemp.
Qed.

(** ** One original *)

Lemma shelf_sound i o names fs : shelf i o names fs → sound fs.
Proof.
  intros (Hb & Hlt & Hi & Ho & _). eapply base_sound; [done|]. apply bare_setup. split; [apply Hb|]. eapply dir_all_impl; [exact Hi|]. intros V ->. by apply room_setup_view.
Qed.

Lemma shelf_keeps (i o : nat) (names : list nat) (fs fs' : Fs) : keeps false None fs fs' → fs_live fs' = fs_live fs → fresh_ok fs' → entries fs' o = entries fs o →
  shelf i o names fs → shelf i o names fs'.
Proof.
  intros K Hlive Hf He (Hb & Hlt & Hi & Ho & Hn). split; [by eapply base_keeps|]. split; [done|]. split; [by eapply (keeps_dir_all K)|].
  split; [eapply (keeps_dir_all K); [done|exact Ho|apply (keeps_blobs_part K)]|]. by rewrite He.
Qed.

Lemma saved_keeps (short : bool) (x : option nat) (bl : list nat) (fs fs' : Fs) : keeps short x fs fs' → saved bl fs → saved bl fs'.
Proof. intros K H. eapply Forall2_impl; [exact H|]. intros m b. apply (keeps_holding K). Qed.

(** A file that is not synced may change. *)
Lemma file_keeps (short : bool) (x : nat) (f f' : FileNode) (fs : Fs) : file_at fs x f → fl_synced f = false → (trusted x → fl_attr f' = fl_attr f) → fl_nlink f' = fl_nlink f →
  (short = true → (Z.of_nat (length (fl_bytes f')) ≤ MAX_JOURNAL_BYTES)%Z) →
  let fs' := set_node x (NFile f') fs in
  keeps short None fs fs' ∧ fs_live fs' = fs_live fs ∧ (∀ d, entries fs' d = entries fs d) ∧ file_at fs' x f' ∧ (fresh_ok fs → fresh_ok fs').
Proof.
  intros Hx Hs Ha Hn Hl fs'. split; [eapply keeps_set_node; [done|]; split; [done|]; split; [done|]; split; [congruence|auto]|]. split; [done|].
  split; [intros d; by eapply set_node_entries|]. split; [apply lookup_insert_eq|by eapply set_node_fresh].
Qed.

Definition new_content (bytes : str) (a : Attr) : FileNode := {| fl_bytes := bytes; fl_attr := a; fl_nlink := 1; fl_synced := false |}.

Definition penning (i o : nat) (bl : list nat) (b : nat) (bytes : str) (a : Attr) (fs : Fs) : Prop :=
  shelf i o (bl ++ [b]) fs ∧ length bl < length ms ∧ saved bl fs ∧ file_at fs b (new_content bytes a) ∧ at_mode a = 384%Z ∧ (trusted b → owner_is a).

Lemma penning_sound i o bl b bytes a fs : penning i o bl b bytes a fs → sound fs.
Proof. intros [H _]. by eapply shelf_sound. Qed.

Lemma penning_file i o bl b bytes a (bytes' : str) (a' : Attr) fs : penning i o bl b bytes a fs → at_mode a' = 384%Z → (trusted b → a' = a) →
  penning i o bl b bytes' a' (set_node b (NFile (new_content bytes' a')) fs).
Proof.
  intros (Hs & Hl & Hsv & Hf & Hm & Ha) Hm' Ha'. destruct (file_keeps false b _ (new_content bytes' a') fs Hf) as (K & Hlive & He & Hf' & Hfr); [done|done|done|done|].
  split; [eapply shelf_keeps; [done|done|apply Hfr, Hs|by rewrite He|done]|]. split; [done|]. split; [by eapply saved_keeps|]. split; [done|]. split; [done|].
  intros HC. rewrite (Ha' HC). auto.
Qed.

Lemma penning_attr i o bl b bytes a (h : Attr → Attr) fs : penning i o bl b bytes a fs → at_mode (h a) = 384%Z → (trusted b → h a = a) → penning i o bl b bytes (h a) (with_attr h b fs).
Proof. intros H Hm Ha. pose proof H as (_ & _ & _ & Hf & _). rewrite (with_attr_file _ _ _ _ Hf). by eapply (penning_file i o bl b bytes a bytes (h a)). Qed.

Lemma file_ok_384 bytes a synced : at_mode a = 384%Z → owner_is a → file_ok ow 384 (NFile {| fl_bytes := bytes; fl_attr := a; fl_nlink := 1; fl_synced := synced |}) = true.
Proof. intros Hm [H1 H2]. cbn. unfold owned_with_mode. rewrite H1, H2, Hm. by rewrite bool_decide_eq_true_2. Qed.

Lemma pen (i o : nat) (bl : list nat) (a : Attr) (fs : Fs) : saving i o bl fs → length bl < length ms → at_mode a = 384%Z → (trusted (fs_next fs) → owner_is a) →
  penning i o bl (fs_next fs) [] a (add_node o (original_blob_file_name (length bl)) (NFile (new_content [] a)) fs).
Proof.
  intros [(Hb & Hlt & Hi & Ho & He) [_ Hsv]] Hl Hm Ha. pose proof (plan_bound plan) as Hmax. pose proof Hb as (Hf & _ & _ & Hir & _).
  pose proof (dir_all_dir _ _ _ Ho) as Hdir. set (n := NFile (new_content [] a)). pose proof (add_keeps false o (original_blob_file_name (length bl)) n fs Hf Hdir) as K.
  set (b := fs_next fs). set (fs1 := alloc n fs). change (add_node o (original_blob_file_name (length bl)) n fs) with (push_update o [(original_blob_file_name (length bl), Some b)] fs1) in *.
  set (fs' := push_update o _ fs1) in *. assert (fs_live fs' = fs_live fs) as Hlive by (exact (push_live fs1 o _)).
  assert (dir_all fs1 o (blobs_part fs)) as Ho1 by (destruct Ho as (a' & d' & Hd' & H'); exists a', d'; split; [by apply alloc_old|done]).
  assert (entries fs1 o = blob_map bl) as He1 by (unfold fs1; by rewrite alloc_entries).
  assert (file_at fs' b (new_content [] a)) as Hfile by (apply push_file, alloc_at).
  assert (apply_update (entries fs1 o) [(original_blob_file_name (length bl), Some b)] = blob_map (bl ++ [b])) as Hu by (rewrite He1, blob_map_snoc by lia; done).
  assert (good_file fs' b) as Hgood by (exists (new_content [] a); split; [done|]; intros HC; apply file_ok_384; auto).
  split; [|split; [done|]; split; [by eapply saved_keeps|done]].
  split; [eapply base_keeps; [exact K|unfold ROOT in *; intros [= ->]; lia|done|apply push_fresh, alloc_fresh, Hf|done]|]. split; [done|].
  split; [eapply (keeps_dir_all K); [intros [= ->]; lia|exact Hi|done]|]. split; [|unfold fs'; rewrite entries_push; [done|by eapply dir_all_dir]].
  eapply dir_push; [exact Ho1|intros W; apply (keeps_blobs_part K)|]. rewrite Hu. exists (bl ++ [b]). split; [done|]. rewrite length_app. cbn. split; [lia|]. apply Forall_app. split; [|by constructor].
  apply Forall_lookup. intros k x Hx. destruct (Forall2_lookup_r _ _ _ _ _ Hsv Hx) as (m & _ & Hh). eapply (keeps_good K), holding_good, Hh.
Qed.


Lemma pen_synced i o bl b m a fs : penning i o bl b (mm_before m) a fs → ms !! length bl = Some m →
  saving i o (bl ++ [b]) (with_file (fun x => {| fl_bytes := fl_bytes x; fl_attr := fl_attr x; fl_nlink := fl_nlink x; fl_synced := true |}) b fs).
Proof.
  intros (Hs & Hl & Hsv & Hf & Hm & Ha) Hms. rewrite (with_file_at _ _ _ _ Hf). cbn.
  destruct (file_keeps false b _ {| fl_bytes := mm_before m; fl_attr := a; fl_nlink := 1; fl_synced := true |} fs Hf) as (K & Hlive & He & Hf' & Hfr); [done|done|done|done|].
  split; [eapply shelf_keeps; [done|done|apply Hfr, Hs|by rewrite He|done]|]. split; [rewrite length_app; cbn; lia|]. unfold saved. rewrite length_app. cbn. rewrite Nat.add_1_r, (take_S_r _ _ _ Hms).
  apply Forall2_app; [by eapply saved_keeps|]. constructor; [|constructor]. eexists. split; [exact Hf'|]. split; [done|]. split; [done|]. intros HC. apply file_ok_384; auto.
Qed.

(** ** The journal *)

(** All originals are there for good. *)
Definition stock (i o : nat) (bl : list nat) (fs : Fs) : Prop :=
  base i fs ∧ i < o ∧ dir_all fs o (fun V => V = blob_map bl) ∧ Forall2 (fun m b => holding fs (mm_before m) b) ms bl.

Lemma stock_below (i o : nat) (bl : list nat) (fs : Fs) : stock i o bl fs → below fs i o (blobs_full fs).
Proof. intros (_ & Hlt & Hd & Hh). split; [done|]. eapply dir_all_impl; [exact Hd|]. intros V ->. by exists bl. Qed.

Lemma stock_keeps (short : bool) (x : option nat) (i o : nat) (bl : list nat) (fs fs' : Fs) : keeps short x fs fs' → x ≠ Some ROOT → x ≠ Some o → fs_live fs' = fs_live fs → fresh_ok fs' →
  stock i o bl fs → stock i o bl fs'.
Proof.
  intros K Hx Ho Hlive Hf (Hb & Hlt & Hd & Hh). split; [by eapply base_keeps|]. split; [done|]. split; [by eapply (keeps_dir_all K)|].
  eapply Forall2_impl; [exact Hh|]. intros m b. apply (keeps_holding K).
Qed.

Definition stocked (i o : nat) (bl : list nat) (fs : Fs) : Prop := stock i o bl fs ∧ dir_all fs i (fun V => V = room o).

Lemma saving_done (i o : nat) (bl : list nat) (fs : Fs) : length bl = length ms → saving i o bl fs → stocked i o bl (sync_at o fs).
Proof.
  intros Hl [(Hb & Hlt & Hi & Ho & He) [_ Hsv]]. pose proof (keeps_sync true fs o) as K. unfold saved in Hsv. rewrite Hl, firstn_all in Hsv. split.
  - split; [eapply base_keeps; [done|done|apply sync_live|apply sync_fresh, Hb|done]|]. split; [done|].
    split; [eapply dir_all_impl; [by apply dir_sync|]; intros V [-> _]; done|]. eapply Forall2_impl; [exact Hsv|]. intros m b. apply (keeps_holding K).
  - by eapply (keeps_dir_all K).
Qed.

Lemma stocked_sound i o bl fs : stocked i o bl fs → sound fs.
Proof.
  intros [H Hi]. pose proof (stock_below _ _ _ _ H) as Hb. eapply base_sound; [apply H|]. apply bare_setup. split; [apply H|]. eapply dir_all_impl; [exact Hi|]. intros V ->.
  apply room_setup_view. eapply below_impl; [exact Hb|]. apply blobs_full_part.
Qed.

(** The saved originals read back. *)
Lemma reads_saved (i o : nat) (bl : list nat) (owner : Attr) :
  reads (for_each (imap pair (jn_members J)) (fun p => validate_original_blob i owner p.1 p.2 ;; mret tt))
    (fun fs => calm ∧ owner_is owner ∧ stock i o bl fs ∧ entries fs i !! ORIGINALS_DIR_NAME = Some o) (fun _ _ => True).
Proof.
  pose proof (plan_bound plan) as Hmax.
  eapply reads_weaken; [apply (reads_for_each_in _ _ (fun _ fs => calm ∧ owner_is owner ∧ stock i o bl fs ∧ entries fs i !! ORIGINALS_DIR_NAME = Some o) (fun _ _ _ => True))|naive_solver|done].
  intros p Hp%imap_pair_elem. rewrite (plan_members plan) in Hp. destruct (ms !! p.1) as [m|] eqn:Em; [|done]. injection Hp as Hp.
  eapply reads_weaken; [eapply reads_bind; [apply reads_blob|intros y; apply (reads_ret _ (fun _ => True))]| |done]. cbn. intros fs (HC & Ho & H & He). split; [|done]. rewrite <- Hp. split; [done|].
  pose proof H as (_ & _ & Hd & Hh). destruct (Forall2_lookup_l _ _ _ _ _ Hh Em) as (b & Hb & Hhold). exists o, b, (mm_before m).
  split; [split; [done|]; eapply below_dir; [done|done|by eapply stock_below]|]. split; [|by apply holding_blob]. apply dir_now in Hd. rewrite Hd. apply blob_map_at; [|done].
  rewrite <- (Forall2_length _ _ _ Hh). done.
Qed.

Definition staged (s o : nat) : gmap str nat := <[JOURNAL_STAGE_NAME := s]> (room o).

Lemma staged_setup (s o : nat) : staged s o = setup_map (Some s) (Some (just o)).
Proof. done. Qed.

(** The stage of the journal. *)
Definition drafting (i o : nat) (bl : list nat) (s : nat) (fs : Fs) : Prop :=
  stock i o bl fs ∧ dir_all fs i (fun V => V = room o ∨ V = staged s o) ∧ entries fs i = staged s o ∧ stage_file fs s.

Lemma drafting_bare (i o : nat) (bl : list nat) (s : nat) (fs : Fs) : drafting i o bl s fs → bare fs i.
Proof.
  intros (H & Hi & _ & Hs). pose proof (stock_below _ _ _ _ H) as Hb. assert (below fs i o (blobs_part fs)) as Hp by (eapply below_impl; [exact Hb|]; apply blobs_full_part).
  split; [apply H|]. eapply dir_all_impl; [exact Hi|]. intros V [-> | ->]; [by apply room_setup_view|]. exists (Some s), (Some o). split; [done|].
  split; [by intros ? [= <-]|by intros ? [= <-]].
Qed.

Lemma drafting_sound i o bl s fs : drafting i o bl s fs → sound fs.
Proof. intros H. eapply base_sound; [apply H|]. by eapply bare_setup, drafting_bare. Qed.

Lemma drafting_keeps (i o : nat) (bl : list nat) (s : nat) (fs fs' : Fs) : keeps true None fs fs' → fs_live fs' = fs_live fs → fresh_ok fs' → entries fs' i = entries fs i →
  drafting i o bl s fs → drafting i o bl s fs'.
Proof.
  intros K Hlive Hf He (H & Hi & Hn & Hs). split; [by eapply stock_keeps|]. split; [by eapply (keeps_dir_all K)|]. split; [by rewrite He|]. by apply (keeps_stage K).
Qed.

Definition draft (i o : nat) (bl : list nat) (s : nat) (bytes : str) (a : Attr) (fs : Fs) : Prop :=
  drafting i o bl s fs ∧ file_at fs s (new_content bytes a) ∧ at_mode a = 384%Z ∧ (trusted s → owner_is a).

Lemma draft_sound i o bl s bytes a fs : draft i o bl s bytes a fs → sound fs.
Proof. intros [H _]. by eapply drafting_sound. Qed.

Lemma draft_file i o bl s bytes a (bytes' : str) (a' : Attr) fs : draft i o bl s bytes a fs → at_mode a' = 384%Z → (trusted s → a' = a) →
  (Z.of_nat (length bytes') ≤ MAX_JOURNAL_BYTES)%Z → draft i o bl s bytes' a' (set_node s (NFile (new_content bytes' a')) fs).
Proof.
  intros (H & Hf & Hm & Ha) Hm' Ha' Hl. destruct (file_keeps true s _ (new_content bytes' a') fs Hf) as (K & Hlive & He & Hf' & Hfr); [done|done|done|done|].
  split; [eapply drafting_keeps; [done|done|apply Hfr, H|by rewrite He|done]|]. split; [done|]. split; [done|]. intros HC. rewrite (Ha' HC). auto.
Qed.

Lemma draft_attr i o bl s bytes a (h : Attr → Attr) fs : (Z.of_nat (length bytes) ≤ MAX_JOURNAL_BYTES)%Z → draft i o bl s bytes a fs → at_mode (h a) = 384%Z → (trusted s → h a = a) →
  draft i o bl s bytes (h a) (with_attr h s fs).
Proof. intros Hl H Hm Ha. pose proof H as (_ & Hf & _). rewrite (with_attr_file _ _ _ _ Hf). by eapply (draft_file i o bl s bytes a bytes (h a)). Qed.

Lemma draft_start (i o : nat) (bl : list nat) (a : Attr) (fs : Fs) : stocked i o bl fs → at_mode a = 384%Z → (trusted (fs_next fs) → owner_is a) →
  draft i o bl (fs_next fs) [] a (add_node i JOURNAL_STAGE_NAME (NFile (new_content [] a)) fs).
Proof.
  intros [H Hi] Hm Ha. pose proof H as (Hb & Hlt & _). pose proof Hb as (Hf & _ & _ & Hir & _). pose proof (dir_all_dir _ _ _ Hi) as Hdir. set (n := NFile (new_content [] a)).
  pose proof (add_keeps true i JOURNAL_STAGE_NAME n fs Hf Hdir) as K. set (s := fs_next fs). set (fs1 := alloc n fs).
  change (add_node i JOURNAL_STAGE_NAME n fs) with (push_update i [(JOURNAL_STAGE_NAME, Some s)] fs1) in *. set (fs' := push_update i _ fs1) in *.
  assert (dir_all fs1 i (fun V => V = room o)) as Hi1 by (destruct Hi as (a' & d' & Hd' & H'); exists a', d'; split; [by apply alloc_old|done]).
  assert (entries fs1 i = room o) as He1 by (by apply dir_now in Hi1). assert (file_at fs' s (new_content [] a)) as Hfile by (apply push_file, alloc_at).
  split; [|split; [done|done]]. split; [eapply stock_keeps; [exact K|congruence|intros [= ->]; lia|exact (push_live fs1 i _)|apply push_fresh, alloc_fresh, Hf|done]|].
  split; [eapply dir_push; [exact Hi1|by left|]; rewrite He1; by right|]. split; [unfold fs'; rewrite entries_push by (by eapply dir_all_dir); by rewrite He1|].
  eexists. split; [exact Hfile|]. split; [intros HC; apply file_ok_384; auto|done].
Qed.


(** The stage holds the journal. *)
Definition written (i o : nat) (bl : list nat) (s : nat) (fs : Fs) : Prop := drafting i o bl s fs ∧ holding fs jbytes s.

Lemma draft_synced i o bl s a fs : draft i o bl s jbytes a fs →
  written i o bl s (with_file (fun x => {| fl_bytes := fl_bytes x; fl_attr := fl_attr x; fl_nlink := fl_nlink x; fl_synced := true |}) s fs).
Proof.
  intros (H & Hf & Hm & Ha). rewrite (with_file_at _ _ _ _ Hf). cbn. pose proof (plan_journal_len plan) as Hlen.
  destruct (file_keeps true s _ {| fl_bytes := jbytes; fl_attr := a; fl_nlink := 1; fl_synced := true |} fs Hf) as (K & Hlive & He & Hf' & Hfr); [done|done|done|done|].
  split; [eapply drafting_keeps; [done|done|apply Hfr, H|by rewrite He|done]|]. eexists. split; [exact Hf'|]. split; [done|]. split; [done|]. intros HC. apply file_ok_384; auto.
Qed.

(** The journal is in its place. *)
Definition sealed (i o : nat) (bl : list nat) (s : nat) (fs : Fs) : Prop := stock i o bl fs ∧ setup fs i ∧ entries fs i = fence_map s o ∧ holding fs jbytes s.

Lemma staged_rename (s o : nat) : apply_update (staged s o) [(JOURNAL_STAGE_NAME, None); (JOURNAL_NAME, Some s)] = fence_map s o.
Proof.
  unfold apply_update, staged, fence_map. cbn [foldl]. unfold apply_one. cbn [fst snd]. rewrite delete_insert_id; [done|]. unfold room. by apply lookup_singleton_ne.
Qed.

Lemma seal (i o : nat) (bl : list nat) (s : nat) (fs : Fs) : written i o bl s fs → sealed i o bl s (push_update i [(JOURNAL_STAGE_NAME, None); (JOURNAL_NAME, Some s)] fs).
Proof.
  intros [H Hh]. pose proof (drafting_bare _ _ _ _ _ H) as [Hir Hbare]. destruct H as (Hst & Hi & He & Hs). pose proof Hst as (Hb & Hlt & _).
  pose proof (dir_all_dir _ _ _ Hi) as Hdir. set (u := [(JOURNAL_STAGE_NAME, None); (JOURNAL_NAME, Some s)]). pose proof (keeps_push true fs i u Hdir) as K.
  assert (stock i o bl (push_update i u fs)) as Hst' by (eapply stock_keeps; [exact K|congruence|intros [= ->]; lia|apply push_live|apply push_fresh, Hb|done]).
  assert (holding (push_update i u fs) jbytes s) as Hh' by (by apply (keeps_holding K)). assert (apply_update (entries fs i) u = fence_map s o) as Hu by (rewrite He; apply staged_rename).
  assert (full_view (push_update i u fs) i (fence_map s o)) as Hfv by (exists s, o; split; [done|]; split; [done|]; by eapply stock_below).
  split; [done|]. split; [|split; [by rewrite entries_push|done]]. split; [done|]. destruct Hbare as (a & d & Hd & Hok & Hv). rewrite (push_node _ _ _ _ _ Hd) in Hfv |- *.
  eexists a, _. split; [apply lookup_insert_eq|]. split; [done|]. right. rewrite dir_view_push. unfold entries in Hu. rewrite Hd in Hu. rewrite Hu. split; [|done].
  intros V [HV| ->]%dviews_push; [left|right; by rewrite Hu]. rewrite <- (push_node _ _ u _ _ Hd). eapply self_setup_view; [exact K|by apply Hv].
Qed.

(** Published: what the promotion starts from. *)
Definition ready_to_promote (i : nat) (fs : Fs) : Prop := base i fs ∧ full fs i.

Lemma sealed_sound i o bl s fs : sealed i o bl s fs → sound fs.
Proof. intros (H & Hi & _). eapply base_sound; [apply H|done]. Qed.

Lemma seal_synced (i o : nat) (bl : list nat) (s : nat) (fs : Fs) : sealed i o bl s fs → ready_to_promote i (sync_at i fs).
Proof.
  intros (H & Hi & He & Hh). pose proof (keeps_sync true fs i) as K. assert (stock i o bl (sync_at i fs)) as Hst by (eapply stock_keeps; [exact K|done|done|apply sync_live|apply sync_fresh, H|done]).
  split; [apply Hst|]. split; [apply Hi|]. destruct Hi as [_ (a & d & Hd & Hok & _)]. eapply dir_all_impl; [apply (dir_sync fs i (fun _ => True)); by exists a, d|].
  intros V [-> _]. rewrite He. exists s, o. split; [done|]. split; [by apply (keeps_holding K)|by eapply stock_below].
Qed.

Lemma ready_sound i fs : ready_to_promote i fs → sound fs.
Proof. intros [Hb Hi]. eapply base_sound; [done|by apply full_setup]. Qed.

End Build.

End Draft.


(** ** The same states with other owners known *)

Section Known.

Context {sha : Sha2Crate} {json : JsonCrate} {tx : Migration} (t t' : Owners).

#[local] Abbreviation g := tx_guard.
#[local] Abbreviation ms := tx_members.
#[local] Abbreviation ow := tx_owner.
#[local] Abbreviation J := tx_journal.
#[local] Abbreviation jbytes := tx_bytes.

Context (plan : planned g ms ow J jbytes) (Y : Fs → Prop) (fs : Fs).
Context (U : ∀ i n, fs_nodes fs !! i = Some n → trusted (Owners := t') i → trusted (Owners := t) i ∨ node_owned ow n = true).

#[local] Abbreviation anywhere := (fun _ : nat => True).

#[local] Lemma HD i : in_tree fs i → anywhere i.
Proof. done. Qed.

#[local] Lemma UD i n : anywhere i → fs_nodes fs !! i = Some n → trusted (Owners := t') i → trusted (Owners := t) i ∨ node_owned ow n = true.
Proof. intros _. apply U. Qed.

Lemma raising_known i a : raising (tr := t) Y i a fs → raising (tr := t') Y i a fs.
Proof.
  intros (Hf & Ho & He & Hi & Hy & Hn & Hm & Ha). do 1 (split; [done|]). split; [by apply (trust_old t t' plan fs anywhere HD UD)|]. do 5 (split; [done|]).
  intros HT. destruct (U _ _ Hn HT) as [|Hok]; [auto|]. cbn in Hok. by apply owned_is in Hok.
Qed.

Lemma raised_known i : raised (tr := t) Y i fs → raised (tr := t') Y i fs.
Proof. intros [Hb Hd]. split; [done|]. by eapply (trust_dir t t' fs anywhere UD). Qed.

Lemma rooming_known i o a : rooming (tr := t) Y i o a fs → rooming (tr := t') Y i o a fs.
Proof.
  intros (Hb & Hlt & Hd & He & Hn & Hm & Ha). split; [done|]. split; [done|]. split; [by eapply (trust_dir t t' fs anywhere UD)|]. do 3 (split; [done|]).
  intros HT. destruct (U _ _ Hn HT) as [|Hok]; [auto|]. cbn in Hok. by apply owned_is in Hok.
Qed.

Lemma saving_known i o bl : saving (tr := t) Y i o bl fs → saving (tr := t') Y i o bl fs.
Proof.
  intros [(Hb & Hlt & Hi & Ho & He) [Hl Hs]]. split; [|split; [done|]].
  - split; [done|]. split; [done|]. split; [by eapply (trust_dir t t' fs anywhere UD)|]. split; [|done]. eapply (trust_dir t t' fs anywhere UD); [done|exact Ho|]. intros V _. by apply (trust_part t t' plan fs anywhere UD).
  - eapply Forall2_impl; [exact Hs|]. intros m b. by apply (trust_holding t t' fs anywhere UD).
Qed.

Lemma stock_known i o bl : stock (tr := t) Y i o bl fs → stock (tr := t') Y i o bl fs.
Proof.
  intros (Hb & Hlt & Hd & Hh). split; [done|]. split; [done|]. split; [by eapply (trust_dir t t' fs anywhere UD)|].
  eapply Forall2_impl; [exact Hh|]. intros m b. by apply (trust_holding t t' fs anywhere UD).
Qed.

Lemma stocked_known i o bl : stocked (tr := t) Y i o bl fs → stocked (tr := t') Y i o bl fs.
Proof. intros [H Hi]. split; [by apply stock_known|]. by eapply (trust_dir t t' fs anywhere UD). Qed.

Lemma written_known i o bl s : written (tr := t) Y i o bl s fs → written (tr := t') Y i o bl s fs.
Proof.
  intros [(H & Hi & He & Hs) Hh]. split; [|by apply (trust_holding t t' fs anywhere UD)]. split; [by apply stock_known|].
  split; [by eapply (trust_dir t t' fs anywhere UD)|]. split; [done|]. by apply (trust_stage t t' fs anywhere UD).
Qed.

End Known.
