(* ===== verification/MigrationPublish.v ===== *)
(** * Publication: [publish] of [src/config/migration_journal.rs]

    The fence is raised, the originals are saved in it and the journal appears
    last.  The configuration stays the old one throughout, and recovery can clear
    what there is at every moment.  A command that runs as root makes the nodes
    with its own owner and gives them away; the checks that follow refuse what is
    not the owner's, so that what is published is. *)

From S2P Require Import Prelude RustStr Ast Membership DiskTree MigrationJournal MigrationTxn DiskLogic MigrationReads MigrationPlan MigrationState MigrationSteps MigrationFacts.
From S2P Require Import MigrationRemoval MigrationWrite MigrationRecovery MigrationTrust MigrationDraft.

#[local] Opaque original_blob_file_name.

(** ** Who runs the command *)

Section Runner.

Context {sha : Sha2Crate} {json : JsonCrate} {tx : Migration}.

(** The effective ids are those of the owner of the tree. *)
Definition by_owner : Prop := g_euid tx_guard = at_uid tx_owner ∧ g_egid tx_guard = at_gid tx_owner.

(** The owner of the tree runs the command, or root. *)
Definition entitled : Prop := by_owner ∨ g_euid tx_guard = 0%Z.

(** The owners that are sure at every moment of a run. *)
Definition known (t : Owners) : Owners := fun i => trusted (Owners := t) i ∧ by_owner.

(** The owners that are sure while the node [x] is being made. *)
Definition apart (t : Owners) (x : nat) : Owners := fun i => trusted (Owners := t) i ∧ (i = x → by_owner).

End Runner.

Section Publish.

Context {sha : Sha2Crate} {json : JsonCrate} {tx : Migration} {tr : Owners}.

#[local] Abbreviation g := tx_guard.
#[local] Abbreviation ms := tx_members.
#[local] Abbreviation ow := tx_owner.
#[local] Abbreviation J := tx_journal.
#[local] Abbreviation jbytes := tx_bytes.

Context (plan : planned g ms ow J jbytes) (c : Prop) (Hc : c → calm) (Hrun : c → entitled).

#[local] Abbreviation kn := (known tr).
#[local] Abbreviation ap := (apart tr).

(** What holds at every moment, and when a call has failed. *)
Definition held (fs : Fs) : Prop := Safe (tr := kn) fs.

Definition kept (fs : Fs) : Prop := sound (tr := kn) fs.

Lemma safe_held fs : Safe fs → held fs.
Proof. apply (trust_less tr kn plan). by intros i [H _]. Qed.

Lemma sound_kept fs : sound fs → kept fs.
Proof. intros [H Hr]. split; [by apply safe_held|done]. Qed.

Lemma apart_kept x fs : sound (tr := ap x) fs → kept fs.
Proof. intros [H Hr]. split; [|done]. revert H. apply (trust_less (ap x) kn plan). by intros i [H Hb]. Qed.

Lemma kept_held fs : kept fs → held fs.
Proof. by intros [H _]. Qed.

(** Before [x] is made, and when it is seen to be the owner's. *)
Lemma to_apart x (fs : Fs) i n : fs_nodes fs !! i = Some n → trusted (Owners := ap x) i → trusted i ∨ node_owned ow n = true.
Proof. intros _ [H _]. by left. Qed.

Lemma from_apart x (fs : Fs) nx : fs_nodes fs !! x = Some nx → node_owned ow nx = true → ∀ i n, fs_nodes fs !! i = Some n → trusted i → trusted (Owners := ap x) i ∨ node_owned ow n = true.
Proof. intros Hx Ho i n Hn Ht. destruct (decide (i = x)) as [->|Hne]; [right; by simplify_eq|left; by split]. Qed.

Lemma runs_as_owner x a : at_uid a = g_euid g → at_gid a = g_egid g → trusted (Owners := ap x) x → owner_is a.
Proof. intros H1 H2 [_ Hb]. destruct (Hb eq_refl) as [H3 H4]. split; congruence. Qed.

(** ** Owner and mode of a new node *)

Section Own.

Context (x : nat) (mode : Z) (owner : Attr) (Howner : owner_is owner) (R : Attr → Fs → Prop).
Context (HR : ∀ a fs, R a fs → kept fs) (Hkeep : ∀ a fs, R a fs → at_mode a = mode ∧ (trusted (Owners := ap x) x → owner_is a)).
Context (Hset : ∀ a h fs, R a fs → at_mode (h a) = mode → (trusted (Owners := ap x) x → h a = a) → R (h a) (with_attr h x fs)).

(** The owner of the tree makes it its own; root gives it away. *)
Lemma own_preserve : triple c held (fun fs => ∃ a, R a fs) (preserve_owner g x owner) kept (fun _ fs => ∃ a, R a fs ∧ (c → owner_is a)).
Proof.
  unfold preserve_owner. destruct (_ =? _)%Z eqn:E.
  - unfold fchown. apply triple_call; [intros fs [a H]; by eapply kept_held, HR|intros fs [a H]; by eapply HR|].
    intros fs [a H]. destruct (Hkeep a fs H) as [Hm Ho]. exists (owned_by owner a). split; [|intros _; exact Howner]. apply Hset; [done|done|]. intros HC. destruct (Ho HC) as [H1 H2], Howner as [H3 H4].
    destruct a. unfold owned_by. cbn in *. congruence.
  - apply triple_done. intros fs [a H]. exists a. split; [done|]. intros HC. apply (Hkeep a fs H). split; [by apply Hc|]. intros _. destruct (Hrun HC) as [|H0]; [done|]. apply Z.eqb_neq in E. congruence.
Qed.

Lemma own_mode : triple c held (fun fs => ∃ a, R a fs ∧ (c → owner_is a)) (set_permissions x mode) kept (fun _ fs => ∃ a, R a fs ∧ (c → owner_is a)).
Proof.
  unfold set_permissions. apply triple_call; [intros fs (a & H & _); by eapply kept_held, HR|intros fs (a & H & _); by eapply HR|]. intros fs (a & H & Ho). destruct (Hkeep a fs H) as [Hm _].
  eexists. split; [apply (Hset a (fun a => {| at_uid := at_uid a; at_gid := at_gid a; at_mode := mode |})); [done|done|]; intros _; destruct a; cbn in *; congruence|done].
Qed.

End Own.

Section Build.

(** What depends on the members only. *)
Context (Y : Fs → Prop) (HY : ∀ fs fs', fs_live fs' = fs_live fs → Y fs → Y fs').

(** ** The fence *)

Lemma create_fence_ok :
  triple c held (fun fs => fresh_ok fs ∧ Old fs ∧ entries fs ROOT = ∅ ∧ Y fs) (create_fence g) kept (fun _ fs => ∃ i, raised Y i fs).
Proof.
  set (P := fun fs => fresh_ok fs ∧ Old fs ∧ entries fs ROOT = ∅ ∧ Y fs). assert (∀ fs, P fs → Safe fs) as HS by (intros fs (Hf & Ho & _); by apply old_sound).
  assert (∀ fs, P fs → kept fs) as HP by (intros fs (Hf & Ho & _); by apply sound_kept, old_sound). assert (∀ fs, P fs → held fs) as HE by (intros fs H; by apply kept_held, HP). unfold create_fence.
  eapply triple_read; [apply (reads_tree_owner plan)|done|done|intros fs H _; by apply safe_live, HS|intros owner].
  eapply (triple_pre _ _ _ _ (fun fs => owner_is owner ∧ P fs)); [apply triple_fact; intros Ho|intros fs [H HR]; split; [by apply HR, safe_live, HS|done]].
  eapply triple_bind; [apply (triple_mkdir _ _ _ _ _ _ _ _ (fun fs => ∃ i a, raising (tr := ap i) Y i a fs)); [done|done| |]|intros []].
  { intros fs (_ & _ & Hent & _) _. by rewrite Hent. }
  { intros fs (Hf & Hold & Hent & Hy) _. exists (fs_next fs). eexists. apply (raise (tr := ap (fs_next fs)) Y HY fs); try done; [|by apply runs_as_owner].
    by apply (trust_old tr (ap (fs_next fs)) plan fs (fun _ => True) ltac:(done) (fun i n _ => to_apart _ fs i n)). }
  apply triple_exists. intros i. set (R := fun a fs => raising (tr := ap i) Y i a fs). assert (∀ a fs, R a fs → kept fs) as HR by (intros a fs H; eapply apart_kept, (raising_sound (tr := ap i)), H).
  assert (∀ fs, (∃ a, R a fs) → kept fs) as HRK by (intros fs [a H]; by eapply HR). assert (∀ fs, (∃ a, R a fs) → held fs) as HRE by (intros fs H; by apply kept_held, HRK).
  eapply (triple_read_eq _ _ _ _ _ _ _ _ _ i); [apply reads_open_existing_dir|done|done| | |].
  { intros fs [a (_ & _ & Hent & _ & _ & Hn & _)] _. exists i. split; [rewrite Hent; apply lookup_singleton_eq|by exists a, empty_dir]. }
  { intros fs x [a (_ & _ & Hent & _)] [Hx _]. rewrite Hent in Hx. by apply lookup_singleton_Some in Hx as [_ ->]. }
  eapply triple_bind; [apply (own_preserve i 448 owner Ho R); [done|by intros a fs (_ & _ & _ & _ & _ & _ & H)|apply (raising_attr (tr := ap i) Y HY)]|intros []].
  eapply triple_bind; [apply (own_mode i 448 R); [done|by intros a fs (_ & _ & _ & _ & _ & _ & H)|apply (raising_attr (tr := ap i) Y HY)]|intros []].
  eapply triple_read; [apply reads_stat|naive_solver|naive_solver|by intros fs (a & (_ & _ & _ & _ & _ & Hn & _) & _) _; eexists|intros n].
  eapply triple_read; [apply reads_ensure|naive_solver|naive_solver| |intros []].
  { intros fs [(a & (_ & _ & _ & _ & _ & Hn & _) & Ha) Hn'] HC. simplify_eq. apply bool_decide_eq_true_2. destruct (Ha HC), Ho. congruence. }
  apply (triple_pre _ _ _ _ (fun fs => ∃ a, raising Y i a fs)).
  2: { intros fs [[(a & H & _) Hn] Hok]. exists a. apply (raising_known (ap i) tr plan Y fs); [|exact H]. destruct H as (_ & _ & _ & _ & _ & Hi & Hm & _). simplify_eq.
       apply (from_apart i fs _ Hi). apply bool_decide_eq_true_1 in Hok. apply owned_448; [done|]. destruct Ho. split; congruence. }
  assert (∀ fs, (∃ a, raising Y i a fs) → kept fs) as HK by (intros fs [a H]; by eapply sound_kept, raising_sound). assert (∀ fs, (∃ a, raising Y i a fs) → held fs) as HKE by (intros fs H; by apply kept_held, HK).
  eapply triple_bind; [apply (triple_sync_dir _ _ _ _ _ (fun fs => ∃ a, raising Y i a fs)); [done|done|]; intros fs [a H]; exists a; by apply raising_sync|intros []].
  apply triple_sync_dir; [done|done|]. intros fs [a H]. exists i. by eapply raising_done.
Qed.

(** ** The directory of the originals *)

Lemma raised_sound i fs : raised Y i fs → sound fs.
Proof. intros [Hb Hd]. eapply base_sound; [done|]. apply bare_setup. split; [apply Hb|]. eapply dir_all_impl; [exact Hd|]. intros V ->. apply empty_setup_view. Qed.

Lemma create_originals_ok (i : nat) (owner : Attr) : owner_is owner →
  triple c held (raised Y i) (create_owned_directory g i ORIGINALS_DIR_NAME owner) kept (fun o fs => saving Y i o [] fs).
Proof.
  intros Ho. assert (∀ fs, raised Y i fs → kept fs) as HP by (intros fs H; by eapply sound_kept, raised_sound).
  unfold create_owned_directory. eapply triple_bind; [apply (triple_mkdir _ _ _ _ _ _ _ _ (fun fs => ∃ o a, rooming (tr := ap o) Y i o a fs)); [intros fs H; by apply kept_held, HP|done| |]|intros []].
  { intros fs [_ Hd] _. apply dir_now in Hd. by rewrite Hd. }
  { intros fs H _. exists (fs_next fs). eexists. apply (make_room (tr := ap (fs_next fs)) Y HY); [|done|by apply runs_as_owner]. by apply (raised_known tr (ap (fs_next fs)) Y fs (to_apart _ fs)). }
  apply triple_exists. intros o. set (R := fun a fs => rooming (tr := ap o) Y i o a fs). assert (∀ a fs, R a fs → kept fs) as HR by (intros a fs H; eapply apart_kept, (rooming_sound (tr := ap o)), H).
  assert (∀ fs, (∃ a, R a fs) → kept fs) as HRK by (intros fs [a H]; by eapply HR). assert (∀ fs, (∃ a, R a fs) → held fs) as HRE by (intros fs H; by apply kept_held, HRK).
  eapply (triple_read_eq _ _ _ _ _ _ _ _ _ o); [apply reads_open_existing_dir|done|done| | |].
  { intros fs [a (_ & _ & _ & Hent & Hn & _)] _. exists o. split; [rewrite Hent; apply lookup_singleton_eq|by exists a, empty_dir]. }
  { intros fs x [a (_ & _ & _ & Hent & _)] [Hx _]. rewrite Hent in Hx. unfold room in Hx. by apply lookup_singleton_Some in Hx as [_ ->]. }
  eapply triple_bind; [apply (own_preserve o 448 owner Ho R); [done|by intros a fs (_ & _ & _ & _ & _ & H)|intros a h fs; apply (rooming_attr (tr := ap o) Y HY)]|intros []].
  eapply triple_bind; [apply (own_mode o 448 R); [done|by intros a fs (_ & _ & _ & _ & _ & H)|intros a h fs; apply (rooming_attr (tr := ap o) Y HY)]|intros []].
  eapply triple_read; [apply reads_validate_dir|naive_solver|naive_solver| |intros []].
  { intros fs (a & (_ & _ & _ & _ & Hn & Hm & _) & Ha) HC. eexists. split; [done|]. cbn. rewrite (owner_owned owner) by done. apply owned_448; auto. }
  apply (triple_pre _ _ _ _ (fun fs => ∃ a, rooming Y i o a fs)).
  2: { intros fs [(a & H & _) (n & Hn & Hok)]. exists a. apply (rooming_known (ap o) tr Y fs); [|exact H]. apply (from_apart o fs _ Hn). destruct n as [f|a' d|]; [done| |done]. cbn in *. by rewrite (owner_owned owner) in Hok by done. }
  assert (∀ fs, (∃ a, rooming Y i o a fs) → kept fs) as HK by (intros fs [a H]; by eapply sound_kept, rooming_sound). assert (∀ fs, (∃ a, rooming Y i o a fs) → held fs) as HKE by (intros fs H; by apply kept_held, HK).
  eapply triple_bind; [apply (triple_sync_dir _ _ _ _ _ (fun fs => ∃ a, rooming Y i o a fs)); [done|done|]; intros fs [a H]; exists a; by apply rooming_sync|intros []].
  eapply triple_bind; [apply (triple_sync_dir _ _ _ _ _ (saving Y i o [])); [done|done|]; intros fs [a H]; by eapply rooming_done|intros []].
  by apply triple_done.
Qed.

(** ** One original *)

(** The file [x] is the owner's, where the run has to succeed. *)
#[local] Abbreviation mine x := (fun fs => c → safe_file fs ow 384 x).

Lemma safe_from_apart x owner fs : owner_is owner → safe_file fs owner 384 x → ∀ i n, fs_nodes fs !! i = Some n → trusted i → trusted (Owners := ap x) i ∨ node_owned ow n = true.
Proof. intros Ho (n & Hn & Hok). apply (from_apart x fs _ Hn). rewrite (owner_file owner) in Hok by done. by destruct n. Qed.

Lemma synced_mine x bytes a fs : file_at fs x (new_content bytes a) → at_mode a = 384%Z → (c → owner_is a) →
  mine x (with_file (fun x => {| fl_bytes := fl_bytes x; fl_attr := fl_attr x; fl_nlink := fl_nlink x; fl_synced := true |}) x fs).
Proof. intros Hf Hm Ha HC. rewrite (with_file_at _ _ _ _ Hf). eexists. split; [apply lookup_insert_eq|]. apply file_ok_384; auto. Qed.

Lemma pen_write i o bl b (bytes0 bytes : str) :
  triple c held (fun fs => ∃ a, penning (tr := ap b) Y i o bl b bytes0 a fs ∧ (c → owner_is a)) (write_all b bytes) kept (fun _ fs => ∃ a, penning (tr := ap b) Y i o bl b bytes a fs ∧ (c → owner_is a)).
Proof.
  intros fs io (a & H & Ho). assert (∀ bs, penning (tr := ap b) Y i o bl b bs a (with_file (unsynced bs) b fs)) as Hw.
  { intros bs. pose proof H as (_ & _ & _ & Hf & Hm & _). rewrite (with_file_at _ _ _ _ Hf). by eapply (penning_file (tr := ap b) Y HY i o bl b bytes0 a bs a). }
  assert (∀ bs, kept (with_file (unsynced bs) b fs)) as HK by (intros bs; eapply apart_kept, (penning_sound (tr := ap b)), Hw).
  unfold write_all. destruct io as [|[|n|] io]; cbn; (split; [done|]); [eauto|eauto| |].
  - split; [apply HK|]. by intros [_ ?].
  - split; [apply kept_held, HK|done].
Qed.

Lemma save_original (i o : nat) (bl : list nat) (m : MigrationMember) (owner : Attr) : owner_is owner → ms !! length bl = Some m →
  triple c held (saving Y i o bl) (write_original_blob g o (length bl) (mm_before m) owner) kept (fun _ fs => ∃ b, saving Y i o (bl ++ [b]) fs).
Proof.
  intros Ho Hm. pose proof (lookup_lt_Some _ _ _ Hm) as Hlt. pose proof (plan_bound plan) as Hmax.
  assert (∀ fs, saving Y i o bl fs → kept fs) as HS by (intros fs [H _]; by eapply sound_kept, shelf_sound).
  unfold write_original_blob. eapply triple_bind; [apply (triple_create _ _ _ _ _ _ _ _ (fun b fs => ∃ a, penning (tr := ap b) Y i o bl b [] a fs)); [intros fs H; by apply kept_held, HS|done| |]|intros b].
  { intros fs [(_ & _ & _ & _ & Hent) _] _. rewrite Hent. apply blob_map_fresh. lia. }
  { intros fs H _. eexists. apply (pen (tr := ap (fs_next fs)) plan Y HY); [|done|done|by apply runs_as_owner]. by apply (saving_known tr (ap (fs_next fs)) plan Y fs (to_apart _ fs)). }
  set (R := fun bytes a fs => penning (tr := ap b) Y i o bl b bytes a fs). assert (∀ bytes a fs, R bytes a fs → kept fs) as HR by (intros bytes a fs H; eapply apart_kept, (penning_sound (tr := ap b)), H).
  eapply triple_bind; [apply (own_preserve b 384 owner Ho (R [])); [apply HR|by intros a fs (_ & _ & _ & _ & H)|intros a h fs; apply (penning_attr (tr := ap b) Y HY)]|intros []].
  eapply triple_bind; [apply (own_mode b 384 (R [])); [apply HR|by intros a fs (_ & _ & _ & _ & H)|intros a h fs; apply (penning_attr (tr := ap b) Y HY)]|intros []].
  eapply triple_bind; [apply pen_write|intros []]. set (W := fun fs => saving (tr := ap b) Y i o (bl ++ [b]) fs ∧ mine b fs).
  eapply triple_bind; [apply (triple_call _ _ _ _ _ W); [intros fs (a & H & _); by eapply kept_held, HR|intros fs (a & H & _); by eapply HR|]|intros []].
  { intros fs (a & H & Ha). split; [by eapply (pen_synced (tr := ap b) Y HY)|]. destruct H as (_ & _ & _ & Hf & Hmode & _). by eapply synced_mine. }
  assert (∀ fs, W fs → kept fs) as HW by (intros fs [[H _] _]; eapply apart_kept, (shelf_sound (tr := ap b)), H). assert (∀ fs, W fs → held fs) as HWE by (intros fs H; by apply kept_held, HW).
  assert (∀ fs, W fs → ∃ f, file_at fs b f ∧ fl_bytes f = mm_before m) as Hh.
  { intros fs [(_ & _ & H) _]. unfold saved in H. rewrite length_app in H. cbn in H. rewrite Nat.add_1_r, (take_S_r _ _ _ Hm) in H. apply Forall2_app_inv in H as [_ H]; [|rewrite length_take; lia].
    inversion H as [|? ? ? ? (f & Hf & _ & Hb & _)]; subst. by exists f. }
  eapply triple_read; [apply reads_stat|done|done| |intros n].
  { intros fs H _. destruct (Hh fs H) as (f & Hf & _). by rewrite Hf. }
  eapply triple_conseq; [apply (triple_ensure _ _ _ _ (fun fs => W fs ∧ fs_nodes fs !! b = Some n)); [naive_solver|]|done|].
  - intros fs [H Hn] HC. destruct (Hh fs H) as (f & Hf & Hb). unfold file_at in Hf. destruct H as [_ Hmine]. destruct (Hmine HC) as (n' & Hn' & Hok). simplify_eq.
    apply andb_true_iff. split; [by rewrite (owner_file owner)|]. cbn. rewrite Hb. apply Z.eqb_refl.
  - intros [] fs [[[H _] Hn] Hok]. exists b. apply andb_true_iff in Hok as [Hok _]. apply (saving_known (ap b) tr plan Y fs); [|exact H]. apply (safe_from_apart b owner); [done|]. by exists n.
Qed.

Lemma save_originals (i o : nat) (owner : Attr) : owner_is owner →
  triple c held (saving Y i o []) (for_each (imap pair ms) (fun p => write_original_blob g o p.1 (mm_before p.2) owner)) kept (fun _ fs => ∃ bl, length bl = length ms ∧ saving Y i o bl fs).
Proof.
  intros Ho. eapply (triple_conseq _ _ _ _ (fun fs => ∃ bl, length bl = 0 ∧ saving Y i o bl fs) _ _ (fun _ fs => ∃ bl, length bl = length (imap pair ms) ∧ saving Y i o bl fs));
    [apply (triple_for_each _ _ _ _ _ (fun k fs => ∃ bl, length bl = k ∧ saving Y i o bl fs))|intros fs H; by exists []|by rewrite length_imap].
  intros k p Hk. apply triple_exists. intros bl. apply triple_fact. intros <-. rewrite list_lookup_imap in Hk. destruct (ms !! length bl) as [m|] eqn:Em; [|done]. injection Hk as <-. cbn [fst snd].
  eapply triple_conseq; [by apply save_original|done|]. intros [] fs [b H]. exists (bl ++ [b]). split; [rewrite length_app; cbn; lia|done].
Qed.

(** ** The journal *)

Lemma draft_write i o bl s : triple c held (fun fs => ∃ a, draft (tr := ap s) Y i o bl s [] a fs ∧ (c → owner_is a)) (write_all s jbytes) kept (fun _ fs => ∃ a, draft (tr := ap s) Y i o bl s jbytes a fs ∧ (c → owner_is a)).
Proof.
  intros fs io (a & H & Ho). pose proof (plan_journal_len plan) as Hlen.
  assert (∀ bs, (Z.of_nat (length bs) ≤ MAX_JOURNAL_BYTES)%Z → draft (tr := ap s) Y i o bl s bs a (with_file (unsynced bs) s fs)) as Hw.
  { intros bs Hl. pose proof H as (_ & Hf & Hm & _). rewrite (with_file_at _ _ _ _ Hf). by eapply (draft_file (tr := ap s) Y HY i o bl s [] a bs a). }
  assert (∀ bs, (Z.of_nat (length bs) ≤ MAX_JOURNAL_BYTES)%Z → kept (with_file (unsynced bs) s fs)) as HK by (intros bs Hl; eapply apart_kept, (draft_sound (tr := ap s)); by apply Hw).
  unfold write_all. destruct io as [|[|n|] io]; cbn; (split; [done|]); [eauto|eauto| |].
  - split; [apply HK; rewrite length_take; lia|]. by intros [_ ?].
  - split; [by apply kept_held, HK|done].
Qed.

(** From the check of the stage on. *)
Lemma publish_journal (i o : nat) (bl : list nat) (s : nat) :
  triple c held (written Y i o bl s)
    (n ← stat s; ensure (file_len n <=? MAX_JOURNAL_BYTES)%Z ;;
     staged_bytes ← read_file s MAX_JOURNAL_BYTES;
     ensure (bool_decide (staged_bytes = jbytes) && bool_decide (sha256_hex staged_bytes = sha256_hex jbytes)) ;;
     some (validate_journal staged_bytes (g_master g)) ;; rename_noreplace_at i JOURNAL_STAGE_NAME JOURNAL_NAME ;; sync_dir i) kept (fun _ => ready_to_promote Y i).
Proof.
  pose proof (plan_journal_len plan) as Hlen. assert (∀ fs, written Y i o bl s fs → kept fs) as HW by (intros fs [H _]; by eapply sound_kept, drafting_sound).
  assert (∀ fs, written Y i o bl s fs → held fs) as HWE by (intros fs H; by apply kept_held, HW).
  assert (∀ fs, written Y i o bl s fs → entries fs i !! JOURNAL_STAGE_NAME = Some s) as Hent by (intros fs [(_ & _ & Hent' & _) _]; rewrite Hent'; apply lookup_insert_eq).
  eapply triple_read; [apply reads_stat|done|done|by intros fs [_ (f & Hf & _)] _; eexists|intros n].
  eapply triple_check; [apply reads_ensure|naive_solver|naive_solver| |intros []].
  { intros fs [[_ (f & Hf & _ & Hb & _)] Hn] _. unfold file_at in Hf. simplify_eq. cbn. rewrite Hb. by apply Z.leb_le. }
  eapply (triple_pre _ _ _ _ (written Y i o bl s)); [|by intros fs [H _]].
  eapply (triple_read_eq _ _ _ _ _ _ _ _ _ jbytes); [apply reads_read_file|done|done| | |].
  { intros fs [_ (f & Hf & _ & Hb & _)] _. exists f. split; [done|]. by rewrite Hb. }
  { intros fs x [_ (f & Hf & _ & Hb & _)] (f' & Hf' & -> & _). unfold file_at in *. by simplify_eq. }
  eapply triple_check; [apply reads_ensure|done|done|by intros fs _ _; rewrite !bool_decide_eq_true_2|intros []].
  eapply triple_check; [apply reads_some|done|done|by intros fs _ _; rewrite (plan_journal plan); eexists|intros _].
  eapply triple_bind; [apply (triple_rename _ _ _ _ _ _ _ (sealed Y i o bl s)); [done|done| |]|intros []].
  { intros fs H _. rewrite (Hent fs H). split; [done|]. destruct H as [(_ & _ & Hent' & _) _]. rewrite Hent', staged_setup. apply setup_map_journal. }
  { intros fs x H Hx _. rewrite (Hent fs H) in Hx. injection Hx as <-. by apply (seal Y HY). }
  apply triple_sync_dir; [intros fs H; by eapply safe_held, sealed_sound|intros fs H; by eapply sound_kept, sealed_sound|]. intros fs. by apply seal_synced.
Qed.

Lemma write_journal_ok (i o : nat) (bl : list nat) (owner : Attr) : owner_is owner →
  triple c held (stocked Y i o bl) (write_journal g i jbytes owner) kept (fun _ => ready_to_promote Y i).
Proof.
  intros Ho. pose proof (plan_journal_len plan) as Hlen. unfold write_journal.
  eapply triple_bind; [apply (triple_create _ _ _ _ _ _ _ _ (fun s fs => ∃ a, draft (tr := ap s) Y i o bl s [] a fs)); [intros fs H; by eapply safe_held, stocked_sound|intros fs H; by eapply sound_kept, stocked_sound| |]|intros s].
  { intros fs [_ Hi] _. apply dir_now in Hi. rewrite Hi. unfold room. by apply lookup_singleton_ne. }
  { intros fs H _. eexists. apply (draft_start (tr := ap (fs_next fs)) Y HY); [|done|by apply runs_as_owner]. by apply (stocked_known tr (ap (fs_next fs)) Y fs (to_apart _ fs)). }
  set (R := fun bytes a fs => draft (tr := ap s) Y i o bl s bytes a fs). assert (∀ bytes a fs, R bytes a fs → kept fs) as HR by (intros bytes a fs H; eapply apart_kept, (draft_sound (tr := ap s)), H).
  eapply triple_bind; [apply (own_preserve s 384 owner Ho (R [])); [apply HR|by intros a fs (_ & _ & H)|intros a h fs; by apply (draft_attr (tr := ap s) Y HY)]|intros []].
  eapply triple_bind; [apply (own_mode s 384 (R [])); [apply HR|by intros a fs (_ & _ & H)|intros a h fs; by apply (draft_attr (tr := ap s) Y HY)]|intros []].
  eapply triple_bind; [apply draft_write|intros []]. set (W := fun fs => written (tr := ap s) Y i o bl s fs ∧ mine s fs).
  eapply triple_bind; [apply (triple_call _ _ _ _ _ W); [intros fs (a & H & _); by eapply kept_held, HR|intros fs (a & H & _); by eapply HR|]|intros []].
  { intros fs (a & H & Ha). split; [by eapply (draft_synced (tr := ap s) plan Y HY)|]. destruct H as (_ & Hf & Hmode & _). by eapply synced_mine. }
  assert (∀ fs, W fs → kept fs) as HW by (intros fs [[H _] _]; eapply apart_kept, (drafting_sound (tr := ap s)), H). assert (∀ fs, W fs → held fs) as HWE by (intros fs H; by apply kept_held, HW).
  assert (∀ fs, W fs → entries fs i !! JOURNAL_STAGE_NAME = Some s) as HWent by (intros fs [[(_ & _ & Hent & _) _] _]; rewrite Hent; apply lookup_insert_eq).
  eapply triple_read; [apply reads_safe_file|done|done| |intros s'].
  { intros fs H HC. exists s. split; [by apply HWent|]. destruct H as [_ Hmine]. destruct (Hmine HC) as (n & Hn & Hok). exists n. by rewrite (owner_file owner). }
  apply (triple_pre _ _ _ _ (fun fs => s' = s ∧ written Y i o bl s fs)).
  2: { intros fs [H [Hs' Hsafe]]. rewrite (HWent fs H) in Hs'. injection Hs' as <-. split; [done|]. destruct H as [H _]. by apply (written_known (ap s) tr Y fs (safe_from_apart s owner fs Ho Hsafe)). }
  apply triple_fact. intros ->.
  apply publish_journal.
Qed.

End Build.

(** ** The checks before the fence *)

Lemma inspect_absent (fs : Fs) : entries fs ROOT !! TXN_DIR_NAME = None → inspect g fs [] = (fs, [], Done Absent).
Proof. intros H. unfold inspect, or_else, open_dir, inspect_at, mbind, M_bind, sys, view, mret, M_ret. cbn -[entries TXN_DIR_NAME lookup]. by rewrite H. Qed.

(** Inspection hides the failures of its calls: a fence that is not there is only
    sure to be found absent when they all work. *)
Lemma triple_inspect {A} (E F P : Fs → Prop) (k : FenceState → M A) Q : (∀ fs, P fs → E fs) → (∀ fs, P fs → F fs) → (∀ fs, P fs → c → entries fs ROOT !! TXN_DIR_NAME = None) →
  (∀ s, s ≠ Absent → triple False E P (k s) F Q) → triple c E (fun fs => P fs ∧ entries fs ROOT !! TXN_DIR_NAME = None) (k Absent) F Q → triple c E P (inspect g ≫= k) F Q.
Proof.
  intros HE HF Hn Hk HA fs io HP. pose proof (reads_inspect g fs io) as Hr. unfold mbind, M_bind. destruct (inspect g fs io) as [[fs1 io1] o] eqn:Ei. destruct Hr as (-> & Hio & Ho).
  assert (c → io = [] → o = Done Absent) as Hc0 by (intros HC ->; rewrite inspect_absent in Ei by auto; congruence). destruct o as [s|e|].
  - assert (s = Absent ∨ s ≠ Absent) as [->|Hs] by (destruct s; auto).
    + specialize (HA fs io1 (conj HP (Ho eq_refl))). destruct (k Absent fs io1) as [[fs2 io2] [b|e|]]; destruct HA as [Hio2 H2]; (split; [auto|]); [done| |].
      * split; [apply H2|]. intros [HC He]. apply H2. auto.
      * split; [apply H2|]. intros ->. by apply H2, Hio.
    + specialize (Hk s Hs fs io1 HP). destruct (k s fs io1) as [[fs2 io2] [b|e|]]; destruct Hk as [Hio2 H2]; (split; [auto|]); [done| |].
      * split; [apply H2|]. intros [HC He]. specialize (Hc0 HC He). congruence.
      * split; [apply H2|]. intros ->. by apply H2, Hio.
  - split; [auto|]. split; [auto|]. intros [HC He]. specialize (Hc0 HC He). congruence.
  - split; [auto|]. auto.
Qed.

(** The members as they were read. *)
Definition captured (fs : Fs) : Prop := ∀ m, m ∈ ms → live_file fs (mm_path m) (mm_inode m) (mm_metadata m) ∧ fl_bytes (mm_metadata m) = mm_before m.

Definition unchanged (fs : Fs) (m : MigrationMember) (p : TargetPlan) : Prop :=
  ∃ x f, p = {| tp_path := mm_path m; tp_original := Some (x, f) |} ∧ live_file fs (mm_path m) x f ∧ member_file m f ∧ fl_bytes f = mm_before m.

Lemma reads_unchanged m : m ∈ ms →
  reads (plan_unchanged m) (fun fs => live fs is_either ∧ captured fs) (fun fs p => live fs is_either → unchanged fs m p).
Proof.
  intros Hm. unfold plan_unchanged. eapply reads_weaken.
  { eapply reads_bind; [apply reads_plan_live|intros p]. eapply reads_bind; [apply reads_some|intros q]. eapply reads_bind; [apply reads_read_file|intros bytes].
    eapply reads_bind; [apply reads_ensure|intros u]. eapply reads_bind; [apply reads_ensure|intros u']. apply (reads_ret _ (fun _ => True)). }
  - cbn. intros fs [HL Hcap]. destruct (Hcap m Hm) as [Hl Hb]. destruct (slot_file _ _ _ (HL m Hm)) as (x & f & Hl' & Hf & He). destruct (live_file_unique _ _ _ _ _ _ Hl Hl') as [<- <-].
    split; [eauto|]. intros p Hp. destruct (plan_of_live _ _ _ _ _ Hp Hl) as [Hpp Hpo]. rewrite Hpo. split; [done|]. intros q [= <-]. cbn. split; [exists (mm_metadata m); split; [apply Hl|by rewrite Hb]|].
    intros bytes (f' & Hf' & -> & _). assert (f' = mm_metadata m) as -> by (destruct Hl as (_ & Hfile & _); unfold file_at in *; congruence).
    split; [unfold before_receipt; rewrite (receipt_image plan m _ _ Hf He Hm (or_introl eq_refl)); by apply bool_decide_eq_true_2|]. intros _ _. split; [|done].
    unfold same_metadata. rewrite Nat.eqb_refl, Nat.eqb_refl, Z.eqb_refl. by rewrite bool_decide_eq_true_2.
  - cbn. intros fs p' (p & Hp & q & Hq & bytes & (f' & Hf' & -> & _) & u & Hrec & _ & _ & ->) HL. destruct (slot_file _ _ _ (HL m Hm)) as (x & f & Hl & Hf & He).
    destruct (plan_of_live _ _ _ _ _ Hp Hl) as [Hpp Hpo]. rewrite Hpo in Hq. injection Hq as <-. cbn in *. assert (f' = f) as -> by (destruct Hl as (_ & Hfile & _); unfold file_at in *; congruence).
    exists x, f. split; [destruct p; cbn in *; congruence|]. split; [done|]. split; [done|]. unfold before_receipt in Hrec.
    rewrite (receipt_image plan m _ _ Hf He Hm (or_introl eq_refl)) in Hrec. by apply bool_decide_eq_true_1 in Hrec.
Qed.

(** What promotion needs of the targets. *)
Definition pinned_all (ts : list PinnedTarget) (fs : Fs) : Prop :=
  Forall2 (fun m t => pt_path t = mm_path m ∧ ∃ x f, pt_original t = Some (x, f) ∧ same_attr (fl_attr f) (fl_attr (mm_metadata m)) ∧ live_now fs (mm_path m) = Some x) ms ts.

Lemma pinned_live ts fs fs' : fs_live fs' = fs_live fs → pinned_all ts fs → pinned_all ts fs'.
Proof. intros He H. eapply Forall2_impl; [exact H|]. intros m t. unfold live_now. by rewrite He. Qed.

Lemma unchanged_pinned fs ps : Forall2 (unchanged fs) ms ps → pinned_all (map pinned ps) fs.
Proof.
  intros H. apply Forall2_fmap_r. eapply Forall2_impl; [exact H|]. intros m p (x & f & -> & (Hl & _) & (_ & _ & Ha) & _). cbn. split; [done|]. exists x, f. by split_and!.
Qed.

(** All members unchanged: nothing has been decided. *)
Lemma unchanged_old fs ps : Safe fs → entries fs ROOT = ∅ → Forall2 (unchanged fs) ms ps → Old fs.
Proof.
  intros Hs He H. apply safe_root in Hs as [[_ [?|HN]]|[(i & He' & _)|[(i & He' & _)|(i & He' & _)]]]; [done| |rewrite He in He'; symmetry in He'; by apply map_non_empty_singleton in He'..].
  destruct (pl_changes _ _ _ _ _ plan) as (m & Hm & Hne). pose proof Hm as Hm'. apply list_elem_of_lookup in Hm' as [k Hk]. destruct (Forall2_lookup_l _ _ _ _ _ H Hk) as (p & _ & x & f & _ & Hl & _ & Hb).
  destruct HN as [HN _]. destruct (slot_file _ _ _ (HN m Hm)) as (x' & f' & Hl' & _ & Hb'). destruct (live_file_unique _ _ _ _ _ _ Hl Hl') as [<- <-]. unfold is_new in Hb'. congruence.
Qed.

Lemma reads_artifacts :
  reads root_has_cleanup_artifact (fun _ => True) (fun fs b => (entries fs ROOT = ∅ → b = false) ∧ (b = false → Safe fs → entries fs ROOT !! TXN_DIR_NAME = None → entries fs ROOT = ∅)).
Proof.
  unfold root_has_cleanup_artifact. eapply reads_weaken; [eapply reads_bind; [apply reads_visit|intros names; apply (reads_ret _ (fun _ => True))]|done|]. cbn beta. intros fs b (names & -> & ->).
  split; [intros ->; by rewrite map_to_list_empty|]. intros Hb Hs Ht. destruct (decide (entries fs ROOT = ∅)) as [|Hne]; [done|]. exfalso.
  apply map_choose in Hne as (name & i & Hi). destruct (root_entry _ _ _ Hs Hi) as (_ & Hname & _). apply not_true_iff_false in Hb. apply Hb. apply existsb_exists. exists name.
  split; [apply list_elem_of_In, names_elem; by eexists|]. destruct (cl_cleanup jbytes) as [H1 _], (fin_finalized jbytes) as [_ H2]. apply orb_true_iff.
  destruct Hname as [-> |[-> | ->]]; [congruence|by left|by right].
Qed.

Definition published (ts : list PinnedTarget) (i : nat) (owner : Attr) : PublishedMigration :=
  {| pm_members := ms; pm_targets := ts; pm_journal := J; pm_journal_hash := sha256_hex jbytes; pm_fence := i; pm_owner := owner |}.

(** The fence is complete and the members are as they were. *)
Definition announced (t : PublishedMigration) (fs : Fs) : Prop :=
  ∃ ts i owner, t = published ts i owner ∧ owner_is owner ∧ ready_to_promote (pinned_all ts) i fs.

(** From the fence on. *)
Lemma publish_fence (ts : list PinnedTarget) :
  triple c held (fun fs => fresh_ok fs ∧ Old fs ∧ entries fs ROOT = ∅ ∧ pinned_all ts fs)
    (create_fence g ;;
     owner ← owner_metadata g; fence ← open_existing_dir ROOT TXN_DIR_NAME; originals ← create_owned_directory g fence ORIGINALS_DIR_NAME owner;
     for_each (imap pair ms) (fun p => write_original_blob g originals p.1 (mm_before p.2) owner) ;; sync_dir originals ;;
     for_each (imap pair (jn_members J)) (fun p => validate_original_blob fence owner p.1 p.2 ;; mret tt) ;;
     write_journal g fence jbytes owner ;;
     parsed ← read_valid_journal g fence owner; validate_fence_inventory fence owner parsed false ;;
     for_each (imap pair (jn_members parsed)) (fun p => validate_original_blob fence owner p.1 p.2 ;; mret tt) ;;
     mret {| pm_members := ms; pm_targets := ts; pm_journal := parsed; pm_journal_hash := sha256_hex jbytes; pm_fence := fence; pm_owner := owner |})
    kept announced.
Proof.
  set (Y := pinned_all ts). assert (∀ fs fs', fs_live fs' = fs_live fs → Y fs → Y fs') as HY by (intros fs fs'; apply pinned_live).
  eapply triple_bind; [by apply create_fence_ok|intros []]. apply triple_exists. intros i.
  assert (∀ fs, raised Y i fs → Safe fs) as HR by (intros fs H; by eapply raised_sound). assert (∀ fs, raised Y i fs → kept fs) as HRK by (intros fs H; by eapply sound_kept, raised_sound).
  assert (∀ fs, raised Y i fs → held fs) as HRE by (intros fs H; by apply kept_held, HRK).
  eapply triple_read; [apply (reads_tree_owner plan)|done|done|intros fs H _; by apply safe_live, HR|intros owner].
  eapply (triple_pre _ _ _ _ (fun fs => owner_is owner ∧ raised Y i fs)); [apply triple_fact; intros Ho|intros fs [H HRd]; split; [by apply HRd, safe_live, HR|done]].
  eapply (triple_read_eq _ _ _ _ _ _ _ _ _ i); [apply reads_open_existing_dir|done|done| | |].
  { intros fs [(_ & _ & Hr & _) Hd] _. exists i. split; [rewrite (root_now _ _ Hr); apply lookup_singleton_eq|by eapply dir_all_dir]. }
  { intros fs x [(_ & _ & Hr & _) _] [Hx _]. rewrite (root_now _ _ Hr) in Hx. by apply lookup_singleton_Some in Hx as [_ ->]. }
  eapply triple_bind; [by apply create_originals_ok|intros o]. eapply triple_bind; [by apply save_originals|intros []]. apply triple_exists. intros bl. apply triple_fact. intros Hl.
  eapply triple_bind; [apply (triple_sync_dir _ _ _ _ _ (stocked Y i o bl)); [intros fs [H _]; by eapply safe_held, shelf_sound|intros fs [H _]; by eapply sound_kept, shelf_sound|]; intros fs; by apply saving_done|intros []].
  eapply triple_check; [apply (reads_saved plan Y i o bl owner)|intros fs H; by eapply safe_held, stocked_sound|intros fs H; by eapply sound_kept, stocked_sound| |intros []].
  { intros fs [H Hi] HC. split; [auto|]. split; [done|]. split; [done|]. apply dir_now in Hi. rewrite Hi. apply lookup_singleton_eq. }
  eapply triple_bind; [by apply write_journal_ok|intros []].
  assert (∀ fs, ready_to_promote Y i fs → kept fs) as HS by (intros fs H; by eapply sound_kept, ready_sound). assert (∀ fs, ready_to_promote Y i fs → held fs) as HSE by (intros fs H; by apply kept_held, HS).
  assert (∀ fs, ready_to_promote Y i fs → full_view fs i (entries fs i)) as Hv by (intros fs [_ [_ Hd]]; by apply dir_now in Hd).
  assert (∀ fs, ready_to_promote Y i fs → journal_in fs i) as Hji by (intros fs H; destruct (full_holds _ _ (Hv fs H)) as (j & o' & bl' & Hh); by eapply holds_journal).
  eapply (triple_read_eq _ _ _ _ _ _ _ _ _ J); [apply (reads_our_journal plan i owner)|done|done|intros fs H HC; split; [auto|]; split; [done|]; by apply Hji|intros fs x H HRd; by apply HRd, Hji|].
  eapply triple_check; [apply (reads_our_fence plan i owner)|done|done|intros fs H HC; split; [auto|]; split; [done|]; by apply Hv|intros inv].
  eapply triple_check; [apply (reads_for_each_in _ _ (fun _ fs => calm ∧ owner_is owner ∧ full_view fs i (entries fs i)) (fun _ _ _ => True))|done|done| |intros []].
  { intros p Hp. eapply reads_weaken; [eapply reads_bind; [by apply (reads_our_blob plan i owner p)|intros y; apply (reads_ret _ (fun _ => True))]|naive_solver|done]. }
  { intros fs H HC p Hp. split; [auto|]. split; [done|]. by apply Hv. }
  apply triple_done. intros fs H. exists ts, i, owner. by split.
Qed.

(** What publication starts from; it has to succeed on a tree as it was read,
    with nothing of a transaction in its root. *)
Definition startable (fs : Fs) : Prop := sound fs ∧ (c → captured fs ∧ entries fs ROOT = ∅).

Lemma publish_ok : triple c held startable (publish g ms) kept announced.
Proof.
  assert (∀ fs, startable fs → Safe fs) as HS by (intros fs [[H _] _]; done). assert (∀ fs, startable fs → kept fs) as HF by (intros fs [H _]; by apply sound_kept). assert (∀ fs, startable fs → held fs) as HE by (intros fs H; by apply kept_held, HF).
  unfold publish. eapply triple_check; [apply reads_ensure|done|done|intros fs _ _; apply (pl_order _ _ _ _ _ plan)|intros []].
  apply triple_inspect; [done|done|by intros fs [_ H] HC; destruct (H HC) as [_ ->]| |].
  { intros s Hs. eapply triple_bind; [apply triple_ensure; [done|done]|]. intros []. eapply triple_pre; [apply (triple_fact _ _ _ False (fun _ => True)); done|]. intros fs [_ H]. by destruct s. }
  eapply triple_check; [apply reads_ensure|naive_solver|naive_solver|done|intros []].
  eapply triple_read; [apply reads_artifacts|naive_solver|naive_solver|done|intros found].
  eapply triple_read; [apply reads_ensure|naive_solver|naive_solver| |intros []].
  { intros fs [[[_ H] _] [Hf _]] HC. destruct (H HC) as [_ He]. by rewrite (Hf He). }
  eapply (triple_pre _ _ _ _ (fun fs => startable fs ∧ entries fs ROOT = ∅)).
  2: { intros fs [[[H Ht] [_ Hf]] Hneg]. split; [done|]. apply Hf; [by apply negb_true_iff|by apply HS|done]. }
  eapply triple_read; [apply (reads_collect_in _ _ (fun _ fs => live fs is_either ∧ captured fs) (fun m fs p => live fs is_either → unchanged fs m p)); intros m Hm; by apply reads_unchanged|naive_solver|naive_solver| |intros ps].
  { intros fs [[[H _] Hcap] _] HC m _. split; [by apply safe_live|by apply Hcap]. }
  set (P := fun fs => fresh_ok fs ∧ Old fs ∧ entries fs ROOT = ∅ ∧ Forall2 (unchanged fs) ms ps). eapply (triple_pre _ _ _ _ P).
  2: { intros fs [[[[Hs Hr] _] He] H]. assert (Forall2 (unchanged fs) ms ps) as H' by (eapply Forall2_impl; [exact H|]; intros m p Hp; by apply Hp, safe_live).
       split; [apply Hs|]. split; [by eapply unchanged_old|done]. }
  assert (∀ fs, P fs → kept fs) as HP by (intros fs (Hf & Ho & _); by apply sound_kept, old_sound). assert (∀ fs, P fs → held fs) as HPE by (intros fs H; by apply kept_held, HP).
  eapply (triple_read_eq _ _ _ _ _ _ _ _ _ (map pinned ps)); [apply (reads_collect ps materialize (fun p fs => live_now fs (tp_path p) = fst <$> tp_original p) (fun p fs t => t = pinned p)); apply reads_materialize|done|done| | |].
  { intros fs (_ & _ & _ & H) _ p Hp. apply list_elem_of_lookup in Hp as [k Hk]. destruct (Forall2_lookup_r _ _ _ _ _ H Hk) as (m & _ & x & f & -> & (Hl & _) & _). done. }
  { intros fs ts _ H. clear -H. induction H as [|p t ps' ts' -> _ IH]; [done|]. cbn. by rewrite IH. }
  destruct (pl_entries _ _ _ _ _ plan) as (es & Hes & HJ). unfold journal_members in Hes. rewrite Hes.
  eapply (triple_read_eq _ _ _ _ _ _ _ _ _ es); [apply reads_some|done|done|by intros; eexists|by intros fs x _ [= <-]|]. rewrite HJ.
  eapply (triple_read_eq _ _ _ _ _ _ _ _ _ J); [apply reads_some|done|done|by intros; eexists|by intros fs x _ [= <-]|]. rewrite (pl_bytes _ _ _ _ _ plan).
  eapply (triple_read_eq _ _ _ _ _ _ _ _ _ jbytes); [apply reads_some|done|done|by intros; eexists|by intros fs x _ [= <-]|].
  eapply triple_pre; [apply publish_fence|]. intros fs (Hf & Ho & He & H). split; [done|]. split; [done|]. split; [done|]. by apply unchanged_pinned.
Qed.

End Publish.
