(* ===== verification/MigrationCommit.v ===== *)
(** * Promotion, commit and the whole command

    [promote_all] and [commit] of [src/config/migration_journal.rs] and
    [migrate_tree] of [src/cli/commands/migrate/v3_to_v4.rs]: all members become
    new before the fence is renamed, and any failure goes through recovery. *)

From S2P Require Import Prelude RustStr Ast Membership DiskTree MigrationJournal MigrationTxn DiskLogic MigrationReads MigrationPlan MigrationState MigrationSteps MigrationFacts.
From S2P Require Import MigrationRemoval MigrationWrite MigrationRecovery MigrationTrust MigrationDraft MigrationPublish.

Section Commit.

Context {sha : Sha2Crate} {json : JsonCrate} {tx : Migration} {tr : Owners}.

#[local] Abbreviation g := tx_guard.
#[local] Abbreviation ms := tx_members.
#[local] Abbreviation ow := tx_owner.
#[local] Abbreviation J := tx_journal.
#[local] Abbreviation jbytes := tx_bytes.
#[local] Abbreviation cl := (cl_of tx_bytes).

Context (plan : planned g ms ow J jbytes) (c : Prop) (Hc : c → calm).

(** ** The snapshot *)

Lemma reads_snapshot ts i owner : owner_is owner →
  reads (validate_snapshot g (published ts i owner)) (fun fs => calm ∧ full_view fs i (entries fs i)) (fun _ _ => True).
Proof.
  intros Ho. unfold validate_snapshot. cbn [pm_fence pm_owner pm_journal_hash pm_journal published]. eapply reads_weaken.
  { eapply reads_bind; [apply (reads_our_bytes plan i owner)|intros bytes]. eapply reads_bind; [apply reads_ensure|intros u]. eapply reads_bind; [apply reads_some|intros journal].
    eapply reads_bind; [apply reads_ensure|intros u']. eapply (reads_bind _ _ (fun fs => calm ∧ owner_is owner ∧ full_view fs i (entries fs i) ∧ journal = J) (fun _ _ => True)).
    - destruct (decide (journal = J)) as [->|Hne]; [eapply reads_weaken; [apply (reads_our_fence plan i owner)|naive_solver|done]|].
      eapply reads_weaken; [apply reads_fence_inventory|naive_solver|done].
    - intros inv. apply (reads_for_each_in _ _ (fun _ fs => calm ∧ owner_is owner ∧ full_view fs i (entries fs i) ∧ journal = J) (fun _ _ _ => True)). intros p Hp.
      eapply reads_weaken; [eapply (reads_bind _ _ (fun fs => calm ∧ owner_is owner ∧ full_view fs i (entries fs i) ∧ journal = J) (fun _ _ => True)); [|intros y; apply (reads_ret _ (fun _ => True))]|naive_solver|done].
      destruct (decide (journal = J)) as [->|Hne]; [eapply reads_weaken; [by apply (reads_our_blob plan i owner p)|naive_solver|done]|].
      eapply reads_weaken; [apply reads_blob|naive_solver|done]. }
  - cbn beta. intros fs [HC Hv]. destruct (full_holds _ _ Hv) as (j & o & blobs & Hh). pose proof (holds_journal _ _ _ _ _ Hh) as Hj. split; [done|].
    intros bytes Hb. rewrite (Hb Hj). split; [by apply bool_decide_eq_true_2|]. intros _ _. rewrite (plan_journal plan). split; [by eexists|]. intros journal [= <-].
    split; [by apply Nat.eqb_eq|]. intros _ _. split; [done|]. intros inv _ x _. done.
  - done.
Qed.

(** ** Promotion *)

Definition member_done (fs : Fs) (m : MigrationMember) (t : PinnedTarget) : Prop :=
  pt_path t = mm_path m ∧ ∃ file, pt_promoted t = Some file ∧ fs_live fs !! mm_path m = Some {| sl_now := Some file; sl_may := [] |} ∧ image fs m (mm_after m) file.

Definition member_todo (fs : Fs) (m : MigrationMember) (t : PinnedTarget) : Prop :=
  pt_path t = mm_path m ∧ (∃ x f, pt_original t = Some (x, f) ∧ same_attr (fl_attr f) (fl_attr (mm_metadata m)) ∧ live_now fs (mm_path m) = Some x) ∧ slot_all fs m (is_old m).

Section Promote.

Context (i : nat) (ts : list PinnedTarget).

Definition member_at (k : nat) (ys : list PinnedTarget) (fs : Fs) (idx : nat) (m : MigrationMember) : Prop :=
  if decide (idx < k) then ∃ t, ys !! idx = Some t ∧ member_done fs m t else ∃ t, ts !! idx = Some t ∧ member_todo fs m t.

Definition promoting (k : nat) (ys : list PinnedTarget) (fs : Fs) : Prop := amid i fs ∧ ∀ idx m, ms !! idx = Some m → member_at k ys fs idx m.

Lemma member_at_keeps (k : nat) (ys : list PinnedTarget) (fs fs' : Fs) (idx : nat) (m : MigrationMember) : keeps true None fs fs' → fs_live fs' !! mm_path m = fs_live fs !! mm_path m →
  member_at k ys fs idx m → member_at k ys fs' idx m.
Proof.
  intros K He. unfold member_at. destruct (decide (idx < k)).
  - intros (t & Ht & Hp & file & Hf & Hs & Hi). exists t. split; [done|]. split; [done|]. exists file. split; [done|]. rewrite He. split; [done|]. by apply (keeps_image K).
  - intros (t & Ht & Hp & (x & f & Ho & Ha & Hl) & Hs). exists t. split; [done|]. split; [done|]. split; [|by eapply keeps_slot]. exists x, f. unfold live_now in *. by rewrite He.
Qed.

(** A member that is done or still to do can be put back. *)
Lemma member_restorable (k : nat) (ys : list PinnedTarget) (fs : Fs) (idx : nat) (m : MigrationMember) (s : Slot) (y : nat) : member_at k ys fs idx m →
  fs_live fs !! mm_path m = Some s → sl_now s = Some y → image fs m (mm_before m) y → slot_all fs m (is_old m).
Proof.
  unfold member_at. destruct (decide (idx < k)); [|by intros (t & _ & _ & _ & H)]. intros (t & _ & _ & file & _ & Hs' & _) Hs Hy Hi. simplify_eq. cbn in Hy. simplify_eq.
  eexists. split; [exact Hs'|]. cbn. intros v ->%list_elem_of_singleton. by exists y, (mm_before m).
Qed.

Lemma promoting_sound (k : nat) (ys : list PinnedTarget) (fs : Fs) : promoting k ys fs → sound fs.
Proof.
  intros [Ha Hall]. split; [by eapply amid_safe|]. intros m s y [idx Hm]%list_elem_of_lookup Hs Hy Hi. eapply member_restorable; eauto.
Qed.

(** While one member is written. *)
Lemma named_sound (k : nat) (ys : list PinnedTarget) (idx : nat) (m : MigrationMember) (file : nat) (may : list (option nat)) (fs : Fs) : ms !! idx = Some m →
  named m (mm_after m) i (fun fs => ∀ idx' m', ms !! idx' = Some m' → idx' ≠ idx → member_at k ys fs idx' m') file may fs → sound fs.
Proof.
  intros Hm (Ha & Hx & Hs & Hi). split; [by eapply amid_safe|]. intros m' s y Hm' Hs' Hy Hi'. apply list_elem_of_lookup in Hm' as [idx' Hm'].
  destruct (decide (idx' = idx)) as [->|Hne]; [|eapply member_restorable; eauto]. simplify_eq. cbn in Hy. simplify_eq.
  destruct Hi as (f & Hf & _ & Hb & _), Hi' as (f' & Hf' & _ & Hb' & _). unfold file_at in *. simplify_eq.
  destruct Ha as (_ & _ & _ & Hl). eapply slot_impl; [apply Hl; by eapply list_elem_of_lookup_2|]. intros b [-> | ->]; [done|]. unfold is_old. congruence.
Qed.

Lemma promote_one (k : nat) (ys : list PinnedTarget) (m : MigrationMember) (t : PinnedTarget) : ms !! k = Some m → ts !! k = Some t → length ys = k →
  triple c Safe (promoting k ys)
    (hardened_atomic_write_at g t (mm_after m) (Some (fr_mode (after_receipt m))) (fr_uid (after_receipt m), fr_gid (after_receipt m))) sound (fun y => promoting (S k) (ys ++ [y])).
Proof.
  intros Hm Ht Hk. set (X := fun fs => ∀ idx m', ms !! idx = Some m' → idx ≠ k → member_at k ys fs idx m'). set (X0 := fun fs => slot_all fs m (is_old m)).
  eapply (triple_pre _ _ _ _ (fun fs => ∃ x f, (pt_path t = mm_path m ∧ pt_original t = Some (x, f) ∧ same_attr (fl_attr f) (fl_attr (mm_metadata m))) ∧ ready m i x X X0 fs)).
  2: { intros fs [Ha Hall]. pose proof (Hall k m Hm) as H. unfold member_at in H. rewrite decide_False in H by lia. destruct H as (t' & Ht' & Hp & (x & f & Ho & Hattr & Hl) & Hs). simplify_eq.
       exists x, f. split; [done|]. split; [done|]. split; [|done]. intros idx m' Hm' _. by apply Hall. }
  apply triple_exists. intros x. apply triple_exists. intros f. apply triple_fact. intros (Hp & Ho & Hattr).
  assert (∀ fs fs', X fs → keeps true None fs fs' → (∀ d, entries fs' d = entries fs d) → (∀ p, p ≠ mm_path m → fs_live fs' !! p = fs_live fs !! p) → X fs') as HX.
  { intros fs fs' HX K He Hlive idx m' Hm' Hne. eapply member_at_keeps; [done| |by apply HX]. apply Hlive. intros Heq. apply Hne.
    eapply NoDup_lookup; [apply (plan_nodup plan)| |]; rewrite list_lookup_fmap; [by rewrite Hm'|by rewrite Hm, Heq]. }
  assert (∀ fs fs', X0 fs → keeps true None fs fs' → (∀ d, entries fs' d = entries fs d) → fs_live fs' = fs_live fs → X0 fs') as HX0.
  { intros fs fs' H K _ Hlive. eapply keeps_slot; [exact K|by rewrite Hlive|done]. }
  eapply triple_conseq; [apply (replace_member plan c m ltac:(by eapply list_elem_of_lookup_2) (mm_after m) ltac:(by right) t i Hp x f Ho Hattr X HX X0 HX0 sound)|done|].
  - intros fs (Ha & HXfs & _ & H0). split; [by eapply amid_safe|]. intros m' s y Hm' Hs Hy Hi. apply list_elem_of_lookup in Hm' as [idx Hm'].
    destruct (decide (idx = k)) as [->|Hne]; [by simplify_eq|]. eapply member_restorable; eauto.
  - intros fs file may. by apply (named_sound k ys k).
  - intros y fs (file & -> & Ha & HXfs & Hs & Hi). split; [done|]. intros idx m' Hm'. unfold member_at. destruct (decide (idx = k)) as [->|Hne].
    + rewrite decide_True by lia. exists (promoted t file). split; [rewrite <- Hk; by apply list_lookup_middle|]. simplify_eq. split; [done|]. by exists file.
    + specialize (HXfs idx m' Hm' Hne). unfold member_at in HXfs. destruct (decide (idx < k)), (decide (idx < S k)); try lia; [|done].
      destruct HXfs as (t' & Ht' & Hd). exists t'. split; [|done]. by apply lookup_app_l_Some.
Qed.

End Promote.

Lemma announced_promoting (i : nat) (ts : list PinnedTarget) (fs : Fs) : ready_to_promote (pinned_all ts) i fs → promoting i ts 0 [] fs.
Proof.
  intros [(Hf & Hl & Hr & _ & Hy) Hi]. split; [split; [done|]; split; [done|]; split; [done|by apply old_either]|]. intros idx m Hm. unfold member_at. rewrite decide_False by lia.
  destruct (Forall2_lookup_l _ _ _ _ _ Hy Hm) as (t & Ht & Hp & Ho). exists t. split; [done|]. split; [done|]. split; [done|]. apply Hl. by eapply list_elem_of_lookup_2.
Qed.

(** All members are new, on disk as well. *)
Definition installed (i : nat) (ys : list PinnedTarget) (fs : Fs) : Prop := amid i fs ∧ Forall2 (member_done fs) ms ys.

Lemma promoting_done (i : nat) (ts ys : list PinnedTarget) (fs : Fs) : length ys = length ms → promoting i ts (length ms) ys fs → installed i ys fs.
Proof.
  intros Hl [Ha H]. split; [done|]. apply Forall2_same_length_lookup. split; [done|]. intros idx m y Hm Hy. specialize (H idx m Hm). unfold member_at in H.
  rewrite decide_True in H by (by eapply lookup_lt_Some). destruct H as (t & Ht & Hd). by simplify_eq.
Qed.

Lemma installed_new (i : nat) (ys : list PinnedTarget) (fs : Fs) : installed i ys fs → live fs is_new.
Proof.
  intros [_ H] m [k Hm]%list_elem_of_lookup. destruct (Forall2_lookup_l _ _ _ _ _ H Hm) as (y & _ & _ & file & _ & Hs & Hi). eexists. split; [exact Hs|]. cbn.
  intros v ->%list_elem_of_singleton. by exists file, (mm_after m).
Qed.

Lemma new_restorable (fs : Fs) : live fs is_new → restorable fs.
Proof.
  intros H m s y Hm Hs Hy (f & Hf & _ & Hb & _). pose proof (H m Hm) as (s' & Hs' & Hv). simplify_eq. destruct (Hv (sl_now s) ltac:(by left)) as (y' & b & Hy' & (f' & Hf' & _ & Hb' & _) & Hk).
  rewrite Hy in Hy'. unfold file_at, is_new in *. simplify_eq. eapply slot_impl; [by apply H|]. unfold is_new, is_old. congruence.
Qed.

Lemma installed_sound (i : nat) (ys : list PinnedTarget) (fs : Fs) : installed i ys fs → sound fs.
Proof. intros H. split; [eapply amid_safe, H|]. by eapply new_restorable, installed_new. Qed.

Lemma full_now (i : nat) (fs : Fs) : full fs i → full_view fs i (entries fs i).
Proof. intros [_ H]. by apply dir_now in H. Qed.

Lemma promote_all_ok (t : PublishedMigration) :
  triple c Safe (announced t) (promote_all g t) sound (fun t' fs => ∃ ys i owner, t' = published ys i owner ∧ owner_is owner ∧ installed i ys fs).
Proof.
  apply triple_exists. intros ts. apply triple_exists. intros i. apply triple_exists. intros owner. apply triple_fact. intros ->. apply triple_fact. intros Ho.
  set (P := ready_to_promote (pinned_all ts) i). assert (∀ fs, P fs → sound fs) as HP by (intros fs; apply ready_sound). assert (∀ fs, P fs → Safe fs) as HE by (intros fs H; by apply HP).
  unfold promote_all. eapply triple_check; [by apply reads_snapshot|done|done|intros fs [_ H] HC; split; [auto|by apply full_now]|intros []].
  cbn [pm_members pm_targets pm_journal pm_journal_hash pm_fence pm_owner published].
  eapply triple_check; [apply (reads_for_each_in _ _ (fun _ fs => live fs is_old) (fun _ _ _ => True))|done|done|by intros fs [(_ & H & _) _] _ m _|intros []].
  { intros m Hm. eapply reads_weaken; [eapply reads_bind; [by apply (reads_member plan m)|intros s; apply reads_ensure]| |done]. cbn. intros fs H. split; [by apply old_either|].
    intros s Hs. destruct (Hs (old_either _ H)) as (x & f & Hl & Hf & Hb & ->). apply state_before; [done|].
    destruct (slot_file _ _ _ (H m Hm)) as (x' & f' & Hl' & _ & Hb'). by destruct (live_file_unique _ _ _ _ _ _ Hl Hl') as [_ ->]. }
  eapply (triple_pre _ _ _ _ (fun fs => length ts = length ms ∧ promoting i ts 0 [] fs)).
  2: { intros fs H. split; [|by apply announced_promoting]. destruct H as [(_ & _ & _ & _ & Hy) _]. symmetry. by eapply Forall2_length. }
  apply triple_fact. intros Hlen. eapply (triple_bind _ _ _ _ _ _ (fun ys fs => installed i ys fs)); [|intros ys; apply triple_done; intros fs H; by exists ys, i, owner].
  eapply triple_conseq; [apply (triple_collect _ _ _ _ _ (promoting i ts))|done|].
  - intros k p ys Hk Hys. apply lookup_zip_with_Some in Hk as (m & t & -> & Hm & Ht). cbn [fst snd]. by apply promote_one.
  - cbn. intros ys fs [H Hl]. rewrite length_zip_with, Hlen, Nat.min_id in H, Hl. by eapply promoting_done.
Qed.

(** ** Commit *)

Lemma with_file_same (h : FileNode → FileNode) (x : nat) (fs : Fs) (f : FileNode) : file_at fs x f → h f = f → with_file h x fs = fs.
Proof. intros Hf Hh. rewrite (with_file_at _ _ _ _ Hf), Hh. destruct fs. unfold set_node. cbn in *. by rewrite insert_id. Qed.

Lemma set_slot_same (p : str) (s : Slot) (fs : Fs) : fs_live fs !! p = Some s → set_slot p s fs = fs.
Proof. intros H. destruct fs. unfold set_slot. cbn in *. by rewrite insert_id. Qed.

(** What is durable already stays as it is. *)
Lemma sync_again (i : nat) (ys : list PinnedTarget) (m : MigrationMember) (y : PinnedTarget) : (∀ fs, installed i ys fs → member_done fs m y) →
  triple c Safe (installed i ys) (sync_held_file_and_parent y) sound (fun _ => installed i ys).
Proof.
  intros Hd. assert (∀ fs, installed i ys fs → sound fs) as HS by (intros fs; apply installed_sound). assert (∀ fs, installed i ys fs → Safe fs) as HE by (intros fs H; by apply HS).
  unfold sync_held_file_and_parent. destruct (pt_promoted y) as [file|] eqn:Ep.
  2: { eapply triple_pre; [apply (triple_fact _ _ _ False (fun _ => True)); done|]. intros fs H. destruct (Hd fs H) as (_ & file & Hf & _). congruence. }
  assert (∀ fs, installed i ys fs → pt_path y = mm_path m ∧ fs_live fs !! mm_path m = Some {| sl_now := Some file; sl_may := [] |} ∧ image fs m (mm_after m) file) as Hm.
  { intros fs H. destruct (Hd fs H) as (Hp & file' & Hf & Hs & Hi). rewrite Ep in Hf. by injection Hf as <-. }
  eapply (triple_read_eq _ _ _ _ _ _ _ _ _ file); [apply reads_some|done|done|by intros; eexists|by intros fs x _ [= <-]|].
  eapply triple_bind; [apply (triple_call _ _ _ _ _ (installed i ys)); [done|done|]|intros []].
  { intros fs H. destruct (Hm fs H) as (_ & _ & f & Hf & Hsy & _). rewrite (with_file_same _ _ _ _ Hf); [done|]. destruct f. cbn in *. congruence. }
  eapply triple_bind; [apply (triple_call _ _ _ _ _ (installed i ys)); [done|done|]|intros []].
  { intros fs H. destruct (Hm fs H) as (Hp & Hs & _). rewrite Hp, Hs. cbn. by rewrite set_slot_same. }
  eapply triple_bind; [by apply triple_sys|intros []].
  eapply (triple_read_eq _ _ _ _ _ _ _ _ _ (Some file)); [apply reads_view|done|done|done| |].
  { intros fs x H ->. destruct (Hm fs H) as (Hp & Hs & _). by rewrite Hp, Hs. }
  rewrite bool_decide_eq_true_2 by done. by apply triple_done.
Qed.

(** The undo is in the place of the fence. *)
Definition committing (i : nat) (fs : Fs) : Prop :=
  fresh_ok fs ∧ live fs is_new ∧ full fs i ∧ root_all fs (fun V => V = {[TXN_DIR_NAME := i]} ∨ V = {[cl := i]}) ∧ entries fs ROOT = {[cl := i]}.

Definition committed (fs : Fs) : Prop := fresh_ok fs ∧ live fs is_new ∧ ∃ i, full fs i ∧ at_root fs cl i.

Lemma committing_sound i fs : committing i fs → sound fs.
Proof.
  intros (Hf & Hl & Hi & Hr & _). split; [|by apply new_restorable]. split; [done|]. right. right. split; [done|]. eapply root_all_impl; [exact Hr|].
  intros V [-> | ->]; [right; left|right; right; left]; eauto.
Qed.

Lemma committed_sound fs : committed fs → sound fs.
Proof.
  intros (Hf & Hl & i & Hi & Hr). split; [|by apply new_restorable]. split; [done|]. right. right. split; [done|]. eapply root_all_impl; [exact Hr|].
  intros V ->. right. right. left. eauto.
Qed.

Lemma installed_rename i ys fs : installed i ys fs → committing i (push_update ROOT [(TXN_DIR_NAME, None); (cl, Some i)] fs).
Proof.
  intros H. pose proof (installed_new _ _ _ H) as Hl. destruct H as [(Hf & Hr & Hi & _) _]. set (u := [(TXN_DIR_NAME, None); (cl, Some i)]).
  pose proof (root_dir _ _ Hr) as Hdir. pose proof (keeps_push true fs ROOT u Hdir) as K.
  assert (apply_update (entries fs ROOT) u = {[cl := i]}) as Hu.
  { rewrite (root_now _ _ Hr). unfold u, apply_update. cbn [foldl]. unfold apply_one. cbn [fst snd]. by rewrite delete_singleton_eq. }
  split; [by apply push_fresh|]. split; [eapply keeps_live; [exact K|apply push_live|done]|]. split; [by apply (keeps_full_root K); [right|]|].
  split; [|by rewrite entries_push]. eapply root_push; [exact Hr|by left|]. by right.
Qed.

Lemma committing_sync i fs : committing i fs → committed (sync_at ROOT fs).
Proof.
  intros (Hf & Hl & Hi & Hr & He). pose proof (keeps_sync true fs ROOT) as K. split; [by apply sync_fresh|]. split; [eapply keeps_live; [exact K|apply sync_live|done]|].
  exists i. split; [by apply (keeps_full_root K); [left|]|]. eapply root_all_impl; [by apply root_sync|]. intros V [-> _]. done.
Qed.

Lemma commit_ok (ys : list PinnedTarget) (i : nat) (owner : Attr) : owner_is owner →
  triple c Safe (installed i ys) (commit g (published ys i owner)) sound (fun name fs => name = cl ∧ committed fs).
Proof.
  intros Ho. assert (∀ fs, installed i ys fs → sound fs) as HS by (intros fs; apply installed_sound). assert (∀ fs, installed i ys fs → Safe fs) as HE by (intros fs H; by apply HS).
  unfold commit. eapply (triple_bind _ _ _ _ _ _ (fun _ => committing i)).
  - apply triple_failing_as. unfold ready_to_commit. eapply triple_check; [by apply reads_snapshot|done|done|intros fs [(_ & _ & H & _) _] HC; split; [auto|by apply full_now]|intros []].
    cbn [pm_members pm_targets pm_fence pm_journal_hash published]. eapply (triple_bind _ _ _ _ _ _ (fun _ => installed i ys)).
    { apply (triple_for_each _ _ _ _ _ (fun _ => installed i ys)). intros k p Hk. apply lookup_zip_with_Some in Hk as (m & y & -> & Hm & Hy). cbn [fst snd].
      assert (m ∈ ms) as Hin by (by eapply list_elem_of_lookup_2).
      eapply triple_read; [by apply (reads_member plan m)|done|done|intros fs H _; by apply safe_live, HE|intros s].
      eapply triple_check; [apply reads_ensure|naive_solver|naive_solver| |intros []; eapply triple_pre; [apply (sync_again i ys m y)|by intros fs [H _]]].
      - intros fs [H Hs] _. destruct (Hs (safe_live _ (HE fs H))) as (x & f & Hl & Hf & Hb & ->). apply state_after; [done|].
        destruct (slot_file _ _ _ (installed_new _ _ _ H m Hin)) as (x' & f' & Hl' & _ & Hb'). by destruct (live_file_unique _ _ _ _ _ _ Hl Hl') as [_ ->].
      - intros fs [_ H]. by eapply (Forall2_lookup_lr _ _ _ _ _ _ H). }
    intros []. eapply triple_check; [apply reads_current|done|done| |intros []].
    { intros fs [(_ & Hr & _) _] _. rewrite (root_now _ _ Hr). apply lookup_singleton_eq. }
    apply triple_rename; [done|done| |].
    + intros fs [(_ & Hr & _) _] _. rewrite (root_now _ _ Hr). split; [by rewrite lookup_singleton_eq|]. by apply lookup_singleton_ne.
    + intros fs i' H Hi' _. pose proof H as [(_ & Hr & _) _]. rewrite (root_now _ _ Hr), lookup_singleton_eq in Hi'. injection Hi' as <-. by eapply installed_rename.
  - intros []. eapply triple_bind; [apply triple_failing_as, (triple_sync_dir _ _ _ _ _ committed); [intros fs H; by eapply committing_sound|intros fs; apply committing_sound|intros fs; apply committing_sync]|intros []].
    by apply triple_done.
Qed.

Lemma recover_after {A} (Q : A → Fs → Prop) : triple False Safe sound (recover_after_failure g) Safe Q.
Proof.
  unfold recover_after_failure. eapply (triple_bind _ _ _ _ _ _ (recovered False False False (fun _ => True))).
  - eapply triple_pre; [by apply (recover_fixed_ok plan False)|]. intros fs [Hs Hr]. by split_and!.
  - intros r. assert (∀ fs, recovered False False False (fun _ => True) r fs → Safe fs) as HE.
    { intros fs. destruct r; cbn; [by intros [[H _] _]|intros (_ & _ & H)|intros [_ H]]; (eapply clean_safe; [by left|done]). }
    eapply triple_bind; [apply triple_sys; exact HE|intros []]. apply triple_fail. intros fs H. split; [by apply HE|]. by intros [].
Qed.

End Commit.

(** ** The command *)

Section Command.

Context {sha : Sha2Crate} {json : JsonCrate} {tx : Migration} {tr : Owners}.

#[local] Abbreviation g := tx_guard.
#[local] Abbreviation ms := tx_members.
#[local] Abbreviation ow := tx_owner.
#[local] Abbreviation J := tx_journal.
#[local] Abbreviation jbytes := tx_bytes.
#[local] Abbreviation cl := (cl_of tx_bytes).

Context (plan : planned g ms ow J jbytes) (c : Prop) (Hc : c → calm) (Hrun : c → entitled).

(** When the tree is as it was read. *)
Context (asread : Prop) (Hce : c → asread).

(** What was not made by the owner may still be there. *)
Lemma held_weaken {A} (c' : Prop) P (m : M A) Q : triple c' Safe P m sound Q → triple c' held P m kept Q.
Proof. intros H. eapply triple_weaken; [exact H|done|intros fs; by apply safe_held|intros fs; by apply sound_kept]. Qed.

(** The text of the master decides whether there is anything to do. *)
Lemma master_text (fs : Fs) (p : TargetPlan) (q : nat * FileNode) (text : str) : plan_of fs (g_master g) p → tp_original p = Some q → (∃ f, file_at fs q.1 f ∧ text = fl_bytes f) →
  captured fs → ∃ m, m ∈ ms ∧ mm_path m = g_master g ∧ text = mm_before m.
Proof.
  destruct (plan_master plan) as (m & Hm & Hp & _). intros Hpl Hq (f & Hf & ->) Hcap. exists m. split; [done|]. split; [done|]. destruct (Hcap m Hm) as [Hl Hb]. rewrite Hp in Hl.
  destruct (plan_of_live _ _ _ _ _ Hpl Hl) as [_ Ho]. rewrite Ho in Hq. injection Hq as <-. cbn in Hf. destruct Hl as (_ & Hfile & _). unfold file_at in *. congruence.
Qed.

Definition migrated (r : MigrationStatus) (fs : Fs) : Prop :=
  match r with AlreadyV4 => sound fs ∧ ¬ asread | Migrated name => name = cl ∧ committed fs end.

(** Recovery comes first; on a tree as it was read it does nothing. *)
Lemma recover_first : triple c held (startable asread) (recover_fixed g) held (fun _ => startable asread).
Proof.
  eapply triple_conseq; [eapply triple_weaken; [apply (recover_fixed_ok plan c Hc asread False (fun fs => asread → captured fs))|done|intros fs; by apply safe_held|intros fs; by apply safe_held]| |].
  - intros fs [[Hs Hr] Hstart]. split; [done|]. split; [done|]. split; [|split; [|split; [done|]]].
    + intros HC (i & Hi & _). by rewrite (proj2 (Hstart (Hce HC))) in Hi.
    + intros HC. apply (Hstart HC).
    + intros HC. apply (Hstart HC).
  - intros r fs H. assert (clean is_old fs ∧ ¬ asread → startable asread fs) as Hclean.
    { intros [Hcl Hnc]. split; [|done]. split; [eapply clean_safe; [by left|done]|apply old_restorable, Hcl]. }
    destruct r; cbn in H; [|apply Hclean; by destruct H as (? & _ & ?)|apply Hclean; by destruct H].
    destruct H as [(Hs & Hr & _ & He & _ & Hcap) _]. split; [by split|]. intros HC. split; [by apply Hcap|by apply He].
Qed.

(** From publication to commit. *)
Lemma migrate_install_ok :
  triple c held (startable asread)
    (t ← or_else (publish g ms) (fun _ => recover_after_failure g);
     t ← or_else (promote_all g t) (fun _ => recover_after_failure g);
     or_else sys (fun _ => recover_after_failure g) ;;
     cleanup ← or_else (commit g t) (fun e => match e with RootFsyncUncertain => fail e | _ => recover_after_failure g end);
     mret (Migrated cleanup)) held migrated.
Proof.
  eapply triple_bind; [eapply triple_or_else; [eapply triple_pre; [by apply (publish_ok plan c Hc)|by intros fs [H Hs]; split; [|intros HC; apply Hs, Hce]]|intros e; by apply recover_after]|intros t].
  eapply triple_bind; [eapply triple_or_else; [by apply held_weaken, promote_all_ok|intros e; by apply recover_after]|intros t'].
  apply triple_exists. intros ys. apply triple_exists. intros i. apply triple_exists. intros owner. apply triple_fact. intros ->. apply triple_fact. intros Ho.
  eapply triple_bind; [eapply triple_or_else; [apply held_weaken, (triple_sys c Safe sound (installed i ys)); intros fs H; by eapply installed_sound|intros e; by apply recover_after]|intros []].
  eapply triple_bind; [eapply triple_or_else; [by apply held_weaken, commit_ok|]|intros name; by apply triple_done].
  intros [| |]; [by apply recover_after|by apply recover_after|]. apply triple_fail. intros fs [H _]. split; [done|]. by intros [].
Qed.

Lemma migrate_tree_ok (declared_schema : str → Z) :
  (asread → forallb migration_member_ok ms = true ∧ ∀ m, m ∈ ms → mm_path m = g_master g → declared_schema (mm_before m) = 3%Z) →
  triple c held (startable asread) (migrate_tree g declared_schema ms) held migrated.
Proof.
  intros Hplan. assert (∀ fs, startable asread fs → Safe fs) as HS by (intros fs [[H _] _]; done). assert (∀ fs, startable asread fs → held fs) as HE by (intros fs H; by apply safe_held, HS). unfold migrate_tree. eapply triple_bind; [apply recover_first|intros r].
  eapply triple_read; [apply reads_plan_live|done|done| |intros p].
  { intros fs H _. destruct (plan_master plan) as (m & Hm & Hp & _). destruct (slot_file _ _ _ (safe_live _ (HS fs H) m Hm)) as (x & f & Hl & _). rewrite Hp in Hl. eauto. }
  eapply triple_read; [apply reads_some|naive_solver|naive_solver| |intros q].
  { intros fs [[_ H] Hp] HC. destruct (plan_master plan) as (m & Hm & Hpath & _). destruct (proj1 (H (Hce HC)) m Hm) as [Hl _]. rewrite Hpath in Hl. by destruct (plan_of_live _ _ _ _ _ Hp Hl) as [_ ->]. }
  eapply triple_read; [apply reads_read_file|naive_solver|naive_solver| |intros text].
  { intros fs [[H Hp] Hq] HC. destruct (plan_master plan) as (m & Hm & Hpath & _). destruct (proj1 (proj2 H (Hce HC)) m Hm) as [Hl Hb]. rewrite Hpath in Hl.
    destruct (plan_of_live _ _ _ _ _ Hp Hl) as [_ Ho]. rewrite Ho in Hq. injection Hq as <-. exists (mm_metadata m). split; [apply Hl|]. rewrite Hb. by apply (plan_len plan). }
  eapply (triple_pre _ _ _ _ (fun fs => (asread → declared_schema text = 3%Z) ∧ startable asread fs)).
  2: { intros fs [[[H Hp] Hq] (f & Hf & -> & _)]. split; [|done]. intros HC. destruct (master_text fs p q (fl_bytes f) Hp Hq ltac:(by exists f) (proj1 (proj2 H HC))) as (m & Hm & Hpath & ->).
       by apply (Hplan HC). }
  apply triple_fact. intros Htext. destruct (Z.eqb_spec (declared_schema text) 4) as [H4|H4].
  - eapply triple_bind; [by apply triple_sys|intros []]. apply triple_done. intros fs [H _]. split; [done|]. intros HC. specialize (Htext HC). congruence.
  - eapply triple_check; [apply reads_ensure|done|done|intros fs _ HC; by rewrite (Htext (Hce HC))|intros []].
    eapply triple_bind; [by apply triple_sys|intros []]. eapply triple_check; [apply reads_ensure|done|done|intros fs _ HC; by apply Hplan, Hce|intros []]. apply migrate_install_ok.
Qed.

End Command.
