(* ===== verification/MigrationEnd.v ===== *)
(** * Rollback and the end of a migration

    [rollback] and [finalize] of [src/config/migration_journal.rs]: a committed
    migration is undone through the fence, or its undo is given up under a third
    name first. *)

From S2P Require Import Prelude RustStr Ast Membership DiskTree MigrationJournal MigrationTxn DiskLogic MigrationReads MigrationPlan MigrationState MigrationSteps MigrationFacts.
From S2P Require Import MigrationRemoval MigrationWrite MigrationRecovery MigrationTrust MigrationDraft MigrationPublish MigrationCommit.

Section Finish.

Context {sha : Sha2Crate} {json : JsonCrate} {tx : Migration} {tr : Owners}.

#[local] Abbreviation g := tx_guard.
#[local] Abbreviation ms := tx_members.
#[local] Abbreviation ow := tx_owner.
#[local] Abbreviation J := tx_journal.
#[local] Abbreviation jbytes := tx_bytes.
#[local] Abbreviation cl := (cl_of tx_bytes).
#[local] Abbreviation fin := (fin_of tx_bytes).

Context (plan : planned g ms ow J jbytes) (c : Prop) (Hc : c → calm).

(** ** Candidates *)

Lemma cleanup_found (fs : Fs) (o : option str) : Safe fs →
  (Safe fs → match o with None => ∀ name, is_Some (entries fs ROOT !! name) → starts_with CLEANUP_DIR_PREFIX name = false
             | Some name => is_Some (entries fs ROOT !! name) ∧ name = (if decide (CLEANUP_DIR_PREFIX = CLEANUP_DIR_PREFIX) then cl else fin) end) →
  match o with None => entries fs ROOT !! cl = None | Some name => name = cl ∧ is_Some (entries fs ROOT !! cl) end.
Proof.
  intros Hs H. specialize (H Hs). destruct (cl_cleanup jbytes) as [Hcl _]. destruct o as [name|]; [rewrite decide_True in H by done; by destruct H as [H ->]|].
  apply eq_None_not_Some. intros Hi. specialize (H cl Hi). congruence.
Qed.

Lemma reads_cleanup : reads cleanup_candidate Safe
  (fun fs o => Safe fs → match o with None => entries fs ROOT !! cl = None | Some name => name = cl ∧ is_Some (entries fs ROOT !! cl) end).
Proof.
  eapply reads_weaken; [apply (reads_our_candidate plan CLEANUP_DIR_PREFIX); by left|done|]. cbn beta. intros fs o H Hs. by apply cleanup_found.
Qed.

Lemma reads_finalized : reads finalized_candidate Safe
  (fun fs o => Safe fs → match o with None => entries fs ROOT !! fin = None | Some name => name = fin ∧ is_Some (entries fs ROOT !! fin) end).
Proof.
  eapply reads_weaken; [apply (reads_our_candidate plan FINALIZED_DIR_PREFIX); by right|done|]. cbn beta. intros fs o H Hs. specialize (H Hs). destruct (fin_finalized jbytes) as [_ Hfin].
  destruct o as [name|]; [rewrite decide_False in H by done; by destruct H as [H ->]|]. apply eq_None_not_Some. intros Hi. specialize (H fin Hi). congruence.
Qed.

(** At most one of the names is taken. *)
Lemma one_artifact (fs : Fs) (a b : str) : Safe fs → is_Some (entries fs ROOT !! a) → a ≠ b → entries fs ROOT !! b = None.
Proof. intros Hs [i Hi] Hne. destruct (root_entry _ _ _ Hs Hi) as (-> & _). by apply lookup_singleton_ne. Qed.

(** ** Rollback of a committed migration *)

Definition rewinding (i : nat) (fs : Fs) : Prop := fresh_ok fs ∧ New fs ∧ full fs i ∧ entries fs ROOT = {[TXN_DIR_NAME := i]}.

Lemma rewinding_sound i fs : rewinding i fs → sound fs.
Proof. intros (Hf & HN & _). split; [split; [done|by right; right]|]. apply new_restorable, HN. Qed.

(** An installed configuration is not the old one. *)
Lemma old_not_new (fs : Fs) : live fs is_old → live fs is_new → False.
Proof.
  intros Hl Hl'. destruct (pl_changes _ _ _ _ _ plan) as (m & Hm & Hne). apply Hne.
  destruct (slot_file _ _ _ (Hl m Hm)) as (x & f & Hf & _ & Hb), (slot_file _ _ _ (Hl' m Hm)) as (x' & f' & Hf' & _ & Hb').
  destruct (live_file_unique _ _ _ _ _ _ Hf Hf') as [-> ->]. unfold is_new, is_old in *. congruence.
Qed.

Lemma undo_new (i : nat) (fs : Fs) : undo_at i fs → live fs is_new → entries fs ROOT = {[cl := i]} ∧ root_all fs (new_root fs).
Proof.
  intros [Hs He] Hl. destruct (safe_cl _ _ Hs He) as [Hroot Hcase]. split; [done|]. destruct Hcase as [[(Hl' & _) _]|[[_ H] _]]; [|done]. exfalso. by eapply old_not_new.
Qed.

Lemma rewind (i : nat) (fs : Fs) : undo_at i fs → live fs is_new → full fs i → rewinding i (push_update ROOT [(cl, None); (TXN_DIR_NAME, Some i)] fs).
Proof.
  intros [Hs He] Hl Hi. destruct (undo_new i fs (conj Hs He) Hl) as [Hroot Hr]. set (u := [(cl, None); (TXN_DIR_NAME, Some i)]).
  pose proof (root_dir _ _ Hr) as Hdir. pose proof (keeps_push true fs ROOT u Hdir) as K.
  assert (apply_update (entries fs ROOT) u = {[TXN_DIR_NAME := i]}) as Hu.
  { rewrite Hroot. unfold u, apply_update. cbn [foldl]. unfold apply_one. cbn [fst snd]. by rewrite delete_singleton_eq. }
  assert (full (push_update ROOT u fs) i) as Hi' by (by apply (keeps_full_root K); [right|]).
  split; [by apply push_fresh, Hs|]. split; [|split; [done|by rewrite entries_push]]. split; [eapply keeps_live; [exact K|apply push_live|done]|].
  eapply root_push; [exact Hr|intros V; apply (keeps_new_root K); by right|]. rewrite Hu. right. left. eauto.
Qed.

Lemma rewinding_sync (i : nat) (fs : Fs) : rewinding i fs → recoverable c False True (fun fs => entries fs ROOT !! TXN_DIR_NAME = Some i) (sync_at ROOT fs).
Proof.
  intros H. pose proof (rewinding_sound _ _ H) as [Hs Hres]. destruct H as (Hf & _ & [_ Hd] & He). pose proof (keeps_sync true fs ROOT) as K. destruct (names_apart jbytes) as (Hn & _ & _).
  split; [eapply keeps_safe; [exact K|apply sync_live|by apply sync_fresh|done]|]. split; [eapply keeps_restorable; [exact K|apply sync_live|by apply safe_live|done]|].
  split; [intros _ (i' & Hi' & _); by rewrite entries_sync, He, lookup_singleton_ne in Hi'|]. split; [done|]. split; [|by rewrite entries_sync, He, lookup_singleton_eq].
  intros _ i' Hi'. rewrite entries_sync, He, lookup_singleton_eq in Hi'. injection Hi' as <-. rewrite entries_sync. apply dir_now in Hd as (j & o & -> & _). by rewrite fence_map_journal.
Qed.

Section Rollback.

(** When there is a complete undo. *)
Context (undoable : Prop).

Definition revertible (fs : Fs) : Prop :=
  sound fs ∧ (c → entries fs ROOT !! TXN_DIR_NAME = None ∧ entries fs ROOT !! fin = None ∧ ¬ stuck fs)
  ∧ (undoable → ∃ i, entries fs ROOT !! cl = Some i ∧ entries fs i !! JOURNAL_NAME ≠ None).

Definition reverted (r : RollbackOutcome) (fs : Fs) : Prop :=
  match r with NoArtifact => sound fs ∧ ¬ undoable | RollbackSetupRemoved => ¬ undoable ∧ clean is_old fs | Restored => clean is_old fs end.

Lemma undoable_no_fence (fs : Fs) : revertible fs → undoable → entries fs ROOT !! TXN_DIR_NAME = None.
Proof. intros ([Hs _] & _ & H) Hu. destruct (H Hu) as (i & Hi & _). apply (one_artifact fs cl); [done|by eexists|]. by destruct (names_apart jbytes). Qed.

(** With a fence, or when it could not be seen. *)
Lemma rollback_fenced :
  triple False Safe revertible (r ← recover_fixed g; match r with SetupRemoved => mret RollbackSetupRemoved | RolledBack => mret Restored | NothingToRecover => fail Refused end) Safe reverted.
Proof.
  eapply (triple_bind _ _ _ _ _ _ (recovered False False undoable (fun _ => True))).
  - eapply triple_pre; [by apply (recover_fixed_ok plan False)|]. intros fs H. pose proof (undoable_no_fence fs H) as Hn. destruct H as ([Hs Hr] & _). split; [done|]. split; [done|].
    split; [done|]. split; [done|]. split; [|done]. intros Hu i Hi. by rewrite (Hn Hu) in Hi.
  - intros [| |].
    + apply triple_fail. intros fs [[H _] _]. split; [done|]. by intros [].
    + apply triple_done. by intros fs (_ & H & Hcl).
    + apply triple_done. by intros fs [_ H].
Qed.

(** The old side: the undo goes. *)
Lemma rollback_old (i j : nat) (rest : Rest) :
  triple c Safe (fun fs => undo_at i fs ∧ live fs is_old ∧ part_now fs i j rest)
    (ensure_current_inode ROOT cl i ;; sync_dir ROOT ;; sys ;; ensure_current_inode ROOT cl i ;;
     remove_cleanup_inventory i cl (inventory_of (length ms) j rest) ;; sync_dir ROOT ;; mret Restored) Safe reverted.
Proof.
  assert (∀ fs, undo_at i fs ∧ live fs is_old ∧ part_now fs i j rest → Safe fs) as HE by (intros fs [[H _] _]; done).
  assert (∀ fs, left_over cl is_old i j rest fs → Safe fs) as HL by (intros fs H; eapply left_over_safe; [|exact H]; by left).
  eapply triple_check; [apply reads_current|done|done|intros fs [[_ H] _] _; exact H|intros []].
  eapply triple_bind; [apply (triple_sync_dir _ _ _ _ _ (left_over cl is_old i j rest)); [done|done|]; intros fs (Hu & Hl & Hp); by apply undo_old|intros []].
  eapply triple_bind; [by apply triple_sys|intros []].
  eapply triple_check; [apply reads_current|done|done| |intros []].
  { intros fs [(_ & _ & Hr & _) _] _. rewrite (root_now _ _ Hr). apply lookup_singleton_eq. }
  eapply triple_bind; [apply (remove_cleanup plan); by left|intros []].
  eapply triple_bind; [apply triple_sync_dir; [intros fs; apply clean_safe; by left|intros fs; apply clean_safe; by left|intros fs; apply clean_sync]|intros []].
  by apply triple_done.
Qed.

(** The new side: the undo becomes the fence again. *)
Lemma rollback_new (i j : nat) (rest : Rest) (owner : Attr) : owner_is owner →
  triple c Safe (fun fs => undo_at i fs ∧ live fs is_new ∧ full fs i ∧ part_now fs i j rest)
    (require_originals owner J (inventory_of (length ms) j rest) ;; ensure_current_inode ROOT cl i ;; rename_noreplace_at ROOT cl TXN_DIR_NAME ;; sync_dir ROOT ;;
     r ← recover_fixed g; match r with RolledBack => mret Restored | _ => fail Refused end) Safe reverted.
Proof.
  intros Ho. set (P := fun fs => undo_at i fs ∧ live fs is_new ∧ full fs i ∧ part_now fs i j rest). assert (∀ fs, P fs → Safe fs) as HE by (intros fs [[H _] _]; done).
  eapply triple_check; [apply (reads_require plan i owner)|done|done| |intros []].
  { intros fs (_ & _ & Hf & Hp) HC. split; [auto|]. split; [done|]. by apply (new_part_holds plan i). }
  eapply triple_check; [apply reads_current|done|done|intros fs [[_ H] _] _; exact H|intros []].
  eapply triple_bind; [apply (triple_rename _ _ _ _ _ _ _ (rewinding i)); [done|done| |]|intros []].
  { intros fs [[Hs H] _] _. split; [by eexists|]. apply (one_artifact fs cl); [done|by eexists|]. intros H'. by destruct (names_apart jbytes) as (Hn & _). }
  { intros fs x [[Hs H] (Hl & Hi & _)] Hx _. rewrite H in Hx. injection Hx as <-. by apply rewind. }
  eapply triple_bind; [apply (triple_sync_dir _ _ _ _ _ (recoverable c False True (fun fs => entries fs ROOT !! TXN_DIR_NAME = Some i)))|intros []].
  { intros fs H. by eapply rewinding_sound. }
  { intros fs H. by eapply rewinding_sound. }
  { intros fs. apply rewinding_sync. }
  eapply triple_bind; [by apply (recover_fixed_ok plan c Hc)|]. intros [| |].
  - apply triple_fail. intros fs [(Hs & _ & _ & _ & _ & H) Hn]. congruence.
  - apply triple_fail. intros fs (_ & H & _). by destruct H.
  - apply triple_done. by intros fs [_ H].
Qed.

Lemma rollback_ok : triple c Safe revertible (rollback g) Safe reverted.
Proof.
  assert (∀ fs, revertible fs → Safe fs) as HE by (intros fs [[H _] _]; done). unfold rollback.
  apply triple_inspect; [done|done|by intros fs (_ & H & _) HC; apply H| |].
  { intros s Hs. eapply triple_check; [apply reads_finalized|done|done|done|intros terminal]. eapply triple_check; [apply reads_cleanup|done|done|done|intros cleanup].
    destruct s; try done; (eapply triple_check; [apply reads_ensure|done|done|done|intros []]; apply rollback_fenced). }
  set (P := fun fs => revertible fs ∧ entries fs ROOT !! TXN_DIR_NAME = None). assert (∀ fs, P fs → Safe fs) as HP by (intros fs [H _]; auto).
  eapply triple_read; [apply reads_finalized|done|done|by intros fs H _; apply HP|intros terminal].
  eapply triple_read; [apply reads_cleanup|naive_solver|naive_solver|intros fs [H _] _; by apply HP|intros [name|]].
  - eapply (triple_pre _ _ _ _ (fun fs => (name = cl ∧ terminal = None) ∧ ∃ i, revertible fs ∧ undo_at i fs)).
    2: { intros fs [[H Ht] Hn]. specialize (Ht (HP fs H)). destruct (Hn (HP fs H)) as [-> [i Hi]]. split; [|exists i; split; [apply H|]; split; [by apply HP|done]]. split; [done|].
         destruct terminal as [tn|]; [|done]. destruct Ht as [_ Ht]. assert (entries fs ROOT !! cl = None) as Hno; [|congruence]. apply (one_artifact fs fin); [by apply HP|done|].
         intros H'. by destruct (names_apart jbytes) as (_ & _ & Hne). }
    apply triple_fact. intros [-> ->]. apply triple_exists. intros i. rewrite bool_decide_eq_true_2 by done. cbn [ensure]. eapply triple_bind; [by apply (triple_done _ _ _ tt _ (fun _ fs => revertible fs ∧ undo_at i fs))|intros []].
    apply (undo_open plan c Hc i); [by intros fs [_ H]|]. intros owner Ho. eapply triple_read; [apply reads_inspect_at|naive_solver|naive_solver|done|intros o].
    destruct (decide (o = None)) as [->|Hne].
    + rewrite bool_decide_eq_true_2 by done. eapply (triple_pre _ _ _ _ (fun fs => ¬ undoable ∧ (revertible fs ∧ undo_at i fs) ∧ None = entries fs i !! JOURNAL_NAME)).
      2: { intros fs [[H Hu] Hj]. split; [|done]. intros Hun. destruct H as (_ & _ & H). destruct (H Hun) as (i' & Hi' & Hj'). destruct Hu as [_ Hi]. rewrite Hi in Hi'. injection Hi' as <-. by destruct Hj'. }
      apply triple_fact. intros Hun. eapply triple_bind; [apply (undo_remove_empty c i)|intros []; by apply triple_done].
      intros fs [[(_ & H & _) Hu] Hj]. split; [done|]. split; [done|]. intros HC. by apply H.
    + rewrite bool_decide_eq_false_2 by done. apply (undo_read plan c Hc i owner); [done|intros fs [[_ Hu] ->]; split; [done|by apply not_eq_None_Some]|].
      intros j rest [b a]. destruct b.
      * eapply triple_pre; [apply (rollback_old i j rest)|]. intros fs [[[H Hu] _] (Hp & _ & Hnew)]. split; [done|]. split; [|done].
        destruct (undo_sides _ _ Hu) as [Hl|[Hl _]]; [done|]. by specialize (Hnew Hl).
      * eapply triple_pre; [by apply (rollback_new i j rest owner)|]. intros fs [[[H Hu] _] (Hp & Hold & _)]. split; [done|].
        destruct (undo_sides _ _ Hu) as [Hl|[Hl Hf]]; [by specialize (Hold Hl)|done].
  - eapply (triple_pre _ _ _ _ (fun fs => ¬ undoable ∧ P fs ∧ (Safe fs → match terminal with None => entries fs ROOT !! fin = None | Some name => name = fin ∧ is_Some (entries fs ROOT !! fin) end))).
    2: { intros fs [[H Ht] Hn]. split; [|done]. intros Hun. specialize (Hn (HP fs H)). destruct H as [(_ & _ & H) _]. destruct (H Hun) as (i & Hi & _). congruence. }
    apply triple_fact. intros Hun. eapply triple_check; [apply reads_ensure|naive_solver|naive_solver| |intros []].
    + intros fs [H Ht] HC. specialize (Ht (HP fs H)). apply bool_decide_eq_true_2. destruct terminal as [tn|]; [|done]. destruct Ht as [_ [x Hx]]. destruct H as [(_ & H & _) _].
      destruct (H HC) as (_ & Hfin & _). congruence.
    + apply triple_done. intros fs [[(H & _) _] _]. by split.
Qed.

End Rollback.

(** ** Keeping the migration *)

Definition keeping (i : nat) (fs : Fs) : Prop := Safe fs ∧ entries fs ROOT !! fin = Some i.

Lemma safe_fin (fs : Fs) (i : nat) : keeping i fs → entries fs ROOT = {[fin := i]} ∧ New fs ∧ loose fs i.
Proof.
  intros [Hs H]. destruct (names_apart jbytes) as (Hn1 & Hn2 & Hn3).
  apply safe_root in Hs as [[He _]|[(i' & He & Hi)|[(i' & He & Hi)|(i' & He & Hi)]]]; rewrite He in H; [done|..]; apply lookup_singleton_Some in H as [Hn Hi']; try congruence.
  by subst.
Qed.

Lemma keeping_sync (i : nat) (fs : Fs) : keeping i fs → removing fin is_new i (sync_at ROOT fs) ∧ ∀ d, entries (sync_at ROOT fs) d = entries fs d.
Proof.
  intros H. destruct (safe_fin _ _ H) as (He & [Hl Hr] & Hi). pose proof (keeps_sync true fs ROOT) as K. split; [|intros d; apply entries_sync]. split; [apply sync_fresh, H|].
  split; [eapply keeps_live; [exact K|apply sync_live|done]|]. split; [|by apply (keeps_loose_root K); [left|]]. eapply root_all_impl; [by apply root_sync|]. intros V [-> _]. done.
Qed.

Lemma loose_journal (i j : nat) (fs : Fs) : loose fs i → entries fs i !! JOURNAL_NAME = Some j → ∃ j rest, part_now fs i j rest.
Proof.
  intros [_ H] Hj. apply dir_now in H as [(st & ro & H & _)|H]; [by rewrite H, setup_map_journal in Hj|]. apply part_now_of in H as [H|H]; [by rewrite H in Hj|done].
Qed.

(** A given-up undo, on disk. *)
Definition ending (i : nat) (fs : Fs) : Prop := removing fin is_new i fs ∧ (c → entries fs i !! JOURNAL_NAME = None → entries fs i = ∅).

Lemma ending_safe i fs : ending i fs → Safe fs.
Proof. intros [H _]. eapply removing_safe; [|exact H]. by right. Qed.

Lemma ending_live i fs : ending i fs → live fs is_either.
Proof. intros [(_ & H & _) _]. by apply new_either. Qed.

Lemma new_clean_sync {A} (a : A) : triple c Safe (clean is_new) (sync_dir ROOT ;; mret a) Safe (fun r fs => r = a ∧ clean is_new fs).
Proof.
  eapply triple_bind; [apply triple_sync_dir; [intros fs; apply clean_safe; by right|intros fs; apply clean_safe; by right|intros fs; apply clean_sync]|intros []]. by apply triple_done.
Qed.

Lemma resume_ok (i : nat) : triple c Safe (fun fs => keeping i fs ∧ (c → entries fs i !! JOURNAL_NAME = None → entries fs i = ∅)) (resume_terminal_cleanup g fin) Safe (fun _ => clean is_new).
Proof.
  set (P := fun fs => keeping i fs ∧ (c → entries fs i !! JOURNAL_NAME = None → entries fs i = ∅)). assert (∀ fs, P fs → Safe fs) as HE by (intros fs [[H _] _]; done).
  unfold resume_terminal_cleanup. eapply (triple_read_eq _ _ _ _ _ _ _ _ _ i); [apply reads_open_existing_dir|done|done| | |].
  { intros fs [H _] _. exists i. split; [apply H|]. destruct (safe_fin _ _ H) as (_ & _ & _ & Hd). by eapply dir_all_dir. }
  { intros fs x [[_ H] _] [Hx _]. congruence. }
  eapply triple_read; [apply (reads_tree_owner plan)|done|done|intros fs H _; by apply safe_live, HE|intros owner].
  eapply (triple_pre _ _ _ _ (fun fs => owner_is owner ∧ P fs)); [apply triple_fact; intros Ho|intros fs [H HR]; split; [by apply HR, safe_live, HE|done]].
  eapply triple_check; [apply (reads_our_dir i owner (fun _ => True))|done|done| |intros []].
  { intros fs [H _] HC. split; [auto|]. split; [done|]. destruct (safe_fin _ _ H) as (_ & _ & _ & Hd). by eapply dir_all_impl. }
  eapply triple_check; [apply reads_current|done|done|intros fs [[_ H] _] _; exact H|intros []].
  eapply triple_bind; [apply (triple_sync_dir _ _ _ _ _ (ending i)); [done|done|]|intros []].
  { intros fs [H Hj]. destruct (keeping_sync _ _ H) as [H1 H2]. split; [done|]. by rewrite !H2. }
  eapply triple_read; [apply reads_inspect_at|apply ending_safe|apply ending_safe|done|intros o]. destruct (decide (o = None)) as [->|Hne].
  - rewrite bool_decide_eq_true_2 by done. eapply (triple_remove_empty c fin i is_new _ (dropped fin is_new i)); [by right|intros fs [H _]; by eapply ending_safe|..].
    + intros fs. apply dropped_safe. by right.
    + apply dropped_sync.
    + intros fs [[(_ & _ & Hr & [_ Hd]) Hj] Hn] HC. split; [rewrite (root_now _ _ Hr); apply lookup_singleton_eq|]. split; [by eapply dir_all_dir|]. by apply Hj.
    + intros fs [[H _] _] _ _. by apply removing_drop.
  - rewrite bool_decide_eq_false_2 by done. eapply (triple_pre _ _ _ _ (fun fs => ∃ j rest, left_over fin is_new i j rest fs)).
    2: { intros fs [[H _] ->]. apply not_eq_None_Some in Hne as [j Hj]. destruct (loose_journal i j fs ltac:(apply H) Hj) as (j' & rest & Hp). by exists j', rest. }
    apply triple_exists. intros j. apply triple_exists. intros rest. assert (∀ fs, left_over fin is_new i j rest fs → Safe fs) as HL by (intros fs H; eapply left_over_safe; [|exact H]; by right).
    eapply (triple_read_eq _ _ _ _ _ _ _ _ _ jbytes); [apply (reads_our_bytes plan i owner)|done|done| | |].
    { intros fs [_ Hp] HC. split; [auto|]. split; [done|]. by eapply part_journal. }
    { intros fs a [_ Hp] H. eapply H, part_journal, Hp. }
    eapply triple_check; [apply reads_ensure|done|done|intros fs _ _; by apply bool_decide_eq_true_2|intros []].
    rewrite (plan_journal plan). eapply (triple_read_eq _ _ _ _ _ _ _ _ _ J); [apply reads_some|done|done|by intros; eexists|by intros fs x _ [= <-]|].
    eapply (triple_read_eq _ _ _ _ _ _ _ _ _ (inventory_of (length ms) j rest)); [apply (reads_our_cleanup plan i owner)|done|done| | |].
    { intros fs [_ Hp] HC. split; [auto|]. split; [done|]. eauto. }
    { intros fs a [_ Hp] H. by apply H. }
    eapply triple_bind; [apply (remove_cleanup plan); by right|intros []].
    apply triple_sync_dir; [intros fs; apply clean_safe; by right|intros fs; apply clean_safe; by right|intros fs; apply clean_sync].
Qed.

(** Only a configuration that is new on every member is kept. *)
Lemma reads_kept (i : nat) (owner : Attr) (inv : CleanupInventory) :
  reads (for_each (zip (jn_members J) (ci_blobs inv))
           (fun p => x ← some p.2; validate_original_blob_file x owner p.1 ;; s ← classify_path (jm_path p.1) (jm_before p.1) (jm_after p.1); ensure (is_after s)))
    (fun fs => calm ∧ owner_is owner ∧ live fs is_new ∧ ∃ j o blobs, holds fs i j o blobs ∧ inv = inventory_of (length ms) j (Some (o, blobs)))
    (fun fs _ => live fs is_either → length (ci_blobs inv) = length ms → ∀ m, m ∈ ms → ∃ s, found fs m s ∧ is_after s = true).
Proof.
  eapply reads_weaken; [apply (reads_for_each_in _ _ (fun p fs => live fs is_new ∧ ∃ b bytes, p.2 = Some b ∧ blob_ok fs owner p.1 b bytes)
    (fun p fs _ => ∃ s, (∀ k m, p.1 = entry_of k m → m ∈ ms → found fs m s) ∧ is_after s = true))| |].
  - intros [e b] Hp. apply list_elem_of_lookup in Hp as [k Hk]. apply lookup_zip_with_Some in Hk as (e' & b' & [= <- <-] & He & _). apply list_elem_of_lookup_2 in He.
    cbn [fst snd]. eapply reads_weaken; [eapply reads_bind; [apply reads_some|intros x; eapply reads_bind; [apply reads_blob_file|intros y; eapply reads_bind; [by apply (reads_entry plan e)|intros s; apply reads_ensure]]]| |].
    + cbn. intros fs (Hl & b' & bytes & -> & Hb). split; [done|]. intros x [= <-]. split; [by exists bytes|]. intros _ _. split; [by apply new_either|]. intros s Hs.
      destruct (plan_entry plan e He) as (k' & m & Hm & ->). apply list_elem_of_lookup_2 in Hm. destruct (Hs k' m eq_refl Hm (new_either _ Hl)) as (x & f & Hlf & Hf & Hk' & ->).
      apply state_after; [done|]. destruct (slot_file _ _ _ (Hl m Hm)) as (x' & f' & Hl' & _ & Hb'). by destruct (live_file_unique _ _ _ _ _ _ Hlf Hl') as [_ ->].
    + cbn. intros fs [] (x & _ & bytes & _ & s & Hs & Ha). by exists s.
  - cbn. intros fs (HC & Ho & Hl & j & o & blobs & Hh & ->) p Hp. split; [done|]. apply list_elem_of_lookup in Hp as [k Hk].
    apply lookup_zip_with_Some in Hk as (e & b & -> & He & Hb). cbn in *. pose proof (holds_length plan _ _ _ _ _ Hh) as [Hlen _]. rewrite Hlen, Nat.sub_diag, app_nil_r in Hb.
    rewrite (plan_members plan) in He. destruct (ms !! k) as [m|] eqn:Em; [|done]. injection He as <-. destruct Hh as [_ _ _ _ Hall].
    destruct (Forall2_lookup_l _ _ _ _ _ Hall Em) as (x & Hx & Hhold). rewrite list_lookup_fmap, Hx in Hb. injection Hb as <-. exists x, (mm_before m). split; [done|]. by apply holding_blob.
  - cbn. intros fs _ H HL Hlen m Hm. apply list_elem_of_lookup in Hm as [k Hm]. pose proof (plan_members plan k) as He. rewrite Hm in He.
    destruct (lookup_lt_is_Some_2 (ci_blobs inv) k) as [b Hb]; [rewrite Hlen; by eapply lookup_lt_Some|].
    destruct (H (entry_of k m, b)) as (s & Hs & Ha); [apply (list_elem_of_lookup_2 _ k), lookup_zip_with_Some; eauto|]. exists s. split; [|done]. eapply Hs; [done|]. by eapply list_elem_of_lookup_2.
Qed.

Lemma inventory_length (j : nat) (rest : Rest) : (∀ o bs, rest = Some (o, bs) → length bs ≤ length ms) → length (ci_blobs (inventory_of (length ms) j rest)) = length ms.
Proof.
  intros H. destruct rest as [[o bs]|]; cbn; [|apply length_replicate]. specialize (H o bs eq_refl). rewrite length_app, length_map, length_replicate. lia.
Qed.

Lemma kept_new (i j : nat) (rest : Rest) (fs : Fs) : undo_at i fs → part_now fs i j rest → (∀ m, m ∈ ms → ∃ s, found fs m s ∧ is_after s = true) → live fs is_new ∧ full fs i.
Proof.
  intros Hu Hp H. destruct (undo_sides _ _ Hu) as [Hl|HN]; [|done]. exfalso. destruct (pl_changes _ _ _ _ _ plan) as (m & Hm & Hne). destruct (H m Hm) as (s & Hs & Ha).
  destruct (Hs (old_either _ Hl)) as (x & f & Hlf & _ & Hk & ->). apply state_after in Ha; [|done].
  destruct (slot_file _ _ _ (Hl m Hm)) as (x' & f' & Hl' & _ & Hb'). destruct (live_file_unique _ _ _ _ _ _ Hlf Hl') as [_ ->]. unfold is_old in Hb'. congruence.
Qed.

Lemma terminal_rename (i : nat) (fs : Fs) : undo_at i fs → live fs is_new → full fs i → keeping i (push_update ROOT [(cl, None); (fin, Some i)] fs).
Proof.
  intros [Hs He] Hl Hi. destruct (undo_new i fs (conj Hs He) Hl) as [Hroot Hr]. set (u := [(cl, None); (fin, Some i)]).
  pose proof (root_dir _ _ Hr) as Hdir. pose proof (keeps_push true fs ROOT u Hdir) as K.
  assert (apply_update (entries fs ROOT) u = {[fin := i]}) as Hu.
  { rewrite Hroot. unfold u, apply_update. cbn [foldl]. unfold apply_one. cbn [fst snd]. by rewrite delete_singleton_eq. }
  split; [|by rewrite entries_push, Hu, lookup_singleton_eq by done]. split; [by apply push_fresh, Hs|]. right. right. split; [eapply keeps_live; [exact K|apply push_live|done]|].
  eapply root_push; [exact Hr|intros V; apply (keeps_new_root K); by right|]. rewrite Hu. do 3 right. exists i. split; [done|]. apply (keeps_loose_root K); [by right|by apply full_loose].
Qed.

Lemma part_root (i j : nat) (rest : Rest) (fs : Fs) (u : Update) : dir_at fs ROOT → i ≠ ROOT → part_now fs i j rest → part_now (push_update ROOT u fs) i j rest.
Proof.
  intros Hd Hi (He & Hj & Hr). pose proof (keeps_push true fs ROOT u Hd) as K. split; [by rewrite entries_push_ne|]. split; [by apply (keeps_holding K)|].
  destruct rest as [[o bs]|]; [|done]. destruct Hr as (Hb & Hbs & Hl & Hg). assert (o ≠ ROOT) as Hne by (unfold ROOT in *; destruct Hb; lia).
  split; [eapply keeps_below; [exact K|congruence|exact Hb|apply (keeps_blobs_part K)]|]. split; [by rewrite entries_push_ne|]. split; [done|].
  eapply Forall_impl; [exact Hg|]. intros b. apply (keeps_good K).
Qed.

Section Finalize.

(** When there is a committed undo. *)
Context (kept : Prop).

Definition finishable (fs : Fs) : Prop :=
  sound fs ∧ (c → entries fs ROOT !! TXN_DIR_NAME = None ∧ (∀ i, entries fs ROOT !! fin = Some i → entries fs i !! JOURNAL_NAME = None → entries fs i = ∅)
                  ∧ (∀ i, entries fs ROOT !! cl = Some i → live fs is_new))
  ∧ (kept → is_Some (entries fs ROOT !! cl)).

Definition finished (r : FinalizeOutcome) (fs : Fs) : Prop :=
  match r with NothingToFinalize => sound fs ∧ ¬ kept | Finalized => clean is_new fs end.

(** What is checked before the undo is given up. *)
Lemma finalize_checked (i j : nat) (rest : Rest) (owner : Attr) (inv := inventory_of (length ms) j rest) : owner_is owner →
  triple c Safe (fun fs => undo_at i fs ∧ (c → live fs is_new) ∧ part_now fs i j rest)
    (ensure (bool_decide (is_Some (ci_originals inv)) && forallb (fun b => bool_decide (is_Some b)) (ci_blobs inv)) ;;
     for_each (zip (jn_members J) (ci_blobs inv))
       (fun p => x ← some p.2; validate_original_blob_file x owner p.1 ;; s ← classify_path (jm_path p.1) (jm_before p.1) (jm_after p.1); ensure (is_after s)))
    Safe (fun _ fs => undo_at i fs ∧ live fs is_new ∧ full fs i ∧ part_now fs i j rest).
Proof.
  intros Ho. set (P := fun fs => undo_at i fs ∧ (c → live fs is_new) ∧ part_now fs i j rest). assert (∀ fs, P fs → Safe fs) as HE by (intros fs [[H _] _]; done).
  assert (∀ fs, P fs → c → live fs is_new ∧ ∃ j' o blobs, holds fs i j' o blobs ∧ inv = inventory_of (length ms) j' (Some (o, blobs))) as Hfull.
  { intros fs (Hu & Hn & Hp) HC. split; [by apply Hn|]. apply (new_part_holds plan i); [|done]. destruct (undo_sides _ _ Hu) as [Hl|[_ Hf]]; [|done]. exfalso. by apply (old_not_new fs), Hn. }
  eapply triple_check; [apply reads_ensure|done|done| |intros []].
  { intros fs H HC. destruct (Hfull fs H HC) as (_ & j' & o & blobs & Hh & ->). pose proof (holds_length plan _ _ _ _ _ Hh) as [Hlen _]. cbn. rewrite Hlen, Nat.sub_diag, app_nil_r.
    apply forallb_forall. intros b Hb. apply in_map_iff in Hb as (x & <- & _). done. }
  eapply triple_conseq; [apply (triple_reads _ _ _ P _ _ _ (reads_kept i owner inv)); [done|done|]|done|].
  - intros fs H HC. destruct (Hfull fs H HC) as (Hn & Hh). split; [auto|]. done.
  - cbn beta. intros [] fs [(Hu & _ & Hp) HR]. split; [done|]. destruct (kept_new i j rest fs Hu Hp) as [Hl Hf]; [|done]. apply HR; [by apply safe_live, Hu|].
    apply inventory_length. intros o bs Hrest. destruct Hp as (_ & _ & Hr). rewrite Hrest in Hr. apply Hr.
Qed.

(** The undo is given up once the rename is on disk. *)
Lemma finalize_rename (i j : nat) (rest : Rest) :
  triple c Safe (fun fs => undo_at i fs ∧ live fs is_new ∧ full fs i ∧ part_now fs i j rest)
    (sys ;; ensure_current_inode ROOT cl i ;; rename_noreplace_at ROOT cl fin ;; sync_dir ROOT ;;
     remove_cleanup_inventory i fin (inventory_of (length ms) j rest) ;; sync_dir ROOT ;; mret Finalized) Safe finished.
Proof.
  set (P := fun fs => undo_at i fs ∧ live fs is_new ∧ full fs i ∧ part_now fs i j rest). assert (∀ fs, P fs → Safe fs) as HE by (intros fs [[H _] _]; done).
  eapply triple_bind; [by apply triple_sys|intros []].
  eapply triple_check; [apply reads_current|done|done|intros fs [[_ H] _] _; exact H|intros []].
  eapply triple_bind; [apply (triple_rename _ _ _ _ _ _ _ (fun fs => keeping i fs ∧ part_now fs i j rest)); [done|done| |]|intros []].
  { intros fs [[Hs H] _] _. split; [by eexists|]. apply (one_artifact fs cl); [done|by eexists|]. by destruct (names_apart jbytes) as (_ & _ & Hne). }
  { intros fs x [[Hs H] (Hl & Hi & Hp)] Hx Hd. rewrite H in Hx. injection Hx as <-. split; [by apply terminal_rename|]. apply part_root; [by eapply root_dir, (undo_new i fs)|apply Hi|done]. }
  eapply triple_bind; [apply (triple_sync_dir _ _ _ _ _ (left_over fin is_new i j rest)); [intros fs [[H _] _]; exact H..|]|intros []].
  { intros fs [H Hp]. split; [by apply keeping_sync|by apply part_sync]. }
  eapply triple_bind; [apply (remove_cleanup plan); by right|intros []].
  eapply triple_conseq; [apply new_clean_sync|done|]. by intros r fs [-> H].
Qed.

Lemma finalize_undo (i : nat) :
  triple c Safe (fun fs => finishable fs ∧ undo_at i fs)
    (fence ← open_existing_dir ROOT cl; owner ← owner_metadata g; validate_owned_directory fence owner 448 ;;
     bytes ← read_journal_bytes fence owner; let hash := sha256_hex bytes in ensure (bool_decide (cl = cleanup_name hash)) ;;
     journal ← some (validate_journal bytes (g_master g)); inventory ← validate_cleanup_inventory fence owner journal;
     ensure (bool_decide (is_Some (ci_originals inventory)) && forallb (fun b => bool_decide (is_Some b)) (ci_blobs inventory)) ;;
     for_each (zip (jn_members journal) (ci_blobs inventory))
       (fun p => x ← some p.2; validate_original_blob_file x owner p.1 ;; s ← classify_path (jm_path p.1) (jm_before p.1) (jm_after p.1); ensure (is_after s)) ;;
     sys ;; ensure_current_inode ROOT cl fence ;; rename_noreplace_at ROOT cl (finalized_name hash) ;; sync_dir ROOT ;;
     remove_cleanup_inventory fence (finalized_name hash) inventory ;; sync_dir ROOT ;; mret Finalized) Safe finished.
Proof.
  assert (∀ fs, finishable fs ∧ undo_at i fs → Safe fs) as HE by (intros fs [[[H _] _] _]; done).
  apply (undo_open plan c Hc i); [by intros fs [_ H]|]. intros owner Ho.
  eapply triple_read; [apply reads_journal_bytes|done|done| |intros bytes].
  { intros fs [(_ & H & _) Hu] HC. exists jbytes. apply (journal_found plan); [auto..|]. destruct (H HC) as (_ & _ & Hn). destruct Hu as [Hs Hi].
    destruct (undo_sides i fs (conj Hs Hi)) as [Hl|[_ [_ Hf]]]; [exfalso; eapply old_not_new; [exact Hl|by eapply Hn]|]. apply dir_now, full_holds in Hf as (j & o & blobs & Hf).
    exists j. split; [rewrite (ho_fence _ _ _ _ _ Hf); apply fence_map_journal|apply Hf]. }
  eapply (triple_pre _ _ _ _ (fun fs => ∃ j rest, bytes = jbytes ∧ (undo_at i fs ∧ (c → live fs is_new) ∧ part_now fs i j rest))).
  2: { intros fs [[(_ & H & _) Hu] (j & f & Hj & Hf & _ & Hb & _)]. destruct (undo_journal _ _ _ Hu Hj) as (j' & rest & Hp). exists j', rest. split; [|split; [done|split; [|done]]].
       - destruct Hp as (He & (f' & Hf' & _ & Hb' & _) & _). rewrite He, remains_journal in Hj. injection Hj as <-. unfold file_at in *. congruence.
       - intros HC. destruct Hu as [_ Hi]. by eapply H. }
  apply triple_exists. intros j. apply triple_exists. intros rest. apply triple_fact. intros ->.
  set (P := fun fs => undo_at i fs ∧ (c → live fs is_new) ∧ part_now fs i j rest). assert (∀ fs, P fs → Safe fs) as HP by (intros fs [[H _] _]; done). cbv zeta.
  eapply triple_check; [apply reads_ensure|done|done|intros fs _ _; by apply bool_decide_eq_true_2|intros []].
  rewrite (plan_journal plan). eapply (triple_read_eq _ _ _ _ _ _ _ _ _ J); [apply reads_some|done|done|by intros; eexists|by intros fs x _ [= <-]|].
  eapply (triple_read_eq _ _ _ _ _ _ _ _ _ (inventory_of (length ms) j rest)); [apply (reads_our_cleanup plan i owner)|done|done| | |].
  { intros fs (_ & _ & Hp) HC. split; [auto|]. split; [done|]. eauto. }
  { intros fs a (_ & _ & Hp) H. by apply H. }
  apply triple_assoc. eapply triple_bind; [by apply finalize_checked|intros []]. apply finalize_rename.
Qed.

Lemma finalize_ok : triple c Safe finishable (finalize g) Safe finished.
Proof.
  assert (∀ fs, finishable fs → Safe fs) as HE by (intros fs [[H _] _]; done). unfold finalize.
  apply triple_inspect; [done|done|by intros fs (_ & H & _) HC; apply H| |].
  { intros s Hs. destruct s; try done; (eapply (triple_bind _ _ _ _ _ _ (fun _ _ => False)); [apply triple_fail; naive_solver|]; intros [] fs io []). }
  set (P := fun fs => finishable fs ∧ entries fs ROOT !! TXN_DIR_NAME = None). assert (∀ fs, P fs → Safe fs) as HP by (intros fs [H _]; auto).
  cbn [ensure]. eapply triple_bind; [by apply (triple_done _ _ _ tt P (fun _ => P))|intros []].
  eapply triple_read; [apply reads_finalized|done|done|by intros fs H _; apply HP|intros terminal].
  eapply triple_read; [apply reads_cleanup|naive_solver|naive_solver|intros fs [H _] _; by apply HP|intros cleanup].
  eapply triple_check; [apply reads_ensure|naive_solver|naive_solver| |intros []].
  { intros fs [[H Ht] Hl] _. specialize (Ht (HP fs H)). specialize (Hl (HP fs H)). destruct terminal as [t|]; [|done]. destruct cleanup as [n|]; [|done]. exfalso.
    destruct Ht as [-> Ht], Hl as [-> [x Hx]]. rewrite (one_artifact fs fin cl) in Hx; [done|by apply HP|done|]. by destruct (names_apart jbytes) as (_ & _ & Hne). }
  destruct terminal as [t|]; [|destruct cleanup as [n|]].
  - eapply (triple_pre _ _ _ _ (fun fs => t = fin ∧ ∃ i, keeping i fs ∧ (c → entries fs i !! JOURNAL_NAME = None → entries fs i = ∅))).
    2: { intros fs [[H Ht] _]. destruct (Ht (HP fs H)) as [-> [i Hi]]. split; [done|]. exists i. split; [split; [by apply HP|done]|]. intros HC. destruct H as [(_ & H & _) _]. by apply (H HC). }
    apply triple_fact. intros ->. apply triple_exists. intros i. eapply triple_bind; [by apply resume_ok|intros []]. by apply triple_done.
  - eapply (triple_pre _ _ _ _ (fun fs => n = cl ∧ ∃ i, finishable fs ∧ undo_at i fs)).
    2: { intros fs [[H _] Hn]. destruct (Hn (HP fs H)) as [-> [i Hi]]. split; [done|]. exists i. split; [apply H|]. split; [by apply HP|done]. }
    apply triple_fact. intros ->. apply triple_exists. intros i. apply finalize_undo.
  - apply triple_done. intros fs [[H Ht] Hn]. specialize (Hn (HP fs H)). destruct H as [(Hs & _ & Hk) _]. split; [done|]. intros Hkept. destruct (Hk Hkept) as [x Hx]. congruence.
Qed.

End Finalize.

End Finish.
