(* ===== verification/MigrationHistory.v ===== *)
(** * Histories of a migration

    The commands [migrate], [recover], [rollback] and [finalize], run in any
    order, each stopped anywhere, with power cuts between and inside them.  Each
    run of a migration reads the members anew. *)

From S2P Require Import Prelude RustStr Ast Membership DiskTree MigrationJournal MigrationTxn DiskLogic MigrationReads MigrationPlan MigrationState MigrationSteps MigrationFacts.
From S2P Require Import MigrationRemoval MigrationWrite MigrationRecovery MigrationTrust MigrationDraft MigrationPublish MigrationCommit MigrationEnd.

(** ** Members that are read again *)

(** The same file of the configuration, maybe another inode. *)
Definition same_member (m m' : MigrationMember) : Prop :=
  mm_path m' = mm_path m ∧ mm_role m' = mm_role m ∧ mm_before m' = mm_before m ∧ mm_after m' = mm_after m ∧ fl_attr (mm_metadata m') = fl_attr (mm_metadata m).

Lemma same_member_refl (m : MigrationMember) : same_member m m.
Proof. done. Qed.

Lemma same_member_sym (m m' : MigrationMember) : same_member m m' → same_member m' m.
Proof. unfold same_member. naive_solver. Qed.

Definition recapture (ms' : list MigrationMember) (tx : Migration) : Migration :=
  {| tx_guard := tx_guard; tx_members := ms'; tx_owner := tx_owner; tx_journal := tx_journal; tx_bytes := tx_bytes |}.

Section Recapture.

Context {sha : Sha2Crate} {json : JsonCrate} (tx : Migration) {tr : Owners} (ms' : list MigrationMember).
Context (R : Forall2 same_member (tx_members (Migration := tx)) ms').

#[local] Abbreviation tx' := (recapture ms' tx).

Lemma recapture_blobs_full (fs : Fs) (W : gmap str nat) : blobs_full (tx := tx) fs W → blobs_full (tx := tx') fs W.
Proof.
  intros (blobs & -> & H). exists blobs. split; [done|]. apply Forall2_same_length_lookup in H as [Hl H]. pose proof (Forall2_length _ _ _ R) as Hl'.
  apply Forall2_same_length_lookup. split; [cbn; congruence|]. intros k m' i Hm' Hi. destruct (Forall2_lookup_r _ _ _ _ _ R Hm') as (m & Hm & _ & _ & Hb & _).
  rewrite Hb. by apply (H k m i).
Qed.

Lemma recapture_blobs_part (fs : Fs) (W : gmap str nat) : blobs_part (tx := tx) fs W → blobs_part (tx := tx') fs W.
Proof. intros (blobs & -> & Hl & H). exists blobs. split; [done|]. split; [|done]. cbn. by rewrite <- (Forall2_length _ _ _ R). Qed.

Lemma recapture_full_view (fs : Fs) (i : nat) (V : gmap str nat) : full_view (tx := tx) fs i V → full_view (tx := tx') fs i V.
Proof. intros (j & o & -> & Hj & Hb). exists j, o. split; [done|]. split; [done|]. eapply (below_impl (tx := tx)); [exact Hb|]. apply recapture_blobs_full. Qed.

Lemma recapture_setup_view (fs : Fs) (i : nat) (V : gmap str nat) : setup_view (tx := tx) fs i V → setup_view (tx := tx') fs i V.
Proof.
  intros (st & ro & -> & Hs & Hb). exists st, ro. split; [done|]. split; [done|]. intros o Ho. eapply (below_impl (tx := tx)); [by apply Hb|]. apply recapture_blobs_part.
Qed.

Lemma recapture_part_view (fs : Fs) (i : nat) (V : gmap str nat) : part_view (tx := tx) fs i V → part_view (tx := tx') fs i V.
Proof.
  intros [->|(j & ro & -> & Hj & Hb)]; [by left|right]. exists j, ro. split; [done|]. split; [done|]. intros o Ho. eapply (below_impl (tx := tx)); [by apply Hb|]. apply recapture_blobs_part.
Qed.

Lemma recapture_full (fs : Fs) (i : nat) : full (tx := tx) fs i → full (tx := tx') fs i.
Proof. intros [Hr H]. split; [done|]. eapply (dir_all_impl (tx := tx)); [exact H|]. apply recapture_full_view. Qed.

Lemma recapture_loose (fs : Fs) (i : nat) : loose (tx := tx) fs i → loose (tx := tx') fs i.
Proof.
  intros [Hr H]. split; [done|]. eapply (dir_all_impl (tx := tx)); [exact H|]. intros V [HV|HV]; [left; by apply recapture_setup_view|right; by apply recapture_part_view].
Qed.

Lemma recapture_setup (fs : Fs) (i : nat) : setup (tx := tx) fs i → setup (tx := tx') fs i.
Proof.
  intros [Hr (a & d & Hi & Ho & H)]. split; [done|]. exists a, d. split; [done|]. split; [done|]. destruct H as [H|[H Hn]]; [left|right; split].
  - intros V HV. by apply recapture_setup_view, H.
  - intros V HV. destruct (H V HV); [left; by apply recapture_setup_view|right; by apply recapture_full_view].
  - by apply recapture_full_view.
Qed.

Lemma same_image (fs : Fs) (m m' : MigrationMember) (b : str) (i : nat) : same_member m m' → image fs m b i → image fs m' b i.
Proof. intros (_ & _ & _ & _ & Ha). unfold image. by rewrite Ha. Qed.

Lemma same_slot (fs : Fs) (m m' : MigrationMember) (k : str → Prop) : same_member m m' → slot_all fs m k → slot_all fs m' k.
Proof.
  intros Hm (s & Hs & Hv). exists s. destruct Hm as (Hp & Hm). rewrite Hp. split; [done|]. intros v Hin. destruct (Hv v Hin) as (i & b & -> & Hi & Hk).
  exists i, b. split; [done|]. split; [by eapply same_image|done].
Qed.

Lemma recapture_live (fs : Fs) (k : MigrationMember → str → Prop) : (∀ m m' b, same_member m m' → k m b → k m' b) → live (tx := tx) fs k → live (tx := tx') fs k.
Proof.
  intros Hk H m' [n Hm']%list_elem_of_lookup. destruct (Forall2_lookup_r _ _ _ _ _ R Hm') as (m & Hm & Hs). apply list_elem_of_lookup_2 in Hm.
  eapply slot_impl; [by eapply same_slot, H|]. intros b. by apply Hk.
Qed.

Lemma same_old (m m' : MigrationMember) (b : str) : same_member m m' → is_old m b → is_old m' b.
Proof. unfold is_old. by intros (_ & _ & -> & _). Qed.

Lemma same_new (m m' : MigrationMember) (b : str) : same_member m m' → is_new m b → is_new m' b.
Proof. unfold is_new. by intros (_ & _ & _ & -> & _). Qed.

Lemma same_either (m m' : MigrationMember) (b : str) : same_member m m' → is_either m b → is_either m' b.
Proof. intros H [Hb|Hb]; [left; by eapply same_old|right; by eapply same_new]. Qed.

Lemma recapture_safe (fs : Fs) : Safe (tx := tx) fs → Safe (tx := tx') fs.
Proof.
  intros [Hf H]. split; [done|]. destruct H as [(Hl & Hr & Hn)|[(Hl & i & Hi & Hr)|(Hl & Hr)]]; [left|right; left|right; right].
  - split; [eapply recapture_live; [apply same_old|done]|]. split; [|done]. eapply root_all_impl; [exact Hr|].
    intros V [->|[(i & -> & Hi)|(i & -> & Hi)]]; [by left|right; left|right; right]; exists i; (split; [done|]); [by apply recapture_setup|by apply recapture_loose].
  - split; [eapply recapture_live; [apply same_either|done]|]. exists i. split; [by apply recapture_full|done].
  - split; [eapply recapture_live; [apply same_new|done]|]. eapply root_all_impl; [exact Hr|].
    intros V [->|[(i & -> & Hi)|[(i & -> & Hi)|(i & -> & Hi)]]]; [by left|right; left|do 2 right; left|do 3 right]; exists i; (split; [done|]);
      [by apply recapture_full..|by apply recapture_loose].
Qed.

Lemma recapture_restorable (fs : Fs) : restorable (tx := tx) fs → restorable (tx := tx') fs.
Proof.
  intros H m' s i [n Hm']%list_elem_of_lookup Hs Hi Him. destruct (Forall2_lookup_r _ _ _ _ _ R Hm') as (m & Hm & Hsm). apply list_elem_of_lookup_2 in Hm.
  pose proof Hsm as (Hp & _ & Hb & _). rewrite Hp in Hs. rewrite Hb in Him. eapply slot_impl; [eapply same_slot; [done|eapply H; [done..|]]|].
  - by eapply same_image; [apply same_member_sym|].
  - intros b. by apply same_old.
Qed.

Lemma recapture_in_order (prev : option str) (paths : gset str) (master : str) (l l' : list MigrationMember) : Forall2 same_member l l' →
  members_in_order prev paths master l' = members_in_order prev paths master l.
Proof.
  intros H. revert prev paths. induction H as [|m m' l l' (Hp & Hr & _) Hl IH]; intros prev paths; [done|]. cbn [members_in_order]. rewrite Hp, Hr, IH.
  destruct Hl; done.
Qed.

Lemma same_receipts (m m' : MigrationMember) : same_member m m' → before_receipt m' = before_receipt m ∧ after_receipt m' = after_receipt m.
Proof. intros (_ & _ & Hb & Ha & Hat). unfold before_receipt, after_receipt. by rewrite Hb, Ha, Hat. Qed.

Lemma recapture_planned : planned (tx_guard (Migration := tx)) tx_members tx_owner tx_journal tx_bytes → planned (tx_guard (Migration := tx')) ms' tx_owner tx_journal tx_bytes.
Proof.
  intros [Ho (es & He & HJ) Hb (m & Hlast & How) Hd Hap Hch]. split; [| |done| |done| |].
  - unfold validate_migration_members in *. rewrite (recapture_in_order _ _ _ _ _ R). by rewrite <- (Forall2_length _ _ _ R).
  - exists es. split; [|done]. rewrite <- He. unfold journal_members. clear -R. induction R as [|m m' l l' Hm Hl IH]; [done|]. cbn. destruct (same_receipts m m' Hm) as [-> ->].
    pose proof Hm as (-> & -> & _). by rewrite IH.
  - rewrite last_lookup in Hlast. destruct (Forall2_lookup_l _ _ _ _ _ R Hlast) as (m' & Hm' & Hs). exists m'. rewrite last_lookup, <- (Forall2_length _ _ _ R). split; [done|].
    destruct Hs as (_ & _ & _ & _ & Ha). cbn. congruence.
  - intros m' [k Hm']%list_elem_of_lookup. destruct (Forall2_lookup_r _ _ _ _ _ R Hm') as (m1 & Hm1 & _ & _ & -> & -> & _). apply Hap. by eapply list_elem_of_lookup_2.
  - destruct Hch as (m1 & [k Hm1]%list_elem_of_lookup & Hne). destruct (Forall2_lookup_l _ _ _ _ _ R Hm1) as (m' & Hm' & _ & _ & Hb' & Ha' & _).
    exists m'. split; [by eapply list_elem_of_lookup_2|]. by rewrite Hb', Ha'.
Qed.

End Recapture.

(** ** Rollback and finalization of a tree *)

Section Runs.

Context {sha : Sha2Crate} {json : JsonCrate} {tx : Migration} {tr : Owners}.

#[local] Abbreviation g := tx_guard.

Context (plan : planned g tx_members tx_owner tx_journal tx_bytes) (c : Prop) (Hc : c → calm).

Lemma clean_sound (k : MigrationMember → str → Prop) (fs : Fs) : k = is_old ∨ k = is_new → clean k fs → sound fs.
Proof. intros Hk H. split; [by eapply clean_safe|]. destruct Hk as [-> | ->]; [apply old_restorable, H|apply new_restorable, H]. Qed.

Lemma refuse_access_ok (P : Fs → Prop) : (∀ fs, P fs → Safe fs) → (∀ fs, P fs → c → entries fs ROOT !! TXN_DIR_NAME = None) →
  triple c Safe P (refuse_normal_access g) Safe (fun _ fs => P fs ∧ entries fs ROOT !! TXN_DIR_NAME = None).
Proof.
  intros HP Hn. unfold refuse_normal_access. apply triple_inspect; [done|done|done| |].
  - intros s Hs. destruct s; try done; apply triple_fail; naive_solver.
  - by apply triple_done.
Qed.

Lemma rollback_tree_ok (undoable : Prop) : triple c Safe (revertible c undoable) (rollback_tree g) Safe (reverted undoable).
Proof.
  unfold rollback_tree. eapply triple_bind; [by apply (rollback_ok plan c Hc)|]. intros r. destruct r; [| |by apply triple_done];
    (eapply triple_bind; [apply triple_sys|intros []; by apply triple_done]).
  - by intros fs [[H _] _].
  - by intros fs [[H _] _].
  - intros fs [_ H]. eapply clean_safe, H. by left.
  - intros fs [_ H]. eapply clean_safe, H. by left.
Qed.

Lemma finalize_tree_ok (kept : Prop) : triple c Safe (finishable c kept) (finalize_tree g) Safe (finished kept).
Proof.
  assert (∀ fs, finishable c kept fs → Safe fs) as HE by (intros fs [[H _] _]; done). unfold finalize_tree.
  eapply triple_bind; [apply (refuse_access_ok (finishable c kept)); [done|by intros fs (_ & H & _) HC; apply H]|intros []].
  eapply triple_bind; [apply triple_sys; naive_solver|intros []]. eapply triple_pre; [by apply (finalize_ok plan c Hc)|]. by intros fs [H _].
Qed.

End Runs.

Section History.

Context {sha : Sha2Crate} {json : JsonCrate} {tx : Migration}.

#[local] Abbreviation g := tx_guard.
#[local] Abbreviation ms := tx_members.
#[local] Abbreviation ow := tx_owner.
#[local] Abbreviation J := tx_journal.
#[local] Abbreviation jbytes := tx_bytes.
#[local] Abbreviation cl := (cl_of tx_bytes).
#[local] Abbreviation fin := (fin_of tx_bytes).

(** ** Commands *)

Inductive Command := Migrate (declared_schema : str → Z) (members : list MigrationMember) | Recover | Rollback | Finalize.

Definition exec (cmd : Command) : M unit :=
  match cmd with
  | Migrate declared_schema members => migrate_tree g declared_schema members ;; mret tt
  | Recover => recover_fixed g ;; mret tt
  | Rollback => rollback_tree g ;; mret tt
  | Finalize => finalize_tree g ;; mret tt
  end.

Definition about (cmd : Command) : Prop := match cmd with Migrate _ members => Forall2 same_member ms members | _ => True end.

(** Commands with any fates, and power cuts.  A command starts only where no
    member that is old again may still fall back to its new image: that is so
    after a power cut, and after a command that was not stopped between the
    rename of an original and the sync of its directory. *)
Inductive reached (fs0 : Fs) : Fs → Prop :=
| reached_start : reached fs0 fs0
| reached_exec fs cmd io : reached fs0 fs → restorable fs → about cmd → reached fs0 (exec cmd fs io).1.1
| reached_cut fs fs' : reached fs0 fs → power_cut fs fs' → reached fs0 fs'.

Context (plan : planned g ms ow J jbytes).

(** A command of the owner makes nothing that is not the owner's; of what others
    leave behind, no owner is sure. *)
#[local] Instance run_owners : Owners := fun _ => by_owner.

Lemma migrate_any (declared_schema : str → Z) (members : list MigrationMember) : Forall2 same_member ms members →
  triple False Safe sound (migrate_tree g declared_schema members) Safe (fun _ => sound).
Proof.
  intros R. pose proof (recapture_planned _ _ R plan) as plan'. assert (Forall2 same_member members ms) as R' by (apply Forall2_flip; eapply Forall2_impl; [exact R|]; apply same_member_sym).
  assert (∀ fs, Safe (tx := recapture members tx) fs → Safe (tx := tx) fs) as Hback by (apply (recapture_safe (recapture members tx) ms R')).
  assert (∀ fs, held (tx := recapture members tx) (tr := run_owners) fs → Safe fs) as Hheld.
  { intros fs H. apply Hback. revert fs H. apply (trust_less (tx := recapture members tx) (known (tx := recapture members tx) run_owners) run_owners plan'). intros i H. by split. }
  eapply (triple_conseq _ _ _ _ (startable (tx := recapture members tx) False)).
  - eapply triple_weaken; [apply (migrate_tree_ok (tx := recapture members tx) (tr := run_owners) plan' False ltac:(done) ltac:(done) False ltac:(done) declared_schema); done|done|exact Hheld|exact Hheld].
  - intros fs [Hs Hr]. split; [|done]. split; [by apply (recapture_safe tx)|by apply (recapture_restorable tx)].
  - intros r fs H. assert (sound (tx := recapture members tx) fs) as [Hs Hr] by (destruct r; [apply H|apply committed_sound, H]).
    split; [by apply Hback|by apply (recapture_restorable (recapture members tx) ms R')].
Qed.

Lemma exec_ok (cmd : Command) : about cmd → triple False Safe sound (exec cmd) Safe (fun _ => sound).
Proof.
  assert (∀ A (m : M A), triple False Safe sound m Safe (fun _ => sound) → triple False Safe sound (m ;; mret tt) Safe (fun _ => sound)) as Hret.
  { intros A m H. eapply triple_bind; [exact H|]. intros a. by apply triple_done. }
  intros Ha. destruct cmd as [ds members| | |]; apply Hret.
  - by apply migrate_any.
  - eapply triple_conseq; [apply (recover_fixed_ok plan False ltac:(done) False False (fun _ => True))| |].
    + intros fs [Hs Hr]. do 5 (split; [done|]). done.
    + intros [| |] fs H; [by destruct H as [(Hs & Hr & _) _]|..]; (eapply clean_sound; [by left|apply H]).
  - eapply triple_conseq; [apply (rollback_tree_ok plan False ltac:(done) False)|by intros fs H|].
    intros [| |] fs H; [apply H|..]; (eapply clean_sound; [by left|apply H]).
  - eapply triple_conseq; [apply (finalize_tree_ok plan False ltac:(done) False)|by intros fs H|].
    intros [|] fs H; [apply H|]. eapply clean_sound; [by right|apply H].
Qed.

Lemma exec_safe (cmd : Command) (fs : Fs) (io : list Fate) : about cmd → sound fs → Safe (exec cmd fs io).1.1.
Proof. intros Ha Hs. pose proof (exec_ok cmd Ha fs io Hs) as H. destruct (exec cmd fs io) as [[fs' io'] [a|e|]]; cbn; apply H. Qed.

(** Every state of a history is safe. *)
Lemma reached_safe (fs0 fs : Fs) : clean is_old fs0 → reached fs0 fs → Safe fs.
Proof.
  intros H0 H. induction H as [|fs cmd io Hr IH Hres Ha|fs fs' Hr IH Hcut]; [eapply clean_safe, H0; by left|by apply exec_safe|by eapply cut_safe].
Qed.

(** A power cut leaves nothing to fall back to. *)
Lemma cut_restorable (fs fs' : Fs) : power_cut fs fs' → Safe fs → restorable fs'.
Proof.
  intros Hcut Hs m s i Hm Hsl Hi Him. exists s. split; [done|]. destruct Hcut as (_ & _ & Hl). specialize (Hl (mm_path m)). rewrite Hsl in Hl.
  inversion Hl as [s0 s' [Hmay _] E1 E2|]; subst. rewrite Hmay. intros v ->%list_elem_of_singleton. by exists i, (mm_before m).
Qed.

(** A command that returns leaves nothing to fall back to either. *)
Lemma exec_settled (cmd : Command) (fs fs' : Fs) (io io' : list Fate) : about cmd → sound fs → exec cmd fs io = (fs', io', Done tt) → restorable fs'.
Proof. intros Ha Hs He. pose proof (exec_ok cmd Ha fs io Hs) as H. rewrite He in H. apply H. Qed.

End History.
