(* ===== verification/MigrationExample.v ===== *)
(** * A tree of two files that is migrated

    A reader and a writer of journals that are inverse, a digest of 32 bytes, and
    a configuration of a master and one include: the parameters of the migration
    with a value, on which its commands run. *)

From S2P Require Import Prelude RustStr Ast LocalRecords Membership MembershipProofs DiskTree MigrationJournal MigrationTxn DiskLogic MigrationReads MigrationPlan MigrationState MigrationSteps.
From S2P Require Import MigrationFacts MigrationRemoval MigrationWrite MigrationRecovery MigrationTrust MigrationDraft MigrationPublish MigrationCommit MigrationEnd MigrationHistory.

(** The first 32 bytes. *)
#[export] Instance head_sha : Sha2Crate := {| sha256 := fun s => take 32 (s ++ replicate 32 Ascii.zero) |}.

Lemma head_sha_length (s : str) : length (sha256 s) = 32.
Proof. change (length (take 32 (s ++ replicate 32 Ascii.zero)) = 32). rewrite length_take, length_app, length_replicate. lia. Qed.

(** ** Journals as lists of numbers *)

Fixpoint bits (p : positive) : str :=
  match p with
  | xH => []
  | xO p => "0"%char :: bits p
  | xI p => "1"%char :: bits p
  end.

Definition of_bits : str → positive := foldr (fun c p => if Ascii.eqb c "0" then xO p else xI p) xH.

Lemma of_bits_bits (p : positive) : of_bits (bits p) = p.
Proof. induction p as [p IH|p IH|]; cbn; [by rewrite IH..|done]. Qed.

Definition role_number (r : MemberRole) : positive := match r with Include => 1 | Master => 2 end.

Definition role_of_number (p : positive) : MemberRole := if (p =? 1)%positive then Include else Master.

Definition receipt_numbers (r : FileReceipt) : list positive := [encode (fr_len r); encode (fr_sha256 r); encode (fr_uid r); encode (fr_gid r); encode (fr_mode r)].

Definition member_numbers (m : JournalMember) : list positive :=
  [encode (jm_path m); role_number (jm_role m); encode (jm_original_blob m)] ++ receipt_numbers (jm_before m) ++ receipt_numbers (jm_after m).

Definition journal_numbers (j : Journal) : list positive :=
  [encode (jn_format_version j); encode (jn_migration j); encode (jn_from_schema j); encode (jn_to_schema j); encode (jn_master j)] ++ flat_map member_numbers (jn_members j).

Definition read_receipt (l : list positive) : option (FileReceipt * list positive) :=
  match l with
  | a :: b :: c :: d :: e :: l =>
    len ← decode a; hash ← decode b; uid ← decode c; gid ← decode d; mode ← decode e;
    Some ({| fr_len := len; fr_sha256 := hash; fr_uid := uid; fr_gid := gid; fr_mode := mode |}, l)
  | _ => None
  end.

Definition read_member (l : list positive) : option (JournalMember * list positive) :=
  match l with
  | a :: b :: c :: l =>
    path ← decode a; blob ← decode c; '(before, l) ← read_receipt l; '(after, l) ← read_receipt l;
    Some ({| jm_path := path; jm_role := role_of_number b; jm_original_blob := blob; jm_before := before; jm_after := after |}, l)
  | _ => None
  end.

Fixpoint read_members (fuel : nat) (l : list positive) : option (list JournalMember) :=
  match fuel, l with
  | _, [] => Some []
  | O, _ => None
  | S fuel, _ => '(m, l) ← read_member l; ms ← read_members fuel l; Some (m :: ms)
  end.

Definition read_journal (l : list positive) : option Journal :=
  match l with
  | a :: b :: c :: d :: e :: l =>
    version ← decode a; migration ← decode b; from ← decode c; to ← decode d; master ← decode e; members ← read_members (length l) l;
    Some {| jn_format_version := version; jn_migration := migration; jn_from_schema := from; jn_to_schema := to; jn_master := master; jn_members := members |}
  | _ => None
  end.

Lemma read_receipt_numbers (r : FileReceipt) (l : list positive) : read_receipt (receipt_numbers r ++ l) = Some (r, l).
Proof. destruct r. cbn -[encode decode]. by rewrite !decode_encode. Qed.

Lemma read_member_numbers (m : JournalMember) (l : list positive) : read_member (member_numbers m ++ l) = Some (m, l).
Proof.
  destruct m as [path role blob before after]. unfold member_numbers. cbn -[encode decode read_receipt receipt_numbers app].
  rewrite <- !app_assoc. change (([encode path; role_number role; encode blob] ++ receipt_numbers before ++ receipt_numbers after ++ l)) with (encode path :: role_number role :: encode blob :: (receipt_numbers before ++ receipt_numbers after ++ l)).
  unfold read_member. rewrite !decode_encode. cbn -[read_receipt receipt_numbers app]. rewrite !read_receipt_numbers. cbn -[read_receipt receipt_numbers app]. rewrite read_receipt_numbers. by destruct role.
Qed.

Lemma read_members_numbers (fuel : nat) (ms : list JournalMember) : length ms ≤ fuel → read_members fuel (flat_map member_numbers ms) = Some ms.
Proof.
  revert fuel. induction ms as [|m ms IH]; intros fuel Hf; [by destruct fuel|]. destruct fuel as [|fuel]; [cbn in Hf; lia|].
  assert (read_members (S fuel) (flat_map member_numbers (m :: ms)) = ('(m, l) ← read_member (member_numbers m ++ flat_map member_numbers ms); ms ← read_members fuel l; Some (m :: ms))) as -> by done.
  rewrite read_member_numbers. cbn. rewrite IH; [done|]. cbn in Hf. lia.
Qed.

Lemma read_journal_numbers (j : Journal) : read_journal (journal_numbers j) = Some j.
Proof.
  destruct j as [v mi fr to ma ms]. unfold journal_numbers. cbn -[encode decode read_members flat_map]. rewrite !decode_encode. cbn -[read_members flat_map].
  rewrite read_members_numbers; [done|]. clear. induction ms as [|m ms IH]; [done|]. cbn. lia.
Qed.

Definition number_writer (j : Journal) : str := bits (encode (journal_numbers j)).

Definition number_reader (s : str) : option Journal := decode (of_bits s) ≫= read_journal.

Definition number_peek (s : str) : option Z := l ← decode (of_bits s); n ← head (l : list positive); decode n.

Lemma number_round_trip (j : Journal) : number_reader (number_writer j) = Some j.
Proof. unfold number_reader, number_writer. rewrite of_bits_bits, decode_encode. apply read_journal_numbers. Qed.

Lemma number_peek_journal (j : Journal) : number_peek (number_writer j) = Some (jn_format_version j).
Proof. unfold number_peek, number_writer. rewrite of_bits_bits, decode_encode. apply decode_encode. Qed.

#[export] Instance number_json : JsonCrate :=
  {| journal_to_json := number_writer; journal_of_json := number_reader; peek_format_version := number_peek; peek_manifest_kind := fun _ => None;
     journal_round_trip := number_round_trip; peek_of_journal := number_peek_journal |}.

(** ** The tree *)

Definition small_attr : Attr := {| at_uid := 1000; at_gid := 1000; at_mode := 416 |}.

Definition small_file (text : str) : FileNode := {| fl_bytes := text; fl_attr := small_attr; fl_nlink := 1; fl_synced := true |}.

Definition small_member (path : str) (role : MemberRole) (before after : str) (inode : nat) : MigrationMember :=
  {| mm_path := path; mm_role := role; mm_before := before; mm_after := after; mm_inode := inode; mm_metadata := small_file before |}.

Definition small_include : MigrationMember := small_member (lit "lists/ads.toml") Include (lit "lists of 3") (lit "lists of 4") 1.
Definition small_master : MigrationMember := small_member (lit "warden.toml") Master (lit "schema = 3") (lit "schema = 4") 2.
Definition small_members : list MigrationMember := [small_include; small_master].

Definition small_guard : Guard := {| g_euid := 1000; g_egid := 1000; g_master := lit "warden.toml" |}.

Definition small_schema (text : str) : Z := if bool_decide (text = lit "schema = 4") then 4 else 3.

Definition small_tree : Fs :=
  {| fs_nodes := {[0 := NDir small_attr {| dir_disk := ∅; dir_pending := [] |}; 1 := NFile (small_file (lit "lists of 3")); 2 := NFile (small_file (lit "schema = 3"))]};
     fs_live := {[lit "lists/ads.toml" := {| sl_now := Some 1; sl_may := [] |}; lit "warden.toml" := {| sl_now := Some 2; sl_may := [] |}]};
     fs_next := 3 |}.

Definition small_journal : Journal :=
  {| jn_format_version := 1; jn_migration := lit "v3-to-v4"; jn_from_schema := 3; jn_to_schema := 4; jn_master := lit "warden.toml"; jn_members := imap entry_of small_members |}.

#[export] Instance small : Migration :=
  {| tx_guard := small_guard; tx_members := small_members; tx_owner := small_attr; tx_journal := small_journal; tx_bytes := number_writer small_journal |}.

Lemma small_planned : planned tx_guard tx_members tx_owner tx_journal tx_bytes.
Proof.
  split.
  - vm_compute. reflexivity.
  - exists (map (fun m => {| jm_path := mm_path m; jm_role := mm_role m; jm_original_blob := []; jm_before := before_receipt m; jm_after := after_receipt m |}) small_members).
    split; vm_compute; reflexivity.
  - vm_compute. reflexivity.
  - by exists small_master.
  - apply head_sha_length.
  - intros m Hm. unfold tx_members, small, small_members in Hm. rewrite !elem_of_cons in Hm. destruct Hm as [->|[->|Hm]]; [vm_compute; discriminate..|by apply elem_of_nil in Hm].
  - exists small_master. split; [right; by left|]. vm_compute. discriminate.
Qed.

Lemma small_by_owner : by_owner.
Proof. done. Qed.

(** The same tree, with root at work. *)
Definition root_guard : Guard := {| g_euid := 0; g_egid := 0; g_master := lit "warden.toml" |}.

Definition small_root : Migration :=
  {| tx_guard := root_guard; tx_members := small_members; tx_owner := small_attr; tx_journal := small_journal; tx_bytes := number_writer small_journal |}.

Lemma root_planned : planned root_guard small_members small_attr small_journal (number_writer small_journal).
Proof. destruct small_planned as [H1 H2 H3 H4 H5 H6 H7]. split; assumption. Qed.

Lemma root_entitled : entitled (tx := small_root).
Proof. right. reflexivity. Qed.

Lemma small_captured : captured small_tree.
Proof.
  intros m Hm. unfold tx_members, small, small_members in Hm. rewrite !elem_of_cons in Hm. destruct Hm as [->|[->|Hm]]; [by repeat split..|by apply elem_of_nil in Hm].
Qed.

Lemma small_clean : clean is_old small_tree.
Proof.
  split; [|split].
  - intros i n Hi. cbn in *. rewrite !lookup_insert_Some, lookup_singleton_Some in Hi. lia.
  - intros m Hm. unfold tx_members, small, small_members in Hm. rewrite !elem_of_cons in Hm. destruct Hm as [->|[->|Hm]]; [| |by apply elem_of_nil in Hm].
    + eexists. split; [done|]. intros v ->%list_elem_of_singleton. exists 1, (lit "lists of 3"). split; [done|]. split; [|done]. by eexists.
    + eexists. split; [done|]. intros v ->%list_elem_of_singleton. exists 2, (lit "schema = 3"). split; [done|]. split; [|done]. by eexists.
  - eexists _, _. split; [done|]. by intros V ->%dviews_synced.
Qed.

(** ** Power cuts that can be run *)

(** A directory keeps the first [kept] of its changes; a member falls back to
    [pick] of its slot. *)
Definition settle_node (kept : nat) (n : Node) : Node :=
  match n with
  | NDir a d => NDir a {| dir_disk := apply_all (dir_disk d) (take kept (dir_pending d)); dir_pending := [] |}
  | n => n
  end.

Definition settle (kept : nat → nat) (pick : Slot → option nat) (fs : Fs) : Fs :=
  {| fs_nodes := map_imap (fun i n => Some (settle_node (kept i) n)) (fs_nodes fs);
     fs_live := (fun s => {| sl_now := pick s; sl_may := [] |}) <$> fs_live fs; fs_next := fs_next fs |}.

Lemma settle_cut (kept : nat → nat) (pick : Slot → option nat) (fs : Fs) : (∀ s, pick s ∈ sl_now s :: sl_may s) → power_cut fs (settle kept pick fs).
Proof.
  intros Hp. split; [done|]. split.
  - intros i. cbn. rewrite map_lookup_imap. destruct (fs_nodes fs !! i) as [[f|a d|]|]; cbn; constructor; constructor; [by left|by exists (kept i)].
  - intros p. cbn. rewrite lookup_fmap. destruct (fs_live fs !! p) as [s|]; constructor. split; [done|apply Hp].
Qed.

(** The oldest file that may come back. *)
Definition oldest (s : Slot) : option nat := default (sl_now s) (last (sl_may s)).

Lemma oldest_possible (s : Slot) : oldest s ∈ sl_now s :: sl_may s.
Proof. unfold oldest. destruct (last (sl_may s)) as [v|] eqn:E; [right; by apply last_Some_elem_of in E|by left]. Qed.

Definition killed_at (n : nat) : list Fate := replicate n Works ++ [Cut].

Definition member_text (fs : Fs) (path : str) : option str :=
  i ← fs_live fs !! path ≫= sl_now; n ← fs_nodes fs !! i; match n with NFile f => Some (fl_bytes f) | _ => None end.

(** A migration that is killed once both files are new; the power goes; recovery. *)
Definition interrupted : Fs := (exec (Migrate small_schema small_members) small_tree (killed_at 160)).1.1.

Definition cut_tree : Fs := settle (fun _ => 0) oldest interrupted.

Definition recovered_tree : Fs := (exec Recover cut_tree []).1.1.

Lemma small_about : about (Migrate small_schema small_members).
Proof. repeat constructor. Qed.

Lemma interrupted_reached : reached small_tree interrupted.
Proof. apply reached_exec; [constructor|apply old_restorable, small_clean|apply small_about]. Qed.

Lemma interrupted_cut : power_cut interrupted cut_tree.
Proof. apply settle_cut, oldest_possible. Qed.

Lemma recovered_reached : reached small_tree recovered_tree.
Proof.
  apply reached_exec; [eapply reached_cut; [apply interrupted_reached|apply interrupted_cut]| |done]. eapply cut_restorable; [apply interrupted_cut|].
  eapply reached_safe; [apply small_planned|apply small_clean|apply interrupted_reached].
Qed.

Lemma cut_tree_not_stuck : ¬ stuck cut_tree.
Proof. intros (i & Hi & _). vm_compute in Hi. discriminate. Qed.

(** What the last of several interrupted recoveries leaves. *)
Definition half_restored : Fs := (recover_fixed small_guard interrupted (killed_at 65)).1.1.

Definition restored_twice : Fs := (recover_fixed small_guard half_restored []).1.1.

Definition mixed_tree : Fs := settle (fun _ => 0) oldest restored_twice.

(** A migration that is killed when its journal has its name; a recovery that is
    killed when the fence has its; a power cut in which the fence loses its last
    change. *)
Definition unsynced_fence : Fs := (migrate_tree small_guard small_schema small_members small_tree (killed_at 63)).1.1.

Definition renamed_fence : Fs := (recover_fixed small_guard unsynced_fence (killed_at 54)).1.1.

Definition stuck_tree : Fs := settle (fun _ => 1) oldest renamed_fence.

(** A migration that root runs and that is killed when the fence is made and not
    yet given to the owner of the tree. *)
Definition unowned_fence : Fs := (migrate_tree root_guard small_schema small_members small_tree (killed_at 19)).1.1.
