(* ===== verification/MigrationProofs.v ===== *)
(** * What a migration promises

    The properties of the transaction of [src/config/migration_journal.rs] under
    failing calls, kills and power cuts, and a small tree on which they are run. *)

From S2P Require Import Prelude RustStr Ast LocalRecords Membership MembershipProofs DiskTree MigrationJournal MigrationTxn DiskLogic MigrationReads MigrationPlan MigrationState MigrationSteps.
From S2P Require Import MigrationFacts MigrationRemoval MigrationWrite MigrationRecovery MigrationTrust MigrationDraft MigrationPublish MigrationCommit MigrationEnd MigrationHistory MigrationExample.

Section Promises.

Context {sha : Sha2Crate} {json : JsonCrate} {tx : Migration}.

#[local] Abbreviation g := tx_guard.
#[local] Abbreviation ms := tx_members.
#[local] Abbreviation ow := tx_owner.
#[local] Abbreviation J := tx_journal.
#[local] Abbreviation jbytes := tx_bytes.
#[local] Abbreviation cl := (cl_of tx_bytes).
#[local] Abbreviation fin := (fin_of tx_bytes).

Context (plan : planned g ms ow J jbytes).

(** Without a fence the configuration is on one side. *)
Lemma open_sides {tr : Owners} (fs : Fs) : Safe fs → entries fs ROOT !! TXN_DIR_NAME = None → live fs is_old ∨ live fs is_new.
Proof.
  intros [_ [(H & _)|[(_ & i & _ & Hr)|[H _]]]] Hn; [by left| |by right]. by rewrite (root_now _ _ Hr), lookup_singleton_eq in Hn.
Qed.

Lemma access_open (fs : Fs) : entries fs ROOT !! TXN_DIR_NAME = None → refuse_normal_access g fs [] = (fs, [], Done tt).
Proof. intros H. unfold refuse_normal_access, mbind, M_bind. by rewrite inspect_absent. Qed.

Lemma access_shut (fs fs' : Fs) (io io' : list Fate) : refuse_normal_access g fs io = (fs', io', Done tt) → entries fs ROOT !! TXN_DIR_NAME = None.
Proof.
  pose proof (reads_inspect g fs io) as H. unfold refuse_normal_access, mbind, M_bind. destruct (inspect g fs io) as [[fs1 io1] [s|e|]]; [|done..].
  destruct H as (_ & _ & H). destruct s; try done. by rewrite H.
Qed.

Lemma clean_open (k : MigrationMember → str → Prop) (fs : Fs) : clean k fs → entries fs ROOT = ∅.
Proof. intros (_ & _ & Hr). by apply root_now in Hr. Qed.

Lemma candidate_none (fs : Fs) (prefix : str) : entries fs ROOT = ∅ → artifact_candidate prefix fs [] = (fs, [], Done None).
Proof.
  intros H. unfold artifact_candidate, visit_directory, mbind, M_bind, sys, view, mret, M_ret. cbn -[entries map_to_list]. by rewrite H, map_to_list_empty.
Qed.

Lemma nothing_to_undo (fs : Fs) : entries fs ROOT = ∅ → rollback_tree g fs [] = (fs, [], Done NoArtifact).
Proof.
  intros H. unfold rollback_tree, rollback, finalized_candidate, cleanup_candidate, mbind, M_bind. rewrite inspect_absent by (by rewrite H). by rewrite !candidate_none.
Qed.

(** From here on all owners are known. *)
#[local] Existing Instance everyone.

Lemma all_known : calm.
Proof. done. Qed.

(** A committed migration can be rolled back and can be finalized. *)
Lemma committed_revertible (c : Prop) (fs : Fs) : committed fs → revertible c True fs.
Proof.
  intros H. pose proof (committed_sound _ H) as Hs. destruct H as (_ & Hl & i & [_ Hi] & Hr). apply root_now in Hr. apply dir_now in Hi as (j & o & Hi & _). destruct (names_apart jbytes) as (Hn1 & Hn2 & Hn3).
  assert (entries fs i !! JOURNAL_NAME = Some j) as Hj by (rewrite Hi; apply fence_map_journal). split; [done|]. split.
  - intros _. rewrite Hr. split; [by apply lookup_singleton_ne|]. split; [by apply lookup_singleton_ne|]. intros (i' & Hi' & Hj' & _). rewrite Hr, lookup_singleton_eq in Hi'. congruence.
  - intros _. exists i. rewrite Hr, lookup_singleton_eq. split; [done|congruence].
Qed.

Lemma committed_finishable (c : Prop) (fs : Fs) : committed fs → finishable c True fs.
Proof.
  intros H. pose proof (committed_sound _ H) as Hs. destruct H as (_ & Hl & i & _ & Hr). apply root_now in Hr. destruct (names_apart jbytes) as (Hn1 & Hn2 & Hn3).
  split; [done|]. rewrite Hr. split; [|intros _; by rewrite lookup_singleton_eq]. intros _. split; [by apply lookup_singleton_ne|]. split; [|done].
  intros i'. by rewrite lookup_singleton_ne.
Qed.

Section Migrate.

Context (declared_schema : str → Z) (fs : Fs) (Hrun : entitled) (Hok : forallb migration_member_ok ms = true).
Context (Hds : ∀ m, m ∈ ms → mm_path m = g_master g → declared_schema (mm_before m) = 3%Z) (Hcl : clean is_old fs) (Hcap : captured fs).

Lemma clean_startable : startable True fs.
Proof. split; [eapply clean_sound, Hcl; by left|]. intros _. split; [done|by eapply clean_open]. Qed.

Lemma migrated_only (r : MigrationStatus) (fs' : Fs) : migrated True r fs' → r = Migrated cl ∧ committed fs'.
Proof. destruct r as [|name]; intros H; [by destruct H|]. by destruct H as [-> H]. Qed.

Lemma migrate_runs : ∃ fs', migrate_tree g declared_schema ms fs [] = (fs', [], Done (Migrated cl)) ∧ committed fs'.
Proof.
  destruct (triple_runs _ _ _ _ _ _ fs (migrate_tree_ok plan entitled (fun _ => all_known) id True (fun _ => I) declared_schema (fun _ => conj Hok Hds)) Hrun clean_startable) as (r & fs' & He & [-> H]%migrated_only). by exists fs'.
Qed.

Lemma migrate_reports (io : list Fate) (fs' : Fs) (io' : list Fate) (r : MigrationStatus) : migrate_tree g declared_schema ms fs io = (fs', io', Done r) → r = Migrated cl ∧ committed fs'.
Proof.
  intros He. apply migrated_only. eapply triple_done_inv; [apply (migrate_tree_ok plan entitled (fun _ => all_known) id True (fun _ => I) declared_schema (fun _ => conj Hok Hds))|apply clean_startable|exact He].
Qed.

End Migrate.

(** C6: No reader sees a mixture: in every state that commands of one user,
    failures, kills and power cuts lead to, when normal access to the configuration
    is not refused, its members are all old or all new, now and after any power
    cut.  The histories are those in which no command starts while an original
    that was put back may still be lost to a power cut ([reached]).  A power cut
    leaves no such original, and neither does a command that returns; a
    recovery that is stopped there and repeated without a power cut between can
    mix the members, as the history at the end of this file does. *)
Theorem access_never_mixed (fs0 fs : Fs) : clean is_old fs0 → reached fs0 fs →
  (∀ fs' io io', refuse_normal_access g fs io = (fs', io', Done tt) → live fs is_old ∨ live fs is_new)
  ∧ (∀ fs', power_cut fs fs' → restorable fs')
  ∧ (∀ cmd fs' io io', restorable fs → about cmd → exec cmd fs io = (fs', io', Done tt) → restorable fs').
Proof.
  intros H0 Hr. pose proof (reached_safe plan _ _ H0 Hr) as Hs. split; [|split].
  - intros fs' io io' Ha. eapply (open_sides (tr := run_owners)); [exact Hs|by eapply access_shut].
  - intros fs' Hcut. by eapply cut_restorable.
  - intros cmd fs' io io' Hres Ha He. by eapply (exec_settled plan cmd fs).
Qed.

(** C8: A migration that the owner of the tree runs, or root, on a tree as it was
    read with nothing of a transaction in it, installs every new image and keeps a
    complete undo under the cleanup name, all of it the owner's and on disk, when
    no call fails.  Whoever runs it and whatever fails, it reports nothing else as
    its success. *)
Theorem migration_commits (declared_schema : str → Z) (fs : Fs) :
  forallb migration_member_ok ms = true → (∀ m, m ∈ ms → mm_path m = g_master g → declared_schema (mm_before m) = 3%Z) → clean is_old fs → captured fs →
  (entitled → ∃ fs', migrate_tree g declared_schema ms fs [] = (fs', [], Done (Migrated cl)) ∧ committed fs')
  ∧ ∀ io fs' io' r, migrate_tree g declared_schema ms fs io = (fs', io', Done r) → r = Migrated cl ∧ committed fs'.
Proof. intros. split; [intros; by apply migrate_runs|]. by apply migrate_reports. Qed.

(** What is known of a state of a history, all owners included. *)
Lemma reached_sound (fs0 fs fs' : Fs) : clean is_old fs0 → reached fs0 fs → fs' = fs ∧ restorable fs ∨ power_cut fs fs' → by_owner ∨ domestic fs' → sound fs'.
Proof.
  intros H0 Hr Hfs Hown. pose proof (reached_safe plan _ _ H0 Hr) as Hs. assert (Safe (tr := run_owners) fs' ∧ restorable fs') as [Hs' Hres].
  { destruct Hfs as [[-> H]|H]; [by split|]. split; [by eapply (cut_safe (tr := run_owners))|by eapply (cut_restorable (tx := tx))]. }
  split; [|done]. destruct Hown as [Hown|Hown]; [|by eapply (domestic_safe run_owners)]. by eapply (trust_less run_owners everyone plan).
Qed.

(** C7: Recovery after a stop: in every state of a history ([reached]) where no
    original that was put back may still be lost, and after a power cut in any
    state of it, recovery that meets no failure returns, and normal access is open
    again.  If it did anything, the old configuration is back on disk and nothing
    of the transaction is left; if not, nothing has changed and the members are on
    one side.  Two states are left out: a cleanup directory whose journal was lost
    to the power cut ([stuck], shown by [undo_can_get_stuck]), and, when it is not
    the owner of the tree who runs the commands, one in which a file of a
    transaction does not belong to the owner yet ([domestic], shown by
    [root_can_get_stuck]). *)
Theorem recovery_reopens (fs0 fs fs' : Fs) :
  clean is_old fs0 → reached fs0 fs → fs' = fs ∧ restorable fs ∨ power_cut fs fs' → by_owner ∨ domestic fs' → ¬ stuck fs' →
  ∃ r fs'', recover_fixed g fs' [] = (fs'', [], Done r) ∧ refuse_normal_access g fs'' [] = (fs'', [], Done tt)
            ∧ match r with NothingToRecover => fs'' = fs' ∧ (live fs'' is_old ∨ live fs'' is_new) | _ => clean is_old fs'' end.
Proof.
  intros H0 Hr Hfs Hown Hst. destruct (reached_sound fs0 fs fs' H0 Hr Hfs Hown) as [Hs' Hres].
  destruct (triple_runs _ _ _ _ _ _ fs' (recover_fixed_ok plan True (fun _ => all_known) False False (eq fs')) I) as (r & fs'' & He & H).
  { do 5 (split; [done|]). done. }
  exists r, fs''. split; [done|]. destruct r; cbn in H.
  - destruct H as [(Hs'' & _ & _ & _ & _ & <-) Hn]. split; [by apply access_open|]. split; [done|]. by apply open_sides.
  - destruct H as (_ & _ & H). split; [|done]. apply access_open. by rewrite (clean_open _ _ H).
  - destruct H as (_ & H). split; [|done]. apply access_open. by rewrite (clean_open _ _ H).
Qed.

(** C23: A committed migration can be undone, whoever made it and whoever runs
    the rollback: one that meets no failure puts every old image back, on disk,
    and leaves nothing of the transaction; and whatever fails, it reports nothing
    else as its success. *)
Theorem rollback_restores (fs : Fs) : committed fs →
  (∃ fs', rollback_tree g fs [] = (fs', [], Done Restored) ∧ clean is_old fs')
  ∧ ∀ io fs' io' r, rollback_tree g fs io = (fs', io', Done r) → r = Restored ∧ clean is_old fs'.
Proof.
  intros H. pose proof (rollback_tree_ok plan True (fun _ => all_known) True) as T. assert (∀ r fs', reverted True r fs' → r = Restored ∧ clean is_old fs') as Hm.
  { intros [| |] fs' Hr; cbn in Hr; [by destruct Hr as [_ []]|by destruct Hr as [[] _]|done]. }
  split.
  - destruct (triple_runs _ _ _ _ _ _ fs T I) as (r & fs' & He & [-> Hr]%Hm); [by apply committed_revertible|]. by exists fs'.
  - intros io fs' io' r He. apply Hm. eapply triple_done_inv; [exact T| |exact He]. by apply committed_revertible.
Qed.

(** C24: A committed migration can be kept, whoever made it and whoever runs
    [finalize]: one that meets no failure removes the undo, on disk, and leaves the
    new configuration, which a later rollback no longer touches; and whatever
    fails, it reports nothing else as its success. *)
Theorem finalize_keeps (fs : Fs) : committed fs →
  (∃ fs', finalize_tree g fs [] = (fs', [], Done Finalized) ∧ clean is_new fs' ∧ rollback_tree g fs' [] = (fs', [], Done NoArtifact))
  ∧ ∀ io fs' io' r, finalize_tree g fs io = (fs', io', Done r) → r = Finalized ∧ clean is_new fs'.
Proof.
  intros H. pose proof (finalize_tree_ok plan True (fun _ => all_known) True) as T. assert (∀ r fs', finished True r fs' → r = Finalized ∧ clean is_new fs') as Hm.
  { intros [|] fs' Hr; cbn in Hr; [by destruct Hr as [_ []]|done]. }
  split.
  - destruct (triple_runs _ _ _ _ _ _ fs T I) as (r & fs' & He & [-> Hr]%Hm); [by apply committed_finishable|]. exists fs'. split; [done|]. split; [done|]. by eapply nothing_to_undo, clean_open.
  - intros io fs' io' r He. apply Hm. eapply triple_done_inv; [exact T| |exact He]. by apply committed_finishable.
Qed.

End Promises.

(** ** The small tree *)

Lemma small_schema_old (m : MigrationMember) : m ∈ tx_members → mm_path m = g_master tx_guard → small_schema (mm_before m) = 3%Z.
Proof. intros Hm _. unfold tx_members, small, small_members in Hm. rewrite !elem_of_cons in Hm. destruct Hm as [->|[->|Hm]]; [done..|by apply elem_of_nil in Hm]. Qed.

#[local] Existing Instance everyone.

Lemma small_committed : ∃ fs, migrate_tree small_guard small_schema small_members small_tree [] = (fs, [], Done (Migrated (cl_of tx_bytes))) ∧ committed fs.
Proof. apply (migrate_runs small_planned); [left; apply small_by_owner|vm_compute; reflexivity|apply small_schema_old|apply small_clean|apply small_captured]. Qed.

Lemma access_never_mixed_witness : live recovered_tree is_old ∨ live recovered_tree is_new.
Proof.
  destruct (access_never_mixed small_planned small_tree recovered_tree small_clean recovered_reached) as [H _]. apply (H recovered_tree [] []). apply access_open. vm_compute. reflexivity.
Defined.

(** Root migrates the tree of another. *)
Lemma migration_commits_witness : ∃ fs, migrate_tree root_guard small_schema small_members small_tree [] = (fs, [], Done (Migrated (cl_of tx_bytes))) ∧ committed fs.
Proof.
  destruct (migration_commits (tx := small_root) root_planned small_schema small_tree) as [H _]; [vm_compute; reflexivity|apply small_schema_old|apply small_clean|apply small_captured|].
  exact (H root_entitled).
Defined.

Lemma recovery_reopens_witness : ∃ r fs, recover_fixed small_guard cut_tree [] = (fs, [], Done r) ∧ refuse_normal_access small_guard fs [] = (fs, [], Done tt).
Proof.
  destruct (recovery_reopens small_planned small_tree interrupted cut_tree) as (r & fs & H1 & H2 & _);
    [apply small_clean|apply interrupted_reached|right; apply interrupted_cut|left; apply small_by_owner|apply cut_tree_not_stuck|]. exists r, fs. split; [exact H1|exact H2].
Defined.

Lemma rollback_restores_witness : ∃ fs fs', committed fs ∧ rollback_tree small_guard fs [] = (fs', [], Done Restored) ∧ clean is_old fs'.
Proof.
  destruct small_committed as (fs & _ & H). destruct (rollback_restores small_planned fs H) as [(fs' & H1 & H2) _]. exists fs, fs'. split; [exact H|]. split; [exact H1|exact H2].
Defined.

Lemma finalize_keeps_witness : ∃ fs fs', committed fs ∧ finalize_tree small_guard fs [] = (fs', [], Done Finalized) ∧ clean is_new fs'.
Proof.
  destruct small_committed as (fs & _ & H). destruct (finalize_keeps small_planned fs H) as [(fs' & H1 & H2 & _) _]. exists fs, fs'. split; [exact H|]. split; [exact H1|exact H2].
Defined.

(** ** Where the promises end *)

(** C30: A recovery does not sync a member that it finds old already.  A migration
    is killed when its files are new; a first recovery is killed between the
    rename of an original and the sync of its directory; a second one runs to its
    end without a failure and removes the fence and the undo; a power cut then
    brings the new image of that member back.  The configuration is mixed, and
    normal access to it is open. *)
Theorem repeated_recovery_can_mix :
  (∃ io, recover_fixed small_guard half_restored [] = (restored_twice, io, Done RolledBack))
  ∧ power_cut restored_twice mixed_tree
  ∧ refuse_normal_access small_guard mixed_tree [] = (mixed_tree, [], Done tt)
  ∧ member_text mixed_tree (mm_path small_include) = Some (mm_after small_include)
  ∧ member_text mixed_tree (mm_path small_master) = Some (mm_before small_master).
Proof.
  split; [exists []; vm_compute; reflexivity|]. split; [apply settle_cut, oldest_possible|]. split; [exact (access_open (tx := small) mixed_tree ltac:(vm_compute; reflexivity))|]. split; vm_compute; reflexivity.
Qed.

(** The journal of a killed migration need not be on disk when a recovery gives
    the fence its cleanup name.  A power cut then leaves a cleanup directory with
    the stage of the journal, which recovery and rollback refuse from then on. *)
Lemma undo_can_get_stuck :
  power_cut renamed_fence stuck_tree ∧ (recover_fixed small_guard stuck_tree []).2 = Failed Refused ∧ (rollback_tree small_guard stuck_tree []).2 = Failed Refused
  ∧ (refuse_normal_access small_guard stuck_tree []).2 = Done tt ∧ (refuse_normal_write small_guard stuck_tree []).2 = Failed Refused.
Proof. split; [apply settle_cut, oldest_possible|]. split; [|split; [|split]]; vm_compute; reflexivity. Qed.

(** Root makes the fence with its own ids and gives it away in a second call.  What
    a kill between the two leaves is refused from then on, to root as well. *)
Lemma root_can_get_stuck :
  (recover_fixed root_guard unowned_fence []).2 = Failed Refused ∧ (rollback_tree root_guard unowned_fence []).2 = Failed Refused
  ∧ (refuse_normal_access root_guard unowned_fence []).2 = Failed Refused.
Proof. split; [|split]; vm_compute; reflexivity. Qed.
